(* ===== verification/_CoqProject ===== *)
-Q . S2P
Prelude.v
BitSet.v
FieldElement.v
Interval.v
Word.v
Register.v
SortedSet.v
Logical.v
Memory.v
Instruction.v
Executor.v
Machine.v
Safety.v
Dfa.v
Element.v
Trace.v
Term.v
TermFacts.v
TermReads.v
TermRange.v
Simplify.v
Iter.v
Hash.v
TermRegisters.v
Constraint.v
ConstraintFacts.v
Lookup.v
LookupFacts.v
Invert.v
Sexp.v
Air.v
Lower.v
LowerTerms.v
LowerNormal.v
LowerGroups.v
LowerNames.v
LowerFacts.v
LowerSound.v
Poly.v
PolyFacts.v
Vectorize.v
CodeSim.v
VectorizeFacts.v
VectorizeSound.v
FieldLower.v
Limbs.v
LimbsFacts.v
Equation.v
EquationTerms.v
EquationAlloc.v
EquationVars.v
EquationSplit.v
EquationSound.v
Source.v
SexpParser.v
SexpLexer.v
SexpFacts.v
SexpSound.v
Bits.v
Codec.v
CodecFacts.v
SplitWord.v
EquationEnds.v
Bitwidth.v
BitwidthFacts.v
BitwidthCompute.v
