(* ===== verification/Prelude.v ===== *)
(** * go-corset: a verification development

    go-corset compiles constraint languages to arithmetic constraints over prime
    fields and checks that traces satisfy them.  A trace is a set of modules, each
    with columns of field elements; a schema has constraints over these columns.
    Terms of the intermediate representation are evaluated on the rows of a module;
    a constraint accepts a trace when its terms have the right values there.  The
    newer part of the program, [zkc], has a virtual machine of word-level
    instructions, whose runs are what is proved with such constraints.

    ** Parts, files and correspondence

    Foundations.
    - [Prelude]: outcomes of Go functions ([result]: a value, an [error], a panic),
      slices, machine integers, congruences, bits.
    - [BitSet]: [pkg/util/collection/bit/set.go].  [SortedSet]: sorted-array sets,
      [pkg/util/collection/set].  [Hash]: hash sets and maps,
      [pkg/util/collection/hash].  [Iter]: iterators, [pkg/util/collection/iter] and
      the loops of [pkg/util/collection/enum].
    - [FieldElement]: Montgomery arithmetic of the 32-bit fields ([koalabear],
      [mersenne31], [gf8209], [gf251] under [pkg/util/field]), one definition over
      the constants of a field.  [Element]: the interface of [pkg/util/field/element.go]
      as a class with laws; the Montgomery fields are instances.
    - [Interval]: [pkg/util/math], extended integers and intervals.
    - [Logical]: propositions over equalities, [pkg/util/logical].
    - [Poly], [PolyFacts]: monomials and polynomials, [pkg/util/poly].

    The virtual machine, [pkg/zkc/vm].
    - [Word]: the interface of machine words and its unbounded implementation.
    - [Register]: [pkg/schema/register].  [Memory]: all kinds of memory.
    - [Instruction], [Executor], [Machine]: the instruction set, the word executor
      and the base machine with its call stack; [Machine.execute] is one step of
      [Base.Execute], and the rules of [Machine.step] are the same step as a relation.
    - [Safety]: the type system of programs and states, and its preservation.
    - [Dfa]: the data-flow pass over vectors of micro-instructions, the write map,
      the branch table and [Vector.Validate] ([pkg/asm/io/micro/dfa],
      [pkg/zkc/vm/instruction/vector.go]).
    - [Vectorize]: the pass that merges instructions into vectors
      ([pkg/zkc/compiler/codegen/vectorize.go]).  [CodeSim]: machines that run
      rearranged code; [VectorizeFacts] and [VectorizeSound]: the pass rearranges code.
    - [FieldLower]: the lowering of word machines to field machines
      ([pkg/zkc/vm/lower.go]).

    Terms and constraints.
    - [Trace]: columns, modules and traces, [pkg/trace].
    - [Term]: arithmetic and logical terms, [pkg/ir/term], with evaluation, tests,
      shifts, extents, required cells, value ranges, substitution and negation;
      [TermRegisters]: the registers of a term; [Simplify]: the simplifier.
      [TermFacts], [TermReads], [TermRange] have the theorems.
    - [Constraint], [Lookup]: [pkg/schema/constraint]; [ConstraintFacts] and
      [LookupFacts] say which traces they accept.

    Lowering to the arithmetic level.
    - [Invert]: inverses of field elements, one by one and in batches
      ([pkg/util/field/batch_invert.go]).  [Sexp]: the S-expressions that name
      generated columns ([pkg/util/source/sexp]).
    - [Air]: terms and constraints of [pkg/ir/air], the builder of modules
      ([pkg/ir/module_builder.go]), and the gadget that adds a column of inverses with
      its constraint and its assignment.  [Lower]: [pkg/ir/mir/lower.go].
    - [LowerTerms] (expressions), [LowerNormal] (expansion and simplification of
      logical terms), [LowerGroups] (sums that do not wrap around), [LowerNames] (the
      names of generated columns and the state of the builder), [LowerFacts] (what
      the lowered terms mean on a row) and [LowerSound] (constraints and modules)
      have the proof that lowering is sound.

    - [Bitwidth]: the builder of schemas ([pkg/ir/schema_builder.go]), the gadget for bit
      widths ([pkg/ir/air/gadgets/bitwidth.go]) with the assignment of its proof modules,
      and the lowering of range constraints.  [BitwidthFacts]: what its constraints
      enforce; [BitwidthCompute]: the columns that the assignment computes satisfy them.

    Splitting for a field, [pkg/schema/register] and [pkg/schema/agnostic].
    - [Limbs]: the limbs of registers and constants, the map of limbs of a module and
      the allocator of registers; [LimbsFacts] has their theorems.
    - [Equation]: polynomials over accesses, their ranges and widths, the splitting of
      variables, and [Equation.Split], which cuts an equation into chunks with carries.
      [EquationTerms] (polynomials as integers), [EquationAlloc] (allocated registers
      and the values that their fillers compute), [EquationVars] (split variables),
      [EquationSplit] (chunks and carries), [EquationSound] and [EquationEnds]
      (termination) have its theorems.

    Source text, [pkg/util/source].
    - [Source]: spans, files, lines, syntax errors and source maps.
    - [SexpParser]: the parser of S-expressions ([sexp/parser.go]) over runes, and their
      printing.  [SexpLexer] has a reference lexer and the grammar; [SexpFacts] and
      [SexpSound] show that the parser decides it.

    Bits and bytes.
    - [Bits]: [pkg/util/collection/bit], bits of byte arrays in both orders, the reader
      and the decoder of packed arrays.
    - [Codec]: the inputs and outputs of a machine as packed bytes ([pkg/zkc/vm/word.go]
      and [machine.go]); [CodecFacts] has the round trips.
    - [SplitWord]: the splitters of big-endian words ([pkg/util/field/util.go],
      [pkg/ir/assignment/computed_register.go]), which fill the registers that
      [Equation] allocates.

    State is passed explicitly.  A Go method with a pointer receiver becomes a
    function that returns the new state; a function that can fail or panic returns a
    [result].  Interfaces are classes ([Element], [Word], [Iterator], [Hasher],
    [Evaluable], [Testable]), what callers rely on is a class of laws beside them,
    and each implementation is an instance of both.  Go maps are [gmap]; an order of
    iteration that Go leaves open is any permutation.  The buffers that a lookup
    shares with its hash set are locations of a store ([Lookup.State]).

    ** What is shown

    - The machine: a booted typed program stays typed ([machine_type_safety]) and its
      control instructions never fail ([machine_control_safety]); the executable step
      is the step relation; calls touch only the return registers of the caller;
      the chunked run loops are one long run.
    - Vectors: the write map and validation are sound for every execution of a vector,
      and exact where no dead code interferes: the pass starts at instructions that
      nothing leads to as well, and reports conflicts with them.  Both, with the branch
      table, are sound for runs of the machine.
    - Vectorisation ends, keeps vectors free of conflicts, and the program it makes
      ends as the original does, with the same memories, output and frames.  Control
      must stay inside the vectors, which validation demands too.
    - The polynomials that instructions are lowered to for the field machine have the
      values that the word machine computes, where products have no zero constant and
      concatenations fit their targets.
    - Instructions, memories and fields compute their mathematical functions, on
      every branch, with their errors.
    - Terms: evaluation is the integer denotation modulo the prime; terms over
      existing columns never panic; the reported cells and ranges are exactly what is
      read; negation preserves meaning, and so does simplification where its
      differences lose no constant; value ranges are sound modulo the prime for terms
      without zero exponents.
    - Constraints: each kind accepts exactly the traces that satisfy its statement
      about rows (permutations: between filled columns of one height), and constraints
      that pass the consistency check do not panic.
    - Lowering: when the arithmetic constraints of a module, with its generated
      columns, accept a trace, the vanishing, interleaving, lookup and permutation
      constraints that they came from accept it; on a row, the lowered terms vanish
      exactly when the logical term holds; the computed columns of inverses satisfy
      their constraints.  The cells must be within their declared masks and the widths
      of their range constraints, and comparisons must be [comparable]: not between two
      terms of which neither is a constant but both become one, and with at most one
      constant that can surface on each side, for then simplification loses none.
    - Range constraints: lowering never fails in a schema without modules of the source
      that are named like proof modules, ends because the limbs are narrower, and a
      trace that satisfies what is added has no wider value in the registers, whatever a
      prover puts in the proof modules ([range_lowering]); the range constraint itself
      accepts it when its powers of two are below the modulus.  The columns that the program
      computes for values within the width satisfy it ([proof_columns_accepted]).
    - Limbs: widths add up, and constants split into digits that add up.  Splitting an
      equation never panics; the equations it makes imply the original one, and hold,
      with the allocated registers filled as the program fills them, where the
      original holds.  They can be checked in each of the configured fields when the
      targets, with their carries, fit the bandwidth ([equation_split_field]), which the
      code does not check.  The loop that looks for a width of chunks ends when chunks of
      one bit fit ([equation_split_returns]), which they need not.  [EquationSound] has
      an example of each failure.
    - Polynomials: the operations are those of the integers on values; they keep a
      normal form that is unique for the coefficients, which equality decides.
    - Collections: sets, maps and iterators implement their abstract counterparts.
    - Parsing returns on every text and decides the grammar of S-expressions over the
      tokens of a reference lexer; the span of every node has exactly the text of the
      node; what an expression prints to parses to the expression.
    - Packed encoding: full rounds of values decode to themselves after encoding, and
      whole rounds of bytes encode to themselves after decoding; decoding the inputs of
      a machine returns, with an error exactly for missing and unknown names; the limbs
      that words are split into are the digits of their values.

    ** Fuel

    Loops that are not structural take fuel, and a theorem says that the fuel given
    is enough: the depth of a term for [Simplify.SimplifyExpr], the number of
    remaining items for the loops of [Iter] and the worklists of [Lower], the length of a vector for [Dfa],
    the jumps of a function for [Vectorize],
    64 doublings for [Limbs.double_width], the bits to cut for [Equation.chunk_widths],
    the bits of the modulus for [FieldElement.Inverse], the number of rows for
    searches, twice the remaining runes for the parser, the bits of the array for
    [Bits.decode_loop], the width for [Bitwidth.Constrain] and 65 doublings for
    [Bitwidth.nearest_powers].  [Bits.Width] has 64 doublings, and never ends for bounds that
    they do not reach.  [Machine.ExecuteAll] has no bound in the program, so its theorem is
    about every fuel.  The width of the chunks is halved in [Equation.chunk_loop], so 65
    rounds reach the width zero, which never changes again: running out of fuel means
    running for ever.

    ** Not modelled

    Parsing and code generation of the source languages ([pkg/corset],
    [pkg/zkc/compiler], [pkg/asm/assembler]), the command line and the inspector,
    binary and JSON files; printing, apart from plain S-expressions, and their quoting
    and translation.  BLS12-377 elements wrap a library.  The executor over field
    elements ([machine/field.go]) panics on every instruction.  Of the lowering, sorted
    constraints, which need the gadget for sorting, and assertions.  The splitting of
    assignments, which is a component of its own. *)

From Stdlib Require Import ZArith Lia Znumtheory.
From stdpp Require Import base numbers list option strings sorting.

Open Scope Z_scope.

(** ** Outcomes of Go functions

    A Go function of the source either returns normally, returns a non-nil
    [error], or panics (an explicit [panic], an out-of-range index, a division
    by zero).  [OutOfFuel] is produced only by a fuelled loop that runs out of
    fuel; each such loop has a theorem saying that it never does. *)

Inductive fault : Type :=
  | Error (msg : string)
  | Panic (msg : string)
  | OutOfFuel.

Inductive result (A : Type) : Type :=
  | Ok (a : A)
  | Fault (f : fault).
Arguments Ok {A} a.
Arguments Fault {A} f.

#[export] Instance fault_eq_dec : EqDecision fault.
Proof. solve_decision. Defined.

#[export] Instance result_ret : MRet result := fun A a => Ok a.
#[export] Instance result_bind : MBind result := fun A B k m =>
  match m with Ok a => k a | Fault f => Fault f end.
#[export] Instance result_fmap : FMap result := fun A B k m =>
  match m with Ok a => Ok (k a) | Fault f => Fault f end.

Definition is_ok {A} (m : result A) : bool :=
  match m with Ok _ => true | Fault _ => false end.

Lemma bind_ok {A B} (k : A -> result B) (m : result A) (b : B) :
  (m ≫= k) = Ok b <-> exists a, m = Ok a /\ k a = Ok b.
Proof.
  destruct m as [a|f]; simpl; split.
  - intros H. by exists a.
  - intros (a' & [= ->] & H). exact H.
  - done.
  - intros (a' & H & _). discriminate.
Qed.

Lemma Ok_inj {A} (a b : A) : Ok a = Ok b -> a = b.
Proof. by intros [= ->]. Qed.

(** Inverts every hypothesis saying that a bind returned normally. *)
Ltac inv_ok :=
  repeat match goal with
  | H : (_ ≫= _) = Ok _ |- _ =>
      let a := fresh "a" in let Ha := fresh "Ha" in
      apply bind_ok in H as (a & Ha & H)
  | H : Ok _ = Ok _ |- _ => apply Ok_inj in H
  | H : Fault _ = Ok _ |- _ => discriminate H
  | H : mret _ = Ok _ |- _ => apply Ok_inj in H
  end.

Create HintDb gocorset.
Create Rewrite HintDb gocorset.

(** ** Go slices

    Indexing a slice out of range panics; assigning to an element does too. *)

Definition index_panic : fault := Panic "index out of range".

Definition slice_get {A} (l : list A) (i : nat) : result A :=
  match l !! i with Some a => Ok a | None => Fault index_panic end.

Definition slice_set {A} (l : list A) (i : nat) (a : A) : result (list A) :=
  if decide (i < length l)%nat then Ok (<[i := a]> l) else Fault index_panic.

Lemma slice_get_ok {A} (l : list A) i a : slice_get l i = Ok a <-> l !! i = Some a.
Proof. unfold slice_get. destruct (l !! i); split; congruence. Qed.

Lemma slice_set_ok {A} (l l' : list A) i a :
  slice_set l i a = Ok l' <-> (i < length l)%nat /\ l' = <[i := a]> l.
Proof. unfold slice_set. case_decide; split.
  - intros [= <-]. done.
  - by intros [_ ->].
  - discriminate.
  - tauto.
Qed.

Lemma slice_set_length {A} (l l' : list A) i a :
  slice_set l i a = Ok l' -> length l' = length l.
Proof. intros [_ ->]%slice_set_ok. apply length_insert. Qed.

Lemma filter_none {A} (P : A -> Prop) `{!forall x, Decision (P x)} (l : list A) :
  (forall x, x ∈ l -> ~ P x) -> filter P l = [].
Proof.
  induction l as [|x l IH]; intros Hn; [done|].
  rewrite filter_cons_False by (apply Hn, list_elem_of_here).
  apply IH. intros y Hy. apply Hn. by apply list_elem_of_further.
Qed.

Lemma filter_fmap {A B} (f : A -> B) (P : B -> Prop) `{!forall x, Decision (P x)} (l : list A) :
  filter P (f <$> l) = f <$> filter (fun x => P (f x)) l.
Proof.
  induction l as [|x l IH]; [done|].
  rewrite fmap_cons, !filter_cons, IH. by case_decide.
Qed.

Lemma filter_ext_in {A} (P Q : A -> Prop) `{!forall x, Decision (P x), !forall x, Decision (Q x)} (l : list A) :
  (forall x, x ∈ l -> P x <-> Q x) -> filter P l = filter Q l.
Proof.
  induction l as [|x l IH]; intros Hiff; [done|].
  rewrite !filter_cons, IH by (intros y Hy; apply Hiff; by apply list_elem_of_further).
  pose proof (Hiff x (list_elem_of_here _ _)). by repeat case_decide; try tauto.
Qed.

Lemma seq_sorted a n : StronglySorted lt (seq a n).
Proof.
  revert a. induction n as [|n IH]; intros a; constructor; [apply IH|].
  apply Forall_forall. intros x Hx%elem_of_seq. lia.
Qed.

Lemma StronglySorted_filter {A} (R : relation A) (P : A -> Prop) `{!forall x, Decision (P x)} (l : list A) :
  StronglySorted R l -> StronglySorted R (filter P l).
Proof.
  induction 1 as [|x l Hs IH Hf]; [constructor|]. rewrite filter_cons. case_decide; [|done].
  constructor; [done|]. apply Forall_forall. intros y [_ Hy]%list_elem_of_filter.
  by eapply Forall_forall in Hf.
Qed.

(** ** Machine-width unsigned integers *)

Definition wrap (w z : Z) : Z := z mod 2 ^ w.
Definition u32 (z : Z) : Z := wrap 32 z.
Definition u64 (z : Z) : Z := wrap 64 z.

Lemma wrap_bound w z : 0 <= w -> 0 <= wrap w z < 2 ^ w.
Proof. intros. apply Z.mod_pos_bound. lia. Qed.

Lemma wrap_small w z : 0 <= z < 2 ^ w -> wrap w z = z.
Proof. apply Z.mod_small. Qed.

Lemma u32_small z : 0 <= z < 2 ^ 32 -> u32 z = z.
Proof. apply wrap_small. Qed.

Lemma u64_small z : 0 <= z < 2 ^ 64 -> u64 z = z.
Proof. apply wrap_small. Qed.

Lemma u32_bound z : 0 <= u32 z < 2 ^ 32.
Proof. by apply wrap_bound. Qed.

Lemma u64_bound z : 0 <= u64 z < 2 ^ 64.
Proof. by apply wrap_bound. Qed.

(** ** Congruence modulo [m] *)

Definition eqm (m x y : Z) : Prop := (m | x - y).

#[export] Instance eqm_equiv m : Equivalence (eqm m).
Proof.
  split; unfold eqm.
  - intros x. rewrite Z.sub_diag. apply Z.divide_0_r.
  - intros x y H. apply Z.divide_opp_r in H. by replace (y - x) with (- (x - y)) by lia.
  - intros x y z H1 H2. replace (x - z) with ((x - y) + (y - z)) by lia.
    by apply Z.divide_add_r.
Qed.

#[export] Instance eqm_add m : Proper (eqm m ==> eqm m ==> eqm m) Z.add.
Proof.
  intros a a' Ha b b' Hb. unfold eqm in *.
  replace (a + b - (a' + b')) with ((a - a') + (b - b')) by lia. by apply Z.divide_add_r.
Qed.

#[export] Instance eqm_sub m : Proper (eqm m ==> eqm m ==> eqm m) Z.sub.
Proof.
  intros a a' Ha b b' Hb. unfold eqm in *.
  replace (a - b - (a' - b')) with ((a - a') - (b - b')) by lia. by apply Z.divide_sub_r.
Qed.

#[export] Instance eqm_mul m : Proper (eqm m ==> eqm m ==> eqm m) Z.mul.
Proof.
  intros a a' Ha b b' Hb. unfold eqm in *.
  replace (a * b - a' * b') with ((a - a') * b + a' * (b - b')) by lia.
  apply Z.divide_add_r; [by apply Z.divide_mul_l | by apply Z.divide_mul_r].
Qed.

Lemma eqm_iff_mod m x y : m <> 0 -> eqm m x y <-> x mod m = y mod m.
Proof.
  intros Hm. unfold eqm. rewrite <- Z.mod_divide by done. split; intros H.
  - replace x with ((x - y) + y) by lia. by rewrite Zplus_mod, H, Z.add_0_l, Zmod_mod.
  - by rewrite Zminus_mod, H, Z.sub_diag, Zmod_0_l.
Qed.

Lemma eqm_mod m x : eqm m (x mod m) x.
Proof.
  destruct (decide (m = 0)) as [->|Hm]; [by rewrite Z.mod_0_r|].
  apply eqm_iff_mod; [done | apply Zmod_mod].
Qed.

Lemma eqm_add_mul m x t : eqm m (x + t * m) x.
Proof. exists t. lia. Qed.

Lemma eqm_add_self m x : eqm m (x + m) x.
Proof. exists 1. lia. Qed.

Lemma eqm_sub_self m x : eqm m (x - m) x.
Proof. exists (-1). lia. Qed.

Lemma eqm_pow m a b n : eqm m a b -> eqm m (a ^ n) (b ^ n).
Proof.
  intros Hab. destruct (Z.le_gt_cases 0 n) as [Hn|Hn]; [|by rewrite !Z.pow_neg_r].
  revert n Hn. apply natlike_ind; [done|]. intros n Hn IH.
  rewrite !Z.pow_succ_r by done. by apply eqm_mul.
Qed.

Lemma eqm_small m x y : 0 <= x < m -> 0 <= y < m -> eqm m x y -> x = y.
Proof. intros Hx Hy. rewrite eqm_iff_mod by lia. by rewrite !Z.mod_small. Qed.

Lemma eqm_mod_unique m x y : 0 <= x < m -> eqm m x y -> x = y mod m.
Proof. intros Hx. rewrite eqm_iff_mod by lia. by rewrite (Z.mod_small x). Qed.

Lemma eqm_cancel_r m x y a :
  m <> 0 -> Z.gcd a m = 1 -> eqm m (x * a) (y * a) -> eqm m x y.
Proof.
  intros Hm Hg. unfold eqm. rewrite <- Z.mul_sub_distr_r, Z.mul_comm.
  intros H. apply (Z.gauss m a); [done | by rewrite Z.gcd_comm].
Qed.

(** ** Bitwise reasoning

    [zbits] proves an equation of integers built from [lor], [land], [lxor],
    shifts by non-negative amounts and [Z.ones], bit by bit. *)

Ltac zbits_step :=
  match goal with
  | |- context [Z.testbit (Z.lor _ _) _] => rewrite Z.lor_spec
  | |- context [Z.testbit (Z.land _ _) _] => rewrite Z.land_spec
  | |- context [Z.testbit (Z.lxor _ _) _] => rewrite Z.lxor_spec
  | |- context [Z.testbit 0 _] => rewrite Z.testbit_0_l
  | |- context [Z.testbit (Z.shiftr ?a ?n) ?m] => rewrite (Z.shiftr_spec a n m) by lia
  | |- context [Z.testbit (Z.shiftl ?a ?n) ?m] =>
      destruct (Z.lt_ge_cases m n);
      [rewrite (Z.shiftl_spec_low a n m) by lia | rewrite (Z.shiftl_spec_high a n m) by lia]
  | |- context [Z.testbit (Z.ones ?n) ?m] =>
      rewrite (Z.testbit_ones_nonneg n m) by lia; destruct (Z.ltb_spec m n)
  end.

Ltac zbits_close :=
  rewrite ?andb_true_r, ?andb_false_r, ?orb_false_r, ?orb_false_l, ?xorb_false_r, ?xorb_false_l;
  first [reflexivity | lia | congruence | f_equal; lia].

Ltac zbits :=
  apply Z.bits_inj'; intros ? ?; repeat zbits_step; zbits_close.

Lemma lor_shifted a c n : 0 <= n -> 0 <= c < 2 ^ n -> Z.lor (a * 2 ^ n) c = a * 2 ^ n + c.
Proof.
  intros Hn Hc. symmetry. apply Z.add_nocarry_lor. apply Z.bits_inj'. intros k Hk.
  rewrite Z.land_spec, Z.testbit_0_l. destruct (Z.lt_ge_cases k n).
  - by rewrite Z.mul_pow2_bits_low by done.
  - rewrite <- (Z.mod_small c (2 ^ n)), Z.mod_pow2_bits_high by lia. by rewrite andb_false_r.
Qed.

#[export] Hint Resolve u32_bound u64_bound eqm_mod : gocorset.
#[export] Hint Rewrite @bind_ok @slice_get_ok @slice_set_ok : gocorset.
