(* ===== verification/BitSet.v ===== *)
(** * Bit sets

    Models [pkg/util/collection/bit/set.go]: sets of unsigned integers stored
    as an array of 64-bit words, and the iterator over their elements.  A [uint]
    is a [nat], a word a [Z] below [2^64]. *)

From Stdlib Require Import ZArith Lia.
From stdpp Require Import base numbers list option strings sets sorting.
From S2P Require Import Prelude.

Open Scope Z_scope.

Record Set_ : Type := mkSet { words : list Z }.

(** The word and the bit of a value. *)
Definition word_of (val : nat) : nat := (val / 64)%nat.
Definition bit_of (val : nat) : nat := (val mod 64)%nat.

Arguments word_of : simpl never.
Arguments bit_of : simpl never.

(** [uint64(1) << bit] *)
Definition mask_of (bit : nat) : Z := u64 (Z.shiftl 1 (Z.of_nat bit)).
Arguments mask_of : simpl never.

Definition Clone (p : Set_) : Set_ := mkSet (words p).

(** [for len(p.words) < n { p.words = append(p.words, 0) }] *)
Definition grow (ws : list Z) (n : nat) : list Z := ws ++ replicate (n - length ws) 0.

Definition Insert (p : Set_) (val : nat) : Set_ :=
  let word := word_of val in
  let ws := grow (words p) (S word) in
  mkSet (alter (fun w => Z.lor w (mask_of (bit_of val))) word ws).

Definition InsertAll (p : Set_) (vals : list nat) : Set_ := foldl Insert p vals.

Definition Remove (p : Set_) (val : nat) : Set_ :=
  let word := word_of val in
  if decide (word < length (words p))%nat
  then mkSet (alter (fun w => Z.land w (Z.lxor (Z.ones 64) (mask_of (bit_of val)))) word (words p))
  else p.

(** The word-wise loop of [Union]: the new words, and whether one changed. *)
Fixpoint union_words (ws qs : list Z) : list Z * bool :=
  match ws, qs with
  | w :: ws, q :: qs =>
      let tmp := Z.lor w q in
      let '(rest, changed) := union_words ws qs in
      (tmp :: rest, negb (tmp =? w) || changed)
  | _, _ => (ws, false)
  end.

Definition Union_ (p bits : Set_) : Set_ * bool :=
  let '(ws, changed) := union_words (grow (words p) (length (words bits))) (words bits) in
  (mkSet ws, changed).

Definition Contains (p : Set_) (val : nat) : bool :=
  match words p !! word_of val with
  | None => false
  | Some w => negb (Z.land w (mask_of (bit_of val)) =? 0)
  end.

(** [for bits != 0 { if bits&1 == 1 { count++ }; bits = bits >> 1 }] *)
Fixpoint count_word (fuel : nat) (bits : Z) (count : nat) : nat :=
  match fuel with
  | O => count
  | S k =>
      if bits =? 0 then count
      else count_word k (Z.shiftr bits 1) (if Z.land bits 1 =? 1 then S count else count)
  end.

Definition Count (p : Set_) : nat := foldl (fun count w => count_word 64 w count) 0%nat (words p).

Definition NewSet (size : nat) : Set_ := mkSet (replicate ((size + 63) / 64) 0).

(** Set the [i]th bit to [v]; out of range panics. *)
Definition SetBit (p : Set_) (i : nat) (v : bool) : result Set_ :=
  let x := mask_of (bit_of i) in
  w ← slice_get (words p) (word_of i);
  ws ← slice_set (words p) (word_of i)
         (if v then Z.lor w x else Z.land w (Z.lxor (Z.ones 64) x));
  Ok (mkSet ws).

Definition Get (p : Set_) (i : nat) : result bool :=
  w ← slice_get (words p) (word_of i);
  Ok (negb (Z.land w (mask_of (bit_of i)) =? 0)).

(** ** The iterator *)

Record iterator : Type := mkIterator { it_words : list Z; it_value : nat }.

Definition Iter (p : Set_) : iterator := mkIterator (words p) 0.

(** [for word < n && (words[word] == 0 || words[word] < mask) { bit = 0; mask = 1; word++ }],
    on the words from [word] on. *)
Fixpoint skip_words (rest : list Z) (word bit : nat) : option (nat * nat * Z) :=
  match rest with
  | [] => None
  | w :: rest =>
      if (w =? 0) || (w <? mask_of bit) then skip_words rest (S word) 0 else Some (word, bit, w)
  end.

(** [for i := bit; i < 64; i++ { ... }] *)
Fixpoint find_bit (fuel : nat) (w : Z) (i : nat) : option nat :=
  match fuel with
  | O => None
  | S k => if negb (Z.land w (mask_of i) =? 0) then Some i else find_bit k w (S i)
  end.

Definition HasNext (p : iterator) : bool * iterator :=
  let n := length (it_words p) in
  let word := word_of (it_value p) in
  match skip_words (drop word (it_words p)) word (bit_of (it_value p)) with
  | Some (word, bit, w) =>
      match find_bit (64 - bit) w bit with
      | Some i => (true, mkIterator (it_words p) (word * 64 + i))
      | None => (false, mkIterator (it_words p) (n * 64))
      end
  | None => (false, mkIterator (it_words p) (n * 64))
  end.

Definition Next (p : iterator) : nat * iterator :=
  (it_value p, mkIterator (it_words p) (it_value p + 1)).

(** [enum.Collect]: [for iter.HasNext() { items = append(items, iter.Next()) }] *)
Fixpoint collect (fuel : nat) (p : iterator) : option (list nat) :=
  match fuel with
  | O => None
  | S k =>
      let '(more, p) := HasNext p in
      if more
      then let '(x, p) := Next p in rest ← collect k p; Some (x :: rest)
      else Some []
  end.

Definition Collect (p : iterator) : option (list nat) :=
  collect (S (64 * length (it_words p))) p.

(** [enum.Count]: visits the items that are left, and so drains the iterator. *)
Fixpoint iterator_count (fuel : nat) (p : iterator) (count : nat) : option (nat * iterator) :=
  match fuel with
  | O => None
  | S k =>
      let '(more, p) := HasNext p in
      if more then let '(_, p) := Next p in iterator_count k p (S count) else Some (count, p)
  end.

Definition IteratorCount (p : iterator) : option (nat * iterator) :=
  iterator_count (S (64 * length (it_words p))) p 0.

(** ** Membership *)

(** Every word is a [uint64]. *)
Definition wf (p : Set_) : Prop := Forall (fun w => 0 <= w < 2 ^ 64) (words p).

Lemma wf_lookup p i w : wf p -> words p !! i = Some w -> 0 <= w < 2 ^ 64.
Proof. intros Hwf Hi. exact (Forall_lookup_1 _ _ _ _ Hwf Hi). Qed.

Lemma word_bit val : val = (64 * word_of val + bit_of val)%nat.
Proof. apply Nat.div_mod_eq. Qed.

Lemma bit_of_lt val : (bit_of val < 64)%nat.
Proof. by apply Nat.mod_upper_bound. Qed.

Lemma word_of_eq word bit : (bit < 64)%nat -> word_of (64 * word + bit) = word.
Proof. intros. unfold word_of. rewrite Nat.mul_comm, Nat.div_add_l by lia. rewrite Nat.div_small; lia. Qed.

Lemma bit_of_eq word bit : (bit < 64)%nat -> bit_of (64 * word + bit) = bit.
Proof.
  intros. unfold bit_of. rewrite Nat.add_comm, Nat.mul_comm, Nat.Div0.mod_add. by apply Nat.mod_small.
Qed.

Lemma word_bit_inj v w : word_of v = word_of w -> bit_of v = bit_of w -> v = w.
Proof. rewrite (word_bit v), (word_bit w) at 3. by intros -> ->. Qed.

Lemma mask_of_pow bit : (bit < 64)%nat -> mask_of bit = 2 ^ Z.of_nat bit.
Proof.
  intros. unfold mask_of. rewrite Z.shiftl_1_l. apply u64_small. split; [lia|].
  apply Z.pow_lt_mono_r; lia.
Qed.

Lemma mask_test w bit : (bit < 64)%nat -> negb (Z.land w (mask_of bit) =? 0) = Z.testbit w (Z.of_nat bit).
Proof.
  intros Hb. rewrite mask_of_pow by done. destruct (Z.testbit w (Z.of_nat bit)) eqn:Ht.
  - apply negb_true_iff, Z.eqb_neq. intros H.
    apply (f_equal (fun z => Z.testbit z (Z.of_nat bit))) in H.
    rewrite Z.land_spec, Ht, Z.pow2_bits_true, Z.testbit_0_l in H by lia. done.
  - apply negb_false_iff, Z.eqb_eq. apply Z.bits_inj'. intros i Hi.
    rewrite Z.land_spec, Z.testbit_0_l, Z.pow2_bits_eqb by lia.
    destruct (Z.eqb_spec (Z.of_nat bit) i) as [<-|]; [by rewrite Ht | by rewrite andb_false_r].
Qed.

Lemma mask_testbit bit i : (bit < 64)%nat -> 0 <= i -> Z.testbit (mask_of bit) i = (Z.of_nat bit =? i).
Proof. intros Hb Hi. rewrite mask_of_pow, Z.pow2_bits_eqb by lia. done. Qed.

Lemma Contains_testbit p v :
  Contains p v = match words p !! word_of v with
                 | Some w => Z.testbit w (Z.of_nat (bit_of v)) | None => false end.
Proof. unfold Contains. case_match; [|done]. apply mask_test, bit_of_lt. Qed.

Lemma grow_lookup ws n i :
  grow ws n !! i = match ws !! i with Some w => Some w | None => if decide (i < n)%nat then Some 0 else None end.
Proof.
  unfold grow. destruct (ws !! i) eqn:Hi.
  - by apply lookup_app_l_Some.
  - apply lookup_ge_None in Hi. rewrite lookup_app_r by done.
    case_decide; [apply lookup_replicate_2; lia | apply lookup_replicate_None; lia].
Qed.

Lemma grow_length ws n : length (grow ws n) = Nat.max (length ws) n.
Proof. unfold grow. rewrite length_app, length_replicate. lia. Qed.

(** The value of a bit of a word list, out-of-range words being empty. *)
Definition bit_at (ws : list Z) (v : nat) : bool :=
  match ws !! word_of v with Some w => Z.testbit w (Z.of_nat (bit_of v)) | None => false end.

Lemma bit_at_grow ws n v : bit_at (grow ws n) v = bit_at ws v.
Proof. unfold bit_at. rewrite grow_lookup. repeat case_match; simplify_eq; try done; apply Z.testbit_0_l. Qed.

Lemma Insert_Contains p v w : Contains (Insert p v) w = bool_decide (w = v) || Contains p w.
Proof.
  rewrite !Contains_testbit. fold (bit_at (words p) w). rewrite <- (bit_at_grow _ (S (word_of v))).
  unfold bit_at, Insert. cbn [words]. destruct (decide (word_of v = word_of w)) as [He|He].
  - rewrite He, list_lookup_alter_eq, grow_lookup, <- He.
    assert (exists x, (match words p !! word_of v with Some w => Some w
      | None => if decide (word_of v < S (word_of v))%nat then Some 0 else None end) = Some x) as [x ->].
    { case_match; [eauto|]. rewrite decide_True by lia. eauto. }
    cbn. rewrite Z.lor_spec, mask_testbit by (apply bit_of_lt || lia). rewrite orb_comm. f_equal.
    apply eq_true_iff_eq. rewrite bool_decide_eq_true, Z.eqb_eq. split; [|by intros ->].
    intros Hb%Nat2Z.inj. symmetry. by apply word_bit_inj.
  - rewrite list_lookup_alter_ne by done. rewrite bool_decide_false by congruence. done.
Qed.

Lemma Remove_Contains p v w : Contains (Remove p v) w = bool_decide (w <> v) && Contains p w.
Proof.
  rewrite !Contains_testbit. unfold Remove. case_decide as Hl; cbn [words].
  - destruct (decide (word_of v = word_of w)) as [He|He].
    + rewrite He, list_lookup_alter_eq. destruct (words p !! word_of w) as [x|] eqn:Hx; cbn; [|by rewrite andb_false_r].
      rewrite Z.land_spec, Z.lxor_spec, mask_testbit, Z.testbit_ones_nonneg by (apply bit_of_lt || lia).
      pose proof (bit_of_lt w). rewrite (proj2 (Z.ltb_lt _ _)) by lia. rewrite andb_comm. f_equal.
      destruct (Z.eqb_spec (Z.of_nat (bit_of v)) (Z.of_nat (bit_of w))) as [Hb|Hb].
      * rewrite bool_decide_false; [done|]. intros Hn. apply Hn. symmetry. apply word_bit_inj; [done | lia].
      * rewrite bool_decide_true; [done | by intros ->].
    + rewrite list_lookup_alter_ne by done. rewrite bool_decide_true; [done | congruence].
  - destruct (decide (w = v)) as [->|Hn].
    + rewrite lookup_ge_None_2 by lia. by rewrite andb_false_r.
    + by rewrite bool_decide_true.
Qed.

Lemma InsertAll_Contains vals p w : Contains (InsertAll p vals) w = bool_decide (w ∈ vals) || Contains p w.
Proof.
  revert p. induction vals as [|v vals IH]; intros p; [rewrite bool_decide_false; [done | apply not_elem_of_nil]|].
  cbn. fold (InsertAll (Insert p v) vals). rewrite IH, Insert_Contains, orb_assoc. f_equal.
  apply eq_true_iff_eq. rewrite orb_true_iff, !bool_decide_eq_true, elem_of_cons. tauto.
Qed.

(** *** Union *)

Lemma union_words_lookup ws qs i :
  fst (union_words ws qs) !! i =
  match ws !! i, qs !! i with Some w, Some q => Some (Z.lor w q) | o, _ => o end.
Proof.
  revert qs i. induction ws as [|w ws IH]; intros [|q qs] i; cbn; try done.
  - destruct i as [|i]; cbn; [done | by destruct (ws !! i)].
  - destruct (union_words ws qs) as [rest ch] eqn:Hu. cbn. destruct i as [|i]; cbn; [done|].
    rewrite <- IH, Hu. done.
Qed.

Lemma Union_Contains p bits v : Contains (fst (Union_ p bits)) v = Contains p v || Contains bits v.
Proof.
  rewrite !Contains_testbit. fold (bit_at (words p) v).
  rewrite <- (bit_at_grow _ (length (words bits))). unfold bit_at, Union_.
  destruct (union_words _ _) as [ws ch] eqn:Hu. cbn [fst words].
  replace ws with (fst (union_words (grow (words p) (length (words bits))) (words bits))) by (by rewrite Hu).
  rewrite union_words_lookup. rewrite grow_lookup. destruct (words bits !! word_of v) as [q|] eqn:Hq.
  - pose proof (lookup_lt_Some _ _ _ Hq). rewrite decide_True by done.
    destruct (words p !! word_of v); by rewrite Z.lor_spec.
  - apply lookup_ge_None in Hq. rewrite decide_False by lia.
    destruct (words p !! word_of v); by rewrite orb_false_r.
Qed.

Lemma lor_changed w q : negb (Z.lor w q =? w) = true <-> exists i, 0 <= i /\ Z.testbit q i = true /\ Z.testbit w i = false.
Proof.
  rewrite negb_true_iff, Z.eqb_neq. split.
  - intros Hne. destruct (decide (Z.ldiff q w = 0)) as [H0|H0].
    + destruct Hne. apply Z.bits_inj'. intros i Hi. rewrite Z.lor_spec.
      apply (f_equal (fun z => Z.testbit z i)) in H0. rewrite Z.ldiff_spec, Z.testbit_0_l in H0.
      by destruct (Z.testbit w i), (Z.testbit q i).
    + destruct (Z.bits_inj_iff (Z.ldiff q w) 0) as [Hb _].
      destruct (Z_lt_le_dec (Z.ldiff q w) 0) as [Hn|Hp].
      * exists (Z.max 0 (Z.log2 (- Z.ldiff q w)) + 1).
        pose proof (Z.bits_above_log2_neg (Z.ldiff q w)) as Ha.
        specialize (Ha (Z.max 0 (Z.log2 (- Z.ldiff q w)) + 1) Hn).
        rewrite Z.ldiff_spec in Ha. pose proof (Z.log2_nonneg (- Z.ldiff q w)).
        assert (Z.log2 (Z.pred (- Z.ldiff q w)) <= Z.log2 (- Z.ldiff q w)) by (apply Z.log2_le_mono; lia).
        specialize (Ha ltac:(lia)). apply andb_prop in Ha as [? Hw%negb_true_iff]. split; [lia | done].
      * exists (Z.log2 (Z.ldiff q w)). pose proof (Z.bit_log2 (Z.ldiff q w) ltac:(lia)) as Ht.
        rewrite Z.ldiff_spec in Ht. apply andb_prop in Ht as [? Hw%negb_true_iff].
        split; [apply Z.log2_nonneg | done].
  - intros (i & Hi & Hq & Hw) He. apply (f_equal (fun z => Z.testbit z i)) in He.
    rewrite Z.lor_spec, Hq, Hw in He. done.
Qed.

Lemma union_words_changed ws qs :
  snd (union_words ws qs) = true <->
  exists i w q, ws !! i = Some w /\ qs !! i = Some q /\ negb (Z.lor w q =? w) = true.
Proof.
  revert qs. induction ws as [|w ws IH]; intros [|q qs]; cbn.
  1-3: split; [done | intros (i & x & y & H1 & H2 & _); try done; by destruct i].
  specialize (IH qs). destruct (union_words ws qs) as [rest ch]. cbn in *.
  rewrite orb_true_iff, IH. split.
  - intros [H|(i & x & y & H)]; [by exists 0%nat, w, q | by exists (S i), x, y].
  - intros ([|i] & x & y & H1 & H2 & H3); cbn in *; [left; congruence | right; by exists i, x, y].
Qed.

Lemma Union_changed p bits :
  wf bits ->
  snd (Union_ p bits) = true <-> exists v, Contains bits v = true /\ Contains p v = false.
Proof.
  intros Hwf. unfold Union_. destruct (union_words _ _) as [ws ch] eqn:Hu. cbn [snd].
  replace ch with (snd (union_words (grow (words p) (length (words bits))) (words bits))) by (by rewrite Hu).
  rewrite union_words_changed. setoid_rewrite lor_changed. setoid_rewrite Contains_testbit. split.
  - intros (i & w & q & Hw & Hq & b & Hb & Htq & Htw).
    assert (Hb64 : b < 64).
    { apply Z.nle_gt. intros Hge. assert (0 <= q < 2 ^ 64) as Hq64 by (by eapply (wf_lookup bits)).
      rewrite (Z.bits_above_log2 q b) in Htq; [done | lia |].
      destruct (decide (q = 0)) as [->|]; [cbn; lia|]. assert (Z.log2 q < 64) by (apply Z.log2_lt_pow2; lia). lia. }
    exists (64 * i + Z.to_nat b)%nat. rewrite word_of_eq, bit_of_eq by lia. rewrite Hq, Z2Nat.id by done.
    split; [done|]. rewrite grow_lookup in Hw. destruct (words p !! i); [congruence | done].
  - intros (v & Hv & Hp). destruct (words bits !! word_of v) as [q|] eqn:Hq; [|done].
    exists (word_of v). pose proof (lookup_lt_Some _ _ _ Hq).
    rewrite grow_lookup, decide_True by done.
    destruct (words p !! word_of v) as [w|]; eexists _, q; (split; [done|]); (split; [done|]);
      exists (Z.of_nat (bit_of v)); rewrite ?Z.testbit_0_l; repeat split; try done; lia.
Qed.

(** *** Fixed-size use: [NewSet], [Set] and [Get] *)

Lemma Get_Contains p i : (i < 64 * length (words p))%nat -> Get p i = Ok (Contains p i).
Proof.
  intros Hi. unfold Get, Contains, slice_get.
  destruct (lookup_lt_is_Some_2 (words p) (word_of i)) as [w ->]; [|done].
  unfold word_of. apply Nat.Div0.div_lt_upper_bound; lia.
Qed.

Lemma SetBit_spec p i v :
  (i < 64 * length (words p))%nat ->
  exists p', SetBit p i v = Ok p' /\ length (words p') = length (words p) /\
    forall w, Contains p' w = if decide (w = i) then v else Contains p w.
Proof.
  intros Hi. assert (Hw : (word_of i < length (words p))%nat).
  { unfold word_of. apply Nat.Div0.div_lt_upper_bound; lia. }
  unfold SetBit, slice_get, slice_set. destruct (lookup_lt_is_Some_2 _ _ Hw) as [x Hx]. rewrite Hx. cbn [mbind result_bind].
  rewrite decide_True by done. eexists. split; [done|]. cbn [words]. split; [apply length_insert|].
  intros w. rewrite !Contains_testbit. cbn [words].
  destruct (decide (word_of w = word_of i)) as [He|He].
  - rewrite He, list_lookup_insert_eq, Hx by done.
    destruct v; rewrite ?Z.lor_spec, ?Z.land_spec, ?Z.lxor_spec, mask_testbit, ?Z.testbit_ones_nonneg
      by (apply bit_of_lt || lia).
    all: destruct (Z.eqb_spec (Z.of_nat (bit_of i)) (Z.of_nat (bit_of w))) as [Hb|Hb]; case_decide as Hd;
      pose proof (bit_of_lt w);
      rewrite ?orb_true_r, ?orb_false_r, ?xorb_true_r, ?xorb_false_r, ?(proj2 (Z.ltb_lt _ _)) by lia;
      cbn; rewrite ?andb_false_r, ?andb_true_r; try done.
    all: try (destruct Hd; apply word_bit_inj; [done | lia]); subst; done.
  - rewrite list_lookup_insert_ne by done. rewrite decide_False by congruence. done.
Qed.

Lemma NewSet_Contains n v : Contains (NewSet n) v = false.
Proof.
  rewrite Contains_testbit. unfold NewSet. cbn [words].
  destruct (_ !! _) eqn:Hl; [|done]. apply lookup_replicate in Hl as [-> _]. apply Z.testbit_0_l.
Qed.

Lemma NewSet_capacity n : (n <= 64 * length (words (NewSet n)))%nat.
Proof.
  unfold NewSet. cbn [words]. rewrite length_replicate.
  pose proof (Nat.div_mod_eq (n + 63) 64). pose proof (Nat.mod_upper_bound (n + 63) 64). lia.
Qed.

(** *** Enumeration *)

Lemma bit_at_out ws v : (64 * length ws <= v)%nat -> bit_at ws v = false.
Proof.
  intros Hv. unfold bit_at. rewrite lookup_ge_None_2; [done|].
  unfold word_of. apply Nat.div_le_lower_bound; lia.
Qed.

Lemma bit_at_pos ws word bit w :
  (bit < 64)%nat -> ws !! word = Some w -> bit_at ws (64 * word + bit) = Z.testbit w (Z.of_nat bit).
Proof. intros Hb Hw. unfold bit_at. by rewrite word_of_eq, bit_of_eq, Hw. Qed.

(** A word below the mask of [bit] has no bit from [bit] on. *)
Lemma below_mask w bit i :
  (bit < 64)%nat -> 0 <= w < 2 ^ 64 -> (w =? 0) || (w <? mask_of bit) = true -> (bit <= i)%nat ->
  Z.testbit w (Z.of_nat i) = false.
Proof.
  intros Hb Hw Hc Hi. rewrite mask_of_pow in Hc by done.
  destruct (decide (w = 0)) as [->|Hn]; [apply Z.testbit_0_l|].
  apply orb_prop in Hc as [H%Z.eqb_eq|H%Z.ltb_lt]; [done|].
  apply Z.bits_above_log2; [lia|]. assert (Z.log2 w < Z.of_nat bit) by (apply Z.log2_lt_pow2; lia). lia.
Qed.

Lemma skip_words_spec ws word bit :
  wf (mkSet ws) -> (bit < 64)%nat ->
  match skip_words (drop word ws) word bit with
  | None => forall v, (64 * word + bit <= v)%nat -> bit_at ws v = false
  | Some (word', bit', w) =>
      ws !! word' = Some w /\ (bit' < 64)%nat /\ mask_of bit' <= w /\
      (64 * word + bit <= 64 * word' + bit')%nat /\
      forall v, (64 * word + bit <= v < 64 * word' + bit')%nat -> bit_at ws v = false
  end.
Proof.
  intros Hwf. remember (drop word ws) as rest eqn:Hr. revert word bit Hr.
  induction rest as [|w rest IH]; intros word bit Hr Hb; cbn [skip_words].
  - intros v Hv. apply bit_at_out. apply (f_equal length) in Hr. rewrite length_drop in Hr.
    cbn in Hr. lia.
  - assert (Hw : ws !! word = Some w).
    { apply (f_equal (.!! 0%nat)) in Hr. by rewrite lookup_drop, Nat.add_0_r in Hr. }
    assert (0 <= w < 2 ^ 64) as Hw64 by (by eapply (wf_lookup (mkSet ws))).
    destruct ((w =? 0) || (w <? mask_of bit)) eqn:Hc.
    + assert (Hskip : forall v, (64 * word + bit <= v < 64 * S word)%nat -> bit_at ws v = false).
      { intros v Hv. replace v with (64 * word + (v - 64 * word))%nat by lia.
        rewrite (bit_at_pos _ _ _ w) by (done || lia). apply (below_mask w bit); (done || lia). }
      specialize (IH (S word) 0%nat).
      assert (rest = drop (S word) ws) as Hr'.
      { rewrite <- Nat.add_1_r, <- drop_drop, <- Hr. done. }
      specialize (IH Hr' ltac:(lia)). destruct (skip_words rest (S word) 0) as [[[word' bit'] w']|].
      * destruct IH as (H1 & H2 & H3 & H4 & H5). repeat split; try done; try lia.
        intros v Hv. destruct (decide (v < 64 * S word)%nat); [apply Hskip; lia | apply H5; lia].
      * intros v Hv. destruct (decide (v < 64 * S word)%nat); [apply Hskip; lia | apply IH; lia].
    + apply orb_false_iff in Hc as [Hz Hl%Z.ltb_ge]. repeat split; try done; try lia.
Qed.

Lemma find_bit_spec fuel w i :
  (i + fuel <= 64)%nat ->
  match find_bit fuel w i with
  | Some j => (i <= j < i + fuel)%nat /\ Z.testbit w (Z.of_nat j) = true /\
      forall k, (i <= k < j)%nat -> Z.testbit w (Z.of_nat k) = false
  | None => forall k, (i <= k < i + fuel)%nat -> Z.testbit w (Z.of_nat k) = false
  end.
Proof.
  revert i. induction fuel as [|fuel IH]; intros i Hi; cbn [find_bit]; [lia|].
  rewrite mask_test by lia. destruct (Z.testbit w (Z.of_nat i)) eqn:Ht.
  - split; [lia|]. split; [done|]. lia.
  - specialize (IH (S i) ltac:(lia)). destruct (find_bit fuel w (S i)) as [j|].
    + destruct IH as (H1 & H2 & H3). split; [lia|]. split; [done|]. intros k Hk.
      destruct (decide (k = i)) as [->|]; [done | apply H3; lia].
    + intros k Hk. destruct (decide (k = i)) as [->|]; [done | apply IH; lia].
Qed.

(** [HasNext] moves to the least element that is left, or to the end. *)
Lemma HasNext_spec p :
  wf (mkSet (it_words p)) ->
  match HasNext p with
  | (true, p') => it_words p' = it_words p /\ (it_value p <= it_value p')%nat /\
      bit_at (it_words p) (it_value p') = true /\
      forall v, (it_value p <= v < it_value p')%nat -> bit_at (it_words p) v = false
  | (false, p') => p' = mkIterator (it_words p) (length (it_words p) * 64) /\
      forall v, (it_value p <= v)%nat -> bit_at (it_words p) v = false
  end.
Proof.
  destruct p as [ws value]. cbn [it_words it_value]. intros Hwf. unfold HasNext. cbn [it_words it_value].
  pose proof (skip_words_spec ws (word_of value) (bit_of value) Hwf (bit_of_lt _)) as Hs.
  rewrite <- word_bit in Hs.
  destruct (skip_words _ _ _) as [[[word bit] w]|]; [|done].
  destruct Hs as (Hw & Hb & Hm & Hle & Hbefore).
  assert (0 <= w < 2 ^ 64) as Hw64 by (by eapply (wf_lookup (mkSet ws))).
  pose proof (find_bit_spec (64 - bit) w bit ltac:(lia)) as Hf.
  destruct (find_bit _ _ _) as [i|].
  - destruct Hf as (Hi & Ht & Hbelow). cbn [it_words it_value].
    replace (word * 64 + i)%nat with (64 * word + i)%nat by lia.
    split; [done|]. split; [lia|]. split; [rewrite (bit_at_pos _ _ _ w); (done || lia)|].
    intros v Hv. destruct (decide (v < 64 * word + bit)%nat); [apply Hbefore; lia|].
    replace v with (64 * word + (v - 64 * word))%nat by lia.
    rewrite (bit_at_pos _ _ _ w) by (done || lia). apply Hbelow. lia.
  - exfalso. rewrite mask_of_pow in Hm by done.
    assert (0 < w) by (pose proof (Z.pow_pos_nonneg 2 (Z.of_nat bit)); lia).
    pose proof (Z.bit_log2 w ltac:(lia)) as Hl.
    assert (Z.of_nat bit <= Z.log2 w) by (apply Z.log2_le_pow2; lia).
    assert (Z.log2 w < 64) by (apply Z.log2_lt_pow2; lia).
    specialize (Hf (Z.to_nat (Z.log2 w)) ltac:(lia)). rewrite Z2Nat.id in Hf by lia. congruence.
Qed.

(** The elements of [ws] from [from] on, in increasing order. *)
Definition elements_from (ws : list Z) (from : nat) : list nat :=
  filter (fun v => bit_at ws v = true) (seq from (64 * length ws - from)).

Lemma elements_from_none ws from :
  (forall v, (from <= v)%nat -> bit_at ws v = false) -> elements_from ws from = [].
Proof.
  intros H. unfold elements_from. apply filter_none. intros v Hv%elem_of_seq.
  rewrite H by lia. done.
Qed.

Lemma elements_from_cons ws from v :
  (from <= v)%nat -> bit_at ws v = true ->
  (forall w, (from <= w < v)%nat -> bit_at ws w = false) ->
  elements_from ws from = v :: elements_from ws (v + 1).
Proof.
  intros Hle Hv Hbefore. assert (v < 64 * length ws)%nat.
  { apply Nat.nle_gt. intros Hge. by rewrite bit_at_out in Hv. }
  unfold elements_from.
  replace (64 * length ws - from)%nat with ((v - from) + S (64 * length ws - (v + 1)))%nat by lia.
  rewrite seq_app, filter_app. replace (from + (v - from))%nat with v by lia.
  cbn [seq]. rewrite filter_cons_True by done. rewrite Nat.add_1_r.
  assert (filter (fun v => bit_at ws v = true) (seq from (v - from)) = []) as ->; [|done].
  apply filter_none. intros w Hw%elem_of_seq. rewrite Hbefore by lia. done.
Qed.

Lemma HasNext_elements p :
  wf (mkSet (it_words p)) ->
  match HasNext p with
  | (true, p') => it_words p' = it_words p /\ (it_value p <= it_value p' < 64 * length (it_words p))%nat /\
      elements_from (it_words p) (it_value p)
      = it_value p' :: elements_from (it_words p) (it_value p' + 1)
  | (false, p') => p' = mkIterator (it_words p) (length (it_words p) * 64) /\
      elements_from (it_words p) (it_value p) = []
  end.
Proof.
  intros Hwf. pose proof (HasNext_spec p Hwf) as Hs. destruct (HasNext p) as [[] p'].
  - destruct Hs as (H1 & H2 & H3 & H4). split; [done|]. split; [|by apply elements_from_cons].
    split; [done|]. apply Nat.nle_gt. intros Hge. by rewrite bit_at_out in H3.
  - destruct Hs as [-> Hs]. split; [done | by apply elements_from_none].
Qed.

Lemma collect_spec fuel p :
  wf (mkSet (it_words p)) -> (64 * length (it_words p) - it_value p < fuel)%nat ->
  collect fuel p = Some (elements_from (it_words p) (it_value p)).
Proof.
  revert p. induction fuel as [|fuel IH]; intros p Hwf Hf; [lia|].
  cbn [collect]. pose proof (HasNext_elements p Hwf) as Hs. destruct (HasNext p) as [[] p'].
  - destruct Hs as (Hw & Hle & ->). cbn [Next].
    rewrite IH by (cbn [it_words it_value]; rewrite ?Hw; done || lia).
    cbn [it_words it_value mbind option_bind]. by rewrite Hw.
  - destruct Hs as [_ ->]. done.
Qed.

Lemma iterator_count_spec fuel p n :
  wf (mkSet (it_words p)) -> (64 * length (it_words p) - it_value p < fuel)%nat ->
  iterator_count fuel p n
  = Some (n + length (elements_from (it_words p) (it_value p)),
          mkIterator (it_words p) (length (it_words p) * 64))%nat.
Proof.
  revert p n. induction fuel as [|fuel IH]; intros p n Hwf Hf; [lia|].
  cbn [iterator_count]. pose proof (HasNext_elements p Hwf) as Hs. destruct (HasNext p) as [[] p'].
  - destruct Hs as (Hw & Hle & ->). cbn [Next].
    rewrite IH by (cbn [it_words it_value]; rewrite ?Hw; done || lia).
    cbn [it_words it_value length]. rewrite Hw. do 2 f_equal. lia.
  - destruct Hs as [-> ->]. cbn. by rewrite Nat.add_0_r.
Qed.

Lemma count_word_spec k w n :
  0 <= w < 2 ^ Z.of_nat k ->
  count_word k w n = (n + length (filter (fun i => Z.testbit w (Z.of_nat i) = true) (seq 0 k)))%nat.
Proof.
  revert w n. induction k as [|k IH]; intros w n Hw; [cbn; lia|].
  cbn [count_word]. destruct (Z.eqb_spec w 0) as [->|Hn].
  - rewrite filter_none; [cbn; lia|]. intros i _. by rewrite Z.testbit_0_l.
  - rewrite Nat2Z.inj_succ, Z.pow_succ_r in Hw by lia.
    rewrite IH by (rewrite Z.shiftr_div_pow2 by lia; change (2 ^ 1) with 2; Z.div_mod_to_equations; lia).
    replace (Z.land w 1 =? 1) with (Z.testbit w (Z.of_nat 0)).
    2: { change 1 with (Z.ones 1). rewrite Z.land_ones, Z.bit0_odd, Zodd_mod by lia. done. }
    cbn [seq]. rewrite <- fmap_S_seq. rewrite filter_cons.
    assert (Hshift : forall l, length (filter (fun i => Z.testbit (Z.shiftr w 1) (Z.of_nat i) = true) l)
      = length (filter (fun i => Z.testbit w (Z.of_nat i) = true) (S <$> l))).
    { intros l. rewrite filter_fmap, length_fmap. f_equal. apply filter_ext_in. intros i _. cbn.
      rewrite Z.shiftr_spec by lia. by replace (Z.of_nat i + 1) with (Z.of_nat (S i)) by lia. }
    rewrite Hshift. destruct (Z.testbit w (Z.of_nat 0)) eqn:Ht; case_decide; try done; cbn [length]; lia.
Qed.

Lemma Count_elements ws :
  wf (mkSet ws) -> Count (mkSet ws) = length (elements_from ws 0).
Proof.
  unfold Count, elements_from. cbn [words]. rewrite Nat.sub_0_r.
  induction ws as [|w ws IH] using rev_ind; intros Hwf; [done|].
  apply Forall_app in Hwf as [Hwf Hw]. apply Forall_inv in Hw.
  rewrite foldl_snoc, IH by done. rewrite count_word_spec by exact Hw.
  rewrite length_app. cbn [length]. rewrite Nat.mul_add_distr_l, Nat.mul_1_r, seq_app, filter_app, length_app.
  f_equal.
  - f_equal. apply filter_ext_in. intros v Hv%elem_of_seq. unfold bit_at.
    rewrite lookup_app_l; [done|]. unfold word_of. apply Nat.Div0.div_lt_upper_bound; lia.
  - cbn [Nat.add]. 
    replace (64 * length ws)%nat with (64 * length ws + 0)%nat by lia.
    rewrite <- fmap_add_seq, filter_fmap, length_fmap. f_equal. apply filter_ext_in.
    intros i Hi%elem_of_seq.
    rewrite (bit_at_pos _ _ _ w); [done | lia|]. rewrite lookup_app_r by lia. by rewrite Nat.sub_diag.
Qed.

Lemma elements_from_Contains p v : wf p -> v ∈ elements_from (words p) 0 <-> Contains p v = true.
Proof.
  intros Hwf. unfold elements_from. rewrite list_elem_of_filter, elem_of_seq, Contains_testbit.
  fold (bit_at (words p) v). split; [tauto|]. intros Hv. split; [done|].
  destruct (decide (v < 64 * length (words p))%nat); [lia|]. rewrite bit_at_out in Hv by lia. done.
Qed.

Lemma Insert_wf p v : wf p -> wf (Insert p v).
Proof.
  unfold wf, Insert. cbn [words]. intros Hwf. apply Forall_lookup. intros i w Hi.
  assert (Hg : forall j x, grow (words p) (S (word_of v)) !! j = Some x -> 0 <= x < 2 ^ 64).
  { intros j x Hj. rewrite grow_lookup in Hj. destruct (words p !! j) eqn:Hl.
    - simplify_eq. exact (wf_lookup p _ _ Hwf Hl).
    - case_decide; simplify_eq. lia. }
  rewrite list_lookup_alter in Hi. case_decide as Hd; [subst i | by eapply Hg].
  apply fmap_Some in Hi as (x & Hx & ->).
  pose proof (Hg _ _ Hx) as Hb. pose proof (bit_of_lt v).
  assert (0 <= Z.lor x (mask_of (bit_of v))) by (rewrite Z.lor_nonneg; rewrite mask_of_pow by done; lia).
  split; [done|].
  destruct (decide (Z.lor x (mask_of (bit_of v)) = 0)) as [->|]; [done|].
  apply Z.log2_lt_pow2; [lia|]. rewrite Z.log2_lor by (try rewrite mask_of_pow by done; lia).
  rewrite mask_of_pow, Z.log2_pow2 by (done || lia). apply Z.max_lub_lt; [|lia].
  destruct (decide (x = 0)) as [->|]; [cbn; lia|]. apply Z.log2_lt_pow2; lia.
Qed.

(** ** Properties *)

(** [Contains] after [Insert], [InsertAll], [Remove] and [Union] is
    membership in the extended, reduced or united set, whatever the capacities
    of the word arrays; [Insert] keeps every word a [uint64]. *)
Theorem bitset_membership p q v w vals :
  wf p ->
  wf (Insert p v) /\
  Contains (Insert p v) w = bool_decide (w = v) || Contains p w /\
  Contains (InsertAll p vals) w = bool_decide (w ∈ vals) || Contains p w /\
  Contains (Remove p v) w = bool_decide (w <> v) && Contains p w /\
  Contains (fst (Union_ p q)) w = Contains p w || Contains q w.
Proof.
  intros Hp. split; [by apply Insert_wf|]. split; [apply Insert_Contains|].
  split; [apply InsertAll_Contains|]. split; [apply Remove_Contains | apply Union_Contains].
Qed.

(** [Union] reports a change exactly when it adds an element. *)
Theorem bitset_union_changed p bits :
  wf bits -> snd (Union_ p bits) = true <-> exists v, Contains bits v = true /\ Contains p v = false.
Proof. apply Union_changed. Qed.

(** Draining the iterator terminates and yields the elements of the set,
    each once, in increasing order; [Count] is their number. *)
Theorem bitset_enumeration p :
  wf p ->
  exists l, Collect (Iter p) = Some l /\ (forall v, v ∈ l <-> Contains p v = true) /\
    StronglySorted lt l /\ Count p = length l.
Proof.
  intros Hwf. exists (elements_from (words p) 0).
  split; [by apply collect_spec; [destruct p | cbn; lia]|].
  split; [by intros v; apply elements_from_Contains|].
  split; [|destruct p; by apply Count_elements].
  apply StronglySorted_filter, seq_sorted.
Qed.

(** The iterator's own [Count] returns the number of elements that are left
    and leaves the iterator with none. *)
Theorem bitset_iterator_count_drains p :
  wf (mkSet (it_words p)) ->
  exists n p' l, IteratorCount p = Some (n, p') /\ Collect p = Some l /\ n = length l /\
    Collect p' = Some [].
Proof.
  intros Hwf. unfold IteratorCount, Collect.
  rewrite iterator_count_spec, collect_spec by (done || lia).
  eexists _, _, _. split; [done|]. split; [done|]. split; [done|].
  cbn [it_words]. rewrite collect_spec by (cbn [it_words it_value]; done || lia).
  cbn [it_words it_value]. f_equal. unfold elements_from.
  by replace (64 * length (it_words p) - length (it_words p) * 64)%nat with 0%nat by lia.
Qed.

(** *** The properties at a concrete set *)

Definition sample : Set_ := InsertAll (mkSet []) [3; 200; 64; 7; 63]%nat.

Lemma sample_wf : wf sample.
Proof. unfold wf, sample. repeat constructor; vm_compute; congruence. Qed.

Lemma bitset_membership_witness :
  Contains (Remove sample 64) 64 = false /\ Contains (Insert sample 9) 9 = true.
Proof.
  destruct (bitset_membership sample sample 64 64 [] sample_wf) as (_ & _ & _ & Hr & _).
  destruct (bitset_membership sample sample 9 9 [] sample_wf) as (_ & Hi & _).
  split; [rewrite Hr | rewrite Hi]; reflexivity.
Defined.

Lemma bitset_union_changed_witness : snd (Union_ (mkSet []) sample) = true.
Proof.
  apply (bitset_union_changed (mkSet []) sample); [apply sample_wf | exists 3%nat; by split].
Defined.

Lemma bitset_enumeration_witness :
  exists l, Collect (Iter sample) = Some l /\ Count sample = length l.
Proof.
  destruct (bitset_enumeration sample sample_wf) as (l & Hc & _ & _ & Hn). by exists l.
Defined.

Lemma bitset_iterator_count_drains_witness :
  exists n p', IteratorCount (Iter sample) = Some (n, p') /\ Collect p' = Some [].
Proof.
  destruct (bitset_iterator_count_drains (Iter sample) sample_wf) as (n & p' & l & H1 & _ & _ & H2).
  by exists n, p'.
Defined.
