(* ===== verification/FieldElement.v ===== *)
(** * Prime-field elements in Montgomery form

    Models [pkg/util/field/koalabear/element.go] and [word.go].  The same
    generated text, with other constants, is [mersenne31], [gf8209] and
    [gf251]; the constants are therefore a record and every operation is
    translated once. *)

From Stdlib Require Import ZArith Lia Znumtheory.
From stdpp Require Import base numbers list option strings.
From S2P Require Import Prelude.

Open Scope Z_scope.

(** ** Constants *)

(** The generated constants of one field ([const] block of [element.go]). *)
Record constants : Type := mkConstants {
  Modulus : Z;
  rModM : Z;
  rSqModM : Z;
  negModulusInvModR : Z;
  nbBytes : nat
}.

Definition koalabear : constants := mkConstants 2130706433 33554430 402124772 2130706431 4.
Definition mersenne31 : constants := mkConstants 2147483647 2 4 2147483649 4.
Definition gf8209 : constants := mkConstants 8209 2078 150 1667968783 2.
Definition gf251 : constants := mkConstants 251 123 69 1711142349 2.

(** Register size. *)
Definition r : Z := 2 ^ 32.

(** What the generator ([internal/generator/main.go], [config]) establishes of
    the constants it writes. *)
Class FieldConstants (c : constants) : Prop := {
  modulus_prime : Z.prime (Modulus c);
  modulus_odd : Z.odd (Modulus c) = true;
  modulus_small : Modulus c < 2 ^ 31;
  rModM_spec : rModM c = r mod Modulus c;
  rSqModM_spec : rSqModM c = (r * r) mod Modulus c;
  negInv_spec : (negModulusInvModR c * Modulus c + 1) mod r = 0;
  negInv_range : 0 <= negModulusInvModR c < r
}.

Section Element.
Context (c : constants).
Local Abbreviation M := (Modulus c).

(** An element is the [uint32] it wraps. *)

(** [bits.Sub32] of the standard library: difference and borrow. *)
Definition Sub32 (x y borrow : Z) : Z * Z :=
  (u32 (x - y - borrow), if x <? y + borrow then 1 else 0).

Definition Add (x y : Z) : Z :=
  let res := u32 (x + y) in
  let '(reduced, borrow) := Sub32 res M 0 in
  if borrow =? 0 then reduced else res.

Definition Sub (x y : Z) : Z :=
  let '(res, borrow) := Sub32 x y 0 in
  if negb (borrow =? 0) then u32 (res + M) else res.

Definition montgomeryReduce (x : Z) : Z :=
  let t := u64 (x * negModulusInvModR c) mod r in
  let res := u32 (u64 (x + u64 (t * M)) / r) in
  let '(diff, borrow) := Sub32 res M 0 in
  if borrow =? 0 then diff else res.

Definition Mul (x y : Z) : Z := montgomeryReduce (u64 (x * y)).

Definition New (x : Z) : Z := Mul x (rSqModM c).

Definition AddUint32 (x y : Z) : Z := Add x (New y).

Definition ToUint32 (x : Z) : Z := montgomeryReduce x.

(** The sign of the result of Go's [cmp.Compare]. *)
Definition Cmp (x y : Z) : comparison := ToUint32 x ?= ToUint32 y.

Definition Double (x : Z) : Z := Add x x.

Definition Half (x : Z) : Z :=
  if x mod 2 =? 0 then x / 2 else u32 (x + M) / 2.

(** [for u%2 == 0 { u /= 2; b = b.Half() }] *)
Fixpoint halve (fuel : nat) (u b : Z) : option (Z * Z) :=
  match fuel with
  | O => None
  | S k => if u mod 2 =? 0 then halve k (u / 2) (Half b) else Some (u, b)
  end.

(** One iteration of the outer loop of [Inverse]. *)
Definition inverse_step (u v b d : Z) : option (Z * Z * Z * Z) :=
  '(u, b) ← halve 33 u b;
  '(v, d) ← halve 33 v d;
  let '(diff, borrow) := Sub32 u v 0 in
  if borrow =? 0 then Some (diff, v, Sub b d, d)
  else Some (u, u32 (v - u), b, Sub d b).

(** [for (u != 1) && (v != 1) { ... }; if u == 1 { return b } else { return c }] *)
Fixpoint inverse_loop (fuel : nat) (u v b d : Z) : option Z :=
  match fuel with
  | O => None
  | S k =>
      if negb (u =? 1) && negb (v =? 1)
      then '(u, v, b, d) ← inverse_step u v b d; inverse_loop k u v b d
      else Some (if u =? 1 then b else d)
  end.

Definition inverse_fuel : nat := 64.

Definition Inverse (x : Z) : option Z :=
  if x =? 0 then Some 0
  else inverse_loop inverse_fuel x M (rSqModM c) 0.

(** [byte(v >> ((nbBytes-1-i)*8))], for [i] in [range n]; [k] is the number of bytes. *)
Definition Bytes (x : Z) : list Z :=
  let v := ToUint32 x in
  (fun i : nat => Z.land (Z.shiftr v (Z.of_nat (nbBytes c - 1 - i) * 8)) 255)
    <$> seq 0 (nbBytes c).

(** [v |= uint32(b[i]) << ((nbBytes-1-i)*8)] *)
Definition AddBytes (x : Z) (b : list Z) : result Z :=
  if negb (Nat.eqb (length b) (nbBytes c)) then Fault (Panic "AddBytes")
  else
    let v := foldl (fun v i => Z.lor v (u32 (Z.shiftl (nth i b 0) (Z.of_nat (nbBytes c - 1 - i) * 8))))
               0 (seq 0 (nbBytes c)) in
    Ok (Add x (New v)).

Definition IsZero (x : Z) : bool := x =? 0.
Definition IsOne (x : Z) : bool := x =? rModM c.

(** *** [word.go] *)

Definition offset64 : Z := 14695981039346656037.
Definition prime64 : Z := 1099511628211.

Definition Equals (x o : Z) : bool := x =? o.
Definition Hash (x : Z) : Z := u64 (Z.lxor offset64 x * prime64).

(** [word.TrimLeadingZeros] *)
Fixpoint TrimLeadingZeros (bytes : list Z) : list Z :=
  match bytes with
  | b :: rest => if b =? 0 then TrimLeadingZeros rest else bytes
  | [] => []
  end.

Definition SetBytes (bs : list Z) : Z :=
  New (foldl (fun v b => Z.lor (u32 (Z.shiftl v 8)) b) 0 (TrimLeadingZeros bs)).

Definition SetUint64 (val : Z) : Z := AddUint32 0 (u32 val).

Definition Uint64 (x : Z) : Z := ToUint32 x.

End Element.

(** ** Correctness of Montgomery arithmetic *)

(** A canonical element: the [uint32] is below the modulus. *)
Definition valid (c : constants) (x : Z) : Prop := 0 <= x < Modulus c.

Section Correct.
Context {c : constants} `{!FieldConstants c}.
Local Abbreviation M := (Modulus c).

Lemma modulus_gt_1 : 1 < M.
Proof. exact (proj1 modulus_prime). Qed.

Lemma modulus_bound : M < 2 ^ 31.
Proof. exact modulus_small. Qed.

Lemma gcd_r_modulus : Z.gcd r M = 1.
Proof.
  pose proof negInv_spec as H. apply Z.mod_divide in H as [k Hk]; [|done].
  apply Z.bezout_1_gcd. exists k, (- negModulusInvModR c). lia.
Qed.

Lemma gcd_2_modulus : Z.gcd 2 M = 1.
Proof.
  apply Z.bezout_1_gcd. pose proof modulus_odd as H.
  rewrite Zodd_mod in H. apply Z.eqb_eq in H.
  exists (- (M / 2)), 1. pose proof (Z.div_mod M 2). lia.
Qed.

Lemma eqm_cancel_modulus_r x y : eqm M (x * r) (y * r) -> eqm M x y.
Proof. pose proof modulus_gt_1. apply eqm_cancel_r; [lia | exact gcd_r_modulus]. Qed.

Lemma eqm_cancel_modulus_2 x y : eqm M (2 * x) (2 * y) -> eqm M x y.
Proof.
  pose proof modulus_gt_1. rewrite !(Z.mul_comm 2).
  apply eqm_cancel_r; [lia | exact gcd_2_modulus].
Qed.

(** Subtracting the modulus once brings a value below [2M] into range. *)
Lemma reduce_once res :
  0 <= res < 2 * M ->
  let y := (let '(diff, borrow) := Sub32 res M 0 in if borrow =? 0 then diff else res) in
  valid c y /\ eqm M y res.
Proof.
  intros Hres. pose proof modulus_bound. pose proof modulus_gt_1.
  unfold Sub32, valid. cbn -[u32]. rewrite Z.sub_0_r, Z.add_0_r.
  destruct (Z.ltb_spec res M) as [Hlt|Hge]; cbn -[u32]; [split; [lia|done]|].
  rewrite u32_small by lia. split; [lia | apply eqm_sub_self].
Qed.

Lemma Add_eqm_spec x y : valid c x -> valid c y -> valid c (Add c x y) /\ eqm M (Add c x y) (x + y).
Proof.
  unfold valid. intros Hx Hy. pose proof modulus_bound.
  unfold Add. rewrite (u32_small (x + y)) by lia. apply reduce_once. lia.
Qed.

Lemma Sub_spec x y : valid c x -> valid c y -> valid c (Sub c x y) /\ eqm M (Sub c x y) (x - y).
Proof.
  unfold valid. intros Hx Hy. pose proof modulus_bound.
  unfold Sub, Sub32. cbn -[u32]. rewrite Z.sub_0_r, Z.add_0_r.
  destruct (Z.ltb_spec x y) as [Hlt|Hge]; cbn -[u32].
  - assert (u32 (u32 (x - y) + M) = x - y + M) as ->.
    { unfold u32, wrap. rewrite Zplus_mod_idemp_l. apply Z.mod_small. lia. }
    split; [lia | apply eqm_add_self].
  - rewrite u32_small by lia. split; [lia | done].
Qed.

Lemma montgomeryReduce_spec x :
  0 <= x < M * r ->
  valid c (montgomeryReduce c x) /\ eqm M (montgomeryReduce c x * r) x.
Proof.
  intros Hx. pose proof modulus_bound. pose proof modulus_gt_1. pose proof negInv_range.
  unfold montgomeryReduce.
  set (t := u64 (x * negModulusInvModR c) mod r).
  assert (Ht : 0 <= t < r) by (apply Z.mod_pos_bound; done).
  assert (Heq : eqm r (x + t * M) 0).
  { unfold t, u64, wrap.
    replace (((x * negModulusInvModR c) mod 2 ^ 64) mod r)
      with ((x * negModulusInvModR c) mod r)
      by (by rewrite Z.mod_mod_divide by (by exists r)).
    rewrite eqm_mod. replace (x + x * negModulusInvModR c * M)
      with (x * (negModulusInvModR c * M + 1)) by lia.
    rewrite <- (eqm_mod r (negModulusInvModR c * M + 1)), negInv_spec.
    by rewrite Z.mul_0_r. }
  unfold r in *.
  rewrite (u64_small (t * M)) by nia. rewrite (u64_small (x + t * M)) by nia.
  destruct Heq as [k Hk]. rewrite Z.sub_0_r in Hk. rewrite Hk, Z.div_mul by done. rewrite (u32_small k) by nia.
  destruct (reduce_once k) as [Hv He]; [nia|].
  split; [exact Hv|]. etrans; [by apply eqm_mul; [exact He | reflexivity]|].
  rewrite <- Hk. apply eqm_add_mul.
Qed.

Lemma Mul_eqm_spec x y :
  0 <= x < r -> valid c y -> valid c (Mul c x y) /\ eqm M (Mul c x y * r) (x * y).
Proof.
  unfold valid, Mul. intros Hx Hy. pose proof modulus_bound. unfold r in *.
  rewrite u64_small by nia. apply montgomeryReduce_spec. unfold r. nia.
Qed.

Lemma valid_r x : valid c x -> 0 <= x < r.
Proof. unfold valid, r. pose proof modulus_bound. lia. Qed.

Lemma valid_0 : valid c 0.
Proof. unfold valid. pose proof modulus_gt_1. lia. Qed.

Lemma valid_rSqModM : valid c (rSqModM c).
Proof. rewrite rSqModM_spec. pose proof modulus_gt_1. apply Z.mod_pos_bound. lia. Qed.

Lemma valid_rModM : valid c (rModM c).
Proof. rewrite rModM_spec. pose proof modulus_gt_1. apply Z.mod_pos_bound. lia. Qed.

Lemma New_spec x : 0 <= x < r -> valid c (New c x) /\ eqm M (New c x) (x * r).
Proof.
  intros Hx. destruct (Mul_eqm_spec x (rSqModM c) Hx valid_rSqModM) as [Hv He].
  split; [exact Hv|]. apply eqm_cancel_modulus_r. unfold New. rewrite He, rSqModM_spec, eqm_mod.
  by rewrite Z.mul_assoc.
Qed.

Lemma ToUint32_spec x : valid c x -> valid c (ToUint32 c x) /\ eqm M (ToUint32 c x * r) x.
Proof. intros Hx. apply montgomeryReduce_spec. unfold valid, r in *. nia. Qed.

(** The numerical value of an element is the unique residue [v] with [v*r = x]. *)
Lemma ToUint32_unique x v : valid c x -> eqm M (v * r) x -> ToUint32 c x = v mod M.
Proof.
  intros Hx Hv. destruct (ToUint32_spec x Hx) as [Ht He].
  apply eqm_mod_unique; [exact Ht|].
  apply eqm_cancel_modulus_r. by rewrite He, Hv.
Qed.

Lemma ToUint32_inj x y : valid c x -> valid c y -> ToUint32 c x = ToUint32 c y -> x = y.
Proof.
  intros Hx Hy He. destruct (ToUint32_spec x Hx) as [_ Ex], (ToUint32_spec y Hy) as [_ Ey].
  apply (eqm_small M); [exact Hx | exact Hy |]. by rewrite <- Ex, <- Ey, He.
Qed.

Lemma Half_spec x : valid c x -> valid c (Half c x) /\ eqm M (2 * Half c x) x.
Proof.
  unfold valid, Half. intros Hx. pose proof modulus_bound. pose proof modulus_gt_1.
  pose proof modulus_odd as Ho. rewrite Zodd_mod in Ho. apply Z.eqb_eq in Ho.
  destruct (Z.eqb_spec (x mod 2) 0) as [He|He].
  - split; [Z.div_mod_to_equations; lia|].
    replace (2 * (x / 2)) with x by (Z.div_mod_to_equations; lia). done.
  - rewrite u32_small by lia.
    replace (2 * ((x + M) / 2)) with (x + M) by (Z.div_mod_to_equations; lia).
    split; [Z.div_mod_to_equations; lia | apply eqm_add_self].
Qed.
(** *** The inversion loop *)

(** [fuel] halvings exhaust the factors of two of any [0 < u < 2^(fuel-1)]. *)
Lemma halve_spec n u b x K :
  0 < u < 2 ^ Z.of_nat n -> valid c b -> eqm M (b * x) (u * K) ->
  exists u' b', halve c (S n) u b = Some (u', b') /\ Z.odd u' = true /\
    0 < u' <= u /\ (Z.even u = true -> 2 * u' <= u) /\ (Z.odd u = true -> u' = u) /\
    (u' | u) /\ valid c b' /\ eqm M (b' * x) (u' * K).
Proof.
  revert u b. induction n as [|n IH]; intros u b Hu Hb He; [lia|].
  rewrite Nat2Z.inj_succ, Z.pow_succ_r in Hu by lia.
  cbn [halve]. rewrite <- Z.negb_odd. rewrite Zmod_odd.
  destruct (Z.odd u) eqn:Hodd; cbn.
  - exists u, b. repeat split; try done; lia || apply Hb.
  - destruct (proj1 (Z.even_spec u)) as [k ->]; [by rewrite <- Z.negb_odd, Hodd|].
    replace (2 * k / 2) with k by (by rewrite Z.mul_comm, Z.div_mul).
    destruct (Half_spec b Hb) as [Hhv Hhe].
    destruct (IH k (Half c b)) as (u' & b' & Hr & Ho & Hp & _ & _ & Hdv & Hv & Hk); [lia | done | |].
    { apply eqm_cancel_modulus_2. by rewrite !Z.mul_assoc, Hhe. }
    exists u', b'. repeat split; try done; try lia.
    + by apply Z.divide_mul_r.
    + apply Hv.
    + apply Hv.
Qed.
(** The loop invariant of [Inverse], for the argument [x]. *)
Record inverse_inv (x u v b d : Z) : Prop := {
  inv_u : 0 < u < 2 ^ 32;
  inv_v : 0 < v < 2 ^ 32;
  inv_gcd : Z.gcd u v = 1;
  inv_b : valid c b;
  inv_d : valid c d;
  inv_bx : eqm M (b * x) (u * (r * r));
  inv_dx : eqm M (d * x) (v * (r * r))
}.

(** The termination measure: it halves at each iteration. *)
Definition inverse_measure (u v : Z) : Z :=
  if Z.even u || Z.even v then u * v else 2 * (u * v).

Lemma inverse_inv_odd_lt x u v b d :
  inverse_inv x u v b d -> Z.odd u = true -> Z.odd v = true -> u = v -> u = 1.
Proof. intros [Hu Hv Hg _ _ _ _] _ _ ->. rewrite Z.gcd_diag in Hg. lia. Qed.

Lemma gcd_sub_l u v : Z.gcd (u - v) v = Z.gcd u v.
Proof. rewrite Z.gcd_comm, Z.gcd_sub_diag_r, Z.gcd_comm. done. Qed.

Lemma gcd_divide_1 u v u' v' : (u' | u) -> (v' | v) -> Z.gcd u v = 1 -> Z.gcd u' v' = 1.
Proof.
  intros Hu Hv Hg. apply Z.divide_1_r_nonneg; [apply Z.gcd_nonneg|].
  rewrite <- Hg. apply Z.gcd_greatest; etrans; [apply Z.gcd_divide_l | done | apply Z.gcd_divide_r | done].
Qed.

Lemma odd_false_divide u : Z.odd u = false -> (2 | u).
Proof.
  intros H. destruct (proj1 (Z.even_spec u)) as [k ->]; [by rewrite <- Z.negb_odd, H|].
  apply Z.divide_factor_l.
Qed.

(** The two inner loops leave both of [u] and [v] odd, not both 1. *)
Lemma halve_both x u v b d :
  inverse_inv x u v b d -> u <> 1 -> v <> 1 ->
  exists u' v' b' d', halve c 33 u b = Some (u', b') /\ halve c 33 v d = Some (v', d') /\
    inverse_inv x u' v' b' d' /\ Z.odd u' = true /\ Z.odd v' = true /\ u' <> v' /\
    2 * (u' * v') <= inverse_measure u v.
Proof.
  intros [Hu Hv Hg Hb Hd Ebx Edx] Hu1 Hv1.
  destruct (halve_spec 32 u b x (r * r)) as (u' & b' & Hhu & Hou & Hpu & Heu & Hnu & Hdu & Hb' & Ebx'); try done.
  destruct (halve_spec 32 v d x (r * r)) as (v' & d' & Hhv & Hov & Hpv & Hev & Hnv & Hdv & Hd' & Edx'); try done.
  exists u', v', b', d'.
  pose proof (gcd_divide_1 u v u' v' Hdu Hdv Hg) as Hg'.
  split; [done|]. split; [done|]. split; [constructor; try done; lia|].
  split; [done|]. split; [done|]. unfold inverse_measure.
  rewrite <- !Z.negb_odd in *.
  assert (Hnot : ~ (Z.odd u = false /\ Z.odd v = false)).
  { intros [Eu Ev]. cut (2 | 1); [by intros []; lia|]. rewrite <- Hg.
    apply Z.gcd_greatest; by apply odd_false_divide. }
  destruct (Z.odd u) eqn:Eu, (Z.odd v) eqn:Ev; cbn in *; try (exfalso; tauto);
    rewrite ?(Hnu eq_refl), ?(Hnv eq_refl) in *;
    try specialize (Heu eq_refl); try specialize (Hev eq_refl);
    (split; [intros ->; rewrite Z.gcd_diag in Hg'; lia | nia]).
Qed.

Lemma inverse_step_spec x u v b d :
  inverse_inv x u v b d -> u <> 1 -> v <> 1 ->
  exists u' v' b' d', inverse_step c u v b d = Some (u', v', b', d') /\
    inverse_inv x u' v' b' d' /\ 2 * inverse_measure u' v' < 2 * inverse_measure u v /\
    2 * inverse_measure u' v' <= inverse_measure u v.
Proof.
  intros Hinv Hu1 Hv1.
  destruct (halve_both x u v b d Hinv Hu1 Hv1)
    as (u1 & v1 & b1 & d1 & Hhu & Hhv & [Hu Hv Hg Hb Hd Ebx Edx] & Hou & Hov & Hne & Hm).
  unfold inverse_step. rewrite Hhu. cbn [mbind option_bind]. rewrite Hhv. cbn [mbind option_bind].
  unfold Sub32. rewrite Z.sub_0_r, Z.add_0_r.
  destruct (Z.ltb_spec u1 v1) as [Hlt|Hge]; cbn -[u32].
  - destruct (Sub_spec d1 b1 Hd Hb) as [Hs He].
    rewrite (u32_small (v1 - u1)) by lia.
    exists u1, (v1 - u1), b1, (Sub c d1 b1). split; [done|].
    assert (Hev : Z.even (v1 - u1) = true) by (rewrite Z.even_sub, <- !Z.negb_odd, Hou, Hov; done).
    unfold inverse_measure at 1 3. rewrite Hev, orb_true_r.
    split; [|split; nia]. constructor; try done; try lia.
    + by rewrite Z.gcd_comm, gcd_sub_l, Z.gcd_comm.
    + rewrite He, !Z.mul_sub_distr_r. by rewrite Edx, Ebx.
  - destruct (Sub_spec b1 d1 Hb Hd) as [Hs He].
    rewrite (u32_small (u1 - v1)) by lia.
    exists (u1 - v1), v1, (Sub c b1 d1), d1. split; [done|].
    assert (Hev : Z.even (u1 - v1) = true) by (rewrite Z.even_sub, <- !Z.negb_odd, Hou, Hov; done).
    unfold inverse_measure at 1 3. rewrite Hev, orb_true_l.
    split; [|split; nia]. constructor; try done; try lia.
    + by rewrite gcd_sub_l.
    + rewrite He, !Z.mul_sub_distr_r. by rewrite Edx, Ebx.
Qed.

Lemma inverse_exit x u v b d :
  inverse_inv x u v b d -> u = 1 \/ v = 1 ->
  let y := if u =? 1 then b else d in valid c y /\ eqm M (y * x) (r * r).
Proof.
  intros [Hu Hv Hg Hb Hd Ebx Edx] Hs. destruct (Z.eqb_spec u 1) as [->|Hu1].
  - by rewrite Z.mul_1_l in Ebx.
  - destruct Hs as [->| ->]; [done|]. by rewrite Z.mul_1_l in Edx.
Qed.

Lemma inverse_measure_pos x u v b d : inverse_inv x u v b d -> 0 < inverse_measure u v.
Proof. intros [Hu Hv _ _ _ _ _]. unfold inverse_measure. case_match; nia. Qed.

Lemma inverse_loop_spec n x u v b d :
  inverse_inv x u v b d -> inverse_measure u v < 2 ^ Z.of_nat n ->
  exists y, inverse_loop c (S n) u v b d = Some y /\ valid c y /\ eqm M (y * x) (r * r).
Proof.
  revert u v b d. induction n as [|n IH]; intros u v b d Hinv Hm.
  { pose proof (inverse_measure_pos _ _ _ _ _ Hinv). change (2 ^ Z.of_nat 0) with 1 in Hm. lia. }
  rewrite Nat2Z.inj_succ, Z.pow_succ_r in Hm by lia.
  remember (S n) as m eqn:Em. cbn [inverse_loop].
  destruct (negb (u =? 1) && negb (v =? 1)) eqn:Hg.
  - apply andb_prop in Hg as [Hu1%negb_true_iff%Z.eqb_neq Hv1%negb_true_iff%Z.eqb_neq].
    destruct (inverse_step_spec x u v b d Hinv Hu1 Hv1) as (u' & v' & b' & d' & -> & Hinv' & _ & Hle).
    cbn [mbind option_bind]. subst m. apply IH; [done | lia].
  - eexists. split; [done|]. apply (inverse_exit x u v); [done|].
    apply andb_false_iff in Hg as [Hg|Hg]; apply negb_false_iff, Z.eqb_eq in Hg; auto.
Qed.

Lemma gcd_modulus x : 0 < x < M -> Z.gcd x M = 1.
Proof.
  intros Hx. rewrite Z.gcd_comm. apply Z.coprime_prime_small; [exact modulus_prime | lia].
Qed.

Lemma Inverse_spec x :
  valid c x -> x <> 0 ->
  exists y, Inverse c x = Some y /\ valid c y /\ eqm M (y * x) (r * r).
Proof.
  intros Hx Hnz. unfold Inverse. rewrite (proj2 (Z.eqb_neq x 0)) by done.
  pose proof modulus_bound. pose proof modulus_gt_1. unfold valid in Hx.
  apply (inverse_loop_spec 63).
  - constructor; try lia.
    + by apply gcd_modulus; lia.
    + apply valid_rSqModM.
    + apply valid_0.
    + rewrite rSqModM_spec, eqm_mod. by rewrite Z.mul_comm.
    + exists (- (r * r)). lia.
  - unfold inverse_measure. case_match; cbn; nia.
Qed.
Lemma ToUint32_of x z : valid c x -> eqm M x (z * r) -> ToUint32 c x = z mod M.
Proof. intros Hx He. by apply ToUint32_unique. Qed.

Lemma value_sum x y :
  valid c x -> valid c y -> eqm M (x + y) ((ToUint32 c x + ToUint32 c y) * r).
Proof.
  intros Hx Hy. destruct (ToUint32_spec x Hx) as [_ Ex], (ToUint32_spec y Hy) as [_ Ey].
  by rewrite Z.mul_add_distr_r, Ex, Ey.
Qed.

Lemma value_difference x y :
  valid c x -> valid c y -> eqm M (x - y) ((ToUint32 c x - ToUint32 c y) * r).
Proof.
  intros Hx Hy. destruct (ToUint32_spec x Hx) as [_ Ex], (ToUint32_spec y Hy) as [_ Ey].
  by rewrite Z.mul_sub_distr_r, Ex, Ey.
Qed.

Lemma Add_value x y :
  valid c x -> valid c y -> ToUint32 c (Add c x y) = (ToUint32 c x + ToUint32 c y) mod M.
Proof.
  intros Hx Hy. destruct (Add_eqm_spec x y Hx Hy) as [Hv He].
  apply ToUint32_of; [done|]. by rewrite He, value_sum.
Qed.

Lemma Sub_value x y :
  valid c x -> valid c y -> ToUint32 c (Sub c x y) = (ToUint32 c x - ToUint32 c y) mod M.
Proof.
  intros Hx Hy. destruct (Sub_spec x y Hx Hy) as [Hv He].
  apply ToUint32_of; [done|]. by rewrite He, value_difference.
Qed.

Lemma Mul_value x y :
  valid c x -> valid c y -> ToUint32 c (Mul c x y) = (ToUint32 c x * ToUint32 c y) mod M.
Proof.
  intros Hx Hy. destruct (Mul_eqm_spec x y (valid_r x Hx) Hy) as [Hv He].
  apply ToUint32_of; [done|]. apply eqm_cancel_modulus_r. rewrite He.
  destruct (ToUint32_spec x Hx) as [_ Ex], (ToUint32_spec y Hy) as [_ Ey].
  rewrite <- Ex, <- Ey at 1.
  by replace (ToUint32 c x * r * (ToUint32 c y * r)) with (ToUint32 c x * ToUint32 c y * r * r) by lia.
Qed.

Lemma New_value x : 0 <= x < r -> ToUint32 c (New c x) = x mod M.
Proof. intros Hx. destruct (New_spec x Hx). by apply ToUint32_of. Qed.

Lemma New_ToUint32 x : valid c x -> New c (ToUint32 c x) = x.
Proof.
  intros Hx. destruct (ToUint32_spec x Hx) as [Hv He].
  destruct (New_spec (ToUint32 c x) (valid_r _ Hv)) as [Hn Hne].
  apply (eqm_small M); [exact Hn | exact Hx |]. by rewrite Hne.
Qed.

Lemma Half_value x : valid c x -> (2 * ToUint32 c (Half c x)) mod M = ToUint32 c x.
Proof.
  intros Hx. destruct (Half_spec x Hx) as [Hv He], (ToUint32_spec x Hx) as [Hvx Hex].
  destruct (ToUint32_spec (Half c x) Hv) as [_ Eh].
  symmetry. apply eqm_mod_unique; [exact Hvx|]. apply eqm_cancel_modulus_r.
  by rewrite Hex, <- Z.mul_assoc, Eh, He.
Qed.

Lemma Inverse_value x :
  valid c x -> x <> 0 ->
  exists y, Inverse c x = Some y /\ valid c y /\ (ToUint32 c x * ToUint32 c y) mod M = 1.
Proof.
  intros Hx Hnz. destruct (Inverse_spec x Hx Hnz) as (y & Hi & Hy & He).
  exists y. split; [done|]. split; [done|].
  pose proof modulus_gt_1. symmetry. apply eqm_mod_unique; [lia|].
  destruct (ToUint32_spec x Hx) as [_ Ex], (ToUint32_spec y Hy) as [_ Ey].
  do 2 apply eqm_cancel_modulus_r.
  replace (ToUint32 c x * ToUint32 c y * r * r) with ((ToUint32 c y * r) * (ToUint32 c x * r)) by lia.
  rewrite Ex, Ey, He. by rewrite Z.mul_1_l.
Qed.

Lemma ToUint32_0 : ToUint32 c 0 = 0.
Proof. rewrite (ToUint32_of 0 0 valid_0); [by rewrite Zmod_0_l | done]. Qed.

Lemma IsZero_value x : valid c x -> IsZero x = (ToUint32 c x =? 0).
Proof.
  intros Hx. unfold IsZero. apply eq_true_iff_eq. rewrite !Z.eqb_eq. split.
  - intros ->. apply ToUint32_0.
  - intros H. apply ToUint32_inj; [done | apply valid_0 | by rewrite ToUint32_0].
Qed.

Lemma ToUint32_rModM : ToUint32 c (rModM c) = 1.
Proof.
  pose proof modulus_gt_1. rewrite (ToUint32_of _ 1 valid_rModM); [by apply Z.mod_small; lia|].
  rewrite rModM_spec, eqm_mod. by rewrite Z.mul_1_l.
Qed.

Lemma IsOne_value x : valid c x -> IsOne c x = (ToUint32 c x =? 1).
Proof.
  intros Hx. unfold IsOne. apply eq_true_iff_eq. rewrite !Z.eqb_eq. split.
  - intros ->. apply ToUint32_rModM.
  - intros H. apply ToUint32_inj; [done | apply valid_rModM | by rewrite ToUint32_rModM].
Qed.

Lemma SetUint64_value v : ToUint32 c (SetUint64 c v) = (v mod 2 ^ 32) mod M.
Proof.
  pose proof (u32_bound v) as Hb.
  unfold SetUint64, AddUint32. destruct (New_spec (u32 v) Hb) as [Hv _].
  rewrite Add_value, New_value, ToUint32_0, Z.add_0_l, Zmod_mod by (done || apply valid_0). done.
Qed.

Lemma SetUint64_valid v : valid c (SetUint64 c v).
Proof.
  unfold SetUint64, AddUint32. apply Add_eqm_spec; [apply valid_0|].
  apply New_spec, u32_bound.
Qed.
End Correct.

(** ** The four generated fields *)

(** Trial division by the [2^h] candidates from [d] on. *)
Fixpoint no_divisor_from (n d : Z) (h : nat) : bool :=
  match h with
  | O => negb (n mod d =? 0)
  | S h => no_divisor_from n d h && no_divisor_from n (d + 2 ^ Z.of_nat h) h
  end.

Lemma no_divisor_from_spec n d h :
  no_divisor_from n d h = true -> forall e, d <= e < d + 2 ^ Z.of_nat h -> n mod e <> 0.
Proof.
  revert d. induction h as [|h IH]; intros d H e He; cbn [no_divisor_from] in H.
  - change (2 ^ Z.of_nat 0) with 1 in He. replace e with d by lia.
    by apply negb_true_iff, Z.eqb_neq in H.
  - apply andb_prop in H as [H1 H2].
    rewrite Nat2Z.inj_succ, Z.pow_succ_r in He by lia.
    destruct (Z.lt_ge_cases e (d + 2 ^ Z.of_nat h)).
    + apply (IH d); [done | lia].
    + apply (IH (d + 2 ^ Z.of_nat h)); [done | lia].
Qed.

Lemma prime_by_trial n h :
  1 < n -> no_divisor_from n 2 h = true ->
  n < (2 + 2 ^ Z.of_nat h) * (2 + 2 ^ Z.of_nat h) -> Z.prime n.
Proof.
  intros Hn Ht Hk. split; [done|]. intros e He [q Hq].
  assert (Hsmall : forall a b, n = a * b -> 1 < b < n -> b < 2 + 2 ^ Z.of_nat h -> False).
  { intros a b Hab Hb Hlt. apply (no_divisor_from_spec n 2 h Ht b); [lia|].
    rewrite Hab. apply Z_mod_mult. }
  destruct (Z.lt_ge_cases e (2 + 2 ^ Z.of_nat h)) as [Hlt|Hge]; [by apply (Hsmall q e)|].
  apply (Hsmall e q); nia.
Qed.

Ltac field_constants h :=
  split; [apply (prime_by_trial _ h); vm_compute; reflexivity | ..];
  vm_compute; try reflexivity; split; congruence || reflexivity.

#[export] Instance koalabear_constants : FieldConstants koalabear.
Proof. field_constants 16%nat. Qed.

#[export] Instance mersenne31_constants : FieldConstants mersenne31.
Proof. field_constants 16%nat. Qed.

#[export] Instance gf8209_constants : FieldConstants gf8209.
Proof. field_constants 7%nat. Qed.

#[export] Instance gf251_constants : FieldConstants gf251.
Proof. field_constants 4%nat. Qed.

(** ** Byte encodings *)

Section BytesCorrect.
Context {c : constants} `{!FieldConstants c}.
Local Abbreviation M := (Modulus c).

(** The width constant of the byte encoding fits the modulus and the [uint32]. *)
Class ByteWidthOk : Prop := {
  nbBytes_le_4 : (nbBytes c <= 4)%nat;
  nbBytes_enough : M <= 2 ^ (8 * Z.of_nat (nbBytes c))
}.
Context `{!ByteWidthOk}.

(** The [n] low bytes of [v], most significant first. *)
Fixpoint be_encode (n : nat) (v : Z) : list Z :=
  match n with
  | O => []
  | S n => Z.land (Z.shiftr v (8 * Z.of_nat n)) 255 :: be_encode n v
  end.

Lemma Bytes_be_encode x : Bytes c x = be_encode (nbBytes c) (ToUint32 c x).
Proof.
  unfold Bytes. set (v := ToUint32 c x). clearbody v.
  induction (nbBytes c) as [|n IH]; [done|].
  cbn [seq fmap list_fmap be_encode]. rewrite Nat.sub_0_r. f_equal.
  - f_equal. f_equal. lia.
  - rewrite <- IH, <- fmap_S_seq, <- list_fmap_compose. apply list_fmap_ext.
    intros i y _. unfold compose. by replace (S n - 1 - S y)%nat with (n - 1 - y)%nat by lia.
Qed.

Lemma be_step v n :
  0 <= v < 2 ^ 32 -> 0 <= n ->
  Z.lor (u32 (Z.shiftl (Z.shiftr v (8 * n + 8)) 8)) (Z.land (Z.shiftr v (8 * n)) 255)
  = Z.shiftr v (8 * n).
Proof.
  intros Hv Hn. pose proof (Z.pow_pos_nonneg 2 (8 * n)).
  rewrite u32_small.
  2: { rewrite Z.shiftl_mul_pow2, <- Z.shiftr_shiftr, !Z.shiftr_div_pow2
         by lia.
       pose proof (Z.div_pos v (2 ^ (8 * n))).
       assert (v / 2 ^ (8 * n) <= v) by (apply Z.div_le_upper_bound; nia).
       set (q := v / 2 ^ (8 * n)) in *. Z.div_mod_to_equations; lia. }
  change 255 with (Z.ones 8). zbits.
Qed.

Lemma be_decode v n :
  0 <= v < 2 ^ 32 ->
  foldl (fun v b => Z.lor (u32 (Z.shiftl v 8)) b) (Z.shiftr v (8 * Z.of_nat n)) (be_encode n v) = v.
Proof.
  intros Hv. induction n as [|n IH]; [done|]. cbn [be_encode foldl].
  replace (8 * Z.of_nat (S n)) with (8 * Z.of_nat n + 8) by lia.
  rewrite be_step by lia. exact IH.
Qed.

Lemma fold_trim (l : list Z) :
  foldl (fun v b => Z.lor (u32 (Z.shiftl v 8)) b) 0 (TrimLeadingZeros l)
  = foldl (fun v b => Z.lor (u32 (Z.shiftl v 8)) b) 0 l.
Proof.
  induction l as [|b l IH]; [done|]. cbn [TrimLeadingZeros].
  destruct (Z.eqb_spec b 0) as [->|]; [|done]. by rewrite IH.
Qed.

Lemma value_high_bits v : 0 <= v < M -> Z.shiftr v (8 * Z.of_nat (nbBytes c)) = 0.
Proof. intros Hv. pose proof nbBytes_enough. rewrite Z.shiftr_div_pow2 by lia. apply Z.div_small. lia. Qed.

Lemma SetBytes_Bytes x : valid c x -> SetBytes c (Bytes c x) = x.
Proof.
  intros Hx. destruct (ToUint32_spec x Hx) as [Hv _].
  unfold SetBytes. rewrite fold_trim, Bytes_be_encode.
  rewrite <- (value_high_bits (ToUint32 c x)) at 1 by exact Hv.
  rewrite be_decode; [by apply New_ToUint32 | by apply valid_r].
Qed.

Lemma be_encode_length n v : length (be_encode n v) = n.
Proof. induction n; cbn; congruence. Qed.

Lemma be_encode_nth n v i :
  (i < n)%nat -> nth i (be_encode n v) 0 = Z.land (Z.shiftr v (8 * Z.of_nat (n - 1 - i))) 255.
Proof.
  revert i. induction n as [|n IH]; intros i Hi; [lia|]. destruct i as [|i]; cbn [nth be_encode].
  - do 2 f_equal. lia.
  - rewrite IH by lia. do 2 f_equal. lia.
Qed.

(** The top [k] of [n] bytes, in place. *)
Lemma AddBytes_fold n v k :
  (k <= n <= 4)%nat -> 0 <= v < 2 ^ (8 * Z.of_nat n) ->
  foldl (fun w i => Z.lor w (u32 (Z.shiftl (nth i (be_encode n v) 0) (Z.of_nat (n - 1 - i) * 8))))
    0 (seq 0 k)
  = Z.shiftl (Z.shiftr v (8 * Z.of_nat (n - k))) (8 * Z.of_nat (n - k)).
Proof.
  intros Hk Hv. induction k as [|k IH].
  - rewrite Nat.sub_0_r. cbn [seq foldl].
    rewrite (Z.shiftr_div_pow2 v), Z.div_small by lia. by rewrite Z.shiftl_0_l.
  - rewrite seq_S, foldl_snoc, IH, be_encode_nth by lia. cbn [Nat.add].
    replace (n - k)%nat with (S (n - 1 - k)) by lia.
    replace (n - S k)%nat with (n - 1 - k)%nat by lia.
    set (m := (n - 1 - k)%nat). assert (Hm : (m < 4)%nat) by lia.
    replace (8 * Z.of_nat (S m)) with (8 * Z.of_nat m + 8) by lia.
    rewrite (Z.mul_comm (Z.of_nat m) 8). set (e := 8 * Z.of_nat m). assert (0 <= e <= 24) by lia.
    rewrite u32_small.
    2: { change 255 with (Z.ones 8). rewrite Z.land_ones, Z.shiftl_mul_pow2 by lia.
         pose proof (Z.mod_pos_bound (Z.shiftr v e) (2 ^ 8)).
         assert (2 ^ e <= 2 ^ 24) by (apply Z.pow_le_mono_r; lia). nia. }
    change 255 with (Z.ones 8). zbits.
Qed.

Lemma AddBytes_Bytes x y : valid c x -> valid c y -> AddBytes c x (Bytes c y) = Ok (Add c x y).
Proof.
  intros Hx Hy. destruct (ToUint32_spec y Hy) as [Hv _]. pose proof nbBytes_le_4.
  unfold AddBytes. rewrite !Bytes_be_encode, be_encode_length, Nat.eqb_refl. cbn [negb].
  rewrite AddBytes_fold; [|lia|].
  2: { pose proof nbBytes_enough. unfold valid in Hv. lia. }
  rewrite Nat.sub_diag, Z.shiftr_0_r, Z.shiftl_0_r. by rewrite New_ToUint32.
Qed.
End BytesCorrect.
Arguments ByteWidthOk c : clear implicits.

#[export] Instance koalabear_bytes : ByteWidthOk koalabear.
Proof. split; vm_compute; [lia | congruence]. Qed.

#[export] Instance mersenne31_bytes : ByteWidthOk mersenne31.
Proof. split; vm_compute; [lia | congruence]. Qed.

#[export] Instance gf8209_bytes : ByteWidthOk gf8209.
Proof. split; vm_compute; [lia | congruence]. Qed.

#[export] Instance gf251_bytes : ByteWidthOk gf251.
Proof. split; vm_compute; [lia | congruence]. Qed.

(** ** Properties *)

Section Properties.
Context (c : constants) `{!FieldConstants c}.

(** C39: On canonical elements, [Add], [Sub], [Mul] and [Double] return a
    canonical element whose numerical value is the sum, difference, product and
    double of the numerical values modulo the field's prime, and [Half] one
    whose double is the argument; no 32- or 64-bit intermediate overflows. *)
Theorem field_arithmetic x y :
  valid c x -> valid c y ->
  let v := ToUint32 c in
  (valid c (Add c x y) /\ v (Add c x y) = (v x + v y) mod Modulus c) /\
  (valid c (Sub c x y) /\ v (Sub c x y) = (v x - v y) mod Modulus c) /\
  (valid c (Mul c x y) /\ v (Mul c x y) = (v x * v y) mod Modulus c) /\
  (valid c (Double c x) /\ v (Double c x) = (2 * v x) mod Modulus c) /\
  (valid c (Half c x) /\ (2 * v (Half c x)) mod Modulus c = v x).
Proof.
  intros Hx Hy. cbv zeta. unfold Double. rewrite !Add_value, Sub_value, Mul_value, Half_value by done.
  replace (ToUint32 c x + ToUint32 c x) with (2 * ToUint32 c x) by lia.
  repeat split; try done; apply Add_eqm_spec || apply Sub_spec || apply Mul_eqm_spec || apply Half_spec;
    by try apply valid_r.
Qed.

(** C40: [Inverse] terminates on every canonical element (within the 64 rounds
    of the model), returns 0 for 0, and otherwise the multiplicative inverse of
    the numerical value modulo the field's prime. *)
Theorem field_inverse x :
  valid c x ->
  exists y, Inverse c x = Some y /\ valid c y /\
    (x = 0 -> y = 0) /\ (x <> 0 -> (ToUint32 c x * ToUint32 c y) mod Modulus c = 1).
Proof.
  intros Hx. destruct (decide (x = 0)) as [->|Hn].
  - exists 0. repeat split; try done; apply valid_0.
  - destruct (Inverse_value x Hx Hn) as (y & Hi & Hy & Hv). by exists y.
Qed.

(** [New] and [ToUint32] are mutually inverse between the naturals below
    the prime and the canonical elements; [New] reduces any other [uint32];
    [Cmp], [IsZero] and [IsOne] agree with the numerical values. *)
Theorem field_representation x y n :
  valid c x -> valid c y -> 0 <= n < 2 ^ 32 ->
  (valid c (New c n) /\ ToUint32 c (New c n) = n mod Modulus c) /\
  (0 <= ToUint32 c x < Modulus c /\ New c (ToUint32 c x) = x) /\
  (Cmp c x y = Eq <-> x = y) /\
  IsZero x = (ToUint32 c x =? 0) /\ IsOne c x = (ToUint32 c x =? 1).
Proof.
  intros Hx Hy Hn. split; [split; [by apply New_spec | by apply New_value]|].
  split; [split; [by apply ToUint32_spec | by apply New_ToUint32]|].
  split; [|split; [by apply IsZero_value | by apply IsOne_value]].
  unfold Cmp. rewrite Z.compare_eq_iff. split; [by apply ToUint32_inj | by intros ->].
Qed.

(** Decoding the big-endian bytes of an element gives the element back, and
    [AddBytes] of those bytes adds the element. *)
Theorem field_bytes_roundtrip `{!ByteWidthOk c} x y :
  valid c x -> valid c y ->
  length (Bytes c x) = nbBytes c /\ SetBytes c (Bytes c x) = x /\
  AddBytes c y (Bytes c x) = Ok (Add c y x).
Proof.
  intros Hx Hy. split; [by rewrite Bytes_be_encode, be_encode_length|].
  split; [by apply SetBytes_Bytes | by apply AddBytes_Bytes].
Qed.

(** [SetUint64] keeps only the low 32 bits of its argument before reducing
    it: values from [2^32] on are not represented by their residue. *)
Theorem field_SetUint64_truncates v :
  valid c (SetUint64 c v) /\ ToUint32 c (SetUint64 c v) = (v mod 2 ^ 32) mod Modulus c.
Proof. split; [apply SetUint64_valid | apply SetUint64_value]. Qed.

End Properties.

(** *** The properties at concrete elements of [koalabear] *)

Ltac by_valid := unfold valid; split; vm_compute; congruence.

Lemma field_arithmetic_witness :
  let v := ToUint32 koalabear in
  v (Mul koalabear 5 7) = (v 5 * v 7) mod Modulus koalabear.
Proof. apply (field_arithmetic koalabear 5 7); by_valid. Defined.

Lemma field_inverse_witness :
  exists y, Inverse koalabear 5 = Some y /\ valid koalabear y /\
    (5 = 0 -> y = 0) /\ (5 <> 0 -> (ToUint32 koalabear 5 * ToUint32 koalabear y) mod Modulus koalabear = 1).
Proof. apply (field_inverse koalabear 5); by_valid. Defined.

Lemma field_representation_witness :
  0 <= ToUint32 koalabear 5 < Modulus koalabear /\ New koalabear (ToUint32 koalabear 5) = 5.
Proof. apply (field_representation koalabear 5 7 9); by_valid || lia. Defined.

Lemma field_bytes_roundtrip_witness :
  length (Bytes koalabear 5) = nbBytes koalabear /\ SetBytes koalabear (Bytes koalabear 5) = 5 /\
  AddBytes koalabear 7 (Bytes koalabear 5) = Ok (Add koalabear 7 5).
Proof. apply (field_bytes_roundtrip koalabear 5 7); by_valid. Defined.

Lemma field_SetUint64_truncates_witness :
  ToUint32 koalabear (SetUint64 koalabear (2 ^ 32)) = 0 /\ 2 ^ 32 mod Modulus koalabear <> 0.
Proof.
  split; [|vm_compute; congruence].
  exact (proj2 (field_SetUint64_truncates koalabear (2 ^ 32))).
Defined.
