(* ===== verification/Interval.v ===== *)
(** * Infinite integers, intervals and powers

    Models [pkg/util/math]: [biginf.go] (module [InfInt]), [interval.go]
    (module [Interval]) and [pow.go] (module [Pow]).  A [big.Int] is a [Z]; its
    in-place methods are modelled by the value they leave in the receiver. *)

From Stdlib Require Import ZArith Lia.
From stdpp Require Import base numbers list option strings.
From S2P Require Import Prelude.

Open Scope Z_scope.

(** [big.Int.BitLen]: the length of the absolute value in bits. *)
Definition BitLen (z : Z) : Z := if z =? 0 then 0 else Z.log2 (Z.abs z) + 1.

Module InfInt.

Inductive infinity_sign : Type :=
  | notAnInfinity
  | negativeInfinity
  | positiveInfinity
  | infinity.

#[export] Instance infinity_sign_eq_dec : EqDecision infinity_sign.
Proof. solve_decision. Defined.

Definition sign_eqb (s s' : infinity_sign) : bool :=
  match s, s' with
  | notAnInfinity, notAnInfinity | negativeInfinity, negativeInfinity
  | positiveInfinity, positiveInfinity | infinity, infinity => true
  | _, _ => false
  end.

Record t : Type := mk { val : Z; sign : infinity_sign }.

Definition PosInfinity : t := mk 0 positiveInfinity.
Definition NegInfinity : t := mk 0 negativeInfinity.
Definition Infinity : t := mk 0 infinity.

Definition Add (p other : t) : t :=
  match sign p, sign other with
  | notAnInfinity, notAnInfinity => mk (val p + val other) notAnInfinity
  | s, s' => if sign_eqb s s' then p else Infinity
  end.

Definition Cmp (p o : t) : result comparison :=
  match sign p, sign o with
  | infinity, _ | _, infinity => Fault (Panic "cannot compare against infinity")
  | notAnInfinity, notAnInfinity => Ok (val p ?= val o)
  | s, s' =>
      if sign_eqb s s' then Ok Eq
      else match s, s' with
           | negativeInfinity, _ | _, positiveInfinity => Ok Lt
           | positiveInfinity, _ | _, negativeInfinity => Ok Gt
           | _, _ => Fault (Panic "unreachable")
           end
  end.

Definition CmpInt (p : t) (other : Z) : result comparison :=
  match sign p with
  | infinity => Fault (Panic "cannot compare against infinity")
  | notAnInfinity => Ok (val p ?= other)
  | negativeInfinity => Ok Lt
  | positiveInfinity => Ok Gt
  end.

Definition IntVal (p : t) : result Z :=
  match sign p with
  | notAnInfinity => Ok (val p)
  | _ => Fault (Panic "cannot cast infinity into a big integer")
  end.

Definition IsNotAnInfinity (p : t) : bool := sign_eqb (sign p) notAnInfinity.

Definition Min (p o : t) : t :=
  match sign p, sign o with
  | notAnInfinity, notAnInfinity => if val p <=? val o then p else o
  | positiveInfinity, positiveInfinity => PosInfinity
  | _, _ => NegInfinity
  end.

Definition Max (p o : t) : t :=
  match sign p, sign o with
  | notAnInfinity, notAnInfinity => if val p >=? val o then p else o
  | negativeInfinity, negativeInfinity => NegInfinity
  | _, _ => PosInfinity
  end.

Definition Mul (p o : t) : t :=
  match sign p, sign o with
  | infinity, _ | _, infinity => Infinity
  | negativeInfinity, negativeInfinity => PosInfinity
  | negativeInfinity, _ | _, negativeInfinity => NegInfinity
  | positiveInfinity, _ | _, positiveInfinity => PosInfinity
  | notAnInfinity, notAnInfinity => mk (val p * val o) notAnInfinity
  end.

Definition Negate (p : t) : t :=
  match sign p with
  | positiveInfinity => NegInfinity
  | negativeInfinity => PosInfinity
  | infinity => Infinity
  | notAnInfinity => mk (- val p) notAnInfinity
  end.

Definition Sign (p : t) : result Z :=
  match sign p with
  | notAnInfinity => Ok (Z.sgn (val p))
  | _ => Fault (Panic "cannot cast infinity into a big integer")
  end.

(** [p.Set(other)] and [p.SetInt(other)]: what [p] holds afterwards. *)
Definition Set_ (other : t) : t := mk (val other) (sign other).
Definition SetInt (other : Z) : t := mk other notAnInfinity.

Definition Sub (p other : t) : t := Add p (Negate other).

End InfInt.

Module Interval.
Import InfInt.

Record t : Type := mk { min : InfInt.t; max : InfInt.t }.

Definition INFINITY : t := mk NegInfinity PosInfinity.

Definition NewInterval (lower upper : Z) : result t :=
  if lower >? upper then Fault (Panic "invalid interval")
  else Ok (mk (SetInt lower) (SetInt upper)).

Definition NewInterval64 (lower upper : Z) : result t := NewInterval lower upper.

Definition IsFinite (p : t) : bool := IsNotAnInfinity (min p) && IsNotAnInfinity (max p).

Definition IsInfinite (p : t) : bool := negb (IsFinite p).

Definition Constant (p : t) : result (option Z) :=
  if IsFinite p then
    minv ← IntVal (min p);
    maxv ← IntVal (max p);
    Ok (if minv =? maxv then Some minv else None)
  else Ok None.

Definition MinValue (p : t) : InfInt.t := min p.
Definition MinIntValue (p : t) : result Z := IntVal (min p).
Definition MaxValue (p : t) : InfInt.t := max p.
Definition MaxIntValue (p : t) : result Z := IntVal (max p).

(** The width and whether the interval is signed. *)
Definition BitWidth (p : t) : result (Z * bool) :=
  if IsInfinite p then Fault (Panic "cannot determine bitwidth of infinite interval")
  else
    pMin ← IntVal (min p);
    pMax ← IntVal (max p);
    let signed := Z.sgn pMin <? 0 in
    let pMin := if signed then pMin + 1 else pMin in
    Ok (Z.max (BitLen pMin) (BitLen pMax), signed).

Definition Set_ (val : t) : t := mk (InfInt.Set_ (min val)) (InfInt.Set_ (max val)).

(** [p.min.CmpInt(val) <= 0 && p.max.CmpInt(val) >= 0] *)
Definition Contains (p : t) (val : Z) : result bool :=
  c ← CmpInt (min p) val;
  match c with
  | Gt => Ok false
  | _ => d ← CmpInt (max p) val; Ok (match d with Lt => false | _ => true end)
  end.

Definition Within (p val : t) : result bool :=
  c ← Cmp (min p) (min val);
  match c with
  | Lt => Ok false
  | _ => d ← Cmp (max p) (max val); Ok (match d with Gt => false | _ => true end)
  end.

Definition Insert (p val : t) : t := mk (Min (min p) (min val)) (Max (max p) (max val)).

Definition normalise (p : t) : t :=
  let p := if sign_eqb (sign (min p)) infinity then mk NegInfinity (max p) else p in
  if sign_eqb (sign (max p)) infinity then mk (min p) PosInfinity else p.

Definition Add (p q : t) : t :=
  normalise (mk (InfInt.Add (min p) (min q)) (InfInt.Add (max p) (max q))).

Definition Sub (p q : t) : t :=
  normalise (mk (InfInt.Sub (min p) (max q)) (InfInt.Sub (max p) (min q))).

Definition Mul (p q : t) : t :=
  let x1 := InfInt.Mul (min p) (min q) in
  let x2 := InfInt.Mul (min p) (max q) in
  let x3 := InfInt.Mul (max p) (min q) in
  let x4 := InfInt.Mul (max p) (max q) in
  let x1_m_x2 := Min x1 x2 in
  let x3_m_x4 := Min x3 x4 in
  let x1_x_x2 := Max x1 x2 in
  let x3_x_x4 := Max x3 x4 in
  mk (InfInt.Set_ (Min x1_m_x2 x3_m_x4)) (InfInt.Set_ (Max x1_x_x2 x3_x_x4)).

Definition Union (p other : t) : t := mk (Min (min p) (min other)) (Max (max p) (max other)).

(** [for i := uint(1); i < pow; i++ { p.Mul(val) }] on a clone [val] of [p]. *)
Definition Exp (p : t) (pow : nat) : t :=
  let val := Set_ p in Nat.iter (pow - 1) (fun p => Mul p val) p.

End Interval.

Module Pow.

(** The loop of [PowUint64]; the exponent is a [uint64], so 64 rounds suffice. *)
Fixpoint pow_loop (fuel : nat) (base exp result : Z) : option Z :=
  match fuel with
  | O => None
  | S k =>
      let result := if Z.land exp 1 =? 1 then u64 (result * base) else result in
      let exp := Z.shiftr exp 1 in
      if exp =? 0 then Some result else pow_loop k (u64 (base * base)) exp result
  end.

Definition PowUint64 (base exp : Z) : option Z := pow_loop 64 base exp 1.

(** [m.Exp(m, big.NewInt(int64(n)), nil)]: the exponent of a [uint] from [2^63] on is
    negative, and [Exp] then yields 1. *)
Definition Pow2 (n : Z) : Z := if n <? 2 ^ 63 then 2 ^ n else 1.
Definition NegPow2 (n : Z) : Z := - Pow2 n.

End Pow.

(** ** Meaning of intervals *)

Module IntervalFacts.
Import InfInt Interval.

(** [z] is at or above the lower bound [i]; at or below the upper bound [i]. *)
Definition above (i : InfInt.t) (z : Z) : Prop :=
  match sign i with notAnInfinity => val i <= z | negativeInfinity => True | _ => False end.
Definition below (i : InfInt.t) (z : Z) : Prop :=
  match sign i with notAnInfinity => z <= val i | positiveInfinity => True | _ => False end.

Definition member (p : Interval.t) (z : Z) : Prop := above (min p) z /\ below (max p) z.

(** The interval is non-empty and has a lower and an upper bound of the right kind. *)
Definition wf (p : Interval.t) : Prop :=
  match sign (min p), sign (max p) with
  | notAnInfinity, notAnInfinity => val (min p) <= val (max p)
  | notAnInfinity, positiveInfinity => True
  | negativeInfinity, notAnInfinity => True
  | negativeInfinity, positiveInfinity => True
  | _, _ => False
  end.

(** Case analysis on the signs of all the bounds of well-formed intervals. *)
Ltac interval_cases :=
  repeat match reverse goal with
  | p : Interval.t |- _ => destruct p as [[?lo []] [?hi []]]
  end;
  unfold wf, member, above, below, Interval.Add, Interval.Sub, Union, Min, Max in *;
  cbn in *; try tauto; try done.

(** Case analysis on every comparison of finite bounds. *)
Ltac bound_cases :=
  repeat match goal with
  | |- context [?a <=? ?b] => destruct (Z.leb_spec a b)
  | |- context [?a >=? ?b] => rewrite (Z.geb_leb a b)
  | H : context [?a <=? ?b] |- _ => destruct (Z.leb_spec a b)
  | H : context [?a >=? ?b] |- _ => rewrite (Z.geb_leb a b) in H
  end; cbn in *; try tauto; try done.

Lemma member_nonempty p : wf p -> exists z, member p z.
Proof. intros Hp. interval_cases; first [exists lo; lia | exists hi; lia | exists 0; lia]. Qed.

Lemma Contains_member p z : wf p -> exists b, Contains p z = Ok b /\ (b = true <-> member p z).
Proof.
  intros Hp. unfold Contains, CmpInt.
  interval_cases; repeat match goal with |- context [?a ?= ?b] => destruct (Z.compare_spec a b) end;
    cbn; eexists; (split; [done|]); split; intros; try done; try lia.
Qed.

(** *** Inclusion, bound by bound *)

Definition lower_ok (i : InfInt.t) : Prop :=
  match sign i with notAnInfinity | negativeInfinity => True | _ => False end.
Definition upper_ok (i : InfInt.t) : Prop :=
  match sign i with notAnInfinity | positiveInfinity => True | _ => False end.

Lemma wf_lower p : wf p -> lower_ok (min p).
Proof. destruct p as [[lo []] [hi []]]; cbn; done. Qed.

Lemma wf_upper p : wf p -> upper_ok (max p).
Proof. destruct p as [[lo []] [hi []]]; cbn; done. Qed.

Lemma above_mono i w z : above i w -> w <= z -> above i z.
Proof. destruct i as [v []]; cbn; try done. lia. Qed.

Lemma below_mono i w z : below i w -> z <= w -> below i z.
Proof. destruct i as [v []]; cbn; try done. lia. Qed.

Lemma low_point p z : wf p -> above (min p) z -> exists w, member p w /\ w <= z.
Proof.
  intros Hp Hz. interval_cases;
    first [exists lo; lia | exists (Z.min hi z); lia | exists z; lia].
Qed.

Lemma high_point p z : wf p -> below (max p) z -> exists w, member p w /\ z <= w.
Proof.
  intros Hp Hz. interval_cases;
    first [exists hi; lia | exists (Z.max lo z); lia | exists z; lia].
Qed.

Lemma subset_iff p r :
  wf p ->
  (forall z, member p z -> member r z) <->
  (forall z, above (min p) z -> above (min r) z) /\ (forall z, below (max p) z -> below (max r) z).
Proof.
  intros Hp. split.
  - intros Hs. split; intros z Hz.
    + destruct (low_point p z Hp Hz) as (w & Hw & Hle). apply (above_mono _ w); [apply Hs, Hw | done].
    + destruct (high_point p z Hp Hz) as (w & Hw & Hle). apply (below_mono _ w); [apply Hs, Hw | done].
  - intros [Hl Hh] z [Hz1 Hz2]. split; auto.
Qed.

Lemma Cmp_lower i j :
  lower_ok i -> lower_ok j ->
  exists c, Cmp i j = Ok c /\ (c <> Lt <-> forall z, above i z -> above j z).
Proof.
  destruct i as [v []], j as [w []]; cbn; intros Hi Hj; try done; unfold above; cbn;
    eexists; (split; [done|]); split; try done; try lia.
  - intros Hc z Hz. destruct (Z.compare_spec v w); lia || congruence.
  - intros Hs. specialize (Hs v ltac:(lia)). by destruct (Z.compare_spec v w); try lia.
  - intros Hs. specialize (Hs (w - 1) I). lia.
Qed.

Lemma Cmp_upper i j :
  upper_ok i -> upper_ok j ->
  exists c, Cmp i j = Ok c /\ (c <> Gt <-> forall z, below i z -> below j z).
Proof.
  destruct i as [v []], j as [w []]; cbn; intros Hi Hj; try done; unfold below; cbn;
    eexists; (split; [done|]); split; try done; try lia.
  - intros Hc z Hz. destruct (Z.compare_spec v w); lia || congruence.
  - intros Hs. specialize (Hs v ltac:(lia)). by destruct (Z.compare_spec v w); try lia.
  - intros Hs. specialize (Hs (w + 1) I). lia.
Qed.

Lemma Within_spec p q :
  wf p -> wf q -> exists b, Within p q = Ok b /\ (b = true <-> forall z, member p z -> member q z).
Proof.
  intros Hp Hq. pose proof (subset_iff p q Hp) as Hs.
  destruct (Cmp_lower (min p) (min q)) as (c & Hc & Hcl); [by apply wf_lower..|].
  destruct (Cmp_upper (max p) (max q)) as (d & Hd & Hdu); [by apply wf_upper..|].
  rewrite <- Hcl, <- Hdu in Hs.
  unfold Within. rewrite Hc, Hd. destruct c, d; cbn; eexists; (split; [done|]); rewrite Hs;
    split; try done; intros [??]; try done.
Qed.

Lemma above_Min i j z : lower_ok i -> lower_ok j -> above (Min i j) z <-> above i z \/ above j z.
Proof.
  destruct i as [v []], j as [w []]; cbn; intros Hi Hj; try done; unfold above, Min; cbn; try tauto.
  destruct (Z.leb_spec v w); cbn; lia.
Qed.

Lemma below_Max i j z : upper_ok i -> upper_ok j -> below (Max i j) z <-> below i z \/ below j z.
Proof.
  destruct i as [v []], j as [w []]; cbn; intros Hi Hj; try done; unfold below, Max; cbn; try tauto.
  rewrite Z.geb_leb. destruct (Z.leb_spec w v); cbn; lia.
Qed.

Lemma Union_wf p q : wf p -> wf q -> wf (Union p q).
Proof. intros Hp Hq. interval_cases; bound_cases; lia. Qed.

(** [Union] (and [Insert]) is the least interval that includes both. *)
Lemma Union_spec p q r :
  wf p -> wf q ->
  (forall z, member (Union p q) z -> member r z) <->
  (forall z, member p z \/ member q z -> member r z).
Proof.
  intros Hp Hq. rewrite subset_iff by (by apply Union_wf). unfold Union. cbn [Interval.min Interval.max].
  pose proof (subset_iff p r Hp) as Hsp. pose proof (subset_iff q r Hq) as Hsq.
  pose proof (fun z => above_Min (min p) (min q) z (wf_lower p Hp) (wf_lower q Hq)) as Ha.
  pose proof (fun z => below_Max (max p) (max q) z (wf_upper p Hp) (wf_upper q Hq)) as Hb.
  setoid_rewrite Ha. setoid_rewrite Hb. firstorder.
Qed.

(** *** Arithmetic *)

Lemma Add_wf p q : wf p -> wf q -> wf (Interval.Add p q).
Proof. intros Hp Hq. interval_cases; lia. Qed.

Lemma Add_member p q x y :
  wf p -> wf q -> member p x -> member q y -> member (Interval.Add p q) (x + y).
Proof. intros Hp Hq Hx Hy. interval_cases; lia. Qed.

Lemma Sub_wf p q : wf p -> wf q -> wf (Interval.Sub p q).
Proof. intros Hp Hq. interval_cases; lia. Qed.

Lemma Sub_member p q x y :
  wf p -> wf q -> member p x -> member q y -> member (Interval.Sub p q) (x - y).
Proof. intros Hp Hq Hx Hy. interval_cases; lia. Qed.

(** Sums and differences are exact: every member of the result is reached. *)
Lemma Add_exact p q z :
  wf p -> wf q -> member (Interval.Add p q) z -> exists x y, member p x /\ member q y /\ z = x + y.
Proof.
  intros Hp Hq Hz. interval_cases.
  all: first [ exists (Z.min hi (z - lo0)), (z - Z.min hi (z - lo0)); lia
             | exists lo, (z - lo); lia
             | exists (z - lo0), lo0; lia
             | exists hi, (z - hi); lia
             | exists (z - hi0), hi0; lia
             | exists (Z.max lo (z - hi0)), (z - Z.max lo (z - hi0)); lia
             | exists 0, z; lia ].
Qed.


(** [wf] bounds of a product: the corners are compared with the odd [Min] and
    [Max] of [InfInt], which send any mixture of kinds to the infinities. *)
Lemma Mul_wf p q : wf p -> wf q -> wf (Interval.Mul p q).
Proof.
  intros Hp Hq. unfold Interval.Mul. interval_cases; bound_cases; lia.
Qed.

Lemma corner_bounds a b x lo hi :
  lo <= a * x -> lo <= b * x -> a * x <= hi -> b * x <= hi ->
  forall y, a <= y <= b -> lo <= y * x <= hi.
Proof. intros. destruct (Z.le_ge_cases 0 x); nia. Qed.

Lemma mul_corners lo hi lo0 hi0 x y lo1 hi1 :
  lo <= x <= hi -> lo0 <= y <= hi0 ->
  lo1 <= lo * lo0 -> lo1 <= lo * hi0 -> lo1 <= hi * lo0 -> lo1 <= hi * hi0 ->
  lo * lo0 <= hi1 -> lo * hi0 <= hi1 -> hi * lo0 <= hi1 -> hi * hi0 <= hi1 ->
  lo1 <= x * y <= hi1.
Proof.
  intros.
  assert (lo1 <= y * lo <= hi1) by (apply (corner_bounds lo0 hi0 lo); lia).
  assert (lo1 <= y * hi <= hi1) by (apply (corner_bounds lo0 hi0 hi); lia).
  apply (corner_bounds lo hi y); lia.
Qed.

Lemma Mul_member p q x y :
  wf p -> wf q -> member p x -> member q y -> member (Interval.Mul p q) (x * y).
Proof.
  intros Hp Hq Hx Hy. unfold Interval.Mul. interval_cases; bound_cases.
  all: apply (mul_corners lo hi lo0 hi0); lia.
Qed.

Lemma Exp_iter n p : wf p -> wf (Nat.iter n (fun p' => Interval.Mul p' (Interval.Set_ p)) p).
Proof.
  intros Hp. induction n as [|n IH]; [done|]. cbn. apply Mul_wf; [done|]. by destruct p as [[] []].
Qed.

(** For a positive power, [Exp] includes the powers of the members. *)
Lemma Exp_member p x n :
  wf p -> member p x -> (0 < n)%nat -> member (Exp p n) (x ^ Z.of_nat n).
Proof.
  intros Hp Hx Hn. unfold Exp. destruct n as [|n]; [lia|]. replace (S n - 1)%nat with n by lia. clear Hn.
  induction n as [|n IH]; [by rewrite Z.pow_1_r|].
  rewrite Nat2Z.inj_succ, Z.pow_succ_r, Z.mul_comm by lia. cbn [Nat.iter].
  apply Mul_member; [by apply Exp_iter | by destruct p as [[] []] | exact IH | by destruct p as [[] []]].
Qed.

(** The zeroth power leaves the interval as it is. *)
Lemma Exp_zero p : Exp p 0 = p.
Proof. done. Qed.

(** *** Bit widths *)

Lemma BitLen_le z n : 0 <= n -> BitLen z <= n <-> - 2 ^ n < z < 2 ^ n.
Proof.
  intros Hn. unfold BitLen. destruct (Z.eqb_spec z 0) as [->|Hz].
  - pose proof (Z.pow_pos_nonneg 2 n). lia.
  - pose proof (Z.log2_lt_pow2 (Z.abs z) n ltac:(lia)). lia.
Qed.

(** The width is sufficient.  It is also minimal, except for a signed constant. *)
Lemma BitWidth_spec p w signed :
  wf p -> BitWidth p = Ok (w, signed) ->
  (signed = true <-> exists z, member p z /\ z < 0) /\
  forall n, 0 <= n ->
    (w <= n -> forall z, member p z -> (if signed then - 2 ^ n <= z else 0 <= z) /\ z < 2 ^ n) /\
    ((forall z, member p z -> (if signed then - 2 ^ n <= z else 0 <= z) /\ z < 2 ^ n) ->
     signed = false \/ Constant p = Ok None -> w <= n).
Proof.
  intros Hp Hw. destruct p as [[lo []] [hi []]]; unfold wf in Hp; cbn in *; try done.
  injection Hw as Hw Hs. subst w. setoid_rewrite Z.max_lub_iff.
  assert (Hneg : (Z.sgn lo <? 0) = (lo <? 0)) by (by destruct lo).
  rewrite Hneg in *. destruct (Z.ltb_spec lo 0) as [Hn|Hn]; subst signed.
  - split; [split; [intros _; exists lo; unfold member; cbn; lia | done]|].
    intros n H0. rewrite !BitLen_le by done. unfold member, above, below. cbn.
    pose proof (Z.pow_pos_nonneg 2 n). split; [intros; lia|].
    intros Hb [|Hc]; [done|]. destruct (Z.eqb_spec lo hi); [done|].
    pose proof (Hb lo). pose proof (Hb hi). lia.
  - split; [split; [done | intros (z & [Hz _] & ?); cbn in Hz; lia]|].
    intros n H0. rewrite !BitLen_le by done. unfold member, above, below. cbn.
    pose proof (Z.pow_pos_nonneg 2 n). split; [intros; lia|].
    intros Hb _. pose proof (Hb lo). pose proof (Hb hi). lia.
Qed.

(** *** Powers of machine integers *)

Lemma pow_loop_spec n b e res :
  0 <= e < 2 ^ Z.of_nat n -> 0 <= res < 2 ^ 64 -> (0 < n)%nat ->
  exists v, Pow.pow_loop n b e res = Some v /\ 0 <= v < 2 ^ 64 /\ eqm (2 ^ 64) v (res * b ^ e).
Proof.
  revert b e res. induction n as [|n IH]; intros b e res He Hr Hn; [lia|].
  cbn [Pow.pow_loop]. replace (Z.land e 1) with (e mod 2) by (symmetry; exact (Z.land_ones e 1 ltac:(lia))).
  set (res' := if e mod 2 =? 1 then u64 (res * b) else res).
  assert (Hr' : 0 <= res' < 2 ^ 64) by (unfold res'; case_match; [apply u64_bound | done]).
  assert (Heq : eqm (2 ^ 64) (res' * (b * b) ^ (e / 2)) (res * b ^ e)).
  { assert (He2 : b ^ e = b ^ (e mod 2) * (b * b) ^ (e / 2)).
    { rewrite <- Z.pow_2_r, <- Z.pow_mul_r, <- Z.pow_add_r by (Z.div_mod_to_equations; lia).
      f_equal. Z.div_mod_to_equations. lia. }
    rewrite He2, Z.mul_assoc. apply eqm_mul; [|done]. unfold res', u64, wrap.
    destruct (Z.eqb_spec (e mod 2) 1) as [H1|H1].
    - rewrite H1, Z.pow_1_r. apply eqm_mod.
    - replace (e mod 2) with 0 by (Z.div_mod_to_equations; lia). by rewrite Z.pow_0_r, Z.mul_1_r. }
  rewrite Z.shiftr_div_pow2 by lia. change (2 ^ 1) with 2.
  destruct (Z.eqb_spec (e / 2) 0) as [H0|H0].
  - exists res'. split; [done|]. split; [done|]. by rewrite <- Heq, H0, Z.pow_0_r, Z.mul_1_r.
  - rewrite Nat2Z.inj_succ, Z.pow_succ_r in He by lia.
    destruct n as [|n]; [cbn in He; Z.div_mod_to_equations; lia|].
    destruct (IH (u64 (b * b)) (e / 2) res') as (v & Hv & Hb & Hm); [Z.div_mod_to_equations; lia | done | lia |].
    exists v. split; [done|]. split; [done|]. rewrite Hm, <- Heq. apply eqm_mul; [done|].
    apply eqm_pow, eqm_mod.
Qed.
End IntervalFacts.

(** ** Properties *)

Module IntervalProperties.
Import InfInt Interval IntervalFacts.

(** Interval arithmetic over-approximates integer arithmetic: sums,
    differences, products and positive powers of members are members of the
    computed interval, which is again well formed, infinite bounds included;
    sums are exact. *)
Theorem interval_arithmetic_sound p q x y n :
  wf p -> wf q -> member p x -> member q y -> (0 < n)%nat ->
  (wf (Interval.Add p q) /\ member (Interval.Add p q) (x + y)) /\
  (wf (Interval.Sub p q) /\ member (Interval.Sub p q) (x - y)) /\
  (wf (Interval.Mul p q) /\ member (Interval.Mul p q) (x * y)) /\
  member (Exp p n) (x ^ Z.of_nat n) /\
  (forall z, member (Interval.Add p q) z <-> exists a b, member p a /\ member q b /\ z = a + b).
Proof.
  intros Hp Hq Hx Hy Hn.
  split; [split; [by apply Add_wf | by apply Add_member]|].
  split; [split; [by apply Sub_wf | by apply Sub_member]|].
  split; [split; [by apply Mul_wf | by apply Mul_member]|].
  split; [by apply Exp_member|]. intros z. split; [by apply Add_exact|].
  intros (a & b & Ha & Hb & ->). by apply Add_member.
Qed.

(** [Contains] and [Within] never panic on well-formed intervals and decide
    membership and inclusion; [Union] is the least interval including both. *)
Theorem interval_order p q r z :
  wf p -> wf q ->
  (exists b, Contains p z = Ok b /\ (b = true <-> member p z)) /\
  (exists b, Within p q = Ok b /\ (b = true <-> forall x, member p x -> member q x)) /\
  wf (Union p q) /\
  ((forall x, member (Union p q) x -> member r x) <-> (forall x, member p x \/ member q x -> member r x)).
Proof.
  intros Hp Hq. split; [by apply Contains_member|]. split; [by apply Within_spec|].
  split; [by apply Union_wf | by apply Union_spec].
Qed.

(** [BitWidth] reports an interval as signed exactly when it has a negative
    member, and its width is enough for all the members; it is the least such
    width unless the interval is a signed constant. *)
Theorem interval_bitwidth p w signed :
  wf p -> BitWidth p = Ok (w, signed) ->
  (signed = true <-> exists z, member p z /\ z < 0) /\
  forall n, 0 <= n ->
    (w <= n -> forall z, member p z -> (if signed then - 2 ^ n <= z else 0 <= z) /\ z < 2 ^ n) /\
    ((forall z, member p z -> (if signed then - 2 ^ n <= z else 0 <= z) /\ z < 2 ^ n) ->
     signed = false \/ Constant p = Ok None -> w <= n).
Proof. apply BitWidth_spec. Qed.

(** For a signed constant the width is not minimal: the constant -16 is
    given 5 bits of magnitude although [-2^4 <= -16]; and the zeroth power
    leaves an interval unchanged, so that it may exclude [x^0 = 1]. *)
Theorem interval_imprecision :
  (p ← NewInterval (-16) (-16); BitWidth p) = Ok (5, true) /\
  (p ← NewInterval 2 3; Contains (Exp p 0) 1) = Ok false.
Proof. split; reflexivity. Qed.

(** [PowUint64] terminates within 64 rounds for every [uint64] exponent and
    returns the power modulo [2^64]. *)
Theorem PowUint64_spec b e :
  0 <= e < 2 ^ 64 -> Pow.PowUint64 b e = Some ((b ^ e) mod 2 ^ 64).
Proof.
  intros He. destruct (pow_loop_spec 64 b e 1) as (v & Hv & Hb & Hm); [exact He | lia | lia |].
  unfold Pow.PowUint64. rewrite Hv. f_equal. apply eqm_mod_unique; [done|]. by rewrite Hm, Z.mul_1_l.
Qed.

Definition two_to_three : Interval.t := Interval.mk (SetInt 2) (SetInt 3).

Lemma interval_arithmetic_sound_witness :
  wf (Interval.Mul INFINITY two_to_three) /\ member (Interval.Mul INFINITY two_to_three) (-3 * 2).
Proof.
  refine (proj1 (proj2 (proj2 (interval_arithmetic_sound INFINITY two_to_three (-3) 2 1 _ _ _ _ _))));
  unfold wf, member; cbn; (done || lia).
Defined.

Lemma interval_order_witness : exists b, Contains two_to_three 3 = Ok b /\ (b = true <-> member two_to_three 3).
Proof. apply (interval_order two_to_three INFINITY INFINITY 3); unfold wf, member; cbn; (lia || done || auto with zarith). Defined.

Lemma interval_bitwidth_witness : false = true <-> exists z, member two_to_three z /\ z < 0.
Proof. apply (interval_bitwidth two_to_three 2 false); [unfold wf; cbn; lia | reflexivity]. Defined.

Lemma PowUint64_spec_witness : Pow.PowUint64 3 41 = Some ((3 ^ 41) mod 2 ^ 64).
Proof. apply (PowUint64_spec 3 41). lia. Defined.

End IntervalProperties.
