(* ===== verification/Word.v ===== *)
(** * Machine words

    Models [pkg/zkc/vm/internal/word]: the [Word] interface as a type class of
    operations with a class of laws, and its implementation [Uint]
    ([uint.go]).  A bit width is a [uint], modelled as a [Z]. *)

From Stdlib Require Import ZArith Lia.
From stdpp Require Import base numbers list option strings.
From S2P Require Import Prelude Interval.

Open Scope Z_scope.

(** ** The interface of [word.go] *)

Class Word (W : Type) : Type := {
  w_zero : W;
  w_Add : Z -> W -> W -> W * bool;
  w_AddMod : W -> W -> W -> W;
  w_And : Z -> W -> W -> W;
  w_Div : Z -> W -> W -> result W;
  w_BigInt : W -> Z;
  w_Cmp : W -> W -> comparison;
  w_Mul : Z -> W -> W -> W * bool;
  w_MulMod : W -> W -> W -> W;
  w_Not : Z -> W -> W;
  w_Or : Z -> W -> W -> W;
  w_Rem : Z -> W -> W -> result W;
  w_Shl : Z -> W -> W -> result W;
  w_Shl64 : Z -> W -> Z -> W;
  w_Shr : Z -> W -> W -> result W;
  w_Shr64 : W -> Z -> W;
  w_Slice : Z -> W -> W;
  w_SetBigInt : Z -> result W;
  w_SetUint64 : Z -> W;
  w_Sub : Z -> W -> W -> W * bool;
  w_SubMod : W -> W -> W -> W;
  w_Uint64 : W -> result Z;
  w_Xor : Z -> W -> W -> W
}.

(** ** [Uint]: unbounded unsigned integers *)

Module Uint.

Definition t : Type := Z.

Definition And (_ : Z) (p w : t) : t := Z.land p w.

(** [for uint(res.BitLen()) > width { res.Sub(&res, Pow2(width)); carry = true }] *)
Fixpoint add_loop (fuel : nat) (width res : Z) (carry : bool) : option (t * bool) :=
  match fuel with
  | O => None
  | S k =>
      if BitLen res >? width then add_loop k width (res - Pow.Pow2 width) true
      else Some (res, carry)
  end.

Definition add_fuel (width res : Z) : nat := S (Z.to_nat (res / Pow.Pow2 width)).

Definition Add (width : Z) (p w : t) : option (t * bool) :=
  let res := p + w in add_loop (add_fuel width res) width res false.

(** [big.Int.Mod] is Euclidean; the modulus of a machine is positive. *)
Definition AddMod (p w m : t) : t := (p + w) mod m.

Definition Div (_ : Z) (p w : t) : result t :=
  if Z.sgn w =? 0 then Fault (Panic "division by zero") else Ok (p / w).

Definition Cmp (p o : t) : comparison := p ?= o.

Definition BigInt (p : t) : Z := p.

(** [Pow2(width) - 1] *)
Definition mask (width : Z) : Z := Pow.Pow2 width - 1.

Definition Not (width : Z) (p : t) : t := Z.lxor p (mask width).

Definition Or (_ : Z) (p w : t) : t := Z.lor p w.

Definition Mul (width : Z) (p w : t) : t * bool :=
  let res := p * w in
  if BitLen res >? width then (Z.land res (mask width), true) else (res, false).

Definition MulMod (p w m : t) : t := (p * w) mod m.

Definition Rem (_ : Z) (p w : t) : result t :=
  if Z.sgn w =? 0 then Fault (Panic "division by zero") else Ok (p mod w).

Definition Uint64 (p : t) : result Z :=
  if (0 <=? p) && (p <? 2 ^ 64) then Ok p
  else Fault (Panic "word cannot be expressed as uint64").

Definition Shl64 (width : Z) (p : t) (n : Z) : t := Z.land (Z.shiftl p n) (mask width).

Definition Shl (width : Z) (p n : t) : result t :=
  k ← Uint64 n; Ok (Z.land (Z.shiftl p k) (mask width)).

Definition Shr (_ : Z) (p n : t) : result t := k ← Uint64 n; Ok (Z.shiftr p k).

Definition Shr64 (p : t) (n : Z) : t := Z.shiftr p n.

(** [slice.SetBit(&slice, j, bit)] *)
Definition SetBit (slice j : Z) (bit : bool) : Z :=
  if bit then Z.lor slice (Z.shiftl 1 j) else Z.ldiff slice (Z.shiftl 1 j).

(** [count] rounds of one of the loops of [readBitSlice]; [bit] reads bit [i]. *)
Fixpoint read_bits (count : nat) (bit : Z -> bool) (i j slice : Z) : Z :=
  match count with
  | O => slice
  | S k => read_bits k bit (i + 1) (j + 1) (SetBit slice j (bit i))
  end.

(** [int(n)] of a [uint]. *)
Definition to_int (n : Z) : Z := if n <? 2 ^ 63 then n else n - 2 ^ 64.

Definition readBitSlice (offset width value : Z) (sign : bool) : Z :=
  let n := to_int (u64 (offset + width)) in
  let m := BitLen value in
  let i := to_int offset in
  let count := Z.to_nat (Z.min n m - i) in
  let slice := read_bits count (Z.testbit value) i 0 0 in
  let i' := Z.max i (Z.min n m) in
  if sign then slice
  else read_bits (Z.to_nat (n - i')) (fun _ => true) i' (i' - i) slice.

Definition Slice (width : Z) (p : t) : t := readBitSlice 0 width p true.

Definition SetUint64 (val : Z) : t := val.

Definition SetBigInt (val : Z) : result t :=
  if Z.sgn val <? 0 then Fault (Panic "cannot assign negatve integer") else Ok val.

Definition Sub (width : Z) (p w : t) : t * bool :=
  let res := p - w in
  if Z.sgn res <? 0 then (res + Pow.Pow2 width, true) else (res, false).

Definition SubMod (p w m : t) : t := (p - w) mod m.

Definition Xor (_ : Z) (p w : t) : t := Z.lxor p w.

End Uint.

(** [Uint.Add] with its loop run to the end ([Uint.Add_total]: the fuel suffices). *)
#[export] Instance Uint_Word : Word Uint.t := {
  w_zero := 0;
  w_Add n x y := default (0, false) (Uint.Add n x y);
  w_AddMod := Uint.AddMod;
  w_And := Uint.And;
  w_Div := Uint.Div;
  w_BigInt := Uint.BigInt;
  w_Cmp := Uint.Cmp;
  w_Mul := Uint.Mul;
  w_MulMod := Uint.MulMod;
  w_Not := Uint.Not;
  w_Or := Uint.Or;
  w_Rem := Uint.Rem;
  w_Shl := Uint.Shl;
  w_Shl64 := Uint.Shl64;
  w_Shr := Uint.Shr;
  w_Shr64 := Uint.Shr64;
  w_Slice := Uint.Slice;
  w_SetBigInt := Uint.SetBigInt;
  w_SetUint64 := Uint.SetUint64;
  w_Sub := Uint.Sub;
  w_SubMod := Uint.SubMod;
  w_Uint64 := Uint.Uint64;
  w_Xor := Uint.Xor
}.

(** ** What the machine relies on

    [word_ok] is the representation invariant of a word; its value is
    [w_BigInt].  Widths are those of fixed-width registers, below [2^63]. *)

Definition width_ok (n : Z) : Prop := 0 <= n < 2 ^ 63.

Class WordLaws (W : Type) `{!Word W} : Type := {
  word_ok : W -> Prop;
  zero_law : word_ok w_zero /\ w_BigInt w_zero = 0;
  nonneg_law x : word_ok x -> 0 <= w_BigInt x;
  inj_law x y : word_ok x -> word_ok y -> w_BigInt x = w_BigInt y -> x = y;
  Cmp_law x y : word_ok x -> word_ok y -> w_Cmp x y = (w_BigInt x ?= w_BigInt y);
  Add_law n x y : width_ok n -> word_ok x -> word_ok y ->
    word_ok (w_Add n x y).1 /\ w_BigInt (w_Add n x y).1 = (w_BigInt x + w_BigInt y) mod 2 ^ n /\
    (w_Add n x y).2 = (2 ^ n <=? w_BigInt x + w_BigInt y);
  Mul_law n x y : width_ok n -> word_ok x -> word_ok y ->
    word_ok (w_Mul n x y).1 /\ w_BigInt (w_Mul n x y).1 = (w_BigInt x * w_BigInt y) mod 2 ^ n /\
    (w_Mul n x y).2 = (2 ^ n <=? w_BigInt x * w_BigInt y);
  Sub_law n x y : width_ok n -> word_ok x -> word_ok y -> w_BigInt y < 2 ^ n ->
    word_ok (w_Sub n x y).1 /\
    w_BigInt (w_Sub n x y).1
    = (if w_BigInt x <? w_BigInt y then w_BigInt x - w_BigInt y + 2 ^ n
       else w_BigInt x - w_BigInt y);
  Sub_borrow n x y : word_ok x -> word_ok y -> (w_Sub n x y).2 = (w_BigInt x <? w_BigInt y);
  Sub_ok n x y : word_ok x -> word_ok y -> w_BigInt y <= w_BigInt x ->
    word_ok (w_Sub n x y).1 /\ w_BigInt (w_Sub n x y).1 = w_BigInt x - w_BigInt y;
  AddMod_law x y m : word_ok x -> word_ok y -> word_ok m -> 0 < w_BigInt m ->
    word_ok (w_AddMod x y m) /\ w_BigInt (w_AddMod x y m) = (w_BigInt x + w_BigInt y) mod w_BigInt m;
  SubMod_law x y m : word_ok x -> word_ok y -> word_ok m -> 0 < w_BigInt m ->
    word_ok (w_SubMod x y m) /\ w_BigInt (w_SubMod x y m) = (w_BigInt x - w_BigInt y) mod w_BigInt m;
  MulMod_law x y m : word_ok x -> word_ok y -> word_ok m -> 0 < w_BigInt m ->
    word_ok (w_MulMod x y m) /\ w_BigInt (w_MulMod x y m) = (w_BigInt x * w_BigInt y) mod w_BigInt m;
  And_law n x y : word_ok x -> word_ok y ->
    word_ok (w_And n x y) /\ w_BigInt (w_And n x y) = Z.land (w_BigInt x) (w_BigInt y);
  Or_law n x y : word_ok x -> word_ok y ->
    word_ok (w_Or n x y) /\ w_BigInt (w_Or n x y) = Z.lor (w_BigInt x) (w_BigInt y);
  Xor_law n x y : word_ok x -> word_ok y ->
    word_ok (w_Xor n x y) /\ w_BigInt (w_Xor n x y) = Z.lxor (w_BigInt x) (w_BigInt y);
  Not_law n x : width_ok n -> word_ok x -> w_BigInt x < 2 ^ n ->
    word_ok (w_Not n x) /\ w_BigInt (w_Not n x) = 2 ^ n - 1 - w_BigInt x;
  Div_law n x y : word_ok x -> word_ok y -> w_BigInt y <> 0 ->
    exists z, w_Div n x y = Ok z /\ word_ok z /\ w_BigInt z = w_BigInt x / w_BigInt y;
  Rem_law n x y : word_ok x -> word_ok y -> w_BigInt y <> 0 ->
    exists z, w_Rem n x y = Ok z /\ word_ok z /\ w_BigInt z = w_BigInt x mod w_BigInt y;
  Shl_law n x k : width_ok n -> word_ok x -> word_ok k -> w_BigInt k < 2 ^ 64 ->
    exists z, w_Shl n x k = Ok z /\ word_ok z /\
      w_BigInt z = (w_BigInt x * 2 ^ w_BigInt k) mod 2 ^ n;
  Shr_law n x k : word_ok x -> word_ok k -> w_BigInt k < 2 ^ 64 ->
    exists z, w_Shr n x k = Ok z /\ word_ok z /\ w_BigInt z = w_BigInt x / 2 ^ w_BigInt k;
  Shl64_law n x k : width_ok n -> word_ok x -> 0 <= k ->
    word_ok (w_Shl64 n x k) /\ w_BigInt (w_Shl64 n x k) = (w_BigInt x * 2 ^ k) mod 2 ^ n;
  Shr64_law x k : word_ok x -> 0 <= k ->
    word_ok (w_Shr64 x k) /\ w_BigInt (w_Shr64 x k) = w_BigInt x / 2 ^ k;
  Slice_law n x : width_ok n -> word_ok x ->
    word_ok (w_Slice n x) /\ w_BigInt (w_Slice n x) = w_BigInt x mod 2 ^ n;
  SetUint64_law v : 0 <= v -> word_ok (w_SetUint64 v) /\ w_BigInt (w_SetUint64 v) = v;
  Uint64_law x : word_ok x ->
    w_Uint64 x = if w_BigInt x <? 2 ^ 64 then Ok (w_BigInt x)
                 else Fault (Panic "word cannot be expressed as uint64")
}.

(** ** [Uint] implements the interface *)

Module UintFacts.
Import Uint.

Lemma Pow2_eq n : width_ok n -> Pow.Pow2 n = 2 ^ n.
Proof. unfold width_ok, Pow.Pow2. intros. by rewrite (proj2 (Z.ltb_lt _ _)) by lia. Qed.

Lemma mask_ones n : width_ok n -> mask n = Z.ones n.
Proof. intros. unfold mask. rewrite Pow2_eq, Z.ones_equiv by done. lia. Qed.

Lemma land_mask n x : width_ok n -> Z.land x (mask n) = x mod 2 ^ n.
Proof. intros. rewrite mask_ones by done. apply Z.land_ones. unfold width_ok in *. lia. Qed.

Lemma BitLen_gt n x : 0 <= n -> 0 <= x -> (BitLen x >? n) = (2 ^ n <=? x).
Proof.
  intros Hn Hx. rewrite Z.gtb_ltb. apply eq_true_iff_eq. rewrite Z.ltb_lt, Z.leb_le.
  pose proof (IntervalFacts.BitLen_le x n Hn). pose proof (Z.pow_pos_nonneg 2 n). lia.
Qed.

Lemma add_loop_spec fuel n res carry :
  width_ok n -> 0 <= res -> res / 2 ^ n < Z.of_nat fuel ->
  add_loop fuel n res carry = Some (res mod 2 ^ n, carry || (2 ^ n <=? res)).
Proof.
  intros Hn. assert (0 < 2 ^ n) by (apply Z.pow_pos_nonneg; unfold width_ok in *; lia).
  revert res carry. induction fuel as [|fuel IH]; intros res carry Hr Hf.
  { pose proof (Z.div_pos res (2 ^ n)). lia. }
  cbn [add_loop]. rewrite BitLen_gt, Pow2_eq by (unfold width_ok in *; done || lia).
  destruct (Z.leb_spec (2 ^ n) res) as [Hle|Hlt].
  - rewrite IH; [|lia|].
    + rewrite orb_true_r, orb_true_l. do 2 f_equal.
      replace (res - 2 ^ n) with (res + (-1) * 2 ^ n) by lia. by rewrite Z.mod_add by lia.
    + replace (res - 2 ^ n) with (res + (-1) * 2 ^ n) by lia. rewrite Z.div_add by lia. lia.
  - by rewrite Z.mod_small, orb_false_r by lia.
Qed.

(** The normalisation loop of [Add] terminates, with the reduced sum. *)
Lemma Add_spec n x y :
  width_ok n -> 0 <= x -> 0 <= y -> Add n x y = Some ((x + y) mod 2 ^ n, 2 ^ n <=? x + y).
Proof.
  intros Hn Hx Hy. unfold Add, add_fuel. rewrite Pow2_eq by done.
  apply add_loop_spec; [done | lia|]. pose proof (Z.div_pos (x + y) (2 ^ n)).
  assert (0 < 2 ^ n) by (apply Z.pow_pos_nonneg; unfold width_ok in *; lia). lia.
Qed.

Lemma read_bits_testbit count bit i j slice k :
  0 <= i -> 0 <= j -> 0 <= k ->
  Z.testbit (read_bits count bit i j slice) k =
  if decide (j <= k < j + Z.of_nat count) then bit (i + (k - j)) else Z.testbit slice k.
Proof.
  revert i j slice. induction count as [|count IH]; intros i j slice Hi Hj Hk; cbn [read_bits].
  { by rewrite decide_False by lia. }
  rewrite IH by lia. unfold SetBit. rewrite Z.shiftl_1_l.
  destruct (decide (j = k)) as [->|Hne].
  - rewrite decide_False, decide_True by lia. replace (i + (k - k)) with i by lia.
    destruct (bit i).
    + rewrite Z.lor_spec, Z.pow2_bits_true by lia. by rewrite orb_true_r.
    + rewrite Z.ldiff_spec, Z.pow2_bits_true by lia. by rewrite andb_false_r.
  - replace (i + 1 + (k - (j + 1))) with (i + (k - j)) by lia.
    assert (Hs : Z.testbit (if bit i then Z.lor slice (2 ^ j) else Z.ldiff slice (2 ^ j)) k = Z.testbit slice k).
    { destruct (bit i); rewrite ?Z.lor_spec, ?Z.ldiff_spec, Z.pow2_bits_false by lia.
      - by rewrite orb_false_r.
      - by rewrite andb_true_r. }
    rewrite Hs. repeat case_decide; try done; lia.
Qed.

Lemma BitLen_bits x i : 0 <= x -> BitLen x <= i -> Z.testbit x i = false.
Proof.
  intros Hx. unfold BitLen. destruct (Z.eqb_spec x 0) as [->|Hn]; [intros; apply Z.testbit_0_l|].
  rewrite Z.abs_eq by done. intros. apply Z.bits_above_log2; lia.
Qed.

Lemma Slice_spec n x : width_ok n -> 0 <= x -> Slice n x = x mod 2 ^ n.
Proof.
  intros Hn Hx. unfold width_ok in Hn. unfold Slice, readBitSlice.
  assert (0 <= BitLen x).
  { unfold BitLen. case_match; [lia|]. pose proof (Z.log2_nonneg (Z.abs x)). lia. }
  assert (to_int (u64 (0 + n)) = n) as ->.
  { unfold to_int. rewrite u64_small by lia. by rewrite (proj2 (Z.ltb_lt _ _)) by lia. }
  change (to_int 0) with 0. rewrite Z.sub_0_r.
  apply Z.bits_inj'. intros k Hk. rewrite read_bits_testbit by lia.
  rewrite Z.testbit_0_l, Z.add_0_l, Z.sub_0_r.
  destruct (Z.lt_ge_cases k n).
  - rewrite Z.mod_pow2_bits_low by lia. case_decide; [done|].
    symmetry. apply BitLen_bits; lia.
  - rewrite Z.mod_pow2_bits_high by lia. by rewrite decide_False by lia.
Qed.

Lemma Not_spec n x : width_ok n -> 0 <= x < 2 ^ n -> Not n x = 2 ^ n - 1 - x.
Proof.
  intros Hn Hx. unfold Not. rewrite mask_ones by done. unfold width_ok in Hn.
  assert (Z.lxor x (Z.ones n) = Z.ldiff (Z.ones n) x) as ->.
  { apply Z.bits_inj'. intros i Hi. rewrite Z.lxor_spec, Z.ldiff_spec, Z.testbit_ones_nonneg by lia.
    destruct (Z.ltb_spec i n); [by destruct (Z.testbit x i)|].
    rewrite xorb_false_r, andb_false_l. destruct (decide (x = 0)) as [->|]; [apply Z.testbit_0_l|].
    apply Z.bits_above_log2; [lia|]. assert (Z.log2 x < n) by (apply Z.log2_lt_pow2; lia). lia. }
  rewrite <- Z.sub_nocarry_ldiff; [rewrite Z.ones_equiv; lia|].
  apply Z.bits_inj'. intros i Hi. rewrite Z.ldiff_spec, Z.testbit_0_l, Z.testbit_ones_nonneg by lia.
  destruct (Z.ltb_spec i n); [by rewrite andb_false_r|]. rewrite andb_true_r.
  destruct (decide (x = 0)) as [->|]; [apply Z.testbit_0_l|].
  apply Z.bits_above_log2; [lia|]. assert (Z.log2 x < n) by (apply Z.log2_lt_pow2; lia). lia.
Qed.

Lemma Mul_spec n x y :
  width_ok n -> 0 <= x -> 0 <= y -> Mul n x y = ((x * y) mod 2 ^ n, 2 ^ n <=? x * y).
Proof.
  intros Hn Hx Hy. unfold Mul. rewrite BitLen_gt by (unfold width_ok in *; nia).
  destruct (Z.leb_spec (2 ^ n) (x * y)); [by rewrite land_mask by done|].
  rewrite Z.mod_small by nia. done.
Qed.

Lemma Uint64_ok x : 0 <= x < 2 ^ 64 -> Uint64 x = Ok x.
Proof. intros. unfold Uint64. by rewrite (proj2 (Z.leb_le _ _)), (proj2 (Z.ltb_lt _ _)) by lia. Qed.

Lemma pow2_pos n : width_ok n -> 0 < 2 ^ n.
Proof. intros [? _]. by apply Z.pow_pos_nonneg. Qed.
End UintFacts.

#[local] Arguments Uint.Add : simpl never.
#[local] Arguments Uint.Mul : simpl never.
#[local] Arguments Uint.Sub : simpl never.
#[local] Arguments Uint.Slice : simpl never.

#[export] Instance Uint_laws : WordLaws Uint.t.
Proof.
  refine {| word_ok x := 0 <= x |}; cbn; unfold Uint.BigInt.
  - done.
  - done.
  - done.
  - done.
  - intros n x y Hn Hx Hy. rewrite UintFacts.Add_spec by done. cbn.
    pose proof (UintFacts.pow2_pos n Hn). split; [by apply Z.mod_pos_bound | done].
  - intros n x y Hn Hx Hy. rewrite UintFacts.Mul_spec by done. cbn.
    pose proof (UintFacts.pow2_pos n Hn). split; [by apply Z.mod_pos_bound | done].
  - intros n x y Hn Hx Hy Hlt. unfold Uint.Sub. rewrite UintFacts.Pow2_eq by done.
    destruct (Z.ltb_spec (Z.sgn (x - y)) 0), (Z.ltb_spec x y); cbn; try lia.
  - intros n x y Hx Hy. unfold Uint.Sub.
    destruct (Z.ltb_spec (Z.sgn (x - y)) 0), (Z.ltb_spec x y); cbn; try lia; done.
  - intros n x y Hx Hy Hle. unfold Uint.Sub.
    destruct (Z.ltb_spec (Z.sgn (x - y)) 0); cbn; lia.
  - intros x y m Hx Hy _ Hm. split; [apply Z.mod_pos_bound; lia | done].
  - intros x y m Hx Hy _ Hm. split; [apply Z.mod_pos_bound; lia | done].
  - intros x y m Hx Hy _ Hm. split; [apply Z.mod_pos_bound; lia | done].
  - intros n x y Hx Hy. split; [apply Z.land_nonneg; lia | done].
  - intros n x y Hx Hy. split; [apply Z.lor_nonneg; lia | done].
  - intros n x y Hx Hy. split; [apply Z.lxor_nonneg; lia | done].
  - intros n x Hn Hx Hlt. rewrite UintFacts.Not_spec by done. split; [lia | done].
  - intros n x y Hx Hy Hne. unfold Uint.Div. destruct (Z.eqb_spec (Z.sgn y) 0); [lia|].
    eexists. split; [done|]. split; [apply Z.div_pos; lia | done].
  - intros n x y Hx Hy Hne. unfold Uint.Rem. destruct (Z.eqb_spec (Z.sgn y) 0); [lia|].
    eexists. split; [done|]. split; [apply Z.mod_pos_bound; lia | done].
  - intros n x k Hn Hx Hk Hlt. unfold Uint.Shl. rewrite UintFacts.Uint64_ok by done. cbn.
    eexists. split; [done|]. pose proof (UintFacts.pow2_pos n Hn).
    rewrite UintFacts.land_mask, Z.shiftl_mul_pow2 by done. split; [by apply Z.mod_pos_bound | done].
  - intros n x k Hx Hk Hlt. unfold Uint.Shr. rewrite UintFacts.Uint64_ok by done. cbn.
    eexists. split; [done|]. rewrite Z.shiftr_div_pow2 by done.
    split; [apply Z.div_pos; [done|]; by apply Z.pow_pos_nonneg | done].
  - intros n x k Hn Hx Hk. unfold Uint.Shl64. pose proof (UintFacts.pow2_pos n Hn).
    rewrite UintFacts.land_mask, Z.shiftl_mul_pow2 by done. split; [by apply Z.mod_pos_bound | done].
  - intros x k Hx Hk. unfold Uint.Shr64. rewrite Z.shiftr_div_pow2 by done.
    split; [apply Z.div_pos; [done|]; by apply Z.pow_pos_nonneg | done].
  - intros n x Hn Hx. rewrite UintFacts.Slice_spec by done. pose proof (UintFacts.pow2_pos n Hn).
    split; [by apply Z.mod_pos_bound | done].
  - done.
  - intros x Hx. unfold Uint.Uint64. by rewrite (proj2 (Z.leb_le 0 x)) by done.
Defined.

(** ** Properties *)

(** On unsigned operands and fixed widths, the arithmetic of [Uint] is exact
    integer arithmetic reduced to the width, and its flag tells exactly when
    reduction (or borrowing) took place; the correction loop of [Add]
    terminates.  Slicing reads the low bits. *)
Theorem Uint_arithmetic n x y :
  width_ok n -> 0 <= x -> 0 <= y ->
  Uint.Add n x y = Some ((x + y) mod 2 ^ n, 2 ^ n <=? x + y) /\
  Uint.Mul n x y = ((x * y) mod 2 ^ n, 2 ^ n <=? x * y) /\
  Uint.Sub n x y = (if x <? y then (x - y + 2 ^ n, true) else (x - y, false)) /\
  Uint.Slice n x = x mod 2 ^ n /\
  (x < 2 ^ n -> Uint.Not n x = 2 ^ n - 1 - x) /\
  (y < 2 ^ 64 -> Uint.Shl n x y = Ok ((x * 2 ^ y) mod 2 ^ n) /\ Uint.Shr n x y = Ok (x / 2 ^ y)).
Proof.
  intros Hn Hx Hy. split; [by apply UintFacts.Add_spec|]. split; [by apply UintFacts.Mul_spec|].
  split. { unfold Uint.Sub. rewrite UintFacts.Pow2_eq by done.
    destruct (Z.ltb_spec (Z.sgn (x - y)) 0), (Z.ltb_spec x y); try lia; done. }
  split; [by apply UintFacts.Slice_spec|]. split; [by intros; apply UintFacts.Not_spec|].
  intros Hlt. unfold Uint.Shl, Uint.Shr. rewrite UintFacts.Uint64_ok by done. cbn.
  by rewrite UintFacts.land_mask, Z.shiftl_mul_pow2, Z.shiftr_div_pow2 by done.
Qed.

Lemma Uint_arithmetic_witness : Uint.Add 8 200 100 = Some (44, true).
Proof. apply (Uint_arithmetic 8 200 100); unfold width_ok; lia. Defined.
