(* ===== verification/Register.v ===== *)
(** * Registers

    Models [pkg/schema/register/register.go] and [type.go]: the registers of a
    module (a function or a memory), their widths, and their binary encoding.
    A register identifier ([register.Id]) is an index, modelled as a [nat]; the
    unused identifier is [None] where a function may return it. *)

From Stdlib Require Import ZArith Lia Ascii String.
From stdpp Require Import base numbers list option strings.
From S2P Require Import Prelude.

Open Scope Z_scope.
Open Scope list_scope.

Definition MaxUint : Z := 2 ^ 64 - 1.

Module Register.

(** [Type]: the kind is a byte, of which five values are named. *)
Record Kind : Type := mkKind { kind_of : Z }.

Definition Cmp (p o : Kind) : comparison := kind_of p ?= kind_of o.

Definition INPUT_REGISTER : Kind := mkKind 0.
Definition OUTPUT_REGISTER : Kind := mkKind 1.
Definition COMPUTED_REGISTER : Kind := mkKind 2.
Definition ZERO_REGISTER : Kind := mkKind 3.
Definition ONE_REGISTER : Kind := mkKind 4.

Definition kind_eqb (p o : Kind) : bool := kind_of p =? kind_of o.

(** [Register]; the width of a native register is [MaxUint]. *)
Record t : Type := mk { kind : Kind; name : string; width : Z; padding : Z }.

Definition New (k : Kind) (n : string) (bitwidth pad : Z) : t := mk k n bitwidth pad.
Definition NewNative (k : Kind) (n : string) (pad : Z) : t := New k n MaxUint pad.
Definition NewInput (n : string) (bitwidth pad : Z) : t := mk INPUT_REGISTER n bitwidth pad.
Definition NewOutput (n : string) (bitwidth pad : Z) : t := mk OUTPUT_REGISTER n bitwidth pad.
Definition NewComputed (n : string) (bitwidth pad : Z) : t := mk COMPUTED_REGISTER n bitwidth pad.

Definition NewConst (value : Z) : result t :=
  if value =? 0 then Ok (mk ZERO_REGISTER "0" 0 0)
  else if value =? 1 then Ok (mk ONE_REGISTER "1" 1 1)
  else Fault (Panic "unsupported constant register").

Definition IsNative (p : t) : bool := width p =? MaxUint.
Definition IsInput (p : t) : bool := kind_eqb (kind p) INPUT_REGISTER.
Definition IsOutput (p : t) : bool := kind_eqb (kind p) OUTPUT_REGISTER.
Definition IsInputOutput (p : t) : bool := IsInput p || IsOutput p.
Definition IsConst (p : t) : bool := kind_eqb (kind p) ZERO_REGISTER || kind_eqb (kind p) ONE_REGISTER.
Definition IsComputed (p : t) : bool := kind_eqb (kind p) COMPUTED_REGISTER || IsConst p.

(** [int64(p.width)] of a [uint]. *)
Definition int64 (n : Z) : Z := if n <? 2 ^ 63 then n else n - 2 ^ 64.

(** [big.Int.Exp] with a nil modulus returns 1 for a negative exponent. *)
Definition Bound (p : t) : result Z :=
  if IsNative p then Fault (Panic "Bound() called on native register")
  else let w := int64 (width p) in Ok (if w <? 0 then 1 else 2 ^ w).

Definition MaxValue (p : t) : result Z :=
  if IsNative p then Fault (Panic "MaxValue() called on native register")
  else b ← Bound p; Ok (b - 1).

Definition ConstValue (p : t) : result Z :=
  if kind_eqb (kind p) ZERO_REGISTER then Ok 0
  else if kind_eqb (kind p) ONE_REGISTER then Ok 1
  else Fault (Panic "register not constant").

Definition SetPadding (p : t) (pad : Z) : result t :=
  if IsConst p then
    c ← ConstValue p;
    if (0 <=? pad) && (pad <? 2 ^ 64) && (pad =? c) then Ok p
    else Fault (Panic "cannot overide padding of constant register")
  else Ok (mk (kind p) (name p) (width p) pad).

Definition Width (p : t) : result Z :=
  if IsNative p then Fault (Panic "Width() called on native register") else Ok (width p).

(** The sum is a [uint]. *)
Fixpoint widths_from (acc : Z) (regs : list t) (rids : list nat) : result Z :=
  match rids with
  | [] => Ok acc
  | rid :: rids' =>
      r ← slice_get regs rid; w ← Width r; widths_from (u64 (acc + w)) regs rids'
  end.

Definition WidthOfRegisters (regs : list t) (rids : list nat) : result Z := widths_from 0 regs rids.

(** ** Binary encoding

    A byte is an integer below 256; a Go string is its bytes. *)

Definition bytes_of_string (s : string) : list Z :=
  (fun c => Z.of_N (N_of_ascii c)) <$> String.list_ascii_of_string s.

Definition string_of_bytes (l : list Z) : string :=
  String.string_of_list_ascii ((fun b => ascii_of_N (Z.to_N b)) <$> l).

(** [big.Int.Bytes] (the big-endian magnitude without leading zeros) and
    [big.Int.SetBytes]. *)
Fixpoint le_bytes (fuel : nat) (x : Z) : list Z :=
  match fuel with
  | O => []
  | S k => if x =? 0 then [] else x mod 256 :: le_bytes k (x / 256)
  end.

Definition BigBytes (x : Z) : list Z :=
  reverse (le_bytes (S (Z.to_nat (Z.log2 (Z.abs x)))) (Z.abs x)).

Definition BigSetBytes (l : list Z) : Z := foldl (fun a b => a * 256 + b) 0 l.

Definition nativeWidthSentinel : Z := 65535.

(** [binary.Write(buffer, binary.BigEndian, ...)] of a [uint16]. *)
Definition put16 (w : Z) : list Z := [w / 256; w mod 256].

(** The length is truncated to a byte, and all the data is written; the error
    is raised when they disagree. *)
Definition writeByteArray (buf data : list Z) : result (list Z) :=
  let len := wrap 8 (Z.of_nat (length data)) in
  let buf' := buf ++ [len] ++ data in
  if Z.of_nat (length data) =? len then Ok buf' else Fault (Error "malformed register encoding").

Definition MarshalBinary (p : t) : result (list Z) :=
  let w := if IsNative p then nativeWidthSentinel else wrap 16 (width p) in
  let buf := [kind_of (kind p)] ++ put16 w in
  buf' ← writeByteArray buf (bytes_of_string (name p));
  writeByteArray buf' (BigBytes (padding p)).

(** [binary.Read] of one and of two bytes. *)
Definition read8 (buf : list Z) : result (Z * list Z) :=
  match buf with [] => Fault (Error "EOF") | b :: buf' => Ok (b, buf') end.

Definition read16 (buf : list Z) : result (Z * list Z) :=
  match buf with
  | [] => Fault (Error "EOF")
  | [_] => Fault (Error "unexpected EOF")
  | a :: b :: buf' => Ok (a * 256 + b, buf')
  end.

(** [buf.Read(data)] reads at most [len(data)] bytes, and reports EOF when the
    buffer is empty but [data] is not. *)
Definition readByteArray (buf : list Z) : result (list Z * list Z) :=
  '(len, buf) ← read8 buf;
  let n := Z.to_nat len in
  if (bool_decide (buf = [])) && negb (len =? 0) then Fault (Error "EOF")
  else if decide (length (take n buf) <> n) then Fault (Error "malformed register encoding")
  else Ok (take n buf, drop n buf).

Definition UnmarshalBinary (data : list Z) : result t :=
  '(k, buf) ← read8 data;
  '(w, buf) ← read16 buf;
  '(n, buf) ← readByteArray buf;
  '(pad, _) ← readByteArray buf;
  Ok (mk (mkKind k) (string_of_bytes n)
        (if w =? nativeWidthSentinel then MaxUint else w) (BigSetBytes pad)).

End Register.

(** ** Lemmas *)

Module RegisterFacts.
Import Register.

Lemma string_bytes_roundtrip s : string_of_bytes (bytes_of_string s) = s.
Proof.
  unfold string_of_bytes, bytes_of_string.
  rewrite <- (String.string_of_list_ascii_of_string s) at 2. f_equal.
  rewrite <- list_fmap_compose. rewrite <- (list_fmap_id (String.list_ascii_of_string s)) at 2.
  apply list_fmap_ext. intros _ c _. cbn. rewrite N2Z.id. apply ascii_N_embedding.
Qed.

Lemma foldl_snoc_bytes l b : BigSetBytes (l ++ [b]) = BigSetBytes l * 256 + b.
Proof. unfold BigSetBytes. by rewrite foldl_app. Qed.

Lemma le_bytes_value fuel x :
  0 <= x < 256 ^ Z.of_nat fuel -> BigSetBytes (reverse (le_bytes fuel x)) = x.
Proof.
  revert x. induction fuel as [|fuel IH]; intros x Hx.
  { change (256 ^ Z.of_nat 0) with 1 in Hx. assert (x = 0) as -> by lia. done. }
  cbn [le_bytes]. destruct (Z.eqb_spec x 0) as [->|Hne]; [done|].
  rewrite reverse_cons, foldl_snoc_bytes, IH.
  - pose proof (Z.div_mod x 256). lia.
  - rewrite Nat2Z.inj_succ, Z.pow_succ_r in Hx by lia.
    split; [apply Z.div_pos; lia | apply Z.div_lt_upper_bound; lia].
Qed.

Lemma BigBytes_value x : BigSetBytes (BigBytes x) = Z.abs x.
Proof.
  apply le_bytes_value. split; [lia|].
  destruct (decide (x = 0)) as [->|Hx]; [done|].
  pose proof (Z.log2_spec (Z.abs x) ltac:(lia)) as [_ Hlt].
  eapply Z.lt_le_trans; [exact Hlt|].
  rewrite Nat2Z.inj_succ, Z2Nat.id by apply Z.log2_nonneg.
  apply Z.pow_le_mono_l. pose proof (Z.log2_nonneg (Z.abs x)). lia.
Qed.

Lemma writeByteArray_ok buf data :
  (length data < 256)%nat ->
  writeByteArray buf data = Ok (buf ++ Z.of_nat (length data) :: data).
Proof. intros. unfold writeByteArray. rewrite wrap_small by lia. by rewrite Z.eqb_refl. Qed.

Lemma writeByteArray_error buf data :
  (256 <= length data)%nat ->
  writeByteArray buf data = Fault (Error "malformed register encoding").
Proof.
  intros. unfold writeByteArray. pose proof (wrap_bound 8 (Z.of_nat (length data))).
  destruct (Z.eqb_spec (Z.of_nat (length data)) (wrap 8 (Z.of_nat (length data)))); [lia | done].
Qed.

Lemma readByteArray_ok data rest :
  readByteArray (Z.of_nat (length data) :: data ++ rest) = Ok (data, rest).
Proof.
  unfold readByteArray. cbn [read8 mbind result_bind]. rewrite Nat2Z.id.
  rewrite take_app_length, drop_app_length, decide_False by (intros Hn; by apply Hn).
  destruct data as [|b data]; cbn; [|done].
  by rewrite andb_false_r.
Qed.

Lemma widths_from_ok acc regs rids ws :
  mapM (fun r => regs !! r ≫= fun x => if IsNative x then None else Some (width x)) rids = Some ws ->
  widths_from (u64 acc) regs rids = Ok (u64 (acc + foldr Z.add 0 ws)).
Proof.
  revert acc ws. induction rids as [|r rids IH]; intros acc ws; cbn.
  { intros [= <-]. by rewrite Z.add_0_r. }
  unfold slice_get, Width. destruct (regs !! r) as [x|]; cbn; [|discriminate].
  destruct (IsNative x); cbn; [discriminate|].
  destruct (mapM _ rids) as [ws'|] eqn:Hws; cbn; [|discriminate]. intros [= <-]. cbn [foldr].
  assert (u64 (u64 acc + width x) = u64 (acc + width x)) as ->.
  { apply (Zplus_mod_idemp_l acc (width x)). }
  rewrite (IH (acc + width x) ws') by done. f_equal. f_equal. lia.
Qed.

End RegisterFacts.

(** ** Properties *)

Module RegisterProperties.
Import Register RegisterFacts.

(** Encoding then decoding a register gives the register back, with the
    magnitude of its padding and its width modulo [2^16]; a width whose low 16
    bits are [0xFFFF] comes back as a native register.  Encoding fails exactly
    when the name or the padding takes 256 bytes or more. *)
Theorem register_roundtrip (r : t) :
  (forall data, MarshalBinary r = Ok data ->
     UnmarshalBinary data =
     Ok (mk (kind r) (name r)
           (if IsNative r || (wrap 16 (width r) =? nativeWidthSentinel) then MaxUint
            else wrap 16 (width r))
           (Z.abs (padding r)))) /\
  (is_ok (MarshalBinary r) = true <->
   (length (bytes_of_string (name r)) < 256 /\ length (BigBytes (padding r)) < 256)%nat).
Proof.
  split.
  - intros data. unfold MarshalBinary.
    destruct (decide (length (bytes_of_string (name r)) < 256)%nat);
      [|rewrite writeByteArray_error by lia; done].
    rewrite writeByteArray_ok by done. cbn [mbind result_bind].
    destruct (decide (length (BigBytes (padding r)) < 256)%nat);
      [|rewrite writeByteArray_error by lia; done].
    rewrite writeByteArray_ok by done. intros [= <-].
    unfold UnmarshalBinary. cbn [app put16 read8 read16 mbind result_bind].
    rewrite readByteArray_ok. cbn [mbind result_bind].
    rewrite <- (app_nil_r (BigBytes (padding r))) at 2. rewrite readByteArray_ok. cbn [mbind result_bind].
    rewrite string_bytes_roundtrip, BigBytes_value. f_equal. destruct (kind r). cbn. f_equal.
    set (w := if IsNative r then nativeWidthSentinel else wrap 16 (width r)).
    replace (w / 256 * 256 + w mod 256) with w by (pose proof (Z.div_mod w 256); lia).
    unfold w. by destruct (IsNative r).
  - unfold MarshalBinary.
    destruct (decide (length (bytes_of_string (name r)) < 256)%nat).
    + rewrite writeByteArray_ok by done. cbn [mbind result_bind].
      destruct (decide (length (BigBytes (padding r)) < 256)%nat).
      * rewrite writeByteArray_ok by done. cbn. tauto.
      * rewrite writeByteArray_error by lia. cbn [is_ok]. split; [done | intros; exfalso; lia].
    + rewrite writeByteArray_error by lia. cbn [is_ok]. split; [done | intros; exfalso; lia].
Qed.

(** The combined width of registers of fixed width is the sum of their
    widths modulo [2^64]; one native or unknown register makes it panic. *)
Theorem register_widths regs rids :
  match mapM (fun r => regs !! r ≫= fun x => if IsNative x then None else Some (width x)) rids with
  | Some ws => WidthOfRegisters regs rids = Ok (u64 (foldr Z.add 0 ws))
  | None => exists m, WidthOfRegisters regs rids = Fault (Panic m)
  end.
Proof.
  destruct (mapM _ rids) as [ws|] eqn:Hws.
  { by apply (widths_from_ok 0). }
  unfold WidthOfRegisters. generalize 0. revert Hws.
  induction rids as [|r rids IH]; intros Hws z; [done|]. revert Hws. cbn. unfold slice_get, Width.
  destruct (regs !! r) as [x|]; cbn; [|by eexists].
  destruct (IsNative x); cbn; [by eexists|].
  destruct (mapM _ rids) as [ws'|]; cbn; [discriminate|]. intros _. by apply IH.
Qed.

Definition sample : t := NewInput "x" 16 5.

Lemma register_roundtrip_witness : UnmarshalBinary [0; 0; 16; 1; 120; 1; 5] = Ok sample.
Proof. exact (proj1 (register_roundtrip sample) [0; 0; 16; 1; 120; 1; 5] eq_refl). Defined.

End RegisterProperties.
