(* ===== verification/SortedSet.v ===== *)
(** * Sorted sets

    Models [pkg/util/collection/set/any_sorted_set.go] and [util.go], and the
    functions of [pkg/util/collection/array/util.go] they use: sets stored as
    strictly sorted arrays.  [sort.Search] is the binary search of the Go
    library; [slices.SortFunc] is a sort, for elements whose comparison is 0
    only when they are equal.  The methods that assign to the receiver return
    the new set. *)

From Stdlib Require Import ZArith Lia.
From stdpp Require Import base numbers list option sorting strings.
From S2P Require Import Prelude.

Open Scope nat_scope.

(** ** The [Comparable] interface *)

Class Comparable (T : Type) : Type := Cmp : T -> T -> comparison.

Class CmpLaws (T : Type) `{!Comparable T} : Prop := {
  Cmp_eq (x y : T) : Cmp x y = Eq <-> x = y;
  Cmp_anti (x y : T) : Cmp y x = CompOpp (Cmp x y);
  Cmp_trans (x y z : T) : Cmp x y = Lt -> Cmp y z = Lt -> Cmp x z = Lt
}.

#[export] Instance nat_Comparable : Comparable nat := Nat.compare.
#[export] Instance nat_CmpLaws : CmpLaws nat.
Proof.
  split; unfold Cmp, nat_Comparable.
  - intros x y. apply Nat.compare_eq_iff.
  - intros x y. apply Nat.compare_antisym.
  - intros x y z. rewrite !Nat.compare_lt_iff. lia.
Qed.

#[export] Instance Z_Comparable : Comparable Z := Z.compare.
#[export] Instance Z_CmpLaws : CmpLaws Z.
Proof.
  split; unfold Cmp, Z_Comparable.
  - intros x y. apply Z.compare_eq_iff.
  - intros x y. apply Z.compare_antisym.
  - intros x y z. rewrite !Z.compare_lt_iff. lia.
Qed.

Section SortedSet.
Context {T : Type} `{!Comparable T}.

Definition lt_ (x y : T) : Prop := Cmp x y = Lt.

Definition is_eq (c : comparison) : bool := match c with Eq => true | _ => false end.
Definition is_lt (c : comparison) : bool := match c with Lt => true | _ => false end.
Definition is_gt (c : comparison) : bool := match c with Gt => true | _ => false end.

(** [sort.Search]: the loop [for i < j] over the half-open interval [i, j). *)
Fixpoint search_loop (fuel : nat) (f : nat -> bool) (i j : nat) : option nat :=
  match fuel with
  | O => None
  | S k =>
      if i <? j then
        let h := (i + j) / 2 in
        if f h then search_loop k f i h else search_loop k f (S h) j
      else Some i
  end.

(** The closure [element <= data[i]]; the index is always in range. *)
Definition at_most (data : list T) (element : T) (i : nat) : bool :=
  match data !! i with Some x => negb (is_gt (Cmp element x)) | None => false end.

Definition Search (data : list T) (element : T) : nat :=
  default (length data) (search_loop (S (length data)) (at_most data element) 0 (length data)).

Definition found (data : list T) (i : nat) (element : T) : bool :=
  match data !! i with Some x => is_eq (Cmp x element) | None => false end.

(** [Find]; [None] for [MaxUint]. *)
Definition Find (data : list T) (element : T) : option nat :=
  let i := Search data element in if found data i element then Some i else None.

Definition Contains (data : list T) (element : T) : bool :=
  match Find data element with Some _ => true | None => false end.

Definition Insert (data : list T) (element : T) : list T :=
  let i := Search data element in
  if found data i element then data else take i data ++ [element] ++ drop i data.

Definition RemoveAt {A} (items : list A) (index : nat) : list A :=
  if length items <=? index then items else take index items ++ drop (S index) items.

Definition Remove (data : list T) (element : T) : list T * bool :=
  let i := Search data element in
  if found data i element then (RemoveAt data i, true) else (data, false).

(** The two loops over a pair of sorted arrays, on the parts still to visit. *)
Fixpoint anyCountDuplicates (fuel : nat) (left right : list T) : option nat :=
  match fuel with
  | O => None
  | S k =>
      match left, right with
      | x :: left', y :: right' =>
          match Cmp x y with
          | Eq => S <$> anyCountDuplicates k left' right'
          | Lt => anyCountDuplicates k left' right
          | Gt => anyCountDuplicates k left right'
          end
      | _, _ => Some 0
      end
  end.

(** [copy(target[k:], items)] *)
Definition copy_at (target : list T) (k : nat) (items : list T) : result (list T) :=
  if length target <? k then Fault (Panic "slice bounds out of range")
  else Ok (take k target ++ take (length target - k) items ++ drop (k + length items) target).

Fixpoint anyMergeSorted (fuel : nat) (target : list T) (k : nat) (left right : list T)
  : result (list T) :=
  match fuel with
  | O => Fault OutOfFuel
  | S n =>
      match left, right with
      | x :: left', y :: right' =>
          match Cmp x y with
          | Eq => t ← slice_set target k x; anyMergeSorted n t (S k) left' right'
          | Lt => t ← slice_set target k x; anyMergeSorted n t (S k) left' right
          | Gt => t ← slice_set target k y; anyMergeSorted n t (S k) left right'
          end
      | _ :: _, [] => copy_at target k left
      | [], _ => copy_at target k right
      end
  end.

(** [zero] fills the slice allocated by [make]. *)
Definition InsertSorted (zero : T) (left right : list T) : result (list T) :=
  let fuel := S (length left + length right) in
  match anyCountDuplicates fuel left right with
  | None => Fault OutOfFuel
  | Some n =>
      if n =? length right then Ok left
      else anyMergeSorted fuel (replicate (length left + length right - n) zero) 0 left right
  end.

(** [slices.SortFunc] *)
Fixpoint sort_insert (x : T) (l : list T) : list T :=
  match l with
  | [] => [x]
  | y :: l' => if is_gt (Cmp x y) then y :: sort_insert x l' else x :: l
  end.

Definition SortFunc (l : list T) : list T := foldr sort_insert [] l.

(** [array.RemoveMatchingIndexed] with the predicate of [RawAnySortedSet]:
    the element equals its predecessor. *)
Fixpoint remove_duplicates (last : option T) (l : list T) : list T :=
  match l with
  | [] => []
  | x :: l' =>
      match last with
      | Some y => if is_eq (Cmp x y) then remove_duplicates (Some x) l'
                  else x :: remove_duplicates (Some x) l'
      | None => x :: remove_duplicates (Some x) l'
      end
  end.

Definition RawAnySortedSet (items : list T) : list T := remove_duplicates None (SortFunc items).
Definition NewAnySortedSet (items : list T) : list T := RawAnySortedSet items.

(** [UnionAnySortedSets] *)
Definition UnionAnySortedSets {S} (zero : T) (elems : list S) (fn : S -> list T) : result (list T) :=
  match elems with
  | [] => Ok (NewAnySortedSet [])
  | e :: elems' =>
      foldl (fun acc ith => set ← acc; InsertSorted zero set (fn ith)) (Ok (fn e)) elems'
  end.

(** [array.Compare]: by length first. *)
Fixpoint compare_items (lhs rhs : list T) : comparison :=
  match lhs, rhs with
  | x :: lhs', y :: rhs' =>
      match Cmp x y with Eq => compare_items lhs' rhs' | c => c end
  | _, _ => Eq
  end.

Definition Compare (lhs rhs : list T) : comparison :=
  match Nat.compare (length lhs) (length rhs) with
  | Eq => compare_items lhs rhs
  | c => c
  end.

(** [array.RemoveMatching] *)
Definition RemoveMatching {A} (items : list A) (predicate : A -> bool) : list A :=
  List.filter (fun x => negb (predicate x)) items.

End SortedSet.

(** [set.IsSorted] of [util.go]; repetitions are allowed. *)
Fixpoint is_sorted_from {T} `{!Comparable T} (last : T) (items : list T) : bool :=
  match items with
  | [] => true
  | x :: items' => if is_gt (Cmp last x) then false else is_sorted_from x items'
  end.

Definition IsSorted {S T} `{!Comparable T} (items : list S) (fn : S -> T) : bool :=
  match fn <$> items with [] => true | x :: items' => is_sorted_from x items' end.

(** ** Lemmas *)

Section SortedSetFacts.
Context {T : Type} `{!Comparable T, !CmpLaws T}.

(** The representation invariant: strictly increasing. *)
Definition sorted (l : list T) : Prop := StronglySorted lt_ l.

Lemma Cmp_refl (x : T) : Cmp x x = Eq.
Proof. by apply Cmp_eq. Qed.

Lemma Cmp_gt (x y : T) : Cmp x y = Gt <-> lt_ y x.
Proof. unfold lt_. rewrite (Cmp_anti x y). destruct (Cmp x y); cbn; split; done. Qed.

Lemma lt_irrefl (x : T) : ~ lt_ x x.
Proof. unfold lt_. by rewrite Cmp_refl. Qed.

Lemma lt_trans (x y z : T) : lt_ x y -> lt_ y z -> lt_ x z.
Proof. apply Cmp_trans. Qed.

Lemma sorted_lookup (l : list T) i j x y :
  sorted l -> l !! i = Some x -> l !! j = Some y -> i < j -> lt_ x y.
Proof.
  intros Hs. revert i j. induction Hs as [|a l Hs IH Hf]; intros i j Hi Hj Hlt; [done|].
  destruct j as [|j]; [lia|]. cbn in Hj. destruct i as [|i]; cbn in Hi.
  - injection Hi as <-. eapply Forall_forall; [exact Hf|]. by eapply list_elem_of_lookup_2.
  - apply (IH i j); [done | done | lia].
Qed.

Lemma search_loop_spec fuel f i j :
  i <= j -> j - i < fuel ->
  (forall a b, i <= a -> a <= b -> b < j -> f a = true -> f b = true) ->
  exists k, search_loop fuel f i j = Some k /\ i <= k <= j /\
    (forall a, i <= a < k -> f a = false) /\ (forall a, k <= a < j -> f a = true).
Proof.
  revert i j. induction fuel as [|fuel IH]; intros i j Hij Hf Hmono; [lia|]. cbn [search_loop].
  destruct (Nat.ltb_spec i j) as [Hlt|Hge].
  - set (h := (i + j) / 2).
    assert (i <= h < j) as Hh.
    { unfold h. split; [apply Nat.div_le_lower_bound; lia | apply Nat.Div0.div_lt_upper_bound; lia]. }
    destruct (f h) eqn:Hfh.
    + destruct (IH i h) as (k & Hk & Hb & Hlo & Hhi); [lia | lia | |].
      { intros a b ???. apply Hmono; lia. }
      exists k. split; [done|]. split; [lia|]. split; [done|]. intros a Ha.
      destruct (decide (a < h)); [apply Hhi; lia|]. apply (Hmono h a); (lia || done).
    + destruct (IH (S h) j) as (k & Hk & Hb & Hlo & Hhi); [lia | lia | |].
      { intros a b ???. apply Hmono; lia. }
      exists k. split; [done|]. split; [lia|]. split; [|done]. intros a Ha.
      destruct (decide (S h <= a)); [apply Hlo; lia|].
      destruct (f a) eqn:Hfa; [|done]. rewrite <- Hfh. symmetry. apply (Hmono a h); (lia || done).
  - exists i. split; [done|]. split; [lia|]. split; intros; lia.
Qed.

(** [Search] splits a sorted array into the smaller elements and the others. *)
Lemma Search_spec (l : list T) x :
  sorted l ->
  Search l x <= length l /\
  (forall a y, l !! a = Some y -> a < Search l x -> lt_ y x) /\
  (forall a y, l !! a = Some y -> Search l x <= a -> y = x \/ lt_ x y).
Proof.
  intros Hs. unfold Search.
  destruct (search_loop_spec (S (length l)) (at_most l x) 0 (length l)) as (k & Hk & Hb & Hlo & Hhi);
    [lia | lia | |].
  - unfold at_most. intros a b _ Hab Hb Ha.
    destruct (l !! a) as [y|] eqn:Hy; [|done]. destruct (lookup_lt_is_Some_2 l b Hb) as [z Hz]. rewrite Hz.
    destruct (decide (a = b)) as [->|]; [congruence|].
    assert (lt_ y z) as Hyz by (eapply sorted_lookup; eauto; lia).
    destruct (Cmp x z) eqn:Hxz; try done. apply Cmp_gt in Hxz.
    assert (lt_ y x) as Hyx by (by eapply lt_trans). apply Cmp_gt in Hyx. by rewrite Hyx in Ha.
  - rewrite Hk. cbn. split; [lia|]. unfold at_most in *. split; intros a y Hy Ha.
    + specialize (Hlo a ltac:(lia)). rewrite Hy in Hlo. apply Cmp_gt. by destruct (Cmp x y).
    + assert (a < length l) by (by apply lookup_lt_Some in Hy).
      specialize (Hhi a ltac:(lia)). rewrite Hy in Hhi.
      destruct (Cmp x y) eqn:Hc; [left; symmetry; by apply Cmp_eq | by right | done].
Qed.

Lemma found_spec (l : list T) x :
  sorted l ->
  if found l (Search l x) x then l !! Search l x = Some x else x ∉ l.
Proof.
  intros Hs. destruct (Search_spec l x Hs) as (Hle & Hlo & Hhi). unfold found.
  destruct (l !! Search l x) as [y|] eqn:Hy.
  - destruct (Cmp y x) eqn:Hc; cbn; [apply Cmp_eq in Hc; congruence | |];
      intros [i Hi]%list_elem_of_lookup_1.
    + destruct (Hhi _ _ Hy ltac:(lia)) as [->|Hlt]; [by rewrite Cmp_refl in Hc|].
      apply Cmp_gt in Hlt. congruence.
    + assert (lt_ x y) by (by apply Cmp_gt).
      destruct (decide (i < Search l x)).
      * by apply (lt_irrefl x), (Hlo i x Hi).
      * destruct (decide (i = Search l x)) as [->|]; [simplify_eq; by apply (lt_irrefl y)|].
        apply (lt_irrefl x), (lt_trans _ y); [done|]. apply (sorted_lookup l _ _ _ _ Hs Hy Hi). lia.
  - intros [i Hi]%list_elem_of_lookup_1. apply lookup_ge_None in Hy.
    pose proof (lookup_lt_Some _ _ _ Hi). apply (lt_irrefl x), (Hlo i x Hi). lia.
Qed.

Lemma sorted_app (l k : list T) :
  sorted (l ++ k) <-> sorted l /\ sorted k /\ forall x y, x ∈ l -> y ∈ k -> lt_ x y.
Proof.
  induction l as [|a l IH]; cbn.
  - split; [intros Hk; split; [constructor|]; split; [done|]; by intros ?? ?%not_elem_of_nil | tauto].
  - split.
    + intros Hs. inversion Hs as [|?? Hlk Hf]; subst. apply IH in Hlk as (Hl & Hk & Hlt).
      apply Forall_app in Hf as [Hf1 Hf2]. split; [by constructor|]. split; [done|].
      intros x y [->|Hx]%elem_of_cons Hy; [by eapply Forall_forall in Hf2 | by apply Hlt].
    + intros (Hl & Hk & Hlt). inversion Hl as [|?? Hl' Hf]; subst. constructor.
      * apply IH. split; [done|]. split; [done|]. intros x y Hx Hy. apply Hlt; [by right | done].
      * apply Forall_app. split; [done|]. apply Forall_forall. intros y Hy. apply Hlt; [by left | done].
Qed.

Lemma sorted_take_drop (l : list T) i : sorted l -> sorted (take i l) /\ sorted (drop i l).
Proof. intros Hs. rewrite <- (take_drop i l) in Hs. apply sorted_app in Hs. tauto. Qed.

Lemma sorted_NoDup_lookup (l : list T) i j x : sorted l -> l !! i = Some x -> l !! j = Some x -> i = j.
Proof.
  intros Hs Hi Hj. destruct (Nat.lt_trichotomy i j) as [Hlt|[Heq|Hlt]]; [|done|]; exfalso.
  - exact (lt_irrefl x (sorted_lookup l i j x x Hs Hi Hj Hlt)).
  - exact (lt_irrefl x (sorted_lookup l j i x x Hs Hj Hi Hlt)).
Qed.

Lemma Contains_iff (l : list T) x : sorted l -> Contains l x = true <-> x ∈ l.
Proof.
  intros Hs. pose proof (found_spec l x Hs) as Hf. unfold Contains, Find.
  destruct (found _ _ _); split; try done. by intros; eapply list_elem_of_lookup_2.
Qed.

Lemma Insert_sorted (l : list T) x : sorted l -> sorted (Insert l x).
Proof.
  intros Hs. unfold Insert. destruct (Search_spec l x Hs) as (_ & Hlo & Hhi).
  pose proof (found_spec l x Hs) as Hf. destruct (found _ _ _); [done|].
  destruct (sorted_take_drop l (Search l x) Hs) as [Ht Hd].
  assert (Hbelow : forall y, y ∈ take (Search l x) l -> lt_ y x).
  { intros y [i Hi]%list_elem_of_lookup_1. apply lookup_take_Some in Hi as [Hi Hlt]. by apply (Hlo i). }
  assert (Habove : forall y, y ∈ drop (Search l x) l -> lt_ x y).
  { intros y [i Hi]%list_elem_of_lookup_1. rewrite lookup_drop in Hi.
    destruct (Hhi _ _ Hi ltac:(lia)) as [->|]; [|done]. exfalso. apply Hf. by eapply list_elem_of_lookup_2. }
  apply sorted_app. split; [done|]. split.
  - apply (sorted_app [x]). split; [constructor; constructor|]. split; [done|].
    intros a b ->%list_elem_of_singleton Hb. by apply Habove.
  - intros a b Ha [->|Hb]%elem_of_cons; [by apply Hbelow|].
    apply (lt_trans _ x); [by apply Hbelow | by apply Habove].
Qed.

Lemma Insert_elem (l : list T) x y : sorted l -> y ∈ Insert l x <-> y = x \/ y ∈ l.
Proof.
  intros Hs. unfold Insert. pose proof (found_spec l x Hs) as Hf. destruct (found _ _ _).
  - split; [by right|]. intros [->|]; [by eapply list_elem_of_lookup_2 | done].
  - assert (y ∈ l <-> y ∈ take (Search l x) l \/ y ∈ drop (Search l x) l) as ->
      by (by rewrite <- elem_of_app, take_drop).
    rewrite !elem_of_app, list_elem_of_singleton. tauto.
Qed.

Lemma RemoveAt_lookup_elem (l : list T) i x y :
  sorted l -> l !! i = Some x -> y ∈ RemoveAt l i <-> y ∈ l /\ y <> x.
Proof.
  intros Hs Hi. unfold RemoveAt. pose proof (lookup_lt_Some _ _ _ Hi).
  destruct (Nat.leb_spec (length l) i); [lia|].
  pose proof (take_drop_middle l i x Hi) as Hm. rewrite elem_of_app.
  rewrite <- Hm in Hs at 1. apply sorted_app in Hs as (_ & Hs2 & Hlt).
  apply (sorted_app [x]) in Hs2 as (_ & _ & Hgt).
  rewrite <- Hm at 3. rewrite elem_of_app, elem_of_cons. split.
  - intros [Ht|Hd].
    + split; [by left|]. intros ->. apply (lt_irrefl x), Hlt; [done | by left].
    + split; [by right; right|]. intros ->. apply (lt_irrefl x), Hgt; [by left | done].
  - tauto.
Qed.

Lemma RemoveAt_sorted (l : list T) i : sorted l -> sorted (RemoveAt l i).
Proof.
  intros Hs. unfold RemoveAt. destruct (_ <=? _); [done|].
  rewrite <- (take_drop i l) in Hs. apply sorted_app in Hs as (Ht & Hd & Hlt).
  assert (drop (S i) l = drop 1 (drop i l)) as -> by (rewrite drop_drop; f_equal; lia).
  rewrite <- (take_drop 1 (drop i l)) in Hd, Hlt. apply sorted_app in Hd as (_ & Hd & _).
  apply sorted_app. split; [done|]. split; [done|]. intros x y Hx Hy. apply Hlt; [done|].
  apply elem_of_app. by right.
Qed.

(** *** Merging *)

Fixpoint merge (fuel : nat) (left right : list T) : list T :=
  match fuel, left, right with
  | S n, x :: left', y :: right' =>
      match Cmp x y with
      | Eq => x :: merge n left' right'
      | Lt => x :: merge n left' right
      | Gt => y :: merge n left right'
      end
  | _, [], _ => right
  | _, _, _ => left
  end.

Lemma merge_count fuel (left right : list T) :
  length left + length right < fuel ->
  exists n, anyCountDuplicates fuel left right = Some n /\
    length (merge fuel left right) + n = length left + length right /\ n <= length right.
Proof.
  revert left right. induction fuel as [|fuel IH]; intros left right Hf; [lia|].
  destruct left as [|x left], right as [|y right]; cbn [anyCountDuplicates merge];
    try (exists 0; cbn; split; [done | lia]).
  cbn in Hf. destruct (Cmp x y).
  - destruct (IH left right) as (n & Hn & Hl); [lia|]. rewrite Hn. exists (S n). cbn. split; [done | lia].
  - destruct (IH left (y :: right)) as (n & Hn & Hl); [cbn; lia|]. rewrite Hn. exists n.
    cbn in *. split; [done | lia].
  - destruct (IH (x :: left) right) as (n & Hn & Hl); [cbn; lia|]. rewrite Hn. exists n.
    cbn in *. split; [done | lia].
Qed.

Lemma merge_elem fuel (left right : list T) z :
  length left + length right < fuel -> z ∈ merge fuel left right <-> z ∈ left \/ z ∈ right.
Proof.
  revert left right. induction fuel as [|fuel IH]; intros left right Hf; [lia|].
  destruct left as [|x left], right as [|y right]; cbn [merge]; try (rewrite elem_of_nil; tauto).
  cbn in Hf. destruct (Cmp x y) eqn:Hc; rewrite elem_of_cons, IH by (cbn; lia); rewrite ?elem_of_cons.
  - apply Cmp_eq in Hc as ->. tauto.
  - tauto.
  - tauto.
Qed.

Lemma merge_sorted fuel (left right : list T) :
  length left + length right < fuel -> sorted left -> sorted right -> sorted (merge fuel left right).
Proof.
  revert left right. induction fuel as [|fuel IH]; intros left right Hf Hl Hr; [lia|].
  destruct left as [|x left], right as [|y right]; cbn [merge]; try done.
  cbn in Hf. inversion Hl as [|?? Hl' Hlf]; subst. inversion Hr as [|?? Hr' Hrf]; subst.
  rewrite Forall_forall in Hlf, Hrf.
  destruct (Cmp x y) eqn:Hc; constructor; try (apply IH; (cbn; lia) || done);
    apply Forall_forall; intros z Hz; apply merge_elem in Hz; try (cbn; lia);
    rewrite ?elem_of_cons in Hz.
  - apply Cmp_eq in Hc as ->. destruct Hz; auto.
  - destruct Hz as [|[->|]]; auto. apply (lt_trans _ y); auto.
  - apply Cmp_gt in Hc. destruct Hz as [[->|]|]; auto. apply (lt_trans _ x); auto.
Qed.

Lemma copy_at_exact (target : list T) k items :
  k + length items = length target -> copy_at target k items = Ok (take k target ++ items).
Proof.
  intros Hl. unfold copy_at. destruct (Nat.ltb_spec (length target) k); [lia|].
  rewrite (take_ge items), drop_ge, app_nil_r by lia. done.
Qed.

Lemma take_S_insert (t : list T) k x : k < length t -> take (S k) (<[k := x]> t) = take k t ++ [x].
Proof.
  intros Hk. rewrite (take_S_r _ _ x) by (by apply list_lookup_insert_eq). by rewrite take_insert_ge by lia.
Qed.

(** Writing the merge into an array of the right length overwrites its tail. *)
Lemma anyMergeSorted_spec fuel (target : list T) k left right :
  length left + length right < fuel -> k + length (merge fuel left right) = length target ->
  anyMergeSorted fuel target k left right = Ok (take k target ++ merge fuel left right).
Proof.
  revert target k left right. induction fuel as [|fuel IH]; intros target k left right Hf Hlen; [lia|].
  destruct left as [|x left], right as [|y right]; cbn [anyMergeSorted merge] in *;
    try (by apply copy_at_exact).
  cbn in Hf.
  assert (Hstep : forall z l r, length l + length r < fuel ->
    k + length (z :: merge fuel l r) = length target ->
    (t ← slice_set target k z; anyMergeSorted fuel t (S k) l r)
    = Ok (take k target ++ z :: merge fuel l r)).
  { intros z l r Hlr Htl. cbn in Htl. unfold slice_set. rewrite decide_True by lia. cbn [mbind result_bind].
    rewrite IH by (rewrite ?length_insert; lia). rewrite take_S_insert by lia. by rewrite <- app_assoc. }
  destruct (Cmp x y); apply Hstep; (cbn; lia) || done.
Qed.

Lemma sorted_NoDup (l : list T) : sorted l -> NoDup l.
Proof.
  induction 1 as [|a l Hs IH Hf]; constructor; [|done].
  intros Ha. rewrite Forall_forall in Hf. by apply (lt_irrefl a), Hf.
Qed.

Lemma sorted_subset_length (l k : list T) :
  sorted l -> (forall x, x ∈ l -> x ∈ k) -> length l <= length k.
Proof. intros Hs Hsub. apply submseteq_length, NoDup_submseteq; [by apply sorted_NoDup | done]. Qed.

Lemma Find_sound (l : list T) i x : Find l x = Some i -> l !! i = Some x.
Proof.
  unfold Find, found. destruct (l !! Search l x) as [y|] eqn:Hy; [|done].
  destruct (Cmp y x) eqn:Hc; cbn; [|done..]. apply Cmp_eq in Hc as ->. by intros [= <-].
Qed.

Lemma Contains_sound (l : list T) x : Contains l x = true -> x ∈ l.
Proof.
  unfold Contains. destruct (Find l x) as [i|] eqn:Hf; [|done]. intros _.
  apply Find_sound in Hf. by eapply list_elem_of_lookup_2.
Qed.

Lemma InsertSorted_spec (zero : T) (left right : list T) :
  sorted left -> sorted right ->
  exists s, InsertSorted zero left right = Ok s /\ sorted s /\ forall z, z ∈ s <-> z ∈ left \/ z ∈ right.
Proof.
  intros Hl Hr. unfold InsertSorted. set (fuel := S (length left + length right)).
  destruct (merge_count fuel left right) as (n & -> & Hlen & Hn); [lia|].
  destruct (Nat.eqb_spec n (length right)) as [->|Hne].
  - exists left. split; [done|]. split; [done|]. intros z. split; [tauto|]. intros [|Hz]; [done|].
    assert (Hmerge : forall y, y ∈ left -> y ∈ merge fuel left right)
      by (intros; apply merge_elem; [lia | by left]).
    assert (z ∈ merge fuel left right) as Hzm by (apply merge_elem; [lia | by right]).
    pose proof (sorted_NoDup left Hl) as Hnd.
    assert (merge fuel left right ⊆+ left) as Hsub.
    { apply Permutation_submseteq. symmetry. apply submseteq_length_Permutation; [|lia].
      apply NoDup_submseteq; [done|]. intros y Hy. by apply Hmerge. }
    by eapply elem_of_submseteq.
  - rewrite anyMergeSorted_spec by (rewrite ?length_replicate; lia).
    eexists. split; [reflexivity|]. rewrite take_0, app_nil_l. split; [apply merge_sorted; (done || lia)|].
    intros z. apply merge_elem. lia.
Qed.

(** *** Sorting *)

Definition le_ (x y : T) : Prop := x = y \/ lt_ x y.

Lemma sort_insert_elem (x y : T) l : y ∈ sort_insert x l <-> y = x \/ y ∈ l.
Proof.
  induction l as [|z l IH]; cbn; [by rewrite elem_of_cons|].
  destruct (is_gt _); rewrite !elem_of_cons, ?IH; tauto.
Qed.

Lemma sort_insert_sorted (x : T) l : StronglySorted le_ l -> StronglySorted le_ (sort_insert x l).
Proof.
  induction 1 as [|z l Hs IH Hf]; cbn; [repeat constructor|].
  rewrite Forall_forall in Hf. destruct (Cmp x z) eqn:Hc; cbn [is_gt].
  - apply Cmp_eq in Hc as ->. constructor; [constructor; [done|]; by apply Forall_forall|].
    apply Forall_forall. intros y [->|Hy]%elem_of_cons; [by left | by apply Hf].
  - constructor; [constructor; [done|]; by apply Forall_forall|].
    apply Forall_forall. intros y [->|Hy]%elem_of_cons; [by right|].
    right. destruct (Hf y Hy) as [->|]; [done|]. by apply (lt_trans _ z).
  - apply Cmp_gt in Hc. constructor; [done|]. apply Forall_forall.
    intros y [->|Hy]%sort_insert_elem; [by right | by apply Hf].
Qed.

Lemma remove_duplicates_spec last (l : list T) :
  StronglySorted le_ l -> (forall y x, last = Some y -> x ∈ l -> le_ y x) ->
  sorted (remove_duplicates last l) /\
  (forall x, x ∈ remove_duplicates last l <-> x ∈ l /\ last <> Some x).
Proof.
  intros Hs. revert last. induction Hs as [|x l Hs IH Hf]; intros last Hlast.
  { split; [constructor|]. intros x. cbn. rewrite elem_of_nil. tauto. }
  rewrite Forall_forall in Hf.
  destruct (IH (Some x)) as [Hsorted Hin]; [intros ?? [= <-]; by apply Hf|].
  assert (Hkeep : last <> Some x ->
    sorted (x :: remove_duplicates (Some x) l) /\
    (forall y, y ∈ x :: remove_duplicates (Some x) l <-> y ∈ x :: l /\ last <> Some y)).
  { intros Hne. split.
    - constructor; [done|]. apply Forall_forall. intros y [Hy Hxy]%Hin.
      destruct (Hf y Hy) as [->|]; [done | done].
    - intros y. rewrite !elem_of_cons, Hin. split.
      + intros [->|[Hy Hxy]]; [tauto|]. split; [by right|]. intros ->.
        destruct (Hlast y x eq_refl) as [->|Hlt]; [by left | done |].
        destruct (Hf y Hy) as [->|Hlt']; [done|]. by apply (lt_irrefl x), (lt_trans _ y).
      + intros [[->|Hy] Hl]; [by left|]. destruct (Cmp x y) eqn:Hc.
        * left. symmetry. by apply Cmp_eq.
        * right. split; [done|]. intros [= ->]. by apply (lt_irrefl y).
        * right. split; [done|]. intros [= ->]. by rewrite Cmp_refl in Hc. }
  cbn [remove_duplicates]. destruct last as [y|]; [|by apply Hkeep].
  destruct (Cmp x y) eqn:Hc; cbn [is_eq].
  - apply Cmp_eq in Hc as ->. split; [done|]. intros z. rewrite Hin, elem_of_cons.
    split; [tauto|]. intros [[->|] Hz]; done.
  - apply Hkeep. intros [= ->]. by rewrite Cmp_refl in Hc.
  - apply Hkeep. intros [= ->]. by rewrite Cmp_refl in Hc.
Qed.

Lemma SortFunc_spec (l : list T) :
  StronglySorted le_ (SortFunc l) /\ forall x, x ∈ SortFunc l <-> x ∈ l.
Proof.
  unfold SortFunc. induction l as [|x l [IHs IHe]]; cbn; [split; [constructor | done]|].
  split; [by apply sort_insert_sorted|]. intros y. by rewrite sort_insert_elem, elem_of_cons, IHe.
Qed.

Lemma RawAnySortedSet_spec (l : list T) :
  sorted (RawAnySortedSet l) /\ forall x, x ∈ RawAnySortedSet l <-> x ∈ l.
Proof.
  unfold RawAnySortedSet. destruct (SortFunc_spec l) as [Hs He].
  destruct (remove_duplicates_spec None _ Hs) as [Hr Hin]; [done|].
  split; [done|]. intros x. rewrite Hin, He. split; [tauto | by split].
Qed.

(** Two sets with the same elements are the same array. *)
Lemma sorted_unique (l k : list T) : sorted l -> sorted k -> (forall x, x ∈ l <-> x ∈ k) -> l = k.
Proof.
  intros Hl. revert k. induction Hl as [|x l Hl IH Hf]; intros k Hk Heq.
  { destruct k as [|y k]; [done|]. exfalso. apply (not_elem_of_nil y), Heq. by left. }
  destruct Hk as [|y k Hk Hg]; [exfalso; apply (not_elem_of_nil x), Heq; by left|].
  rewrite Forall_forall in Hf, Hg.
  assert (x = y) as ->.
  { assert (x ∈ y :: k) as [->|Hx]%elem_of_cons by (apply Heq; by left); [done|].
    assert (y ∈ x :: l) as [->|Hy]%elem_of_cons by (apply Heq; by left); [done|].
    exfalso. apply (lt_irrefl x), (lt_trans _ y); auto. }
  f_equal. apply IH; [done|]. intros z. specialize (Heq z). rewrite !elem_of_cons in Heq. split; intros Hz.
  - destruct (proj1 Heq (or_intror Hz)) as [->|]; [|done]. exfalso. by apply (lt_irrefl y), Hf.
  - destruct (proj2 Heq (or_intror Hz)) as [->|]; [|done]. exfalso. by apply (lt_irrefl y), Hg.
Qed.

Lemma compare_items_eq (l k : list T) : length l = length k -> compare_items l k = Eq <-> l = k.
Proof.
  revert k. induction l as [|x l IH]; intros [|y k] Hl; cbn in *; try done.
  destruct (Cmp x y) eqn:Hc; [apply Cmp_eq in Hc as ->; rewrite IH by lia; split; congruence | |];
    (split; [done|]; intros [= -> ->]; by rewrite Cmp_refl in Hc).
Qed.

Lemma compare_items_anti (l k : list T) : compare_items k l = CompOpp (compare_items l k).
Proof.
  revert k. induction l as [|x l IH]; intros [|y k]; cbn; try done.
  rewrite (Cmp_anti x y). by destruct (Cmp x y); cbn.
Qed.

Lemma compare_items_trans (l k m : list T) :
  length l = length k -> length k = length m ->
  compare_items l k = Lt -> compare_items k m = Lt -> compare_items l m = Lt.
Proof.
  revert k m. induction l as [|x l IH]; intros [|y k] [|z m]; cbn; try done. intros H1 H2.
  destruct (Cmp x y) eqn:Hxy; [apply Cmp_eq in Hxy as -> | | done];
    (destruct (Cmp y z) eqn:Hyz; [apply Cmp_eq in Hyz as -> | | done]).
  - apply IH; lia.
  - done.
  - by rewrite Hxy.
  - by rewrite (Cmp_trans x y z).
Qed.

#[export] Instance list_Comparable : Comparable (list T) := Compare.

#[export] Instance list_CmpLaws : CmpLaws (list T).
Proof.
  split; unfold Cmp, list_Comparable, Compare.
  - intros l k. destruct (Nat.compare_spec (length l) (length k)); [by apply compare_items_eq | |];
      (split; [done|]; intros ->; lia).
  - intros l k. rewrite (Nat.compare_antisym (length l)).
    destruct (Nat.compare_spec (length l) (length k)); cbn; try done. apply compare_items_anti.
  - intros l k m.
    destruct (Nat.compare_spec (length l) (length k)), (Nat.compare_spec (length k) (length m)),
      (Nat.compare_spec (length l) (length m)); try done; try lia. by apply compare_items_trans.
Qed.

End SortedSetFacts.

(** ** Properties *)

Module SortedSetProperties.
Section Properties.
Context {T : Type} `{!Comparable T, !CmpLaws T}.

(** On a sorted array, the binary search makes [Contains] decide
    membership and [Find] return the only index of the element; [Insert] and
    [Remove] keep the array strictly sorted and add or remove exactly the given
    element, [Remove] telling whether it was present. *)
Theorem sorted_set_operations (s : list T) (x : T) :
  sorted s ->
  (Contains s x = true <-> x ∈ s) /\
  (forall i, Find s x = Some i <-> s !! i = Some x) /\
  (sorted (Insert s x) /\ forall y, y ∈ Insert s x <-> y = x \/ y ∈ s) /\
  (sorted (Remove s x).1 /\ (forall y, y ∈ (Remove s x).1 <-> y ∈ s /\ y <> x) /\
   ((Remove s x).2 = true <-> x ∈ s)).
Proof.
  intros Hs. pose proof (found_spec s x Hs) as Hf.
  split; [by apply Contains_iff|]. split.
  { intros i. unfold Find. destruct (found _ _ _).
    - split; [by intros [= <-]|]. intros Hi. f_equal. by apply (sorted_NoDup_lookup s _ _ x).
    - split; [done|]. intros Hi. exfalso. apply Hf. by eapply list_elem_of_lookup_2. }
  split; [split; [by apply Insert_sorted | intros; by apply Insert_elem]|].
  unfold Remove. destruct (found _ _ _); cbn.
  - split; [by apply RemoveAt_sorted|]. split; [intros; by apply RemoveAt_lookup_elem|].
    split; [|done]. intros. by eapply list_elem_of_lookup_2.
  - split; [done|]. split; [|done]. intros y. split; [intros Hy; split; [done|]; by intros -> | tauto].
Qed.

(** Merging two sorted sets never writes outside the array it allocates and
    gives the sorted union; sorting and removing repetitions turns any array
    into the sorted set of its elements; sorted sets with the same elements are
    the same array. *)
Theorem sorted_set_union (zero : T) (s q : list T) (items : list T) :
  sorted s -> sorted q ->
  (exists u, InsertSorted zero s q = Ok u /\ sorted u /\ forall z, z ∈ u <-> z ∈ s \/ z ∈ q) /\
  (sorted (NewAnySortedSet items) /\ forall z, z ∈ NewAnySortedSet items <-> z ∈ items) /\
  ((forall z, z ∈ s <-> z ∈ q) -> s = q).
Proof.
  intros Hs Hq. split; [by apply InsertSorted_spec|]. split; [apply RawAnySortedSet_spec|].
  by apply sorted_unique.
Qed.

End Properties.

Lemma sample_sorted : sorted [1; 4; 9].
Proof. repeat constructor. Qed.

Lemma sorted_set_operations_witness : Contains [1; 4; 9] 4 = true <-> 4 ∈ [1; 4; 9].
Proof. exact (proj1 (sorted_set_operations [1; 4; 9] 4 sample_sorted)). Defined.

Lemma sorted_set_union_witness :
  exists u, InsertSorted 0 [1; 4; 9] [1; 4; 9] = Ok u /\ sorted u /\
    forall z, z ∈ u <-> z ∈ [1; 4; 9] \/ z ∈ [1; 4; 9].
Proof. exact (proj1 (sorted_set_union 0 _ _ [] sample_sorted sample_sorted)). Defined.

End SortedSetProperties.
