(* ===== verification/Logical.v ===== *)
(** * Propositions

    Models [pkg/util/logical/proposition.go] and [equality.go]: propositions in
    disjunctive normal form over abstract atoms, and the equality atoms.  A
    proposition with no conjunction is logical truth; one whose only
    conjunction is empty is logical falsehood. *)

From Stdlib Require Import ZArith Lia.
From stdpp Require Import base numbers list option sorting strings.
From S2P Require Import Prelude SortedSet.

Open Scope nat_scope.

(** ** The [Atom] interface *)

Class Atom (A : Type) `{!Comparable A} : Type := {
  Negate : A -> A;
  Is : bool -> A -> bool;
  CloseOver : A -> A -> A
}.

Section Proposition.
Context {A : Type} `{!Comparable A, !Atom A}.

(** [Conjunction] and [Proposition]: sorted sets of atoms and of conjunctions. *)
#[local] Abbreviation Conjunction := (list A) (only parsing).
#[local] Abbreviation Proposition := (list (list A)) (only parsing).


Definition Truth (val : bool) : Proposition := if val then [] else [[]].

Definition IsTrue (p : Proposition) : bool := length p =? 0.

Definition IsFalse (p : Proposition) : bool :=
  match p with [c] => length c =? 0 | _ => false end.

Definition NewProposition (atom : A) : Proposition :=
  if Is true atom then Truth true
  else if Is false atom then Truth false
  else Insert [] (Insert [] atom).

Definition Equals (p other : Proposition) : bool :=
  if negb (length p =? length other) then false
  else forallb (fun '(c, d) => is_eq (Cmp c d)) (zip p other).

(** [Conjunction.Remove] *)
Definition Remove (p : Conjunction) (atom : A) : Conjunction * bool :=
  match Find p atom with Some i => (RemoveAt p i, true) | None => (p, false) end.

(** [Conjunction.Implies] *)
Definition Implies (p other : Conjunction) : bool := forallb (fun a => Contains other a) p.

(** [Conjunction.simplify]: atoms are updated in place while they are visited.
    [None] as a result stands for [return false]. *)
Record visit : Type := mkVisit { atoms : list A; changed : bool; done : bool }.

Fixpoint close_inner (ci : A) (i j count : nat) (v : visit) : option visit :=
  match count with
  | O => Some v
  | S n =>
      match atoms v !! j with
      | None => Some v
      | Some cj =>
          let cij := CloseOver ci cj in
          if Is false cij then None
          else if is_eq (Cmp ci cij) then close_inner ci i (S j) n v
          else close_inner ci i (S j) n (mkVisit (<[i := cij]> (atoms v)) true false)
      end
  end.

Fixpoint close_outer (i count : nat) (v : visit) : option visit :=
  match count with
  | O => Some v
  | S n =>
      match atoms v !! i with
      | None => Some v
      | Some ci =>
          match close_inner ci i 0 (length (atoms v)) v with
          | None => None
          | Some v' => close_outer (S i) n v'
          end
      end
  end.

(** [for !done]; [OutOfFuel] when [fuel] rounds are not enough. *)
Fixpoint close_loop (fuel : nat) (a : list A) (ch : bool) : result (option (list A * bool)) :=
  match fuel with
  | O => Fault OutOfFuel
  | S k =>
      match close_outer 0 (length a) (mkVisit a ch true) with
      | None => Ok None
      | Some v => if done v then Ok (Some (atoms v, changed v)) else close_loop k (atoms v) (changed v)
      end
  end.

Definition simplify_conjunction (fuel : nat) (c : Conjunction) : result (option Conjunction) :=
  match close_loop fuel c false with
  | Fault f => Fault f
  | Ok None => Ok None
  | Ok (Some (a, ch)) =>
      Ok (Some (if ch then RawAnySortedSet (RemoveMatching a (Is true)) else a))
  end.

(** Go loops [for i := range n] over [n] conjunctions, stopping at a tautology. *)

(** [unitPropagation]: the first flag is [changed], the second [tautology]. *)
Definition unitPropagation (p : Proposition) (i j : nat) : result (Proposition * bool * bool) :=
  ith ← slice_get p i;
  jth ← slice_get p j;
  match ith, jth with
  | [a], [b] => Ok (p, false, is_eq (Cmp a (Negate b)))
  | [a], _ :: _ =>
      let '(kth, ok) := Remove jth (Negate a) in
      if ok then Ok (<[j := kth]> p, true, false) else Ok (p, false, false)
  | _ :: _, [b] =>
      let '(kth, ok) := Remove ith (Negate b) in
      if ok then Ok (<[i := kth]> p, true, false) else Ok (p, false, false)
  | _, _ => Ok (p, false, false)
  end.

Definition simplifyConjuncts (p : Proposition) (i j : nat) : result (Proposition * bool * bool) :=
  '(p, ch, tautology) ← unitPropagation p i j;
  if tautology : bool then Ok (p, ch, true)
  else
    ith ← slice_get p i;
    jth ← slice_get p j;
    let ithjth := Implies ith jth in
    let jthith := Implies jth ith in
    if ithjth && negb jthith then Ok (<[j := ith]> p, ch, false)
    else if negb ithjth && jthith then Ok (<[i := jth]> p, ch, false)
    else Ok (p, ch, false).

(** One round of the loop of [simplify], over the pairs [i < j] in order;
    [None] for [return Truth(true)]. *)
Fixpoint round_loop (pairs : list (nat * nat)) (p : Proposition) (ch : bool)
  : result (option (Proposition * bool)) :=
  match pairs with
  | [] => Ok (Some (p, ch))
  | (i, j) :: rest =>
      '(p', c, tautology) ← simplifyConjuncts p i j;
      if tautology : bool then Ok None else round_loop rest p' (ch || c)
  end.

Definition pairs_of (n : nat) : list (nat * nat) :=
  i ← seq 0 n; (fun j => (i, j)) <$> seq (S i) (n - S i).

(** [for changed]; a round runs over all the pairs. *)
Fixpoint simplify_loop (fuel : nat) (p : Proposition) : result (option Proposition) :=
  match fuel with
  | O => Fault OutOfFuel
  | S k =>
      match round_loop (pairs_of (length p)) p false with
      | Fault f => Fault f
      | Ok None => Ok None
      | Ok (Some (p', ch)) => if ch : bool then simplify_loop k p' else Ok (Some p')
      end
  end.

(** Every round but the last removes an atom. *)
Definition size (p : Proposition) : nat := sum_list (length <$> p).

Definition simplify (p : Proposition) : result Proposition :=
  r ← simplify_loop (S (size p)) p;
  match r with
  | None => Ok (Truth true)
  | Some p' => Ok (RawAnySortedSet p')
  end.

Definition Or (p other : Proposition) : result Proposition :=
  if IsTrue p || IsTrue other then Ok (Truth true)
  else if IsFalse p then Ok other
  else if IsFalse other then Ok p
  else
    d ← InsertSorted [] [] p;
    d' ← InsertSorted [] d other;
    simplify d'.

(** [fuel] bounds the rounds of [Conjunction.simplify]; [zero] fills new arrays. *)
Fixpoint and_loop (fuel : Conjunction -> nat) (zero : A) (c : Conjunction) (o disjuncts : Proposition)
  : result Proposition :=
  match o with
  | [] => Ok disjuncts
  | disjunct :: o' =>
      n1 ← InsertSorted zero [] c;
      n2 ← InsertSorted zero n1 disjunct;
      r ← simplify_conjunction (fuel n2) n2;
      match r with
      | None => and_loop fuel zero c o' disjuncts
      | Some nc => and_loop fuel zero c o' (Insert disjuncts nc)
      end
  end.

Definition andConjunctProposition (fuel : Conjunction -> nat) (zero : A) (c : Conjunction) (o : Proposition)
  : result Proposition :=
  d ← and_loop fuel zero c o [];
  match d with [] => Ok (Truth false) | _ => Ok d end.

(** The loops of [And] and [Negate], which start from their first element. *)
Fixpoint fold_from {X} (f : X -> result Proposition) (op : Proposition -> Proposition -> result Proposition)
  (br : Proposition) (l : list X) : result Proposition :=
  match l with
  | [] => Ok br
  | x :: l' => ith ← f x; br' ← op br ith; fold_from f op br' l'
  end.

Definition fold_first {X} (f : X -> result Proposition) (op : Proposition -> Proposition -> result Proposition)
  (l : list X) : result Proposition :=
  match l with
  | [] => Ok []
  | x :: l' => ith ← f x; fold_from f op ith l'
  end.

Definition And (fuel : Conjunction -> nat) (zero : A) (p other : Proposition) : result Proposition :=
  if IsFalse p || IsFalse other then Ok (Truth false)
  else if IsTrue p then Ok other
  else if IsTrue other then Ok p
  else fold_first (fun disjunct => andConjunctProposition fuel zero disjunct other) Or p.

Definition negateConjunct (c : Conjunction) : result Proposition :=
  fold_first (fun a => Ok (NewProposition (Negate a))) Or c.

Definition Negate_ (fuel : Conjunction -> nat) (zero : A) (p : Proposition) : result Proposition :=
  if IsTrue p then Ok (Truth false)
  else if IsFalse p then Ok (Truth true)
  else fold_first negateConjunct (And fuel zero) p.

End Proposition.

(** ** [equality.go] *)

Module Equality.
Section Equality.
Context {I : Type} `{!Comparable I}.

(** The right-hand side is a variable or a constant. *)
Record t : Type := mk { Sign : bool; Left : I; Right : I + Z }.

Definition Equals (l r : I) : t := if is_gt (Cmp l r) then mk true r (inl l) else mk true l (inl r).
Definition EqualsConst (l : I) (r : Z) : t := mk true l (inr r).
Definition NotEquals (l r : I) : t := if is_gt (Cmp l r) then mk false r (inl l) else mk false l (inl r).
Definition NotEqualsConst (l : I) (r : Z) : t := mk false l (inr r).

Definition cmpRhs (l r : I + Z) : comparison :=
  match l, r with
  | inl _, inr _ => Lt
  | inr _, inl _ => Gt
  | inl x, inl y => Cmp x y
  | inr x, inr y => Cmp x y
  end.

#[export] Instance t_Comparable : Comparable t := fun p o =>
  match Sign p, Sign o with
  | true, false => Lt
  | false, true => Gt
  | _, _ => match Cmp (Left p) (Left o) with Eq => cmpRhs (Right p) (Right o) | c => c end
  end.

Definition equate (l r : I + Z) (v : I) : t :=
  match l, r with
  | inl x, inl y => Equals x y
  | inl x, inr c => EqualsConst x c
  | inr c, inl x => EqualsConst x c
  | inr c, inr d => if (c =? d)%Z then Equals v v else NotEquals v v
  end.

Definition unequate (l r : I + Z) (v : I) : t :=
  match l, r with
  | inl x, inl y => NotEquals x y
  | inl x, inr c => NotEqualsConst x c
  | inr c, inl x => NotEqualsConst x c
  | inr c, inr d => if negb (c =? d)%Z then Equals v v else NotEquals v v
  end.

Definition CloseOver (p o : t) : t :=
  if is_eq (Cmp p o) then p
  else if is_eq (Cmp (Left p) (Left o)) && Sign o then
    (if Sign p then equate (Right p) (Right o) (Left p) else unequate (Right p) (Right o) (Left p))
  else
    match Right p with
    | inr _ => p
    | inl r =>
        if negb (Sign o) then p
        else if is_eq (Cmp r (Left o)) then mk (Sign p) (Left p) (Right o) else p
    end.

Definition Is (truth : bool) (p : t) : bool :=
  eqb (Sign p) truth &&
  match Right p with inl r => is_eq (Cmp (Left p) r) | inr _ => false end.

Definition Negate (p : t) : t := mk (negb (Sign p)) (Left p) (Right p).

#[export] Instance t_Atom : Atom t := Build_Atom t _ Negate Is CloseOver.

End Equality.
Arguments t I : clear implicits.
End Equality.

(** ** What the propositions rely on

    [holds] gives an atom its truth value.  [weight] decreases whenever closing
    over an atom of the same universe changes an atom, which makes
    [Conjunction.simplify] terminate.  The [core] atoms are those that rewrite
    others and never become trivially true. *)

Class AtomLaws (A Env : Type) `{!Comparable A, !Atom A} : Type := {
  holds : Env -> A -> bool;
  atom_ok : A -> Prop;
  core : A -> bool;
  in_universe : list A -> A -> Prop;
  weight : list A -> A -> nat;
  Negate_holds e a : holds e (Negate a) = negb (holds e a);
  Negate_ok a : atom_ok a -> atom_ok (Negate a);
  Is_holds e b a : Is b a = true -> holds e a = b;
  CloseOver_holds e p o : holds e o = true -> holds e (CloseOver p o) = holds e p;
  universe_self u a : a ∈ u -> Forall atom_ok u -> in_universe u a;
  universe_ok u a : in_universe u a -> atom_ok a;
  universe_close u p o :
    in_universe u p -> in_universe u o -> Is false (CloseOver p o) = false ->
    in_universe u (CloseOver p o);
  weight_close u p o :
    in_universe u p -> in_universe u o -> Is false (CloseOver p o) = false ->
    CloseOver p o <> p -> weight u (CloseOver p o) < weight u p;
  core_not_true a : core a = true -> Is true a = false;
  core_close p o : atom_ok p -> atom_ok o ->
    core p = true -> Is false (CloseOver p o) = false -> core (CloseOver p o) = true;
  core_inert p o : core o = false -> Is true o = false -> CloseOver p o = p
}.

(** Enough rounds for [Conjunction.simplify]. *)
Definition rounds {A Env} `{AtomLaws A Env} (c : list A) : nat := S (sum_list (weight c <$> c)).

Lemma sum_list_insert {X} (f : X -> nat) (l : list X) i a b :
  l !! i = Some b -> sum_list (f <$> <[i := a]> l) + f b = sum_list (f <$> l) + f a.
Proof.
  revert i. induction l as [|x l IH]; intros [|i] Hi; try done.
  - injection Hi as ->. change (<[0 := a]> (b :: l)) with (a :: l). rewrite !fmap_cons. cbn. lia.
  - specialize (IH i Hi). change (<[S i := a]> (x :: l)) with (x :: <[i := a]> l).
    rewrite !fmap_cons. cbn. lia.
Qed.

Section LogicalFacts.
Context {A Env : Type} `{!Comparable A, !CmpLaws A, !Atom A, !AtomLaws A Env}.
Implicit Types (c : list A) (e : Env).

(** All the atoms of a conjunction hold. *)
Definition sat e c : bool := forallb (holds e) c.

Lemma sat_elem e c : sat e c = true <-> forall a, a ∈ c -> holds e a = true.
Proof.
  unfold sat. rewrite forallb_forall. split; intros Hs a Ha; apply Hs; by apply list_elem_of_In.
Qed.

Lemma sat_subset e c d : (forall a, a ∈ c -> a ∈ d) -> sat e d = true -> sat e c = true.
Proof. rewrite !sat_elem. auto. Qed.

Lemma sat_insert e c i a : sat e c = true -> holds e a = true -> sat e (<[i := a]> c) = true.
Proof.
  rewrite !sat_elem. intros Hs Ha b [j Hj]%list_elem_of_lookup_1.
  apply list_lookup_insert_Some in Hj as [(-> & <- & _)|[_ Hj]]; [done|].
  apply Hs. by eapply list_elem_of_lookup_2.
Qed.

Definition total (u c : list A) : nat := sum_list (weight u <$> c).

Lemma total_insert u c i a b :
  c !! i = Some b -> total u (<[i := a]> c) + weight u b = total u c + weight u a.
Proof. apply sum_list_insert. Qed.

(** One visit of the inner loop, from an atom [ci] that stood at index [i] *)
Record visited (u : list A) (i : nat) (ci : A) (v v' : visit (A := A)) : Prop := {
  vis_length : length (atoms v') = length (atoms v);
  vis_universe : Forall (in_universe u) (atoms v');
  vis_other j : j <> i -> atoms v' !! j = atoms v !! j;
  vis_at x : atoms v' !! i = Some x -> (atoms v !! i = Some x /\ done v' = done v) \/
    (weight u x < weight u ci /\ done v' = false /\ (core ci = true -> core x = true));
  vis_done : done v' = true -> atoms v' = atoms v /\ done v = true;
  vis_changed : changed v' = false -> atoms v' = atoms v /\ changed v = false;
  vis_sat e : holds e ci = true -> sat e (atoms v) = true -> sat e (atoms v') = true;
  vis_inert : (forall a, a ∈ atoms v -> core a = false /\ Is true a = false) -> v' = v
}.

Lemma visited_refl u i ci v : Forall (in_universe u) (atoms v) -> visited u i ci v v.
Proof. split; auto. Qed.

(** Storing a changed atom before the rest of the visit. *)
Lemma visited_update u i ci cj v v' :
  Forall (in_universe u) (atoms v) -> in_universe u ci -> cj ∈ atoms v ->
  Is false (CloseOver ci cj) = false -> CloseOver ci cj <> ci ->
  visited u i ci (mkVisit (<[i := CloseOver ci cj]> (atoms v)) true false) v' ->
  visited u i ci v v'.
Proof.
  intros Hu Hci Hj Hfalse Hne [Hl Hun Ho Hat Hd Hch Hs Hin]. cbn [atoms changed done] in *.
  assert (in_universe u cj) as Hcj by (by eapply Forall_forall in Hu). split; try done.
  - by rewrite Hl, length_insert.
  - intros k Hk. rewrite Ho by done. by rewrite list_lookup_insert_ne.
  - intros x Hx. right. destruct (Hat x Hx) as [[Hx' Hdv]|]; [|done].
    apply list_lookup_insert_Some in Hx' as [(_ & <- & _)|[Hk _]]; [|done].
    split; [by apply weight_close|]. split; [done|].
    intros Hcore. apply core_close; try done; by eapply universe_ok.
  - intros Hdv. by destruct (Hd Hdv).
  - intros Hcv. by destruct (Hch Hcv).
  - intros e He Hse. apply Hs; [done|]. apply sat_insert; [done|].
    rewrite CloseOver_holds; [done|]. rewrite sat_elem in Hse. by apply Hse.
  - intros Hall. destruct (Hall cj Hj) as [Hc Ht]. by destruct Hne; apply core_inert.
Qed.

Lemma close_inner_spec u i ci j count v :
  Forall (in_universe u) (atoms v) -> in_universe u ci ->
  match close_inner ci i j count v with
  | Some v' => visited u i ci v v'
  | None => forall e, holds e ci = true -> sat e (atoms v) = false
  end.
Proof.
  revert j v. induction count as [|count IH]; intros j v Hu Hci; cbn [close_inner].
  { by apply visited_refl. }
  destruct (atoms v !! j) as [cj|] eqn:Hj; [|by apply visited_refl].
  apply list_elem_of_lookup_2 in Hj as Hin.
  assert (in_universe u cj) as Hcj by (by eapply Forall_forall in Hu).
  assert (Hclose : forall e, holds e ci = true -> sat e (atoms v) = true ->
    holds e (CloseOver ci cj) = true).
  { intros e He Hs. rewrite CloseOver_holds; [done|]. rewrite sat_elem in Hs. by apply Hs. }
  destruct (Is false (CloseOver ci cj)) eqn:Hfalse.
  { intros e He. destruct (sat e (atoms v)) eqn:Hs; [|done].
    specialize (Hclose e He Hs). rewrite (Is_holds e false _ Hfalse) in Hclose. discriminate. }
  destruct (is_eq (Cmp ci (CloseOver ci cj))) eqn:Hcmp; [by apply IH|].
  assert (CloseOver ci cj <> ci) as Hne.
  { intros Heq. by rewrite Heq, Cmp_refl in Hcmp. }
  assert (Hu' : Forall (in_universe u) (<[i := CloseOver ci cj]> (atoms v)))
    by (apply Forall_insert; [done | by apply universe_close]).
  specialize (IH (S j) (mkVisit (<[i := CloseOver ci cj]> (atoms v)) true false) Hu' Hci).
  destruct (close_inner _ _ _ _ _) as [v'|]; [by eapply visited_update|].
  intros e He. destruct (sat e (atoms v)) eqn:Hs; [|done].
  rewrite <- (IH e He). symmetry. apply sat_insert; [done | by apply Hclose].
Qed.

(** A sequence of visits *)
Record round (u : list A) (v v' : visit (A := A)) : Prop := {
  rnd_length : length (atoms v') = length (atoms v);
  rnd_universe : Forall (in_universe u) (atoms v');
  rnd_total : total u (atoms v') <= total u (atoms v);
  rnd_done : done v' = true -> atoms v' = atoms v /\ done v = true;
  rnd_progress : done v = true -> done v' = false -> total u (atoms v') < total u (atoms v);
  rnd_changed : changed v' = false -> atoms v' = atoms v /\ changed v = false;
  rnd_sat e : sat e (atoms v) = true -> sat e (atoms v') = true;
  rnd_core k a : atoms v !! k = Some a -> core a = true ->
    exists b, atoms v' !! k = Some b /\ core b = true;
  rnd_inert : (forall a, a ∈ atoms v -> core a = false /\ Is true a = false) -> v' = v
}.

Lemma round_refl u v : Forall (in_universe u) (atoms v) -> round u v v.
Proof. split; auto; intros; try congruence; eauto. Qed.

Lemma round_trans u v1 v2 v3 : round u v1 v2 -> round u v2 v3 -> round u v1 v3.
Proof.
  intros [Hl Hun Ht Hd Hp Hc Hs Hk Hi] [Hl' Hun' Ht' Hd' Hp' Hc' Hs' Hk' Hi']. split.
  - congruence.
  - done.
  - lia.
  - intros Hdone. destruct (Hd' Hdone) as [-> Hd2]. by apply Hd.
  - intros H1 H3. destruct (done v2) eqn:H2; [specialize (Hp' eq_refl H3); lia|].
    specialize (Hp H1 eq_refl). lia.
  - intros Hch. destruct (Hc' Hch) as [-> Hc2]. by apply Hc.
  - auto.
  - intros k a Ha Hca. destruct (Hk k a Ha Hca) as (b & Hb & Hcb). by eapply Hk'.
  - intros Hall. rewrite (Hi Hall) in *. by apply Hi'.
Qed.

Lemma close_outer_spec u i count v :
  Forall (in_universe u) (atoms v) ->
  match close_outer i count v with
  | Some v' => round u v v'
  | None => forall e, sat e (atoms v) = false
  end.
Proof.
  revert i v. induction count as [|count IH]; intros i v Hu; cbn [close_outer].
  { by apply round_refl. }
  destruct (atoms v !! i) as [ci|] eqn:Hi; [|by apply round_refl].
  assert (in_universe u ci) as Hci by (by eapply Forall_lookup in Hu).
  assert (Hholds : forall e, sat e (atoms v) = true -> holds e ci = true).
  { intros e Hs. rewrite sat_elem in Hs. apply Hs. by eapply list_elem_of_lookup_2. }
  pose proof (close_inner_spec u i ci 0 (length (atoms v)) v Hu Hci) as Hin.
  destruct (close_inner _ _ _ _ _) as [v'|].
  - assert (Hr : round u v v').
    { destruct Hin as [Hl Hun Ho Hat Hd Hch Hs Hinert].
      assert (i < length (atoms v')) as Hlt by (rewrite Hl; by apply lookup_lt_Some in Hi).
      destruct (lookup_lt_is_Some_2 _ _ Hlt) as [x Hx].
      assert (atoms v' = <[i := x]> (atoms v)) as Heq.
      { apply list_eq. intros k. destruct (decide (k = i)) as [->|Hk].
        - rewrite Hx, list_lookup_insert_eq; [done | lia].
        - by rewrite Ho, list_lookup_insert_ne. }
      pose proof (total_insert u (atoms v) i x ci Hi) as Htot. rewrite <- Heq in Htot.
      split; auto.
      - destruct (Hat x Hx) as [[Hx' _]|[Hw _]]; [|lia]. rewrite Hi in Hx'. injection Hx' as ->. lia.
      - intros Hdv Hdv'. destruct (Hat x Hx) as [[_ Hd']|[Hw _]]; [congruence | lia].
      - intros k a Ha Hca. destruct (decide (k = i)) as [->|Hk].
        + exists x. split; [done|]. rewrite Hi in Ha. injection Ha as ->.
          destruct (Hat x Hx) as [[Hx' _]|(_ & _ & Hcore)]; [congruence | by apply Hcore].
        + exists a. by rewrite Ho. }
    specialize (IH (S i) v' (vis_universe _ _ _ _ _ Hin)).
    destruct (close_outer _ _ _) as [v''|]; [by eapply round_trans|].
    intros e. destruct (sat e (atoms v)) eqn:Hs; [|done].
    rewrite <- (IH e). symmetry. by apply (vis_sat _ _ _ _ _ Hin e); [apply Hholds|].
  - intros e. destruct (sat e (atoms v)) eqn:Hs; [|done]. rewrite <- Hs. apply Hin. by apply Hholds.
Qed.

(** What several rounds preserve *)
Record rewritten (c d : list A) (ch : bool) : Prop := {
  rew_ok : Forall atom_ok d;
  rew_sat e : sat e c = true -> sat e d = true;
  rew_changed : ch = false -> d = c;
  rew_core k a : c !! k = Some a -> core a = true -> exists b, d !! k = Some b /\ core b = true;
  rew_inert : (forall a, a ∈ c -> core a = false /\ Is true a = false) -> d = c
}.

Lemma round_rewritten u c d ch ch' b b' :
  round u (mkVisit c ch b) (mkVisit d ch' b') -> rewritten c d ch' /\ (ch' = false -> ch = false).
Proof.
  intros [Hl Hun Ht Hd Hp Hc Hs Hk Hi]. cbn in *. split; [|intros Hf; by destruct (Hc Hf)].
  split; try done.
  - eapply Forall_impl; [exact Hun|]. intros a. apply universe_ok.
  - intros Hf. by destruct (Hc Hf).
  - intros Hall. by injection (Hi Hall).
Qed.

Lemma close_loop_spec u fuel c ch :
  Forall (in_universe u) c -> total u c < fuel ->
  exists r, close_loop fuel c ch = Ok r /\
    match r with
    | None => forall e, sat e c = false
    | Some (d, ch') => rewritten c d ch' /\ (ch' = false -> ch = false)
    end.
Proof.
  revert c ch. induction fuel as [|fuel IH]; intros c ch Hu Hf; [lia|]. cbn [close_loop].
  pose proof (close_outer_spec u 0 (length c) (mkVisit c ch true) Hu) as Ho.
  destruct (close_outer _ _ _) as [[d ch' b]|]; cbn [atoms changed done] in *; [|by exists None].
  destruct (round_rewritten _ _ _ _ _ _ _ Ho) as [Hrew Hch].
  destruct b; [by exists (Some (d, ch'))|].
  pose proof (rnd_progress _ _ _ Ho eq_refl eq_refl) as Hlt. cbn [atoms] in Hlt.
  assert (total u d < fuel) as Hfuel by lia.
  destruct (IH d ch' (rnd_universe _ _ _ Ho) Hfuel) as (r & Hr & Hspec).
  exists r. split; [done|]. destruct r as [[d' ch'']|].
  - destruct Hspec as [[H1 H2 H3 H4 H5] Hch'], Hrew as [G1 G2 G3 G4 G5]. split; [|auto]. split; auto.
    + intros Hf'. rewrite H3, G3 by auto. done.
    + intros k a Ha Hca. destruct (G4 k a Ha Hca) as (x & Hx & Hcx). by eapply H4.
    + intros Hall. assert (d = c) as -> by (by apply G5). by apply H5.
  - intros e. destruct (sat e c) eqn:Hs; [|done]. rewrite <- (Hspec e). symmetry.
    by apply (rew_sat _ _ _ Hrew e).
Qed.

(** A well-formed conjunction of a proposition *)
Definition conj_ok (c : list A) : Prop :=
  c <> [] /\ sorted c /\ Forall atom_ok c /\ Forall (fun a => Is true a = false) c.

Lemma simplify_conjunction_spec c :
  sorted c -> Forall atom_ok c -> Forall (fun a => Is true a = false) c -> c <> [] ->
  exists r, simplify_conjunction (rounds c) c = Ok r /\
    match r with
    | None => forall e, sat e c = false
    | Some d => conj_ok d /\ forall e, sat e c = true -> sat e d = true
    end.
Proof.
  intros Hs Hok Ht Hne. unfold simplify_conjunction.
  assert (Hu : Forall (in_universe c) c).
  { apply Forall_forall. intros a Ha. by apply universe_self. }
  destruct (close_loop_spec c (rounds c) c false Hu) as (r & -> & Hr).
  { apply Nat.lt_succ_diag_r. }
  destruct r as [[d ch]|]; [|by exists None]. destruct Hr as [[Hok' Hsat Hch Hcore Hin] _].
  eexists. split; [done|]. destruct ch; [|rewrite Hch by done; by repeat split].
  destruct (RawAnySortedSet_spec (RemoveMatching d (Is true))) as [Hsorted Hel].
  assert (Hmem : forall a, a ∈ RawAnySortedSet (RemoveMatching d (Is true)) <-> a ∈ d /\ Is true a = false).
  { intros a. rewrite Hel. unfold RemoveMatching. rewrite !list_elem_of_In, filter_In, <- list_elem_of_In.
    by rewrite negb_true_iff. }
  split; [split; [|split; [done|split]]|].
  - destruct (decide (Exists (fun a => core a = true) c)) as [Hex|Hnone].
    + apply Exists_exists in Hex as (a & [k Hk]%list_elem_of_lookup_1 & Hca).
      destruct (Hcore k a Hk Hca) as (b & Hb & Hcb). intros Hnil.
      apply (not_elem_of_nil b). rewrite <- Hnil. apply Hmem.
      split; [by eapply list_elem_of_lookup_2 | by apply core_not_true].
    + assert (d = c) as ->.
      { apply Hin. intros a Ha. rewrite Forall_forall in Ht. split; [|by apply Ht].
        destruct (core a) eqn:Hca; [|done]. exfalso. apply Hnone, Exists_exists. by exists a. }
      destruct c as [|a c]; [done|]. intros Hnil. apply (not_elem_of_nil a). rewrite <- Hnil.
      apply Hmem. split; [by left|]. by inversion Ht.
  - apply Forall_forall. intros a [Ha _]%Hmem. by eapply Forall_forall in Hok'.
  - apply Forall_forall. by intros a [_ Ha]%Hmem.
  - intros e He. specialize (Hsat e He). eapply sat_subset; [|exact Hsat]. by intros a [Ha _]%Hmem.
Qed.


(** *** Propositions *)


Implicit Types (p q : list (list A)).

(** Some conjunction is satisfied. *)
Definition some_sat e p : bool := existsb (sat e) p.

Lemma some_sat_lookup e p : some_sat e p = true <-> exists k c, p !! k = Some c /\ sat e c = true.
Proof.
  unfold some_sat. rewrite existsb_exists. split.
  - intros (c & Hc%list_elem_of_In%list_elem_of_lookup_1 & Hs). destruct Hc as [k Hk]. by exists k, c.
  - intros (k & c & Hk & Hs). exists c. split; [|done]. apply list_elem_of_In. by eapply list_elem_of_lookup_2.
Qed.

Lemma some_sat_elem e p : some_sat e p = true <-> exists c, c ∈ p /\ sat e c = true.
Proof.
  rewrite some_sat_lookup. split.
  - intros (k & c & Hk & Hs). exists c. split; [by eapply list_elem_of_lookup_2 | done].
  - intros (c & [k Hk]%list_elem_of_lookup_1 & Hs). by exists k, c.
Qed.

Lemma some_sat_insert e p i j a b b' :
  p !! i = Some a -> p !! j = Some b -> i <> j ->
  sat e a || sat e b' = sat e a || sat e b -> some_sat e (<[j := b']> p) = some_sat e p.
Proof.
  intros Hi Hj Hne Heq. apply eq_true_iff_eq. rewrite !some_sat_lookup.
  assert (Hlt : j < length p) by (by apply lookup_lt_Some in Hj).
  split; intros (k & c & Hk & Hs); destruct (decide (k = j)) as [->|Hkj].
  - rewrite list_lookup_insert_eq in Hk by done. injection Hk as ->.
    rewrite Hs, orb_true_r in Heq. symmetry in Heq. apply orb_true_iff in Heq as [Ha|Hb]; eauto.
  - rewrite list_lookup_insert_ne in Hk by done. eauto.
  - assert (c = b) as -> by congruence. rewrite Hs, orb_true_r in Heq.
    apply orb_true_iff in Heq as [Ha|Hb].
    + exists i, a. by rewrite list_lookup_insert_ne.
    + exists j, b'. by rewrite list_lookup_insert_eq.
  - exists k, c. by rewrite list_lookup_insert_ne.
Qed.

(** A proposition other than truth and falsehood *)
Definition proper p : Prop := Forall conj_ok p.

(** What a simplification step preserves, and when it removes an atom *)
Record step p p' (ch : bool) : Prop := {
  st_length : length p' = length p;
  st_proper : proper p';
  st_sat e : some_sat e p' = some_sat e p;
  st_size : size p' + (if ch then 1 else 0) <= size p
}.

Lemma step_refl p : proper p -> step p p false.
Proof. split; auto. lia. Qed.

Lemma step_trans p p' p'' ch ch' : step p p' ch -> step p' p'' ch' -> step p p'' (ch || ch').
Proof.
  intros [L P S Z] [L' P' S' Z']. split; [congruence | done | congruence |].
  destruct ch, ch'; cbn in *; lia.
Qed.

(** Replacing conjunction [b] by a smaller one that is equivalent beside [a] *)
Lemma step_insert p i j a b b' (ch : bool) :
  proper p -> p !! i = Some a -> p !! j = Some b -> i <> j -> conj_ok b' ->
  (forall e, sat e a || sat e b' = sat e a || sat e b) ->
  length b' + (if ch then 1 else 0) <= length b ->
  step p (<[j := b']> p) ch.
Proof.
  intros Hp Hi Hj Hne Hb' Hs Hl. split.
  - apply length_insert.
  - by apply Forall_insert.
  - intros e. by apply (some_sat_insert e p i j a b).
  - unfold size. pose proof (sum_list_insert length p j b' b Hj). lia.
Qed.

Lemma sat_middle e c i x : c !! i = Some x -> sat e c = holds e x && sat e (RemoveAt c i).
Proof.
  intros Hi. rewrite <- (take_drop_middle c i x Hi) at 1. unfold RemoveAt, sat.
  pose proof (lookup_lt_Some _ _ _ Hi). destruct (Nat.leb_spec (length c) i); [lia|].
  rewrite !forallb_app. cbn. by destruct (holds e x), (forallb _ (take i c)).
Qed.

Lemma RemoveAt_length {X} (l : list X) i x : l !! i = Some x -> length (RemoveAt l i) + 1 = length l.
Proof.
  intros Hi. unfold RemoveAt. pose proof (lookup_lt_Some _ _ _ Hi).
  destruct (Nat.leb_spec (length l) i); [lia|]. rewrite length_app, length_take, length_drop. lia.
Qed.

Lemma RemoveAt_subset {X} (l : list X) index x : x ∈ RemoveAt l index -> x ∈ l.
Proof.
  unfold RemoveAt. destruct (_ <=? _); [done|]. intros [Hx|Hx]%elem_of_app.
  - rewrite <- (take_drop index l), elem_of_app. by left.
  - rewrite <- (take_drop (S index) l), elem_of_app. by right.
Qed.

(** [unit] is the conjunction of one atom, [a]; removing its negation from [c]. *)
Lemma Remove_spec c d ok a :
  conj_ok c -> 2 <= length c -> Remove c (Negate a) = (d, ok) ->
  if ok then conj_ok d /\ length d + 1 = length c /\
             forall e, sat e [a] || sat e d = sat e [a] || sat e c
  else True.
Proof.
  intros (Hne & Hs & Hok & Ht) Hlen. unfold Remove.
  destruct (Find c (Negate a)) as [i|] eqn:Hf; intros [= <- <-]; [|done].
  apply Find_sound in Hf. pose proof (RemoveAt_length c i _ Hf) as Hl.
  split; [|split; [done|]].
  - split; [intros Hnil; rewrite Hnil in Hl; cbn in Hl; lia|].
    split; [by apply RemoveAt_sorted|]. rewrite !Forall_forall in *.
    split; intros x Hx%RemoveAt_subset; auto.
  - intros e. rewrite (sat_middle e c i _ Hf), Negate_holds. unfold sat at 1 3. cbn.
    by destruct (holds e a).
Qed.

Lemma slice_get_lookup {X} (l : list X) i x : l !! i = Some x -> slice_get l i = Ok x.
Proof. apply slice_get_ok. Qed.

Lemma unitPropagation_spec p i j :
  proper p -> i < j < length p ->
  exists p' ch taut, unitPropagation p i j = Ok (p', ch, taut) /\
    if taut : bool then forall e, some_sat e p = true else step p p' ch.
Proof.
  intros Hp Hij.
  destruct (lookup_lt_is_Some_2 p i ltac:(lia)) as [c Hc], (lookup_lt_is_Some_2 p j ltac:(lia)) as [d Hd].
  pose proof (proj1 (Forall_lookup _ _) Hp i c Hc) as Hcok.
  pose proof (proj1 (Forall_lookup _ _) Hp j d Hd) as Hdok.
  unfold unitPropagation. rewrite (slice_get_lookup _ _ _ Hc), (slice_get_lookup _ _ _ Hd). cbn [mbind result_bind].
  assert (Hnone : exists p' ch taut, Ok (p, false, false) = Ok (p', ch, taut) /\
    if taut : bool then forall e, some_sat e p = true else step p p' ch).
  { exists p, false, false. split; [done | by apply step_refl]. }
  destruct c as [|a [|a' c]], d as [|b [|b' d]]; try exact Hnone.
  - exists p, false, (is_eq (Cmp a (Negate b))). split; [done|].
    destruct (Cmp a (Negate b)) eqn:Hcmp; cbn; [|by apply step_refl..].
    apply Cmp_eq in Hcmp as ->. intros e. apply some_sat_lookup.
    destruct (holds e b) eqn:Hh.
    + exists j, [b]. split; [done|]. cbn. by rewrite Hh.
    + exists i, [Negate b]. split; [done|]. cbn. by rewrite Negate_holds, Hh.
  - destruct (Remove (b :: b' :: d) (Negate a)) as [k ok] eqn:Hr.
    apply Remove_spec in Hr; [|done|cbn; lia]. destruct ok; [|done].
    destruct Hr as (Hk & Hl & Hs). eexists _, true, false. split; [done|].
    apply (step_insert p i j [a] _ k true Hp Hc Hd); [lia | done | done | lia].
  - destruct (Remove (a :: a' :: c) (Negate b)) as [k ok] eqn:Hr.
    apply Remove_spec in Hr; [|done|cbn; lia]. destruct ok; [|done].
    destruct Hr as (Hk & Hl & Hs). eexists _, true, false. split; [done|].
    apply (step_insert p j i [b] _ k true Hp Hd Hc); [lia | done | done | lia].
Qed.

Lemma Implies_spec c d :
  sorted c -> Implies c d = true ->
  length c <= length d /\ forall e, sat e d = true -> sat e c = true.
Proof.
  intros Hs. unfold Implies. rewrite forallb_forall. intros Hall.
  assert (Hsub : forall a, a ∈ c -> a ∈ d).
  { intros a Ha. apply Contains_sound, Hall. by apply list_elem_of_In. }
  split; [by apply sorted_subset_length | intros e; by apply sat_subset].
Qed.

Lemma simplifyConjuncts_spec p i j :
  proper p -> i < j < length p ->
  exists p' ch taut, simplifyConjuncts p i j = Ok (p', ch, taut) /\
    if taut : bool then forall e, some_sat e p = true else step p p' ch.
Proof.
  intros Hp Hij. unfold simplifyConjuncts.
  destruct (unitPropagation_spec p i j Hp Hij) as (p' & ch & taut & -> & Hu). cbn [mbind result_bind].
  destruct taut; [by exists p', ch, true|].
  pose proof (st_proper _ _ _ Hu) as Hp'. pose proof (st_length _ _ _ Hu) as Hl.
  destruct (lookup_lt_is_Some_2 p' i ltac:(lia)) as [c Hc], (lookup_lt_is_Some_2 p' j ltac:(lia)) as [d Hd].
  pose proof (proj1 (Forall_lookup _ _) Hp' i c Hc) as Hcok.
  pose proof (proj1 (Forall_lookup _ _) Hp' j d Hd) as Hdok.
  rewrite (slice_get_lookup _ _ _ Hc), (slice_get_lookup _ _ _ Hd). cbn [mbind result_bind].
  assert (Habsorb : forall c d e, (sat e d = true -> sat e c = true) -> sat e c || sat e c = sat e c || sat e d).
  { intros c0 d0 e Himp. destruct (sat e c0); [done|]. destruct (sat e d0); [by apply Himp | done]. }
  rewrite <- (orb_false_r ch).
  destruct (Implies c d) eqn:Hcd, (Implies d c) eqn:Hdc; cbn [andb negb];
    (eexists _, _, false; split; [reflexivity|]); rewrite ?orb_false_r in *.
  - done.
  - apply Implies_spec in Hcd as [Hlen Himp]; [|apply Hcok].
    rewrite <- (orb_false_r ch). apply (step_trans _ _ _ _ _ Hu).
    apply (step_insert p' i j c d c false Hp' Hc Hd); [lia | done | auto | lia].
  - apply Implies_spec in Hdc as [Hlen Himp]; [|apply Hdok].
    rewrite <- (orb_false_r ch). apply (step_trans _ _ _ _ _ Hu).
    apply (step_insert p' j i d c d false Hp' Hd Hc); [lia | done | auto | lia].
  - done.
Qed.

Lemma pairs_of_elem n i j : (i, j) ∈ pairs_of n -> i < j < n.
Proof.
  unfold pairs_of. rewrite list_elem_of_bind. intros (k & Hk & Hin).
  apply list_elem_of_fmap in Hk as (l & [= -> ->] & Hl). apply elem_of_seq in Hl, Hin. lia.
Qed.

Lemma round_loop_spec pairs p ch :
  proper p -> (forall i j, (i, j) ∈ pairs -> i < j < length p) ->
  exists r, round_loop pairs p ch = Ok r /\
    match r with
    | None => forall e, some_sat e p = true
    | Some (p', ch') => exists b : bool, step p p' b /\ ch' = ch || b
    end.
Proof.
  revert p ch. induction pairs as [|[i j] pairs IH]; intros p ch Hp Hin; cbn [round_loop].
  { exists (Some (p, ch)). split; [done|]. exists false. split; [by apply step_refl | by rewrite orb_false_r]. }
  destruct (simplifyConjuncts_spec p i j Hp) as (p' & c & taut & -> & Hs); [apply Hin; by left|].
  cbn [mbind result_bind]. destruct taut; [by exists None|].
  destruct (IH p' (ch || c) (st_proper _ _ _ Hs)) as (r & Hr & Hspec).
  { intros i' j' Hij. rewrite (st_length _ _ _ Hs). apply Hin. by right. }
  exists r. split; [done|]. destruct r as [[p'' ch'']|].
  - destruct Hspec as (c' & Hs' & ->). exists (c || c').
    split; [by eapply step_trans | by rewrite orb_assoc].
  - intros e. by rewrite <- (st_sat _ _ _ Hs).
Qed.

Lemma simplify_loop_spec fuel p :
  proper p -> size p < fuel ->
  exists r, simplify_loop fuel p = Ok r /\
    match r with
    | None => forall e, some_sat e p = true
    | Some p' => proper p' /\ length p' = length p /\ forall e, some_sat e p' = some_sat e p
    end.
Proof.
  revert p. induction fuel as [|fuel IH]; intros p Hp Hf; [lia|]. cbn [simplify_loop].
  destruct (round_loop_spec (pairs_of (length p)) p false Hp) as (r & -> & Hr).
  { intros i j. apply pairs_of_elem. }
  destruct r as [[p' ch]|]; [|by exists None]. destruct Hr as (c & [L P S Z] & ->). cbn [orb].
  destruct c; [|by exists (Some p')].
  destruct (IH p' P) as (r & Hr & Hspec); [lia|]. exists r. split; [done|].
  destruct r as [p''|].
  - destruct Hspec as (P' & L' & S'). split; [done|]. split; [congruence | congruence].
  - intros e. by rewrite <- S.
Qed.

(** The representation of propositions: truth, falsehood, or a sorted set of
    non-empty conjunctions; and its truth value. *)
Definition prop_ok p : Prop := p = Truth true \/ p = Truth false \/ (p <> [] /\ sorted p /\ proper p).

Definition eval e p : bool := IsTrue p || (negb (IsFalse p) && some_sat e p).

Lemma eval_true e : eval e (Truth true) = true.
Proof. done. Qed.

Lemma eval_false e : eval e (Truth false) = false.
Proof. done. Qed.

Lemma proper_flags p : p <> [] -> proper p -> IsTrue p = false /\ IsFalse p = false.
Proof.
  intros Hne Hp. destruct p as [|c [|d p]]; [done| |done]. split; [done|]. cbn.
  destruct c; [|done]. inversion Hp as [|?? (Hc & _) _]; by destruct Hc.
Qed.

Lemma eval_proper e p : p <> [] -> proper p -> eval e p = some_sat e p.
Proof. intros Hne Hp. unfold eval. by destruct (proper_flags p Hne Hp) as [-> ->]. Qed.

Lemma proper_subset p q : (forall c, c ∈ p -> c ∈ q) -> proper q -> proper p.
Proof. unfold proper. rewrite !Forall_forall. auto. Qed.

Lemma some_sat_ext e p q : (forall c, c ∈ p <-> c ∈ q) -> some_sat e p = some_sat e q.
Proof. intros Hpq. apply eq_true_iff_eq. rewrite !some_sat_elem. by setoid_rewrite Hpq. Qed.

Lemma simplify_spec p :
  p <> [] -> proper p ->
  exists q, simplify p = Ok q /\ prop_ok q /\ forall e, eval e q = some_sat e p.
Proof.
  intros Hne Hp. unfold simplify.
  destruct (simplify_loop_spec (S (size p)) p Hp) as (r & -> & Hr); [lia|]. cbn [mbind result_bind].
  destruct r as [p'|].
  - destruct Hr as (Hp' & Hl & Hs). eexists. split; [reflexivity|].
    destruct (RawAnySortedSet_spec p') as [Hsorted Hel].
    assert (RawAnySortedSet p' <> []) as Hne'.
    { destruct p' as [|c p']; [by destruct p|]. intros Hnil.
      apply (not_elem_of_nil c). rewrite <- Hnil. apply Hel. by left. }
    assert (proper (RawAnySortedSet p')) as Hpr by (by apply (proper_subset _ p'); [intros c; apply Hel|]).
    split; [right; right; done|]. intros e. rewrite eval_proper by done. rewrite <- Hs.
    by apply some_sat_ext.
  - exists (Truth true). split; [done|]. split; [by left|]. intros e. by rewrite Hr.
Qed.

Lemma some_sat_app e p q r :
  (forall c, c ∈ r <-> c ∈ p \/ c ∈ q) -> some_sat e r = some_sat e p || some_sat e q.
Proof.
  intros Hr. apply eq_true_iff_eq. rewrite orb_true_iff, !some_sat_elem. split.
  - intros (c & [Hc|Hc]%Hr & Hs); eauto.
  - intros [(c & Hc & Hs)|(c & Hc & Hs)]; exists c; (split; [apply Hr; tauto | done]).
Qed.

Lemma Or_spec p q :
  prop_ok p -> prop_ok q ->
  exists r, Or p q = Ok r /\ prop_ok r /\ forall e, eval e r = eval e p || eval e q.
Proof.
  intros Hp Hq. unfold Or.
  destruct Hp as [->|[->|(Hp0 & Hps & Hpp)]].
  { exists (Truth true). split; [done|]. split; [by left | done]. }
  { destruct (IsTrue q) eqn:Hq'.
    - destruct q; [|done]. exists (Truth true). split; [done|]. split; [by left | done].
    - by exists q. }
  destruct (proper_flags p Hp0 Hpp) as [-> ->].
  destruct Hq as [->|[->|(Hq0 & Hqs & Hqp)]].
  { exists (Truth true). split; [done|]. split; [by left|]. intros e. by rewrite orb_true_r. }
  { exists p. split; [done|]. split; [by right; right|]. intros e. by rewrite orb_false_r. }
  destruct (proper_flags q Hq0 Hqp) as [-> ->]. cbn [orb].
  destruct (InsertSorted_spec [] [] p) as (d & -> & Hds & Hd); [constructor | done |].
  destruct (InsertSorted_spec [] d q Hds Hqs) as (d' & Hd' & Hds' & Hel). cbn [mbind result_bind].
  rewrite Hd'. cbn [mbind result_bind].
  assert (Hel' : forall c, c ∈ d' <-> c ∈ p \/ c ∈ q).
  { intros c. rewrite Hel, Hd, elem_of_nil. tauto. }
  destruct (simplify_spec d') as (r & Hr & Hok & Hev).
  - destruct p as [|c p]; [done|]. intros ->. apply (not_elem_of_nil c), Hel'. left. by left.
  - unfold proper in *. rewrite Forall_forall in *. intros c [Hc|Hc]%Hel'; auto.
  - exists r. split; [done|]. split; [done|]. intros e.
    rewrite Hev, !eval_proper by done. by apply some_sat_app.
Qed.

(** *** Conjunction and negation *)

(** [zero] is only a filler of freshly allocated arrays. *)
Lemma and_conj_ok zero c d :
  conj_ok c -> conj_ok d ->
  exists n1 n2, InsertSorted zero [] c = Ok n1 /\ InsertSorted zero n1 d = Ok n2 /\ conj_ok n2 /\
    forall e, sat e n2 = sat e c && sat e d.
Proof.
  intros (Hc0 & Hcs & Hcok & Hct) (Hd0 & Hds & Hdok & Hdt).
  destruct (InsertSorted_spec zero [] c) as (n1 & Hn1 & Hs1 & H1); [constructor | done |].
  destruct (InsertSorted_spec zero n1 d Hs1 Hds) as (n2 & Hn2 & Hs2 & H2).
  assert (Hel : forall a, a ∈ n2 <-> a ∈ c \/ a ∈ d).
  { intros a. rewrite H2, H1, elem_of_nil. tauto. }
  exists n1, n2. split; [done|]. split; [done|]. split.
  - rewrite Forall_forall in Hcok, Hct, Hdok, Hdt. split.
    { destruct c as [|a c]; [done|]. intros ->. apply (not_elem_of_nil a), Hel. left. by left. }
    split; [done|]. rewrite !Forall_forall. split; intros a [Ha|Ha]%Hel; auto.
  - intros e. apply eq_true_iff_eq. rewrite andb_true_iff, !sat_elem. setoid_rewrite Hel. firstorder.
Qed.

Lemma and_loop_spec zero c o disjuncts :
  conj_ok c -> Forall conj_ok o -> sorted disjuncts -> proper disjuncts ->
  exists r, and_loop rounds zero c o disjuncts = Ok r /\ sorted r /\ proper r /\
    forall e, some_sat e disjuncts || (sat e c && some_sat e o) = true -> some_sat e r = true.
Proof.
  revert disjuncts. induction o as [|d o IH]; intros disjuncts Hc Ho Hs Hp; cbn [and_loop].
  { exists disjuncts. repeat split; try done. intros e. cbn. by rewrite andb_false_r, orb_false_r. }
  apply Forall_cons in Ho as [Hd Ho].
  destruct (and_conj_ok zero c d Hc Hd) as (n1 & n2 & -> & Hn2 & (H20 & H2s & H2ok & H2t) & Hsat).
  cbn [mbind result_bind]. rewrite Hn2. cbn [mbind result_bind].
  destruct (simplify_conjunction_spec n2 H2s H2ok H2t H20) as (r & -> & Hr). cbn [mbind result_bind].
  destruct r as [nc|].
  - destruct Hr as [Hok Himp].
    destruct (IH (Insert disjuncts nc) Hc Ho) as (r & Hr' & Hrs & Hrp & Hre).
    + by apply Insert_sorted.
    + unfold proper in *. rewrite Forall_forall in *. intros x [->|Hx]%Insert_elem; auto.
    + exists r. repeat split; try done. intros e He. apply Hre.
      assert (some_sat e (Insert disjuncts nc) = some_sat e [nc] || some_sat e disjuncts) as ->.
      { apply some_sat_app. intros x. rewrite Insert_elem, list_elem_of_singleton by done. done. }
      change (some_sat e (d :: o)) with (sat e d || some_sat e o) in He.
      change (some_sat e [nc]) with (sat e nc || false).
      rewrite andb_orb_distrib_r, <- Hsat in He.
      destruct (sat e n2) eqn:Hn; [by rewrite Himp|].
      by destruct (sat e nc), (some_sat e disjuncts).
  - destruct (IH disjuncts Hc Ho Hs Hp) as (r & Hr' & Hrs & Hrp & Hre).
    exists r. repeat split; try done. intros e He. apply Hre.
    change (some_sat e (d :: o)) with (sat e d || some_sat e o) in He.
    by rewrite andb_orb_distrib_r, <- Hsat, Hr in He.
Qed.

Lemma andConjunct_spec zero c o :
  conj_ok c -> Forall conj_ok o ->
  exists r, andConjunctProposition rounds zero c o = Ok r /\ prop_ok r /\
    forall e, sat e c && some_sat e o = true -> eval e r = true.
Proof.
  intros Hc Ho. unfold andConjunctProposition.
  destruct (and_loop_spec zero c o [] Hc Ho) as (r & -> & Hs & Hp & Hr); [constructor | constructor |].
  cbn [mbind result_bind]. destruct r as [|d r].
  - exists (Truth false). split; [done|]. split; [by right; left|]. intros e He. by specialize (Hr e He).
  - exists (d :: r). split; [done|]. split; [right; right; done|]. intros e He.
    rewrite eval_proper by done. by apply Hr.
Qed.

(** The folds of [And] and [Negate]: [g] bounds the value of each element, and
    [op] combines the bounds with [comb]. *)
Lemma fold_from_spec {X} (f : X -> result (list (list A))) op (P : X -> Prop) (g : Env -> X -> bool) comb br (l : list X) :
  (forall x, P x -> exists r, f x = Ok r /\ prop_ok r /\ forall e, g e x = true -> eval e r = true) ->
  (forall p q, prop_ok p -> prop_ok q -> exists r, op p q = Ok r /\ prop_ok r /\
     forall e, comb (eval e p) (eval e q) = true -> eval e r = true) ->
  (forall a b a' b', (a = true -> a' = true) -> (b = true -> b' = true) ->
     comb a b = true -> comb a' b' = true) ->
  Forall P l -> prop_ok br ->
  exists r, fold_from f op br l = Ok r /\ prop_ok r /\
    forall e b, (b = true -> eval e br = true) -> foldl (fun b x => comb b (g e x)) b l = true ->
      eval e r = true.
Proof.
  intros Hf Hop Hmono. revert br. induction l as [|x l IH]; intros br HP Hbr; cbn [fold_from].
  { exists br. split; [done|]. split; [done|]. auto. }
  apply Forall_cons in HP as [Hx HP].
  destruct (Hf x Hx) as (i & -> & Hi & Hgi). cbn [mbind result_bind].
  destruct (Hop br i Hbr Hi) as (br' & -> & Hbr' & Hcomb). cbn [mbind result_bind].
  destruct (IH br' HP Hbr') as (r & Hr & Hok & Hev). exists r. split; [done|]. split; [done|].
  intros e b Hb Hfold. cbn in Hfold. apply (Hev e (comb b (g e x))); [|done].
  intros Hc. apply Hcomb. by apply (Hmono b (g e x)); [| apply Hgi |].
Qed.

Lemma fold_first_spec {X} (f : X -> result (list (list A))) op (P : X -> Prop) (g : Env -> X -> bool) comb x (l : list X) :
  (forall x, P x -> exists r, f x = Ok r /\ prop_ok r /\ forall e, g e x = true -> eval e r = true) ->
  (forall p q, prop_ok p -> prop_ok q -> exists r, op p q = Ok r /\ prop_ok r /\
     forall e, comb (eval e p) (eval e q) = true -> eval e r = true) ->
  (forall a b a' b', (a = true -> a' = true) -> (b = true -> b' = true) ->
     comb a b = true -> comb a' b' = true) ->
  Forall P (x :: l) ->
  exists r, fold_first f op (x :: l) = Ok r /\ prop_ok r /\
    forall e, foldl (fun b x => comb b (g e x)) (g e x) l = true -> eval e r = true.
Proof.
  intros Hf Hop Hmono [Hx HP]%Forall_cons. cbn [fold_first].
  destruct (Hf x Hx) as (i & -> & Hi & Hgi). cbn [mbind result_bind].
  destruct (fold_from_spec f op P g comb i l Hf Hop Hmono HP Hi) as (r & Hr & Hok & Hev).
  exists r. split; [done|]. split; [done|]. intros e. apply Hev. apply Hgi.
Qed.

Lemma foldl_orb {X} (g : X -> bool) (l : list X) b : foldl (fun b x => b || g x) b l = b || existsb g l.
Proof. revert b. induction l as [|x l IH]; intros b; cbn; [by rewrite orb_false_r|]. by rewrite IH, orb_assoc. Qed.

Lemma foldl_andb {X} (g : X -> bool) (l : list X) b : foldl (fun b x => b && g x) b l = b && forallb g l.
Proof. revert b. induction l as [|x l IH]; intros b; cbn; [by rewrite andb_true_r|]. by rewrite IH, andb_assoc. Qed.

Lemma orb_mono a b a' b' : (a = true -> a' = true) -> (b = true -> b' = true) -> a || b = true -> a' || b' = true.
Proof. destruct a, b; cbn; intros Ha Hb; rewrite ?Ha, ?Hb by done; try done; by destruct a'. Qed.

Lemma andb_mono a b a' b' : (a = true -> a' = true) -> (b = true -> b' = true) -> a && b = true -> a' && b' = true.
Proof. destruct a, b; cbn; intros Ha Hb; rewrite ?Ha, ?Hb by done; done. Qed.

Lemma Or_upper p q : prop_ok p -> prop_ok q ->
  exists r, Or p q = Ok r /\ prop_ok r /\ forall e, eval e p || eval e q = true -> eval e r = true.
Proof.
  intros Hp Hq. destruct (Or_spec p q Hp Hq) as (r & Hr & Hok & He). exists r.
  repeat split; try done. intros e. by rewrite He.
Qed.

Lemma And_spec zero p q :
  prop_ok p -> prop_ok q ->
  exists r, And rounds zero p q = Ok r /\ prop_ok r /\
    forall e, eval e p && eval e q = true -> eval e r = true.
Proof.
  intros Hp Hq. unfold And.
  destruct Hp as [->|[->|(Hp0 & Hps & Hpp)]].
  { cbn [IsFalse Truth orb]. destruct (IsFalse q) eqn:Hf.
    - destruct q as [|[] []]; try done. exists (Truth false). split; [done|]. split; [by right; left | done].
    - by exists q. }
  { exists (Truth false). split; [done|]. split; [by right; left | done]. }
  destruct (proper_flags p Hp0 Hpp) as [-> ->]. cbn [orb].
  destruct Hq as [->|[->|(Hq0 & Hqs & Hqp)]].
  { exists p. split; [done|]. split; [by right; right|]. intros e. by rewrite andb_true_r. }
  { exists (Truth false). split; [done|]. split; [by right; left|]. intros e. by rewrite andb_false_r. }
  destruct (proper_flags q Hq0 Hqp) as [-> ->]. destruct p as [|c p]; [done|].
  destruct (fold_first_spec (fun d => andConjunctProposition rounds zero d q) Or conj_ok
    (fun e d => sat e d && some_sat e q) orb c p) as (r & Hr & Hok & Hev).
  - intros d Hd. by apply andConjunct_spec.
  - apply Or_upper.
  - apply orb_mono.
  - done.
  - exists r. split; [done|]. split; [done|]. intros e. rewrite !eval_proper by done. intros Hboth.
    apply Hev. rewrite foldl_orb. apply andb_true_iff in Hboth as [Hp' Hq']. rewrite Hq'.
    change (some_sat e (c :: p)) with (sat e c || some_sat e p) in Hp'. rewrite andb_true_r.
    destruct (sat e c); [done|]. cbn in Hp' |- *. etransitivity; [|exact Hp'].
    unfold some_sat. clear. induction p as [|d p IH]; [done|]. cbn. by rewrite IH; destruct (sat e d).
Qed.

(** Negating a conjunction is exact. *)
Lemma NewProposition_spec a :
  atom_ok a -> prop_ok (NewProposition a) /\ forall e, eval e (NewProposition a) = holds e a.
Proof.
  intros Ha. unfold NewProposition. destruct (Is true a) eqn:Ht.
  { split; [by left|]. intros e. symmetry. by apply (Is_holds e true). }
  destruct (Is false a) eqn:Hf.
  { split; [by right; left|]. intros e. symmetry. by apply (Is_holds e false). }
  change (Insert [] (Insert [] a)) with [[a]]. assert (proper [[a]]) as Hp.
  { constructor; [|constructor]. split; [done|]. split; [repeat constructor|]. by repeat constructor. }
  split; [right; right; split; [done|]; split; [repeat constructor | done]|].
  intros e. rewrite eval_proper by done. cbn. by rewrite andb_true_r, orb_false_r.
Qed.

Lemma negateConjunct_spec c :
  conj_ok c ->
  exists r, negateConjunct c = Ok r /\ prop_ok r /\ forall e, sat e c = false -> eval e r = true.
Proof.
  intros (Hc0 & _ & Hok & _). destruct c as [|a c]; [done|]. unfold negateConjunct.
  destruct (fold_first_spec (fun a => Ok (NewProposition (Negate a))) Or atom_ok
    (fun e a => negb (holds e a)) orb a c) as (r & Hr & Hrok & Hev).
  - intros b Hb. destruct (NewProposition_spec (Negate b) (Negate_ok b Hb)) as [Hn Hne].
    eexists. split; [done|]. split; [done|]. intros e. by rewrite Hne, Negate_holds.
  - apply Or_upper.
  - apply orb_mono.
  - done.
  - exists r. split; [done|]. split; [done|]. intros e Hs. apply Hev. rewrite foldl_orb.
    unfold sat in Hs. cbn in Hs. destruct (holds e a); [|done]. cbn in Hs |- *.
    clear -Hs. induction c as [|b c IH]; cbn in *; [done|]. by destruct (holds e b); cbn in *; [apply IH|].
Qed.

Lemma Negate_spec zero p :
  prop_ok p ->
  exists r, Negate_ rounds zero p = Ok r /\ prop_ok r /\ forall e, eval e p = false -> eval e r = true.
Proof.
  unfold Negate_. intros [->|[->|(Hp0 & Hps & Hpp)]].
  { exists (Truth false). split; [done|]. split; [by right; left | done]. }
  { exists (Truth true). split; [done|]. split; [by left | done]. }
  destruct (proper_flags p Hp0 Hpp) as [-> ->]. destruct p as [|c p]; [done|].
  destruct (fold_first_spec negateConjunct (And rounds zero) conj_ok
    (fun e d => negb (sat e d)) andb c p) as (r & Hr & Hok & Hev).
  - intros d Hd. destruct (negateConjunct_spec d Hd) as (r & Hr & Hok & Hev). exists r.
    repeat split; try done. intros e He. apply Hev. by destruct (sat e d).
  - intros a b Ha Hb. by apply And_spec.
  - apply andb_mono.
  - done.
  - exists r. split; [done|]. split; [done|]. intros e. rewrite eval_proper by done. intros He.
    apply Hev. rewrite foldl_andb. unfold some_sat in He. cbn in He.
    apply orb_false_iff in He as [-> He]. cbn. clear -He.
    induction p as [|d p IH]; cbn in *; [done|]. apply orb_false_iff in He as [-> He]. by apply IH.
Qed.

End LogicalFacts.

(** ** Equalities are atoms *)

Module EqualityFacts.
Import Equality.
Section EqualityFacts.
Context {I : Type} `{!Comparable I, !CmpLaws I}.
Implicit Types (p o : Equality.t I) (x y : I).

Lemma cmpRhs_eq (l r : I + Z) : cmpRhs l r = Eq <-> l = r.
Proof. destruct l as [x|c], r as [y|d]; cbn; rewrite ?Cmp_eq; split; congruence. Qed.

Lemma cmpRhs_anti (l r : I + Z) : cmpRhs r l = CompOpp (cmpRhs l r).
Proof. destruct l as [x|c], r as [y|d]; cbn; try done; apply Cmp_anti. Qed.

Lemma cmpRhs_trans (l m r : I + Z) : cmpRhs l m = Lt -> cmpRhs m r = Lt -> cmpRhs l r = Lt.
Proof. destruct l, m, r; cbn; try done; apply Cmp_trans. Qed.

Lemma t_Cmp p o :
  Cmp p o = match Sign p, Sign o with
            | true, false => Lt
            | false, true => Gt
            | _, _ => match Cmp (Left p) (Left o) with Eq => cmpRhs (Right p) (Right o) | c => c end
            end.
Proof. done. Qed.

#[export] Instance t_CmpLaws : CmpLaws (Equality.t I).
Proof.
  split.
  - intros [s l r] [s' l' r']. rewrite t_Cmp. cbn [Sign Left Right]. destruct s, s'; try (split; [done | congruence]);
      (destruct (Cmp l l') eqn:Hc; [apply Cmp_eq in Hc as ->; rewrite cmpRhs_eq; split; congruence | |];
       (split; [done|]; intros [= -> ->]; by rewrite Cmp_refl in Hc)).
  - intros [s l r] [s' l' r']. rewrite !t_Cmp. cbn [Sign Left Right]. rewrite (Cmp_anti l l'), (cmpRhs_anti r r').
    by destruct s, s', (Cmp l l').
  - intros [s l r] [s' l' r'] [s'' l'' r'']. rewrite !t_Cmp. cbn [Sign Left Right].
    assert (Hlex : match Cmp l l' with Eq => cmpRhs r r' | c => c end = Lt ->
                   match Cmp l' l'' with Eq => cmpRhs r' r'' | c => c end = Lt ->
                   match Cmp l l'' with Eq => cmpRhs r r'' | c => c end = Lt).
    { destruct (Cmp l l') eqn:H1, (Cmp l' l'') eqn:H2; try done.
      - apply Cmp_eq in H1 as ->. rewrite H2. apply cmpRhs_trans.
      - apply Cmp_eq in H1 as ->. by rewrite H2.
      - apply Cmp_eq in H2 as ->. by rewrite H1.
      - by rewrite (Cmp_trans _ _ _ H1 H2). }
    by destruct s, s', s''.
Qed.

Definition le x y : Prop := x = y \/ lt_ x y.

Lemma not_gt x y : Cmp x y <> Gt <-> le x y.
Proof.
  unfold le, lt_. destruct (Cmp x y) eqn:Hc; split; try done; try (by right).
  - left. by apply Cmp_eq.
  - intros [->|]; [by rewrite Cmp_refl in Hc | done].
Qed.

Lemma le_trans x y z : le x y -> le y z -> le x z.
Proof. intros [->|H1] [->|H2]; [by left | by right | by right | right; by apply (lt_trans _ y)]. Qed.

Lemma le_antisym x y : le x y -> le y x -> x = y.
Proof. intros [He|H1] [He'|H2]; try congruence. exfalso. by apply (lt_irrefl x), (lt_trans _ y). Qed.

Lemma le_total x y : le x y \/ lt_ y x.
Proof.
  destruct (Cmp x y) eqn:Hc; [left; left; by apply Cmp_eq | left; by right | right; by apply Cmp_gt].
Qed.

(** *** Meaning *)

Definition rhs (e : I -> Z) (r : I + Z) : Z := match r with inl x => e x | inr c => c end.

Definition holds (e : I -> Z) p : bool := eqb (Sign p) (e (Left p) =? rhs e (Right p))%Z.

Lemma Equals_holds e x y : holds e (Equals x y) = (e x =? e y)%Z.
Proof. unfold Equals, holds. destruct (is_gt _); cbn; [rewrite Z.eqb_sym|]; by destruct (_ =? _)%Z. Qed.

Lemma NotEquals_holds e x y : holds e (NotEquals x y) = negb (e x =? e y)%Z.
Proof. unfold NotEquals, holds. destruct (is_gt _); cbn; [rewrite Z.eqb_sym|]; by destruct (_ =? _)%Z. Qed.

Lemma equate_holds e l r v : holds e (equate l r v) = (rhs e l =? rhs e r)%Z.
Proof.
  destruct l as [x|c], r as [y|d]; cbn [equate rhs]; rewrite ?Equals_holds; try done.
  - unfold EqualsConst, holds. cbn. by destruct (_ =? _)%Z.
  - unfold EqualsConst, holds. cbn. rewrite Z.eqb_sym. by destruct (_ =? _)%Z.
  - destruct (Z.eqb_spec c d); rewrite ?Equals_holds, ?NotEquals_holds; by rewrite Z.eqb_refl.
Qed.

Lemma unequate_holds e l r v : holds e (unequate l r v) = negb (rhs e l =? rhs e r)%Z.
Proof.
  destruct l as [x|c], r as [y|d]; cbn [unequate rhs]; rewrite ?NotEquals_holds; try done.
  - unfold NotEqualsConst, holds. cbn. rewrite (Z.eqb_sym c). by destruct (_ =? _)%Z.
  - destruct (Z.eqb_spec c d); cbn [negb]; rewrite ?Equals_holds, ?NotEquals_holds; by rewrite Z.eqb_refl.
Qed.

(** The two ways closing over an atom changes an atom. *)
Inductive closes p o : Equality.t I -> Prop :=
  | closes_left : p <> o -> Left p = Left o -> Sign o = true ->
      closes p o (if Sign p then equate (Right p) (Right o) (Left p)
                  else unequate (Right p) (Right o) (Left p))
  | closes_right : Right p = inl (Left o) -> Sign o = true -> closes p o (mk (Sign p) (Left p) (Right o)).

Lemma CloseOver_cases p o : CloseOver p o = p \/ closes p o (CloseOver p o).
Proof.
  unfold CloseOver. destruct (Cmp p o) eqn:Hpo; cbn [is_eq]; [by left|..];
  (assert (p <> o) as Hne by (intros ->; by rewrite Cmp_refl in Hpo));
  (destruct (Cmp (Left p) (Left o)) eqn:Hl, (Sign o) eqn:Hs; cbn [is_eq andb negb];
    try (apply Cmp_eq in Hl; right; by apply closes_left);
    (destruct (Right p) as [r|c] eqn:Hr; [|by left]);
    try (by left);
    (destruct (Cmp r (Left o)) eqn:Hro; cbn [is_eq]; [|by left..];
     apply Cmp_eq in Hro as ->; right; by apply closes_right)).
Qed.

Lemma CloseOver_holds e p o : holds e o = true -> holds e (CloseOver p o) = holds e p.
Proof.
  intros Ho. destruct (CloseOver_cases p o) as [->|Hc]; [done|].
  destruct Hc as [Hne Hl Hs|Hr Hs]; unfold holds in Ho; rewrite Hs in Ho;
    apply eqb_prop in Ho; symmetry in Ho; apply Z.eqb_eq in Ho.
  - destruct (Sign p) eqn:Hp; rewrite ?equate_holds, ?unequate_holds; unfold holds; rewrite Hp, Hl, Ho; cbn.
    + rewrite Z.eqb_sym. by destruct (_ =? _)%Z.
    + rewrite Z.eqb_sym. by destruct (_ =? _)%Z.
  - unfold holds. cbn. by rewrite Hr, <- Ho.
Qed.

(** *** Termination *)

Definition atom_ok p : Prop := match Right p with inl r => le (Left p) r | inr _ => True end.

Definition core p : bool := Sign p && negb (Is true p).

Definition vars_of p : list I := Left p :: match Right p with inl r => [r] | inr _ => [] end.

Definition variables (u : list (Equality.t I)) : list I := u ≫= vars_of.

Definition in_universe (u : list (Equality.t I)) p : Prop :=
  atom_ok p /\ forall x, x ∈ vars_of p -> x ∈ variables u.

Definition rank (vs : list I) (x : I) : nat := length (List.filter (fun y => is_lt (Cmp y x)) vs).

Definition rank_rhs (vs : list I) (r : I + Z) : nat :=
  match r with inl x => rank vs x | inr _ => length vs end.

Definition span (vs : list I) : nat := S (length vs) * S (length vs).

Definition position (vs : list I) p : nat :=
  rank vs (Left p) * S (length vs) + rank_rhs vs (Right p).

Definition weight (u : list (Equality.t I)) p : nat :=
  (if Sign p then 0 else span (variables u)) + (span (variables u) - position (variables u) p).

Lemma rank_lt vs x y : x ∈ vs -> lt_ x y -> rank vs x < rank vs y.
Proof.
  intros Hx Hlt. unfold rank. induction vs as [|z vs IH]; [by apply not_elem_of_nil in Hx|].
  assert (Hle : forall l : list I, length (List.filter (fun a => is_lt (Cmp a x)) l)
                <= length (List.filter (fun a => is_lt (Cmp a y)) l)).
  { clear -Hlt CmpLaws0. induction l as [|a l IH]; cbn; [done|].
    destruct (Cmp a x) eqn:Ha; cbn; [by destruct (is_lt _); cbn; lia | | by destruct (is_lt _); cbn; lia].
    rewrite (Cmp_trans a x y) by done. cbn. lia. }
  cbn. apply elem_of_cons in Hx as [->|Hx].
  - rewrite Cmp_refl. unfold lt_ in Hlt. rewrite Hlt. cbn. specialize (Hle vs). lia.
  - specialize (IH Hx). destruct (Cmp z x) eqn:Hz; cbn;
      [by destruct (is_lt _); cbn; lia | | by destruct (is_lt _); cbn; lia].
    rewrite (Cmp_trans z x y) by done. cbn. lia.
Qed.

Lemma rank_bound vs x : rank vs x <= length vs.
Proof.
  unfold rank. induction vs as [|y vs IH]; cbn; [done|]. destruct (is_lt _); cbn; lia.
Qed.

Lemma rank_bound_in vs x : x ∈ vs -> rank vs x < length vs.
Proof.
  unfold rank. induction vs as [|y vs IH]; intros Hx; [by apply not_elem_of_nil in Hx|].
  cbn. apply elem_of_cons in Hx as [->|Hx].
  - rewrite Cmp_refl. cbn. pose proof (rank_bound vs y). unfold rank in *. lia.
  - specialize (IH Hx). destruct (is_lt _); cbn; lia.
Qed.

Lemma position_bound vs p : position vs p < span vs.
Proof.
  unfold position, span. pose proof (rank_bound vs (Left p)).
  assert (rank_rhs vs (Right p) <= length vs) by (destruct (Right p); cbn; [apply rank_bound | done]). nia.
Qed.

(** Moving the left-hand side up, or keeping it and moving the right-hand side up *)
Definition higher (vs : list I) p q : Prop :=
  rank vs (Left p) < rank vs (Left q) \/
  (Left p = Left q /\ rank_rhs vs (Right p) < rank_rhs vs (Right q)).

Lemma position_higher vs p q : higher vs p q -> position vs p < position vs q.
Proof.
  unfold position. assert (rank_rhs vs (Right p) <= length vs)
    by (destruct (Right p); cbn; [apply rank_bound | done]).
  intros [Hl|[-> Hr]]; [nia | lia].
Qed.

Lemma weight_higher u p q :
  Sign q = Sign p -> higher (variables u) p q -> weight u q < weight u p.
Proof.
  intros Hs Hh. unfold weight. rewrite Hs. apply position_higher in Hh.
  pose proof (position_bound (variables u) q). destruct (Sign p); lia.
Qed.

Lemma ordered x y : exists a b, (Equals x y = mk true a (inl b)) /\ NotEquals x y = mk false a (inl b) /\
  le a b /\ ((a = x /\ b = y) \/ (a = y /\ b = x)).
Proof.
  unfold Equals, NotEquals. destruct (Cmp x y) eqn:Hc; cbn [is_gt].
  - exists x, y. repeat split; try done; [left; by apply Cmp_eq | by left].
  - exists x, y. repeat split; try done; [by right | by left].
  - exists y, x. repeat split; try done; [right; by apply Cmp_gt | by right].
Qed.

(** The merged right-hand sides move the atom up, unless they are constants. *)
Lemma merge_higher vs s x (r r' : I + Z) q :
  x ∈ vs -> (forall y, r = inl y -> y ∈ vs) -> (forall y, r' = inl y -> y ∈ vs) ->
  (forall y, r = inl y -> le x y) -> (forall y, r' = inl y -> le x y) ->
  match r, r' with
  | inl a, inl b => q = (if s : bool then Equals a b else NotEquals a b)
  | inl a, inr c | inr c, inl a => q = mk s a (inr c)
  | inr _, inr _ => False
  end ->
  q <> mk s x r -> Sign q = s /\ atom_ok q /\ higher vs (mk s x r) q /\
  (forall y, y ∈ vars_of q -> y ∈ vs).
Proof.
  intros Hx Hr Hr' Hle Hle' Hq Hne. destruct r as [a|c], r' as [b|d]; try done.
  - specialize (Hle a eq_refl). specialize (Hle' b eq_refl). specialize (Hr a eq_refl). specialize (Hr' b eq_refl).
    destruct (ordered a b) as (l & h & H1 & H2 & Hlh & Hcase).
    assert (q = mk s l (inl h)) as -> by (subst q; destruct s; done). clear Hq H1 H2.
    assert (le x l) as Hxl by (by destruct Hcase as [[-> ->]|[-> ->]]).
    assert (l ∈ vs /\ h ∈ vs) as [Hl Hh] by (by destruct Hcase as [[-> ->]|[-> ->]]).
    split; [done|]. split; [done|]. split.
    + destruct Hxl as [<-|Hxl]; [|left; by apply rank_lt].
      right. split; [done|]. cbn. apply rank_lt; [done|].
      destruct Hcase as [[<- ->]|[<- ->]]; [|by destruct Hne].
      destruct Hlh as [<-|]; [|done]. by destruct Hne.
    + cbn. intros y [->|[->|[]%not_elem_of_nil]%elem_of_cons]%elem_of_cons; done.
  - subst q. specialize (Hle a eq_refl). specialize (Hr a eq_refl).
    split; [done|]. split; [done|]. split.
    + destruct Hle as [<-|Hlt]; [|left; by apply rank_lt].
      right. split; [done|]. cbn. by apply rank_bound_in.
    + cbn. by intros y ->%list_elem_of_singleton.
  - subst q. specialize (Hle' b eq_refl). specialize (Hr' b eq_refl).
    split; [done|]. split; [done|]. split.
    + destruct Hle' as [<-|Hlt]; [by destruct Hne | left; by apply rank_lt].
    + cbn. by intros y ->%list_elem_of_singleton.
Qed.

Lemma vars_left u p : in_universe u p -> Left p ∈ variables u.
Proof. intros [_ Hv]. apply Hv. by left. Qed.

Lemma vars_right u p y : in_universe u p -> Right p = inl y -> y ∈ variables u.
Proof. intros [_ Hv] Hr. apply Hv. unfold vars_of. rewrite Hr. right. by left. Qed.

Lemma ok_right u p y : in_universe u p -> Right p = inl y -> le (Left p) y.
Proof. intros [Hok _] Hr. unfold atom_ok in Hok. by rewrite Hr in Hok. Qed.

(** Closing over an atom either moves the atom up, or turns a disequality that
    is settled by two constants into a trivial equality. *)
Lemma closes_spec u p o q :
  in_universe u p -> in_universe u o -> closes p o q -> Is false q = false -> q <> p ->
  in_universe u q /\
  ((Sign q = Sign p /\ higher (variables u) p q) \/ (Sign p = false /\ Sign q = true)).
Proof.
  intros Hp Ho Hc Hfalse Hne.
  pose proof (vars_left u p Hp) as Hx.
  pose proof (fun y => vars_right u p y Hp) as Hr. pose proof (fun y => vars_right u o y Ho) as Hr'.
  pose proof (fun y => ok_right u p y Hp) as Hle. pose proof (fun y => ok_right u o y Ho) as Hle'.
  destruct p as [s x r], o as [s' x' r']. cbn [Sign Left Right] in *.
  destruct Hc as [Hpo Hl Hs|Hright Hs]; cbn [Sign Left Right] in *; subst s'.
  - subst x'. destruct (match r, r' with inr _, inr _ => true | _, _ => false end) eqn:Hconst.
    + destruct r as [a|c], r' as [b|d]; try done. cbn [equate unequate] in *.
      assert (NotEquals x x = mk false x (inl x) /\ Equals x x = mk true x (inl x)) as [Hn He]
        by (unfold NotEquals, Equals; by rewrite Cmp_refl).
      rewrite Hn, He in *. assert (Is false (mk false x (inl x)) = true) as Hf by (cbn; by rewrite Cmp_refl).
      destruct (Z.eqb_spec c d) as [->|]; destruct s; cbn [negb] in *; try congruence.
      split; [|by right]. split; [by left|]. cbn.
      by intros y [-> | ->%list_elem_of_singleton]%elem_of_cons.
    + destruct (merge_higher (variables u) s x r r' (if s then equate r r' x else unequate r r' x))
        as (Hs & Hok & Hh & Hv); try done.
      { by destruct r as [a|c], r' as [b|d], s. }
      split; [done | by left].
  - subst r. specialize (Hle x' eq_refl). specialize (Hr x' eq_refl).
    assert (Hv : forall y, y ∈ vars_of (mk s x r') -> y ∈ variables u).
    { cbn. intros y [->|Hy]%elem_of_cons; [done|]. destruct r' as [e|c]; [|by apply not_elem_of_nil in Hy].
      apply list_elem_of_singleton in Hy as ->. by apply Hr'. }
    split; [split; [|done]|].
    + destruct r' as [e|c]; [|done]. cbn. by apply (le_trans x x'), Hle'.
    + left. split; [done|]. right. split; [done|]. destruct r' as [e|c]; cbn; [|by apply rank_bound_in].
      apply rank_lt; [done|]. destruct (Hle' e eq_refl) as [->|]; [by destruct Hne | done].
Qed.

Lemma universe_self u p : p ∈ u -> Forall atom_ok u -> in_universe u p.
Proof.
  intros Hp Hok. split; [by eapply Forall_forall in Hok|]. intros x Hx.
  apply list_elem_of_bind. by exists p.
Qed.

Lemma universe_close u p o :
  in_universe u p -> in_universe u o -> Is false (CloseOver p o) = false -> in_universe u (CloseOver p o).
Proof.
  intros Hp Ho Hf. destruct (CloseOver_cases p o) as [->|Hc]; [done|].
  destruct (Cmp (CloseOver p o) p) eqn:He; [by apply Cmp_eq in He as ->|..];
    (eapply closes_spec; [exact Hp | exact Ho | exact Hc | exact Hf |]; intros Heq; by rewrite Heq, Cmp_refl in He).
Qed.

Lemma weight_close u p o :
  in_universe u p -> in_universe u o -> Is false (CloseOver p o) = false ->
  CloseOver p o <> p -> weight u (CloseOver p o) < weight u p.
Proof.
  intros Hp Ho Hf Hne. destruct (CloseOver_cases p o) as [|Hc]; [done|].
  destruct (closes_spec u p o _ Hp Ho Hc Hf Hne) as (_ & [[Hs Hh]|[Hs Hs']]); [by apply weight_higher|].
  unfold weight. rewrite Hs, Hs'. pose proof (position_bound (variables u) p). lia.
Qed.

Lemma core_close p o :
  atom_ok p -> atom_ok o -> core p = true -> Is false (CloseOver p o) = false -> core (CloseOver p o) = true.
Proof.
  unfold core. intros Hp Ho [Hs Ht]%andb_true_iff Hf.
  destruct (CloseOver_cases p o) as [->|Hc]; [by rewrite Hs, Ht|].
  destruct p as [s x r], o as [s' x' r']. cbn in Hs, Ht. subst s.
  assert (Hgo : forall q, Sign q = true -> (forall y, Right q = inl y -> Left q <> y) ->
    Sign q && negb (Is true q) = true).
  { intros q -> Hq. unfold Is. destruct (Sign q), (Right q) as [y|c]; cbn; try done;
      (destruct (Cmp (Left q) y) eqn:Hxy; [|done..]; apply Cmp_eq in Hxy; by destruct (Hq y eq_refl)). }
  destruct Hc as [Hpo Hl Hs|Hr Hs]; cbn [Sign Left Right] in *; subst s'.
  - subst x'. destruct r as [a|c], r' as [b|d]; cbn [equate] in *.
    + destruct (ordered a b) as (l & h & -> & _ & _ & Hcase). apply Hgo; [done|]. cbn.
      intros y [= <-] ->. by destruct Hcase as [[-> ->]|[-> ->]].
    + by apply Hgo.
    + by apply Hgo.
    + destruct (Z.eqb_spec c d) as [->|]; [done|].
      unfold NotEquals, Is in Hf. rewrite Cmp_refl in Hf. cbn in Hf. by rewrite Cmp_refl in Hf.
  - subst r. apply (Hgo (mk true x r')); [done|]. cbn. intros y -> ->. cbn in Hp, Ho, Ht.
    rewrite (le_antisym y x' Hp Ho), Cmp_refl in Ht. done.
Qed.

Lemma core_not_true p : core p = true -> Is true p = false.
Proof. unfold core. intros [_ H]%andb_true_iff. by apply negb_true_iff. Qed.

Lemma core_inert p o : core o = false -> Is true o = false -> CloseOver p o = p.
Proof.
  unfold core, CloseOver. intros Hc Ht. rewrite Ht, andb_true_r in Hc. rewrite Hc.
  destruct (is_eq (Cmp p o)); [done|]. rewrite andb_false_r. by destruct (Right p).
Qed.

Lemma Is_holds e b p : Is b p = true -> holds e p = b.
Proof.
  unfold Is, holds. intros [->%eqb_prop Hr]%andb_true_iff. destruct (Right p) as [y|c]; [|done].
  destruct (Cmp (Left p) y) eqn:Hc; try done. apply Cmp_eq in Hc as ->. cbn. rewrite Z.eqb_refl. by destruct b.
Qed.

Lemma Negate_holds e p : holds e (Negate p) = negb (holds e p).
Proof. unfold holds, Negate. cbn. by destruct (Sign p), (_ =? _)%Z. Qed.

#[export] Instance Equality_laws : AtomLaws (Equality.t I) (I -> Z) := {
  Logical.holds := holds;
  Logical.atom_ok := atom_ok;
  Logical.core := core;
  Logical.in_universe := in_universe;
  Logical.weight := weight;
  Logical.Negate_holds := Negate_holds;
  Logical.Negate_ok p H := H;
  Logical.Is_holds := Is_holds;
  Logical.CloseOver_holds := CloseOver_holds;
  Logical.universe_self := universe_self;
  Logical.universe_ok u p H := proj1 H;
  Logical.universe_close := universe_close;
  Logical.weight_close := weight_close;
  Logical.core_not_true := core_not_true;
  Logical.core_close := core_close;
  Logical.core_inert := core_inert
}.

Lemma Equals_ok x y : atom_ok (Equals x y) /\ atom_ok (NotEquals x y).
Proof. by destruct (ordered x y) as (l & h & -> & -> & Hlh & _). Qed.

End EqualityFacts.
End EqualityFacts.

(** ** Properties *)

Module LogicalProperties.
Section Properties.
Context {A Env : Type} `{!Comparable A, !CmpLaws A, !Atom A, !AtomLaws A Env}.

(** [Conjunction.simplify] terminates; it reports a contradiction only for
    conjunctions no environment satisfies, and otherwise returns a sorted,
    non-empty conjunction without trivial atoms that the original implies. *)
Theorem conjunction_simplify (c : list A) :
  conj_ok c ->
  exists r, simplify_conjunction (rounds c) c = Ok r /\
    match r with
    | None => forall e : Env, sat e c = false
    | Some d => conj_ok d /\ forall e : Env, sat e c = true -> sat e d = true
    end.
Proof. intros (Hne & Hs & Hok & Ht). by apply simplify_conjunction_spec. Qed.

(** [Or] always returns a well-formed proposition equivalent to the
    disjunction of its arguments: merging, unit propagation and absorption
    terminate and keep the meaning; and a proposition made from an atom means
    that atom. *)
Theorem proposition_or (p q : list (list A)) (a : A) :
  prop_ok p -> prop_ok q -> atom_ok a ->
  (exists r, Or p q = Ok r /\ prop_ok r /\ forall e : Env, eval e r = eval e p || eval e q) /\
  prop_ok (NewProposition a) /\ forall e : Env, eval e (NewProposition a) = holds e a.
Proof. intros Hp Hq Ha. split; [by apply Or_spec | by apply NewProposition_spec]. Qed.

(** [And] and [Negate] always return a well-formed proposition that holds
    whenever the conjunction, respectively the negation, of their arguments
    does: they never lose a reachable case. *)
Theorem proposition_and_negate (zero : A) (p q : list (list A)) :
  prop_ok p -> prop_ok q ->
  (exists r, And rounds zero p q = Ok r /\ prop_ok r /\
     forall e : Env, eval e p && eval e q = true -> eval e r = true) /\
  (exists r, Negate_ rounds zero p = Ok r /\ prop_ok r /\
     forall e : Env, eval e p = false -> eval e r = true).
Proof. intros Hp Hq. split; [by apply And_spec | by apply Negate_spec]. Qed.

End Properties.

Import Equality.
#[local] Existing Instances EqualityFacts.t_CmpLaws EqualityFacts.Equality_laws.

(** [x = y], [x = z], [x = w] over the variables 0, 1, 2, 3 *)
Definition eq_atom (x y : nat) : Equality.t nat := Equality.Equals x y.

Definition three_equalities : result (list (list (Equality.t nat))) :=
  p ← And rounds (eq_atom 0 0) (NewProposition (eq_atom 0 1)) (NewProposition (eq_atom 0 2));
  And rounds (eq_atom 0 0) p (NewProposition (eq_atom 0 3)).

(** The conjunction of [x=y], [x=z] and [x=w] loses the variable [y]: the
    result is [x=w] and [z=w], which holds in an environment where [x=y] does
    not.  An atom rewritten during its own visit is rewritten again from
    itself, and its first rewriting is overwritten. *)
Theorem and_loses_equality :
  three_equalities = Ok [[eq_atom 0 3; eq_atom 2 3]] /\
  exists env : nat -> Z,
    eval env [[eq_atom 0 3; eq_atom 2 3]] = true /\
    eval env (NewProposition (eq_atom 0 1)) = false.
Proof.
  split; [vm_compute; reflexivity|].
  exists (fun x => if x =? 1 then 1%Z else 0%Z). by split.
Qed.

(** Witnesses *)

Definition sample_conj : list (Equality.t nat) := [eq_atom 0 1; Equality.NotEqualsConst 0 5%Z].

Lemma sample_conj_ok : conj_ok sample_conj.
Proof.
  split; [done|]. split; [repeat constructor|]. split; repeat constructor; by right.
Qed.

Lemma conjunction_simplify_witness :
  exists r, simplify_conjunction (rounds sample_conj) sample_conj = Ok r /\
    match r with
    | None => forall e : nat -> Z, sat e sample_conj = false
    | Some d => conj_ok d /\ forall e : nat -> Z, sat e sample_conj = true -> sat e d = true
    end.
Proof. exact (conjunction_simplify sample_conj sample_conj_ok). Defined.

Lemma sample_prop_ok : prop_ok [[eq_atom 0 1]] /\ prop_ok [[Equality.NotEquals 0 1]].
Proof.
  split; right; right; (split; [done|]; split; [repeat constructor|]);
    (constructor; [|constructor]); (split; [done|]; split; [repeat constructor|]);
    split; repeat constructor; by right.
Qed.

Lemma sample_atom_ok : atom_ok (eq_atom 0 1).
Proof. by right. Qed.

Lemma proposition_or_witness :
  exists r, Or [[eq_atom 0 1]] [[Equality.NotEquals 0 1]] = Ok r /\ prop_ok r /\
    forall e : nat -> Z, eval e r = eval e [[eq_atom 0 1]] || eval e [[Equality.NotEquals 0 1]].
Proof.
  exact (proj1 (proposition_or _ _ (eq_atom 0 1) (proj1 sample_prop_ok) (proj2 sample_prop_ok) sample_atom_ok)).
Defined.

Lemma proposition_and_negate_witness :
  exists r, And rounds (eq_atom 0 0) [[eq_atom 0 1]] [[Equality.NotEquals 0 1]] = Ok r /\ prop_ok r /\
    forall e : nat -> Z,
      eval e [[eq_atom 0 1]] && eval e [[Equality.NotEquals 0 1]] = true -> eval e r = true.
Proof.
  exact (proj1 (proposition_and_negate (eq_atom 0 0) _ _ (proj1 sample_prop_ok) (proj2 sample_prop_ok))).
Defined.

End LogicalProperties.
