(* ===== verification/Memory.v ===== *)
(** * Memories

    Models [pkg/zkc/vm/internal/memory] and its constructors in
    [pkg/zkc/vm/memory.go]: address geometry, the array-backed memories and the
    bipartite random-access memory.  A frame is the register file of the
    executing function; [Read] returns the updated frame and [Write] the
    updated memory.  Positions and lengths are [uint64], modelled as [Z]; a
    slice grown by [expand] is zero-filled. *)

From Stdlib Require Import ZArith Lia.
From stdpp Require Import base numbers list option strings.
From S2P Require Import Prelude Word Register.

Open Scope Z_scope.

(** ** [memory.go] *)

Module Kind.
Record t : Type := mk { public : bool; static : bool; read : bool; write : bool }.

Definition IsPublic (p : t) : bool := public p.
Definition IsStatic (p : t) : bool := static p.
Definition IsReadOnly (p : t) : bool := read p && negb (write p).
Definition IsWriteOnly (p : t) : bool := negb (read p) && write p.
Definition IsReadWrite (p : t) : bool := read p && write p.

Definition PUBLIC_STATIC_MEMORY : t := mk true true true false.
Definition PRIVATE_STATIC_MEMORY : t := mk false true true false.
Definition PUBLIC_READ_ONLY_MEMORY : t := mk true false true false.
Definition PRIVATE_READ_ONLY_MEMORY : t := mk false false true false.
Definition PUBLIC_WRITE_ONCE_MEMORY : t := mk true false false true.
Definition PRIVATE_WRITE_ONCE_MEMORY : t := mk false false false true.
Definition RANDOM_ACCESS_MEMORY : t := mk false false true true.
End Kind.

(** ** Slices indexed by a [uint64] *)

Definition get64 {A} (l : list A) (i : Z) : result A :=
  if (0 <=? i) && (i <? Z.of_nat (length l)) then slice_get l (Z.to_nat i) else Fault index_panic.

Definition set64 {A} (l : list A) (i : Z) (a : A) : result (list A) :=
  if (0 <=? i) && (i <? Z.of_nat (length l)) then Ok (<[Z.to_nat i := a]> l) else Fault index_panic.

(** [expand]; [slices.Grow] panics when the growth, an [int], is negative. *)
Definition expand {A} (zero : A) (slice : list A) (n : Z) : result (list A) :=
  let m := Z.of_nat (length slice) in
  if n <=? m then Ok slice
  else if n - m <? 2 ^ 63 then Ok (slice ++ replicate (Z.to_nat (n - m)) zero)
  else Fault (Panic "cannot be negative").

Section Memory.
Context {W : Type} `{!Word W}.

(** ** [geometry.go] *)

Record Geometry : Type := mkGeometry {
  registers : list Register.t;
  numInputs : Z;
  numOutputs : Z
}.

Definition CountMatching {A} (items : list A) (predicate : A -> bool) : Z :=
  Z.of_nat (length (List.filter predicate items)).

Definition NewGeometry (regs : list Register.t) : Geometry :=
  mkGeometry regs (CountMatching regs Register.IsInput) (CountMatching regs Register.IsOutput).

Definition AddressLines (p : Geometry) : Z := numInputs p.
Definition DataLines (p : Geometry) : Z := numOutputs p.

(** One round of the loop: [index = (index << bitwidth) | component]. *)
Definition pack (index bitwidth component : Z) : Z :=
  Z.lor (u64 (Z.shiftl index bitwidth)) component.

Fixpoint decode_loop (p : Geometry) (i : nat) (index : Z) (address : list W) : result Z :=
  match address with
  | [] => Ok index
  | component :: rest =>
      r ← slice_get (registers p) i;
      bitwidth ← Register.Width r;
      c ← w_Uint64 component;
      decode_loop p (S i) (pack index bitwidth c) rest
  end.

(** [start = index * uint64(p.numOutputs)] and [start + uint64(p.numOutputs)]. *)
Definition row (p : Geometry) (index : Z) : Z * Z :=
  let start := u64 (index * numOutputs p) in (start, u64 (start + numOutputs p)).

Definition Decode (p : Geometry) (address : list W) : result (Z * Z) :=
  index ← decode_loop p 0 0 address; Ok (row p index).

Fixpoint frame_decode_loop (p : Geometry) (frame : list W) (i : nat) (index : Z) (address : list nat)
  : result Z :=
  match address with
  | [] => Ok index
  | rid :: rest =>
      r ← slice_get (registers p) i;
      bitwidth ← Register.Width r;
      component ← slice_get frame rid;
      c ← w_Uint64 component;
      frame_decode_loop p frame (S i) (pack index bitwidth c) rest
  end.

Definition FrameDecode (p : Geometry) (frame : list W) (address : list nat) : result (Z * Z) :=
  index ← frame_decode_loop p frame 0 0 address; Ok (row p index).

(** The loops of [Read] and [Write]: word [i] of the data tuple is read with
    [rd i], or written at index [at i] of the backing slice. *)
Fixpoint read_cells (rd : Z -> result W) (i : Z) (data : list nat) (frame : list W) : result (list W) :=
  match data with
  | [] => Ok frame
  | rid :: rest => v ← rd i; frame' ← slice_set frame rid v; read_cells rd (i + 1) rest frame'
  end.

Fixpoint write_cells (pos : Z -> Z) (i : Z) (data : list nat) (frame slice : list W) : result (list W) :=
  match data with
  | [] => Ok slice
  | rid :: rest =>
      v ← slice_get frame rid; slice' ← set64 slice (pos i) v; write_cells pos (i + 1) rest frame slice'
  end.

(** ** [static_array.go] *)

Record StaticArray : Type := mkStaticArray {
  kind : Kind.t;
  geometry : Geometry;
  name : string;
  data : list W
}.

Definition with_data (p : StaticArray) (d : list W) : StaticArray :=
  mkStaticArray (kind p) (geometry p) (name p) d.

Definition NewStaticArray (n : string) (k : Kind.t) (regs : list Register.t) (init : list W) : StaticArray :=
  mkStaticArray k (NewGeometry regs) n init.

Definition StaticArray_Initialise (p : StaticArray) (contents : list W) : StaticArray :=
  with_data p contents.

Definition StaticArray_Read (p : StaticArray) (frame : list W) (address datas : list nat)
  : result (list W) :=
  '(start, _) ← FrameDecode (geometry p) frame address;
  read_cells (fun i => get64 (data p) (u64 (i + start))) 0 datas frame.

Definition StaticArray_Write (p : StaticArray) (frame : list W) (address datas : list nat)
  : result StaticArray :=
  '(start, stop) ← FrameDecode (geometry p) frame address;
  d ← expand w_zero (data p) stop;
  d' ← write_cells (fun i => u64 (i + start)) 0 datas frame d;
  Ok (with_data p d').

(** [HasRegister]: the identifier of the first register with the given name. *)
Fixpoint has_register (n : string) (i : nat) (regs : list Register.t) : option nat :=
  match regs with
  | [] => None
  | r :: rest => if bool_decide (Register.name r = n) then Some i else has_register n (S i) rest
  end.

Definition HasRegister (p : Geometry) (n : string) : option nat := has_register n 0 (registers p).

(** ** [ram.go] *)

Definition ram_read (d : list W) (address : Z) : W :=
  if address <? Z.of_nat (length d) then default w_zero (d !! Z.to_nat address) else w_zero.

Definition RandomAccess_Read (p : StaticArray) (frame : list W) (address datas : list nat)
  : result (list W) :=
  '(start, _) ← FrameDecode (geometry p) frame address;
  read_cells (fun i => Ok (ram_read (data p) (u64 (i + start)))) 0 datas frame.

(** ** [bipartite_ram.go] *)

Definition TOP_POS : Z := 2 ^ 64 - 1.
Definition HALF_START : Z := TOP_POS / 2.

Record BiPartite : Type := mkBiPartite {
  bi_kind : Kind.t;
  bi_geometry : Geometry;
  bi_name : string;
  lower : list W;
  upper : list W
}.

Definition NewBiPartiteRandomAccess (n : string) (regs : list Register.t) : BiPartite :=
  mkBiPartite Kind.RANDOM_ACCESS_MEMORY (NewGeometry regs) n [] [].

Definition with_partitions (p : BiPartite) (l u : list W) : BiPartite :=
  mkBiPartite (bi_kind p) (bi_geometry p) (bi_name p) l u.

Definition BiPartite_Initialise (p : BiPartite) (contents : list W) : BiPartite :=
  with_partitions p contents [].

Definition readLower (p : BiPartite) (pos : Z) : W := ram_read (lower p) pos.

Definition readUpper (p : BiPartite) (pos : Z) : W := ram_read (upper p) (u64 (TOP_POS - pos)).

Definition BiPartite_Read (p : BiPartite) (frame : list W) (address datas : list nat)
  : result (list W) :=
  '(start, _) ← FrameDecode (bi_geometry p) frame address;
  if start <? HALF_START then
    read_cells (fun i => Ok (readLower p (u64 (start + i)))) 0 datas frame
  else
    let needed := u64 (TOP_POS - start + 1) in
    read_cells (fun i => Ok (if i <? needed then readUpper p (u64 (start + i)) else w_zero)) 0 datas frame.

Definition BiPartite_Write (p : BiPartite) (frame : list W) (address datas : list nat)
  : result BiPartite :=
  '(start, stop) ← FrameDecode (bi_geometry p) frame address;
  if start <? HALF_START then
    l ← expand w_zero (lower p) stop;
    l' ← write_cells (fun i => u64 (start + i)) 0 datas frame l;
    Ok (with_partitions p l' (upper p))
  else
    let needed := u64 (TOP_POS - start + 1) in
    u ← expand w_zero (upper p) needed;
    let n := Z.min (Z.of_nat (length datas)) needed in
    u' ← write_cells (fun i => u64 (TOP_POS - u64 (start + i))) 0 (take (Z.to_nat n) datas) frame u;
    Ok (with_partitions p (lower p) u').

(** ** The [Memory] interface

    One constructor per implementation; the embedding structures inherit the
    methods of [StaticArray] except for those they redefine. *)

Inductive Memory : Type :=
  | StaticArray_ (p : StaticArray)
  | RandomAccess_ (p : StaticArray)
  | ReadOnly_ (p : StaticArray)
  | StaticReadOnly_ (p : StaticArray)
  | WriteOnce_ (p : StaticArray)
  | BiPartite_ (p : BiPartite).

Definition Read (m : Memory) (frame : list W) (address datas : list nat) : result (list W) :=
  match m with
  | StaticArray_ p | ReadOnly_ p | StaticReadOnly_ p => StaticArray_Read p frame address datas
  | RandomAccess_ p => RandomAccess_Read p frame address datas
  | WriteOnce_ _ => Fault (Panic "unsupported operation for write-once memory")
  | BiPartite_ p => BiPartite_Read p frame address datas
  end.

Definition Write (m : Memory) (frame : list W) (address datas : list nat) : result Memory :=
  match m with
  | StaticArray_ p => StaticArray_ <$> StaticArray_Write p frame address datas
  | RandomAccess_ p => RandomAccess_ <$> StaticArray_Write p frame address datas
  | ReadOnly_ _ | StaticReadOnly_ _ => Fault (Panic "unsupported operation for read-only memory")
  | WriteOnce_ p => WriteOnce_ <$> StaticArray_Write p frame address datas
  | BiPartite_ p => BiPartite_ <$> BiPartite_Write p frame address datas
  end.

Definition Initialise (m : Memory) (contents : list W) : result Memory :=
  match m with
  | StaticArray_ p => Ok (StaticArray_ (StaticArray_Initialise p contents))
  | RandomAccess_ p => Ok (RandomAccess_ (StaticArray_Initialise p contents))
  | ReadOnly_ p => Ok (ReadOnly_ (StaticArray_Initialise p contents))
  | StaticReadOnly_ p =>
      match contents with
      | [] => Ok m
      | _ => Fault (Panic "cannot initialise static read only memory")
      end
  | WriteOnce_ p => Ok (WriteOnce_ (StaticArray_Initialise p contents))
  | BiPartite_ p => Ok (BiPartite_ (BiPartite_Initialise p contents))
  end.

(** [Contents]: of the memories that are an [InputOutput]. *)
Definition Contents (m : Memory) : option (list W) :=
  match m with
  | ReadOnly_ p | StaticReadOnly_ p | WriteOnce_ p => Some (data p)
  | _ => None
  end.

Definition kind_of (m : Memory) : Kind.t :=
  match m with
  | StaticArray_ p | RandomAccess_ p | ReadOnly_ p | StaticReadOnly_ p | WriteOnce_ p => kind p
  | BiPartite_ p => bi_kind p
  end.

Definition geometry_of (m : Memory) : Geometry :=
  match m with
  | StaticArray_ p | RandomAccess_ p | ReadOnly_ p | StaticReadOnly_ p | WriteOnce_ p => geometry p
  | BiPartite_ p => bi_geometry p
  end.

Definition name_of (m : Memory) : string :=
  match m with
  | StaticArray_ p | RandomAccess_ p | ReadOnly_ p | StaticReadOnly_ p | WriteOnce_ p => name p
  | BiPartite_ p => bi_name p
  end.

(** ** Constructors of [vm/memory.go] *)

Definition NewStaticMemory (n : string) (public : bool) (regs : list Register.t) (init : list W) : Memory :=
  StaticReadOnly_ (NewStaticArray n
    (if public then Kind.PUBLIC_STATIC_MEMORY else Kind.PRIVATE_STATIC_MEMORY) regs init).

Definition NewInputMemory (n : string) (public : bool) (regs : list Register.t) (init : list W) : Memory :=
  ReadOnly_ (NewStaticArray n
    (if public then Kind.PUBLIC_READ_ONLY_MEMORY else Kind.PRIVATE_READ_ONLY_MEMORY) regs init).

Definition NewOutputMemory (n : string) (public : bool) (regs : list Register.t) : Memory :=
  WriteOnce_ (NewStaticArray n
    (if public then Kind.PUBLIC_WRITE_ONCE_MEMORY else Kind.PRIVATE_WRITE_ONCE_MEMORY) regs []).

Definition NewReadWriteMemory (n : string) (regs : list Register.t) : Memory :=
  RandomAccess_ (NewStaticArray n Kind.RANDOM_ACCESS_MEMORY regs []).

Definition NewLargeReadWriteMemory (n : string) (regs : list Register.t) : Memory :=
  BiPartite_ (NewBiPartiteRandomAccess n regs).

End Memory.
Arguments StaticArray W : clear implicits.
Arguments BiPartite W : clear implicits.
Arguments Memory W : clear implicits.

(** ** Lemmas *)

Section MemoryFacts.
Context {W : Type} `{!Word W, !WordLaws W}.

(** *** Geometry *)

(** The components of an address fit the address registers. *)
Fixpoint addressable (regs : list Register.t) (address : list W) : Prop :=
  match address, regs with
  | [], _ => True
  | a :: address', r :: regs' =>
      Register.IsNative r = false /\ 0 <= Register.width r /\
      word_ok a /\ w_BigInt a < 2 ^ Register.width r /\ addressable regs' address'
  | _ :: _, [] => False
  end.

(** The number of bits of the first [n] registers. *)
Definition bits (regs : list Register.t) (n : nat) : Z :=
  foldr Z.add 0 (Register.width <$> take n regs).

(** The mixed-radix value of an address, most significant component first. *)
Fixpoint radix (regs : list Register.t) (acc : Z) (address : list W) : Z :=
  match address, regs with
  | a :: address', r :: regs' => radix regs' (acc * 2 ^ Register.width r + w_BigInt a) address'
  | _, _ => acc
  end.

Lemma Uint64_small (a : W) : word_ok a -> w_BigInt a < 2 ^ 64 -> w_Uint64 a = Ok (w_BigInt a).
Proof. intros Ha Hlt. rewrite Uint64_law by done. by rewrite (proj2 (Z.ltb_lt _ _)). Qed.

Lemma bits_nonneg regs address : addressable regs address -> 0 <= bits regs (length address).
Proof.
  revert address. induction regs as [|r regs IH]; intros [|a address]; unfold bits; cbn; try done; try lia.
  intros (_ & Hw & _ & _ & Hrest). specialize (IH _ Hrest). unfold bits in IH. lia.
Qed.

Lemma pack_spec idx w (a : W) B :
  0 <= w -> 0 <= B -> 0 <= idx -> (idx + 1) * 2 ^ (w + B) <= 2 ^ 64 ->
  word_ok a -> w_BigInt a < 2 ^ w ->
  w_Uint64 a = Ok (w_BigInt a) /\
  pack idx w (w_BigInt a) = idx * 2 ^ w + w_BigInt a /\
  0 <= idx * 2 ^ w + w_BigInt a /\ (idx * 2 ^ w + w_BigInt a + 1) * 2 ^ B <= 2 ^ 64.
Proof.
  intros Hw HB Hi Hfit Ha Hlt. pose proof (nonneg_law a Ha).
  assert (0 < 2 ^ w) by (by apply Z.pow_pos_nonneg). assert (0 < 2 ^ B) by (by apply Z.pow_pos_nonneg).
  rewrite Z.pow_add_r in Hfit by done.
  assert (Hfit' : (idx * 2 ^ w + w_BigInt a + 1) * 2 ^ B <= 2 ^ 64).
  { etransitivity; [|exact Hfit]. rewrite Z.mul_assoc. apply Z.mul_le_mono_nonneg_r; lia. }
  assert (idx * 2 ^ w + w_BigInt a + 1 <= 2 ^ 64) by nia.
  assert (0 <= idx * 2 ^ w) by nia.
  split; [apply Uint64_small; [done | lia]|]. split; [|split; [lia | done]].
  unfold pack. rewrite Z.shiftl_mul_pow2, u64_small by lia. by apply lor_shifted.
Qed.

Lemma decode_loop_spec (p : Geometry) i idx (address : list W) :
  addressable (drop i (registers p)) address -> 0 <= idx ->
  (idx + 1) * 2 ^ bits (drop i (registers p)) (length address) <= 2 ^ 64 ->
  decode_loop p i idx address = Ok (radix (drop i (registers p)) idx address).
Proof.
  revert i idx. induction address as [|a address IH]; intros i idx Ha Hi Hfit; [by destruct (drop i _)|].
  destruct (drop i (registers p)) as [|r rest] eqn:Hd; [done|].
  destruct Ha as (Hnat & Hw & Hok & Hlt & Hrest).
  assert (registers p !! i = Some r) as Hr.
  { pose proof (lookup_drop (registers p) i 0) as Hl. by rewrite Hd, Nat.add_0_r in Hl. }
  assert (drop (S i) (registers p) = rest) as Hd'.
  { change (S i) with (1 + i)%nat. by rewrite <- skipn_skipn, Hd. }
  assert (HB : 0 <= bits rest (length address)) by (by apply bits_nonneg).
  change (bits (r :: rest) (length (a :: address)))
    with (Register.width r + bits rest (length address)) in Hfit.
  destruct (pack_spec idx (Register.width r) a (bits rest (length address))) as (Hu & Hp & Hpos & Hnext); try done.
  cbn [decode_loop radix]. unfold slice_get, Register.Width. rewrite Hr. cbn [mbind result_bind].
  rewrite Hnat. cbn [mbind result_bind]. rewrite Hu. cbn [mbind result_bind]. rewrite Hp.
  rewrite IH; rewrite ?Hd'; done.
Qed.

Lemma radix_bounds regs idx (address : list W) :
  addressable regs address -> 0 <= idx ->
  idx * 2 ^ bits regs (length address) <= radix regs idx address
  < (idx + 1) * 2 ^ bits regs (length address).
Proof.
  revert regs idx. induction address as [|a address IH]; intros [|r rest] idx Ha Hi;
    unfold bits; cbn; try done; try lia.
  destruct Ha as (_ & Hw & Hok & Hlt & Hrest). pose proof (nonneg_law a Hok).
  pose proof (bits_nonneg _ _ Hrest) as HB. fold (bits rest (length address)).
  assert (0 < 2 ^ Register.width r) by (by apply Z.pow_pos_nonneg).
  assert (0 < 2 ^ bits rest (length address)) by (by apply Z.pow_pos_nonneg).
  assert (0 <= idx * 2 ^ Register.width r) by (apply Z.mul_nonneg_nonneg; lia).
  assert (Hn : 0 <= idx * 2 ^ Register.width r + w_BigInt a) by lia.
  specialize (IH rest (idx * 2 ^ Register.width r + w_BigInt a) Hrest Hn).
  rewrite Z.pow_add_r by done. nia.
Qed.

Lemma radix_inj regs idx idx' (address address' : list W) :
  length address = length address' ->
  addressable regs address -> addressable regs address' -> 0 <= idx -> 0 <= idx' ->
  radix regs idx address = radix regs idx' address' -> idx = idx' /\ address = address'.
Proof.
  revert regs idx idx' address'.
  induction address as [|a address IH]; intros [|r rest] idx idx' [|a' address'] Hl Ha Ha' Hi Hi' Heq; try done.
  destruct Ha as (_ & Hw & Hok & Hlt & Hrest), Ha' as (_ & _ & Hok' & Hlt' & Hrest').
  pose proof (nonneg_law a Hok). pose proof (nonneg_law a' Hok').
  assert (0 < 2 ^ Register.width r) by (by apply Z.pow_pos_nonneg).
  destruct (IH rest (idx * 2 ^ Register.width r + w_BigInt a)
              (idx' * 2 ^ Register.width r + w_BigInt a') address') as [Heq' ->];
    [cbn in Hl; lia | done | done | nia | nia | done |].
  assert (idx = idx') as -> by nia. split; [done|]. f_equal. apply inj_law; [done|done|lia].
Qed.

Lemma FrameDecode_Decode p (frame : list W) address ws :
  mapM (slice_get frame) address = Ok ws -> forall i idx,
  frame_decode_loop p frame i idx address = decode_loop p i idx ws.
Proof.
  revert ws. induction address as [|rid address IH]; intros ws; cbn; [by intros [= <-]|].
  intros Hm. inv_ok. subst ws. intros i idx. cbn. rewrite Ha. destruct (slice_get (registers p) i); cbn; [|done].
  destruct (Register.Width _); cbn; [|done]. destruct (w_Uint64 _); cbn; [|done]. by apply IH.
Qed.

(** *** Slices as total memories *)

Lemma get64_lookup {A} (l : list A) i v : 0 <= i -> get64 l i = Ok v <-> l !! Z.to_nat i = Some v.
Proof.
  intros Hi. unfold get64. rewrite (proj2 (Z.leb_le 0 i)) by done. cbn.
  destruct (Z.ltb_spec i (Z.of_nat (length l))); [apply slice_get_ok|].
  rewrite lookup_ge_None_2 by lia. done.
Qed.

Lemma set64_ok {A} (l l' : list A) i v :
  set64 l i v = Ok l' <-> 0 <= i < Z.of_nat (length l) /\ l' = <[Z.to_nat i := v]> l.
Proof.
  unfold set64. destruct (Z.leb_spec 0 i), (Z.ltb_spec i (Z.of_nat (length l))); cbn; split;
    intros Hs; try discriminate; try lia; [by injection Hs as <- | by destruct Hs as [_ ->]].
Qed.

Lemma ram_read_lookup (l : list W) a : 0 <= a -> ram_read l a = default w_zero (l !! Z.to_nat a).
Proof.
  intros Ha. unfold ram_read. destruct (Z.ltb_spec a (Z.of_nat (length l))); [done|].
  by rewrite lookup_ge_None_2 by lia.
Qed.

Lemma expand_spec {A} (z : A) l n l' :
  expand z l n = Ok l' ->
  n <= Z.of_nat (length l') /\ (length l <= length l')%nat /\
  (length l' = length l \/ Z.of_nat (length l') = n) /\
  forall a, default z (l' !! a) = default z (l !! a).
Proof.
  unfold expand. destruct (Z.leb_spec n (Z.of_nat (length l))).
  { intros [= <-]. done || (split; [lia|]; split; [lia|]; split; [by left | done]). }
  destruct (Z.ltb_spec (n - Z.of_nat (length l)) (2 ^ 63)); [|discriminate].
  intros [= <-]. rewrite length_app, length_replicate. split; [lia|]. split; [lia|]. split; [right; lia|].
  intros a. destruct (decide (a < length l)%nat).
  - by rewrite lookup_app_l by done.
  - rewrite lookup_app_r, (lookup_ge_None_2 l) by lia.
    destruct (replicate _ z !! _) as [x|] eqn:Hx; [|done]. by apply lookup_replicate in Hx as [-> _].
Qed.

Lemma write_cells_spec pos i data (frame l l' : list W) :
  write_cells pos i data frame l = Ok l' ->
  (forall k k', 0 <= k < Z.of_nat (length data) -> 0 <= k' < Z.of_nat (length data) ->
     pos (i + k) = pos (i + k') -> k = k') ->
  length l' = length l /\
  (forall k rid, data !! k = Some rid ->
     0 <= pos (i + Z.of_nat k) /\ l' !! Z.to_nat (pos (i + Z.of_nat k)) = frame !! rid) /\
  (forall a, 0 <= a -> (forall k, 0 <= k < Z.of_nat (length data) -> pos (i + k) <> a) ->
     l' !! Z.to_nat a = l !! Z.to_nat a).
Proof.
  revert i l. induction data as [|rid data IH]; intros i l Hw Hinj; cbn in Hw.
  { injection Hw as <-. done. }
  inv_ok. apply slice_get_ok in Ha. apply set64_ok in Ha0 as [Hpos ->].
  destruct (IH (i + 1) _ Hw) as (Hlen & Hin & Hout).
  { intros k k' Hk Hk' He. assert (k + 1 = k' + 1); [|lia].
    apply Hinj; cbn [length]; [lia..|]. rewrite !Z.add_assoc, <- !(Z.add_assoc i), !(Z.add_comm _ 1), !Z.add_assoc.
    exact He. }
  split; [by rewrite Hlen, length_insert|]. split.
  - intros [|k] r; cbn [lookup list_lookup].
    + intros [= <-]. rewrite Z.add_0_r. split; [lia|].
      rewrite Hout; [|lia|].
      * rewrite list_lookup_insert_eq by lia. done.
      * intros k Hk He. assert (k + 1 = 0); [|lia]. apply Hinj; cbn [length]; [lia..|].
        rewrite Z.add_0_r. by replace (i + (k + 1)) with (i + 1 + k) by lia.
    + intros Hk. replace (i + Z.of_nat (S k)) with (i + 1 + Z.of_nat k) by lia. by apply Hin.
  - intros b Hb Hne. rewrite Hout; [|done|].
    + rewrite list_lookup_insert_ne; [done|]. intros He.
      assert (0 <= 0 < Z.of_nat (length (rid :: data))) as H0 by (cbn; lia).
      apply (Hne 0 H0). rewrite Z.add_0_r. lia.
    + intros k Hk. replace (i + 1 + k) with (i + (k + 1)) by lia. apply Hne. cbn. lia.
Qed.

Lemma write_cells_total pos i data (frame l : list W) :
  Forall (fun rid => (rid < length frame)%nat) data ->
  (forall k, 0 <= k < Z.of_nat (length data) -> 0 <= pos (i + k) < Z.of_nat (length l)) ->
  is_ok (write_cells pos i data frame l) = true.
Proof.
  revert i l. induction data as [|rid data IH]; intros i l Hf Hpos; [done|].
  apply Forall_cons in Hf as [Hr Hf]. cbn [write_cells].
  destruct (lookup_lt_is_Some_2 frame rid Hr) as [v Hv]. rewrite (proj2 (slice_get_ok _ _ _) Hv).
  cbn [mbind result_bind].
  pose proof (Hpos 0 ltac:(cbn; lia)) as Hp0. rewrite Z.add_0_r in Hp0.
  rewrite (proj2 (set64_ok l _ (pos i) v) (conj Hp0 eq_refl)). cbn [mbind result_bind]. apply IH; [done|].
  intros k Hk. rewrite length_insert. replace (i + 1 + k) with (i + (k + 1)) by lia. apply Hpos. cbn. lia.
Qed.

Lemma read_cells_spec rd i data (frame frame' : list W) :
  read_cells rd i data frame = Ok frame' -> NoDup data ->
  length frame' = length frame /\
  (forall k rid, data !! k = Some rid ->
     exists v, rd (i + Z.of_nat k) = Ok v /\ frame' !! rid = Some v) /\
  (forall rid, rid ∉ data -> frame' !! rid = frame !! rid).
Proof.
  revert i frame. induction data as [|rid data IH]; intros i frame Hr Hnd; cbn in Hr.
  { injection Hr as <-. done. }
  inv_ok. apply slice_set_ok in Ha0 as [Hlt ->]. apply NoDup_cons in Hnd as [Hnin Hnd].
  destruct (IH (i + 1) _ Hr Hnd) as (Hlen & Hin & Hout).
  split; [by rewrite Hlen, length_insert|]. split.
  - intros [|k] r; cbn [lookup list_lookup].
    + intros [= <-]. rewrite Z.add_0_r. exists a. split; [done|].
      by rewrite Hout, list_lookup_insert_eq by done.
    + intros Hk. replace (i + Z.of_nat (S k)) with (i + 1 + Z.of_nat k) by lia. by apply Hin.
  - intros r [Hne Hr']%not_elem_of_cons. by rewrite Hout, list_lookup_insert_ne.
Qed.

Lemma read_cells_total rd i data (frame : list W) :
  Forall (fun rid => (rid < length frame)%nat) data ->
  (forall k, 0 <= k < Z.of_nat (length data) -> is_ok (rd (i + k)) = true) ->
  is_ok (read_cells rd i data frame) = true.
Proof.
  revert i frame. induction data as [|rid data IH]; intros i frame Hf Hrd; [done|].
  apply Forall_cons in Hf as [Hr Hf]. cbn [read_cells].
  pose proof (Hrd 0 ltac:(cbn; lia)) as H0. rewrite Z.add_0_r in H0.
  destruct (rd i) as [v|]; [|done]. cbn [mbind result_bind].
  unfold slice_set. rewrite decide_True by done. cbn [mbind result_bind]. apply IH.
  - eapply Forall_impl; [exact Hf|]. intros x Hx. cbn. by rewrite length_insert.
  - intros k Hk. replace (i + 1 + k) with (i + (k + 1)) by lia. apply Hrd. cbn. lia.
Qed.

(** *** Cells

    [cell m start i] is word [i] of the row starting at [start]. *)

Definition cell (m : Memory W) (start i : Z) : result W :=
  match m with
  | StaticArray_ p | ReadOnly_ p | StaticReadOnly_ p | WriteOnce_ p => get64 (data p) (u64 (i + start))
  | RandomAccess_ p => Ok (ram_read (data p) (u64 (i + start)))
  | BiPartite_ p =>
      Ok (if start <? HALF_START then readLower p (u64 (start + i))
          else if i <? u64 (TOP_POS - start + 1) then readUpper p (u64 (start + i)) else w_zero)
  end.

Definition readable (m : Memory W) : Prop := match m with WriteOnce_ _ => False | _ => True end.

Definition random_access (m : Memory W) : Prop :=
  match m with RandomAccess_ _ | BiPartite_ _ => True | _ => False end.

Lemma Read_cells m frame address datas start stop :
  readable m -> FrameDecode (geometry_of m) frame address = Ok (start, stop) ->
  Read m frame address datas = read_cells (cell m start) 0 datas frame.
Proof.
  destruct m; cbn; intros Hm Hd; try done;
    unfold StaticArray_Read, RandomAccess_Read, BiPartite_Read; rewrite Hd; cbn; try done.
  unfold cell. by destruct (start <? HALF_START).
Qed.

(** Words of the same row sit at different positions. *)
Lemma pos_inj start n k k' :
  0 <= start -> start + n <= 2 ^ 64 -> 0 <= k < n -> 0 <= k' < n ->
  u64 (start + k) = u64 (start + k') -> k = k'.
Proof. intros. rewrite !u64_small in * by lia. lia. Qed.

End MemoryFacts.

Section MemoryWrites.
Context {W : Type} `{!Word W, !WordLaws W}.

Lemma FrameDecode_bounds p (frame : list W) address start stop :
  FrameDecode p frame address = Ok (start, stop) ->
  0 <= start < 2 ^ 64 /\ stop = u64 (start + numOutputs p).
Proof.
  unfold FrameDecode, row. intros (index & _ & [= <- <-])%bind_ok. split; [apply u64_bound | done].
Qed.

Lemma ram_read_expand (l l' : list W) n a :
  expand w_zero l n = Ok l' -> 0 <= a -> ram_read l' a = ram_read l a.
Proof. intros He Ha. rewrite !ram_read_lookup by done. by apply expand_spec in He as (_ & _ & _ & ->). Qed.

(** Writing a row of a zero-extended slice: the written words are read back,
    the other positions keep their word. *)
Lemma write_row (pos : Z -> Z) n datas (frame l l1 l2 : list W) :
  expand w_zero l n = Ok l1 -> write_cells pos 0 datas frame l1 = Ok l2 ->
  (forall k k', 0 <= k < Z.of_nat (length datas) -> 0 <= k' < Z.of_nat (length datas) ->
     pos k = pos k' -> k = k') ->
  (forall k rid, datas !! k = Some rid ->
     exists v, frame !! rid = Some v /\ ram_read l2 (pos (Z.of_nat k)) = v) /\
  (forall a, 0 <= a -> (forall k, 0 <= k < Z.of_nat (length datas) -> pos k <> a) ->
     ram_read l2 a = ram_read l a).
Proof.
  intros He Hw Hinj. destruct (write_cells_spec pos 0 datas frame l1 l2 Hw Hinj) as (Hlen & Hin & Hout).
  split.
  - intros k rid Hk. destruct (Hin k rid Hk) as [Hp Hl]. rewrite Z.add_0_l in Hp, Hl.
    assert (is_Some (frame !! rid)) as [v Hv].
    { clear -Hw Hk. revert Hw Hk. generalize 0 as i. revert k l1. induction datas as [|r datas IH]; [done|].
      intros k l1 i Hw Hk. cbn in Hw. inv_ok. destruct k as [|k]; [|by eapply IH].
      injection Hk as ->. apply slice_get_ok in Ha. by eexists. }
    exists v. split; [done|]. by rewrite ram_read_lookup, Hl, Hv by done.
  - intros a Ha Hne. rewrite <- (ram_read_expand l l1 n a He Ha), !ram_read_lookup by done.
    rewrite Hout; [done | done |]. intros k Hk. rewrite Z.add_0_l. by apply Hne.
Qed.

Lemma TOP_POS_val : TOP_POS = 2 ^ 64 - 1.
Proof. done. Qed.

Lemma needed_val start : 0 < start < 2 ^ 64 -> u64 (TOP_POS - start + 1) = 2 ^ 64 - start.
Proof. intros. rewrite TOP_POS_val, u64_small by lia. lia. Qed.

Lemma HALF_START_val : HALF_START = 2 ^ 63 - 1.
Proof. done. Qed.

End MemoryWrites.

#[local] Opaque TOP_POS HALF_START.

(** ** Properties *)

Module MemoryProperties.
Section Properties.
Context {W : Type} `{!Word W, !WordLaws W}.

(** When the address and the data of a memory fit in 64 bits, an address is
    decoded, directly or through the frame, to the row at its mixed-radix
    value times the row length; the row does not wrap around, different
    addresses give disjoint rows. *)
Theorem geometry_rows (p : Geometry) (frame : list W) ids address address' :
  mapM (slice_get frame) ids = Ok address ->
  addressable (registers p) address -> addressable (registers p) address' ->
  length address = length address' -> 0 < numOutputs p ->
  2 ^ bits (registers p) (length address) * numOutputs p <= 2 ^ 64 ->
  exists start start',
    FrameDecode p frame ids = Ok (start, u64 (start + numOutputs p)) /\
    Decode p address = Ok (start, u64 (start + numOutputs p)) /\
    Decode p address' = Ok (start', u64 (start' + numOutputs p)) /\
    start = radix (registers p) 0 address * numOutputs p /\ 0 <= start /\
    start + numOutputs p <= 2 ^ 64 /\
    (address = address' \/ start + numOutputs p <= start' \/ start' + numOutputs p <= start).
Proof.
  intros Hm Ha Ha' Hl Hn Hfit.
  pose proof (bits_nonneg _ _ Ha) as HB.
  assert (0 < 2 ^ bits (registers p) (length address)) by (by apply Z.pow_pos_nonneg).
  assert (Hdec : forall ad : list W, addressable (registers p) ad -> length ad = length address ->
    decode_loop p 0 0 ad = Ok (radix (registers p) 0 ad) /\
    0 <= radix (registers p) 0 ad /\ (radix (registers p) 0 ad + 1) * numOutputs p <= 2 ^ 64).
  { intros ad Had Hlen. pose proof (radix_bounds _ 0 _ Had ltac:(lia)) as Hb. rewrite Hlen in Hb.
    split; [apply (decode_loop_spec p 0 0 ad); [done | lia | cbn [drop]; rewrite Hlen; etransitivity; [|exact Hfit]; rewrite Z.mul_1_l; apply Z.le_mul_diag_r; lia]|].
    split; [lia|]. etransitivity; [|exact Hfit]. apply Z.mul_le_mono_nonneg_r; lia. }
  destruct (Hdec address Ha eq_refl) as (Hd & Hp & Hf).
  destruct (Hdec address' Ha' (eq_sym Hl)) as (Hd' & Hp' & Hf').
  exists (radix (registers p) 0 address * numOutputs p), (radix (registers p) 0 address' * numOutputs p).
  unfold FrameDecode, Decode. rewrite (FrameDecode_Decode p frame ids address Hm), Hd, Hd'.
  cbn. unfold row. rewrite !(u64_small (_ * numOutputs p)) by nia.
  repeat (split; [done || nia|]).
  destruct (Z.lt_trichotomy (radix (registers p) 0 address) (radix (registers p) 0 address')) as [|[He|]].
  - right. left. nia.
  - left. by apply (radix_inj (registers p) 0 0 address address' Hl Ha Ha').
  - right. right. nia.
Qed.

(** A read succeeds exactly when every word of the row can be read (always,
    for a random-access memory); it then leaves the words of the row in the
    data registers, in order, and every other register unchanged.  The memory
    itself is not affected. *)
Theorem memory_read (m : Memory W) frame address datas start stop :
  readable m -> FrameDecode (geometry_of m) frame address = Ok (start, stop) ->
  NoDup datas -> Forall (fun rid => (rid < length frame)%nat) datas ->
  (is_ok (Read m frame address datas) = true <->
   forall i, 0 <= i < Z.of_nat (length datas) -> is_ok (cell m start i) = true) /\
  (random_access m -> is_ok (Read m frame address datas) = true) /\
  forall frame', Read m frame address datas = Ok frame' ->
    length frame' = length frame /\
    (forall k rid, datas !! k = Some rid ->
       exists v, cell m start (Z.of_nat k) = Ok v /\ frame' !! rid = Some v) /\
    (forall rid, rid ∉ datas -> frame' !! rid = frame !! rid).
Proof.
  intros Hm Hd Hnd Hf. rewrite (Read_cells m frame address datas start stop Hm Hd).
  assert (Htot : (forall i, 0 <= i < Z.of_nat (length datas) -> is_ok (cell m start i) = true) ->
                 is_ok (read_cells (cell m start) 0 datas frame) = true).
  { intros Hc. apply read_cells_total; [done|]. intros k Hk. rewrite Z.add_0_l. by apply Hc. }
  split; [split; [|exact Htot] | split].
  - destruct (read_cells _ _ _ _) as [frame'|] eqn:Hr; [|done]. intros _ i Hi.
    destruct (read_cells_spec _ _ _ _ _ Hr Hnd) as (_ & Hin & _).
    destruct (lookup_lt_is_Some_2 datas (Z.to_nat i) ltac:(lia)) as [rid Hrid].
    destruct (Hin _ _ Hrid) as (v & Hv & _). rewrite Z.add_0_l, Z2Nat.id in Hv by lia. by rewrite Hv.
  - intros Hra. apply Htot. intros. by destruct m.
  - intros frame' Hr. exact (read_cells_spec _ _ _ _ _ Hr Hnd).
Qed.

(** After a write to a random-access memory the row holds the words of the
    data registers, in order, and every row disjoint from it is unchanged, in
    the flat memory as in the bipartite one, on either side of its midpoint. *)
Theorem memory_write (m m' : Memory W) frame address datas start stop :
  random_access m -> FrameDecode (geometry_of m) frame address = Ok (start, stop) ->
  Write m frame address datas = Ok m' ->
  start + Z.of_nat (length datas) <= 2 ^ 64 ->
  geometry_of m' = geometry_of m /\ kind_of m' = kind_of m /\
  (forall k rid, datas !! k = Some rid ->
     exists v, frame !! rid = Some v /\ cell m' start (Z.of_nat k) = Ok v) /\
  (forall start' i, 0 <= start' -> 0 <= i < Z.of_nat (length datas) ->
     start' + Z.of_nat (length datas) <= 2 ^ 64 ->
     start' + Z.of_nat (length datas) <= start \/ start + Z.of_nat (length datas) <= start' ->
     cell m' start' i = cell m start' i).
Proof.
  intros Hm Hd Hw Hfit. pose proof (FrameDecode_bounds _ _ _ _ _ Hd) as [Hs _].
  pose proof HALF_START_val as Hh. pose proof TOP_POS_val as Htop.
  assert (Hin : forall k rid, datas !! k = Some rid -> 0 <= Z.of_nat k < Z.of_nat (length datas)).
  { intros k rid Hk. apply lookup_lt_Some in Hk. lia. }
  destruct m as [p|p|p|p|p|p]; cbn [random_access] in Hm; try done; cbn [Write geometry_of] in Hw, Hd.
  - unfold StaticArray_Write in Hw. rewrite Hd in Hw. cbn [mbind result_bind] in Hw.
    destruct (expand _ _ _) as [l1|] eqn:He; cbn [mbind result_bind] in Hw; [|done].
    destruct (write_cells _ _ _ _ _) as [l2|] eqn:Hc; [|done]. injection Hw as <-.
    destruct (write_row _ _ _ _ _ _ _ He Hc) as [Hr Ho].
    { intros k k' Hk Hk' Heq. cbn in Heq. rewrite !(Z.add_comm _ start) in Heq.
      apply (pos_inj start (Z.of_nat (length datas)) k k'); (lia || exact Heq). }
    split; [done|]. split; [done|]. split.
    + intros k rid Hk. destruct (Hr k rid Hk) as (v & Hv & Hrd). exists v. split; [done|].
      cbn [cell]. by rewrite <- Hrd.
    + intros start' i Hs' Hi Hfit' Hdis. cbn [cell with_data data]. f_equal. apply Ho; [apply u64_bound|].
      intros k Hk. rewrite !u64_small by lia. lia.
  - unfold BiPartite_Write in Hw. rewrite Hd in Hw. cbn [mbind result_bind] in Hw.
    destruct (Z.ltb_spec start HALF_START) as [Hlo|Hhi].
    + destruct (expand _ _ _) as [l1|] eqn:He; cbn [mbind result_bind] in Hw; [|done].
      destruct (write_cells _ _ _ _ _) as [l2|] eqn:Hc; [|done]. injection Hw as <-.
      destruct (write_row _ _ _ _ _ _ _ He Hc) as [Hr Ho].
      { intros k k' Hk Hk' Heq. apply (pos_inj start (Z.of_nat (length datas)) k k'); (lia || exact Heq). }
      split; [done|]. split; [done|]. split.
      * intros k rid Hk. destruct (Hr k rid Hk) as (v & Hv & Hrd). exists v. split; [done|].
        cbn [cell]. rewrite (proj2 (Z.ltb_lt _ _) Hlo). unfold readLower. cbn. by rewrite <- Hrd.
      * intros start' i Hs' Hi Hfit' Hdis. cbn [cell]. f_equal.
        destruct (Z.ltb_spec start' HALF_START); [|done]. unfold readLower. cbn [lower with_partitions].
        apply Ho; [apply u64_bound|]. intros k Hk. rewrite !u64_small by lia. lia.
    + rewrite needed_val in Hw by lia.
      destruct (expand _ _ _) as [l1|] eqn:He; cbn [mbind result_bind] in Hw; [|done].
      rewrite take_ge in Hw by lia.
      destruct (write_cells _ _ _ _ _) as [l2|] eqn:Hc; [|done]. injection Hw as <-.
      destruct (write_row _ _ _ _ _ _ _ He Hc) as [Hr Ho].
      { intros k k' Hk Hk'. cbn. rewrite !(u64_small (start + _)), !u64_small by lia. lia. }
      split; [done|]. split; [done|]. split.
      * intros k rid Hk. destruct (Hr k rid Hk) as (v & Hv & Hrd). exists v. split; [done|].
        pose proof (Hin _ _ Hk). cbn [cell]. rewrite (proj2 (Z.ltb_ge _ _) Hhi), needed_val by lia.
        rewrite (proj2 (Z.ltb_lt _ _)) by lia. unfold readUpper. cbn. by rewrite <- Hrd.
      * intros start' i Hs' Hi Hfit' Hdis. cbn [cell]. f_equal.
        destruct (Z.ltb_spec start' HALF_START); [done|]. case_match; [|done].
        unfold readUpper. cbn [upper with_partitions]. apply Ho; [apply u64_bound|].
        intros k Hk. rewrite !(u64_small (start + _)), !(u64_small (start' + _)), !u64_small by lia. lia.
Qed.

(** A write to a random-access memory succeeds when its row lies in the
    address space and below [2^63 - 1], or, for the bipartite memory, above
    [2^63]: the two partitions grow on demand. *)
Theorem memory_write_total (m : Memory W) frame address datas start stop :
  random_access m -> FrameDecode (geometry_of m) frame address = Ok (start, stop) ->
  Forall (fun rid => (rid < length frame)%nat) datas ->
  0 < numOutputs (geometry_of m) -> Z.of_nat (length datas) = numOutputs (geometry_of m) ->
  start + numOutputs (geometry_of m) < 2 ^ 63 \/
  (2 ^ 63 < start /\ start + numOutputs (geometry_of m) <= 2 ^ 64 /\
   match m with BiPartite_ _ => True | _ => False end) ->
  is_ok (Write m frame address datas) = true.
Proof.
  intros Hm Hd Hf Hn0 Hn Hpos. pose proof (FrameDecode_bounds _ _ _ _ _ Hd) as [Hs ->].
  pose proof HALF_START_val as Hh. pose proof TOP_POS_val as Htop.
  assert (Hgrow : forall (l : list W) n, 0 <= n < 2 ^ 63 -> exists l', expand w_zero l n = Ok l').
  { intros l n Hlt. unfold expand. destruct (n <=? _); [by eexists|].
    rewrite (proj2 (Z.ltb_lt _ _)) by lia. by eexists. }
  assert (Hgo : forall pos (l : list W) n ds, 0 <= n < 2 ^ 63 ->
    Forall (fun rid => (rid < length frame)%nat) ds ->
    (forall k, 0 <= k < Z.of_nat (length ds) -> 0 <= pos k < n) ->
    exists l', (l1 ← expand w_zero l n; write_cells pos 0 ds frame l1) = Ok l').
  { intros pos l n ds Hlt Hfd Hin. destruct (Hgrow l n Hlt) as [l1 He]. rewrite He. cbn.
    apply expand_spec in He as (Hlen & _).
    pose proof (write_cells_total pos 0 ds frame l1 Hfd) as Ht.
    destruct (write_cells _ _ _ _ _); [by eexists|]. exfalso. discriminate Ht.
    intros k Hk. rewrite Z.add_0_l. specialize (Hin k Hk). lia. }
  assert (Hlow : forall (l : list W) pos, start + numOutputs (geometry_of m) < 2 ^ 63 ->
    (forall k, pos k = u64 (start + k)) ->
    exists l', (l1 ← expand w_zero l (u64 (start + numOutputs (geometry_of m)));
                write_cells pos 0 datas frame l1) = Ok l').
  { intros l pos Hlt Hp. rewrite u64_small by lia. apply Hgo; [lia | done |].
    intros k Hk. rewrite Hp, u64_small by lia. lia. }
  destruct m as [p|p|p|p|p|p]; cbn [random_access] in Hm; try done; cbn [Write geometry_of] in *.
  - destruct Hpos as [Hpos|(_ & _ & [])].
    destruct (Hlow (data p) (fun i => u64 (i + start)) Hpos) as [l' Hl']; [intros; by rewrite Z.add_comm|].
    unfold StaticArray_Write. rewrite Hd. cbn. apply bind_ok in Hl' as (l1 & -> & Hw). cbn. by rewrite Hw.
  - unfold BiPartite_Write. rewrite Hd. cbn [mbind result_bind].
    destruct (Z.ltb_spec start HALF_START) as [Hlo|Hhi].
    + destruct Hpos as [Hpos|]; [|lia].
      destruct (Hlow (lower p) (fun i => u64 (start + i)) Hpos) as [l' Hl']; [done|].
      apply bind_ok in Hl' as (l1 & -> & Hw). cbn. by rewrite Hw.
    + assert (2 ^ 63 < start) by (destruct Hpos; lia).
      rewrite needed_val, take_ge by lia.
      destruct (Hgo (fun i => u64 (TOP_POS - u64 (start + i))) (upper p) (2 ^ 64 - start) datas) as [l' Hl'];
        [lia | done | |].
      { intros k Hk. rewrite !(u64_small (start + _)), !u64_small by lia. lia. }
      apply bind_ok in Hl' as (l1 & -> & Hw). cbn. by rewrite Hw.
Qed.

End Properties.

Section Discipline.
Context {W : Type} `{!Word W}.

(** The constructors give each memory the access discipline of its kind:
    read-only memories panic on writes, output memories on reads, static
    memories on re-initialisation with contents; only inputs, static tables and
    outputs expose their contents; read/write memories are private. *)
Theorem memory_discipline n pub regs (init : list W) frame address datas :
  let static := NewStaticMemory n pub regs init in
  let input := NewInputMemory n pub regs init in
  let output : Memory W := NewOutputMemory n pub regs in
  let rw : Memory W := NewReadWriteMemory n regs in
  let large : Memory W := NewLargeReadWriteMemory n regs in
  (is_ok (Write static frame address datas) = false /\ is_ok (Write input frame address datas) = false) /\
  is_ok (Read output frame address datas) = false /\
  (forall c, is_ok (Initialise static c) = true <-> c = []) /\
  (Contents static = Some init /\ Contents input = Some init /\ Contents output = Some [] /\
   Contents rw = None /\ Contents large = None) /\
  (Kind.IsReadOnly (kind_of static) && Kind.IsStatic (kind_of static) &&
   Kind.IsReadOnly (kind_of input) && negb (Kind.IsStatic (kind_of input)) &&
   Kind.IsWriteOnly (kind_of output) &&
   Kind.IsReadWrite (kind_of rw) && Kind.IsReadWrite (kind_of large) = true) /\
  (Kind.IsPublic (kind_of static) = pub /\ Kind.IsPublic (kind_of input) = pub /\
   Kind.IsPublic (kind_of output) = pub /\ Kind.IsPublic (kind_of rw) = false /\
   Kind.IsPublic (kind_of large) = false).
Proof.
  cbn. split; [done|]. split; [done|]. split; [|by destruct pub].
  intros [|a c]; cbn; [done|]. split; discriminate.
Qed.
End Discipline.

Definition sample_regs : list Register.t :=
  [Register.NewInput "addr" 16 0; Register.NewOutput "data0" 8 0; Register.NewOutput "data1" 8 0].

(** A "write-once" memory accepts writes of the same cell again, and out of
    order: row 1 is written first, row 0 later, and row 1 is then overwritten. *)
Theorem write_once_rewritten :
  (m ← Write (NewOutputMemory "out" true sample_regs) [1; 10; 11] [0%nat] [1%nat; 2%nat];
   m ← Write m [0; 20; 21] [0%nat] [1%nat; 2%nat];
   m ← Write m [1; 30; 31] [0%nat] [1%nat; 2%nat];
   Ok (Contents (W := Uint.t) m)) = Ok (Some [20; 21; 30; 31]).
Proof. vm_compute. reflexivity. Qed.

(** Witnesses *)

Definition sample_memory : Memory Uint.t := NewReadWriteMemory "ram" sample_regs.
Definition sample_frame : list Uint.t := [3; 7; 9].

Lemma geometry_rows_witness : exists start start',
  FrameDecode (NewGeometry sample_regs) sample_frame [0%nat] = Ok (start, u64 (start + 2)) /\
  Decode (NewGeometry sample_regs) [3] = Ok (start, u64 (start + 2)) /\
  Decode (NewGeometry sample_regs) [4] = Ok (start', u64 (start' + 2)) /\
  start = radix sample_regs 0 [3] * 2 /\ 0 <= start /\ start + 2 <= 2 ^ 64 /\
  ([3] = [4] \/ start + 2 <= start' \/ start' + 2 <= start).
Proof.
  apply (geometry_rows (NewGeometry sample_regs) sample_frame [0%nat] [3] [4]);
    cbn; repeat split; lia || done.
Defined.

Lemma memory_read_witness : is_ok (Read sample_memory sample_frame [0%nat] [1%nat; 2%nat]) = true.
Proof.
  refine (proj1 (proj2 (memory_read sample_memory sample_frame [0%nat] [1%nat; 2%nat] 6 8 I eq_refl _ _)) I).
  - constructor; [by intros [?|[]%not_elem_of_nil]%elem_of_cons | apply NoDup_singleton].
  - repeat constructor; cbn; lia.
Defined.

Definition sample_written : Memory Uint.t :=
  match Write sample_memory sample_frame [0%nat] [1%nat; 2%nat] with Ok m => m | Fault _ => sample_memory end.

Lemma memory_write_witness : cell sample_written 8 1 = cell sample_memory 8 1.
Proof.
  destruct (memory_write sample_memory sample_written sample_frame [0%nat] [1%nat; 2%nat] 6 8) as (_ & _ & _ & Hother);
    [exact I | reflexivity | vm_compute; reflexivity | cbn; lia |].
  apply Hother; cbn; lia.
Defined.

Lemma memory_write_total_witness : is_ok (Write sample_memory sample_frame [0%nat] [1%nat; 2%nat]) = true.
Proof.
  apply (memory_write_total sample_memory sample_frame [0%nat] [1%nat; 2%nat] 6 8);
    [exact I | reflexivity | repeat constructor; cbn; lia | reflexivity | reflexivity | left; reflexivity].
Defined.

End MemoryProperties.
