(* ===== verification/Instruction.v ===== *)
(** * Instructions and functions

    Models [pkg/zkc/vm/instruction] (opcodes, conditions, base and word
    instructions with the registers they use and define), the printf formats of
    [pkg/zkc/util/formatted_text.go] and [pkg/zkc/vm/internal/function].
    Skips, jumps and module identifiers are [uint]s, modelled as [nat]. *)

From Stdlib Require Import ZArith Lia String Ascii.
From stdpp Require Import base numbers list option strings sorting.
From S2P Require Import Prelude Word Register SortedSet.

Open Scope Z_scope.
Open Scope list_scope.

(** ** [opcode/opcode.go] and [opcode/condition.go] *)

Inductive OpCode : Type :=
  | CALL | FAIL | JUMP | MEMORY_READ | MEMORY_WRITE | SKIP_IF | SKIP | RETURN | DEBUG
  | INT_ADD | INT_SUB | INT_MUL | INT_DIV | INT_REM | INT_CAST
  | INT_ADDMOD_P | INT_SUBMOD_P | INT_MULMOD_P | INT_CASTMOD_P
  | BIT_AND | BIT_OR | BIT_XOR | BIT_NOT | BIT_SHL | BIT_SHR | BIT_CONCAT | BIT_DESTRUCT
  | FIELD_ASSIGN.

#[export] Instance OpCode_eq_dec : EqDecision OpCode.
Proof. solve_decision. Defined.

(** A condition is a [uint], of which six values are named. *)
Definition Condition : Type := Z.
Definition EQ : Condition := 0.
Definition NEQ : Condition := 1.
Definition LT : Condition := 2.
Definition GT : Condition := 3.
Definition LTEQ : Condition := 4.
Definition GTEQ : Condition := 5.

(** ** [formatted_text.go] *)

Module Format.
Definition FORMAT_NONE : Z := 0.
Definition FORMAT_DEC : Z := 1.
Definition FORMAT_HEX : Z := 2.
Definition FORMAT_BIN : Z := 3.
Definition FORMAT_CHR : Z := 4.

Record t : Type := mk { Code : Z; Width : Z; ZeroPad : bool }.

Definition EMPTY_FORMAT : t := mk FORMAT_NONE 0 false.
Definition DecimalFormat : t := mk FORMAT_DEC 0 false.
Definition HexFormat : t := mk FORMAT_HEX 0 false.
Definition BinFormat : t := mk FORMAT_BIN 0 false.
Definition CharFormat : t := mk FORMAT_CHR 0 false.

Definition HasFormat (p : t) : bool := negb (Code p =? FORMAT_NONE).

Definition digit (d : Z) : string :=
  String (ascii_of_N (Z.to_N (if d <? 10 then 48 + d else 87 + d)%Z)) EmptyString.

Fixpoint digits (fuel : nat) (base x : Z) (acc : string) : string :=
  match fuel with
  | O => acc
  | S k => if (x =? 0)%Z then acc else digits k base (x / base)%Z (digit (x mod base) ++ acc)
  end.

(** [big.Int.Text] *)
Definition Text (base x : Z) : string :=
  if (x =? 0)%Z then "0"
  else ((if (x <? 0)%Z then "-" else "") ++
        digits (S (Z.to_nat (Z.log2 (Z.abs x)))) base (Z.abs x) "")%string.

Fixpoint Repeat (s : string) (n : nat) : string :=
  match n with O => EmptyString | S k => (s ++ Repeat s k)%string end.

Definition pad (p : t) (text : string) : string :=
  if (Z.of_nat (String.length text) <? Width p)%Z then
    (Repeat (if ZeroPad p then "0" else " ") (Z.to_nat (Width p - Z.of_nat (String.length text))) ++ text)%string
  else text.

(** [FormatWord] *)
Definition FormatWord {W} `{!Word W} (format : t) (word : W) : result string :=
  let v := w_BigInt word in
  if Code format =? FORMAT_DEC then Ok (pad format (Text 10 v))
  else if Code format =? FORMAT_HEX then Ok (pad format (Text 16 v))
  else if Code format =? FORMAT_BIN then Ok (pad format (Text 2 v))
  else if Code format =? FORMAT_CHR then
    Ok (String (ascii_of_N (Z.to_N (Z.land (u64 v) 255))) EmptyString)
  else Fault (Panic "invalid format").
End Format.

(** ** Instructions *)

Record FormattedChunk : Type := mkChunk { Text : string; Format_ : Format.t; Argument : nat }.

Section Instruction.
Context {W : Type} `{!Word W}.

(** One constructor per implementation of the interface; the structures that
    embed [OpIo], [OpImm] and [OpArith] keep their opcode. *)
Inductive Instruction : Type :=
  | OpIo (Op : OpCode) (Id : nat) (Arguments Returns : list nat)
  | OpImm (Op : OpCode) (Immediate : nat)
  | Skip (n : nat)
  | SkipIf (Cond : Condition) (Left Right : nat) (n : nat)
  | Fail_ (Chunks : list FormattedChunk)
  | Debug_ (Chunks : list FormattedChunk)
  | OpArith (Op : OpCode) (Target : nat) (Sources : list nat) (Constant : W)
  | Cast (Target Source : nat) (Width : Z)
  | Destruct (Targets : list nat) (Source : nat).

Definition NewCall (id : nat) (arguments returns : list nat) : Instruction := OpIo CALL id arguments returns.
Definition NewMemRead (id : nat) (address data : list nat) : Instruction := OpIo MEMORY_READ id address data.
Definition NewMemWrite (id : nat) (address data : list nat) : Instruction := OpIo MEMORY_WRITE id address data.
Definition NewJump (target : nat) : Instruction := OpImm JUMP target.
Definition NewReturn : Instruction := OpImm RETURN 0.
Definition NewFail (chunks : list FormattedChunk) : Instruction := Fail_ chunks.
Definition NewSkipIf (c : Condition) (l r n : nat) : Instruction := SkipIf c l r n.

Definition NewIntAdd (t : nat) (s : list nat) (c : W) : Instruction := OpArith INT_ADD t s c.
Definition NewIntSub (t : nat) (s : list nat) (c : W) : Instruction := OpArith INT_SUB t s c.
Definition NewIntMul (t : nat) (s : list nat) (c : W) : Instruction := OpArith INT_MUL t s c.
Definition NewIntDiv (t dividend divisor : nat) : Instruction := OpArith INT_DIV t [dividend; divisor] w_zero.
Definition NewIntRem (t dividend divisor : nat) : Instruction := OpArith INT_REM t [dividend; divisor] w_zero.
Definition NewIntAddModP (t : nat) (s : list nat) (c : W) : Instruction := OpArith INT_ADDMOD_P t s c.
Definition NewIntSubModP (t : nat) (s : list nat) (c : W) : Instruction := OpArith INT_SUBMOD_P t s c.
Definition NewIntMulModP (t : nat) (s : list nat) (c : W) : Instruction := OpArith INT_MULMOD_P t s c.
Definition NewBitAnd (t : nat) (s : list nat) (c : W) : Instruction := OpArith BIT_AND t s c.
Definition NewBitNot (t source : nat) : Instruction := OpArith BIT_NOT t [source] w_zero.
Definition NewBitOr (t : nat) (s : list nat) (c : W) : Instruction := OpArith BIT_OR t s c.
Definition NewBitXor (t : nat) (s : list nat) (c : W) : Instruction := OpArith BIT_XOR t s c.
Definition NewBitShl (t value amount : nat) : Instruction := OpArith BIT_SHL t [value; amount] w_zero.
Definition NewBitShr (t value amount : nat) : Instruction := OpArith BIT_SHR t [value; amount] w_zero.
Definition NewBitConcat (t : nat) (s : list nat) : Instruction := OpArith BIT_CONCAT t s w_zero.
Definition NewCast (t source : nat) (width : Z) : Instruction := Cast t source width.
Definition NewDestruct (targets : list nat) (source : nat) : Instruction := Destruct targets source.

(** [OpCode()] *)
Definition OpCode_of (i : Instruction) : OpCode :=
  match i with
  | OpIo op _ _ _ | OpImm op _ | OpArith op _ _ _ => op
  | Skip _ => SKIP
  | SkipIf _ _ _ _ => SKIP_IF
  | Fail_ _ => FAIL
  | Debug_ _ => DEBUG
  | Cast _ _ w => if w =? MaxUint then INT_CASTMOD_P else INT_CAST
  | Destruct _ _ => BIT_DESTRUCT
  end.

Definition chunk_uses (chunks : list FormattedChunk) : list nat :=
  c ← chunks; if Format.HasFormat (Format_ c) then [Argument c] else [].

(** [Uses()]: the registers read. *)
Definition Uses (i : Instruction) : list nat :=
  match i with
  | OpIo op _ args rets =>
      if decide (op = MEMORY_WRITE) then
        foldl Insert (foldl Insert [] rets) args
      else args
  | OpImm _ _ | Skip _ => []
  | SkipIf _ l r _ => [l; r]
  | Fail_ chunks | Debug_ chunks => chunk_uses chunks
  | OpArith _ _ sources _ => sources
  | Cast _ source _ => [source]
  | Destruct _ source => [source]
  end.

(** [Definitions()]: the registers written. *)
Definition Definitions (i : Instruction) : list nat :=
  match i with
  | OpIo op _ _ rets => if decide (op = MEMORY_WRITE) then [] else rets
  | OpImm _ _ | Skip _ | SkipIf _ _ _ _ | Fail_ _ | Debug_ _ => []
  | OpArith _ target _ _ => [target]
  | Cast target _ _ => [target]
  | Destruct targets _ => targets
  end.

(** [MicroValidate]: the number of errors is what matters to the callers; only
    [skip_if] makes any. *)
Definition MicroValidate (regs : list Register.t) (i : Instruction) : result (list string) :=
  match i with
  | SkipIf _ l r _ =>
      lr ← slice_get regs l; lw ← Register.Width lr;
      rr ← slice_get regs r; rw ← Register.Width rr;
      Ok (if lw <? rw then ["bit overflow"%string] else [])
  | _ => Ok []
  end.

(** ** [function.go]

    [Vector] is the list of its micro-instructions. *)

Abbreviation Vector := (list Instruction).

Record Function : Type := mkFunction {
  name : string;
  native : bool;
  registers : list Register.t;
  numInputs : nat;
  numOutputs : nat;
  code : list Vector
}.

#[local] Instance Kind_Comparable : Comparable Register.Kind := Register.Cmp.

Definition New (n : string) (nat_ : bool) (regs : list Register.t) (c : list Vector) : result Function :=
  if IsSorted regs Register.kind then
    Ok (mkFunction n nat_ regs (length (List.filter Register.IsInput regs))
          (length (List.filter Register.IsOutput regs)) c)
  else Fault (Panic "function registers ordered incorrectly").

Definition CodeAt (p : Function) (i : nat) : result Vector := slice_get (code p) i.
Definition IsAtomic (p : Function) : bool := (length (code p) =? 1)%nat.
Definition Inputs (p : Function) : list Register.t := take (numInputs p) (registers p).
Definition Outputs (p : Function) : list Register.t := take (numOutputs p) (drop (numInputs p) (registers p)).
Definition Width (p : Function) : nat := length (registers p).

End Instruction.
Arguments Instruction W : clear implicits.
Abbreviation Vector W := (list (Instruction W)).
Arguments Function W : clear implicits.

(** ** Properties *)

Module FunctionProperties.

Lemma is_sorted_from_spec (k : Register.Kind) (ks : list Register.Kind) :
  @is_sorted_from _ Register.Cmp k ks = true ->
  StronglySorted (fun a b => Register.kind_of a <= Register.kind_of b) (k :: ks).
Proof.
  revert k. induction ks as [|k' ks IH]; intros k Hs; [repeat constructor|]. cbn in Hs.
  destruct (is_gt (Cmp k k')) eqn:Hc; [done|]. specialize (IH _ Hs).
  assert (Register.kind_of k <= Register.kind_of k').
  { unfold Cmp, Register.Cmp in Hc. destruct (Z.compare_spec (Register.kind_of k) (Register.kind_of k')); cbn in Hc; (lia || done). }
  constructor; [done|]. apply Forall_cons. split; [done|]. inversion IH as [|?? _ Hf]; subst.
  eapply Forall_impl; [exact Hf|]. cbn. lia.
Qed.

Definition below (b : Z) (r : Register.t) : bool := Register.kind_of (Register.kind r) <=? b.

(** In a list sorted by kind, the registers of the first kinds come first. *)
Lemma filter_prefix (regs : list Register.t) b :
  StronglySorted (fun a c => Register.kind_of a <= Register.kind_of c) (Register.kind <$> regs) ->
  List.filter (below b) regs = take (length (List.filter (below b) regs)) regs /\
  Forall (fun r => below b r = false) (drop (length (List.filter (below b) regs)) regs).
Proof.
  induction regs as [|r regs IH]; intros Hs; [by split; [|constructor]|].
  inversion Hs as [|?? Hs' Hf]; subst. destruct (IH Hs') as [Ht Hd]. cbn. destruct (below b r) eqn:Hb; cbn.
  - by rewrite <- Ht.
  - assert (Hnone : List.filter (below b) regs = []).
    { clear -Hb Hf. induction regs as [|x regs IH]; [done|]. cbn in Hf |- *.
      apply Forall_cons in Hf as [Hx Hf]. unfold below in Hb |- *.
      destruct (Z.leb_spec (Register.kind_of (Register.kind x)) b); [|by apply IH].
      apply Z.leb_gt in Hb. lia. }
    rewrite Hnone in *. cbn in *. split; [done|]. by constructor.
Qed.

Lemma is_sorted_from_complete (k : Register.Kind) (ks : list Register.Kind) :
  StronglySorted (fun a b => Register.kind_of a <= Register.kind_of b) (k :: ks) ->
  @is_sorted_from _ Register.Cmp k ks = true.
Proof.
  revert k. induction ks as [|k' ks IH]; intros k Hs; [done|]. cbn.
  inversion Hs as [|?? Hs' Hf]; subst. apply Forall_cons in Hf as [Hle _].
  unfold Cmp, Register.Cmp. destruct (Z.compare_spec (Register.kind_of k) (Register.kind_of k')); cbn;
    (by apply IH) || lia.
Qed.

Lemma filter_ext_Forall {A} (f g : A -> bool) (P : A -> Prop) (l : list A) :
  (forall x, P x -> f x = g x) -> Forall P l -> List.filter f l = List.filter g l.
Proof. intros Hfg. induction 1 as [|x l Hx Hl IH]; [done|]. cbn. by rewrite IH, Hfg. Qed.

Lemma filter_nil {A} (f : A -> bool) (l : list A) : Forall (fun x => f x = false) l -> List.filter f l = [].
Proof. induction 1 as [|x l Hx Hl IH]; [done|]. cbn. by rewrite Hx. Qed.

Definition known (r : Register.t) : Prop := 0 <= Register.kind_of (Register.kind r).

Lemma IsInput_below r : known r -> Register.IsInput r = below 0 r.
Proof.
  unfold known, Register.IsInput, Register.kind_eqb, below. cbn. intros.
  destruct (Z.eqb_spec (Register.kind_of (Register.kind r)) 0),
    (Z.leb_spec (Register.kind_of (Register.kind r)) 0); (lia || done).
Qed.

Lemma IsOutput_below r : below 0 r = false -> Register.IsOutput r = below 1 r.
Proof.
  unfold Register.IsOutput, Register.kind_eqb, below. cbn. intros Hb%Z.leb_gt.
  destruct (Z.eqb_spec (Register.kind_of (Register.kind r)) 1),
    (Z.leb_spec (Register.kind_of (Register.kind r)) 1); (lia || done).
Qed.

Lemma sorted_drop {A} (R : A -> A -> Prop) (l : list A) n : StronglySorted R l -> StronglySorted R (drop n l).
Proof.
  intros Hs. revert n. induction Hs as [|x l Hs IH Hf]; intros [|n]; cbn; try constructor; auto.
Qed.

(** The outputs of a list sorted by kind follow its inputs. *)
Lemma outputs_spec (regs : list Register.t) :
  StronglySorted (fun a c => Register.kind_of a <= Register.kind_of c) (Register.kind <$> regs) ->
  let n := length (List.filter (below 0) regs) in
  take (length (List.filter Register.IsOutput regs)) (drop n regs) = List.filter Register.IsOutput regs.
Proof.
  intros Hs n. destruct (filter_prefix regs 0 Hs) as [Ht Hd]. fold n in Ht, Hd.
  assert (Hsplit : List.filter Register.IsOutput regs = List.filter (below 1) (drop n regs)).
  { rewrite <- (take_drop n regs) at 1. rewrite List.filter_app, <- Ht.
    rewrite (filter_nil Register.IsOutput (List.filter (below 0) regs)).
    - cbn. by apply (filter_ext_Forall _ _ _ _ IsOutput_below).
    - apply Forall_forall. intros r Hr%list_elem_of_In%filter_In. destruct Hr as [_ Hb].
      unfold Register.IsOutput, Register.kind_eqb, below in *. apply Z.leb_le in Hb. cbn.
      destruct (Z.eqb_spec (Register.kind_of (Register.kind r)) 1); (lia || done). }
  rewrite Hsplit. destruct (filter_prefix (drop n regs) 1) as [Ht' _]; [|done].
  rewrite fmap_drop. by apply sorted_drop.
Qed.

(** [New] accepts exactly the register lists sorted by kind; then, when the
    kinds are known ones, [Inputs] and [Outputs] are the input and the output
    registers, in order, and no other register. *)
Theorem function_registers {W} n nat_ regs (c : list (Vector W)) :
  (forall f, New n nat_ regs c = Ok f ->
     Forall known regs ->
     Inputs f = List.filter Register.IsInput regs /\ Outputs f = List.filter Register.IsOutput regs /\
     registers f = regs /\ code f = c) /\
  (is_ok (New n nat_ regs c) = true <->
   StronglySorted (fun a b => Register.kind_of a <= Register.kind_of b) (Register.kind <$> regs)).
Proof.
  assert (Hsorted : @IsSorted _ _ Register.Cmp regs Register.kind = true ->
    StronglySorted (fun a b => Register.kind_of a <= Register.kind_of b) (Register.kind <$> regs)).
  { unfold IsSorted. destruct (Register.kind <$> regs) as [|k ks]; [constructor|]. apply is_sorted_from_spec. }
  split.
  - intros f. unfold New, Kind_Comparable. destruct (IsSorted _ _) eqn:Hs; [|done]. intros [= <-] Hpos.
    specialize (Hsorted eq_refl). unfold Inputs, Outputs. cbn [numInputs numOutputs registers code].
    rewrite (filter_ext_Forall _ _ _ _ IsInput_below Hpos).
    split; [symmetry; by apply filter_prefix|]. split; [by apply outputs_spec | done].
  - unfold New, Kind_Comparable. split.
    + destruct (IsSorted _ _) eqn:Hs; [|done]. by intros _; apply Hsorted.
    + intros Hs. unfold IsSorted. destruct (Register.kind <$> regs) as [|k ks]; [done|].
      by rewrite is_sorted_from_complete.
Qed.

Definition sample_regs : list Register.t :=
  [Register.NewInput "x" 8 0; Register.NewOutput "r" 8 0; Register.NewComputed "t" 16 0].

Lemma function_registers_witness :
  is_ok (New (W := Uint.t) "f" false sample_regs []) = true <->
  StronglySorted (fun a b => Register.kind_of a <= Register.kind_of b) (Register.kind <$> sample_regs).
Proof. exact (proj2 (function_registers "f" false sample_regs [])). Defined.

End FunctionProperties.
