(* ===== verification/Executor.v ===== *)
(** * The word executor

    Models [pkg/zkc/vm/internal/machine/word.go]: the execution of a word
    instruction on the register file of the executing function.  Each
    [executeX] returns the updated frame, an [Error] for the errors it reports
    and a [Panic] for an index out of range or a call on a native register. *)

From Stdlib Require Import ZArith Lia.
From stdpp Require Import base numbers list option strings.
From S2P Require Import Prelude Word Register Instruction.

Open Scope Z_scope.

Section Executor.
Context {W : Type} `{!Word W}.

(** [regs[target.Unwrap()].Width()] *)
Definition width_of (regs : list Register.t) (r : nat) : result Z :=
  x ← slice_get regs r; Register.Width x.

(** The loops [for _, arg := range sources]. *)
Fixpoint fold_sources (step : W -> W -> result W) (val : W) (sources : list nat) (frame : list W)
  : result W :=
  match sources with
  | [] => Ok val
  | arg :: rest => x ← slice_get frame arg; val' ← step val x; fold_sources step val' rest frame
  end.

(** An operation that reports an overflow, and one that does not. *)
Definition checked (op : W -> W -> W * bool) (msg : string) (val x : W) : result W :=
  let '(v, overflow) := op val x in if overflow : bool then Fault (Error msg) else Ok v.

Definition unchecked (op : W -> W -> W) (val x : W) : result W := Ok (op val x).

Definition executeAdd (target : nat) (sources : list nat) (constant : W) (frame : list W)
  (regs : list Register.t) : result (list W) :=
  bitwidth ← width_of regs target;
  v ← fold_sources (checked (w_Add bitwidth) "executeAdd arithmetic overflow") constant sources frame;
  slice_set frame target v.

Definition executeMul (target : nat) (sources : list nat) (constant : W) (frame : list W)
  (regs : list Register.t) : result (list W) :=
  bitwidth ← width_of regs target;
  v ← fold_sources (checked (w_Mul bitwidth) "executeMul arithmetic overflow") constant sources frame;
  slice_set frame target v.

(** The loops of [executeSub] and [executeFieldSub], which start from the first
    source, or from the zero word when there is none. *)
Definition from_first (step : W -> W -> result W) (sources : list nat) (frame : list W) : result W :=
  match sources with
  | [] => Ok w_zero
  | arg :: rest => x ← slice_get frame arg; fold_sources step x rest frame
  end.

Definition executeSub (target : nat) (sources : list nat) (constant : W) (frame : list W)
  (regs : list Register.t) : result (list W) :=
  bitwidth ← width_of regs target;
  let step := checked (w_Sub bitwidth) "arithmetic underflow" in
  v ← from_first step sources frame;
  v' ← step v constant;
  slice_set frame target v'.

Definition executeFieldAdd (target : nat) (sources : list nat) (constant modulus : W) (frame : list W)
  : result (list W) :=
  v ← fold_sources (unchecked (fun c x => w_AddMod c x modulus)) constant sources frame;
  slice_set frame target v.

Definition executeFieldSub (target : nat) (sources : list nat) (constant modulus : W) (frame : list W)
  : result (list W) :=
  v ← from_first (unchecked (fun c x => w_SubMod c x modulus)) sources frame;
  slice_set frame target (w_SubMod v constant modulus).

Definition executeFieldMul (target : nat) (sources : list nat) (constant modulus : W) (frame : list W)
  : result (list W) :=
  v ← fold_sources (unchecked (fun c x => w_MulMod c x modulus)) constant sources frame;
  slice_set frame target v.

Definition executeFieldCast (target source : nat) (modulus : W) (frame : list W) : result (list W) :=
  src ← slice_get frame source;
  match w_Cmp src modulus with
  | Lt => slice_set frame target src
  | _ => Fault (Error "cast overflow")
  end.

(** The first two sources of an instruction. *)
Definition operands (sources : list nat) (frame : list W) : result (W * W) :=
  a ← slice_get sources 0; x ← slice_get frame a;
  b ← slice_get sources 1; y ← slice_get frame b;
  Ok (x, y).

Definition executeDiv (target : nat) (sources : list nat) (frame : list W) (regs : list Register.t)
  : result (list W) :=
  bitwidth ← width_of regs target;
  '(dividend, divisor) ← operands sources frame;
  if Z.sgn (w_BigInt divisor) =? 0 then Fault (Error "division by zero")
  else v ← w_Div bitwidth dividend divisor; slice_set frame target v.

Definition executeRem (target : nat) (sources : list nat) (frame : list W) (regs : list Register.t)
  : result (list W) :=
  bitwidth ← width_of regs target;
  '(dividend, divisor) ← operands sources frame;
  if Z.sgn (w_BigInt divisor) =? 0 then Fault (Error "division by zero")
  else v ← w_Rem bitwidth dividend divisor; slice_set frame target v.

Definition executeAnd (target : nat) (sources : list nat) (constant : W) (frame : list W)
  (regs : list Register.t) : result (list W) :=
  bitwidth ← width_of regs target;
  v ← fold_sources (unchecked (w_And bitwidth)) constant sources frame;
  slice_set frame target v.

Definition executeOr (target : nat) (sources : list nat) (constant : W) (frame : list W)
  (regs : list Register.t) : result (list W) :=
  bitwidth ← width_of regs target;
  v ← fold_sources (unchecked (w_Or bitwidth)) constant sources frame;
  slice_set frame target v.

Definition executeXor (target : nat) (sources : list nat) (constant : W) (frame : list W)
  (regs : list Register.t) : result (list W) :=
  bitwidth ← width_of regs target;
  v ← fold_sources (unchecked (w_Xor bitwidth)) constant sources frame;
  slice_set frame target v.

Definition executeNot (target : nat) (sources : list nat) (frame : list W) (regs : list Register.t)
  : result (list W) :=
  bitwidth ← width_of regs target;
  a ← slice_get sources 0; arg ← slice_get frame a;
  slice_set frame target (w_Not bitwidth arg).

Definition executeShl (target : nat) (sources : list nat) (frame : list W) (regs : list Register.t)
  : result (list W) :=
  bitwidth ← width_of regs target;
  '(lhs, rhs) ← operands sources frame;
  v ← w_Shl bitwidth lhs rhs; slice_set frame target v.

Definition executeShr (target : nat) (sources : list nat) (frame : list W) (regs : list Register.t)
  : result (list W) :=
  bitwidth ← width_of regs target;
  '(lhs, rhs) ← operands sources frame;
  v ← w_Shr bitwidth lhs rhs; slice_set frame target v.

Definition executeCast (target source : nat) (width : Z) (frame : list W) : result (list W) :=
  src ← slice_get frame source;
  let sliced := w_Slice width src in
  match w_Cmp src sliced with
  | Eq => slice_set frame target sliced
  | _ => Fault (Error "cast overflow")
  end.

Fixpoint concat_loop (width : Z) (val : W) (offset : Z) (sources : list nat) (frame : list W)
  (regs : list Register.t) : result W :=
  match sources with
  | [] => Ok val
  | reg :: rest =>
      reg_width ← width_of regs reg;
      reg_val ← slice_get frame reg;
      concat_loop width (w_Or width val (w_Shl64 width reg_val offset)) (u64 (offset + reg_width))
        rest frame regs
  end.

Definition executeConcat (target : nat) (sources : list nat) (frame : list W) (regs : list Register.t)
  : result (list W) :=
  width ← width_of regs target;
  val ← concat_loop width w_zero 0 sources frame regs;
  slice_set frame target val.

Fixpoint destruct_loop (val : W) (targets : list nat) (frame : list W) (regs : list Register.t)
  : result (list W) :=
  match targets with
  | [] => Ok frame
  | reg :: rest =>
      reg_width ← width_of regs reg;
      frame' ← slice_set frame reg (w_Slice reg_width val);
      destruct_loop (w_Shr64 val reg_width) rest frame' regs
  end.

Definition executeDestruct (targets : list nat) (source : nat) (frame : list W) (regs : list Register.t)
  : result (list W) :=
  val ← slice_get frame source; destruct_loop val targets frame regs.

Definition bad_type : fault := Panic "interface conversion".

Definition unknown_word : fault := Error "unknown word instruction".

(** [WordExecutor.Execute]; the type assertions of its cases hold for the
    instructions built by the constructors. *)
Definition Execute (modulus : W) (insn : Instruction W) (frame : list W) (regs : list Register.t)
  : result (list W) :=
  match insn with
  | OpArith op target sources constant =>
      match op with
      | INT_ADD => executeAdd target sources constant frame regs
      | INT_DIV => executeDiv target sources frame regs
      | INT_MUL => executeMul target sources constant frame regs
      | INT_REM => executeRem target sources frame regs
      | INT_SUB => executeSub target sources constant frame regs
      | INT_ADDMOD_P => executeFieldAdd target sources constant modulus frame
      | INT_SUBMOD_P => executeFieldSub target sources constant modulus frame
      | INT_MULMOD_P => executeFieldMul target sources constant modulus frame
      | BIT_AND => executeAnd target sources constant frame regs
      | BIT_NOT => executeNot target sources frame regs
      | BIT_OR => executeOr target sources constant frame regs
      | BIT_XOR => executeXor target sources constant frame regs
      | BIT_SHL => executeShl target sources frame regs
      | BIT_SHR => executeShr target sources frame regs
      | BIT_CONCAT => executeConcat target sources frame regs
      | INT_CAST | INT_CASTMOD_P | BIT_DESTRUCT => Fault bad_type
      | _ => Fault unknown_word
      end
  | Cast target source width =>
      if width =? MaxUint then executeFieldCast target source modulus frame
      else executeCast target source width frame
  | Destruct targets source => executeDestruct targets source frame regs
  | _ => Fault unknown_word
  end.

End Executor.

(** ** Lemmas *)

Section ExecutorFacts.
Context {W : Type} `{!Word W, !WordLaws W}.
Implicit Types (frame : list W) (regs : list Register.t) (sources : list nat) (vs : list W).

Definition frame_ok frame : Prop := Forall word_ok frame.

(** The values of the source registers *)
Definition values frame sources : option (list W) := mapM (fun r => frame !! r) sources.

Fixpoint fold_vals (step : W -> W -> result W) (val : W) vs : result W :=
  match vs with [] => Ok val | x :: rest => val' ← step val x; fold_vals step val' rest end.

Lemma values_cons frame r sources vs :
  values frame (r :: sources) = Some vs <->
  exists x rest, vs = x :: rest /\ frame !! r = Some x /\ values frame sources = Some rest.
Proof.
  unfold values. cbn. destruct (frame !! r) as [x|]; cbn.
  - destruct (mapM _ sources) as [rest|]; cbn; split.
    + intros [= <-]. by exists x, rest.
    + intros (x' & rest' & -> & [= ->] & [= ->]). done.
    + done.
    + by intros (? & ? & _ & _ & ?).
  - split; [done|]. by intros (? & ? & _ & ? & _).
Qed.

Lemma values_ok frame sources vs : frame_ok frame -> values frame sources = Some vs -> Forall word_ok vs.
Proof.
  intros Hf. revert vs. induction sources as [|r sources IH]; intros vs.
  { intros [= <-]. constructor. }
  intros (x & rest & -> & Hx & Hr)%values_cons. constructor; [by eapply Forall_lookup in Hf | by apply IH].
Qed.

Lemma fold_sources_vals step val sources frame vs :
  values frame sources = Some vs -> fold_sources step val sources frame = fold_vals step val vs.
Proof.
  revert val vs. induction sources as [|r sources IH]; intros val vs; [by intros [= <-]|].
  intros (x & rest & -> & Hx & Hr)%values_cons. cbn. rewrite (proj2 (slice_get_ok _ _ _) Hx). cbn.
  destruct (step val x); cbn; [by apply IH | done].
Qed.

Lemma fold_vals_unchecked op val vs : fold_vals (unchecked op) val vs = Ok (foldl op val vs).
Proof. revert val. induction vs as [|x vs IH]; intros val; cbn; [done | apply IH]. Qed.

Lemma width_of_ok regs r x :
  regs !! r = Some x -> Register.IsNative x = false -> width_of regs r = Ok (Register.width x).
Proof.
  intros Hx Hn. unfold width_of, Register.Width. rewrite (proj2 (slice_get_ok _ _ _) Hx). cbn. by rewrite Hn.
Qed.

Lemma checked_eq op msg (c x : W) :
  checked op msg c x = if (op c x).2 then Fault (Error msg) else Ok (op c x).1.
Proof. unfold checked. by destruct (op c x). Qed.

Definition sum_of vs : Z := foldr Z.add 0 (w_BigInt <$> vs).
Definition product_of vs : Z := foldr Z.mul 1 (w_BigInt <$> vs).

Lemma sum_nonneg vs : Forall word_ok vs -> 0 <= sum_of vs.
Proof.
  unfold sum_of. induction 1 as [|x vs Hx Hvs IH]; cbn; [done|]. pose proof (nonneg_law x Hx). lia.
Qed.

Lemma product_pos vs : Forall word_ok vs -> Forall (fun v => w_BigInt v <> 0) vs -> 0 < product_of vs.
Proof.
  unfold product_of. induction 1 as [|x vs Hx Hvs IH]; cbn; [done|].
  intros [Hne Hnz]%Forall_cons. pose proof (nonneg_law x Hx). specialize (IH Hnz). nia.
Qed.

(** The result of an instruction: the target register takes a value with a
    given meaning, the others are unchanged. *)
Definition assigns (r : result (list W)) frame (target : nat) (value : Z) : Prop :=
  exists v, r = Ok (<[target := v]> frame) /\ word_ok v /\ w_BigInt v = value.

Lemma assigns_intro frame target v :
  (target < length frame)%nat -> word_ok v -> assigns (slice_set frame target v) frame target (w_BigInt v).
Proof. intros Hlt Hv. exists v. split; [by apply slice_set_ok | done]. Qed.

Lemma add_vals w msg c vs :
  width_ok w -> word_ok c -> Forall word_ok vs -> vs <> [] \/ w_BigInt c < 2 ^ w ->
  (w_BigInt c + sum_of vs < 2 ^ w /\
     exists v, fold_vals (checked (w_Add w) msg) c vs = Ok v /\ word_ok v /\ w_BigInt v = w_BigInt c + sum_of vs) \/
  (2 ^ w <= w_BigInt c + sum_of vs /\ fold_vals (checked (w_Add w) msg) c vs = Fault (Error msg)).
Proof.
  intros Hw. revert c. induction vs as [|x vs IH]; intros c Hc Hvs Hlt.
  { destruct Hlt as [|Hlt]; [done|]. change (sum_of []) with 0. left.
    split; [lia|]. exists c. split; [done|]. split; [done | lia]. }
  apply Forall_cons in Hvs as [Hx Hvs]. destruct (Add_law w c x Hw Hc Hx) as (Hok & Hv & Hb).
  pose proof (nonneg_law c Hc). pose proof (nonneg_law x Hx). pose proof (sum_nonneg vs Hvs).
  change (sum_of (x :: vs)) with (w_BigInt x + sum_of vs). cbn [fold_vals]. rewrite (checked_eq (w_Add w) msg c x).
  destruct (w_Add w c x) as [s b]. cbn in Hok, Hv, Hb |- *. subst b.
  destruct (Z.leb_spec (2 ^ w) (w_BigInt c + w_BigInt x)); cbn.
  { right. split; [lia | done]. }
  rewrite Z.mod_small in Hv by lia.
  assert (Hs : w_BigInt s < 2 ^ w) by lia.
  destruct (IH s Hok Hvs (or_intror Hs)) as [(Hsum & v & He & Hvo & Hvv)|(Hsum & He)]; rewrite Hv in *.
  - left. split; [lia|]. exists v. split; [done|]. split; [done | lia].
  - right. split; [lia | done].
Qed.

Lemma mul_vals w msg c vs v :
  width_ok w -> word_ok c -> Forall word_ok vs ->
  fold_vals (checked (w_Mul w) msg) c vs = Ok v ->
  word_ok v /\ w_BigInt v = w_BigInt c * product_of vs /\ (vs <> [] -> w_BigInt v < 2 ^ w).
Proof.
  intros Hw. revert c. induction vs as [|x vs IH]; intros c Hc Hvs; cbn [fold_vals].
  { intros [= <-]. change (product_of []) with 1. split; [done|]. split; [lia | done]. }
  apply Forall_cons in Hvs as [Hx Hvs]. destruct (Mul_law w c x Hw Hc Hx) as (Hok & Hv & Hb).
  rewrite (checked_eq (w_Mul w) msg c x).
  destruct (w_Mul w c x) as [s b]. cbn in Hok, Hv, Hb |- *. subst b.
  pose proof (nonneg_law c Hc). pose proof (nonneg_law x Hx).
  destruct (Z.leb_spec (2 ^ w) (w_BigInt c * w_BigInt x)); cbn; [done|]. intros Hf.
  rewrite Z.mod_small in Hv by nia. destruct (IH s Hok Hvs Hf) as (Hvo & Hvv & Hlt).
  change (product_of (x :: vs)) with (w_BigInt x * product_of vs).
  split; [done|]. split; [rewrite Hvv, Hv; symmetry; apply Z.mul_assoc|]. intros _.
  destruct vs as [|y vs]; [|by apply Hlt]. injection Hf as <-. lia.
Qed.

Lemma mul_vals_ok w msg c vs :
  width_ok w -> word_ok c -> Forall word_ok vs -> Forall (fun v => w_BigInt v <> 0) vs ->
  w_BigInt c * product_of vs < 2 ^ w -> is_ok (fold_vals (checked (w_Mul w) msg) c vs) = true.
Proof.
  intros Hw. revert c. induction vs as [|x vs IH]; intros c Hc Hvs Hnz Hlt; cbn [fold_vals]; [done|].
  apply Forall_cons in Hvs as [Hx Hvs]. apply Forall_cons in Hnz as [Hxz Hnz].
  change (product_of (x :: vs)) with (w_BigInt x * product_of vs) in Hlt.
  destruct (Mul_law w c x Hw Hc Hx) as (Hok & Hv & Hb).
  rewrite (checked_eq (w_Mul w) msg c x).
  destruct (w_Mul w c x) as [s b]. cbn in Hok, Hv, Hb |- *. subst b.
  pose proof (nonneg_law c Hc). pose proof (nonneg_law x Hx). pose proof (product_pos vs Hvs Hnz).
  assert (w_BigInt c * w_BigInt x < 2 ^ w) by nia.
  destruct (Z.leb_spec (2 ^ w) (w_BigInt c * w_BigInt x)); [lia|]. cbn.
  rewrite Z.mod_small in Hv by nia. apply IH; try done. rewrite Hv. lia.
Qed.

Lemma sub_vals w msg c vs :
  word_ok c -> Forall word_ok vs ->
  (sum_of vs <= w_BigInt c /\
     exists v, fold_vals (checked (w_Sub w) msg) c vs = Ok v /\ word_ok v /\ w_BigInt v = w_BigInt c - sum_of vs) \/
  (w_BigInt c < sum_of vs /\ fold_vals (checked (w_Sub w) msg) c vs = Fault (Error msg)).
Proof.
  revert c. induction vs as [|x vs IH]; intros c Hc Hvs.
  { left. change (sum_of []) with 0. pose proof (nonneg_law c Hc). split; [done|]. exists c. split; [done|]. split; [done | lia]. }
  apply Forall_cons in Hvs as [Hx Hvs]. pose proof (Sub_borrow w c x Hc Hx) as Hb.
  pose proof (sum_nonneg vs Hvs). pose proof (Sub_ok w c x Hc Hx) as Hv.
  change (sum_of (x :: vs)) with (w_BigInt x + sum_of vs). cbn [fold_vals]. rewrite (checked_eq (w_Sub w) msg c x).
  destruct (w_Sub w c x) as [s b]. cbn in Hv, Hb |- *. subst b.
  destruct (Z.ltb_spec (w_BigInt c) (w_BigInt x)); cbn.
  { right. split; [lia | done]. }
  destruct Hv as [Hok Hv]; [done|].
  destruct (IH s Hok Hvs) as [(Hsum & v & He & Hvo & Hvv)|(Hsum & He)]; rewrite Hv in *.
  - left. split; [lia|]. exists v. split; [done|]. split; [done | lia].
  - right. split; [lia | done].
Qed.

(** Folds of a modular operation *)
Lemma mod_vals (op : W -> W -> W -> W) (f : Z -> Z -> Z) (m : W) c vs :
  (forall x y, word_ok x -> word_ok y ->
     word_ok (op x y m) /\ w_BigInt (op x y m) = f (w_BigInt x) (w_BigInt y) mod w_BigInt m) ->
  Proper (eqm (w_BigInt m) ==> eqm (w_BigInt m) ==> eqm (w_BigInt m)) f ->
  word_ok c -> Forall word_ok vs ->
  word_ok (foldl (fun a x => op a x m) c vs) /\
  eqm (w_BigInt m) (w_BigInt (foldl (fun a x => op a x m) c vs)) (foldl f (w_BigInt c) (w_BigInt <$> vs)).
Proof.
  intros Hop Hf. revert c. induction vs as [|x vs IH]; intros c Hc Hvs; [done|].
  apply Forall_cons in Hvs as [Hx Hvs]. destruct (Hop c x Hc Hx) as [Hok Hv].
  destruct (IH _ Hok Hvs) as [Hr He]. split; [done|]. cbn. etransitivity; [exact He|].
  rewrite Hv. generalize (w_BigInt <$> vs). intros l. clear -Hf.
  assert (Hfold : forall a b, eqm (w_BigInt m) a b -> eqm (w_BigInt m) (foldl f a l) (foldl f b l)).
  { induction l as [|y l IH]; intros a b Hab; [done|]. cbn. apply IH. by apply Hf. }
  apply Hfold, eqm_mod.
Qed.

Lemma foldl_shift (f : Z -> Z -> Z) (l : list Z) a :
  (forall x y z, f (f x y) z = f x (y + z)) -> f a 0 = a -> foldl f a l = f a (foldr Z.add 0 l).
Proof.
  intros Hf H0. revert a H0. induction l as [|x l IH]; intros a H0; cbn; [done|].
  rewrite IH; [apply Hf|]. by rewrite Hf, Z.add_0_r.
Qed.

Lemma foldl_mul (l : list Z) a : foldl Z.mul a l = a * foldr Z.mul 1 l.
Proof. revert a. induction l as [|x l IH]; intros a; cbn; [lia|]. rewrite IH. lia. Qed.

(** Folds of a bitwise operation *)
Lemma bit_vals (op : W -> W -> W) (f : Z -> Z -> Z) c vs :
  (forall x y, word_ok x -> word_ok y -> word_ok (op x y) /\ w_BigInt (op x y) = f (w_BigInt x) (w_BigInt y)) ->
  word_ok c -> Forall word_ok vs ->
  word_ok (foldl op c vs) /\ w_BigInt (foldl op c vs) = foldl f (w_BigInt c) (w_BigInt <$> vs).
Proof.
  intros Hop. revert c. induction vs as [|x vs IH]; intros c Hc Hvs; [done|].
  apply Forall_cons in Hvs as [Hx Hvs]. destruct (Hop c x Hc Hx) as [Hok Hv].
  cbn. rewrite <- Hv. by apply IH.
Qed.

Lemma operands_ok sources frame a b x y :
  sources !! 0%nat = Some a -> sources !! 1%nat = Some b -> frame !! a = Some x -> frame !! b = Some y ->
  operands sources frame = Ok (x, y).
Proof.
  intros Ha Hb Hx Hy. unfold operands.
  rewrite (proj2 (slice_get_ok _ _ _) Ha). cbn. rewrite (proj2 (slice_get_ok _ _ _) Hx). cbn.
  rewrite (proj2 (slice_get_ok _ _ _) Hb). cbn. by rewrite (proj2 (slice_get_ok _ _ _) Hy).
Qed.

End ExecutorFacts.

(** ** Concatenation and destructuring *)

Section Limbs.

(** The value of limbs of the given widths, least significant first, and the
    limbs of a value. *)
Fixpoint packed (ws vs : list Z) : Z :=
  match ws, vs with
  | w :: ws', v :: vs' => v + 2 ^ w * packed ws' vs'
  | _, _ => 0
  end.

Fixpoint limbs (ws : list Z) (x : Z) : list Z :=
  match ws with [] => [] | w :: ws' => x mod 2 ^ w :: limbs ws' (x / 2 ^ w) end.

Definition total (ws : list Z) : Z := foldr Z.add 0 ws.

Definition widths_ok (ws : list Z) : Prop := Forall (fun w => 0 <= w) ws.

Lemma total_nonneg ws : widths_ok ws -> 0 <= total ws.
Proof. induction 1 as [|w ws Hw Hws IH]; unfold total in *; cbn; lia. Qed.

Definition limbs_fit (ws vs : list Z) : Prop := Forall2 (fun w v => 0 <= v < 2 ^ w) ws vs.

Lemma packed_bounds ws vs : widths_ok ws -> limbs_fit ws vs -> 0 <= packed ws vs < 2 ^ total ws.
Proof.
  intros Hws. induction 1 as [|w v ws vs Hv Hvs IH]; [done|].
  apply Forall_cons in Hws as [Hw Hws]. specialize (IH Hws). pose proof (total_nonneg ws Hws).
  change (total (w :: ws)) with (w + total ws). cbn [packed]. rewrite Z.pow_add_r by done.
  assert (0 < 2 ^ w) by (by apply Z.pow_pos_nonneg). nia.
Qed.

Lemma limbs_packed ws vs : widths_ok ws -> limbs_fit ws vs -> limbs ws (packed ws vs) = vs.
Proof.
  intros Hws. induction 1 as [|w v ws vs Hv Hvs IH]; [done|].
  apply Forall_cons in Hws as [Hw Hws]. cbn [packed limbs].
  assert (0 < 2 ^ w) by (by apply Z.pow_pos_nonneg). rewrite (Z.mul_comm (2 ^ w)), Z.mod_add by lia.
  rewrite Z.mod_small, Z.div_add, Z.div_small, Z.add_0_l by lia. by rewrite IH.
Qed.

Lemma packed_limbs ws x : widths_ok ws -> packed ws (limbs ws x) = x mod 2 ^ total ws.
Proof.
  revert x. induction ws as [|w ws IH]; intros x Hws; [cbn; by rewrite Z.mod_1_r|].
  apply Forall_cons in Hws as [Hw Hws]. cbn [packed limbs]. rewrite IH by done.
  change (total (w :: ws)) with (w + total ws). pose proof (total_nonneg ws Hws).
  rewrite Z.pow_add_r by done. rewrite Z.rem_mul_r by (by apply Z.pow_nonzero || by apply Z.pow_pos_nonneg). lia.
Qed.

Lemma limbs_fit_limbs ws x : widths_ok ws -> limbs_fit ws (limbs ws x).
Proof.
  intros Hws. revert x. induction Hws as [|w ws Hw Hws IH]; intros x; [constructor|].
  constructor; [|apply IH]. apply Z.mod_pos_bound. by apply Z.pow_pos_nonneg.
Qed.

End Limbs.

Section ConcatFacts.
Context {W : Type} `{!Word W, !WordLaws W}.
Implicit Types (frame : list W) (regs : list Register.t).

(** The widths of fixed-width registers *)
Definition widths regs (rids : list nat) : option (list Z) :=
  mapM (fun r => x ← regs !! r; if Register.IsNative x then None else Some (Register.width x)) rids.

Lemma widths_cons regs r rids ws :
  widths regs (r :: rids) = Some ws ->
  exists w rest, ws = w :: rest /\ width_of regs r = Ok w /\ widths regs rids = Some rest.
Proof.
  unfold widths. cbn. destruct (regs !! r) as [x|] eqn:Hx; cbn; [|done].
  destruct (Register.IsNative x) eqn:Hn; cbn; [done|].
  destruct (mapM _ rids) as [rest|]; cbn; [|done]. intros [= <-].
  exists (Register.width x), rest. split; [done|]. split; [by apply width_of_ok | done].
Qed.

Lemma concat_loop_spec w (val : W) V offset rids ws frame regs vs :
  width_ok w -> widths regs rids = Some ws -> Forall (fun n => 0 <= n) ws ->
  values frame rids = Some vs -> limbs_fit ws (w_BigInt <$> vs) -> Forall word_ok vs ->
  0 <= offset -> offset + total ws < 2 ^ 64 ->
  word_ok val -> w_BigInt val = V mod 2 ^ w -> 0 <= V < 2 ^ offset ->
  exists v, concat_loop w val offset rids frame regs = Ok v /\ word_ok v /\
    w_BigInt v = (V + 2 ^ offset * packed ws (w_BigInt <$> vs)) mod 2 ^ w.
Proof.
  intros Hw. revert val V offset ws vs.
  induction rids as [|r rids IH]; intros val V offset ws vs Hws Hpos Hvs Hfit Hok Hoff Htot Hval HV Hb.
  { injection Hws as <-. injection Hvs as <-. exists val. cbn. split; [done|]. split; [done|].
    by rewrite Z.mul_0_r, Z.add_0_r. }
  apply widths_cons in Hws as (n & ws' & -> & Hn & Hws). apply values_cons in Hvs as (x & vs' & -> & Hx & Hvs).
  apply Forall_cons in Hpos as [Hn0 Hpos]. apply Forall_cons in Hok as [Hxo Hok].
  inversion Hfit as [|???? Hxn Hfit']; subst. pose proof (total_nonneg ws' Hpos).
  change (total (n :: ws')) with (n + total ws') in Htot. cbn [concat_loop].
  rewrite Hn. cbn [mbind result_bind]. rewrite (proj2 (slice_get_ok _ _ _) Hx). cbn [mbind result_bind].
  rewrite u64_small by lia.
  destruct (Shl64_law w x offset Hw Hxo Hoff) as [Hs Hsv].
  destruct (Or_law w val (w_Shl64 w x offset) Hval Hs) as [Ho Hov].
  assert (Hnew : w_BigInt (w_Or w val (w_Shl64 w x offset)) = (V + w_BigInt x * 2 ^ offset) mod 2 ^ w).
  { rewrite Hov, HV, Hsv. unfold width_ok in Hw. rewrite <- !Z.land_ones by lia.
    rewrite <- Z.land_lor_distr_l, (Z.lor_comm V), lor_shifted by done. f_equal. lia. }
  assert (0 <= w_BigInt x * 2 ^ offset) by nia.
  destruct (IH (w_Or w val (w_Shl64 w x offset)) (V + w_BigInt x * 2 ^ offset) (offset + n) ws' vs') as (v & Hv & Hvo & Hvv); try done; try lia.
  { rewrite Z.pow_add_r by done. nia. }
  exists v. split; [done|]. split; [done|]. rewrite Hvv. f_equal. cbn [fmap list_fmap packed].
  rewrite Z.pow_add_r by done. lia.
Qed.

Lemma destruct_loop_spec (val : W) rids ws frame regs :
  widths regs rids = Some ws -> Forall width_ok ws -> word_ok val -> NoDup rids ->
  Forall (fun r => (r < length frame)%nat) rids ->
  exists frame' vs, destruct_loop val rids frame regs = Ok frame' /\ length frame' = length frame /\
    values frame' rids = Some vs /\ Forall word_ok vs /\ w_BigInt <$> vs = limbs ws (w_BigInt val) /\
    (forall r, r ∉ rids -> frame' !! r = frame !! r).
Proof.
  revert val frame ws. induction rids as [|r rids IH]; intros val frame ws Hws Hpos Hval Hnd Hlt.
  { injection Hws as <-. by exists frame, []. }
  apply widths_cons in Hws as (n & ws' & -> & Hn & Hws). apply Forall_cons in Hpos as [Hn0 Hpos].
  apply NoDup_cons in Hnd as [Hr Hnd]. apply Forall_cons in Hlt as [Hrl Hlt].
  cbn [destruct_loop]. rewrite Hn. cbn [mbind result_bind].
  unfold slice_set. rewrite decide_True by done. cbn [mbind result_bind].
  destruct (Slice_law n val Hn0 Hval) as [Hso Hsv].
  destruct (Shr64_law val n Hval) as [Hsh Hshv]; [unfold width_ok in Hn0; lia|].
  destruct (IH (w_Shr64 val n) (<[r := w_Slice n val]> frame) ws' Hws Hpos Hsh Hnd)
    as (frame' & vs & Hd & Hl & Hv & Hvo & Hlimbs & Hout).
  { eapply Forall_impl; [exact Hlt|]. intros. by rewrite length_insert. }
  exists frame', (w_Slice n val :: vs). split; [done|]. split; [by rewrite Hl, length_insert|].
  split; [|split; [by constructor|split]].
  - apply values_cons. exists (w_Slice n val), vs. split; [done|]. split; [|done].
    rewrite Hout by done. by apply list_lookup_insert_eq.
  - cbn. by rewrite Hlimbs, Hsv, Hshv.
  - intros q [Hq Hq']%not_elem_of_cons. by rewrite Hout, list_lookup_insert_ne.
Qed.

Lemma values_insert_ne frame target v rids :
  target ∉ rids -> values (<[target := v]> frame) rids = values frame rids.
Proof.
  induction rids as [|r rids IH]; [done|]. intros [Hr Hrids]%not_elem_of_cons.
  unfold values in *. cbn. rewrite list_lookup_insert_ne by done. by rewrite IH.
Qed.

Lemma values_ext frame frame' rids vs :
  values frame rids = Some vs -> values frame' rids = Some vs -> forall r, r ∈ rids -> frame' !! r = frame !! r.
Proof.
  revert vs. induction rids as [|a rids IH]; intros vs; [by intros _ _ r ?%not_elem_of_nil|].
  intros (x & rest & -> & Hx & Hr)%values_cons (x' & rest' & [= <- <-] & Hx' & Hr')%values_cons r.
  intros [->|Hin]%elem_of_cons; [congruence | by eapply IH].
Qed.

Lemma words_inj (l k : list W) :
  Forall word_ok l -> Forall word_ok k -> w_BigInt <$> l = w_BigInt <$> k -> l = k.
Proof.
  intros Hl. revert k. induction Hl as [|x l Hx Hl IH]; intros [|y k] Hk; try done.
  apply Forall_cons in Hk as [Hy Hk]. intros [= Hxy Hlk]. f_equal; [by apply inj_law | by apply IH].
Qed.

End ConcatFacts.

Module ConcatProperties.
Section Properties.
Context {W : Type} `{!Word W, !WordLaws W}.

(** Concatenating registers whose values fit their widths packs them, least
    significant first, into the target (modulo its width).  When the target is
    wide enough, destructuring it into the same registers gives every register
    its value back; conversely, concatenating the registers a value was
    destructured into gives the value modulo the combined width. *)
Theorem concat_destruct (frame : list W) regs target t rids ws vs :
  regs !! target = Some t -> Register.IsNative t = false -> width_ok (Register.width t) ->
  (target < length frame)%nat -> target ∉ rids -> NoDup rids ->
  widths regs rids = Some ws -> Forall width_ok ws -> total ws <= Register.width t ->
  values frame rids = Some vs -> Forall word_ok vs -> limbs_fit ws (w_BigInt <$> vs) ->
  (exists v, executeConcat target rids frame regs = Ok (<[target := v]> frame) /\
     w_BigInt v = packed ws (w_BigInt <$> vs) /\
     executeDestruct rids target (<[target := v]> frame) regs = Ok (<[target := v]> frame)) /\
  (forall source x, frame !! source = Some x -> word_ok x ->
     exists frame', executeDestruct rids source frame regs = Ok frame' /\
       assigns (executeConcat target rids frame' regs) frame' target (w_BigInt x mod 2 ^ total ws)).
Proof.
  intros Ht Hfixed Hw Hlt Hnin Hnd Hws Hwok Htot Hvs Hok Hfit.
  assert (Hpos : Forall (fun n => 0 <= n) ws).
  { eapply Forall_impl; [exact Hwok|]. unfold width_ok. cbn. lia. }
  assert (Hin : Forall (fun r => (r < length frame)%nat) rids).
  { clear -Hvs. revert vs Hvs. induction rids as [|r rids IH]; intros vs Hvs; constructor.
    - apply values_cons in Hvs as (x & rest & _ & Hx & _). by apply lookup_lt_Some in Hx.
    - apply values_cons in Hvs as (x & rest & _ & _ & Hr). by eapply IH. }
  assert (Hconcat : forall fr ls, length fr = length frame -> values fr rids = Some ls -> Forall word_ok ls ->
    limbs_fit ws (w_BigInt <$> ls) ->
    assigns (executeConcat target rids fr regs) fr target (packed ws (w_BigInt <$> ls))).
  { intros fr ls Hlen Hls Hlo Hlf. unfold executeConcat.
    rewrite (width_of_ok _ _ _ Ht Hfixed). cbn [mbind result_bind].
    destruct zero_law as [Hz Hz0]. unfold width_ok in Hw.
    destruct (concat_loop_spec (Register.width t) w_zero 0 0 rids ws fr regs ls) as (v & -> & Hvo & Hvv); try done; try lia.
    cbn [mbind result_bind]. rewrite Z.add_0_l, Z.pow_0_r, Z.mul_1_l in Hvv.
    pose proof (packed_bounds ws _ Hpos Hlf) as [Hb0 Hb].
    assert (2 ^ total ws <= 2 ^ Register.width t) by (by apply Z.pow_le_mono_r).
    rewrite Z.mod_small in Hvv by lia. rewrite <- Hvv. apply assigns_intro; [by rewrite Hlen | done]. }
  split.
  - destruct (Hconcat frame vs eq_refl Hvs Hok Hfit) as (v & Hc & Hvo & Hvv).
    exists v. split; [done|]. split; [done|]. unfold executeDestruct.
    rewrite (proj2 (slice_get_ok _ _ _) (list_lookup_insert_eq frame target v Hlt)). cbn [mbind result_bind].
    destruct (destruct_loop_spec v rids ws (<[target := v]> frame) regs Hws Hwok Hvo Hnd)
      as (frame' & vs' & -> & Hl & Hv' & Hvo' & Hlimbs & Hout).
    { eapply Forall_impl; [exact Hin|]. intros. by rewrite length_insert. }
    rewrite Hvv, limbs_packed in Hlimbs by done. apply words_inj in Hlimbs as ->; [|done..].
    f_equal. apply list_eq. intros r. destruct (decide (r ∈ rids)) as [Hr|Hr]; [|by apply Hout].
    apply (values_ext (<[target := v]> frame) frame' rids vs); [|done|done].
    by rewrite values_insert_ne.
  - intros source x Hx Hxo. unfold executeDestruct.
    rewrite (proj2 (slice_get_ok _ _ _) Hx). cbn [mbind result_bind].
    destruct (destruct_loop_spec x rids ws frame regs Hws Hwok Hxo Hnd Hin)
      as (frame' & vs' & -> & Hl & Hv' & Hvo' & Hlimbs & Hout).
    exists frame'. split; [done|]. rewrite <- packed_limbs by done. rewrite <- Hlimbs.
    apply Hconcat; try done. rewrite Hlimbs. by apply limbs_fit_limbs.
Qed.

End Properties.
End ConcatProperties.

(** ** Properties *)

Module ExecutorProperties.
Section Properties.
Context {W : Type} `{!Word W, !WordLaws W}.
Context (frame : list W) (regs : list Register.t) (target : nat) (t : Register.t).
Context (Htarget : regs !! target = Some t) (Hfixed : Register.IsNative t = false).
Context (Hwidth : width_ok (Register.width t)) (Hin : (target < length frame)%nat).
Context (Hframe : frame_ok frame).

Lemma target_width : width_of regs target = Ok (Register.width t).
Proof using Htarget Hfixed. by apply width_of_ok. Qed.

(** C35: On a register file of valid words, integer addition and subtraction
    give the exact result when it fits the width of the target, respectively
    when it is not negative, and report an error otherwise; multiplication,
    which stops at the first partial product that does not fit, is exact when
    it succeeds and succeeds when no factor is zero and the product fits. *)
Theorem execute_integer sources vs x rest (c : W) :
  values frame sources = Some vs -> vs = x :: rest -> word_ok c ->
  let w := Register.width t in
  (if 2 ^ w <=? w_BigInt c + sum_of vs
   then executeAdd target sources c frame regs = Fault (Error "executeAdd arithmetic overflow")
   else assigns (executeAdd target sources c frame regs) frame target (w_BigInt c + sum_of vs)) /\
  (if w_BigInt x <? sum_of rest + w_BigInt c
   then executeSub target sources c frame regs = Fault (Error "arithmetic underflow")
   else assigns (executeSub target sources c frame regs) frame target
          (w_BigInt x - sum_of rest - w_BigInt c)) /\
  (is_ok (executeMul target sources c frame regs) = true ->
     assigns (executeMul target sources c frame regs) frame target (w_BigInt c * product_of vs) /\
     w_BigInt c * product_of vs < 2 ^ w) /\
  (Forall (fun v => w_BigInt v <> 0) vs -> w_BigInt c * product_of vs < 2 ^ w ->
     is_ok (executeMul target sources c frame regs) = true).
Proof using All.
  intros Hv -> Hc w. pose proof (values_ok _ _ _ Hframe Hv) as Hok.
  pose proof Hok as Hok'. apply Forall_cons in Hok' as [Hx Hrest].
  pose proof target_width as Hw. fold w in Hw, Hwidth.
  split; [|split; [|split]].
  - unfold executeAdd. rewrite Hw. cbn [mbind result_bind]. rewrite (fold_sources_vals _ _ _ _ _ Hv).
    destruct (add_vals w "executeAdd arithmetic overflow" c (x :: rest) Hwidth Hc Hok ltac:(by left))
      as [(Hs & v & -> & Hvo & Hvv)|(Hs & ->)].
    + rewrite (proj2 (Z.leb_gt _ _)) by done. cbn [mbind result_bind]. rewrite <- Hvv. by apply assigns_intro.
    + by rewrite (proj2 (Z.leb_le _ _)).
  - unfold executeSub. rewrite Hw. cbn [mbind result_bind].
    destruct sources as [|r sources]; [done|]. apply values_cons in Hv as (x' & rest' & [= <- <-] & Hr & Hv).
    unfold from_first. rewrite (proj2 (slice_get_ok _ _ _) Hr). cbn [mbind result_bind].
    rewrite (fold_sources_vals _ _ _ _ _ Hv). pose proof (nonneg_law c Hc).
    destruct (sub_vals w "arithmetic underflow" x rest Hx Hrest) as [(Hs & v & -> & Hvo & Hvv)|(Hs & ->)].
    2: { by rewrite (proj2 (Z.ltb_lt _ _)) by lia. }
    cbn [mbind result_bind]. rewrite checked_eq, Sub_borrow, Hvv by done.
    destruct (Z.ltb_spec (w_BigInt x) (sum_of rest + w_BigInt c)).
    + by rewrite (proj2 (Z.ltb_lt _ _)) by lia.
    + rewrite (proj2 (Z.ltb_ge _ _)) by lia. cbn [mbind result_bind].
      destruct (Sub_ok w v c Hvo Hc) as [Hso Hsv]; [lia|]. rewrite <- Hvv, <- Hsv. by apply assigns_intro.
  - unfold executeMul. rewrite Hw. cbn [mbind result_bind]. rewrite (fold_sources_vals _ _ _ _ _ Hv).
    destruct (fold_vals _ _ _) as [v|] eqn:Hf; [|done]. intros _.
    destruct (mul_vals w _ c (x :: rest) v Hwidth Hc Hok Hf) as (Hvo & Hvv & Hlt).
    rewrite <- Hvv. split; [by apply assigns_intro | by apply Hlt].
  - intros Hnz Hlt. unfold executeMul. rewrite Hw. cbn [mbind result_bind]. rewrite (fold_sources_vals _ _ _ _ _ Hv).
    pose proof (mul_vals_ok w "executeMul arithmetic overflow" c (x :: rest) Hwidth Hc Hok Hnz Hlt) as Ho.
    destruct (fold_vals _ _ _) as [v|]; [|done]. cbn. unfold slice_set. by rewrite decide_True.
Qed.

(** The field instructions compute in the integers modulo the prime: sums,
    differences and products of the sources and of the constant, reduced; a
    field cast copies its source when it is below the prime and fails
    otherwise. *)
Theorem execute_field sources vs x rest (c p : W) source y :
  values frame sources = Some vs -> vs = x :: rest -> word_ok c -> word_ok p -> 0 < w_BigInt p ->
  frame !! source = Some y ->
  assigns (executeFieldAdd target sources c p frame) frame target ((w_BigInt c + sum_of vs) mod w_BigInt p) /\
  assigns (executeFieldSub target sources c p frame) frame target
    ((w_BigInt x - sum_of rest - w_BigInt c) mod w_BigInt p) /\
  assigns (executeFieldMul target sources c p frame) frame target ((w_BigInt c * product_of vs) mod w_BigInt p) /\
  (if w_BigInt y <? w_BigInt p then assigns (executeFieldCast target source p frame) frame target (w_BigInt y)
   else executeFieldCast target source p frame = Fault (Error "cast overflow")).
Proof using All.
  intros Hv -> Hc Hp Hpos Hy. pose proof (values_ok _ _ _ Hframe Hv) as Hok.
  pose proof Hok as Hok'. apply Forall_cons in Hok' as [Hx Hrest].
  assert (word_ok y) as Hyo by (by eapply Forall_lookup in Hframe).
  assert (Hlast : forall (op : W -> W -> W -> W) f z l,
    (forall a b, word_ok a -> word_ok b ->
       word_ok (op a b p) /\ w_BigInt (op a b p) = f (w_BigInt a) (w_BigInt b) mod w_BigInt p) ->
    Proper (eqm (w_BigInt p) ==> eqm (w_BigInt p) ==> eqm (w_BigInt p)) f ->
    word_ok z -> Forall word_ok l -> l <> [] ->
    word_ok (foldl (fun a b => op a b p) z l) /\
    w_BigInt (foldl (fun a b => op a b p) z l) = foldl f (w_BigInt z) (w_BigInt <$> l) mod w_BigInt p).
  { intros op f z l Hop Hf Hz Hl Hne. destruct (mod_vals op f p z l Hop Hf Hz Hl) as [Ho He].
    split; [done|]. apply eqm_mod_unique; [|done].
    destruct l as [|a l _] using rev_ind; [done|]. apply Forall_app in Hl as [Hl Ha].
    apply Forall_cons in Ha as [Ha _]. rewrite foldl_app. cbn.
    destruct (mod_vals op f p z l Hop Hf Hz Hl) as [Hl' _].
    destruct (Hop _ a Hl' Ha) as [_ ->]. by apply Z.mod_pos_bound. }
  split; [|split; [|split]].
  - unfold executeFieldAdd. rewrite (fold_sources_vals _ _ _ _ _ Hv), fold_vals_unchecked. cbn [mbind result_bind].
    destruct (Hlast w_AddMod Z.add c (x :: rest)) as [Ho Hval]; try done; [|typeclasses eauto|].
    { intros. by apply AddMod_law. }
    rewrite (foldl_shift Z.add) in Hval by lia. unfold sum_of. rewrite <- Hval. by apply assigns_intro.
  - destruct sources as [|r sources]; [done|]. apply values_cons in Hv as (x' & rest' & [= <- <-] & Hr & Hv).
    unfold executeFieldSub, from_first. rewrite (proj2 (slice_get_ok _ _ _) Hr). cbn [mbind result_bind].
    rewrite (fold_sources_vals _ _ _ _ _ Hv), fold_vals_unchecked. cbn [mbind result_bind].
    destruct (Hlast w_SubMod Z.sub x (rest ++ [c])) as [Ho Hval]; try done; [|typeclasses eauto| | |].
    { intros. by apply SubMod_law. }
    { apply Forall_app. by split; [|constructor]. }
    { by destruct rest. }
    rewrite foldl_app in Ho, Hval. cbn [foldl] in Ho, Hval.
    assert (foldl Z.sub (w_BigInt x) (w_BigInt <$> rest ++ [c]) = w_BigInt x - sum_of rest - w_BigInt c) as He.
    { rewrite fmap_app, foldl_app. cbn. rewrite (foldl_shift Z.sub) by lia. done. }
    rewrite He in Hval. rewrite <- Hval. by apply assigns_intro.
  - unfold executeFieldMul. rewrite (fold_sources_vals _ _ _ _ _ Hv), fold_vals_unchecked. cbn [mbind result_bind].
    destruct (Hlast w_MulMod Z.mul c (x :: rest)) as [Ho Hval]; try done; [|typeclasses eauto|].
    { intros. by apply MulMod_law. }
    rewrite foldl_mul in Hval. unfold product_of. rewrite <- Hval. by apply assigns_intro.
  - unfold executeFieldCast. rewrite (proj2 (slice_get_ok _ _ _) Hy). cbn [mbind result_bind].
    rewrite Cmp_law by done. unfold Z.ltb. destruct (w_BigInt y ?= w_BigInt p); [done | by apply assigns_intro | done].
Qed.

(** The bitwise, shift, division and cast instructions compute the
    corresponding integer functions; division by zero and a cast that would
    lose bits are errors. *)
Theorem execute_bitwise sources vs (c : W) a b x y source z width :
  values frame sources = Some vs -> word_ok c ->
  frame !! a = Some x -> frame !! b = Some y -> w_BigInt y < 2 ^ 64 ->
  frame !! source = Some z -> width_ok width ->
  let w := Register.width t in
  assigns (executeAnd target sources c frame regs) frame target (foldl Z.land (w_BigInt c) (w_BigInt <$> vs)) /\
  assigns (executeOr target sources c frame regs) frame target (foldl Z.lor (w_BigInt c) (w_BigInt <$> vs)) /\
  assigns (executeXor target sources c frame regs) frame target (foldl Z.lxor (w_BigInt c) (w_BigInt <$> vs)) /\
  (w_BigInt x < 2 ^ w -> assigns (executeNot target [a] frame regs) frame target (2 ^ w - 1 - w_BigInt x)) /\
  assigns (executeShl target [a; b] frame regs) frame target ((w_BigInt x * 2 ^ w_BigInt y) mod 2 ^ w) /\
  assigns (executeShr target [a; b] frame regs) frame target (w_BigInt x / 2 ^ w_BigInt y) /\
  (if w_BigInt y =? 0
   then executeDiv target [a; b] frame regs = Fault (Error "division by zero") /\
        executeRem target [a; b] frame regs = Fault (Error "division by zero")
   else assigns (executeDiv target [a; b] frame regs) frame target (w_BigInt x / w_BigInt y) /\
        assigns (executeRem target [a; b] frame regs) frame target (w_BigInt x mod w_BigInt y)) /\
  (if w_BigInt z <? 2 ^ width then assigns (executeCast target source width frame) frame target (w_BigInt z)
   else executeCast target source width frame = Fault (Error "cast overflow")).
Proof using All.
  intros Hv Hc Ha Hb Hlt Hz Hwz w. pose proof (values_ok _ _ _ Hframe Hv) as Hok.
  pose proof target_width as Hw. fold w in Hw, Hwidth.
  assert (Hword : forall i u, frame !! i = Some u -> word_ok u) by (intros; by eapply Forall_lookup in Hframe).
  pose proof (Hword a x Ha) as Hx. pose proof (Hword b y Hb) as Hy. pose proof (Hword source z Hz) as Hzo.
  pose proof (operands_ok [a; b] frame a b x y eq_refl eq_refl Ha Hb) as Hops.
  pose proof (nonneg_law y Hy) as Hy0. pose proof (nonneg_law z Hzo) as Hz0.
  split; [|split; [|split; [|split; [|split; [|split; [|split]]]]]].
  - unfold executeAnd. rewrite Hw. cbn [mbind result_bind].
    rewrite (fold_sources_vals _ _ _ _ _ Hv), fold_vals_unchecked. cbn [mbind result_bind].
    destruct (bit_vals (w_And w) Z.land c vs (And_law w) Hc Hok) as [Ho <-]. by apply assigns_intro.
  - unfold executeOr. rewrite Hw. cbn [mbind result_bind].
    rewrite (fold_sources_vals _ _ _ _ _ Hv), fold_vals_unchecked. cbn [mbind result_bind].
    destruct (bit_vals (w_Or w) Z.lor c vs (Or_law w) Hc Hok) as [Ho <-]. by apply assigns_intro.
  - unfold executeXor. rewrite Hw. cbn [mbind result_bind].
    rewrite (fold_sources_vals _ _ _ _ _ Hv), fold_vals_unchecked. cbn [mbind result_bind].
    destruct (bit_vals (w_Xor w) Z.lxor c vs (Xor_law w) Hc Hok) as [Ho <-]. by apply assigns_intro.
  - intros Hxw. unfold executeNot. rewrite Hw. cbn. rewrite (proj2 (slice_get_ok _ _ _) Ha). cbn [mbind result_bind].
    destruct (Not_law w x Hwidth Hx Hxw) as [Ho <-]. by apply assigns_intro.
  - unfold executeShl. rewrite Hw, Hops. cbn [mbind result_bind].
    destruct (Shl_law w x y Hwidth Hx Hy Hlt) as (v & -> & Ho & <-). by apply assigns_intro.
  - unfold executeShr. rewrite Hw, Hops. cbn [mbind result_bind].
    destruct (Shr_law w x y Hx Hy Hlt) as (v & -> & Ho & <-). by apply assigns_intro.
  - unfold executeDiv, executeRem. rewrite Hw, Hops. cbn [mbind result_bind].
    replace (Z.sgn (w_BigInt y) =? 0) with (w_BigInt y =? 0) by (destruct (w_BigInt y); done).
    destruct (Z.eqb_spec (w_BigInt y) 0) as [|Hne]; [done|].
    destruct (Div_law w x y Hx Hy Hne) as (v & -> & Ho & <-), (Rem_law w x y Hx Hy Hne) as (v' & -> & Ho' & <-).
    split; by apply assigns_intro.
  - unfold executeCast. rewrite (proj2 (slice_get_ok _ _ _) Hz). cbn [mbind result_bind].
    destruct (Slice_law width z Hwz Hzo) as [Ho Hs]. rewrite Cmp_law, Hs by done.
    assert (0 < 2 ^ width) by (apply Z.pow_pos_nonneg; unfold width_ok in Hwz; lia).
    destruct (Z.ltb_spec (w_BigInt z) (2 ^ width)).
    + rewrite Z.mod_small, Z.compare_refl by lia. rewrite Z.mod_small in Hs by lia.
      rewrite <- Hs. by apply assigns_intro.
    + pose proof (Z.mod_pos_bound (w_BigInt z) (2 ^ width)).
      destruct (Z.compare_spec (w_BigInt z) (w_BigInt z mod 2 ^ width)); (lia || done).
Qed.

End Properties.
End ExecutorProperties.

(** ** Types are preserved *)

Section Typing.
Context {W : Type} `{!Word W, !WordLaws W}.

(** The least value a register cannot hold; a native register holds a field element. *)
Definition bound (p : W) (r : Register.t) : Z :=
  if Register.IsNative r then w_BigInt p else 2 ^ Register.width r.

Definition fits (p : W) (r : Register.t) (v : W) : Prop := word_ok v /\ w_BigInt v < bound p r.

Definition frame_fits (p : W) (regs : list Register.t) (frame : list W) : Prop :=
  Forall2 (fits p) regs frame.

Definition regs_ok (regs : list Register.t) : Prop :=
  Forall (fun r => Register.IsNative r = true \/ width_ok (Register.width r)) regs.

Definition bound_of (p : W) (regs : list Register.t) (r : nat) : Z :=
  match regs !! r with Some x => bound p x | None => 0 end.

(** Static conditions on an instruction: constants and sources are no wider
    than the target where the operation does not check or reduce its result,
    and shift amounts fit 64 bits. *)
Definition typed (p : W) (regs : list Register.t) (insn : Instruction W) : Prop :=
  match insn with
  | OpArith op target sources c =>
      let b := bound_of p regs target in
      word_ok c /\
      match op with
      | INT_ADD | INT_MUL => sources <> [] \/ w_BigInt c < b
      | INT_SUB => forall s, head sources = Some s -> bound_of p regs s <= b
      | INT_DIV => forall s, sources !! 0%nat = Some s -> bound_of p regs s <= b
      | INT_REM => forall s, sources !! 1%nat = Some s -> bound_of p regs s <= b
      | INT_ADDMOD_P | INT_MULMOD_P =>
          0 < w_BigInt p <= b /\ (sources <> [] \/ w_BigInt c < w_BigInt p)
      | INT_SUBMOD_P => 0 < w_BigInt p <= b
      | BIT_AND => w_BigInt c < b
      | BIT_OR | BIT_XOR => w_BigInt c < b /\ forall s, s ∈ sources -> bound_of p regs s <= b
      | BIT_NOT => forall s, sources !! 0%nat = Some s -> bound_of p regs s <= b
      | BIT_SHL => forall s, sources !! 1%nat = Some s -> bound_of p regs s <= 2 ^ 64
      | BIT_SHR => (forall s, sources !! 0%nat = Some s -> bound_of p regs s <= b) /\
                   (forall s, sources !! 1%nat = Some s -> bound_of p regs s <= 2 ^ 64)
      | _ => True
      end
  | Cast target _ width =>
      if width =? MaxUint then w_BigInt p <= bound_of p regs target
      else width_ok width /\ 2 ^ width <= bound_of p regs target
  | _ => True
  end.

Lemma fits_insert p regs frame target t v :
  frame_fits p regs frame -> regs !! target = Some t -> fits p t v ->
  frame_fits p regs (<[target := v]> frame).
Proof.
  intros Hf Ht Hv. unfold frame_fits. rewrite <- (list_insert_id regs target t Ht).
  by apply Forall2_insert.
Qed.

Lemma fits_lookup p regs frame r v :
  frame_fits p regs frame -> frame !! r = Some v ->
  exists x, regs !! r = Some x /\ fits p x v /\ w_BigInt v < bound_of p regs r.
Proof.
  intros Hf Hv. destruct (Forall2_lookup_r _ _ _ _ _ Hf Hv) as (x & Hx & Hfit).
  exists x. split; [done|]. split; [done|]. unfold bound_of. rewrite Hx. apply Hfit.
Qed.

Lemma fold_sources_ok step (val v : W) sources frame :
  fold_sources step val sources frame = Ok v -> exists vs, values frame sources = Some vs.
Proof.
  revert val. induction sources as [|r sources IH]; intros val; [by exists []|].
  cbn. intros Hf. inv_ok. apply slice_get_ok in Ha. destruct (IH _ Hf) as [vs Hvs].
  exists (a :: vs). apply values_cons. by exists a, vs.
Qed.

Lemma frame_fits_ok p regs frame : frame_fits p regs frame -> frame_ok frame.
Proof. unfold frame_fits, frame_ok. induction 1 as [|r v regs frame Hv Hf IH]; constructor; [apply Hv | done]. Qed.

(** Every executor ends by storing a word in the target register. *)
Lemma store_fits p regs frame frame' target v :
  frame_fits p regs frame -> slice_set frame target v = Ok frame' ->
  word_ok v -> w_BigInt v < bound_of p regs target -> frame_fits p regs frame'.
Proof.
  intros Hf [Hlt ->]%slice_set_ok Hv Hb.
  destruct (lookup_lt_is_Some_2 regs target) as [t Ht]; [by rewrite (Forall2_length _ _ _ Hf)|].
  apply (fits_insert p regs frame target t v Hf Ht). unfold bound_of in Hb. by rewrite Ht in Hb.
Qed.

Lemma width_of_inv regs target w p :
  regs_ok regs -> width_of regs target = Ok w ->
  width_ok w /\ bound_of p regs target = 2 ^ w.
Proof.
  unfold width_of, Register.Width. intros Hr Hw. inv_ok. apply slice_get_ok in Ha.
  destruct (proj1 (Forall_lookup _ _) Hr _ _ Ha) as [Hn|Hok]; [by rewrite Hn in Hw|].
  unfold bound_of, bound. rewrite Ha. destruct (Register.IsNative a); [done|]. by injection Hw as <-.
Qed.

Lemma lor_bound a b n : 0 <= n -> 0 <= a < 2 ^ n -> 0 <= b < 2 ^ n -> 0 <= Z.lor a b < 2 ^ n.
Proof.
  intros Hn Ha Hb. rewrite <- (Z.mod_small a (2 ^ n)), <- (Z.mod_small b (2 ^ n)) by done.
  rewrite <- !Z.land_ones, <- Z.land_lor_distr_l, Z.land_ones by done.
  apply Z.mod_pos_bound. by apply Z.pow_pos_nonneg.
Qed.

Lemma lxor_bound a b n : 0 <= n -> 0 <= a < 2 ^ n -> 0 <= b < 2 ^ n -> 0 <= Z.lxor a b < 2 ^ n.
Proof.
  intros Hn Ha Hb.
  assert (Z.lxor a b = Z.land (Z.lxor a b) (Z.ones n)) as ->.
  { apply Z.bits_inj'. intros i Hi. rewrite Z.land_spec, Z.lxor_spec, Z.testbit_ones_nonneg by lia.
    destruct (Z.ltb_spec i n); [by rewrite andb_true_r|].
    rewrite <- (Z.mod_small a (2 ^ n)), <- (Z.mod_small b (2 ^ n)) by done.
    rewrite !Z.mod_pow2_bits_high by lia. done. }
  rewrite Z.land_ones by done. apply Z.mod_pos_bound. by apply Z.pow_pos_nonneg.
Qed.

Lemma land_fold_bound (l : list Z) c : 0 <= c -> Forall (fun v => 0 <= v) l -> 0 <= foldl Z.land c l <= c.
Proof.
  revert c. induction l as [|x l IH]; intros c Hc Hl; cbn; [lia|].
  apply Forall_cons in Hl as [Hx Hl].
  assert (0 <= Z.land c x <= c) as Hle.
  { split; [apply Z.land_nonneg; by left|].
    assert (Z.ldiff c x + Z.land c x = c) as He.
    { rewrite Z.add_nocarry_lor.
      - apply Z.bits_inj'. intros i Hi. rewrite Z.lor_spec, Z.ldiff_spec, Z.land_spec.
        by destruct (Z.testbit c i), (Z.testbit x i).
      - apply Z.bits_inj'. intros i Hi. rewrite Z.land_spec, Z.ldiff_spec, Z.land_spec, Z.testbit_0_l.
        by destruct (Z.testbit c i), (Z.testbit x i). }
    assert (0 <= Z.ldiff c x) by (apply Z.ldiff_nonneg; by left). lia. }
  specialize (IH (Z.land c x) ltac:(lia) Hl). lia.
Qed.

Lemma fold_bound (f : Z -> Z -> Z) (l : list Z) c n :
  (forall a b, 0 <= a < 2 ^ n -> 0 <= b < 2 ^ n -> 0 <= f a b < 2 ^ n) ->
  0 <= c < 2 ^ n -> Forall (fun v => 0 <= v < 2 ^ n) l -> 0 <= foldl f c l < 2 ^ n.
Proof.
  intros Hf. revert c. induction l as [|x l IH]; intros c Hc Hl; cbn; [done|].
  apply Forall_cons in Hl as [Hx Hl]. apply IH; [by apply Hf | done].
Qed.

Lemma fit_values p regs frame sources vs b :
  frame_fits p regs frame -> values frame sources = Some vs ->
  (forall s, s ∈ sources -> bound_of p regs s <= b) ->
  Forall (fun v => 0 <= v < b) (w_BigInt <$> vs).
Proof.
  intros Hf. revert vs. induction sources as [|r sources IH]; intros vs; [by intros [= <-]; constructor|].
  intros (x & rest & -> & Hx & Hr)%values_cons Hb. cbn. constructor.
  - destruct (fits_lookup p regs frame r x Hf Hx) as (t & _ & [Hxo _] & Hlt).
    specialize (Hb r (list_elem_of_here _ _)). pose proof (nonneg_law x Hxo). lia.
  - apply (IH rest Hr). intros s Hs. apply Hb. by right.
Qed.

Lemma concat_fits w (val v : W) offset rids frame regs :
  width_ok w -> frame_ok frame -> word_ok val -> w_BigInt val < 2 ^ w -> 0 <= offset ->
  concat_loop w val offset rids frame regs = Ok v -> word_ok v /\ w_BigInt v < 2 ^ w.
Proof.
  intros Hw Hf. revert val offset. induction rids as [|r rids IH]; intros val offset Hval Hlt Hoff; cbn.
  { by intros [= <-]. }
  intros Hc. inv_ok. apply slice_get_ok in Ha0.
  assert (word_ok a0) as Hao by (by eapply Forall_lookup in Hf).
  destruct (Shl64_law w a0 offset Hw Hao Hoff) as [Hs Hsv].
  destruct (Or_law w val (w_Shl64 w a0 offset) Hval Hs) as [Ho Hov].
  apply (IH _ _ Ho) in Hc; [done | | apply u64_bound].
  rewrite Hov, Hsv. unfold width_ok in Hw. pose proof (nonneg_law val Hval).
  apply lor_bound; [lia | lia |]. apply Z.mod_pos_bound. apply Z.pow_pos_nonneg; lia.
Qed.

Lemma destruct_fits p (val : W) rids frame frame' regs :
  regs_ok regs -> frame_fits p regs frame -> word_ok val ->
  destruct_loop val rids frame regs = Ok frame' -> frame_fits p regs frame'.
Proof.
  intros Hr. revert val frame. induction rids as [|r rids IH]; intros val frame Hf Hval; cbn; [by intros [= <-]|].
  intros Hd. inv_ok. destruct (width_of_inv regs r a p Hr Ha) as [Hw Hb].
  destruct (Slice_law a val Hw Hval) as [Hs Hsv]. unfold width_ok in Hw.
  destruct (Shr64_law val a Hval) as [Hsh _]; [lia|].
  apply (IH _ _ (store_fits p regs frame a0 r _ Hf Ha0 Hs
    ltac:(rewrite Hsv, Hb; apply Z.mod_pos_bound; apply Z.pow_pos_nonneg; lia)) Hsh Hd).
Qed.


(** The instructions with an accumulator *)
Section Cases.
Context (p : W) (regs : list Register.t) (frame frame' : list W).
Context (Hp : word_ok p) (Hregs : regs_ok regs) (Hfits : frame_fits p regs frame).

Lemma add_mul_fits target sources c (op : Z -> W -> W -> W * bool) msg w :
  width_ok w -> bound_of p regs target = 2 ^ w -> word_ok c ->
  sources <> [] \/ w_BigInt c < bound_of p regs target ->
  (forall x y, word_ok x -> word_ok y -> word_ok (op w x y).1 /\
     w_BigInt (op w x y).1 = w_BigInt (op w x y).1 mod 2 ^ w) ->
  (v ← fold_sources (checked (op w) msg) c sources frame; slice_set frame target v) = Ok frame' ->
  frame_fits p regs frame'.
Proof using Hregs Hfits.
  intros Hw Hb Hc Hne Hop Hx. inv_ok. destruct (fold_sources_ok _ _ _ _ _ Ha) as [vs Hvs].
  rewrite (fold_sources_vals _ _ _ _ _ Hvs) in Ha. pose proof (values_ok _ _ _ (frame_fits_ok _ _ _ Hfits) Hvs) as Hok.
  assert (Hpow : 0 < 2 ^ w) by (apply Z.pow_pos_nonneg; unfold width_ok in Hw; lia).
  assert (Hr : word_ok a /\ (vs <> [] \/ w_BigInt c < 2 ^ w -> w_BigInt a < 2 ^ w)).
  { clear Hx Hne Hvs. revert c Hc Ha. induction Hok as [|x vs Hxo Hok IH]; intros c Hc Ha; cbn in Ha.
    - injection Ha as <-. split; [done|]. by intros [|].
    - rewrite (checked_eq (op w) msg c x) in Ha. destruct (Hop c x Hc Hxo) as [Ho Hm].
      destruct (op w c x).2; [done|]. cbn in Ha. destruct (IH _ Ho Ha) as [Hao Hlt]. split; [done|].
      intros _. apply Hlt. right. rewrite Hm. by apply Z.mod_pos_bound. }
  destruct Hr as [Hao Hlt]. apply (store_fits p regs frame frame' target a Hfits Hx Hao).
  rewrite Hb. apply Hlt. rewrite <- Hb. destruct Hne as [Hne|]; [left | by right].
  intros ->. destruct sources; [done|]. apply values_cons in Hvs as (? & ? & ? & _). done.
Qed.

Lemma sub_fits target sources c :
  word_ok c -> (forall s, head sources = Some s -> bound_of p regs s <= bound_of p regs target) ->
  executeSub target sources c frame regs = Ok frame' -> frame_fits p regs frame'.
Proof using Hregs Hfits.
  intros Hc Hs Hx. unfold executeSub in Hx. inv_ok. destruct (width_of_inv regs target a p Hregs Ha) as [Hw Hb].
  assert (Hpow : 0 < 2 ^ a) by (apply Z.pow_pos_nonneg; unfold width_ok in Hw; lia).
  assert (Hval : word_ok a0 /\ w_BigInt a0 < 2 ^ a).
  { destruct sources as [|r sources]; cbn in Ha0; [injection Ha0 as <-; by destruct zero_law as [? ->]|].
    inv_ok. apply slice_get_ok in Ha2. destruct (fits_lookup p regs frame r _ Hfits Ha2) as (t & _ & [Hao _] & Hlt).
    specialize (Hs r eq_refl). destruct (fold_sources_ok _ _ _ _ _ Ha0) as [vs Hvs].
    rewrite (fold_sources_vals _ _ _ _ _ Hvs) in Ha0.
    pose proof (values_ok _ _ _ (frame_fits_ok _ _ _ Hfits) Hvs) as Hok. pose proof (sum_nonneg vs Hok).
    destruct (sub_vals a "arithmetic underflow" a2 vs Hao Hok) as [(_ & v & He & Hvo & Hvv)|(_ & He)];
      rewrite He in Ha0; [|done]. injection Ha0 as <-. split; [done | lia]. }
  destruct Hval as [Hao Hlt]. rewrite checked_eq, Sub_borrow in Ha1 by done.
  destruct (Z.ltb_spec (w_BigInt a0) (w_BigInt c)); [done|]. injection Ha1 as <-.
  destruct (Sub_ok a a0 c Hao Hc) as [Hso Hsv]; [done|]. pose proof (nonneg_law c Hc).
  apply (store_fits p regs frame frame' target _ Hfits Hx Hso). lia.
Qed.

Lemma mod_fits target sources c (op : W -> W -> W -> W) :
  0 < w_BigInt p <= bound_of p regs target -> word_ok c ->
  sources <> [] \/ w_BigInt c < w_BigInt p ->
  (forall x y, word_ok x -> word_ok y -> word_ok (op x y p) /\ 0 <= w_BigInt (op x y p) < w_BigInt p) ->
  (v ← fold_sources (unchecked (fun c x => op c x p)) c sources frame; slice_set frame target v) = Ok frame' ->
  frame_fits p regs frame'.
Proof using Hfits.
  intros Hpb Hc Hne Hop Hx. inv_ok. destruct (fold_sources_ok _ _ _ _ _ Ha) as [vs Hvs].
  rewrite (fold_sources_vals _ _ _ _ _ Hvs), fold_vals_unchecked in Ha. injection Ha as <-.
  pose proof (values_ok _ _ _ (frame_fits_ok _ _ _ Hfits) Hvs) as Hok.
  assert (Hr : word_ok (foldl (fun c x => op c x p) c vs) /\
    (vs <> [] \/ w_BigInt c < w_BigInt p -> w_BigInt (foldl (fun c x => op c x p) c vs) < w_BigInt p)).
  { clear Hx Hne Hvs. revert c Hc. induction Hok as [|x vs Hxo Hok IH]; intros c Hc; cbn.
    - split; [done|]. by intros [|].
    - destruct (Hop c x Hc Hxo) as [Ho Hm]. destruct (IH _ Ho) as [Hao Hlt]. split; [done|].
      intros _. apply Hlt. right. lia. }
  destruct Hr as [Hao Hlt]. apply (store_fits p regs frame frame' target _ Hfits Hx Hao).
  enough (w_BigInt (foldl (fun c x => op c x p) c vs) < w_BigInt p) by lia. apply Hlt.
  destruct Hne as [Hne|]; [left | by right].
  intros ->. destruct sources; [done|]. apply values_cons in Hvs as (? & ? & ? & _). done.
Qed.

Lemma bit_fits target sources c (op : Z -> W -> W -> W) f w :
  bound_of p regs target = 2 ^ w -> word_ok c ->
  (forall x y, word_ok x -> word_ok y -> word_ok (op w x y) /\ w_BigInt (op w x y) = f (w_BigInt x) (w_BigInt y)) ->
  (forall vs, values frame sources = Some vs -> foldl f (w_BigInt c) (w_BigInt <$> vs) < 2 ^ w) ->
  (v ← fold_sources (unchecked (op w)) c sources frame; slice_set frame target v) = Ok frame' ->
  frame_fits p regs frame'.
Proof using Hfits.
  intros Hb Hc Hop Hlt Hx. inv_ok. destruct (fold_sources_ok _ _ _ _ _ Ha) as [vs Hvs].
  rewrite (fold_sources_vals _ _ _ _ _ Hvs), fold_vals_unchecked in Ha. injection Ha as <-.
  destruct (bit_vals (op w) f c vs Hop Hc (values_ok _ _ _ (frame_fits_ok _ _ _ Hfits) Hvs)) as [Ho Hv].
  apply (store_fits p regs frame frame' target _ Hfits Hx Ho). rewrite Hb, Hv. by apply Hlt.
Qed.

(** The two operands, with the bounds of their registers *)
Lemma operands_fit sources x y :
  operands sources frame = Ok (x, y) ->
  exists a b, sources !! 0%nat = Some a /\ sources !! 1%nat = Some b /\
    (word_ok x /\ w_BigInt x < bound_of p regs a) /\ (word_ok y /\ w_BigInt y < bound_of p regs b).
Proof using Hfits.
  unfold operands. intros Ho. inv_ok. injection Ho as <- <-. apply slice_get_ok in Ha, Ha0, Ha1, Ha2.
  destruct (fits_lookup p regs frame _ _ Hfits Ha0) as (? & _ & [Hx _] & Hxb).
  destruct (fits_lookup p regs frame _ _ Hfits Ha2) as (? & _ & [Hy _] & Hyb).
  by exists a, a1.
Qed.

Lemma div_rem_fits target sources :
  (executeDiv target sources frame regs = Ok frame' /\
     (forall s, sources !! 0%nat = Some s -> bound_of p regs s <= bound_of p regs target)) \/
  (executeRem target sources frame regs = Ok frame' /\
     (forall s, sources !! 1%nat = Some s -> bound_of p regs s <= bound_of p regs target)) ->
  frame_fits p regs frame'.
Proof using Hregs Hfits.
  intros [[Hx Hs]|[Hx Hs]]; unfold executeDiv, executeRem in Hx; apply bind_ok in Hx as (w & Hw & Hx);
    apply bind_ok in Hx as ([x y] & Ho & Hx);
    destruct (operands_fit _ _ _ Ho) as (a & b & Ha & Hb & [Hxo Hxb] & [Hyo Hyb]);
    pose proof (nonneg_law x Hxo); pose proof (nonneg_law y Hyo);
    destruct (Z.eqb_spec (Z.sgn (w_BigInt y)) 0); try done; apply bind_ok in Hx as (v & Hv & Hx).
  - destruct (Div_law w x y Hxo Hyo ltac:(lia)) as (v' & Hv' & Hvo & Hvv). rewrite Hv in Hv'. injection Hv' as <-.
    apply (store_fits p regs frame frame' target v Hfits Hx Hvo). specialize (Hs a Ha). rewrite Hvv.
    assert (w_BigInt x / w_BigInt y <= w_BigInt x) by (apply Z.div_le_upper_bound; nia). lia.
  - destruct (Rem_law w x y Hxo Hyo ltac:(lia)) as (v' & Hv' & Hvo & Hvv). rewrite Hv in Hv'. injection Hv' as <-.
    apply (store_fits p regs frame frame' target v Hfits Hx Hvo). specialize (Hs b Hb). rewrite Hvv.
    pose proof (Z.mod_pos_bound (w_BigInt x) (w_BigInt y)). lia.
Qed.

Lemma shift_fits target sources :
  (forall s, sources !! 1%nat = Some s -> bound_of p regs s <= 2 ^ 64) ->
  executeShl target sources frame regs = Ok frame' \/
  (executeShr target sources frame regs = Ok frame' /\
     (forall s, sources !! 0%nat = Some s -> bound_of p regs s <= bound_of p regs target)) ->
  frame_fits p regs frame'.
Proof using Hregs Hfits.
  intros Hamount [Hx|[Hx Hs]]; unfold executeShl, executeShr in Hx; apply bind_ok in Hx as (w & Hw & Hx);
    apply bind_ok in Hx as ([x y] & Ho & Hx);
    destruct (operands_fit _ _ _ Ho) as (a & b & Ha & Hb & [Hxo Hxb] & [Hyo Hyb]);
    destruct (width_of_inv regs target w p Hregs Hw) as [Hwok Hbw];
    specialize (Hamount b Hb); pose proof (nonneg_law x Hxo); apply bind_ok in Hx as (v & Hv & Hx).
  - destruct (Shl_law w x y Hwok Hxo Hyo ltac:(lia)) as (v' & Hv' & Hvo & Hvv). rewrite Hv in Hv'. injection Hv' as <-.
    apply (store_fits p regs frame frame' target v Hfits Hx Hvo). rewrite Hvv, Hbw. apply Z.mod_pos_bound.
    apply Z.pow_pos_nonneg; unfold width_ok in Hwok; lia.
  - destruct (Shr_law w x y Hxo Hyo ltac:(lia)) as (v' & Hv' & Hvo & Hvv). rewrite Hv in Hv'. injection Hv' as <-.
    apply (store_fits p regs frame frame' target v Hfits Hx Hvo). specialize (Hs a Ha). rewrite Hvv.
    pose proof (nonneg_law y Hyo).
    assert (w_BigInt x / 2 ^ w_BigInt y <= w_BigInt x).
    { apply Z.div_le_upper_bound; [by apply Z.pow_pos_nonneg|].
      assert (0 < 2 ^ w_BigInt y) by (by apply Z.pow_pos_nonneg). nia. }
    lia.
Qed.

Lemma not_fits target sources :
  (forall s, sources !! 0%nat = Some s -> bound_of p regs s <= bound_of p regs target) ->
  executeNot target sources frame regs = Ok frame' -> frame_fits p regs frame'.
Proof using Hregs Hfits.
  intros Hs Hx. unfold executeNot in Hx. inv_ok. apply slice_get_ok in Ha0, Ha1.
  destruct (width_of_inv regs target a p Hregs Ha) as [Hw Hb]. specialize (Hs _ Ha0).
  destruct (fits_lookup p regs frame _ _ Hfits Ha1) as (? & _ & [Ho _] & Hlt).
  destruct (Not_law a a1 Hw Ho) as [Hno Hnv]; [lia|]. pose proof (nonneg_law a1 Ho).
  apply (store_fits p regs frame frame' target _ Hfits Hx Hno). lia.
Qed.

Lemma cast_fits target source width :
  (if width =? MaxUint then w_BigInt p <= bound_of p regs target
   else width_ok width /\ 2 ^ width <= bound_of p regs target) ->
  (if width =? MaxUint then executeFieldCast target source p frame
   else executeCast target source width frame) = Ok frame' -> frame_fits p regs frame'.
Proof using Hp Hfits.
  destruct (width =? MaxUint); unfold executeFieldCast, executeCast; intros Ht Hx; inv_ok;
    apply slice_get_ok in Ha; destruct (fits_lookup p regs frame _ _ Hfits Ha) as (? & _ & [Ho _] & _).
  - rewrite Cmp_law in Hx by done.
    destruct (Z.compare_spec (w_BigInt a) (w_BigInt p)); try done.
    apply (store_fits p regs frame frame' target _ Hfits Hx Ho). lia.
  - destruct Ht as [Hw Hb]. destruct (Slice_law width a Hw Ho) as [Hs Hsv].
    destruct (w_Cmp a (w_Slice width a)); try done.
    apply (store_fits p regs frame frame' target _ Hfits Hx Hs). rewrite Hsv.
    pose proof (Z.mod_pos_bound (w_BigInt a) (2 ^ width)).
    assert (0 < 2 ^ width) by (apply Z.pow_pos_nonneg; unfold width_ok in Hw; lia). lia.
Qed.

Lemma concat_result_fits target sources :
  executeConcat target sources frame regs = Ok frame' -> frame_fits p regs frame'.
Proof using Hregs Hfits.
  intros Hx. unfold executeConcat in Hx. inv_ok. destruct (width_of_inv regs target a p Hregs Ha) as [Hw Hb].
  destruct zero_law as [Hz Hz0].
  destruct (concat_fits a w_zero a0 0 sources frame regs Hw (frame_fits_ok _ _ _ Hfits) Hz) as [Ho Hv];
    [|done|done|].
  { rewrite Hz0. apply Z.pow_pos_nonneg; unfold width_ok in Hw; lia. }
  apply (store_fits p regs frame frame' target _ Hfits Hx Ho). by rewrite Hb.
Qed.

End Cases.

Lemma Execute_fits (p : W) regs insn frame frame' :
  word_ok p -> regs_ok regs -> frame_fits p regs frame -> typed p regs insn ->
  Execute p insn frame regs = Ok frame' -> frame_fits p regs frame'.
Proof.
  intros Hp Hr Hf Ht Hx. destruct insn as [| | | | | |op target sources c|target source width|targets source];
    try discriminate Hx.
  - cbn [Execute typed] in *. destruct Ht as [Hc Ht].
    assert (Hw : forall w, width_of regs target = Ok w -> width_ok w /\ bound_of p regs target = 2 ^ w /\ 0 < 2 ^ w).
    { intros w Hw. destruct (width_of_inv regs target w p Hr Hw) as [H1 H2]. split; [done|]. split; [done|].
      apply Z.pow_pos_nonneg; unfold width_ok in H1; lia. }
    destruct op; try discriminate Hx.
    + apply bind_ok in Hx as (w & Hwt & Hx). destruct (Hw w Hwt) as (Hwo & Hb & Hpos).
      apply (add_mul_fits p regs frame frame' Hr Hf target sources c w_Add _ w Hwo Hb Hc Ht) in Hx; [done|].
      intros x y Hxo Hyo. destruct (Add_law w x y Hwo Hxo Hyo) as (? & -> & _). split; [done|].
      by rewrite Z.mod_mod by lia.
    + by apply (sub_fits p regs frame frame' Hr Hf target sources c).
    + apply bind_ok in Hx as (w & Hwt & Hx). destruct (Hw w Hwt) as (Hwo & Hb & Hpos).
      apply (add_mul_fits p regs frame frame' Hr Hf target sources c w_Mul _ w Hwo Hb Hc Ht) in Hx; [done|].
      intros x y Hxo Hyo. destruct (Mul_law w x y Hwo Hxo Hyo) as (? & -> & _). split; [done|].
      by rewrite Z.mod_mod by lia.
    + apply (div_rem_fits p regs frame frame' Hr Hf target sources). by left.
    + apply (div_rem_fits p regs frame frame' Hr Hf target sources). by right.
    + destruct Ht as [Hb Hne]. apply (mod_fits p regs frame frame' Hf target sources c w_AddMod Hb Hc Hne); [|done].
      intros x y Hxo Hyo. destruct (AddMod_law x y p Hxo Hyo Hp) as [? ->]; [lia|].
      split; [done|]. apply Z.mod_pos_bound. lia.
    + unfold executeFieldSub in Hx. apply bind_ok in Hx as (v & Hv & Hx).
      assert (word_ok v) as Hvo.
      { destruct sources as [|r sources]; cbn in Hv; [injection Hv as <-; apply zero_law|]. inv_ok.
        apply slice_get_ok in Ha. destruct (fits_lookup p regs frame _ _ Hf Ha) as (? & _ & [Ho _] & _).
        destruct (fold_sources_ok _ _ _ _ _ Hv) as [vs Hvs].
        rewrite (fold_sources_vals _ _ _ _ _ Hvs), fold_vals_unchecked in Hv. injection Hv as <-.
        apply (mod_vals w_SubMod Z.sub p); [|typeclasses eauto|done|].
        - intros. apply SubMod_law; (done || lia).
        - exact (values_ok _ _ _ (frame_fits_ok _ _ _ Hf) Hvs). }
      destruct (SubMod_law v c p Hvo Hc Hp) as [Ho Hval]; [lia|].
      apply (store_fits p regs frame frame' target _ Hf Hx Ho). rewrite Hval.
      pose proof (Z.mod_pos_bound (w_BigInt v - w_BigInt c) (w_BigInt p)). lia.
    + destruct Ht as [Hb Hne]. apply (mod_fits p regs frame frame' Hf target sources c w_MulMod Hb Hc Hne); [|done].
      intros x y Hxo Hyo. destruct (MulMod_law x y p Hxo Hyo Hp) as [? ->]; [lia|].
      split; [done|]. apply Z.mod_pos_bound. lia.
    + apply bind_ok in Hx as (w & Hwt & Hx). destruct (Hw w Hwt) as (Hwo & Hb & Hpos).
      apply (bit_fits p regs frame frame' Hf target sources c w_And Z.land w Hb Hc (And_law w)) in Hx; [done|].
      intros vs Hvs. pose proof (values_ok _ _ _ (frame_fits_ok _ _ _ Hf) Hvs) as Hok.
      pose proof (land_fold_bound (w_BigInt <$> vs) (w_BigInt c) (nonneg_law c Hc)) as Hl.
      rewrite Hb in Ht. enough (Forall (fun v => 0 <= v) (w_BigInt <$> vs)) as Hnn by (specialize (Hl Hnn); lia).
      apply Forall_fmap. eapply Forall_impl; [exact Hok|]. intros x. apply nonneg_law.
    + apply bind_ok in Hx as (w & Hwt & Hx). destruct (Hw w Hwt) as (Hwo & Hb & Hpos). destruct Ht as [Hcb Hs].
      apply (bit_fits p regs frame frame' Hf target sources c w_Or Z.lor w Hb Hc (Or_law w)) in Hx; [done|].
      intros vs Hvs. rewrite Hb in Hcb, Hs. pose proof (fit_values p regs frame sources vs _ Hf Hvs Hs) as Hv.
      apply fold_bound; [|pose proof (nonneg_law c Hc); lia|done].
      intros a b. apply lor_bound. unfold width_ok in Hwo. lia.
    + apply bind_ok in Hx as (w & Hwt & Hx). destruct (Hw w Hwt) as (Hwo & Hb & Hpos). destruct Ht as [Hcb Hs].
      apply (bit_fits p regs frame frame' Hf target sources c w_Xor Z.lxor w Hb Hc (Xor_law w)) in Hx; [done|].
      intros vs Hvs. rewrite Hb in Hcb, Hs. pose proof (fit_values p regs frame sources vs _ Hf Hvs Hs) as Hv.
      apply fold_bound; [|pose proof (nonneg_law c Hc); lia|done].
      intros a b. apply lxor_bound. unfold width_ok in Hwo. lia.
    + by apply (not_fits p regs frame frame' Hr Hf target sources).
    + apply (shift_fits p regs frame frame' Hr Hf target sources Ht). by left.
    + destruct Ht as [H0 H1]. apply (shift_fits p regs frame frame' Hr Hf target sources H1). by right.
    + by apply (concat_result_fits p regs frame frame' Hr Hf target sources).
  - by apply (cast_fits p regs frame frame' Hp Hf target source width).
  - cbn [Execute] in Hx. unfold executeDestruct in Hx. inv_ok. apply slice_get_ok in Ha.
    destruct (fits_lookup p regs frame _ _ Hf Ha) as (? & _ & [Ho _] & _).
    by apply (destruct_fits p a targets frame frame' regs).
Qed.

End Typing.

Module TypingProperties.
Section Properties.
Context {W : Type} `{!Word W, !WordLaws W}.

(** Executing a typed instruction keeps every register within its type:
    fixed-width registers stay below their bound and native registers below
    the prime, whatever instruction was executed. *)
Theorem execute_preserves_types (p : W) regs insn frame frame' :
  word_ok p -> regs_ok regs -> frame_fits p regs frame -> typed p regs insn ->
  Execute p insn frame regs = Ok frame' -> frame_fits p regs frame'.
Proof. apply Execute_fits. Qed.

End Properties.

(** Witnesses *)

Definition sample_regs : list Register.t :=
  [Register.NewInput "x" 8 0; Register.NewInput "y" 8 0; Register.NewOutput "r" 16 0].
Definition sample_frame : list Uint.t := [200; 100; 0].

Lemma sample_frame_ok : frame_ok sample_frame.
Proof. repeat constructor; cbn; lia. Qed.

Lemma sample_width : width_ok 16.
Proof. unfold width_ok. lia. Qed.

Lemma execute_integer_witness :
  (if 2 ^ 16 <=? 5 + sum_of (W := Uint.t) [200; 100]
   then executeAdd 2 [0%nat; 1%nat] (5 : Uint.t) sample_frame sample_regs = Fault (Error "executeAdd arithmetic overflow")
   else assigns (executeAdd 2 [0%nat; 1%nat] (5 : Uint.t) sample_frame sample_regs) sample_frame 2 (5 + sum_of (W := Uint.t) [200; 100])).
Proof.
  refine (proj1 (ExecutorProperties.execute_integer sample_frame sample_regs 2 (Register.NewOutput "r" 16 0)
    eq_refl eq_refl sample_width _ sample_frame_ok [0%nat; 1%nat] [200; 100] 200 [100] (5 : Uint.t) eq_refl eq_refl _));
    cbn; lia.
Defined.

Lemma execute_field_witness :
  assigns (executeFieldAdd 2 [0%nat; 1%nat] (5 : Uint.t) 251 sample_frame) sample_frame 2 ((5 + 300) mod 251).
Proof.
  refine (proj1 (ExecutorProperties.execute_field sample_frame sample_regs 2 (Register.NewOutput "r" 16 0)
    eq_refl eq_refl sample_width _ sample_frame_ok [0%nat; 1%nat] [200; 100] 200 [100] (5 : Uint.t) 251 0 200
    eq_refl eq_refl _ _ _ eq_refl)); cbn; unfold Uint.BigInt; lia.
Defined.

Lemma execute_bitwise_witness :
  assigns (executeAnd 2 [0%nat; 1%nat] (255 : Uint.t) sample_frame sample_regs) sample_frame 2
    (foldl Z.land 255 [200; 100]).
Proof.
  refine (proj1 (ExecutorProperties.execute_bitwise sample_frame sample_regs 2 (Register.NewOutput "r" 16 0)
    eq_refl eq_refl sample_width _ sample_frame_ok [0%nat; 1%nat] [200; 100] (255 : Uint.t) 0 1 200 100 0 200 8
    eq_refl _ eq_refl eq_refl _ eq_refl _)); unfold width_ok; cbn; unfold Uint.BigInt; lia.
Defined.

Lemma concat_destruct_witness :
  exists v, executeConcat 2 [0%nat; 1%nat] sample_frame sample_regs = Ok (<[2%nat := v]> sample_frame) /\
    w_BigInt v = packed [8; 8] [200; 100] /\
    executeDestruct [0%nat; 1%nat] 2 (<[2%nat := v]> sample_frame) sample_regs = Ok (<[2%nat := v]> sample_frame).
Proof.
  refine (proj1 (ConcatProperties.concat_destruct sample_frame sample_regs 2 (Register.NewOutput "r" 16 0)
    [0%nat; 1%nat] [8; 8] [200; 100] eq_refl eq_refl sample_width _ _ _ eq_refl _ _ eq_refl _ _)).
  - cbn. lia.
  - by intros [?|[?|[]%not_elem_of_nil]%elem_of_cons]%elem_of_cons.
  - constructor; [by intros [?|[]%not_elem_of_nil]%elem_of_cons | apply NoDup_singleton].
  - repeat constructor; lia.
  - cbn. lia.
  - repeat constructor; cbn; lia.
  - unfold limbs_fit. cbn. unfold Uint.BigInt.
    apply Forall2_cons; split; [lia|]. apply Forall2_cons; split; [lia|]. apply Forall2_nil_2.
Defined.

Lemma execute_preserves_types_witness : frame_fits (251 : Uint.t) sample_regs [200; 100; 305].
Proof.
  apply (execute_preserves_types (251 : Uint.t) sample_regs (NewIntAdd 2 [0%nat; 1%nat] 5) sample_frame).
  - cbn. lia.
  - repeat (constructor; [right; unfold width_ok; cbn; lia|]). constructor.
  - unfold frame_fits, sample_regs, sample_frame.
    repeat (apply Forall2_cons_2; [split; vm_compute; [discriminate|reflexivity]|]). apply Forall2_nil_2.
  - cbn. unfold Uint.BigInt. split; [lia | by left].
  - reflexivity.
Defined.

End TypingProperties.
