(* ===== verification/Machine.v ===== *)
(** * The machine

    Models [pkg/zkc/vm/internal/machine/core.go] (stack frames, program
    counters) and [base.go] (the base machine: modules, call stack, an executor
    for the straight-line instructions), the constructor of [word.go], and
    [ExecuteAll] and [ExecuteAndObserve] of [pkg/zkc/vm/machine.go].

    The machine mutates its frames and memories in place.  Each live frame and
    each module is referenced from one place, so a step is a function from the
    old machine to the new one: [Ok p'] when it returns nil, [Fault (Error _)]
    when it returns an error (the machine is then left as it was: every error
    is reported before the first assignment of the step), [Fault (Panic _)] when
    it panics.  The text printed by debug instructions is kept in [stdout].
    Counters and indices are natural numbers; programs are far below 2^64. *)

From Stdlib Require Import ZArith Lia.
From stdpp Require Import base numbers list option strings gmap.
From S2P Require Import Prelude Word Register Memory Instruction Executor.

(** ** Program counters *)

Module PC.

Record t : Type := mk { Macro : nat; Micro : nat }.

Definition First (p : t) : bool := (Micro p =? 0)%nat && (Macro p =? 0)%nat.

Definition Goto (p : t) (pc : nat) : t := mk pc 0.

Definition Next (p : t) (width : nat) : t :=
  let ncc := S (Micro p) in
  if (width <=? ncc)%nat then Goto p (S (Macro p)) else mk (Macro p) ncc.

Definition Skip (p : t) (n : nat) : t := mk (Macro p) (Micro p + n).

End PC.

(** ** Stack frames *)

Module Frame.
Section Frame.
Context {W : Type} `{!Word W}.

Record t : Type := mk {
  functionId : nat;
  pc : PC.t;
  args : nat;
  registers : list W;
  returns : list nat
}.

Definition NewFrame (fid width nargs : nat) (rets : list nat) : t :=
  mk fid (PC.mk 0 0) nargs (replicate width w_zero) rets.

Definition Goto (p : t) (c : PC.t) : t := mk (functionId p) c (args p) (registers p) (returns p).

Definition with_registers (p : t) (regs : list W) : t :=
  mk (functionId p) (pc p) (args p) regs (returns p).

Definition Load (p : t) (reg : nat) : result W := slice_get (registers p) reg.

Definition Return (p : t) (reg : nat) : result W := slice_get (registers p) (args p + reg).

Definition Store (p : t) (reg : nat) (value : W) : result t :=
  with_registers p <$> slice_set (registers p) reg value.

Definition Width (p : t) : nat := length (registers p).

End Frame.
Arguments t W : clear implicits.
End Frame.

(** ** The base machine *)

Section Base.
Context {W : Type} `{!Word W}.

(** [Executor]: one instruction on the registers of the executing frame. *)
Definition Executor : Type := Instruction W -> list W -> list Register.t -> result (list W).

Inductive Module_ : Type :=
  | MFunction (f : Function W)
  | MMemory (m : Memory W).

Record Base : Type := mkBase {
  modules : list Module_;
  callstack : list (Frame.t W);
  executor : Executor;
  stdout : list string
}.

Definition NewBase (e : Executor) (ms : list Module_) : Base := mkBase ms [] e [].

Definition with_modules (p : Base) (ms : list Module_) : Base :=
  mkBase ms (callstack p) (executor p) (stdout p).
Definition with_callstack (p : Base) (cs : list (Frame.t W)) : Base :=
  mkBase (modules p) cs (executor p) (stdout p).
Definition print (p : Base) (s : string) : Base :=
  mkBase (modules p) (callstack p) (executor p) (stdout p ++ [s]).

(** The type assertions of a module as a function and as a memory. *)
Definition as_function (m : Module_) : result (Function W) :=
  match m with MFunction f => Ok f | MMemory _ => Fault bad_type end.
Definition as_memory (m : Module_) : result (Memory W) :=
  match m with MFunction _ => Fault bad_type | MMemory m => Ok m end.

Definition Name (m : Module_) : string :=
  match m with MFunction f => Instruction.name f | MMemory m => Memory.name_of m end.

Definition Depth (p : Base) : nat := length (callstack p).
Definition StackFrame (p : Base) (n : nat) : result (Frame.t W) := slice_get (callstack p) n.

(** [for i, arg := range args { bootFrame.Store(uint(i), frame[arg.Unwrap()]) }] *)
Fixpoint store_args (i : nat) (args : list nat) (frame : list W) (boot : Frame.t W) : result (Frame.t W) :=
  match args with
  | [] => Ok boot
  | arg :: rest =>
      v ← slice_get frame arg;
      boot' ← Frame.Store boot i v;
      store_args (S i) rest frame boot'
  end.

Definition Enter (p : Base) (id : nat) (frame : list W) (args returns : list nat) : result Base :=
  m ← slice_get (modules p) id;
  mainFn ← as_function m;
  bootFrame ← store_args 0 args frame (Frame.NewFrame id (Width mainFn) (length args) returns);
  Ok (with_callstack p (callstack p ++ [bootFrame])).

(** [for i, r := range frame.returns { ... p.callstack[n-1].Store(r.Unwrap(), val) }]:
    [caller] is [p.callstack[n-1]]. *)
Fixpoint write_returns (i : nat) (rets : list nat) (frame caller : Frame.t W) : result (Frame.t W) :=
  match rets with
  | [] => Ok caller
  | r :: rest =>
      val ← Frame.Return frame i;
      caller' ← Frame.Store caller r val;
      write_returns (S i) rest frame caller'
  end.

Definition Leave (p : Base) : result (bool * Base) :=
  let n := (length (callstack p) - 1)%nat in
  frame ← slice_get (callstack p) n;
  let cs := take n (callstack p) in
  if (1 <=? n)%nat then
    caller ← slice_get cs (n - 1);
    caller' ← write_returns 0 (Frame.returns frame) frame caller;
    Ok (false, with_callstack p (<[(n - 1)%nat := caller']> cs))
  else Ok (true, with_callstack p cs).

(** [input[m.Name()]] is nil when there is no input of that name. *)
Fixpoint initialise_modules (ms : list Module_) (input : gmap string (list W)) : result (list Module_) :=
  match ms with
  | [] => Ok []
  | MFunction f :: rest => rest' ← initialise_modules rest input; Ok (MFunction f :: rest')
  | MMemory m :: rest =>
      m' ← Memory.Initialise m (default [] (input !! Memory.name_of m));
      rest' ← initialise_modules rest input;
      Ok (MMemory m' :: rest')
  end.

Definition initialise (p : Base) (input : gmap string (list W)) : result Base :=
  with_modules p <$> initialise_modules (modules p) input.

(** The index of the first function with a given name. *)
Fixpoint find_function (i : nat) (ms : list Module_) (fn : string) : option nat :=
  match ms with
  | [] => None
  | MFunction f :: rest =>
      if bool_decide (Instruction.name f = fn) then Some i else find_function (S i) rest fn
  | MMemory _ :: rest => find_function (S i) rest fn
  end.

Definition missing_function : fault := Error "missing boot function".

Definition Boot (p : Base) (fn : string) (input : gmap string (list W)) : result Base :=
  match find_function 0 (modules p) fn with
  | Some i => p' ← initialise p input; Enter p' i [] [] []
  | None => Fault missing_function
  end.

Definition decode (p : Base) : result (Instruction W * nat * list Register.t) :=
  frame ← slice_get (callstack p) (length (callstack p) - 1);
  m ← slice_get (modules p) (Frame.functionId frame);
  fn ← as_function m;
  insn ← CodeAt fn (PC.Macro (Frame.pc frame));
  uInsn ← slice_get insn (PC.Micro (Frame.pc frame));
  Ok (uInsn, length insn, Instruction.registers fn).

Definition executeCondition (frame : list W) (cond : Condition) (left right : nat) : result bool :=
  lhs ← slice_get frame left;
  rhs ← slice_get frame right;
  let c := w_Cmp lhs rhs in
  if cond =? EQ then Ok (match c with Eq => true | _ => false end)
  else if cond =? NEQ then Ok (match c with Eq => false | _ => true end)
  else if cond =? LT then Ok (match c with Lt => true | _ => false end)
  else if cond =? LTEQ then Ok (match c with Gt => false | _ => true end)
  else if cond =? GT then Ok (match c with Gt => true | _ => false end)
  else if cond =? GTEQ then Ok (match c with Lt => false | _ => true end)
  else Fault (Panic "unreachable").

Fixpoint executeFormattedChunks (chunks : list FormattedChunk) (frame : list W) : result string :=
  match chunks with
  | [] => Ok ""%string
  | chunk :: rest =>
      s ← (if Format.HasFormat (Format_ chunk) then
             v ← slice_get frame (Argument chunk); Format.FormatWord (Format_ chunk) v
           else Ok ""%string);
      s' ← executeFormattedChunks rest frame;
      Ok (Text chunk +:+ s +:+ s')%string
  end.

(** [p.callstack[fp].Goto(pc)] *)
Definition goto_at (p : Base) (fp : nat) (pc : PC.t) : result Base :=
  fr ← slice_get (callstack p) fp;
  Ok (with_callstack p (<[fp := Frame.Goto fr pc]> (callstack p))).

(** The registers of frame [fp] after they were assigned in place. *)
Definition store_at (p : Base) (fp : nat) (regs : list W) : result Base :=
  fr ← slice_get (callstack p) fp;
  Ok (with_callstack p (<[fp := Frame.with_registers fr regs]> (callstack p))).

Definition executeInstruction (p : Base) (insn : Instruction W) (width : nat) (regs : list Register.t)
  : result Base :=
  let fp := (length (callstack p) - 1)%nat in
  stackframe ← slice_get (callstack p) fp;
  let frame := Frame.registers stackframe in
  let pc := Frame.pc stackframe in
  match OpCode_of insn, insn with
  | CALL, OpIo _ id arguments returns => Enter p id frame arguments returns
  | FAIL, Fail_ chunks =>
      msg ← executeFormattedChunks chunks frame;
      Fault (Error (match chunks with [] => "machine panic" | _ => "machine panic: " +:+ msg end))
  | JUMP, OpImm _ target => goto_at p fp (PC.Goto pc target)
  | RETURN, _ =>
      '(finished, p') ← Leave p;
      if finished : bool then Ok p'
      else
        '(_, width', _) ← decode p';
        caller ← slice_get (callstack p') (fp - 1);
        goto_at p' (fp - 1) (PC.Next (Frame.pc caller) width')
  | MEMORY_READ, OpIo _ id address data =>
      m ← slice_get (modules p) id;
      rom ← as_memory m;
      frame' ← Memory.Read rom frame address data;
      p' ← store_at p fp frame';
      goto_at p' fp (PC.Next pc width)
  | MEMORY_WRITE, OpIo _ id address data =>
      m ← slice_get (modules p) id;
      rom ← as_memory m;
      rom' ← Memory.Write rom frame address data;
      goto_at (with_modules p (<[id := MMemory rom']> (modules p))) fp (PC.Next pc width)
  | SKIP, Skip n => goto_at p fp (PC.Next (PC.Skip pc n) width)
  | SKIP_IF, SkipIf cond l r n =>
      taken ← executeCondition frame cond l r;
      goto_at p fp (PC.Next (if taken : bool then PC.Skip pc n else pc) width)
  | DEBUG, Debug_ chunks =>
      msg ← executeFormattedChunks chunks frame;
      goto_at (print p msg) fp (PC.Next pc width)
  | (CALL | FAIL | JUMP | MEMORY_READ | MEMORY_WRITE | SKIP | SKIP_IF | DEBUG), _ => Fault bad_type
  | _, _ =>
      frame' ← executor p insn frame regs;
      p' ← store_at p fp frame';
      goto_at p' fp (PC.Next pc width)
  end.

Definition execute (p : Base) : result Base :=
  '(uInsn, width, regs) ← decode p; executeInstruction p uInsn width regs.

(** The number of steps executed, the error if there is one, and the machine. *)
Definition outcome : Type := nat * option string * Base.

(** [for len(p.callstack) > 0 && nsteps < steps]; [steps] is what is left. *)
Fixpoint execute_loop (steps nsteps : nat) (p : Base) : result outcome :=
  match steps with
  | O => Ok (nsteps, None, p)
  | S steps' =>
      if (0 <? length (callstack p))%nat then
        match execute p with
        | Ok p' => execute_loop steps' (S nsteps) p'
        | Fault (Error msg) => Ok (nsteps, Some msg, p)
        | Fault f => Fault f
        end
      else Ok (nsteps, None, p)
  end.

Definition Execute (p : Base) (steps : nat) : result outcome := execute_loop steps 0 p.

(** ** [vm/machine.go] *)

(** [err != nil] *)
Definition failed (err : option string) : bool := match err with Some _ => true | None => false end.

(** [for { ... }]: each round of [ExecuteAll] uses one unit of [fuel]. *)
Fixpoint execute_all_loop (fuel n nsteps : nat) (p : Base) : result outcome :=
  match fuel with
  | O => Fault OutOfFuel
  | S fuel' =>
      '(m, err, p') ← Execute p n;
      if failed err || (m <? n)%nat then Ok ((nsteps + m)%nat, err, p')
      else execute_all_loop fuel' n (nsteps + m) p'
  end.

Definition ExecuteAll (fuel : nat) (p : Base) (n : nat) : result outcome := execute_all_loop fuel n 0 p.

(** An [Observer] with state [V]: its three methods look at the machine. *)
Record Observer (V : Type) : Type := mkObserver {
  Observe_Initialise : V -> Base -> V;
  PreExecution : V -> Base -> V;
  PostExecution : V -> Base -> V
}.
Arguments Observe_Initialise {V} o v p.
Arguments PreExecution {V} o v p.
Arguments PostExecution {V} o v p.

Fixpoint observe_loop {V} (obs : Observer V) (fuel n nsteps : nat) (p : Base) (v : V) : result (outcome * V) :=
  match fuel with
  | O => Fault OutOfFuel
  | S fuel' =>
      let v1 := PreExecution obs v p in
      '(m, err, p') ← Execute p n;
      let v2 := PostExecution obs v1 p' in
      if failed err || (m <? n)%nat then Ok ((nsteps + m)%nat, err, p', v2)
      else observe_loop obs fuel' n (nsteps + m) p' v2
  end.

Definition ExecuteAndObserve {V} (obs : Observer V) (fuel : nat) (p : Base) (n : nat) (v : V)
  : result (outcome * V) := observe_loop obs fuel n 0 p (Observe_Initialise obs v p).

End Base.
Arguments Base W : clear implicits.
Arguments Module_ W : clear implicits.
Arguments Executor W : clear implicits.

(** [NewWord]: the word machine over the field of a given modulus; the
    conversion of the modulus panics when it does not fit a word. *)
Definition NewWord {W} `{!Word W} (modulus : Z) (ms : list (Module_ W)) : result (Base W) :=
  prime ← w_SetBigInt modulus; Ok (NewBase (Executor.Execute prime) ms).

(** ** Lemmas *)

Section StackFacts.
Context {W : Type} `{!Word W}.
Implicit Types (p : Base W) (rets : list nat) (vs : list W) (fr caller callee : Frame.t W) (pre : list (Frame.t W)).

Lemma top_lookup {A} (pre : list A) (x : A) : slice_get (pre ++ [x]) (length (pre ++ [x]) - 1) = Ok x.
Proof.
  apply slice_get_ok. rewrite length_app. cbn. replace (length pre + 1 - 1)%nat with (length pre) by lia.
  by rewrite lookup_app_r, Nat.sub_diag by done.
Qed.

Lemma top_index {A} (pre : list A) (x : A) : (length (pre ++ [x]) - 1)%nat = length pre.
Proof. rewrite length_app. cbn. lia. Qed.

Lemma get_app {A} (pre : list A) x rest : slice_get (pre ++ x :: rest) (length pre) = Ok x.
Proof. apply slice_get_ok. by rewrite lookup_app_r, Nat.sub_diag by done. Qed.

Lemma set_app {A} (pre : list A) x y rest : <[length pre := y]> (pre ++ x :: rest) = pre ++ y :: rest.
Proof. rewrite insert_app_r_alt, Nat.sub_diag by done. done. Qed.

Lemma take_one_more {A} (pre : list A) x rest : take (S (length pre)) (pre ++ x :: rest) = pre ++ [x].
Proof. rewrite take_app_ge by lia. by replace (S (length pre) - length pre)%nat with 1%nat by lia. Qed.

Lemma lookup_one_more {A} (pre : list A) x y rest : (pre ++ x :: y :: rest) !! S (length pre) = Some y.
Proof. rewrite lookup_app_r by lia. by replace (S (length pre) - length pre)%nat with 1%nat by lia. Qed.

Lemma goto_at_top p pre fr pc :
  callstack p = pre ++ [fr] ->
  goto_at p (length pre) pc = Ok (with_callstack p (pre ++ [Frame.Goto fr pc])).
Proof. intros Hc. unfold goto_at. by rewrite Hc, get_app, <-(set_app pre fr (Frame.Goto fr pc) []). Qed.

Lemma store_at_top p pre fr regs :
  callstack p = pre ++ [fr] ->
  store_at p (length pre) regs = Ok (with_callstack p (pre ++ [Frame.with_registers fr regs])).
Proof.
  intros Hc. unfold store_at. by rewrite Hc, get_app, <-(set_app pre fr (Frame.with_registers fr regs) []).
Qed.

(** Storing values in successive registers of a frame *)
Lemma Store_ok fr reg (v : W) fr' :
  Frame.Store fr reg v = Ok fr' <->
  (reg < length (Frame.registers fr))%nat /\
  fr' = Frame.with_registers fr (<[reg := v]> (Frame.registers fr)).
Proof.
  unfold Frame.Store, slice_set. case_decide; cbn; split.
  - intros [= <-]. done.
  - by intros [_ ->].
  - done.
  - by intros [? _].
Qed.

Lemma store_args_ok i args (frame : list W) fr vs :
  values frame args = Some vs -> (i + length args <= length (Frame.registers fr))%nat ->
  store_args i args frame fr =
    Ok (Frame.with_registers fr (take i (Frame.registers fr) ++ vs ++ drop (i + length args) (Frame.registers fr))).
Proof.
  revert i fr vs. induction args as [|a args IH]; intros i fr vs.
  - intros [= <-] _. cbn. rewrite Nat.add_0_r, take_drop. by destruct fr.
  - intros (x & rest & -> & Hx & Hr)%values_cons Hi. cbn [length] in Hi. cbn [store_args].
    rewrite (proj2 (slice_get_ok _ _ _) Hx). cbn.
    assert (Hlt : (i < length (Frame.registers fr))%nat) by lia.
    rewrite (proj2 (Store_ok fr i x _) (conj Hlt eq_refl)). cbn.
    rewrite (IH (S i) _ rest Hr) by (cbn; rewrite length_insert; lia).
    cbn. do 2 f_equal.
    rewrite (take_S_r _ i x) by (apply list_lookup_insert_eq; lia).
    rewrite take_insert_ge by lia. rewrite drop_insert_lt by lia.
    by rewrite Nat.add_succ_r, <-app_assoc.
Qed.

Lemma store_args_length i args (frame : list W) fr fr' :
  store_args i args frame fr = Ok fr' ->
  exists vs, values frame args = Some vs /\ (args = [] \/ i + length args <= length (Frame.registers fr))%nat.
Proof.
  revert i fr. induction args as [|a args IH]; intros i fr; cbn [store_args].
  - intros _. exists []. auto.
  - intros H. inv_ok. apply slice_get_ok in Ha. apply Store_ok in Ha0 as [Hlt ->].
    apply IH in H as (vs & Hvs & Hor). exists (a0 :: vs). split.
    + apply values_cons. by exists a0, vs.
    + right. cbn in Hor |- *. rewrite length_insert in Hor. destruct Hor as [->|]; cbn; lia.
Qed.

(** A call pushes a frame holding the arguments, the other registers being zero. *)
Lemma Enter_ok p id (frame : list W) args rets f vs :
  modules p !! id = Some (MFunction f) -> values frame args = Some vs -> (length args <= Width f)%nat ->
  Enter p id frame args rets =
    Ok (with_callstack p (callstack p ++
      [Frame.mk id (PC.mk 0 0) (length args) (vs ++ replicate (Width f - length args) w_zero) rets])).
Proof.
  intros Hm Hvs Hlen. unfold Enter. rewrite (proj2 (slice_get_ok _ _ _) Hm). cbn.
  rewrite (store_args_ok 0 args frame _ vs Hvs) by (cbn; rewrite length_replicate; lia).
  cbn. by rewrite drop_replicate.
Qed.

Lemma Enter_inv p id (frame : list W) args rets p' :
  Enter p id frame args rets = Ok p' ->
  exists f vs, modules p !! id = Some (MFunction f) /\ values frame args = Some vs /\ (length args <= Width f)%nat.
Proof.
  unfold Enter. intros H. inv_ok. apply slice_get_ok in Ha. destruct a as [f|m]; cbn in Ha0; [|done].
  apply Ok_inj in Ha0 as ->. apply store_args_length in Ha1 as (vs & Hvs & Hor). exists a0, vs.
  split; [done|]. split; [done|]. cbn in Hor. rewrite length_replicate in Hor. destruct Hor as [->|]; cbn; lia.
Qed.

(** The registers of the caller after a return *)
Fixpoint assign_returns (rets : list nat) (vs regs : list W) : list W :=
  match rets, vs with
  | r :: rets, v :: vs => assign_returns rets vs (<[r := v]> regs)
  | _, _ => regs
  end.

Lemma assign_returns_length rets vs (regs : list W) : length (assign_returns rets vs regs) = length regs.
Proof.
  revert vs regs. induction rets as [|r rets IH]; intros [|v vs] regs; try done. cbn. by rewrite IH, length_insert.
Qed.

Lemma assign_returns_other rets vs (regs : list W) r :
  r ∉ rets -> assign_returns rets vs regs !! r = regs !! r.
Proof.
  revert vs regs. induction rets as [|r' rets IH]; intros [|v vs] regs Hr; try done. cbn.
  apply not_elem_of_cons in Hr as [Hne Hr]. rewrite IH by done. by rewrite list_lookup_insert_ne.
Qed.

Lemma assign_returns_at rets vs (regs : list W) i r v :
  NoDup rets -> rets !! i = Some r -> vs !! i = Some v -> (r < length regs)%nat ->
  assign_returns rets vs regs !! r = Some v.
Proof.
  revert vs regs i. induction rets as [|r' rets IH]; intros [|v' vs] regs [|i] Hn Hr Hv Hlt; try done;
    apply NoDup_cons in Hn as [Hni Hn]; cbn in Hr, Hv |- *.
  - injection Hr as ->. injection Hv as ->. rewrite assign_returns_other by done. by apply list_lookup_insert_eq.
  - apply (IH _ _ i); [done|done|done|]. by rewrite length_insert.
Qed.

Lemma write_returns_ok i rets callee caller :
  (Frame.args callee + (i + length rets) <= length (Frame.registers callee))%nat ->
  Forall (fun r => r < length (Frame.registers caller))%nat rets ->
  write_returns i rets callee caller =
    Ok (Frame.with_registers caller
          (assign_returns rets (drop (Frame.args callee + i) (Frame.registers callee)) (Frame.registers caller))).
Proof.
  revert i caller. induction rets as [|r rets IH]; intros i caller Hlen Hr; cbn [write_returns].
  { by destruct caller. }
  apply Forall_cons in Hr as [Hlt Hr]. cbn [length] in Hlen.
  destruct (lookup_lt_is_Some_2 (Frame.registers callee) (Frame.args callee + i)) as [v Hv]; [lia|].
  unfold Frame.Return at 1. rewrite (proj2 (slice_get_ok _ _ _) Hv). cbn.
  rewrite (proj2 (Store_ok caller r v _) (conj Hlt eq_refl)). cbn.
  rewrite IH.
  - rewrite (drop_S _ _ _ Hv). cbn. by rewrite Nat.add_succ_r.
  - lia.
  - cbn. by rewrite length_insert.
Qed.

Lemma write_returns_inv i rets callee caller caller' :
  write_returns i rets callee caller = Ok caller' ->
  (rets = [] \/ Frame.args callee + (i + length rets) <= length (Frame.registers callee))%nat /\
  Forall (fun r => r < length (Frame.registers caller))%nat rets.
Proof.
  revert i caller. induction rets as [|r rets IH]; intros i caller; cbn [write_returns]; [by auto|].
  intros H. inv_ok. apply slice_get_ok, lookup_lt_Some in Ha. apply Store_ok in Ha0 as [Hlt ->].
  apply IH in H as [Hor Hf]. cbn in Hf. rewrite length_insert in Hf. split; [|by constructor].
  right. cbn. destruct Hor as [->|]; cbn; lia.
Qed.

(** Returning to a caller pops the frame and assigns the caller's return registers. *)
Lemma Leave_ok p pre caller callee :
  callstack p = pre ++ [caller; callee] ->
  (Frame.returns callee = [] \/
   Frame.args callee + length (Frame.returns callee) <= length (Frame.registers callee))%nat ->
  Forall (fun r => r < length (Frame.registers caller))%nat (Frame.returns callee) ->
  Leave p = Ok (false, with_callstack p (pre ++
    [Frame.with_registers caller (assign_returns (Frame.returns callee)
       (drop (Frame.args callee) (Frame.registers callee)) (Frame.registers caller))])).
Proof.
  intros Hc Hlen Hr. unfold Leave.
  assert (Hc' : callstack p = (pre ++ [caller]) ++ [callee]) by (rewrite Hc, <-app_assoc; done).
  rewrite Hc', top_lookup, top_index. cbn -[take].
  rewrite take_app_length. rewrite length_app. cbn [length].
  replace (length pre + 1)%nat with (S (length pre)) by lia. cbn [Nat.leb Nat.sub]. rewrite Nat.sub_0_r, get_app.
  cbn -[take]. destruct Hlen as [Hnil|Hlen].
  - rewrite Hnil. cbn. rewrite set_app. by destruct caller.
  - rewrite write_returns_ok by done. cbn -[take]. by rewrite set_app, Nat.add_0_r.
Qed.

Lemma Leave_inv p p' : Leave p = Ok (false, p') ->
  exists pre caller callee, callstack p = pre ++ [caller; callee] /\
  (Frame.returns callee = [] \/
   Frame.args callee + length (Frame.returns callee) <= length (Frame.registers callee))%nat /\
  Forall (fun r => r < length (Frame.registers caller))%nat (Frame.returns callee).
Proof.
  destruct (callstack p) as [|callee st _] eqn:Hc using rev_ind; unfold Leave; rewrite Hc; [done|].
  rewrite top_lookup, top_index. cbn -[take]. rewrite take_app_length.
  destruct st as [|caller pre _] using rev_ind; [done|].
  rewrite length_app. cbn [length]. replace (length pre + 1)%nat with (S (length pre)) by lia.
  cbn [Nat.leb Nat.sub]. rewrite Nat.sub_0_r, get_app. cbn -[take]. intros H. inv_ok.
  exists pre, caller, callee. rewrite <-app_assoc. split; [done|].
  apply write_returns_inv in Ha as [? ?]. auto.
Qed.

Lemma Leave_last p fr : callstack p = [fr] -> Leave p = Ok (true, with_callstack p []).
Proof. intros Hc. unfold Leave. by rewrite Hc. Qed.

End StackFacts.

(** ** The transition relation

    A rule-based description of one step, against which the interpreter is
    proved correct, and from which the other properties are derived by
    inversion. *)

Section Semantics.
Context {W : Type} `{!Word W}.
Implicit Types (p : Base W) (fr caller callee : Frame.t W) (pre : list (Frame.t W)).

(** The instruction at the program counter of a frame, the width of its vector
    and the registers of its function *)
Definition fetch (ms : list (Module_ W)) fr : option (Instruction W * nat * list Register.t) :=
  m ← ms !! Frame.functionId fr;
  match m with
  | MFunction f =>
      vec ← code f !! PC.Macro (Frame.pc fr);
      insn ← vec !! PC.Micro (Frame.pc fr);
      Some (insn, length vec, Instruction.registers f)
  | MMemory _ => None
  end.

(** The opcodes handed to the executor *)
Definition straight_line (op : OpCode) : bool :=
  match op with
  | CALL | FAIL | JUMP | RETURN | MEMORY_READ | MEMORY_WRITE | SKIP | SKIP_IF | DEBUG => false
  | _ => true
  end.

(** The machine [p] with the top frame [fr] replaced *)
Definition with_top p pre fr : Base W := with_callstack p (pre ++ [fr]).

Definition advance fr (regs : list W) (width : nat) : Frame.t W :=
  Frame.Goto (Frame.with_registers fr regs) (PC.Next (Frame.pc fr) width).

(** What a call pushes, and what a return leaves of the caller *)
Definition callee_frame (id : nat) (f : Function W) (vs : list W) (rets : list nat) : Frame.t W :=
  Frame.mk id (PC.mk 0 0) (length vs) (vs ++ replicate (Width f - length vs) w_zero) rets.

Definition returned caller callee (width : nat) : Frame.t W :=
  advance caller
    (assign_returns (Frame.returns callee) (drop (Frame.args callee) (Frame.registers callee))
       (Frame.registers caller)) width.

Definition returnable caller callee : Prop :=
  (Frame.returns callee = [] \/
   Frame.args callee + length (Frame.returns callee) <= length (Frame.registers callee))%nat /\
  Forall (fun r => r < length (Frame.registers caller))%nat (Frame.returns callee).

Inductive step p : Base W -> Prop :=
  | step_call pre fr width regs id args rets f vs :
      callstack p = pre ++ [fr] ->
      fetch (modules p) fr = Some (OpIo CALL id args rets, width, regs) ->
      modules p !! id = Some (MFunction f) ->
      values (Frame.registers fr) args = Some vs -> (length args <= Width f)%nat ->
      step p (with_callstack p (pre ++ [fr; callee_frame id f vs rets]))
  | step_halt fr insn width regs :
      callstack p = [fr] -> fetch (modules p) fr = Some (insn, width, regs) -> OpCode_of insn = RETURN ->
      step p (with_callstack p [])
  | step_return pre caller callee insn width regs insn' width' regs' :
      callstack p = pre ++ [caller; callee] ->
      fetch (modules p) callee = Some (insn, width, regs) -> OpCode_of insn = RETURN ->
      fetch (modules p) caller = Some (insn', width', regs') -> returnable caller callee ->
      step p (with_top p pre (returned caller callee width'))
  | step_jump pre fr width regs target :
      callstack p = pre ++ [fr] -> fetch (modules p) fr = Some (OpImm JUMP target, width, regs) ->
      step p (with_top p pre (Frame.Goto fr (PC.Goto (Frame.pc fr) target)))
  | step_skip pre fr width regs n :
      callstack p = pre ++ [fr] -> fetch (modules p) fr = Some (Skip n, width, regs) ->
      step p (with_top p pre (Frame.Goto fr (PC.Next (PC.Skip (Frame.pc fr) n) width)))
  | step_skip_if pre fr width regs cond l r n taken :
      callstack p = pre ++ [fr] -> fetch (modules p) fr = Some (SkipIf cond l r n, width, regs) ->
      executeCondition (Frame.registers fr) cond l r = Ok taken ->
      step p (with_top p pre (Frame.Goto fr
        (PC.Next (if taken : bool then PC.Skip (Frame.pc fr) n else Frame.pc fr) width)))
  | step_debug pre fr width regs chunks msg :
      callstack p = pre ++ [fr] -> fetch (modules p) fr = Some (Debug_ chunks, width, regs) ->
      executeFormattedChunks chunks (Frame.registers fr) = Ok msg ->
      step p (with_top (print p msg) pre (Frame.Goto fr (PC.Next (Frame.pc fr) width)))
  | step_read pre fr width regs id address data m frame' :
      callstack p = pre ++ [fr] ->
      fetch (modules p) fr = Some (OpIo MEMORY_READ id address data, width, regs) ->
      modules p !! id = Some (MMemory m) -> Memory.Read m (Frame.registers fr) address data = Ok frame' ->
      step p (with_top p pre (advance fr frame' width))
  | step_write pre fr width regs id address data m m' :
      callstack p = pre ++ [fr] ->
      fetch (modules p) fr = Some (OpIo MEMORY_WRITE id address data, width, regs) ->
      modules p !! id = Some (MMemory m) -> Memory.Write m (Frame.registers fr) address data = Ok m' ->
      step p (with_top (with_modules p (<[id := MMemory m']> (modules p))) pre
                (Frame.Goto fr (PC.Next (Frame.pc fr) width)))
  | step_straight pre fr insn width regs frame' :
      callstack p = pre ++ [fr] -> fetch (modules p) fr = Some (insn, width, regs) ->
      straight_line (OpCode_of insn) = true -> executor p insn (Frame.registers fr) regs = Ok frame' ->
      step p (with_top p pre (advance fr frame' width)).

(** Any number of steps *)
Inductive steps : Base W -> Base W -> Prop :=
  | steps_refl p : steps p p
  | steps_step p p1 p2 : step p p1 -> steps p1 p2 -> steps p p2.

Lemma decode_fetch p pre fr :
  callstack p = pre ++ [fr] ->
  forall r, decode p = Ok r <-> fetch (modules p) fr = Some r.
Proof.
  intros Hc [[insn width] regs]. unfold decode, fetch. rewrite Hc, top_lookup. cbn [mbind result_bind].
  unfold slice_get. destruct (modules p !! Frame.functionId fr) as [[f|m]|]; cbn; [|by split|by split].
  unfold CodeAt, slice_get.
  destruct (code f !! PC.Macro (Frame.pc fr)) as [vec|]; cbn; [|by split].
  destruct (vec !! PC.Micro (Frame.pc fr)); cbn; [|by split].
  split; [by intros [= <- <- <-]|]. by intros [= <- <- <-].
Qed.

Lemma with_top_goto p pre fr pc :
  goto_at (with_callstack p (pre ++ [fr])) (length pre) pc = Ok (with_top p pre (Frame.Goto fr pc)).
Proof. by rewrite (goto_at_top _ pre fr). Qed.

Lemma store_goto p pre fr (regs : list W) width :
  callstack p = pre ++ [fr] ->
  (p' ← store_at p (length pre) regs; goto_at p' (length pre) (PC.Next (Frame.pc fr) width))
    = Ok (with_top p pre (advance fr regs width)).
Proof. intros Hc. rewrite (store_at_top p pre fr regs Hc). cbn [mbind result_bind]. apply with_top_goto. Qed.

(** The return of a callee, with the program counter of the caller advanced *)
Lemma return_ok p pre caller callee insn' width' regs' :
  callstack p = pre ++ [caller; callee] ->
  fetch (modules p) caller = Some (insn', width', regs') -> returnable caller callee ->
  executeInstruction p NewReturn 0 [] = Ok (with_top p pre (returned caller callee width')).
Proof.
  intros Hc Hf [Hlen Hr]. unfold executeInstruction.
  assert (Hc' : callstack p = (pre ++ [caller]) ++ [callee]) by (rewrite Hc, <-app_assoc; done).
  rewrite Hc', top_lookup, top_index. cbn [mbind result_bind NewReturn OpCode_of].
  rewrite (Leave_ok p pre caller callee Hc Hlen Hr). cbn [mbind result_bind].
  set (caller' := Frame.with_registers caller _).
  assert (Hd : fetch (modules p) caller' = Some (insn', width', regs')) by exact Hf.
  rewrite (proj2 (decode_fetch (with_callstack p (pre ++ [caller'])) pre caller' eq_refl _) Hd).
  cbn [mbind result_bind]. rewrite length_app. cbn [length with_callstack callstack].
  replace (length pre + 1 - 1)%nat with (length pre) by lia. rewrite get_app. cbn [mbind result_bind].
  by rewrite with_top_goto.
Qed.

Lemma return_any p insn width regs :
  OpCode_of insn = RETURN -> executeInstruction p insn width regs = executeInstruction p NewReturn 0 [].
Proof. intros Hop. unfold executeInstruction. rewrite Hop. reflexivity. Qed.

End Semantics.
Section Simulation.
Context {W : Type} `{!Word W}.
Implicit Types (p : Base W) (fr caller callee : Frame.t W) (pre : list (Frame.t W)).

Lemma execute_at p pre fr insn width regs :
  callstack p = pre ++ [fr] -> fetch (modules p) fr = Some (insn, width, regs) ->
  execute p = executeInstruction p insn width regs.
Proof. intros Hc Hf. unfold execute. by rewrite (proj2 (decode_fetch p pre fr Hc _) Hf). Qed.

Lemma executeInstruction_at p pre fr insn width regs :
  callstack p = pre ++ [fr] ->
  straight_line (OpCode_of insn) = true ->
  executeInstruction p insn width regs =
    (frame' ← executor p insn (Frame.registers fr) regs; Ok (with_top p pre (advance fr frame' width))).
Proof.
  intros Hc Hs. unfold executeInstruction. rewrite Hc, top_lookup, top_index. cbn [mbind result_bind].
  destruct (OpCode_of insn); try done;
    (destruct (executor p insn _ regs) as [frame'|]; cbn [mbind result_bind]; [|done]);
    rewrite (store_at_top p pre fr frame' Hc); cbn [mbind result_bind]; apply with_top_goto.
Qed.

(** Every transition is made by the interpreter. *)
Lemma step_execute p p' : step p p' -> execute p = Ok p'.
Proof.
  intros [pre fr width regs id args rets f vs Hc Hf Hm Hvs Hlen|fr insn width regs Hc Hf Hop
    |pre caller callee insn width regs insn' width' regs' Hc Hf Hop Hf' Hr
    |pre fr width regs t Hc Hf|pre fr width regs n Hc Hf|pre fr width regs c l r n taken Hc Hf Ht
    |pre fr width regs chunks msg Hc Hf Hmsg|pre fr width regs id address data m frame' Hc Hf Hm Hrd
    |pre fr width regs id address data m m' Hc Hf Hm Hwr|pre fr insn width regs frame' Hc Hf Hs Hx].
  2: { rewrite (execute_at p [] fr insn width regs Hc Hf), (return_any _ _ _ _ Hop).
       unfold executeInstruction. rewrite Hc. cbn. by rewrite (Leave_last p fr Hc). }
  2: { assert (Hc' : callstack p = (pre ++ [caller]) ++ [callee]) by (rewrite Hc, <-app_assoc; done).
       rewrite (execute_at p _ callee insn width regs Hc' Hf), (return_any _ _ _ _ Hop). by eapply return_ok. }
  8: { rewrite (execute_at p pre fr insn width regs Hc Hf), (executeInstruction_at _ _ _ _ _ _ Hc Hs). by rewrite Hx. }
  all: rewrite (execute_at p pre fr _ width regs Hc Hf); unfold executeInstruction;
    rewrite Hc, top_lookup, top_index; cbn [mbind result_bind OpCode_of].
  - rewrite (Enter_ok p id _ args rets f vs Hm Hvs Hlen), Hc, <-app_assoc. unfold callee_frame.
    replace (length vs) with (length args); [done|]. unfold values in Hvs. symmetry. by apply length_mapM in Hvs.
  - by rewrite (goto_at_top p pre fr).
  - by rewrite (goto_at_top p pre fr).
  - rewrite Ht. cbn [mbind result_bind]. by rewrite (goto_at_top p pre fr).
  - rewrite Hmsg. cbn [mbind result_bind]. by rewrite (goto_at_top (print p msg) pre fr).
  - rewrite (proj2 (slice_get_ok _ _ _) Hm). cbn [mbind result_bind as_memory]. rewrite Hrd. cbn [mbind result_bind].
    rewrite (store_at_top p pre fr frame' Hc). cbn [mbind result_bind]. apply with_top_goto.
  - rewrite (proj2 (slice_get_ok _ _ _) Hm). cbn [mbind result_bind as_memory]. rewrite Hwr. cbn [mbind result_bind].
    by rewrite (goto_at_top _ pre fr).
Qed.

Lemma values_length (frame : list W) rids vs : values frame rids = Some vs -> length vs = length rids.
Proof. unfold values. intros H. symmetry. by apply length_mapM in H. Qed.

Lemma Leave_some p pre caller callee fin p1 :
  callstack p = pre ++ [caller; callee] -> Leave p = Ok (fin, p1) ->
  fin = false /\ returnable caller callee /\
  p1 = with_top p pre (Frame.with_registers caller (assign_returns (Frame.returns callee)
         (drop (Frame.args callee) (Frame.registers callee)) (Frame.registers caller))).
Proof.
  intros Hc Hl. assert (fin = false) as ->.
  { unfold Leave in Hl. rewrite Hc in Hl. change ([caller; callee]) with ([caller] ++ [callee]) in Hl.
    rewrite app_assoc, top_lookup, top_index in Hl. cbn [mbind result_bind] in Hl.
    rewrite length_app in Hl. cbn [length] in Hl.
    replace (1 <=? length pre + 1)%nat with true in Hl by (symmetry; apply Nat.leb_le; lia).
    inv_ok. congruence. }
  pose proof (Leave_inv p p1 Hl) as (pre' & caller' & callee' & Hc' & Hlen & Hr).
  rewrite Hc in Hc'. change ([caller; callee]) with ([caller] ++ [callee]) in Hc'.
  change ([caller'; callee']) with ([caller'] ++ [callee']) in Hc'. rewrite !app_assoc in Hc'.
  apply app_inj_tail in Hc' as [Hc' ->]. apply app_inj_tail in Hc' as [-> ->].
  rewrite (Leave_ok p pre' caller' callee' Hc Hlen Hr) in Hl. injection Hl as <-. done.
Qed.

Lemma return_inv p pre caller callee p' :
  callstack p = pre ++ [caller; callee] -> executeInstruction p NewReturn 0 [] = Ok p' ->
  exists insn' width' regs', fetch (modules p) caller = Some (insn', width', regs') /\
    returnable caller callee /\ p' = with_top p pre (returned caller callee width').
Proof.
  intros Hc H. pose proof H as H0. unfold executeInstruction in H.
  assert (Hc' : callstack p = (pre ++ [caller]) ++ [callee]) by (rewrite Hc, <-app_assoc; done).
  rewrite Hc', top_lookup, top_index in H. cbn [mbind result_bind OpCode_of NewReturn] in H.
  destruct (Leave p) as [[fin p1]|] eqn:Hl; [|done].
  apply (Leave_some p pre caller callee _ _ Hc) in Hl as (-> & Hr & Hp1). cbn [mbind result_bind] in H.
  destruct (decode p1) as [[[insn' width'] regs']|] eqn:Hd; [|done].
  rewrite Hp1 in Hd. apply (decode_fetch (with_top p pre _) pre _ eq_refl) in Hd.
  exists insn', width', regs'. split; [exact Hd|]. split; [done|].
  rewrite (return_ok p pre caller callee insn' width' regs' Hc Hd Hr) in H0. by injection H0 as <-.
Qed.

(** What the interpreter does is a transition. *)
Lemma execute_step p p' : execute p = Ok p' -> step p p'.
Proof.
  destruct (callstack p) as [|fr pre _] eqn:Hc using rev_ind.
  { unfold execute, decode. by rewrite Hc. }
  unfold execute. destruct (decode p) as [[[insn width] regs]|] eqn:Hd; [|done]. cbn [mbind result_bind].
  apply (decode_fetch p pre fr Hc) in Hd as Hf.
  destruct (decide (OpCode_of insn = RETURN)) as [Hop|Hop].
  { rewrite (return_any _ _ _ _ Hop). destruct pre as [|caller pre _] using rev_ind.
    { unfold executeInstruction. rewrite Hc. cbn. rewrite (Leave_last p fr Hc). cbn.
      intros [= <-]. by eapply step_halt. }
    rewrite <-app_assoc in Hc. intros H.
    apply (return_inv p pre caller fr p' Hc) in H as (insn' & width' & regs' & Hf' & Hr & ->).
    by eapply step_return. }
  destruct (straight_line (OpCode_of insn)) eqn:Hs.
  { rewrite (executeInstruction_at _ _ _ _ _ _ Hc Hs). intros H. inv_ok. subst p'. by eapply step_straight. }
  unfold executeInstruction. rewrite Hc, top_lookup, top_index. cbn [mbind result_bind].
  destruct insn as [op id args rets|op n|n|cond l r n|chunks|chunks|op t s c|t s w|ts s]; cbn [OpCode_of] in *;
    try (destruct op; done); try done.
  - destruct op; try done.
    + intros H. apply Enter_inv in H as H'. destruct H' as (f & vs & Hm & Hvs & Hlen).
      rewrite (Enter_ok _ _ _ _ _ f vs Hm Hvs Hlen), Hc, <-app_assoc in H. injection H as <-.
      pose proof (step_call p pre fr width regs id args rets f vs Hc Hf Hm Hvs Hlen) as Hst.
      unfold callee_frame in Hst. by rewrite (values_length _ _ _ Hvs) in Hst.
    + intros H. inv_ok. apply slice_get_ok in Ha. destruct a as [|m]; cbn in Ha0; [done|]. apply Ok_inj in Ha0 as ->.
      rewrite (store_at_top p pre fr a1 Hc) in Ha2. injection Ha2 as <-. rewrite with_top_goto in H.
      injection H as <-. by eapply step_read.
    + intros H. inv_ok. apply slice_get_ok in Ha. destruct a as [|m]; cbn in Ha0; [done|]. apply Ok_inj in Ha0 as ->.
      rewrite (goto_at_top _ pre fr) in H by done. injection H as <-. by eapply step_write.
  - destruct op; try done. rewrite (goto_at_top p pre fr _ Hc). intros [= <-]. by eapply step_jump.
  - rewrite (goto_at_top p pre fr _ Hc). intros [= <-]. by eapply step_skip.
  - intros H. inv_ok. rewrite (goto_at_top p pre fr _ Hc) in H. injection H as <-. by eapply step_skip_if.
  - intros H. by inv_ok.
  - intros H. inv_ok. rewrite (goto_at_top (print p a) pre fr _ Hc) in H. injection H as <-. by eapply step_debug.
  - by destruct (w =? MaxUint).
Qed.

End Simulation.

(** ** Isolation of frames *)

Section Isolation.
Context {W : Type} `{!Word W}.
Implicit Types (p : Base W) (fr caller callee : Frame.t W) (pre : list (Frame.t W)).

(** What a frame keeps for its lifetime *)
Definition identity fr : nat * nat * list nat := (Frame.functionId fr, Frame.args fr, Frame.returns fr).

(** Modules after a step: functions are fixed, memories keep their kind and geometry. *)
Definition same_module (m m' : Module_ W) : Prop :=
  match m, m' with
  | MFunction f, MFunction f' => f' = f
  | MMemory m, MMemory m' =>
      Memory.kind_of m' = Memory.kind_of m /\ Memory.geometry_of m' = Memory.geometry_of m /\
      Memory.name_of m' = Memory.name_of m
  | _, _ => False
  end.

#[export] Instance same_module_preorder : PreOrder same_module.
Proof.
  split.
  - intros [f|m]; cbn; done.
  - intros [f|m] [f'|m'] [f''|m'']; cbn; try done; [congruence|]. intros (?&?&?) (?&?&?). split_and!; congruence.
Qed.

Lemma Write_same (m m' : Memory W) frame address datas :
  Memory.Write m frame address datas = Ok m' -> same_module (MMemory m) (MMemory m').
Proof.
  destruct m as [q|q|q|q|q|q]; cbn; try done.
  1-3: unfold StaticArray_Write; destruct (FrameDecode _ _ _) as [[start stop]|]; cbn; [|done];
    destruct (expand _ _ _); cbn; [|done]; destruct (write_cells _ _ _ _ _); cbn; [|done]; by intros [= <-].
  unfold BiPartite_Write. destruct (FrameDecode _ _ _) as [[start stop]|]; cbn; [|done].
  destruct (start <? HALF_START);
    (destruct (expand _ _ _); cbn; [|done]; destruct (write_cells _ _ _ _ _); cbn; [|done]; by intros [= <-]).
Qed.

Lemma insert_same (ms : list (Module_ W)) id m m' :
  ms !! id = Some m -> same_module m m' -> Forall2 same_module ms (<[id := m']> ms).
Proof.
  intros Hm Hs. apply Forall2_same_length_lookup. split; [by rewrite length_insert|].
  intros i x y Hx Hy. destruct (decide (i = id)) as [->|Hne].
  - rewrite list_lookup_insert_eq in Hy by (by eapply lookup_lt_Some). congruence.
  - rewrite list_lookup_insert_ne in Hy by done. by rewrite Hx in Hy; injection Hy as ->.
Qed.

Lemma same_modules_refl (ms : list (Module_ W)) : Forall2 same_module ms ms.
Proof. apply Forall_Forall2_diag, Forall_forall. intros m _. reflexivity. Qed.

Lemma step_modules p p' : step p p' -> Forall2 same_module (modules p) (modules p').
Proof.
  intros Hst. destruct Hst; try apply same_modules_refl. cbn. eapply insert_same; [done|]. by eapply Write_same.
Qed.

Lemma step_executor p p' : step p p' -> executor p' = executor p.
Proof. by intros []. Qed.

Lemma same_fetch (ms ms' : list (Module_ W)) fr : Forall2 same_module ms ms' -> fetch ms' fr = fetch ms fr.
Proof.
  intros Hs. unfold fetch.
  destruct (ms !! Frame.functionId fr) as [m|] eqn:Hm.
  - eapply Forall2_lookup_l in Hs as (m' & -> & Hmm); [|done]. cbn.
    by destruct m as [f|m], m' as [f'|m']; cbn in Hmm; subst.
  - apply lookup_ge_None in Hm. rewrite (proj2 (lookup_ge_None ms' _)); [done|].
    by rewrite <-(Forall2_length _ _ _ Hs).
Qed.

(** A step changes no frame below the new top of the stack. *)
Lemma step_prefix p p' : step p p' -> take (Depth p' - 1) (callstack p') = take (Depth p' - 1) (callstack p).
Proof.
  intros Hst. destruct Hst as [pre fr width regs id args rets f vs Hc|fr insn width regs Hc
    |pre caller callee insn width regs insn' width' regs' Hc|pre fr width regs t Hc|pre fr width regs n Hc
    |pre fr width regs c l r n taken Hc|pre fr width regs chunks msg Hc
    |pre fr width regs id address data m frame' Hc|pre fr width regs id address data m m' Hc
    |pre fr insn width regs frame' Hc]; unfold Depth; cbn; rewrite Hc; try done;
    rewrite length_app; cbn [length];
    try (replace (length pre + 1 - 1)%nat with (length pre) by lia; by rewrite !take_app_length).
  change [fr; callee_frame id f vs rets] with ([fr] ++ [callee_frame id f vs rets]). rewrite app_assoc.
  replace (length pre + 2 - 1)%nat with (length (pre ++ [fr])) by (rewrite length_app; cbn; lia).
  by rewrite take_app_length, firstn_all.
Qed.

(** A frame that survives a step keeps its identity. *)
Lemma step_identity p p' i fr fr' :
  step p p' -> callstack p !! i = Some fr -> callstack p' !! i = Some fr' -> identity fr' = identity fr.
Proof.
  intros Hst Hi Hi'. destruct (decide (i < Depth p' - 1)%nat) as [Hlt|Hge].
  { pose proof (f_equal (lookup i) (step_prefix p p' Hst)) as Heq. rewrite !lookup_take_lt in Heq by done. congruence. }
  assert (Hlast : (i = Depth p' - 1)%nat) by (apply lookup_lt_Some in Hi'; unfold Depth in *; lia).
  unfold Depth in Hlast. destruct Hst as [pre fr0 width regs id args rets f vs Hc|fr0 insn width regs Hc
    |pre caller callee insn width regs insn' width' regs' Hc|pre fr0 width regs t Hc|pre fr0 width regs n Hc
    |pre fr0 width regs c l r n taken Hc|pre fr0 width regs chunks msg Hc
    |pre fr0 width regs id address data m frame' Hc|pre fr0 width regs id address data m m' Hc
    |pre fr0 insn width regs frame' Hc]; cbn in Hi', Hlast; rewrite Hc in Hi; try done;
    rewrite length_app in Hlast; cbn [length] in Hlast;
    try (replace (length pre + 1 - 1)%nat with (length pre) in Hlast by lia; subst i;
         rewrite lookup_app_r, Nat.sub_diag in Hi, Hi' by done; cbn in Hi, Hi'; injection Hi as <-; injection Hi' as <-; reflexivity).
  apply lookup_lt_Some in Hi. rewrite length_app in Hi. cbn in Hi. lia.
Qed.

(** Steps during which the stack keeps at least [d] frames *)
Inductive within (d : nat) : Base W -> Base W -> Prop :=
  | within_refl p : (d <= Depth p)%nat -> within d p p
  | within_step p p1 p2 : (d <= Depth p)%nat -> step p p1 -> within d p1 p2 -> within d p p2.

Lemma within_frames d p p' :
  within (S d) p p' ->
  take d (callstack p') = take d (callstack p) /\ Forall2 same_module (modules p) (modules p') /\
  forall fr fr', callstack p !! d = Some fr -> callstack p' !! d = Some fr' -> identity fr' = identity fr.
Proof.
  induction 1 as [p Hd|p p1 p2 Hd Hst Hw (IHt & IHm & IHi)].
  { split; [done|]. split; [apply same_modules_refl|]. congruence. }
  assert (Hd1 : (S d <= Depth p1)%nat) by (by destruct Hw).
  split; [|split].
  - rewrite IHt. pose proof (f_equal (take d) (step_prefix p p1 Hst)) as Heq.
    rewrite !take_take in Heq. by rewrite !Nat.min_l in Heq by lia.
  - etrans; [by apply step_modules | done].
  - intros fr fr' Hfr Hfr'. destruct (lookup_lt_is_Some_2 (callstack p1) d Hd1) as [fr1 Hfr1].
    rewrite (IHi fr1 fr' Hfr1 Hfr'). by apply (step_identity p p1 d).
Qed.

(** A call and everything until the matching return *)
Lemma call_bracket (p p1 p2 p3 : Base W) pre fr callee id args rets width regs insn width' regs' :
  callstack p = pre ++ [fr] -> fetch (modules p) fr = Some (OpIo CALL id args rets, width, regs) ->
  step p p1 -> within (S (S (length pre))) p1 p2 ->
  callstack p2 !! S (length pre) = Some callee -> Depth p2 = S (S (length pre)) ->
  fetch (modules p2) callee = Some (insn, width', regs') -> OpCode_of insn = RETURN ->
  step p2 p3 ->
  exists fr', callstack p3 = pre ++ [fr'] /\ identity fr' = identity fr /\
    Frame.pc fr' = PC.Next (Frame.pc fr) width /\
    length (Frame.registers fr') = length (Frame.registers fr) /\
    (NoDup rets -> forall i r, rets !! i = Some r -> Frame.registers fr' !! r = Frame.registers callee !! (length args + i)%nat) /\
    (forall r, r ∉ rets -> Frame.registers fr' !! r = Frame.registers fr !! r).
Proof.
  intros Hc Hf H1%step_execute Hw Hcallee Hd Hf2 Hop H3%step_execute.
  rewrite (execute_at p pre fr _ _ _ Hc Hf) in H1. unfold executeInstruction in H1.
  rewrite Hc, top_lookup in H1. cbn [mbind result_bind OpCode_of] in H1.
  apply Enter_inv in H1 as H1'. destruct H1' as (f & vs & Hm & Hvs & Hlen).
  rewrite (Enter_ok _ _ _ _ _ f vs Hm Hvs Hlen), Hc, <-app_assoc in H1. injection H1 as <-.
  apply within_frames in Hw as (Ht & Hms & Hid).
  cbn [callstack with_callstack modules app] in Ht, Hms, Hid. change ([fr] ++ ?x) with (fr :: x) in *.
  rewrite take_one_more in Ht.
  assert (Hc2 : callstack p2 = pre ++ [fr; callee]).
  { rewrite <-(take_drop (S (length pre)) (callstack p2)), Ht, (drop_S _ _ _ Hcallee), drop_ge by (unfold Depth in Hd; lia).
    by rewrite <-app_assoc. }
  assert (Hid' : identity callee = (id, length args, rets)).
  { apply (Hid _ _ (lookup_one_more pre fr _ []) Hcallee). }
  injection Hid' as Hfid Hargs Hrets.
  assert (Hc2' : callstack p2 = (pre ++ [fr]) ++ [callee]) by (rewrite Hc2, <-app_assoc; done).
  rewrite (execute_at p2 _ callee _ _ _ Hc2' Hf2), (return_any _ _ _ _ Hop) in H3.
  apply (return_inv p2 pre fr callee p3 Hc2) in H3 as (insn'' & w'' & r'' & Hf' & [Hl Hr] & ->).
  rewrite (same_fetch _ _ fr Hms), Hf in Hf'. injection Hf' as <- <- <-.
  eexists. split; [done|]. split; [done|]. split; [done|]. cbn. rewrite Hargs, Hrets in *.
  split; [apply assign_returns_length|]. split.
  - intros Hnd i r Hi. destruct Hl as [->|Hl]; [done|]. apply lookup_lt_Some in Hi as Hilt.
    destruct (lookup_lt_is_Some_2 (Frame.registers callee) (length args + i)) as [v Hv]; [lia|].
    rewrite Hv. apply (assign_returns_at _ _ _ i); [done|done|by rewrite lookup_drop|].
    by eapply Forall_lookup in Hr.
  - intros r Hr'. by apply assign_returns_other.
Qed.

End Isolation.

(** ** Running several steps *)

Section Running.
Context {W : Type} `{!Word W}.
Implicit Types (p q : Base W).
#[local] Arguments Execute : simpl never.
#[local] Arguments Nat.ltb : simpl never.

Inductive nsteps : nat -> Base W -> Base W -> Prop :=
  | nsteps_O p : nsteps 0 p p
  | nsteps_S n p p1 p2 : step p p1 -> nsteps n p1 p2 -> nsteps (S n) p p2.

Definition shift (n : nat) (r : result (outcome (W := W))) : result outcome :=
  '(m, err, q) ← r; Ok ((n + m)%nat, err, q).

Lemma execute_loop_shift k n p : execute_loop k n p = shift n (Execute p k).
Proof.
  unfold Execute. revert n p. induction k as [|k IH]; intros n p; cbn [execute_loop].
  { unfold shift. cbn. by rewrite Nat.add_0_r. }
  destruct (0 <? length (callstack p))%nat; [|cbn; by rewrite Nat.add_0_r].
  destruct (execute p) as [p'|[msg|msg|]]; try done; [|cbn; by rewrite Nat.add_0_r].
  rewrite (IH (S n)), (IH 1%nat). unfold shift.
  destruct (execute_loop k 0 p') as [[[m err] q]|]; cbn; [|done]. do 3 f_equal. lia.
Qed.

Lemma Execute_S p k :
  Execute p (S k) =
    if (0 <? Depth p)%nat then
      match execute p with
      | Ok p' => shift 1 (Execute p' k)
      | Fault (Error msg) => Ok (0%nat, Some msg, p)
      | Fault f => Fault f
      end
    else Ok (0%nat, None, p).
Proof.
  unfold Execute, Depth. cbn [execute_loop]. destruct (0 <? length (callstack p))%nat; [|done].
  destruct (execute p) as [p'|[msg|msg|]]; try done. apply execute_loop_shift.
Qed.

Lemma Execute_nsteps p k m err q :
  Execute p k = Ok (m, err, q) ->
  nsteps m p q /\ (m <= k)%nat /\
  match err with
  | None => m = k \/ Depth q = 0%nat
  | Some msg => (m < k)%nat /\ Depth q <> 0%nat /\ execute q = Fault (Error msg)
  end.
Proof.
  revert p m. induction k as [|k IH]; intros p m.
  { intros [= <- <- <-]. split; [constructor|]. auto. }
  rewrite Execute_S. destruct (Nat.ltb_spec 0 (Depth p)).
  - destruct (execute p) as [p'|[msg|msg|]] eqn:He; [|intros [= <- <- <-]|done|done].
    + destruct (Execute p' k) as [[[m' err'] q']|] eqn:Hx; cbn; [|done]. intros [= <- <- <-].
      apply IH in Hx as (Hn & Hle & Herr). split; [econstructor; [by apply execute_step|done]|]. split; [lia|].
      destruct err'; [|destruct Herr; [left; lia | by right]].
      destruct Herr as (? & ? & ?). split; [lia | done].
    + split; [constructor|]. split; [lia|]. split; [lia|]. split; [lia | done].
  - intros [= <- <- <-]. split; [constructor|]. split; [lia|]. right. lia.
Qed.

(** A run that did not use up its steps: it failed, or the machine has stopped. *)
Definition final (k : nat) (r : result (outcome (W := W))) : bool :=
  match r with Ok (m, err, _) => failed err || (m <? k)%nat | Fault _ => true end.

(** Execution composes. *)
Lemma Execute_split p a b :
  Execute p (a + b) =
    if final a (Execute p a) then Execute p a
    else '(m, _, q) ← Execute p a; shift m (Execute q b).
Proof.
  revert p. induction a as [|a IH]; intros p.
  { change (Execute p b = shift 0 (Execute p b)). unfold shift. by destruct (Execute p b) as [[[m err] q]|]. }
  cbn [Nat.add]. rewrite !Execute_S. destruct (0 <? Depth p)%nat; [|done].
  destruct (execute p) as [p'|[msg|msg|]]; try done. rewrite IH.
  destruct (Execute p' a) as [[[m err] q]|] eqn:Hx; [|done]. unfold final, shift. cbn [mbind result_bind].
  change (1 + m <? S a)%nat with (m <? a)%nat.
  destruct (failed err || (m <? a)%nat); cbn [mbind result_bind]; [done|].
  by destruct (Execute q b) as [[[m' err'] q']|].
Qed.

(** More steps do not change a final outcome. *)
Lemma Execute_final p k n : final k (Execute p k) = true -> (k <= n)%nat -> Execute p n = Execute p k.
Proof.
  intros Hf Hle. replace n with (k + (n - k))%nat by lia. by rewrite Execute_split, Hf.
Qed.

Lemma final_le p k n : final k (Execute p k) = true -> (k <= n)%nat -> final n (Execute p n) = true.
Proof.
  intros Hf Hle. rewrite (Execute_final p k n Hf Hle). destruct (Execute p k) as [[[m err] q]|]; [|done].
  cbn in *. apply orb_true_iff in Hf as [->|Hm%Nat.ltb_lt]; [done|].
  apply orb_true_iff. right. apply Nat.ltb_lt. lia.
Qed.

(** A chunk that uses up its steps leaves the rest of the run to the next one. *)
Lemma Execute_chunk p k n m q :
  (1 <= n <= k)%nat -> Execute p n = Ok (m, None, q) -> (m <? n)%nat = false ->
  final k (Execute p k) = true ->
  m = n /\ Execute p k = shift n (Execute q (k - n)) /\ final (k - n) (Execute q (k - n)) = true.
Proof.
  intros Hn Hx Hm Hf. apply Nat.ltb_ge in Hm. destruct (Execute_nsteps _ _ _ _ _ Hx) as (_ & Hle & _).
  assert (m = n) as -> by lia. split; [done|].
  assert (Hk : Execute p k = shift n (Execute q (k - n))).
  { replace k with (n + (k - n))%nat at 1 by lia. rewrite Execute_split, Hx. cbn. by rewrite Nat.ltb_irrefl. }
  split; [done|]. rewrite Hk in Hf. destruct (Execute q (k - n)) as [[[m' err'] q']|]; [|done]. cbn in *.
  apply orb_true_iff in Hf as [->|Hm'%Nat.ltb_lt]; [done|]. apply orb_true_iff. right. apply Nat.ltb_lt. lia.
Qed.

Lemma observe_loop_final {V} (obs : Observer V) fuel n nst p v k :
  (1 <= n)%nat -> (k < fuel)%nat -> final k (Execute p k) = true ->
  fst <$> observe_loop obs fuel n nst p v = shift nst (Execute p k).
Proof.
  intros Hn. revert p nst k v. induction fuel as [|fuel IH]; intros p nst k v Hk Hf; [lia|].
  cbn [observe_loop]. destruct (decide (k <= n)%nat) as [Hle|Hgt].
  { pose proof (final_le p k n Hf Hle) as Hfn. rewrite <-(Execute_final p k n Hf Hle).
    destruct (Execute p n) as [[[m err] q]|]; [|done]. cbn in Hfn |- *. by rewrite Hfn. }
  destruct (Execute p n) as [[[m err] q]|] eqn:Hx; cbn.
  - destruct (failed err || (m <? n)%nat) eqn:Hfin.
    + rewrite (Execute_final p n k); [by rewrite Hx | by rewrite Hx | lia].
    + apply orb_false_iff in Hfin as [Herr Hm].
      destruct err as [msg|]; [done|].
      destruct (Execute_chunk p k n m q) as (-> & -> & Hf'); [lia|done|done|done|].
      rewrite (IH q (nst + n)%nat (k - n)%nat) by (done || lia).
      unfold shift. destruct (Execute q (k - n)) as [[[m' err'] q']|]; cbn; [|done]. do 3 f_equal. lia.
  - rewrite (Execute_final p n k); [by rewrite Hx | by rewrite Hx | lia].
Qed.

(** Observing does not change what is executed. *)
Lemma observe_loop_fst {V} (obs : Observer V) fuel n nst p v :
  fst <$> observe_loop obs fuel n nst p v = execute_all_loop fuel n nst p.
Proof.
  revert nst p v. induction fuel as [|fuel IH]; intros nst p v; [done|]. cbn [observe_loop execute_all_loop].
  destruct (Execute p n) as [[[m err] q]|]; cbn; [|done].
  destruct (failed err || (m <? n)%nat); cbn; [done | apply IH].
Qed.

End Running.

(** ** Properties *)

Module MachineProperties.
Section Properties.
Context {W : Type} `{!Word W}.

(** C14: The interpreter implements the rule-based small-step semantics: a
    machine executes a step exactly when a rule applies, with the state the rule
    gives; in particular a step is never made with an empty stack, by a failing
    instruction or by one whose operands are missing. *)
Theorem machine_step (p p' : Base W) : execute p = Ok p' <-> step p p'.
Proof. split; [apply execute_step | apply step_execute]. Qed.

(** C15: A call behaves as one instruction of the caller.  Whatever the callee
    does between the call and the matching return (calls included), afterwards
    the stack is the stack of the caller with the program counter moved past the
    call and the return registers holding the outputs of the callee; all other
    registers of the caller, and all frames below, are untouched. *)
Theorem machine_call_bracket (p p1 p2 p3 : Base W) pre fr callee id args rets width regs insn width' regs' :
  callstack p = pre ++ [fr] -> fetch (modules p) fr = Some (OpIo CALL id args rets, width, regs) ->
  execute p = Ok p1 -> within (S (S (length pre))) p1 p2 ->
  callstack p2 !! S (length pre) = Some callee -> Depth p2 = S (S (length pre)) ->
  fetch (modules p2) callee = Some (insn, width', regs') -> OpCode_of insn = RETURN ->
  execute p2 = Ok p3 ->
  exists fr', callstack p3 = pre ++ [fr'] /\ identity fr' = identity fr /\
    Frame.pc fr' = PC.Next (Frame.pc fr) width /\
    length (Frame.registers fr') = length (Frame.registers fr) /\
    (NoDup rets -> forall i r, rets !! i = Some r -> Frame.registers fr' !! r = Frame.registers callee !! (length args + i)%nat) /\
    (forall r, r ∉ rets -> Frame.registers fr' !! r = Frame.registers fr !! r).
Proof.
  intros Hc Hf H1 Hw Hcallee Hd Hf2 Hop H3. apply execute_step in H1, H3. by eapply call_bracket.
Qed.

(** A step leaves the functions and the kinds, geometries and names of the
    memories as they are, changes no stack frame below the new top of the stack,
    and keeps the function, argument count and return registers of every frame
    that stays on the stack. *)
Theorem machine_isolation (p p' : Base W) :
  execute p = Ok p' ->
  Forall2 same_module (modules p) (modules p') /\
  take (Depth p' - 1) (callstack p') = take (Depth p' - 1) (callstack p) /\
  (forall i fr fr', callstack p !! i = Some fr -> callstack p' !! i = Some fr' -> identity fr' = identity fr).
Proof.
  intros Hst%execute_step. split; [by apply step_modules|]. split; [by apply step_prefix|].
  intros i fr fr'. by apply step_identity.
Qed.

(** [Execute] makes exactly the steps it reports: [m] transitions lead to the
    state it leaves; it stops early only when the stack is empty, or because the
    next step fails with the error it returns; and running [a + b] steps is the
    same as running [a] steps and then, when these were all made, [b] more. *)
Theorem machine_execute (p : Base W) (a b : nat) :
  (forall m err q, Execute p a = Ok (m, err, q) ->
     nsteps m p q /\ (m <= a)%nat /\
     match err with
     | None => m = a \/ Depth q = 0%nat
     | Some msg => (m < a)%nat /\ Depth q <> 0%nat /\ execute q = Fault (Error msg)
     end) /\
  Execute p (a + b) =
    match Execute p a with
    | Ok (m, None, q) => if (m <? a)%nat then Ok (m, None, q) else shift m (Execute q b)
    | r => r
    end.
Proof.
  split; [intros m err q; apply Execute_nsteps|]. rewrite Execute_split. unfold final.
  destruct (Execute p a) as [[[m [msg|]] q]|]; cbn [failed orb]; [done| |done]. by destruct (m <? a)%nat.
Qed.

(** The chunk size does not matter: when [k] steps are enough for the machine
    to stop, to fail or to panic, [ExecuteAll] with any chunk of at least one step
    terminates with the same count, error and state as one run of [k] steps, and so
    does [ExecuteAndObserve], whatever the observer.  With chunks of zero steps it
    never returns. *)
Theorem machine_execute_all {V} (obs : Observer V) (p : Base W) (n k : nat) (v : V) :
  ((1 <= n)%nat -> final k (Execute p k) = true ->
     ExecuteAll (S k) p n = Execute p k /\ fst <$> ExecuteAndObserve obs (S k) p n v = Execute p k) /\
  (forall fuel, ExecuteAll fuel p 0 = Fault OutOfFuel).
Proof.
  split.
  - intros Hn Hf.
    assert (Ho : fst <$> ExecuteAndObserve obs (S k) p n v = Execute p k).
    { unfold ExecuteAndObserve. rewrite (observe_loop_final obs (S k) n 0 p _ k) by (done || lia).
      unfold shift. by destruct (Execute p k) as [[[m err] q]|]. }
    split; [|done]. rewrite <-Ho. unfold ExecuteAll, ExecuteAndObserve. by rewrite observe_loop_fst.
  - intros fuel. unfold ExecuteAll. generalize 0%nat at 2. induction fuel as [|fuel IH]; intros nst; [done|].
    cbn. apply IH.
Qed.

End Properties.

(** *** A concrete machine: [main] calls [inc], and uses a memory *)

Definition inc : Function Uint.t :=
  mkFunction "inc" false [Register.NewInput "x" 8 0; Register.NewOutput "r" 8 0] 1 1
    [[NewIntAdd 1 [0%nat] 1; NewReturn]].

Definition main : Function Uint.t :=
  mkFunction "main" false [Register.NewComputed "a" 8 0; Register.NewComputed "b" 8 0] 0 0
    [[NewIntAdd 0 [] 41]; [NewCall 1 [0%nat] [1%nat]];
     [NewMemWrite 2 [0%nat] [1%nat]; NewMemRead 2 [0%nat] [0%nat]];
     [NewSkipIf EQ 0 1 1; NewFail []; NewReturn]].

Definition ram : Memory Uint.t :=
  NewReadWriteMemory "ram" [Register.NewInput "a" 8 0; Register.NewOutput "d" 8 0].

Definition sample : Base Uint.t := NewBase (Executor.Execute (251 : Uint.t)) [MFunction main; MFunction inc; MMemory ram].

Definition booted : result (Base Uint.t) := Boot sample "main" ∅.

(** The machine after [k] steps *)
Definition next (p : Base Uint.t) : Base Uint.t := match execute p with Ok q => q | _ => p end.
Definition state_at (k : nat) : Base Uint.t :=
  Nat.iter k next (match booted with Ok p => p | _ => sample end).

Lemma next_ok k : is_ok (execute (state_at k)) = true -> execute (state_at k) = Ok (state_at (S k)).
Proof.
  change (state_at (S k)) with (next (state_at k)). unfold next. by destruct (execute (state_at k)).
Qed.

Lemma state_at_stops : final 9 (Execute (state_at 0) 9) = true.
Proof. vm_compute. reflexivity. Qed.

(** Skipping past the end of a vector is not a failure: the machine goes on
    with the next macro instruction. *)
Theorem machine_skip_past_end (pc : PC.t) (n width : nat) :
  (width <= PC.Micro pc + n + 1)%nat ->
  PC.Next (PC.Skip pc n) width = PC.Goto pc (PC.Macro pc + 1).
Proof.
  intros Hle. unfold PC.Next, PC.Skip. cbn. rewrite (proj2 (Nat.leb_le _ _)) by lia. by rewrite Nat.add_1_r.
Qed.

Lemma machine_skip_past_end_witness : PC.Next (PC.Skip (PC.mk 3 0) 7) 2 = PC.mk 4 0.
Proof. apply (machine_skip_past_end (PC.mk 3 0) 7 2). cbn. lia. Defined.

Lemma machine_isolation_witness : Forall2 same_module (modules (state_at 1)) (modules (state_at 2)).
Proof. apply (machine_isolation (state_at 1) (state_at 2)). apply next_ok. vm_compute. reflexivity. Defined.

Lemma machine_execute_all_witness : ExecuteAll 10 (state_at 0) 2 = Execute (state_at 0) 9.
Proof.
  destruct (machine_execute_all (mkObserver nat (fun v _ => v) (fun v _ => v) (fun v _ => S v))
    (state_at 0) 2 9 0%nat) as [Hall _].
  destruct (Hall (le_S 1 1 (le_n 1)) state_at_stops) as [H _]. exact H.
Defined.

Lemma machine_call_bracket_witness : exists fr',
  callstack (state_at 4) = [fr'] /\ Frame.registers fr' !! 1%nat = Some (42 : Uint.t).
Proof.
  destruct (machine_call_bracket (state_at 1) (state_at 2) (state_at 3) (state_at 4) []
    (Frame.mk 0 (PC.mk 1 0) 0 [41; 0] []) (Frame.mk 1 (PC.mk 0 1) 1 [41; 42] [1%nat]) 1 [0%nat] [1%nat]
    1 [Register.NewComputed "a" 8 0; Register.NewComputed "b" 8 0] NewReturn 2
    [Register.NewInput "x" 8 0; Register.NewOutput "r" 8 0]) as (fr' & Hc & _ & _ & _ & Hr & _).
  - vm_compute. reflexivity.
  - vm_compute. reflexivity.
  - apply next_ok. vm_compute. reflexivity.
  - apply within_step with (state_at 3); [vm_compute; lia | apply execute_step, next_ok; vm_compute; reflexivity |].
    apply within_refl. vm_compute. lia.
  - vm_compute. reflexivity.
  - vm_compute. reflexivity.
  - vm_compute. reflexivity.
  - reflexivity.
  - apply next_ok. vm_compute. reflexivity.
  - exists fr'. split; [exact Hc|]. rewrite (Hr (NoDup_singleton _) 0%nat 1%nat eq_refl). reflexivity.
Defined.

End MachineProperties.
