(* ===== verification/Safety.v ===== *)
(** * Type safety of the machine

    A typing discipline for programs, and the invariant it establishes: in every
    state reached from a booted typed program the registers of every live frame
    and the words of every memory are within their declared types, every program
    counter points into the code of its function, and every frame but the top is
    stopped at the call that created the frame above it.

    The machine is generic in its executor; [ExecutorTyping] is what it needs of
    one, and [Executor.v] discharges it for the word executor. *)

From Stdlib Require Import ZArith Lia.
From stdpp Require Import base numbers list option strings gmap.
From S2P Require Import Prelude Word Register Memory Instruction Executor Machine.

(** ** The interface to the executor *)

Class ExecutorTyping {W} `{!Word W, !WordLaws W} (ex : Machine.Executor W)
  (ok : Register.t -> Prop) (fit : Register.t -> W -> Prop)
  (typed : list Register.t -> Instruction W -> Prop) : Prop := {
  fit_zero r : ok r -> fit r w_zero;
  fit_width r v : Register.IsNative r = false -> fit r v -> word_ok v /\ w_BigInt v < 2 ^ Register.width r;
  executor_fits regs insn frame frame' :
    Forall ok regs -> Forall2 fit regs frame -> typed regs insn -> ex insn frame regs = Ok frame' ->
    Forall2 fit regs frame'
}.

Section Safety.
Context {W : Type} `{!Word W, !WordLaws W}.
Context (ex : Machine.Executor W) (ok : Register.t -> Prop) (fit : Register.t -> W -> Prop)
  (typed : list Register.t -> Instruction W -> Prop) `{!ExecutorTyping ex ok fit typed}.
Implicit Types (p : Base W) (ms : list (Module_ W)) (fr caller callee : Frame.t W) (f g : Function W) (m : Memory W).

(** ** Typing of programs *)

(** Every value of the first register is a value of the second. *)
Definition sub_reg (ra rb : option Register.t) : Prop :=
  exists a b, ra = Some a /\ rb = Some b /\ forall v, fit a v -> fit b v.

Definition pc_ok f (pc : PC.t) : Prop :=
  exists vec, code f !! PC.Macro pc = Some vec /\ (PC.Micro pc < length vec)%nat.

(** A geometry whose rows do not overlap *)
Record geometry_ok (g : Geometry) : Prop := {
  inputs_nonneg : 0 <= Memory.numInputs g;
  outputs_pos : 0 < Memory.numOutputs g;
  registers_ok : Forall ok (Memory.registers g);
  addresses_fixed : Forall (fun r => Register.IsNative r = false /\ 0 <= Register.width r)
                      (take (Z.to_nat (Memory.numInputs g)) (Memory.registers g));
  rows_fit : 2 ^ bits (Memory.registers g) (Z.to_nat (Memory.numInputs g)) * Memory.numOutputs g <= 2 ^ 64
}.

(** The operands of a memory access *)
Record access_typed f (g : Geometry) (address data : list nat) : Prop := {
  address_length : length address = Z.to_nat (Memory.numInputs g);
  data_length : Z.of_nat (length data) <= Memory.numOutputs g;
  address_sub i a : address !! i = Some a ->
    sub_reg (Instruction.registers f !! a) (Memory.registers g !! i)
}.

Definition data_register (g : Geometry) (k : nat) : option Register.t :=
  Memory.registers g !! (Z.to_nat (Memory.numInputs g) + k)%nat.

Definition insn_typed ms f (pc : PC.t) (width : nat) (insn : Instruction W) : Prop :=
  let next := pc_ok f (PC.Next pc width) in
  match insn with
  | OpIo CALL id args rets =>
      next /\ exists g, ms !! id = Some (MFunction g) /\ pc_ok g (PC.mk 0 0) /\
        (length args <= Width g)%nat /\
        (forall i a, args !! i = Some a -> sub_reg (Instruction.registers f !! a) (Instruction.registers g !! i)) /\
        (forall i r, rets !! i = Some r ->
           sub_reg (Instruction.registers g !! (length args + i)%nat) (Instruction.registers f !! r))
  | OpIo MEMORY_READ id address data =>
      next /\ exists m, ms !! id = Some (MMemory m) /\ access_typed f (geometry_of m) address data /\
        (forall k r, data !! k = Some r -> sub_reg (data_register (geometry_of m) k) (Instruction.registers f !! r))
  | OpIo MEMORY_WRITE id address data =>
      next /\ exists m, ms !! id = Some (MMemory m) /\ access_typed f (geometry_of m) address data /\
        (forall k r, data !! k = Some r -> sub_reg (Instruction.registers f !! r) (data_register (geometry_of m) k))
  | OpImm JUMP target => pc_ok f (PC.Goto pc target)
  | OpImm RETURN _ | Fail_ _ => True
  | Skip n => pc_ok f (PC.Next (PC.Skip pc n) width)
  | SkipIf cond l r n =>
      next /\ pc_ok f (PC.Next (PC.Skip pc n) width) /\ 0 <= cond <= 5 /\
      (l < Width f)%nat /\ (r < Width f)%nat
  | Debug_ _ => next
  | _ => next /\ straight_line (OpCode_of insn) = true /\ typed (Instruction.registers f) insn
  end.

Definition function_typed ms f : Prop :=
  Forall ok (Instruction.registers f) /\
  forall macro micro vec insn, code f !! macro = Some vec -> vec !! micro = Some insn ->
    insn_typed ms f (PC.mk macro micro) (length vec) insn.

Definition module_typed ms (m : Module_ W) : Prop :=
  match m with
  | MFunction f => function_typed ms f
  | MMemory m => geometry_ok (geometry_of m)
  end.

Definition program_typed ms : Prop := Forall (module_typed ms) ms.

(** ** Typing of states *)

(** The words of a backing slice; [addr j] is the address of its element [j]. *)
Definition slice_fits (g : Geometry) (addr : Z -> Z) (l : list W) : Prop :=
  forall j v r, l !! j = Some v -> data_register g (Z.to_nat (addr (Z.of_nat j) mod Memory.numOutputs g)) = Some r -> fit r v.

Definition memory_fits m : Prop :=
  match m with
  | StaticArray_ q | RandomAccess_ q | ReadOnly_ q | StaticReadOnly_ q | WriteOnce_ q =>
      slice_fits (geometry q) (fun j => j) (data q)
  | BiPartite_ q =>
      slice_fits (bi_geometry q) (fun j => j) (lower q) /\
      slice_fits (bi_geometry q) (fun j => TOP_POS - j) (upper q)
  end.

Definition module_fits (m : Module_ W) : Prop :=
  match m with MFunction _ => True | MMemory m => memory_fits m end.

Definition frame_typed ms fr : Prop :=
  exists f, ms !! Frame.functionId fr = Some (MFunction f) /\
    Forall2 fit (Instruction.registers f) (Frame.registers fr) /\ pc_ok f (Frame.pc fr).

(** The caller is stopped at the call that made the callee. *)
Definition linked ms caller callee : Prop :=
  exists args rets width regs,
    fetch ms caller = Some (OpIo CALL (Frame.functionId callee) args rets, width, regs) /\
    Frame.args callee = length args /\ Frame.returns callee = rets.

Definition chain ms (cs : list (Frame.t W)) : Prop :=
  forall i a b, cs !! i = Some a -> cs !! S i = Some b -> linked ms a b.

Record well_typed p : Prop := {
  wt_executor : executor p = ex;
  wt_program : program_typed (modules p);
  wt_memories : Forall module_fits (modules p);
  wt_frames : Forall (frame_typed (modules p)) (callstack p);
  wt_chain : chain (modules p) (callstack p)
}.

(** ** Types do not depend on the contents of the memories *)

Lemma same_lookup ms ms' id x :
  Forall2 same_module ms ms' -> ms !! id = Some x -> exists y, ms' !! id = Some y /\ same_module x y.
Proof. intros Hs Hx. by eapply Forall2_lookup_l in Hs. Qed.

Lemma same_function ms ms' id g :
  Forall2 same_module ms ms' -> ms !! id = Some (MFunction g) -> ms' !! id = Some (MFunction g).
Proof. intros Hs Hx. destruct (same_lookup _ _ _ _ Hs Hx) as ([g'|] & -> & Hy); cbn in Hy; [by subst | done]. Qed.

Lemma same_memory ms ms' id m :
  Forall2 same_module ms ms' -> ms !! id = Some (MMemory m) ->
  exists m', ms' !! id = Some (MMemory m') /\ geometry_of m' = geometry_of m.
Proof.
  intros Hs Hx. destruct (same_lookup _ _ _ _ Hs Hx) as ([|m'] & -> & Hy); cbn in Hy; [done|].
  exists m'. split; [done|]. tauto.
Qed.

Lemma same_insn_typed ms ms' f pc width insn :
  Forall2 same_module ms ms' -> insn_typed ms f pc width insn -> insn_typed ms' f pc width insn.
Proof.
  intros Hs. destruct insn as [op id args rets|op n|n|cond l r n|chunks|chunks|op t s c|t s w|ts s]; try done.
  destruct op; cbn; try done.
  - intros (Hn & g & Hg & Hrest). split; [done|]. exists g. split; [by eapply same_function | done].
  - intros (Hn & m & Hm & Hrest). split; [done|].
    destruct (same_memory _ _ _ _ Hs Hm) as (m' & Hm' & Hgeo). exists m'. by rewrite Hgeo.
  - intros (Hn & m & Hm & Hrest). split; [done|].
    destruct (same_memory _ _ _ _ Hs Hm) as (m' & Hm' & Hgeo). exists m'. by rewrite Hgeo.
Qed.

Lemma same_program ms ms' : Forall2 same_module ms ms' -> program_typed ms -> program_typed ms'.
Proof.
  intros Hs Hp. apply Forall_lookup. intros id y Hy.
  destruct (Forall2_lookup_r _ _ _ _ _ Hs Hy) as (x & Hx & Hxy).
  pose proof (proj1 (Forall_lookup _ _) Hp id x Hx) as Ht.
  destruct x as [f|m], y as [f'|m']; cbn in Hxy; try done; cbn in *.
  - subst f'. destruct Ht as [Hok Ht]. split; [done|]. intros. eapply same_insn_typed; [done|]. by eapply Ht.
  - destruct Hxy as (_ & -> & _). done.
Qed.

Lemma same_frame_typed ms ms' fr : Forall2 same_module ms ms' -> frame_typed ms fr -> frame_typed ms' fr.
Proof. intros Hs (f & Hf & Hrest). exists f. split; [by eapply same_function | done]. Qed.

Lemma same_chain ms ms' cs : Forall2 same_module ms ms' -> chain ms cs -> chain ms' cs.
Proof.
  intros Hs Hc i a b Ha Hb. destruct (Hc i a b Ha Hb) as (args & rets & width & regs & Hf & Hrest).
  exists args, rets, width, regs. by rewrite (same_fetch ms ms' a Hs).
Qed.

(** ** The stack *)

Lemma chain_snoc ms pre fr :
  chain ms (pre ++ [fr]) <-> chain ms pre /\ forall a, last pre = Some a -> linked ms a fr.
Proof.
  split.
  - intros Hc. split.
    + intros i a b Ha Hb. apply (Hc i); by apply lookup_app_l_Some.
    + intros a Ha. rewrite last_lookup in Ha. destruct pre as [|x pre]; [done|]. cbn in Ha.
      apply (Hc (length pre)); [by apply lookup_app_l_Some|].
      rewrite lookup_app_r by done. by rewrite Nat.sub_diag.
  - intros [Hc Hl] i a b Ha Hb. destruct (decide (S i < length pre)%nat) as [Hlt|Hge].
    + rewrite lookup_app_l in Ha, Hb by lia. by eapply Hc.
    + apply lookup_lt_Some in Hb as Hbl. rewrite length_app in Hbl. cbn in Hbl.
      assert (S i = length pre) as Hi by lia. rewrite Hi, lookup_app_r, Nat.sub_diag in Hb by done.
      injection Hb as <-. rewrite lookup_app_l in Ha by lia. apply Hl. rewrite last_lookup, <-Hi. done.
Qed.

Lemma linked_identity ms a fr fr' : identity fr' = identity fr -> linked ms a fr -> linked ms a fr'.
Proof.
  intros [= Hid Hargs Hrets] (args & rets & width & regs & Hf & Ha & Hr).
  exists args, rets, width, regs. by rewrite Hid, Hargs, Hrets.
Qed.

Lemma chain_top ms pre fr fr' : identity fr' = identity fr -> chain ms (pre ++ [fr]) -> chain ms (pre ++ [fr']).
Proof.
  intros Hid [Hc Hl]%chain_snoc. apply chain_snoc. split; [done|]. intros a Ha. by eapply linked_identity, Hl.
Qed.

(** The function of a frame and the typing of its current instruction *)
Lemma fetch_typed ms fr insn width regs :
  program_typed ms -> fetch ms fr = Some (insn, width, regs) ->
  exists f, ms !! Frame.functionId fr = Some (MFunction f) /\ regs = Instruction.registers f /\
    Forall ok regs /\ insn_typed ms f (Frame.pc fr) width insn.
Proof.
  intros Hp Hf. unfold fetch in Hf. destruct (ms !! Frame.functionId fr) as [[f|]|] eqn:Hid; cbn in Hf; [|done..].
  destruct (code f !! PC.Macro (Frame.pc fr)) as [vec|] eqn:Hv; cbn in Hf; [|done].
  destruct (vec !! PC.Micro (Frame.pc fr)) as [i|] eqn:Hi; cbn in Hf; [|done]. injection Hf as <- <- <-.
  exists f. destruct (proj1 (Forall_lookup _ _) Hp _ _ Hid) as [Hok Ht].
  split; [done|]. split; [done|]. split; [done|]. specialize (Ht _ _ _ _ Hv Hi). by destruct (Frame.pc fr).
Qed.

Lemma pc_ok_fetch ms fr f : ms !! Frame.functionId fr = Some (MFunction f) -> pc_ok f (Frame.pc fr) ->
  exists insn width, fetch ms fr = Some (insn, width, Instruction.registers f).
Proof.
  intros Hid (vec & Hv & Hlt). destruct (lookup_lt_is_Some_2 vec _ Hlt) as [insn Hi].
  exists insn, (length vec). unfold fetch. rewrite Hid. cbn. rewrite Hv. cbn. by rewrite Hi.
Qed.

(** Replacing the top frame by one of the same identity *)
Lemma well_typed_top p pre fr fr' ms' out :
  well_typed p -> callstack p = pre ++ [fr] -> identity fr' = identity fr ->
  Forall2 same_module (modules p) ms' -> Forall module_fits ms' ->
  frame_typed (modules p) fr' ->
  well_typed (mkBase ms' (pre ++ [fr']) (executor p) out).
Proof.
  intros [Hx Hp Hm Hf Hc] Hcs Hid Hs Hm' Hf'. rewrite Hcs in Hf, Hc. apply Forall_app in Hf as [Hpre _].
  split; cbn; [done|by eapply same_program|done| |eapply same_chain; [done|by eapply chain_top]].
  apply Forall_app. split.
  - eapply Forall_impl; [done|]. intros x. by apply same_frame_typed.
  - constructor; [|constructor]. by eapply same_frame_typed.
Qed.

End Safety.
(** ** Memories keep their types *)

Section MemorySafety.
Context {W : Type} `{!Word W, !WordLaws W}.
Context (ex : Machine.Executor W) (ok : Register.t -> Prop) (fit : Register.t -> W -> Prop)
  (typed : list Register.t -> Instruction W -> Prop) `{!ExecutorTyping ex ok fit typed}.
Implicit Types (f : Function W) (m : Memory W).

Lemma slice_set_fits regs (frame frame' : list W) rid v r :
  Forall2 fit regs frame -> slice_set frame rid v = Ok frame' -> regs !! rid = Some r -> fit r v ->
  Forall2 fit regs frame'.
Proof.
  intros Hf [Hlt ->]%slice_set_ok Hr Hv. rewrite <-(list_insert_id regs rid r Hr). by apply Forall2_insert.
Qed.

(** The components of a typed address *)
Lemma mapM_get_app (frame : list W) rids ws :
  mapM (slice_get frame) rids = Ok ws <-> Forall2 (fun r w => frame !! r = Some w) rids ws.
Proof.
  revert ws. induction rids as [|r rids IH]; intros ws; cbn.
  - split; [intros [= <-]; constructor | by intros ->%Forall2_nil_inv_l].
  - split.
    + intros H. inv_ok. subst ws. constructor; [by apply slice_get_ok | by apply IH].
    + intros (w & ws' & Hw & Hf & ->)%Forall2_cons_inv_l. rewrite (proj2 (slice_get_ok _ _ _) Hw). cbn.
      by rewrite (proj2 (IH ws') Hf).
Qed.

Lemma frame_decode_values p (frame : list W) i idx rids r :
  frame_decode_loop p frame i idx rids = Ok r -> exists ws, mapM (slice_get frame) rids = Ok ws.
Proof.
  revert i idx. induction rids as [|rid rids IH]; intros i idx; [by exists []|]. cbn. intros H. inv_ok.
  rewrite Ha1. cbn. destruct (IH _ _ H) as [ws ->]. cbn. by eexists.
Qed.

Lemma addressable_typed regs aregs (frame ws : list W) rids :
  Forall2 fit regs frame ->
  Forall (fun r => Register.IsNative r = false /\ 0 <= Register.width r) (take (length rids) aregs) ->
  Forall2 (fun r w => frame !! r = Some w) rids ws ->
  (forall i a, rids !! i = Some a -> sub_reg fit (regs !! a) (aregs !! i)) ->
  addressable aregs ws.
Proof.
  intros Hf. revert aregs ws. induction rids as [|rid rids IH]; intros aregs ws Hfix Hws Hsub.
  { apply Forall2_nil_inv_l in Hws as ->. by destruct aregs. }
  apply Forall2_cons_inv_l in Hws as (w & ws' & Hw & Hws & ->).
  destruct (Hsub 0%nat rid eq_refl) as (a & b & Ha & Hb & Hab).
  destruct aregs as [|b' aregs]; [done|]. cbn in Hb. injection Hb as ->. cbn in Hfix.
  apply Forall_cons in Hfix as [[Hn Hw0] Hfix].
  destruct (Forall2_lookup_r _ _ _ _ _ Hf Hw) as (a' & Ha' & Hfa). rewrite Ha in Ha'. injection Ha' as <-.
  destruct (fit_width b w Hn (Hab w Hfa)) as [Hok Hlt]. cbn.
  split; [done|]. split; [done|]. split; [done|]. split; [done|].
  apply (IH aregs ws' Hfix Hws). intros i x Hx. exact (Hsub (S i) x Hx).
Qed.

(** A typed access addresses a whole row, without wrapping around. *)
Lemma access_row f (g : Geometry) (frame : list W) address datas start stop :
  geometry_ok ok g -> access_typed fit f g address datas ->
  Forall2 fit (Instruction.registers f) frame ->
  FrameDecode g frame address = Ok (start, stop) ->
  exists idx, start = idx * Memory.numOutputs g /\ 0 <= start /\ start + Memory.numOutputs g <= 2 ^ 64 /\
    stop = u64 (start + Memory.numOutputs g).
Proof.
  intros [Hin Hout Hregs Hfix Hrows] [Hal Hdl Hsub] Hf Hd. unfold FrameDecode in Hd.
  apply bind_ok in Hd as (idx & Hd & Hrow). injection Hrow as <- <-.
  destruct (frame_decode_values _ _ _ _ _ _ Hd) as [ws Hws].
  rewrite (FrameDecode_Decode g frame address ws Hws) in Hd. apply mapM_get_app in Hws.
  rewrite <-Hal in Hfix, Hrows.
  pose proof (addressable_typed _ _ _ _ _ Hf Hfix Hws Hsub) as Had.
  rewrite (Forall2_length _ _ _ Hws) in Hrows.
  assert (0 < 2 ^ bits (Memory.registers g) (length ws)) by (apply Z.pow_pos_nonneg; [lia|by apply bits_nonneg]).
  rewrite (decode_loop_spec g 0 0 ws) in Hd; [|done|lia|etransitivity; [|exact Hrows]; rewrite Z.mul_1_l; apply Z.le_mul_diag_r; lia].
  injection Hd as <-. cbn [drop]. pose proof (radix_bounds _ 0 _ Had (Z.le_refl 0)) as Hb.
  set (x := radix _ 0 ws) in *. exists x.
  rewrite (u64_small (x * _)) by nia. split; [done|]. split; [nia|]. split; [nia | done].
Qed.

Lemma row_offset idx n k : 0 < n -> 0 <= k < n -> (idx * n + k) mod n = k.
Proof. intros. rewrite Z.add_comm, Z.mod_add by lia. by apply Z.mod_small. Qed.

(** A readable word of a row fits its data register. *)
Lemma cell_fits m idx start k v r n :
  geometry_ok ok (geometry_of m) -> memory_fits fit m -> n = Memory.numOutputs (geometry_of m) ->
  start = idx * n -> 0 <= start -> start + n <= 2 ^ 64 -> 0 <= k < n ->
  data_register (geometry_of m) (Z.to_nat k) = Some r -> ok r ->
  cell m start k = Ok v -> fit r v.
Proof.
  intros Hg Hm Hnn Hst Hs Hle Hk Hr Hok Hc. assert (Hn : 0 < n) by (rewrite Hnn; apply Hg).
  pose proof TOP_POS_val as Htop. pose proof HALF_START_val as Hhalf.
  pose proof (fit_zero (ex := ex) r Hok) as Hz. pose proof (row_offset idx n k Hn Hk) as Hoff. rewrite <-Hst in Hoff.
  assert (Hread : forall (addr : Z -> Z) (l : list W) (j : Z), 0 <= j -> addr j = start + k ->
            slice_fits fit (geometry_of m) addr l -> fit r (ram_read l j)).
  { intros addr l j Hj Ha Hl. rewrite ram_read_lookup by done. destruct (l !! Z.to_nat j) as [w|] eqn:Hw; [|done].
    apply (Hl _ w r Hw). by rewrite Z2Nat.id, Ha, <-Hnn, Hoff by done. }
  destruct m as [q|q|q|q|q|q]; cbn [cell memory_fits geometry_of] in *;
    try (rewrite u64_small in Hc by lia; apply get64_lookup in Hc; [|lia];
         apply (Hm _ v r Hc); rewrite Z2Nat.id by lia; by rewrite Z.add_comm, <-Hnn, Hoff).
  - injection Hc as <-. rewrite u64_small by lia. apply (Hread (fun j => j)); [lia|lia|done].
  - destruct Hm as [Hlo Hup]. injection Hc as <-. destruct (Z.ltb_spec start HALF_START).
    + unfold readLower. rewrite u64_small by lia. apply (Hread (fun j => j)); [lia|lia|done].
    + destruct (k <? _) eqn:Hkn; [|done]. unfold readUpper. rewrite !u64_small by (rewrite ?u64_small by lia; lia).
      apply (Hread (fun j => TOP_POS - j)); [lia|lia|done].
Qed.

Lemma read_cells_fits regs rd i data (frame frame' : list W) :
  Forall2 fit regs frame -> read_cells rd i data frame = Ok frame' ->
  (forall k rid v, data !! k = Some rid -> rd (i + Z.of_nat k) = Ok v -> exists r, regs !! rid = Some r /\ fit r v) ->
  Forall2 fit regs frame'.
Proof.
  revert i frame. induction data as [|rid data IH]; intros i frame Hf Hr Hfit; cbn in Hr; [by injection Hr as <-|].
  inv_ok. destruct (Hfit 0%nat rid a eq_refl) as (r & Hreg & Hv); [by rewrite Z.add_0_r|].
  apply (IH (i + 1) a0); [by eapply slice_set_fits|done|]. intros k x v Hk Hv'. apply (Hfit (S k) x v Hk).
  by replace (i + Z.of_nat (S k)) with (i + 1 + Z.of_nat k) by lia.
Qed.

Lemma Read_decodes m (frame frame' : list W) address datas :
  Memory.Read m frame address datas = Ok frame' ->
  readable m /\ exists start stop, FrameDecode (geometry_of m) frame address = Ok (start, stop).
Proof.
  destruct m; cbn; try done; unfold StaticArray_Read, RandomAccess_Read, BiPartite_Read;
    destruct (FrameDecode _ _ _) as [[start stop]|]; cbn; try done; intros _; (split; [done|]; by eexists _, _).
Qed.

Lemma data_register_ok (g : Geometry) k r : geometry_ok ok g -> data_register g k = Some r -> ok r.
Proof. intros Hg Hr. by eapply Forall_lookup in Hr; [|apply Hg]. Qed.

Lemma Read_fits f m (frame frame' : list W) address datas :
  geometry_ok ok (geometry_of m) -> memory_fits fit m -> access_typed fit f (geometry_of m) address datas ->
  Forall2 fit (Instruction.registers f) frame ->
  (forall k r, datas !! k = Some r ->
     sub_reg fit (data_register (geometry_of m) k) (Instruction.registers f !! r)) ->
  Memory.Read m frame address datas = Ok frame' -> Forall2 fit (Instruction.registers f) frame'.
Proof.
  intros Hg Hm Ha Hf Hsub Hr. destruct (Read_decodes _ _ _ _ _ Hr) as (Hrd & start & stop & Hd).
  rewrite (Read_cells m frame address datas start stop Hrd Hd) in Hr.
  destruct (access_row f _ frame address datas start stop Hg Ha Hf Hd) as (idx & Hst & Hs & Hle & _).
  apply (read_cells_fits _ _ _ _ _ _ Hf Hr). intros k rid v Hk Hv. rewrite Z.add_0_l in Hv.
  destruct (Hsub k rid Hk) as (a & b & Hda & Hb & Hab). exists b. split; [done|]. apply Hab.
  apply lookup_lt_Some in Hk as Hkl. pose proof (data_length _ _ _ _ _ Ha).
  apply (cell_fits m idx start (Z.of_nat k) v a (Memory.numOutputs (geometry_of m))); try done;
    [lia|by rewrite Nat2Z.id|by eapply data_register_ok].
Qed.

(** Writes *)
Lemma expand_fits (g : Geometry) addr (l l' : list W) n :
  geometry_ok ok g -> slice_fits fit g addr l -> expand w_zero l n = Ok l' -> slice_fits fit g addr l'.
Proof.
  intros Hg Hl He j v r Hv Hr. pose proof (data_register_ok _ _ _ Hg Hr) as Hok.
  apply expand_spec in He as (_ & _ & _ & He). specialize (He j). rewrite Hv in He. cbn in He.
  destruct (l !! j) as [w|] eqn:Hw; cbn in He; subst v; [by apply (Hl j)|]. by apply (fit_zero (ex := ex)).
Qed.

Lemma write_cells_fits (g : Geometry) addr pos i data (frame l l' : list W) :
  slice_fits fit g addr l -> write_cells pos i data frame l = Ok l' ->
  (forall k rid v r, data !! k = Some rid -> frame !! rid = Some v -> 0 <= pos (i + Z.of_nat k) ->
     data_register g (Z.to_nat (addr (pos (i + Z.of_nat k)) mod Memory.numOutputs g)) = Some r -> fit r v) ->
  slice_fits fit g addr l'.
Proof.
  revert i l. induction data as [|rid data IH]; intros i l Hl Hw Hfit; cbn in Hw; [by injection Hw as <-|].
  inv_ok. apply slice_get_ok in Ha. apply set64_ok in Ha0 as [Hp ->]. apply (IH (i + 1) (<[Z.to_nat (pos i) := a]> l)).
  - intros j v r Hv Hr. apply list_lookup_insert_Some in Hv as [(<- & <- & _)|(_ & Hv)]; [|by apply (Hl j)].
    rewrite Z2Nat.id in Hr by lia. apply (Hfit 0%nat rid a r eq_refl Ha); rewrite Z.add_0_r; [lia | done].
  - done.
  - intros k x v r Hk Hv. replace (i + 1 + Z.of_nat k) with (i + Z.of_nat (S k)) by lia. by apply (Hfit (S k) x v r).
Qed.

Lemma Write_decodes m m' (frame : list W) address datas :
  Memory.Write m frame address datas = Ok m' ->
  exists start stop, FrameDecode (geometry_of m) frame address = Ok (start, stop).
Proof.
  destruct m; cbn; try done; unfold StaticArray_Write, BiPartite_Write;
    destruct (FrameDecode _ _ _) as [[start stop]|]; cbn; try done; intros _; by eexists _, _.
Qed.

Lemma lookup_take_inv {A} (l : list A) n k x : take n l !! k = Some x -> l !! k = Some x.
Proof. intros H. by apply lookup_take_Some in H as [H _]. Qed.

Lemma Write_fits f m m' (frame : list W) address datas :
  geometry_ok ok (geometry_of m) -> memory_fits fit m -> access_typed fit f (geometry_of m) address datas ->
  Forall2 fit (Instruction.registers f) frame ->
  (forall k r, datas !! k = Some r ->
     sub_reg fit (Instruction.registers f !! r) (data_register (geometry_of m) k)) ->
  Memory.Write m frame address datas = Ok m' -> memory_fits fit m'.
Proof.
  intros Hg Hm Ha Hf Hsub Hw. destruct (Write_decodes _ _ _ _ _ Hw) as (start & stop & Hd).
  destruct (access_row f _ frame address datas start stop Hg Ha Hf Hd) as (idx & Hst & Hs & Hle & Hstop).
  remember (Memory.numOutputs (geometry_of m)) as n eqn:Hnn. assert (Hn : 0 < n) by (rewrite Hnn; apply Hg).
  pose proof TOP_POS_val as Htop. pose proof HALF_START_val as Hhalf. pose proof (data_length _ _ _ _ _ Ha) as Hdl.
  rewrite <-Hnn in Hdl.
  assert (Hval : forall k rid v r, datas !! k = Some rid -> frame !! rid = Some v ->
    data_register (geometry_of m) (Z.to_nat ((start + Z.of_nat k) mod n)) = Some r -> fit r v).
  { intros k rid v r Hk Hv Hr. apply lookup_lt_Some in Hk as Hkl.
    rewrite Hst, row_offset, Nat2Z.id in Hr by lia.
    destruct (Hsub k rid Hk) as (a & b & Hra & Hrb & Hab). rewrite Hr in Hrb. injection Hrb as <-.
    apply Hab. destruct (Forall2_lookup_r _ _ _ _ _ Hf Hv) as (a' & Ha' & Hfa). congruence. }
  destruct m as [q|q|q|q|q|q]; cbn [Memory.Write geometry_of memory_fits] in *; try done.
  1-3: unfold StaticArray_Write in Hw; rewrite Hd in Hw; cbn [mbind result_bind] in Hw;
    destruct (expand _ _ _) as [l1|] eqn:He; cbn [mbind result_bind] in Hw; [|done];
    destruct (write_cells _ _ _ _ _) as [l2|] eqn:Hc; [|done]; injection Hw as <-; cbn [memory_fits with_data data geometry];
    apply (write_cells_fits _ _ _ _ _ _ _ _ (expand_fits _ _ _ _ _ Hg Hm He) Hc);
    intros k rid v r Hk Hv _; apply lookup_lt_Some in Hk as Hkl; rewrite u64_small by lia;
    replace (0 + Z.of_nat k + start) with (start + Z.of_nat k) by lia; rewrite <-Hnn; by eapply Hval.
  destruct Hm as [Hlo Hup]. unfold BiPartite_Write in Hw. rewrite Hd in Hw. cbn [mbind result_bind] in Hw.
  destruct (Z.ltb_spec start HALF_START); (destruct (expand _ _ _) as [l1|] eqn:He; cbn [mbind result_bind] in Hw; [|done]);
    (destruct (write_cells _ _ _ _ _) as [l2|] eqn:Hc; [|done]); injection Hw as <-; cbn.
  - split; [|exact Hup]. apply (write_cells_fits _ _ _ _ _ _ _ _ (expand_fits _ _ _ _ _ Hg Hlo He) Hc).
    intros k rid v r Hk Hv _; apply lookup_lt_Some in Hk as Hkl; rewrite u64_small, <-Hnn by lia. by eapply Hval.
  - split; [exact Hlo|]. apply (write_cells_fits _ _ _ _ _ _ _ _ (expand_fits _ _ _ _ _ Hg Hup He) Hc).
    intros k rid v r Hk%lookup_take_inv Hv _; apply lookup_lt_Some in Hk as Hkl.
    rewrite !u64_small by (rewrite ?u64_small by lia; lia).
    replace (TOP_POS - (TOP_POS - (start + (0 + Z.of_nat k)))) with (start + Z.of_nat k) by lia.
    rewrite <-Hnn. by eapply Hval.
Qed.

End MemorySafety.
(** ** Steps preserve typing *)

Section Preservation.
Context {W : Type} `{!Word W, !WordLaws W}.
Context (ex : Machine.Executor W) (ok : Register.t -> Prop) (fit : Register.t -> W -> Prop)
  (typed : list Register.t -> Instruction W -> Prop) `{!ExecutorTyping ex ok fit typed}.
Implicit Types (p : Base W) (ms : list (Module_ W)) (fr caller callee : Frame.t W) (f g : Function W).

Abbreviation wt := (well_typed ex ok fit typed).

Lemma zeros_fit regs : Forall ok regs -> Forall2 fit regs (replicate (length regs) w_zero).
Proof. induction 1 as [|r regs Hr Hrs IH]; cbn; constructor; [by apply (fit_zero (ex := ex)) | done]. Qed.

(** The registers of a called function hold the arguments, then zeros. *)
Lemma call_fits f g (frame vs : list W) args :
  Forall2 fit (Instruction.registers f) frame -> values frame args = Some vs ->
  Forall ok (Instruction.registers g) -> (length args <= Width g)%nat ->
  (forall i a, args !! i = Some a -> sub_reg fit (Instruction.registers f !! a) (Instruction.registers g !! i)) ->
  Forall2 fit (Instruction.registers g) (vs ++ replicate (Width g - length vs) w_zero).
Proof.
  intros Hf Hvs Hok Hlen Hsub. pose proof (values_length _ _ _ Hvs) as Hl.
  assert (Hrg : Instruction.registers g =
    take (length vs) (Instruction.registers g) ++ drop (length vs) (Instruction.registers g)) by (by rewrite take_drop).
  rewrite Hrg. apply Forall2_app.
  - apply Forall2_same_length_lookup_2; [rewrite length_take; unfold Width in Hlen; lia|].
    intros i r v Hr Hv. apply lookup_take_inv in Hr. unfold values in Hvs. apply mapM_Some in Hvs.
    destruct (Forall2_lookup_r _ _ _ _ _ Hvs Hv) as (a & Ha & Hav).
    destruct (Hsub i a Ha) as (x & y & Hx & Hy & Hxy). rewrite Hr in Hy. injection Hy as <-. apply Hxy.
    destruct (Forall2_lookup_r _ _ _ _ _ Hf Hav) as (x' & Hx' & Hfx). congruence.
  - replace (Width g - length vs)%nat with (length (drop (length vs) (Instruction.registers g)))
      by (unfold Width; apply length_drop).
    apply zeros_fit. by apply Forall_drop.
Qed.

Lemma returns_fit regs (vs frame : list W) rets :
  Forall2 fit regs frame ->
  (forall i r v, rets !! i = Some r -> vs !! i = Some v -> exists x, regs !! r = Some x /\ fit x v) ->
  Forall2 fit regs (assign_returns rets vs frame).
Proof.
  revert vs frame. induction rets as [|r rets IH]; intros [|v vs] frame Hf Hr; try done. cbn. apply IH.
  - destruct (Hr 0%nat r v eq_refl eq_refl) as (x & Hx & Hv). rewrite <-(list_insert_id regs r x Hx). by apply Forall2_insert.
  - intros i r' v' Hr' Hv'. by apply (Hr (S i)).
Qed.

Lemma frame_at p pre fr : wt p -> callstack p = pre ++ [fr] -> frame_typed fit (modules p) fr.
Proof. intros Hp Hc. pose proof (wt_frames _ _ _ _ _ Hp) as Hf. rewrite Hc in Hf. apply Forall_app in Hf as [_ Hf]. by apply Forall_cons in Hf as [Hf _]. Qed.

(** The function, the registers and the current instruction of a live frame *)
Lemma current p fr insn width regs :
  wt p -> frame_typed fit (modules p) fr -> fetch (modules p) fr = Some (insn, width, regs) ->
  exists f, modules p !! Frame.functionId fr = Some (MFunction f) /\ regs = Instruction.registers f /\
    Forall ok regs /\ Forall2 fit regs (Frame.registers fr) /\
    insn_typed fit typed (modules p) f (Frame.pc fr) width insn.
Proof.
  intros Hp (f & Hf & Hfit & _) Hfe.
  destruct (fetch_typed ok fit typed _ _ _ _ _ (wt_program _ _ _ _ _ Hp) Hfe) as (f' & Hf' & -> & Hok & Ht).
  rewrite Hf in Hf'. injection Hf' as <-. by exists f.
Qed.

(** A frame that moves within its function, its registers still fitting *)
Lemma moved ms f fr (regs : list W) pc :
  ms !! Frame.functionId fr = Some (MFunction f) -> Forall2 fit (Instruction.registers f) regs -> pc_ok f pc ->
  frame_typed fit ms (Frame.Goto (Frame.with_registers fr regs) pc).
Proof. intros Hf Hr Hpc. by exists f. Qed.

Lemma moved_pc ms f fr pc :
  ms !! Frame.functionId fr = Some (MFunction f) -> Forall2 fit (Instruction.registers f) (Frame.registers fr) ->
  pc_ok f pc -> frame_typed fit ms (Frame.Goto fr pc).
Proof. intros Hf Hr Hpc. by exists f. Qed.

Lemma step_call_typed p pre fr width regs id args rets g vs :
  wt p -> callstack p = pre ++ [fr] ->
  fetch (modules p) fr = Some (OpIo CALL id args rets, width, regs) ->
  modules p !! id = Some (MFunction g) -> values (Frame.registers fr) args = Some vs ->
  wt (with_callstack p (pre ++ [fr; callee_frame id g vs rets])).
Proof.
  intros Hp Hc Hf Hm Hvs. pose proof (frame_at _ _ _ Hp Hc) as Hfr.
  destruct (current p fr _ _ _ Hp Hfr Hf) as (f & Hid & Hregs & Hok & Hfit & Ht).
  destruct Ht as (_ & g' & Hg & Hpc & Hlen & Hargs & _). rewrite Hm in Hg. injection Hg as <-.
  destruct Hp as [Hx Hpt Hmem Hframes Hchain]. rewrite Hc in Hframes, Hchain.
  change [fr; callee_frame id g vs rets] with ([fr] ++ [callee_frame id g vs rets]). rewrite app_assoc.
  split; cbn; [done|done|done| |].
  - apply Forall_app. split; [done|]. constructor; [|constructor]. exists g. split; [done|]. split; [|done].
    rewrite Hregs in Hfit. apply (call_fits f g (Frame.registers fr) vs args); try done.
    by destruct (proj1 (Forall_lookup _ _) Hpt _ _ Hm).
  - apply chain_snoc. split; [done|]. intros a Ha. rewrite last_snoc in Ha. injection Ha as <-.
    exists args, rets, width, regs. split; [done|]. split; [|done]. cbn. by eapply values_length.
Qed.

Lemma step_return_typed p pre caller callee insn' width' regs' :
  wt p -> callstack p = pre ++ [caller; callee] ->
  fetch (modules p) caller = Some (insn', width', regs') ->
  wt (with_top p pre (returned caller callee width')).
Proof.
  intros Hp Hc Hf. assert (Hc' : callstack p = (pre ++ [caller]) ++ [callee]) by (by rewrite Hc, <-app_assoc).
  pose proof (frame_at _ _ _ Hp Hc') as (g & Hg & Hgfit & _).
  pose proof (wt_frames _ _ _ _ _ Hp) as Hframes. rewrite Hc' in Hframes.
  apply Forall_app in Hframes as [Hpre _]. pose proof Hpre as Hpre'. apply Forall_app in Hpre as [_ Hcaller]. apply Forall_cons in Hcaller as [Hcaller _].
  pose proof (wt_chain _ _ _ _ _ Hp) as Hchain. rewrite Hc' in Hchain. apply chain_snoc in Hchain as [Hchain Hl].
  destruct (Hl caller (last_snoc _ _)) as (args & rets & width & regs & Hf' & Hargs & Hrets).
  rewrite Hf in Hf'. injection Hf' as -> -> ->.
  destruct (current p caller _ _ _ Hp Hcaller Hf) as (f & Hid & -> & Hok & Hfit & Hn & g' & Hg' & _ & _ & _ & Hsub).
  rewrite Hg in Hg'. injection Hg' as <-.
  assert (Hp' : wt (with_callstack p (pre ++ [caller]))).
  { destruct Hp as [? ? ? ? ?]. by split. }
  change (wt (mkBase (modules p) (pre ++ [returned caller callee width]) (executor p) (stdout p))).
  apply (well_typed_top ex ok fit typed _ pre caller (returned caller callee width) _ (stdout p) Hp' eq_refl eq_refl (same_modules_refl _)
           (wt_memories _ _ _ _ _ Hp)).
  cbn. apply (moved _ f); [done| |done]. apply returns_fit; [done|].
  rewrite Hargs, Hrets. intros i r v Hr Hv. destruct (Hsub i r Hr) as (a & b & Ha & Hb & Hab).
  exists b. split; [done|]. apply Hab. rewrite lookup_drop in Hv.
  destruct (Forall2_lookup_r _ _ _ _ _ Hgfit Hv) as (a' & Ha' & Hfa). congruence.
Qed.

Lemma step_typed p p' : wt p -> step p p' -> wt p'.
Proof.
  intros Hp Hst. destruct Hst as [pre fr width regs id args rets g vs Hc Hf Hm Hvs Hlen|fr insn width regs Hc Hf Hop
    |pre caller callee insn width regs insn' width' regs' Hc Hf Hop Hf' Hr
    |pre fr width regs t Hc Hf|pre fr width regs n Hc Hf|pre fr width regs c l r n taken Hc Hf Ht
    |pre fr width regs chunks msg Hc Hf Hmsg|pre fr width regs id address data m frame' Hc Hf Hm Hrd
    |pre fr width regs id address data m m' Hc Hf Hm Hwr|pre fr insn width regs frame' Hc Hf Hs Hx].
  { by eapply step_call_typed. }
  { destruct Hp as [? ? ? _ _]. split; cbn; [done..|constructor|]. by intros i a b Ha. }
  { by eapply step_return_typed. }
  all: pose proof (frame_at _ _ _ Hp Hc) as Hfr;
    destruct (current p fr _ _ _ Hp Hfr Hf) as (f & Hid & -> & Hok & Hfit & Hty);
    pose proof (wt_memories _ _ _ _ _ Hp) as Hmem;
    pose proof (fun fr' Hi Hft => well_typed_top ex ok fit typed p pre fr fr' (modules p) (stdout p) Hp Hc Hi
                  (same_modules_refl _) Hmem Hft) as Htop.
  - apply Htop; [done|]. by apply (moved_pc _ f).
  - apply Htop; [done|]. by apply (moved_pc _ f).
  - apply Htop; [done|]. destruct Hty as (Hn & Hsk & _). apply (moved_pc _ f); [done|done|]. by destruct taken.
  - change (wt (mkBase (modules p) (pre ++ [Frame.Goto fr (PC.Next (Frame.pc fr) width)]) (executor p) (stdout p ++ [msg]))).
    apply (well_typed_top ex ok fit typed p pre fr (Frame.Goto fr (PC.Next (Frame.pc fr) width)) _ _ Hp Hc eq_refl (same_modules_refl _) Hmem).
    by apply (moved_pc _ f).
  - apply Htop; [done|]. destruct Hty as (Hn & m0 & Hm0 & Ha & Hsub). rewrite Hm in Hm0. injection Hm0 as <-.
    apply (moved _ f); [done| |done].
    pose proof (proj1 (Forall_lookup _ _) (wt_program _ _ _ _ _ Hp) _ _ Hm) as Hg.
    pose proof (proj1 (Forall_lookup _ _) Hmem _ _ Hm) as Hmf.
    by apply (Read_fits ex ok fit typed f m (Frame.registers fr) frame' address data).
  - destruct Hty as (Hn & m0 & Hm0 & Ha & Hsub). rewrite Hm in Hm0. injection Hm0 as <-.
    pose proof (proj1 (Forall_lookup _ _) (wt_program _ _ _ _ _ Hp) _ _ Hm) as Hg.
    pose proof (proj1 (Forall_lookup _ _) Hmem _ _ Hm) as Hmf.
    apply (well_typed_top ex ok fit typed p pre fr (Frame.Goto fr (PC.Next (Frame.pc fr) width)) _ _ Hp Hc eq_refl).
    + eapply insert_same; [done|]. by eapply Write_same.
    + apply Forall_insert; [done|]. cbn. by apply (Write_fits ex ok fit typed f m m' (Frame.registers fr) address data).
    + by apply (moved_pc _ f).
  - apply Htop; [done|]. assert (Hty' : pc_ok f (PC.Next (Frame.pc fr) width) /\ typed (Instruction.registers f) insn).
    { destruct insn as [op ? ? ?|op ?|?|? ? ? ?|?|?|op ? ? ?|? ? ?|? ?]; try done; try destruct op; try done;
        by destruct Hty as (? & _ & ?). }
    destruct Hty' as [Hn Ht]. apply (moved _ f); [done| |done].
    rewrite (wt_executor _ _ _ _ _ Hp) in Hx. by apply (executor_fits _ insn (Frame.registers fr)).
Qed.

Lemma nsteps_typed n p p' : wt p -> nsteps n p p' -> wt p'.
Proof. intros Hp Hs. induction Hs; [done|]. eauto using step_typed. Qed.

(** ** Control flow does not fail *)

Lemma fetch_top p pre fr : wt p -> callstack p = pre ++ [fr] ->
  exists insn width regs, fetch (modules p) fr = Some (insn, width, regs).
Proof.
  intros Hp Hc. destruct (frame_at _ _ _ Hp Hc) as (f & Hf & _ & Hpc).
  destruct (pc_ok_fetch _ _ _ Hf Hpc) as (insn & width & Hfe). by eexists _, _, _.
Qed.

Lemma condition_total (frame : list W) cond l r :
  0 <= cond <= 5 -> (l < length frame)%nat -> (r < length frame)%nat ->
  exists b, executeCondition frame cond l r = Ok b.
Proof.
  intros Hc Hl Hr. destruct (lookup_lt_is_Some_2 frame l Hl) as [x Hx], (lookup_lt_is_Some_2 frame r Hr) as [y Hy].
  unfold executeCondition. rewrite (proj2 (slice_get_ok _ _ _) Hx), (proj2 (slice_get_ok _ _ _) Hy).
  cbn [mbind result_bind]. unfold EQ, NEQ, LT, LTEQ, GT, GTEQ.
  assert (cond = 0 \/ cond = 1 \/ cond = 2 \/ cond = 3 \/ cond = 4 \/ cond = 5) as Hd by lia.
  destruct Hd as [->|[->|[->|[->|[->| ->]]]]]; cbn; by eexists.
Qed.

(** The instructions that only move control *)
Definition control (op : OpCode) : bool :=
  match op with CALL | JUMP | RETURN | SKIP | SKIP_IF => true | _ => false end.

Lemma call_total p pre fr width regs id args rets :
  wt p -> callstack p = pre ++ [fr] ->
  fetch (modules p) fr = Some (OpIo CALL id args rets, width, regs) -> exists p', step p p'.
Proof.
  intros Hp Hc Hf. pose proof (frame_at _ _ _ Hp Hc) as Hfr.
  destruct (current p fr _ _ _ Hp Hfr Hf) as (f & Hid & -> & Hok & Hfit & Hn & g & Hg & Hpc & Hlen & Hargs & _).
  destruct (values (Frame.registers fr) args) as [vs|] eqn:Hvs; [eexists; by eapply step_call|].
  exfalso. unfold values in Hvs. apply mapM_None in Hvs. apply Exists_exists in Hvs as (a & Ha & Hna).
  apply list_elem_of_lookup in Ha as [i Hi]. destruct (Hargs i a Hi) as (x & y & Hx & _).
  destruct (Forall2_lookup_l _ _ _ _ _ Hfit Hx) as (v & Hv & _). congruence.
Qed.

Lemma return_total p pre fr insn width regs :
  wt p -> callstack p = pre ++ [fr] -> fetch (modules p) fr = Some (insn, width, regs) ->
  OpCode_of insn = RETURN -> exists p', step p p'.
Proof.
  intros Hp Hc Hf Hop. destruct pre as [|caller pre _] using rev_ind; [eexists; by eapply step_halt|].
  pose proof (wt_chain _ _ _ _ _ Hp) as Hchain. rewrite Hc in Hchain. apply chain_snoc in Hchain as [_ Hl].
  destruct (Hl caller (last_snoc _ _)) as (args & rets & width' & regs' & Hf' & Hargs & Hrets).
  pose proof (wt_frames _ _ _ _ _ Hp) as Hframes. rewrite Hc in Hframes.
  apply Forall_app in Hframes as [Hpre Hcallee]. apply Forall_app in Hpre as [_ Hcaller].
  apply Forall_cons in Hcaller as [Hcaller _]. apply Forall_cons in Hcallee as [Hcallee _]. destruct Hcallee as (g & Hg & Hgfit & _).
  destruct (current p caller _ _ _ Hp Hcaller Hf') as (f & Hid & -> & Hok & Hfit & Hn & g' & Hg' & _ & _ & _ & Hsub).
  rewrite Hg in Hg'. injection Hg' as <-. rewrite <-app_assoc in Hc.
  eexists. apply (step_return p pre caller fr insn width regs _ _ _ Hc Hf Hop Hf').
  split; rewrite Hrets, <-?(Forall2_length _ _ _ Hgfit), <-?(Forall2_length _ _ _ Hfit).
  - destruct (decide (rets = [])) as [Hnil|Hne]; [by left|]. right. rewrite Hargs.
    assert (Hlen : (length rets - 1 < length rets)%nat) by (destruct rets; [done|cbn; lia]).
    destruct (lookup_lt_is_Some_2 rets _ Hlen) as [r Hr]. destruct (Hsub _ r Hr) as (a & _ & Ha & _).
    apply lookup_lt_Some in Ha. lia.
  - apply Forall_lookup. intros i r Hr. destruct (Hsub i r Hr) as (_ & b & _ & Hb & _). by apply lookup_lt_Some in Hb.
Qed.

Lemma control_total p pre fr insn width regs :
  wt p -> callstack p = pre ++ [fr] -> fetch (modules p) fr = Some (insn, width, regs) ->
  control (OpCode_of insn) = true -> exists p', step p p'.
Proof.
  intros Hp Hc Hf Hctl. destruct (decide (OpCode_of insn = RETURN)) as [Hop|Hop]; [by eapply return_total|].
  pose proof (frame_at _ _ _ Hp Hc) as Hfr.
  destruct (current p fr _ _ _ Hp Hfr Hf) as (f & Hid & Hregs & Hok & Hfit & Ht).
  destruct insn as [op id args rets|op n|n|cond l r n|?|?|op ? ? ?|? ? w|? ?]; cbn [OpCode_of] in Hctl, Hop; try done.
  - destruct op; try done; try (by destruct Ht as (_ & ? & _)). by apply (call_total p pre fr width regs id args rets).
  - destruct op; try done; try (by destruct Ht as (_ & ? & _)). eexists. by eapply step_jump.
  - eexists. by eapply step_skip.
  - destruct Ht as (_ & _ & Hc5 & Hl & Hr). destruct (condition_total (Frame.registers fr) cond l r Hc5) as [b Hb];
      [unfold Width in *; by rewrite <-(Forall2_length _ _ _ Hfit), Hregs..|]. eexists. by eapply step_skip_if.
  - destruct op; try done; by destruct Ht as (_ & ? & _).
  - by destruct (w =? MaxUint).
Qed.

End Preservation.
(** ** Booting *)

Section Booting.
Context {W : Type} `{!Word W, !WordLaws W}.
Context (ex : Machine.Executor W) (ok : Register.t -> Prop) (fit : Register.t -> W -> Prop)
  (typed : list Register.t -> Instruction W -> Prop) `{!ExecutorTyping ex ok fit typed}.

(** The contents given to a memory fit it; a static memory keeps its own. *)
Definition input_fits (m : Memory W) (contents : list W) : Prop :=
  match m with
  | StaticReadOnly_ q => contents = [] /\ slice_fits fit (geometry q) (fun j => j) (data q)
  | _ => slice_fits fit (geometry_of m) (fun j => j) contents
  end.

Definition inputs_fit (ms : list (Module_ W)) (input : gmap string (list W)) : Prop :=
  Forall (fun x => match x with
                   | MFunction _ => True
                   | MMemory m => input_fits m (default [] (input !! Memory.name_of m))
                   end) ms.

Lemma initialise_fits ms input :
  inputs_fit ms input ->
  exists ms', initialise_modules ms input = Ok ms' /\ Forall2 same_module ms ms' /\ Forall (module_fits fit) ms'.
Proof.
  induction 1 as [|[f|m] ms Hx Hms (ms' & He & Hs & Hf)]; cbn [initialise_modules].
  - exists []. split; [done|]. by split; constructor.
  - rewrite He. cbn. eexists. split; [done|]. by split; constructor.
  - rewrite He. set (contents := default [] _) in *.
    assert (exists m', Memory.Initialise m contents = Ok m' /\ same_module (MMemory m) (MMemory m') /\ memory_fits fit m')
      as (m' & Hi & Hsm & Hfm).
    { destruct m as [q|q|q|q|q|q]; cbn in Hx |- *;
        try (eexists; split; [reflexivity|]; split; [done | exact Hx]).
      - destruct Hx as [-> Hx]. by eexists.
      - eexists. split; [done|]. split; [done|]. split; [done|]. by intros j v r. }
    rewrite Hi. cbn. eexists. split; [done|]. by split; constructor.
Qed.

Lemma find_function_spec (ms : list (Module_ W)) fn i id :
  find_function i ms fn = Some id ->
  exists f, (i <= id)%nat /\ ms !! (id - i)%nat = Some (MFunction f) /\ Instruction.name f = fn.
Proof.
  revert i. induction ms as [|[f|m] ms IH]; intros i; cbn; [done|..].
  - case_bool_decide as Hn.
    + intros [= ->]. exists f. by rewrite Nat.sub_diag.
    + intros (g & Hle & Hg & Hgn)%IH. exists g. split; [lia|]. by replace (id - i)%nat with (S (id - S i)) by lia.
  - intros (g & Hle & Hg & Hgn)%IH. exists g. split; [lia|]. by replace (id - i)%nat with (S (id - S i)) by lia.
Qed.

Lemma boot_typed ms fn input id f :
  program_typed ok fit typed ms -> inputs_fit ms input ->
  find_function 0 ms fn = Some id -> ms !! id = Some (MFunction f) -> pc_ok f (PC.mk 0 0) ->
  exists p, Boot (NewBase ex ms) fn input = Ok p /\ well_typed ex ok fit typed p /\ Depth p = 1%nat.
Proof.
  intros Hp Hin Hfind Hf Hpc. destruct (initialise_fits ms input Hin) as (ms' & Hi & Hs & Hfit).
  unfold Boot, initialise. cbn. rewrite Hfind, Hi. cbn.
  pose proof (same_function _ _ _ _ Hs Hf) as Hf'.
  rewrite (Enter_ok (mkBase ms' [] ex []) id [] [] [] f [] Hf' eq_refl (Nat.le_0_l _)).
  eexists. split; [done|]. split; [|done]. split; cbn; [done|by eapply same_program|done| |by intros [|i] a b].
  constructor; [|constructor]. exists f. split; [done|]. split; [|done]. cbn. rewrite Nat.sub_0_r.
  apply (zeros_fit ex ok fit typed). by destruct (proj1 (Forall_lookup _ _) Hp _ _ Hf).
Qed.

End Booting.

(** ** The word executor *)

Section WordExecutor.
Context {W : Type} `{!Word W, !WordLaws W}.

Definition register_ok (r : Register.t) : Prop := Register.IsNative r = true \/ width_ok (Register.width r).

Lemma word_executor_typing (q : W) :
  word_ok q -> 0 < w_BigInt q -> ExecutorTyping (Executor.Execute q) register_ok (fits q) (Executor.typed q).
Proof.
  intros Hq Hpos. split.
  - intros r Hr. destruct zero_law as [Hz Hz0]. split; [done|]. rewrite Hz0. unfold bound.
    destruct Hr as [->|Hw]; [done|]. destruct (Register.IsNative r); [done|].
    apply Z.pow_pos_nonneg; [lia | apply Hw].
  - intros r v Hn [Hv Hb]. split; [done|]. unfold bound in Hb. by rewrite Hn in Hb.
  - intros regs insn frame frame' Hok Hf Ht Hx. by apply (Execute_fits q regs insn frame frame').
Qed.

End WordExecutor.

(** ** Properties *)

Module SafetyProperties.
Section Properties.
Context {W : Type} `{!Word W, !WordLaws W}.

(** C12: Type safety.  Booting a typed program on typed inputs succeeds, and every
    state the word machine ever reaches is typed: the registers of all live frames
    and the words of all memories stay within their declared widths (native ones
    below the prime), program counters stay inside the code, and every frame but
    the top is stopped at the call that made the frame above it. *)
Theorem machine_type_safety (q : W) ms fn input id f :
  word_ok q -> 0 < w_BigInt q ->
  program_typed register_ok (fits q) (Executor.typed q) ms -> inputs_fit (fits q) ms input ->
  find_function 0 ms fn = Some id -> ms !! id = Some (MFunction f) -> pc_ok f (PC.mk 0 0) ->
  exists p, Boot (NewBase (Executor.Execute q) ms) fn input = Ok p /\
    forall n p', nsteps n p p' ->
      well_typed (Executor.Execute q) register_ok (fits q) (Executor.typed q) p'.
Proof.
  intros Hq Hpos Hp Hin Hfind Hf Hpc. pose proof (word_executor_typing q Hq Hpos) as Hex.
  destruct (boot_typed (Executor.Execute q) _ _ _ ms fn input id f Hp Hin Hfind Hf Hpc) as (p & Hb & Hwt & _).
  exists p. split; [done|]. intros n p' Hs. by eapply nsteps_typed.
Qed.

(** C13: Control flow never goes wrong.  In every typed state with a live frame an
    instruction is decoded, and if it is a call, a return, a jump or a skip, the
    machine executes it without error or panic; this holds for every executor that
    respects the types. *)
Theorem machine_control_safety (ex : Machine.Executor W) ok fit typed `{!ExecutorTyping ex ok fit typed} (p : Base W) :
  well_typed ex ok fit typed p -> Depth p <> 0%nat ->
  exists insn width regs, decode p = Ok (insn, width, regs) /\
    (control (OpCode_of insn) = true ->
     exists p', execute p = Ok p' /\ well_typed ex ok fit typed p').
Proof.
  intros Hp Hd. unfold Depth in Hd. destruct (callstack p) as [|fr pre _] eqn:Hc using rev_ind; [done|].
  destruct (fetch_top ex ok fit typed p pre fr Hp Hc) as (insn & width & regs & Hf).
  exists insn, width, regs. split; [by apply (decode_fetch p pre fr Hc)|]. intros Hctl.
  destruct (control_total ex ok fit typed p pre fr insn width regs Hp Hc Hf Hctl) as [p' Hst].
  exists p'. split; [by apply step_execute|]. by eapply step_typed.
Qed.

End Properties.

(** *** The machine of [MachineProperties] is typed *)

Import MachineProperties.

Lemma sub_same (q : Uint.t) (a b : Register.t) :
  Register.width a = Register.width b -> sub_reg (fits q) (Some a) (Some b).
Proof.
  intros He. exists a, b. split; [done|]. split; [done|]. intros v [Hv Hlt]. split; [done|].
  unfold bound, Register.IsNative in *. by rewrite <-He.
Qed.

Lemma narrow (n : string) (k : Register.Kind) : register_ok (Register.New k n 8 0).
Proof. right. unfold width_ok. cbn. lia. Qed.

Ltac in_code := eexists; split; [reflexivity | cbn; lia].
Ltac operands := intros [|?] ?; [intros [= <-]; by apply sub_same | done].

Lemma main_typed : function_typed register_ok (fits (251 : Uint.t)) (Executor.typed (251 : Uint.t)) (modules sample) main.
Proof.
  split; [repeat (constructor; [apply narrow|]); constructor|].
  intros [|[|[|[|macro]]]] micro vec insn; intros [= <-].
  - destruct micro as [|[|micro]]; intros [= <-]. split; [in_code|]. split; [done|]. cbn. split; [lia|].
    right. vm_compute. reflexivity.
  - destruct micro as [|[|micro]]; intros [= <-]. split; [in_code|]. exists inc. split; [done|]. split; [in_code|].
    split; [cbn; lia|]. split; operands.
  - destruct micro as [|[|[|micro]]]; intros [= <-]; (split; [in_code|]); exists ram; (split; [done|]);
      (split; [split; [done|by vm_compute|operands]|operands]).
  - destruct micro as [|[|[|[|micro]]]]; intros [= <-]; [|done|done].
    split; [in_code|]. split; [in_code|]. split; [unfold EQ; lia|]. split; cbn; lia.
Qed.

Lemma sample_program : program_typed register_ok (fits (251 : Uint.t)) (Executor.typed (251 : Uint.t)) (modules sample).
Proof.
  constructor; [apply main_typed|]. constructor; [|constructor; [|constructor]].
  - split; [repeat (constructor; [apply narrow|]); constructor|].
    intros [|macro] micro vec insn; intros [= <-]. destruct micro as [|[|micro]]; intros [= <-]; [|done].
    split; [in_code|]. split; [done|]. cbn. split; [lia|]. left. done.
  - split; [by vm_compute|by vm_compute|repeat (constructor; [apply narrow|]); constructor| |by vm_compute].
    constructor; [|constructor]. cbn. split; [done|lia].
Qed.

Lemma sample_inputs : inputs_fit (fits (251 : Uint.t)) (modules sample) ∅.
Proof. constructor; [done|]. constructor; [done|]. constructor; [|constructor]. by intros j v r. Qed.

Lemma machine_type_safety_witness : exists p, booted = Ok p /\
  forall n p', nsteps n p p' ->
    well_typed (Executor.Execute (251 : Uint.t)) register_ok (fits (251 : Uint.t)) (Executor.typed (251 : Uint.t)) p'.
Proof.
  apply (machine_type_safety (251 : Uint.t) (modules sample) "main" ∅ 0 main).
  - cbn. lia.
  - cbn. unfold Uint.BigInt. lia.
  - apply sample_program.
  - apply sample_inputs.
  - reflexivity.
  - reflexivity.
  - in_code.
Defined.

Lemma sample_typed : well_typed (Executor.Execute (251 : Uint.t)) register_ok (fits (251 : Uint.t))
  (Executor.typed (251 : Uint.t)) (state_at 0) /\ Depth (state_at 0) <> 0%nat.
Proof.
  assert (Hex : ExecutorTyping (Executor.Execute (251 : Uint.t)) register_ok (fits (251 : Uint.t)) (Executor.typed (251 : Uint.t))).
  { apply word_executor_typing; cbn; unfold Uint.BigInt; lia. }
  destruct (boot_typed (Executor.Execute (251 : Uint.t)) _ _ _ (modules sample) "main" ∅ 0 main
              sample_program sample_inputs eq_refl eq_refl) as (p & Hb & Hwt & Hd); [in_code|].
  change (booted = Ok p) in Hb. assert (Hp : p = state_at 0) by (unfold state_at; by rewrite Hb). subst p.
  split; [exact Hwt|]. by rewrite Hd.
Qed.

Lemma machine_control_safety_witness :
  exists insn width regs, decode (state_at 0) = Ok (insn, width, regs) /\
    (control (OpCode_of insn) = true -> exists p', execute (state_at 0) = Ok p' /\
       well_typed (Executor.Execute (251 : Uint.t)) register_ok (fits (251 : Uint.t)) (Executor.typed (251 : Uint.t)) p').
Proof.
  assert (Hex : ExecutorTyping (Executor.Execute (251 : Uint.t)) register_ok (fits (251 : Uint.t)) (Executor.typed (251 : Uint.t))).
  { apply word_executor_typing; cbn; unfold Uint.BigInt; lia. }
  apply (machine_control_safety (Executor.Execute (251 : Uint.t)) _ _ _ (state_at 0) (proj1 sample_typed) (proj2 sample_typed)).
Defined.

End SafetyProperties.
