(* ===== verification/Dfa.v ===== *)
(** * Data-flow analysis of vector instructions

    Models [pkg/asm/io/micro/dfa] ([result.go], [writes.go], [branches.go]) and
    the analyses built on it in [pkg/zkc/vm/instruction/vector.go]: the write
    map, the branch table and the validation of a vector instruction.

    [Construct] is one forward pass: every arc of a micro-instruction leads to a
    later one.  The properties say what the pass computes, in terms of the executions
    through the vector, of its dead code, and of the runs of the machine. *)

From Stdlib Require Import ZArith Lia.
From stdpp Require Import base numbers list option strings.
From S2P Require Import Prelude BitSet Word Register SortedSet Logical Memory Instruction Executor Machine Safety.

#[local] Open Scope nat_scope.

(** ** [result.go] *)

(** A [State] has a zero value, and a join, which can panic. *)
Class State (T : Type) : Type := { empty_state : T; Join : T -> T -> result T }.

Record Transfer (T : Type) : Type := NewTransfer { state : T; target : nat }.
Arguments NewTransfer {T} state target.
Arguments state {T} _.
Arguments target {T} _.

Section Result.
Context {T C : Type} `{!State T}.

(** [Result]: the state on entry to each micro-instruction, if it is reached. *)
Abbreviation Result := (list (option T)).

Definition StateOf (p : Result) (i : nat) : result T :=
  s ← slice_get p i; Ok (default empty_state s).

Definition JoinInto (p : Result) (i : nat) (st : T) : result Result :=
  ith ← slice_get p i;
  nst ← (match ith with Some t => Join st t | None => Ok st end);
  slice_set p i (Some nst).

(** [for _, tfr := range transfer(i, codes[i], ith) { result.JoinInto(tfr.target, tfr.state) }] *)
Fixpoint join_all (tfrs : list (Transfer T)) (p : Result) : result Result :=
  match tfrs with
  | [] => Ok p
  | tfr :: rest => p' ← JoinInto p (target tfr) (state tfr); join_all rest p'
  end.

(** [for i := range nCodes]: [codes] is what is left from index [i] on. *)
Fixpoint construct_loop (transfer : nat -> C -> T -> result (list (Transfer T))) (i : nat) (codes : list C)
  (p : Result) : result Result :=
  match codes with
  | [] => Ok p
  | code :: rest =>
      ith ← StateOf p i;
      tfrs ← transfer i code ith;
      p' ← join_all tfrs p;
      construct_loop transfer (S i) rest p'
  end.

Definition Construct (initial : T) (codes : list C) (transfer : nat -> C -> T -> result (list (Transfer T)))
  : result Result :=
  match codes with
  | [] => Fault (Panic "unreachable")
  | _ => construct_loop transfer 0 codes (Some initial :: replicate (length codes - 1) None)
  end.

End Result.

(** ** [writes.go] *)

Module Writes.

Record t : Type := mk {
  maxRegister : nat;
  definiteWrites : BitSet.Set_;
  maybeWrites : BitSet.Set_
}.

Definition empty : t := mk 0 (BitSet.mkSet []) (BitSet.mkSet []).

Definition Clone (p : t) : t :=
  mk (maxRegister p) (fst (BitSet.Union_ (definiteWrites empty) (definiteWrites p)))
     (fst (BitSet.Union_ (maybeWrites empty) (maybeWrites p))).

(** One round of the loop of [Write] *)
Definition write (nst : t) (r : nat) : t :=
  mk (Nat.max (maxRegister nst) r) (BitSet.Insert (definiteWrites nst) r) (BitSet.Insert (maybeWrites nst) r).

Definition Write (p : t) (regs : list nat) : t := foldl write (Clone p) regs.

Definition MaybeAssigned (p : t) (reg : nat) : bool := BitSet.Contains (maybeWrites p) reg.

Definition MayAnybeAssigned (p : t) (regs : list nat) : bool :=
  existsb (fun r => BitSet.Contains (maybeWrites p) r) regs.

Definition DefinitelyAssigned (p : t) (reg : nat) : bool := BitSet.Contains (definiteWrites p) reg.

(** One round of the loop of [Join] *)
Definition join_at (p q : t) (nst : t) (i : nat) : t :=
  if DefinitelyAssigned p i && DefinitelyAssigned q i then
    mk (maxRegister nst) (BitSet.Insert (definiteWrites nst) i) (BitSet.Insert (maybeWrites nst) i)
  else if MaybeAssigned p i || MaybeAssigned q i then
    mk (maxRegister nst) (definiteWrites nst) (BitSet.Insert (maybeWrites nst) i)
  else nst.

Definition Join (p q : t) : t :=
  let n := Nat.max (maxRegister p) (maxRegister q) in
  foldl (join_at p q) (mk n (definiteWrites empty) (maybeWrites empty)) (seq 0 (n + 1)).

#[export] Instance t_State : State t := { empty_state := empty; Join p q := Ok (Join p q) }.

End Writes.
#[export] Existing Instance Writes.t_State.

(** ** [vector.go]: the write map *)

Section Vector.
Context {W : Type} `{!Word W}.
Implicit Types (code : Instruction W) (codes : Vector W).

Definition writeDfaTransfer (offset : nat) code (st : Writes.t) : result (list (Transfer Writes.t)) :=
  let fall_through arcs := Ok (arcs ++ [NewTransfer (Writes.Write st (Definitions code)) (offset + 1)]) in
  match OpCode_of code, code with
  | (FAIL | RETURN | JUMP), _ => Ok []
  | SKIP, Skip n => Ok [NewTransfer st (offset + n + 1)]
  | SKIP, _ => Fault (Panic "interface conversion")
  | SKIP_IF, SkipIf _ _ _ n => fall_through [NewTransfer st (offset + n + 1)]
  | SKIP_IF, _ => Fault (Panic "interface conversion")
  | _, _ => fall_through []
  end.

Definition WriteMap codes : result (list (option Writes.t)) :=
  Construct Writes.empty codes writeDfaTransfer.

(** The errors of [Validate], which the code formats with the register's name. *)
Inductive validation_error : Type :=
  | MicroError (msg : string)
  | ConflictingRead (reg : nat) (insn : nat)
  | ConflictingWrite (reg : nat) (insn : nat).

Definition read_conflicts (regs : list Register.t) (st : Writes.t) (i : nat) code : result (list validation_error) :=
  foldr (fun r rest =>
    if Writes.MaybeAssigned st r && negb (Writes.DefinitelyAssigned st r) then
      _ ← slice_get regs r; es ← rest; Ok (ConflictingRead r i :: es)
    else rest) (Ok []) (Uses code).

Definition write_conflicts (regs : list Register.t) (st : Writes.t) (i : nat) code : result (list validation_error) :=
  foldr (fun r rest =>
    if Writes.MaybeAssigned st r then
      _ ← slice_get regs r; es ← rest; Ok (ConflictingWrite r i :: es)
    else rest) (Ok []) (Definitions code).

Fixpoint micro_errors (regs : list Register.t) codes : result (list validation_error) :=
  match codes with
  | [] => Ok []
  | code :: rest => es ← MicroValidate regs code; es' ← micro_errors regs rest; Ok ((MicroError <$> es) ++ es')
  end.

(** [for i := range nCodes] of [Validate] *)
Fixpoint conflicts (regs : list Register.t) (writeMap : list (option Writes.t)) (i : nat) codes
  : result (list validation_error) :=
  match codes with
  | [] => Ok []
  | ith :: rest =>
      st ← StateOf writeMap i;
      rs ← read_conflicts regs st i ith;
      ws ← write_conflicts regs st i ith;
      es ← conflicts regs writeMap (S i) rest;
      Ok (rs ++ ws ++ es)
  end.

Definition Validate (regs : list Register.t) codes : result (list validation_error) :=
  writeMap ← WriteMap codes;
  es ← micro_errors regs codes;
  cs ← conflicts regs writeMap 0 codes;
  Ok (es ++ cs).

End Vector.

(** ** [branches.go] *)

Module BranchId.

Record t : Type := mk { Id : nat; Width : nat; Forwarding : bool }.

#[export] Instance t_eq_dec : EqDecision t.
Proof. solve_decision. Defined.

(** [for i := range len(regs) { ... if regs[i] != expected { panic } }] *)
Fixpoint consecutive (first : nat) (regs : list nat) : bool :=
  match regs with
  | [] => true
  | r :: rest => (r =? first) && consecutive (S first) rest
  end.

Definition NewBranchId (forwarding : bool) (regs : list nat) : result t :=
  match regs with
  | [] => Fault index_panic
  | first :: _ =>
      if consecutive first regs then Ok (mk first (length regs) forwarding)
      else Fault (Panic "invalid register group")
  end.

#[export] Instance t_Comparable : Comparable t := fun p o =>
  if eqb (Forwarding p) (Forwarding o) then
    match Cmp (Id p) (Id o) with
    | Eq => Cmp (Width p) (Width o)
    | c => c
    end
  else if Forwarding p then Gt else Lt.

Definition Get (p : t) (i : nat) : result t :=
  if Width p <=? i then Fault (Panic "invalid group member") else Ok (mk (Id p + i) 1 (Forwarding p)).

Definition Registers (p : t) : list nat := (fun i => Id p + i) <$> seq 0 (Width p).

End BranchId.
#[export] Existing Instance BranchId.t_Comparable.
#[export] Existing Instances Equality.t_Comparable Equality.t_Atom.

Module Branch.

Abbreviation Equality := (Logical.Equality.t BranchId.t).
Abbreviation Condition := (list (list Equality)).

Definition TRUE : Condition := Truth true.
Definition FALSE : Condition := Truth false.

Record t : Type := mk { condition : Condition }.

Definition Join (p st : t) : result t := mk <$> Or (condition p) (condition st).

#[export] Instance t_State : State t := { empty_state := mk []; Join := Join }.

End Branch.
#[export] Existing Instance Branch.t_State.

Section BranchTable.
Context {W : Type} `{!Word W}.
Implicit Types (code : Instruction W) (codes : Vector W).

(** The zero value of an equality, the filler of the arrays [And] allocates *)
Definition zero_equality : Branch.Equality :=
  Equality.mk false (BranchId.mk 0 0 false) (inl (BranchId.mk 0 0 false)).

(** [fuel] bounds the rounds of the simplification of a conjunction. *)
Definition extendSkipIf (fuel : list Branch.Equality -> nat) (tail : Branch.t) (sign : bool)
  (cond : Condition) (l r : nat) (writes : Writes.t) : result Branch.t :=
  left ← BranchId.NewBranchId (Writes.MayAnybeAssigned writes [l]) [l];
  equality ← (if (cond =? EQ)%Z then Ok sign
              else if (cond =? NEQ)%Z then Ok (negb sign)
              else Fault (Panic "unsupported skip condition"));
  right ← BranchId.NewBranchId (Writes.MayAnybeAssigned writes [r]) [r];
  let head := if equality : bool then Equality.Equals left right else Equality.NotEquals left right in
  if IsTrue (Branch.condition tail) then Ok (Branch.mk (NewProposition head))
  else Branch.mk <$> And fuel zero_equality (Branch.condition tail) (NewProposition head).

Definition branchTableTransfer (fuel : list Branch.Equality -> nat) (writeMap : list (option Writes.t))
  (offset : nat) code (st : Branch.t) : result (list (Transfer Branch.t)) :=
  writes ← StateOf writeMap offset;
  match code with
  | Fail_ _ | OpImm _ _ => Ok []
  | Skip n => Ok [NewTransfer st (offset + n + 1)]
  | SkipIf cond l r n =>
      trueBranch ← extendSkipIf fuel st true cond l r writes;
      falseBranch ← extendSkipIf fuel st false cond l r writes;
      Ok [NewTransfer trueBranch (offset + n + 1); NewTransfer falseBranch (offset + 1)]
  | _ => Ok [NewTransfer st (offset + 1)]
  end.

Definition BranchTable (fuel : list Branch.Equality -> nat) codes
  : result (list (option Writes.t) * list (option Branch.t)) :=
  writeMap ← WriteMap codes;
  table ← Construct (Branch.mk Branch.TRUE) codes (branchTableTransfer fuel writeMap);
  Ok (writeMap, table).

End BranchTable.

(** ** The pass *)

Section ConstructFacts.
Context {T C : Type} `{!State T}.
Implicit Types (p : list (option T)) (tfrs : list (Transfer T)).
Context (transfer : nat -> C -> T -> result (list (Transfer T))).

(** A predicate that all joined states must have *)
Definition joined (P : T -> Prop) : Prop :=
  forall x y z, Join x y = Ok z -> P x -> P y -> P z.

(** [I] holds of all the states of the analysis. *)
Context (I : T -> Prop) (HI : joined I).

(** A predicate that survives joins: what one of the joined states has *)
Definition upward (Q : T -> Prop) : Prop :=
  forall x y z, I x -> I y -> Join x y = Ok z -> Q x \/ Q y -> Q z.

Definition states_ok p : Prop := forall j t, p !! j = Some (Some t) -> I t.

Lemma JoinInto_ok p p' i st :
  JoinInto p i st = Ok p' ->
  exists ith nst, p !! i = Some ith /\ p' = <[i := Some nst]> p /\
    match ith with Some t => Join st t = Ok nst | None => nst = st end.
Proof.
  unfold JoinInto. intros H. inv_ok. apply slice_get_ok in Ha. apply slice_set_ok in H as [_ ->].
  exists a, a0. split; [done|]. split; [done|]. destruct a; [done | by inv_ok].
Qed.

Lemma JoinInto_total p i st :
  (forall x y, I x -> I y -> is_ok (Join x y) = true) -> states_ok p -> I st -> i < length p ->
  is_ok (JoinInto p i st) = true.
Proof.
  intros Hj Hp Hst Hi. unfold JoinInto. destruct (lookup_lt_is_Some_2 p i Hi) as [o Ho].
  rewrite (proj2 (slice_get_ok _ _ _) Ho). cbn [mbind result_bind].
  assert (Hs : forall x, is_ok (slice_set p i (Some x)) = true).
  { intros x. unfold slice_set. by rewrite decide_True. }
  destruct o as [t|]; cbn [mbind result_bind]; [|apply Hs].
  specialize (Hj st t Hst (Hp _ _ Ho)). destruct (Join st t); [apply Hs | done].
Qed.

Lemma JoinInto_states p p' i st : states_ok p -> I st -> JoinInto p i st = Ok p' -> states_ok p'.
Proof using HI.
  intros Hp Hst (ith & nst & Hi & -> & Hn)%JoinInto_ok j t [(<- & [= <-] & _)|(_ & Hj)]%list_lookup_insert_Some; [|by eapply Hp].
  destruct ith; [|by subst]. eapply HI; [done|done|by eapply Hp].
Qed.

Lemma join_all_length tfrs p p' : join_all tfrs p = Ok p' -> length p' = length p.
Proof.
  revert p. induction tfrs as [|tfr tfrs IH]; intros p; cbn; [by intros [= <-]|]. intros H. inv_ok.
  apply JoinInto_ok in Ha as (? & ? & _ & -> & _). apply IH in H. by rewrite length_insert in H.
Qed.

Lemma join_all_other tfrs p p' j :
  join_all tfrs p = Ok p' -> (forall tfr, tfr ∈ tfrs -> target tfr <> j) -> p' !! j = p !! j.
Proof.
  revert p. induction tfrs as [|tfr tfrs IH]; intros p; cbn; [by intros [= <-]|]. intros H Hne. inv_ok.
  apply JoinInto_ok in Ha as (? & ? & _ & -> & _). rewrite (IH _ H) by (intros; apply Hne; by right).
  apply list_lookup_insert_ne, Hne. by left.
Qed.

Lemma join_all_states tfrs p p' :
  states_ok p -> (forall tfr, tfr ∈ tfrs -> I (state tfr)) -> join_all tfrs p = Ok p' -> states_ok p'.
Proof using HI.
  revert p. induction tfrs as [|tfr tfrs IH]; intros p Hp Ht; cbn; [by intros [= <-]|]. intros H. inv_ok.
  eapply IH; [|intros; apply Ht; by right|done]. eapply JoinInto_states; [done| |done]. apply Ht. by left.
Qed.

Lemma join_all_up Q tfrs p p' j x :
  upward Q -> states_ok p -> (forall tfr, tfr ∈ tfrs -> I (state tfr)) ->
  join_all tfrs p = Ok p' -> p !! j = Some (Some x) -> Q x ->
  exists t, p' !! j = Some (Some t) /\ Q t.
Proof using HI.
  intros HQ. revert p x. induction tfrs as [|tfr tfrs IH]; intros p x Hp Hts; cbn.
  { intros [= <-] Hx HQx. by exists x. }
  intros H Hx HQx. inv_ok. assert (Htfr : I (state tfr)) by (apply Hts; by left).
  pose proof (JoinInto_states _ _ _ _ Hp Htfr Ha) as Hp'.
  apply JoinInto_ok in Ha as (ith & nst & Hi & -> & Hn).
  assert (Hts' : forall t, t ∈ tfrs -> I (state t)) by (intros; apply Hts; by right).
  destruct (decide (target tfr = j)) as [<-|Hne].
  - rewrite Hx in Hi. injection Hi as <-. apply (IH _ nst Hp' Hts' H).
    + apply list_lookup_insert_eq. by eapply lookup_lt_Some.
    + eapply HQ; [done|by eapply Hp|done|by right].
  - apply (IH _ x Hp' Hts' H); [|done]. by rewrite list_lookup_insert_ne.
Qed.

Lemma join_all_target Q tfrs p p' tfr :
  upward Q -> states_ok p -> (forall tfr, tfr ∈ tfrs -> I (state tfr)) ->
  join_all tfrs p = Ok p' -> tfr ∈ tfrs -> Q (state tfr) ->
  exists t, p' !! target tfr = Some (Some t) /\ Q t.
Proof using HI.
  intros HQ. revert p. induction tfrs as [|tfr' tfrs IH]; intros p Hp Hts; cbn; [by intros _ ?%elem_of_nil|].
  intros H Hin HQt. inv_ok. assert (Htfr : I (state tfr')) by (apply Hts; by left).
  assert (Hts' : forall t, t ∈ tfrs -> I (state t)) by (intros; apply Hts; by right).
  pose proof (JoinInto_states _ _ _ _ Hp Htfr Ha) as Hp'.
  apply elem_of_cons in Hin as [->|Hin]; [|by apply (IH a)].
  apply JoinInto_ok in Ha as (ith & nst & Hi & -> & Hn).
  eapply join_all_up; [done|done|done|done| |].
  - apply list_lookup_insert_eq. by eapply lookup_lt_Some.
  - destruct ith; [|by subst]. eapply HQ; [done|by eapply Hp|done|by left].
Qed.

Lemma join_all_inv (P : nat -> T -> Prop) tfrs p p' :
  (forall j, joined (P j)) -> join_all tfrs p = Ok p' ->
  (forall j t, p !! j = Some (Some t) -> P j t) -> (forall tfr, tfr ∈ tfrs -> P (target tfr) (state tfr)) ->
  forall j t, p' !! j = Some (Some t) -> P j t.
Proof.
  intros HP. revert p. induction tfrs as [|tfr tfrs IH]; intros p; cbn; [by intros [= <-]|].
  intros H Hp Ht. inv_ok. apply JoinInto_ok in Ha as (ith & nst & Hi & -> & Hn).
  apply (IH _ H); [|intros; apply Ht; by right].
  intros j t [(<- & [= <-] & _)|(_ & Hj)]%list_lookup_insert_Some; [|by apply Hp].
  assert (P (target tfr) (state tfr)) by (apply Ht; by left).
  destruct ith; [|by subst]. eapply HP; eauto.
Qed.

Lemma join_all_total tfrs p :
  (forall x y, I x -> I y -> is_ok (Join x y) = true) -> states_ok p ->
  (forall tfr, tfr ∈ tfrs -> I (state tfr)) -> Forall (fun tfr => target tfr < length p) tfrs ->
  is_ok (join_all tfrs p) = true.
Proof using HI.
  intros Hj. revert p. induction tfrs as [|tfr tfrs IH]; intros p Hp Hts; [done|]. intros [Hlt Ht]%Forall_cons. cbn.
  assert (Htfr : I (state tfr)) by (apply Hts; by left).
  pose proof (JoinInto_total p (target tfr) (state tfr) Hj Hp Htfr Hlt) as Hok.
  destruct (JoinInto p (target tfr) (state tfr)) as [p'|] eqn:Hp'; [|done]. cbn. apply IH.
  - by eapply JoinInto_states.
  - intros; apply Hts; by right.
  - apply JoinInto_ok in Hp' as (? & ? & _ & -> & _). by rewrite length_insert.
Qed.

Lemma join_all_range tfrs p p' : join_all tfrs p = Ok p' -> Forall (fun tfr => target tfr < length p) tfrs.
Proof.
  revert p. induction tfrs as [|tfr tfrs IH]; intros p; cbn; [constructor|]. intros H. inv_ok.
  apply JoinInto_ok in Ha as (? & ? & Hi & -> & _). apply IH in H. rewrite length_insert in H.
  constructor; [by eapply lookup_lt_Some | done].
Qed.

Context (Hfwd : forall i c s tfrs tfr, transfer i c s = Ok tfrs -> tfr ∈ tfrs -> i < target tfr).

Context (Hempty : I empty_state)
  (Htransfer : forall i c s tfrs tfr, I s -> transfer i c s = Ok tfrs -> tfr ∈ tfrs -> I (state tfr)).

Lemma StateOf_ok p i s : states_ok p -> StateOf p i = Ok s -> I s.
Proof using Hempty.
  unfold StateOf. intros Hp (o & Ho & [= <-])%bind_ok. apply slice_get_ok in Ho. destruct o; [by eapply Hp | done].
Qed.

Lemma round_states i c s tfrs p p' :
  states_ok p -> StateOf p i = Ok s -> transfer i c s = Ok tfrs -> join_all tfrs p = Ok p' -> states_ok p'.
Proof using HI Hempty Htransfer.
  intros Hp Hs Ht Hj. eapply join_all_states; [done| |done]. intros tfr Hin. eapply Htransfer; [|done|done]. by eapply StateOf_ok.
Qed.

Lemma loop_states i codes p res : states_ok p -> construct_loop transfer i codes p = Ok res -> states_ok res.
Proof using HI Hempty Htransfer.
  revert i p. induction codes as [|c codes IH]; intros i p Hp; cbn; [by intros [= <-]|]. intros H. inv_ok.
  eapply IH; [|done]. by eapply round_states.
Qed.

Lemma loop_length i codes p res : construct_loop transfer i codes p = Ok res -> length res = length p.
Proof.
  revert i p. induction codes as [|c codes IH]; intros i p; cbn; [by intros [= <-]|]. intros H. inv_ok.
  apply IH in H. apply join_all_length in Ha1. congruence.
Qed.

(** The states up to the current instruction are final. *)
Lemma loop_keeps i codes p res j :
  construct_loop transfer i codes p = Ok res -> j <= i -> res !! j = p !! j.
Proof using Hfwd.
  revert i p. induction codes as [|c codes IH]; intros i p; cbn; [by intros [= <-]|]. intros H Hj. inv_ok.
  rewrite (IH _ _ H) by lia. apply (join_all_other _ _ _ _ Ha1). intros tfr Hin.
  pose proof (Hfwd _ _ _ _ _ Ha0 Hin). lia.
Qed.

Lemma loop_up Q i codes p res j x :
  upward Q -> states_ok p -> construct_loop transfer i codes p = Ok res -> p !! j = Some (Some x) -> Q x ->
  exists t, res !! j = Some (Some t) /\ Q t.
Proof using HI Hempty Htransfer.
  intros HQ. revert i p x. induction codes as [|c codes IH]; intros i p x Hp; cbn.
  { intros [= <-] Hx HQx. by exists x. }
  intros H Hx HQx. inv_ok. pose proof (round_states _ _ _ _ _ _ Hp Ha Ha0 Ha1) as Hp'.
  destruct (join_all_up Q a0 p a1 j x HQ Hp) as (t & Ht & HQt); [|done|done|done|by eapply IH].
  intros tfr Hin. eapply Htransfer; [|done|done]. exact (StateOf_ok _ _ _ Hp Ha).
Qed.

(** Each instruction was transferred from its final state, into its successors. *)
Lemma loop_visit i codes p res k c :
  states_ok p -> construct_loop transfer i codes p = Ok res -> codes !! k = Some c ->
  exists s tfrs, StateOf res (i + k) = Ok s /\ transfer (i + k) c s = Ok tfrs /\
    Forall (fun tfr => target tfr < length res) tfrs /\
    forall Q tfr, upward Q -> tfr ∈ tfrs -> Q (state tfr) -> exists t, res !! target tfr = Some (Some t) /\ Q t.
Proof using Hfwd HI Hempty Htransfer.
  revert i p k. induction codes as [|c' codes IH]; intros i p k Hp; cbn; [done|]. intros H Hk. inv_ok.
  pose proof (round_states _ _ _ _ _ _ Hp Ha Ha0 Ha1) as Hp'.
  destruct k as [|k]; cbn in Hk.
  - injection Hk as ->. exists a, a0. rewrite Nat.add_0_r. split; [|split; [done|split]].
    + unfold StateOf, slice_get in *. rewrite (loop_keeps _ _ _ _ i H) by lia.
      rewrite (join_all_other _ _ _ i Ha1); [done|]. intros tfr Hin. pose proof (Hfwd _ _ _ _ _ Ha0 Hin). lia.
    + rewrite (loop_length _ _ _ _ H), (join_all_length _ _ _ Ha1). by eapply join_all_range.
    + intros Q tfr HQ Hin HQt.
      destruct (join_all_target Q a0 p a1 tfr HQ Hp) as (t & Ht & HQ'); [|done|done|done|by eapply loop_up].
      intros tfr' Hin'. eapply Htransfer; [|done|done]. exact (StateOf_ok _ _ _ Hp Ha).
  - destruct (IH (S i) _ k Hp' H Hk) as (s & tfrs & Hs & Ht & Hr & HQ).
    rewrite <-Nat.add_succ_comm. by exists s, tfrs.
Qed.

Lemma loop_inv (P : nat -> T -> Prop) i codes p res :
  (forall j, joined (P j)) -> construct_loop transfer i codes p = Ok res ->
  (forall j t, p !! j = Some (Some t) -> P j t) ->
  (forall k c s tfrs tfr, codes !! k = Some c ->
     P (i + k) s \/ (s = empty_state /\ res !! (i + k) = Some None) ->
     transfer (i + k) c s = Ok tfrs -> tfr ∈ tfrs -> P (target tfr) (state tfr)) ->
  forall j t, res !! j = Some (Some t) -> P j t.
Proof using Hfwd.
  intros HP. revert i p. induction codes as [|c codes IH]; intros i p; cbn; [by intros [= <-]|].
  intros H Hp Ht. inv_ok. apply (IH (S i) a1 H).
  - eapply join_all_inv; [done|done|done|]. intros tfr Hin. apply (Ht 0 c a a0 tfr eq_refl); rewrite ?Nat.add_0_r; try done.
    unfold StateOf in Ha. apply bind_ok in Ha as (o & Ho & Hs). apply slice_get_ok in Ho.
    destruct o as [t|]; cbn in Hs; injection Hs as <-; [left; by apply Hp|]. right. split; [done|].
    rewrite (loop_keeps _ _ _ _ i H) by lia. rewrite (join_all_other _ _ _ i Ha1); [done|].
    intros tfr' Hin'. pose proof (Hfwd _ _ _ _ _ Ha0 Hin'). lia.
  - intros k c' s tfrs tfr Hk. rewrite Nat.add_succ_comm. apply (Ht (S k)). done.
Qed.

Lemma loop_total i codes p :
  (forall x y, I x -> I y -> is_ok (Join x y) = true) -> states_ok p ->
  i + length codes = length p ->
  (forall k c s, codes !! k = Some c -> I s -> exists tfrs, transfer (i + k) c s = Ok tfrs /\
     Forall (fun tfr => target tfr < length p) tfrs) ->
  is_ok (construct_loop transfer i codes p) = true.
Proof using HI Hempty Htransfer.
  intros Hj. revert i p. induction codes as [|c codes IH]; intros i p Hp Hlen Ht; [done|]. cbn [construct_loop length] in *.
  destruct (lookup_lt_is_Some_2 p i) as [o Ho]; [lia|].
  assert (Hs : StateOf p i = Ok (default empty_state o)) by (unfold StateOf; by rewrite (proj2 (slice_get_ok _ _ _) Ho)).
  rewrite Hs. cbn [mbind result_bind]. pose proof (StateOf_ok _ _ _ Hp Hs) as Hso.
  destruct (Ht 0 c (default empty_state o) eq_refl Hso) as (tfrs & Htr & Hf). rewrite Nat.add_0_r in Htr. rewrite Htr.
  cbn [mbind result_bind].
  assert (Hts : forall tfr, tfr ∈ tfrs -> I (state tfr)) by (intros tfr Hin; by eapply Htransfer).
  pose proof (join_all_total tfrs p Hj Hp Hts Hf) as Hok.
  destruct (join_all tfrs p) as [p'|] eqn:Hp'; [|done]. cbn [mbind result_bind].
  pose proof (round_states _ _ _ _ _ _ Hp Hs Htr Hp') as Hsp. apply join_all_length in Hp'.
  apply IH; [done|lia|]. intros k c' s Hk. rewrite Nat.add_succ_comm, Hp'. by apply (Ht (S k)).
Qed.

End ConstructFacts.

(** ** The writes analysis *)

Module WritesFacts.
Import Writes.
Implicit Types (p q nst : t) (r : nat) (regs : list nat).

(** The registers of the sets are below the bound that [Join] scans. *)
Definition wf p : Prop := forall r, MaybeAssigned p r = true -> r <= maxRegister p.

(** [p'] adds the registers [regs] to [p]. *)
Definition adds p regs p' : Prop :=
  (forall r, MaybeAssigned p' r = bool_decide (r ∈ regs) || MaybeAssigned p r) /\
  (forall r, DefinitelyAssigned p' r = bool_decide (r ∈ regs) || DefinitelyAssigned p r) /\
  (wf p -> wf p').

Lemma contains_empty r : BitSet.Contains (BitSet.mkSet []) r = false.
Proof. done. Qed.

Lemma adds_nil p : adds p [] p.
Proof. split; [|split; [|done]]; intros r; rewrite bool_decide_false by apply not_elem_of_nil; done. Qed.

Lemma Clone_adds p : adds p [] (Clone p).
Proof.
  assert (Hc : forall r, MaybeAssigned (Clone p) r = MaybeAssigned p r).
  { intros r. unfold MaybeAssigned, Clone. cbn [maybeWrites]. by rewrite BitSet.Union_Contains. }
  split; [|split].
  - intros r. by rewrite Hc, bool_decide_false by apply not_elem_of_nil.
  - intros r. rewrite bool_decide_false by apply not_elem_of_nil.
    unfold DefinitelyAssigned, Clone. cbn [definiteWrites]. by rewrite BitSet.Union_Contains.
  - intros Hp r. rewrite Hc. apply Hp.
Qed.

Lemma write_adds p r : adds p [r] (write p r).
Proof.
  assert (Hs : forall x, bool_decide (x ∈ [r]) = bool_decide (x = r)).
  { intros x. apply bool_decide_ext. apply list_elem_of_singleton. }
  split; [|split].
  - intros x. rewrite Hs. apply BitSet.Insert_Contains.
  - intros x. rewrite Hs. apply BitSet.Insert_Contains.
  - intros Hp x. unfold MaybeAssigned, write. cbn. rewrite BitSet.Insert_Contains, orb_true_iff, bool_decide_eq_true.
    intros [->|Hx%Hp]; lia.
Qed.

Lemma adds_trans p regs p1 regs' p2 : adds p regs p1 -> adds p1 regs' p2 -> adds p (regs ++ regs') p2.
Proof.
  intros (Hm & Hd & Hw) (Hm' & Hd' & Hw').
  assert (Ha : forall r b, bool_decide (r ∈ regs') || (bool_decide (r ∈ regs) || b) = bool_decide (r ∈ regs ++ regs') || b).
  { intros r b. rewrite orb_assoc. f_equal. apply eq_true_iff_eq.
    rewrite orb_true_iff, !bool_decide_eq_true, elem_of_app. tauto. }
  split; [|split; [|by auto]]; intros r; [by rewrite Hm', Hm, Ha | by rewrite Hd', Hd, Ha].
Qed.

Lemma Write_adds p regs : adds p regs (Write p regs).
Proof.
  unfold Write. assert (Hf : forall p0 p1 rs, adds p0 rs p1 -> adds p0 (rs ++ regs) (foldl write p1 regs)).
  { intros p0. induction regs as [|r regs IH]; intros p1 rs Ha; cbn; [by rewrite app_nil_r|].
    rewrite cons_middle, app_assoc. apply IH. eapply adds_trans; [done | apply write_adds]. }
  exact (Hf p (Clone p) [] (Clone_adds p)).
Qed.

Lemma join_at_spec p q nst i r :
  (MaybeAssigned (join_at p q nst i) r = MaybeAssigned nst r ||
     bool_decide (r = i) && (DefinitelyAssigned p r && DefinitelyAssigned q r || (MaybeAssigned p r || MaybeAssigned q r))) /\
  (DefinitelyAssigned (join_at p q nst i) r = DefinitelyAssigned nst r ||
     bool_decide (r = i) && (DefinitelyAssigned p r && DefinitelyAssigned q r)) /\
  maxRegister (join_at p q nst i) = maxRegister nst.
Proof.
  unfold join_at. destruct (DefinitelyAssigned p i && DefinitelyAssigned q i) eqn:Hd.
  - unfold MaybeAssigned at 1, DefinitelyAssigned at 3. cbn. rewrite !BitSet.Insert_Contains.
    case_bool_decide as Hr; [subst; rewrite Hd; cbn; by rewrite !orb_true_r|]. cbn. by rewrite !orb_false_r.
  - destruct (MaybeAssigned p i || MaybeAssigned q i) eqn:Hm.
    + unfold MaybeAssigned at 1, DefinitelyAssigned at 3. cbn. rewrite !BitSet.Insert_Contains.
      case_bool_decide as Hr; [subst; rewrite Hd, Hm; cbn; by rewrite orb_true_r, orb_false_r|]. cbn. by rewrite !orb_false_r.
    + case_bool_decide as Hr; [subst; rewrite Hd, Hm; cbn; by rewrite !orb_false_r|]. cbn. by rewrite !orb_false_r.
Qed.

Lemma join_fold p q l nst r :
  (MaybeAssigned (foldl (join_at p q) nst l) r = MaybeAssigned nst r ||
     bool_decide (r ∈ l) && (DefinitelyAssigned p r && DefinitelyAssigned q r || (MaybeAssigned p r || MaybeAssigned q r))) /\
  (DefinitelyAssigned (foldl (join_at p q) nst l) r = DefinitelyAssigned nst r ||
     bool_decide (r ∈ l) && (DefinitelyAssigned p r && DefinitelyAssigned q r)) /\
  maxRegister (foldl (join_at p q) nst l) = maxRegister nst.
Proof.
  revert nst. induction l as [|i l IH]; intros nst; cbn.
  { rewrite bool_decide_false by apply not_elem_of_nil. by rewrite !orb_false_r. }
  destruct (IH (join_at p q nst i)) as (-> & -> & ->). destruct (join_at_spec p q nst i r) as (-> & -> & ->).
  assert (He : bool_decide (r ∈ i :: l) = bool_decide (r = i) || bool_decide (r ∈ l)).
  { apply eq_true_iff_eq. rewrite orb_true_iff, !bool_decide_eq_true. apply elem_of_cons. }
  rewrite He. split; [|split; [|done]]; rewrite <-orb_assoc, <-andb_orb_distrib_l; done.
Qed.

Lemma Join_maxRegister p q : maxRegister (Join p q) = Nat.max (maxRegister p) (maxRegister q).
Proof. unfold Join. by destruct (join_fold p q (seq 0 (Nat.max (maxRegister p) (maxRegister q) + 1))
  (mk (Nat.max (maxRegister p) (maxRegister q)) (definiteWrites empty) (maybeWrites empty)) 0) as (_ & _ & ->). Qed.

Lemma Join_spec p q r :
  MaybeAssigned (Join p q) r = bool_decide (r <= Nat.max (maxRegister p) (maxRegister q)) &&
     (DefinitelyAssigned p r && DefinitelyAssigned q r || (MaybeAssigned p r || MaybeAssigned q r)) /\
  DefinitelyAssigned (Join p q) r = bool_decide (r <= Nat.max (maxRegister p) (maxRegister q)) &&
     (DefinitelyAssigned p r && DefinitelyAssigned q r).
Proof.
  unfold Join. set (n := Nat.max _ _).
  destruct (join_fold p q (seq 0 (n + 1)) (mk n (definiteWrites empty) (maybeWrites empty)) r) as (-> & -> & _).
  assert (He : bool_decide (r ∈ seq 0 (n + 1)) = bool_decide (r <= n)).
  { apply bool_decide_ext. rewrite elem_of_seq. lia. }
  by rewrite He.
Qed.

Lemma Join_wf p q : wf (Join p q).
Proof. intros r. rewrite (proj1 (Join_spec p q r)), Join_maxRegister, andb_true_iff, bool_decide_eq_true. by intros [? _]. Qed.

(** A possible write survives joins, and so does the absence of a definite one. *)
Lemma maybe_upward r : upward (fun _ => True) (fun p => MaybeAssigned p r = true /\ r <= maxRegister p).
Proof.
  intros p q s _ _ [= <-] Hor. rewrite (proj1 (Join_spec p q r)), Join_maxRegister, andb_true_iff, bool_decide_eq_true, !orb_true_iff.
  destruct Hor as [[Hm Hle]|[Hm Hle]]; rewrite Hm; (split; [split; [lia|tauto] | lia]).
Qed.

Lemma not_definite_upward r : upward (fun _ => True) (fun p => DefinitelyAssigned p r = false).
Proof.
  intros p q s _ _ [= <-] Hor. rewrite (proj2 (Join_spec p q r)).
  destruct Hor as [-> | ->]; by rewrite ?andb_false_r.
Qed.

End WritesFacts.

(** ** Paths

    An execution of a vector starts at its first instruction ([execution]).  The pass
    also transfers instructions that nothing leads to, from the zero state (see
    [StateOf]), so that what it computes is exact for the larger set of the paths that
    start at such an instruction too ([path]).  The two agree at an instruction that
    only live code leads to ([live_path]); the properties are stated of executions. *)

Section Paths.
Context {W : Type} `{!Word W}.
Implicit Types (code : Instruction W) (codes : Vector W) (st : Writes.t).

(** The arcs of a micro-instruction: where control goes, and what it writes there *)
Definition arcs (i : nat) code : list (nat * list nat) :=
  match code with
  | Skip n => [(i + n + 1, [])]
  | SkipIf _ _ _ n => [(i + n + 1, []); (i + 1, [])]
  | _ => match OpCode_of code with
         | FAIL | RETURN | JUMP => []
         | _ => [(i + 1, Definitions code)]
         end
  end.

(** Micro-instructions whose opcode is that of their implementation *)
Definition shaped code : Prop :=
  match code with
  | OpIo op _ _ _ => op = CALL \/ op = MEMORY_READ \/ op = MEMORY_WRITE
  | OpImm op _ => op = JUMP \/ op = RETURN
  | OpArith op _ _ _ => op <> FAIL /\ op <> JUMP /\ op <> RETURN /\ op <> SKIP /\ op <> SKIP_IF
  | _ => True
  end.

(** [execution codes i ws]: an execution from the start of the vector leads to
    instruction [i], writing the registers [ws]. *)
Inductive execution codes : nat -> list nat -> Prop :=
  | execution_start : execution codes 0 []
  | execution_arc i ws code j regs :
      execution codes i ws -> codes !! i = Some code -> (j, regs) ∈ arcs i code ->
      execution codes j (ws ++ regs).

(** An instruction that some execution reaches *)
Definition live codes (i : nat) : Prop := exists ws, execution codes i ws.

(** [leads codes j i]: control goes from instruction [j] to instruction [i]. *)
Inductive leads codes : nat -> nat -> Prop :=
  | leads_refl i : leads codes i i
  | leads_arc j i code arc :
      leads codes j i -> codes !! i = Some code -> arc ∈ arcs i code -> leads codes j arc.1.

(** Where the pass starts: at the start of the vector, and at the instructions no
    other leads to *)
Definition root codes (j : nat) : Prop :=
  j < length codes /\
  (j = 0 \/ forall i code arc, codes !! i = Some code -> arc ∈ arcs i code -> arc.1 <> j).

(** [path codes i ws]: the pass flows to instruction [i], writing the registers [ws]. *)
Inductive path codes : nat -> list nat -> Prop :=
  | path_root j : root codes j -> path codes j []
  | path_arc i ws code j regs :
      path codes i ws -> codes !! i = Some code -> (j, regs) ∈ arcs i code ->
      path codes j (ws ++ regs).

Lemma execution_path codes i ws : codes <> [] -> execution codes i ws -> path codes i ws.
Proof.
  intros Hne. induction 1 as [|i ws code j regs _ IH Hc Ha]; [|by eapply path_arc].
  apply path_root. split; [destruct codes; [done|cbn; lia] | by left].
Qed.

(** The flows into an instruction that only live code leads to are executions. *)
Lemma live_path codes i ws :
  (forall j, leads codes j i -> live codes j) -> path codes i ws -> execution codes i ws.
Proof.
  intros Hlive Hp. induction Hp as [j [_ Hroot]|i ws code j regs _ IH Hc Ha].
  - destruct Hroot as [->|Hno]; [constructor|]. destruct (Hlive j (leads_refl _ _)) as [ws Hex].
    destruct Hex as [|i ws code j regs _ Hc Ha]; [constructor|]. by destruct (Hno i code (j, regs) Hc Ha).
  - eapply execution_arc; [|done|done]. apply IH. intros j' Hj'. apply Hlive.
    exact (leads_arc _ _ _ _ _ Hj' Hc Ha).
Qed.

Lemma arcs_forward i code arc : arc ∈ arcs i code -> i < arc.1.
Proof.
  unfold arcs. destruct code as [op ? ? ?|op ?|n|? ? ? n|?|?|op ? ? ?|? ? w|? ?]; cbn.
  all: try (destruct op; rewrite ?elem_of_nil, ?list_elem_of_singleton; try done; intros ->; cbn; lia).
  - rewrite list_elem_of_singleton. intros ->. cbn. lia.
  - rewrite elem_of_cons, list_elem_of_singleton. intros [-> | ->]; cbn; lia.
  - by rewrite elem_of_nil.
  - rewrite list_elem_of_singleton. intros ->. cbn. lia.
  - destruct (w =? MaxUint)%Z; rewrite list_elem_of_singleton; intros ->; cbn; lia.
  - rewrite list_elem_of_singleton. intros ->. cbn. lia.
Qed.

Lemma leads_le codes j i : leads codes j i -> j <= i.
Proof. induction 1 as [|j i code arc _ IH _ Ha]; [done|]. apply arcs_forward in Ha. lia. Qed.


(** The transfer function follows the arcs. *)
Lemma transfer_arcs i code st :
  shaped code ->
  exists tfrs, writeDfaTransfer i code st = Ok tfrs /\
    Forall2 (fun tfr arc => target tfr = arc.1 /\ WritesFacts.adds st arc.2 (state tfr)) tfrs (arcs i code).
Proof.
  intros Hs.
  assert (Hft : forall regs, exists tfrs, Ok ([] ++ [NewTransfer (Writes.Write st regs) (i + 1)]) = Ok tfrs /\
    Forall2 (fun tfr arc => target tfr = arc.1 /\ WritesFacts.adds st arc.2 (state tfr)) tfrs [(i + 1, regs)]).
  { intros regs. eexists. split; [done|]. constructor; [|constructor]. split; [done | apply WritesFacts.Write_adds]. }
  destruct code as [op id a r|op n|n|c l r n|chs|chs|op t s c|t s w|ts s]; cbn [shaped] in Hs.
  - destruct Hs as [->|[->| ->]]; apply Hft.
  - destruct Hs as [-> | ->]; by exists [].
  - eexists. split; [done|]. constructor; [|constructor]. split; [done | apply WritesFacts.adds_nil].
  - eexists. split; [done|]. constructor; [|constructor; [|constructor]].
    + split; [done | apply WritesFacts.adds_nil].
    + split; [done | apply WritesFacts.Write_adds].
  - by exists [].
  - apply Hft.
  - destruct op; try (by destruct Hs as (?&?&?&?&?)); apply Hft.
  - unfold writeDfaTransfer, arcs. cbn [OpCode_of]. destruct (w =? MaxUint)%Z; apply Hft.
  - apply Hft.
Qed.

Lemma transfer_unshaped i code st tfrs tfr :
  writeDfaTransfer i code st = Ok tfrs -> tfr ∈ tfrs -> i < target tfr.
Proof.
  unfold writeDfaTransfer.
  assert (Hl : forall l, Ok l = Ok tfrs -> tfr ∈ tfrs -> Forall (fun x => i < target x) l -> i < target tfr).
  { intros l [= ->] Hin Hf. by eapply Forall_forall in Hf. }
  destruct code as [op id a r|op n|n|c l r n|chs|chs|op t s c|t s w|ts s]; cbn [OpCode_of].
  all: try (destruct op; try done; intros H Hin; apply (Hl _ H Hin); repeat constructor; cbn; lia).
  all: try (intros H Hin; apply (Hl _ H Hin); repeat constructor; cbn; lia).
  destruct (w =? MaxUint)%Z; intros H Hin; apply (Hl _ H Hin); repeat constructor; cbn; lia.
Qed.

Lemma WriteMap_start codes writeMap :
  WriteMap codes = Ok writeMap ->
  codes <> [] /\
  construct_loop writeDfaTransfer 0 codes (Some Writes.empty :: replicate (length codes - 1) None) = Ok writeMap /\
  length writeMap = length codes.
Proof.
  unfold WriteMap, Construct. intros H. destruct codes as [|c codes]; [done|]. split; [done|]. split; [done|].
  apply loop_length in H. rewrite H. cbn. rewrite length_replicate. lia.
Qed.

(** Each instruction's state flows along its arcs. *)
Lemma WriteMap_visit codes writeMap k c :
  WriteMap codes = Ok writeMap -> codes !! k = Some c ->
  exists s tfrs, StateOf writeMap k = Ok s /\ writeDfaTransfer k c s = Ok tfrs /\
    Forall (fun tfr => target tfr < length writeMap) tfrs /\
    forall Q tfr, upward (fun _ => True) Q -> tfr ∈ tfrs -> Q (state tfr) ->
      exists t, writeMap !! target tfr = Some (Some t) /\ Q t.
Proof.
  intros Hw Hc. destruct (WriteMap_start _ _ Hw) as (_ & Hloop & _).
  apply (loop_visit writeDfaTransfer (fun _ => True) ltac:(done) transfer_unshaped I ltac:(done) 0 codes
    (Some Writes.empty :: replicate (length codes - 1) None)); [by intros ?|done|done].
Qed.

(** The start state, and the instructions nothing leads to *)
Lemma WriteMap_root codes writeMap j st :
  Forall shaped codes -> WriteMap codes = Ok writeMap -> root codes j -> StateOf writeMap j = Ok st -> st = Writes.empty.
Proof.
  intros Hsh Hw [Hlt Hroot] Hs. destruct (WriteMap_start _ _ Hw) as (Hne & Hloop & Hlen).
  destruct Hroot as [->|Hno].
  - unfold StateOf, slice_get in Hs. rewrite (loop_keeps _ transfer_unshaped _ _ _ _ 0 Hloop) in Hs by lia.
    by injection Hs as <-.
  - destruct (decide (j = 0)) as [->|Hj].
    { unfold StateOf, slice_get in Hs. rewrite (loop_keeps _ transfer_unshaped _ _ _ _ 0 Hloop) in Hs by lia.
      by injection Hs as <-. }
    unfold StateOf in Hs. apply bind_ok in Hs as (o & Ho & [= <-]). apply slice_get_ok in Ho.
    destruct o as [t|]; [|done]. exfalso.
    assert (Hinv : forall j' t', writeMap !! j' = Some (Some t') -> j' <> j).
    { eapply (loop_inv _ transfer_unshaped (fun j' _ => j' <> j)); [by intros j' x y z _ Hx _|exact Hloop| |].
      - intros [|j'] t'; [intros _; congruence|]. cbn. intros Hr%lookup_replicate. by destruct Hr.
      - intros k c s tfrs tfr Hk _ Htr Hin. cbn in Htr.
        pose proof (proj1 (Forall_lookup _ _) Hsh _ _ Hk) as Hc.
        destruct (transfer_arcs k c s Hc) as (tfrs' & Htr' & Hf). rewrite Htr in Htr'. injection Htr' as <-.
        destruct (proj1 (list_elem_of_lookup _ _) Hin) as [x Hx].
        destruct (Forall2_lookup_l _ _ _ _ _ Hf Hx) as (arc & Harc & -> & _).
        apply (Hno k c arc Hk). by eapply list_elem_of_lookup_2. }
    by apply (Hinv _ _ Ho).
Qed.

(** What a path writes is possibly written, and what is definitely written is on it. *)
Lemma WriteMap_sound codes writeMap i ws :
  Forall shaped codes -> WriteMap codes = Ok writeMap -> path codes i ws ->
  exists st, StateOf writeMap i = Ok st /\ WritesFacts.wf st /\
    (forall r, r ∈ ws -> Writes.MaybeAssigned st r = true) /\
    (forall r, r ∉ ws -> Writes.DefinitelyAssigned st r = false).
Proof.
  intros Hsh Hw Hp. destruct (WriteMap_start _ _ Hw) as (Hne & Hloop & Hlen).
  assert (Hwf : forall j st, StateOf writeMap j = Ok st -> WritesFacts.wf st).
  { assert (Hinv : forall j t, writeMap !! j = Some (Some t) -> WritesFacts.wf t).
    { eapply (loop_inv _ transfer_unshaped (fun _ t => WritesFacts.wf t)); [|exact Hloop| |].
      - intros _ x y z [= <-] _ _. apply WritesFacts.Join_wf.
      - intros [|j] t; cbn; [intros [= <-]; by intros r|]. intros Hr%lookup_replicate. by destruct Hr.
      - intros k c s tfrs tfr Hk Hs Htr Hin. cbn in Htr.
        pose proof (proj1 (Forall_lookup _ _) Hsh _ _ Hk) as Hc.
        destruct (transfer_arcs k c s Hc) as (tfrs' & Htr' & Hf). rewrite Htr in Htr'. injection Htr' as <-.
        destruct (proj1 (list_elem_of_lookup _ _) Hin) as [x Hx].
        destruct (Forall2_lookup_l _ _ _ _ _ Hf Hx) as (arc & _ & _ & _ & _ & Hwf). apply Hwf.
        destruct Hs as [Hs|[-> _]]; [done|]. by intros r. }
    intros j st Hs. unfold StateOf in Hs. apply bind_ok in Hs as (o & Ho & [= <-]). apply slice_get_ok in Ho.
    destruct o; [by eapply Hinv | by intros r]. }
  induction Hp as [j Hroot|i ws code j regs Hp IH Hcode Harc].
  - destruct Hroot as [Hlt Hr]. destruct (lookup_lt_is_Some_2 writeMap j) as [o Ho]; [lia|].
    assert (Hs : StateOf writeMap j = Ok (default empty_state o)).
    { unfold StateOf. by rewrite (proj2 (slice_get_ok _ _ _) Ho). }
    pose proof (WriteMap_root codes writeMap j _ Hsh Hw (conj Hlt Hr) Hs) as He. rewrite He in Hs.
    exists Writes.empty. split; [done|]. split; [by eapply Hwf|]. split; [by intros r ?%elem_of_nil | done].
  - destruct IH as (st & Hst & Hwfs & Hmay & Hdef).
    destruct (WriteMap_visit _ _ i code Hw Hcode) as (s & tfrs & Hs & Htr & _ & HQ). cbn in Hs, Htr.
    rewrite Hst in Hs. injection Hs as <-.
    pose proof (proj1 (Forall_lookup _ _) Hsh _ _ Hcode) as Hc.
    destruct (transfer_arcs i code st Hc) as (tfrs' & Htr' & Hf). rewrite Htr in Htr'. injection Htr' as <-.
    destruct (proj1 (list_elem_of_lookup _ _) Harc) as [x Hx].
    destruct (Forall2_lookup_r _ _ _ _ _ Hf Hx) as (tfr & Htfr & Ht & Hm & Hd & Hw'). cbn in Ht, Hm, Hd.
    pose proof (list_elem_of_lookup_2 _ _ _ Htfr) as Hin. specialize (Hw' Hwfs).
    destruct (HQ (fun _ => True) tfr ltac:(done) Hin I) as (t & Hres & _). rewrite Ht in Hres.
    assert (Hst' : StateOf writeMap j = Ok t) by (unfold StateOf; by rewrite (proj2 (slice_get_ok _ _ _) Hres)).
    exists t. split; [done|]. split; [by eapply Hwf|]. split.
    + intros r Hr. assert (Hmr : Writes.MaybeAssigned (state tfr) r = true).
      { rewrite Hm, orb_true_iff, bool_decide_eq_true. apply elem_of_app in Hr as [Hr|Hr]; [right; by apply Hmay | by left]. }
      destruct (HQ _ tfr (WritesFacts.maybe_upward r) Hin (conj Hmr (Hw' r Hmr))) as (t' & Hres' & Hq & _).
      rewrite Ht, Hres in Hres'. by injection Hres' as <-.
    + intros r [Hr1 Hr2]%not_elem_of_app. assert (Hdr : Writes.DefinitelyAssigned (state tfr) r = false).
      { rewrite Hd, bool_decide_false by done. by apply Hdef. }
      destruct (HQ _ tfr (WritesFacts.not_definite_upward r) Hin Hdr) as (t' & Hres' & Hq).
      rewrite Ht, Hres in Hres'. by injection Hres' as <-.
Qed.

(** Conversely every possible write, and every missing definite one, comes from a path. *)
Definition explained codes (i : nat) st : Prop :=
  WritesFacts.wf st /\
  (exists ws, path codes i ws) /\
  (forall r, Writes.MaybeAssigned st r = true -> exists ws, path codes i ws /\ r ∈ ws) /\
  (forall r, Writes.DefinitelyAssigned st r = false -> exists ws, path codes i ws /\ r ∉ ws) /\
  (forall r, Writes.DefinitelyAssigned st r = true -> Writes.MaybeAssigned st r = true).

Lemma explained_empty codes j : root codes j -> explained codes j Writes.empty.
Proof.
  intros Hr. pose proof (path_root codes j Hr) as Hp. split; [by intros r|]. split; [by exists []|].
  split; [done|]. split; [|done]. intros r _. exists []. split; [done | apply not_elem_of_nil].
Qed.

Lemma explained_joined codes j : joined (explained codes j).
Proof.
  intros x y z [= <-] (Hw & Hp & Hm & Hd & Hs) (Hw' & _ & Hm' & Hd' & Hs').
  split; [apply WritesFacts.Join_wf|]. split; [done|]. split; [|split].
  - intros r. rewrite (proj1 (WritesFacts.Join_spec x y r)), andb_true_iff, !orb_true_iff, andb_true_iff.
    intros [_ [[Hr _]|[Hr|Hr]]]; auto.
  - intros r. rewrite (proj2 (WritesFacts.Join_spec x y r)).
    destruct (Writes.DefinitelyAssigned x r) eqn:Hx; [|intros _; by apply Hd].
    destruct (Writes.DefinitelyAssigned y r) eqn:Hy; [|intros _; by apply Hd'].
    pose proof (Hw r (Hs r Hx)). rewrite bool_decide_true by lia. done.
  - intros r. rewrite (proj1 (WritesFacts.Join_spec x y r)), (proj2 (WritesFacts.Join_spec x y r)), !andb_true_iff, !orb_true_iff, andb_true_iff.
    tauto.
Qed.

Lemma explained_arc codes i code st arc st' :
  codes !! i = Some code -> arc ∈ arcs i code -> WritesFacts.adds st arc.2 st' ->
  explained codes i st -> explained codes arc.1 st'.
Proof.
  intros Hc Ha (Hm & Hd & Hw) (Hwf & [ws0 Hws0] & Hmay & Hdef & Hsub). destruct arc as [j regs]. cbn in *.
  assert (Hstep : forall ws, path codes i ws -> path codes j (ws ++ regs)) by (intros ws Hws; by eapply path_arc).
  split; [by apply Hw|]. split; [by eexists; apply Hstep|]. split; [|split].
  - intros r. rewrite Hm, orb_true_iff, bool_decide_eq_true. intros [Hr|(ws & Hws & Hr)%Hmay].
    + exists (ws0 ++ regs). split; [by apply Hstep|]. apply elem_of_app. by right.
    + exists (ws ++ regs). split; [by apply Hstep|]. apply elem_of_app. by left.
  - intros r. rewrite Hd, orb_false_iff, bool_decide_eq_false. intros [Hr (ws & Hws & Hr')%Hdef].
    exists (ws ++ regs). split; [by apply Hstep|]. by apply not_elem_of_app.
  - intros r. rewrite Hm, Hd, !orb_true_iff. intros [?|?]; auto.
Qed.

(** No instruction is a target of an arc when its state is missing. *)
Lemma WriteMap_missing codes writeMap j :
  Forall shaped codes -> WriteMap codes = Ok writeMap -> writeMap !! j = Some None -> root codes j.
Proof.
  intros Hsh Hw Hj. destruct (WriteMap_start _ _ Hw) as (Hne & Hloop & Hlen).
  split; [apply lookup_lt_Some in Hj; lia|]. right. intros i code arc Hc Ha <-.
  destruct (WriteMap_visit _ _ i code Hw Hc) as (s & tfrs & _ & Htr & _ & HQ). cbn in Htr.
  destruct (transfer_arcs i code s (proj1 (Forall_lookup _ _) Hsh _ _ Hc)) as (tfrs' & Htr' & Hf).
  rewrite Htr in Htr'. injection Htr' as <-.
  destruct (proj1 (list_elem_of_lookup _ _) Ha) as [x Hx].
  destruct (Forall2_lookup_r _ _ _ _ _ Hf Hx) as (tfr & Htfr & Ht & _).
  destruct (HQ (fun _ => True) tfr ltac:(by intros ?) (list_elem_of_lookup_2 _ _ _ Htfr) I) as (t & Hres & _).
  congruence.
Qed.

Lemma WriteMap_explained codes writeMap i st :
  Forall shaped codes -> WriteMap codes = Ok writeMap -> StateOf writeMap i = Ok st -> explained codes i st.
Proof.
  intros Hsh Hw Hs. destruct (WriteMap_start _ _ Hw) as (Hne & Hloop & Hlen).
  assert (Hinv : forall j t, writeMap !! j = Some (Some t) -> explained codes j t).
  { eapply (loop_inv _ transfer_unshaped (explained codes)); [apply explained_joined|exact Hloop| |].
    - intros [|j] t; cbn.
      + intros [= <-]. apply explained_empty. split; [destruct codes; [done|cbn; lia] | by left].
      + intros Hr%lookup_replicate. by destruct Hr.
    - intros k c s tfrs tfr Hk Hsk Htr Hin. cbn in Htr, Hsk.
      pose proof (proj1 (Forall_lookup _ _) Hsh _ _ Hk) as Hc.
      destruct (transfer_arcs k c s Hc) as (tfrs' & Htr' & Hf). rewrite Htr in Htr'. injection Htr' as <-.
      destruct (proj1 (list_elem_of_lookup _ _) Hin) as [x Hx].
      destruct (Forall2_lookup_l _ _ _ _ _ Hf Hx) as (arc & Harc & Ht & Hadds). rewrite Ht.
      eapply explained_arc; [done|by eapply list_elem_of_lookup_2|done|].
      destruct Hsk as [|[-> Hnone]]; [done|]. apply explained_empty. by eapply WriteMap_missing. }
  unfold StateOf in Hs. apply bind_ok in Hs as (o & Ho & [= <-]). apply slice_get_ok in Ho.
  destruct o as [t|]; [by apply Hinv|]. cbn. apply explained_empty. by eapply WriteMap_missing.
Qed.

(** The analysis succeeds exactly when every arc stays inside the vector. *)
Lemma WriteMap_total codes :
  Forall shaped codes ->
  is_ok (WriteMap codes) = true <->
  codes <> [] /\ forall i code arc, codes !! i = Some code -> arc ∈ arcs i code -> arc.1 < length codes.
Proof.
  intros Hsh. split.
  - destruct (WriteMap codes) as [writeMap|] eqn:Hw; [|done]. intros _.
    destruct (WriteMap_start _ _ Hw) as (Hne & Hloop & Hlen). split; [done|]. intros i code arc Hc Ha.
    destruct (WriteMap_visit _ _ i code Hw Hc) as (s & tfrs & _ & Htr & Hr & _). cbn in Htr.
    destruct (transfer_arcs i code s (proj1 (Forall_lookup _ _) Hsh _ _ Hc)) as (tfrs' & Htr' & Hf).
    rewrite Htr in Htr'. injection Htr' as <-.
    destruct (proj1 (list_elem_of_lookup _ _) Ha) as [x Hx].
    destruct (Forall2_lookup_r _ _ _ _ _ Hf Hx) as (tfr & Htfr & <- & _).
    rewrite <-Hlen. exact (proj1 (Forall_lookup _ _) Hr _ _ Htfr).
  - intros [Hne Hin]. unfold WriteMap, Construct. destruct codes as [|c codes]; [done|].
    apply (loop_total writeDfaTransfer (fun _ => True) ltac:(done) I ltac:(done)); [done|done|cbn; rewrite length_replicate; lia|].
    intros k c' s Hk _. cbn [Nat.add].
    destruct (transfer_arcs k c' s (proj1 (Forall_lookup _ _) Hsh _ _ Hk)) as (tfrs & Htr & Hf).
    exists tfrs. split; [done|]. apply Forall_lookup. intros x tfr Htfr.
    destruct (Forall2_lookup_l _ _ _ _ _ Hf Htfr) as (arc & Harc & -> & _).
    pose proof (Hin k c' arc Hk (list_elem_of_lookup_2 _ _ _ Harc)) as Hlt. cbn in Hlt |- *. rewrite length_replicate. lia.
Qed.

End Paths.

(** ** The write map and the machine *)

(** What an executor may change of the registers of a frame *)
Class ExecutorWrites {W} `{!Word W} (ex : Machine.Executor W) : Prop :=
  executor_writes insn frame regs frame' r :
    ex insn frame regs = Ok frame' -> r ∉ Definitions insn -> frame' !! r = frame !! r.

Section WordExecutor.
Context {W : Type} `{!Word W}.

Lemma slice_set_other (frame frame' : list W) target v r :
  slice_set frame target v = Ok frame' -> r ∉ [target] -> frame' !! r = frame !! r.
Proof.
  intros [_ ->]%slice_set_ok Hr. apply list_lookup_insert_ne. intros ->. apply Hr. by left.
Qed.

Lemma destruct_other (val : W) targets (frame frame' : list W) regs r :
  destruct_loop val targets frame regs = Ok frame' -> r ∉ targets -> frame' !! r = frame !! r.
Proof.
  revert val frame. induction targets as [|t targets IH]; intros val frame; cbn; [by intros [= <-]|].
  intros H Hr. inv_ok. apply not_elem_of_cons in Hr as [Hne Hr]. rewrite (IH _ _ H Hr).
  eapply slice_set_other; [done|]. by intros ?%list_elem_of_singleton.
Qed.

#[export] Instance word_executor_writes (q : W) : ExecutorWrites (Executor.Execute q).
Proof.
  intros insn frame regs frame' r Hx Hr. destruct insn as [| | | | | |op t s c|t s w|ts s]; try done.
  - cbn [Executor.Execute Definitions] in *.
    destruct op; try done;
      unfold executeAdd, executeSub, executeMul, executeDiv, executeRem, executeFieldAdd, executeFieldSub,
        executeFieldMul, executeAnd, executeOr, executeXor, executeNot, executeShl, executeShr, executeConcat in Hx;
      repeat (apply bind_ok in Hx as ([? ?] & _ & Hx) || apply bind_ok in Hx as (? & _ & Hx) || (case_match; [done|]));
      by eapply slice_set_other.
  - cbn [Executor.Execute Definitions] in *.
    destruct (w =? MaxUint)%Z; unfold executeFieldCast, executeCast in Hx; apply bind_ok in Hx as (x & _ & Hx);
      repeat (case_match; try done); by eapply slice_set_other.
  - cbn [Executor.Execute Definitions] in *. unfold executeDestruct in Hx. apply bind_ok in Hx as (x & _ & Hx).
    by eapply destruct_other.
Qed.

End WordExecutor.

Section MachinePaths.
Context {W : Type} `{!Word W}.
Context (ex : Machine.Executor W) `{!ExecutorWrites ex}.
Implicit Types (p q : Base W) (fr : Frame.t W) (pre : list (Frame.t W)) (codes : Vector W).

(** The vector a frame is executing *)
Definition vector_of (ms : list (Module_ W)) fr : option (Vector W) :=
  m ← ms !! Frame.functionId fr;
  match m with MFunction f => code f !! PC.Macro (Frame.pc fr) | MMemory _ => None end.

Abbreviation micro fr := (PC.Micro (Frame.pc fr)).
Abbreviation macro fr := (PC.Macro (Frame.pc fr)).

(** One micro-instruction of the frame above [pre], a call up to its return included *)
Inductive micro_step pre p fr p' fr' : Prop :=
  | micro_local :
      callstack p = pre ++ [fr] -> step p p' -> callstack p' = pre ++ [fr'] -> micro_step pre p fr p' fr'
  | micro_call p1 p2 id args rets width regs callee insn width' regs' :
      callstack p = pre ++ [fr] -> fetch (modules p) fr = Some (OpIo CALL id args rets, width, regs) ->
      step p p1 -> within (S (S (length pre))) p1 p2 ->
      callstack p2 !! S (length pre) = Some callee -> Depth p2 = S (S (length pre)) ->
      fetch (modules p2) callee = Some (insn, width', regs') -> OpCode_of insn = RETURN ->
      step p2 p' -> callstack p' = pre ++ [fr'] -> micro_step pre p fr p' fr'.

(** A run inside one vector, from its first micro-instruction *)
Inductive micro_run pre codes : Base W -> Frame.t W -> Base W -> Frame.t W -> Prop :=
  | run_start p fr :
      executor p = ex -> callstack p = pre ++ [fr] -> vector_of (modules p) fr = Some codes -> micro fr = 0 ->
      micro_run pre codes p fr p fr
  | run_step p0 fr0 p fr p' fr' :
      micro_run pre codes p0 fr0 p fr -> micro_step pre p fr p' fr' ->
      macro fr' = macro fr -> micro fr' <> 0 -> micro_run pre codes p0 fr0 p' fr'.

Lemma fetch_vector ms fr insn width regs codes :
  fetch ms fr = Some (insn, width, regs) -> vector_of ms fr = Some codes ->
  codes !! micro fr = Some insn /\ width = length codes.
Proof.
  unfold fetch, vector_of. destruct (ms !! Frame.functionId fr) as [[f|]|]; cbn; try done.
  intros H Hv. rewrite Hv in H. cbn in H. destruct (codes !! micro fr); cbn in H; [|done]. by injection H as <- <- <-.
Qed.

Lemma same_vector ms ms' fr fr' :
  Forall2 same_module ms ms' -> Frame.functionId fr' = Frame.functionId fr -> macro fr' = macro fr ->
  vector_of ms' fr' = vector_of ms fr.
Proof.
  intros Hs Hid Hm. unfold vector_of. rewrite Hid, Hm.
  destruct (ms !! Frame.functionId fr) as [m|] eqn:Hl.
  - eapply Forall2_lookup_l in Hs as (m' & -> & Hmm); [|done]. cbn. by destruct m, m'; cbn in Hmm; subst.
  - apply lookup_ge_None in Hl. rewrite (proj2 (lookup_ge_None ms' _)); [done|]. by rewrite <-(Forall2_length _ _ _ Hs).
Qed.

Lemma within_same d p q : within d p q -> Forall2 same_module (modules p) (modules q) /\ executor q = executor p.
Proof.
  induction 1 as [p|p p1 q _ Hst _ [Hs He]]; [by split; [apply same_modules_refl|]|].
  split; [etrans; [by apply step_modules | done]|]. by rewrite He, (step_executor _ _ Hst).
Qed.

Lemma next_micro (pc : PC.t) width :
  PC.Macro (PC.Next pc width) = PC.Macro pc -> PC.Micro (PC.Next pc width) = S (PC.Micro pc).
Proof. unfold PC.Next. destruct (width <=? S (PC.Micro pc)); cbn; lia. Qed.

Lemma next_skip_micro (pc : PC.t) n width :
  PC.Macro (PC.Next (PC.Skip pc n) width) = PC.Macro pc ->
  PC.Micro (PC.Next (PC.Skip pc n) width) = PC.Micro pc + n + 1.
Proof. intros H. rewrite next_micro; [cbn; lia|]. exact H. Qed.

Lemma read_cells_other rd i data (frame frame' : list W) r :
  read_cells rd i data frame = Ok frame' -> r ∉ data -> frame' !! r = frame !! r.
Proof.
  revert i frame. induction data as [|d data IH]; intros i frame; cbn; [by intros [= <-]|].
  intros H Hr. inv_ok. apply not_elem_of_cons in Hr as [Hne Hr]. rewrite (IH _ _ H Hr).
  eapply slice_set_other; [done|]. by intros ?%list_elem_of_singleton.
Qed.

Lemma Read_other (m : Memory W) (frame frame' : list W) address data r :
  Memory.Read m frame address data = Ok frame' -> r ∉ data -> frame' !! r = frame !! r.
Proof.
  destruct m; cbn; try done; unfold StaticArray_Read, RandomAccess_Read, BiPartite_Read;
    destruct (FrameDecode _ _ _) as [[start stop]|]; cbn; try done; [..|destruct (start <? HALF_START)%Z];
    apply read_cells_other.
Qed.

(** Every micro-step follows an arc of its instruction. *)
Lemma micro_step_arc pre p fr p' fr' insn width regs :
  executor p = ex -> micro_step pre p fr p' fr' -> fetch (modules p) fr = Some (insn, width, regs) -> shaped insn ->
  macro fr' = macro fr -> micro fr' <> 0 ->
  identity fr' = identity fr /\
  exists ws, (micro fr', ws) ∈ arcs (micro fr) insn /\
    forall r, r ∉ ws -> Frame.registers fr' !! r = Frame.registers fr !! r.
Proof.
  intros Hex Hms Hf Hsh Hmac Hmic. destruct Hms as [Hc Hst Hc'|p1 p2 id args rets w rs callee insn' w' rs' Hc Hf' H1 Hw Hcl Hd Hf2 Hop H2 Hc'].
  2: { rewrite Hf in Hf'. injection Hf' as -> -> ->.
       destruct (call_bracket _ _ _ _ _ _ _ _ _ _ _ _ _ _ _ Hc Hf H1 Hw Hcl Hd Hf2 Hop H2)
         as (fr'' & Hc'' & Hid & Hpc & _ & _ & Hother).
       rewrite Hc' in Hc''. apply app_inj_tail in Hc'' as [_ <-]. split; [done|]. exists rets. split; [|done].
       rewrite Hpc in Hmac |- *. rewrite (next_micro _ _ Hmac). cbn. rewrite Nat.add_1_r. by left. }
  assert (Hlen : length (callstack p') = length (callstack p)) by (by rewrite Hc, Hc', !length_app).
  destruct Hst as [pre0 fr0 w rs id args rets f vs Hc0|fr0 i0 w rs Hc0
    |pre0 caller callee i0 w rs i1 w1 rs1 Hc0|pre0 fr0 w rs t Hc0 Hf0|pre0 fr0 w rs n Hc0 Hf0
    |pre0 fr0 w rs c l r n taken Hc0 Hf0|pre0 fr0 w rs chunks msg Hc0 Hf0
    |pre0 fr0 w rs id address data m frame' Hc0 Hf0 Hm Hrd|pre0 fr0 w rs id address data m m' Hc0 Hf0
    |pre0 fr0 i0 w rs frame' Hc0 Hf0 Hs Hx]; cbn in Hc', Hlen; rewrite Hc0 in Hlen;
    try (rewrite !length_app in Hlen; cbn in Hlen; lia); try done.
  all: rewrite Hc in Hc0; apply app_inj_tail in Hc0 as [<- <-]; apply app_inj_tail in Hc' as [_ <-];
    rewrite Hf in Hf0; injection Hf0 as -> -> ->; (split; [done|]).
  all: cbn [Frame.pc Frame.Goto advance Frame.registers Frame.with_registers] in *.
  - done.
  - exists []. split; [|done]. rewrite (next_skip_micro _ _ _ Hmac). by left.
  - exists []. split; [|done]. destruct taken.
    + rewrite (next_skip_micro _ _ _ Hmac). by left.
    + rewrite (next_micro _ _ Hmac). right. cbn. rewrite Nat.add_1_r. by left.
  - exists []. split; [|done]. rewrite (next_micro _ _ Hmac). cbn. rewrite Nat.add_1_r. by left.
  - exists data. split; [|intros r; by eapply Read_other].
    rewrite (next_micro _ _ Hmac). cbn. rewrite Nat.add_1_r. by left.
  - exists []. split; [|done]. rewrite (next_micro _ _ Hmac). cbn. rewrite Nat.add_1_r. by left.
  - exists (Definitions i0). rewrite Hex in Hx. split; [|intros r; by apply (executor_writes i0 _ rs)].
    rewrite (next_micro _ _ Hmac). rewrite <-Nat.add_1_r.
    destruct i0 as [op ? ? ?|op ?|?|? ? ? ?|?|?|op ? ? ?|? ? ?|? ?]; cbn in Hs; try done; try destruct op; try done; try by left.
    all: cbn; by destruct (_ =? MaxUint)%Z; left.
Qed.

Lemma micro_step_same pre p fr p' fr' :
  micro_step pre p fr p' fr' -> Forall2 same_module (modules p) (modules p') /\ executor p' = executor p /\
    callstack p = pre ++ [fr] /\ callstack p' = pre ++ [fr'].
Proof.
  intros [Hc Hst Hc'|p1 p2 id args rets w rs callee insn' w' rs' Hc Hf' H1 Hw Hcl Hd Hf2 Hop H2 Hc'].
  - split; [by apply step_modules|]. split; [by apply step_executor | done].
  - destruct (within_same _ _ _ Hw) as [Hs He]. split; [|split; [|done]].
    + etrans; [by apply step_modules|]. etrans; [done | by apply step_modules].
    + rewrite (step_executor _ _ H2), He. by apply step_executor.
Qed.

(** A run of the machine inside a vector follows a path of the vector, and changes
    only registers written on the path. *)
Lemma run_path pre codes p0 fr0 p fr :
  codes <> [] -> Forall shaped codes -> micro_run pre codes p0 fr0 p fr ->
  executor p = ex /\ callstack p = pre ++ [fr] /\ vector_of (modules p) fr = Some codes /\ identity fr = identity fr0 /\
  exists ws, path codes (micro fr) ws /\ forall r, r ∉ ws -> Frame.registers fr !! r = Frame.registers fr0 !! r.
Proof.
  intros Hne Hsh. induction 1 as [p fr Hex Hc Hv Hm|p0 fr0 p fr p' fr' Hrun IH Hms Hmac Hmic].
  { split; [done|]. split; [done|]. split; [done|]. split; [done|]. exists []. split; [|done].
    rewrite Hm. apply path_root. split; [destruct codes; [done|cbn; lia] | by left]. }
  destruct IH as (Hex & Hc & Hv & Hid & ws & Hp & Hother).
  destruct (micro_step_same _ _ _ _ _ Hms) as (Hs & He & _ & Hc').
  assert (exists insn width regs, fetch (modules p) fr = Some (insn, width, regs)) as (insn & width & regs & Hf).
  { destruct Hms as [_ Hst _|? ? ? ? ? ? ? ? ? ? ? _ Hf]; [|by eexists _, _, _].
    apply step_execute in Hst. unfold execute in Hst.
    destruct (decode p) as [[[insn width] regs]|] eqn:Hd; [|done]. apply (decode_fetch p pre fr Hc) in Hd. by eexists _, _, _. }
  destruct (fetch_vector _ _ _ _ _ _ Hf Hv) as [Hcode _].
  destruct (micro_step_arc _ _ _ _ _ _ _ _ Hex Hms Hf (proj1 (Forall_lookup _ _) Hsh _ _ Hcode) Hmac Hmic)
    as (Hid' & ws' & Harc & Hother').
  split; [congruence|]. split; [done|]. split; [|split; [congruence|]].
  - rewrite (same_vector _ _ fr fr' Hs); [done| |done]. by injection Hid'.
  - exists (ws ++ ws'). split; [by eapply path_arc|]. intros r [Hr Hr']%not_elem_of_app.
    rewrite (Hother' r Hr'). by apply Hother.
Qed.

End MachinePaths.

(** ** The branch table *)

#[export] Instance BranchId_CmpLaws : CmpLaws BranchId.t.
Proof.
  split; unfold Cmp, BranchId.t_Comparable.
  - intros [i w f] [j v g]. cbn. destruct f, g; cbn; try done;
      (destruct (Cmp i j) eqn:Hc; [apply Cmp_eq in Hc as ->; rewrite Cmp_eq; split; congruence | |];
       (split; [done|]; intros [= -> ->]; by rewrite (proj2 (Cmp_eq j j) eq_refl) in Hc)).
  - intros [i w f] [j v g]. cbn. destruct f, g; cbn; try done;
      rewrite (Cmp_anti i j), (Cmp_anti w v); by destruct (Cmp i j).
  - intros [i w f] [j v g] [k u h]. cbn. destruct f, g, h; cbn; try done;
      destruct (Cmp i j) eqn:Hij, (Cmp j k) eqn:Hjk; try done; intros H1 H2;
      rewrite ?Cmp_eq in *; subst; rewrite ?Hij, ?Hjk, ?(Cmp_trans _ _ _ Hij Hjk), ?(proj2 (Cmp_eq _ _) eq_refl); try done;
      by eapply Cmp_trans.
Qed.

#[export] Existing Instances EqualityFacts.t_CmpLaws EqualityFacts.Equality_laws.

Section BranchFacts.
Context {W : Type} `{!Word W}.
Implicit Types (e : BranchId.t -> Z) (code : Instruction W) (codes : Vector W) (b : Branch.t) (st : Writes.t).

Definition branch_ok b : Prop := prop_ok (Branch.condition b).

(** The condition holds of the values [e]. *)
Definition branch_holds e b : bool := eval e (Branch.condition b).

(** The rounds given to the simplifications *)
Abbreviation rounds := (rounds (A:=Branch.Equality) (Env:=BranchId.t -> Z)).

Lemma Branch_Join_spec x y :
  branch_ok x -> branch_ok y ->
  exists z, Branch.Join x y = Ok z /\ branch_ok z /\ forall e, branch_holds e z = branch_holds e x || branch_holds e y.
Proof.
  intros Hx Hy. destruct (Or_spec (Env:=BranchId.t -> Z) _ _ Hx Hy) as (r & Hr & Hok & He).
  exists (Branch.mk r). unfold Branch.Join. rewrite Hr. done.
Qed.

Lemma branch_joined : joined branch_ok.
Proof.
  intros x y z Hj Hx Hy. destruct (Branch_Join_spec x y Hx Hy) as (z' & Hz & Hok & _). cbn in Hj. congruence.
Qed.

Lemma branch_upward e : upward branch_ok (fun b => branch_holds e b = true).
Proof.
  intros x y z Hx Hy Hj Hor. destruct (Branch_Join_spec x y Hx Hy) as (z' & Hz & _ & He). cbn in Hj.
  rewrite Hz in Hj. injection Hj as <-. rewrite He, orb_true_iff. done.
Qed.

(** How the table names the value of a register: before or after its write *)
Definition branch_id st (r : nat) : BranchId.t := BranchId.mk r 1 (Writes.MaybeAssigned st r).

(** Whether the values [e] make the machine skip *)
Definition skips e st (cond : Condition) (l r : nat) : bool :=
  if (cond =? EQ)%Z then (e (branch_id st l) =? e (branch_id st r))%Z
  else negb (e (branch_id st l) =? e (branch_id st r))%Z.

Lemma NewBranchId_spec st r :
  BranchId.NewBranchId (Writes.MayAnybeAssigned st [r]) [r] = Ok (branch_id st r).
Proof. unfold BranchId.NewBranchId. cbn. by rewrite Nat.eqb_refl, orb_false_r. Qed.

Lemma extendSkipIf_spec tail sign cond l r st b :
  branch_ok tail -> extendSkipIf rounds tail sign cond l r st = Ok b ->
  (cond = EQ \/ cond = NEQ) /\ branch_ok b /\
  forall e, branch_holds e tail = true -> skips e st cond l r = sign -> branch_holds e b = true.
Proof.
  intros Hok. unfold extendSkipIf, skips. rewrite !NewBranchId_spec. cbn [mbind result_bind].
  set (head := fun v : bool => if v then Equality.Equals (branch_id st l) (branch_id st r)
                        else Equality.NotEquals (branch_id st l) (branch_id st r)).
  assert (Hhead : forall v, Logical.atom_ok (Env:=BranchId.t -> Z) (head v)).
  { intros v. destruct (EqualityFacts.Equals_ok (branch_id st l) (branch_id st r)). by destruct v. }
  assert (Hholds : forall e v, Logical.holds e (head v) = eqb v (e (branch_id st l) =? e (branch_id st r))%Z).
  { intros e v. destruct v; cbn; [rewrite EqualityFacts.Equals_holds | rewrite EqualityFacts.NotEquals_holds]; by destruct (_ =? _)%Z. }
  assert (Hext : forall v, (if IsTrue (Branch.condition tail) then Ok (Branch.mk (NewProposition (head v)))
      else Branch.mk <$> And rounds zero_equality (Branch.condition tail) (NewProposition (head v))) = Ok b ->
      branch_ok b /\ forall e, branch_holds e tail = true -> (e (branch_id st l) =? e (branch_id st r))%Z = v -> branch_holds e b = true).
  { intros v. destruct (NewProposition_spec (Env:=BranchId.t -> Z) _ (Hhead v)) as [Hn He].
    destruct (IsTrue (Branch.condition tail)).
    - intros [= <-]. split; [done|]. intros e _ Hv. unfold branch_holds. cbn. rewrite He, Hholds, Hv. by destruct v.
    - destruct (And_spec zero_equality _ _ Hok Hn) as (c & Hc & Hcok & Hce). rewrite Hc. intros [= <-].
      split; [done|]. intros e Ht Hv. apply Hce. fold (branch_holds e tail). rewrite Ht, He, Hholds, Hv. by destruct v. }
  destruct (cond =? EQ)%Z eqn:Heq; [|destruct (cond =? NEQ)%Z eqn:Hne; [|done]]; cbn [mbind result_bind]; intros Hb;
    destruct (Hext _ Hb) as [Hbok Hbe]; (split; [lia|]); (split; [done|]); intros e Ht Hs; apply Hbe; try done;
    rewrite <-Hs; by rewrite negb_involutive.
Qed.

Lemma branch_forward writeMap i code b tfrs tfr :
  branchTableTransfer rounds writeMap i code b = Ok tfrs -> tfr ∈ tfrs -> i < target tfr.
Proof.
  unfold branchTableTransfer. intros H Hin. apply bind_ok in H as (st & _ & H).
  assert (Hl : forall l, Ok l = Ok tfrs -> Forall (fun x => i < target x) l -> i < target tfr).
  { intros l [= ->] Hf. by eapply Forall_forall in Hf. }
  destruct code; try (apply (Hl _ H); repeat constructor; cbn; lia).
  apply bind_ok in H as (t & _ & H). apply bind_ok in H as (f & _ & H).
  apply (Hl _ H); repeat constructor; cbn; lia.
Qed.

Lemma branch_keeps_ok writeMap i code b tfrs tfr :
  branch_ok b -> branchTableTransfer rounds writeMap i code b = Ok tfrs -> tfr ∈ tfrs -> branch_ok (state tfr).
Proof.
  unfold branchTableTransfer. intros Hb H Hin. apply bind_ok in H as (st & _ & H).
  assert (Hl : forall l, Ok l = Ok tfrs -> Forall (fun x => branch_ok (state x)) l -> branch_ok (state tfr)).
  { intros l [= ->] Hf. by eapply Forall_forall in Hf. }
  destruct code; try (apply (Hl _ H); by constructor; [|constructor]); try (by apply (Hl _ H)).
  apply bind_ok in H as (t & Ht & H). apply bind_ok in H as (f & Hf & H).
  apply extendSkipIf_spec in Ht as (_ & Ht & _); [|done]. apply extendSkipIf_spec in Hf as (_ & Hf & _); [|done].
  apply (Hl _ H). by constructor; [|constructor; [|constructor]].
Qed.

(** [feasible e writeMap codes i]: with the values [e], control reaches [i]. *)
Inductive feasible e (writeMap : list (option Writes.t)) codes : nat -> Prop :=
  | feasible_start : feasible e writeMap codes 0
  | feasible_arc i code st arc :
      feasible e writeMap codes i -> codes !! i = Some code -> StateOf writeMap i = Ok st -> arc ∈ arcs i code ->
      match code with
      | SkipIf cond l r n => arc.1 = if skips e st cond l r then i + n + 1 else i + 1
      | _ => True
      end ->
      feasible e writeMap codes arc.1.

End BranchFacts.

Section BranchSound.
Context {W : Type} `{!Word W}.
Implicit Types (e : BranchId.t -> Z) (code : Instruction W) (codes : Vector W) (b : Branch.t) (st : Writes.t).

Abbreviation rounds := (rounds (A:=Branch.Equality) (Env:=BranchId.t -> Z)).

Lemma Truth_ok v : branch_ok (Branch.mk (Truth v)).
Proof. destruct v; [by left | by right; left]. Qed.

(** Each arc of the vector is in the branch table, under the right condition. *)
Lemma branch_transfer_arc e writeMap i code st b tfrs arc :
  shaped code -> branch_ok b -> StateOf writeMap i = Ok st -> branchTableTransfer rounds writeMap i code b = Ok tfrs ->
  arc ∈ arcs i code ->
  match code with
  | SkipIf cond l r n => arc.1 = if skips e st cond l r then i + n + 1 else i + 1
  | _ => True
  end ->
  branch_holds e b = true ->
  exists tfr, tfr ∈ tfrs /\ target tfr = arc.1 /\ branch_holds e (state tfr) = true.
Proof.
  intros Hs Hb Hst Ht Ha Hc He. unfold branchTableTransfer in Ht. rewrite Hst in Ht. cbn [mbind result_bind] in Ht.
  assert (Hone : forall t, Ok [NewTransfer b t] = Ok tfrs -> t = arc.1 ->
    exists tfr, tfr ∈ tfrs /\ target tfr = arc.1 /\ branch_holds e (state tfr) = true).
  { intros t [= <-] Hta. eexists. split; [by left|]. done. }
  destruct code as [op id a r|op n|n|c l r n|chs|chs|op t s c|t s w|ts s]; cbn [shaped] in Hs.
  - apply (Hone _ Ht). destruct Hs as [->|[->| ->]]; cbn in Ha; apply list_elem_of_singleton in Ha as ->; done.
  - destruct Hs as [-> | ->]; by apply elem_of_nil in Ha.
  - apply (Hone _ Ht). cbn in Ha. by apply list_elem_of_singleton in Ha as ->.
  - apply bind_ok in Ht as (bt & Ht & H). apply bind_ok in H as (bf & Hf & [= <-]).
    apply extendSkipIf_spec in Ht as (_ & _ & Ht); [|done]. apply extendSkipIf_spec in Hf as (_ & _ & Hf); [|done].
    rewrite Hc. destruct (skips e st c l r) eqn:Hsk.
    + eexists. split; [by left|]. split; [done|]. by apply Ht.
    + eexists. split; [by right; left|]. split; [done|]. by apply Hf.
  - by apply elem_of_nil in Ha.
  - apply (Hone _ Ht). cbn in Ha. by apply list_elem_of_singleton in Ha as ->.
  - apply (Hone _ Ht). unfold arcs in Ha. cbn [OpCode_of] in Ha.
    destruct op; try (by destruct Hs as (?&?&?&?&?)); by apply list_elem_of_singleton in Ha as ->.
  - apply (Hone _ Ht). unfold arcs in Ha. cbn [OpCode_of] in Ha.
    destruct (w =? MaxUint)%Z; by apply list_elem_of_singleton in Ha as ->.
  - apply (Hone _ Ht). cbn in Ha. by apply list_elem_of_singleton in Ha as ->.
Qed.

Lemma branch_empty : branch_ok empty_state.
Proof. by left. Qed.

Lemma BranchTable_start writeMap table codes :
  BranchTable rounds codes = Ok (writeMap, table) ->
  WriteMap codes = Ok writeMap /\
  StateOf table 0 = Ok (Branch.mk Branch.TRUE) /\
  (forall i b, StateOf table i = Ok b -> branch_ok b) /\
  forall k code, codes !! k = Some code ->
    exists b tfrs, StateOf table k = Ok b /\ branchTableTransfer rounds writeMap k code b = Ok tfrs /\
      forall Q tfr, upward branch_ok Q -> tfr ∈ tfrs -> Q (state tfr) ->
        exists t, StateOf table (target tfr) = Ok t /\ Q t.
Proof.
  intros Ht. unfold BranchTable in Ht. apply bind_ok in Ht as (w & Hw & Ht).
  apply bind_ok in Ht as (t & Ht & [= -> ->]). split; [done|]. unfold Construct in Ht.
  destruct codes as [|c0 codes0] eqn:Hcodes; [done|]. rewrite <-Hcodes in *.
  set (p0 := Some (Branch.mk Branch.TRUE) :: replicate (length codes - 1) None) in Ht.
  assert (Hp0 : states_ok branch_ok p0).
  { intros [|j] b; cbn; [intros [= <-]; apply (Truth_ok true)|]. intros Hr%lookup_replicate. by destruct Hr. }
  split; [|split].
  - unfold StateOf, slice_get. by rewrite (loop_keeps _ (branch_forward writeMap) _ _ _ _ 0 Ht) by lia.
  - intros i b. apply (StateOf_ok _ branch_empty).
    exact (loop_states _ branch_ok branch_joined branch_empty (branch_keeps_ok writeMap) _ _ _ _ Hp0 Ht).
  - intros k code Hk.
    destruct (loop_visit _ branch_ok branch_joined (branch_forward writeMap) branch_empty (branch_keeps_ok writeMap)
      _ _ _ _ k code Hp0 Ht Hk) as (b & tfrs & Hs & Htr & _ & HQ).
    exists b, tfrs. split; [done|]. split; [done|]. intros Q tfr HQu Hin Hq.
    destruct (HQ Q tfr HQu Hin Hq) as (t & Hres & Hqt). exists t. split; [|done].
    unfold StateOf. by rewrite (proj2 (slice_get_ok _ _ _) Hres).
Qed.

(** What is feasible satisfies its condition. *)
Lemma branch_sound e writeMap table codes i :
  Forall shaped codes -> BranchTable rounds codes = Ok (writeMap, table) -> feasible e writeMap codes i ->
  exists b, StateOf table i = Ok b /\ branch_holds e b = true.
Proof.
  intros Hsh Ht Hf. destruct (BranchTable_start _ _ _ Ht) as (_ & H0 & Hok & Hvisit).
  induction Hf as [|i code st arc Hf IH Hcode Hst Harc Hcond].
  - by eexists.
  - destruct IH as (b & Hb & Hbe). destruct (Hvisit i code Hcode) as (s & tfrs & Hs & Htr & HQ).
    rewrite Hb in Hs. injection Hs as <-.
    destruct (branch_transfer_arc e _ _ _ _ _ _ _ (proj1 (Forall_lookup _ _) Hsh _ _ Hcode) (Hok _ _ Hb) Hst Htr Harc Hcond Hbe)
      as (tfr & Hin & Htgt & Hhold).
    rewrite <-Htgt. exact (HQ _ tfr (branch_upward e) Hin Hhold).
Qed.

(** Every conditional skip of a vector with a branch table is an equality. *)
Lemma BranchTable_conditions writeMap table codes i cond l r n :
  BranchTable rounds codes = Ok (writeMap, table) -> codes !! i = Some (SkipIf cond l r n) -> cond = EQ \/ cond = NEQ.
Proof.
  intros Ht Hi. destruct (BranchTable_start _ _ _ Ht) as (_ & _ & Hok & Hvisit).
  destruct (Hvisit i _ Hi) as (b & tfrs & Hs & Htr & _).
  unfold branchTableTransfer in Htr. apply bind_ok in Htr as (st & _ & Htr). apply bind_ok in Htr as (bt & Htr & _).
  apply extendSkipIf_spec in Htr as (? & _); [done|]. by apply (Hok i).
Qed.

End BranchSound.

(** ** Validation *)

Section ValidationFacts.
Context {W : Type} `{!Word W}.
Implicit Types (code : Instruction W) (codes : Vector W) (st : Writes.t).

(** The write map is exact. *)
Lemma WriteMap_exact codes writeMap i st :
  Forall shaped codes -> WriteMap codes = Ok writeMap -> StateOf writeMap i = Ok st ->
  (exists ws, path codes i ws) /\
  (forall r, Writes.MaybeAssigned st r = true <-> exists ws, path codes i ws /\ r ∈ ws) /\
  (forall r, Writes.DefinitelyAssigned st r = true <-> forall ws, path codes i ws -> r ∈ ws).
Proof.
  intros Hsh Hw Hst. destruct (WriteMap_explained _ _ _ _ Hsh Hw Hst) as (_ & Hex & Hmay & Hdef & _).
  assert (Hsound : forall ws, path codes i ws -> (forall r, r ∈ ws -> Writes.MaybeAssigned st r = true) /\
    (forall r, r ∉ ws -> Writes.DefinitelyAssigned st r = false)).
  { intros ws Hp. destruct (WriteMap_sound _ _ _ _ Hsh Hw Hp) as (st' & Hst' & _ & H). rewrite Hst in Hst'.
    by injection Hst' as <-. }
  split; [done|]. split; intros r; split.
  - apply Hmay.
  - intros (ws & Hp & Hr). by apply (Hsound ws Hp).
  - intros Hd ws Hp. destruct (decide (r ∈ ws)) as [|Hr]; [done|].
    pose proof (proj2 (Hsound ws Hp) r Hr). congruence.
  - intros Hall. destruct (Writes.DefinitelyAssigned st r) eqn:Hd; [done|].
    destruct (Hdef r Hd) as (ws & Hp & Hr). by destruct (Hr (Hall ws Hp)).
Qed.

Lemma no_conflict (f : nat -> bool) (g : nat -> validation_error) (regs : list Register.t) l :
  foldr (fun r rest => if f r then _ ← slice_get regs r; es ← rest; Ok (g r :: es) else rest) (Ok []) l = Ok [] <->
  forall r, r ∈ l -> f r = false.
Proof.
  induction l as [|r l IH]; cbn; [split; [by intros _ ? ?%elem_of_nil | done]|]. split.
  - intros H. destruct (f r) eqn:Hf; [by inv_ok|]. intros x [->|Hx]%elem_of_cons; [done|]. by apply IH.
  - intros H. rewrite (H r) by left. apply IH. intros x Hx. apply H. by right.
Qed.

(** A micro-instruction without conflicts *)
Definition compatible st code : Prop :=
  (forall r, r ∈ Uses code -> Writes.MaybeAssigned st r = true -> Writes.DefinitelyAssigned st r = true) /\
  (forall r, r ∈ Definitions code -> Writes.MaybeAssigned st r = false).

Lemma no_read_write_conflicts regs st i code :
  read_conflicts regs st i code = Ok [] /\ write_conflicts regs st i code = Ok [] <-> compatible st code.
Proof.
  unfold read_conflicts, write_conflicts, compatible. rewrite !no_conflict. split; intros [Hr Hw]; (split; [|done]); intros r Hin.
  - intros Hm. specialize (Hr r Hin). rewrite Hm in Hr. by destruct (Writes.DefinitelyAssigned st r).
  - specialize (Hr r Hin). destruct (Writes.MaybeAssigned st r); [|done]. by rewrite Hr.
Qed.

Lemma no_conflicts regs writeMap i codes :
  conflicts regs writeMap i codes = Ok [] <->
  forall k code, codes !! k = Some code -> exists st, StateOf writeMap (i + k) = Ok st /\ compatible st code.
Proof.
  revert i. induction codes as [|c codes IH]; intros i; [done|]. cbn [conflicts]. split.
  - intros H k code Hk. inv_ok. apply app_eq_nil in H as [-> [-> ->]%app_eq_nil].
    destruct k as [|k].
    + injection Hk as ->. exists a. rewrite Nat.add_0_r. split; [done|]. by eapply no_read_write_conflicts.
    + rewrite <-Nat.add_succ_comm. by eapply (proj1 (IH (S i))).
  - intros H. destruct (H 0 c eq_refl) as (st & Hst & Hc). rewrite Nat.add_0_r in Hst. rewrite Hst. cbn.
    destruct (proj2 (no_read_write_conflicts regs st i c) Hc) as [-> ->]. cbn.
    rewrite (proj2 (IH (S i))); [done|]. intros k code Hk. rewrite Nat.add_succ_comm. by apply (H (S k)).
Qed.

Lemma Validate_ok regs codes :
  Validate regs codes = Ok [] <->
  exists writeMap, WriteMap codes = Ok writeMap /\ micro_errors regs codes = Ok [] /\
    forall k code, codes !! k = Some code -> exists st, StateOf writeMap k = Ok st /\ compatible st code.
Proof.
  unfold Validate. split.
  - intros H. inv_ok. apply app_eq_nil in H as [-> ->]. exists a. split; [done|]. split; [done|].
    by apply (no_conflicts regs a 0 codes).
  - intros (w & -> & Hm & Hc). cbn. rewrite Hm. cbn. by rewrite (proj2 (no_conflicts regs w 0 codes) Hc).
Qed.

(** The discipline of a vector with respect to a notion of path: no register is
    written twice on a path, and a register that is read after a path may have written
    it was written on every path. *)
Definition disciplined (P : nat -> list nat -> Prop) codes : Prop :=
  forall i code ws, codes !! i = Some code -> P i ws ->
    (forall r, r ∈ Definitions code -> r ∉ ws) /\
    (forall r, r ∈ Uses code -> forall ws', P i ws' -> r ∈ ws' -> r ∈ ws).

(** What validation is for: the executions of the vector obey the discipline. *)
Definition single_assignment codes : Prop := disciplined (execution codes) codes.



(** A possible write stays possible along the arcs. *)
Lemma maybe_along_arcs codes writeMap i code st arc st' r :
  Forall shaped codes -> WriteMap codes = Ok writeMap -> codes !! i = Some code -> StateOf writeMap i = Ok st ->
  arc ∈ arcs i code -> StateOf writeMap (arc.1) = Ok st' ->
  Writes.MaybeAssigned st r = true -> Writes.MaybeAssigned st' r = true.
Proof.
  intros Hsh Hw Hc Hst Ha Hst' Hm.
  destruct (WriteMap_exact _ _ _ _ Hsh Hw Hst) as (_ & Hmay & _).
  destruct (WriteMap_exact _ _ _ _ Hsh Hw Hst') as (_ & Hmay' & _).
  apply Hmay in Hm as (ws & Hp & Hr). apply Hmay'. exists (ws ++ arc.2). split; [|apply elem_of_app; by left].
  eapply path_arc; [done|done|]. by destruct arc.
Qed.

End ValidationFacts.

(** ** The branch table and the machine *)

Section MachineBranches.
Context {W : Type} `{!Word W, !WordLaws W}.
Context (q : W) (Hq : word_ok q) (Hpos : (0 < w_BigInt q)%Z).
Implicit Types (p : Base W) (fr : Frame.t W) (pre : list (Frame.t W)) (codes : Vector W).

Abbreviation ex := (Executor.Execute q).
Abbreviation wt := (well_typed ex register_ok (fits q) (Executor.typed q)).
Abbreviation micro fr := (PC.Micro (Frame.pc fr)).
Abbreviation rounds := (rounds (A:=Branch.Equality) (Env:=BranchId.t -> Z)).

Definition value_of (frame : list W) (r : nat) : Z := match frame !! r with Some w => w_BigInt w | None => 0%Z end.

(** The values of the branch table during a run: those on entry to the vector, and
    for registers read after their write those of the current frame. *)
Definition run_values (start current : list W) (id : BranchId.t) : Z :=
  value_of (if BranchId.Forwarding id then current else start) (BranchId.Id id).

Lemma arc_writes i (insn : Instruction W) arc r : arc ∈ arcs i insn -> r ∈ arc.2 -> r ∈ Definitions insn.
Proof.
  unfold arcs. destruct insn as [op ? ? ?|op ?|n|? ? ? n|?|?|op ? ? ?|? ? w|? ?]; cbn [OpCode_of];
    try destruct op; try (destruct (w =? MaxUint)%Z);
    intros Ha Hr; repeat (apply elem_of_cons in Ha as [->|Ha]); try (by apply elem_of_nil in Ha); cbn in Hr;
    try done; by apply elem_of_nil in Hr.
Qed.

Lemma micro_step_skip pre p fr p' fr' cond l r n width regs :
  micro_step pre p fr p' fr' -> fetch (modules p) fr = Some (SkipIf cond l r n, width, regs) ->
  PC.Macro (Frame.pc fr') = PC.Macro (Frame.pc fr) ->
  exists taken, executeCondition (Frame.registers fr) cond l r = Ok taken /\
    micro fr' = if taken then micro fr + n + 1 else micro fr + 1.
Proof.
  intros [Hc Hst Hc'|p1 p2 id args rets w rs callee insn' w' rs' Hc Hf' H1 Hw Hcl Hd Hf2 Hop H2 Hc'] Hf Hmac;
    [|congruence].
  apply step_execute in Hst. unfold execute in Hst.
  rewrite (proj2 (decode_fetch p pre fr Hc _) Hf) in Hst.
  cbn [mbind result_bind] in Hst. unfold executeInstruction in Hst. rewrite Hc, top_lookup, top_index in Hst.
  cbn [mbind result_bind OpCode_of] in Hst.
  apply bind_ok in Hst as (taken & Ht & Hst). exists taken. split; [done|].
  rewrite (goto_at_top p pre fr _ Hc) in Hst. injection Hst as <-. cbn in Hc'.
  apply app_inj_tail in Hc' as [_ <-]. cbn in Hmac |- *. destruct taken.
  - by rewrite (next_skip_micro _ _ _ Hmac).
  - rewrite (next_micro _ _ Hmac). lia.
Qed.

Lemma within_typed d p p' : wt p -> within d p p' -> wt p'.
Proof using Hq Hpos.
  intros Hp Hw. pose proof (word_executor_typing q Hq Hpos). induction Hw as [|p p1 p2 _ Hst _ IH]; [done|].
  apply IH. by eapply step_typed.
Qed.

Lemma micro_step_typed pre p fr p' fr' : wt p -> micro_step pre p fr p' fr' -> wt p'.
Proof using Hq Hpos.
  pose proof (word_executor_typing q Hq Hpos).
  intros Hp [Hc Hst Hc'|p1 p2 id args rets w rs callee insn' w' rs' Hc Hf' H1 Hw Hcl Hd Hf2 Hop H2 Hc'].
  - by eapply step_typed.
  - assert (wt p1) by (by eapply step_typed). assert (wt p2) by (by eapply within_typed). by eapply step_typed.
Qed.

Lemma frame_words p pre fr r v : wt p -> callstack p = pre ++ [fr] -> Frame.registers fr !! r = Some v -> word_ok v.
Proof.
  intros Hp Hc Hr. destruct (frame_at _ _ _ _ p pre fr Hp Hc) as (f & _ & Hf & _).
  destruct (Forall2_lookup_r _ _ _ _ _ Hf Hr) as (reg & _ & Hv & _). done.
Qed.

(** A conditional skip compares the values that the table names. *)
Lemma condition_skips p pre fr e st cond l r taken :
  wt p -> callstack p = pre ++ [fr] -> cond = EQ \/ cond = NEQ ->
  (forall x, x = l \/ x = r -> e (branch_id st x) = value_of (Frame.registers fr) x) ->
  executeCondition (Frame.registers fr) cond l r = Ok taken -> taken = skips e st cond l r.
Proof.
  intros Hp Hc Hcond He Ht. unfold executeCondition in Ht.
  apply bind_ok in Ht as (x & Hx%slice_get_ok & Ht). apply bind_ok in Ht as (y & Hy%slice_get_ok & Ht).
  unfold skips. rewrite !He by auto. unfold value_of. rewrite Hx, Hy.
  pose proof (frame_words _ _ _ _ _ Hp Hc Hx) as Hxo. pose proof (frame_words _ _ _ _ _ Hp Hc Hy) as Hyo.
  rewrite (Cmp_law x y Hxo Hyo) in Ht.
  destruct Hcond as [-> | ->]; cbn in Ht |- *; injection Ht as <-;
    destruct (Z.compare_spec (w_BigInt x) (w_BigInt y)) as [->|?|?]; rewrite ?Z.eqb_refl; try done;
    symmetry; rewrite ?negb_true_iff; apply Z.eqb_neq; lia.
Qed.

Section Run.
Context (regs : list Register.t) (codes : Vector W) (writeMap : list (option Writes.t)) (table : list (option Branch.t)).
Context (Hne : codes <> []) (Hsh : Forall shaped codes) (Hvalid : Validate regs codes = Ok [])
  (Htable : BranchTable rounds codes = Ok (writeMap, table)).

(** [e] gives the values of a run that started with [start] and is now at [fr]. *)
Definition agrees (e : BranchId.t -> Z) (start : list W) fr : Prop :=
  (forall r, e (BranchId.mk r 1 false) = value_of start r) /\
  (forall st r, StateOf writeMap (micro fr) = Ok st -> Writes.MaybeAssigned st r = true ->
     e (BranchId.mk r 1 true) = value_of (Frame.registers fr) r).

Lemma run_feasible pre p0 fr0 p fr :
  wt p0 -> micro_run ex pre codes p0 fr0 p fr ->
  wt p /\ forall e, agrees e (Frame.registers fr0) fr -> feasible e writeMap codes (micro fr).
Proof using Hq Hpos Hne Hsh Hvalid Htable.
  intros Hp0 Hrun. destruct (BranchTable_start _ _ _ Htable) as (Hw & _).
  destruct (proj1 (Validate_ok _ _) Hvalid) as (w & Hw' & _ & Hcompat).
  rewrite Hw in Hw'. injection Hw' as <-.
  induction Hrun as [p fr Hex Hc Hv Hm|p0 fr0 p fr p' fr' Hrun IH Hms Hmac Hmic].
  { split; [done|]. intros e _. rewrite Hm. constructor. }
  destruct (IH Hp0) as [Hp Hfeas]. split; [by eapply micro_step_typed|]. intros e [He0 He1].
  destruct (run_path ex _ _ _ _ _ _ Hne Hsh Hrun) as (Hex & Hc & Hv & _ & ws & Hpath & Hsame).
  pose proof (word_executor_typing q Hq Hpos).
  destruct (fetch_top ex register_ok (fits q) (Executor.typed q) p pre fr Hp Hc) as (insn & width & rs & Hf).
  destruct (fetch_vector _ _ _ _ _ _ Hf Hv) as [Hcode _].
  destruct (Hcompat _ _ Hcode) as (st & Hst & _ & Hdefs).
  pose proof (proj1 (Forall_lookup _ _) Hsh _ _ Hcode) as Hs.
  destruct (micro_step_arc ex _ _ _ _ _ _ _ _ Hex Hms Hf Hs Hmac Hmic) as (_ & wr & Harc & Hother).
  destruct (WriteMap_exact _ _ _ _ Hsh Hw Hst) as (_ & Hmay & _).
  assert (Hat : forall r, Writes.MaybeAssigned st r = true -> e (BranchId.mk r 1 true) = value_of (Frame.registers fr) r).
  { intros r Hr.
    destruct (WriteMap_sound _ _ _ _ Hsh Hw (path_arc _ _ _ _ _ _ Hpath Hcode Harc)) as (st' & Hst' & _).
    rewrite (He1 st' r Hst'); [|by eapply (maybe_along_arcs _ _ _ _ _ (micro fr', wr))].
    unfold value_of. rewrite Hother; [done|]. intros Hin.
    rewrite (Hdefs r) in Hr; [done|]. by apply (arc_writes _ _ _ _ Harc). }
  apply (feasible_arc e writeMap codes (micro fr) insn st (micro fr', wr)); [|done|done|done|].
  { apply Hfeas. split; [done|]. intros st' r Hst' Hr. apply Hat. congruence. }
  destruct insn as [| | |cond l r n| | | | |]; try done. cbn [fst].
  destruct (micro_step_skip _ _ _ _ _ _ _ _ _ _ _ Hms Hf Hmac) as (taken & Ht & Hto). rewrite Hto.
  rewrite (condition_skips p pre fr e st cond l r taken Hp Hc); [done| | |done].
  - by eapply BranchTable_conditions.
  - intros x _. unfold branch_id. destruct (Writes.MaybeAssigned st x) eqn:Hx; [by apply Hat|].
    rewrite He0. unfold value_of. rewrite Hsame; [done|]. intros Hin.
    rewrite (proj2 (Hmay x)) in Hx; [done|]. by exists ws.
Qed.

End Run.
End MachineBranches.

(** ** Properties *)

Module DfaProperties.
Section Properties.
Context {W : Type} `{!Word W}.
Implicit Types (codes : Vector W).

(** C19: The write map describes the executions of the vector.  A register that some
    execution writes before it reaches a micro-instruction is one that the map says
    may be written there, and one that the map says is definitely written is written
    by every execution that gets there.  At a micro-instruction that only live code
    leads to, the map is exact: it lists no other registers as possibly written and
    leaves out none that are always written.  (Dead code that leads to a live
    instruction makes the map larger, see [dead_code_conflicts].) *)
Theorem write_map_exact codes writeMap i st :
  Forall shaped codes -> WriteMap codes = Ok writeMap -> StateOf writeMap i = Ok st ->
  (forall ws r, execution codes i ws ->
    (r ∈ ws -> Writes.MaybeAssigned st r = true) /\ (Writes.DefinitelyAssigned st r = true -> r ∈ ws)) /\
  ((forall j, leads codes j i -> live codes j) ->
    (forall r, Writes.MaybeAssigned st r = true <-> exists ws, execution codes i ws /\ r ∈ ws) /\
    (forall r, Writes.DefinitelyAssigned st r = true <-> forall ws, execution codes i ws -> r ∈ ws)).
Proof.
  intros Hsh Hw Hst. destruct (WriteMap_start _ _ Hw) as (Hne & _).
  destruct (WriteMap_exact _ _ _ _ Hsh Hw Hst) as (_ & Hmay & Hdef). split.
  - intros ws r Hex%(execution_path _ _ _ Hne). split; [intros Hr; apply Hmay; eauto|]. intros Hd. by apply (proj1 (Hdef r) Hd).
  - intros Hlive. assert (Hiff : forall ws, path codes i ws <-> execution codes i ws).
    { intros ws. split; [by apply live_path|by apply execution_path]. }
    split; intros r; [rewrite Hmay|rewrite Hdef]; by setoid_rewrite Hiff.
Qed.

(** C20: The write map is computed for exactly the non-empty vectors in which control
    never leaves the vector by falling through or skipping past its end; on the
    others the analysis, and so the validation of the vector, panics. *)
Theorem write_map_total codes (regs : list Register.t) :
  Forall shaped codes ->
  (is_ok (WriteMap codes) = true <->
   codes <> [] /\ forall i code arc, codes !! i = Some code -> arc ∈ arcs i code -> arc.1 < length codes) /\
  (is_ok (WriteMap codes) = false -> is_ok (Validate regs codes) = false).
Proof.
  intros Hsh. split; [by apply WriteMap_total|]. unfold Validate. by destruct (WriteMap codes).
Qed.

(** C17: The write map is right about the machine.  In a run inside a vector, whatever
    the path taken and the calls made, a register that may not have been written on
    entry to the current micro-instruction has the value it had when the vector was
    entered; this holds for every executor that changes only the registers an
    instruction defines. *)
Theorem write_map_machine (ex : Machine.Executor W) `{!ExecutorWrites ex} pre codes writeMap (p0 p : Base W)
  (fr0 fr : Frame.t W) st r :
  Forall shaped codes -> WriteMap codes = Ok writeMap -> micro_run ex pre codes p0 fr0 p fr ->
  StateOf writeMap (PC.Micro (Frame.pc fr)) = Ok st -> Writes.MaybeAssigned st r = false ->
  Frame.registers fr !! r = Frame.registers fr0 !! r.
Proof.
  intros Hsh Hw Hrun Hst Hr. destruct (WriteMap_start _ _ Hw) as (Hne & _).
  destruct (run_path ex _ _ _ _ _ _ Hne Hsh Hrun) as (_ & _ & _ & _ & ws & Hp & Hsame).
  apply Hsame. intros Hin. destruct (WriteMap_exact _ _ _ _ Hsh Hw Hst) as (_ & Hmay & _).
  rewrite (proj2 (Hmay r)) in Hr; [done|]. by exists ws.
Qed.


(** C16: The branch table is right about the machine.  In a run inside a valid vector,
    the condition of the current micro-instruction holds of the values compared: the
    value on entry to the vector of a register not yet written, and the current value
    of a register that may have been written. *)
Theorem branch_table_machine `{!WordLaws W} (q : W) regs pre codes writeMap table (p0 p : Base W) (fr0 fr : Frame.t W) :
  word_ok q -> (0 < w_BigInt q)%Z ->
  Forall shaped codes -> Validate regs codes = Ok [] ->
  BranchTable (rounds (A:=Branch.Equality) (Env:=BranchId.t -> Z)) codes = Ok (writeMap, table) ->
  well_typed (Executor.Execute q) register_ok (fits q) (Executor.typed q) p0 ->
  micro_run (Executor.Execute q) pre codes p0 fr0 p fr ->
  exists b, StateOf table (PC.Micro (Frame.pc fr)) = Ok b /\
    eval (run_values (Frame.registers fr0) (Frame.registers fr)) (Branch.condition b) = true.
Proof.
  intros Hq Hpos Hsh Hv Ht Hp0 Hrun.
  assert (Hne : codes <> []) by (intros ->; by apply (proj1 (Validate_ok _ _)) in Hv as (? & ? & _)).
  destruct (run_feasible q Hq Hpos regs codes writeMap table Hne Hsh Hv Ht pre p0 fr0 p fr Hp0 Hrun) as [_ Hf].
  apply (branch_sound _ writeMap table codes _ Hsh Ht). apply Hf. by split.
Qed.

End Properties.

(** *** Concrete vectors *)

(** The example of the documentation of [BranchTable]: registers 0 and 1 hold the
    constants zero and one, 2 is [x] and 3 is [y]. *)
Definition documented : Vector Uint.t :=
  [NewSkipIf NEQ 2 0 1; NewIntAdd 3 [] (0%Z : Uint.t); NewSkipIf NEQ 2 1 2; NewIntAdd 3 [] (1%Z : Uint.t); NewReturn;
   NewIntAdd 3 [] (2%Z : Uint.t); NewReturn].

(** Dead code between a skip and its target *)
Definition dead_code : Vector Uint.t :=
  [Skip 1; NewIntAdd 0 [] (1%Z : Uint.t); NewIntAdd 0 [] (2%Z : Uint.t); NewReturn].

Definition u8 (n : string) : Register.t := Register.NewComputed n 8 0.

(** The conditions of a branch table *)
Definition conditions (codes : Vector Uint.t) : result (list Branch.Condition) :=
  match BranchTable (rounds (A:=Branch.Equality) (Env:=BranchId.t -> Z)) codes with
  | Ok (_, table) => Ok ((fun b => Branch.condition (default empty_state b)) <$> table)
  | Fault f => Fault f
  end.

(** The branch table of the documented example has other conditions than the
    documentation, and the example is not a valid vector. *)
Definition x_is (k : nat) (sign : bool) : Branch.Equality :=
  Equality.mk sign (BranchId.mk k 1 false) (inl (BranchId.mk 2 1 false)).

(** In the documented example of [BranchTable] the first assignment falls
    through to the second test, so the table has the condition [x==1] for the second
    assignment and [x!=1] for the third, without [x!=0], and validation rejects both
    assignments as conflicting writes. *)
Theorem branch_table_documented :
  conditions documented =
    Ok [Branch.TRUE; [[x_is 0 true]]; Branch.TRUE; [[x_is 1 true]]; [[x_is 1 true]]; [[x_is 1 false]]; [[x_is 1 false]]] /\
  Validate [u8 "zero"; u8 "one"; u8 "x"; u8 "y"] documented = Ok [ConflictingWrite 3 3; ConflictingWrite 3 5].
Proof. split; vm_compute; reflexivity. Qed.

Lemma dead_code_executions i ws :
  execution dead_code i ws -> (i = 0 /\ ws = []) \/ (i = 2 /\ ws = []) \/ (i = 3 /\ ws = [0]).
Proof.
  induction 1 as [|i ws code j regs _ IH Hc Ha]; [by left|].
  destruct IH as [[-> ->]|[[-> ->]|[-> ->]]]; injection Hc as <-.
  - apply list_elem_of_singleton in Ha as [= -> ->]. auto.
  - apply list_elem_of_singleton in Ha as [= -> ->]. auto.
  - by apply elem_of_nil in Ha.
Qed.

Lemma dead_code_disciplined : single_assignment dead_code.
Proof.
  intros i code ws Hc [[-> ->]|[[-> ->]|[-> ->]]]%dead_code_executions; injection Hc as <-; cbn;
    (split; intros r Hr; [try apply not_elem_of_nil; by apply elem_of_nil in Hr|by apply elem_of_nil in Hr]).
Qed.

(** The analyses count dead code as reachable.  In a vector that skips over a
    write of a register and then writes it, no execution reaches the dead write and
    every execution obeys the discipline, yet the condition of the dead write in the
    branch table is true and validation reports a conflict. *)
Theorem dead_code_conflicts :
  (forall e writeMap, WriteMap dead_code = Ok writeMap -> ~ feasible e writeMap dead_code 1) /\
  single_assignment dead_code /\
  conditions dead_code = Ok [Branch.TRUE; Branch.TRUE; Branch.TRUE; Branch.TRUE] /\
  Validate [u8 "a"] dead_code = Ok [ConflictingWrite 0 2].
Proof.
  split; [|split; [apply dead_code_disciplined|split; vm_compute; reflexivity]]. intros e w _ Hf.
  assert (Hgen : forall j, feasible e w dead_code j -> j <> 1); [|by apply (Hgen 1)].
  clear Hf. intros j Hf. destruct Hf as [|i code st arc Hf Hc _ Ha _]; [done|].
  destruct i as [|i]; [injection Hc as <-; apply list_elem_of_singleton in Ha as ->; done|].
  apply arcs_forward in Ha. lia.
Qed.

(** *** A run of the machine of [MachineProperties] through the last vector of [main] *)

Import MachineProperties.

Definition guard : Vector Uint.t := [NewSkipIf EQ 0 1 1; NewFail []; NewReturn].

Definition at_guard (micro : nat) : Frame.t Uint.t := Frame.mk 0 (PC.mk 3 micro) 0 [42%Z; 42%Z] [].

Definition guard_writes : list (option Writes.t) := match WriteMap guard with Ok w => w | _ => [] end.

Definition guard_table : list (option Branch.t) :=
  match BranchTable (rounds (A:=Branch.Equality) (Env:=BranchId.t -> Z)) guard with Ok (_, t) => t | _ => [] end.

Lemma guard_shaped : Forall shaped guard.
Proof. by repeat constructor. Qed.

Lemma guard_typed : well_typed (Executor.Execute (251%Z : Uint.t)) register_ok (fits (251%Z : Uint.t))
  (Executor.typed (251%Z : Uint.t)) (state_at 6).
Proof.
  assert (Hpos : (0 < w_BigInt (251%Z : Uint.t))%Z) by (cbn; unfold Uint.BigInt; lia).
  assert (Hq : word_ok (251%Z : Uint.t)) by (cbn; lia).
  pose proof (word_executor_typing (251%Z : Uint.t) Hq Hpos) as Hex.
  pose proof (proj1 SafetyProperties.sample_typed) as Hwt.
  assert (Hall : forall k, k <= 6 -> well_typed (Executor.Execute (251%Z : Uint.t)) register_ok (fits (251%Z : Uint.t))
    (Executor.typed (251%Z : Uint.t)) (state_at k)); [|by apply Hall].
  intros k. induction k as [|k IH]; [done|]. intros Hk. assert (Hs : is_ok (execute (state_at k)) = true).
  { do 6 (destruct k as [|k]; [vm_compute; reflexivity|]). lia. }
  apply next_ok, execute_step in Hs. eapply step_typed; [exact Hex|apply IH; lia|exact Hs].
Qed.

Lemma guard_run : micro_run (Executor.Execute (251%Z : Uint.t)) [] guard (state_at 6) (at_guard 0) (state_at 7) (at_guard 2).
Proof.
  apply run_step with (state_at 6) (at_guard 0); [|  |done|done].
  { apply run_start; [apply (wt_executor _ _ _ _ _ guard_typed)|vm_compute; reflexivity..]. }
  apply micro_local; [vm_compute; reflexivity| |vm_compute; reflexivity].
  apply execute_step, next_ok. vm_compute. reflexivity.
Qed.

Lemma guard_live i : i < length guard -> live guard i.
Proof.
  intros Hi. exists []. destruct i as [|[|[|i]]]; [apply execution_start| | |cbn in Hi; lia].
  - apply (execution_arc guard 0 [] (NewSkipIf EQ 0 1 1) 1 []); [apply execution_start|done|by right; left].
  - apply (execution_arc guard 0 [] (NewSkipIf EQ 0 1 1) 2 []); [apply execution_start|done|by left].
Qed.

Lemma write_map_exact_witness : exists st, StateOf guard_writes 2 = Ok st /\
  (forall r, Writes.MaybeAssigned st r = true <-> exists ws, execution guard 2 ws /\ r ∈ ws).
Proof.
  eexists. split; [vm_compute; reflexivity|].
  apply (write_map_exact guard guard_writes 2); [apply guard_shaped|vm_compute; reflexivity|vm_compute; reflexivity|].
  intros j Hj. apply guard_live. apply leads_le in Hj. cbn. lia.
Defined.

Lemma write_map_total_witness : is_ok (Validate [u8 "a"] [NewIntAdd 0 [] (1%Z : Uint.t)]) = false.
Proof.
  apply (write_map_total [NewIntAdd 0 [] (1%Z : Uint.t)] [u8 "a"]); [|vm_compute; reflexivity].
  repeat constructor; done.
Defined.

Lemma write_map_machine_witness :
  Frame.registers (at_guard 2) !! 0 = Frame.registers (at_guard 0) !! 0.
Proof.
  apply (write_map_machine (Executor.Execute (251%Z : Uint.t)) [] guard guard_writes (state_at 6) (state_at 7)
    (at_guard 0) (at_guard 2) Writes.empty 0).
  - apply guard_shaped.
  - vm_compute. reflexivity.
  - apply guard_run.
  - vm_compute. reflexivity.
  - reflexivity.
Defined.


Lemma branch_table_machine_witness : exists b, StateOf guard_table 2 = Ok b /\
  eval (run_values [42%Z : Uint.t; 42%Z] [42%Z : Uint.t; 42%Z]) (Branch.condition b) = true.
Proof.
  apply (branch_table_machine (251%Z : Uint.t) [u8 "a"; u8 "b"] [] guard guard_writes guard_table (state_at 6) (state_at 7)
    (at_guard 0) (at_guard 2)).
  - cbn. lia.
  - cbn. unfold Uint.BigInt. lia.
  - apply guard_shaped.
  - vm_compute. reflexivity.
  - vm_compute. reflexivity.
  - apply guard_typed.
  - apply guard_run.
Defined.

End DfaProperties.
