(* ===== verification/Element.v ===== *)
(** * The field interface

    Models [pkg/util/field/element.go] and the generic helpers of
    [pkg/util/field/util.go].  [Element] is the interface that the trace, the
    terms and the constraints use; [ElementLaws] is what they rely on: an element
    stands for an integer below a prime.  The Montgomery fields of
    [FieldElement.v] are instances. *)

From Stdlib Require Import ZArith Lia Znumtheory.
From stdpp Require Import base numbers list option strings.
From S2P Require Import Prelude FieldElement Register.

Open Scope Z_scope.

Class Element (F : Type) : Type := {
  e_zero : F;
  e_Add : F -> F -> F;
  e_Sub : F -> F -> F;
  e_Mul : F -> F -> F;
  e_IsZero : F -> bool;
  e_IsOne : F -> bool;
  e_Cmp : F -> F -> comparison;
  e_Equals : F -> F -> bool;
  e_SetUint64 : Z -> F;
  e_SetBytes : list Z -> F;
  e_Bytes : F -> list Z
}.

(** ** Helpers *)

Section Helpers.
Context {F : Type} `{!Element F}.

Definition Zero : F := e_zero.

Definition One : F := e_SetUint64 1.

Definition Uint64 (val : Z) : F := e_SetUint64 val.

Definition FromBigEndianBytes (bytes : list Z) : F := e_SetBytes bytes.

(** [BigInt] sets the element before it checks the sign. *)
Definition BigInt (val : Z) : result F :=
  let element := e_SetBytes (Register.BigBytes val) in
  if val <? 0 then Fault (Panic "negative value encountered") else Ok element.

Definition BigInts (values : list Z) : result (list F) := mapM BigInt values.

(** The recursion on [n/2], for [n > 0] *)
Fixpoint pow_pos (val : F) (n : positive) : F :=
  match n with
  | xH => val
  | xI m => let w := pow_pos val m in e_Mul (e_Mul w w) val
  | xO m => let w := pow_pos val m in e_Mul w w
  end.

Definition Pow (val : F) (n : Z) : F :=
  match n with
  | Z0 => e_SetUint64 1
  | Zpos p => pow_pos val p
  | Zneg _ => val
  end.

Definition TwoPowN (n : Z) : F := Pow (e_SetUint64 2) n.

End Helpers.

(** ** Laws *)

Class ElementLaws (F : Type) `{!Element F} : Type := {
  modulus : Z;
  element_ok : F -> Prop;
  val : F -> Z;
  modulus_is_prime : Z.prime modulus;
  val_range x : element_ok x -> 0 <= val x < modulus;
  val_inj x y : element_ok x -> element_ok y -> val x = val y -> x = y;
  zero_law : element_ok e_zero /\ val e_zero = 0;
  add_law x y : element_ok x -> element_ok y ->
    element_ok (e_Add x y) /\ val (e_Add x y) = (val x + val y) mod modulus;
  sub_law x y : element_ok x -> element_ok y ->
    element_ok (e_Sub x y) /\ val (e_Sub x y) = (val x - val y) mod modulus;
  mul_law x y : element_ok x -> element_ok y ->
    element_ok (e_Mul x y) /\ val (e_Mul x y) = (val x * val y) mod modulus;
  is_zero_law x : element_ok x -> e_IsZero x = (val x =? 0);
  is_one_law x : element_ok x -> e_IsOne x = (val x =? 1);
  cmp_law x y : element_ok x -> element_ok y -> e_Cmp x y = (val x ?= val y);
  equals_law x y : element_ok x -> element_ok y -> e_Equals x y = true <-> x = y;
  set_uint64_law v : 0 <= v < 2 ^ 32 -> element_ok (e_SetUint64 v) /\ val (e_SetUint64 v) = v mod modulus;
  bytes_law x : element_ok x -> Register.BigSetBytes (e_Bytes x) = val x;
  set_bytes_law x : element_ok x -> e_SetBytes (e_Bytes x) = x
}.

Section ElementFacts.
Context {F : Type} `{!Element F, !ElementLaws F}.
Implicit Types (x y : F).

Abbreviation p := (modulus (F := F)).

Lemma modulus_big : 1 < p.
Proof. pose proof modulus_is_prime as [? _]. lia. Qed.

Lemma val_mod x : element_ok x -> val x mod p = val x.
Proof. intros Hx. apply Z.mod_small. by apply val_range. Qed.

Lemma one_law : element_ok One /\ val One = 1.
Proof.
  destruct (set_uint64_law (F := F) 1) as [Hok Hv]; [lia|]. split; [done|]. unfold One. rewrite Hv.
  apply Z.mod_small. pose proof modulus_big. lia.
Qed.

Lemma is_zero_eq x : element_ok x -> e_IsZero x = true <-> x = e_zero.
Proof.
  intros Hx. destruct zero_law as [Hz Hv]. rewrite is_zero_law, Z.eqb_eq by done. split; [|by intros ->].
  intros H. apply val_inj; [done..|congruence].
Qed.

Lemma cmp_eq x y : element_ok x -> element_ok y -> e_Cmp x y = Eq <-> x = y.
Proof. intros Hx Hy. rewrite cmp_law, Z.compare_eq_iff by done. split; [by apply val_inj | by intros ->]. Qed.

(** Equality of elements, by congruence of their values *)
Lemma eq_by_val x y : element_ok x -> element_ok y -> eqm p (val x) (val y) -> x = y.
Proof. intros Hx Hy He. apply val_inj; [done..|]. apply (eqm_small p); [by apply val_range..|done]. Qed.

Lemma add_eqm x y : element_ok x -> element_ok y -> eqm p (val (e_Add x y)) (val x + val y).
Proof. intros Hx Hy. destruct (add_law x y Hx Hy) as [_ ->]. apply eqm_mod. Qed.

Lemma sub_eqm x y : element_ok x -> element_ok y -> eqm p (val (e_Sub x y)) (val x - val y).
Proof. intros Hx Hy. destruct (sub_law x y Hx Hy) as [_ ->]. apply eqm_mod. Qed.

Lemma mul_eqm x y : element_ok x -> element_ok y -> eqm p (val (e_Mul x y)) (val x * val y).
Proof. intros Hx Hy. destruct (mul_law x y Hx Hy) as [_ ->]. apply eqm_mod. Qed.

(** No zero divisors *)
Lemma mul_zero x y :
  element_ok x -> element_ok y -> e_Mul x y = e_zero <-> x = e_zero \/ y = e_zero.
Proof.
  intros Hx Hy. destruct zero_law as [Hz Hv]. destruct (mul_law x y Hx Hy) as [Hok Hm].
  pose proof (val_range x Hx). pose proof (val_range y Hy).
  assert (Hzero : forall z, element_ok z -> z = e_zero <-> val z = 0).
  { intros z Hzo. split; [by intros -> | intros H1; apply val_inj; [done..|congruence]]. }
  rewrite !Hzero, Hm by done. pose proof modulus_big as Hp. split.
  - intros Hd%Z.mod_divide; [|lia].
    apply Z.divide_prime_mul in Hd as [Hd|Hd]; [left|right| exact modulus_is_prime];
      apply Z.mod_divide in Hd; try lia; [by rewrite <-(val_mod x) | by rewrite <-(val_mod y)].
  - intros [-> | ->]; [rewrite Z.mul_0_l | rewrite Z.mul_0_r]; by rewrite Z.mod_0_l by lia.
Qed.

Lemma pow_pos_law x n : element_ok x -> element_ok (pow_pos x n) /\ eqm p (val (pow_pos x n)) (val x ^ Zpos n).
Proof.
  intros Hx. induction n as [n [Hok IH]|n [Hok IH]|]; cbn [pow_pos].
  - destruct (mul_law (pow_pos x n) (pow_pos x n)) as [Hw _]; [done..|].
    split; [by apply mul_law|]. rewrite mul_eqm, mul_eqm, IH by done. rewrite Pos2Z.inj_xI.
    replace (2 * Zpos n + 1) with (Zpos n + Zpos n + 1) by lia. rewrite !Z.pow_add_r, Z.pow_1_r by lia. reflexivity.
  - split; [by apply mul_law|]. rewrite mul_eqm, IH by done. rewrite Pos2Z.inj_xO.
    replace (2 * Zpos n) with (Zpos n + Zpos n) by lia. rewrite Z.pow_add_r by lia. reflexivity.
  - split; [done|]. rewrite Z.pow_1_r. reflexivity.
Qed.

Lemma Pow_law x n : element_ok x -> 0 <= n -> element_ok (Pow x n) /\ val (Pow x n) = (val x ^ n) mod p.
Proof.
  intros Hx Hn. destruct n as [|n|n]; [|destruct (pow_pos_law x n Hx) as [Hok He]|lia].
  - destruct one_law as [Hok Hv]. split; [exact Hok|]. cbn. change (val One = 1 mod p). rewrite Hv.
    pose proof modulus_big. by rewrite Z.mod_small by lia.
  - split; [exact Hok|]. apply (eqm_mod_unique p); [by apply val_range | exact He].
Qed.

Lemma TwoPowN_law n : 0 <= n -> element_ok (TwoPowN (F := F) n) /\ val (TwoPowN (F := F) n) = 2 ^ n mod p.
Proof.
  intros Hn. destruct (set_uint64_law (F := F) 2) as [Hok Hv]; [lia|]. unfold TwoPowN.
  destruct (Pow_law _ n Hok Hn) as [Hpok Hp]. split; [done|]. rewrite Hp, Hv. pose proof modulus_big.
  apply eqm_iff_mod; [lia|]. apply eqm_pow, eqm_mod.
Qed.

End ElementFacts.

(** ** The Montgomery fields *)

Definition element (c : constants) : Type := Z.

#[export] Instance montgomery (c : constants) : Element (element c) := {
  e_zero := 0;
  e_Add := FieldElement.Add c;
  e_Sub := FieldElement.Sub c;
  e_Mul := FieldElement.Mul c;
  e_IsZero := FieldElement.IsZero;
  e_IsOne := FieldElement.IsOne c;
  e_Cmp := FieldElement.Cmp c;
  e_Equals := FieldElement.Equals;
  e_SetUint64 := FieldElement.SetUint64 c;
  e_SetBytes := FieldElement.SetBytes c;
  e_Bytes := FieldElement.Bytes c
}.

Lemma be_encode_value n v : Register.BigSetBytes (be_encode n v) = v mod 2 ^ (8 * Z.of_nat n).
Proof.
  unfold Register.BigSetBytes.
  assert (Hgen : forall a, foldl (fun a b => a * 256 + b) a (be_encode n v) = a * 2 ^ (8 * Z.of_nat n) + v mod 2 ^ (8 * Z.of_nat n)).
  { induction n as [|n IH]; intros a; cbn [be_encode foldl]; [rewrite Z.mod_1_r; lia|].
    rewrite IH. change 255 with (Z.ones 8). rewrite Z.land_ones, Z.shiftr_div_pow2 by lia.
    replace (8 * Z.of_nat (S n)) with (8 * Z.of_nat n + 8) by lia. rewrite Z.pow_add_r by lia.
    set (m := 2 ^ (8 * Z.of_nat n)). assert (0 < m) by (apply Z.pow_pos_nonneg; lia). change (2 ^ 8) with 256.
    rewrite (Z.rem_mul_r v m 256) by lia. lia. }
  rewrite Hgen. lia.
Qed.

#[export] Instance montgomery_laws (c : constants) `{!FieldConstants c, !ByteWidthOk c} : ElementLaws (element c).
Proof.
  apply (Build_ElementLaws (element c) _ (Modulus c) (valid c) (ToUint32 c)).
  - apply modulus_prime.
  - intros x Hx. by apply ToUint32_spec.
  - apply ToUint32_inj.
  - split; [apply valid_0 | apply ToUint32_0].
  - intros x y Hx Hy. split; [by apply Add_eqm_spec | by apply Add_value].
  - intros x y Hx Hy. split; [by apply Sub_spec | by apply Sub_value].
  - intros x y Hx Hy. split; [apply Mul_eqm_spec; by try apply valid_r | by apply Mul_value].
  - apply IsZero_value.
  - apply IsOne_value.
  - done.
  - intros x y _ _. apply Z.eqb_eq.
  - intros v Hv. split; [apply SetUint64_valid|].
    change (ToUint32 c (SetUint64 c v) = v mod Modulus c). by rewrite SetUint64_value, (Z.mod_small v) by done.
  - intros x Hx. change (Register.BigSetBytes (Bytes c x) = ToUint32 c x). rewrite Bytes_be_encode, be_encode_value. apply Z.mod_small.
    destruct (ToUint32_spec x Hx) as [Hv _]. pose proof (nbBytes_enough (c := c)). unfold valid in Hv. lia.
  - apply SetBytes_Bytes.
Defined.
