(* ===== verification/Trace.v ===== *)
(** * Traces

    Models [pkg/trace/array_trace.go]: the columns, modules and traces that terms
    are evaluated on.  An [array.MutArray] is modelled by its contents; a computed
    column that has not been filled has no array.  [FindLast] is a binary search
    over rows sorted by their keys, the last key being the most significant. *)

From Stdlib Require Import ZArith Lia.
From stdpp Require Import base numbers list option strings.
From S2P Require Import Prelude FieldElement Element SortedSet.

Open Scope Z_scope.

Definition MaxUint : Z := 2 ^ 64 - 1.

Definition nil_panic : fault := Panic "nil pointer dereference".

(** ** Columns *)

Record ArrayColumn (F : Type) : Type := NewArrayColumn {
  column_name : string;
  data : option (list F);
  padding : F
}.
Arguments NewArrayColumn {F} column_name data padding.
Arguments column_name {F} _.
Arguments data {F} _.
Arguments padding {F} _.

Record ModuleName : Type := mkName { Name : string; Multiplier : Z }.

#[export] Instance ModuleName_eq_dec : EqDecision ModuleName.
Proof. solve_decision. Defined.

Record ArrayModule (F : Type) : Type := mkModule {
  name : ModuleName;
  height : Z;
  numKeys : nat;
  columns : list (ArrayColumn F)
}.
Arguments mkModule {F} name height numKeys columns.
Arguments name {F} _.
Arguments height {F} _.
Arguments numKeys {F} _.
Arguments columns {F} _.

Section Trace.
Context {F : Type} `{!Element F}.
Implicit Types (c : ArrayColumn F) (m : ArrayModule F) (keys : list F).

Definition contents c : result (list F) := match data c with Some d => Ok d | None => Fault nil_panic end.

Definition Height_of c : result Z := d ← contents c; Ok (Z.of_nat (length d)).

(** [Get]: the padding outside of the column *)
Definition Get c (row : Z) : result F :=
  if row <? 0 then Ok (padding c)
  else
    d ← contents c;
    if Z.of_nat (length d) <=? row then Ok (padding c) else slice_get d (Z.to_nat row).

(** [ArrayColumn.pad] *)
Definition pad (front back : nat) c : ArrayColumn F :=
  NewArrayColumn (column_name c)
    ((fun d => replicate front (padding c) ++ d ++ replicate back (padding c)) <$> data c) (padding c).

(** ** Modules *)

(** The loop of [NewArrayModule]: the height of the filled columns *)
Fixpoint common_height (cs : list (ArrayColumn F)) (height : Z) (first : bool) : result Z :=
  match cs with
  | [] => Ok height
  | c :: rest =>
      match data c with
      | None => common_height rest height first
      | Some d =>
          let h := Z.of_nat (length d) in
          if first then common_height rest h false
          else if negb (height =? h) then Fault (Panic "invalid column height")
          else common_height rest height first
      end
  end.

Definition NewArrayModule (nm : ModuleName) (keys : nat) (cs : list (ArrayColumn F)) : result (ArrayModule F) :=
  height ← common_height cs 0 true;
  if Multiplier nm =? 0 then Fault (Panic "invalid length multiplier")
  else if negb (height mod Multiplier nm =? 0) then Fault (Panic "invalid module height")
  else Ok (mkModule nm height keys cs).

Definition Column m (id : nat) : result (ArrayColumn F) := slice_get (columns m) id.

Fixpoint column_of (cs : list (ArrayColumn F)) (nm : string) : result (ArrayColumn F) :=
  match cs with
  | [] => Fault (Panic "unknown column")
  | c :: rest => if decide (column_name c = nm) then Ok c else column_of rest nm
  end.

Definition ColumnOf m (nm : string) : result (ArrayColumn F) := column_of (columns m) nm.

Definition Width m : nat := length (columns m).

(** [FillColumn]; the flag asks for a recalculation of the height. *)
Definition FillColumn m (cid : nat) (d : list F) : result (ArrayModule F * bool) :=
  col ← slice_get (columns m) cid;
  let len := Z.of_nat (length d) in
  let h := if height m =? MaxUint then len else if negb (len =? height m) then MaxUint else height m in
  cs ← slice_set (columns m) cid (NewArrayColumn (column_name col) (Some d) (padding col));
  Ok (mkModule (name m) h (numKeys m) cs, h =? MaxUint).

(** The loop of [Resize] *)
Fixpoint resized (cs : list (ArrayColumn F)) (nsize : Z) (first : bool) : result Z :=
  match cs with
  | [] => Ok nsize
  | c :: rest =>
      match data c with
      | None => resized rest nsize first
      | Some d =>
          let len := Z.of_nat (length d) in
          if first then resized rest len false
          else if negb (nsize =? len) then Fault (Panic "incompatible column heights")
          else resized rest nsize first
      end
  end.

Definition Resize m : result (ArrayModule F) :=
  nsize ← resized (columns m) MaxUint true;
  if Multiplier (name m) =? 0 then Fault (Panic "integer divide by zero")
  else if negb (nsize mod Multiplier (name m) =? 0) then Fault (Panic "invalid module height")
  else Ok (mkModule (name m) nsize (numKeys m) (columns m)).

Definition Pad m (front back : nat) : result (ArrayModule F) :=
  let multiplier := Multiplier (name m) in
  if multiplier =? 0 then Fault (Panic "integer divide by zero")
  else if negb (Z.of_nat front mod multiplier =? 0) then Fault (Panic "invalid front padding")
  else if negb (Z.of_nat back mod multiplier =? 0) then Fault (Panic "invalid back padding")
  else Ok (mkModule (name m) (u64 (height m + Z.of_nat (front + back))) (numKeys m) (pad front back <$> columns m)).

(** ** Searching by key *)

(** [columns[k].data.Get(row)] *)
Definition cell (cs : list (ArrayColumn F)) (k row : nat) : result F :=
  c ← slice_get cs k; d ← contents c; slice_get d row.

(** [for k := n; k > 0; { k--; ... }]: [k] keys are left to compare. *)
Fixpoint row_le (keys : list F) (row : nat) (cs : list (ArrayColumn F)) (k : nat) : result bool :=
  match k with
  | O => Ok true
  | S k =>
      kth ← cell cs k row;
      key ← slice_get keys k;
      match e_Cmp key kth with
      | Gt => Ok false
      | Lt => Ok true
      | Eq => row_le keys row cs k
      end
  end.

Definition rowLessThanEquals keys (row : nat) (cs : list (ArrayColumn F)) : result bool :=
  row_le keys row cs (length keys).

(** [for k := range n]: [keys] are those from index [k] on. *)
Fixpoint row_equals (row : nat) (cs : list (ArrayColumn F)) (k : nat) (keys : list F) : result bool :=
  match keys with
  | [] => Ok true
  | key :: rest =>
      kth ← cell cs k row;
      if e_Equals kth key then row_equals row cs (S k) rest else Ok false
  end.

Definition rowEquals (row : nat) (cs : list (ArrayColumn F)) (keys : list F) : result bool :=
  row_equals row cs 0 keys.

(** [sort.Search] with a predicate that can panic *)
Fixpoint search (fuel : nat) (f : nat -> result bool) (i j : nat) : result nat :=
  match fuel with
  | O => Fault OutOfFuel
  | S fuel =>
      if (i <? j)%nat then
        let h := ((i + j) / 2)%nat in
        b ← f h;
        if b : bool then search fuel f i h else search fuel f (S h) j
      else Ok i
  end.

(** [n] rows are left. *)
Fixpoint findLastFrom (n row : nat) (cs : list (ArrayColumn F)) (keys : list F) : result nat :=
  match n with
  | O => Ok row
  | S n =>
      b ← rowEquals (S row) cs keys;
      if b : bool then findLastFrom n (S row) cs keys else Ok row
  end.

(** [FindLast]; [None] for [MaxUint]. *)
Definition FindLast m keys : result (option nat) :=
  if negb (length keys =? numKeys m)%nat then Fault (Panic "incorrect number of keys provided")
  else
    let h := Z.to_nat (height m) in
    index ← search (S h) (fun row => rowLessThanEquals keys row (columns m)) 0 h;
    if (index <? h)%nat then
      b ← rowEquals index (columns m) keys;
      if b : bool then Some <$> findLastFrom (h - 1 - index) index (columns m) keys else Ok None
    else Ok None.

(** ** Traces *)

Fixpoint has_module (ms : list (ArrayModule F)) (mid : nat) (nm : ModuleName) : option nat :=
  match ms with
  | [] => None
  | m :: rest => if decide (name m = nm) then Some mid else has_module rest (S mid) nm
  end.

(** [HasModule]; [None] for [MaxUint, false]. *)
Definition HasModule (ms : list (ArrayModule F)) (nm : ModuleName) : option nat := has_module ms 0 nm.

Definition Module_ (ms : list (ArrayModule F)) (mid : nat) : result (ArrayModule F) := slice_get ms mid.

Definition PadModule (ms : list (ArrayModule F)) (mid front back : nat) : result (list (ArrayModule F)) :=
  m ← slice_get ms mid; m' ← Pad m front back; slice_set ms mid m'.

End Trace.

(** ** Facts *)

Section TraceFacts.
Context {F : Type} `{!Element F}.
Implicit Types (c : ArrayColumn F) (m : ArrayModule F) (cs : list (ArrayColumn F)) (keys : list F).

(** [Get] as a function of the contents *)
Definition at_row (d : list F) (pad : F) (row : Z) : F :=
  if row <? 0 then pad else default pad (d !! Z.to_nat row).

Lemma Get_filled c d row : data c = Some d -> Get c row = Ok (at_row d (padding c) row).
Proof.
  intros Hd. unfold Get, at_row, contents. rewrite Hd. cbn. destruct (Z.ltb_spec row 0); [done|].
  destruct (Z.leb_spec (Z.of_nat (length d)) row).
  - rewrite lookup_ge_None_2 by lia. done.
  - destruct (lookup_lt_is_Some_2 d (Z.to_nat row)) as [x Hx]; [lia|]. rewrite Hx. by apply slice_get_ok.
Qed.

Lemma at_row_pad d x front back row :
  at_row (replicate front x ++ d ++ replicate back x) x row = at_row d x (row - Z.of_nat front).
Proof.
  unfold at_row. destruct (Z.ltb_spec row 0), (Z.ltb_spec (row - Z.of_nat front) 0); try lia; [done|..].
  - rewrite lookup_app_l, lookup_replicate_2 by (rewrite ?length_replicate; lia). done.
  - rewrite lookup_app_r by (rewrite length_replicate; lia). rewrite length_replicate.
    replace (Z.to_nat (row - Z.of_nat front)) with (Z.to_nat row - front)%nat by lia.
    destruct (decide (Z.to_nat row - front < length d)%nat) as [Hlt|Hge].
    + by rewrite lookup_app_l.
    + rewrite lookup_app_r by lia. rewrite (lookup_ge_None_2 d) by lia.
      destruct (decide (Z.to_nat row - front - length d < back)%nat).
      * by rewrite lookup_replicate_2.
      * by rewrite lookup_ge_None_2 by (rewrite length_replicate; lia).
Qed.

(** Padding shifts the rows of a filled column. *)
Lemma pad_Get front back c row : data c <> None -> Get (pad front back c) row = Get c (row - Z.of_nat front).
Proof.
  destruct (data c) as [d|] eqn:Hd; [|done]. intros _.
  rewrite (Get_filled c d), (Get_filled (pad front back c) (replicate front (padding c) ++ d ++ replicate back (padding c)));
    [|by cbn; rewrite Hd|done]. cbn [padding pad]. by rewrite at_row_pad.
Qed.

(** *** Heights *)

(** The columns that have been filled have [h] rows. *)
Definition heights cs (h : Z) : Prop := Forall (fun c => forall d, data c = Some d -> Z.of_nat (length d) = h) cs.

Record module_ok m : Prop := {
  mo_heights : heights (columns m) (height m);
  mo_multiplier : Multiplier (name m) <> 0;
  mo_multiple : height m mod Multiplier (name m) = 0
}.

Lemma common_height_spec cs h0 first h :
  common_height cs h0 first = Ok h -> heights cs h /\ (first = false -> h = h0).
Proof.
  revert h0 first. induction cs as [|c cs IH]; intros h0 first; cbn.
  { intros [= <-]. split; [constructor | done]. }
  destruct (data c) as [d|] eqn:Hd.
  - destruct first.
    + intros [Hh Hf]%IH. split; [|done]. constructor; [|done]. intros d' [= <-]%(eq_trans (eq_sym Hd)). by rewrite Hf.
    + destruct (Z.eqb_spec h0 (Z.of_nat (length d))) as [He|]; [|done]. cbn. intros [Hh Hf]%IH. split; [|done].
      constructor; [|done]. intros d' [= <-]%(eq_trans (eq_sym Hd)). rewrite Hf; [done|done].
  - intros [Hh Hf]%IH. split; [|done]. constructor; [|done]. congruence.
Qed.

Lemma resized_spec cs n first h :
  resized cs n first = Ok h -> heights cs h /\ (first = false -> h = n).
Proof.
  revert n first. induction cs as [|c cs IH]; intros n first; cbn.
  { intros [= <-]. split; [constructor | done]. }
  destruct (data c) as [d|] eqn:Hd.
  - destruct first.
    + intros [Hh Hf]%IH. split; [|done]. constructor; [|done]. intros d' [= <-]%(eq_trans (eq_sym Hd)). by rewrite Hf.
    + destruct (Z.eqb_spec n (Z.of_nat (length d))) as [He|]; [|done]. cbn. intros [Hh Hf]%IH. split; [|done].
      constructor; [|done]. intros d' [= <-]%(eq_trans (eq_sym Hd)). rewrite Hf; [done|done].
  - intros [Hh Hf]%IH. split; [|done]. constructor; [|done]. congruence.
Qed.

Lemma NewArrayModule_ok nm n cs m : NewArrayModule nm n cs = Ok m -> module_ok m /\ columns m = cs /\ name m = nm.
Proof.
  unfold NewArrayModule. intros (h & Hh & H)%bind_ok. apply common_height_spec in Hh as [Hh _].
  destruct (Z.eqb_spec (Multiplier nm) 0); [done|]. destruct (Z.eqb_spec (h mod Multiplier nm) 0); [|done].
  cbn in H. injection H as <-. done.
Qed.

Lemma Resize_ok m m' : Resize m = Ok m' -> module_ok m' /\ columns m' = columns m /\ name m' = name m.
Proof.
  unfold Resize. intros (h & Hh & H)%bind_ok. apply resized_spec in Hh as [Hh _].
  destruct (Z.eqb_spec (Multiplier (name m)) 0); [done|]. destruct (Z.eqb_spec (h mod Multiplier (name m)) 0); [|done].
  cbn in H. injection H as <-. done.
Qed.

Lemma Pad_ok m m' front back :
  module_ok m -> 0 <= height m -> height m + Z.of_nat (front + back) < 2 ^ 64 -> Pad m front back = Ok m' ->
  module_ok m' /\ columns m' = pad front back <$> columns m /\ height m' = height m + Z.of_nat (front + back).
Proof.
  intros [Hh Hm Hd] H0 Hlt. unfold Pad.
  destruct (Z.eqb_spec (Multiplier (name m)) 0); [done|].
  destruct (Z.eqb_spec (Z.of_nat front mod Multiplier (name m)) 0) as [Hf|]; [|done].
  destruct (Z.eqb_spec (Z.of_nat back mod Multiplier (name m)) 0) as [Hb|]; [|done].
  cbn. intros [= <-]. cbn. rewrite u64_small by lia. split; [|done]. split; cbn; [|done|].
  - apply Forall_fmap. eapply Forall_impl; [exact Hh|]. intros c Hc d. cbn.
    destruct (data c) as [d0|] eqn:Hd0; [|done]. cbn. intros [= <-].
    rewrite !length_app, !length_replicate. specialize (Hc d0 Hd0). lia.
  - apply Z.mod_divide in Hd, Hf, Hb; [|done..]. apply Z.mod_divide; [done|]. rewrite Nat2Z.inj_add.
    apply Z.divide_add_r; [done|]. by apply Z.divide_add_r.
Qed.

End TraceFacts.

(** *** Searching *)

Section FindLast.
Context {F : Type} `{!Element F, !ElementLaws F}.
Implicit Types (m : ArrayModule F) (cs : list (ArrayColumn F)) (keys ks : list F).

(** The order of the rows: the last key is the most significant. *)
Definition order (ks : list F) : list Z := reverse (val <$> ks).

(** Row [row] of the key columns [cs] *)
Definition row_keys cs (n row : nat) (ks : list F) : Prop :=
  length ks = n /\ Forall element_ok ks /\ forall k x, ks !! k = Some x -> cell cs k row = Ok x.

Lemma order_S ks k x : ks !! k = Some x -> order (take (S k) ks) = val x :: order (take k ks).
Proof. intros Hk. unfold order. by rewrite (take_S_r _ _ _ Hk), fmap_app, reverse_app. Qed.

Lemma order_length ks : length (order ks) = length ks.
Proof. unfold order. by rewrite length_reverse, length_fmap. Qed.

Lemma Cmp_lists (l k : list Z) : length l = length k -> Cmp l k = compare_items l k.
Proof. intros Hl. unfold Cmp, list_Comparable, Compare. by rewrite Hl, Nat.compare_refl. Qed.

Lemma order_inj ks ks' :
  Forall element_ok ks -> Forall element_ok ks' -> order ks = order ks' -> ks = ks'.
Proof.
  intros Hk Hk' He%(inj reverse). revert ks' Hk' He. induction Hk as [|x ks Hx Hk IH]; intros [|y ks'] Hk' He; try done.
  apply Forall_cons in Hk' as [Hy Hk']. injection He as Hv He. f_equal; [by apply val_inj | by apply IH].
Qed.

Lemma row_le_spec cs n row ks keys k :
  row_keys cs n row ks -> Forall element_ok keys -> length keys = n -> (k <= n)%nat ->
  row_le keys row cs k = Ok (negb (is_gt (Cmp (order (take k keys)) (order (take k ks))))).
Proof.
  intros (Hlen & Hok & Hcell) Hkeys Hkl Hk. induction k as [|k IH]; [done|]. cbn [row_le].
  destruct (lookup_lt_is_Some_2 ks k) as [x Hx]; [lia|]. destruct (lookup_lt_is_Some_2 keys k) as [key Hkey]; [lia|].
  rewrite (Hcell _ _ Hx), (proj2 (slice_get_ok _ _ _) Hkey). cbn [mbind result_bind].
  pose proof (proj1 (Forall_lookup _ _) Hok _ _ Hx) as Hxo. pose proof (proj1 (Forall_lookup _ _) Hkeys _ _ Hkey) as Hko.
  rewrite (cmp_law key x Hko Hxo), (order_S _ _ _ Hx), (order_S _ _ _ Hkey).
  rewrite Cmp_lists by (cbn; rewrite !order_length, !length_take; lia). cbn [compare_items].
  unfold Cmp at 1, Z_Comparable. destruct (val key ?= val x); [|done|done].
  rewrite IH by lia. by rewrite Cmp_lists by (rewrite !order_length, !length_take; lia).
Qed.

Lemma row_equals_spec cs row ks keys k :
  Forall element_ok ks -> Forall element_ok keys -> length keys = length ks ->
  (forall i x, ks !! i = Some x -> cell cs (k + i) row = Ok x) ->
  exists b, row_equals row cs k keys = Ok b /\ (b = true <-> ks = keys).
Proof.
  intros Hok Hkeys Hl Hcell. revert k keys Hkeys Hl Hcell.
  induction Hok as [|x ks Hx Hok IH]; intros k [|key keys] Hkeys Hl Hcell; try done; [by exists true|].
  apply Forall_cons in Hkeys as [Hkey Hkeys]. cbn [row_equals].
  pose proof (Hcell 0%nat x eq_refl) as H0. rewrite Nat.add_0_r in H0. rewrite H0. cbn [mbind result_bind].
  destruct (e_Equals x key) eqn:He.
  - apply equals_law in He as ->; [|done..].
    destruct (IH (S k) keys Hkeys ltac:(cbn in Hl; lia)) as (b & Hb & Hiff).
    { intros i y Hi. rewrite Nat.add_succ_comm. by apply (Hcell (S i)). }
    exists b. split; [done|]. rewrite Hiff. split; [by intros -> | by intros [= ->]].
  - exists false. split; [done|]. split; [done|]. intros [= -> ->].
    by rewrite (proj2 (equals_law key key Hkey Hkey) eq_refl) in He.
Qed.

Lemma search_total fuel f g i j :
  (forall a, (i <= a < j)%nat -> f a = Ok (g a)) ->
  search fuel f i j = match search_loop fuel g i j with Some k => Ok k | None => Fault OutOfFuel end.
Proof.
  revert i j. induction fuel as [|fuel IH]; intros i j Hf; [done|]. cbn [search search_loop].
  destruct (Nat.ltb_spec i j); [|done].
  assert (i <= (i + j) / 2 < j)%nat as Hh.
  { split; [apply Nat.div_le_lower_bound; lia | apply Nat.Div0.div_lt_upper_bound; lia]. }
  rewrite (Hf _ Hh). cbn [mbind result_bind]. destruct (g ((i + j) / 2)%nat); apply IH; intros a Ha; apply Hf; lia.
Qed.

Lemma findLastFrom_spec cs keys n table rows row :
  (rows = row + n)%nat -> Forall element_ok keys -> length keys = length (table row) ->
  (forall r, (row <= r <= rows)%nat -> row_keys cs (length keys) r (table r)) ->
  table row = keys ->
  (forall a b, (row <= a <= b)%nat -> (b <= rows)%nat -> table b = keys -> table a = keys) ->
  exists r, findLastFrom n row cs keys = Ok r /\ (row <= r <= rows)%nat /\ table r = keys /\
    forall a, (r < a <= rows)%nat -> table a <> keys.
Proof.
  intros -> Hkeys. revert row. induction n as [|n IH]; intros row Hl Htab Hrow Hmono; cbn [findLastFrom].
  { exists row. split; [done|]. split; [lia|]. split; [done|]. intros; lia. }
  destruct (Htab (S row) ltac:(lia)) as (Htl & Htok & Hcell).
  destruct (row_equals_spec cs (S row) (table (S row)) keys 0 Htok Hkeys (eq_sym Htl)) as (b & Hb & Hiff); [done|].
  unfold rowEquals. rewrite Hb. cbn [mbind result_bind]. destruct b.
  - destruct (IH (S row)) as (r & Hr & Hle & Htr & Hlast).
    + done.
    + intros r Hr. apply Htab. lia.
    + by apply Hiff.
    + intros a b Hab Hbn. apply Hmono; lia.
    + exists r. split; [done|]. split; [lia|]. split; [done|]. intros a Ha. apply Hlast. lia.
  - exists row. split; [done|]. split; [lia|]. split; [done|]. intros a Ha He.
    assert (table (S row) = keys) as Hs by (apply (Hmono (S row) a); (done || lia)). by apply Hiff in Hs.
Qed.

(** Rows sorted by their keys *)
Definition sorted_rows (table : nat -> list F) (h : nat) : Prop :=
  forall a b, (a <= b)%nat -> (b < h)%nat -> Cmp (order (table a)) (order (table b)) <> Gt.

Lemma not_gt_trans (l k q : list Z) : Cmp l k <> Gt -> Cmp k q <> Gt -> Cmp l q <> Gt.
Proof.
  intros H1 H2. destruct (Cmp l k) eqn:Hlk; [apply Cmp_eq in Hlk as ->; done| |done].
  destruct (Cmp k q) eqn:Hkq; [apply Cmp_eq in Hkq as <-; by rewrite Hlk| |done]. by rewrite (Cmp_trans l k q).
Qed.

Lemma not_gt_antisym (l k : list Z) : Cmp l k <> Gt -> Cmp k l <> Gt -> l = k.
Proof. rewrite (Cmp_anti l k). destruct (Cmp l k) eqn:Hlk; [by apply Cmp_eq in Hlk|done|done]. Qed.

Lemma FindLast_spec m keys table h :
  length keys = numKeys m -> Forall element_ok keys -> height m = Z.of_nat h ->
  (forall r, (r < h)%nat -> row_keys (columns m) (numKeys m) r (table r)) -> sorted_rows table h ->
  exists res, FindLast m keys = Ok res /\
    match res with
    | Some r => (r < h)%nat /\ table r = keys /\ forall a, (r < a < h)%nat -> table a <> keys
    | None => forall a, (a < h)%nat -> table a <> keys
    end.
Proof.
  intros Hlen Hkeys Hh Htab Hsort. unfold FindLast. rewrite Hlen, Nat.eqb_refl. cbn [negb]. rewrite Hh, Nat2Z.id.
  set (g := fun r => negb (is_gt (Cmp (order keys) (order (table r))))).
  assert (Hle : forall r, (r < h)%nat -> rowLessThanEquals keys r (columns m) = Ok (g r)).
  { intros r Hr. pose proof (Htab r Hr) as Hrow. unfold rowLessThanEquals.
    rewrite (row_le_spec _ _ _ _ _ _ Hrow Hkeys Hlen) by lia. destruct Hrow as (Hrl & _ & _).
    by rewrite !take_ge by lia. }
  assert (Hg : forall r, g r = true <-> Cmp (order keys) (order (table r)) <> Gt).
  { intros r. unfold g. by destruct (Cmp _ _). }
  rewrite (search_total _ _ g) by (intros a Ha; apply Hle; lia).
  destruct (search_loop_spec (S h) g 0 h) as (i & -> & Hi & Hlo & Hhi); [lia|lia| |].
  { intros a b _ Hab Hb Ha%Hg. apply Hg. eapply not_gt_trans; [exact Ha | by apply Hsort]. }
  cbn [mbind result_bind].
  assert (Hbelow : forall a, (a < i)%nat -> (a < h)%nat -> table a <> keys).
  { intros a Ha Hah He. specialize (Hlo a ltac:(lia)). unfold g in Hlo.
    by rewrite He, (proj2 (Cmp_eq _ _) eq_refl) in Hlo. }
  destruct (Nat.ltb_spec i h) as [Hih|Hih]; [|exists None; split; [done|]; intros a Ha; apply Hbelow; lia].
  destruct (Htab i Hih) as (Htl & Htok & Hcell).
  destruct (row_equals_spec (columns m) i (table i) keys 0 Htok Hkeys ltac:(lia)) as (b & Hb & Hiff); [done|].
  unfold rowEquals at 1. rewrite Hb. cbn [mbind result_bind].
  assert (Hup : forall a b, (i <= a <= b)%nat -> (b < h)%nat -> table b = keys -> table a = keys).
  { intros a b' Hab Hbh He. apply order_inj; [by apply (Htab a ltac:(lia))|done|].
    apply not_gt_antisym; [rewrite <-He; apply Hsort; lia|]. apply Hg. apply Hhi. lia. }
  destruct b.
  - destruct (findLastFrom_spec (columns m) keys (h - 1 - i) table (h - 1) i) as (r & Hr & Hle' & Htr & Hlast);
      [lia|done|lia| |by apply Hiff|intros a b' ???; apply (Hup a b'); (done || lia)|].
    { intros r Hr. rewrite Hlen. apply Htab. lia. }
    exists (Some r). rewrite Hr. split; [done|]. split; [lia|]. split; [done|]. intros a Ha. apply Hlast. lia.
  - exists None. split; [done|]. intros a Ha He. destruct (decide (a < i)%nat); [by apply (Hbelow a)|].
    assert (table i = keys) as Ht by (apply (Hup i a); (done || lia)). by apply Hiff in Ht.
Qed.

End FindLast.

Module TraceProperties.

Section Properties.
Context {F : Type} `{!Element F, !ElementLaws F}.

(** [FindLast] on rows sorted by their keys returns the last row with the given
    keys, and nothing when there is none; its searches terminate. *)
Theorem find_last (m : ArrayModule F) keys table h :
  length keys = numKeys m -> Forall element_ok keys -> height m = Z.of_nat h ->
  (forall r, (r < h)%nat -> row_keys (columns m) (numKeys m) r (table r)) -> sorted_rows table h ->
  exists res, FindLast m keys = Ok res /\
    match res with
    | Some r => (r < h)%nat /\ table r = keys /\ forall a, (r < a < h)%nat -> table a <> keys
    | None => forall a, (a < h)%nat -> table a <> keys
    end.
Proof. apply FindLast_spec. Qed.

(** The constructor, [Resize] and [Pad] give modules whose filled columns all have
    the height of the module, a multiple of the length multiplier; padding moves
    the contents of the columns and surrounds them with their padding. *)
Theorem module_heights (m m' : ArrayModule F) nm n cs front back :
  (NewArrayModule nm n cs = Ok m -> module_ok m /\ columns m = cs) /\
  (Resize m = Ok m' -> module_ok m' /\ columns m' = columns m) /\
  (module_ok m -> 0 <= height m -> height m + Z.of_nat (front + back) < 2 ^ 64 -> Pad m front back = Ok m' ->
   module_ok m' /\ height m' = height m + Z.of_nat (front + back) /\
   forall id c row, columns m !! id = Some c -> data c <> None ->
     exists c', columns m' !! id = Some c' /\ Get c' row = Get c (row - Z.of_nat front)).
Proof.
  split; [intros H; by destruct (NewArrayModule_ok _ _ _ _ H) as (? & ? & _)|].
  split; [intros H; by destruct (Resize_ok _ _ H) as (? & ? & _)|].
  intros Hm H0 Hlt HP. destruct (Pad_ok _ _ _ _ Hm H0 Hlt HP) as (Hok & Hc & Hh). split; [done|]. split; [done|].
  intros id c row Hid Hd. rewrite Hc, list_lookup_fmap, Hid. eexists. split; [done|]. by apply pad_Get.
Qed.

End Properties.

(** *** A sample module *)

Definition sample_keys : list (element gf251) := map Element.Uint64 [1; 3; 3; 7].

Definition keyed_module : ArrayModule (element gf251) :=
  mkModule (mkName "m" 2) 4 1 [NewArrayColumn "K" (Some sample_keys) (Element.Uint64 0)].

Lemma find_last_witness :
  exists res, FindLast keyed_module [Element.Uint64 3] = Ok res /\
    match res with
    | Some r => (r < 4)%nat /\ sample_keys !! r = Some (Element.Uint64 3) /\
                forall a, (r < a < 4)%nat -> sample_keys !! a <> Some (Element.Uint64 3)
    | None => False
    end.
Proof.
  assert (Hok : forall z, 0 <= z < 2 ^ 32 -> element_ok (Element.Uint64 (F := element gf251) z)).
  { intros z Hz. by apply set_uint64_law. }
  destruct (find_last keyed_module [Element.Uint64 3] (fun r => match sample_keys !! r with Some x => [x] | None => [] end) 4)
    as (res & Hres & Hr).
  - reflexivity.
  - repeat constructor; apply Hok; lia.
  - reflexivity.
  - intros r Hr. do 4 (destruct r as [|r]; [split; [done|]; split;
      [repeat constructor; apply Hok; lia | intros [|k] x Hx; [by injection Hx as <- | done]]|]). lia.
  - intros a b Hab Hb. do 4 (destruct b as [|b]; [do 4 (destruct a as [|a]; [vm_compute; discriminate || lia|]); lia|]). lia.
  - vm_compute in Hres. injection Hres as <-. exists (Some 2%nat). split; [reflexivity|]. split; [lia|].
    split; [reflexivity|]. intros a Ha. destruct a as [|[|[|[|a]]]]; try lia. vm_compute. discriminate.
Defined.

Lemma module_heights_witness : module_ok keyed_module /\ columns keyed_module = columns keyed_module.
Proof.
  apply (proj1 (module_heights keyed_module keyed_module (mkName "m" 2) 1 (columns keyed_module) 0 0)). reflexivity.
Defined.

End TraceProperties.
