(* ===== verification/Term.v ===== *)
(** * Terms and logical terms

    Models [pkg/ir/term]: the expressions of the intermediate representations and
    their logical terms, with evaluation on a row of a trace module, shifting,
    bounds, the cells they read, their ranges of values, substitution and the
    constructors.  The Go types are generic in the interface of their children;
    the model has one type with every constructor.  [Simplify.v] has the
    simplifier. *)

From Stdlib Require Import ZArith Lia.
From stdpp Require Import base numbers list option strings gmap.
From S2P Require Import Prelude Interval Register SortedSet Element Trace.

Open Scope Z_scope.

(** ** Identifiers of columns and cells ([pkg/trace/ref.go]) *)

(** [ColumnId]; [None] is the unused identifier, [MaxUint]. *)
Definition ColumnId : Type := option nat.

Definition Unwrap (p : ColumnId) : result nat :=
  match p with Some i => Ok i | None => Fault (Panic "attempt to unwrap unused Column id") end.

Definition IsUsed (p : ColumnId) : bool := match p with Some _ => true | None => false end.

Record ColumnRef : Type := NewColumnRef { mid : nat; rid : nat }.
Record CellRef : Type := NewCellRef { Column_ : ColumnRef; Row : Z }.

#[export] Instance ColumnRef_Comparable : Comparable ColumnRef := fun p q =>
  match Cmp (mid p) (mid q) with Eq => Cmp (rid p) (rid q) | c => c end.

#[export] Instance CellRef_Comparable : Comparable CellRef := fun p q =>
  match Cmp (Column_ p) (Column_ q) with Eq => Cmp (Row p) (Row q) | c => c end.

(** The zero value, the filler of the arrays that [InsertSorted] allocates *)
Definition zero_cell : CellRef := NewCellRef (NewColumnRef 0 0) 0.

(** ** Bounds ([pkg/util/bounds.go]) *)

Module Bounds.
Record t : Type := NewBounds { Start : Z; End : Z }.
Definition EMPTY_BOUND : t := NewBounds 0 0.
Definition Union (p q : t) : t := NewBounds (Z.max (Start p) (Start q)) (Z.max (End p) (End q)).
Definition BoundsForArray (args : list t) : t := foldl Union (NewBounds 0 0) args.
End Bounds.

(** [math.MaxInt] and [math.MinInt] *)
Definition MaxInt : Z := 2 ^ 63 - 1.
Definition MinInt : Z := - 2 ^ 63.

(** ** Terms *)

Module Access.
(** [RegisterAccess] *)
Record t : Type := mk { register : ColumnId; bitwidth : Z; maskwidth : Z; shift : Z }.

#[export] Instance t_eq_dec : EqDecision t.
Proof. solve_decision. Defined.

Definition RawRegisterAccess (register : ColumnId) (bitwidth shift : Z) : t := mk register bitwidth bitwidth shift.

Definition FieldAccess (register : ColumnId) (shift : Z) : t := mk register MaxUint MaxUint shift.

Definition HasFieldType (p : t) : bool := bitwidth p =? MaxUint.

Definition Mask (p : t) (mask : Z) : result t :=
  if bitwidth p <? mask then Fault (Panic "invalid mask")
  else if HasFieldType p then Fault (Panic "cannot mask a register of field type")
  else Ok (mk (register p) (bitwidth p) mask (shift p)).

Definition ApplyShift (p : t) (s : Z) : t := mk (register p) (bitwidth p) (maskwidth p) (shift p + s).

Definition Bounds (p : t) : Bounds.t :=
  if 0 <=? shift p then Bounds.NewBounds 0 (shift p) else Bounds.NewBounds (- shift p) 0.

Definition IsDefined (p : t) : bool := IsUsed (register p).

Definition RequiredRegisters (p : t) : result (list nat) := r ← Unwrap (register p); Ok (Insert [] r).

Definition RequiredCells (p : t) (row : Z) (mid : nat) : result (list CellRef) :=
  r ← Unwrap (register p); Ok (Insert [] (NewCellRef (NewColumnRef mid r) (row + shift p))).

End Access.

Inductive Expr (F : Type) : Type :=
  | Add (Args : list (Expr F))
  | Cast (Arg : Expr F) (BitWidth : Z) (Bound : F)
  | Constant (Value : F)
  | Exp (Arg : Expr F) (Pow : Z)
  | IfZero (Condition : Logical F) (TrueBranch FalseBranch : Expr F)
  | LabelledConst (Label : string) (Value : F)
  | Mul (Args : list (Expr F))
  | Norm (Arg : Expr F)
  | RegisterAccess (a : Access.t)
  | Sub (Args : list (Expr F))
  | VectorAccess (Vars : list Access.t)
with Logical (F : Type) : Type :=
  | Conjunct (Args : list (Logical F))
  | Disjunct (Args : list (Logical F))
  | Equal (Lhs Rhs : Expr F)
  | Ite (Condition : Logical F) (TrueBranch FalseBranch : option (Logical F))
  | Negate (Arg : Logical F)
  | NotEqual (Lhs Rhs : Expr F).
Arguments Add {F}. Arguments Cast {F}. Arguments Constant {F}. Arguments Exp {F}. Arguments IfZero {F}.
Arguments LabelledConst {F}. Arguments Mul {F}. Arguments Norm {F}. Arguments RegisterAccess {F}.
Arguments Sub {F}. Arguments VectorAccess {F}.
Arguments Conjunct {F}. Arguments Disjunct {F}. Arguments Equal {F}. Arguments Ite {F}.
Arguments Negate {F}. Arguments NotEqual {F}.

Section Term.
Context {F : Type} `{!Element F}.
Implicit Types (e : Expr F) (l : Logical F) (m : ArrayModule F).

(** ** Constructors *)

Definition True_ : Logical F := Conjunct [].
Definition False_ : Logical F := Disjunct [].

Definition IsTrue l : bool := match l with Conjunct [] => true | _ => false end.
Definition IsFalse l : bool := match l with Disjunct [] => true | _ => false end.

Definition Conjunction (terms : list (Logical F)) : Logical F :=
  match terms with [t] => t | _ => Conjunct terms end.

Definition Disjunction (terms : list (Logical F)) : Logical F :=
  match terms with [t] => t | _ => Disjunct terms end.

Definition Const64 (v : Z) : Expr F := Constant (Element.Uint64 v).

Definition CastOf e (bitwidth : Z) : Expr F := Cast e bitwidth (TwoPowN bitwidth).

Definition IsConstant e : option F := match e with Constant v => Some v | _ => None end.

(** [IsConstant64] of [util.go] *)
Definition IsConstant64 (uint64 : F -> Z) e : option Z :=
  match e with
  | Constant v => if (length (e_Bytes v) <=? 8)%nat then Some (uint64 v) else None
  | _ => None
  end.

Definition isZero e : bool := match e with Constant v => e_IsZero v | _ => false end.
Definition isOne e : bool := match e with Constant v => e_IsOne v | _ => false end.

Definition flatternAdd e : option (list (Expr F)) := match e with Add args => Some args | _ => None end.
Definition flatternMul e : option (list (Expr F)) := match e with Mul args => Some args | _ => None end.

(** [array.Flatten].  An empty list of arguments is an empty slice here; the only
    nil ones in the program are those of the truth values, which the callers remove
    after flattening. *)
Definition Flatten {A} (items : list A) (fn : A -> option (list A)) : list A :=
  items ≫= fun t => match fn t with Some ts => ts | None => [t] end.

Definition Sum (terms : list (Expr F)) : Expr F :=
  match RemoveMatching (Flatten terms flatternAdd) isZero with
  | [] => Const64 0
  | [t] => t
  | ts => Add ts
  end.

Definition Product (terms : list (Expr F)) : Expr F :=
  let ts := RemoveMatching (Flatten terms flatternMul) isOne in
  if existsb isZero ts then Const64 0
  else match ts with [] => Const64 1 | [t] => t | _ => Mul ts end.

(** [array.RemoveMatchingIndexed] with [isZeroExcept] *)
Definition Subtract (terms : list (Expr F)) : Expr F :=
  match terms with
  | [] => Const64 0
  | t :: rest => match RemoveMatching rest isZero with [] => t | ts => Sub (t :: ts) end
  end.

(** ** Evaluation *)

(** The loops of [EvalAt] and [TestAt] over the results of the arguments.  A
    result is only looked at when the loop reaches its argument. *)
Fixpoint fold_args (op : F -> F -> F) (acc : F) (args : list (result F)) : result F :=
  match args with
  | [] => Ok acc
  | a :: rest => v ← a; fold_args op (op acc v) rest
  end.

Fixpoint mul_args (acc : F) (args : list (result F)) : result F :=
  match args with
  | [] => Ok acc
  | a :: rest => if e_IsZero acc then Ok acc else v ← a; mul_args (e_Mul acc v) rest
  end.

(** The first argument is always evaluated. *)
Definition eval_args (loop : F -> list (result F) -> result F) (args : list (result F)) : result F :=
  match args with [] => Fault index_panic | a :: rest => v ← a; loop v rest end.

Fixpoint test_all (args : list (result bool)) : result bool :=
  match args with [] => Ok true | a :: rest => b ← a; if b : bool then test_all rest else Ok false end.

Fixpoint test_any (args : list (result bool)) : result bool :=
  match args with [] => Ok false | a :: rest => b ← a; if b : bool then Ok true else test_any rest end.

(** Both sides are evaluated before their errors are looked at. *)
Definition both (x y : result F) (f : F -> F -> bool) : result bool :=
  match x, y with
  | Fault (Error msg), (Ok _ | Fault (Error _)) => Fault (Error msg)
  | Fault (Error _), Fault p => Fault p
  | Fault p, _ => Fault p
  | Ok a, Ok b => Ok (f a b)
  | Ok _, Fault p => Fault p
  end.

Definition access_at (k : Z) m (a : Access.t) : result F :=
  r ← Unwrap (Access.register a); c ← Column m r; Get c (k + Access.shift a).

Definition shiftValue (v : F) (width : Z) : F := e_Mul v (TwoPowN width).

(** [for i := 1; ...]: [shift] is the width of the variables before. *)
Fixpoint vector_args (k : Z) m (vars : list Access.t) (acc : F) (shift : Z) : result F :=
  match vars with
  | [] => Ok acc
  | a :: rest =>
      ith ← access_at k m a;
      vector_args k m rest (e_Add acc (shiftValue ith shift)) (u64 (shift + Access.maskwidth a))
  end.

Definition vector_at (k : Z) m (vars : list Access.t) : result F :=
  match vars with
  | [] => Fault index_panic
  | a :: rest => v ← access_at k m a; vector_args k m rest v (Access.maskwidth a)
  end.

(** The method of each term, given the results of its children *)
Definition EvalAt_Add (args : list (result F)) : result F := eval_args (fold_args e_Add) args.
Definition EvalAt_Sub (args : list (result F)) : result F := eval_args (fold_args e_Sub) args.
Definition EvalAt_Mul (args : list (result F)) : result F := eval_args mul_args args.

Definition EvalAt_Cast (arg : result F) (bound : F) : result F :=
  v ← arg; match e_Cmp v bound with Lt => Ok v | _ => Fault (Error "cast failure") end.

Definition EvalAt_Exp (arg : result F) (pow : Z) : result F := v ← arg; Ok (Element.Pow v pow).

Definition EvalAt_IfZero (cond : result bool) (tb fb : result F) : result F :=
  c ← cond; if c : bool then tb else fb.

Definition EvalAt_Norm (arg : result F) : result F := v ← arg; Ok (if e_IsZero v then v else One).

Definition TestAt_Equal (lhs rhs : result F) : result bool := both lhs rhs (fun x y => is_eq (e_Cmp x y)).
Definition TestAt_NotEqual (lhs rhs : result F) : result bool := both lhs rhs (fun x y => negb (is_eq (e_Cmp x y))).

Definition TestAt_Ite (cond : result bool) (tb fb : option (result bool)) : result bool :=
  c ← cond; if c : bool then default (Ok true) tb else default (Ok true) fb.

Definition TestAt_Negate (arg : result bool) : result bool := b ← arg; Ok (negb b).

Fixpoint EvalAt (k : Z) m e {struct e} : result F :=
  match e with
  | Add args => EvalAt_Add (map (EvalAt k m) args)
  | Cast arg _ bound => EvalAt_Cast (EvalAt k m arg) bound
  | Constant v => Ok v
  | Exp arg pow => EvalAt_Exp (EvalAt k m arg) pow
  | IfZero cond tb fb => EvalAt_IfZero (TestAt k m cond) (EvalAt k m tb) (EvalAt k m fb)
  | LabelledConst _ v => Ok v
  | Mul args => EvalAt_Mul (map (EvalAt k m) args)
  | Norm arg => EvalAt_Norm (EvalAt k m arg)
  | RegisterAccess a => access_at k m a
  | Sub args => EvalAt_Sub (map (EvalAt k m) args)
  | VectorAccess vars => vector_at k m vars
  end
with TestAt (k : Z) m l {struct l} : result bool :=
  match l with
  | Conjunct args => test_all (map (TestAt k m) args)
  | Disjunct args => test_any (map (TestAt k m) args)
  | Equal lhs rhs => TestAt_Equal (EvalAt k m lhs) (EvalAt k m rhs)
  | Ite cond tb fb => TestAt_Ite (TestAt k m cond) (option_map (TestAt k m) tb) (option_map (TestAt k m) fb)
  | Negate arg => TestAt_Negate (TestAt k m arg)
  | NotEqual lhs rhs => TestAt_NotEqual (EvalAt k m lhs) (EvalAt k m rhs)
  end.

(** ** Shifting *)

Fixpoint ApplyShift e (s : Z) {struct e} : Expr F :=
  match e with
  | Add args => Add (map (fun a => ApplyShift a s) args)
  | Cast arg bw _ => CastOf (ApplyShift arg s) bw
  | Constant v => Constant v
  | Exp arg pow => Exp (ApplyShift arg s) pow
  | IfZero cond tb fb => IfZero (ApplyShift_logical cond s) (ApplyShift tb s) (ApplyShift fb s)
  | LabelledConst label v => LabelledConst label v
  | Mul args => Mul (map (fun a => ApplyShift a s) args)
  | Norm arg => Norm (ApplyShift arg s)
  | RegisterAccess a => RegisterAccess (Access.ApplyShift a s)
  | Sub args => Sub (map (fun a => ApplyShift a s) args)
  | VectorAccess vars => VectorAccess (map (fun a => Access.ApplyShift a s) vars)
  end
with ApplyShift_logical l (s : Z) {struct l} : Logical F :=
  match l with
  | Conjunct args => Conjunction (map (fun a => ApplyShift_logical a s) args)
  | Disjunct args => Disjunction (map (fun a => ApplyShift_logical a s) args)
  | Equal lhs rhs => Equal (ApplyShift lhs s) (ApplyShift rhs s)
  | Ite cond tb fb =>
      Ite (ApplyShift_logical cond s) (option_map (fun t => ApplyShift_logical t s) tb)
        (option_map (fun f => ApplyShift_logical f s) fb)
  | Negate arg => Negate (ApplyShift_logical arg s)
  | NotEqual lhs rhs => NotEqual (ApplyShift lhs s) (ApplyShift rhs s)
  end.

(** [shiftRangeOfTerms] *)
Definition shiftRangeOfTerms (terms : list (result (Z * Z))) : result (Z * Z) :=
  foldl (fun acc term =>
    '(minShift, maxShift) ← acc;
    '(tMin, tMax) ← term;
    Ok (Z.min minShift tMin, Z.max maxShift tMax)) (Ok (MaxInt, MinInt)) terms.

Definition access_shifts (a : Access.t) : result (Z * Z) := Ok (Access.shift a, Access.shift a).

Definition ShiftRange_IfZero (cond tb fb : result (Z * Z)) : result (Z * Z) :=
  '(cMin, cMax) ← cond;
  '(tMin, tMax) ← tb;
  '(fMin, fMax) ← fb;
  Ok (Z.min cMin (Z.min tMin fMin), Z.max cMax (Z.max tMax fMax)).

(** A conditional without branches panics on the type assertion. *)
Definition ShiftRange_Ite (cond : result (Z * Z)) (tb fb : option (result (Z * Z))) : result (Z * Z) :=
  match tb, fb with
  | None, None => Fault (Panic "interface conversion")
  | None, Some f => shiftRangeOfTerms [cond; f]
  | Some t, None => shiftRangeOfTerms [cond; t]
  | Some t, Some f => shiftRangeOfTerms [cond; t; f]
  end.

Fixpoint ShiftRange e : result (Z * Z) :=
  match e with
  | Add args | Mul args | Sub args => shiftRangeOfTerms (map ShiftRange args)
  | Cast arg _ _ | Exp arg _ | Norm arg => ShiftRange arg
  | Constant _ | LabelledConst _ _ => Ok (MaxInt, MinInt)
  | IfZero cond tb fb => ShiftRange_IfZero (ShiftRange_logical cond) (ShiftRange tb) (ShiftRange fb)
  | RegisterAccess a => access_shifts a
  | VectorAccess vars => shiftRangeOfTerms (map access_shifts vars)
  end
with ShiftRange_logical l : result (Z * Z) :=
  match l with
  | Conjunct args | Disjunct args => shiftRangeOfTerms (map ShiftRange_logical args)
  | Equal lhs rhs | NotEqual lhs rhs => shiftRangeOfTerms [ShiftRange lhs; ShiftRange rhs]
  | Ite cond tb fb =>
      ShiftRange_Ite (ShiftRange_logical cond) (option_map ShiftRange_logical tb) (option_map ShiftRange_logical fb)
  | Negate arg => ShiftRange_logical arg
  end.

Definition Bounds_IfZero (c t f : Bounds.t) : Bounds.t := Bounds.Union (Bounds.Union c t) f.
Definition Bounds_Equal (l r : Bounds.t) : Bounds.t := Bounds.Union l r.

Definition Bounds_Ite (c : Bounds.t) (tb fb : option Bounds.t) : Bounds.t :=
  let c := match tb with Some t => Bounds.Union c t | None => c end in
  match fb with Some f => Bounds.Union c f | None => c end.

Fixpoint Bounds_of e : Bounds.t :=
  match e with
  | Add args | Mul args | Sub args => Bounds.BoundsForArray (map Bounds_of args)
  | Cast arg _ _ | Exp arg _ | Norm arg => Bounds_of arg
  | Constant _ | LabelledConst _ _ => Bounds.EMPTY_BOUND
  | IfZero cond tb fb => Bounds_IfZero (Bounds_logical cond) (Bounds_of tb) (Bounds_of fb)
  | RegisterAccess a => Access.Bounds a
  | VectorAccess vars => Bounds.BoundsForArray (map Access.Bounds vars)
  end
with Bounds_logical l : Bounds.t :=
  match l with
  | Conjunct args | Disjunct args => Bounds.BoundsForArray (map Bounds_logical args)
  | Equal lhs rhs | NotEqual lhs rhs => Bounds_Equal (Bounds_of lhs) (Bounds_of rhs)
  | Ite cond tb fb => Bounds_Ite (Bounds_logical cond) (option_map Bounds_logical tb) (option_map Bounds_logical fb)
  | Negate arg => Bounds_logical arg
  end.

(** ** The cells and registers that a term reads *)

(** [requiredCellsOfTerms] *)
Definition cells_of_terms (args : list (result (list CellRef))) : result (list CellRef) :=
  sets ← mapM id args; UnionAnySortedSets zero_cell sets id.

Definition insert_cells (set : result (list CellRef)) (other : result (list CellRef)) : result (list CellRef) :=
  s ← set; o ← other; InsertSorted zero_cell s o.

Definition RequiredCells_IfZero (c t f : result (list CellRef)) : result (list CellRef) := insert_cells (insert_cells c t) f.

Definition RequiredCells_Ite (c : result (list CellRef)) (tb fb : option (result (list CellRef))) : result (list CellRef) :=
  let set := match tb with Some t => insert_cells c t | None => c end in
  match fb with Some f => insert_cells set f | None => set end.

Fixpoint RequiredCells e (row : Z) (mid : nat) {struct e} : result (list CellRef) :=
  match e with
  | Add args | Mul args | Sub args => cells_of_terms (map (fun a => RequiredCells a row mid) args)
  | Cast arg _ _ | Exp arg _ | Norm arg => RequiredCells arg row mid
  | Constant _ | LabelledConst _ _ => Ok (NewAnySortedSet [])
  | IfZero cond tb fb =>
      RequiredCells_IfZero (RequiredCells_logical cond row mid) (RequiredCells tb row mid) (RequiredCells fb row mid)
  | RegisterAccess a => Access.RequiredCells a row mid
  | VectorAccess vars => cells_of_terms (map (fun a => Access.RequiredCells a row mid) vars)
  end
with RequiredCells_logical l (row : Z) (mid : nat) {struct l} : result (list CellRef) :=
  match l with
  | Conjunct args | Disjunct args => cells_of_terms (map (fun a => RequiredCells_logical a row mid) args)
  | Equal lhs rhs | NotEqual lhs rhs => insert_cells (RequiredCells lhs row mid) (RequiredCells rhs row mid)
  | Ite cond tb fb =>
      RequiredCells_Ite (RequiredCells_logical cond row mid) (option_map (fun t => RequiredCells_logical t row mid) tb)
        (option_map (fun f => RequiredCells_logical f row mid) fb)
  | Negate arg => RequiredCells_logical arg row mid
  end.

(** ** Ranges of values *)

Definition valueRangeOfBits (bitwidth : Z) : result Interval.t := Interval.NewInterval 0 (2 ^ bitwidth - 1).

(** The range of a [Cast]: [Range] *)
Definition Range (bitwidth : Z) : result Interval.t := Interval.NewInterval 0 (2 ^ bitwidth - 1).

Definition range_of_const (v : F) : result Interval.t :=
  let c := Register.BigSetBytes (e_Bytes v) in Interval.NewInterval c c.

(** The loop of [ValueRange]; an empty [Interval] is [[0, 0]]. *)
Definition range_args (op : Interval.t -> Interval.t -> Interval.t) (args : list (result Interval.t)) : result Interval.t :=
  match args with
  | [] => Ok (Interval.mk (InfInt.SetInt 0) (InfInt.SetInt 0))
  | a :: rest =>
      first ← a;
      foldl (fun acc arg => res ← acc; ith ← arg; Ok (op res ith)) (Ok (Interval.Set_ first)) rest
  end.

Definition ValueRange_Cast (arg : result Interval.t) (bw : Z) : result Interval.t :=
  cast ← Range bw;
  res ← arg;
  within ← Interval.Within res cast;
  Ok (if within : bool then res else cast).

Definition ValueRange_Exp (arg : result Interval.t) (pow : Z) : result Interval.t :=
  bounds ← arg; Ok (Interval.Exp bounds (Z.to_nat pow)).

Definition ValueRange_IfZero (tb fb : result Interval.t) : result Interval.t :=
  trueBounds ← tb; falseBounds ← fb; Ok (Interval.Union trueBounds falseBounds).

Definition ValueRange_Norm : result Interval.t := Interval.NewInterval 0 1.

Definition ValueRange_RegisterAccess (a : Access.t) : result Interval.t :=
  if Access.bitwidth a =? MaxUint then Ok Interval.INFINITY else valueRangeOfBits (Access.maskwidth a).

Definition ValueRange_VectorAccess (vars : list Access.t) : result Interval.t :=
  valueRangeOfBits (foldl (fun width a => u64 (width + Access.maskwidth a)) 0 vars).

Definition ValueRange_Add (args : list (result Interval.t)) : result Interval.t := range_args Interval.Add args.
Definition ValueRange_Mul (args : list (result Interval.t)) : result Interval.t := range_args Interval.Mul args.
Definition ValueRange_Sub (args : list (result Interval.t)) : result Interval.t := range_args Interval.Sub args.

Fixpoint ValueRange e : result Interval.t :=
  match e with
  | Add args => ValueRange_Add (map ValueRange args)
  | Cast arg bw _ => ValueRange_Cast (ValueRange arg) bw
  | Constant v | LabelledConst _ v => range_of_const v
  | Exp arg pow => ValueRange_Exp (ValueRange arg) pow
  | IfZero _ tb fb => ValueRange_IfZero (ValueRange tb) (ValueRange fb)
  | Mul args => ValueRange_Mul (map ValueRange args)
  | Norm _ => ValueRange_Norm
  | RegisterAccess a => ValueRange_RegisterAccess a
  | Sub args => ValueRange_Sub (map ValueRange args)
  | VectorAccess vars => ValueRange_VectorAccess vars
  end.

(** ** Labelled constants, and unsafe terms *)

Definition Substitute_LabelledConst (mapping : gmap string F) (label : string) (v : F) : F := default v (mapping !! label).

Fixpoint Substitute (mapping : gmap string F) e {struct e} : Expr F :=
  match e with
  | Add args => Add (map (Substitute mapping) args)
  | Cast arg bw bound => Cast (Substitute mapping arg) bw bound
  | Constant v => Constant v
  | Exp arg pow => Exp (Substitute mapping arg) pow
  | IfZero cond tb fb => IfZero (Substitute_logical mapping cond) (Substitute mapping tb) (Substitute mapping fb)
  | LabelledConst label v => LabelledConst label (Substitute_LabelledConst mapping label v)
  | Mul args => Mul (map (Substitute mapping) args)
  | Norm arg => Norm (Substitute mapping arg)
  | RegisterAccess a => RegisterAccess a
  | Sub args => Sub (map (Substitute mapping) args)
  | VectorAccess vars => VectorAccess vars
  end
with Substitute_logical (mapping : gmap string F) l {struct l} : Logical F :=
  match l with
  | Conjunct args => Conjunct (map (Substitute_logical mapping) args)
  | Disjunct args => Disjunct (map (Substitute_logical mapping) args)
  | Equal lhs rhs => Equal (Substitute mapping lhs) (Substitute mapping rhs)
  | Ite cond tb fb =>
      Ite (Substitute_logical mapping cond) (option_map (Substitute_logical mapping) tb)
        (option_map (Substitute_logical mapping) fb)
  | Negate arg => Negate (Substitute_logical mapping arg)
  | NotEqual lhs rhs => NotEqual (Substitute mapping lhs) (Substitute mapping rhs)
  end.

Definition unsafe_access (a : Access.t) : bool := negb (Access.bitwidth a =? Access.maskwidth a).

Fixpoint IsUnsafeExpr e : bool :=
  match e with
  | Add args | Mul args | Sub args => existsb IsUnsafeExpr args
  | Cast _ _ _ => true
  | Constant _ | LabelledConst _ _ => false
  | Exp arg _ | Norm arg => IsUnsafeExpr arg
  | IfZero cond tb fb => IsUnsafeLogical cond || IsUnsafeExpr tb || IsUnsafeExpr fb
  | RegisterAccess a => unsafe_access a
  | VectorAccess vars => existsb unsafe_access vars
  end
with IsUnsafeLogical l : bool :=
  match l with
  | Conjunct args | Disjunct args => existsb IsUnsafeLogical args
  | Equal lhs rhs | NotEqual lhs rhs => IsUnsafeExpr lhs || IsUnsafeExpr rhs
  | Ite cond tb fb =>
      IsUnsafeLogical cond || match tb with Some t => IsUnsafeLogical t | None => false end
        || match fb with Some f => IsUnsafeLogical f | None => false end
  | Negate arg => IsUnsafeLogical arg
  end.

Fixpoint ComplexityOfTerm e : result Z :=
  match e with
  | Add args | Sub args =>
      foldl (fun acc arg => r ← acc; c ← arg; Ok (Z.max r c)) (Ok 0) (map ComplexityOfTerm args)
  | Constant _ => Ok 0
  | Mul args => foldl (fun acc arg => r ← acc; c ← arg; Ok (u64 (r + c))) (Ok 0) (map ComplexityOfTerm args)
  | RegisterAccess _ => Ok 1
  | _ => Fault (Panic "unknown computation encountered")
  end.

(** ** Negation *)

Definition Negate_Conjunct (args : list (Logical F)) : Logical F := Disjunction args.
Definition Negate_Disjunct (args : list (Logical F)) : Logical F := Conjunction args.

(** A missing branch is true, so its negation is false. *)
Definition Negate_Ite (cond : Logical F) (tb fb : option (Logical F)) : Logical F :=
  Ite cond (Some (default False_ tb)) (Some (default False_ fb)).

Fixpoint Negate_ l : Logical F :=
  match l with
  | Conjunct args => Negate_Conjunct (map Negate_ args)
  | Disjunct args => Negate_Disjunct (map Negate_ args)
  | Equal lhs rhs => NotEqual lhs rhs
  | Ite cond tb fb =>
      Negate_Ite cond (option_map Negate_ tb) (option_map Negate_ fb)
  | Negate arg => arg
  | NotEqual lhs rhs => Equal lhs rhs
  end.

End Term.

(** Unfolds the methods of the terms *)
Ltac methods :=
  unfold EvalAt_Add, EvalAt_Sub, EvalAt_Mul, EvalAt_Cast, EvalAt_Exp, EvalAt_IfZero, EvalAt_Norm,
    TestAt_Equal, TestAt_NotEqual, TestAt_Ite, TestAt_Negate, ShiftRange_IfZero, ShiftRange_Ite,
    Bounds_IfZero, Bounds_Equal, Bounds_Ite, RequiredCells_IfZero, RequiredCells_Ite,
    ValueRange_Add, ValueRange_Mul, ValueRange_Sub, ValueRange_Cast, ValueRange_Exp, ValueRange_IfZero,
    ValueRange_Norm, ValueRange_RegisterAccess, ValueRange_VectorAccess,
    Negate_Conjunct, Negate_Disjunct, Negate_Ite, Substitute_LabelledConst.
