(* ===== verification/TermFacts.v ===== *)
(** * Facts about terms

    The induction principle of the terms of [Term.v], their well-formedness and
    that the operations keep it, and the equations and bounds of evaluation that
    the properties of [TermProperties.v], the simplifier and the constraints use. *)

From Stdlib Require Import ZArith Lia.
From stdpp Require Import base numbers list option strings gmap.
From S2P Require Import Prelude FieldElement Interval Register SortedSet Element Trace Term.

Open Scope Z_scope.

(** ** Induction *)

Definition Forall_all {A} {P : A -> Prop} (f : forall x, P x) : forall l, Forall P l :=
  fix go l := match l with [] => Forall_nil_2 P | x :: l => Forall_cons_2 P x l (f x) (go l) end.

(** A property of an optional branch *)
Definition on_branch {A} (P : A -> Prop) (o : option A) : Prop := match o with Some x => P x | None => True end.

Section Induction.
Context {F : Type} (P : Expr F -> Prop) (Q : Logical F -> Prop).

Record term_cases : Prop := {
  case_Add args : Forall P args -> P (Add args);
  case_Cast arg bw bound : P arg -> P (Cast arg bw bound);
  case_Constant v : P (Constant v);
  case_Exp arg pow : P arg -> P (Exp arg pow);
  case_IfZero c t f : Q c -> P t -> P f -> P (IfZero c t f);
  case_LabelledConst label v : P (LabelledConst label v);
  case_Mul args : Forall P args -> P (Mul args);
  case_Norm arg : P arg -> P (Norm arg);
  case_RegisterAccess a : P (RegisterAccess a);
  case_Sub args : Forall P args -> P (Sub args);
  case_VectorAccess vars : P (VectorAccess vars);
  case_Conjunct args : Forall Q args -> Q (Conjunct args);
  case_Disjunct args : Forall Q args -> Q (Disjunct args);
  case_Equal lhs rhs : P lhs -> P rhs -> Q (Equal lhs rhs);
  case_Ite c t f : Q c -> on_branch Q t -> on_branch Q f -> Q (Ite c t f);
  case_Negate arg : Q arg -> Q (Negate arg);
  case_NotEqual lhs rhs : P lhs -> P rhs -> Q (NotEqual lhs rhs)
}.

Context (H : term_cases).

Definition branch_all (f : forall l, Q l) (o : option (Logical F)) : on_branch Q o :=
  match o with Some l => f l | None => I end.

Fixpoint expr_induction (e : Expr F) : P e :=
  match e with
  | Add args => case_Add H args (Forall_all expr_induction args)
  | Cast arg bw bound => case_Cast H arg bw bound (expr_induction arg)
  | Constant v => case_Constant H v
  | Exp arg pow => case_Exp H arg pow (expr_induction arg)
  | IfZero c t f => case_IfZero H c t f (logical_induction c) (expr_induction t) (expr_induction f)
  | LabelledConst label v => case_LabelledConst H label v
  | Mul args => case_Mul H args (Forall_all expr_induction args)
  | Norm arg => case_Norm H arg (expr_induction arg)
  | RegisterAccess a => case_RegisterAccess H a
  | Sub args => case_Sub H args (Forall_all expr_induction args)
  | VectorAccess vars => case_VectorAccess H vars
  end
with logical_induction (l : Logical F) : Q l :=
  match l with
  | Conjunct args => case_Conjunct H args (Forall_all logical_induction args)
  | Disjunct args => case_Disjunct H args (Forall_all logical_induction args)
  | Equal lhs rhs => case_Equal H lhs rhs (expr_induction lhs) (expr_induction rhs)
  | Ite c t f => case_Ite H c t f (logical_induction c) (branch_all logical_induction t) (branch_all logical_induction f)
  | Negate arg => case_Negate H arg (logical_induction arg)
  | NotEqual lhs rhs => case_NotEqual H lhs rhs (expr_induction lhs) (expr_induction rhs)
  end.

Lemma term_induction : (forall e, P e) /\ (forall l, Q l).
Proof. exact (conj expr_induction logical_induction). Qed.

End Induction.

(** Equal results of the arguments *)
Lemma map_ext_Forall {A B} (f g : A -> B) l : Forall (fun x => f x = g x) l -> map f l = map g l.
Proof. induction 1; cbn; congruence. Qed.

Lemma map_map_Forall {A B C} (f : A -> B) (g : B -> C) (h : A -> C) l :
  Forall (fun x => g (f x) = h x) l -> map g (map f l) = map h l.
Proof. rewrite map_map. apply map_ext_Forall. Qed.

(** [cbn] for the mutual functions, which it leaves unfolded where an expression
    has a condition *)
Ltac tcbn :=
  cbn;
  match goal with
  | HE : Element ?F |- _ =>
      fold (@TestAt F HE) (@ApplyShift_logical F HE) (@ShiftRange_logical F) (@Bounds_logical F)
        (@RequiredCells_logical F) (@Substitute_logical F) (@IsUnsafeLogical F);
      fold (@EvalAt F HE) (@ApplyShift F HE) (@ShiftRange F) (@Bounds_of F) (@RequiredCells F) (@Substitute F) (@IsUnsafeExpr F);
      methods
  end.

(** ** Equations of evaluation *)

Section Evaluation.
Context {F : Type} `{!Element F}.
Implicit Types (e : Expr F) (l : Logical F) (m : ArrayModule F).

Lemma test_all_negb rs : test_any (map (fmap negb) rs) = negb <$> test_all rs.
Proof. induction rs as [|[[]|] rs IH]; cbn in *; [done | exact IH | done | done]. Qed.

Lemma test_any_negb rs : test_all (map (fmap negb) rs) = negb <$> test_any rs.
Proof. induction rs as [|[[]|] rs IH]; cbn in *; [done | done | exact IH | done]. Qed.

Lemma Conjunction_TestAt k m args : TestAt k m (Conjunction args) = test_all (map (TestAt k m) args).
Proof. destruct args as [|t [|t' args]]; try done. cbn. by destruct (TestAt k m t) as [[]|]. Qed.

Lemma Disjunction_TestAt k m args : TestAt k m (Disjunction args) = test_any (map (TestAt k m) args).
Proof. destruct args as [|t [|t' args]]; try done. cbn. by destruct (TestAt k m t) as [[]|]. Qed.

Lemma both_negb x y (f : F -> F -> bool) : both x y (fun a b => negb (f a b)) = negb <$> both x y f.
Proof. by destruct x as [|[]], y as [|[]]. Qed.

Lemma Negate_TestAt k m l : TestAt k m (Negate_ l) = negb <$> TestAt k m l.
Proof.
  revert l. apply (@logical_induction F (fun _ => True)). split; try done.
  - intros args IH. tcbn. rewrite Disjunction_TestAt, map_map, <-test_all_negb, map_map.
    f_equal. by apply map_ext_Forall.
  - intros args IH. tcbn. rewrite Conjunction_TestAt, map_map, <-test_any_negb, map_map.
    f_equal. by apply map_ext_Forall.
  - intros lhs rhs _ _. tcbn. apply both_negb.
  - intros c t f _ Ht Hf. tcbn. destruct (TestAt k m c) as [[]|]; cbn; [destruct t|destruct f|]; done.
  - intros arg _. tcbn. destruct (TestAt k m arg) as [b|]; cbn; [by rewrite negb_involutive | done].
  - intros lhs rhs _ _. tcbn. rewrite both_negb. destruct (both _ _ _) as [b|]; cbn; [by rewrite negb_involutive | done].
Qed.

End Evaluation.

(** ** Predicates on all subexpressions *)

Definition all_ {A} (P : A -> Prop) (l : list A) : Prop := foldr (fun a => and (P a)) True l.

Lemma all_Forall {A} (P : A -> Prop) l : all_ P l <-> Forall P l.
Proof. induction l as [|a l IH]; cbn; [by split; [constructor|]|]. by rewrite IH, Forall_cons. Qed.

Lemma Forall_mp {A} (P Q : A -> Prop) l : Forall (fun x => P x -> Q x) l -> all_ P l -> Forall Q l.
Proof. induction 1; cbn; [constructor|]. intros [??]. constructor; auto. Qed.

Section Every.
Context {F : Type}.
Implicit Types (e : Expr F) (l : Logical F) (N : Expr F -> Prop).

Fixpoint every N e {struct e} : Prop :=
  N e /\
  match e with
  | Add args | Mul args | Sub args => all_ (every N) args
  | Cast arg _ _ | Exp arg _ | Norm arg => every N arg
  | Constant _ | LabelledConst _ _ | RegisterAccess _ | VectorAccess _ => True
  | IfZero c t f => every_logical N c /\ every N t /\ every N f
  end
with every_logical N l {struct l} : Prop :=
  match l with
  | Conjunct args | Disjunct args => all_ (every_logical N) args
  | Equal lhs rhs | NotEqual lhs rhs => every N lhs /\ every N rhs
  | Ite c t f =>
      every_logical N c /\ match t with Some t => every_logical N t | None => True end
        /\ match f with Some f => every_logical N f | None => True end
  | Negate arg => every_logical N arg
  end.

Lemma every_here N e : every N e -> N e.
Proof. destruct e; cbn; tauto. Qed.

Lemma every_args N args : all_ (every N) args <-> Forall (every N) args.
Proof. apply all_Forall. Qed.

Lemma every_logical_args N args : all_ (every_logical N) args <-> Forall (every_logical N) args.
Proof. apply all_Forall. Qed.

(** Induction over the terms all of whose subexpressions satisfy [N] *)
Record every_cases N (P : Expr F -> Prop) (Q : Logical F -> Prop) : Prop := {
  every_Add args : N (Add args) -> Forall P args -> P (Add args);
  every_Cast arg bw bound : N (Cast arg bw bound) -> P arg -> P (Cast arg bw bound);
  every_Constant v : N (Constant v) -> P (Constant v);
  every_Exp arg pow : N (Exp arg pow) -> P arg -> P (Exp arg pow);
  every_IfZero c t f : N (IfZero c t f) -> Q c -> P t -> P f -> P (IfZero c t f);
  every_LabelledConst label v : N (LabelledConst label v) -> P (LabelledConst label v);
  every_Mul args : N (Mul args) -> Forall P args -> P (Mul args);
  every_Norm arg : N (Norm arg) -> P arg -> P (Norm arg);
  every_RegisterAccess a : N (RegisterAccess a) -> P (RegisterAccess a);
  every_Sub args : N (Sub args) -> Forall P args -> P (Sub args);
  every_VectorAccess vars : N (VectorAccess vars) -> P (VectorAccess vars);
  every_Conjunct args : Forall Q args -> Q (Conjunct args);
  every_Disjunct args : Forall Q args -> Q (Disjunct args);
  every_Equal lhs rhs : P lhs -> P rhs -> Q (Equal lhs rhs);
  every_Ite c t f : Q c -> on_branch Q t -> on_branch Q f -> Q (Ite c t f);
  every_Negate arg : Q arg -> Q (Negate arg);
  every_NotEqual lhs rhs : P lhs -> P rhs -> Q (NotEqual lhs rhs)
}.

Lemma every_induction N P Q :
  every_cases N P Q -> (forall e, every N e -> P e) /\ (forall l, every_logical N l -> Q l).
Proof.
  intros H. apply term_induction. split; cbn.
  - intros args IH [HN Ha]. apply (every_Add _ _ _ H); [done | by apply (Forall_mp _ _ _ IH)].
  - intros arg bw bound IH [HN Ha]. apply (every_Cast _ _ _ H); auto.
  - intros v [HN _]. by apply (every_Constant _ _ _ H).
  - intros arg pow IH [HN Ha]. apply (every_Exp _ _ _ H); auto.
  - intros c t f IHc IHt IHf (HN & Hc & Ht & Hf). apply (every_IfZero _ _ _ H); auto.
  - intros label v [HN _]. by apply (every_LabelledConst _ _ _ H).
  - intros args IH [HN Ha]. apply (every_Mul _ _ _ H); [done | by apply (Forall_mp _ _ _ IH)].
  - intros arg IH [HN Ha]. apply (every_Norm _ _ _ H); auto.
  - intros a [HN _]. by apply (every_RegisterAccess _ _ _ H).
  - intros args IH [HN Ha]. apply (every_Sub _ _ _ H); [done | by apply (Forall_mp _ _ _ IH)].
  - intros vars [HN _]. by apply (every_VectorAccess _ _ _ H).
  - intros args IH Ha. apply (every_Conjunct _ _ _ H). by apply (Forall_mp _ _ _ IH).
  - intros args IH Ha. apply (every_Disjunct _ _ _ H). by apply (Forall_mp _ _ _ IH).
  - intros lhs rhs IHl IHr [Hl Hr]. apply (every_Equal _ _ _ H); auto.
  - intros c t f IHc IHt IHf (Hc & Ht & Hf). apply (every_Ite _ _ _ H); [auto|destruct t|destruct f]; cbn in *; auto.
  - intros arg IH Ha. apply (every_Negate _ _ _ H); auto.
  - intros lhs rhs IHl IHr [Hl Hr]. apply (every_NotEqual _ _ _ H); auto.
Qed.

Lemma every_impl N N' :
  (forall e, N e -> N' e) -> (forall e, every N e -> every N' e) /\ (forall l, every_logical N l -> every_logical N' l).
Proof.
  intros Himpl. apply every_induction. split; intros; cbn; rewrite ?every_args, ?every_logical_args;
    try match goal with |- context [match ?o with _ => _ end] => destruct o end; cbn in *; auto.
  all: destruct f; cbn in *; auto.
Qed.

Lemma every_and N N' :
  (forall e, every N e -> every N' e -> every (fun e => N e /\ N' e) e) /\
  (forall l, every_logical N l -> every_logical N' l -> every_logical (fun e => N e /\ N' e) l).
Proof.
  apply term_induction. split; cbn; try (intros *; tauto).
  1-3: intros args IH [HN Ha%all_Forall] [HN' Ha'%all_Forall]; split; [done|]; apply all_Forall;
    rewrite Forall_forall in IH, Ha, Ha' |- *; auto.
  1-2: intros args IH Ha%all_Forall Ha'%all_Forall; apply all_Forall; rewrite Forall_forall in IH, Ha, Ha' |- *; auto.
  intros c t f Hc Ht Hf (HNc & HNt & HNf) (HNc' & HNt' & HNf'). destruct t, f; cbn in *; tauto.
Qed.

End Every.

(** ** Well-formed terms *)

Section Wellformed.
Context {F : Type} `{!Element F, !ElementLaws F}.
Implicit Types (e : Expr F) (l : Logical F) (m : ArrayModule F).

Definition access_wf (a : Access.t) : Prop := 0 <= Access.maskwidth a.

(** The width of a vector *)
Fixpoint widths (vars : list Access.t) : Z :=
  match vars with [] => 0 | a :: rest => Access.maskwidth a + widths rest end.

Lemma widths_nonneg vars : Forall access_wf vars -> 0 <= widths vars.
Proof. unfold access_wf. induction 1; cbn; lia. Qed.

Lemma widths_shift vars s : widths (map (fun a => Access.ApplyShift a s) vars) = widths vars.
Proof. induction vars as [|a vars IH]; cbn; [done|]. by rewrite IH. Qed.

(** What the constructors establish: arguments where evaluation needs one,
    elements that are valid, and casts with the bound of their width *)
Definition node_wf e : Prop :=
  match e with
  | Add args | Mul args | Sub args => args <> []
  | Cast _ bw bound => 0 <= bw /\ bound = TwoPowN bw
  | Constant v | LabelledConst _ v => element_ok v
  | Exp _ pow => 0 <= pow
  | RegisterAccess a => access_wf a
  | VectorAccess vars => vars <> [] /\ Forall access_wf vars /\ widths vars < 2 ^ 64
  | IfZero _ _ _ | Norm _ => True
  end.

Definition expr_wf e : Prop := every node_wf e.
Definition logical_wf l : Prop := every_logical node_wf l.

(** *** Shifting *)

Lemma access_at_shift k m a s : access_at k m (Access.ApplyShift a s) = access_at (k + s) m a.
Proof. unfold access_at. cbn. by replace (k + (Access.shift a + s)) with (k + s + Access.shift a) by lia. Qed.

Lemma vector_args_shift k m vars s acc w :
  vector_args k m (map (fun a => Access.ApplyShift a s) vars) acc w = vector_args (k + s) m vars acc w.
Proof.
  revert acc w. induction vars as [|a vars IH]; intros acc w; [done|]. cbn. rewrite access_at_shift.
  by destruct (access_at (k + s) m a); cbn.
Qed.

Lemma vector_at_shift k m vars s :
  vector_at k m (map (fun a => Access.ApplyShift a s) vars) = vector_at (k + s) m vars.
Proof.
  destruct vars as [|a vars]; [done|]. cbn. rewrite access_at_shift.
  destruct (access_at (k + s) m a); cbn; [apply vector_args_shift | done].
Qed.

Lemma shift_at k m s :
  (forall e, expr_wf e -> EvalAt k m (ApplyShift e s) = EvalAt (k + s) m e) /\
  (forall l, logical_wf l -> TestAt k m (ApplyShift_logical l s) = TestAt (k + s) m l).
Proof.
  apply every_induction. split; tcbn; try done.
  - intros args _ IH. by rewrite (map_map_Forall _ _ _ _ IH).
  - intros arg bw bound [_ ->] IH. by rewrite IH.
  - intros arg pow _ IH. by rewrite IH.
  - intros c t f _ -> -> ->. done.
  - intros args _ IH. by rewrite (map_map_Forall _ _ _ _ IH).
  - intros arg _ ->. done.
  - intros a _. apply access_at_shift.
  - intros args _ IH. by rewrite (map_map_Forall _ _ _ _ IH).
  - intros vars _. apply vector_at_shift.
  - intros args IH. by rewrite Conjunction_TestAt, (map_map_Forall _ _ _ _ IH).
  - intros args IH. by rewrite Disjunction_TestAt, (map_map_Forall _ _ _ _ IH).
  - intros lhs rhs -> ->. done.
  - intros c t f -> Ht Hf. destruct t, f; cbn in *; by rewrite ?Ht, ?Hf.
  - intros arg ->. done.
  - intros lhs rhs -> ->. done.
Qed.

Lemma Conjunction_every (N : Expr F -> Prop) args : every_logical N (Conjunction args) <-> Forall (every_logical N) args.
Proof. rewrite <-every_logical_args. destruct args as [|? [|]]; cbn; tauto. Qed.

Lemma Disjunction_every (N : Expr F -> Prop) args : every_logical N (Disjunction args) <-> Forall (every_logical N) args.
Proof. rewrite <-every_logical_args. destruct args as [|? [|]]; cbn; tauto. Qed.

Lemma map_not_nil {A B} (f : A -> B) xs : xs <> [] -> map f xs <> [].
Proof. by destruct xs. Qed.

Lemma map_wf (f : Expr F -> Expr F) args :
  args <> [] -> Forall (fun e => expr_wf (f e)) args -> map f args <> [] /\ all_ (every node_wf) (map f args).
Proof. intros Hne Ha. split; [by apply map_not_nil|]. apply every_args. by apply Forall_map. Qed.

Lemma shift_wf s :
  (forall e, expr_wf e -> expr_wf (ApplyShift e s)) /\ (forall l, logical_wf l -> logical_wf (ApplyShift_logical l s)).
Proof.
  apply every_induction. split; unfold expr_wf, logical_wf; tcbn; try tauto.
  1-3: intros args Hne Ha; by apply map_wf.
  - intros vars (Hne & Ha & Hw). split; [|done]. rewrite widths_shift. split_and!; [by apply map_not_nil | by apply Forall_map | done].
  - intros args Ha. by apply Conjunction_every, Forall_map.
  - intros args Ha. by apply Disjunction_every, Forall_map.
  - intros c t f Hc Ht Hf. split; [done|]. split; [by destruct t | by destruct f].
Qed.

(** Negation has the same expressions. *)
Lemma Negate_every (N : Expr F -> Prop) l : every_logical N l -> every_logical N (Negate_ l).
Proof.
  revert l. apply (logical_induction (fun _ => True) (fun l => every_logical N l -> every_logical N (Negate_ l))). split; try done.
  - intros args IH Ha. apply Disjunction_every, Forall_map. by apply (Forall_mp _ _ _ IH).
  - intros args IH Ha. apply Conjunction_every, Forall_map. by apply (Forall_mp _ _ _ IH).
  - intros c t f _ Ht Hf (Hc & Hto & Hfo). split; [done|].
    split; [destruct t|destruct f]; cbn in *; solve [done | by apply Ht | by apply Hf].
Qed.

End Wellformed.

(** ** Values

    [denote] is the integer that a term stands for when its accesses have the
    values [env]; it is what evaluation computes, modulo the prime. *)

Section Denotation.
Context {F : Type} `{!Element F, !ElementLaws F}.
Implicit Types (e : Expr F) (l : Logical F) (m : ArrayModule F) (env : Access.t -> Z).

Abbreviation p := (modulus (F := F)).

Fixpoint zsum (zs : list Z) : Z := match zs with [] => 0 | z :: rest => z + zsum rest end.
Fixpoint zprod (zs : list Z) : Z := match zs with [] => 1 | z :: rest => z * zprod rest end.

Definition zero_test (z : Z) : bool := z mod p =? 0.

Fixpoint vector_value env (vars : list Access.t) : Z :=
  match vars with [] => 0 | a :: rest => env a + 2 ^ Access.maskwidth a * vector_value env rest end.

Definition difference (zs : list Z) : Z := match zs with [] => 0 | z :: rest => z - zsum rest end.

Fixpoint denote env e {struct e} : Z :=
  match e with
  | Add args => zsum (map (denote env) args)
  | Cast arg _ _ => denote env arg
  | Constant v | LabelledConst _ v => val v
  | Exp arg pow => denote env arg ^ pow
  | IfZero c t f => if holds env c then denote env t else denote env f
  | Mul args => zprod (map (denote env) args)
  | Norm arg => if zero_test (denote env arg) then 0 else 1
  | RegisterAccess a => env a
  | Sub args => difference (map (denote env) args)
  | VectorAccess vars => vector_value env vars
  end
with holds env l {struct l} : bool :=
  match l with
  | Conjunct args => forallb (holds env) args
  | Disjunct args => existsb (holds env) args
  | Equal lhs rhs => zero_test (denote env lhs - denote env rhs)
  | Ite c t f =>
      if holds env c then match t with Some t => holds env t | None => true end
      else match f with Some f => holds env f | None => true end
  | Negate arg => negb (holds env arg)
  | NotEqual lhs rhs => negb (zero_test (denote env lhs - denote env rhs))
  end.

(** The values of the accesses on row [k] of a module *)
Definition row_env (k : Z) m (a : Access.t) : Z :=
  match access_at k m a with Ok v => val v | Fault _ => 0 end.

(** *** The cells of a module *)

Definition column_wf (c : ArrayColumn F) : Prop :=
  element_ok (padding c) /\ forall d, data c = Some d -> Forall element_ok d.

Definition module_wf m : Prop := Forall column_wf (columns m).

Lemma Get_wf c row v : column_wf c -> Get c row = Ok v -> element_ok v.
Proof.
  intros [Hp Hd]. unfold Get, contents. destruct (row <? 0); [by intros [= <-]|].
  destruct (data c) as [d|]; [|done]. cbn. destruct (_ <=? row); [by intros [= <-]|].
  intros Hv%slice_get_ok. by eapply Forall_lookup_1; [apply Hd|].
Qed.

Lemma access_at_wf k m a v : module_wf m -> access_at k m a = Ok v -> element_ok v.
Proof.
  intros Hm. unfold access_at. intros (r & _ & H)%bind_ok. apply bind_ok in H as (c & Hc & Hv).
  apply slice_get_ok in Hc. by eapply Get_wf; [eapply Forall_lookup_1|].
Qed.

(** *** Sums and products of results *)

(** The results [vs] have the values [zs], modulo the prime. *)
Definition denotes (v : F) (z : Z) : Prop := element_ok v /\ eqm p (val v) z.

Lemma denotes_eq v w z : denotes v z -> denotes w z -> v = w.
Proof. intros [Hv Hvz] [Hw Hwz]. apply eq_by_val; [done..|]. by rewrite Hvz, Hwz. Qed.

Lemma denotes_val v z : denotes v z <-> element_ok v /\ val v = z mod p.
Proof.
  unfold denotes. split; intros [Hv H]; (split; [done|]).
  - apply eqm_mod_unique; [by apply val_range | done].
  - rewrite H. apply eqm_mod.
Qed.

#[export] Instance denotes_proper v : Proper (eqm p ==> iff) (denotes v).
Proof. intros z z' Hz. unfold denotes. by rewrite Hz. Qed.

Lemma denotes_zero v z : denotes v z -> e_IsZero v = zero_test z.
Proof.
  intros [Hv Hz]%denotes_val. rewrite is_zero_law by done. unfold zero_test. by rewrite Hz.
Qed.

Lemma zero_test_spec z : zero_test z = true <-> eqm p z 0.
Proof.
  unfold zero_test. pose proof (modulus_big (F := F)). by rewrite Z.eqb_eq, eqm_iff_mod, Z.mod_0_l by lia.
Qed.

Lemma denotes_Add v w z y : denotes v z -> denotes w y -> denotes (e_Add v w) (z + y).
Proof.
  intros [Hv Hz] [Hw Hy]. destruct (add_law v w Hv Hw) as [Hok _]. split; [done|]. by rewrite add_eqm, Hz, Hy.
Qed.

Lemma denotes_Sub v w z y : denotes v z -> denotes w y -> denotes (e_Sub v w) (z - y).
Proof.
  intros [Hv Hz] [Hw Hy]. destruct (sub_law v w Hv Hw) as [Hok _]. split; [done|]. by rewrite sub_eqm, Hz, Hy.
Qed.

Lemma denotes_Mul v w z y : denotes v z -> denotes w y -> denotes (e_Mul v w) (z * y).
Proof.
  intros [Hv Hz] [Hw Hy]. destruct (mul_law v w Hv Hw) as [Hok _]. split; [done|]. by rewrite mul_eqm, Hz, Hy.
Qed.

Lemma denotes_0 : denotes e_zero 0.
Proof. destruct zero_law as [Hz Hv]. split; [done|]. by rewrite Hv. Qed.

Lemma denotes_1 : denotes One 1.
Proof. destruct one_law as [Hz Hv]. split; [done|]. by rewrite Hv. Qed.

(** *** The outcome of evaluation

    A result is the expected value, or one of the faults [E]. *)

Definition outcome {A} (E : fault -> Prop) (R : A -> Prop) (r : result A) : Prop :=
  match r with Ok a => R a | Fault f => E f end.

Lemma outcome_bind {A B} E (R : A -> Prop) (S : B -> Prop) (r : result A) (k : A -> result B) :
  outcome E R r -> (forall a, R a -> outcome E S (k a)) -> outcome E S (r ≫= k).
Proof. destruct r; cbn; auto. Qed.

Lemma outcome_mono {A} (E E' : fault -> Prop) (R R' : A -> Prop) r :
  (forall f, E f -> E' f) -> (forall a, R a -> R' a) -> outcome E R r -> outcome E' R' r.
Proof. destruct r; cbn; auto. Qed.

Abbreviation valued E z r := (outcome E (fun v => denotes v z) r).

Section Outcome.
Context (E : fault -> Prop).

Lemma fold_add_outcome acc z rs zs :
  denotes acc z -> Forall2 (fun r z => valued E z r) rs zs -> valued E (z + zsum zs) (fold_args e_Add acc rs).
Proof.
  intros Hacc H. revert acc z Hacc. induction H as [|r y rs zs Hr _ IH]; intros acc z Hacc; cbn.
  { by rewrite Z.add_0_r. }
  eapply outcome_bind; [exact Hr|]. intros v Hv. rewrite Z.add_assoc. by apply IH, denotes_Add.
Qed.

Lemma fold_sub_outcome acc z rs zs :
  denotes acc z -> Forall2 (fun r z => valued E z r) rs zs -> valued E (z - zsum zs) (fold_args e_Sub acc rs).
Proof.
  intros Hacc H. revert acc z Hacc. induction H as [|r y rs zs Hr _ IH]; intros acc z Hacc; cbn.
  { by rewrite Z.sub_0_r. }
  eapply outcome_bind; [exact Hr|]. intros v Hv. replace (z - (y + zsum zs)) with (z - y - zsum zs) by lia.
  by apply IH, denotes_Sub.
Qed.

Lemma mul_args_outcome acc z rs zs :
  denotes acc z -> Forall2 (fun r z => valued E z r) rs zs -> valued E (z * zprod zs) (mul_args acc rs).
Proof.
  intros Hacc H. revert acc z Hacc. induction H as [|r y rs zs Hr _ IH]; intros acc z Hacc; cbn.
  { by rewrite Z.mul_1_r. }
  destruct (e_IsZero acc) eqn:Hz; cbn.
  - rewrite (denotes_zero acc z) in Hz by done. apply zero_test_spec in Hz.
    by rewrite Hz, Z.mul_0_l, <-Hz.
  - eapply outcome_bind; [exact Hr|]. intros v Hv. rewrite Z.mul_assoc. by apply IH, denotes_Mul.
Qed.

Lemma eval_args_outcome loop (comb : Z -> list Z -> Z) rs zs :
  (forall acc z rs zs, denotes acc z -> Forall2 (fun r z => valued E z r) rs zs -> valued E (comb z zs) (loop acc rs)) ->
  rs <> [] -> Forall2 (fun r z => valued E z r) rs zs ->
  valued E (match zs with [] => 0 | z :: zs => comb z zs end) (eval_args loop rs).
Proof.
  intros Hloop Hne H. destruct H as [|r z rs zs Hr H]; [done|]. cbn. eapply outcome_bind; [exact Hr|]. auto.
Qed.

Lemma test_all_outcome rs bs :
  Forall2 (fun r b => outcome E (eq b) r) rs bs -> outcome E (eq (forallb id bs)) (test_all rs).
Proof. induction 1 as [|r b rs bs Hr _ IH]; [done|]. cbn. eapply outcome_bind; [exact Hr|]. by intros [] ->. Qed.

Lemma test_any_outcome rs bs :
  Forall2 (fun r b => outcome E (eq b) r) rs bs -> outcome E (eq (existsb id bs)) (test_any rs).
Proof. induction 1 as [|r b rs bs Hr _ IH]; [done|]. cbn. eapply outcome_bind; [exact Hr|]. by intros [] ->. Qed.

Lemma both_outcome x y z w (f : F -> F -> bool) b :
  valued E z x -> valued E w y -> (forall a c, denotes a z -> denotes c w -> b = f a c) -> outcome E (eq b) (both x y f).
Proof. destruct x as [|[]], y as [|[]]; cbn; auto. Qed.

Lemma denotes_cmp v w z y : denotes v z -> denotes w y -> zero_test (z - y) = is_eq (e_Cmp v w).
Proof.
  intros Hv Hw. pose proof (denotes_zero _ _ (denotes_Sub _ _ _ _ Hv Hw)) as <-.
  destruct Hv as [Hv _], Hw as [Hw _]. destruct (sub_law v w Hv Hw) as [Hok Hs]. rewrite is_zero_law, Hs, cmp_law by done.
  pose proof (val_range v Hv). pose proof (val_range w Hw).
  destruct (Z.compare_spec (val v) (val w)) as [He|He|He]; cbn.
  - apply Z.eqb_eq. by rewrite He, Z.sub_diag, Z.mod_0_l by lia.
  - apply Z.eqb_neq. intros H1%Z.mod_divide; [|lia]. destruct H1 as [q Hq].
    destruct (Z.le_gt_cases 0 q); nia.
  - apply Z.eqb_neq. rewrite Z.mod_small; lia.
Qed.

(** *** Vectors *)

Lemma vector_args_outcome k m vars acc z w :
  denotes acc z -> 0 <= w -> w + widths vars < 2 ^ 64 -> Forall access_wf vars ->
  Forall (fun a => valued E (row_env k m a) (access_at k m a)) vars ->
  valued E (z + 2 ^ w * vector_value (row_env k m) vars) (vector_args k m vars acc w).
Proof.
  intros Hacc Hw Hlt Hwf Hvars. revert acc z w Hacc Hw Hlt.
  induction Hvars as [|a vars Ha Hvars IH]; intros acc z w Hacc Hw Hlt; cbn in *.
  { by rewrite Z.mul_0_r, Z.add_0_r. }
  apply Forall_cons in Hwf as [Hwa Hwf]. unfold access_wf in Hwa. pose proof (widths_nonneg vars Hwf).
  eapply outcome_bind; [exact Ha|]. intros v Hv. rewrite u64_small by lia.
  replace (z + 2 ^ w * (row_env k m a + 2 ^ Access.maskwidth a * vector_value (row_env k m) vars))
    with (z + row_env k m a * 2 ^ w + 2 ^ (w + Access.maskwidth a) * vector_value (row_env k m) vars)
    by (rewrite Z.pow_add_r by lia; lia).
  apply IH; [done| |lia|lia]. apply denotes_Add; [done|]. apply denotes_Mul; [done|].
  apply denotes_val. by apply TwoPowN_law.
Qed.

Lemma vector_at_outcome k m vars :
  vars <> [] -> widths vars < 2 ^ 64 -> Forall access_wf vars ->
  Forall (fun a => valued E (row_env k m a) (access_at k m a)) vars ->
  valued E (vector_value (row_env k m) vars) (vector_at k m vars).
Proof.
  intros Hne Hlt Hwf Hvars. destruct Hvars as [|a vars Ha Hvars]; [done|]. apply Forall_cons in Hwf as [Hwa Hwf].
  cbn in *. eapply outcome_bind; [exact Ha|]. intros v Hv.
  by apply vector_args_outcome.
Qed.

(** *** Evaluation *)

(** The faults that the accesses and casts of an expression may give on a row *)
Definition may_fault k m (e : Expr F) : Prop :=
  match e with
  | RegisterAccess a => outcome E (fun _ => True) (access_at k m a)
  | VectorAccess vars => Forall (fun a => outcome E (fun _ => True) (access_at k m a)) vars
  | Cast _ _ _ => E (Error "cast failure")
  | _ => True
  end.

Lemma access_outcome k m a :
  module_wf m -> outcome E (fun _ => True) (access_at k m a) -> valued E (row_env k m a) (access_at k m a).
Proof.
  intros Hm. unfold row_env. destruct (access_at k m a) as [v|] eqn:Ha; cbn; [|done]. intros _.
  split; [by eapply access_at_wf|]. reflexivity.
Qed.

Lemma Forall2_map {A B C} (R : B -> C -> Prop) (f : A -> B) (g : A -> C) xs :
  Forall (fun x => R (f x) (g x)) xs -> Forall2 R (map f xs) (map g xs).
Proof. induction 1; cbn; by constructor. Qed.

Lemma existsb_map {A} (f : A -> bool) xs : existsb f xs = existsb id (map f xs).
Proof. induction xs as [|x xs IH]; cbn; [done | by rewrite IH]. Qed.

Lemma forallb_map {A} (f : A -> bool) xs : forallb f xs = forallb id (map f xs).
Proof. induction xs as [|x xs IH]; cbn; [done | by rewrite IH]. Qed.

Lemma eval_args_map loop (comb : Z -> list Z -> Z) (f : Expr F -> result F) (g : Expr F -> Z) args :
  (forall acc z rs zs, denotes acc z -> Forall2 (fun r z => valued E z r) rs zs -> valued E (comb z zs) (loop acc rs)) ->
  args <> [] -> Forall (fun e => valued E (g e) (f e)) args ->
  valued E (match map g args with [] => 0 | z :: zs => comb z zs end) (eval_args loop (map f args)).
Proof.
  intros Hloop Hne H. apply eval_args_outcome; [done | by apply map_not_nil | by apply Forall2_map].
Qed.

Lemma eval_outcome k m :
  module_wf m ->
  (forall e, every (fun e => node_wf e /\ may_fault k m e) e -> valued E (denote (row_env k m) e) (EvalAt k m e)) /\
  (forall l, every_logical (fun e => node_wf e /\ may_fault k m e) l ->
     outcome E (eq (holds (row_env k m) l)) (TestAt k m l)).
Proof.
  intros Hm. apply every_induction. split; tcbn; fold holds denote.
  - intros args [Hne _] IH. pose proof (eval_args_map _ _ _ _ _ fold_add_outcome Hne IH) as H. by destruct args.
  - intros arg bw bound [[Hbw ->] HE] IH. eapply outcome_bind; [exact IH|]. intros v Hv. by destruct (e_Cmp _ _).
  - intros v [Hv _]. split; [done | reflexivity].
  - intros arg pow [Hpow _] IH. eapply outcome_bind; [exact IH|]. intros v [Hv Hz]. apply denotes_val.
    destruct (Pow_law v pow Hv Hpow) as [Hok ->]. split; [done|]. pose proof (modulus_big (F := F)).
    apply eqm_iff_mod; [lia|]. by apply eqm_pow.
  - intros c t f _ Hc Ht Hf. eapply outcome_bind; [exact Hc|]. by intros b <-; destruct (holds _ c).
  - intros _ v [Hv _]. split; [done | reflexivity].
  - intros args [Hne _] IH. pose proof (eval_args_map _ _ _ _ _ mul_args_outcome Hne IH) as H. by destruct args.
  - intros arg _ IH. eapply outcome_bind; [exact IH|]. intros v Hv. rewrite (denotes_zero v _ Hv).
    destruct (zero_test _) eqn:Hz; [|apply denotes_1]. apply zero_test_spec in Hz. change (denotes v 0). by rewrite <-Hz.
  - intros a [_ Hf]. by apply access_outcome.
  - intros args [Hne _] IH. pose proof (eval_args_map _ _ _ _ _ fold_sub_outcome Hne IH) as H. by destruct args.
  - intros vars [(Hne & Hwf & Hw) Hf]. apply vector_at_outcome; [done..|]. eapply Forall_impl; [exact Hf|].
    intros a. by apply access_outcome.
  - intros args IH. rewrite forallb_map. by apply test_all_outcome, Forall2_map.
  - intros args IH. rewrite existsb_map. by apply test_any_outcome, Forall2_map.
  - intros lhs rhs Hl Hr. eapply both_outcome; [exact Hl|exact Hr|]. intros v w. apply denotes_cmp.
  - intros c t f Hc Ht Hf. eapply outcome_bind; [exact Hc|]. intros b <-.
    destruct (holds _ c); [destruct t|destruct f]; done.
  - intros arg IH. eapply outcome_bind; [exact IH|]. by intros b <-.
  - intros lhs rhs Hl Hr. eapply both_outcome; [exact Hl|exact Hr|]. intros v w Hv Hw. f_equal. by apply denotes_cmp.
Qed.

End Outcome.

End Denotation.
