(* ===== verification/TermReads.v ===== *)
(** * What a term reads

    The accesses of a term, and how the analyses of [Term.v] describe them: the
    range of shifts, the bounds, the required cells, and unsafe terms.  Evaluation
    depends on the accesses only, so padding a module and shifting a term commute
    with it. *)

From Stdlib Require Import ZArith Lia.
From stdpp Require Import base numbers list option strings gmap.
From S2P Require Import Prelude FieldElement Interval Register SortedSet Element Trace Term TermFacts.

Open Scope Z_scope.

#[export] Instance ColumnRef_CmpLaws : CmpLaws ColumnRef.
Proof.
  split; unfold Cmp, ColumnRef_Comparable.
  - intros [a b] [c d]; cbn. destruct (Cmp a c) eqn:Hac.
    + apply Cmp_eq in Hac as ->. rewrite Cmp_eq. split; congruence.
    + split; [done|]. intros [= -> ->]. by rewrite (proj2 (Cmp_eq c c)) in Hac.
    + split; [done|]. intros [= -> ->]. by rewrite (proj2 (Cmp_eq c c)) in Hac.
  - intros [a b] [c d]; cbn. rewrite (Cmp_anti a c). destruct (Cmp a c); cbn; [apply Cmp_anti|done|done].
  - intros [a b] [c d] [x y]; cbn. unfold Cmp, nat_Comparable.
    destruct (Nat.compare_spec a c), (Nat.compare_spec c x), (Nat.compare_spec a x); try done; try lia.
    rewrite !Nat.compare_lt_iff. lia.
Qed.

#[export] Instance CellRef_CmpLaws : CmpLaws CellRef.
Proof.
  split; unfold Cmp, CellRef_Comparable.
  - intros [a b] [c d]; cbn. destruct (Cmp a c) eqn:Hac.
    + apply Cmp_eq in Hac as ->. rewrite Cmp_eq. split; congruence.
    + split; [done|]. intros [= -> ->]. by rewrite (proj2 (Cmp_eq c c)) in Hac.
    + split; [done|]. intros [= -> ->]. by rewrite (proj2 (Cmp_eq c c)) in Hac.
  - intros [a b] [c d]; cbn. rewrite (Cmp_anti a c). destruct (Cmp a c); cbn; [apply Cmp_anti|done|done].
  - intros [a b] [c d] [x y]; cbn. destruct (Cmp a c) eqn:Hac; [|destruct (Cmp c x) eqn:Hcx|done].
    + apply Cmp_eq in Hac as ->. destruct (Cmp c x); [apply Cmp_trans|done|done].
    + apply Cmp_eq in Hcx as ->. by rewrite Hac.
    + by rewrite (Cmp_trans a c x).
    + done.
Qed.

Section Reads.
Context {F : Type} `{!Element F}.
Implicit Types (e : Expr F) (l : Logical F) (m : ArrayModule F).

(** ** Accesses *)

Fixpoint accesses e : list Access.t :=
  match e with
  | Add args | Mul args | Sub args => flat_map accesses args
  | Cast arg _ _ | Exp arg _ | Norm arg => accesses arg
  | Constant _ | LabelledConst _ _ => []
  | IfZero c t f => accesses_logical c ++ accesses t ++ accesses f
  | RegisterAccess a => [a]
  | VectorAccess vars => vars
  end
with accesses_logical l : list Access.t :=
  match l with
  | Conjunct args | Disjunct args => flat_map accesses_logical args
  | Equal lhs rhs | NotEqual lhs rhs => accesses lhs ++ accesses rhs
  | Ite c t f =>
      accesses_logical c ++ match t with Some t => accesses_logical t | None => [] end
        ++ match f with Some f => accesses_logical f | None => [] end
  | Negate arg => accesses_logical arg
  end.

Lemma Forall_flat_map_ {A B} (P : B -> Prop) (f : A -> list B) xs :
  Forall P (flat_map f xs) <-> Forall (fun x => Forall P (f x)) xs.
Proof. induction xs as [|x xs IH]; cbn; [by split; constructor|]. by rewrite Forall_app, Forall_cons, IH. Qed.

Lemma elem_flat_map {A B} (b : B) (f : A -> list B) xs : b ∈ flat_map f xs <-> exists x, x ∈ xs /\ b ∈ f x.
Proof.
  induction xs as [|x xs IH]; cbn; [set_solver|]. rewrite elem_of_app, IH. set_solver.
Qed.

(** ** Evaluation depends on the accesses only *)

Lemma vector_at_agree k m k' m' vars :
  Forall (fun a => access_at k m a = access_at k' m' a) vars -> vector_at k m vars = vector_at k' m' vars.
Proof.
  intros Hv. destruct Hv as [|a vars Ha Hv]; [done|]. cbn. rewrite Ha. clear Ha. destruct (access_at k' m' a) as [v|]; [|done]. cbn.
  generalize (Access.maskwidth a) as w. revert v. induction Hv as [|b vars Hb _ IH]; intros v w; [done|]. cbn.
  rewrite Hb. destruct (access_at k' m' b); [apply IH | done].
Qed.

Lemma eval_agree k m k' m' :
  (forall e, Forall (fun a => access_at k m a = access_at k' m' a) (accesses e) -> EvalAt k m e = EvalAt k' m' e) /\
  (forall l, Forall (fun a => access_at k m a = access_at k' m' a) (accesses_logical l) -> TestAt k m l = TestAt k' m' l).
Proof.
  apply term_induction. split; tcbn; fold accesses_logical accesses; try done.
  1,5,8: intros args IH Ha%Forall_flat_map_; f_equal; apply map_ext_Forall; by apply (Forall_mp _ _ _ IH), all_Forall.
  - intros arg bw bound IH Ha. by rewrite IH.
  - intros arg pow IH Ha. by rewrite IH.
  - intros c t f Hc Ht Hf Ha. apply Forall_app in Ha as [Hca [Hta Hfa]%Forall_app]. by rewrite Hc, Ht, Hf.
  - intros arg IH Ha. by rewrite IH.
  - intros a. by rewrite Forall_singleton.
  - intros vars. apply vector_at_agree.
  - intros args IH Ha%Forall_flat_map_. f_equal. apply map_ext_Forall. by apply (Forall_mp _ _ _ IH), all_Forall.
  - intros args IH Ha%Forall_flat_map_. f_equal. apply map_ext_Forall. by apply (Forall_mp _ _ _ IH), all_Forall.
  - intros lhs rhs Hl Hr [Hla Hra]%Forall_app. by rewrite Hl, Hr.
  - intros c t f Hc Ht Hf Ha. apply Forall_app in Ha as [Hca [Hta Hfa]%Forall_app].
    destruct t, f; cbn in *; by rewrite Hc, ?Ht, ?Hf.
  - intros arg IH Ha. by rewrite IH.
  - intros lhs rhs Hl Hr [Hla Hra]%Forall_app. by rewrite Hl, Hr.
Qed.

(** Padding a module shifts its rows. *)
Lemma access_at_padded k m front back a n h q :
  (exists r c, Access.register a = Some r /\ columns m !! r = Some c /\ data c <> None) ->
  access_at k (mkModule n h q (pad front back <$> columns m)) a = access_at (k - Z.of_nat front) m a.
Proof.
  intros (r & c & Hr & Hc & Hd). unfold access_at, Column. rewrite Hr. cbn. unfold slice_get.
  rewrite list_lookup_fmap, Hc. cbn. rewrite pad_Get by done. f_equal. lia.
Qed.

(** ** Shifts and bounds *)

Definition shifts (al : list Access.t) : list Z := map Access.shift al.
Fixpoint lowest (zs : list Z) : Z := match zs with [] => MaxInt | z :: rest => Z.min z (lowest rest) end.
Fixpoint highest (zs : list Z) : Z := match zs with [] => MinInt | z :: rest => Z.max z (highest rest) end.

Definition int_range (z : Z) : Prop := MinInt <= z <= MaxInt.

Lemma lowest_le zs : lowest zs <= MaxInt.
Proof. induction zs; cbn [lowest]; lia. Qed.

Lemma highest_ge zs : MinInt <= highest zs.
Proof. induction zs; cbn [highest]; lia. Qed.

Lemma lowest_app xs ys : lowest (xs ++ ys) = Z.min (lowest xs) (lowest ys).
Proof. induction xs as [|x xs IH]; cbn [lowest app]; [pose proof (lowest_le ys)|]; lia. Qed.

Lemma highest_app xs ys : highest (xs ++ ys) = Z.max (highest xs) (highest ys).
Proof. induction xs as [|x xs IH]; cbn [highest app]; [pose proof (highest_ge ys)|]; lia. Qed.

(** The range of shifts of some accesses *)
Definition span (al : list Access.t) : Z * Z := (lowest (shifts al), highest (shifts al)).

Lemma shiftRangeOfTerms_spec {A} (f : A -> result (Z * Z)) (g : A -> list Access.t) xs :
  Forall (fun x => f x = Ok (span (g x))) xs -> shiftRangeOfTerms (map f xs) = Ok (span (flat_map g xs)).
Proof.
  intros Hxs. unfold shiftRangeOfTerms.
  assert (Hgen : forall al, foldl (fun acc term =>
      '(minShift, maxShift) ← acc; '(tMin, tMax) ← term; Ok (Z.min minShift tMin, Z.max maxShift tMax))
      (Ok (span al)) (map f xs) = Ok (span (al ++ flat_map g xs))).
  { induction Hxs as [|x xs Hx _ IH]; intros al; cbn; [by rewrite app_nil_r|]. rewrite Hx. cbn.
    rewrite app_assoc, <-IH. unfold span, shifts. by rewrite map_app, lowest_app, highest_app. }
  apply (Hgen []).
Qed.

Lemma span_one a : int_range (Access.shift a) -> access_shifts a = Ok (span [a]).
Proof. unfold access_shifts, span, int_range. cbn. intros. f_equal. f_equal; lia. Qed.

Lemma flat_map_single al : flat_map (fun a : Access.t => [a]) al = al.
Proof. induction al as [|a al IH]; cbn; [done | by rewrite IH]. Qed.

(** Every [Ite] has a branch. *)
Fixpoint has_branches e {struct e} : Prop :=
  match e with
  | Add args | Mul args | Sub args => all_ has_branches args
  | Cast arg _ _ | Exp arg _ | Norm arg => has_branches arg
  | Constant _ | LabelledConst _ _ | RegisterAccess _ | VectorAccess _ => True
  | IfZero c t f => has_branches_logical c /\ has_branches t /\ has_branches f
  end
with has_branches_logical l {struct l} : Prop :=
  match l with
  | Conjunct args | Disjunct args => all_ has_branches_logical args
  | Equal lhs rhs | NotEqual lhs rhs => has_branches lhs /\ has_branches rhs
  | Ite c t f =>
      has_branches_logical c /\ (t <> None \/ f <> None) /\ match t with Some t => has_branches_logical t | None => True end
        /\ match f with Some f => has_branches_logical f | None => True end
  | Negate arg => has_branches_logical arg
  end.

Lemma pair_span x y al bl :
  x = Ok (span al) -> y = Ok (span bl) -> shiftRangeOfTerms [x; y] = Ok (span (al ++ bl)).
Proof.
  intros -> ->. pose proof (shiftRangeOfTerms_spec (fun al => Ok (span al)) id [al; bl]) as H. cbn [map flat_map] in H.
  rewrite app_nil_r in H. apply H. by repeat constructor.
Qed.

Lemma triple_span x y z al bl cl :
  x = Ok (span al) -> y = Ok (span bl) -> z = Ok (span cl) -> shiftRangeOfTerms [x; y; z] = Ok (span (al ++ bl ++ cl)).
Proof.
  intros -> -> ->. pose proof (shiftRangeOfTerms_spec (fun al => Ok (span al)) id [al; bl; cl]) as H.
  cbn [map flat_map] in H. rewrite app_nil_r in H. apply H. by repeat constructor.
Qed.

Lemma args_mp {A} (P R : A -> Prop) (Q : A -> Access.t -> Prop) (g : A -> list Access.t) xs :
  Forall (fun x => P x -> Forall (Q x) (g x) -> R x) xs -> all_ P xs ->
  Forall (fun x => Forall (Q x) (g x)) xs -> Forall R xs.
Proof.
  induction 1 as [|x xs Hx _ IH]; cbn; [constructor|]. intros [HP Hall] [HQ Hf]%Forall_cons. constructor; auto.
Qed.

Abbreviation in_range al := (Forall (fun a => int_range (Access.shift a)) al).

Lemma ShiftRange_span :
  (forall e, has_branches e -> in_range (accesses e) -> ShiftRange e = Ok (span (accesses e))) /\
  (forall l, has_branches_logical l -> in_range (accesses_logical l) ->
     ShiftRange_logical l = Ok (span (accesses_logical l))).
Proof.
  apply term_induction. split; tcbn; fold accesses_logical accesses has_branches_logical has_branches; try done.
  1,3,5,7,8: intros args IH Hb Ha%Forall_flat_map_; by apply shiftRangeOfTerms_spec, (args_mp _ _ _ _ _ IH).
  - intros c t f Hc Ht Hf (Hcb & Htb & Hfb) Ha. apply Forall_app in Ha as [Hca [Hta Hfa]%Forall_app].
    rewrite Hc, Ht, Hf by done. cbn. unfold span, shifts. by rewrite !map_app, !lowest_app, !highest_app.
  - intros a _ [Ha _]%Forall_cons. by apply span_one.
  - intros vars _ Ha. rewrite <-(flat_map_single vars) at 2. apply shiftRangeOfTerms_spec.
    eapply Forall_impl; [exact Ha|]. intros a. apply span_one.
  - intros lhs rhs Hl Hr [Hlb Hrb] [Hla Hra]%Forall_app. by apply pair_span; [apply Hl | apply Hr].
  - intros c t f Hc Ht Hf (Hcb & Hne & Htb & Hfb) Ha. apply Forall_app in Ha as [Hca [Hta Hfa]%Forall_app].
    destruct t as [t|], f as [f|]; cbn in Ht, Hf.
    + by apply triple_span; [apply Hc | apply Ht | apply Hf].
    + rewrite app_nil_r. by apply pair_span; [apply Hc | apply Ht].
    + by apply pair_span; [apply Hc | apply Hf].
    + by destruct Hne.
  - intros lhs rhs Hl Hr [Hlb Hrb] [Hla Hra]%Forall_app. by apply pair_span; [apply Hl | apply Hr].
Qed.

(** *** Bounds *)

Fixpoint furthest (zs : list Z) : Z := match zs with [] => 0 | z :: rest => Z.max z (furthest rest) end.

Lemma furthest_nonneg zs : 0 <= furthest zs.
Proof. induction zs; cbn [furthest]; lia. Qed.

Lemma furthest_app xs ys : furthest (xs ++ ys) = Z.max (furthest xs) (furthest ys).
Proof. induction xs as [|x xs IH]; cbn [furthest app]; [pose proof (furthest_nonneg ys)|]; lia. Qed.

(** The furthest rows before and after that some accesses read *)
Definition reach (al : list Access.t) : Bounds.t :=
  Bounds.NewBounds (furthest (map (fun a => - Access.shift a) al)) (furthest (map Access.shift al)).

Lemma reach_app al bl : reach (al ++ bl) = Bounds.Union (reach al) (reach bl).
Proof. unfold reach, Bounds.Union. cbn. by rewrite !map_app, !furthest_app. Qed.

#[local] Instance Union_assoc : Assoc eq Bounds.Union.
Proof. intros x y z. unfold Bounds.Union. cbn. f_equal; lia. Qed.

Lemma BoundsForArray_spec {A} (f : A -> Bounds.t) (g : A -> list Access.t) xs :
  Forall (fun x => f x = reach (g x)) xs -> Bounds.BoundsForArray (map f xs) = reach (flat_map g xs).
Proof.
  intros Hxs. unfold Bounds.BoundsForArray.
  assert (Hgen : forall al, foldl Bounds.Union (reach al) (map f xs) = reach (al ++ flat_map g xs)).
  { induction Hxs as [|x xs Hx _ IH]; intros al; cbn; [by rewrite app_nil_r|]. by rewrite Hx, app_assoc, <-IH, reach_app. }
  apply (Hgen []).
Qed.

Lemma access_reach a : Access.Bounds a = reach [a].
Proof. unfold Access.Bounds, reach. cbn. destruct (Z.leb_spec 0 (Access.shift a)); f_equal; lia. Qed.

Lemma Bounds_reach :
  (forall e, Bounds_of e = reach (accesses e)) /\ (forall l, Bounds_logical l = reach (accesses_logical l)).
Proof.
  apply term_induction. split; tcbn; fold accesses_logical accesses; try done.
  1,3,5,7,8: intros args IH; exact (BoundsForArray_spec _ _ _ IH).
  - intros c t f -> -> ->. by rewrite !reach_app, (assoc_L Bounds.Union).
  - apply access_reach.
  - intros vars. rewrite <-(flat_map_single vars) at 2. apply BoundsForArray_spec.
    apply Forall_true. apply access_reach.
  - intros lhs rhs -> ->. by rewrite reach_app.
  - intros c t f Hc Ht Hf. destruct t, f; cbn in *; rewrite ?Ht, ?Hf, ?app_nil_r, ?reach_app, ?Hc; try done.
    by rewrite (assoc_L Bounds.Union).
  - intros lhs rhs -> ->. by rewrite reach_app.
Qed.

(** ** Required cells *)

(** [s] is the set of the cells that the accesses read on a row. *)
Definition cells_read (row : Z) (mid : nat) (al : list Access.t) (s : list CellRef) : Prop :=
  sorted s /\
  forall c, c ∈ s <-> exists a r, a ∈ al /\ Access.register a = Some r /\
                          c = NewCellRef (NewColumnRef mid r) (row + Access.shift a).

Lemma cells_read_app row mid al bl s q u :
  cells_read row mid al s -> cells_read row mid bl q -> sorted u -> (forall z, z ∈ u <-> z ∈ s \/ z ∈ q) ->
  cells_read row mid (al ++ bl) u.
Proof.
  intros [_ Hs] [_ Hq] Hu Hz. split; [done|]. intros c. rewrite Hz, Hs, Hq. set_solver.
Qed.

Definition reads row mid al (r : result (list CellRef)) : Prop := exists s, r = Ok s /\ cells_read row mid al s.

Lemma insert_reads row mid al bl x y :
  reads row mid al x -> reads row mid bl y -> reads row mid (al ++ bl) (insert_cells x y).
Proof.
  intros (s & -> & Hs) (q & -> & Hq). unfold insert_cells. cbn.
  destruct (InsertSorted_spec zero_cell s q) as (u & -> & Hu & Hz); [apply Hs|apply Hq|].
  exists u. split; [done|]. by eapply cells_read_app.
Qed.

Lemma reads_nil row mid : reads row mid [] (Ok (NewAnySortedSet [])).
Proof. exists []. split; [done|]. split; [constructor|]. set_solver. Qed.

Lemma cells_of_terms_reads {A} (f : A -> result (list CellRef)) (g : A -> list Access.t) row mid xs :
  Forall (fun x => reads row mid (g x) (f x)) xs -> reads row mid (flat_map g xs) (cells_of_terms (map f xs)).
Proof.
  intros Hxs. unfold cells_of_terms.
  assert (exists sets, mapM id (map f xs) = Ok sets /\ Forall2 (fun x s => cells_read row mid (g x) s) xs sets) as (sets & -> & Hsets).
  { induction Hxs as [|x xs (s & Hx & Hs) _ (sets & IH & Hsets)]; [by exists []|].
    exists (s :: sets). cbn. rewrite Hx. cbn. rewrite IH. cbn. split; [done | by constructor]. }
  cbn. clear Hxs. destruct Hsets as [|x s xs sets Hx Hsets]; [apply reads_nil|]. cbn [UnionAnySortedSets flat_map].
  revert s Hx. generalize (g x) as al. induction Hsets as [|y q xs sets Hy _ IH]; intros al s Hs; cbn.
  { exists s. by rewrite app_nil_r. }
  destruct (InsertSorted_spec zero_cell s q) as (u & Hu & Hsu & Hz); [apply Hs|apply Hy|].
  unfold id. rewrite Hu. rewrite app_assoc. apply IH. by eapply cells_read_app.
Qed.

(** The registers of the accesses are used. *)
Abbreviation all_used al := (Forall (fun a => Access.IsDefined a = true) al).

Lemma access_reads row mid a : Access.IsDefined a = true -> reads row mid [a] (Access.RequiredCells a row mid).
Proof.
  unfold Access.IsDefined, Access.RequiredCells. destruct (Access.register a) as [r|] eqn:Hr; [|done]. intros _. cbn.
  eexists. split; [done|]. split; [by repeat constructor|]. intros c.
  rewrite list_elem_of_singleton. set_solver.
Qed.

Lemma RequiredCells_reads row mid :
  (forall e, all_used (accesses e) -> reads row mid (accesses e) (RequiredCells e row mid)) /\
  (forall l, all_used (accesses_logical l) -> reads row mid (accesses_logical l) (RequiredCells_logical l row mid)).
Proof.
  apply term_induction. split; tcbn; fold accesses_logical accesses; try done.
  1,5,7,9,10: intros args IH Ha%Forall_flat_map_; by apply cells_of_terms_reads, (Forall_mp _ _ _ IH), all_Forall.
  - intros v _. apply reads_nil.
  - intros c t f Hc Ht Hf Ha. apply Forall_app in Ha as [Hca [Hta Hfa]%Forall_app].
    rewrite app_assoc. apply insert_reads; [apply insert_reads|]; auto.
  - intros _ v _. apply reads_nil.
  - intros a [Ha _]%Forall_cons. by apply access_reads.
  - intros vars Ha. rewrite <-(flat_map_single vars) at 1. apply cells_of_terms_reads.
    eapply Forall_impl; [exact Ha|]. intros a. apply access_reads.
  - intros lhs rhs Hl Hr [Hla Hra]%Forall_app. by apply insert_reads; [apply Hl | apply Hr].
  - intros c t f Hc Ht Hf Ha. apply Forall_app in Ha as [Hca [Hta Hfa]%Forall_app]. rewrite app_assoc.
    destruct t, f; cbn [option_map on_branch] in *; rewrite ?app_nil_r; auto using insert_reads.
  - intros lhs rhs Hl Hr [Hla Hra]%Forall_app. by apply insert_reads; [apply Hl | apply Hr].
Qed.

(** ** Definedness *)

(** An access of a column that exists and has been filled *)
Definition access_defined m (a : Access.t) : Prop :=
  exists r c, Access.register a = Some r /\ columns m !! r = Some c /\ data c <> None.

Lemma access_defined_ok k m a : access_defined m a -> exists v, access_at k m a = Ok v.
Proof.
  intros (r & c & Hr & Hc & Hd). unfold access_at, Column. rewrite Hr. cbn.
  rewrite (proj2 (slice_get_ok _ _ _) Hc). cbn. destruct (data c) as [d|] eqn:Hdc; [|done].
  rewrite (Get_filled _ _ _ Hdc). by eexists.
Qed.

Definition on_accesses (P : Access.t -> Prop) e : Prop :=
  match e with RegisterAccess a => P a | VectorAccess vars => Forall P vars | _ => True end.

Definition not_cast e : Prop := match e with Cast _ _ _ => False | _ => True end.

(** A node predicate extended by what holds of the accesses *)
Lemma every_accesses (P : Access.t -> Prop) (N : Expr F -> Prop) :
  (forall e, every N e -> Forall P (accesses e) -> every (fun e => N e /\ on_accesses P e) e) /\
  (forall l, every_logical N l -> Forall P (accesses_logical l) -> every_logical (fun e => N e /\ on_accesses P e) l).
Proof.
  apply term_induction. split; tcbn; fold accesses_logical accesses; try (intros *; rewrite ?Forall_app; tauto).
  1,2,4: intros args IH [HN Ha] Hf%Forall_flat_map_; split; [done|];
    apply all_Forall; by apply (args_mp _ _ _ _ _ IH).
  - intros a [HN _] [Ha _]%Forall_cons. done.
  - intros args IH Ha Hf%Forall_flat_map_. apply all_Forall. by apply (args_mp _ _ _ _ _ IH).
  - intros args IH Ha Hf%Forall_flat_map_. apply all_Forall. by apply (args_mp _ _ _ _ _ IH).
  - intros c t f Hc Ht Hf (HNc & HNt & HNf). rewrite !Forall_app. destruct t, f; cbn in *; tauto.
Qed.

Lemma existsb_false {A} (f : A -> bool) xs : existsb f xs = false <-> Forall (fun x => f x = false) xs.
Proof. induction xs as [|x xs IH]; cbn; [by split; constructor|]. by rewrite orb_false_iff, Forall_cons, IH. Qed.

Lemma safe_every (N : Expr F -> Prop) :
  (forall e, every N e -> IsUnsafeExpr e = false -> every (fun e => N e /\ not_cast e) e) /\
  (forall l, every_logical N l -> IsUnsafeLogical l = false -> every_logical (fun e => N e /\ not_cast e) l).
Proof.
  apply term_induction. split; tcbn; try (intros *; rewrite ?orb_false_iff; tauto); try done.
  1-3: intros args IH [HN Ha] Hf%existsb_false; split; [done|]; apply all_Forall;
    apply all_Forall in Ha; rewrite Forall_forall in IH, Ha, Hf |- *; auto.
  1-2: intros args IH Ha Hf%existsb_false; apply all_Forall;
    apply all_Forall in Ha; rewrite Forall_forall in IH, Ha, Hf |- *; auto.
  intros c t f Hc Ht Hf (HNc & HNt & HNf). rewrite !orb_false_iff. destruct t, f; cbn in *; tauto.
Qed.

(** A value is the denotation of a well-formed term. *)
Lemma eval_denotes `{!ElementLaws F} k m :
  module_wf m ->
  (forall e v, expr_wf e -> EvalAt k m e = Ok v -> denotes v (denote (row_env k m) e)) /\
  (forall l b, logical_wf l -> TestAt k m l = Ok b -> b = holds (row_env k m) l).
Proof.
  intros Hm. destruct (eval_outcome (fun _ => True) k m Hm) as [Hev Htest].
  assert (Hany : forall e, node_wf e -> node_wf e /\ may_fault (fun _ => True) k m e).
  { intros e' Hwf. split; [done|]. destruct e' as [| | | | | | | |a| |vars]; cbn; try done; [by destruct (access_at k m a)|].
    apply Forall_true. intros a. by destruct (access_at k m a). }
  destruct (every_impl _ _ Hany) as [Hie Hil]. split.
  - intros e v He Hv. specialize (Hev e (Hie e He)). by rewrite Hv in Hev.
  - intros l b Hl Hb. specialize (Htest l (Hil l Hl)). by rewrite Hb in Htest.
Qed.

End Reads.

Module TermProperties.

Section Properties.
Context {F : Type} `{!Element F, !ElementLaws F}.
Implicit Types (e : Expr F) (l : Logical F) (m : ArrayModule F).

(** The negation of a logical term is its negation on every row, with the same
    errors. *)
Theorem negate_exact l k m : TestAt k m (Negate_ l) = negb <$> TestAt k m l.
Proof. apply Negate_TestAt. Qed.

(** C31: Evaluation of a well-formed term computes its integer denotation modulo the
    prime, short cuts of products included, and testing a logical term decides
    its denotation. *)
Theorem term_evaluation e l k m :
  module_wf m -> expr_wf e -> logical_wf l ->
  (forall v, EvalAt k m e = Ok v -> element_ok v /\ val v = denote (row_env k m) e mod modulus (F := F)) /\
  (forall b, TestAt k m l = Ok b -> b = holds (row_env k m) l).
Proof.
  intros Hm He Hl. destruct (eval_denotes k m Hm) as [Hev Htest]. split; [|intros b; by apply Htest].
  intros v Hv. apply denotes_val. by apply Hev.
Qed.

(** The faults of a term whose accesses are defined *)
Lemma defined_outcome (E : fault -> Prop) (N : Expr F -> Prop) k m :
  module_wf m -> (forall e, N e -> node_wf e) -> (forall arg bw bound, N (Cast arg bw bound) -> E (Error "cast failure")) ->
  (forall e, every N e -> Forall (access_defined m) (accesses e) -> outcome E (fun _ => True) (EvalAt k m e)) /\
  (forall l, every_logical N l -> Forall (access_defined m) (accesses_logical l) -> outcome E (fun _ => True) (TestAt k m l)).
Proof.
  intros Hm Hwf Hcast. destruct (eval_outcome E k m Hm) as [Hev Htest].
  destruct (every_accesses (access_defined m) N) as [Hae Hal].
  assert (Hok : forall a, access_defined m a -> outcome E (fun _ => True) (access_at k m a)).
  { intros a (v & ->)%(access_defined_ok k). done. }
  assert (Hany : forall e, N e /\ on_accesses (access_defined m) e -> node_wf e /\ may_fault E k m e).
  { intros e' [HN Ha]. split; [by apply Hwf|]. destruct e'; cbn in *; try done; [by eapply Hcast | by apply Hok |].
    by eapply Forall_impl. }
  destruct (every_impl _ _ Hany) as [Hie Hil]. split.
  - intros e HN Ha. eapply outcome_mono; [done|done|]. by apply Hev, Hie, Hae.
  - intros l HN Ha. eapply outcome_mono; [done|done|]. by apply Htest, Hil, Hal.
Qed.

(** Evaluation of a well-formed term over columns that exist and have been filled
    never panics: it gives a value or a cast failure, and a value when the term is
    not unsafe. *)
Theorem term_safety e l k m :
  module_wf m -> expr_wf e -> logical_wf l ->
  Forall (access_defined m) (accesses e) -> Forall (access_defined m) (accesses_logical l) ->
  ((exists v, EvalAt k m e = Ok v) \/ EvalAt k m e = Fault (Error "cast failure")) /\
  (IsUnsafeExpr e = false -> exists v, EvalAt k m e = Ok v) /\
  ((exists b, TestAt k m l = Ok b) \/ TestAt k m l = Fault (Error "cast failure")) /\
  (IsUnsafeLogical l = false -> exists b, TestAt k m l = Ok b).
Proof.
  intros Hm He Hl Hae Hal.
  destruct (defined_outcome (fun f => f = Error "cast failure") node_wf k m Hm) as [Hev Htest]; [done|done|].
  destruct (defined_outcome (fun _ => False) (fun e => node_wf e /\ not_cast e) k m Hm) as [Hsev Hstest]; [tauto|intros; tauto|].
  destruct (safe_every (F := F) node_wf) as [Hse Hsl].
  specialize (Hev e He Hae). specialize (Htest l Hl Hal). split_and!.
  - destruct (EvalAt k m e) as [v|f]; cbn in Hev; [left; by exists v | right; congruence].
  - intros Hu. specialize (Hsev e (Hse e He Hu) Hae). destruct (EvalAt k m e) as [v|f]; [by exists v | done].
  - destruct (TestAt k m l) as [v|f]; cbn in Htest; [left; by exists v | right; congruence].
  - intros Hu. specialize (Hstest l (Hsl l Hl Hu) Hal). destruct (TestAt k m l) as [v|f]; [by exists v | done].
Qed.

(** Shifting a term by [s] rows evaluates it [s] rows further, and keeps it well
    formed. *)
Theorem term_shift e l s k m :
  expr_wf e -> logical_wf l ->
  EvalAt k m (ApplyShift e s) = EvalAt (k + s) m e /\ expr_wf (ApplyShift e s) /\
  TestAt k m (ApplyShift_logical l s) = TestAt (k + s) m l /\ logical_wf (ApplyShift_logical l s).
Proof.
  intros He Hl. destruct (shift_at k m s) as [Hev Htest]. destruct (shift_wf (F := F) s) as [Hwe Hwl]. auto.
Qed.

Lemma lowest_spec zs :
  Forall int_range zs -> Forall (fun z => lowest zs <= z) zs /\ (zs <> [] -> lowest zs ∈ zs).
Proof.
  induction 1 as [|z zs Hz Hzs [IHle IHin]]; [done|]. cbn [lowest]. split.
  - constructor; [lia|]. eapply Forall_impl; [exact IHle|]. cbn. lia.
  - intros _. destruct (Z.min_spec z (lowest zs)) as [[_ ->]|[Hle ->]]; [by left|].
    destruct zs as [|z' zs]; [|right; by apply IHin]. unfold int_range in Hz. cbn in Hle |- *.
    apply list_elem_of_singleton. lia.
Qed.

Lemma highest_spec zs :
  Forall int_range zs -> Forall (fun z => z <= highest zs) zs /\ (zs <> [] -> highest zs ∈ zs).
Proof.
  induction 1 as [|z zs Hz Hzs [IHle IHin]]; [done|]. cbn [highest]. split.
  - constructor; [lia|]. eapply Forall_impl; [exact IHle|]. cbn. lia.
  - intros _. destruct (Z.max_spec z (highest zs)) as [[Hle ->]|[_ ->]]; [|by left].
    destruct zs as [|z' zs]; [|right; by apply IHin]. unfold int_range in Hz. cbn in Hle |- *.
    apply list_elem_of_singleton. lia.
Qed.

Lemma furthest_spec zs : Forall (fun z => z <= furthest zs) zs /\ (furthest zs = 0 \/ furthest zs ∈ zs).
Proof.
  induction zs as [|z zs [IHle IHin]]; [split; [done | by left]|]. cbn [furthest]. split.
  - constructor; [lia|]. eapply Forall_impl; [exact IHle|]. cbn. lia.
  - destruct (Z.max_spec z (furthest zs)) as [[_ ->]|[_ ->]]; [|right; by left].
    destruct IHin; [by left | right; by right].
Qed.

(** [ShiftRange] is the range of the shifts of the accesses, and [Bounds] the
    furthest rows before and after that they read.  [ShiftRange] needs every
    conditional to have a branch. *)
Theorem term_extent e :
  has_branches e -> Forall (fun a => int_range (Access.shift a)) (accesses e) ->
  (exists lo hi, ShiftRange e = Ok (lo, hi) /\
     Forall (fun a => lo <= Access.shift a <= hi) (accesses e) /\
     (accesses e <> [] -> lo ∈ shifts (accesses e) /\ hi ∈ shifts (accesses e))) /\
  Forall (fun a => - Bounds.Start (Bounds_of e) <= Access.shift a <= Bounds.End (Bounds_of e)) (accesses e) /\
  (Bounds.Start (Bounds_of e) = 0 \/ - Bounds.Start (Bounds_of e) ∈ shifts (accesses e)) /\
  (Bounds.End (Bounds_of e) = 0 \/ Bounds.End (Bounds_of e) ∈ shifts (accesses e)).
Proof.
  intros Hb Hr. destruct (ShiftRange_span (F := F)) as [Hs _]. destruct (Bounds_reach (F := F)) as [HB _].
  rewrite HB, Hs by done. unfold reach, shifts. cbn.
  assert (Hir : Forall int_range (map Access.shift (accesses e))) by by apply Forall_map.
  destruct (lowest_spec _ Hir) as [Hlo Hloin]. destruct (highest_spec _ Hir) as [Hhi Hhiin].
  destruct (furthest_spec (map Access.shift (accesses e))) as [Hf Hfin].
  destruct (furthest_spec (map (fun a => - Access.shift a) (accesses e))) as [Hg Hgin].
  rewrite Forall_map in Hlo, Hhi, Hf, Hg. split_and!.
  - unfold span. do 2 eexists. split; [reflexivity|]. split.
    + apply Forall_and. by split.
    + intros Hne. split; [apply Hloin | apply Hhiin]; by apply map_not_nil.
  - eapply Forall_impl; [apply Forall_and; split; [exact Hf | exact Hg]|]. cbn. lia.
  - destruct Hgin as [Hz|(a & -> & Ha)%list_elem_of_fmap]; [by left|]. right. apply list_elem_of_fmap.
    exists a. split; [lia | done].
  - done.
Qed.

(** The value of a cell *)
Definition cell_at m (c : CellRef) : result F := col ← Column m (rid (Column_ c)); Get col (Row c).

(** [RequiredCells] is exactly the set of the cells that the accesses of the term
    read on a row, and evaluation on that row depends on these cells only. *)
Theorem term_reads e row mid :
  Forall (fun a => Access.IsDefined a = true) (accesses e) ->
  exists s, RequiredCells e row mid = Ok s /\
    (forall c, c ∈ s <-> exists a r, a ∈ accesses e /\ Access.register a = Some r /\
                             c = NewCellRef (NewColumnRef mid r) (row + Access.shift a)) /\
    forall m m', (forall c, c ∈ s -> cell_at m c = cell_at m' c) -> EvalAt row m e = EvalAt row m' e.
Proof.
  intros Hu. destruct (RequiredCells_reads (F := F) row mid) as [Hre _].
  destruct (Hre e Hu) as (s & Hs & _ & Hin). exists s. split; [done|]. split; [done|].
  intros m m' Hag. destruct (eval_agree row m row m') as [Heq _]. apply Heq. apply Forall_forall. intros a Ha.
  unfold access_at. destruct (Access.register a) as [r|] eqn:Hr; [|done]. cbn.
  apply (Hag (NewCellRef (NewColumnRef mid r) (row + Access.shift a))). apply Hin. eauto.
Qed.

(** Padding a module with [front] and [back] rows moves the rows of every term
    by [front]; rows outside of the module read the padding. *)
Theorem term_padding e l k m m' front back :
  Forall (access_defined m) (accesses e) -> Forall (access_defined m) (accesses_logical l) ->
  Pad m front back = Ok m' ->
  EvalAt k m' e = EvalAt (k - Z.of_nat front) m e /\ TestAt k m' l = TestAt (k - Z.of_nat front) m l.
Proof.
  intros Hae Hal HP. unfold Pad in HP. repeat case_match; try done. injection HP as <-.
  destruct (eval_agree k (mkModule (name m) (u64 (height m + Z.of_nat (front + back))) (numKeys m) (pad front back <$> columns m))
    (k - Z.of_nat front) m) as [He Hl].
  split; [apply He | apply Hl]; (eapply Forall_impl; [done|]); intros a Ha; by apply access_at_padded.
Qed.

End Properties.

(** *** A sample term

    On two columns [X] and [Y] over [gf251]:
    [(X[+1] == 3 ? Y * X : Y - (u4 X))]. *)

Definition G : Type := element gf251.
Definition el (z : Z) : G := Element.Uint64 z.

Definition X (shift : Z) : Access.t := Access.RawRegisterAccess (Some 0%nat) 8 shift.
Definition Y (shift : Z) : Access.t := Access.RawRegisterAccess (Some 1%nat) 8 shift.

Definition sample_condition : Logical G := Equal (RegisterAccess (X 1)) (Const64 3).
Definition sample : Expr G :=
  IfZero sample_condition (Mul [RegisterAccess (Y 0); RegisterAccess (X 0)])
    (Sub [RegisterAccess (Y 0); CastOf (RegisterAccess (X 0)) 4]).

Definition sample_module : ArrayModule G :=
  mkModule (mkName "m" 1) 3 0
    [NewArrayColumn "X" (Some [el 20; el 3; el 20]) (el 0); NewArrayColumn "Y" (Some [el 5; el 100; el 9]) (el 0)].

Lemma el_ok z : 0 <= z < 2 ^ 32 -> element_ok (el z).
Proof. intros Hz. by apply set_uint64_law. Qed.

Lemma X_wf shift : access_wf (X shift).
Proof. unfold access_wf. cbn. lia. Qed.

Lemma sample_term_wf : expr_wf sample /\ logical_wf sample_condition.
Proof.
  assert (Hc : logical_wf sample_condition).
  { split; [split; [apply X_wf|done]|]. split; [apply (el_ok 3); lia|done]. }
  split; [|done]. split; [done|]. split; [done|]. split; (split; [done|]); repeat split; try apply X_wf; done.
Qed.

Lemma sample_module_wf : module_wf sample_module.
Proof.
  repeat constructor; try (apply el_ok; lia); intros d [= <-]; repeat constructor; apply el_ok; lia.
Qed.

Lemma sample_defined :
  Forall (access_defined sample_module) (accesses sample) /\
  Forall (access_defined sample_module) (accesses_logical sample_condition).
Proof. split; repeat constructor; eexists _, _; done. Qed.

Lemma term_evaluation_witness : val (F := G) (el 97) = denote (F := G) (row_env 1 sample_module) sample mod modulus (F := G).
Proof.
  apply (term_evaluation sample sample_condition 1 sample_module sample_module_wf (proj1 sample_term_wf) (proj2 sample_term_wf)).
  vm_compute. reflexivity.
Defined.

Lemma term_safety_witness :
  (exists v, EvalAt 2 sample_module sample = Ok v) \/ EvalAt 2 sample_module sample = Fault (Error "cast failure").
Proof.
  exact (proj1 (term_safety sample sample_condition 2 sample_module sample_module_wf (proj1 sample_term_wf) (proj2 sample_term_wf)
    (proj1 sample_defined) (proj2 sample_defined))).
Defined.

Lemma term_shift_witness : EvalAt 1 sample_module (ApplyShift sample (-1)) = EvalAt 0 sample_module sample.
Proof. exact (proj1 (term_shift sample sample_condition (-1) 1 sample_module (proj1 sample_term_wf) (proj2 sample_term_wf))). Defined.

Lemma term_extent_witness : exists lo hi, ShiftRange sample = Ok (lo, hi) /\
     Forall (fun a => lo <= Access.shift a <= hi) (accesses sample) /\
     (accesses sample <> [] -> lo ∈ shifts (accesses sample) /\ hi ∈ shifts (accesses sample)).
Proof.
  refine (proj1 (term_extent sample _ _)); [repeat split|]. repeat constructor; vm_compute; discriminate.
Defined.

Lemma term_reads_witness :
  exists s, RequiredCells sample 0 0 = Ok s /\
    (forall c, c ∈ s <-> exists a r, a ∈ accesses sample /\ Access.register a = Some r /\
                             c = NewCellRef (NewColumnRef 0 r) (0 + Access.shift a)) /\
    forall m m', (forall c, c ∈ s -> cell_at m c = cell_at m' c) -> EvalAt 0 m sample = EvalAt 0 m' sample.
Proof. apply (term_reads sample 0 0). repeat constructor. Defined.

Definition padded_module : ArrayModule G :=
  mkModule (mkName "m" 1) 6 0 (pad 2 1 <$> columns sample_module).

Lemma term_padding_witness : EvalAt 3 padded_module sample = EvalAt 1 sample_module sample.
Proof.
  apply (term_padding sample sample_condition 3 sample_module padded_module 2 1 (proj1 sample_defined) (proj2 sample_defined)).
  reflexivity.
Defined.

End TermProperties.
