(* ===== verification/TermRange.v ===== *)
(** * Ranges of values of terms

    Soundness of [ValueRange] of [Term.v]: every value that a term evaluates to is
    congruent to a member of its interval, when the cells fit in the declared
    widths.  Members are integers, and the interval of a difference holds negative
    ones; hence the congruence. *)

From Stdlib Require Import ZArith Lia.
From stdpp Require Import base numbers list option strings gmap.
From S2P Require Import Prelude FieldElement Interval Register SortedSet Element Trace Term TermFacts TermReads.

Open Scope Z_scope.

Import IntervalFacts.

Section Range.
Context {F : Type} `{!Element F, !ElementLaws F}.
Implicit Types (e : Expr F) (l : Logical F) (m : ArrayModule F) (i : Interval.t).

(** [r] is the range of a term whose result is [res]. *)
Definition ranged (r : result Interval.t) (res : result F) : Prop :=
  exists i, r = Ok i /\ wf i /\ forall v, res = Ok v -> exists z, member i z /\ denotes v z.

Lemma Set_id i : Interval.Set_ i = i.
Proof. by destruct i as [[] []]. Qed.

Lemma NewInterval_ok lo hi :
  lo <= hi -> exists i, Interval.NewInterval lo hi = Ok i /\ wf i /\ forall z, member i z <-> lo <= z <= hi.
Proof.
  intros Hle. unfold Interval.NewInterval. destruct (Z.gtb_spec lo hi); [lia|].
  eexists. split; [done|]. split; [exact Hle|]. intros z. reflexivity.
Qed.

Lemma bits_interval w :
  0 <= w -> exists i, Interval.NewInterval 0 (2 ^ w - 1) = Ok i /\ wf i /\ forall z, member i z <-> 0 <= z < 2 ^ w.
Proof.
  intros Hw. pose proof (Z.pow_pos_nonneg 2 w). destruct (NewInterval_ok 0 (2 ^ w - 1)) as (i & Hi & Hwf & Hm); [lia|].
  exists i. split; [done|]. split; [done|]. intros z. rewrite Hm. lia.
Qed.

(** *** Loops *)

Section Loop.
Context (op : Interval.t -> Interval.t -> Interval.t) (opz : Z -> Z -> Z).
Context (op_wf : forall i j, wf i -> wf j -> wf (op i j)).
Context (op_member : forall i j x y, wf i -> wf j -> member i x -> member j y -> member (op i j) (opz x y)).

Lemma range_loop i rs js :
  Forall2 (fun r j => r = Ok j /\ wf j) rs js ->
  foldl (fun acc arg => res ← acc; ith ← arg; Ok (op res ith)) (Ok i) rs = Ok (foldl op i js).
Proof. intros H. revert i. induction H as [|r j rs js [-> _] _ IH]; intros i; [done|]. cbn. apply IH. Qed.

Lemma loop_wf i js : wf i -> Forall wf js -> wf (foldl op i js).
Proof. intros Hi Hjs. revert i Hi. induction Hjs; cbn; auto. Qed.

Lemma loop_member i x js zs :
  wf i -> member i x -> Forall wf js -> Forall2 member js zs -> member (foldl op i js) (foldl opz x zs).
Proof.
  intros Hi Hx Hjs H. revert i x Hi Hx. induction H as [|j z js zs Hz _ IH]; intros i x Hi Hx; [done|].
  apply Forall_cons in Hjs as [Hj Hjs]. cbn. apply IH; auto.
Qed.

(** The range of some arguments, and the values that combine their members *)
Lemma range_args_ranged (loop : F -> list (result F) -> result F) (f : Expr F -> result Interval.t) (g : Expr F -> result F) args :
  args <> [] -> Forall (fun e => ranged (f e) (g e)) args ->
  (forall acc x rs js v, denotes acc x -> Forall wf js ->
     Forall2 (fun r j => forall v, r = Ok v -> exists z, member j z /\ denotes v z) rs js ->
     loop acc rs = Ok v -> exists zs, Forall2 member js zs /\ denotes v (foldl opz x zs)) ->
  ranged (range_args op (map f args)) (eval_args loop (map g args)).
Proof.
  intros Hne Hargs Hloop.
  assert (exists js, Forall2 (fun r j => r = Ok j /\ wf j) (map f args) js /\
    Forall2 (fun r j => forall v, r = Ok v -> exists z, member j z /\ denotes v z) (map g args) js) as (js & Hf & Hg).
  { clear Hne. induction Hargs as [|e args (j & Hj & Hwf & Hm) _ (js & IHf & IHg)]; [by exists []|].
    exists (j :: js). split; cbn; constructor; auto. }
  destruct args as [|e args]; [done|]. cbn [map] in *.
  inversion Hf as [|r j rs js' [Hj Hjwf] Hrest]; subst. inversion Hg as [|r' j' rs' js'' Hjm Hgrest]; subst.
  assert (Hwf : Forall wf js').
  { clear -Hrest. induction Hrest as [|r q rs qs [_ Hq] _ IH]; by constructor. }
  exists (foldl op j js'). cbn [range_args eval_args]. rewrite Hj. cbn [mbind result_bind]. rewrite Set_id.
  split; [by apply range_loop|]. split; [by apply loop_wf|].
  intros v (w & Hw & Hv)%bind_ok. destruct (Hjm w Hw) as (x & Hx & Hden).
  destruct (Hloop _ _ _ _ _ Hden Hwf Hgrest Hv) as (zs & Hzs & Hd). exists (foldl opz x zs). split; [|done].
  by apply loop_member.
Qed.

End Loop.

Lemma fold_loop (fop : F -> F -> F) (opz : Z -> Z -> Z) acc x rs js v :
  (forall a b y z, denotes a y -> denotes b z -> denotes (fop a b) (opz y z)) ->
  denotes acc x -> Forall2 (fun r j => forall v, r = Ok v -> exists z, member j z /\ denotes v z) rs js ->
  fold_args fop acc rs = Ok v -> exists zs, Forall2 member js zs /\ denotes v (foldl opz x zs).
Proof.
  intros Hop Hacc H. revert acc x Hacc. induction H as [|r j rs js Hr _ IH]; intros acc x Hacc; cbn.
  { intros [= <-]. exists []. split; [constructor | done]. }
  intros (w & Hw & Hv)%bind_ok. destruct (Hr w Hw) as (z & Hz & Hd).
  destruct (IH _ (opz x z) (Hop _ _ _ _ Hacc Hd) Hv) as (zs & Hzs & Hd'). exists (z :: zs). split; [by constructor | done].
Qed.

Lemma foldl_mul_zero x zs : eqm (modulus (F := F)) x 0 -> eqm (modulus (F := F)) (foldl Z.mul x zs) 0.
Proof.
  revert x. induction zs as [|z zs IH]; intros x Hx; [done|]. cbn. apply IH. by rewrite Hx.
Qed.

(** A product that has become zero is zero whatever the remaining members are. *)
Lemma mul_loop acc x rs js v :
  denotes acc x -> Forall wf js ->
  Forall2 (fun r j => forall v, r = Ok v -> exists z, member j z /\ denotes v z) rs js ->
  mul_args acc rs = Ok v -> exists zs, Forall2 member js zs /\ denotes v (foldl Z.mul x zs).
Proof.
  intros Hacc Hwf H. revert acc x Hacc. induction H as [|r j rs js Hr H IH]; intros acc x Hacc; cbn.
  { intros [= <-]. exists []. split; [constructor | done]. }
  apply Forall_cons in Hwf as [Hj Hwf]. destruct (e_IsZero acc) eqn:Hz.
  - intros [= <-]. rewrite (denotes_zero acc x Hacc), zero_test_spec in Hz.
    assert (exists zs, Forall2 member (j :: js) zs) as (zs & Hzs).
    { assert (Hall : Forall wf (j :: js)) by by constructor. clear -Hall.
      induction Hall as [|q qs Hq _ (zs & Hzs)]; [by exists []|]. destruct (member_nonempty q Hq) as (z & Hz).
      exists (z :: zs). by constructor. }
    exists zs. split; [done|]. rewrite Hz in Hacc. by rewrite foldl_mul_zero.
  - intros (w & Hw & Hv)%bind_ok. destruct (Hr w Hw) as (z & Hzm & Hd).
    destruct (IH Hwf _ (x * z) (denotes_Mul _ _ _ _ Hacc Hd) Hv) as (zs & Hzs & Hd').
    exists (z :: zs). split; [by constructor | done].
Qed.

(** ** Terms *)

(** The value of an access is within its mask, unless its register is of field
    type. *)
Definition access_fits (k : Z) m (a : Access.t) : Prop :=
  Access.bitwidth a <> MaxUint -> forall v, access_at k m a = Ok v -> val v < 2 ^ Access.maskwidth a.

(** No exponent is zero, and vectors are of registers with a width. *)
Definition node_ranged e : Prop :=
  match e with
  | Exp _ pow => 0 < pow
  | VectorAccess vars => Forall (fun a => Access.bitwidth a <> MaxUint) vars
  | _ => True
  end.

Lemma access_at_bound k m a v :
  module_wf m -> Access.bitwidth a <> MaxUint -> access_fits k m a -> access_at k m a = Ok v ->
  0 <= val v < 2 ^ Access.maskwidth a.
Proof.
  intros Hm Hb Hf Hv. split; [|by apply Hf]. by apply val_range, (access_at_wf k m a).
Qed.

Lemma vector_args_bound k m vars acc x w v :
  module_wf m -> Forall access_wf vars -> Forall (fun a => Access.bitwidth a <> MaxUint) vars ->
  Forall (access_fits k m) vars -> 0 <= w -> w + widths vars < 2 ^ 64 ->
  denotes acc x -> 0 <= x < 2 ^ w -> vector_args k m vars acc w = Ok v ->
  exists z, 0 <= z < 2 ^ (w + widths vars) /\ denotes v z.
Proof.
  intros Hm Hwf Hb Hf. revert acc x w. induction Hf as [|a vars Ha _ IH]; intros acc x w Hw Hlt Hacc Hx; cbn in *.
  { intros [= <-]. exists x. by rewrite Z.add_0_r. }
  apply Forall_cons in Hwf as [Hwa Hwf], Hb as [Hba Hb]. pose proof (widths_nonneg vars Hwf). unfold access_wf in Hwa.
  intros (u & Hu & Hv)%bind_ok. pose proof (access_at_bound _ _ _ _ Hm Hba Ha Hu) as Hub.
  rewrite u64_small in Hv by lia.
  destruct (IH Hwf Hb (e_Add acc (shiftValue u w)) (x + val u * 2 ^ w) (w + Access.maskwidth a)) as (z & Hz & Hd);
    [lia|lia| | |done|].
  - apply denotes_Add; [done|]. apply denotes_Mul; [split; [by eapply access_at_wf | reflexivity]|].
    apply denotes_val. by apply TwoPowN_law.
  - rewrite Z.pow_add_r by lia. nia.
  - exists z. split; [|done]. by rewrite Z.add_assoc.
Qed.

Lemma foldl_widths vars w :
  Forall access_wf vars -> 0 <= w -> w + widths vars < 2 ^ 64 ->
  foldl (fun width a => u64 (width + Access.maskwidth a)) w vars = w + widths vars.
Proof.
  intros Hwf. revert w. induction Hwf as [|a vars Ha Hwf IH]; intros w Hw Hlt; cbn in *; [lia|].
  unfold access_wf in Ha. pose proof (widths_nonneg vars Hwf). rewrite u64_small by lia. rewrite IH; lia.
Qed.

Lemma vector_ranged k m vars :
  module_wf m -> node_wf (VectorAccess (F := F) vars) -> node_ranged (VectorAccess (F := F) vars) ->
  Forall (access_fits k m) vars -> ranged (ValueRange (VectorAccess (F := F) vars)) (vector_at k m vars).
Proof.
  intros Hm (Hne & Hwf & Hlt) Hb Hf. cbn [node_ranged] in Hb. unfold ranged. cbn [ValueRange]. methods. unfold valueRangeOfBits.
  rewrite foldl_widths by (done || lia). rewrite Z.add_0_l.
  destruct (bits_interval (widths vars)) as (i & Hi & Hiwf & Hmem); [by apply widths_nonneg|].
  exists i. split; [done|]. split; [done|]. intros v Hv. destruct vars as [|a vars]; [done|].
  apply Forall_cons in Hwf as [Hwa Hwf], Hb as [Hba Hb], Hf as [Hfa Hf]. cbn in Hv, Hlt, Hmem.
  apply bind_ok in Hv as (u & Hu & Hv). pose proof (access_at_bound _ _ _ _ Hm Hba Hfa Hu).
  destruct (vector_args_bound k m vars u (val u) (Access.maskwidth a) v) as (z & Hz & Hd); try done.
  { split; [by eapply access_at_wf | reflexivity]. }
  exists z. by rewrite Hmem.
Qed.

Lemma const_ranged v : element_ok v -> ranged (range_of_const v) (Ok v).
Proof.
  intros Hv. unfold range_of_const. rewrite bytes_law by done.
  destruct (NewInterval_ok (val v) (val v)) as (i & Hi & Hwf & Hm); [lia|].
  exists i. split; [done|]. split; [done|]. intros w [= <-]. exists (val v). rewrite Hm. split; [lia|].
  split; [done | reflexivity].
Qed.

Lemma cast_ranged bw (r : result Interval.t) (res : result F) :
  0 <= bw -> ranged r res ->
  ranged (cast ← Range bw; res ← r; within ← Interval.Within res cast; Ok (if within : bool then res else cast))
    (v ← res; match e_Cmp v (TwoPowN bw) with Lt => Ok v | _ => Fault (Error "cast failure") end).
Proof.
  intros Hbw (i & -> & Hi & Hm). destruct (bits_interval bw Hbw) as (c & Hc & Hcwf & Hcm). unfold Range. rewrite Hc.
  cbn [mbind result_bind]. destruct (Within_spec i c Hi Hcwf) as (b & -> & Hb). cbn [mbind result_bind].
  eexists. split; [done|]. split; [by destruct b|]. intros v (u & Hu & Hv)%bind_ok.
  destruct (e_Cmp u (TwoPowN bw)) eqn:Hcmp; try done. injection Hv as <-. destruct (Hm u Hu) as (z & Hz & Hd).
  destruct b; [by exists z|]. exists (val u). destruct Hd as [Hok _]. destruct (TwoPowN_law (F := F) bw Hbw) as [Hbok Hbv].
  rewrite cmp_law, Z.compare_lt_iff, Hbv in Hcmp by done. split; [|split; [done | reflexivity]]. apply Hcm.
  pose proof (val_range u Hok). pose proof (modulus_big (F := F)).
  assert (2 ^ bw mod modulus (F := F) <= 2 ^ bw) by (apply Z.mod_le; lia). lia.
Qed.

Lemma union_ranged k m c (r1 r2 : result Interval.t) (x y : result F) :
  ranged r1 x -> ranged r2 y ->
  ranged (t ← r1; f ← r2; Ok (Interval.Union t f)) (b ← TestAt k m c; if b : bool then x else y).
Proof.
  intros (i & -> & Hi & Hx) (j & -> & Hj & Hy). cbn [mbind result_bind].
  exists (Interval.Union i j). split; [done|]. split; [by apply Union_wf|].
  pose proof (proj1 (Union_spec i j _ Hi Hj) (fun z H => H)) as Hu.
  intros v (b & _ & Hv)%bind_ok. destruct b.
  - destruct (Hx v Hv) as (z & Hz & Hd). exists z. split; [apply Hu; by left | done].
  - destruct (Hy v Hv) as (z & Hz & Hd). exists z. split; [apply Hu; by right | done].
Qed.

Lemma exp_ranged pow (r : result Interval.t) (res : result F) :
  0 < pow -> ranged r res ->
  ranged (bounds ← r; Ok (Interval.Exp bounds (Z.to_nat pow))) (v ← res; Ok (Pow v pow)).
Proof.
  intros Hpow (i & -> & Hi & Hm). cbn [mbind result_bind]. eexists. split; [done|].
  split; [unfold Interval.Exp; by apply Exp_iter|]. intros v (u & Hu & [= <-])%bind_ok. destruct (Hm u Hu) as (z & Hz & Hd).
  exists (z ^ pow). split.
  - rewrite <-(Z2Nat.id pow) at 2 by lia. apply Exp_member; [done|done|lia].
  - destruct Hd as [Hok Hz']. destruct (Pow_law u pow Hok) as [Hpok Hpv]; [lia|]. apply denotes_val. split; [done|].
    rewrite Hpv. pose proof (modulus_big (F := F)). apply eqm_iff_mod; [lia|]. by apply eqm_pow.
Qed.

Lemma access_ranged k m a :
  module_wf m -> access_wf a -> access_fits k m a ->
  ranged (if Access.bitwidth a =? MaxUint then Ok Interval.INFINITY else valueRangeOfBits (Access.maskwidth a))
    (access_at k m a).
Proof.
  intros Hm Hwf Hf. destruct (Z.eqb_spec (Access.bitwidth a) MaxUint) as [|Hb].
  - exists Interval.INFINITY. split; [done|]. split; [done|]. intros v Hv. exists (val v). split; [done|].
    split; [by eapply access_at_wf | reflexivity].
  - destruct (bits_interval (Access.maskwidth a) Hwf) as (i & Hi & Hiwf & Hmem). exists i.
    split; [done|]. split; [done|]. intros v Hv. exists (val v). rewrite Hmem. split.
    + by eapply access_at_bound.
    + split; [by eapply access_at_wf | reflexivity].
Qed.

Lemma norm_ranged r (res : result F) :
  ranged r res -> ranged (Interval.NewInterval 0 1) (v ← res; Ok (if e_IsZero v then v else One)).
Proof.
  intros (i & _ & _ & Hv). destruct (NewInterval_ok 0 1) as (j & Hj & Hjwf & Hjm); [lia|].
  exists j. split; [done|]. split; [done|]. intros v (u & Hu & [= <-])%bind_ok. destruct (Hv u Hu) as (z & _ & Hd).
  destruct (e_IsZero u) eqn:Hz.
  - exists 0. rewrite Hjm. split; [lia|]. destruct Hd as [Hok _]. apply is_zero_eq in Hz as ->; [|done]. apply denotes_0.
  - exists 1. rewrite Hjm. split; [lia | apply denotes_1].
Qed.

Lemma value_ranged k m :
  module_wf m ->
  forall e, every (fun e => (node_wf e /\ node_ranged e) /\ on_accesses (access_fits k m) e) e ->
    ranged (ValueRange e) (EvalAt k m e).
Proof.
  intros Hm. apply (every_induction _ _ (fun _ => True)). split; try (intros; exact I); tcbn.
  - intros args [[Hne _] _] IH. apply (range_args_ranged _ Z.add Add_wf Add_member); [done..|].
    intros acc x rs js v Hacc _ Hrs Hv. by apply (fold_loop e_Add Z.add acc x rs); [apply denotes_Add|..].
  - intros arg bw bound [[[Hbw ->] _] _] IH. by apply cast_ranged.
  - intros v [[Hv _] _]. by apply const_ranged.
  - intros arg pow [[_ Hpow] _] IH. by apply exp_ranged.
  - intros c t f _ _ Ht Hf. by apply union_ranged.
  - intros _ v [[Hv _] _]. by apply const_ranged.
  - intros args [[Hne _] _] IH. apply (range_args_ranged _ Z.mul Mul_wf Mul_member); [done..|]. apply mul_loop.
  - intros arg _ IH. by eapply norm_ranged.
  - intros a [[Hwf _] Hf]. by apply access_ranged.
  - intros args [[Hne _] _] IH. apply (range_args_ranged _ Z.sub Sub_wf Sub_member); [done..|].
    intros acc x rs js v Hacc _ Hrs Hv. by apply (fold_loop e_Sub Z.sub acc x rs); [apply denotes_Sub|..].
  - intros vars [[Hwf Hb] Hf]. by apply vector_ranged.
Qed.

End Range.

Module RangeProperties.
Import TermProperties.

Section Properties.
Context {F : Type} `{!Element F, !ElementLaws F}.

(** C33: A well-formed term without zero exponents, whose vectors are of registers that
    have a width, has a range of values; and on every row whose cells are within
    their declared masks, the value of the term, a residue modulo the prime, is the
    residue of some integer in the range.  (For an exponent of zero the range is that
    of the argument, which need not contain one, see [value_range_exp_zero].) *)
Theorem value_range_sound (e : Expr F) (k : Z) (m : ArrayModule F) :
  module_wf m -> expr_wf e -> every node_ranged e -> Forall (access_fits k m) (accesses e) ->
  exists i, ValueRange e = Ok i /\
    forall v, EvalAt k m e = Ok v -> exists z, member i z /\ val v = z mod modulus (F := F).
Proof.
  intros Hm He Hr Hf. destruct (every_and node_wf node_ranged) as [Hand _].
  destruct (every_accesses (access_fits k m) (fun e => node_wf e /\ node_ranged e)) as [Hacc _].
  destruct (value_ranged k m Hm e) as (i & Hi & _ & Hv); [by apply Hacc; [apply Hand|]|].
  exists i. split; [done|]. intros v Hev. destruct (Hv v Hev) as (z & Hz & Hd). exists z.
  split; [done|]. by apply denotes_val.
Qed.

End Properties.

(** With exponent zero the range of the argument is returned, and the value is one. *)
Lemma value_range_exp_zero :
  ValueRange (Exp (Constant (el 5)) 0) = Ok (Interval.mk (InfInt.SetInt 5) (InfInt.SetInt 5)) /\
  EvalAt 0 sample_module (Exp (Constant (el 5)) 0) = Ok (el 1).
Proof. split; vm_compute; reflexivity. Qed.

Lemma value_range_sound_witness :
  exists i, ValueRange sample = Ok i /\
    forall v, EvalAt 1 sample_module sample = Ok v -> exists z, member i z /\ val (F := G) v = z mod modulus (F := G).
Proof.
  apply (value_range_sound sample 1 sample_module sample_module_wf (proj1 sample_term_wf)); [by repeat split|].
  repeat constructor; intros _ v Hv; vm_compute in Hv; injection Hv as <-; by vm_compute.
Defined.

End RangeProperties.
