(* ===== verification/Simplify.v ===== *)
(** * Simplification of terms

    Models the [Simplify] methods of [pkg/ir/term].  The recursion is not
    structural, for a negation simplifies the negated term and a conditional the
    negation of its simplified condition, so it has a fuel; the depth of the term
    is enough.  Simplification panics on a cast of a constant out of its range. *)

From Stdlib Require Import ZArith Lia.
From stdpp Require Import base numbers list option strings gmap.
From S2P Require Import Prelude FieldElement Interval Register SortedSet Element Trace Term TermFacts TermReads.

Open Scope Z_scope.

Section Simplify.
Context {F : Type} `{!Element F}.
Implicit Types (e : Expr F) (l : Logical F).

(** ** Merging constants *)

(** [mergeConstants]; [first] until the first constant has been replaced. *)
Fixpoint mergeConstants (constant : F) (first : bool) (terms : list (Expr F)) : list (Expr F) :=
  match terms with
  | [] => []
  | Constant _ :: rest =>
      if first then Constant constant :: mergeConstants constant false rest else mergeConstants constant first rest
  | t :: rest => t :: mergeConstants constant first rest
  end.

(** The accumulation of [simplifyTerms] *)
Definition accumulate (fn : F -> F -> F) (acc : F) (terms : list (Expr F)) : F :=
  foldl (fun acc t => match t with Constant c => fn acc c | _ => acc end) acc terms.

(** [simplifyTerms], given the simplified children *)
Definition merged (fn : F -> F -> F) (acc : F) (nterms : list (Expr F)) : list (Expr F) :=
  mergeConstants (accumulate fn acc nterms) true nterms.

Definition flatternConjunct l : option (list (Logical F)) := match l with Conjunct args => Some args | _ => None end.
Definition flatternDisjunct l : option (list (Logical F)) := match l with Disjunct args => Some args | _ => None end.

Fixpoint findConstant (terms : list (Expr F)) : option F :=
  match terms with
  | [] => None
  | Constant c :: _ => Some c
  | _ :: rest => findConstant rest
  end.

(** [simplifySum], given the simplified arguments *)
Definition simplifySum (nterms : list (Expr F)) : Expr F :=
  match RemoveMatching (Flatten (merged e_Add e_zero nterms) flatternAdd) isZero with
  | [] => Constant e_zero
  | [t] => t
  | ts => Add ts
  end.

(** [Mul.Simplify] *)
Definition Simplify_Mul (nterms : list (Expr F)) : Expr F :=
  let terms := Flatten (merged e_Mul One nterms) flatternMul in
  if existsb isZero terms then Constant e_zero
  else match RemoveMatching terms isOne with [] => Constant One | [t] => t | ts => Mul ts end.

(** [Sub.Simplify], given both sides simplified *)
Definition Simplify_Sub (lhs rhs : Expr F) : Expr F :=
  if isZero rhs then lhs
  else
    match lhs, rhs with
    | Constant lc, Constant rc => if is_lt (e_Cmp lc rc) then Sub [lhs; rhs] else Constant (e_Sub lc rc)
    | Constant lc, Add args =>
        match findConstant args with
        | Some rc =>
            if is_lt (e_Cmp lc rc) then Sub (lhs :: args)
            else Sub (mergeConstants (e_Sub lc rc) true (lhs :: args))
        | None => Sub (lhs :: args)
        end
    | _, Add args => Sub (lhs :: args)
    | _, _ => Sub [lhs; rhs]
    end.

(** [Conjunct.Simplify] and [Disjunct.Simplify], given the simplified arguments *)
Definition Simplify_Conjunct (nterms : list (Logical F)) : Logical F :=
  let terms := Flatten nterms flatternConjunct in
  if existsb IsFalse terms then False_
  else match RemoveMatching terms IsTrue with [] => True_ | [t] => t | ts => Conjunction ts end.

Definition Simplify_Disjunct (nterms : list (Logical F)) : Logical F :=
  let terms := Flatten nterms flatternDisjunct in
  if existsb IsTrue terms then True_
  else match RemoveMatching terms IsFalse with [] => False_ | [t] => t | ts => Disjunction ts end.

Definition Simplify_Cast (casts : bool) (arg : Expr F) (bitwidth : Z) (bound : F) : result (Expr F) :=
  match arg with
  | Constant c => if is_lt (e_Cmp c bound) then Ok arg else Fault (Panic "type cast failure")
  | _ => Ok (if casts then CastOf arg bitwidth else arg)
  end.

Definition Simplify_Exp (arg : Expr F) (pow : Z) : Expr F :=
  match arg with Constant c => Constant (Element.Pow c pow) | _ => Exp arg pow end.

Definition Simplify_Norm (arg : Expr F) : Expr F :=
  match arg with Constant c => Constant (if e_IsZero c then c else One) | _ => Norm arg end.

Definition Simplify_IfZero (cond : Logical F) (trueBranch falseBranch : Expr F) : Expr F :=
  if IsTrue cond then trueBranch else if IsFalse cond then falseBranch else IfZero cond trueBranch falseBranch.

Definition Simplify_comparison (equal : bool) (lhs rhs : Expr F) : Logical F :=
  match IsConstant lhs, IsConstant rhs with
  | Some lc, Some rc => if Bool.eqb (is_eq (e_Cmp lc rc)) equal then True_ else False_
  | _, _ => if equal then Equal lhs rhs else NotEqual lhs rhs
  end.

Definition Simplify_Equal (lhs rhs : Expr F) : Logical F := Simplify_comparison true lhs rhs.
Definition Simplify_NotEqual (lhs rhs : Expr F) : Logical F := Simplify_comparison false lhs rhs.

(** A branch of a conditional that has become true is dropped. *)
Definition drop_true (o : option (Logical F)) : option (Logical F) :=
  match o with Some t => if IsTrue t then None else Some t | None => None end.

(** ** [Simplify] *)

Fixpoint SimplifyExpr (fuel : nat) (casts : bool) e {struct fuel} : result (Expr F) :=
  match fuel with
  | O => Fault OutOfFuel
  | S n =>
      match e with
      | Add args => nterms ← mapM (SimplifyExpr n casts) args; Ok (simplifySum nterms)
      | Cast arg bitwidth bound => arg' ← SimplifyExpr n casts arg; Simplify_Cast casts arg' bitwidth bound
      | Constant _ | LabelledConst _ _ | RegisterAccess _ | VectorAccess _ => Ok e
      | Exp arg pow =>
          arg' ← SimplifyExpr n casts arg;
          Ok (Simplify_Exp arg' pow)
      | IfZero c t f =>
          cond ← SimplifyLogical n casts c;
          trueBranch ← SimplifyExpr n casts t;
          falseBranch ← SimplifyExpr n casts f;
          Ok (Simplify_IfZero cond trueBranch falseBranch)
      | Mul args => nterms ← mapM (SimplifyExpr n casts) args; Ok (Simplify_Mul nterms)
      | Norm arg =>
          arg' ← SimplifyExpr n casts arg;
          Ok (Simplify_Norm arg')
      | Sub [] => Fault index_panic
      | Sub (a :: rest) =>
          lhs ← SimplifyExpr n casts a;
          nterms ← mapM (SimplifyExpr n casts) rest;
          Ok (Simplify_Sub lhs (simplifySum nterms))
      end
  end
with SimplifyLogical (fuel : nat) (casts : bool) l {struct fuel} : result (Logical F) :=
  match fuel with
  | O => Fault OutOfFuel
  | S n =>
      match l with
      | Conjunct args => nterms ← mapM (SimplifyLogical n casts) args; Ok (Simplify_Conjunct nterms)
      | Disjunct args => nterms ← mapM (SimplifyLogical n casts) args; Ok (Simplify_Disjunct nterms)
      | Equal lhs rhs => x ← SimplifyExpr n casts lhs; y ← SimplifyExpr n casts rhs; Ok (Simplify_Equal x y)
      | NotEqual lhs rhs => x ← SimplifyExpr n casts lhs; y ← SimplifyExpr n casts rhs; Ok (Simplify_NotEqual x y)
      | Negate arg => SimplifyLogical n casts (Negate_ arg)
      | Ite c t f =>
          cond ← SimplifyLogical n casts c;
          if IsTrue cond then match t with Some t => SimplifyLogical n casts t | None => Ok True_ end
          else if IsFalse cond then match f with Some f => SimplifyLogical n casts f | None => Ok True_ end
          else
            tb ← match t with Some t => b ← SimplifyLogical n casts t; Ok (Some b) | None => Ok None end;
            fb ← match f with Some f => b ← SimplifyLogical n casts f; Ok (Some b) | None => Ok None end;
            match drop_true tb, drop_true fb with
            | None, None => Ok True_
            | None, Some fb => if IsFalse fb then Ok cond else Ok (Ite cond None (Some fb))
            | Some tb, None => if IsFalse tb then SimplifyLogical n casts (Negate_ cond) else Ok (Ite cond (Some tb) None)
            | Some tb, Some fb => Ok (Ite cond (Some tb) (Some fb))
            end
      end
  end.

(** ** Depth *)

Fixpoint depth e : nat :=
  S match e with
    | Add args | Mul args | Sub args => foldr (fun a n => Nat.max (depth a) n) 0%nat args
    | Cast arg _ _ | Exp arg _ | Norm arg => depth arg
    | Constant _ | LabelledConst _ _ | RegisterAccess _ | VectorAccess _ => 0%nat
    | IfZero c t f => Nat.max (depth_logical c) (Nat.max (depth t) (depth f))
    end
with depth_logical l : nat :=
  S match l with
    | Conjunct args | Disjunct args => foldr (fun a n => Nat.max (depth_logical a) n) 0%nat args
    | Equal lhs rhs | NotEqual lhs rhs => Nat.max (depth lhs) (depth rhs)
    | Ite c t f =>
        Nat.max (depth_logical c)
          (Nat.max (match t with Some t => depth_logical t | None => 0%nat end)
             (match f with Some f => depth_logical f | None => 0%nat end))
    | Negate arg => depth_logical arg
    end.

Definition Simplify (casts : bool) e : result (Expr F) := SimplifyExpr (depth e) casts e.
Definition Simplify_logical (casts : bool) l : result (Logical F) := SimplifyLogical (depth_logical l) casts l.

End Simplify.

(** ** Sums and products of terms *)

Section Sums.
Context {F : Type} `{!Element F, !ElementLaws F}.
Context (k : Z) (m : ArrayModule F).
Implicit Types (e : Expr F) (l : Logical F).

Abbreviation p := (modulus (F := F)).

(** A term evaluates to the element of [z]. *)
Definition evaluates e (z : Z) : Prop := exists v, EvalAt k m e = Ok v /\ denotes v z.

#[local] Instance evaluates_proper e : Proper (eqm p ==> iff) (evaluates e).
Proof. intros x y Hxy. unfold evaluates. by setoid_rewrite Hxy. Qed.

Lemma evaluates_unique e x y : evaluates e x -> evaluates e y -> eqm p x y.
Proof.
  intros (v & Hv & _ & Hx) (w & Hw & _ & Hy). rewrite Hv in Hw. injection Hw as <-. by rewrite <-Hx, <-Hy.
Qed.

Lemma evaluates_const v : element_ok v -> evaluates (Constant v) (val v).
Proof. intros Hv. exists v. split; [done|]. split; [done | reflexivity]. Qed.

Fixpoint sums (terms : list (Expr F)) (z : Z) : Prop :=
  match terms with
  | [] => eqm p z 0
  | t :: rest => exists x y, evaluates t x /\ sums rest y /\ eqm p z (x + y)
  end.

(** The product is cut short by a zero. *)
Fixpoint prods (terms : list (Expr F)) (z : Z) : Prop :=
  match terms with
  | [] => eqm p z 1
  | t :: rest =>
      exists x, evaluates t x /\ ((eqm p x 0 /\ eqm p z 0) \/ exists y, prods rest y /\ eqm p z (x * y))
  end.

#[local] Instance sums_proper terms : Proper (eqm p ==> iff) (sums terms).
Proof. intros x y Hxy. destruct terms; cbn; by setoid_rewrite Hxy. Qed.

#[local] Instance prods_proper terms : Proper (eqm p ==> iff) (prods terms).
Proof. intros x y Hxy. destruct terms; cbn; by setoid_rewrite Hxy. Qed.

Lemma mul_zero_eqm x y : eqm p (x * y) 0 -> eqm p x 0 \/ eqm p y 0.
Proof.
  unfold eqm. rewrite !Z.sub_0_r. intros Hd. apply Z.divide_prime_mul in Hd as [|]; [by left | by right|].
  apply modulus_is_prime.
Qed.

(** *** Evaluation of sums, differences and products *)

Definition typed e : Prop := forall w, EvalAt k m e = Ok w -> element_ok w.

Lemma typed_evaluates e v : typed e -> EvalAt k m e = Ok v -> evaluates e (val v).
Proof. intros Ht Hv. exists v. split; [done|]. split; [by apply Ht | reflexivity]. Qed.

Lemma fold_add_sums acc x terms v :
  denotes acc x -> Forall typed terms -> fold_args e_Add acc (map (EvalAt k m) terms) = Ok v ->
  exists y, sums terms y /\ denotes v (x + y).
Proof.
  intros Hacc Ht. revert acc x Hacc. induction Ht as [|t terms Ht _ IH]; intros acc x Hacc; cbn.
  { intros [= <-]. exists 0. split; [reflexivity | by rewrite Z.add_0_r]. }
  intros (w & Hw & Hv)%bind_ok. pose proof (typed_evaluates t w Ht Hw) as Hwe.
  destruct (IH (e_Add acc w) (x + val w)) as (y & Hy & Hd); [|done|].
  { apply denotes_Add; [done|]. split; [by apply Ht | reflexivity]. }
  exists (val w + y). split; [by exists (val w), y|]. by rewrite Z.add_assoc.
Qed.

Lemma sums_fold_add acc x terms y :
  denotes acc x -> sums terms y -> exists v, fold_args e_Add acc (map (EvalAt k m) terms) = Ok v /\ denotes v (x + y).
Proof.
  revert acc x y. induction terms as [|t terms IH]; intros acc x y Hacc; cbn.
  { intros Hy. exists acc. split; [done|]. by rewrite Hy, Z.add_0_r. }
  intros (a & b & (w & Hw & Hwd) & Hb & Hy). rewrite Hw. cbn.
  destruct (IH (e_Add acc w) (x + a) b) as (v & Hv & Hd); [by apply denotes_Add|done|].
  exists v. split; [done|]. by rewrite Hy, Z.add_assoc.
Qed.

Lemma fold_sub_sums acc x terms v :
  denotes acc x -> Forall typed terms -> fold_args e_Sub acc (map (EvalAt k m) terms) = Ok v ->
  exists y, sums terms y /\ denotes v (x - y).
Proof.
  intros Hacc Ht. revert acc x Hacc. induction Ht as [|t terms Ht _ IH]; intros acc x Hacc; cbn.
  { intros [= <-]. exists 0. split; [reflexivity | by rewrite Z.sub_0_r]. }
  intros (w & Hw & Hv)%bind_ok. pose proof (typed_evaluates t w Ht Hw) as Hwe.
  destruct (IH (e_Sub acc w) (x - val w)) as (y & Hy & Hd); [|done|].
  { apply denotes_Sub; [done|]. split; [by apply Ht | reflexivity]. }
  exists (val w + y). split; [by exists (val w), y|]. by rewrite Z.sub_add_distr.
Qed.

Lemma sums_fold_sub acc x terms y :
  denotes acc x -> sums terms y -> exists v, fold_args e_Sub acc (map (EvalAt k m) terms) = Ok v /\ denotes v (x - y).
Proof.
  revert acc x y. induction terms as [|t terms IH]; intros acc x y Hacc; cbn.
  { intros Hy. exists acc. split; [done|]. by rewrite Hy, Z.sub_0_r. }
  intros (a & b & (w & Hw & Hwd) & Hb & Hy). rewrite Hw. cbn.
  destruct (IH (e_Sub acc w) (x - a) b) as (v & Hv & Hd); [by apply denotes_Sub|done|].
  exists v. split; [done|]. by rewrite Hy, Z.sub_add_distr.
Qed.

Lemma mul_prods acc x terms v :
  denotes acc x -> Forall typed terms -> mul_args acc (map (EvalAt k m) terms) = Ok v ->
  (eqm p x 0 /\ denotes v 0) \/ exists y, prods terms y /\ denotes v (x * y).
Proof.
  intros Hacc Ht. revert acc x Hacc. induction Ht as [|t terms Ht _ IH]; intros acc x Hacc; cbn.
  { intros [= <-]. right. exists 1. split; [reflexivity | by rewrite Z.mul_1_r]. }
  destruct (e_IsZero acc) eqn:Hz.
  { intros [= <-]. rewrite (denotes_zero acc x Hacc), zero_test_spec in Hz. left. split; [done|]. by rewrite <-Hz. }
  intros (w & Hw & Hv)%bind_ok. pose proof (typed_evaluates t w Ht Hw) as Hwe. right.
  destruct (IH (e_Mul acc w) (x * val w)) as [[Hx0 Hd]|(y & Hy & Hd)].
  - apply denotes_Mul; [done|]. split; [by apply Ht | reflexivity].
  - done.
  - rewrite (denotes_zero acc x Hacc) in Hz. exists 0. rewrite Z.mul_0_r. split; [|done].
    exists (val w). split; [done|]. left. split; [|reflexivity].
    apply mul_zero_eqm in Hx0 as [Hx0|Hx0]; [|done]. by apply zero_test_spec in Hx0; rewrite Hx0 in Hz.
  - exists (val w * y). split; [exists (val w); split; [done|]; right; by exists y|]. by rewrite Z.mul_assoc.
Qed.

Lemma prods_mul acc x terms z :
  denotes acc x -> (eqm p x 0 /\ eqm p z 0) \/ (exists y, prods terms y /\ eqm p z (x * y)) ->
  exists v, mul_args acc (map (EvalAt k m) terms) = Ok v /\ denotes v z.
Proof.
  intros Hacc H. revert acc x z Hacc H. induction terms as [|t terms IH]; intros acc x z Hacc H; cbn.
  { exists acc. split; [done|]. destruct H as [[Hx Hz]|(y & Hy & Hz)].
    - by rewrite Hz, <-Hx.
    - cbn in Hy. by rewrite Hz, Hy, Z.mul_1_r. }
  destruct (e_IsZero acc) eqn:Hzero.
  { exists acc. split; [done|]. rewrite (denotes_zero acc x Hacc), zero_test_spec in Hzero.
    assert (Hz : eqm p z 0) by (destruct H as [[_ Hz]|(y & _ & ->)]; [done | by rewrite Hzero]).
    by rewrite Hz, <-Hzero. }
  rewrite (denotes_zero acc x Hacc) in Hzero.
  destruct H as [[Hx _]|(y & Hy & Hz)]; [apply zero_test_spec in Hx; congruence|].
  cbn in Hy. destruct Hy as (a & (w & Hw & Hwd) & Hrest). rewrite Hw. cbn.
  apply (IH _ (x * a)); [by apply denotes_Mul|].
  destruct Hrest as [[Ha Hy]|(b & Hb & Hy)].
  - left. split; [by rewrite Ha, Z.mul_0_r | by rewrite Hz, Hy, Z.mul_0_r].
  - right. exists b. split; [done|]. by rewrite Hz, Hy, Z.mul_assoc.
Qed.

Lemma evaluates_Add args z : args <> [] -> Forall typed args -> evaluates (Add args) z <-> sums args z.
Proof.
  intros Hne Ht. destruct args as [|t args]; [done|]. apply Forall_cons in Ht as [Ht Hts]. unfold evaluates. cbn. split.
  - intros (v & (w & Hw & Hv)%bind_ok & Hd). destruct (fold_add_sums w (val w) args v) as (y & Hy & Hdy); [|done|done|].
    { split; [by apply Ht | reflexivity]. }
    exists (val w), y. split; [by apply typed_evaluates|]. split; [done|]. destruct Hd as [_ Hd], Hdy as [_ Hdy].
    by rewrite <-Hd, Hdy.
  - intros (x & y & (w & Hw & Hwd) & Hy & Hz). rewrite Hw. cbn.
    destruct (sums_fold_add w x args y Hwd Hy) as (v & Hv & Hd). exists v. split; [done|]. by rewrite Hz.
Qed.

Lemma evaluates_Sub t args z :
  Forall typed (t :: args) ->
  evaluates (Sub (t :: args)) z <-> exists x y, evaluates t x /\ sums args y /\ eqm p z (x - y).
Proof.
  intros Ht. apply Forall_cons in Ht as [Ht Hts]. unfold evaluates. cbn. split.
  - intros (v & (w & Hw & Hv)%bind_ok & Hd). destruct (fold_sub_sums w (val w) args v) as (y & Hy & Hdy); [|done|done|].
    { split; [by apply Ht | reflexivity]. }
    exists (val w), y. split; [by apply typed_evaluates|]. split; [done|]. destruct Hd as [_ Hd], Hdy as [_ Hdy].
    by rewrite <-Hd, Hdy.
  - intros (x & y & (w & Hw & Hwd) & Hy & Hz). rewrite Hw. cbn.
    destruct (sums_fold_sub w x args y Hwd Hy) as (v & Hv & Hd). exists v. split; [done|]. by rewrite Hz.
Qed.

Lemma evaluates_Mul args z : args <> [] -> Forall typed args -> evaluates (Mul args) z <-> prods args z.
Proof.
  intros Hne Ht. destruct args as [|t args]; [done|]. apply Forall_cons in Ht as [Ht Hts]. unfold evaluates. cbn. split.
  - intros (v & (w & Hw & Hv)%bind_ok & Hd). exists (val w). split; [by apply typed_evaluates|].
    destruct (mul_prods w (val w) args v) as [[Hx Hdz]|(y & Hy & Hdy)]; [|done|done| |].
    + split; [by apply Ht | reflexivity].
    + left. split; [done|]. destruct Hd as [_ Hd], Hdz as [_ Hdz]. by rewrite <-Hd, Hdz.
    + right. exists y. split; [done|]. destruct Hd as [_ Hd], Hdy as [_ Hdy]. by rewrite <-Hd, Hdy.
  - intros (x & (w & Hw & Hwd) & Hrest). rewrite Hw. cbn. by apply (prods_mul w x).
Qed.

(** *** Lists of terms *)

Lemma sums_app us ws x y z : sums us x -> sums ws y -> eqm p z (x + y) -> sums (us ++ ws) z.
Proof.
  revert x z. induction us as [|t us IH]; intros x z Hx Hy Hz; cbn in *.
  { by rewrite Hz, Hx. }
  destruct Hx as (a & b & Ha & Hb & Hx). exists a, (b + y). split; [done|]. split; [by eapply IH|].
  by rewrite Hz, Hx, Z.add_assoc.
Qed.

Lemma prods_app us ws x z :
  prods us x -> (eqm p x 0 /\ eqm p z 0) \/ (exists y, prods ws y /\ eqm p z (x * y)) -> prods (us ++ ws) z.
Proof.
  revert x z. induction us as [|t us IH]; intros x z Hx H; cbn in *.
  { destruct H as [[Hx0 _]|(y & Hy & Hz)]; [|by rewrite Hz, Hx, Z.mul_1_l].
    exfalso. rewrite Hx in Hx0. unfold eqm in Hx0. apply Z.divide_1_r_nonneg in Hx0; pose proof (modulus_big (F := F)); lia. }
  destruct Hx as (a & Ha & Hx). exists a. split; [done|].
  destruct Hx as [[Ha0 Hx]|(b & Hb & Hx)].
  - left. split; [done|]. destruct H as [[_ Hz]|(y & _ & Hz)]; [done|]. by rewrite Hz, Hx.
  - destruct H as [[Hx0 Hz]|(y & Hy & Hz)].
    + rewrite Hx in Hx0. apply mul_zero_eqm in Hx0 as [Ha0|Hb0]; [by left|]. right. exists 0.
      split; [apply (IH b); [done|]; left; split; [done | reflexivity] | by rewrite Hz, Z.mul_0_r].
    + right. exists (b * y). split; [apply (IH b); [done|]; right; exists y; split; [done|reflexivity]|].
      by rewrite Hz, Hx, Z.mul_assoc.
Qed.

(** A well-formed sum is flattened. *)
Lemma sums_Flatten terms z :
  Forall (fun t => match t with Add args => args <> [] /\ Forall typed args | _ => True end) terms ->
  sums terms z -> sums (Flatten terms flatternAdd) z.
Proof.
  unfold Flatten. intros H. revert z. induction H as [|t terms Ht _ IH]; intros z; [done|]. cbn.
  intros (x & y & Hx & Hy & Hz). destruct t; cbn; try (exists x, y; auto).
  destruct Ht as [Hne Ht]. eapply sums_app; [by apply evaluates_Add|by apply IH|done].
Qed.

Lemma prods_Flatten terms z :
  Forall (fun t => match t with Mul args => args <> [] /\ Forall typed args | _ => True end) terms ->
  prods terms z -> prods (Flatten terms flatternMul) z.
Proof.
  unfold Flatten. intros H. revert z. induction H as [|t terms Ht _ IH]; intros z; [done|]. cbn.
  intros (x & Hx & Hrest).
  assert (Hrest' : (eqm p x 0 /\ eqm p z 0) \/ (exists y, prods (terms ≫= λ t, match flatternMul t with Some ts => ts | None => [t] end) y /\ eqm p z (x * y))).
  { destruct Hrest as [H0|(y & Hy & Hz)]; [by left|]. right. exists y. split; [by apply IH | done]. }
  destruct t; cbn; try (exists x; auto). destruct Ht as [Hne Ht]. eapply prods_app; [by apply evaluates_Mul | done].
Qed.

Definition const_ok e : Prop := match e with Constant v => element_ok v | _ => True end.

Lemma sums_RemoveMatching terms z : Forall const_ok terms -> sums terms z -> sums (RemoveMatching terms isZero) z.
Proof.
  unfold RemoveMatching. intros H. revert z. induction H as [|t terms Ht _ IH]; intros z; [done|]. cbn.
  intros (x & y & Hx & Hy & Hz). destruct (isZero t) eqn:Hzero; cbn.
  - destruct t; try done. cbn in Hzero, Ht. apply is_zero_eq in Hzero as ->; [|done].
    rewrite (evaluates_unique _ _ _ Hx (evaluates_const _ Ht)), (proj2 zero_law) in Hz. rewrite Hz. by apply IH.
  - exists x, y. auto.
Qed.

Lemma prods_RemoveMatching terms z : Forall const_ok terms -> prods terms z -> prods (RemoveMatching terms isOne) z.
Proof.
  unfold RemoveMatching. intros H. revert z. induction H as [|t terms Ht _ IH]; intros z; [done|]. cbn.
  intros (x & Hx & Hrest). destruct (isOne t) eqn:Hone; cbn.
  - destruct t; try done. cbn in Hone, Ht. rewrite is_one_law, Z.eqb_eq in Hone by done.
    pose proof (evaluates_unique _ _ _ Hx (evaluates_const _ Ht)) as Hx1. rewrite Hone in Hx1.
    destruct Hrest as [[Hx0 _]|(y & Hy & Hz)].
    + exfalso. rewrite Hx1 in Hx0. apply Z.divide_1_r_nonneg in Hx0; pose proof (modulus_big (F := F)); lia.
    + rewrite Hz, Hx1, Z.mul_1_l. by apply IH.
  - exists x. split; [done|]. destruct Hrest as [H0|(y & Hy & Hz)]; [by left|]. right. exists y. auto.
Qed.

(** A product with a zero constant is zero. *)
Lemma prods_zero terms z : Forall const_ok terms -> existsb isZero terms = true -> prods terms z -> eqm p z 0.
Proof.
  intros H. revert z. induction H as [|t terms Ht _ IH]; intros z; [done|]. cbn.
  intros Hex (x & Hx & [[_ Hz]|(y & Hy & Hz)]); [done|]. rewrite Hz. apply orb_true_iff in Hex as [Hzero|Hex].
  - destruct t; try done. cbn in Hzero, Ht. apply is_zero_eq in Hzero as ->; [|done].
    by rewrite (evaluates_unique _ _ _ Hx (evaluates_const _ Ht)), (proj2 zero_law).
  - by rewrite (IH y Hex Hy), Z.mul_0_r.
Qed.

(** *** Merging constants *)

Definition as_const e : option F := match e with Constant v => Some v | _ => None end.

Fixpoint csum (terms : list (Expr F)) : Z :=
  match terms with [] => 0 | Constant v :: rest => val v + csum rest | _ :: rest => csum rest end.

Fixpoint cprod (terms : list (Expr F)) : Z :=
  match terms with [] => 1 | Constant v :: rest => val v * cprod rest | _ :: rest => cprod rest end.

Lemma accumulate_add acc a terms :
  Forall const_ok terms -> denotes acc a -> denotes (accumulate e_Add acc terms) (a + csum terms).
Proof.
  intros H. revert acc a. induction H as [|t terms Ht _ IH]; intros acc a Hacc; cbn; [by rewrite Z.add_0_r|].
  destruct t; try (by apply IH). rewrite Z.add_assoc. apply IH. apply denotes_Add; [done|]. split; [done | reflexivity].
Qed.

Lemma accumulate_mul acc a terms :
  Forall const_ok terms -> denotes acc a -> denotes (accumulate e_Mul acc terms) (a * cprod terms).
Proof.
  intros H. revert acc a. induction H as [|t terms Ht _ IH]; intros acc a Hacc; cbn; [by rewrite Z.mul_1_r|].
  destruct t; try (by apply IH). rewrite Z.mul_assoc. apply IH. apply denotes_Mul; [done|]. split; [done | reflexivity].
Qed.

Lemma sums_drop c terms z :
  Forall const_ok terms -> sums terms z -> sums (mergeConstants c false terms) (z - csum terms).
Proof.
  intros H. revert z. induction H as [|t terms Ht _ IH]; intros z; cbn; [by rewrite Z.sub_0_r|].
  intros (x & y & Hx & Hy & Hz). specialize (IH y Hy).
  destruct t; cbn; try (exists x, (y - csum terms); split; [done|]; split; [done|]; by rewrite Hz, Z.add_sub_assoc).
  rewrite Hz, (evaluates_unique _ _ _ Hx (evaluates_const _ Ht)).
  by replace (val Value + y - (val Value + csum terms)) with (y - csum terms) by ring.
Qed.

Lemma sums_merge c terms z :
  Forall const_ok terms -> denotes c (csum terms) -> sums terms z -> sums (mergeConstants c true terms) z.
Proof.
  intros H. revert z. induction H as [|t terms Ht Hts IH]; intros z Hc; cbn; [done|].
  intros (x & y & Hx & Hy & Hz). destruct t; cbn; try (exists x, y; split; [done|]; split; [by apply IH | done]).
  cbn in Hc. exists (csum (Constant Value :: terms)), (y - csum terms). split; [by exists c|].
  split; [by apply sums_drop|]. rewrite Hz, (evaluates_unique _ _ _ Hx (evaluates_const _ Ht)). cbn.
  replace (val Value + csum terms + (y - csum terms)) with (val Value + y) by ring. reflexivity.
Qed.

Lemma prods_drop c terms z :
  Forall const_ok terms -> ~ eqm p (cprod terms) 0 -> prods terms z ->
  exists y, prods (mergeConstants c false terms) y /\ eqm p z (y * cprod terms).
Proof.
  intros H. revert z. induction H as [|t terms Ht _ IH]; intros z Hc; cbn.
  { intros Hz. exists 1. split; [reflexivity | by rewrite Hz]. }
  intros (x & Hx & Hrest).
  destruct t; cbn in Hc |- *;
    try (destruct Hrest as [[Hx0 Hz]|(y & Hy & Hz)];
      [exists 0; split; [exists x; split; [done|]; left; split; [done|reflexivity] | done]
      |destruct (IH y Hc Hy) as (w & Hw & Hyw); exists (x * w);
       split; [exists x; split; [done|]; right; exists w; split; [done|reflexivity] | by rewrite Hz, Hyw, Z.mul_assoc]]).
  pose proof (evaluates_unique _ _ _ Hx (evaluates_const _ Ht)) as Hxv.
  destruct Hrest as [[Hv Hz]|(y & Hy & Hz)]; [exfalso; apply Hc; by rewrite <-Hxv, Hv|].
  destruct (IH y) as (w & Hw & Hyw); [intros H0; apply Hc; by rewrite H0, Z.mul_0_r|done|].
  exists w. split; [done|]. rewrite Hz, Hyw, Hxv. replace (val Value * (w * cprod terms)) with (w * (val Value * cprod terms)) by ring. reflexivity.
Qed.

Lemma prods_merge c terms z :
  Forall const_ok terms -> denotes c (cprod terms) -> ~ eqm p (cprod terms) 0 ->
  prods terms z -> prods (mergeConstants c true terms) z.
Proof.
  intros H. revert z. induction H as [|t terms Ht Hts IH]; intros z Hc Hne; cbn; [done|].
  intros (x & Hx & Hrest).
  destruct t; cbn in Hc, Hne |- *;
    try (exists x; split; [done|]; destruct Hrest as [H0|(y & Hy & Hz)]; [by left | right; exists y; auto]).
  pose proof (evaluates_unique _ _ _ Hx (evaluates_const _ Ht)) as Hxv.
  destruct Hrest as [[Hv Hz]|(y & Hy & Hz)]; [exfalso; apply Hne; by rewrite <-Hxv, Hv|].
  destruct (prods_drop c terms y Hts) as (w & Hw & Hyw); [intros H0; apply Hne; by rewrite H0, Z.mul_0_r|done|].
  exists (val Value * cprod terms). split; [by exists c|]. right. exists w. split; [done|]. rewrite Hz, Hyw, Hxv.
  replace (val Value * (w * cprod terms)) with (val Value * cprod terms * w) by ring. reflexivity.
Qed.

(** A zero product of constants has a zero constant. *)
Lemma cprod_zero terms : Forall const_ok terms -> eqm p (cprod terms) 0 <-> existsb isZero terms = true.
Proof.
  induction 1 as [|t terms Ht _ IH]; cbn.
  { split; [|done]. intros H. apply Z.divide_1_r_nonneg in H; pose proof (modulus_big (F := F)); lia. }
  rewrite orb_true_iff, <-IH. destruct t; cbn; try (split; [by right | by intros [|]]).
  rewrite is_zero_law, Z.eqb_eq by done. split.
  - intros [Hv|]%mul_zero_eqm; [left | by right]. apply (eqm_small p); [by apply val_range | pose proof (modulus_big (F := F)); lia | done].
  - intros [-> | ->]; [done | by rewrite Z.mul_0_r].
Qed.

Lemma merge_zero c terms :
  e_IsZero c = true -> existsb isZero terms = true -> existsb isZero (mergeConstants c true terms) = true.
Proof.
  intros Hc. induction terms as [|t terms IH]; [done|]. cbn. destruct t; cbn; try exact IH. by rewrite Hc.
Qed.

Lemma Flatten_isZero terms : existsb isZero terms = true -> existsb isZero (Flatten terms flatternMul) = true.
Proof.
  unfold Flatten. induction terms as [|t terms IH]; [done|]. cbn. rewrite existsb_app, !orb_true_iff.
  intros [Hz|Hz]; [left | right; by apply IH]. destruct t; cbn in *; try done. by rewrite Hz.
Qed.

(** *** The elements of simplified lists *)

Lemma Forall_merge (P : Expr F -> Prop) c first terms :
  P (Constant c) -> Forall P terms -> Forall P (mergeConstants c first terms).
Proof.
  intros Hc H. revert first. induction H as [|t terms Ht _ IH]; intros first; cbn; [constructor|].
  destruct t; try (constructor; auto). destruct first; [constructor|]; auto.
Qed.

Lemma Forall_Flatten {A} (P : A -> Prop) (fn : A -> option (list A)) terms :
  (forall t args, P t -> fn t = Some args -> Forall P args) -> Forall P terms -> Forall P (Flatten terms fn).
Proof.
  intros Hfn H. unfold Flatten. induction H as [|t terms Ht _ IH]; cbn; [constructor|]. apply Forall_app. split; [|done].
  destruct (fn t) as [args|] eqn:Hf; [by eapply Hfn | by constructor].
Qed.

Lemma Forall_RemoveMatching {A} (P : A -> Prop) f terms : Forall P terms -> Forall P (RemoveMatching terms f).
Proof. unfold RemoveMatching. induction 1 as [|t terms Ht _ IH]; cbn; [constructor|]. by destruct (negb (f t)); [constructor|]. Qed.

(** A predicate on the sum or product of simplified terms *)
Lemma sum_of_ind (P : Expr F -> Prop) nterms :
  P (Constant e_zero) -> (forall c, c = accumulate e_Add e_zero nterms -> P (Constant c)) ->
  (forall args, P (Add args) -> Forall P args) ->
  (forall args, args <> [] -> Forall P args -> P (Add args)) -> Forall P nterms -> P (simplifySum nterms).
Proof.
  intros Hzero Hc Hargs Hadd H. unfold simplifySum.
  assert (Hts : Forall P (RemoveMatching (Flatten (merged e_Add e_zero nterms) flatternAdd) isZero)).
  { apply Forall_RemoveMatching, Forall_Flatten; [|apply Forall_merge; [by apply Hc | done]].
    intros t args Ht Hf. destruct t; try done. injection Hf as <-. by apply Hargs. }
  revert Hts. destruct (RemoveMatching _ _) as [|t [|t' ts]]; intros Hts; [done | exact (proj1 (Forall_singleton _ _) Hts) | by apply Hadd].
Qed.

Lemma product_of_ind (P : Expr F -> Prop) nterms :
  P (Constant e_zero) -> P (Constant One) -> (forall c, c = accumulate e_Mul One nterms -> P (Constant c)) ->
  (forall args, P (Mul args) -> Forall P args) ->
  (forall args, args <> [] -> Forall P args -> P (Mul args)) -> Forall P nterms -> P (Simplify_Mul nterms).
Proof.
  intros Hzero Hone Hc Hargs Hmul H. unfold Simplify_Mul. destruct (existsb _ _); [done|].
  assert (Hts : Forall P (RemoveMatching (Flatten (merged e_Mul One nterms) flatternMul) isOne)).
  { apply Forall_RemoveMatching, Forall_Flatten; [|apply Forall_merge; [by apply Hc | done]].
    intros t args Ht Hf. destruct t; try done. injection Hf as <-. by apply Hargs. }
  revert Hts. destruct (RemoveMatching _ _) as [|t [|t' ts]]; intros Hts; [done | exact (proj1 (Forall_singleton _ _) Hts) | by apply Hmul].
Qed.

(** *** Simplified sums and products have the same values *)

Context (Hm : module_wf m).

Lemma wf_typed e : expr_wf e -> typed e.
Proof. intros He v Hv. destruct (eval_denotes k m Hm) as [Hev _]. by destruct (Hev e v He Hv). Qed.

Lemma wf_list_typed args : Forall expr_wf args -> Forall typed args.
Proof. intros H. eapply Forall_impl; [exact H | apply wf_typed]. Qed.

Lemma wf_const_ok e : expr_wf e -> const_ok e.
Proof. intros He%every_here. by destruct e. Qed.

Lemma wf_list_const_ok args : Forall expr_wf args -> Forall const_ok args.
Proof. intros H. eapply Forall_impl; [exact H | apply wf_const_ok]. Qed.

Lemma accumulate_wf terms :
  Forall expr_wf terms ->
  element_ok (accumulate e_Add e_zero terms) /\ element_ok (accumulate e_Mul One terms).
Proof.
  intros H%wf_list_const_ok.
  destruct (accumulate_add _ 0 _ H denotes_0) as [Ha _]. by destruct (accumulate_mul _ 1 _ H denotes_1) as [Hp _].
Qed.

Lemma wf_args args : expr_wf (Add args) \/ expr_wf (Mul args) -> args <> [] /\ Forall expr_wf args.
Proof. intros [[Hne H]|[Hne H]]; (split; [exact Hne | by apply all_Forall]). Qed.

Lemma wf_const v : element_ok v -> expr_wf (Constant v).
Proof. done. Qed.

Lemma sum_of_evaluates nterms z : Forall expr_wf nterms -> sums nterms z -> evaluates (simplifySum nterms) z.
Proof.
  intros Hwf Hz. pose proof (wf_list_const_ok _ Hwf) as Hc. destruct (accumulate_wf _ Hwf) as [Hacc _].
  assert (Hmerged : Forall expr_wf (merged e_Add e_zero nterms)) by by apply Forall_merge.
  assert (Hflat : Forall expr_wf (Flatten (merged e_Add e_zero nterms) flatternAdd)).
  { apply Forall_Flatten; [|done]. intros t args Ht Hf. destruct t; try done. injection Hf as <-.
    by apply (wf_args _ (or_introl Ht)). }
  apply (sums_merge (accumulate e_Add e_zero nterms)) in Hz; [|done|].
  2: { rewrite <-(Z.add_0_l (csum _)). apply accumulate_add; [done | apply denotes_0]. }
  apply sums_Flatten in Hz.
  2: { eapply Forall_impl; [exact Hmerged|]. intros t Ht. destruct t; try done.
       destruct (wf_args _ (or_introl Ht)) as [? ?]. split; [done | by apply wf_list_typed]. }
  apply sums_RemoveMatching in Hz; [|by apply wf_list_const_ok]. unfold simplifySum, merged.
  pose proof (Forall_RemoveMatching _ isZero _ Hflat) as Hrem. unfold merged in Hrem.
  revert Hz Hrem. destruct (RemoveMatching _ _) as [|t [|t' ts]]; intros Hz Hrem.
  - cbn in Hz. exists e_zero. split; [done|]. rewrite Hz. apply denotes_0.
  - destruct Hz as (x & y & Hx & Hy & Hz). cbn in Hy. by rewrite Hz, Hy, Z.add_0_r.
  - apply evaluates_Add; [done | by apply wf_list_typed | done].
Qed.

Lemma product_of_evaluates nterms z : Forall expr_wf nterms -> prods nterms z -> evaluates (Simplify_Mul nterms) z.
Proof.
  intros Hwf Hz. pose proof (wf_list_const_ok _ Hwf) as Hc. destruct (accumulate_wf _ Hwf) as [_ Hacc].
  assert (Hd : denotes (accumulate e_Mul One nterms) (cprod nterms)).
  { rewrite <-(Z.mul_1_l (cprod _)). apply accumulate_mul; [done | apply denotes_1]. }
  assert (Hmerged : Forall expr_wf (merged e_Mul One nterms)) by by apply Forall_merge.
  assert (Hflat : Forall expr_wf (Flatten (merged e_Mul One nterms) flatternMul)).
  { apply Forall_Flatten; [|done]. intros t args Ht Hf. destruct t; try done. injection Hf as <-.
    by apply (wf_args _ (or_intror Ht)). }
  unfold Simplify_Mul. destruct (existsb isZero nterms) eqn:Hzero.
  { rewrite Flatten_isZero; [|apply merge_zero; [|done]].
    - exists e_zero. split; [done|]. rewrite (prods_zero nterms z); [apply denotes_0|done..].
    - rewrite (denotes_zero _ _ Hd), zero_test_spec. by apply cprod_zero. }
  apply (prods_merge (accumulate e_Mul One nterms)) in Hz; [|done|done|].
  2: { rewrite cprod_zero, Hzero by done. done. }
  apply prods_Flatten in Hz.
  2: { eapply Forall_impl; [exact Hmerged|]. intros t Ht. destruct t; try done.
       destruct (wf_args _ (or_intror Ht)) as [? ?]. split; [done | by apply wf_list_typed]. }
  destruct (existsb isZero (Flatten (merged e_Mul One nterms) flatternMul)) eqn:Hfz.
  { exists e_zero. split; [done|]. rewrite (prods_zero _ z (wf_list_const_ok _ Hflat) Hfz Hz). apply denotes_0. }
  apply prods_RemoveMatching in Hz; [|by apply wf_list_const_ok]. unfold merged.
  pose proof (Forall_RemoveMatching _ isOne _ Hflat) as Hrem. unfold merged in Hrem.
  revert Hz Hrem. destruct (RemoveMatching _ _) as [|t [|t' ts]]; intros Hz Hrem.
  - cbn in Hz. exists One. split; [done|]. rewrite Hz. apply denotes_1.
  - destruct Hz as (x & Hx & [[Hx0 Hz]|(y & Hy & Hz)]); [by rewrite Hz, <-Hx0|]. cbn in Hy. by rewrite Hz, Hy, Z.mul_1_r.
  - apply evaluates_Mul; [done | by apply wf_list_typed | done].
Qed.

(** *** Differences

    When the minuend is a constant, [Sub.Simplify] subtracts one constant of the
    simplified subtrahend from it and drops all the others.  So its value is kept
    when there is at most one: if the minuend does not become a constant, or at most
    one constant surfaces in the sum of the subtrahends.  A sum merges its own
    constants before it takes those of the sums in it. *)

(** Factors that stay in a product, or make it constant *)
Definition leaf e : bool := match e with RegisterAccess _ | LabelledConst _ _ => true | _ => false end.

Definition nonzero e : bool := match e with Constant v => negb (e_IsZero v) | _ => false end.

(** Terms that do not simplify to a constant *)
Fixpoint varies e : bool :=
  match e with
  | RegisterAccess _ | VectorAccess _ | LabelledConst _ _ => true
  | Add args => existsb varies args
  | Mul args => existsb varies args && forallb (fun a => varies a || nonzero a) args
  | Sub (a :: _) => varies a
  | Cast arg _ _ => varies arg
  | IfZero _ t f => varies t && varies f
  | _ => false
  end.

(** The constants that may surface in the sum that a term simplifies to *)
Fixpoint surfaced e : nat :=
  match e with
  | Add args => ((if forallb varies args then 0 else 1) + sum_list_with surfaced args)%nat
  | Mul args => if existsb leaf args then 0%nat else max_list_with surfaced args
  | Cast arg _ _ => surfaced arg
  | IfZero _ t f => Nat.max (surfaced t) (surfaced f)
  | Sub (a :: _) => surfaced a
  | _ => 0%nat
  end.

Definition sub_node e : bool :=
  match e with Sub (a :: rest) => varies a || (surfaced (Add rest) <=? 1)%nat | _ => true end.

Definition node_ok e : Prop := node_wf e /\ sub_node e = true.

Definition is_const e : bool := match e with Constant _ => true | _ => false end.

Fixpoint consts (terms : list (Expr F)) : nat :=
  match terms with [] => 0%nat | t :: rest => ((if is_const t then 1 else 0) + consts rest)%nat end.

(** The constants of a simplified term, when it is a sum *)
Fixpoint tops e : nat :=
  match e with
  | Add args => (consts args + sum_list_with tops args)%nat
  | Mul args => if existsb leaf args then 0%nat else max_list_with tops args
  | _ => 0%nat
  end.

Lemma consts_drop c terms : consts (mergeConstants c false terms) = 0%nat.
Proof. induction terms as [|t terms IH]; [done|]. by destruct t. Qed.

Lemma tops_one args : (tops (Add args) <= 1)%nat -> (consts args <= 1)%nat.
Proof. cbn. lia. Qed.

(** A term is no worse than another one. *)
Record better e' e : Prop := {
  better_surfaced : (surfaced e' <= surfaced e)%nat;
  better_varies : varies e = true -> varies e' = true;
  better_nonzero : nonzero e = true -> nonzero e' = true
}.

Definition still (terms : list (Expr F)) : nat := if forallb varies terms then 0%nat else 1%nat.

#[local] Arguments still : simpl never.

Lemma still_cons t terms : still (t :: terms) = Nat.max (if varies t then 0 else 1) (still terms).
Proof. unfold still. cbn. by destruct (varies t), (forallb varies terms). Qed.

Lemma still_app us ws : still (us ++ ws) = Nat.max (still us) (still ws).
Proof. unfold still. rewrite forallb_app. by destruct (forallb varies us), (forallb varies ws). Qed.

Lemma surfaced_Add terms : surfaced (Add terms) = (still terms + sum_list_with surfaced terms)%nat.
Proof. done. Qed.

Lemma still_le1 terms : (still terms <= 1)%nat.
Proof. unfold still. destruct (forallb _ _); lia. Qed.

(** Both the constants of a sum and those of the sums in it *)
Definition lighter (terms' terms : list (Expr F)) : Prop :=
  (sum_list_with surfaced terms' <= sum_list_with surfaced terms /\ surfaced (Add terms') <= surfaced (Add terms))%nat.

Lemma lighter_better nterms args : Forall2 better nterms args -> (still nterms <= still args)%nat /\ lighter nterms args.
Proof.
  unfold lighter. rewrite !surfaced_Add. induction 1 as [|t' t nterms args [Hs Hv _] _ IH]; [done|]. rewrite !still_cons. cbn.
  destruct (varies t); [rewrite Hv by done|destruct (varies t')]; lia.
Qed.

Lemma lighter_merge c first terms :
  (still (mergeConstants c first terms) <= still terms)%nat /\ lighter (mergeConstants c first terms) terms.
Proof.
  unfold lighter. rewrite !surfaced_Add. revert first. induction terms as [|t terms IH]; intros first; [done|].
  pose proof (IH true). pose proof (IH false). pose proof (IH first). pose proof (still_le1 (mergeConstants c false terms)).
  destruct t; cbn [mergeConstants]; try destruct first; rewrite !still_cons; cbn; lia.
Qed.

Lemma lighter_Flatten terms : lighter (Flatten terms flatternAdd) terms.
Proof.
  unfold lighter, Flatten. rewrite !surfaced_Add. induction terms as [|t terms IH]; [done|]. cbn [mbind list_bind].
  rewrite still_app, sum_list_with_app, still_cons. pose proof (still_le1 terms).
  destruct t; cbn [flatternAdd]; rewrite ?still_cons; cbn -[varies]; change (still []) with 0%nat; try fold (still Args);
    repeat case_match; lia.
Qed.

Lemma lighter_Remove f terms : (still (RemoveMatching terms f) <= still terms)%nat /\ lighter (RemoveMatching terms f) terms.
Proof.
  unfold lighter. rewrite !surfaced_Add. unfold RemoveMatching. induction terms as [|t terms IH]; [done|]. cbn.
  destruct (negb (f t)); rewrite !still_cons; cbn; lia.
Qed.

(** *** The sum of simplified terms *)

Definition total (f : Expr F -> nat) (terms : list (Expr F)) : nat := (consts terms + sum_list_with f terms)%nat.

Lemma tops_Flatten terms : tops (Add (Flatten terms flatternAdd)) = tops (Add terms).
Proof.
  unfold Flatten. induction terms as [|t terms IH]; [done|]. cbn [mbind list_bind].
  assert (Happ : forall us ws, tops (Add (us ++ ws)) = (tops (Add us) + tops (Add ws))%nat).
  { intros us ws. cbn. rewrite sum_list_with_app. induction us as [|u us IHu]; cbn in *; lia. }
  rewrite Happ, IH. destruct t; cbn; lia.
Qed.

Lemma tops_Remove f terms : (tops (Add (RemoveMatching terms f)) <= tops (Add terms))%nat.
Proof. unfold RemoveMatching. induction terms as [|t terms IH]; [done|]. cbn in *. destruct (negb (f t)); cbn in *; lia. Qed.

Lemma tops_merge c terms : (tops (Add (mergeConstants c true terms)) <= still terms + sum_list_with tops terms)%nat.
Proof.
  assert (Hdrop : forall ts, sum_list_with tops (mergeConstants c false ts) = sum_list_with tops ts).
  { induction ts as [|t ts IH]; [done|]. destruct t; cbn in *; lia. }
  induction terms as [|t terms IH]; [done|]. rewrite still_cons. cbn [mergeConstants].
  destruct t; cbn in *; rewrite ?consts_drop, ?Hdrop; lia.
Qed.

(** A single remaining term is not wrapped. *)
Lemma unwrap_le (f : Expr F -> nat) terms b :
  (forall t, f t <= f (Add [t]))%nat -> f (Constant e_zero) = 0%nat -> (f (Add terms) <= b)%nat ->
  (f match terms with [] => Constant e_zero | [t] => t | t :: u :: ts => Add (t :: u :: ts) end <= b)%nat.
Proof. intros Hone Hzero Hb. destruct terms as [|t [|t' ts]]; [lia| |done]. specialize (Hone t). lia. Qed.

Lemma surfaced_one t : (surfaced t <= surfaced (Add [t]))%nat.
Proof. rewrite surfaced_Add. cbn. lia. Qed.

Lemma tops_single t : (tops t <= tops (Add [t]))%nat.
Proof. cbn. lia. Qed.

Lemma sum_surfaced nterms : (surfaced (simplifySum nterms) <= surfaced (Add nterms))%nat.
Proof.
  unfold simplifySum, merged. apply unwrap_le; [apply surfaced_one|done|].
  etransitivity; [apply lighter_Remove|]. etransitivity; [apply lighter_Flatten|]. apply lighter_merge.
Qed.

Lemma sum_tops nterms args :
  Forall2 better nterms args -> Forall2 (fun t' t => tops t' <= surfaced t)%nat nterms args ->
  (tops (simplifySum nterms) <= surfaced (Add args))%nat.
Proof.
  intros Hb Ht. unfold simplifySum, merged. apply unwrap_le; [apply tops_single|done|].
  etransitivity; [apply tops_Remove|]. rewrite tops_Flatten. etransitivity; [apply tops_merge|]. rewrite surfaced_Add.
  destruct (lighter_better _ _ Hb) as [Hstill _].
  assert (sum_list_with tops nterms <= sum_list_with surfaced args)%nat; [|lia].
  clear Hb Hstill. induction Ht as [|t' t nterms args Hle _ IH]; cbn in *; lia.
Qed.

Lemma varies_merge c first terms : existsb varies (mergeConstants c first terms) = existsb varies terms.
Proof.
  revert first. induction terms as [|t terms IH]; intros first; [done|].
  destruct t; cbn [mergeConstants]; try destruct first; cbn [existsb]; by rewrite IH.
Qed.

Lemma varies_Remove (f : Expr F -> bool) terms :
  (forall t, f t = true -> varies t = false) -> existsb varies (RemoveMatching terms f) = existsb varies terms.
Proof.
  intros Hf. unfold RemoveMatching. induction terms as [|t terms IH]; [done|]. cbn. specialize (Hf t).
  destruct (f t); cbn; rewrite IH; [by rewrite Hf|done].
Qed.

Lemma isZero_fixed t : isZero t = true -> varies t = false.
Proof. by destruct t. Qed.

Lemma isOne_fixed t : isOne t = true -> varies t = false.
Proof. by destruct t. Qed.

Lemma varies_Flatten terms : existsb varies (Flatten terms flatternAdd) = existsb varies terms.
Proof.
  unfold Flatten. induction terms as [|t terms IH]; [done|]. cbn [mbind list_bind]. rewrite existsb_app.
  change (existsb varies (t :: terms)) with (varies t || existsb varies terms). rewrite <-IH. f_equal.
  destruct t; cbn [flatternAdd existsb]; try apply orb_false_r; done.
Qed.

Lemma sum_varies nterms : existsb varies nterms = true -> varies (simplifySum nterms) = true.
Proof.
  intros H. unfold simplifySum, merged. rewrite <-(varies_merge (accumulate e_Add e_zero nterms) true), <-varies_Flatten in H.
  rewrite <-(varies_Remove isZero) in H by apply isZero_fixed. revert H.
  destruct (RemoveMatching _ _) as [|t [|t' ts]]; cbn; [done| |done]. by rewrite orb_false_r.
Qed.

(** *** The product of simplified terms *)

Lemma leaf_merge c first terms : existsb leaf (mergeConstants c first terms) = existsb leaf terms.
Proof.
  revert first. induction terms as [|t terms IH]; intros first; [done|].
  destruct t; cbn [mergeConstants]; try destruct first; cbn [existsb]; by rewrite ?IH.
Qed.

Lemma leaf_Flatten terms : existsb leaf terms = true -> existsb leaf (Flatten terms flatternMul) = true.
Proof.
  unfold Flatten. induction terms as [|t terms IH]; [done|]. cbn [mbind list_bind existsb]. rewrite existsb_app, !orb_true_iff.
  intros [Ht|Ht]; [left|right; auto]. by destruct t.
Qed.

Lemma leaf_Remove terms : existsb leaf (RemoveMatching terms isOne) = existsb leaf terms.
Proof.
  unfold RemoveMatching. induction terms as [|t terms IH]; [done|]. cbn. destruct t; cbn; rewrite ?IH; try done.
  by destruct (e_IsOne _).
Qed.

Lemma max_list_with_le {A} (f : A -> nat) xs b : Forall (fun x => f x <= b)%nat xs <-> (max_list_with f xs <= b)%nat.
Proof. induction xs as [|x xs IH]; cbn; [split; [lia|constructor]|]. rewrite Forall_cons, IH. lia. Qed.

Section ProductMeasure.
Context (f : Expr F -> nat).
Context (f_Mul : forall args, f (Mul args) = if existsb leaf args then 0%nat else max_list_with f args).
Context (f_leaf : forall e, leaf e = true -> f e = 0%nat) (f_const : forall c, f (Constant c) = 0%nat).

Lemma product_unwrap terms b :
  existsb leaf terms = true \/ Forall (fun t => f t <= b)%nat terms ->
  (f match terms with [] => Constant One | [t] => t | t :: u :: ts => Mul (t :: u :: ts) end <= b)%nat.
Proof.
  destruct terms as [|t [|t' ts]].
  - rewrite f_const. lia.
  - intros [Hl|Ht%Forall_inv]; [|exact Ht]. cbn in Hl. rewrite orb_false_r in Hl. rewrite f_leaf by done. lia.
  - rewrite f_Mul. intros H. destruct (existsb leaf _); [lia|]. destruct H as [|H]; [done|]. by apply max_list_with_le.
Qed.

(** A product has a factor that stays, or all its factors are within the bound. *)
Definition leafy (b : nat) (terms : list (Expr F)) : Prop := existsb leaf terms = true \/ Forall (fun t => f t <= b)%nat terms.

Lemma leafy_Flatten b terms : leafy b terms -> leafy b (Flatten terms flatternMul).
Proof.
  intros [H|H]; [left; by apply leaf_Flatten|]. unfold leafy, Flatten.
  induction H as [|t terms Ht _ IH]; [by right; constructor|]. cbn [mbind list_bind].
  rewrite existsb_app, orb_true_iff, Forall_app. destruct IH as [IH|IH]; [by left; right|].
  destruct t; try (right; split; [by constructor|done]). cbn [flatternMul]. rewrite f_Mul in Ht.
  destruct (existsb leaf Args); [by left; left|]. right. split; [by apply max_list_with_le|done].
Qed.

Lemma leafy_Remove b terms : leafy b terms -> leafy b (RemoveMatching terms isOne).
Proof. unfold leafy. rewrite leaf_Remove. intros [H|H]; [by left|right]. by apply Forall_RemoveMatching. Qed.

Lemma leafy_merge b c terms : leafy b terms -> leafy b (mergeConstants c true terms).
Proof. unfold leafy. rewrite leaf_merge. intros [H|H]; [by left|right]. apply Forall_merge; [rewrite f_const; lia|done]. Qed.

Lemma product_measure b nterms : leafy b nterms -> (f (Simplify_Mul nterms) <= b)%nat.
Proof.
  intros H. unfold Simplify_Mul, merged. destruct (existsb isZero _); [rewrite f_const; lia|].
  by apply product_unwrap, leafy_Remove, leafy_Flatten, leafy_merge.
Qed.

End ProductMeasure.

Definition solid e : bool := varies e || nonzero e.

Lemma varies_Mul args : varies (Mul args) = existsb varies args && forallb solid args.
Proof. done. Qed.

Lemma solid_nonzero terms : forallb solid terms = true -> existsb isZero terms = false.
Proof.
  induction terms as [|t terms IH]; [done|]. cbn. intros [Ht H]%andb_true_iff. rewrite IH by done. rewrite orb_false_r.
  unfold solid in Ht. destruct t; try done. cbn in *. by destruct (e_IsZero _).
Qed.

Lemma solid_Flatten terms :
  existsb varies terms = true -> forallb solid terms = true ->
  existsb varies (Flatten terms flatternMul) = true /\ forallb solid (Flatten terms flatternMul) = true.
Proof.
  unfold Flatten. intros Hv Hs.
  assert (H : (existsb varies terms = true -> existsb varies (terms ≫= λ t, match flatternMul t with Some ts => ts | None => [t] end) = true) /\
     forallb solid (terms ≫= λ t, match flatternMul t with Some ts => ts | None => [t] end) = true); [|by destruct H; auto].
  clear Hv. induction terms as [|t terms IH]; [done|]. cbn [mbind list_bind]. rewrite existsb_app, forallb_app.
  cbn [existsb forallb] in *. apply andb_true_iff in Hs as [Ht Hs]. destruct (IH Hs) as [IHv IHs].
  rewrite !orb_true_iff, andb_true_iff.
  destruct t; try (cbn [flatternMul existsb forallb]; rewrite Ht, orb_false_r; tauto).
  cbn [flatternMul]. unfold solid in Ht. rewrite orb_false_r, varies_Mul in Ht. apply andb_true_iff in Ht as [Hva Hsa].
  rewrite Hva, Hsa. tauto.
Qed.

Lemma solid_merge c first terms :
  (forallb solid terms = true -> nonzero (Constant c) = true) -> forallb solid terms = true ->
  forallb solid (mergeConstants c first terms) = true.
Proof.
  intros Hc Hs. specialize (Hc Hs). revert first. induction terms as [|t terms IH]; intros first; [done|].
  cbn in Hs. apply andb_true_iff in Hs as [Ht Hs]. specialize (IH Hs).
  destruct t; cbn [mergeConstants]; try destruct first; cbn [forallb]; rewrite ?IH, ?andb_true_r; try done.
Qed.

Lemma solid_Remove f terms : forallb solid terms = true -> forallb solid (RemoveMatching terms f) = true.
Proof.
  unfold RemoveMatching. induction terms as [|t terms IH]; [done|]. cbn. intros [Ht Hs]%andb_true_iff.
  destruct (negb (f t)); cbn; rewrite ?Ht; auto.
Qed.

Lemma product_varies nterms :
  Forall const_ok nterms -> existsb varies nterms = true -> forallb solid nterms = true -> varies (Simplify_Mul nterms) = true.
Proof.
  intros Hok Hv Hs. unfold Simplify_Mul, merged.
  assert (Hc : nonzero (Constant (accumulate e_Mul One nterms)) = true).
  { pose proof (accumulate_mul One 1 nterms Hok denotes_1) as Hd. rewrite Z.mul_1_l in Hd. cbn.
    rewrite (denotes_zero _ _ Hd). apply negb_true_iff, not_true_iff_false. rewrite zero_test_spec, cprod_zero by done.
    by rewrite solid_nonzero. }
  destruct (solid_Flatten (mergeConstants (accumulate e_Mul One nterms) true nterms)) as [Hfv Hfs];
    [by rewrite varies_merge|by apply solid_merge|].
  rewrite solid_nonzero by done. rewrite <-(varies_Remove isOne) in Hfv by apply isOne_fixed.
  apply (solid_Remove isOne) in Hfs. revert Hfv Hfs.
  destruct (RemoveMatching _ _) as [|t [|t' ts]]; intros Hfv Hfs; [done| |].
  - cbn in Hfv. by rewrite orb_false_r in Hfv.
  - rewrite varies_Mul. by rewrite Hfv, Hfs.
Qed.

Lemma csum_one terms rc :
  (consts terms <= 1)%nat -> findConstant terms = Some rc -> csum terms = val rc.
Proof.
  assert (H0 : forall ts, consts ts = 0%nat -> csum ts = 0).
  { induction ts as [|t ts IH]; [done|]. destruct t; cbn; try done; apply IH. }
  induction terms as [|t terms IH]; [done|]. destruct t; cbn; try (intros; by apply IH).
  intros Hc [= ->]. rewrite H0; lia.
Qed.

Lemma find_in (terms : list (Expr F)) (rc : F) : findConstant terms = Some rc -> Constant rc ∈ terms.
Proof. induction terms as [|t terms IH]; [done|]. cbn. destruct t; try (intros H; right; by apply IH). intros [= ->]. left. Qed.

Lemma difference_of_evaluates lhs rhs x y :
  expr_wf lhs -> expr_wf rhs -> (is_const lhs = true -> (tops rhs <= 1)%nat) ->
  evaluates lhs x -> evaluates rhs y -> evaluates (Simplify_Sub lhs rhs) (x - y).
Proof.
  intros Hl Hr Hd Hx Hy. unfold Simplify_Sub. destruct (isZero rhs) eqn:Hzero.
  { destruct rhs; try done. cbn in Hzero. pose proof (wf_const_ok _ Hr) as Hv. apply is_zero_eq in Hzero as ->; [|done].
    pose proof (evaluates_unique _ _ _ Hy (evaluates_const _ Hv)) as H0. rewrite (proj2 zero_law) in H0.
    by rewrite H0, Z.sub_0_r. }
  assert (Hpair : evaluates (Sub [lhs; rhs]) (x - y)).
  { apply evaluates_Sub; [by repeat constructor; apply wf_typed|]. exists x, y. split; [done|]. split; [|reflexivity].
    exists y, 0. split; [done|]. split; [cbn; reflexivity | by rewrite Z.add_0_r]. }
  assert (Hlist : forall args, rhs = Add args -> evaluates (Sub (lhs :: args)) (x - y)).
  { intros args ->. destruct (wf_args _ (or_introl Hr)) as [Hne Ha%wf_list_typed].
    apply evaluates_Sub; [constructor; [by apply wf_typed | done]|]. exists x, y.
    split; [done|]. split; [by apply evaluates_Add | reflexivity]. }
  destruct lhs as [| |lc| | | | | | | |], rhs as [args| |rc| | | | | | | |]; try exact Hpair; try by apply Hlist.
  - destruct (findConstant args) as [rc|] eqn:Hfind; [|by apply Hlist].
    destruct (is_lt _); [by apply Hlist|]. cbn [mergeConstants].
    destruct (wf_args _ (or_introl Hr)) as [Hne Hargs]. pose proof (tops_one _ (Hd eq_refl)) as Hone.
    pose proof (wf_const_ok _ Hl) as Hlc. pose proof (find_in _ _ Hfind) as Hin.
    pose proof (proj1 (Forall_forall _ _) (wf_list_const_ok _ Hargs) _ Hin) as Hrc. cbn in Hlc, Hrc.
    destruct (sub_law lc rc Hlc Hrc) as [Hsub%wf_const _].
    apply evaluates_Sub.
    { apply wf_list_typed. constructor; [done | by apply Forall_merge]. }
    exists (val lc - val rc), (y - val rc). split; [|split].
    + exists (e_Sub lc rc). split; [done|]. apply denotes_Sub; (split; [done | reflexivity]).
    + rewrite <-(csum_one _ _ Hone Hfind). apply sums_drop; [by apply wf_list_const_ok|].
      apply evaluates_Add; [done | by apply wf_list_typed | done].
    + rewrite (evaluates_unique _ _ _ Hx (evaluates_const _ Hlc)).
      replace (val lc - val rc - (y - val rc)) with (val lc - y) by lia. reflexivity.
  - destruct (is_lt _); [done|]. pose proof (wf_const_ok _ Hl) as Hlc. pose proof (wf_const_ok _ Hr) as Hrc. cbn in Hlc, Hrc.
    exists (e_Sub lc rc). split; [done|].
    rewrite (evaluates_unique _ _ _ Hx (evaluates_const _ Hlc)), (evaluates_unique _ _ _ Hy (evaluates_const _ Hrc)).
    apply denotes_Sub; (split; [done | reflexivity]).
Qed.

(** *** Conjunctions and disjunctions *)

Abbreviation tests ts := (map (TestAt k m) ts).

Lemma test_all_app xs ys : test_all (xs ++ ys) = (b ← test_all xs; if b : bool then test_all ys else Ok false).
Proof. induction xs as [|[[]|] xs IH]; cbn; done. Qed.

Lemma test_any_app xs ys : test_any (xs ++ ys) = (b ← test_any xs; if b : bool then Ok true else test_any ys).
Proof. induction xs as [|[[]|] xs IH]; cbn; done. Qed.

Lemma test_single (r : result bool) : (b ← r; if b : bool then Ok true else Ok false) = r.
Proof. by destruct r as [[]|]. Qed.

Lemma Flatten_cons {A} (t : A) terms fn :
  Flatten (t :: terms) fn = match fn t with Some ts => ts | None => [t] end ++ Flatten terms fn.
Proof. done. Qed.

Lemma test_all_Flatten terms : test_all (tests (Flatten terms flatternConjunct)) = test_all (tests terms).
Proof.
  induction terms as [|t terms IH]; [done|]. rewrite Flatten_cons, map_app, test_all_app, IH. cbn [map test_all].
  f_equal. destruct t; cbn [flatternConjunct map test_all]; try apply test_single. done.
Qed.

Lemma test_any_Flatten terms : test_any (tests (Flatten terms flatternDisjunct)) = test_any (tests terms).
Proof.
  induction terms as [|t terms IH]; [done|]. rewrite Flatten_cons, map_app, test_any_app, IH. cbn [map test_any].
  f_equal. destruct t; cbn [flatternDisjunct map test_any]; try apply test_single. done.
Qed.

Lemma IsTrue_eq l : IsTrue l = true -> l = True_.
Proof. destruct l as [[|]| | | | |]; done. Qed.

Lemma IsFalse_eq l : IsFalse l = true -> l = False_.
Proof. destruct l as [|[|]| | | |]; done. Qed.

Lemma test_all_false terms b :
  existsb IsFalse terms = true -> test_all (tests terms) = Ok b -> b = false.
Proof.
  induction terms as [|t terms IH]; [done|]. cbn. intros [Hf|Hex]%orb_true_iff.
  - apply IsFalse_eq in Hf as ->. by intros [= <-].
  - intros (c & _ & H)%bind_ok. destruct c; [by apply IH | by injection H as <-].
Qed.

Lemma test_any_true terms b :
  existsb IsTrue terms = true -> test_any (tests terms) = Ok b -> b = true.
Proof.
  induction terms as [|t terms IH]; [done|]. cbn. intros [Hf|Hex]%orb_true_iff.
  - apply IsTrue_eq in Hf as ->. by intros [= <-].
  - intros (c & _ & H)%bind_ok. destruct c; [by injection H as <- | by apply IH].
Qed.

Lemma test_all_Remove terms : test_all (tests (RemoveMatching terms IsTrue)) = test_all (tests terms).
Proof.
  unfold RemoveMatching. induction terms as [|t terms IH]; [done|]. cbn. destruct (IsTrue t) eqn:Ht; cbn.
  - by apply IsTrue_eq in Ht as ->.
  - by rewrite IH.
Qed.

Lemma test_any_Remove terms : test_any (tests (RemoveMatching terms IsFalse)) = test_any (tests terms).
Proof.
  unfold RemoveMatching. induction terms as [|t terms IH]; [done|]. cbn. destruct (IsFalse t) eqn:Ht; cbn.
  - by apply IsFalse_eq in Ht as ->.
  - by rewrite IH.
Qed.

Lemma conjunction_of_tests nterms b :
  test_all (tests nterms) = Ok b -> TestAt k m (Simplify_Conjunct nterms) = Ok b.
Proof.
  rewrite <-test_all_Flatten. unfold Simplify_Conjunct. intros H.
  destruct (existsb IsFalse _) eqn:Hf; [by rewrite (test_all_false _ _ Hf H)|].
  rewrite <-test_all_Remove in H. revert H. destruct (RemoveMatching _ _) as [|t [|t' ts]]; [done| |by rewrite Conjunction_TestAt].
  cbn. by rewrite test_single.
Qed.

Lemma disjunction_of_tests nterms b :
  test_any (tests nterms) = Ok b -> TestAt k m (Simplify_Disjunct nterms) = Ok b.
Proof.
  rewrite <-test_any_Flatten. unfold Simplify_Disjunct. intros H.
  destruct (existsb IsTrue _) eqn:Hf; [by rewrite (test_any_true _ _ Hf H)|].
  rewrite <-test_any_Remove in H. revert H. destruct (RemoveMatching _ _) as [|t [|t' ts]]; [done| |by rewrite Disjunction_TestAt].
  cbn. by rewrite test_single.
Qed.

(** What holds of the arguments of a conjunction, and is theirs to give *)
Lemma conjunction_of_ind (Q : Logical F -> Prop) nterms :
  (forall args, Q (Conjunct args) <-> Forall Q args) -> Q False_ -> Forall Q nterms -> Q (Simplify_Conjunct nterms).
Proof.
  intros HQ Hx H. unfold Simplify_Conjunct. destruct (existsb _ _); [done|].
  assert (Hts : Forall Q (RemoveMatching (Flatten nterms flatternConjunct) IsTrue)).
  { apply Forall_RemoveMatching, Forall_Flatten; [|done]. intros t args Ht Hf. destruct t; try done. injection Hf as <-. by apply HQ. }
  revert Hts. destruct (RemoveMatching _ _) as [|t [|t' ts]]; intros Hts; [by apply HQ|by apply Forall_inv in Hts|by apply HQ].
Qed.

Lemma conjunction_of_every (N : Expr F -> Prop) nterms :
  Forall (every_logical N) nterms -> every_logical N (Simplify_Conjunct nterms).
Proof. apply conjunction_of_ind; [apply every_logical_args|done]. Qed.

(** What holds of the arguments of a disjunction, and is theirs to give *)
Lemma disjunction_of_ind (Q : Logical F -> Prop) nterms :
  (forall args, Q (Disjunct args) <-> Forall Q args) -> Q True_ -> Forall Q nterms -> Q (Simplify_Disjunct nterms).
Proof.
  intros HQ Hx H. unfold Simplify_Disjunct. destruct (existsb _ _); [done|].
  assert (Hts : Forall Q (RemoveMatching (Flatten nterms flatternDisjunct) IsFalse)).
  { apply Forall_RemoveMatching, Forall_Flatten; [|done]. intros t args Ht Hf. destruct t; try done. injection Hf as <-. by apply HQ. }
  revert Hts. destruct (RemoveMatching _ _) as [|t [|t' ts]]; intros Hts; [by apply HQ|by apply Forall_inv in Hts|by apply HQ].
Qed.

Lemma disjunction_of_every (N : Expr F -> Prop) nterms :
  Forall (every_logical N) nterms -> every_logical N (Simplify_Disjunct nterms).
Proof. apply disjunction_of_ind; [apply every_logical_args|done]. Qed.

Lemma comparison_of_tests equal lhs rhs b :
  expr_wf lhs -> expr_wf rhs ->
  TestAt k m (if equal : bool then Equal lhs rhs else NotEqual lhs rhs) = Ok b -> TestAt k m (Simplify_comparison equal lhs rhs) = Ok b.
Proof.
  intros Hl Hr. unfold Simplify_comparison, IsConstant.
  destruct lhs as [| |lc| | | | | | | |], rhs as [| |rc| | | | | | | |]; try (by destruct equal).
  destruct equal; cbn; intros [= <-]; by destruct (e_Cmp lc rc).
Qed.

Lemma comparison_of_every (N : Expr F -> Prop) equal lhs rhs :
  every N lhs -> every N rhs -> every_logical N (Simplify_comparison equal lhs rhs).
Proof.
  intros Hl Hr. unfold Simplify_comparison. destruct (IsConstant lhs), (IsConstant rhs), equal;
    try (by split); by destruct (is_eq _).
Qed.

(** *** Simplification *)

Abbreviation ok := (every node_ok).
Abbreviation ok_logical := (every_logical node_ok).

Lemma ok_wf : (forall e, ok e -> expr_wf e) /\ (forall l, ok_logical l -> logical_wf l).
Proof. apply every_impl. by intros e [He _]. Qed.

Lemma ok_list_wf args : Forall ok args -> Forall expr_wf args.
Proof. intros H. eapply Forall_impl; [exact H | apply ok_wf]. Qed.

Lemma ok_const v : element_ok v -> ok (Constant v).
Proof. done. Qed.

Lemma ok_args args : ok (Add args) \/ ok (Mul args) -> Forall ok args.
Proof. intros [[_ H]|[_ H]]; by apply all_Forall. Qed.

Lemma ok_sum_of nterms : Forall ok nterms -> ok (simplifySum nterms).
Proof.
  intros H. destruct (accumulate_wf nterms (ok_list_wf _ H)) as [Ha _]. apply sum_of_ind; try done.
  - apply ok_const, zero_law.
  - by intros c ->.
  - intros args Ht. by apply ok_args; left.
  - intros args Hne Ha'. split; [done|]. by apply all_Forall.
Qed.

Lemma ok_product_of nterms : Forall ok nterms -> ok (Simplify_Mul nterms).
Proof.
  intros H. destruct (accumulate_wf nterms (ok_list_wf _ H)) as [_ Ha]. apply product_of_ind; try done.
  - apply ok_const, zero_law.
  - apply ok_const, one_law.
  - by intros c ->.
  - intros args Ht. by apply ok_args; right.
  - intros args Hne Ha'. split; [done|]. by apply all_Forall.
Qed.

(** The sum of the subtrahends, as the subtrahends of the difference *)
Definition subtrahends rhs : list (Expr F) := match rhs with Add args => args | _ => [rhs] end.

Lemma sum_subtrahends nterms :
  isZero (simplifySum nterms) = true \/ (surfaced (Add (subtrahends (simplifySum nterms))) <= surfaced (Add nterms))%nat.
Proof.
  assert (Hle : (surfaced (Add (RemoveMatching (Flatten (merged e_Add e_zero nterms) flatternAdd) isZero)) <= surfaced (Add nterms))%nat).
  { etransitivity; [apply lighter_Remove|]. etransitivity; [apply lighter_Flatten|]. apply lighter_merge. }
  unfold simplifySum. revert Hle. destruct (RemoveMatching _ _) as [|t [|t' ts]]; intros Hle; [left|right|right].
  - cbn. pose proof (is_zero_law e_zero (proj1 zero_law)) as ->. by rewrite (proj2 zero_law).
  - etransitivity; [|exact Hle]. destruct t; try done. apply surfaced_one.
  - done.
Qed.

(** The minuend does not become a constant, or at most one constant surfaces. *)
Lemma ok_difference_of lhs rhs :
  ok lhs -> ok rhs -> isZero rhs = true \/ varies lhs = true \/ (surfaced (Add (subtrahends rhs)) <= 1)%nat ->
  ok (Simplify_Sub lhs rhs).
Proof.
  intros Hl Hr Hd. unfold Simplify_Sub. destruct (isZero rhs); [done|]. destruct Hd as [|Hd]; [done|].
  assert (Hsub : forall e rest, ok e -> Forall ok rest ->
    varies e = true \/ (surfaced (Add rest) <= 1)%nat -> ok (Sub (e :: rest))).
  { intros e rest He Hrest Hor. split; [|apply all_Forall; by constructor]. split; [done|]. unfold sub_node.
    destruct Hor as [->|Hf%Nat.leb_le]; [done|]. rewrite Hf. by rewrite orb_true_r. }
  assert (Hpair : ok (Sub [lhs; rhs]) \/ exists args, rhs = Add args).
  { destruct rhs; try (right; by eexists); left; (apply Hsub; [done|by apply Forall_singleton|exact Hd]). }
  assert (Hlist : forall args, rhs = Add args -> ok (Sub (lhs :: args))).
  { intros args ->. apply Hsub; [done|by apply ok_args; left|exact Hd]. }
  assert (Hdef : (forall args, rhs <> Add args) -> ok (Sub [lhs; rhs])).
  { intros Hne. destruct Hpair as [|[args ->]]; [done|]. by destruct (Hne args). }
  destruct lhs as [| |lc| | | | | | | |], rhs as [args| |rc| | | | | | | |]; try (by apply Hdef); try (by apply Hlist).
  - destruct (findConstant args) as [rc|] eqn:Hfind; [|by apply Hlist]. destruct (is_lt _); [by apply Hlist|].
    destruct Hd as [|Hd]; [done|]. cbn [mergeConstants].
    pose proof (ok_args _ (or_introl Hr)) as Hargs.
    assert (Hrc : element_ok rc) by exact (proj1 (proj1 (proj1 (Forall_forall _ _) Hargs _ (find_in _ _ Hfind)))).
    destruct (sub_law lc rc) as [Hc%ok_const _]; [apply Hl | done|].
    apply Hsub; [done | by apply Forall_merge|]. right. etransitivity; [apply lighter_merge|exact Hd].
  - destruct (is_lt _); [by apply Hdef|]. apply ok_const, sub_law; [apply Hl | apply Hr].
Qed.

Lemma surfaced_difference lhs rhs : (surfaced (Simplify_Sub lhs rhs) <= surfaced lhs)%nat.
Proof. unfold Simplify_Sub. repeat case_match; simplify_eq; cbn [mergeConstants surfaced]; lia. Qed.

Lemma varies_difference lhs rhs : varies lhs = true -> varies (Simplify_Sub lhs rhs) = true.
Proof. intros Hl. unfold Simplify_Sub. destruct (isZero rhs); [done|]. destruct lhs, rhs; done. Qed.

Lemma tops_difference lhs rhs : (tops (Simplify_Sub lhs rhs) <= tops lhs)%nat.
Proof. unfold Simplify_Sub. destruct (isZero rhs); [done|]. repeat case_match; cbn; lia. Qed.

Lemma mapM_Forall2 {A B} (f : A -> result B) xs ys : mapM f xs = Ok ys -> Forall2 (fun x y => f x = Ok y) xs ys.
Proof.
  revert ys. induction xs as [|x xs IH]; intros ys; cbn; [by intros [= <-]|].
  intros (y & Hy & (ys' & Hys & [= <-])%bind_ok)%bind_ok. constructor; auto.
Qed.

(** What simplification keeps of an expression and of a logical term *)
Record keeps e e' : Prop := {
  keeps_ok : ok e';
  keeps_better : better e' e;
  keeps_tops : (tops e' <= surfaced e)%nat;
  keeps_value : forall z, evaluates e z -> evaluates e' z
}.

Definition keeps_logical l l' : Prop := ok_logical l' /\ forall b, TestAt k m l = Ok b -> TestAt k m l' = Ok b.

Lemma better_refl e : better e e.
Proof. by split. Qed.

Lemma keeps_refl e : ok e -> (tops e <= surfaced e)%nat -> keeps e e.
Proof. intros Hok Ht. by split. Qed.

Lemma keeps_list args nterms :
  Forall2 keeps args nterms ->
  Forall ok nterms /\ Forall2 better nterms args /\ Forall2 (fun t' t => tops t' <= surfaced t)%nat nterms args /\
  (forall z, sums args z -> sums nterms z) /\ (forall z, prods args z -> prods nterms z).
Proof.
  induction 1 as [|t t' args nterms [Hok Hb Ht Hev] _ (IHok & IHb & IHt & IHs & IHp)]; [done|]. split_and!.
  1-3: by constructor.
  - cbn. intros z (x & y & Hx & Hy & Hz). exists x, y. auto.
  - cbn. intros z (x & Hx & Hrest). exists x. split; [auto|]. destruct Hrest as [H0|(y & Hy & Hz)]; [by left|].
    right. exists y. auto.
Qed.

Lemma better_varies_args nterms args : Forall2 better nterms args -> existsb varies args = true -> existsb varies nterms = true.
Proof.
  induction 1 as [|t' t nterms args [_ Hv _] _ IH]; [done|]. cbn. rewrite !orb_true_iff. intros [H|H]; [left|right]; auto.
Qed.

Lemma better_solid_args nterms args : Forall2 better nterms args -> forallb solid args = true -> forallb solid nterms = true.
Proof.
  induction 1 as [|t' t nterms args [_ Hv Hn] _ IH]; [done|]. cbn. rewrite !andb_true_iff. unfold solid. rewrite !orb_true_iff.
  intros [[H|H] Hs]; split; auto.
Qed.

Lemma keeps_tests args nterms :
  Forall2 keeps_logical args nterms ->
  Forall ok_logical nterms /\ (forall b, test_all (tests args) = Ok b -> test_all (tests nterms) = Ok b) /\
  (forall b, test_any (tests args) = Ok b -> test_any (tests nterms) = Ok b).
Proof.
  induction 1 as [|t t' args nterms (Hok & Ht) _ (IHok & IHall & IHany)]; [done|]. split_and!.
  - by constructor.
  - cbn. intros b (c & Hc & Hb)%bind_ok. rewrite (Ht _ Hc). cbn. destruct c; auto.
  - cbn. intros b (c & Hc & Hb)%bind_ok. rewrite (Ht _ Hc). cbn. destruct c; auto.
Qed.

Lemma refines_eval e e' v :
  ok e -> (forall z, evaluates e z -> evaluates e' z) -> EvalAt k m e = Ok v -> EvalAt k m e' = Ok v.
Proof.
  intros Ho Href Hv. pose proof (wf_typed e (proj1 ok_wf e Ho)) as Ht.
  destruct (Href _ (typed_evaluates e v Ht Hv)) as (w & Hw & Hd). rewrite Hw. f_equal.
  eapply denotes_eq; [exact Hd|]. split; [by apply Ht | reflexivity].
Qed.

Lemma eval_refines e e' :
  (forall v, EvalAt k m e = Ok v -> EvalAt k m e' = Ok v) -> forall z, evaluates e z -> evaluates e' z.
Proof. intros Href z (v & Hv & Hd). exists v. auto. Qed.

Section Step.
Context (n : nat) (casts : bool).
Context (IHe : forall e e', ok e -> SimplifyExpr n casts e = Ok e' -> keeps e e').
Context (IHl : forall l l', ok_logical l -> SimplifyLogical n casts l = Ok l' -> keeps_logical l l').

Lemma step_list args nterms :
  Forall ok args -> mapM (SimplifyExpr n casts) args = Ok nterms -> Forall2 keeps args nterms.
Proof.
  intros Hok H%mapM_Forall2. induction H as [|t t' args nterms Ht _ IH]; [done|].
  apply Forall_cons in Hok as [Hto Hok]. constructor; auto.
Qed.

Lemma step_tests args nterms :
  Forall ok_logical args -> mapM (SimplifyLogical n casts) args = Ok nterms -> Forall2 keeps_logical args nterms.
Proof.
  intros Hok H%mapM_Forall2. induction H as [|t t' args nterms Ht _ IH]; [done|].
  apply Forall_cons in Hok as [Hto Hok]. constructor; auto.
Qed.

Lemma step_Add args nterms :
  ok (Add args) -> mapM (SimplifyExpr n casts) args = Ok nterms -> keeps (Add args) (simplifySum nterms).
Proof.
  intros Ho H. pose proof (ok_args _ (or_introl Ho)) as Hargs.
  destruct (keeps_list _ _ (step_list _ _ Hargs H)) as (Hok & Hb & Ht & Hs & _). split; [by apply ok_sum_of| |by apply sum_tops|].
  - split; [|by intros Hv; apply sum_varies; eapply better_varies_args|done].
    etransitivity; [apply sum_surfaced|]. by apply lighter_better.
  - intros z Hz%evaluates_Add; [|apply Ho|by apply wf_list_typed, ok_list_wf].
    apply sum_of_evaluates; [by apply ok_list_wf | by apply Hs].
Qed.

(** Whichever of the two measures of the product *)
Lemma step_measure (f : Expr F -> nat) args nterms :
  (forall args, f (Mul args) = if existsb leaf args then 0%nat else max_list_with f args) ->
  (forall e, leaf e = true -> f e = 0%nat) -> (forall c, f (Constant c) = 0%nat) ->
  Forall2 (fun t t' => SimplifyExpr n casts t = Ok t') args nterms ->
  Forall2 (fun t' t => f t' <= surfaced t)%nat nterms args -> (f (Simplify_Mul nterms) <= surfaced (Mul args))%nat.
Proof.
  intros Hmul Hleaf Hconst Hs Hf. apply product_measure; [done..|].
  destruct (existsb leaf args) eqn:Hex.
  - left. clear Hf. induction Hs as [|t t' args nterms Ht _ IH]; [done|]. cbn in Hex |- *.
    apply orb_true_iff in Hex as [Hl|Hl]; apply orb_true_iff; [left|right; auto].
    destruct n as [|n']; [done|]. by destruct t; try done; injection Ht as <-.
  - right. cbn [surfaced]. rewrite Hex. clear Hex Hs.
    assert (Hall : Forall (fun t => surfaced t <= max_list_with surfaced args)%nat args) by by apply max_list_with_le.
    revert Hall. generalize (max_list_with surfaced args). intros b.
    induction Hf as [|t' t nterms args Ht _ IH]; [constructor|]. intros [Hb Hall]%Forall_cons. constructor; [lia|auto].
Qed.

Lemma step_Mul args nterms :
  ok (Mul args) -> mapM (SimplifyExpr n casts) args = Ok nterms -> keeps (Mul args) (Simplify_Mul nterms).
Proof.
  intros Ho H. pose proof (ok_args _ (or_intror Ho)) as Hargs.
  destruct (keeps_list _ _ (step_list _ _ Hargs H)) as (Hok & Hb & Ht & _ & Hp). apply mapM_Forall2 in H.
  split; [by apply ok_product_of| | |].
  - split; [| |done].
    + apply step_measure; try done; [by intros []|]. eapply Forall2_impl; [exact Hb|]. by intros t' t [].
    + rewrite varies_Mul. intros [Hv Hs]%andb_true_iff. apply product_varies;
        [by apply wf_list_const_ok, ok_list_wf|by eapply better_varies_args|by eapply better_solid_args].
  - apply step_measure; try done. by intros [].
  - intros z Hz%evaluates_Mul; [|apply Ho|by apply wf_list_typed, ok_list_wf].
    apply product_of_evaluates; [by apply ok_list_wf | by apply Hp].
Qed.

Lemma step_Sub a rest lhs nterms :
  ok (Sub (a :: rest)) -> SimplifyExpr n casts a = Ok lhs -> mapM (SimplifyExpr n casts) rest = Ok nterms ->
  keeps (Sub (a :: rest)) (Simplify_Sub lhs (simplifySum nterms)).
Proof.
  intros Ho Ha H. pose proof Ho as [[_ Hnode] Hargs]. apply all_Forall in Hargs. apply Forall_cons in Hargs as [Hao Hrest].
  destruct (keeps_list _ _ (step_list _ _ Hrest H)) as (Hok & Hb & Ht & Hs & _).
  destruct (IHe _ _ Hao Ha) as [Hlo [Hls Hlv _] Hlt Hlev].
  unfold sub_node in Hnode. rewrite orb_true_iff, Nat.leb_le in Hnode. split.
  - apply ok_difference_of; [done|by apply ok_sum_of|]. destruct (sum_subtrahends nterms) as [Hz|Hle]; [by left|right].
    destruct Hnode as [Hv|Hw]; [left; auto|right]. pose proof (proj2 (proj2 (lighter_better _ _ Hb))). lia.
  - split; [|intros Hv; by apply varies_difference, Hlv|done]. etransitivity; [apply surfaced_difference|exact Hls].
  - etransitivity; [apply tops_difference|exact Hlt].
  - intros z (x & y & Hx & Hy & Hz)%evaluates_Sub.
    2: { constructor; [|apply wf_list_typed, ok_list_wf; done]. apply wf_typed. by apply ok_wf. }
    rewrite Hz. apply difference_of_evaluates; [by apply ok_wf|by apply ok_wf, ok_sum_of| |by apply Hlev|].
    + intros Hc. destruct Hnode as [Hv%Hlv|Hw]; [by destruct lhs|]. etransitivity; [by apply sum_tops|exact Hw].
    + apply sum_of_evaluates; [by apply ok_list_wf | by apply Hs].
Qed.

Lemma step_Cast arg bw bound arg' e' :
  ok (Cast arg bw bound) -> SimplifyExpr n casts arg = Ok arg' -> Simplify_Cast casts arg' bw bound = Ok e' ->
  keeps (Cast arg bw bound) e'.
Proof.
  intros [[[Hbw Hbound] _] Ho] Ha Hc. destruct (IHe _ _ Ho Ha) as [Hok [Hs Hv _] Ht Hev].
  assert (Hcases : e' = arg' \/ e' = CastOf arg' bw).
  { unfold Simplify_Cast in Hc. destruct arg'; try (destruct casts; injection Hc as <-; [by right | by left]).
    destruct (is_lt _); [|done]. injection Hc as <-. by left. }
  split.
  - destruct Hcases as [-> | ->]; [done|]. by split; [split|].
  - by destruct Hcases as [-> | ->].
  - destruct Hcases as [-> | ->]; [done|]. cbn. lia.
  - apply eval_refines. intros v (w & Hw & Hvv)%bind_ok. fold (EvalAt k m arg) in Hw.
    pose proof (refines_eval _ _ _ Ho Hev Hw) as Hw'. destruct (e_Cmp w bound) eqn:Hcmp; try done. injection Hvv as <-.
    destruct Hcases as [-> | ->]; [done|]. cbn. rewrite Hw'. cbn. by rewrite <-Hbound, Hcmp.
Qed.

Lemma step_Exp arg pow arg' :
  ok (Exp arg pow) -> SimplifyExpr n casts arg = Ok arg' ->
  keeps (Exp arg pow) (match arg' with Constant c => Constant (Element.Pow c pow) | _ => Exp arg' pow end).
Proof.
  intros [[Hpow _] Ho] Ha. destruct (IHe _ _ Ho Ha) as [Hok _ _ Hev].
  assert (Hev' : forall v, EvalAt k m (Exp arg pow) = Ok v -> EvalAt k m (Exp arg' pow) = Ok v).
  { cbn. intros v (w & Hw & Hv)%bind_ok. by rewrite (refines_eval _ _ _ Ho Hev Hw). }
  split.
  - destruct arg' as [| |c| | | | | | | |]; try (by split; [split|]). apply ok_const, Pow_law; [exact (proj1 (proj1 Hok)) | done].
  - by destruct arg'.
  - by destruct arg'.
  - apply eval_refines. intros v Hv%Hev'. by destruct arg'.
Qed.

Lemma step_Norm arg arg' :
  ok (Norm arg) -> SimplifyExpr n casts arg = Ok arg' ->
  keeps (Norm arg) (match arg' with Constant c => Constant (if e_IsZero c then c else One) | _ => Norm arg' end).
Proof.
  intros [_ Ho] Ha. destruct (IHe _ _ Ho Ha) as [Hok _ _ Hev].
  assert (Hev' : forall v, EvalAt k m (Norm arg) = Ok v -> EvalAt k m (Norm arg') = Ok v).
  { cbn. intros v (w & Hw & Hv)%bind_ok. by rewrite (refines_eval _ _ _ Ho Hev Hw). }
  split.
  - destruct arg' as [| |c| | | | | | | |]; try (by split; [split|]). apply ok_const.
    destruct (e_IsZero c); [exact (proj1 (proj1 Hok)) | apply one_law].
  - by destruct arg'.
  - by destruct arg'.
  - apply eval_refines. intros v Hv%Hev'. by destruct arg'.
Qed.

Lemma step_IfZero c t f c' t' f' :
  ok (IfZero c t f) -> SimplifyLogical n casts c = Ok c' -> SimplifyExpr n casts t = Ok t' -> SimplifyExpr n casts f = Ok f' ->
  keeps (IfZero c t f) (if IsTrue c' then t' else if IsFalse c' then f' else IfZero c' t' f').
Proof.
  intros (_ & Hco & Hto & Hfo) Hc Ht Hf. destruct (IHl _ _ Hco Hc) as (Hcok & Htest).
  destruct (IHe _ _ Hto Ht) as [Htok [Hts Htv _] Htt Htev]. destruct (IHe _ _ Hfo Hf) as [Hfok [Hfs Hfv _] Hft Hfev].
  split.
  - by destruct (IsTrue c'), (IsFalse c').
  - split; [| |done].
    + destruct (IsTrue c'), (IsFalse c'); cbn [surfaced]; lia.
    + cbn [varies]. intros [H1%Htv H2%Hfv]%andb_true_iff. destruct (IsTrue c'), (IsFalse c'); cbn [varies]; rewrite ?H1, ?H2; done.
  - destruct (IsTrue c'), (IsFalse c'); cbn [surfaced tops]; lia.
  - apply eval_refines. intros v H. tcbn. assert (H' := H). apply bind_ok in H' as (b & Hb & Hv).
    fold (TestAt k m c) in Hb. apply Htest in Hb.
    assert (Hbr : (if b then EvalAt k m t' else EvalAt k m f') = Ok v).
    { destruct b; [by apply (refines_eval _ _ _ Hto Htev) | by apply (refines_eval _ _ _ Hfo Hfev)]. }
    destruct (IsTrue c') eqn:HT; [apply IsTrue_eq in HT as ->; by injection Hb as <-|].
    destruct (IsFalse c') eqn:HF; [apply IsFalse_eq in HF as ->; by injection Hb as <-|].
    tcbn. rewrite Hb. done.
Qed.

Lemma step_comparison equal lhs rhs x y :
  ok lhs -> ok rhs -> SimplifyExpr n casts lhs = Ok x -> SimplifyExpr n casts rhs = Ok y ->
  keeps_logical (if equal : bool then Equal lhs rhs else NotEqual lhs rhs) (Simplify_comparison equal x y).
Proof.
  intros Hlo Hro Hl Hr. destruct (IHe _ _ Hlo Hl) as [Hxo _ _ Hx]. destruct (IHe _ _ Hro Hr) as [Hyo _ _ Hy].
  split; [by apply comparison_of_every|]. intros b Hb. apply comparison_of_tests; [by apply ok_wf..|].
  assert (Hboth : forall f, both (EvalAt k m lhs) (EvalAt k m rhs) f = Ok b -> both (EvalAt k m x) (EvalAt k m y) f = Ok b).
  { intros f. destruct (EvalAt k m lhs) as [v|[]] eqn:Hv, (EvalAt k m rhs) as [w|[]] eqn:Hw; try done.
    by rewrite (refines_eval _ _ _ Hlo Hx Hv), (refines_eval _ _ _ Hro Hy Hw). }
  destruct equal; by apply Hboth.
Qed.

(** The test of a conditional, given the test of its condition *)
Definition branch (b : bool) (t f : option (Logical F)) : result bool :=
  match (if b then t else f) with Some l => TestAt k m l | None => Ok true end.

Lemma Ite_TestAt c t f : TestAt k m (Ite c t f) = (b ← TestAt k m c; branch b t f).
Proof. tcbn. unfold branch. destruct (TestAt k m c) as [[]|]; cbn; [by destruct t | by destruct f | done]. Qed.

Definition simplified_branch (o : option (Logical F)) : result (option (Logical F)) :=
  match o with Some l => b ← SimplifyLogical n casts l; Ok (Some b) | None => Ok None end.

Definition opt_ok (o : option (Logical F)) : Prop := on_branch ok_logical o.

Lemma simplified_branch_keeps o o' :
  opt_ok o -> simplified_branch o = Ok o' ->
  opt_ok (drop_true o') /\
  forall b, match o with Some l => TestAt k m l | None => Ok true end = Ok b ->
            match drop_true o' with Some l => TestAt k m l | None => Ok true end = Ok b.
Proof.
  intros Ho. destruct o as [l|]; cbn; [|by intros [= <-]]. intros (l' & Hl & [= <-])%bind_ok.
  destruct (IHl _ _ Ho Hl) as [Hok Ht]. cbn. destruct (IsTrue l') eqn:HT; [|done]. split; [done|].
  intros b Hb%Ht. by apply IsTrue_eq in HT as ->.
Qed.

(** A condition that has become true or false *)
Lemma step_decided c t f (b : bool) l' :
  ok_logical (Ite c t f) -> keeps_logical c (if b then True_ else False_) ->
  match (if b then t else f) with Some l => SimplifyLogical n casts l | None => Ok True_ end = Ok l' ->
  keeps_logical (Ite c t f) l'.
Proof.
  intros (_ & Hto & Hfo) [_ Hct] Hl.
  assert (Ho : match (if b then t else f) with Some l => ok_logical l | None => True end) by by destruct b.
  assert (Hite : forall x, TestAt k m (Ite c t f) = Ok x ->
    match (if b then t else f) with Some l => TestAt k m l | None => Ok true end = Ok x).
  { intros x. rewrite Ite_TestAt. intros (y & Hy & Hx)%bind_ok. apply Hct in Hy.
    assert (y = b) as -> by (destruct b; by injection Hy as <-). exact Hx. }
  destruct (if b then t else f) as [l|].
  - destruct (IHl _ _ Ho Hl) as [Hok Ht]. split; [done|]. intros x Hx%Hite. by apply Ht.
  - injection Hl as <-. split; [done|]. intros x Hx%Hite. exact Hx.
Qed.

Lemma step_Ite c t f cond tb fb l' :
  ok_logical (Ite c t f) -> keeps_logical c cond -> simplified_branch t = Ok tb -> simplified_branch f = Ok fb ->
  match drop_true tb, drop_true fb with
  | None, None => Ok True_
  | None, Some fb => if IsFalse fb then Ok cond else Ok (Ite cond None (Some fb))
  | Some tb, None => if IsFalse tb then SimplifyLogical n casts (Negate_ cond) else Ok (Ite cond (Some tb) None)
  | Some tb, Some fb => Ok (Ite cond (Some tb) (Some fb))
  end = Ok l' ->
  keeps_logical (Ite c t f) l'.
Proof.
  intros (Hco & Hto & Hfo) [Hcok Hct] Ht Hf Hres.
  assert (Hto' : opt_ok t) by (destruct t; done). assert (Hfo' : opt_ok f) by (destruct f; done).
  destruct (simplified_branch_keeps _ _ Hto' Ht) as [Htok Htt]. destruct (simplified_branch_keeps _ _ Hfo' Hf) as [Hfok Hft].
  assert (Hite : forall b, TestAt k m (Ite c t f) = Ok b -> TestAt k m (Ite cond (drop_true tb) (drop_true fb)) = Ok b).
  { intros b. rewrite !Ite_TestAt. intros (x & Hx & Hb)%bind_ok. rewrite (Hct _ Hx). cbn. unfold branch in *. destruct x; auto. }
  destruct (drop_true tb) as [tb'|] eqn:Htb, (drop_true fb) as [fb'|] eqn:Hfb.
  - injection Hres as <-. split; [done | exact Hite].
  - destruct (IsFalse tb') eqn:HF; [|injection Hres as <-; split; [done | exact Hite]].
    destruct (IHl _ _ (Negate_every _ _ Hcok) Hres) as [Hok Htest]. split; [done|].
    intros b Hb%Hite. apply Htest. rewrite Negate_TestAt. rewrite Ite_TestAt in Hb.
    apply IsFalse_eq in HF as ->. by destruct (TestAt k m cond) as [[]|].
  - destruct (IsFalse fb') eqn:HF; injection Hres as <-; [|split; [done | exact Hite]]. split; [done|].
    intros b Hb%Hite. rewrite Ite_TestAt in Hb. apply IsFalse_eq in HF as ->. by destruct (TestAt k m cond) as [[]|].
  - injection Hres as <-. split; [done|]. intros b Hb%Hite. rewrite Ite_TestAt in Hb.
    by destruct (TestAt k m cond) as [[]|].
Qed.

End Step.

Lemma simplify_keeps n casts :
  (forall e e', ok e -> SimplifyExpr n casts e = Ok e' -> keeps e e') /\
  (forall l l', ok_logical l -> SimplifyLogical n casts l = Ok l' -> keeps_logical l l').
Proof.
  induction n as [|n [IHe IHl]]; [done|]. split.
  - intros e e' Ho H. destruct e; cbn in H.
    1: apply bind_ok in H as (nterms & Hn & [= <-]); by eapply step_Add.
    1: apply bind_ok in H as (arg' & Ha & Hc); by eapply step_Cast.
    all: try (injection H as <-; by apply keeps_refl).
    + apply bind_ok in H as (arg' & Ha & [= <-]). by eapply step_Exp.
    + apply bind_ok in H as (c' & Hc & H). apply bind_ok in H as (t' & Ht & H). apply bind_ok in H as (f' & Hf & [= <-]).
      by eapply step_IfZero.
    + apply bind_ok in H as (nterms & Hn & [= <-]). by eapply step_Mul.
    + apply bind_ok in H as (arg' & Ha & [= <-]). by eapply step_Norm.
    + destruct Args as [|a rest]; [done|]. apply bind_ok in H as (lhs & Ha & H).
      apply bind_ok in H as (nterms & Hn & [= <-]). by eapply step_Sub.
  - intros l l' Ho H. destruct l as [args|args|lhs rhs|c t f|arg|lhs rhs]; cbn in H.
    + apply bind_ok in H as (nterms & Hn & [= <-]). apply every_logical_args in Ho.
      destruct (keeps_tests _ _ (step_tests n casts IHl _ _ Ho Hn)) as (Hok & Hall & _).
      split; [by apply conjunction_of_every|]. intros b Hb%Hall. by apply conjunction_of_tests.
    + apply bind_ok in H as (nterms & Hn & [= <-]). apply every_logical_args in Ho.
      destruct (keeps_tests _ _ (step_tests n casts IHl _ _ Ho Hn)) as (Hok & _ & Hany).
      split; [by apply disjunction_of_every|]. intros b Hb%Hany. by apply disjunction_of_tests.
    + apply bind_ok in H as (x & Hx & H). apply bind_ok in H as (y & Hy & [= <-]). destruct Ho as [Hlo Hro].
      by apply (step_comparison n casts IHe true).
    + apply bind_ok in H as (cond & Hc & H). pose proof Ho as (Hco & Hto & Hfo). pose proof (IHl _ _ Hco Hc) as Hck.
      destruct (IsTrue cond) eqn:HT; [|destruct (IsFalse cond) eqn:HF].
      * apply IsTrue_eq in HT as ->. by apply (step_decided n casts IHl c t f true).
      * apply IsFalse_eq in HF as ->. by apply (step_decided n casts IHl c t f false).
      * apply bind_ok in H as (tb & Ht & H). apply bind_ok in H as (fb & Hf & H). by eapply step_Ite.
    + destruct (IHl (Negate_ arg) l' (Negate_every _ arg Ho) H) as [Hok Ht]. split; [done|]. intros b Hb. apply Ht.
      rewrite Negate_TestAt. exact Hb.
    + apply bind_ok in H as (x & Hx & H). apply bind_ok in H as (y & Hy & [= <-]). destruct Ho as [Hlo Hro].
      by apply (step_comparison n casts IHe false).
Qed.

End Sums.

(** ** The fuel *)

Section Fuel.
Context {F : Type} `{!Element F}.
Implicit Types (e : Expr F) (l : Logical F).

Abbreviation deepest f xs := (foldr (fun a n => Nat.max (f a) n) 0%nat xs).

Lemma deepest_le {A} (f : A -> nat) xs d : (deepest f xs <= d)%nat <-> Forall (fun x => (f x <= d)%nat) xs.
Proof. induction xs as [|x xs IH]; cbn; [split; [constructor|lia]|]. rewrite Forall_cons, <-IH. lia. Qed.

Lemma depth_pos : (forall e, (1 <= depth e)%nat) /\ (forall l : Logical F, (1 <= depth_logical l)%nat).
Proof. split; [intros [] | intros []]; cbn; lia. Qed.

Lemma Conjunction_depth (args : list (Logical F)) : (depth_logical (Conjunction args) <= depth_logical (Conjunct args))%nat.
Proof. destruct args as [|t [|]]; cbn; lia. Qed.

Lemma Disjunction_depth (args : list (Logical F)) : (depth_logical (Disjunction args) <= depth_logical (Disjunct args))%nat.
Proof. destruct args as [|t [|]]; cbn; lia. Qed.

Lemma deepest_map {A} (f : A -> A) (g : A -> nat) xs :
  Forall (fun x => (g (f x) <= g x)%nat) xs -> (deepest g (map f xs) <= deepest g xs)%nat.
Proof. induction 1 as [|x xs Hx _ IH]; cbn; lia. Qed.

Lemma Negate_depth l : (depth_logical (Negate_ l) <= depth_logical l)%nat.
Proof.
  revert l. apply (logical_induction (fun _ => True) (fun l : Logical F => (depth_logical (Negate_ l) <= depth_logical l)%nat)).
  split; try done; cbn [Negate_].
  - intros args IH. etrans; [apply Disjunction_depth|]. cbn. pose proof (deepest_map _ _ _ IH). lia.
  - intros args IH. etrans; [apply Conjunction_depth|]. cbn. pose proof (deepest_map _ _ _ IH). lia.
  - intros c t f _ Ht Hf. cbn. pose proof (proj2 depth_pos c). destruct t, f; cbn in *; lia.
  - intros arg _. cbn. lia.
Qed.

(** *** Simplification does not deepen a term *)

Abbreviation shallow d := (Forall (fun t : Expr F => (depth t <= d)%nat)).
Abbreviation shallow_logical d := (Forall (fun t : Logical F => (depth_logical t <= d)%nat)).

(** A sum of terms of depth at most [d] *)
Definition shallow_sum (d : nat) e : Prop :=
  match e with Add args => shallow d args | _ => (depth e <= d)%nat end.

Lemma shallow_sum_depth d e : shallow_sum d e -> (depth e <= S d)%nat.
Proof. destruct e; try (cbn; lia). cbn. intros H%deepest_le. lia. Qed.

Lemma shallow_flat d nterms acc fn flat :
  (1 <= d)%nat -> (forall t args, flat t = Some args -> (depth t <= d)%nat -> shallow d args) ->
  shallow d nterms -> shallow d (Flatten (merged fn acc nterms) flat).
Proof.
  intros Hd Hflat Hn. apply Forall_Flatten; [intros t args Ht Hf; by eapply Hflat|]. apply Forall_merge; [cbn; lia | done].
Qed.

Lemma sum_of_depth d nterms : (1 <= d)%nat -> shallow d nterms -> shallow_sum d (simplifySum nterms).
Proof.
  intros Hd Hn. unfold simplifySum.
  assert (Hr : shallow d (RemoveMatching (Flatten (merged e_Add e_zero nterms) flatternAdd) isZero)).
  { apply Forall_RemoveMatching, shallow_flat; [done| |done]. intros [] args Hf; try done. injection Hf as <-.
    cbn. intros Ht. apply deepest_le. lia. }
  revert Hr. destruct (RemoveMatching _ _) as [|t [|t' ts]]; intros Hr; [cbn; lia| |done].
  apply Forall_cons in Hr as [Ht _]. destruct t; try exact Ht. cbn in *. apply deepest_le. lia.
Qed.

Lemma product_of_depth d nterms : (1 <= d)%nat -> shallow d nterms -> (depth (Simplify_Mul nterms) <= S d)%nat.
Proof.
  intros Hd Hn. unfold Simplify_Mul. destruct (existsb _ _); [cbn; lia|].
  assert (Hr : shallow d (RemoveMatching (Flatten (merged e_Mul One nterms) flatternMul) isOne)).
  { apply Forall_RemoveMatching, shallow_flat; [done| |done]. intros [] args Hf; try done. injection Hf as <-.
    cbn. intros Ht. apply deepest_le. lia. }
  revert Hr. destruct (RemoveMatching _ _) as [|t [|t' ts]]; intros Hr; [cbn; lia| |].
  - apply Forall_cons in Hr as [Ht _]. lia.
  - apply deepest_le in Hr. cbn in *. lia.
Qed.

Lemma difference_of_depth d lhs rhs :
  (depth lhs <= d)%nat -> shallow_sum d rhs -> (depth (Simplify_Sub lhs rhs) <= S d)%nat.
Proof.
  intros Hl Hr. pose proof (proj1 depth_pos lhs) as H1. unfold Simplify_Sub. destruct (isZero rhs); [lia|].
  assert (Hlist : forall e args, (depth e <= d)%nat -> shallow d args -> (depth (Sub (e :: args)) <= S d)%nat).
  { intros e args He Ha%deepest_le. cbn. lia. }
  assert (Hpair : (forall args, rhs <> Add args) -> (depth (Sub [lhs; rhs]) <= S d)%nat).
  { intros Hne. apply Hlist; [done|]. apply Forall_singleton. destruct rhs; try exact Hr. by destruct (Hne Args). }
  destruct lhs as [| |lc| | | | | | | |], rhs as [args| |rc| | | | | | | |]; try (by apply Hpair); try (by apply Hlist).
  - destruct (findConstant args); [|by apply Hlist]. destruct (is_lt _); [by apply Hlist|]. cbn [mergeConstants].
    apply Hlist; [cbn; lia|]. apply Forall_merge; [cbn; lia | done].
  - destruct (is_lt _); [by apply Hpair | cbn; lia].
Qed.

Lemma conjunction_of_depth d nterms : (1 <= d)%nat -> shallow_logical d nterms -> (depth_logical (Simplify_Conjunct nterms) <= S d)%nat.
Proof.
  intros Hd Hn. unfold Simplify_Conjunct. destruct (existsb _ _); [cbn; lia|].
  assert (Hr : shallow_logical d (RemoveMatching (Flatten nterms flatternConjunct) IsTrue)).
  { apply Forall_RemoveMatching, Forall_Flatten; [|done]. intros [] args Ht Hf; try done. injection Hf as <-.
    cbn in Ht. apply deepest_le. lia. }
  revert Hr. destruct (RemoveMatching _ _) as [|t [|t' ts]]; intros Hr; [cbn; lia| |].
  - apply Forall_cons in Hr as [Ht _]. lia.
  - apply deepest_le in Hr. cbn in *. lia.
Qed.

Lemma disjunction_of_depth d nterms : (1 <= d)%nat -> shallow_logical d nterms -> (depth_logical (Simplify_Disjunct nterms) <= S d)%nat.
Proof.
  intros Hd Hn. unfold Simplify_Disjunct. destruct (existsb _ _); [cbn; lia|].
  assert (Hr : shallow_logical d (RemoveMatching (Flatten nterms flatternDisjunct) IsFalse)).
  { apply Forall_RemoveMatching, Forall_Flatten; [|done]. intros [] args Ht Hf; try done. injection Hf as <-.
    cbn in Ht. apply deepest_le. lia. }
  revert Hr. destruct (RemoveMatching _ _) as [|t [|t' ts]]; intros Hr; [cbn; lia| |].
  - apply Forall_cons in Hr as [Ht _]. lia.
  - apply deepest_le in Hr. cbn in *. lia.
Qed.

Lemma comparison_of_depth equal x y d :
  (depth x <= d)%nat -> (depth y <= d)%nat -> (depth_logical (Simplify_comparison equal x y) <= S d)%nat.
Proof.
  intros Hx Hy. unfold Simplify_comparison. destruct (IsConstant x), (IsConstant y), equal;
    try (cbn; lia); destruct (is_eq _); cbn; lia.
Qed.

Lemma cast_of_depth casts arg bw bound e d :
  (depth arg <= d)%nat -> Simplify_Cast casts arg bw bound = Ok e -> (depth e <= S d)%nat.
Proof.
  intros Ha. unfold Simplify_Cast. destruct arg; try (destruct casts; intros [= <-]; cbn in *; lia).
  destruct (is_lt _); [|done]. intros [= <-]. cbn. lia.
Qed.

(** *** The depth is enough fuel *)

(** A result within a depth, that did not run out of fuel *)
Definition within {A} (depth_of : A -> nat) (d : nat) (r : result A) : Prop :=
  match r with Ok a => (depth_of a <= d)%nat | Fault OutOfFuel => False | Fault _ => True end.

Lemma within_bind {A B} (f : A -> nat) (g : B -> nat) d d' (r : result A) (k : A -> result B) :
  within f d r -> (forall a, r = Ok a -> (f a <= d)%nat -> within g d' (k a)) -> within g d' (r ≫= k).
Proof. destruct r as [a|[]]; cbn; auto. Qed.

Lemma within_mono {A} (f : A -> nat) d d' r : (d <= d')%nat -> within f d r -> within f d' r.
Proof. destruct r as [a|[]]; cbn; auto. lia. Qed.

Definition enough n casts : Prop :=
  (forall e, (depth e <= n)%nat -> within depth (depth e) (SimplifyExpr n casts e)) /\
  (forall l, (depth_logical l <= n)%nat -> within depth_logical (depth_logical l) (SimplifyLogical n casts l)).

Lemma mapM_within {A B} (f : B -> nat) (g : A -> result B) d xs :
  Forall (fun x => within f d (g x)) xs -> within (fun ys => deepest f ys) d (mapM g xs).
Proof.
  induction 1 as [|x xs Hx _ IH]; cbn; [lia|]. eapply within_bind; [exact Hx|]. intros y _ Hy.
  eapply within_bind; [exact IH|]. intros ys _ Hys. cbn in *. lia.
Qed.

Lemma within_ok {A} (f : A -> nat) d a : (f a <= d)%nat -> within f d (Ok a).
Proof. done. Qed.

Section Enough.
Context (n : nat) (casts : bool) (IH : enough n casts).

Lemma enough_args args :
  (deepest depth args <= n)%nat -> within (fun ys => deepest depth ys) (deepest depth args) (mapM (SimplifyExpr n casts) args).
Proof.
  intros Hd. apply mapM_within. assert (Hle : shallow (deepest depth args) args) by by apply deepest_le.
  eapply Forall_impl; [exact Hle|]. intros t Ht. eapply within_mono; [exact Ht|]. apply IH. exact (Nat.le_trans _ _ _ Ht Hd).
Qed.

Lemma enough_logicals args :
  (deepest depth_logical args <= n)%nat ->
  within (fun ys => deepest depth_logical ys) (deepest depth_logical args) (mapM (SimplifyLogical n casts) args).
Proof.
  intros Hd. apply mapM_within. assert (Hle : shallow_logical (deepest depth_logical args) args) by by apply deepest_le.
  eapply Forall_impl; [exact Hle|]. intros t Ht. eapply within_mono; [exact Ht|]. apply IH. exact (Nat.le_trans _ _ _ Ht Hd).
Qed.

Lemma enough_branch o :
  (match o with Some l => depth_logical l | None => 0%nat end <= n)%nat ->
  within (fun o => match o with Some l => depth_logical l | None => 0%nat end)
    (match o with Some l => depth_logical l | None => 0%nat end) (simplified_branch n casts o).
Proof.
  destruct o as [l|]; cbn; [|done]. intros Hl. eapply within_bind; [by apply IH|]. done.
Qed.

Lemma drop_true_depth (o : option (Logical F)) d :
  (match o with Some l => depth_logical l | None => 0%nat end <= d)%nat ->
  (match drop_true o with Some l => depth_logical l | None => 0%nat end <= d)%nat.
Proof. destruct o as [l|]; cbn; [|done]. destruct (IsTrue l); [lia | done]. Qed.

Lemma enough_expr e : (depth e <= S n)%nat -> within depth (depth e) (SimplifyExpr (S n) casts e).
Proof.
  destruct IH as [IHe IHl]. intros Hd. pose proof (proj1 depth_pos) as Hpos.
  destruct e as [args|arg bw bound|v|arg pow|c t f|label v|args|arg|a|args|vars]; try (cbn; lia).
  - cbn [SimplifyExpr]. eapply within_bind; [apply enough_args; cbn in Hd; lia|]. intros ys _ Hys. apply within_ok.
    destruct args as [|a args]; [|apply (shallow_sum_depth (deepest depth (a :: args))), sum_of_depth; [cbn; pose proof (Hpos a); lia|by apply deepest_le]].
    cbn in Hys. destruct ys as [|y ys]; [cbn; lia|]. cbn in Hys. pose proof (Hpos y). lia.
  - cbn [SimplifyExpr]. eapply within_bind; [apply IHe; cbn in Hd; lia|]. intros arg' _ Ha.
    destruct (Simplify_Cast casts arg' bw bound) as [e'|[]] eqn:Hc; [|done|done|]; [by apply (cast_of_depth casts arg' bw bound)|].
    unfold Simplify_Cast in Hc. by repeat case_match.
  - cbn [SimplifyExpr]. eapply within_bind; [apply IHe; cbn in Hd; lia|]. intros arg' _ Ha. apply within_ok.
    destruct arg'; cbn in *; lia.
  - cbn [SimplifyExpr]. cbn in Hd.
    eapply within_bind; [apply IHl; lia|]. intros c' _ Hc. eapply within_bind; [apply IHe; lia|]. intros t' _ Ht.
    eapply within_bind; [apply IHe; lia|]. intros f' _ Hf. apply within_ok.
    unfold Simplify_IfZero. destruct (IsTrue c'), (IsFalse c'); cbn; lia.
  - cbn [SimplifyExpr]. eapply within_bind; [apply enough_args; cbn in Hd; lia|]. intros ys _ Hys. apply within_ok.
    destruct args as [|a args]; [|apply (product_of_depth (deepest depth (a :: args))); [cbn; pose proof (Hpos a); lia|by apply deepest_le]].
    cbn in Hys. destruct ys as [|y ys]; [cbn; lia|]. cbn in Hys. pose proof (Hpos y). lia.
  - cbn [SimplifyExpr]. eapply within_bind; [apply IHe; cbn in Hd; lia|]. intros arg' _ Ha. apply within_ok.
    destruct arg'; cbn in *; lia.
  - destruct args as [|a args]; [done|]. cbn [SimplifyExpr]. cbn in Hd.
    eapply within_bind; [apply IHe; lia|]. intros lhs _ Hl.
    eapply within_bind; [apply enough_args; lia|]. intros ys _ Hys. apply within_ok. pose proof (Hpos a).
    apply (difference_of_depth (deepest depth (a :: args))); [cbn; lia|]. apply sum_of_depth; [cbn; lia|].
    apply deepest_le. cbn. lia.
Qed.

Lemma enough_logical l : (depth_logical l <= S n)%nat -> within depth_logical (depth_logical l) (SimplifyLogical (S n) casts l).
Proof.
  destruct IH as [IHe IHl]. intros Hd. pose proof (proj2 depth_pos) as Hpos.
  destruct l as [args|args|lhs rhs|c t f|arg|lhs rhs]; cbn [SimplifyLogical]; cbn in Hd.
  - eapply within_bind; [apply enough_logicals; lia|]. intros ys _ Hys. apply within_ok.
    destruct args as [|a args]; [|apply (conjunction_of_depth (deepest depth_logical (a :: args))); [cbn; pose proof (Hpos a); lia|by apply deepest_le]].
    cbn in Hys. destruct ys as [|y ys]; [cbn; lia|]. cbn in Hys. pose proof (Hpos y). lia.
  - eapply within_bind; [apply enough_logicals; lia|]. intros ys _ Hys. apply within_ok.
    destruct args as [|a args]; [|apply (disjunction_of_depth (deepest depth_logical (a :: args))); [cbn; pose proof (Hpos a); lia|by apply deepest_le]].
    cbn in Hys. destruct ys as [|y ys]; [cbn; lia|]. cbn in Hys. pose proof (Hpos y). lia.
  - eapply within_bind; [apply IHe; lia|]. intros x _ Hx. eapply within_bind; [apply IHe; lia|]. intros y _ Hy.
    apply within_ok, (comparison_of_depth _ _ _ (Nat.max (depth lhs) (depth rhs))); lia.
  - eapply within_bind; [apply IHl; lia|]. intros cond _ Hc.
    destruct (IsTrue cond); [destruct t as [t|]; [eapply within_mono; [|apply IHl]; cbn; lia | cbn; lia]|].
    destruct (IsFalse cond); [destruct f as [f|]; [eapply within_mono; [|apply IHl]; cbn; lia | cbn; lia]|].
    eapply within_bind; [apply (enough_branch t); lia|]. intros tb _ Ht%drop_true_depth.
    eapply within_bind; [apply (enough_branch f); lia|]. intros fb _ Hf%drop_true_depth.
    destruct (drop_true tb) as [tb'|], (drop_true fb) as [fb'|]; cbn in *; try lia.
    + destruct (IsFalse tb'); [|cbn; lia]. pose proof (Negate_depth cond).
      eapply within_mono; [|apply IHl]; lia.
    + destruct (IsFalse fb'); cbn; lia.
  - pose proof (Negate_depth arg). eapply within_mono; [|apply IHl]; cbn; lia.
  - eapply within_bind; [apply IHe; lia|]. intros x _ Hx. eapply within_bind; [apply IHe; lia|]. intros y _ Hy.
    apply within_ok, (comparison_of_depth _ _ _ (Nat.max (depth lhs) (depth rhs))); lia.
Qed.

End Enough.

Lemma enough_fuel n casts : enough n casts.
Proof.
  induction n as [|n IH].
  - split; [intros e|intros l]; intros Hd; [pose proof (proj1 depth_pos e)|pose proof (proj2 depth_pos l)]; lia.
  - split; [apply enough_expr | apply enough_logical]; exact IH.
Qed.

Lemma mapM_ext_in {A B} (f g : A -> result B) xs : Forall (fun x => f x = g x) xs -> mapM f xs = mapM g xs.
Proof. induction 1 as [|x xs Hx _ IH]; cbn; [done|]. by rewrite Hx, IH. Qed.

Lemma bind_ext_ok {A B} (r : result A) (k k' : A -> result B) : (forall a, r = Ok a -> k a = k' a) -> (r ≫= k) = (r ≫= k').
Proof. destruct r; cbn; auto. Qed.

Lemma fuel_irrelevant casts n n' :
  (forall e, (depth e <= n)%nat -> (depth e <= n')%nat -> SimplifyExpr n casts e = SimplifyExpr n' casts e) /\
  (forall l, (depth_logical l <= n)%nat -> (depth_logical l <= n')%nat -> SimplifyLogical n casts l = SimplifyLogical n' casts l).
Proof.
  revert n'. induction n as [|n IH]; intros n'.
  { split; [intros e|intros l]; intros Hd; [pose proof (proj1 depth_pos e)|pose proof (proj2 depth_pos l)]; lia. }
  destruct n' as [|n'].
  { split; [intros e|intros l]; intros _ Hd; [pose proof (proj1 depth_pos e)|pose proof (proj2 depth_pos l)]; lia. }
  destruct (IH n') as [IHe IHl].
  assert (Hargs : forall args, (deepest depth args <= n)%nat -> (deepest depth args <= n')%nat ->
    mapM (SimplifyExpr n casts) args = mapM (SimplifyExpr n' casts) args).
  { intros args H%deepest_le H'%deepest_le. apply mapM_ext_in. rewrite Forall_forall in H, H' |- *. auto. }
  assert (Hlogicals : forall args, (deepest depth_logical args <= n)%nat -> (deepest depth_logical args <= n')%nat ->
    mapM (SimplifyLogical n casts) args = mapM (SimplifyLogical n' casts) args).
  { intros args H%deepest_le H'%deepest_le. apply mapM_ext_in. rewrite Forall_forall in H, H' |- *. auto. }
  split.
  - intros e Hd Hd'. destruct e as [args|arg bw bound|v|arg pow|c t f|label v|args|arg|a|[|a args]|vars];
      cbn in Hd, Hd'; cbn [SimplifyExpr]; by rewrite ?Hargs, ?IHe, ?IHl by lia.
  - intros l Hd Hd'. destruct l as [args|args|lhs rhs|c t f|arg|lhs rhs]; cbn in Hd, Hd'; cbn [SimplifyLogical]; fold (@SimplifyExpr F _).
    + by rewrite Hlogicals by lia.
    + by rewrite Hlogicals by lia.
    + by rewrite (IHe lhs), (IHe rhs) by lia.
    + rewrite (IHl c) by lia. apply bind_ext_ok. intros cond Hc.
      assert (Hcd : (depth_logical cond <= depth_logical c)%nat).
      { pose proof (proj2 (enough_fuel n' casts) c ltac:(lia)) as Hw. by rewrite Hc in Hw. }
      pose proof (Negate_depth cond).
      destruct (IsTrue cond); [destruct t; [apply IHl; lia | done]|].
      destruct (IsFalse cond); [destruct f; [apply IHl; lia | done]|].
      assert (Hb : forall o : option (Logical F), (match o with Some l => depth_logical l | None => 0%nat end <= n)%nat ->
        (match o with Some l => depth_logical l | None => 0%nat end <= n')%nat ->
        simplified_branch n casts o = simplified_branch n' casts o).
      { intros [l|] H1 H2; cbn; [by rewrite IHl | done]. }
      change (match t with Some t => b ← SimplifyLogical n casts t; Ok (Some b) | None => Ok None end) with (simplified_branch n casts t).
      change (match f with Some t => b ← SimplifyLogical n casts t; Ok (Some b) | None => Ok None end) with (simplified_branch n casts f).
      rewrite (Hb t), (Hb f) by lia. apply bind_ext_ok. intros tb _. apply bind_ext_ok. intros fb _.
      destruct (drop_true tb), (drop_true fb); try done. destruct (IsFalse _); [apply IHl; lia | done].
    + pose proof (Negate_depth arg). apply IHl; lia.
    + by rewrite (IHe lhs), (IHe rhs) by lia.
Qed.

End Fuel.

Module SimplifyProperties.
Import TermProperties.

Section Properties.
Context {F : Type} `{!Element F, !ElementLaws F}.
Implicit Types (e : Expr F) (l : Logical F).

(** C34: The depth of a term is enough fuel: simplification never runs out of it, more
    fuel gives the same result, and the result is not deeper than the term. *)
Theorem simplify_terminates casts e l n :
  (depth e <= n)%nat -> (depth_logical l <= n)%nat ->
  SimplifyExpr n casts e = Simplify casts e /\ Simplify casts e <> Fault OutOfFuel /\
  (forall e', Simplify casts e = Ok e' -> (depth e' <= depth e)%nat) /\
  SimplifyLogical n casts l = Simplify_logical casts l /\ Simplify_logical casts l <> Fault OutOfFuel /\
  (forall l', Simplify_logical casts l = Ok l' -> (depth_logical l' <= depth_logical l)%nat).
Proof.
  intros He Hl. unfold Simplify, Simplify_logical.
  pose proof (proj1 (enough_fuel (depth e) casts) e (le_n _)) as Hwe.
  pose proof (proj2 (enough_fuel (depth_logical l) casts) l (le_n _)) as Hwl. split_and!.
  - by apply fuel_irrelevant.
  - intros Hf. by rewrite Hf in Hwe.
  - intros e' He'. by rewrite He' in Hwe.
  - by apply fuel_irrelevant.
  - intros Hf. by rewrite Hf in Hwl.
  - intros l' Hl'. by rewrite Hl' in Hwl.
Qed.

(** C32: Simplification keeps the values of terms: whatever a well-formed term
    evaluates to on some row, the simplified term does too, and it is well formed.
    It may have a value where the term has none.  In a difference the minuend must
    not become a constant, or at most one constant surfaces in the sum of the
    subtrahends. *)
Theorem simplify_sound casts e e' l l' k m :
  module_wf m -> every node_ok e -> every_logical node_ok l ->
  Simplify casts e = Ok e' -> Simplify_logical casts l = Ok l' ->
  (forall v, EvalAt k m e = Ok v -> EvalAt k m e' = Ok v) /\ expr_wf e' /\
  (forall b, TestAt k m l = Ok b -> TestAt k m l' = Ok b) /\ logical_wf l'.
Proof.
  intros Hm He Hl Hse Hsl.
  destruct (proj1 (simplify_keeps k m Hm (depth e) casts) e e' He Hse) as [Hoke _ _ Hev].
  destruct (proj2 (simplify_keeps k m Hm (depth_logical l) casts) l l' Hl Hsl) as (Hokl & Htest).
  split_and!; [|by apply ok_wf|done|by apply ok_wf].
  intros v. by apply refines_eval.
Qed.

End Properties.

(** [10 - 3 - (X + 4)] *)
Definition lost_constant : Expr G := Sub [Const64 10; Const64 3; Add [RegisterAccess (X 0); Const64 4]].

(** Simplifying it loses the second constant of the subtrahend: it gives [7 - X],
    while the term is [3 - X]. *)
Theorem simplify_sub_loses_constant :
  Simplify false lost_constant = Ok (Sub [Const64 7; RegisterAccess (X 0)]) /\
  EvalAt 1 sample_module lost_constant = Ok (el 0) /\
  EvalAt 1 sample_module (Sub [Const64 7; RegisterAccess (X 0)]) = Ok (el 4).
Proof. split_and!; vm_compute; reflexivity. Qed.

(** [2 * (X + 3 + 4) - 0] with a conditional that is decided *)
Definition foldable : Expr G :=
  IfZero (Conjunct [Equal (Const64 1) (Const64 1); True_])
    (Sub [Mul [Const64 2; Add [RegisterAccess (X 0); Const64 3; Const64 4]]; Const64 0]) (Const64 9).
Definition folded : Expr G := Mul [Const64 2; Add [RegisterAccess (X 0); Const64 7]].

Definition foldable_test : Logical G := Negate (Ite (Equal (RegisterAccess (X 0)) (Const64 3)) (Some True_) None).
Definition folded_test : Logical G :=
  Ite (Equal (RegisterAccess (X 0)) (Const64 3)) (Some False_) (Some False_).

Lemma foldable_ok : every node_ok foldable /\ every_logical node_ok foldable_test.
Proof.
  assert (Hc : forall z, 0 <= z < 2 ^ 32 -> every node_ok (Const64 (F := G) z)).
  { intros z Hz. split; [|done]. split; [by apply el_ok | done]. }
  assert (Hx : every node_ok (RegisterAccess (F := G) (X 0))).
  { split; [|done]. split; [apply X_wf | done]. }
  split; [|by repeat split; [apply X_wf|apply (Hc 3)]].
  split; [done|]. split; [|split; [|by apply Hc]].
  - split; [|done]. split; by apply Hc.
  - split; [done|]. split; [|by split; [apply Hc|]]. split; [done|]. split; [by apply Hc|]. split; [|done].
    split; [done|]. split; [done|]. split; [by apply Hc|]. by split; [apply Hc|].
Qed.

Lemma simplify_terminates_witness : SimplifyExpr 10 false foldable = Simplify false foldable.
Proof. apply (simplify_terminates false foldable foldable_test 10); vm_compute; lia. Defined.

Lemma simplify_sound_witness :
  EvalAt 0 sample_module foldable = Ok (el 54) /\ EvalAt 0 sample_module folded = Ok (el 54).
Proof.
  assert (H : EvalAt 0 sample_module foldable = Ok (el 54)) by (vm_compute; reflexivity).
  split; [exact H|].
  refine (proj1 (simplify_sound false foldable folded foldable_test folded_test 0 sample_module sample_module_wf
    (proj1 foldable_ok) (proj2 foldable_ok) _ _) _ H); vm_compute; reflexivity.
Defined.

End SimplifyProperties.
