(* ===== verification/Iter.v ===== *)
(** * Iterators

    Models [pkg/util/collection/iter] and the generic loops of
    [pkg/util/collection/enum/common.go].  The Go interface [Iterator] is a class of
    state-passing operations, with a view of the items that are left; a law class
    says what the loops over iterators rely on, and every iterator is an instance.
    [Append], which wraps two iterators, is the constructor [mkAppend]; [Clone] is
    the identity on values. *)

From Stdlib Require Import ZArith Lia.
From stdpp Require Import base numbers list option strings.
From S2P Require Import Prelude.

(** ** Loops over [HasNext] and [Next] *)

Section Enum.
Context {I T : Type} (has_next : I -> result (bool * I)) (next : I -> result (T * I)).

Fixpoint enum_find (fuel : nat) (iter : I) (predicate : T -> bool) (index : nat) : result (option nat * I) :=
  match fuel with
  | O => Fault OutOfFuel
  | S fuel =>
      '(b, iter) ← has_next iter;
      if b : bool then
        '(x, iter) ← next iter;
        if predicate x then Ok (Some index, iter) else enum_find fuel iter predicate (S index)
      else Ok (None, iter)
  end.

Fixpoint enum_nth (fuel : nat) (iter : I) (n index : nat) : result (T * I) :=
  match fuel with
  | O => Fault OutOfFuel
  | S fuel =>
      '(b, iter) ← has_next iter;
      if b : bool then
        '(ith, iter) ← next iter;
        if (index =? n)%nat then Ok (ith, iter) else enum_nth fuel iter n (S index)
      else Fault (Panic "iterator out-of-bounds")
  end.

Fixpoint enum_count (fuel : nat) (iter : I) (count : nat) : result (nat * I) :=
  match fuel with
  | O => Fault OutOfFuel
  | S fuel =>
      '(b, iter) ← has_next iter;
      if b : bool then '(_, iter) ← next iter; enum_count fuel iter (S count) else Ok (count, iter)
  end.

Fixpoint enum_collect (fuel : nat) (iter : I) (items : list T) : result (list T * I) :=
  match fuel with
  | O => Fault OutOfFuel
  | S fuel =>
      '(b, iter) ← has_next iter;
      if b : bool then '(x, iter) ← next iter; enum_collect fuel iter (items ++ [x]) else Ok (items, iter)
  end.

End Enum.

(** ** The interface

    [remaining] is the view; its length bounds the rounds of the loops. *)

Class Iterator (I T : Type) : Type := {
  remaining : I -> list T;
  HasNext : I -> result (bool * I);
  Next : I -> result (T * I);
  Nth : I -> nat -> result (T * I);
  Collect : I -> result (list T * I);
  Find : I -> (T -> bool) -> result (option nat * I);
  Count : I -> result (nat * I)
}.

(** [enum.Find], [enum.Nth], [enum.Count] and [enum.Collect] with enough fuel *)
Definition Enum_Find {I T} (rem : I -> list T) has_next (next : I -> result (T * I)) iter predicate :=
  enum_find has_next next (S (length (rem iter))) iter predicate 0.
Definition Enum_Nth {I T} (rem : I -> list T) has_next (next : I -> result (T * I)) iter n :=
  enum_nth has_next next (S (length (rem iter))) iter n 0.
Definition Enum_Count {I T} (rem : I -> list T) has_next (next : I -> result (T * I)) iter :=
  enum_count has_next next (S (length (rem iter))) iter 0.
Definition Enum_Collect {I T} (rem : I -> list T) has_next (next : I -> result (T * I)) iter :=
  enum_collect has_next next (S (length (rem iter))) iter [].

(** ** Array iterators *)

Record arrayIterator (T : Type) : Type := mkArray { items : list T; index : nat }.
Arguments mkArray {T} items index.
Arguments items {T} _.
Arguments index {T} _.

Definition NewArrayIterator {T} (items : list T) : arrayIterator T := mkArray items 0.

Section ArrayIterator.
Context {T : Type}.
Implicit Types (p : arrayIterator T).

Definition array_remaining p : list T := drop (index p) (items p).

Definition array_HasNext p : result (bool * arrayIterator T) := Ok ((index p <? length (items p))%nat, p).

Definition array_Next p : result (T * arrayIterator T) :=
  x ← slice_get (items p) (index p); Ok (x, mkArray (items p) (S (index p))).

(** The index is set before the access, and is not advanced. *)
Definition array_Nth p (n : nat) : result (T * arrayIterator T) :=
  x ← slice_get (items p) n; Ok (x, mkArray (items p) n).

Definition array_Collect p : result (list T * arrayIterator T) := Ok (items p, p).

(** [uint(len(items)) - index], for an index within the items *)
Definition array_Count p : result (nat * arrayIterator T) := Ok ((length (items p) - index p)%nat, p).

#[export] Instance arrayIterator_Iterator : Iterator (arrayIterator T) T := {|
  remaining := array_remaining;
  HasNext := array_HasNext;
  Next := array_Next;
  Nth := array_Nth;
  Collect := array_Collect;
  Find := Enum_Find array_remaining array_HasNext array_Next;
  Count := array_Count
|}.

End ArrayIterator.

(** [rindex] is one more than the Go index, which ends at -1. *)
Record reverseArrayIterator (T : Type) : Type := mkReverse { ritems : list T; rindex : nat }.
Arguments mkReverse {T} ritems rindex.
Arguments ritems {T} _.
Arguments rindex {T} _.

Definition NewReverseArrayIterator {T} (items : list T) : reverseArrayIterator T := mkReverse items (length items).

Section ReverseArrayIterator.
Context {T : Type}.
Implicit Types (p : reverseArrayIterator T).

Definition reverse_remaining p : list T := reverse (take (rindex p) (ritems p)).

Definition reverse_HasNext p : result (bool * reverseArrayIterator T) := Ok ((0 <? rindex p)%nat, p).

Definition reverse_Next p : result (T * reverseArrayIterator T) :=
  match rindex p with
  | O => Fault index_panic
  | S i => x ← slice_get (ritems p) i; Ok (x, mkReverse (ritems p) i)
  end.

(** [for p.index >= 0]: [n] items are left. *)
Fixpoint reverse_collect (items : list T) (n : nat) (result : list T) : Prelude.result (list T) :=
  match n with
  | O => Ok result
  | S i => x ← slice_get items i; reverse_collect items i (result ++ [x])
  end.

Definition reverse_Collect p : result (list T * reverseArrayIterator T) :=
  l ← reverse_collect (ritems p) (rindex p) []; Ok (l, mkReverse (ritems p) 0).

Definition reverse_Count p : result (nat * reverseArrayIterator T) := Ok (rindex p, p).

#[export] Instance reverseArrayIterator_Iterator : Iterator (reverseArrayIterator T) T := {|
  remaining := reverse_remaining;
  HasNext := reverse_HasNext;
  Next := reverse_Next;
  Nth := Enum_Nth reverse_remaining reverse_HasNext reverse_Next;
  Collect := reverse_Collect;
  Find := Enum_Find reverse_remaining reverse_HasNext reverse_Next;
  Count := reverse_Count
|}.

End ReverseArrayIterator.

(** ** Unit iterators *)

Record unitIterator (T : Type) : Type := mkUnit { item : T; uindex : nat }.
Arguments mkUnit {T} item uindex.
Arguments item {T} _.
Arguments uindex {T} _.

Definition NewUnitIterator {T} (item : T) : unitIterator T := mkUnit item 0.

Section UnitIterator.
Context {T : Type}.
Implicit Types (p : unitIterator T).

Definition unit_remaining p : list T := if (uindex p <? 1)%nat then [item p] else [].

Definition unit_HasNext p : result (bool * unitIterator T) := Ok ((uindex p <? 1)%nat, p).

Definition unit_Next p : result (T * unitIterator T) := Ok (item p, mkUnit (item p) (S (uindex p))).

(** [Nth], [Collect] and [Find] do not look at the index. *)
Definition unit_Nth p (n : nat) : result (T * unitIterator T) := Ok (item p, p).

Definition unit_Collect p : result (list T * unitIterator T) := Ok ([item p], p).

Definition unit_Find p (predicate : T -> bool) : result (option nat * unitIterator T) :=
  Ok (if predicate (item p) then Some 0%nat else None, p).

Definition unit_Count p : result (nat * unitIterator T) := Ok (if (uindex p =? 0)%nat then 1%nat else 0%nat, p).

#[export] Instance unitIterator_Iterator : Iterator (unitIterator T) T := {|
  remaining := unit_remaining;
  HasNext := unit_HasNext;
  Next := unit_Next;
  Nth := unit_Nth;
  Collect := unit_Collect;
  Find := unit_Find;
  Count := unit_Count
|}.

End UnitIterator.

(** ** Appended iterators *)

Record appendIterator (L R : Type) : Type := mkAppend { left : L; right : R }.
Arguments mkAppend {L R} left right.
Arguments left {L R} _.
Arguments right {L R} _.

Section AppendIterator.
Context {L R T : Type} `{!Iterator L T, !Iterator R T}.
Implicit Types (p : appendIterator L R).

Definition append_remaining p : list T := remaining (left p) ++ remaining (right p).

Definition append_HasNext p : result (bool * appendIterator L R) :=
  '(b, l) ← HasNext (left p);
  if b : bool then Ok (true, mkAppend l (right p))
  else '(b, r) ← HasNext (right p); Ok (b, mkAppend l r).

Definition append_Next p : result (T * appendIterator L R) :=
  '(b, l) ← HasNext (left p);
  if b : bool then '(x, l) ← Next l; Ok (x, mkAppend l (right p))
  else '(x, r) ← Next (right p); Ok (x, mkAppend l r).

Definition append_Collect p : result (list T * appendIterator L R) :=
  '(lhs, l) ← Collect (left p); '(rhs, r) ← Collect (right p); Ok (lhs ++ rhs, mkAppend l r).

Definition append_Count p : result (nat * appendIterator L R) :=
  '(n, l) ← Count (left p); '(m, r) ← Count (right p); Ok ((n + m)%nat, mkAppend l r).

#[export] Instance appendIterator_Iterator : Iterator (appendIterator L R) T := {|
  remaining := append_remaining;
  HasNext := append_HasNext;
  Next := append_Next;
  Nth := Enum_Nth append_remaining append_HasNext append_Next;
  Collect := append_Collect;
  Find := Enum_Find append_remaining append_HasNext append_Next;
  Count := append_Count
|}.

End AppendIterator.

(** ** Flattened iterators *)

Record flattenIterator (IS IT S : Type) : Type := mkFlatten { iter : IS; curr : option IT; fn : S -> IT }.
Arguments mkFlatten {IS IT S} iter curr fn.
Arguments iter {IS IT S} _.
Arguments curr {IS IT S} _.
Arguments fn {IS IT S} _.

Definition NewFlattenIterator {IS IT S} (iter : IS) (fn : S -> IT) : flattenIterator IS IT S := mkFlatten iter None fn.

Section FlattenIterator.
Context {IS IT S T : Type} `{!Iterator IS S, !Iterator IT T}.
Implicit Types (p : flattenIterator IS IT S).

Definition flatten_remaining p : list T :=
  match curr p with Some c => remaining c | None => [] end ++ (remaining (iter p) ≫= fun s => remaining (fn p s)).

(** [for p.iter.HasNext()]: find the next group that is not empty. *)
Fixpoint next_hit (fuel : nat) (it : IS) (cur : option IT) (f : S -> IT) : result (bool * flattenIterator IS IT S) :=
  match fuel with
  | O => Fault OutOfFuel
  | Datatypes.S fuel =>
      '(b, it) ← HasNext it;
      if b : bool then
        '(s, it) ← Next it;
        '(b, c) ← HasNext (f s);
        if b : bool then Ok (true, mkFlatten it (Some c) f) else next_hit fuel it (Some c) f
      else Ok (false, mkFlatten it cur f)
  end.

Definition flatten_HasNext p : result (bool * flattenIterator IS IT S) :=
  let search cur := next_hit (Datatypes.S (length (remaining (iter p)))) (iter p) cur (fn p) in
  match curr p with
  | Some c => '(b, c) ← HasNext c; if b : bool then Ok (true, mkFlatten (iter p) (Some c) (fn p)) else search (Some c)
  | None => search None
  end.

Definition flatten_Next p : result (T * flattenIterator IS IT S) :=
  match curr p with
  | Some c => '(x, c) ← Next c; Ok (x, mkFlatten (iter p) (Some c) (fn p))
  | None => Fault (Panic "nil pointer dereference")
  end.

(** [for p.iter.HasNext()]: collect the groups that are left. *)
Fixpoint collect_groups (fuel : nat) (it : IS) (f : S -> IT) (items : list T) : result (list T * IS) :=
  match fuel with
  | O => Fault OutOfFuel
  | Datatypes.S fuel =>
      '(b, it) ← HasNext it;
      if b : bool then
        '(s, it) ← Next it; '(ith_items, _) ← Collect (f s); collect_groups fuel it f (items ++ ith_items)
      else Ok (items, it)
  end.

Definition flatten_Collect p : result (list T * flattenIterator IS IT S) :=
  '(items, c) ← match curr p with
                | Some c => '(l, c) ← Collect c; Ok (l, Some c)
                | None => Ok ([], None)
                end;
  '(items, it) ← collect_groups (Datatypes.S (length (remaining (iter p)))) (iter p) (fn p) items;
  Ok (items, mkFlatten it c (fn p)).

(** The clone is counted. *)
Definition flatten_Count p : result (nat * flattenIterator IS IT S) :=
  '(n, _) ← Enum_Count flatten_remaining flatten_HasNext flatten_Next p; Ok (n, p).

#[export] Instance flattenIterator_Iterator : Iterator (flattenIterator IS IT S) T := {|
  remaining := flatten_remaining;
  HasNext := flatten_HasNext;
  Next := flatten_Next;
  Nth := fun _ _ => Fault (Panic "todo");
  Collect := flatten_Collect;
  Find := Enum_Find flatten_remaining flatten_HasNext flatten_Next;
  Count := flatten_Count
|}.

End FlattenIterator.

(** ** Projected iterators

    [castIterator] is a projection by an interface conversion. *)

Record projectIterator (I S T : Type) : Type := mkProject { piter : I; projection : S -> T }.
Arguments mkProject {I S T} piter projection.
Arguments piter {I S T} _.
Arguments projection {I S T} _.

Section ProjectIterator.
Context {I S T : Type} `{!Iterator I S}.
Implicit Types (p : projectIterator I S T).

Definition project_remaining p : list T := projection p <$> remaining (piter p).

Definition project_HasNext p : result (bool * projectIterator I S T) :=
  '(b, i) ← HasNext (piter p); Ok (b, mkProject i (projection p)).

Definition project_Next p : result (T * projectIterator I S T) :=
  '(x, i) ← Next (piter p); Ok (projection p x, mkProject i (projection p)).

Definition project_Nth p (n : nat) : result (T * projectIterator I S T) :=
  '(x, i) ← Nth (piter p) n; Ok (projection p x, mkProject i (projection p)).

(** [items] has one place for each item that [Count] counts. *)
Fixpoint project_collect (fuel : nat) (it : I) (f : S -> T) (count : nat) (items : list T) : result (list T * I) :=
  match fuel with
  | O => Fault OutOfFuel
  | Datatypes.S fuel =>
      '(b, it) ← HasNext it;
      if b : bool then
        '(x, it) ← Next it;
        if (length items <? count)%nat then project_collect fuel it f count (items ++ [f x]) else Fault index_panic
      else Ok (items, it)
  end.

Definition project_Collect (zero : T) p : result (list T * projectIterator I S T) :=
  '(n, it) ← Count (piter p);
  '(items, it) ← project_collect (Datatypes.S (length (remaining it))) it (projection p) n [];
  Ok (items ++ replicate (n - length items) zero, mkProject it (projection p)).

Definition project_Find p (predicate : T -> bool) : result (option nat * projectIterator I S T) :=
  '(r, i) ← Find (piter p) (fun x => predicate (projection p x)); Ok (r, mkProject i (projection p)).

Definition project_Count p : result (nat * projectIterator I S T) :=
  '(n, i) ← Count (piter p); Ok (n, mkProject i (projection p)).

End ProjectIterator.

(** The zero value of the item type fills the array of [Collect]. *)
Class ZeroValue (T : Type) : Type := zero_value : T.

#[export] Instance projectIterator_Iterator {I S T} `{!Iterator I S, !ZeroValue T} : Iterator (projectIterator I S T) T := {|
  remaining := project_remaining;
  HasNext := project_HasNext;
  Next := project_Next;
  Nth := project_Nth;
  Collect := project_Collect zero_value;
  Find := project_Find;
  Count := project_Count
|}.

(** ** Laws *)

Definition nonempty {T} (l : list T) : bool := match l with [] => false | _ :: _ => true end.

(** [ready] iterators have just been asked for a next item; [fresh] ones have not
    been advanced. *)
Class IteratorLaws (I T : Type) `{!Iterator I T} : Type := {
  iter_ok : I -> Prop;
  ready : I -> Prop;
  fresh : I -> Prop;
  has_next_law it : iter_ok it ->
    exists it', HasNext it = Ok (nonempty (remaining it), it') /\ iter_ok it' /\ remaining it' = remaining it /\
      (remaining it <> [] -> ready it');
  next_law it x rest : iter_ok it -> ready it -> remaining it = x :: rest ->
    exists it', Next it = Ok (x, it') /\ iter_ok it' /\ remaining it' = rest;
  count_law it : iter_ok it ->
    exists it', Count it = Ok (length (remaining it), it') /\ iter_ok it' /\ remaining it' = remaining it;
  collect_law it : iter_ok it -> fresh it -> exists it', Collect it = Ok (remaining it, it')
}.

Section Loops.
Context {I T : Type} (rem : I -> list T) (has_next : I -> result (bool * I)) (next : I -> result (T * I)).
Context (ok : I -> Prop).
Implicit Types (it : I) (l : list T).

(** One round of a loop: the iterator ends, or yields the first item left. *)
Definition steps it : Prop :=
  exists it', ok it' /\
    match rem it with
    | [] => has_next it = Ok (false, it') /\ rem it' = []
    | x :: rest => has_next it = Ok (true, it') /\
        exists it'', next it' = Ok (x, it'') /\ ok it'' /\ rem it'' = rest
    end.

Context (Hsteps : forall it, ok it -> steps it).

Ltac iter_step it Hok :=
  let it' := fresh "it" in let Hok' := fresh "Hok" in let H := fresh "Hstep" in
  destruct (Hsteps it Hok) as (it' & Hok' & H).

Lemma enum_find_law fuel it predicate i l : ok it -> rem it = l -> (length l < fuel)%nat ->
  exists it', ok it' /\
    match list_find (fun x => predicate x = true) l with
    | Some (k, _) => enum_find has_next next fuel it predicate i = Ok (Some (i + k)%nat, it') /\ rem it' = drop (S k) l
    | None => enum_find has_next next fuel it predicate i = Ok (None, it') /\ rem it' = []
    end.
Proof.
  revert it i l. induction fuel as [|fuel IH]; intros it i l Hok Hl Hf; [lia|].
  iter_step it Hok. rewrite Hl in Hstep. cbn [enum_find]. destruct l as [|x l]; cbn in *.
  - destruct Hstep as [-> Hr]. cbn. by exists it0.
  - destruct Hstep as [-> (it1 & Hx & Hok1 & Hr1)]. cbn. rewrite Hx. cbn.
    destruct (predicate x) eqn:Hp.
    + rewrite decide_True by done. exists it1. rewrite Nat.add_0_r. by rewrite drop_0.
    + rewrite decide_False by done. destruct (IH it1 (S i) l) as (it' & Hok' & H); [done|done|lia|].
      exists it'. split; [done|]. destruct (list_find _ l) as [[k y]|]; cbn; [|done].
      by rewrite Nat.add_succ_r.
Qed.

Lemma enum_nth_law fuel it n i l : ok it -> rem it = l -> (length l < fuel)%nat -> (i <= n)%nat ->
  match l !! (n - i)%nat with
  | Some x => exists it', enum_nth has_next next fuel it n i = Ok (x, it') /\ ok it' /\ rem it' = drop (S (n - i)) l
  | None => enum_nth has_next next fuel it n i = Fault (Panic "iterator out-of-bounds")
  end.
Proof.
  revert it i l. induction fuel as [|fuel IH]; intros it i l Hok Hl Hf Hi; [lia|].
  iter_step it Hok. rewrite Hl in Hstep. cbn [enum_nth]. destruct l as [|x l]; cbn in Hstep, Hf.
  - destruct Hstep as [-> _]. by rewrite lookup_nil.
  - destruct Hstep as [-> (it1 & Hx & Hok1 & Hr1)]. cbn. rewrite Hx. cbn.
    destruct (Nat.eqb_spec i n) as [->|Hne].
    + rewrite Nat.sub_diag. cbn. exists it1. rewrite drop_0. by subst.
    + replace (n - i)%nat with (S (n - S i)) by lia. cbn. apply IH; [done|done|lia|lia].
Qed.

Lemma enum_count_law fuel it i l : ok it -> rem it = l -> (length l < fuel)%nat ->
  exists it', enum_count has_next next fuel it i = Ok ((i + length l)%nat, it') /\ rem it' = [].
Proof.
  revert it i l. induction fuel as [|fuel IH]; intros it i l Hok Hl Hf; [lia|].
  iter_step it Hok. rewrite Hl in Hstep. cbn [enum_count]. destruct l as [|x l]; cbn in *.
  - destruct Hstep as [-> Hr]. cbn. exists it0. by rewrite Nat.add_0_r.
  - destruct Hstep as [-> (it1 & Hx & Hok1 & Hr1)]. cbn. rewrite Hx. cbn.
    destruct (IH it1 (S i) l) as (it' & -> & Hr'); [done|done|lia|]. exists it'. by rewrite Nat.add_succ_r.
Qed.

Lemma enum_collect_law fuel it acc l : ok it -> rem it = l -> (length l < fuel)%nat ->
  exists it', enum_collect has_next next fuel it acc = Ok (acc ++ l, it') /\ rem it' = [].
Proof.
  revert it acc l. induction fuel as [|fuel IH]; intros it acc l Hok Hl Hf; [lia|].
  iter_step it Hok. rewrite Hl in Hstep. cbn [enum_collect]. destruct l as [|x l]; cbn in *.
  - destruct Hstep as [-> Hr]. cbn. exists it0. by rewrite app_nil_r.
  - destruct Hstep as [-> (it1 & Hx & Hok1 & Hr1)]. cbn. rewrite Hx. cbn.
    destruct (IH it1 (acc ++ [x]) l) as (it' & -> & Hr'); [done|done|lia|]. exists it'.
    by rewrite <- app_assoc.
Qed.

End Loops.

Lemma step_law {I T} `{!Iterator I T, !IteratorLaws I T} (it : I) :
  iter_ok it -> steps remaining HasNext Next iter_ok it.
Proof.
  intros Hok. destruct (has_next_law it Hok) as (it' & Hn & Hok' & Hr & Hready). exists it'. split; [done|].
  destruct (remaining it) as [|x rest] eqn:Hrem; [by split|]. split; [done|].
  apply next_law; [done | by apply Hready | congruence].
Qed.

(** ** Instances *)

#[export, program] Instance arrayIterator_laws {T} : IteratorLaws (arrayIterator T) T := {|
  iter_ok p := (index p <= length (items p))%nat;
  ready _ := True;
  fresh p := index p = 0%nat
|}.
Next Obligation.
  intros T p Hp. exists p. split_and!; [|done|done|done]. cbn. unfold array_HasNext, array_remaining. do 2 f_equal.
  destruct (Nat.ltb_spec (index p) (length (items p))).
  - destruct (drop (index p) (items p)) eqn:Hd; [|done]. apply (f_equal length) in Hd. rewrite length_drop in Hd. cbn in Hd. lia.
  - by rewrite drop_ge by lia.
Qed.
Next Obligation.
  intros T p x rest Hp _ Hr. cbn in *. unfold array_remaining in Hr. unfold array_Next.
  assert (Hx : items p !! index p = Some x).
  { rewrite <- (Nat.add_0_r (index p)), <- lookup_drop, Hr. done. }
  apply slice_get_ok in Hx. rewrite Hx. cbn. eexists. split; [done|]. apply slice_get_ok, lookup_lt_Some in Hx.
  split; [cbn; lia|]. unfold array_remaining. cbn. rewrite <- Nat.add_1_r, <- drop_drop, Hr. done.
Qed.
Next Obligation.
  intros T p Hp. exists p. split; [|done]. cbn. unfold array_Count, array_remaining. by rewrite length_drop.
Qed.
Next Obligation.
  intros T p Hp H0. cbn in *. exists p. unfold array_Collect, array_remaining. by rewrite H0, drop_0.
Qed.

Lemma reverse_collect_ok {T} (l : list T) n acc : (n <= length l)%nat ->
  reverse_collect l n acc = Ok (acc ++ reverse (take n l)).
Proof.
  revert acc. induction n as [|n IH]; intros acc Hn; cbn; [by rewrite app_nil_r|].
  destruct (lookup_lt_is_Some_2 l n) as [x Hx]; [lia|]. assert (Hg := Hx). apply slice_get_ok in Hg. rewrite Hg. cbn.
  rewrite IH by lia. rewrite (take_S_r _ _ x Hx), reverse_app, <- app_assoc. done.
Qed.

#[export, program] Instance reverseArrayIterator_laws {T} : IteratorLaws (reverseArrayIterator T) T := {|
  iter_ok p := (rindex p <= length (ritems p))%nat;
  ready _ := True;
  fresh _ := True
|}.
Next Obligation.
  intros T p Hp. exists p. split_and!; [|done|done|done]. cbn in *. unfold reverse_HasNext, reverse_remaining.
  destruct p as [l [|i]]; cbn -[take] in *; [done|].
  destruct (reverse (take (S i) l)) eqn:Hr; cbn; [|done]. apply (f_equal length) in Hr. rewrite length_reverse, length_take in Hr. cbn [length] in Hr. lia.
Qed.
Next Obligation.
  intros T p x rest Hp _ Hr. cbn in *. unfold reverse_remaining in Hr. unfold reverse_Next.
  destruct p as [l [|i]]; cbn [rindex ritems] in *; [done|].
  destruct (lookup_lt_is_Some_2 l i) as [y Hy]; [lia|]. rewrite (take_S_r _ _ y Hy), reverse_app in Hr.
  cbn in Hr. injection Hr as -> Hr. apply slice_get_ok in Hy. rewrite Hy. cbn. eexists. split; [done|]. split; [cbn; lia|done].
Qed.
Next Obligation.
  intros T p Hp. exists p. split; [|done]. cbn in *. unfold reverse_Count, reverse_remaining.
  by rewrite length_reverse, length_take_le.
Qed.
Next Obligation.
  intros T p Hp _. cbn in *. eexists. unfold reverse_Collect. rewrite reverse_collect_ok by done. done.
Qed.

#[export, program] Instance unitIterator_laws {T} : IteratorLaws (unitIterator T) T := {|
  iter_ok _ := True;
  ready p := uindex p = 0%nat;
  fresh p := uindex p = 0%nat
|}.
Next Obligation. intros T [x [|i]] _; cbn; eexists; by split_and!. Qed.
Next Obligation. intros T [x [|i]] y rest _ Hr Hrem; cbn in *; [|done]. injection Hrem as -> <-. eexists. by split_and!. Qed.
Next Obligation. intros T [x [|i]] _; cbn; eexists; by split_and!. Qed.
Next Obligation. intros T [x [|i]] _ Hr; cbn in *; [by eexists | done]. Qed.

#[export, program] Instance appendIterator_laws {L R T} `{!Iterator L T, !Iterator R T, !IteratorLaws L T, !IteratorLaws R T} :
  IteratorLaws (appendIterator L R) T := {|
  iter_ok p := iter_ok (left p) /\ iter_ok (right p);
  ready p := remaining (left p) = [] -> ready (right p);
  fresh p := fresh (left p) /\ fresh (right p)
|}.
#[export, program] Instance appendIterator_laws {L R T} `{!Iterator L T, !Iterator R T, !IteratorLaws L T, !IteratorLaws R T} :
  IteratorLaws (appendIterator L R) T := {|
  iter_ok p := iter_ok (left p) /\ iter_ok (right p);
  ready p := remaining (left p) = [] -> ready (right p);
  fresh p := fresh (left p) /\ fresh (right p)
|}.
Next Obligation.
  intros L R T ?? HL HR [l r] [Hl Hr]. cbn in *. unfold append_HasNext, append_remaining. cbn in *.
  destruct (has_next_law l Hl) as (l' & -> & Hl' & Hrl & _). cbn.
  destruct (remaining l) as [|x rest] eqn:Hrem; cbn.
  - destruct (has_next_law r Hr) as (r' & -> & Hr' & Hrr & Hready). cbn. eexists. split; [done|]. split; [done|].
    cbn. rewrite Hrl, Hrr. split; [done|]. intros Hne _. by apply Hready.
  - eexists. split; [done|]. split; [done|]. cbn. rewrite Hrl. by split.
Qed.
Next Obligation.
  intros L R T ?? HL HR [l r] x rest [Hl Hr] Hready Hrem. cbn in *. unfold append_Next, append_remaining in *. cbn in *.
  destruct (step_law l Hl) as (l' & Hl' & Hs). destruct (remaining l) as [|y rl] eqn:Hreml; cbn in Hrem.
  - destruct Hs as [-> Hrl]. cbn. destruct (next_law r x rest Hr (Hready eq_refl) Hrem) as (r' & -> & Hr' & Hrr).
    cbn. eexists. split; [done|]. cbn. by rewrite Hrl, Hrr.
  - destruct Hs as [-> (l'' & Hx & Hl'' & Hrl)]. cbn. rewrite Hx. cbn. injection Hrem as -> <-. eexists.
    split; [done|]. cbn. by rewrite Hrl.
Qed.
Next Obligation.
  intros L R T ?? HL HR [l r] [Hl Hr]. cbn in *. unfold append_Count, append_remaining. cbn in *.
  destruct (count_law l Hl) as (l' & -> & Hl' & Hrl). destruct (count_law r Hr) as (r' & -> & Hr' & Hrr). cbn.
  eexists. rewrite length_app. split; [done|]. cbn. by rewrite Hrl, Hrr.
Qed.
Next Obligation.
  intros L R T ?? HL HR [l r] [Hl Hr] [Hfl Hfr]. cbn in *. unfold append_Collect, append_remaining. cbn in *.
  destruct (collect_law l Hl Hfl) as [l' ->]. cbn. destruct (collect_law r Hr Hfr) as [r' ->]. cbn. by eexists.
Qed.

Section FlattenLaws.
Context {IS IT S T : Type} `{!Iterator IS S, !Iterator IT T, !IteratorLaws IS S, !IteratorLaws IT T}.
Implicit Types (p : flattenIterator IS IT S).

Definition flatten_ok p : Prop :=
  iter_ok (iter p) /\ (forall c, curr p = Some c -> iter_ok c) /\ (forall s, s ∈ remaining (iter p) -> iter_ok (fn p s)).

Definition flatten_ready p : Prop := exists c, curr p = Some c /\ ready c /\ remaining c <> [].

Definition flatten_fresh p : Prop :=
  (forall c, curr p = Some c -> fresh c) /\ (forall s, s ∈ remaining (iter p) -> fresh (fn p s)).

(** The search for the next group keeps the items that are left. *)
Lemma next_hit_law fuel (it : IS) cur (f : S -> IT) l : iter_ok it -> remaining it = l -> (length l < fuel)%nat ->
  (forall s, s ∈ l -> iter_ok (f s)) -> (forall c, cur = Some c -> iter_ok c /\ remaining c = []) ->
  exists p', next_hit fuel it cur f = Ok (nonempty (l ≫= fun s => remaining (f s)), p') /\ flatten_ok p' /\
    flatten_remaining p' = l ≫= (fun s => remaining (f s)) /\ (flatten_remaining p' <> [] -> flatten_ready p').
Proof.
  revert it cur l. induction fuel as [|fuel IH]; intros it cur l Hok Hl Hf Hfs Hc; [lia|].
  destruct (step_law it Hok) as (it' & Hok' & Hs). rewrite Hl in Hs. cbn [next_hit]. destruct l as [|s l].
  - destruct Hs as [-> Hr]. cbn. eexists. split; [done|]. unfold flatten_ok, flatten_remaining. cbn. rewrite Hr.
    assert (Hcr : match cur with Some c => remaining c | None => [] end = []) by (destruct cur; [by apply Hc | done]).
    rewrite Hcr. cbn. split_and!; [done|intros c Hcc; by apply Hc|by intros s Hs%elem_of_nil|done|done].
  - destruct Hs as [-> (it'' & Hx & Hok'' & Hr)]. cbn. rewrite Hx. cbn.
    destruct (has_next_law (f s)) as (c & -> & Hokc & Hrc & Hready); [apply Hfs, list_elem_of_here|]. cbn.
    destruct (remaining (f s)) as [|y ys] eqn:Hfsr; cbn.
    + apply IH; [done|done|cbn in Hf; lia|intros s' Hs'; apply Hfs; by apply list_elem_of_further|by intros ? [= <-]].
    + eexists. split; [done|]. unfold flatten_ok, flatten_remaining, flatten_ready. cbn. rewrite Hrc, Hr.
      split_and!; [done|by intros ? [= <-]|intros s' Hs'; apply Hfs; by apply list_elem_of_further|done|].
      intros _. exists c. split; [done|]. rewrite Hrc. split; [by apply Hready|done].
Qed.

Lemma flatten_has_next p : flatten_ok p ->
  exists p', flatten_HasNext p = Ok (nonempty (flatten_remaining p), p') /\ flatten_ok p' /\
    flatten_remaining p' = flatten_remaining p /\ (flatten_remaining p <> [] -> flatten_ready p').
Proof.
  destruct p as [it cur f]. intros (Hi & Hc & Hf). unfold flatten_HasNext, flatten_remaining. cbn [iter curr fn] in *.
  destruct cur as [c|].
  - destruct (has_next_law c (Hc c eq_refl)) as (c' & -> & Hokc & Hrc & Hready). cbn [mbind result_bind].
    destruct (remaining c) as [|x xs] eqn:Hrem; cbn [nonempty app].
    + destruct (next_hit_law (Datatypes.S (length (remaining it))) it (Some c') f (remaining it)) as (p' & -> & Hok & Hr & Hrd);
        [done|done|lia|done|by intros ? [= <-]|].
      exists p'. split; [done|]. split; [done|]. rewrite <- Hr. by split.
    + eexists. split; [done|]. unfold flatten_ok, flatten_ready. cbn. rewrite Hrc.
      split_and!; [done|by intros ? [= <-]|done|done|]. intros _. exists c'. rewrite Hrc. split_and!; [done|by apply Hready|done].
  - destruct (next_hit_law (Datatypes.S (length (remaining it))) it None f (remaining it)) as (p' & -> & Hok & Hr & Hrd);
      [done|done|lia|done|done|]. exists p'. split; [done|]. split; [done|]. rewrite <- Hr. by split.
Qed.

Lemma flatten_next p x rest : flatten_ok p -> flatten_ready p -> flatten_remaining p = x :: rest ->
  exists p', flatten_Next p = Ok (x, p') /\ flatten_ok p' /\ flatten_remaining p' = rest.
Proof.
  destruct p as [it cur f]. intros (Hi & Hc & Hf) (c & Hcur & Hrd & Hne). unfold flatten_Next, flatten_remaining. cbn in *. subst cur.
  destruct (remaining c) as [|y ys] eqn:Hrem; [done|]. cbn. intros [= -> <-].
  destruct (next_law c x ys (Hc c eq_refl) Hrd Hrem) as (c' & -> & Hokc & Hrc). cbn. eexists. split; [done|].
  unfold flatten_ok. cbn. rewrite Hrc. split_and!; [done|by intros ? [= <-]|done|done].
Qed.

Lemma collect_groups_law fuel (it : IS) (f : S -> IT) acc l : iter_ok it -> remaining it = l -> (length l < fuel)%nat ->
  (forall s, s ∈ l -> iter_ok (f s) /\ fresh (f s)) ->
  exists it', collect_groups fuel it f acc = Ok (acc ++ (l ≫= fun s => remaining (f s)), it').
Proof.
  revert it acc l. induction fuel as [|fuel IH]; intros it acc l Hok Hl Hf Hfs; [lia|].
  destruct (step_law it Hok) as (it' & Hok' & Hs). rewrite Hl in Hs. cbn [collect_groups]. destruct l as [|s l].
  - destruct Hs as [-> Hr]. cbn. eexists. by rewrite app_nil_r.
  - destruct Hs as [-> (it'' & Hx & Hok'' & Hr)]. cbn. rewrite Hx. cbn.
    destruct (Hfs s) as [Hs1 Hs2]; [apply list_elem_of_here|]. destruct (collect_law (f s) Hs1 Hs2) as [c' ->]. cbn.
    destruct (IH it'' (acc ++ remaining (f s)) l) as [it3 ->]; [done|done|cbn in Hf; lia|
      intros s' Hs'; apply Hfs; by apply list_elem_of_further|]. exists it3. by rewrite <- app_assoc.
Qed.

Lemma flatten_count p : flatten_ok p -> flatten_Count p = Ok (length (flatten_remaining p), p).
Proof.
  intros Hok. unfold flatten_Count, Enum_Count.
  destruct (enum_count_law flatten_remaining flatten_HasNext flatten_Next flatten_ok) with
    (fuel := Datatypes.S (length (flatten_remaining p))) (it := p) (i := 0%nat) (l := flatten_remaining p)
    as (p' & -> & _); [|done|done|lia|done].
  intros q Hq. destruct (flatten_has_next q Hq) as (q' & Hn & Hq' & Hr & Hrd). exists q'. split; [done|].
  destruct (flatten_remaining q) as [|x rest] eqn:Hrem; [by split|]. split; [done|].
  apply flatten_next; [done | by apply Hrd | congruence].
Qed.

Lemma flatten_collect p : flatten_ok p -> flatten_fresh p -> exists p', flatten_Collect p = Ok (flatten_remaining p, p').
Proof.
  destruct p as [it cur f]. intros (Hi & Hc & Hf) [Hfc Hff]. unfold flatten_Collect, flatten_remaining. cbn [iter curr fn] in *.
  assert (Hg : forall acc, exists it', collect_groups (Datatypes.S (length (remaining it))) it f acc
    = Ok (acc ++ (remaining it ≫= fun s => remaining (f s)), it')).
  { intros acc. apply collect_groups_law; [done|done|lia|]. intros s Hs. split; [by apply Hf | by apply Hff]. }
  destruct cur as [c|].
  - destruct (collect_law c (Hc c eq_refl) (Hfc c eq_refl)) as [c' ->]. cbn [mbind result_bind].
    destruct (Hg (remaining c)) as [it' ->]. cbn. by eexists.
  - cbn [mbind result_bind]. destruct (Hg []) as [it' ->]. cbn. by eexists.
Qed.

End FlattenLaws.

#[export, program] Instance flattenIterator_laws {IS IT S T} `{!Iterator IS S, !Iterator IT T, !IteratorLaws IS S, !IteratorLaws IT T} :
  IteratorLaws (flattenIterator IS IT S) T := {|
  iter_ok := flatten_ok;
  ready := flatten_ready;
  fresh := flatten_fresh
|}.
Next Obligation. intros. by apply flatten_has_next. Qed.
Next Obligation. intros. by apply flatten_next. Qed.
Next Obligation. intros IS IT S T ?? HL HT p Hok. exists p. split; [by apply flatten_count | done]. Qed.
Next Obligation. intros. by apply flatten_collect. Qed.

Section ProjectLaws.
Context {I S T : Type} `{!Iterator I S, !IteratorLaws I S}.

Lemma project_collect_law fuel (it : I) (f : S -> T) count acc l : iter_ok it -> remaining it = l -> (length l < fuel)%nat ->
  count = (length acc + length l)%nat ->
  exists it', project_collect fuel it f count acc = Ok (acc ++ (f <$> l), it').
Proof.
  revert it acc l. induction fuel as [|fuel IH]; intros it acc l Hok Hl Hf Hc; [lia|].
  destruct (step_law it Hok) as (it' & Hok' & Hs). rewrite Hl in Hs. cbn [project_collect].
  destruct l as [|s l]; cbn in Hs, Hf, Hc.
  - destruct Hs as [-> Hr]. cbn. eexists. by rewrite app_nil_r.
  - destruct Hs as [-> (it'' & Hx & Hok'' & Hr)]. cbn [mbind result_bind]. rewrite Hx. cbn [mbind result_bind].
    destruct (Nat.ltb_spec (length acc) count); [|lia].
    destruct (IH it'' (acc ++ [f s]) l) as [it3 ->]; [done|done|lia|rewrite length_app; cbn; lia|].
    exists it3. by rewrite <- app_assoc.
Qed.

End ProjectLaws.

#[export, program] Instance projectIterator_laws {I S T} `{!Iterator I S, !IteratorLaws I S, !ZeroValue T} :
  IteratorLaws (projectIterator I S T) T := {|
  iter_ok p := iter_ok (piter p);
  ready p := ready (piter p);
  fresh _ := True
|}.
Next Obligation.
  intros I S T ??? [it f] Hok. cbn in *. unfold project_HasNext, project_remaining. cbn [piter projection].
  destruct (has_next_law it Hok) as (it' & -> & Hok' & Hr & Hrd). cbn. eexists. split; [by destruct (remaining it)|].
  unfold project_remaining. cbn. rewrite Hr. split_and!; [done|done|]. intros Hne. apply Hrd. intros Hn. by rewrite Hn in Hne.
Qed.
Next Obligation.
  intros I S T ??? [it f] x rest Hok Hrd Hrem. cbn in *. unfold project_Next, project_remaining in *. cbn in *.
  destruct (remaining it) as [|y ys] eqn:Hr; [done|]. injection Hrem as <- <-.
  destruct (next_law it y ys Hok Hrd Hr) as (it' & -> & Hok' & Hr'). cbn. eexists. split; [done|]. unfold project_remaining. cbn. by rewrite Hr'.
Qed.
Next Obligation.
  intros I S T ??? [it f] Hok. cbn in *. unfold project_Count, project_remaining. cbn.
  destruct (count_law it Hok) as (it' & -> & Hok' & Hr). cbn. eexists. rewrite length_fmap. split; [done|]. unfold project_remaining. cbn. by rewrite Hr.
Qed.
Next Obligation.
  intros I S T ??? [it f] Hok _. cbn in *. unfold project_Collect, project_remaining. cbn [piter projection].
  destruct (count_law it Hok) as (it' & -> & Hok' & Hr). cbn [mbind result_bind].
  destruct (project_collect_law (Datatypes.S (length (remaining it'))) it' f (length (remaining it)) [] (remaining it))
    as [it3 ->]; [done|done|rewrite Hr; lia|done|]. cbn. rewrite length_fmap, Nat.sub_diag, app_nil_r. by eexists.
Qed.

(** ** Properties *)

Module IterProperties.

(** Loops over a lawful iterator terminate and visit the items left in order:
    [enum.Collect] returns them, [enum.Count] counts them, [enum.Find] finds the
    first that matches and [enum.Nth] the one at an index, or panics. *)
Theorem iterator_loops {I T} `{!Iterator I T, !IteratorLaws I T} (it : I) (predicate : T -> bool) (n : nat) :
  iter_ok it ->
  fst <$> Enum_Collect remaining HasNext Next it = Ok (remaining it) /\
  fst <$> Enum_Count remaining HasNext Next it = Ok (length (remaining it)) /\
  fst <$> Enum_Find remaining HasNext Next it predicate
    = Ok (fst <$> list_find (fun x => predicate x = true) (remaining it)) /\
  fst <$> Enum_Nth remaining HasNext Next it n
    = match remaining it !! n with Some x => Ok x | None => Fault (Panic "iterator out-of-bounds") end.
Proof.
  intros Hok. unfold Enum_Collect, Enum_Count, Enum_Find, Enum_Nth. split_and!.
  - by destruct (enum_collect_law remaining HasNext Next iter_ok step_law (S (length (remaining it))) it [] (remaining it))
      as (it' & -> & _); [..|lia|].
  - by destruct (enum_count_law remaining HasNext Next iter_ok step_law (S (length (remaining it))) it 0 (remaining it))
      as (it' & -> & _); [..|lia|].
  - destruct (enum_find_law remaining HasNext Next iter_ok step_law (S (length (remaining it))) it predicate 0 (remaining it))
      as (it' & _ & H); [done|done|lia|]. by destruct (list_find _ _) as [[k x]|]; destruct H as [-> _].
  - pose proof (enum_nth_law remaining HasNext Next iter_ok step_law (S (length (remaining it))) it n 0 (remaining it)
      Hok eq_refl (Nat.lt_succ_diag_r _) (Nat.le_0_l _)) as H. rewrite Nat.sub_0_r in H.
    destruct (remaining it !! n); [by destruct H as (it' & -> & _) | by rewrite H].
Qed.

(** Iterators are composed of iterators as their names say: the items left of an
    appended, flattened or projected iterator, and of an array iterator in either
    direction, and [Collect] returns them when nothing has been visited yet. *)
Theorem iterator_views {L R S T} `{!Iterator L T, !Iterator R T, !IteratorLaws L T, !IteratorLaws R T, !ZeroValue T}
    (l : L) (r : R) (it : arrayIterator S) (f : S -> L) (g : T -> T) (xs : list T) :
  iter_ok l -> iter_ok r -> fresh l -> fresh r -> (forall s, iter_ok (f s)) -> (forall s, fresh (f s)) -> index it = 0%nat ->
  fst <$> Collect (mkAppend l r) = Ok (remaining l ++ remaining r) /\
  fst <$> Collect (NewFlattenIterator it f) = Ok (items it ≫= fun s => remaining (f s)) /\
  fst <$> Collect (mkProject l g) = Ok (g <$> remaining l) /\
  fst <$> Collect (NewArrayIterator xs) = Ok xs /\
  fst <$> Collect (NewReverseArrayIterator xs) = Ok (reverse xs).
Proof.
  intros Hl Hr Hfl Hfr Hf Hff Hit. split_and!.
  - destruct (collect_law (mkAppend l r)) as [it' H]; [by split|by split|]. by rewrite H.
  - assert (Hrem : remaining (NewFlattenIterator it f) = items it ≫= fun s => remaining (f s)).
    { cbn. unfold flatten_remaining. cbn. unfold array_remaining. by rewrite Hit, drop_0. }
    destruct (collect_law (NewFlattenIterator it f)) as [it' H].
    + split_and!; [cbn; lia|by intros ? [=]|intros s _; apply Hf].
    + split; [by intros ? [=]|intros s _; apply Hff].
    + by rewrite H, Hrem.
  - destruct (collect_law (mkProject l g)) as [it' H]; [done|done|]. by rewrite H.
  - done.
  - destruct (collect_law (NewReverseArrayIterator xs)) as [it' H]; [cbn; lia|done|]. rewrite H. cbn.
    unfold reverse_remaining. cbn. by rewrite take_ge.
Qed.

(** [Collect] of an array iterator that has been advanced returns the items visited
    too, and its [Nth] counts from the start of the array and does not advance;
    [Find] and [Collect] of a unit iterator find its item after it has been
    visited. *)
Theorem collect_after_next {T} (x : T) xs :
  exists it u, Next (NewArrayIterator (x :: xs)) = Ok (x, it) /\ remaining it = xs /\
    fst <$> Collect it = Ok (x :: xs) /\ fst <$> Nth it 0 = Ok x /\
    Next (NewUnitIterator x) = Ok (x, u) /\ remaining u = [] /\ fst <$> Collect u = Ok [x].
Proof. do 2 eexists. split_and!; reflexivity. Qed.

Definition groups : flattenIterator (arrayIterator (list nat)) (arrayIterator nat) (list nat) :=
  NewFlattenIterator (NewArrayIterator [[]; [1; 2]; []; [3]]%nat) NewArrayIterator.

Lemma groups_ok : iter_ok groups.
Proof. split_and!; [cbn; lia|by intros ? [=]|intros s _; cbn; lia]. Qed.

Lemma iterator_loops_witness :
  fst <$> Enum_Collect remaining HasNext Next groups = Ok [1; 2; 3]%nat /\
  fst <$> Enum_Count remaining HasNext Next groups = Ok 3%nat.
Proof.
  split; [exact (proj1 (iterator_loops groups (fun _ => false) 0 groups_ok))|].
  exact (proj1 (proj2 (iterator_loops groups (fun _ => false) 0 groups_ok))).
Defined.

Definition zero_nat : ZeroValue nat := 0%nat.

Lemma iterator_views_witness :
  fst <$> Collect (mkAppend (NewArrayIterator [1; 2]) (NewReverseArrayIterator [3; 4]))%nat = Ok [1; 2; 4; 3]%nat.
Proof.
  refine (proj1 (@iterator_views _ _ _ _ _ _ _ _ zero_nat (NewArrayIterator [1; 2]) (NewReverseArrayIterator [3; 4])
    (NewArrayIterator [[5]]) NewArrayIterator (fun x => x) [6] _ _ _ _ _ _ _)%nat); cbn; try lia; try done; intros; lia.
Defined.

End IterProperties.
