(* ===== verification/Hash.v ===== *)
(** * Hash sets and hash maps

    Models [pkg/util/collection/hash]: keys with hash codes, sets and maps of
    buckets, and the iterator over the pairs of a map.  A Go map from hash codes is
    a [gmap]; the order in which the buckets of a map are visited is any
    permutation of them. *)

From Stdlib Require Import ZArith Lia.
From stdpp Require Import base numbers list option strings gmap sorting.
From S2P Require Import Prelude Iter.

Open Scope Z_scope.

(** ** Keys ([hash_key.go]) *)

Class Hasher (T : Type) : Type := {
  Equals : T -> T -> bool;
  Hash : T -> Z
}.

(** What the sets and maps rely on: [Equals] is an equivalence that [Hash] respects. *)
Class HasherLaws (T : Type) `{!Hasher T} : Prop := {
  equals_refl (x : T) : Equals x x = true;
  equals_sym (x y : T) : Equals x y = true -> Equals y x = true;
  equals_trans (x y z : T) : Equals x y = true -> Equals y z = true -> Equals x z = true;
  equals_hash (x y : T) : Equals x y = true -> Hash x = Hash y
}.

Definition offset64 : Z := 14695981039346656037.
Definition prime64 : Z := 1099511628211.

(** [hash/fnv]'s [New64a] *)
Definition fnv_write (hash : Z) (c : Z) : Z := u64 (Z.lxor hash c * prime64).

Definition BytesKey_Equals (p other : list Z) : bool := bool_decide (p = other).

Definition BytesKey_Hash (bytes : list Z) : Z := foldl fnv_write offset64 bytes.

Record BytesKey : Type := NewBytesKey { bytes : list Z }.

#[export] Instance BytesKey_Hasher : Hasher BytesKey := {|
  Equals p other := BytesKey_Equals (bytes p) (bytes other);
  Hash p := BytesKey_Hash (bytes p)
|}.

Record Array (T : Type) : Type := NewArray { elements : list T }.
Arguments NewArray {T} elements.
Arguments elements {T} _.

(** [for i := range n]: the arrays have the same length. *)
Fixpoint array_equals {T} `{!Hasher T} (ps others : list T) : bool :=
  match ps, others with
  | p :: ps, other :: others => if negb (Equals p other) then false else array_equals ps others
  | _, _ => true
  end.

Definition Array_Equals {T} `{!Hasher T} (p other : Array T) : bool :=
  if negb (length (elements p) =? length (elements other))%nat then false
  else array_equals (elements p) (elements other).

Definition Array_Hash {T} `{!Hasher T} (p : Array T) : Z :=
  foldl (fun hash c => u64 (Z.lxor hash (Hash c) * prime64)) offset64 (elements p).

#[export] Instance Array_Hasher {T} `{!Hasher T} : Hasher (Array T) := {| Equals := Array_Equals; Hash := Array_Hash |}.

#[export, program] Instance BytesKey_laws : HasherLaws BytesKey.
Next Obligation. intros [b]. by apply bool_decide_eq_true. Qed.
Next Obligation. intros [a] [b] H%bool_decide_eq_true. apply bool_decide_eq_true. cbn in *. by subst. Qed.
Next Obligation.
  intros [a] [b] [c] H1%bool_decide_eq_true H2%bool_decide_eq_true. apply bool_decide_eq_true. cbn in *. by subst.
Qed.
Next Obligation. intros [a] [b] H%bool_decide_eq_true. cbn in *. by subst. Qed.

Section ArrayLaws.
Context {T : Type} `{!Hasher T}.

Lemma Array_Equals_Forall2 (p other : Array T) :
  Array_Equals p other = true <-> Forall2 (fun x y => Equals x y = true) (elements p) (elements other).
Proof.
  destruct p as [ps], other as [os]. unfold Array_Equals. cbn.
  destruct (Nat.eqb_spec (length ps) (length os)) as [Hl|Hl]; cbn.
  2: { split; [done|]. by intros ?%Forall2_length. }
  revert os Hl. induction ps as [|x ps IH]; intros [|y os] Hl; cbn in *; try done.
  rewrite Forall2_cons. destruct (Equals x y); cbn; [rewrite IH by lia; tauto | intuition congruence].
Qed.

End ArrayLaws.

#[export, program] Instance Array_laws {T} `{!Hasher T, !HasherLaws T} : HasherLaws (Array T).
Next Obligation. intros. apply Array_Equals_Forall2, Forall_Forall2_diag, Forall_forall. intros. apply equals_refl. Qed.
Next Obligation.
  intros T ?? x y H%Array_Equals_Forall2. apply Array_Equals_Forall2, Forall2_flip.
  eapply Forall2_impl; [done|]. intros. by apply equals_sym.
Qed.
Next Obligation.
  intros T ?? x y z H1%Array_Equals_Forall2 H2%Array_Equals_Forall2. apply Array_Equals_Forall2.
  eapply Forall2_trans; [|done..]. cbn. intros ???. apply equals_trans.
Qed.
Next Obligation.
  intros T ?? [x] [y] H%Array_Equals_Forall2. cbn in *. unfold Array_Hash. cbn. generalize offset64.
  induction H as [|a b x y Hab H IH]; intros h; [done|]. cbn. by rewrite (equals_hash a b Hab), IH.
Qed.

(** ** Sets ([hash_set.go]) *)

Module HashSet.

Section Set_.
Context {T : Type} `{!Hasher T}.

Definition bucket_size (b : list T) : nat := length b.

Definition bucket_contains (b : list T) (item : T) : bool := existsb (fun i => Equals item i) b.

Definition bucket_insert (b : list T) (item : T) : bool * list T :=
  if bucket_contains b item then (true, b) else (false, b ++ [item]).

Record t : Type := mkSet { items : gmap Z (list T) }.

Definition NewSet (size : nat) : t := mkSet ∅.

(** The sum and the maximum do not depend on the order of the buckets. *)
Definition Size (p : t) : nat := map_fold (fun _ b count => count + bucket_size b)%nat 0%nat (items p).

Definition MaxBucket (p : t) : nat := map_fold (fun _ b m => Nat.max m (bucket_size b)) 0%nat (items p).

Definition Insert (p : t) (item : T) : bool * t :=
  let hash := Hash item in
  let b1 := default [] (items p !! hash) in
  let (r, b1) := bucket_insert b1 item in
  (r, mkSet (<[hash := b1]> (items p))).

Definition Contains (p : t) (item : T) : bool :=
  match items p !! Hash item with Some bucket => bucket_contains bucket item | None => false end.

End Set_.
Arguments t : clear implicits.
#[global] Arguments bucket_contains : simpl never.
#[global] Arguments bucket_size : simpl never.
End HashSet.

(** ** Maps ([hash_map.go]) *)

Module HashMap.

Section Map.
Context {K V : Type} `{!Hasher K}.

Record bucket : Type := mkBucket { keys : list K; values : list V }.

Definition bucket_size (b : bucket) : nat := length (keys b).

(** [for i, k := range b.keys]: the first key that matches *)
Fixpoint find_key (ks : list K) (key : K) (i : nat) : option nat :=
  match ks with
  | [] => None
  | k :: rest => if Equals key k then Some i else find_key rest key (S i)
  end.

Definition bucket_insert (b : bucket) (key : K) (value : V) : result (bool * bucket) :=
  match find_key (keys b) key 0 with
  | Some i => vs ← slice_set (values b) i value; Ok (true, mkBucket (keys b) vs)
  | None => Ok (false, mkBucket (keys b ++ [key]) (values b ++ [value]))
  end.

Definition bucket_containsKey (b : bucket) (key : K) : bool := existsb (fun k => Equals key k) (keys b).

Definition bucket_get (b : bucket) (key : K) : result (option V) :=
  match find_key (keys b) key 0 with
  | Some i => v ← slice_get (values b) i; Ok (Some v)
  | None => Ok None
  end.

Record t : Type := mkMap { buckets : gmap Z bucket }.

Definition NewMap (size : nat) : t := mkMap ∅.

Definition Size (p : t) : nat := map_fold (fun _ b count => count + bucket_size b)%nat 0%nat (buckets p).

Definition MaxBucket (p : t) : nat := map_fold (fun _ b m => Nat.max m (bucket_size b)) 0%nat (buckets p).

Definition Insert (p : t) (key : K) (value : V) : result (bool * t) :=
  let hash := Hash key in
  let b1 := default (mkBucket [] []) (buckets p !! hash) in
  '(r, b1) ← bucket_insert b1 key value;
  Ok (r, mkMap (<[hash := b1]> (buckets p))).

Definition ContainsKey (p : t) (key : K) : bool :=
  match buckets p !! Hash key with Some bucket => bucket_containsKey bucket key | None => false end.

Definition Get (p : t) (key : K) : result (option V) :=
  match buckets p !! Hash key with Some bucket => bucket_get bucket key | None => Ok None end.

(** *** The iterator over pairs *)

Record bucketIterator : Type := mkBucketIterator { rest : list bucket; index : nat }.

Fixpoint skipEmptyBuckets (bs : list bucket) : list bucket :=
  match bs with
  | b :: bs' => if (bucket_size b =? 0)%nat then skipEmptyBuckets bs' else bs
  | [] => []
  end.

Definition newBucketIterator (bs : list bucket) : bucketIterator := mkBucketIterator (skipEmptyBuckets bs) 0.

(** [KeyValues] for an order of the buckets *)
Definition KeyValues (order : list bucket) : bucketIterator := newBucketIterator order.

Definition visits (p : t) (order : list bucket) : Prop := order ≡ₚ map snd (map_to_list (buckets p)).

Definition bucket_HasNext (p : bucketIterator) : result (bool * bucketIterator) :=
  let bs := skipEmptyBuckets (rest p) in Ok ((0 <? length bs)%nat, mkBucketIterator bs (index p)).

Definition bucket_Next (p : bucketIterator) : result ((K * V) * bucketIterator) :=
  b ← slice_get (rest p) 0;
  key ← slice_get (keys b) (index p);
  value ← slice_get (values b) (index p);
  let i := S (index p) in
  if (bucket_size b <=? i)%nat then Ok ((key, value), mkBucketIterator (drop 1 (rest p)) 0)
  else Ok ((key, value), mkBucketIterator (rest p) i).

Definition pairs (b : bucket) : list (K * V) := zip (keys b) (values b).

Definition bucket_remaining (p : bucketIterator) : list (K * V) :=
  match skipEmptyBuckets (rest p) with
  | [] => []
  | b :: bs => drop (index p) (pairs b) ++ (bs ≫= pairs)
  end.

(** The counting loop advances the iterator. *)
Definition bucket_Count (p : bucketIterator) : result (nat * bucketIterator) :=
  Enum_Count bucket_remaining bucket_HasNext bucket_Next p.

#[export] Instance bucketIterator_Iterator : Iterator bucketIterator (K * V) := {|
  Iter.remaining := bucket_remaining;
  Iter.HasNext := bucket_HasNext;
  Iter.Next := bucket_Next;
  Iter.Nth := Enum_Nth bucket_remaining bucket_HasNext bucket_Next;
  Iter.Collect := Enum_Collect bucket_remaining bucket_HasNext bucket_Next;
  Iter.Find := Enum_Find bucket_remaining bucket_HasNext bucket_Next;
  Iter.Count := bucket_Count
|}.

End Map.
Arguments t : clear implicits.
Arguments bucket : clear implicits.
Arguments bucketIterator : clear implicits.
End HashMap.

(** ** Sets behave as sets *)

Module HashSetFacts.
Import HashSet.

Section Facts.
Context {T : Type} `{!Hasher T, !HasherLaws T}.
Implicit Types (p : t T) (x y : T) (b : list T).

(** Items are in the bucket of their code, and no two items are equal. *)
Definition bucket_ok (h : Z) b : Prop :=
  Forall (fun i => Hash i = h) b /\ ForallOrdPairs (fun i j => Equals j i = false) b.

Definition set_ok p : Prop := map_Forall bucket_ok (items p).

Lemma bucket_contains_spec b x : bucket_contains b x = true <-> exists i, i ∈ b /\ Equals x i = true.
Proof.
  unfold bucket_contains. rewrite existsb_exists. by setoid_rewrite list_elem_of_In.
Qed.

Lemma bucket_contains_app b x y : bucket_contains (b ++ [x]) y = bucket_contains b y || Equals y x.
Proof. unfold bucket_contains. rewrite existsb_app. cbn. by rewrite orb_false_r. Qed.

Lemma bucket_contains_equals b x y : Equals y x = true -> bucket_contains b y = bucket_contains b x.
Proof.
  intros Hyx. apply eq_true_iff_eq. rewrite !bucket_contains_spec. split; intros (i & Hi & He); exists i; (split; [done|]).
  - eapply equals_trans; [by apply equals_sym | done].
  - by eapply equals_trans.
Qed.

Lemma ForallOrdPairs_snoc {A} (R : A -> A -> Prop) l a :
  ForallOrdPairs R l -> Forall (fun i => R i a) l -> ForallOrdPairs R (l ++ [a]).
Proof.
  induction 1 as [|i l Hi Hl IH]; intros HF; cbn; [by repeat constructor|].
  apply Forall_cons in HF as [? ?]. constructor; [|by apply IH]. apply Forall_app. by repeat constructor.
Qed.

Lemma bucket_insert_ok h b x : bucket_ok h b -> Hash x = h -> bucket_ok h (snd (bucket_insert b x)).
Proof.
  intros [Hh Hp] Hx. unfold bucket_insert. destruct (bucket_contains b x) eqn:Hc; [done|]. cbn. split.
  - apply Forall_app. by repeat constructor.
  - apply ForallOrdPairs_snoc; [done|]. apply Forall_forall. intros i Hi.
    destruct (Equals x i) eqn:He; [|done]. symmetry. rewrite <- Hc. apply bucket_contains_spec. by exists i.
Qed.

(** The bucket of a code, empty when the map has none *)
Definition bucket_at p (h : Z) : list T := default [] (items p !! h).

Lemma Contains_bucket p x : Contains p x = bucket_contains (bucket_at p (Hash x)) x.
Proof. unfold Contains, bucket_at. by destruct (items p !! Hash x). Qed.

Lemma bucket_at_ok p h : set_ok p -> bucket_ok h (bucket_at p h).
Proof.
  intros Hp. unfold bucket_at. destruct (items p !! h) as [b|] eqn:Hb; [by apply Hp|]. cbn. repeat constructor.
Qed.

Lemma Insert_bucket p x : Insert p x =
  (bucket_contains (bucket_at p (Hash x)) x,
   mkSet (<[Hash x := snd (bucket_insert (bucket_at p (Hash x)) x)]> (items p))).
Proof.
  unfold Insert, bucket_insert, bucket_at. by destruct (bucket_contains _ x).
Qed.

Lemma Contains_Insert p x y : Contains (snd (Insert p x)) y = Equals y x || Contains p y.
Proof.
  rewrite Insert_bucket, !Contains_bucket. unfold bucket_at at 1. cbn.
  destruct (decide (Hash x = Hash y)) as [Heq|Hne].
  - rewrite <- Heq, lookup_insert_eq. cbn. unfold bucket_insert.
    destruct (bucket_contains (bucket_at p (Hash x)) x) eqn:Hc; cbn.
    + destruct (Equals y x) eqn:He; [|done]. by rewrite (bucket_contains_equals _ x y He).
    + by rewrite bucket_contains_app, orb_comm.
  - rewrite lookup_insert_ne by done. fold (bucket_at p (Hash y)).
    destruct (Equals y x) eqn:He; [|done]. by apply equals_hash in He.
Qed.

Lemma Insert_ok p x : set_ok p -> set_ok (snd (Insert p x)).
Proof.
  intros Hp. rewrite Insert_bucket. cbn. apply map_Forall_insert_2; [|done].
  apply bucket_insert_ok; [by apply bucket_at_ok|done].
Qed.

Lemma size_insert (m : gmap Z (list T)) h b :
  map_fold (fun _ b count => count + bucket_size b)%nat 0%nat (<[h := b]> m)
  = (map_fold (fun _ b count => count + bucket_size b)%nat 0%nat m - bucket_size (default [] (m !! h)) + bucket_size b)%nat /\
  (bucket_size (default [] (m !! h)) <= map_fold (fun _ b count => count + bucket_size b)%nat 0%nat m)%nat.
Proof.
  assert (Hins : forall (m' : gmap Z (list T)) h' b', m' !! h' = None ->
    map_fold (fun _ b count => count + bucket_size b)%nat 0%nat (<[h' := b']> m')
    = (map_fold (fun _ b count => count + bucket_size b)%nat 0%nat m' + bucket_size b')%nat).
  { intros m' h' b' Hn. apply (map_fold_insert_L (fun _ (b : list T) count => count + bucket_size b)%nat); [|done]. intros. cbn. lia. }
  destruct (m !! h) as [b0|] eqn:Hh; cbn.
  - pose proof (Hins (delete h m) h b0 (lookup_delete_eq _ _)) as Hm. rewrite insert_delete_id in Hm by done.
    rewrite <- insert_delete_eq, Hins by apply lookup_delete_eq. lia.
  - rewrite Hins by done. change (bucket_size (T := T) []) with 0%nat. lia.
Qed.

Lemma Size_Insert p x : Size (snd (Insert p x)) = if Contains p x then Size p else S (Size p).
Proof.
  rewrite Insert_bucket, Contains_bucket. unfold Size. cbn. fold (bucket_at p (Hash x)).
  destruct (size_insert (items p) (Hash x) (snd (bucket_insert (bucket_at p (Hash x)) x))) as [-> Hle].
  fold (bucket_at p (Hash x)) in Hle |- *. unfold bucket_insert.
  destruct (bucket_contains _ x); cbn; unfold bucket_size in *; rewrite ?length_app; cbn; lia.
Qed.

Lemma NewSet_ok n : set_ok (NewSet n).
Proof. apply map_Forall_empty. Qed.

(** A set built by insertions *)
Lemma inserts_Contains p xs y :
  set_ok p -> set_ok (foldl (fun p x => snd (Insert p x)) p xs) /\
  Contains (foldl (fun p x => snd (Insert p x)) p xs) y = existsb (Equals y) xs || Contains p y.
Proof.
  revert p. induction xs as [|x xs IH]; intros p Hp; [done|]. cbn.
  destruct (IH (snd (Insert p x)) (Insert_ok p x Hp)) as [Hok ->]. split; [done|].
  rewrite Contains_Insert. by destruct (Equals y x), (existsb _ xs).
Qed.

End Facts.
End HashSetFacts.

Module HashSetProperties.
Import HashSet HashSetFacts.

(** Insertion keeps the buckets keyed by the codes and free of duplicates, reports
    whether an equal item was there, adds the item to the members and one to the
    size when there was none; a new set has no members. *)
Theorem hash_set_insert {T} `{!Hasher T, !HasherLaws T} (p : t T) (x y : T) (n : nat) :
  set_ok p ->
  set_ok (snd (Insert p x)) /\ set_ok (NewSet (T := T) n) /\
  fst (Insert p x) = Contains p x /\
  Contains (snd (Insert p x)) y = Equals y x || Contains p y /\ Contains (NewSet n) y = false /\
  Size (snd (Insert p x)) = (if Contains p x then Size p else S (Size p)) /\ Size (NewSet (T := T) n) = 0%nat.
Proof.
  intros Hp. split_and!; [by apply Insert_ok|apply NewSet_ok| |apply Contains_Insert|done|apply Size_Insert|done].
  by rewrite Insert_bucket, Contains_bucket.
Qed.

Definition sample : t BytesKey := foldl (fun p x => snd (Insert p x)) (NewSet 0) [NewBytesKey [1; 2]; NewBytesKey []; NewBytesKey [1; 2]].

Lemma hash_set_insert_witness :
  Contains (snd (Insert sample (NewBytesKey [7]))) (NewBytesKey [7]) = true /\ Size (snd (Insert sample (NewBytesKey [7]))) = 3%nat.
Proof.
  assert (Hok : set_ok sample) by apply (inserts_Contains (NewSet 0) _ (NewBytesKey []) (NewSet_ok 0)).
  pose proof (hash_set_insert sample (NewBytesKey [7]) (NewBytesKey [7]) 0 Hok) as (_ & _ & _ & Hc & _ & Hs & _).
  rewrite Hc, Hs. split; vm_compute; reflexivity.
Defined.

End HashSetProperties.

(** ** Maps behave as maps *)

Module HashMapFacts.
Import HashMap.

Section Facts.
Context {K V : Type} `{!Hasher K, !HasherLaws K}.
Implicit Types (p : t K V) (k j : K) (v : V) (b : bucket K V).

Definition bucket_ok (h : Z) b : Prop :=
  length (keys b) = length (values b) /\ keys b <> [] /\ Forall (fun k => Hash k = h) (keys b) /\
  ForallOrdPairs (fun i j => Equals j i = false) (keys b).

Definition map_ok p : Prop := map_Forall bucket_ok (buckets p).

(** The value of the first key that matches *)
Fixpoint assoc (ks : list K) (vs : list V) (key : K) : option V :=
  match ks, vs with
  | k :: ks, v :: vs => if Equals key k then Some v else assoc ks vs key
  | _, _ => None
  end.

Lemma find_key_spec ks key i :
  match find_key ks key i with
  | Some n => exists m k, n = (i + m)%nat /\ ks !! m = Some k /\ Equals key k = true /\
                existsb (fun k => Equals key k) ks = true /\
                forall vs : list V, length ks = length vs -> assoc ks vs key = vs !! m
  | None => existsb (fun k => Equals key k) ks = false /\ forall vs : list V, assoc ks vs key = None
  end.
Proof.
  revert i. induction ks as [|k ks IH]; intros i; cbn; [by split|].
  destruct (Equals key k) eqn:He.
  - exists 0%nat, k. split_and!; [lia|done|done|done|]. by intros [|v vs] Hl.
  - specialize (IH (S i)). destruct (find_key ks key (S i)) as [n|].
    + destruct IH as (m & k' & -> & Hk' & He' & Hex & Ha). exists (S m), k'. split_and!; [lia|done|done|done|].
      intros [|v vs] Hl; cbn in *; [lia|]. apply Ha. lia.
    + destruct IH as [Hex Ha]. split; [done|]. intros [|v vs]; [done|]. by rewrite Ha.
Qed.

Lemma assoc_update ks vs m k v key : length ks = length vs -> ForallOrdPairs (fun i j => Equals j i = false) ks ->
  ks !! m = Some k -> assoc ks (<[m := v]> vs) key = if Equals key k then Some v else assoc ks vs key.
Proof.
  revert vs m. induction ks as [|a ks IH]; intros [|w vs] m Hl Hd Hm; cbn in *; try done.
  inversion_clear Hd as [|? ? Ha Hd']. destruct m as [|m]; cbn in *.
  - injection Hm as ->. by destruct (Equals key k).
  - rewrite IH by (done || lia). destruct (Equals key a) eqn:Hka; [|done].
    destruct (Equals key k) eqn:Hkk; [|done]. exfalso.
    apply list_elem_of_lookup_2 in Hm. rewrite Forall_forall in Ha. specialize (Ha k Hm).
    rewrite (equals_trans k key a) in Ha; [done | by apply equals_sym | done].
Qed.

Lemma assoc_snoc ks vs k v key : length ks = length vs ->
  assoc (ks ++ [k]) (vs ++ [v]) key
  = match assoc ks vs key with Some w => Some w | None => if Equals key k then Some v else None end.
Proof.
  revert vs. induction ks as [|a ks IH]; intros [|w vs] Hl; cbn in *; try done.
  destruct (Equals key a); [done|]. apply IH. lia.
Qed.

Lemma assoc_equals ks vs k key : Equals key k = true -> assoc ks vs key = assoc ks vs k.
Proof.
  intros He. revert vs. induction ks as [|a ks IH]; intros [|w vs]; cbn; try done. rewrite IH.
  replace (Equals key a) with (Equals k a); [done|]. apply eq_true_iff_eq. split; intros H.
  - by eapply equals_trans.
  - eapply equals_trans; [by apply equals_sym | done].
Qed.

Definition bucket_assoc b key : option V := assoc (keys b) (values b) key.

Lemma bucket_get_ok b key : length (keys b) = length (values b) -> bucket_get b key = Ok (bucket_assoc b key).
Proof.
  intros Hl. unfold bucket_get, bucket_assoc. pose proof (find_key_spec (keys b) key 0) as H.
  destruct (find_key (keys b) key 0) as [n|].
  - destruct H as (m & k & -> & Hk & _ & _ & Ha). rewrite Ha by done. cbn.
    destruct (lookup_lt_is_Some_2 (values b) m) as [v Hv]; [rewrite <- Hl; by eapply lookup_lt_Some|].
    rewrite Hv. apply slice_get_ok in Hv. by rewrite Hv.
  - destruct H as [_ Ha]. by rewrite Ha.
Qed.

Lemma bucket_containsKey_ok b key : length (keys b) = length (values b) ->
  bucket_containsKey b key = bool_decide (is_Some (bucket_assoc b key)).
Proof.
  intros Hl. unfold bucket_containsKey, bucket_assoc. pose proof (find_key_spec (keys b) key 0) as H.
  destruct (find_key (keys b) key 0) as [n|].
  - destruct H as (m & k & -> & Hk & _ & -> & Ha). rewrite Ha by done. symmetry. apply bool_decide_eq_true.
    apply lookup_lt_is_Some_2. rewrite <- Hl. by eapply lookup_lt_Some.
  - destruct H as [-> Ha]. rewrite Ha. symmetry. apply bool_decide_eq_false. by intros [? ?].
Qed.

Lemma map_bucket_insert_ok h b key v : bucket_ok h b \/ b = mkBucket [] [] -> Hash key = h ->
  exists b', bucket_insert b key v = Ok (bool_decide (is_Some (bucket_assoc b key)), b') /\ bucket_ok h b' /\
    (forall key', bucket_assoc b' key' = if Equals key' key then Some v else bucket_assoc b key') /\
    bucket_size b' = if bool_decide (is_Some (bucket_assoc b key)) then bucket_size b else S (bucket_size b).
Proof.
  intros Hb Hh. assert (Hok : length (keys b) = length (values b) /\ Forall (fun k => Hash k = h) (keys b) /\
    ForallOrdPairs (fun i j => Equals j i = false) (keys b)).
  { destruct Hb as [(Hl & _ & Hf & Hd)| ->]; [done|]. repeat constructor. }
  destruct Hok as (Hl & Hf & Hd). unfold bucket_insert. rewrite <- (bucket_containsKey_ok b key Hl).
  pose proof (find_key_spec (keys b) key 0) as H. unfold bucket_containsKey.
  destruct (find_key (keys b) key 0) as [n|].
  - destruct H as (m & k & -> & Hk & He & Hex & Ha). assert (Hm := lookup_lt_Some _ _ _ Hk).
    unfold slice_set. rewrite decide_True by (cbn; lia). cbn [mbind result_bind]. rewrite Hex.
    eexists. split; [done|]. split; [|split; [|done]].
    + split; [cbn; by rewrite length_insert|]. split; [cbn; intros Hn; rewrite Hn in Hm; cbn in Hm; lia|done].
    + intros key'. unfold bucket_assoc. cbn. rewrite (assoc_update _ _ m k) by done.
      assert (Heq : Equals key' k = Equals key' key); [|by rewrite Heq].
      apply eq_true_iff_eq. split; intros H; (eapply equals_trans; [done|]); [by apply equals_sym | done].
  - destruct H as [Hex Ha]. rewrite Hex. eexists. split; [done|]. split; [|split].
    + split; [cbn; rewrite !length_app; cbn; lia|]. split; [cbn; by destruct (keys b)|]. cbn. split.
      * apply Forall_app. by repeat constructor.
      * apply HashSetFacts.ForallOrdPairs_snoc; [done|]. apply Forall_forall. intros i Hi.
        destruct (Equals key i) eqn:He; [|done]. symmetry. rewrite <- Hex. apply existsb_exists. exists i.
        by rewrite <- list_elem_of_In.
    + intros key'. unfold bucket_assoc. cbn. rewrite assoc_snoc by done.
      destruct (Equals key' key) eqn:He; [|by destruct (assoc _ _ key')]. by rewrite (assoc_equals _ _ key key'), Ha.
    + unfold bucket_size. cbn. rewrite length_app. cbn. lia.
Qed.

(** *** The map as a function *)

Definition bucket_at p (h : Z) : bucket K V := default (mkBucket [] []) (buckets p !! h).

Definition lookup_key p key : option V := bucket_assoc (bucket_at p (Hash key)) key.

Lemma map_bucket_at_ok p h : map_ok p -> bucket_ok h (bucket_at p h) \/ bucket_at p h = mkBucket [] [].
Proof.
  intros Hp. unfold bucket_at. destruct (buckets p !! h) as [b|] eqn:Hb; [left; by apply Hp | by right].
Qed.

Lemma bucket_at_length p h : map_ok p -> length (keys (bucket_at p h)) = length (values (bucket_at p h)).
Proof. intros Hp. destruct (map_bucket_at_ok p h Hp) as [[Hl _]| ->]; done. Qed.

Lemma Get_ok p key : map_ok p -> Get p key = Ok (lookup_key p key).
Proof.
  intros Hp. pose proof (bucket_at_length p (Hash key) Hp) as Hl. unfold Get, lookup_key, bucket_at in *.
  destruct (buckets p !! Hash key); [by apply bucket_get_ok | done].
Qed.

Lemma ContainsKey_ok p key : map_ok p -> ContainsKey p key = bool_decide (is_Some (lookup_key p key)).
Proof.
  intros Hp. pose proof (bucket_at_length p (Hash key) Hp) as Hl. unfold ContainsKey, lookup_key, bucket_at in *.
  destruct (buckets p !! Hash key); [by apply bucket_containsKey_ok | done].
Qed.

Lemma map_size_insert (m : gmap Z (bucket K V)) h b :
  map_fold (fun _ b count => count + bucket_size b)%nat 0%nat (<[h := b]> m)
  = (map_fold (fun _ b count => count + bucket_size b)%nat 0%nat m
     - bucket_size (default (mkBucket [] []) (m !! h)) + bucket_size b)%nat /\
  (bucket_size (default (mkBucket [] []) (m !! h)) <= map_fold (fun _ b count => count + bucket_size b)%nat 0%nat m)%nat.
Proof.
  assert (Hins : forall (m' : gmap Z (bucket K V)) h' b', m' !! h' = None ->
    map_fold (fun _ b count => count + bucket_size b)%nat 0%nat (<[h' := b']> m')
    = (map_fold (fun _ b count => count + bucket_size b)%nat 0%nat m' + bucket_size b')%nat).
  { intros m' h' b' Hn. apply (map_fold_insert_L (fun _ (b : bucket K V) count => count + bucket_size b)%nat); [|done].
    intros. lia. }
  destruct (m !! h) as [b0|] eqn:Hh; cbn [default from_option id].
  - pose proof (Hins (delete h m) h b0 (lookup_delete_eq _ _)) as Hm. rewrite insert_delete_id in Hm by done.
    rewrite <- insert_delete_eq, Hins by apply lookup_delete_eq. lia.
  - rewrite Hins by done. change (bucket_size (mkBucket [] [])) with 0%nat. lia.
Qed.

Lemma map_Insert_ok p key v : map_ok p ->
  exists p', Insert p key v = Ok (bool_decide (is_Some (lookup_key p key)), p') /\ map_ok p' /\
    (forall key', lookup_key p' key' = if Equals key' key then Some v else lookup_key p key') /\
    Size p' = if bool_decide (is_Some (lookup_key p key)) then Size p else S (Size p).
Proof.
  intros Hp. unfold Insert. fold (bucket_at p (Hash key)).
  destruct (map_bucket_insert_ok (Hash key) (bucket_at p (Hash key)) key v (map_bucket_at_ok p _ Hp) eq_refl)
    as (b' & -> & Hok & Hassoc & Hsize). cbn [mbind result_bind]. eexists. split; [done|]. split; [by apply map_Forall_insert_2|]. split.
  - intros key'. unfold lookup_key, bucket_at at 1. cbn. destruct (decide (Hash key = Hash key')) as [Heq|Hne].
    + rewrite <- Heq, lookup_insert_eq. cbn. apply Hassoc.
    + rewrite lookup_insert_ne by done. fold (bucket_at p (Hash key')).
      destruct (Equals key' key) eqn:He; [|done]. by apply equals_hash in He.
  - unfold Size. cbn. destruct (map_size_insert (buckets p) (Hash key) b') as [-> Hle].
    fold (bucket_at p (Hash key)) in *. fold (lookup_key p key) in Hsize. rewrite Hsize. case_bool_decide; lia.
Qed.

(** *** Enumeration *)

Lemma assoc_zip ks vs key v : ForallOrdPairs (fun i j => Equals j i = false) ks ->
  assoc ks vs key = Some v <-> exists k, Equals key k = true /\ (k, v) ∈ zip ks vs.
Proof.
  revert vs. induction ks as [|a ks IH]; intros [|w vs] Hd; cbn [assoc zip zip_with].
  1-3: split; [done|]; by intros (k & _ & Hk%elem_of_nil).
  inversion_clear Hd as [|? ? Ha Hd']. setoid_rewrite elem_of_cons. destruct (Equals key a) eqn:Hka.
  - split; [intros [= ->]; exists a; by auto|]. intros (k & Hk & [[= -> ->]|Hin]); [done|]. exfalso.
    apply elem_of_zip_l in Hin. rewrite Forall_forall in Ha. specialize (Ha k Hin).
    rewrite (equals_trans k key a) in Ha; [done | by apply equals_sym | done].
  - rewrite IH by done. split; intros (k & Hk & H); exists k; (split; [done|]); [by right|].
    destruct H as [[= -> ->]|]; [congruence | done].
Qed.

Lemma length_pairs b : length (keys b) = length (values b) -> length (pairs b) = bucket_size b.
Proof. intros Hl. unfold pairs, bucket_size. rewrite length_zip. lia. Qed.

Definition full b : Prop := length (keys b) = length (values b) /\ keys b <> [].

Definition iterator_ok (it : bucketIterator K V) : Prop :=
  Forall full (rest it) /\ match rest it with [] => True | b :: _ => (index it < bucket_size b)%nat end.

Lemma full_size b : full b -> (0 < bucket_size b)%nat.
Proof. unfold full, bucket_size. destruct (keys b); [by intros []|]. cbn. lia. Qed.

Lemma skip_full bs : Forall full bs -> skipEmptyBuckets bs = bs.
Proof. intros [|b bs' Hb%full_size Hbs]; [done|]. cbn. destruct (Nat.eqb_spec (bucket_size b) 0); [lia|done]. Qed.

Lemma bucket_steps it : iterator_ok it -> steps bucket_remaining bucket_HasNext bucket_Next iterator_ok it.
Proof.
  destruct it as [bs i]. intros [Hf Hi]. cbn in *. unfold steps, bucket_remaining, bucket_HasNext. cbn [rest index].
  rewrite skip_full by done. exists (mkBucketIterator bs i). split; [by split|]. cbn [rest index].
  destruct bs as [|b bs]; [done|]. apply Forall_cons in Hf as [Hb Hbs]. assert (Hl := length_pairs b (proj1 Hb)).
  destruct (lookup_lt_is_Some_2 (pairs b) i) as [[k v] Hkv]; [lia|]. rewrite (drop_S _ _ _ Hkv). cbn [app].
  split; [done|]. unfold pairs in Hkv. apply lookup_zip_Some in Hkv as [Hk Hv]. unfold bucket_Next. cbn [rest index].
  apply slice_get_ok in Hk, Hv. cbn [slice_get lookup list_lookup mbind result_bind]. rewrite Hk, Hv. cbn [mbind result_bind].
  destruct (Nat.leb_spec (bucket_size b) (S i)).
  - eexists. split; [done|]. split.
    + split; [done|]. cbn. destruct Hbs as [|b' bs' Hb' _]; [done|]. by apply full_size.
    + cbn. rewrite drop_0, skip_full, (drop_ge (pairs b)) by (done || lia). by destruct bs.
  - eexists. split; [done|]. split; [by split; [apply Forall_cons|]|].
    cbn [rest index]. by rewrite skip_full by by apply Forall_cons.
Qed.

Lemma map_buckets_full p order : map_ok p -> visits p order -> Forall full order.
Proof.
  intros Hp Ho. apply Forall_forall. intros b Hb. rewrite Ho in Hb.
  apply list_elem_of_fmap in Hb as ([h b'] & -> & Hin%elem_of_map_to_list).
  destruct (Hp h b' Hin) as (Hl & Hne & _). by split.
Qed.

Lemma iterator_new p order : map_ok p -> visits p order ->
  iterator_ok (KeyValues order) /\ bucket_remaining (KeyValues order) = (order ≫= pairs).
Proof.
  intros Hp Ho. assert (Hf := map_buckets_full p order Hp Ho).
  unfold KeyValues, newBucketIterator, bucket_remaining, iterator_ok. cbn. rewrite !skip_full by done. split.
  - split; [done|]. destruct Hf as [|b bs Hb _]; [done|]. by apply full_size.
  - by destruct order.
Qed.

Lemma pairs_lookup p order key v : map_ok p -> visits p order ->
  lookup_key p key = Some v <-> exists k, Equals key k = true /\ (k, v) ∈ (order ≫= pairs).
Proof.
  intros Hp Ho. unfold lookup_key, bucket_at. split.
  - destruct (buckets p !! Hash key) as [b|] eqn:Hb; [|done]. cbn. destruct (Hp _ _ Hb) as (_ & _ & _ & Hd).
    intros (k & Hk & Hin)%(assoc_zip _ _ _ _ Hd). exists k. split; [done|].
    apply list_elem_of_bind. exists b. split; [done|]. rewrite Ho. apply list_elem_of_fmap. exists (Hash key, b). split; [done|]. by apply elem_of_map_to_list.
  - intros (k & Hk & Hin). apply list_elem_of_bind in Hin as (b & Hin & Hb).
    rewrite Ho in Hb. apply list_elem_of_fmap in Hb as ([h b'] & -> & Hb%elem_of_map_to_list). cbn in Hin.
    destruct (Hp _ _ Hb) as (_ & _ & Hh & Hd). assert (Hk' := elem_of_zip_l _ _ _ _ Hin).
    rewrite Forall_forall in Hh. rewrite (equals_hash key k Hk), (Hh k Hk'), Hb. cbn.
    apply (assoc_zip _ _ _ _ Hd). by exists k.
Qed.

Lemma pairs_size p order : map_ok p -> visits p order -> length ((order ≫= pairs)) = Size p.
Proof.
  intros Hp Ho. assert (Hf := map_buckets_full p order Hp Ho).
  assert (Hsum : forall bs, Forall full bs -> length ((bs ≫= pairs)) = foldr (fun b n => (n + bucket_size b)%nat) 0%nat bs).
  { induction 1 as [|b bs [Hl _] _ IH]; [done|]. cbn. rewrite length_app, IH, length_pairs by done. lia. }
  rewrite Hsum by done. unfold Size. rewrite map_fold_foldr.
  transitivity (foldr (fun b n => (n + bucket_size b)%nat) 0%nat (map snd (map_to_list (buckets p)))).
  - apply (foldr_permutation_proper (=)); [solve_proper| |done]. intros. lia.
  - by induction (map_to_list (buckets p)) as [|[h b] l IH]; cbn; [|rewrite IH].
Qed.

End Facts.
End HashMapFacts.

Module HashMapProperties.
Import HashMap HashMapFacts.

(** Insertion never panics, keeps the buckets well formed, reports whether the key
    was there, and afterwards the key has the value and every other key what it
    had; [ContainsKey] says whether [Get] has a value. *)
Theorem hash_map_insert {K V} `{!Hasher K, !HasherLaws K} (p : t K V) (key key' : K) (v : V) :
  map_ok p ->
  exists p' before after, Insert p key v = Ok (bool_decide (is_Some before), p') /\ map_ok p' /\
    Get p key = Ok before /\ ContainsKey p key = bool_decide (is_Some before) /\
    Get p key' = Ok after /\ Get p' key' = Ok (if Equals key' key then Some v else after) /\
    Size p' = if bool_decide (is_Some before) then Size p else S (Size p).
Proof.
  intros Hp. destruct (map_Insert_ok p key v Hp) as (p' & Hi & Hok & Hl & Hs).
  exists p', (lookup_key p key), (lookup_key p key'). split_and!; try done; rewrite ?Get_ok, ?ContainsKey_ok by done; try done.
  by rewrite Hl.
Qed.

(** Whatever the order of the buckets, [KeyValues] enumerates the pairs of the map:
    as many as its size, and a key has a value exactly when an equal key is paired
    with it.  [Count] counts them, and leaves the iterator empty. *)
Theorem hash_map_enumeration {K V} `{!Hasher K, !HasherLaws K} (p : t K V) (order : list (bucket K V)) :
  map_ok p -> visits p order ->
  exists l, fst <$> Iter.Collect (KeyValues order) = Ok l /\ length l = Size p /\
    (forall key v, Get p key = Ok (Some v) <-> exists k, Equals key k = true /\ (k, v) ∈ l) /\
    exists it, Iter.Count (KeyValues order) = Ok (Size p, it) /\ Iter.remaining it = [].
Proof.
  intros Hp Ho. destruct (iterator_new p order Hp Ho) as [Hok Hrem]. exists ((order ≫= pairs)).
  rewrite <- (pairs_size p order) by done.
  unfold Iter.Collect, Iter.Count, Iter.remaining, bucketIterator_Iterator, bucket_Count, Enum_Collect, Enum_Count. rewrite Hrem. split_and!; [|done| |].
  - by destruct (enum_collect_law bucket_remaining bucket_HasNext bucket_Next iterator_ok bucket_steps
      (S (length ((order ≫= pairs)))) (KeyValues order) [] ((order ≫= pairs))) as (it' & -> & _); [..|lia|].
  - intros key v. rewrite Get_ok by done. rewrite <- (pairs_lookup p order key v) by done. split; [by intros [= ->] | by intros ->].
  - destruct (enum_count_law bucket_remaining bucket_HasNext bucket_Next iterator_ok bucket_steps
      (S (length ((order ≫= pairs)))) (KeyValues order) 0 ((order ≫= pairs))) as (it' & -> & Hr); [done|done|lia|].
    by exists it'.
Qed.

Definition sample : result (t BytesKey nat) :=
  '(_, p) ← Insert (NewMap 0) (NewBytesKey [1; 2]) 7%nat; '(_, p) ← Insert p (NewBytesKey []) 8%nat;
  '(_, p) ← Insert p (NewBytesKey [1; 2]) 9%nat; Ok p.

Lemma sample_map_ok : exists p, sample = Ok p /\ map_ok p.
Proof.
  unfold sample. assert (H0 : map_ok (NewMap (K := BytesKey) (V := nat) 0)) by apply map_Forall_empty.
  destruct (map_Insert_ok _ (NewBytesKey [1; 2]) 7%nat H0) as (p1 & -> & H1 & _). cbn [mbind result_bind].
  destruct (map_Insert_ok _ (NewBytesKey []) 8%nat H1) as (p2 & -> & H2 & _). cbn [mbind result_bind].
  destruct (map_Insert_ok _ (NewBytesKey [1; 2]) 9%nat H2) as (p3 & -> & H3 & _). by exists p3.
Qed.

Lemma hash_map_insert_witness :
  exists p p', sample = Ok p /\ Get p (NewBytesKey [1; 2]) = Ok (Some 9%nat) /\
    Insert p (NewBytesKey []) 5%nat = Ok (true, p') /\ Get p' (NewBytesKey []) = Ok (Some 5%nat).
Proof.
  destruct sample_map_ok as (p & Hs & Hp). exists p.
  destruct (hash_map_insert p (NewBytesKey []) (NewBytesKey []) 5%nat Hp) as (p' & before & after & Hi & _ & Hb & _ & _ & Ha & _).
  exists p'. vm_compute in Hs. injection Hs as <-. split; [vm_compute; reflexivity|]. split; [vm_compute; reflexivity|].
  vm_compute in Hb. injection Hb as <-. split; [exact Hi|]. rewrite Ha. reflexivity.
Defined.

Lemma hash_map_enumeration_witness :
  exists p l, sample = Ok p /\ fst <$> Iter.Collect (KeyValues (map snd (map_to_list (buckets p)))) = Ok l /\ length l = 2%nat.
Proof.
  destruct sample_map_ok as (p & Hs & Hp). exists p.
  destruct (hash_map_enumeration p (map snd (map_to_list (buckets p))) Hp (Permutation_refl _)) as (l & Hl & Hlen & _).
  exists l. split; [done|]. split; [done|]. rewrite Hlen. vm_compute in Hs. injection Hs as <-. vm_compute. reflexivity.
Defined.

End HashMapProperties.
