(* ===== verification/TermRegisters.v ===== *)
(** * The registers that terms access

    [RequiredRegisters] of [pkg/ir/term]: the sorted set of the registers of the
    accesses of a term, which the consistency checks of constraints look at. *)

From Stdlib Require Import ZArith Lia.
From stdpp Require Import base numbers list option strings sets.
From S2P Require Import Prelude SortedSet Element Trace Term TermFacts TermReads.

Open Scope Z_scope.

Section Registers.
Context {F : Type} `{!Element F}.
Implicit Types (e : Expr F) (l : Logical F).

(** [requiredRegistersOfTerms]; all sets are evaluated in order. *)
Definition registers_of_terms (args : list (result (list nat))) : result (list nat) :=
  sets ← mapM id args; UnionAnySortedSets 0%nat sets id.

Definition insert_registers (lhs rhs : result (list nat)) : result (list nat) :=
  s ← lhs; q ← rhs; InsertSorted 0%nat s q.

Definition RequiredRegisters_IfZero (cond tb fb : result (list nat)) : result (list nat) :=
  insert_registers (insert_registers cond tb) fb.

Definition RequiredRegisters_Ite (cond : result (list nat)) (tb fb : option (result (list nat))) : result (list nat) :=
  let set := match tb with Some t => insert_registers cond t | None => cond end in
  match fb with Some f => insert_registers set f | None => set end.

Fixpoint RequiredRegisters e {struct e} : result (list nat) :=
  match e with
  | Add args | Mul args | Sub args => registers_of_terms (map RequiredRegisters args)
  | Cast arg _ _ | Exp arg _ | Norm arg => RequiredRegisters arg
  | Constant _ | LabelledConst _ _ => Ok (NewAnySortedSet [])
  | IfZero cond tb fb =>
      RequiredRegisters_IfZero (RequiredRegisters_logical cond) (RequiredRegisters tb) (RequiredRegisters fb)
  | RegisterAccess a => Access.RequiredRegisters a
  | VectorAccess vars => registers_of_terms (map Access.RequiredRegisters vars)
  end
with RequiredRegisters_logical l {struct l} : result (list nat) :=
  match l with
  | Conjunct args | Disjunct args => registers_of_terms (map RequiredRegisters_logical args)
  | Equal lhs rhs | NotEqual lhs rhs => insert_registers (RequiredRegisters lhs) (RequiredRegisters rhs)
  | Ite cond tb fb =>
      RequiredRegisters_Ite (RequiredRegisters_logical cond) (option_map RequiredRegisters_logical tb)
        (option_map RequiredRegisters_logical fb)
  | Negate arg => RequiredRegisters_logical arg
  end.

(** ** What the sets contain *)

(** The registers of the accesses are used. *)
Abbreviation all_used al := (Forall (fun a => Access.IsDefined a = true) al).

Definition registers_read (al : list Access.t) (s : list nat) : Prop :=
  sorted s /\ forall r, r ∈ s <-> exists a, a ∈ al /\ Access.register a = Some r.

Definition registers_ok (al : list Access.t) (x : result (list nat)) : Prop := exists s, x = Ok s /\ registers_read al s.

Lemma registers_read_app al bl s q u :
  registers_read al s -> registers_read bl q -> sorted u -> (forall z, z ∈ u <-> z ∈ s \/ z ∈ q) ->
  registers_read (al ++ bl) u.
Proof. intros [_ Hs] [_ Hq] Hu Hz. split; [done|]. intros c. rewrite Hz, Hs, Hq. set_solver. Qed.

Lemma insert_ok al bl x y : registers_ok al x -> registers_ok bl y -> registers_ok (al ++ bl) (insert_registers x y).
Proof.
  intros (s & -> & Hs) (q & -> & Hq). unfold insert_registers. cbn.
  destruct (InsertSorted_spec 0%nat s q) as (u & -> & Hu & Hz); [apply Hs|apply Hq|].
  exists u. split; [done|]. by eapply registers_read_app.
Qed.

Lemma registers_nil : registers_ok [] (Ok (NewAnySortedSet [])).
Proof. exists []. split; [done|]. split; [constructor|]. set_solver. Qed.

Lemma registers_of_terms_ok {A} (f : A -> result (list nat)) (g : A -> list Access.t) xs :
  Forall (fun x => registers_ok (g x) (f x)) xs -> registers_ok (flat_map g xs) (registers_of_terms (map f xs)).
Proof.
  intros Hxs. unfold registers_of_terms.
  assert (exists sets, mapM id (map f xs) = Ok sets /\ Forall2 (fun x s => registers_read (g x) s) xs sets) as (sets & -> & Hsets).
  { induction Hxs as [|x xs (s & Hx & Hs) _ (sets & IH & Hsets)]; [by exists []|].
    exists (s :: sets). cbn. rewrite Hx. cbn. rewrite IH. cbn. split; [done | by constructor]. }
  cbn. clear Hxs. destruct Hsets as [|x s xs sets Hx Hsets]; [apply registers_nil|]. cbn [UnionAnySortedSets flat_map].
  revert s Hx. generalize (g x) as al. induction Hsets as [|y q xs sets Hy _ IH]; intros al s Hs; cbn.
  { exists s. by rewrite app_nil_r. }
  destruct (InsertSorted_spec 0%nat s q) as (u & Hu & Hsu & Hz); [apply Hs|apply Hy|].
  unfold id. rewrite Hu. rewrite app_assoc. apply IH. by eapply registers_read_app.
Qed.

Lemma access_registers a : Access.IsDefined a = true -> registers_ok [a] (Access.RequiredRegisters a).
Proof.
  unfold Access.IsDefined, Access.RequiredRegisters. destruct (Access.register a) as [r|] eqn:Hr; [|done]. intros _. cbn.
  eexists. split; [done|]. split; [by repeat constructor|]. intros c. rewrite list_elem_of_singleton. set_solver.
Qed.

Lemma RequiredRegisters_reads :
  (forall e, all_used (accesses e) -> registers_ok (accesses e) (RequiredRegisters e)) /\
  (forall l, all_used (accesses_logical l) -> registers_ok (accesses_logical l) (RequiredRegisters_logical l)).
Proof.
  apply term_induction. split; cbn; fold RequiredRegisters_logical RequiredRegisters;
    fold (@accesses_logical F) (@accesses F);
    unfold RequiredRegisters_IfZero, RequiredRegisters_Ite; try done.
  1,5,7,9,10: intros args IH Ha%Forall_flat_map_; by apply registers_of_terms_ok, (Forall_mp _ _ _ IH), all_Forall.
  - intros v _. apply registers_nil.
  - intros c t f Hc Ht Hf Ha. apply Forall_app in Ha as [Hca [Hta Hfa]%Forall_app].
    rewrite app_assoc. apply insert_ok; [apply insert_ok|]; auto.
  - intros _ v _. apply registers_nil.
  - intros a [Ha _]%Forall_cons. by apply access_registers.
  - intros vars Ha. rewrite <-(flat_map_single vars) at 1. apply registers_of_terms_ok.
    eapply Forall_impl; [exact Ha|]. intros a. apply access_registers.
  - intros lhs rhs Hl Hr [Hla Hra]%Forall_app. by apply insert_ok; [apply Hl | apply Hr].
  - intros c t f Hc Ht Hf Ha. apply Forall_app in Ha as [Hca [Hta Hfa]%Forall_app]. rewrite app_assoc.
    destruct t, f; cbn [option_map on_branch] in *; rewrite ?app_nil_r; auto using insert_ok.
  - intros lhs rhs Hl Hr [Hla Hra]%Forall_app. by apply insert_ok; [apply Hl | apply Hr].
Qed.

(** An access without a register panics. *)
Lemma mapM_id_ok {A B} (f : A -> result B) xs sets : mapM id (map f xs) = Ok sets -> Forall (fun x => exists s, f x = Ok s) xs.
Proof.
  revert sets. induction xs as [|x xs IH]; intros sets; cbn; [constructor|]. unfold id at 1. intros H. inv_ok.
  constructor; [by eexists|]. by eapply IH.
Qed.

Lemma registers_of_terms_used {A} (f : A -> result (list nat)) (g : A -> list Access.t) xs s :
  Forall (fun x => forall q, f x = Ok q -> all_used (g x)) xs -> registers_of_terms (map f xs) = Ok s ->
  all_used (flat_map g xs).
Proof.
  intros Hxs Hr. unfold registers_of_terms in Hr. inv_ok. apply mapM_id_ok in Ha. apply Forall_flat_map_.
  rewrite Forall_forall in Hxs, Ha |- *. intros x Hx. destruct (Ha x Hx) as [q Hq]. by eapply Hxs.
Qed.

Lemma insert_registers_used al bl x y s :
  (forall q, x = Ok q -> all_used al) -> (forall q, y = Ok q -> all_used bl) -> insert_registers x y = Ok s -> all_used (al ++ bl).
Proof. intros Hx Hy H. unfold insert_registers in H. inv_ok. apply Forall_app. eauto. Qed.

Lemma access_registers_used a s : Access.RequiredRegisters a = Ok s -> Access.IsDefined a = true.
Proof. unfold Access.RequiredRegisters, Access.IsDefined. by destruct (Access.register a). Qed.

Lemma RequiredRegisters_used :
  (forall e s, RequiredRegisters e = Ok s -> all_used (accesses e)) /\
  (forall l s, RequiredRegisters_logical l = Ok s -> all_used (accesses_logical l)).
Proof.
  apply (term_induction (fun e => forall s, RequiredRegisters e = Ok s -> all_used (accesses e))
    (fun l => forall s, RequiredRegisters_logical l = Ok s -> all_used (accesses_logical l))).
  split; cbn; fold RequiredRegisters_logical RequiredRegisters;
    fold (@accesses_logical F) (@accesses F); unfold RequiredRegisters_IfZero, RequiredRegisters_Ite;
    try (intros *; exact (fun H => H)).
  all: try match goal with |- forall _ : list _, Forall _ _ -> _ => intros args IH s Hs; eapply registers_of_terms_used; [exact IH|exact Hs] end.
  all: try (intros *; constructor; fail).
  all: try (intros arg ? H; exact H); try (intros arg ? ? H; exact H).
  - intros c t f Hc Ht Hf s Hs. rewrite app_assoc. eapply insert_registers_used; [|exact Hf|exact Hs].
    intros q Hq. eapply insert_registers_used; [exact Hc|exact Ht|exact Hq].
  - intros a s Hs. constructor; [by eapply access_registers_used|done].
  - intros vars s Hs. rewrite <-(flat_map_single vars). eapply registers_of_terms_used; [|exact Hs].
    apply Forall_true. intros a q Hq. constructor; [by eapply access_registers_used|done].
  - intros lhs rhs Hl Hr s. by apply insert_registers_used.
  - intros c t f Hc Ht Hf s Hs. rewrite app_assoc. destruct t as [t|], f as [f|]; cbn [option_map on_branch] in *; rewrite ?app_nil_r.
    + eapply insert_registers_used; [|exact Hf|exact Hs]. intros q. by apply insert_registers_used.
    + by eapply insert_registers_used; [exact Hc|exact Ht|].
    + by eapply insert_registers_used; [exact Hc|exact Hf|].
    + by eapply Hc.
  - intros lhs rhs Hl Hr s. by apply insert_registers_used.
Qed.

End Registers.
