(* ===== verification/Constraint.v ===== *)
(** * Constraints

    Models [pkg/schema/constraint]: vanishing, range, sorted, interleaving and
    permutation constraints, with their bounds and consistency checks, and whether
    they accept a trace.  Constraints are generic in the terms they are over, which
    are given by the classes [Evaluable] and [Testable]; the terms of [Term.v] are
    instances.  [Lookup.v] has the lookup constraints. *)

From Stdlib Require Import ZArith Lia.
From stdpp Require Import base numbers list option strings gmap pretty.
From S2P Require Import Prelude BitSet FieldElement Register SortedSet Element Trace Term TermFacts TermReads TermRegisters.

Open Scope Z_scope.

(** ** Terms as constraints see them *)

Class Evaluable (F E : Type) : Type := {
  eval_at : Z -> ArrayModule F -> E -> result F;
  eval_bounds : E -> Bounds.t;
  eval_registers : E -> result (list nat);
  eval_substitute : gmap string F -> E -> E
}.

(** A test has a branch identifier besides its outcome, also when it fails. *)
Class Testable (F T : Type) : Type := {
  test_at : Z -> ArrayModule F -> T -> result bool * nat;
  test_bounds : T -> Bounds.t;
  test_registers : T -> result (list nat);
  test_substitute : gmap string F -> T -> T
}.

#[export] Instance Expr_Evaluable {F} `{!Element F} : Evaluable F (Expr F) := {|
  eval_at := EvalAt;
  eval_bounds := Bounds_of;
  eval_registers := RequiredRegisters;
  eval_substitute := Substitute
|}.

(** Every logical term reports branch zero. *)
#[export] Instance Logical_Testable {F} `{!Element F} : Testable F (Logical F) := {|
  test_at k m l := (TestAt k m l, 0%nat);
  test_bounds := Bounds_logical;
  test_registers := RequiredRegisters_logical;
  test_substitute := Substitute_logical
|}.

(** [int(k)] for a [uint] *)
Definition to_int (k : Z) : Z := if k <? 2 ^ 63 then k else k - 2 ^ 64.

(** What an evaluation error becomes, and what a value does; panics go through. *)
Definition try_ {A B} (r : result A) (onerr : string -> result B) (k : A -> result B) : result B :=
  match r with Ok a => k a | Fault (Error msg) => onerr msg | Fault f => Fault f end.

(** ** Failures *)

Inductive Failure (E T : Type) : Type :=
  | InternalFailure (handle : string) (context : nat) (row : Z) (term : option (E + T)) (error : string)
  | VanishingFailure (Handle : string) (Constraint : T) (Context : nat) (Row : Z)
  | RangeFailure (Handle : string) (Context : nat) (Expr : E) (Bitwidth : Z) (Row : Z)
  | SortedFailure (Handle : string) (first second : Z)
  | InterleavingFailure (Handle : string) (TargetContext : nat) (Target : E) (SourceContext : nat) (Source : E) (Row : Z)
  | PermutationFailure (targets sources : string)
  | LookupFailure (Handle : string) (Context : nat) (Sources : list E) (Row : Z)
  | PanicFailure (message : string).
Arguments InternalFailure {E T}. Arguments VanishingFailure {E T}. Arguments RangeFailure {E T}.
Arguments SortedFailure {E T}. Arguments InterleavingFailure {E T}. Arguments PermutationFailure {E T}.
Arguments LookupFailure {E T}. Arguments PanicFailure {E T}.

(** ** Names and consistency *)

(** [ModuleName.String] *)
Definition ModuleName_String (p : ModuleName) : string :=
  if Multiplier p =? 1 then Name p else (Name p ++ "×" ++ pretty (Z.to_N (Multiplier p)))%string.

Definition QualifiedColumnName (module : ModuleName) (column : string) : string :=
  let name := ModuleName_String module in
  if decide (name = "") then column else (name ++ "." ++ column)%string.

(** What a schema shows of a module to the constraints *)
Record ModuleView : Type := mkView { view_name : ModuleName; view_width : nat }.

Section Checks.
Context {F : Type} `{!Element F}.

(** A trace: its modules *)
Abbreviation Trace := (list (ArrayModule F)).

Definition DetermineHandle (handle : string) (ctx : nat) (tr : Trace) : result string :=
  m ← Module_ tr ctx; Ok (QualifiedColumnName (name m) handle).

(** The errors of one term: a register out of range *)
Definition register_errors (md : ModuleView) (regs : list nat) : list (ModuleName * nat) :=
  map (fun reg => (view_name md, reg)) (filter (fun reg => (view_width md <= reg)%nat) regs).

Inductive consistency_error : Type :=
  | InvalidModule (module width : nat)
  | InvalidRegister (module : ModuleName) (reg : nat)
  | InconsistentWidths (sources bitwidths : nat).

(** [CheckConsistent]; the registers of each term are given. *)
Fixpoint check_terms (md : ModuleView) (terms : list (result (list nat))) : result (list consistency_error) :=
  match terms with
  | [] => Ok []
  | t :: rest =>
      regs ← t;
      errs ← check_terms md rest;
      Ok (map (fun '(n, r) => InvalidRegister n r) (register_errors md regs) ++ errs)
  end.

Definition CheckConsistent (module : nat) (sc : list ModuleView) (terms : list (result (list nat))) :
    result (list consistency_error) :=
  match sc !! module with
  | None => Ok [InvalidModule module (length sc)]
  | Some md => check_terms md terms
  end.

End Checks.

(** ** Vanishing constraints *)

Module Vanishing.
Section Vanishing.
Context {F E T : Type} `{!Element F, !Testable F T}.
Abbreviation Trace := (list (ArrayModule F)).
Abbreviation Failure := (Failure E T).

Record Constraint : Type := NewConstraint {
  Handle : string;
  Context_ : nat;
  Domain : option Z;
  Constraint_ : T
}.

Definition Consistent (p : Constraint) (sc : list ModuleView) : result (list consistency_error) :=
  CheckConsistent (Context_ p) sc [test_registers (Constraint_ p)].

Definition Contexts (p : Constraint) : list nat := [Context_ p].

Definition Bounds (p : Constraint) (module : nat) : Bounds.t :=
  if (Context_ p =? module)%nat then test_bounds (Constraint_ p) else Bounds.EMPTY_BOUND.

Definition HoldsLocally (k : Z) (handle : string) (term : T) (ctx : nat) (trMod : ArrayModule F) :
    result (option Failure * nat) :=
  let (r, id) := test_at (to_int k) trMod term in
  try_ r (fun msg => Ok (Some (InternalFailure handle ctx k (Some (inr term)) msg), id))
    (fun ok => Ok (if ok then None else Some (VanishingFailure handle term ctx k), id)).

(** The loop of [HoldsGlobally]: [n] rows are left. *)
Fixpoint holds_rows (n : nat) (k : Z) (handle : string) (ctx : nat) (constraint : T) (trMod : ArrayModule F)
    (coverage : Set_) : result (Set_ * option Failure) :=
  match n with
  | O => Ok (coverage, None)
  | S n =>
      '(err, id) ← HoldsLocally k handle constraint ctx trMod;
      match err with
      | Some f => Ok (coverage, Some f)
      | None => holds_rows n (k + 1) handle ctx constraint trMod (BitSet.Insert coverage id)
      end
  end.

Definition HoldsGlobally (handle : string) (ctx : nat) (constraint : T) (trMod : ArrayModule F) :
    result (Set_ * option Failure) :=
  let bounds := test_bounds constraint in
  if Bounds.End bounds <? height trMod then
    holds_rows (Z.to_nat (height trMod - Bounds.End bounds - Bounds.Start bounds)) (Bounds.Start bounds)
      handle ctx constraint trMod (mkSet [])
  else Ok (mkSet [], None).

Definition Accepts (p : Constraint) (tr : Trace) (sc : list ModuleView) : result (Set_ * option Failure) :=
  handle ← DetermineHandle (Handle p) (Context_ p) tr;
  trModule ← Module_ tr (Context_ p);
  scModule ← slice_get sc (Context_ p);
  match Domain p with
  | None => HoldsGlobally handle (Context_ p) (Constraint_ p) trModule
  | Some domain =>
      (* [height + uint(domain)] wraps around for a domain before the first row. *)
      let start := if domain <? 0 then u64 (height trModule + u64 domain) else domain in
      '(err, id) ← HoldsLocally start handle (Constraint_ p) (Context_ p) trModule;
      Ok (BitSet.Insert (mkSet []) id, err)
  end.

Definition Substitute (mapping : gmap string F) (p : Constraint) : Constraint :=
  NewConstraint (Handle p) (Context_ p) (Domain p) (test_substitute mapping (Constraint_ p)).

End Vanishing.
Arguments Constraint : clear implicits.
End Vanishing.

(** ** Range constraints *)

Module Ranged.
Section Ranged.
Context {F E T : Type} `{!Element F, !Evaluable F E}.
Abbreviation Trace := (list (ArrayModule F)).
Abbreviation Failure := (Failure E T).

Record Constraint : Type := NewConstraint {
  Handle : string;
  Context_ : nat;
  Sources : list E;
  Bitwidths : list Z
}.

Fixpoint check_sources (ctx : nat) (sc : list ModuleView) (sources : list E) : result (list consistency_error) :=
  match sources with
  | [] => Ok []
  | e :: rest => errs ← CheckConsistent ctx sc [eval_registers e]; errors ← check_sources ctx sc rest; Ok (errs ++ errors)
  end.

Definition Consistent (p : Constraint) (sc : list ModuleView) : result (list consistency_error) :=
  errors ← check_sources (Context_ p) sc (Sources p);
  Ok ((if (length (Bitwidths p) =? length (Sources p))%nat then []
       else [InconsistentWidths (length (Sources p)) (length (Bitwidths p))]) ++ errors).

Definition Contexts (p : Constraint) : list nat := [Context_ p].

Definition Bounds (p : Constraint) (module : nat) : Bounds.t :=
  if (module =? Context_ p)%nat
  then foldl (fun bound e => Bounds.Union bound (eval_bounds e)) (Bounds.NewBounds 0 0) (Sources p)
  else Bounds.NewBounds 0 0.

(** The loop over the rows: [n] rows are left. *)
Fixpoint accepts_rows (n : nat) (k : Z) (p : Constraint) (handle : string) (bound : F) (expr : E) (bitwidth : Z)
    (trModule : ArrayModule F) : result (option Failure) :=
  match n with
  | O => Ok None
  | S n =>
      try_ (eval_at k trModule expr) (fun msg => Ok (Some (InternalFailure (Handle p) (Context_ p) k (Some (inl expr)) msg)))
        (fun kth => match e_Cmp kth bound with
                    | Lt => accepts_rows n (k + 1) p handle bound expr bitwidth trModule
                    | _ => Ok (Some (RangeFailure handle (Context_ p) expr bitwidth k))
                    end)
  end.

(** [accepts] *)
Definition accepts_ (p : Constraint) (i : nat) (tr : Trace) (sc : list ModuleView) : result (option Failure) :=
  trModule ← Module_ tr (Context_ p);
  scModule ← slice_get sc (Context_ p);
  handle ← DetermineHandle (Handle p) (Context_ p) tr;
  expr ← slice_get (Sources p) i;
  bitwidth ← slice_get (Bitwidths p) i;
  accepts_rows (Z.to_nat (to_int (height trModule))) 0 p handle (TwoPowN bitwidth) expr bitwidth trModule.

(** [for i := range p.Sources]: [n] sources are left. *)
Fixpoint accepts_sources (n i : nat) (p : Constraint) (tr : Trace) (sc : list ModuleView) : result (option Failure) :=
  match n with
  | O => Ok None
  | S n => err ← accepts_ p i tr sc; match err with Some f => Ok (Some f) | None => accepts_sources n (S i) p tr sc end
  end.

Definition Accepts (p : Constraint) (tr : Trace) (sc : list ModuleView) : result (Set_ * option Failure) :=
  err ← accepts_sources (length (Sources p)) 0 p tr sc; Ok (mkSet [], err).

Definition Substitute (mapping : gmap string F) (p : Constraint) : Constraint :=
  NewConstraint (Handle p) (Context_ p) (map (eval_substitute mapping) (Sources p)) (Bitwidths p).

End Ranged.
Arguments Constraint : clear implicits.
End Ranged.

(** ** Sorted constraints *)

Module Sorted.
Section Sorted.
Context {F E T : Type} `{!Element F, !Evaluable F E}.
Abbreviation Trace := (list (ArrayModule F)).
Abbreviation Failure := (Failure E T).

Record Constraint : Type := NewConstraint {
  Handle : string;
  Context_ : nat;
  BitWidth : Z;
  Selector : option E;
  Sources : list E;
  Signs : list bool;
  Strict : bool
}.

Definition Contexts (p : Constraint) : list nat := [Context_ p].

Definition Bounds (p : Constraint) (module : nat) : Bounds.t :=
  if (module =? Context_ p)%nat
  then foldl (fun bound e => Bounds.Union bound (eval_bounds e)) (Bounds.NewBounds 0 0) (Sources p)
  else Bounds.NewBounds 0 0.

(** The values written to the buffer: one for each source *)
Definition evalExprsAt (k : Z) (sources : list E) (trMod : ArrayModule F) : result (list F) :=
  mapM (eval_at (to_int k) trMod) sources.

(** [for i := range signs]: the signs from the [i]th on. *)
Fixpoint compare_signs (bound : F) (lhs rhs : list F) (i : nat) (signs : list bool) (strict : bool) : result bool :=
  match signs with
  | [] => Ok (negb strict)
  | sign :: rest =>
      l ← slice_get lhs i;
      r ← slice_get rhs i;
      match e_Cmp l r with
      | Gt => Ok (is_lt (e_Cmp (e_Sub l r) bound) && negb sign)
      | Lt => Ok (is_lt (e_Cmp (e_Sub r l) bound) && sign)
      | Eq => compare_signs bound lhs rhs (S i) rest strict
      end
  end.

Definition sorted_ (first second : Z) (bound : F) (p : Constraint) (trMod : ArrayModule F) : result bool :=
  lhs ← evalExprsAt first (Sources p) trMod;
  rhs ← evalExprsAt second (Sources p) trMod;
  compare_signs bound lhs rhs 0 (Signs p) (Strict p).

(** Whether a row is checked *)
Definition selected (selector : option E) (k : Z) (trMod : ArrayModule F) : result bool :=
  match selector with
  | None => Ok true
  | Some s => v ← eval_at (to_int k) trMod s; Ok (negb (e_IsZero v))
  end.

(** The loop of [Accepts]: [n] rows are left. *)
Fixpoint accepts_rows (n : nat) (k : Z) (p : Constraint) (deltaBound : F) (trModule : ArrayModule F) : result (option Failure) :=
  match n with
  | O => Ok None
  | S n =>
      try_ (selected (Selector p) k trModule)
        (fun msg => Ok (Some (InternalFailure (Handle p) (Context_ p) k (option_map inl (Selector p)) msg)))
        (fun active =>
           if active : bool then
             try_ (sorted_ (k - 1) k deltaBound p trModule)
               (fun msg => Ok (Some (InternalFailure (Handle p) (Context_ p) k None msg)))
               (fun ok => if ok : bool then accepts_rows n (k + 1) p deltaBound trModule
                          else Ok (Some (SortedFailure (Handle p) (k - 1) k)))
           else accepts_rows n (k + 1) p deltaBound trModule)
  end.

Definition Accepts (p : Constraint) (tr : Trace) (sc : list ModuleView) : result (Set_ * option Failure) :=
  trModule ← Module_ tr (Context_ p);
  scModule ← slice_get sc (Context_ p);
  let height := height trModule in
  let bounds := Bounds p (Context_ p) in
  if Bounds.End bounds <? height then
    err ← accepts_rows (Z.to_nat (height - Bounds.End bounds - (Bounds.Start bounds + 1))) (Bounds.Start bounds + 1) p
      (TwoPowN (BitWidth p)) trModule;
    Ok (mkSet [], err)
  else Ok (mkSet [], None).

Definition Substitute (mapping : gmap string F) (p : Constraint) : Constraint :=
  NewConstraint (Handle p) (Context_ p) (BitWidth p) (option_map (eval_substitute mapping) (Selector p))
    (map (eval_substitute mapping) (Sources p)) (Signs p) (Strict p).

End Sorted.
Arguments Constraint : clear implicits.
End Sorted.

(** ** Interleaving constraints *)

Module Interleaving.
Section Interleaving.
Context {F E T : Type} `{!Element F, !Evaluable F E}.
Abbreviation Trace := (list (ArrayModule F)).
Abbreviation Failure := (Failure E T).

Record Constraint : Type := NewConstraint {
  Handle : string;
  TargetContext : nat;
  SourceContext : nat;
  Target : E;
  Sources : list E
}.

Definition Contexts (p : Constraint) : list nat := [TargetContext p; SourceContext p].

Definition Bounds (p : Constraint) (module : nat) : Bounds.t := Bounds.EMPTY_BOUND.

(** The checks of one row, after both sides have been evaluated *)
Definition check_row (p : Constraint) (row : Z) (src : nat) (source : E) (t s : result F) : result (option Failure) :=
  match t, s with
  | Fault (Error msg), (Ok _ | Fault (Error _)) =>
      Ok (Some (InternalFailure (Handle p) (TargetContext p) row (Some (inl (Target p))) msg))
  | Ok _, Fault (Error msg) =>
      Ok (Some (InternalFailure (Handle p) (SourceContext p) (row / Z.of_nat src) (Some (inl source)) msg))
  | Ok t, Ok s =>
      if negb (is_eq (e_Cmp t s))
      then Ok (Some (InterleavingFailure (Handle p) (TargetContext p) (Target p) (SourceContext p) source row))
      else Ok None
  | Fault (Error _), Fault f => Fault f
  | Fault f, _ => Fault f
  | Ok _, Fault f => Fault f
  end.

(** The loop over the target rows: [rows] are left. *)
Fixpoint accepts_rows (rows : nat) (row : Z) (p : Constraint) (tgtTrMod srcTrMod : ArrayModule F) : result (option Failure) :=
  match rows with
  | O => Ok None
  | S rows =>
      let n := length (Sources p) in
      let t := eval_at row tgtTrMod (Target p) in
      match t with
      | Fault (Panic msg) => Fault (Panic msg)
      | Fault OutOfFuel => Fault OutOfFuel
      | _ =>
          if (n =? 0)%nat then Fault (Panic "integer divide by zero")
          else
            source ← slice_get (Sources p) (Z.to_nat (row mod Z.of_nat n));
            err ← check_row p row n source t (eval_at (row / Z.of_nat n) srcTrMod source);
            match err with Some f => Ok (Some f) | None => accepts_rows rows (row + 1) p tgtTrMod srcTrMod end
      end
  end.

Definition Accepts (p : Constraint) (tr : Trace) (sc : list ModuleView) : result (Set_ * option Failure) :=
  srcTrMod ← Module_ tr (SourceContext p);
  tgtTrMod ← Module_ tr (TargetContext p);
  srcScMod ← slice_get sc (SourceContext p);
  tgtScMod ← slice_get sc (TargetContext p);
  err ← accepts_rows (Z.to_nat (to_int (height tgtTrMod))) 0 p tgtTrMod srcTrMod;
  Ok (mkSet [], err).

Definition Substitute (mapping : gmap string F) (p : Constraint) : Constraint :=
  NewConstraint (Handle p) (TargetContext p) (SourceContext p) (eval_substitute mapping (Target p))
    (map (eval_substitute mapping) (Sources p)).

End Interleaving.
Arguments Constraint : clear implicits.
End Interleaving.

(** ** Permutation constraints *)

Module Permutation.
Section Permutation.
Context {F E T : Type} `{!Element F}.
Abbreviation Trace := (list (ArrayModule F)).
Abbreviation Failure := (Failure E T).

Record Constraint : Type := mkConstraint {
  Handle : string;
  Context_ : nat;
  Targets : list ColumnId;
  Sources : list ColumnId
}.

Definition NewConstraint (handle : string) (context : nat) (targets sources : list ColumnId) : result Constraint :=
  if negb (length targets =? length sources)%nat
  then Fault (Panic "differeng number of target / source permutation columns")
  else Ok (mkConstraint handle context targets sources).

Definition Contexts (p : Constraint) : list nat := [Context_ p].

Definition Bounds (p : Constraint) (module : nat) : Bounds.t := Bounds.EMPTY_BOUND.

(** The contents of the columns; a column that has not been filled is nil. *)
Definition sliceColumns (columns : list ColumnId) (tr : ArrayModule F) : result (list (option (list F))) :=
  mapM (fun n => id ← Unwrap n; nth ← Column tr id; Ok (data nth)) columns.

Fixpoint column_names (first : bool) (columns : list ColumnId) (module : ArrayModule F) : result string :=
  match columns with
  | [] => Ok ""
  | c :: rest =>
      id ← Unwrap c;
      col ← Column module id;
      names ← column_names false rest module;
      Ok ((if first then "" else ",") ++ column_name col ++ names)%string
  end.

Definition qualifiedColumnNamesToCommaSeparatedString (columns : list ColumnId) (module : ArrayModule F) : result string :=
  column_names true columns module.

(** [elems[i].Get(row)] *)
Definition get_at (elem : option (list F)) (row : nat) : result F :=
  match elem with Some d => slice_get d row | None => Fault nil_panic end.

Definition len_of (elem : option (list F)) : result nat :=
  match elem with Some d => Ok (length d) | None => Fault nil_panic end.

Definition rangeOf (n : nat) : list nat := seq 0 n.

Fixpoint indexPermutationFunc (elems : list (option (list F))) (lhs rhs : nat) : result comparison :=
  match elems with
  | [] => Ok Eq
  | elem :: rest =>
      l ← get_at elem lhs;
      r ← get_at elem rhs;
      match e_Cmp l r with Eq => indexPermutationFunc rest lhs rhs | c => Ok c end
  end.

(** [slices.SortFunc] of the standard library, modelled by an insertion sort (which it
    is itself on short slices): the items before an item are looked at from the last
    on, and the items sorted so far are in reverse.  The order of items that compare
    as equal depends on the algorithm; the code uses only the rows at the indices
    sorted, which are equal for such items.  That the sort ends is the standard
    library's, and is not a claim made here. *)
Fixpoint insert_item (cmp : nat -> nat -> result comparison) (x : nat) (before : list nat) : result (list nat) :=
  match before with
  | [] => Ok [x]
  | y :: rest =>
      c ← cmp x y;
      match c with Lt => l ← insert_item cmp x rest; Ok (y :: l) | _ => Ok (x :: before) end
  end.

Fixpoint sort_items (cmp : nat -> nat -> result comparison) (before items : list nat) : result (list nat) :=
  match items with
  | [] => Ok (reverse before)
  | x :: rest => before ← insert_item cmp x before; sort_items cmp before rest
  end.

Definition SortFunc (items : list nat) (cmp : nat -> nat -> result comparison) : result (list nat) := sort_items cmp [] items.

(** [for j := range lhs_i.Len()]: [n] rows are left. *)
Fixpoint equals_rows (n j : nat) (lIndices rIndices : list nat) (lhs_i rhs_i : option (list F)) : result bool :=
  match n with
  | O => Ok true
  | S n =>
      li ← slice_get lIndices j;
      l ← get_at lhs_i li;
      ri ← slice_get rIndices j;
      r ← get_at rhs_i ri;
      if negb (is_eq (e_Cmp l r)) then Ok false else equals_rows n (S j) lIndices rIndices lhs_i rhs_i
  end.

(** [for i := range len(lhs)] *)
Fixpoint equals_columns (lIndices rIndices : list nat) (lhs rhs : list (option (list F))) : result bool :=
  match lhs, rhs with
  | lhs_i :: lhs, rhs_i :: rhs =>
      n ← len_of lhs_i;
      m ← len_of rhs_i;
      if negb (n =? m)%nat then Ok false
      else
        b ← equals_rows n 0 lIndices rIndices lhs_i rhs_i;
        if b : bool then equals_columns lIndices rIndices lhs rhs else Ok false
  | _, _ => Ok true
  end.

Definition equalsPermutation (lIndices rIndices : list nat) (lhs rhs : list (option (list F))) : result bool :=
  if negb (length lIndices =? length rIndices)%nat then Ok false
  else if negb (length lhs =? length rhs)%nat then Ok false
  else equals_columns lIndices rIndices lhs rhs.

Definition arePermutationOf (dst src : list (option (list F))) : result bool :=
  if negb (length dst =? length src)%nat then Ok false
  else
    dst0 ← slice_get dst 0;
    nrows ← len_of dst0;
    dstIndices ← SortFunc (rangeOf nrows) (indexPermutationFunc dst);
    srcIndices ← SortFunc (rangeOf nrows) (indexPermutationFunc src);
    equalsPermutation dstIndices srcIndices dst src.

Definition Accepts (p : Constraint) (tr : Trace) (sc : list ModuleView) : result (Set_ * option Failure) :=
  module ← Module_ tr (Context_ p);
  src ← sliceColumns (Sources p) module;
  dst ← sliceColumns (Targets p) module;
  b ← arePermutationOf dst src;
  if b : bool then Ok (mkSet [], None)
  else
    src_names ← qualifiedColumnNamesToCommaSeparatedString (Sources p) module;
    dst_names ← qualifiedColumnNamesToCommaSeparatedString (Targets p) module;
    Ok (mkSet [], Some (PermutationFailure dst_names src_names)).

End Permutation.
End Permutation.
