(* ===== verification/ConstraintFacts.v ===== *)
(** * What constraints accept

    For each constraint of [Constraint.v], acceptance of a trace is a statement about
    its rows; the failure reported is that of the first row which does not satisfy
    it.  The statements are proved against the interfaces [Evaluable] and
    [Testable], with the laws of [EvaluableLaws]. *)

From Stdlib Require Import ZArith Lia.
From stdpp Require Import base numbers list option strings gmap sorting.
From S2P Require Import Prelude BitSet FieldElement Register SortedSet Element Trace Term TermFacts TermReads TermRegisters Constraint.

Open Scope Z_scope.

(** ** Scans: loops over rows that stop at the first failure *)

Fixpoint scan {A} (f : Z -> result (option A)) (n : nat) (k : Z) : result (option A) :=
  match n with
  | O => Ok None
  | S n => r ← f k; match r with Some a => Ok (Some a) | None => scan f n (k + 1) end
  end.

Lemma scan_none {A} (f : Z -> result (option A)) n k :
  scan f n k = Ok None <-> forall j, k <= j < k + Z.of_nat n -> f j = Ok None.
Proof.
  revert k. induction n as [|n IH]; intros k; cbn; [split; [intros _ j Hj; lia|done]|].
  split.
  - intros H j Hj. destruct (f k) as [[a|]|] eqn:Hf; try done. cbn in H. rewrite IH in H.
    destruct (decide (j = k)) as [->|]; [done|]. apply H. lia.
  - intros H. rewrite (H k) by lia. cbn. apply IH. intros j Hj. apply H. lia.
Qed.

(** Row [j] is the first that fails. *)
Definition first_at {A} (f : Z -> result (option A)) (n : nat) (k j : Z) (a : A) : Prop :=
  k <= j < k + Z.of_nat n /\ f j = Ok (Some a) /\ forall i, k <= i < j -> f i = Ok None.

Lemma scan_some {A} (f : Z -> result (option A)) n k a :
  scan f n k = Ok (Some a) <-> exists j, first_at f n k j a.
Proof.
  revert k. induction n as [|n IH]; intros k; cbn.
  { split; [done|]. intros (j & Hj & _). cbn in Hj. lia. }
  split.
  - intros H. destruct (f k) as [[b|]|] eqn:Hf; try done; cbn in H.
    + injection H as ->. exists k. split_and!; [lia|lia|done|intros; lia].
    + apply IH in H as (j & Hj & Hfj & Hb). exists j. split_and!; [lia|lia|done|].
      intros i Hi. destruct (decide (i = k)) as [->|]; [done|]. apply Hb. lia.
  - intros (j & Hj & Hfj & Hb). destruct (decide (j = k)) as [->|]; [by rewrite Hfj|].
    rewrite (Hb k) by lia. cbn. apply IH. exists j. split_and!; [lia|lia|done|]. intros i Hi. apply Hb. lia.
Qed.

(** A scan whose rows never panic ends. *)
Lemma scan_total {A} (f : Z -> result (option A)) n k :
  (forall j, k <= j < k + Z.of_nat n -> exists r, f j = Ok r) -> exists r, scan f n k = Ok r.
Proof.
  revert k. induction n as [|n IH]; intros k H; cbn; [by eexists|].
  destruct (H k) as [[a|] ->]; [lia|by eexists|]. cbn. apply IH. intros j Hj. apply H. lia.
Qed.

Lemma scan_ext {A} (f g : Z -> result (option A)) n k :
  (forall j, k <= j < k + Z.of_nat n -> f j = g j) -> scan f n k = scan g n k.
Proof.
  revert k. induction n as [|n IH]; intros k H; cbn; [done|]. rewrite (H k) by lia.
  destruct (g k) as [[a|]|]; [done| |done]. cbn. apply IH. intros j Hj. apply H. lia.
Qed.

(** ** Integers of the machine *)

Lemma to_int_small k : 0 <= k < 2 ^ 63 -> to_int k = k.
Proof. intros Hk. unfold to_int. destruct (Z.ltb_spec k (2 ^ 63)); [done|lia]. Qed.

(** Converting back and forth keeps the row that a negative domain means. *)
Lemma to_int_wrap x : - 2 ^ 63 <= x < 2 ^ 63 -> to_int (u64 x) = x.
Proof.
  intros Hx. unfold to_int, u64, wrap. destruct (Z.ltb_spec x 0).
  - replace (x mod 2 ^ 64) with (x + 2 ^ 64) by (apply (Z.mod_unique x (2 ^ 64) (-1)); lia).
    destruct (Z.ltb_spec (x + 2 ^ 64) (2 ^ 63)); lia.
  - rewrite Z.mod_small by lia. destruct (Z.ltb_spec x (2 ^ 63)); lia.
Qed.

Lemma u64_add_wrap a b : u64 (a + u64 b) = u64 (a + b).
Proof. unfold u64, wrap. by rewrite Zplus_mod_idemp_r. Qed.

(** ** Vanishing constraints *)

Module VanishingFacts.
Import Vanishing.

Section Facts.
Context {F E T : Type} `{!Element F, !Testable F T}.
Implicit Types (p : Constraint T) (tr : list (ArrayModule F)) (m : ArrayModule F) (t : T).

Definition check (handle : string) (ctx : nat) t m (k : Z) : result (option (Failure E T)) :=
  fst <$> HoldsLocally k handle t ctx m.

Lemma HoldsLocally_id k handle t ctx m r :
  HoldsLocally (E := E) k handle t ctx m = Ok r -> snd r = snd (test_at (to_int k) m t).
Proof. unfold HoldsLocally, try_. destruct (test_at _ m t) as [[b|[]] id]; cbn; by intros [= <-]. Qed.

(** The loop over the rows is a scan; the coverage has the branches of the rows
    that passed. *)
Lemma holds_rows_scan n k handle ctx t m cov :
  snd <$> holds_rows (E := E) n k handle ctx t m cov = scan (check handle ctx t m) n k /\
  forall cov' f, holds_rows (E := E) n k handle ctx t m cov = Ok (cov', f) ->
    forall id, BitSet.Contains cov' id = true <->
      BitSet.Contains cov id = true \/ exists j, k <= j < k + Z.of_nat n /\ (forall i, k <= i <= j -> check handle ctx t m i = Ok None)
                                   /\ id = snd (test_at (to_int j) m t).
Proof.
  revert k cov. induction n as [|n IH]; intros k cov; cbn [holds_rows scan].
  { split; [done|]. intros cov' f [= <- <-] id. split; [by left|]. intros [|(j & Hj & _)]; [done|lia]. }
  assert (Hck : check handle ctx t m k = fst <$> HoldsLocally (E := E) k handle t ctx m) by done.
  destruct (HoldsLocally k handle t ctx m) as [[err id0]|] eqn:Hl; cbn in Hck; rewrite Hck; [|by split].
  assert (Hid := HoldsLocally_id _ _ _ _ _ _ Hl). cbn [mbind result_bind fmap result_fmap fst snd] in *. subst id0.
  destruct err as [f0|].
  { split; [done|]. intros cov' f [= <- <-] id. split; [by left|]. intros [|(j & Hj & Hb & _)]; [done|].
    specialize (Hb k). rewrite Hck in Hb. discriminate Hb. lia. }
  destruct (IH (k + 1) (BitSet.Insert cov (snd (test_at (to_int k) m t)))) as [-> Hcov]. split; [done|].
  intros cov' f Hr id. rewrite (Hcov cov' f Hr id), BitSet.Insert_Contains, orb_true_iff, bool_decide_eq_true. split.
  - intros [[->|Hc]|(j & Hj & Hb & ->)].
    + right. exists k. split; [lia|]. split; [|done]. intros i Hi. by replace i with k by lia.
    + by left.
    + right. exists j. split; [lia|]. split; [|done]. intros i Hi. destruct (decide (i = k)) as [->|]; [done|]. apply Hb. lia.
  - intros [Hc|(j & Hj & Hb & ->)]; [by left; right|]. destruct (decide (j = k)) as [->|]; [by left; left|].
    right. exists j. split; [lia|]. split; [|done]. intros i Hi. apply Hb. lia.
Qed.

Lemma check_none handle ctx t m k : check handle ctx t m k = Ok None <-> fst (test_at (to_int k) m t) = Ok true.
Proof.
  unfold check, HoldsLocally, try_. destruct (test_at _ m t) as [[[]|[]] id]; cbn; split; congruence.
Qed.

(** The rows that a constraint is checked on: a negative domain counts from the end. *)
Definition checked p m (k : Z) : Prop :=
  match Domain p with
  | None => Bounds.Start (test_bounds (Constraint_ p)) <= k < height m - Bounds.End (test_bounds (Constraint_ p))
  | Some d => k = if d <? 0 then height m + d else d
  end.

(** Heights, bounds and domains are far from the limits of the machine integers. *)
Definition sane p m : Prop :=
  0 <= height m < 2 ^ 62 /\ 0 <= Bounds.Start (test_bounds (Constraint_ p)) /\ 0 <= Bounds.End (test_bounds (Constraint_ p)) /\
  match Domain p with Some d => - 2 ^ 62 <= d < 2 ^ 62 | None => True end.

(** The failure of a row that is tested to be false or cannot be evaluated *)
Definition failure_at handle p m (k : Z) : option (Failure E T) :=
  match fst (test_at k m (Constraint_ p)) with
  | Ok false => Some (VanishingFailure handle (Constraint_ p) (Context_ p) (u64 k))
  | Fault (Error msg) => Some (InternalFailure handle (Context_ p) (u64 k) (Some (inr (Constraint_ p))) msg)
  | _ => None
  end.

Lemma check_some handle p m k f : - 2 ^ 63 <= k < 2 ^ 63 ->
  check handle (Context_ p) (Constraint_ p) m (u64 k) = Ok (Some f) <-> failure_at handle p m k = Some f.
Proof.
  intros Hk. unfold check, HoldsLocally, failure_at, try_. rewrite to_int_wrap by done.
  destruct (test_at k m (Constraint_ p)) as [[[]|[]] id]; cbn; split; congruence.
Qed.

(** The scan that [Accepts] makes *)
Definition scanned p m : Z * nat :=
  match Domain p with
  | None =>
      let b := test_bounds (Constraint_ p) in
      if Bounds.End b <? height m then (Bounds.Start b, Z.to_nat (height m - Bounds.End b - Bounds.Start b)) else (0, 0%nat)
  | Some d => (if d <? 0 then u64 (height m + u64 d) else d, 1%nat)
  end.

Lemma scanned_checked p m : sane p m ->
  (forall j, fst (scanned p m) <= j < fst (scanned p m) + Z.of_nat (snd (scanned p m)) <-> exists k, checked p m k /\ j = u64 k) /\
  (forall k, checked p m k -> - 2 ^ 63 <= k < 2 ^ 63) /\
  (forall k i, checked p m k -> checked p m i -> i < k -> u64 i < u64 k).
Proof.
  intros (Hh & Hs & He & Hd). unfold scanned, checked in *. destruct (Domain p) as [d|]; cbn.
  - split; [|split; [|lia]].
    + assert (Hu : forall x y, x = y -> (forall j, x <= j < x + 1 <-> exists k, k = (if d <? 0 then height m + d else d) /\ j = u64 k) <->
                                        y = u64 (if d <? 0 then height m + d else d)).
      { intros x y <-. split.
        - intros Hj. destruct (Hj x) as [H _]. destruct H as (k & -> & ->); [lia|done].
        - intros Hx j. split; [intros Hj; eexists; split; [done|lia]|]. intros (k & -> & ->). lia. }
      apply (Hu _ _ eq_refl). destruct (Z.ltb_spec d 0); [by rewrite u64_add_wrap|]. by rewrite u64_small by lia.
    + intros k ->. destruct (Z.ltb_spec d 0); lia.
  - destruct (Z.ltb_spec (Bounds.End (test_bounds (Constraint_ p))) (height m)); cbn.
    + split; [|split; [lia|intros; rewrite !u64_small by lia; lia]]. intros j. split.
      * intros Hj. exists j. rewrite u64_small by lia. lia.
      * intros (k & Hk & ->). rewrite u64_small by lia. lia.
    + split; [|split; lia]. intros j. split; [lia|]. intros (k & Hk & _). lia.
Qed.

Lemma Accepts_scan p tr sc m v :
  Module_ tr (Context_ p) = Ok m -> slice_get sc (Context_ p) = Ok v ->
  let handle := QualifiedColumnName (name m) (Handle p) in
  snd <$> Accepts p tr sc = scan (check handle (Context_ p) (Constraint_ p) m) (snd (scanned p m)) (fst (scanned p m)).
Proof.
  intros Hm Hv handle. unfold Accepts, DetermineHandle. rewrite Hm, Hv. cbn [mbind result_bind]. unfold scanned.
  destruct (Domain p) as [d|]; cbn [fst snd].
  - unfold check. cbn [scan]. fold handle. by destruct (HoldsLocally _ _ _ _ _) as [[[f|] id]|].
  - unfold HoldsGlobally. destruct (_ <? _); [|done]. cbn [fst snd]. apply holds_rows_scan.
Qed.

Lemma Accepts_coverage p tr sc m v cov :
  Module_ tr (Context_ p) = Ok m -> slice_get sc (Context_ p) = Ok v -> sane p m ->
  Accepts (E := E) p tr sc = Ok (cov, None) ->
  forall id, BitSet.Contains cov id = true <-> exists k, checked p m k /\ id = snd (test_at k m (Constraint_ p)).
Proof.
  intros Hm Hv Hs Ha id. assert (Hscan := Accepts_scan p tr sc m v Hm Hv). rewrite Ha in Hscan. cbn in Hscan.
  symmetry in Hscan. rewrite scan_none in Hscan. destruct (scanned_checked p m Hs) as (Hrows & Hrange & _).
  unfold Accepts, DetermineHandle in Ha. rewrite Hm, Hv in Ha. cbn [mbind result_bind] in Ha. unfold scanned in *.
  destruct (Domain p) as [d|] eqn:Hd; cbn [fst snd] in *.
  - destruct (HoldsLocally _ _ _ _ _) as [[f id0]|] eqn:Hl; [|done]. cbn in Ha. injection Ha as <- ->.
    apply HoldsLocally_id in Hl. cbn in Hl. rewrite BitSet.Insert_Contains, orb_false_r, bool_decide_eq_true.
    rewrite Hl. destruct (proj1 (Hrows _) (conj (Z.le_refl _) (Z.lt_succ_diag_r _))) as (k & Hk & Hu).
    rewrite Hu, to_int_wrap by by apply Hrange. split; [intros ->; by exists k|].
    intros (k' & Hk' & ->). unfold checked in Hk, Hk'. rewrite Hd in Hk, Hk'. by subst.
  - unfold HoldsGlobally in Ha. destruct (Z.ltb_spec (Bounds.End (test_bounds (Constraint_ p))) (height m)); cbn [fst snd] in *.
    + destruct (holds_rows_scan (Z.to_nat (height m - Bounds.End (test_bounds (Constraint_ p)) - Bounds.Start (test_bounds (Constraint_ p))))
        (Bounds.Start (test_bounds (Constraint_ p))) (QualifiedColumnName (name m) (Handle p)) (Context_ p) (Constraint_ p) m (mkSet []))
        as [_ Hcov]. rewrite (Hcov _ _ Ha id). split.
      * intros [|(j & Hj & _ & ->)]; [done|]. apply Hrows in Hj as (k & Hk & ->). exists k. split; [done|].
        by rewrite to_int_wrap by by apply Hrange.
      * intros (k & Hk & ->). right. exists (u64 k). destruct (proj2 (Hrows (u64 k))) as [Hk1 Hk2]; [by exists k|].
        split; [done|]. split; [intros i Hi; apply Hscan; lia|]. by rewrite to_int_wrap by by apply Hrange.
    + injection Ha as <-. split; [done|]. intros (k & Hk & _). unfold checked in Hk. rewrite Hd in Hk. destruct Hs as (? & ? & ? & _). lia.
Qed.

Lemma Accepts_returns p tr sc r :
  (exists cov, Accepts (E := E) p tr sc = Ok (cov, r)) <-> snd <$> Accepts (E := E) p tr sc = Ok r.
Proof.
  destruct (Accepts p tr sc) as [[c o]|]; cbn; split; [by intros (? & [= <- <-])|by intros [= <-]; eexists|by intros (? & ?)|done].
Qed.

Lemma check_checked handle p m k : sane p m -> checked p m k ->
  check handle (Context_ p) (Constraint_ p) m (u64 k) = Ok None <-> fst (test_at k m (Constraint_ p)) = Ok true.
Proof.
  intros Hs Hk. destruct (scanned_checked p m Hs) as (_ & Hrange & _). by rewrite check_none, to_int_wrap by by apply Hrange.
Qed.

Lemma Accepts_none p tr sc m v :
  Module_ tr (Context_ p) = Ok m -> slice_get sc (Context_ p) = Ok v -> sane p m ->
  (exists cov, Accepts (E := E) p tr sc = Ok (cov, None)) <-> forall k, checked p m k -> fst (test_at k m (Constraint_ p)) = Ok true.
Proof.
  intros Hm Hv Hs. rewrite Accepts_returns, (Accepts_scan p tr sc m v Hm Hv), scan_none.
  destruct (scanned_checked p m Hs) as (Hrows & _). split; intros H.
  - intros k Hk. apply (check_checked (QualifiedColumnName (name m) (Handle p))); [done|done|]. apply H, Hrows. by exists k.
  - intros j Hj. apply Hrows in Hj as (k & Hk & ->). apply check_checked; auto.
Qed.

(** Without panics on the rows, the check returns. *)
Lemma Accepts_total p tr sc m v :
  Module_ tr (Context_ p) = Ok m -> slice_get sc (Context_ p) = Ok v -> sane p m ->
  (forall k, checked p m k -> (exists b, fst (test_at k m (Constraint_ p)) = Ok b) \/
     exists msg, fst (test_at k m (Constraint_ p)) = Fault (Error msg)) ->
  exists r, Accepts (E := E) p tr sc = Ok r.
Proof.
  intros Hm Hv Hs Ht. assert (Hscan := Accepts_scan p tr sc m v Hm Hv). cbn in Hscan.
  destruct (scan_total (check (QualifiedColumnName (name m) (Handle p)) (Context_ p) (Constraint_ p) m)
    (snd (scanned p m)) (fst (scanned p m))) as [r Hr].
  - destruct (scanned_checked p m Hs) as (Hrows & Hrange & _). intros j Hj. apply Hrows in Hj as (k & Hk & ->).
    unfold check, HoldsLocally, try_. rewrite to_int_wrap by by apply Hrange. specialize (Ht k Hk).
    destruct (test_at k m (Constraint_ p)) as [o id]. cbn in Ht. destruct Ht as [[b ->]|[msg ->]]; by eexists.
  - rewrite Hr in Hscan. destruct (Accepts p tr sc) as [r'|]; [by exists r'|done].
Qed.

End Facts.
End VanishingFacts.

(** ** Laws of the evaluable terms *)

Class EvaluableLaws (F E : Type) `{!Element F, !ElementLaws F, !Evaluable F E} : Type := {
  eval_wf : E -> Prop;
  eval_ok k m e v : module_wf m -> eval_wf e -> eval_at k m e = Ok v -> element_ok v
}.

#[export, program] Instance Expr_laws {F} `{!Element F, !ElementLaws F} : EvaluableLaws F (Expr F) := {|
  eval_wf := expr_wf
|}.
Next Obligation.
  intros F ?? k m e v Hm He Hv. destruct (eval_denotes k m Hm) as [H _]. apply (H e v He Hv).
Qed.

(** A value on a row, or the failure that an error becomes *)
Lemma try_none {A B} (r : result A) (onerr : string -> result (option B)) (k : A -> result (option B)) :
  (forall msg, onerr msg <> Ok None) -> try_ r onerr k = Ok None <-> exists a, r = Ok a /\ k a = Ok None.
Proof.
  intros He. unfold try_. destruct r as [a|[msg|msg|]].
  - split; [intros H; by exists a|]. by intros (b & [= <-] & H).
  - split; [intros H; by apply He in H|]. by intros (b & [=] & _).
  - split; [done|]. by intros (b & [=] & _).
  - split; [done|]. by intros (b & [=] & _).
Qed.

(** ** Range constraints *)

Module RangedFacts.
Import Ranged.

Section Facts.
Context {F E T : Type} `{!Element F, !Evaluable F E}.
Implicit Types (p : Constraint E) (tr : list (ArrayModule F)) (m : ArrayModule F) (e : E).

Definition check p (handle : string) (bound : F) e (bitwidth : Z) m (k : Z) : result (option (Failure E T)) :=
  try_ (eval_at k m e) (fun msg => Ok (Some (InternalFailure (Handle p) (Context_ p) k (Some (inl e)) msg)))
    (fun kth => match e_Cmp kth bound with Lt => Ok None | _ => Ok (Some (RangeFailure handle (Context_ p) e bitwidth k)) end).

Lemma ranged_accepts_rows_scan n k p handle bound e bw m :
  accepts_rows n k p handle bound e bw m = scan (check p handle bound e bw m) n k.
Proof.
  revert k. induction n as [|n IH]; intros k; [done|]. cbn [accepts_rows scan]. rewrite IH.
  generalize (scan (check p handle bound e bw m) n (k + 1)) as rest. intros rest. unfold check, try_.
  destruct (eval_at k m e) as [x|[]]; cbn; [|done..]. by destruct (e_Cmp x bound).
Qed.

Lemma ranged_check_none p handle bound e bw m k :
  check p handle bound e bw m k = Ok None <-> exists x, eval_at k m e = Ok x /\ e_Cmp x bound = Lt.
Proof.
  unfold check. rewrite try_none by done. split; intros (x & Hx & H); exists x; (split; [done|]); [|by rewrite H].
  by destruct (e_Cmp x bound).
Qed.

Lemma accepts_sources_none n i p tr sc :
  accepts_sources (T := T) n i p tr sc = Ok None <-> forall j, (i <= j < i + n)%nat -> accepts_ (T := T) p j tr sc = Ok None.
Proof.
  revert i. induction n as [|n IH]; intros i; cbn; [split; [intros _ j Hj; lia|done]|]. split.
  - intros H j Hj. destruct (accepts_ p i tr sc) as [[f|]|] eqn:Ha; try done. cbn in H. rewrite IH in H.
    destruct (decide (j = i)) as [->|]; [done|]. apply H. lia.
  - intros H. rewrite (H i) by lia. cbn. apply IH. intros j Hj. apply H. lia.
Qed.

Lemma accepts_sources_some n i p tr sc f :
  accepts_sources (T := T) n i p tr sc = Ok (Some f) <->
  exists j, (i <= j < i + n)%nat /\ accepts_ (T := T) p j tr sc = Ok (Some f) /\
    forall j', (i <= j' < j)%nat -> accepts_ (T := T) p j' tr sc = Ok None.
Proof.
  revert i. induction n as [|n IH]; intros i; cbn; [split; [done|intros (j & Hj & _); lia]|]. split.
  - intros H. destruct (accepts_ p i tr sc) as [[g|]|] eqn:Ha; try done; cbn in H.
    + injection H as ->. exists i. split_and!; [lia|lia|done|intros; lia].
    + apply IH in H as (j & Hj & Hf & Hb). exists j. split_and!; [lia|lia|done|]. intros j' Hj'.
      destruct (decide (j' = i)) as [->|]; [done|]. apply Hb. lia.
  - intros (j & Hj & Hf & Hb). destruct (decide (j = i)) as [->|]; [by rewrite Hf|]. rewrite (Hb i) by lia. cbn.
    apply IH. exists j. split_and!; [lia|lia|done|]. intros j' Hj'. apply Hb. lia.
Qed.

(** One source: a scan of the rows of the module *)
Lemma accepts_scan p tr sc m v i e bw : Module_ tr (Context_ p) = Ok m -> slice_get sc (Context_ p) = Ok v ->
  Sources p !! i = Some e -> Bitwidths p !! i = Some bw -> 0 <= height m < 2 ^ 63 ->
  accepts_ (T := T) p i tr sc
  = scan (check p (QualifiedColumnName (name m) (Handle p)) (TwoPowN bw) e bw m) (Z.to_nat (height m)) 0.
Proof.
  intros Hm Hv He Hb Hh. unfold accepts_, DetermineHandle. rewrite Hm, Hv. cbn.
  rewrite (proj2 (slice_get_ok _ _ _) He), (proj2 (slice_get_ok _ _ _) Hb). cbn.
  by rewrite to_int_small, ranged_accepts_rows_scan.
Qed.

End Facts.
End RangedFacts.

(** ** Sorted constraints *)

Module SortedFacts.
Import Sorted.

(** The values on two rows are in order: they differ first in a column whose sign
    gives the direction, by less than the bound, or not at all. *)
Fixpoint lex_ok (bound : Z) (ls rs : list Z) (signs : list bool) (strict : bool) {struct signs} : Prop :=
  match signs, ls, rs with
  | [], _, _ => strict = false
  | s :: signs, l :: ls, r :: rs =>
      (l = r /\ lex_ok bound ls rs signs strict) \/ (s = true /\ l < r < l + bound) \/ (s = false /\ r < l < r + bound)
  | _ :: _, _, _ => False
  end.

Section Facts.
Context {F E T : Type} `{!Element F, !Evaluable F E}.
Implicit Types (p : Constraint E) (tr : list (ArrayModule F)) (m : ArrayModule F) (e : E).

Definition check p (deltaBound : F) m (k : Z) : result (option (Failure E T)) :=
  try_ (selected (Selector p) k m)
    (fun msg => Ok (Some (InternalFailure (Handle p) (Context_ p) k (option_map inl (Selector p)) msg)))
    (fun active =>
       if active : bool then
         try_ (sorted_ (k - 1) k deltaBound p m) (fun msg => Ok (Some (InternalFailure (Handle p) (Context_ p) k None msg)))
           (fun ok => if ok : bool then Ok None else Ok (Some (SortedFailure (Handle p) (k - 1) k)))
       else Ok None).

Lemma sorted_accepts_rows_scan n k p bound m : accepts_rows n k p bound m = scan (check p bound m) n k.
Proof.
  revert k. induction n as [|n IH]; intros k; [done|]. cbn [accepts_rows scan]. rewrite IH.
  generalize (scan (check p bound m) n (k + 1)) as rest. intros rest. unfold check, try_.
  destruct (selected _ k m) as [[]|[]]; cbn; [|done..]. by destruct (sorted_ _ _ _ _ _) as [[]|[]].
Qed.

Lemma sorted_check_none p bound m k :
  check p bound m k = Ok None <->
  selected (Selector p) k m = Ok false \/ (selected (Selector p) k m = Ok true /\ sorted_ (k - 1) k bound p m = Ok true).
Proof.
  unfold check. rewrite try_none by done. split.
  - intros ([] & Hs & H); [|by left]. right. split; [done|]. rewrite try_none in H by done. by destruct H as ([] & Hb & H).
  - intros [Hs|[Hs Hb]]; [by exists false|]. exists true. split; [done|]. apply try_none; [done|]. by exists true.
Qed.

Context `{!ElementLaws F}.

Lemma compare_signs_ok bound ls rs i signs strict :
  element_ok bound -> Forall element_ok ls -> Forall element_ok rs ->
  compare_signs bound ls rs i signs strict = Ok true <-> lex_ok (val bound) (val <$> drop i ls) (val <$> drop i rs) signs strict.
Proof.
  intros Hb Hls Hrs. revert i. induction signs as [|s signs IH]; intros i; cbn [compare_signs lex_ok].
  { split; [intros [= H]; by destruct strict | by intros ->]. }
  unfold slice_get. destruct (ls !! i) as [l|] eqn:Hl; cbn [mbind result_bind].
  2: { rewrite (drop_ge ls) by by apply lookup_ge_None_1. cbn. by split. }
  rewrite (drop_S _ _ _ Hl). cbn [fmap list_fmap]. destruct (rs !! i) as [r|] eqn:Hr; cbn [mbind result_bind].
  2: { rewrite (drop_ge rs) by by apply lookup_ge_None_1. cbn. by split. }
  rewrite (drop_S _ _ _ Hr). cbn [fmap list_fmap].
  assert (Hlo := Forall_lookup_1 _ _ _ _ Hls Hl). assert (Hro := Forall_lookup_1 _ _ _ _ Hrs Hr).
  assert (Hlv := val_range l Hlo). assert (Hrv := val_range r Hro).
  destruct (sub_law l r Hlo Hro) as [Hs1 Hv1], (sub_law r l Hro Hlo) as [Hs2 Hv2].
  rewrite cmp_law by done. destruct (Z.compare_spec (val l) (val r)) as [Heq|Hlt|Hgt].
  - rewrite IH. split; [intros H; by left|]. intros [[_ H]|[[_ H]|[_ H]]]; [done|lia|lia].
  - rewrite cmp_law, Hv2, Z.mod_small by (done || lia). split.
    + intros [= [Hd ->]%andb_true_iff]. right; left. split; [done|]. unfold is_lt in Hd.
      destruct (Z.compare_spec (val r - val l) (val bound)); try done. lia.
    + intros [[H _]|[[-> H]|[_ H]]]; [lia| |lia]. rewrite (proj2 (Z.compare_lt_iff _ _)) by lia. done.
  - rewrite cmp_law, Hv1, Z.mod_small by (done || lia). split.
    + intros [= [Hd Hs]%andb_true_iff]. right; right. split; [by destruct s|]. unfold is_lt in Hd.
      destruct (Z.compare_spec (val l - val r) (val bound)); try done. lia.
    + intros [[H _]|[[_ H]|[-> H]]]; [lia|lia|]. rewrite (proj2 (Z.compare_lt_iff _ _)) by lia. done.
Qed.

Lemma mapM_element_ok `{!EvaluableLaws F E} k m (es : list E) vs :
  module_wf m -> Forall eval_wf es -> mapM (eval_at k m) es = Ok vs -> Forall element_ok vs.
Proof.
  intros Hm. revert vs. induction es as [|e es IH]; intros vs Hes; cbn; [by intros [= <-]|].
  apply Forall_cons in Hes as [He Hes]. intros H. inv_ok. subst. constructor; [by eapply eval_ok|by apply IH].
Qed.

Lemma sorted_ok `{!EvaluableLaws F E} first second bound p m :
  0 <= first < 2 ^ 63 -> 0 <= second < 2 ^ 63 -> element_ok bound -> module_wf m -> Forall eval_wf (Sources p) ->
  sorted_ first second bound p m = Ok true <->
  exists ls rs, mapM (eval_at first m) (Sources p) = Ok ls /\ mapM (eval_at second m) (Sources p) = Ok rs /\
    lex_ok (val bound) (val <$> ls) (val <$> rs) (Signs p) (Strict p).
Proof.
  intros Hf Hs Hb Hm Hw. unfold sorted_, evalExprsAt. rewrite !to_int_small by done. split.
  - intros H. inv_ok. rewrite compare_signs_ok, !drop_0 in H by (done || by eapply mapM_element_ok). eauto.
  - intros (ls & rs & Hl & Hr & H). rewrite Hl, Hr. cbn.
    rewrite compare_signs_ok, !drop_0 by (done || by eapply mapM_element_ok). done.
Qed.

End Facts.
End SortedFacts.

(** ** Interleaving constraints *)

Module InterleavingFacts.
Import Interleaving.

Section Facts.
Context {F E T : Type} `{!Element F, !Evaluable F E}.
Implicit Types (p : Constraint E) (tr : list (ArrayModule F)) (m : ArrayModule F) (e : E).

Definition check p (tgt src : ArrayModule F) (row : Z) : result (option (Failure E T)) :=
  let n := length (Sources p) in
  match eval_at row tgt (Target p) with
  | Fault (Panic msg) => Fault (Panic msg)
  | Fault OutOfFuel => Fault OutOfFuel
  | t =>
      if (n =? 0)%nat then Fault (Panic "integer divide by zero")
      else
        source ← slice_get (Sources p) (Z.to_nat (row mod Z.of_nat n));
        check_row p row n source t (eval_at (row / Z.of_nat n) src source)
  end.

Lemma interleaving_accepts_rows_scan n row p tgt src : accepts_rows n row p tgt src = scan (check p tgt src) n row.
Proof.
  revert row. induction n as [|n IH]; intros row; [done|]. cbn [accepts_rows scan]. rewrite IH.
  generalize (scan (check p tgt src) n (row + 1)) as rest. intros rest. unfold check.
  destruct (eval_at row tgt (Target p)) as [t|[]]; try done; cbn; (destruct (length (Sources p) =? 0)%nat; [done|]);
    by destruct (slice_get _ _).
Qed.

Lemma interleaving_check_none p tgt src row :
  check p tgt src row = Ok None <->
  exists source t s, Sources p !! Z.to_nat (row mod Z.of_nat (length (Sources p))) = Some source /\
    eval_at row tgt (Target p) = Ok t /\ eval_at (row / Z.of_nat (length (Sources p))) src source = Ok s /\ e_Cmp t s = Eq.
Proof.
  unfold check. split.
  - intros H. destruct (eval_at row tgt (Target p)) as [t|[]] eqn:Ht; try done;
      (destruct (length (Sources p) =? 0)%nat; [done|]); inv_ok; apply slice_get_ok in Ha as Hs; unfold check_row in H;
      (destruct (eval_at (row / _) src a) as [s|[]] eqn:He); try done.
    exists a, t, s. split_and!; try done. by destruct (e_Cmp t s).
  - intros (source & t & s & Hs & -> & Hsv & Hc). destruct (Nat.eqb_spec (length (Sources p)) 0) as [H0|].
    + apply nil_length_inv in H0. by rewrite H0 in Hs.
    + apply slice_get_ok in Hs. rewrite Hs. cbn. unfold check_row. by rewrite Hsv, Hc.
Qed.

Lemma interleaving_none p tr sc mt ms vt vs :
  Module_ tr (TargetContext p) = Ok mt -> Module_ tr (SourceContext p) = Ok ms ->
  slice_get sc (TargetContext p) = Ok vt -> slice_get sc (SourceContext p) = Ok vs -> 0 <= height mt < 2 ^ 63 ->
  (exists cov, Accepts (T := T) p tr sc = Ok (cov, None)) <-> forall r, 0 <= r < height mt -> check p mt ms r = Ok None.
Proof.
  intros Hmt Hms Hvt Hvs Hh. unfold Accepts. rewrite Hmt, Hms, Hvt, Hvs. cbn [mbind result_bind].
  rewrite to_int_small, interleaving_accepts_rows_scan by done.
  transitivity (scan (check p mt ms) (Z.to_nat (height mt)) 0 = Ok None).
  { destruct (scan _ _ _) as [r|]; cbn; split; [by intros (? & [= <- <-])|by intros [= ->]; eexists|by intros (? & ?)|done]. }
  rewrite scan_none. split; intros H r Hr; apply H; lia.
Qed.

End Facts.
End InterleavingFacts.

(** ** Permutation constraints *)

Module PermutationFacts.
Import Permutation.

(** *** The sort *)

Section Sort.
Context {K : Type} `{!Comparable K, !CmpLaws K} (cmp : nat -> nat -> result comparison) (key : nat -> K) (D : nat -> Prop).
Context (Hcmp : forall x y, D x -> D y -> cmp x y = Ok (Cmp (key x) (key y))).

(** Descending, as the items before are kept *)
Definition above (x y : nat) : Prop := le_ (key y) (key x).

Lemma le_trans_ (x y z : K) : le_ x y -> le_ y z -> le_ x z.
Proof. intros [->|Hxy] [->|Hyz]; [by left|by right|by right|]. right. by eapply Cmp_trans. Qed.

Lemma le_of_not_lt (x y : K) : Cmp x y <> Lt -> le_ y x.
Proof.
  intros H. destruct (Cmp x y) eqn:Hc; [left; symmetry; by apply Cmp_eq|done|].
  right. unfold lt_. by rewrite Cmp_anti, Hc.
Qed.

Lemma insert_item_ok x before : D x -> Forall D before -> StronglySorted above before ->
  exists l, insert_item cmp x before = Ok l /\ l ≡ₚ x :: before /\ StronglySorted above l.
Proof.
  intros Hx Hb. induction Hb as [|y before Hy Hb IH]; intros Hs; cbn.
  { eexists. split; [done|]. split; [done|]. repeat constructor. }
  inversion_clear Hs as [|? ? Hs' Hf]. rewrite Hcmp by done. cbn. destruct (Cmp (key x) (key y)) eqn:Hc.
  2: { destruct (IH Hs') as (l & -> & Hp & Hl). cbn. eexists. split; [done|]. split; [rewrite Hp; constructor|].
       constructor; [done|]. rewrite Hp. constructor; [by right|done]. }
  all: assert (Hle : le_ (key y) (key x)) by (apply le_of_not_lt; congruence).
  all: eexists; split; [done|]; split; [done|]; constructor; [by constructor|]; constructor; [done|].
  all: eapply Forall_impl; [done|]; intros z Hz; by eapply le_trans_.
Qed.

Lemma StronglySorted_reverse {A} (R : A -> A -> Prop) l : StronglySorted R l -> StronglySorted (flip R) (reverse l).
Proof.
  induction 1 as [|x l Hs IH Hf]; [constructor|]. rewrite reverse_cons. apply StronglySorted_app_2; [|done|repeat constructor].
  intros y z Hy Hz. rewrite elem_of_reverse in Hy. apply list_elem_of_singleton in Hz as ->. rewrite Forall_forall in Hf. by apply Hf.
Qed.

Lemma SortFunc_ok items : Forall D items ->
  exists l, SortFunc items cmp = Ok l /\ l ≡ₚ items /\ StronglySorted le_ (key <$> l).
Proof.
  intros Hi. unfold SortFunc.
  assert (H : forall before, Forall D before -> StronglySorted above before ->
    exists l, sort_items cmp before items = Ok l /\ l ≡ₚ before ++ items /\ StronglySorted (flip above) l).
  { induction Hi as [|x items Hx Hi IH]; intros before Hb Hs; cbn.
    - eexists. split; [done|]. rewrite app_nil_r. split; [by rewrite reverse_Permutation|]. by apply StronglySorted_reverse.
    - destruct (insert_item_ok x before Hx Hb Hs) as (b' & -> & Hp & Hs'). cbn.
      destruct (IH b') as (l & -> & Hl & Hsl); [rewrite Hp; by constructor|done|].
      exists l. split; [done|]. split; [|done]. rewrite Hl, Hp. cbn. by rewrite Permutation_middle. }
  destruct (H []) as (l & Hl & Hp & Hs); [constructor|constructor|]. exists l. split; [done|]. split; [done|].
  by apply (StronglySorted_fmap key (flip above) le_).
Qed.

End Sort.

#[export] Instance le_antisymm {K} `{!Comparable K, !CmpLaws K} : AntiSymm (=) (le_ (T := K)).
Proof.
  intros x y [->|Hxy] [Hyx|Hyx]; [done|done|done|]. unfold lt_ in *. rewrite Cmp_anti, Hxy in Hyx. done.
Qed.

(** *** Tables *)

Section Tables.
Context {F : Type} `{!Element F, !ElementLaws F}.
Implicit Types (cols : list (list F)).

(** The columns of a table of height [n] *)
Definition table_ok (n : nat) cols : Prop := Forall (fun c => length c = n /\ Forall element_ok c) cols.

(** A row, and its values *)
Definition row cols (i : nat) : list F := omap (fun c => c !! i) cols.
Definition row_key cols (i : nat) : list Z := val <$> row cols i.

Definition rows (n : nat) cols : list (list F) := row cols <$> seq 0 n.

Lemma row_cons c cols i x : c !! i = Some x -> row (c :: cols) i = x :: row cols i.
Proof. intros H. unfold row. cbn. by rewrite H. Qed.

Lemma row_length n cols i : table_ok n cols -> (i < n)%nat -> length (row cols i) = length cols.
Proof.
  intros Hc Hi. induction Hc as [|c cols [Hl _] _ IH]; [done|].
  destruct (lookup_lt_is_Some_2 c i) as [x Hx]; [lia|]. rewrite (row_cons _ _ _ _ Hx). cbn. by rewrite IH.
Qed.

Lemma row_ok n cols i : table_ok n cols -> Forall element_ok (row cols i).
Proof.
  intros Hc. induction Hc as [|c cols [_ Hok] _ IH]; [constructor|]. unfold row. cbn.
  destruct (c !! i) as [x|] eqn:Hx; [|done]. constructor; [|done]. exact (Forall_lookup_1 _ _ _ _ Hok Hx).
Qed.

Lemma index_cmp n cols i j : table_ok n cols -> (i < n)%nat -> (j < n)%nat ->
  indexPermutationFunc (Some <$> cols) i j = Ok (Cmp (row_key cols i) (row_key cols j)).
Proof.
  intros Hc Hi Hj. assert (Hlen : length (row_key cols i) = length (row_key cols j)).
  { unfold row_key. rewrite !length_fmap, !(row_length n) by done. done. }
  unfold Cmp, list_Comparable, Compare. rewrite Hlen, Nat.compare_refl. clear Hlen.
  induction Hc as [|c cols [Hl Hok] _ IH]; [done|]. cbn [fmap list_fmap indexPermutationFunc get_at].
  destruct (lookup_lt_is_Some_2 c i) as [x Hx]; [lia|]. destruct (lookup_lt_is_Some_2 c j) as [y Hy]; [lia|].
  rewrite (proj2 (slice_get_ok _ _ _) Hx), (proj2 (slice_get_ok _ _ _) Hy). cbn [mbind result_bind].
  unfold row_key. rewrite (row_cons _ _ _ _ Hx), (row_cons _ _ _ _ Hy). cbn [fmap list_fmap compare_items].
  rewrite cmp_law by (exact (Forall_lookup_1 _ _ _ _ Hok Hx) || exact (Forall_lookup_1 _ _ _ _ Hok Hy)). unfold Cmp, Z_Comparable. destruct (Z.compare _ _); [|done..]. exact IH.
Qed.

Lemma element_keys (xs ys : list F) : Forall element_ok xs -> Forall element_ok ys -> val <$> xs = val <$> ys -> xs = ys.
Proof.
  intros Hx. revert ys. induction Hx as [|x xs Hx _ IH]; intros [|y ys] Hy; cbn; try done.
  apply Forall_cons in Hy as [Hy Hys]. intros [= He Hes]. f_equal; [by apply val_inj | by apply IH].
Qed.

(** *** The comparison of the sorted tables *)

(** Two columns agree along two lists of indices, from position [j] on. *)
Definition agree_from (lI rI : list nat) (j n : nat) (c1 c2 : list F) : Prop :=
  forall t i1 i2, (j <= t < n)%nat -> lI !! t = Some i1 -> rI !! t = Some i2 -> c1 !! i1 = c2 !! i2.

Definition indices (n : nat) (l : list nat) : Prop := length l = n /\ Forall (fun i => (i < n)%nat) l.

Lemma indices_lookup n l t : indices n l -> (t < n)%nat -> exists i, l !! t = Some i /\ (i < n)%nat.
Proof.
  intros [Hl Hf] Ht. destruct (lookup_lt_is_Some_2 l t) as [i Hi]; [lia|]. exists i. split; [done|]. by eapply Forall_lookup_1 in Hf.
Qed.

Lemma equals_rows_ok n c1 c2 lI rI j k :
  length c1 = n -> length c2 = n -> Forall element_ok c1 -> Forall element_ok c2 -> indices n lI -> indices n rI -> (j + k = n)%nat ->
  exists b, equals_rows k j lI rI (Some c1) (Some c2) = Ok b /\ (b = true <-> agree_from lI rI j n c1 c2).
Proof.
  intros H1 H2 Ho1 Ho2 HlI HrI. revert j. induction k as [|k IH]; intros j Hj; cbn [equals_rows].
  { exists true. split; [done|]. split; [|done]. intros _ t i1 i2 Ht. lia. }
  destruct (indices_lookup n lI j HlI) as (i1 & Hi1 & Hb1); [lia|]. destruct (indices_lookup n rI j HrI) as (i2 & Hi2 & Hb2); [lia|].
  destruct (lookup_lt_is_Some_2 c1 i1) as [x Hx]; [lia|]. destruct (lookup_lt_is_Some_2 c2 i2) as [y Hy]; [lia|].
  rewrite (proj2 (slice_get_ok _ _ _) Hi1), (proj2 (slice_get_ok _ _ _) Hi2). cbn [mbind result_bind get_at].
  rewrite (proj2 (slice_get_ok _ _ _) Hx), (proj2 (slice_get_ok _ _ _) Hy). cbn [mbind result_bind].
  assert (Hxo := Forall_lookup_1 _ _ _ _ Ho1 Hx). assert (Hyo := Forall_lookup_1 _ _ _ _ Ho2 Hy).
  destruct (e_Cmp x y) eqn:Hc; cbn [is_eq negb].
  - apply cmp_eq in Hc as ->; [|done..]. destruct (IH (S j)) as (b & -> & Hb); [lia|]. exists b. split; [done|].
    rewrite Hb. split; intros H t t1 t2 Ht Ht1 Ht2; [|apply (H t); [lia|done|done]].
    destruct (decide (t = j)) as [->|]; [congruence|]. apply (H t); [lia|done|done].
  - exists false. split; [done|]. split; [done|]. intros H. specialize (H j i1 i2 ltac:(lia) Hi1 Hi2).
    rewrite Hx, Hy in H. injection H as ->. by rewrite (proj2 (cmp_eq y y Hyo Hyo)) in Hc.
  - exists false. split; [done|]. split; [done|]. intros H. specialize (H j i1 i2 ltac:(lia) Hi1 Hi2).
    rewrite Hx, Hy in H. injection H as ->. by rewrite (proj2 (cmp_eq y y Hyo Hyo)) in Hc.
Qed.

Lemma equals_columns_ok n cols1 cols2 lI rI :
  table_ok n cols1 -> table_ok n cols2 -> length cols1 = length cols2 -> indices n lI -> indices n rI ->
  exists b, equals_columns lI rI (Some <$> cols1) (Some <$> cols2) = Ok b /\
    (b = true <-> row cols1 <$> lI = row cols2 <$> rI).
Proof.
  intros H1 H2 Hlen HlI HrI. revert cols2 H2 Hlen.
  induction H1 as [|c1 cols1 [Hl1 Ho1] H1 IH]; intros [|c2 cols2] H2 Hlen; try done; rewrite ?fmap_nil, ?fmap_cons; cbn [equals_columns].
  { exists true. split; [done|]. split; [|done]. intros _. apply list_eq. intros t. rewrite !list_lookup_fmap.
    destruct HlI as [HlI _], HrI as [HrI _]. destruct (decide (t < n)%nat).
    - destruct (lookup_lt_is_Some_2 lI t) as [i1 ->]; [lia|]. destruct (lookup_lt_is_Some_2 rI t) as [i2 ->]; [lia|]. done.
    - by rewrite !lookup_ge_None_2 by lia. }
  apply Forall_cons in H2 as [[Hl2 Ho2] H2]. cbn [len_of mbind result_bind]. rewrite Hl1, Hl2, Nat.eqb_refl. cbn [negb].
  destruct (equals_rows_ok n c1 c2 lI rI 0 n) as (b & -> & Hb); [done..|]. cbn [mbind result_bind].
  destruct (IH cols2 H2) as (b' & Heq & Hb'); [by injection Hlen|].
  assert (Hsplit : row (c1 :: cols1) <$> lI = row (c2 :: cols2) <$> rI <->
                   agree_from lI rI 0 n c1 c2 /\ row cols1 <$> lI = row cols2 <$> rI).
  { assert (Hpt : forall t i1 i2, lI !! t = Some i1 -> rI !! t = Some i2 ->
      row (c1 :: cols1) i1 = row (c2 :: cols2) i2 <-> c1 !! i1 = c2 !! i2 /\ row cols1 i1 = row cols2 i2).
    { intros t i1 i2 Ht1 Ht2. assert (Hb1 := Forall_lookup_1 _ _ _ _ (proj2 HlI) Ht1).
      assert (Hb2 := Forall_lookup_1 _ _ _ _ (proj2 HrI) Ht2). cbn in Hb1, Hb2.
      destruct (lookup_lt_is_Some_2 c1 i1) as [x Hx]; [lia|]. destruct (lookup_lt_is_Some_2 c2 i2) as [y Hy]; [lia|].
      rewrite (row_cons _ _ _ _ Hx), (row_cons _ _ _ _ Hy), Hx, Hy. split; [by intros [= -> ->]|by intros [[= ->] ->]]. }
    assert (Hall : forall f g : nat -> list F, f <$> lI = g <$> rI <->
      forall t i1 i2, lI !! t = Some i1 -> rI !! t = Some i2 -> f i1 = g i2).
    { intros f g. split.
      - intros H t i1 i2 Ht1 Ht2. apply (f_equal (fun l => l !! t)) in H. rewrite !list_lookup_fmap, Ht1, Ht2 in H. by injection H.
      - intros H. apply list_eq. intros t. rewrite !list_lookup_fmap.
        destruct (lI !! t) as [i1|] eqn:Ht1, (rI !! t) as [i2|] eqn:Ht2; cbn; [f_equal; by eapply H| | |done].
        + apply lookup_lt_Some in Ht1. apply lookup_ge_None_1 in Ht2. destruct HlI, HrI. lia.
        + apply lookup_lt_Some in Ht2. apply lookup_ge_None_1 in Ht1. destruct HlI, HrI. lia. }
    rewrite !Hall. split.
    - intros H. split; intros t i1 i2; [intros _|]; intros Ht1 Ht2; by apply (Hpt t); [..|eapply H].
    - intros [Ha Hr] t i1 i2 Ht1 Ht2. apply (Hpt t); [done|done|]. split; [|by eapply Hr]. apply (Ha t); [|done|done].
      apply lookup_lt_Some in Ht1. destruct HlI. lia. }
  destruct b; [exists b' | exists false]; (split; [done|]); rewrite Hsplit, <- Hb, <- ?Hb'; intuition congruence.
Qed.

Lemma arePermutationOf_ok n dst src :
  table_ok n dst -> table_ok n src -> length dst = length src -> dst <> [] ->
  exists b, arePermutationOf (Some <$> dst) (Some <$> src) = Ok b /\ (b = true <-> rows n dst ≡ₚ rows n src).
Proof.
  intros Hd Hs Hlen Hne. unfold arePermutationOf. rewrite !length_fmap, Hlen, Nat.eqb_refl. cbn [negb].
  destruct dst as [|d0 dst']; [done|]. rewrite fmap_cons. cbn [slice_get lookup list_lookup mbind result_bind len_of].
  assert (Hn : length d0 = n) by (by apply Forall_cons in Hd as [[? _] _]). rewrite Hn.
  rewrite <- fmap_cons.
  set (dst := d0 :: dst') in *. clearbody dst. clear Hn d0 dst' Hne.
  assert (Hseq : Forall (fun i => (i < n)%nat) (rangeOf n)).
  { apply Forall_forall. intros i Hi%elem_of_seq. lia. }
  destruct (SortFunc_ok (indexPermutationFunc (Some <$> dst)) (row_key dst) (fun i => (i < n)%nat)) with (items := rangeOf n)
    as (lI & -> & HlI & Hls); [intros; by apply (index_cmp n)|done|]. cbn [mbind result_bind].
  destruct (SortFunc_ok (indexPermutationFunc (Some <$> src)) (row_key src) (fun i => (i < n)%nat)) with (items := rangeOf n)
    as (rI & -> & HrI & Hrs); [intros; by apply (index_cmp n)|done|]. cbn [mbind result_bind].
  assert (Hil : indices n lI).
  { split; [rewrite HlI; apply length_seq | by rewrite HlI]. }
  assert (Hir : indices n rI).
  { split; [rewrite HrI; apply length_seq | by rewrite HrI]. }
  unfold equalsPermutation. rewrite (proj1 Hil), (proj1 Hir), !length_fmap, Hlen, !Nat.eqb_refl. cbn [negb].
  destruct (equals_columns_ok n dst src lI rI) as (b & -> & Hb); [done..|]. exists b. split; [done|]. rewrite Hb.
  unfold rows. split.
  - intros Heq. fold (rangeOf n). rewrite <- HlI, <- HrI at 1. by rewrite Heq.
  - intros Hp. assert (Hkeys : row_key dst <$> lI = row_key src <$> rI).
    { apply (StronglySorted_unique le_); [done|done|]. change (row_key dst) with (fmap val ∘ row dst). change (row_key src) with (fmap val ∘ row src).
      rewrite !list_fmap_compose. apply fmap_Permutation. rewrite HlI, HrI. exact Hp. }
    apply list_eq. intros t. apply (f_equal (fun l => l !! t)) in Hkeys. rewrite !list_lookup_fmap in *.
    destruct (lI !! t), (rI !! t); cbn in *; try done. injection Hkeys as Hk. f_equal.
    apply element_keys; [by eapply row_ok..|done].
Qed.

End Tables.
End PermutationFacts.

(** ** Consistency *)

Section Consistency.
Context {F : Type} `{!Element F, !ElementLaws F}.
Implicit Types (m : ArrayModule F) (sc : list ModuleView) (tr : list (ArrayModule F)).

(** The module of a trace that a view describes: at least its registers are filled
    columns. *)
Definition covers (v : ModuleView) m : Prop :=
  module_wf m /\ (view_width v <= length (columns m))%nat /\ Forall (fun c => data c <> None) (columns m).

Lemma check_terms_nil v terms : check_terms v terms = Ok [] ->
  Forall (fun t => exists regs, t = Ok regs /\ Forall (fun r => (r < view_width v)%nat) regs) terms.
Proof.
  induction terms as [|t terms IH]; cbn; [constructor|]. intros H. inv_ok. apply app_eq_nil in H as [Hm ->].
  constructor; [|by apply IH]. exists a. split; [done|]. apply map_eq_nil in Hm. unfold register_errors in Hm.
  apply map_eq_nil in Hm. apply Forall_forall. intros r Hr. apply not_le. intros Hle.
  assert (Hin : r ∈ filter (fun reg => (view_width v <= reg)%nat) a) by (by apply list_elem_of_filter).
  rewrite Hm in Hin. by apply elem_of_nil in Hin.
Qed.

Lemma CheckConsistent_nil module sc terms : CheckConsistent module sc terms = Ok [] ->
  exists v, sc !! module = Some v /\
    Forall (fun t => exists regs, t = Ok regs /\ Forall (fun r => (r < view_width v)%nat) regs) terms.
Proof.
  unfold CheckConsistent. destruct (sc !! module) as [v|]; [|done]. intros H. exists v. split; [done|]. by apply check_terms_nil.
Qed.

(** The accesses of a term whose registers are in range are defined. *)
Lemma registers_defined v m (al : list Access.t) regs :
  covers v m -> registers_read al regs -> Forall (fun a => Access.IsDefined a = true) al -> Forall (fun r => (r < view_width v)%nat) regs ->
  Forall (access_defined m) al.
Proof.
  intros (Hm & Hw & Hd) [_ Hr] Hu Hregs. rewrite Forall_forall in Hu. rewrite Forall_forall in Hregs. rewrite Forall_forall in Hd.
  apply Forall_forall. intros a Ha. specialize (Hu a Ha).
  unfold Access.IsDefined in Hu. destruct (Access.register a) as [r|] eqn:Hreg; [|done].
  assert (Hin : r ∈ regs) by (apply Hr; by exists a). specialize (Hregs r Hin). cbn in Hregs.
  destruct (lookup_lt_is_Some_2 (columns m) r) as [c Hc]; [lia|]. exists r, c. split_and!; [done|done|].
  apply Hd. by eapply list_elem_of_lookup_2.
Qed.

Lemma expr_defined v m (e : Expr F) regs : covers v m -> RequiredRegisters e = Ok regs ->
  Forall (fun r => (r < view_width v)%nat) regs -> Forall (access_defined m) (accesses e).
Proof.
  intros Hv Hr Hf. assert (Hu := proj1 RequiredRegisters_used _ _ Hr).
  destruct (proj1 RequiredRegisters_reads e Hu) as (q & Hq & Hread). rewrite Hr in Hq. injection Hq as <-.
  by eapply registers_defined.
Qed.

Lemma logical_defined v m (l : Logical F) regs : covers v m -> RequiredRegisters_logical l = Ok regs ->
  Forall (fun r => (r < view_width v)%nat) regs -> Forall (access_defined m) (accesses_logical l).
Proof.
  intros Hv Hr Hf. assert (Hu := proj2 RequiredRegisters_used _ _ Hr).
  destruct (proj2 RequiredRegisters_reads l Hu) as (q & Hq & Hread). rewrite Hr in Hq. injection Hq as <-.
  by eapply registers_defined.
Qed.

(** Terms over defined accesses do not panic. *)
Lemma defined_evaluates k m (e : Expr F) : module_wf m -> expr_wf e -> Forall (access_defined m) (accesses e) ->
  (exists v, EvalAt k m e = Ok v) \/ exists msg, EvalAt k m e = Fault (Error msg).
Proof.
  intros Hm He Ha.
  destruct (TermProperties.defined_outcome (fun f => f = Error "cast failure") node_wf k m Hm) as [Hev _]; [done|done|].
  specialize (Hev e He Ha). destruct (EvalAt k m e) as [v|f]; cbn in Hev; [left; by exists v|right; exists "cast failure"%string; by subst].
Qed.

Lemma defined_tests k m (l : Logical F) : module_wf m -> logical_wf l -> Forall (access_defined m) (accesses_logical l) ->
  (exists b, TestAt k m l = Ok b) \/ exists msg, TestAt k m l = Fault (Error msg).
Proof.
  intros Hm He Ha.
  destruct (TermProperties.defined_outcome (fun f => f = Error "cast failure") node_wf k m Hm) as [_ Hev]; [done|done|].
  specialize (Hev l He Ha). destruct (TestAt k m l) as [v|f]; cbn in Hev; [left; by exists v|right; exists "cast failure"%string; by subst].
Qed.

End Consistency.

(** ** Properties *)

Module ConstraintProperties.

Section Properties.
Context {F E T : Type} `{!Element F, !ElementLaws F, !Evaluable F E, !EvaluableLaws F E, !Testable F T}.
Implicit Types (tr : list (ArrayModule F)) (sc : list ModuleView) (m : ArrayModule F).

(** C28: A vanishing constraint accepts a trace exactly when its term tests to true on
    every row within its bounds, or on the row of its domain, counted from the end
    when negative; the coverage then has the branches of these rows.  Otherwise it
    reports the first row on which the term is false or cannot be evaluated. *)
Theorem vanishing_accepts (p : Vanishing.Constraint T) tr sc m v :
  Module_ tr (Vanishing.Context_ p) = Ok m -> slice_get sc (Vanishing.Context_ p) = Ok v -> VanishingFacts.sane p m ->
  let handle := QualifiedColumnName (name m) (Vanishing.Handle p) in
  let test k := fst (test_at k m (Vanishing.Constraint_ p)) in
  ((exists cov, Vanishing.Accepts (E := E) p tr sc = Ok (cov, None)) <->
     forall k, VanishingFacts.checked p m k -> test k = Ok true) /\
  (forall cov, Vanishing.Accepts (E := E) p tr sc = Ok (cov, None) ->
     forall id, BitSet.Contains cov id = true <->
       exists k, VanishingFacts.checked p m k /\ id = snd (test_at k m (Vanishing.Constraint_ p))) /\
  (forall f, (exists cov, Vanishing.Accepts (E := E) p tr sc = Ok (cov, Some f)) <->
     exists k, VanishingFacts.checked p m k /\ VanishingFacts.failure_at handle p m k = Some f /\
       forall j, VanishingFacts.checked p m j -> j < k -> test j = Ok true).
Proof.
  intros Hm Hv Hs handle test. assert (Hscan := VanishingFacts.Accepts_scan (E := E) p tr sc m v Hm Hv). cbn in Hscan.
  destruct (VanishingFacts.scanned_checked p m Hs) as (Hrows & Hrange & Hmono). fold handle in Hscan.
  split; [by apply (VanishingFacts.Accepts_none p tr sc m v)|]. split; [intros cov; by apply VanishingFacts.Accepts_coverage with (v := v)|].
  intros f. rewrite VanishingFacts.Accepts_returns, Hscan, scan_some. split.
  - intros (j & Hj & Hf & Hb). apply Hrows in Hj as (k & Hk & ->). exists k. split; [done|].
    rewrite VanishingFacts.check_some in Hf by by apply Hrange. split; [done|]. intros i Hi Hik.
    apply (VanishingFacts.check_checked (E := E) handle); [done|done|].
    apply Hb. split; [|by apply Hmono]. apply (proj2 (Hrows (u64 i))). by exists i.
  - intros (k & Hk & Hf & Hb). exists (u64 k). split; [apply Hrows; by exists k|].
    rewrite VanishingFacts.check_some by by apply Hrange. split; [done|]. intros i Hi.
    destruct (proj1 (Hrows i)) as (i' & Hi' & ->).
    { split; [lia|]. destruct (proj2 (Hrows (u64 k))) as [_ ?]; [by exists k|]. lia. }
    apply VanishingFacts.check_checked; [done|done|]. apply Hb; [done|]. apply Z.nle_gt. intros Hle.
    destruct (decide (i' = k)) as [->|]; [lia|]. specialize (Hmono i' k Hi' Hk ltac:(lia)). lia.
Qed.

(** A range constraint accepts a trace exactly when on every row each source has a
    value below the power of two of its width, computed modulo the prime: below the
    power itself when that fits in the field. *)
Theorem ranged_accepts (p : Ranged.Constraint E) tr sc m v :
  Module_ tr (Ranged.Context_ p) = Ok m -> slice_get sc (Ranged.Context_ p) = Ok v ->
  module_wf m -> 0 <= height m < 2 ^ 63 -> Forall eval_wf (Ranged.Sources p) ->
  length (Ranged.Sources p) = length (Ranged.Bitwidths p) -> Forall (fun bw => 0 <= bw) (Ranged.Bitwidths p) ->
  (exists cov, Ranged.Accepts (T := T) p tr sc = Ok (cov, None)) <->
  forall i e bw k, Ranged.Sources p !! i = Some e -> Ranged.Bitwidths p !! i = Some bw -> 0 <= k < height m ->
    exists x, eval_at k m e = Ok x /\ val x < 2 ^ bw mod modulus (F := F) /\
      (2 ^ bw < modulus (F := F) -> val x < 2 ^ bw).
Proof.
  intros Hm Hv Hwf Hh Hw Hlen Hbw.
  assert (Hret : (exists cov, Ranged.Accepts (T := T) p tr sc = Ok (cov, None)) <->
    Ranged.accepts_sources (T := T) (length (Ranged.Sources p)) 0 p tr sc = Ok None).
  { unfold Ranged.Accepts. destruct (Ranged.accepts_sources _ _ _ _ _) as [r|]; cbn; split;
      [by intros (? & [= <- <-])|by intros [= ->]; eexists|by intros (? & ?)|done]. }
  rewrite Hret, RangedFacts.accepts_sources_none.
  assert (Hsrc : forall i e bw, Ranged.Sources p !! i = Some e -> Ranged.Bitwidths p !! i = Some bw ->
    Ranged.accepts_ (T := T) p i tr sc = Ok None <->
    forall k, 0 <= k < height m -> exists x, eval_at k m e = Ok x /\ val x < 2 ^ bw mod modulus (F := F)).
  { intros i e bw He Hb. rewrite (RangedFacts.accepts_scan p tr sc m v i e bw) by done. rewrite scan_none.
    rewrite Forall_forall in Hbw. rewrite Forall_forall in Hw. destruct (TwoPowN_law (F := F) bw) as [Hok Hval]; [by eapply Hbw, list_elem_of_lookup_2|].
    assert (Hew : eval_wf e) by (by eapply Hw, list_elem_of_lookup_2).
    split; intros H k Hk; specialize (H k ltac:(lia)); rewrite RangedFacts.ranged_check_none in *;
      destruct H as (x & Hx & Hc); exists x; (split; [done|]); assert (Hxo := eval_ok _ _ _ _ Hwf Hew Hx);
      rewrite cmp_law, Z.compare_lt_iff, Hval in * by done; done. }
  split.
  - intros H i e bw k He Hb Hk. assert (Hi := lookup_lt_Some _ _ _ He).
    destruct (proj1 (Hsrc i e bw He Hb) (H i ltac:(lia)) k Hk) as (x & Hx & Hlt). exists x. split_and!; [done|done|].
    intros Hs. rewrite Z.mod_small in Hlt; [done|]. split; [|done]. apply Z.pow_nonneg. lia.
  - intros H j Hj. destruct (lookup_lt_is_Some_2 (Ranged.Sources p) j) as [e He]; [lia|].
    destruct (lookup_lt_is_Some_2 (Ranged.Bitwidths p) j) as [bw Hb]; [lia|]. apply (Hsrc j e bw He Hb).
    intros k Hk. destruct (H j e bw k He Hb Hk) as (x & Hx & Hlt & _). by exists x.
Qed.

(** C29: A sorted constraint accepts a trace exactly when every two adjacent rows within
    its bounds are in order wherever the selector is not zero on the second:
    lexicographically with the sign of each column, the first difference below the
    bound, and not equal when the order is strict. *)
Theorem sorted_accepts (p : Sorted.Constraint E) tr sc m v :
  Module_ tr (Sorted.Context_ p) = Ok m -> slice_get sc (Sorted.Context_ p) = Ok v ->
  module_wf m -> 0 <= height m < 2 ^ 63 -> Forall eval_wf (Sorted.Sources p) -> 0 <= Sorted.BitWidth p ->
  let bounds := Sorted.Bounds p (Sorted.Context_ p) in
  0 <= Bounds.Start bounds -> 0 <= Bounds.End bounds ->
  (exists cov, Sorted.Accepts (T := T) p tr sc = Ok (cov, None)) <->
  forall k, Bounds.Start bounds < k < height m - Bounds.End bounds ->
    Sorted.selected (Sorted.Selector p) k m = Ok false \/
    (Sorted.selected (Sorted.Selector p) k m = Ok true /\
     exists ls rs, mapM (eval_at (k - 1) m) (Sorted.Sources p) = Ok ls /\ mapM (eval_at k m) (Sorted.Sources p) = Ok rs /\
       SortedFacts.lex_ok (2 ^ Sorted.BitWidth p mod modulus (F := F)) (val <$> ls) (val <$> rs) (Sorted.Signs p) (Sorted.Strict p)).
Proof.
  intros Hm Hv Hwf Hh Hw Hbw bounds Hs He. destruct (TwoPowN_law (F := F) (Sorted.BitWidth p) Hbw) as [Hok Hval].
  unfold Sorted.Accepts. rewrite Hm, Hv. cbn [mbind result_bind]. fold bounds.
  destruct (Z.ltb_spec (Bounds.End bounds) (height m)) as [Hlt|Hge].
  2: { split; [intros _ k Hk; lia|]. intros _. by eexists. }
  rewrite SortedFacts.sorted_accepts_rows_scan. set (n := Z.to_nat _).
  transitivity (scan (SortedFacts.check (T := T) p (TwoPowN (Sorted.BitWidth p)) m) n (Bounds.Start bounds + 1) = Ok None).
  { destruct (scan _ _ _) as [r|]; cbn; split; [by intros (? & [= <- <-])|by intros [= ->]; eexists|by intros (? & ?)|done]. }
  rewrite scan_none. split; intros H k Hk; specialize (H k ltac:(lia)); rewrite SortedFacts.sorted_check_none in *.
  - destruct H as [H|[Hsel H]]; [by left|]. right. split; [done|]. rewrite SortedFacts.sorted_ok, Hval in H by (done || lia). done.
  - destruct H as [H|[Hsel H]]; [by left|]. right. split; [done|]. rewrite SortedFacts.sorted_ok, Hval by (done || lia). done.
Qed.

(** An interleaving constraint accepts a trace exactly when row [r] of the target
    equals row [r / n] of source [r mod n], for each row of the target module. *)
Theorem interleaving_accepts (p : Interleaving.Constraint E) tr sc mt ms vt vs :
  Module_ tr (Interleaving.TargetContext p) = Ok mt -> Module_ tr (Interleaving.SourceContext p) = Ok ms ->
  slice_get sc (Interleaving.TargetContext p) = Ok vt -> slice_get sc (Interleaving.SourceContext p) = Ok vs ->
  module_wf mt -> module_wf ms -> 0 <= height mt < 2 ^ 63 -> eval_wf (Interleaving.Target p) -> Forall eval_wf (Interleaving.Sources p) ->
  let n := Z.of_nat (length (Interleaving.Sources p)) in
  (exists cov, Interleaving.Accepts (T := T) p tr sc = Ok (cov, None)) <->
  forall r, 0 <= r < height mt -> exists source x, Interleaving.Sources p !! Z.to_nat (r mod n) = Some source /\
    eval_at r mt (Interleaving.Target p) = Ok x /\ eval_at (r / n) ms source = Ok x.
Proof.
  intros Hmt Hms Hvt Hvs Hwt Hws Hh Ht Hsrc n. rewrite (InterleavingFacts.interleaving_none p tr sc mt ms vt vs) by done.
  rewrite Forall_forall in Hsrc. split; intros H r Hr; specialize (H r Hr); rewrite InterleavingFacts.interleaving_check_none in *.
  - destruct H as (source & t & s & Hl & Htv & Hsv & Hc). exists source, t. split_and!; [done|done|].
    assert (Hse : eval_wf source) by (by eapply Hsrc, list_elem_of_lookup_2).
    assert (Hto := eval_ok _ _ _ _ Hwt Ht Htv). assert (Hso := eval_ok _ _ _ _ Hws Hse Hsv).
    apply (cmp_eq _ _ Hto Hso) in Hc. by subst.
  - destruct H as (source & x & Hl & Htv & Hsv). exists source, x, x. split_and!; [done|done|done|].
    assert (Hxo := eval_ok _ _ _ _ Hwt Ht Htv). by apply cmp_eq.
Qed.

(** C27: For sources and targets that are filled columns of the same height, as many
    sources as targets and at least one, a permutation constraint accepts exactly when
    the rows of the targets are a permutation of the rows of the sources.  Without
    columns it panics.  (The sort of the standard library is modelled by an insertion
    sort; the rows in sorted order do not depend on the algorithm.) *)
Theorem permutation_accepts (p : Permutation.Constraint) tr sc m (n : nat) dst src :
  Module_ tr (Permutation.Context_ p) = Ok m ->
  Permutation.sliceColumns (Permutation.Targets p) m = Ok (Some <$> dst) ->
  Permutation.sliceColumns (Permutation.Sources p) m = Ok (Some <$> src) ->
  PermutationFacts.table_ok n dst -> PermutationFacts.table_ok n src -> length dst = length src ->
  (dst <> [] -> (exists cov, Permutation.Accepts (E := E) (T := T) p tr sc = Ok (cov, None)) <->
     PermutationFacts.rows n dst ≡ₚ PermutationFacts.rows n src) /\
  (dst = [] -> Permutation.Accepts (E := E) (T := T) p tr sc = Fault index_panic).
Proof.
  intros Hm Hd Hs Hdt Hst Hlen. unfold Permutation.Accepts. rewrite Hm. cbn [mbind result_bind]. rewrite Hs. cbn [mbind result_bind]. rewrite Hd.
  cbn [mbind result_bind]. split.
  - intros Hne. destruct (PermutationFacts.arePermutationOf_ok n dst src) as (b & -> & Hb); [done..|]. cbn [mbind result_bind].
    rewrite <- Hb. destruct b; [split; [done|by eexists]|]. split; [|done]. intros (cov & H). inv_ok. done.
  - intros ->. by destruct src.
Qed.

End Properties.

Section Terms.
Context {F : Type} `{!Element F, !ElementLaws F}.
Implicit Types (tr : list (ArrayModule F)) (sc : list ModuleView) (m : ArrayModule F).

(** A vanishing constraint over a safe term accepts a trace exactly when the integer
    denotation of the term holds on every row that the constraint is checked on. *)
Theorem vanishing_denotes (p : Vanishing.Constraint (Logical F)) tr sc m v :
  Module_ tr (Vanishing.Context_ p) = Ok m -> slice_get sc (Vanishing.Context_ p) = Ok v -> VanishingFacts.sane p m ->
  module_wf m -> logical_wf (Vanishing.Constraint_ p) -> IsUnsafeLogical (Vanishing.Constraint_ p) = false ->
  Forall (access_defined m) (accesses_logical (Vanishing.Constraint_ p)) ->
  (exists cov, Vanishing.Accepts (E := Expr F) p tr sc = Ok (cov, None)) <->
  forall k, VanishingFacts.checked p m k -> holds (row_env k m) (Vanishing.Constraint_ p) = true.
Proof.
  intros Hm Hv Hs Hwf Hl Hu Ha. rewrite (VanishingFacts.Accepts_none p tr sc m v) by done.
  destruct (safe_every (F := F) node_wf) as [_ Hsafe].
  assert (Hb : forall k, TestAt k m (Vanishing.Constraint_ p) = Ok (holds (row_env k m) (Vanishing.Constraint_ p))).
  { intros k. destruct (TermProperties.defined_outcome (fun _ => False) (fun e => node_wf e /\ not_cast e) k m Hwf) as [_ Ht];
      [tauto|intros; tauto|].
    specialize (Ht _ (Hsafe _ Hl Hu) Ha). destruct (TestAt k m (Vanishing.Constraint_ p)) as [b|] eqn:Hb; [|done].
    f_equal. by apply (proj2 (eval_denotes k m Hwf)). }
  cbn. setoid_rewrite Hb. split; intros H k Hk; specialize (H k Hk); congruence.
Qed.

(** The consistency check is enough for safety: on a trace whose modules have the
    registers of the schema as filled columns, vanishing and range constraints that
    it finds consistent return an outcome instead of panicking. *)
Theorem consistent_safe (p : Vanishing.Constraint (Logical F)) (q : Ranged.Constraint (Expr F)) tr sc m m' v v' :
  Module_ tr (Vanishing.Context_ p) = Ok m -> slice_get sc (Vanishing.Context_ p) = Ok v -> covers v m ->
  VanishingFacts.sane p m -> logical_wf (Vanishing.Constraint_ p) -> Vanishing.Consistent p sc = Ok [] ->
  Module_ tr (Ranged.Context_ q) = Ok m' -> slice_get sc (Ranged.Context_ q) = Ok v' -> covers v' m' ->
  0 <= height m' < 2 ^ 63 -> Forall expr_wf (Ranged.Sources q) -> Ranged.Consistent q sc = Ok [] ->
  (exists r, Vanishing.Accepts (E := Expr F) p tr sc = Ok r) /\ (exists r, Ranged.Accepts (T := Logical F) q tr sc = Ok r).
Proof.
  intros Hm Hv Hc Hs Hl Hp Hm' Hv' Hc' Hh Hw Hq. split.
  - apply CheckConsistent_nil in Hp as (w & Hw' & Hregs). apply slice_get_ok in Hv as Hv2. rewrite Hv2 in Hw'. injection Hw' as <-.
    apply Forall_singleton in Hregs as (regs & Hr & Hregs).
    apply (VanishingFacts.Accepts_total p tr sc m v); [done..|]. intros k _. cbn. apply defined_tests; [apply Hc|done|].
    by eapply logical_defined.
  - unfold Ranged.Consistent in Hq. inv_ok. apply app_eq_nil in Hq as [Hlen ->].
    destruct (Nat.eqb_spec (length (Ranged.Bitwidths q)) (length (Ranged.Sources q))) as [Heq|]; [clear Hlen|done].
    assert (Hsrc : Forall (fun e => Forall (access_defined m') (accesses e)) (Ranged.Sources q)).
    { clear Heq Hw. revert Ha. induction (Ranged.Sources q) as [|e es IH]; cbn; [constructor|]. intros Ha. inv_ok.
      apply app_eq_nil in Ha as [-> ->]. constructor; [|by apply IH].
      apply CheckConsistent_nil in Ha0 as (w & Hw' & Hregs). apply slice_get_ok in Hv' as Hv2. rewrite Hv2 in Hw'.
      injection Hw' as <-. apply Forall_singleton in Hregs as (regs & Hr & Hregs). by eapply expr_defined. }
    assert (Hone : forall i, (i < length (Ranged.Sources q))%nat -> exists r, Ranged.accepts_ (T := Logical F) q i tr sc = Ok r).
    { intros i Hi. destruct (lookup_lt_is_Some_2 (Ranged.Sources q) i) as [e He]; [done|].
      destruct (lookup_lt_is_Some_2 (Ranged.Bitwidths q) i) as [bw Hb]; [lia|].
      rewrite (RangedFacts.accepts_scan q tr sc m' v' i e bw) by done. apply scan_total. intros j _.
      unfold RangedFacts.check, try_. rewrite Forall_forall in Hw, Hsrc. assert (Hin := list_elem_of_lookup_2 _ _ _ He).
      destruct (defined_evaluates j m' e) as [[x Hx]|[msg Hx]]; [apply Hc'|by apply Hw|by apply Hsrc| |]; cbn; rewrite Hx;
        [destruct (e_Cmp x _)|]; by eexists. }
    assert (Hall : exists r, Ranged.accepts_sources (T := Logical F) (length (Ranged.Sources q)) 0 q tr sc = Ok r).
    { revert Hone. generalize (length (Ranged.Sources q)) as n. intros n Hone.
      assert (Hgen : forall k i, (i + k <= n)%nat -> exists r, Ranged.accepts_sources (T := Logical F) k i q tr sc = Ok r).
      { induction k as [|k IH]; intros i Hi; cbn; [by eexists|]. destruct (Hone i) as [[f|] ->]; [lia|by eexists|]. cbn. apply IH. lia. }
      apply Hgen. lia. }
    destruct Hall as [r Hr]. unfold Ranged.Accepts. rewrite Hr. by eexists.
Qed.

End Terms.

(** *** Sample constraints over [gf251] *)

Import TermProperties.

Abbreviation GE := (Expr G).
Abbreviation GL := (Logical G).

Definition sample_trace : list (ArrayModule G) := [sample_module].
Definition sample_schema : list ModuleView := [mkView (mkName "m" 1) 2].

Definition x_is_not_y : Vanishing.Constraint GL :=
  Vanishing.NewConstraint "c" 0 None (NotEqual (RegisterAccess (X 0)) (RegisterAccess (Y 0))).

Definition x_small (bitwidth : Z) : Ranged.Constraint GE := Ranged.NewConstraint "r" 0 [RegisterAccess (X 0)] [bitwidth].

(** A bit width whose power of two exceeds the prime wraps around: a range constraint
    of 8 bits over the field of 251 elements rejects 20, which has 5 bits. *)
Theorem ranged_wraps :
  Ranged.Accepts (E := GE) (T := GL) (x_small 8) sample_trace sample_schema
    = Ok (mkSet [], Some (RangeFailure "m.r" 0 (RegisterAccess (X 0)) 8 0)) /\
  Ranged.Accepts (E := GE) (T := GL) (x_small 5) sample_trace sample_schema = Ok (mkSet [], None) /\
  EvalAt 0 sample_module (RegisterAccess (X 0)) = Ok (el 20) /\ val (F := G) (el 20) = 20.
Proof. split_and!; vm_compute; reflexivity. Qed.

Lemma sample_rows (P : Z -> Prop) : P 0 -> P 1 -> P 2 -> forall k, 0 <= k < 3 -> P k.
Proof. intros H0 H1 H2 k Hk. assert (k = 0 \/ k = 1 \/ k = 2) as [->|[->| ->]] by lia; done. Qed.

Lemma x_is_not_y_sane : VanishingFacts.sane x_is_not_y sample_module.
Proof. cbv; repeat split; discriminate. Qed.

Lemma vanishing_accepts_witness :
  exists cov, Vanishing.Accepts (E := GE) x_is_not_y sample_trace sample_schema = Ok (cov, None).
Proof.
  apply (proj1 (vanishing_accepts (E := GE) x_is_not_y sample_trace sample_schema sample_module (mkView (mkName "m" 1) 2)
    eq_refl eq_refl x_is_not_y_sane)).
  intros k Hk. apply (sample_rows (fun k => fst (test_at k sample_module (Vanishing.Constraint_ x_is_not_y)) = Ok true));
    [vm_compute; reflexivity..|exact Hk].
Defined.

Lemma x_is_not_y_wf : logical_wf (Vanishing.Constraint_ x_is_not_y).
Proof. split; (split; [apply (X_wf 0)|done]). Qed.

Lemma vanishing_denotes_witness :
  (exists cov, Vanishing.Accepts (E := GE) x_is_not_y sample_trace sample_schema = Ok (cov, None)) <->
  forall k, VanishingFacts.checked x_is_not_y sample_module k ->
    holds (row_env k sample_module) (Vanishing.Constraint_ x_is_not_y) = true.
Proof.
  apply (vanishing_denotes x_is_not_y sample_trace sample_schema sample_module (mkView (mkName "m" 1) 2) eq_refl eq_refl
    x_is_not_y_sane sample_module_wf x_is_not_y_wf eq_refl).
  repeat constructor; eexists _, _; done.
Defined.

Lemma ranged_accepts_witness :
  exists cov, Ranged.Accepts (T := GL) (x_small 5) sample_trace sample_schema = Ok (cov, None).
Proof.
  apply (ranged_accepts (x_small 5) sample_trace sample_schema sample_module (mkView (mkName "m" 1) 2) eq_refl eq_refl sample_module_wf).
  - cbn. lia.
  - repeat constructor. apply (X_wf 0).
  - reflexivity.
  - repeat constructor; lia.
  - intros [|i] e bw k; [|done]. intros [= <-] [= <-]. revert k.
    apply (sample_rows (fun k => exists x, eval_at k sample_module (RegisterAccess (X 0)) = Ok x /\ _)).
    all: eexists; split; [reflexivity|]; split; [reflexivity|intros _; reflexivity].
Defined.

Lemma consistent_safe_witness :
  exists r, Ranged.Accepts (T := GL) (x_small 5) sample_trace sample_schema = Ok r.
Proof.
  assert (Hc : covers (mkView (mkName "m" 1) 2) sample_module).
  { split; [apply sample_module_wf|]. split; [cbn; lia|]. by repeat constructor. }
  apply (consistent_safe x_is_not_y (x_small 5) sample_trace sample_schema sample_module sample_module
    (mkView (mkName "m" 1) 2) (mkView (mkName "m" 1) 2) eq_refl eq_refl Hc x_is_not_y_sane x_is_not_y_wf eq_refl eq_refl eq_refl Hc).
  - cbn. lia.
  - repeat constructor. apply (X_wf 0).
  - reflexivity.
Defined.

(** A module with two columns, and a constraint between them each *)
Definition order_module : ArrayModule G :=
  mkModule (mkName "o" 1) 3 0
    [NewArrayColumn "A" (Some [el 1; el 3; el 9]) (el 0); NewArrayColumn "B" (Some [el 9; el 1; el 3]) (el 0)].

Lemma order_module_wf : module_wf order_module.
Proof. repeat constructor; try (apply el_ok; lia); intros d [= <-]; repeat constructor; apply el_ok; lia. Qed.

Definition a_sorted : Sorted.Constraint GE := Sorted.NewConstraint "s" 0 3 None [RegisterAccess (X 0)] [true] true.

Lemma sorted_accepts_witness :
  exists cov, Sorted.Accepts (T := GL) a_sorted [order_module] sample_schema = Ok (cov, None).
Proof.
  apply (sorted_accepts a_sorted [order_module] sample_schema order_module (mkView (mkName "m" 1) 2) eq_refl eq_refl order_module_wf).
  - cbn. lia.
  - repeat constructor. apply (X_wf 0).
  - cbn. lia.
  - cbn. lia.
  - cbn. lia.
  - cbn. intros k Hk. right. split; [reflexivity|]. assert (k = 1 \/ k = 2) as [->| ->] by lia.
    + do 2 eexists. split; [reflexivity|]. split; [reflexivity|]. right. left. vm_compute. by repeat split.
    + do 2 eexists. split; [reflexivity|]. split; [reflexivity|]. right. left. vm_compute. by repeat split.
Defined.

Definition ab_permuted : Permutation.Constraint := Permutation.mkConstraint "p" 0 [Some 1%nat] [Some 0%nat].

Lemma permutation_accepts_witness :
  (exists cov, Permutation.Accepts (E := GE) (T := GL) ab_permuted [order_module] sample_schema = Ok (cov, None)) <->
  PermutationFacts.rows 3 [[el 9; el 1; el 3]] ≡ₚ PermutationFacts.rows 3 [[el 1; el 3; el 9]].
Proof.
  refine (proj1 (permutation_accepts (E := GE) (T := GL) ab_permuted [order_module] sample_schema order_module 3
    [[el 9; el 1; el 3]] [[el 1; el 3; el 9]] eq_refl eq_refl eq_refl _ _ eq_refl) _).
  - repeat constructor; apply el_ok; lia.
  - repeat constructor; apply el_ok; lia.
  - discriminate.
Defined.

(** The columns of [order_module] interleaved *)
Definition interleaved_module : ArrayModule G :=
  mkModule (mkName "i" 2) 4 0 [NewArrayColumn "C" (Some [el 1; el 9; el 3; el 1]) (el 0)].

Lemma interleaved_module_wf : module_wf interleaved_module.
Proof. repeat constructor; try (apply el_ok; lia); intros d [= <-]; repeat constructor; apply el_ok; lia. Qed.

Definition ab_interleaved : Interleaving.Constraint GE :=
  Interleaving.NewConstraint "i" 1 0 (RegisterAccess (X 0)) [RegisterAccess (X 0); RegisterAccess (Y 0)].

Lemma interleaving_accepts_witness :
  exists cov, Interleaving.Accepts (T := GL) ab_interleaved [order_module; interleaved_module] (sample_schema ++ sample_schema)
    = Ok (cov, None).
Proof.
  apply (interleaving_accepts ab_interleaved [order_module; interleaved_module] (sample_schema ++ sample_schema)
    interleaved_module order_module (mkView (mkName "m" 1) 2) (mkView (mkName "m" 1) 2)
    eq_refl eq_refl eq_refl eq_refl interleaved_module_wf order_module_wf).
  - cbn. lia.
  - split; [apply (X_wf 0)|done].
  - repeat constructor; apply (X_wf 0).
  - cbn. intros r Hr. assert (r = 0 \/ r = 1 \/ r = 2 \/ r = 3) as [->|[->|[->| ->]]] by lia;
      do 2 eexists; (split; [reflexivity|]); split; vm_compute; reflexivity.
Defined.

End ConstraintProperties.
