(* ===== verification/Lookup.v ===== *)
(** * Lookup constraints

    Models [pkg/schema/constraint/lookup]: the rows of the target vectors are put in
    a hash set, in which the rows of the source vectors are looked up.  The rows are
    evaluated into a buffer that the set then refers to, so the model has the store
    of buffers: the set holds locations, and hashes and compares what they hold. *)

From Stdlib Require Import ZArith Lia.
From stdpp Require Import base numbers list option strings gmap.
From S2P Require Import Prelude BitSet Iter Hash Element Trace Term Constraint.

Open Scope Z_scope.

(** ** Vectors ([vector.go]) *)

Record Vector (E : Type) : Type := mkVector { Module_of : nat; Selector : option E; Terms : list E }.
Arguments mkVector {E} Module_of Selector Terms.
Arguments Module_of {E} _.
Arguments Selector {E} _.
Arguments Terms {E} _.

Section Vectors.
Context {F E : Type} `{!Element F, !Evaluable F E}.
Implicit Types (p : Vector E).

Definition UnfilteredVector (mid : nat) (terms : list E) : Vector E := mkVector mid None terms.

Definition FilteredVector (mid : nat) (selector : E) (terms : list E) : Vector E := mkVector mid (Some selector) terms.

Definition NewVector (mid : nat) (selector : option E) (terms : list E) : Vector E :=
  match selector with Some s => FilteredVector mid s terms | None => UnfilteredVector mid terms end.

Definition HasSelector p : bool := match Selector p with Some _ => true | None => false end.

Definition Len p : nat := length (Terms p).

Definition Ith p (index : nat) : result E := slice_get (Terms p) index.

Definition Context_of p : nat := Module_of p.

Definition Bounds_vector p (module : nat) : Bounds.t :=
  if (module =? Module_of p)%nat then
    let bound := match Selector p with
                 | Some s => Bounds.Union (Bounds.NewBounds 0 0) (eval_bounds s)
                 | None => Bounds.NewBounds 0 0
                 end in
    foldl (fun bound e => Bounds.Union bound (eval_bounds e)) bound (Terms p)
  else Bounds.NewBounds 0 0.

Definition Substitute_vector (mapping : gmap string F) p : Vector E :=
  mkVector (Module_of p) (option_map (eval_substitute mapping) (Selector p)) (map (eval_substitute mapping) (Terms p)).

End Vectors.

(** ** Constraints ([constraint.go]) *)

Abbreviation Loc := nat.
Abbreviation Store F := (list (list F)).

Section Lookup.
Context {F E T : Type} `{!Element F, !Evaluable F E, !Hasher F}.
Abbreviation Trace := (list (ArrayModule F)).
Abbreviation Failure := (Failure E T).

Record Constraint : Type := mkConstraint { Handle : string; Targets : list (Vector E); Sources : list (Vector E) }.

(** [for i, ith := range sources] *)
Fixpoint check_sources (i : nat) (width : nat) (sources : list (Vector E)) : result nat :=
  match sources with
  | [] => Ok width
  | ith :: rest =>
      if negb (i =? 0)%nat && negb (Len ith =? width)%nat then Fault (Panic "inconsistent number of source lookup columns")
      else check_sources (S i) (Len ith) rest
  end.

Fixpoint check_targets (width : nat) (targets : list (Vector E)) : result unit :=
  match targets with
  | [] => Ok tt
  | ith :: rest =>
      if negb (Len ith =? width)%nat then Fault (Panic "inconsistent number of target lookup columns")
      else check_targets width rest
  end.

Definition NewConstraint (handle : string) (targets sources : list (Vector E)) : result Constraint :=
  width ← check_sources 0 0 sources;
  _ ← check_targets width targets;
  Ok (mkConstraint handle targets sources).

Definition Consistent (p : Constraint) (sc : list ModuleView) : result (list consistency_error) := Ok [].

Definition Contexts (p : Constraint) : list nat := map Module_of (Sources p) ++ map Module_of (Targets p).

Definition Bounds (p : Constraint) (module : nat) : Bounds.t :=
  let bound := foldl (fun bound ith => Bounds.Union bound (Bounds_vector (F := F) ith module)) (Bounds.NewBounds 0 0) (Sources p) in
  foldl (fun bound ith => Bounds.Union bound (Bounds_vector (F := F) ith module)) bound (Targets p).

Definition Substitute (mapping : gmap string F) (p : Constraint) : Constraint :=
  mkConstraint (Handle p) (map (Substitute_vector mapping) (Targets p)) (map (Substitute_vector mapping) (Sources p)).

(** *** The store of buffers: a location is an index of the list *)

Definition contents_of (store : Store F) (l : Loc) : Array F := NewArray (default [] (store !! l)).

(** [hash.NewArray] of a buffer: its location, hashed and compared by its contents *)
Definition Loc_Hasher (store : Store F) : Hasher Loc := {|
  Equals l l' := Equals (contents_of store l) (contents_of store l');
  Hash l := Hash (contents_of store l)
|}.

Record State : Type := mkState { handle : string; rows : HashSet.t Loc; buffer : Loc; store : Store F }.

(** The loop of [evalExprsArray]: the terms from the [i]th on. *)
Fixpoint eval_terms (k : Z) (mid : nat) (i : nat) (terms : list E) (trModule : ArrayModule F) (p : State) :
    result (option Failure * State) :=
  match terms with
  | [] => Ok (None, p)
  | e :: rest =>
      let r := eval_at k trModule e in
      match r with
      | Fault (Panic msg) => Fault (Panic msg)
      | Fault OutOfFuel => Fault OutOfFuel
      | _ =>
          (* The assignment of [p.buffer[i], err] comes before the check. *)
          b ← slice_get (store p) (buffer p);
          b ← slice_set b i (match r with Ok v => v | Fault _ => e_zero end);
          let p := mkState (handle p) (rows p) (buffer p) (<[buffer p := b]> (store p)) in
          match r with
          | Fault (Error msg) => Ok (Some (InternalFailure (handle p) mid k (Some (inl e)) msg), p)
          | _ => eval_terms k mid (S i) rest trModule p
          end
      end
  end.

Definition evalExprsArray (p : State) (k : Z) (vec : Vector E) (trModule : ArrayModule F) : result (option Failure * State) :=
  eval_terms k (Module_of vec) 0 (Terms vec) trModule p.

Definition insertTargetVector (p : State) (k : Z) (vec : Vector E) (trModule : ArrayModule F) : result (option Failure * State) :=
  '(err, p) ← evalExprsArray p k vec trModule;
  match err with
  | Some f => Ok (Some f, p)
  | None =>
      let (present, rows') := @HashSet.Insert Loc (Loc_Hasher (store p)) (rows p) (buffer p) in
      if present : bool then Ok (None, mkState (handle p) rows' (buffer p) (store p))
      else
        (* [slices.Clone]: the new buffer is the next location. *)
        b ← slice_get (store p) (buffer p);
        Ok (None, mkState (handle p) rows' (length (store p)) (store p ++ [b]))
  end.

Definition insertFilteredVector (p : State) (k : Z) (vec : Vector E) (trMod : ArrayModule F) : result (option Failure * State) :=
  match Selector vec with
  | None => insertTargetVector p k vec trMod
  | Some selector =>
      try_ (eval_at k trMod selector)
        (fun msg => Ok (Some (InternalFailure (handle p) (Module_of vec) k (Some (inl selector)) msg), p))
        (fun ith => if negb (e_IsZero ith) then insertTargetVector p k vec trMod else Ok (None, p))
  end.

Definition checkSourceVector (p : State) (k : Z) (vec : Vector E) (trModule : ArrayModule F) : result (option Failure * State) :=
  '(err, p) ← evalExprsArray p k vec trModule;
  match err with
  | Some f => Ok (Some f, p)
  | None =>
      if negb (@HashSet.Contains Loc (Loc_Hasher (store p)) (rows p) (buffer p))
      then Ok (Some (LookupFailure (handle p) (Module_of vec) (Terms vec) k), p)
      else Ok (None, p)
  end.

Definition checkFilteredSourceVector (p : State) (k : Z) (vec : Vector E) (trModule : ArrayModule F) :
    result (option Failure * State) :=
  match Selector vec with
  | None => checkSourceVector p k vec trModule
  | Some selector =>
      try_ (eval_at k trModule selector)
        (fun msg => Ok (Some (InternalFailure (handle p) (Module_of vec) k (Some (inl selector)) msg), p))
        (fun ith => if negb (e_IsZero ith) then checkSourceVector p k vec trModule else Ok (None, p))
  end.

(** [for i := range int(height)] around one of the above: [n] rows are left. *)
Fixpoint each_row (f : State -> Z -> result (option Failure * State)) (n : nat) (k : Z) (p : State) :
    result (option Failure * State) :=
  match n with
  | O => Ok (None, p)
  | S n =>
      '(err, p) ← f p k;
      match err with Some e => Ok (Some e, p) | None => each_row f n (k + 1) p end
  end.

(** The loops over the vectors; an unfiltered vector takes the optimised loop. *)
Fixpoint insert_targets (targets : list (Vector E)) (tr : Trace) (sc : list ModuleView) (p : State) :
    result (option Failure * State) :=
  match targets with
  | [] => Ok (None, p)
  | target :: rest =>
      trModule ← Module_ tr (Module_of target);
      scModule ← slice_get sc (Module_of target);
      let step := if HasSelector target then fun p k => insertFilteredVector p k target trModule
                  else fun p k => insertTargetVector p k target trModule in
      '(err, p) ← each_row step (Z.to_nat (to_int (height trModule))) 0 p;
      match err with Some e => Ok (Some e, p) | None => insert_targets rest tr sc p end
  end.

Fixpoint checkSourceVectors (sources : list (Vector E)) (tr : Trace) (sc : list ModuleView) (p : State) :
    result (option Failure * State) :=
  match sources with
  | [] => Ok (None, p)
  | source :: rest =>
      trModule ← Module_ tr (Module_of source);
      scModule ← slice_get sc (Module_of source);
      let step := if HasSelector source then fun p k => checkFilteredSourceVector p k source trModule
                  else fun p k => checkSourceVector p k source trModule in
      '(err, p) ← each_row step (Z.to_nat (to_int (height trModule))) 0 p;
      match err with Some e => Ok (Some e, p) | None => checkSourceVectors rest tr sc p end
  end.

Definition insertTargetVectors (p : Constraint) (tr : Trace) (sc : list ModuleView) : result (option Failure * State) :=
  source ← slice_get (Sources p) 0;
  target ← slice_get (Targets p) 0;
  m ← Module_ tr (Module_of target);
  insert_targets (Targets p) tr sc
    (mkState (Handle p) (HashSet.NewSet (Z.to_nat (height m))) 0%nat [replicate (Len source) e_zero]).

Definition Accepts (p : Constraint) (tr : Trace) (sc : list ModuleView) : result (Set_ * option Failure) :=
  '(err, st) ← insertTargetVectors p tr sc;
  match err with
  | Some f => Ok (mkSet [], Some f)
  | None => '(err, st) ← checkSourceVectors (Sources p) tr sc st; Ok (mkSet [], err)
  end.

End Lookup.
Arguments Constraint : clear implicits.
