(* ===== verification/LookupFacts.v ===== *)
(** * What lookup constraints accept

    The rows that the target vectors select are collected, and a lookup accepts when
    each row that the source vectors select is among them.  The invariant of the
    state is about the store of buffers: the set has_row none of the locations that
    will still be written. *)

From Stdlib Require Import ZArith Lia.
From stdpp Require Import base numbers list option strings gmap.
From S2P Require Import Prelude BitSet FieldElement Iter Hash Element Trace Term TermFacts TermReads Constraint ConstraintFacts Lookup.
Import HashSetFacts.

Open Scope Z_scope.

#[local] Arguments contents_of : simpl never.
#[local] Arguments Array_Hash : simpl never.
#[local] Arguments Array_Equals : simpl never.

(** ** Keys whose equality is that of the model *)

Class ExactHasher (T : Type) `{!Hasher T} : Prop := equals_eq (x y : T) : Equals x y = true <-> x = y.

#[export, program] Instance ExactHasher_laws {T} `{!Hasher T, !ExactHasher T} : HasherLaws T.
Next Obligation. intros. by apply equals_eq. Qed.
Next Obligation. intros ? ? ? x y H%equals_eq. by apply equals_eq. Qed.
Next Obligation. intros ? ? ? x y z H1%equals_eq H2%equals_eq. apply equals_eq. congruence. Qed.
Next Obligation. intros ? ? ? x y H%equals_eq. by subst. Qed.

(** The hash code of an element of a Montgomery field *)
#[export] Instance element_Hasher (c : constants) : Hasher (element c) := {|
  Equals := FieldElement.Equals;
  Hash x := u64 (Z.lxor offset64 x * prime64)
|}.

#[export] Instance element_ExactHasher c : ExactHasher (element c).
Proof. intros x y. apply Z.eqb_eq. Qed.

Section Arrays.
Context {F : Type} `{!Hasher F, !ExactHasher F}.

Lemma Array_Equals_eq (x y : list F) : Array_Equals (NewArray x) (NewArray y) = true <-> x = y.
Proof.
  rewrite Array_Equals_Forall2. cbn.
  rewrite list_eq_Forall2. split; intros H; (eapply Forall2_impl; [exact H|]); intros a b; apply equals_eq.
Qed.

Lemma contents_at (store : Store F) l c : store !! l = Some c -> contents_of store l = NewArray c.
Proof. unfold contents_of. by intros ->. Qed.

Lemma Loc_laws (store : Store F) : @HasherLaws Loc (Loc_Hasher store).
Proof.
  pose proof (Array_laws (T := F)) as [Hr Hs Ht Hh]. split; cbn.
  - intros l. apply Hr.
  - intros l l'. apply Hs.
  - intros l l' l''. apply Ht.
  - intros l l'. apply Hh.
Qed.

End Arrays.

(** ** The rows that vectors select *)

Section Rows.
Context {F E : Type} `{!Element F, !Evaluable F E}.

Fixpoint evaluated (k : Z) (m : ArrayModule F) (terms : list E) : result (list F) :=
  match terms with
  | [] => Ok []
  | e :: rest => v ← eval_at k m e; vs ← evaluated k m rest; Ok (v :: vs)
  end.

(** The row of a vector, none when its selector is zero *)
Definition vector_row (k : Z) (m : ArrayModule F) (vec : Vector E) : result (option (list F)) :=
  match Selector vec with
  | None => vs ← evaluated k m (Terms vec); Ok (Some vs)
  | Some s => v ← eval_at k m s; if e_IsZero v then Ok None else (vs ← evaluated k m (Terms vec); Ok (Some vs))
  end.

Fixpoint vector_rows (n : nat) (k : Z) (m : ArrayModule F) (vec : Vector E) : result (list (list F)) :=
  match n with
  | O => Ok []
  | S n => r ← vector_row k m vec; rest ← vector_rows n (k + 1) m vec; Ok (option_list r ++ rest)
  end.

Fixpoint rows_of (tr : list (ArrayModule F)) (vecs : list (Vector E)) : result (list (list F)) :=
  match vecs with
  | [] => Ok []
  | vec :: rest =>
      m ← Module_ tr (Module_of vec);
      rs ← vector_rows (Z.to_nat (height m)) 0 m vec;
      rs' ← rows_of tr rest;
      Ok (rs ++ rs')
  end.

Lemma evaluated_length k m terms vs : evaluated k m terms = Ok vs -> length vs = length terms.
Proof. revert vs. induction terms as [|e es IH]; cbn; intros vs H; inv_ok; subst; [done|]. cbn. f_equal. by apply IH. Qed.

End Rows.

(** ** The state of a lookup *)

Section State_.
Context {F E T : Type} `{!Element F, !Evaluable F E, !Hasher F, !ExactHasher F}.
Implicit Types (p : State (F := F)) (m : ArrayModule F) (vec : Vector E) (r x : list F).

(** The set has a row when one of its locations has_row it. *)
Definition has_row p x : Prop := exists h b l, HashSet.items (rows p) !! h = Some b /\ l ∈ b /\ store p !! l = Some x.

Record state_ok (w : nat) p : Prop := {
  ok_buffer : exists b, store p !! buffer p = Some b /\ length b = w;
  ok_locs : forall h b l, HashSet.items (rows p) !! h = Some b -> l ∈ b -> l <> buffer p /\ (l < length (store p))%nat;
  ok_set : @set_ok Loc (Loc_Hasher (store p)) (rows p)
}.

(** Writing to the buffer changes neither the set nor the rows it has. *)
Definition with_buffer p (b : list F) : State (F := F) := mkState (handle p) (rows p) (buffer p) (<[buffer p := b]> (store p)).

Lemma set_ok_store p st' :
  (forall h b l, HashSet.items (rows p) !! h = Some b -> l ∈ b -> st' !! l = store p !! l) ->
  @set_ok Loc (Loc_Hasher (store p)) (rows p) -> @set_ok Loc (Loc_Hasher st') (rows p).
Proof.
  intros Hsame Hok h b Hb. destruct (Hok h b Hb) as [Hh Hp]. specialize (Hsame h b).
  assert (Hc : forall l, l ∈ b -> contents_of st' l = contents_of (store p) l).
  { intros l Hl. unfold contents_of. by rewrite (Hsame l Hb Hl). }
  split.
  - apply Forall_forall. intros l Hl. rewrite Forall_forall in Hh. rewrite <- (Hh l Hl). cbn. by rewrite Hc.
  - clear Hh Hb Hsame. induction Hp as [|l b Hl Hp IH]; constructor.
    + rewrite Forall_forall in Hl |- *. intros j Hj. rewrite <- (Hl j Hj). cbn. rewrite !Hc; [done|set_solver..].
    + apply IH. intros l' Hl'. apply Hc. by right.
Qed.

Lemma with_buffer_ok w p b : state_ok w p -> length b = w -> state_ok w (with_buffer p b) /\ forall x, has_row (with_buffer p b) x <-> has_row p x.
Proof.
  intros [(b0 & Hb0 & Hw0) Hl Hs] Hb.
  assert (Hsame : forall h b' l, HashSet.items (rows p) !! h = Some b' -> l ∈ b' -> <[buffer p := b]> (store p) !! l = store p !! l).
  { intros h b' l Hb' Hin. apply list_lookup_insert_ne. destruct (Hl h b' l Hb' Hin) as [Hne _]. congruence. }
  split.
  - split; unfold with_buffer; cbn [handle rows buffer store].
    + exists b. split; [|done]. apply list_lookup_insert_eq. by eapply lookup_lt_Some.
    + intros h b' l Hb' Hin. destruct (Hl h b' l Hb' Hin). split; [done|].
      by replace (length (<[buffer p := b]> (store p))) with (length (store p)) by (symmetry; apply length_insert).
    + by apply set_ok_store.
  - intros x. unfold has_row. cbn. split; intros (h & b' & l & Hb' & Hin & Hx); exists h, b', l; (split; [done|split; [done|]]).
    + by rewrite (Hsame h b' l Hb' Hin) in Hx.
    + by rewrite (Hsame h b' l Hb' Hin).
Qed.

(** The set has the row in the buffer. *)
Lemma Contains_has_row w p b :
  state_ok w p -> store p !! buffer p = Some b ->
  @HashSet.Contains Loc (Loc_Hasher (store p)) (rows p) (buffer p) = true <-> has_row p b.
Proof.
  intros [_ Hl Hs] Hb. rewrite (@Contains_bucket Loc (Loc_Hasher (store p))), (@bucket_contains_spec Loc (Loc_Hasher (store p))).
  assert (Heq : forall l h bk, HashSet.items (rows p) !! h = Some bk -> l ∈ bk ->
    @Equals Loc (Loc_Hasher (store p)) (buffer p) l = true <-> store p !! l = Some b).
  { intros l h bk Hbk Hin. destruct (Hl h bk l Hbk Hin) as [_ Hlt]. cbn.
    destruct (lookup_lt_is_Some_2 _ _ Hlt) as [c Hc]. rewrite (contents_at _ _ _ Hb), (contents_at _ _ _ Hc), Array_Equals_eq. split; congruence. }
  unfold bucket_at. split.
  - intros (l & Hin & He). destruct (HashSet.items (rows p) !! _) as [bk|] eqn:Hbk; [|by apply elem_of_nil in Hin].
    cbn in Hin. eexists _, bk, l. split; [exact Hbk|]. split; [done|]. by apply (Heq l _ bk Hbk Hin).
  - intros (h & bk & l & Hbk & Hin & Hx). exists l. assert (He := proj2 (Heq l h bk Hbk Hin) Hx).
    assert (Hh : @Hash Loc (Loc_Hasher (store p)) (buffer p) = h).
    { rewrite (@equals_hash Loc (Loc_Hasher (store p)) (Loc_laws _) _ _ He). destruct (Hs h bk Hbk) as [Hf _].
      rewrite Forall_forall in Hf. by apply Hf. }
    rewrite Hh, Hbk. by split.
Qed.

(** Insertion of the row in the buffer: the bucket of its code is left alone when it
    has the row. *)
Lemma insert_present w p h :
  state_ok w p -> @HashSet.bucket_contains Loc (Loc_Hasher (store p)) (bucket_at (rows p) h) (buffer p) = true ->
  mkState (handle p) (HashSet.mkSet (<[h := bucket_at (rows p) h]> (HashSet.items (rows p)))) (buffer p) (store p) = p.
Proof.
  intros Hok Hp. apply (@bucket_contains_spec Loc (Loc_Hasher (store p))) in Hp as (i & Hi & _). unfold bucket_at in *.
  destruct p as [hd [its] bf st]. cbn in *. destruct (its !! h) as [bk|] eqn:Hbk; [by rewrite insert_id|by apply elem_of_nil in Hi].
Qed.

Section Absent.
Context (w : nat) (p : State (F := F)) (b : list F) (h0 : Z) (Hok : state_ok w p) (Hb : store p !! buffer p = Some b).

Definition added : State (F := F) :=
  mkState (handle p) (HashSet.mkSet (<[h0 := bucket_at (rows p) h0 ++ [buffer p]]> (HashSet.items (rows p))))
    (length (store p)) (store p ++ [b]).

Lemma added_items h bk l : HashSet.items (rows added) !! h = Some bk -> l ∈ bk ->
  (h = h0 /\ l = buffer p) \/ exists bk', HashSet.items (rows p) !! h = Some bk' /\ l ∈ bk'.
Proof.
  cbn. intros [[<- <-]|[Hne Hbk]]%lookup_insert_Some Hin; [|right; by exists bk].
  apply elem_of_app in Hin as [Hin| ->%list_elem_of_singleton]; [|by left]. right. unfold bucket_at in Hin.
  destruct (HashSet.items (rows p) !! h0) as [bk'|]; [by exists bk'|by apply elem_of_nil in Hin].
Qed.

Lemma added_store l : (l < length (store p))%nat -> store added !! l = store p !! l.
Proof. intros. by apply lookup_app_l. Qed.

Lemma added_locs h bk l : HashSet.items (rows added) !! h = Some bk -> l ∈ bk -> (l < length (store p))%nat.
Proof.
  intros Hbk Hin. destruct (added_items h bk l Hbk Hin) as [[-> ->]|(bk' & Hbk' & Hin')]; [by eapply lookup_lt_Some|].
  by destruct (ok_locs w p Hok _ _ _ Hbk' Hin').
Qed.

Lemma added_ok : @set_ok Loc (Loc_Hasher (store p)) (rows added) -> state_ok w added.
Proof.
  intros Hset. destruct (ok_buffer w p Hok) as (b0 & Hb0 & Hw). split.
  - exists b. split; [by apply list_lookup_middle|congruence].
  - intros h bk l Hbk Hin. assert (Hlt := added_locs h bk l Hbk Hin). cbn. rewrite length_app. cbn. lia.
  - apply (set_ok_store (mkState (handle p) (rows added) (buffer p) (store p)) (store added)); [|done].
    intros h bk l Hbk Hin. by apply added_store, (added_locs h bk).
Qed.

Lemma added_rows x : has_row added x <-> x = b \/ has_row p x.
Proof.
  split.
  - intros (h & bk & l & Hbk & Hin & Hx). rewrite added_store in Hx by by apply (added_locs h bk).
    destruct (added_items h bk l Hbk Hin) as [[-> ->]|(bk' & Hbk' & Hin')]; [left; congruence|right; by exists h, bk', l].
  - intros [->|(h & bk & l & Hbk & Hin & Hx)].
    + exists h0. eexists _, (buffer p). split; [apply lookup_insert_eq|]. split; [set_solver|].
      by rewrite added_store by by eapply lookup_lt_Some.
    + assert (Hs : store added !! l = Some x) by by rewrite added_store by by eapply lookup_lt_Some.
      destruct (decide (h = h0)) as [->|Hne].
      * exists h0. eexists _, l. split; [apply lookup_insert_eq|]. split; [|done]. unfold bucket_at. rewrite Hbk. set_solver.
      * exists h, bk, l. cbn. by rewrite lookup_insert_ne by done.
Qed.

End Absent.

Lemma insert_row w p b :
  state_ok w p -> store p !! buffer p = Some b ->
  let (present, rows') := @HashSet.Insert Loc (Loc_Hasher (store p)) (rows p) (buffer p) in
  let p' := if present : bool then mkState (handle p) rows' (buffer p) (store p)
            else mkState (handle p) rows' (length (store p)) (store p ++ [b]) in
  state_ok w p' /\ forall x, has_row p' x <-> x = b \/ has_row p x.
Proof.
  intros Hok Hb. assert (Hc := Contains_has_row w p b Hok Hb).
  assert (Hi := @Insert_ok Loc (Loc_Hasher (store p)) (rows p) (buffer p) (ok_set w p Hok)).
  rewrite (@Contains_bucket Loc (Loc_Hasher (store p))) in Hc.
  rewrite (@Insert_bucket Loc (Loc_Hasher (store p))) in Hi |- *. cbn [snd] in Hi. unfold HashSet.bucket_insert in *.
  destruct (@HashSet.bucket_contains Loc (Loc_Hasher (store p)) (bucket_at (rows p) _) (buffer p)) eqn:Hp; cbn [snd fst] in *.
  - rewrite (insert_present w p) by done. split; [done|]. intros x. split; [by right|]. intros [->|Hx]; [by apply Hc|done].
  - split; [by apply (added_ok w p b)|by apply (added_rows w p b)].
Qed.

(** *** Evaluation into the buffer *)

Lemma with_buffer_twice p b b' : with_buffer (with_buffer p b) b' = with_buffer p b'.
Proof. unfold with_buffer. cbn. by rewrite list_insert_insert_eq. Qed.

Lemma with_buffer_id p b : store p !! buffer p = Some b -> with_buffer p b = p.
Proof. intros H. unfold with_buffer. rewrite list_insert_id by done. by destruct p. Qed.

Lemma with_buffer_lookup p b b' : store p !! buffer p = Some b -> store (with_buffer p b') !! buffer (with_buffer p b') = Some b'.
Proof. intros H. apply list_lookup_insert_eq. by eapply lookup_lt_Some. Qed.

Lemma eval_terms_spec k mid m terms i p b :
  store p !! buffer p = Some b -> (i + length terms)%nat = length b ->
  match evaluated k m terms with
  | Ok vs => eval_terms (T := T) k mid i terms m p = Ok (None, with_buffer p (take i b ++ vs))
  | Fault (Error msg) => exists e b', length b' = length b /\
      eval_terms (T := T) k mid i terms m p = Ok (Some (InternalFailure (handle p) mid k (Some (inl e)) msg), with_buffer p b')
  | Fault f => eval_terms (T := T) k mid i terms m p = Fault f
  end.
Proof.
  revert i p b. induction terms as [|e terms IH]; intros i p b Hb Hi; cbn [evaluated eval_terms].
  { cbn in Hi. rewrite app_nil_r, take_ge by lia. by rewrite with_buffer_id. }
  cbn [length] in Hi. destruct (eval_at k m e) as [v|[msg|msg|]] eqn:He; [|..|done|done].
  - unfold slice_get, slice_set. rewrite Hb. cbn [mbind result_bind]. rewrite decide_True by lia. cbn [mbind result_bind].
    fold (with_buffer p (<[i := v]> b)).
    specialize (IH (S i) (with_buffer p (<[i := v]> b)) (<[i := v]> b)). rewrite length_insert in IH.
    specialize (IH (with_buffer_lookup p b _ Hb)). destruct (evaluated k m terms) as [vs|[msg|msg|]]; cbn [mbind result_bind].
    + rewrite IH by lia. do 2 f_equal. rewrite with_buffer_twice. f_equal.
      rewrite (take_S_r _ _ v), take_insert_ge, <-app_assoc; [done|lia|]. apply list_lookup_insert_eq. lia.
    + destruct IH as (e' & b' & Hl & Hr); [lia|]. exists e', b'. split; [done|]. by rewrite Hr, with_buffer_twice.
    + apply IH. lia.
    + apply IH. lia.
  - unfold slice_get, slice_set. rewrite Hb. cbn [mbind result_bind]. rewrite decide_True by lia. cbn [mbind result_bind].
    exists e, (<[i := e_zero]> b). by rewrite length_insert.
Qed.

(** *** One row *)

(** What a row of a vector does to the state, when it has a value, none, an error or a panic *)
Definition row_spec (w : nat) p k vec (row : result (option (list F))) (out : result (option (Failure E T) * State (F := F)))
    (done_ : list F -> option (Failure E T) * State (F := F) -> Prop) : Prop :=
  match row with
  | Ok None => out = Ok (None, p)
  | Ok (Some r) => exists o, out = Ok o /\ state_ok w (snd o) /\ handle (snd o) = handle p /\ done_ r o
  | Fault (Error msg) => exists e p', out = Ok (Some (InternalFailure (handle p) (Module_of vec) k (Some (inl e)) msg), p')
  | Fault f => out = Fault f
  end.

Lemma evalExprsArray_spec w k m vec p (next : State (F := F) -> result (option (Failure E T) * State (F := F))) done_ :
  state_ok w p -> length (Terms vec) = w ->
  (forall vs, length vs = w -> exists o, next (with_buffer p vs) = Ok o /\ state_ok w (snd o) /\ handle (snd o) = handle p /\ done_ vs o) ->
  row_spec w p k vec (vs ← evaluated k m (Terms vec); Ok (Some vs))
    ('(err, p) ← evalExprsArray p k vec m; match err with Some f => Ok (Some f, p) | None => next p end) done_.
Proof.
  intros Hok Hw Hnext. destruct (ok_buffer w p Hok) as (b & Hb & Hl).
  assert (Hspec := eval_terms_spec k (Module_of vec) m (Terms vec) 0 p b Hb ltac:(lia)). unfold evalExprsArray.
  assert (Hlen := evaluated_length k m (Terms vec)). destruct (evaluated k m (Terms vec)) as [vs|[msg|msg|]]; cbn.
  - rewrite Hspec. cbn. apply Hnext. rewrite <- Hw. by apply Hlen.
  - destruct Hspec as (e & b' & _ & ->). cbn. by eexists _, _.
  - by rewrite Hspec.
  - by rewrite Hspec.
Qed.

(** The selector decides whether the row is looked at. *)
Lemma selected_spec w k m vec p (next : State (F := F) -> result (option (Failure E T) * State (F := F))) done_ :
  row_spec w p k vec (vs ← evaluated k m (Terms vec); Ok (Some vs)) (next p) done_ ->
  row_spec w p k vec (vector_row k m vec)
    (match Selector vec with
     | None => next p
     | Some selector =>
         try_ (eval_at k m selector)
           (fun msg => Ok (Some (InternalFailure (handle p) (Module_of vec) k (Some (inl selector)) msg), p))
           (fun ith => if negb (e_IsZero ith) then next p else Ok (None, p))
     end) done_.
Proof.
  intros H. unfold vector_row. destruct (Selector vec) as [s|]; [|done].
  destruct (eval_at k m s) as [v|[msg|msg|]]; cbn; [|by eexists _, _|done|done]. by destruct (e_IsZero v).
Qed.

Lemma insertFilteredVector_spec w k m vec p :
  state_ok w p -> length (Terms vec) = w ->
  row_spec w p k vec (vector_row k m vec) (insertFilteredVector p k vec m)
    (fun r o => fst o = None /\ forall x, has_row (snd o) x <-> x = r \/ has_row p x).
Proof.
  intros Hok Hw. apply (selected_spec w k m vec p (fun p => insertTargetVector p k vec m)).
  apply (evalExprsArray_spec w k m vec p (fun p =>
    let (present, rows') := @HashSet.Insert Loc (Loc_Hasher (store p)) (rows p) (buffer p) in
    if present : bool then Ok (None, mkState (handle p) rows' (buffer p) (store p))
    else b ← slice_get (store p) (buffer p); Ok (None, mkState (handle p) rows' (length (store p)) (store p ++ [b])))); [done..|].
  intros vs Hvs. destruct (with_buffer_ok w p vs Hok Hvs) as [Hok' Hrows]. destruct (ok_buffer w p Hok) as (b & Hb & _).
  assert (Hi := insert_row w _ vs Hok' (with_buffer_lookup p b vs Hb)). assert (Hv := with_buffer_lookup p b vs Hb).
  destruct (@HashSet.Insert Loc _ _ _) as [present rows']. apply slice_get_ok in Hv.
  destruct present; [|rewrite Hv]; cbn in *; eexists; (split; [done|]); destruct Hi as [Hi1 Hi2];
    (split; [exact Hi1|]); (split; [done|]); (split; [done|]); intros x; by rewrite <- Hrows.
Qed.

Lemma checkFilteredSourceVector_spec w k m vec p :
  state_ok w p -> length (Terms vec) = w ->
  row_spec w p k vec (vector_row k m vec) (checkFilteredSourceVector p k vec m)
    (fun r o => (forall x, has_row (snd o) x <-> has_row p x) /\
       (fst o = None /\ has_row p r \/ fst o = Some (LookupFailure (handle p) (Module_of vec) (Terms vec) k) /\ ~ has_row p r)).
Proof.
  intros Hok Hw. apply (selected_spec w k m vec p (fun p => checkSourceVector p k vec m)).
  apply (evalExprsArray_spec w k m vec p (fun p =>
    if negb (@HashSet.Contains Loc (Loc_Hasher (store p)) (rows p) (buffer p))
    then Ok (Some (LookupFailure (handle p) (Module_of vec) (Terms vec) k), p) else Ok (None, p))); [done..|].
  intros vs Hvs. destruct (with_buffer_ok w p vs Hok Hvs) as [Hok' Hrows]. destruct (ok_buffer w p Hok) as (b & Hb & _).
  assert (Hc := Contains_has_row w _ vs Hok' (with_buffer_lookup p b vs Hb)). rewrite Hrows in Hc.
  destruct (@HashSet.Contains Loc _ _ _); cbn; eexists; (split; [done|]); (split; [exact Hok'|]); (split; [done|]); (split; [exact Hrows|]).
  - left. split; [done|]. by apply Hc.
  - right. split; [done|]. intros Hr. by apply Hc in Hr.
Qed.

(** *** The rows of a vector, and the vectors *)

Definition insert_step m vec p (k : Z) : result (option (Failure E T) * State (F := F)) :=
  if HasSelector vec then insertFilteredVector p k vec m else insertTargetVector p k vec m.

Definition check_step m vec p (k : Z) : result (option (Failure E T) * State (F := F)) :=
  if HasSelector vec then checkFilteredSourceVector p k vec m else checkSourceVector p k vec m.

(** The optimised loop does what the filtered one does. *)
Lemma insert_step_filtered m vec p k : insert_step m vec p k = insertFilteredVector p k vec m.
Proof. unfold insert_step, insertFilteredVector, HasSelector. by destruct (Selector vec). Qed.

Lemma check_step_filtered m vec p k : check_step m vec p k = checkFilteredSourceVector p k vec m.
Proof. unfold check_step, checkFilteredSourceVector, HasSelector. by destruct (Selector vec). Qed.

Definition is_lookup (f : Failure E T) : bool := match f with LookupFailure _ _ _ _ => true | _ => false end.

Lemma insert_rows w m vec n k p :
  state_ok w p -> length (Terms vec) = w ->
  match vector_rows n k m vec with
  | Ok rs => exists p', each_row (insert_step m vec) n k p = Ok (None, p') /\ state_ok w p' /\ handle p' = handle p /\
      forall x, has_row p' x <-> x ∈ rs \/ has_row p x
  | Fault _ => forall err p', each_row (insert_step m vec) n k p = Ok (err, p') -> exists f, err = Some f /\ is_lookup f = false
  end.
Proof.
  revert k p. induction n as [|n IH]; intros k p Hok Hw; cbn [vector_rows each_row].
  { exists p. split_and!; [done..|]. intros x. set_solver. }
  assert (Hs := insertFilteredVector_spec w k m vec p Hok Hw). rewrite insert_step_filtered. unfold row_spec in Hs.
  destruct (vector_row k m vec) as [[r|]|f]; cbn [mbind result_bind option_list].
  - destruct Hs as ([err p1] & -> & Hok1 & Hh1 & Herr & Hr1). cbn [mbind result_bind fst snd] in *. subst err. specialize (IH (k + 1) p1 Hok1 Hw).
    destruct (vector_rows n (k + 1) m vec) as [rs|]; cbn; [|done]. destruct IH as (p2 & -> & Hok2 & Hh2 & Hr2).
    exists p2. split_and!; [done..|congruence|]. intros x. rewrite Hr2, Hr1. set_solver.
  - rewrite Hs. cbn [mbind result_bind]. specialize (IH (k + 1) p Hok Hw). by destruct (vector_rows n (k + 1) m vec) as [rs|].
  - intros err p'. destruct f as [msg|msg|]; [destruct Hs as (e & p1 & ->)|rewrite Hs..]; cbn; [|done..].
    intros [= <- <-]. by eexists.
Qed.

(** Row [j] of the vector is not in the set. *)
Definition missing_row m vec p (j : Z) : Prop := exists r, vector_row j m vec = Ok (Some r) /\ ~ has_row p r.

Lemma check_rows w m vec n k p :
  state_ok w p -> length (Terms vec) = w ->
  (forall rs, vector_rows n k m vec = Ok rs -> Forall (has_row p) rs -> exists p', each_row (check_step m vec) n k p = Ok (None, p')) /\
  forall err p', each_row (check_step m vec) n k p = Ok (err, p') ->
    match err with
    | None => state_ok w p' /\ handle p' = handle p /\ (forall x, has_row p' x <-> has_row p x) /\
        exists rs, vector_rows n k m vec = Ok rs /\ Forall (has_row p) rs
    | Some (LookupFailure h mid terms j) => h = handle p /\ mid = Module_of vec /\ terms = Terms vec /\
        k <= j < k + Z.of_nat n /\ missing_row m vec p j
    | Some _ => True
    end.
Proof.
  revert k p. induction n as [|n IH]; intros k p Hok Hw; cbn [vector_rows each_row].
  { split; [by eexists|]. intros err p' [= <- <-]. split_and!; [done..|]. by exists []. }
  assert (Hs := checkFilteredSourceVector_spec w k m vec p Hok Hw). rewrite check_step_filtered. unfold row_spec in Hs.
  destruct (vector_row k m vec) as [[r|]|f] eqn:Hrow; cbn [mbind result_bind option_list].
  - destruct Hs as ([err p1] & -> & Hok1 & Hh1 & Hr1 & Hcase). cbn [mbind result_bind fst snd] in *.
    destruct (IH (k + 1) p1 Hok1 Hw) as [IH1 IH2]. split.
    + intros rs Hrs HF. inv_ok. subst rs. apply Forall_cons in HF as [Hr HF]. destruct Hcase as [[-> _]|[_ []]]; [|done].
      eapply IH1; [done|]. eapply Forall_impl; [exact HF|]. intros x. apply Hr1.
    + intros err' p' He. destruct Hcase as [[-> Hr]|[-> Hr]].
      2: { injection He as <- <-. split_and!; [done..|lia|lia|]. by exists r. }
      specialize (IH2 err' p' He). destruct err' as [[]|]; try done.
      * destruct IH2 as (-> & -> & -> & Hj & (r' & Hr' & Hn)). split_and!; [done..|lia|lia|]. exists r'. split; [done|]. by rewrite <- Hr1.
      * destruct IH2 as (Hok2 & Hh2 & Hr2 & (rs & -> & HF)). split_and!; [done|congruence|intros x; by rewrite Hr2|].
        exists (r :: rs). split; [done|]. constructor; [done|]. eapply Forall_impl; [exact HF|]. intros x. apply Hr1.
  - rewrite Hs. cbn [mbind result_bind]. destruct (IH (k + 1) p Hok Hw) as [IH1 IH2]. split.
    + intros rs Hrs HF. inv_ok. subst rs. by eapply IH1.
    + intros err' p' He. specialize (IH2 err' p' He). destruct err' as [[]|]; try done.
      * destruct IH2 as (-> & -> & -> & Hj & Hn). split_and!; [done..|lia|lia|done].
      * destruct IH2 as (Hok2 & Hh2 & Hr2 & (rs & -> & HF)). split_and!; [done..|]. by exists rs.
  - split; [done|]. intros err p'. destruct f as [msg|msg|]; [destruct Hs as (e & p1 & ->)|rewrite Hs..]; cbn; [|done..].
    by intros [= <- <-].
Qed.

(** The traces and schemas that the constraint is meant for *)
Definition usable (w : nat) (sc : list ModuleView) vec : Prop := length (Terms vec) = w /\ (Module_of vec < length sc)%nat.

Definition heights_ok (tr : list (ArrayModule F)) : Prop := Forall (fun m => 0 <= height m < 2 ^ 63) tr.

Lemma usable_module w sc vec : usable w sc vec -> exists v, slice_get sc (Module_of vec) = Ok v.
Proof. intros [_ H]. apply lookup_lt_is_Some_2 in H as [v Hv]. exists v. by apply slice_get_ok. Qed.

Lemma Module_height tr i m : heights_ok tr -> Module_ tr i = Ok m -> to_int (height m) = height m /\ 0 <= height m.
Proof.
  intros Hh H. apply slice_get_ok in H. eapply Forall_lookup_1 in Hh as ?; [|exact H]. cbn in *. split; [by apply to_int_small|lia].
Qed.

Lemma insert_targets_spec w tr sc vecs p :
  heights_ok tr -> Forall (usable w sc) vecs -> state_ok w p ->
  match rows_of tr vecs with
  | Ok rs => exists p', insert_targets (T := T) vecs tr sc p = Ok (None, p') /\ state_ok w p' /\ handle p' = handle p /\
      forall x, has_row p' x <-> x ∈ rs \/ has_row p x
  | Fault _ => forall err p', insert_targets (T := T) vecs tr sc p = Ok (err, p') -> exists f, err = Some f /\ is_lookup f = false
  end.
Proof.
  intros Hh. revert p. induction vecs as [|vec vecs IH]; intros p Hu Hok; cbn [rows_of insert_targets].
  { exists p. split_and!; [done..|]. intros x. set_solver. }
  apply Forall_cons in Hu as [Hv Hu]. destruct (usable_module w sc vec Hv) as [v ->].
  destruct (Module_ tr (Module_of vec)) as [m|] eqn:Hm; cbn [mbind result_bind]; [|done].
  destruct (Module_height tr _ m Hh Hm) as [-> _].
  assert (Hr := insert_rows w m vec (Z.to_nat (height m)) 0 p Hok (proj1 Hv)).
  assert (Hstep : forall n k q, each_row (if HasSelector vec then fun p k => insertFilteredVector p k vec m else fun p k => insertTargetVector p k vec m) n k q
    = each_row (insert_step m vec) n k q) by by unfold insert_step; destruct (HasSelector vec).
  rewrite Hstep. destruct (vector_rows _ 0 m vec) as [rs|f]; cbn [mbind result_bind].
  - destruct Hr as (p1 & -> & Hok1 & Hh1 & Hr1). cbn [mbind result_bind]. specialize (IH p1 Hu Hok1).
    destruct (rows_of tr vecs) as [rs'|]; cbn [mbind result_bind]; [|done]. destruct IH as (p2 & -> & Hok2 & Hh2 & Hr2).
    exists p2. split_and!; [done..|congruence|]. intros x. rewrite Hr2, Hr1. set_solver.
  - intros err p'. destruct (each_row _ _ _ _) as [[err1 p1]|] eqn:He; cbn; [|done].
    destruct (Hr err1 p1 eq_refl) as (g & -> & Hg). intros [= <- <-]. by exists g.
Qed.

Lemma checkSourceVectors_spec w tr sc vecs p :
  heights_ok tr -> Forall (usable w sc) vecs -> state_ok w p ->
  (forall rs, rows_of tr vecs = Ok rs -> Forall (has_row p) rs -> exists p', checkSourceVectors (T := T) vecs tr sc p = Ok (None, p')) /\
  forall err p', checkSourceVectors (T := T) vecs tr sc p = Ok (err, p') ->
    match err with
    | None => exists rs, rows_of tr vecs = Ok rs /\ Forall (has_row p) rs
    | Some (LookupFailure h mid terms j) => h = handle p /\ exists vec m, vec ∈ vecs /\ mid = Module_of vec /\ terms = Terms vec /\
        Module_ tr mid = Ok m /\ 0 <= j < height m /\ missing_row m vec p j
    | Some _ => True
    end.
Proof.
  intros Hh. revert p. induction vecs as [|vec vecs IH]; intros p Hu Hok; cbn [rows_of checkSourceVectors].
  { split; [by eexists|]. intros err p' [= <- <-]. by exists []. }
  apply Forall_cons in Hu as [Hv Hu]. destruct (usable_module w sc vec Hv) as [v ->].
  destruct (Module_ tr (Module_of vec)) as [m|] eqn:Hm; cbn [mbind result_bind]; [|done].
  destruct (Module_height tr _ m Hh Hm) as [-> Hh0].
  assert (Hstep : forall n k q, each_row (if HasSelector vec then fun p k => checkFilteredSourceVector p k vec m else fun p k => checkSourceVector p k vec m) n k q
    = each_row (check_step m vec) n k q) by by unfold check_step; destruct (HasSelector vec).
  rewrite Hstep. destruct (check_rows w m vec (Z.to_nat (height m)) 0 p Hok (proj1 Hv)) as [Hr1 Hr2].
  destruct (each_row _ _ _ _) as [[err1 p1]|] eqn:He; cbn [mbind result_bind].
  2: { split; [|done]. intros rs Hrs HF. inv_ok. subst rs. apply Forall_app in HF as [HF _].
       by destruct (Hr1 _ Ha HF). }
  specialize (Hr2 err1 p1 eq_refl). destruct err1 as [f|].
  - split.
    + intros rs Hrs HF. inv_ok. subst rs. apply Forall_app in HF as [HF _]. by destruct (Hr1 _ Ha HF).
    + intros err p' [= <- <-]. destruct f; try done. destruct Hr2 as (-> & -> & -> & Hj & Hmiss). split; [done|].
      exists vec, m. split_and!; [by left|done..|lia|lia|done].
  - destruct Hr2 as (Hok1 & Hh1 & Hrow1 & (rs1 & Hrs1 & HF1)). destruct (IH p1 Hu Hok1) as [IH1 IH2]. split.
    + intros rs Hrs HF. inv_ok. subst rs. apply Forall_app in HF as [_ HF]. eapply IH1; [done|].
      eapply Forall_impl; [exact HF|]. intros x. apply Hrow1.
    + intros err p' Hc. specialize (IH2 err p' Hc). destruct err as [[]|]; try done.
      * destruct IH2 as (-> & vec' & m' & Hin & -> & -> & Hm' & Hj & (r & Hr & Hn)). split; [done|].
        exists vec', m'. split_and!; [by right|done..|lia|lia|]. exists r. split; [done|]. by rewrite <- Hrow1.
      * destruct IH2 as (rs & -> & HF). rewrite Hrs1. exists (rs1 ++ rs). split; [done|]. apply Forall_app. split; [done|].
        eapply Forall_impl; [exact HF|]. intros x. apply Hrow1.
Qed.

(** The constructor checks that the vectors are equally wide. *)
Lemma check_sources_width (i n : nat) (sources : list (Vector E)) n' :
  Lookup.check_sources i n sources = Ok n' -> (i = 0%nat -> sources <> []) -> Forall (fun vec => Len vec = n') sources /\ (i <> 0%nat -> n = n').
Proof.
  revert i n. induction sources as [|v vs IH]; intros i n; cbn.
  { intros [= ->] Hi. split; [done|]. done. }
  destruct (Nat.eqb_spec i 0) as [->|Hi]; cbn.
  - intros H _. destruct (IH 1%nat (Len v) H) as [HF Hn]; [done|]. split; [|done]. constructor; [by apply Hn|done].
  - destruct (Nat.eqb_spec (Len v) n) as [<-|]; cbn; [|done]. intros H _. destruct (IH (S i) (Len v) H) as [HF Hn]; [done|].
    assert (Hn' := Hn ltac:(done)). split; [constructor; [done|done]|done].
Qed.

Lemma check_targets_width n (targets : list (Vector E)) : check_targets n targets = Ok tt -> Forall (fun vec => Len vec = n) targets.
Proof.
  induction targets as [|v vs IH]; cbn; [constructor|]. destruct (Nat.eqb_spec (Len v) n); cbn; [|done]. intros H. constructor; [done|by apply IH].
Qed.

Lemma NewConstraint_widths h targets sources (c : Constraint E) :
  NewConstraint h targets sources = Ok c -> sources <> [] ->
  Handle c = h /\ Targets c = targets /\ Sources c = sources /\
  exists w, Forall (fun vec => length (Terms vec) = w) targets /\ Forall (fun vec => length (Terms vec) = w) sources.
Proof.
  intros H Hs. unfold NewConstraint in H. inv_ok. subst c. split_and!; [done..|]. exists a.
  destruct (check_sources_width 0 0 sources a Ha) as [HF _]; [done|]. destruct a0. split; [by apply check_targets_width|done].
Qed.

End State_.

Module LookupProperties.

Section Properties.
Context {F E T : Type} `{!Element F, !Evaluable F E, !Hasher F, !ExactHasher F}.
Abbreviation Accepts := (Accepts (F := F) (E := E) (T := T)).

(** The state that the insertion starts with *)
Lemma start_ok h n w : state_ok (F := F) w (mkState h (HashSet.NewSet n) 0 [replicate w e_zero]).
Proof.
  split; cbn; [exists (replicate w e_zero); by rewrite length_replicate| |apply map_Forall_empty].
  intros i b l Hb. by rewrite lookup_empty in Hb.
Qed.

Lemma start_rows h n w x : ~ has_row (F := F) (mkState h (HashSet.NewSet n) 0%nat [replicate w e_zero]) x.
Proof. intros (i & b & l & Hb & _). cbn in Hb. by rewrite lookup_empty in Hb. Qed.

(** What the constraint checks, and what a failure tells *)
Lemma Accepts_rows (h : string) (targets sources : list (Vector E)) (c : Constraint E) (tr : list (ArrayModule F))
    (sc : list ModuleView) :
  NewConstraint h targets sources = Ok c -> sources <> [] -> targets <> [] ->
  Forall (fun vec => (Module_of vec < length tr)%nat /\ (Module_of vec < length sc)%nat) (targets ++ sources) -> heights_ok tr ->
  ((exists cov, Accepts c tr sc = Ok (cov, None)) <->
   exists ts ss, rows_of tr targets = Ok ts /\ rows_of tr sources = Ok ss /\ forall r, r ∈ ss -> r ∈ ts) /\
  forall cov h' mid terms k, Accepts c tr sc = Ok (cov, Some (LookupFailure h' mid terms k)) ->
    exists ts source m r, h' = h /\ rows_of tr targets = Ok ts /\
      source ∈ sources /\ mid = Module_of source /\ terms = Terms source /\ Module_ tr mid = Ok m /\ 0 <= k < height m /\
      vector_row k m source = Ok (Some r) /\ r ∉ ts.
Proof.
  intros Hc Hs Ht Hmods Hh. destruct (NewConstraint_widths h targets sources c Hc Hs) as (Eh & Et & Es & (w & Hwt & Hws)).
  apply Forall_app in Hmods as [Hmt Hms].
  assert (Hut : Forall (usable w sc) targets) by (apply Forall_and; split; [done|eapply Forall_impl; [exact Hmt|by intros ? []]]).
  assert (Hus : Forall (usable w sc) sources) by (apply Forall_and; split; [done|eapply Forall_impl; [exact Hms|by intros ? []]]).
  unfold Lookup.Accepts, insertTargetVectors. rewrite Eh, Et, Es. destruct sources as [|s0 ss0], targets as [|t0 ts0]; try done.
  change (slice_get (s0 :: ss0) 0) with (Ok s0). change (slice_get (t0 :: ts0) 0) with (Ok t0).
  apply Forall_cons in Hmt as [[Hm0 _] _]. apply lookup_lt_is_Some_2 in Hm0 as [m0 Hm0].
  assert (Hm0' : Module_ tr (Module_of t0) = Ok m0) by by apply slice_get_ok.
  cbn [mbind result_bind]. rewrite Hm0'. cbn [mbind result_bind].
  assert (Hlen : Len s0 = w) by by apply Forall_cons in Hws as [? _]. rewrite Hlen.
  set (st0 := mkState h (HashSet.NewSet (Z.to_nat (height m0))) 0%nat [replicate w e_zero]).
  assert (Hins := insert_targets_spec (T := T) w tr sc (t0 :: ts0) st0 Hh Hut (start_ok h _ w)).
  destruct (rows_of tr (t0 :: ts0)) as [ts|f].
  2: { destruct (insert_targets _ _ _ _) as [[err p']|] eqn:Hi; cbn [mbind result_bind]; [|split; [split; [by intros [? ?]|by intros (?&?&?&_)]|done]].
       destruct (Hins err p' eq_refl) as (g & -> & Hg). split; [split; [by intros [? ?]|by intros (?&?&?&_)]|].
       intros cov h' mid terms k [= <- ->]. done. }
  destruct Hins as (p1 & -> & Hok1 & Hh1 & Hr1). cbn [mbind result_bind].
  destruct (checkSourceVectors_spec (T := T) w tr sc (s0 :: ss0) p1 Hh Hus Hok1) as [Hc1 Hc2].
  assert (Hrows : forall x, has_row p1 x <-> x ∈ ts) by (intros x; rewrite Hr1; pose proof (start_rows h (Z.to_nat (height m0)) w x); tauto).
  split; [split|].
  - intros [cov Ha]. apply bind_ok in Ha as ([err p2] & Hck & Ha). injection Ha as _ ->.
    destruct (Hc2 None p2 Hck) as (ss & Hss & HF). exists ts, ss. split_and!; [done..|]. intros r Hr. apply Hrows.
    rewrite Forall_forall in HF. by apply HF.
  - intros (ts' & ss & [= <-] & Hss & Hsub). destruct (Hc1 ss Hss) as [p2 ->]; [|by eexists].
    apply Forall_forall. intros r Hr. by apply Hrows, Hsub.
  - intros cov h' mid terms k Ha. apply bind_ok in Ha as ([err p2] & Hck & Ha). injection Ha as _ ->.
    destruct (Hc2 _ p2 Hck) as (-> & vec & m & Hin & -> & -> & Hm & Hk & (r & Hr & Hn)). rewrite Hh1.
    exists ts, vec, m, r. split_and!; try done; [lia|lia|]. by rewrite <- Hrows.
Qed.

(** C26: A lookup constraint that its constructor builds accepts a trace exactly when
    every row that its source vectors select is a row that its target vectors
    select, and all of these have values.  A lookup failure names a row of a
    source vector that no target vector has. *)
Theorem lookup_accepts (h : string) (targets sources : list (Vector E)) (c : Constraint E) (tr : list (ArrayModule F))
    (sc : list ModuleView) :
  NewConstraint h targets sources = Ok c -> sources <> [] -> targets <> [] ->
  Forall (fun vec => (Module_of vec < length tr)%nat /\ (Module_of vec < length sc)%nat) (targets ++ sources) -> heights_ok tr ->
  ((exists cov, Accepts c tr sc = Ok (cov, None)) <->
   exists ts ss, rows_of tr targets = Ok ts /\ rows_of tr sources = Ok ss /\ forall r, r ∈ ss -> r ∈ ts) /\
  forall cov h' mid terms k, Accepts c tr sc = Ok (cov, Some (LookupFailure h' mid terms k)) ->
    exists ts source m r, h' = h /\ rows_of tr targets = Ok ts /\
      source ∈ sources /\ mid = Module_of source /\ terms = Terms source /\ Module_ tr mid = Ok m /\ 0 <= k < height m /\
      vector_row k m source = Ok (Some r) /\ r ∉ ts.
Proof. apply Accepts_rows. Qed.

End Properties.

Import TermProperties ConstraintProperties.

(** Pairs [(A, 0)] of the selected rows are looked up among the pairs [(B, 0)]. *)
Definition sample_targets : list (Vector GE) := [UnfilteredVector 0 [RegisterAccess (Y 0); Constant (el 0)]].
Definition sample_sources : list (Vector GE) :=
  [FilteredVector 0 (RegisterAccess (X 0)) [RegisterAccess (X 0); Constant (el 0)];
   UnfilteredVector 0 [RegisterAccess (Y 0); Sub [RegisterAccess (X 0); RegisterAccess (X 0)]]].
Definition sample_lookup : Constraint GE := mkConstraint "l" sample_targets sample_sources.

Lemma lookup_accepts_witness :
  exists cov, Lookup.Accepts (T := GL) sample_lookup [order_module] sample_schema = Ok (cov, None).
Proof.
  refine (proj2 (proj1 (lookup_accepts (T := GL) "l" sample_targets sample_sources sample_lookup [order_module] sample_schema
    eq_refl _ _ _ _)) _); [done|done| | |].
  - repeat constructor.
  - apply Forall_singleton. cbn. lia.
  - exists (map (fun n => [el n; el 0]) [9; 1; 3]), (map (fun n => [el n; el 0]) [1; 3; 9; 9; 1; 3]).
    split; [vm_compute; reflexivity|]. split; [vm_compute; reflexivity|]. cbn [map]. intros r Hr. set_solver.
Defined.

End LookupProperties.
