(* ===== verification/Invert.v ===== *)
(** * Inversion of field elements

    The inverse of [pkg/util/field/element.go] as a class with its law, which the
    Montgomery fields satisfy, and the inversion of all elements of an array at the
    cost of one, [pkg/util/field/batch_invert.go]. *)

From Stdlib Require Import ZArith Lia Znumtheory.
From stdpp Require Import base numbers list option strings.
From S2P Require Import Prelude BitSet FieldElement Register Element.

Open Scope Z_scope.

Class Inversion (F : Type) : Type := e_Inverse : F -> F.

(** Zero is its own inverse. *)
Class InversionLaws (F : Type) `{!Element F, !ElementLaws F, !Inversion F} : Prop :=
  inverse_law (x : F) : element_ok x ->
    element_ok (e_Inverse x) /\
    if val x =? 0 then e_Inverse x = e_zero else eqm (modulus (F := F)) (val x * val (e_Inverse x)) 1.

(** The loop of [Inverse] never runs out of its rounds. *)
#[export] Instance montgomery_Inversion (c : constants) : Inversion (element c) :=
  fun x => default 0 (FieldElement.Inverse c x).

#[export] Instance montgomery_inversion_laws (c : constants) `{!FieldConstants c, !ByteWidthOk c} :
  InversionLaws (element c).
Proof.
  intros x Hx. unfold e_Inverse, montgomery_Inversion. change (val x) with (ToUint32 c x).
  destruct (Z.eqb_spec x 0) as [->|Hne].
  - rewrite ToUint32_0. cbn. split; [apply valid_0|done].
  - destruct (Inverse_value x Hx Hne) as (y & -> & Hy & Hv). cbn [default]. split; [exact Hy|].
    destruct (Z.eqb_spec (ToUint32 c x) 0) as [H0|_].
    + exfalso. rewrite H0, Z.mul_0_l, Z.mod_0_l in Hv; [done|]. pose proof (modulus_big (F := element c)). change (modulus (F := element c)) with (Modulus c) in *. lia.
    + change (eqm (Modulus c) (ToUint32 c x * ToUint32 c y) 1). pose proof (modulus_big (F := element c)) as Hbig.
      change (modulus (F := element c)) with (Modulus c) in Hbig. apply eqm_iff_mod; [lia|]. by rewrite Hv, Z.mod_small by lia.
Qed.

(** ** [BatchInvert] *)

Section BatchInvert.
Context {F : Type} `{!Element F, !Inversion F}.
Implicit Types (s m : list F) (z : Set_).

(** An element that is zero is recorded as such and replaced by one. *)
Definition record_zero s z (i : nat) : result (list F * Set_) :=
  v ← slice_get s i;
  z ← BitSet.SetBit z i (e_IsZero v);
  b ← BitSet.Get z i;
  s ← (if b : bool then slice_set s i One else Ok s);
  Ok (s, z).

(** [for i := len-2; i >= 0; i--]: the [n] first elements are left. *)
Fixpoint products (n : nat) s z m : result (list F * Set_ * list F) :=
  match n with
  | O => Ok (s, z, m)
  | S i =>
      '(s, z) ← record_zero s z i;
      next ← slice_get m (S i);
      v ← slice_get s i;
      m ← slice_set m i (e_Mul next v);
      products i s z m
  end.

(** [for i := range len-1]: [n] elements are left. *)
Fixpoint inverses (n i : nat) s z m (inv : F) : result (list F * F) :=
  match n with
  | O => Ok (s, inv)
  | S n =>
      v ← slice_get s i;
      let newInv := e_Mul inv v in
      next ← slice_get m (S i);
      s ← slice_set s i (e_Mul inv next);
      b ← BitSet.Get z i;
      s ← (if b : bool then slice_set s i e_zero else Ok s);
      inverses n (S i) s z m newInv
  end.

Definition BatchInvert s : result (list F) :=
  match s with
  | [] => Ok s
  | _ =>
      let last := (length s - 1)%nat in
      '(s, z) ← record_zero s (BitSet.NewSet (length s)) last;
      v ← slice_get s last;
      m ← slice_set (replicate (length s) e_zero) last v;
      '(s, z, m) ← products last s z m;
      m0 ← slice_get m 0;
      '(s, inv) ← inverses last 0 s z m (e_Inverse m0);
      s ← slice_set s last inv;
      b ← BitSet.Get z last;
      if b : bool then slice_set s last e_zero else Ok s
  end.

End BatchInvert.

(** ** Facts *)

Section Facts.
Context {F : Type} `{!Element F, !ElementLaws F, !Inversion F, !InversionLaws F}.
Implicit Types (x y : F) (s m : list F) (z : Set_).

Abbreviation p := (modulus (F := F)).

Lemma inverse_ok x : element_ok x -> element_ok (e_Inverse x).
Proof. intros Hx. by destruct (inverse_law x Hx). Qed.

Lemma inverse_zero : e_Inverse (e_zero (F := F)) = e_zero.
Proof. destruct zero_law as [Hz Hv]. destruct (inverse_law e_zero Hz) as [_ H]. by rewrite Hv in H. Qed.

Lemma inverse_nonzero x : element_ok x -> val x <> 0 -> eqm p (val x * val (e_Inverse x)) 1.
Proof. intros Hx Hn. destruct (inverse_law x Hx) as [_ H]. by destruct (Z.eqb_spec (val x) 0). Qed.

(** Whatever multiplies with [x] to one is its inverse. *)
Lemma inverse_unique x y : element_ok x -> element_ok y -> eqm p (val x * val y) 1 -> y = e_Inverse x.
Proof.
  intros Hx Hy He. pose proof (modulus_big (F := F)).
  assert (Hn : val x <> 0).
  { intros H0. rewrite H0, Z.mul_0_l, eqm_iff_mod, Z.mod_0_l, Z.mod_1_l in He by lia. done. }
  apply eq_by_val; [done|by apply inverse_ok|]. pose proof (inverse_nonzero x Hx Hn) as Hi.
  transitivity (val y * (val x * val (e_Inverse x))); [by rewrite Hi, Z.mul_1_r|].
  rewrite Z.mul_assoc, (Z.mul_comm (val y)), He. by rewrite Z.mul_1_l.
Qed.

Lemma slice_get_split {A} (pre post : list A) (a : A) i : length pre = i -> slice_get (pre ++ a :: post) i = Ok a.
Proof. intros <-. apply slice_get_ok. by apply list_lookup_middle. Qed.

Lemma slice_set_split {A} (pre post : list A) (a b : A) i : length pre = i -> slice_set (pre ++ a :: post) i b = Ok (pre ++ b :: post).
Proof.
  intros <-. apply slice_set_ok. split; [rewrite length_app; cbn; lia|]. by rewrite insert_app_r_alt, Nat.sub_diag by lia.
Qed.

Definition mask x : F := if e_IsZero x then One else x.

Lemma mask_ok x : element_ok x -> element_ok (mask x).
Proof. intros Hx. unfold mask. destruct (e_IsZero x); [apply one_law|done]. Qed.

Lemma mask_nonzero x : element_ok x -> val (mask x) <> 0.
Proof.
  intros Hx. unfold mask. rewrite is_zero_law by done. destruct one_law as [_ H1].
  destruct (Z.eqb_spec (val x) 0); [rewrite H1; lia|done].
Qed.

(** The product of the elements of a suffix, multiplied from its end *)
Fixpoint sprod (l : list F) : F :=
  match l with [] => One | [x] => x | x :: rest => e_Mul (sprod rest) x end.

Lemma sprod_cons x l : l <> [] -> sprod (x :: l) = e_Mul (sprod l) x.
Proof. by destruct l. Qed.

Lemma sprod_ok l : Forall element_ok l -> element_ok (sprod l).
Proof.
  induction 1 as [|x l Hx Hl IH]; [apply one_law|]. destruct (decide (l = [])) as [->|Hne]; [done|].
  rewrite sprod_cons by done. by apply mul_law.
Qed.

Lemma sprod_nonzero l : Forall element_ok l -> Forall (fun x => val x <> 0) l -> val (sprod l) <> 0.
Proof.
  induction 1 as [|x l Hx Hl IH]; intros Hn; [destruct (one_law (F := F)) as [_ H1]; intros H0; change (val One = 0) in H0; lia|].
  apply Forall_cons in Hn as [Hnx Hn].
  destruct (decide (l = [])) as [->|Hne]; [done|]. rewrite sprod_cons by done. intros H0.
  assert (Hs := sprod_ok l Hl). destruct zero_law as [Hz Hv]. destruct (mul_law (sprod l) x Hs Hx) as [Hok _].
  assert (Hm : e_Mul (sprod l) x = e_zero) by (apply val_inj; [done..|congruence]).
  apply (mul_zero _ _ Hs Hx) in Hm as [Hm|Hm]; [apply (IH Hn); by rewrite Hm|by rewrite Hm in Hnx].
Qed.

Context (s0 : list F) (Hs0 : Forall element_ok s0).

Definition ms : list F := map mask s0.

Lemma ms_lookup i x : s0 !! i = Some x -> ms !! i = Some (mask x).
Proof. intros H. unfold ms. by rewrite list_lookup_fmap, H. Qed.

Lemma drop_ms i x : s0 !! i = Some x -> drop i ms = mask x :: drop (S i) ms.
Proof. intros H. by apply drop_S, ms_lookup. Qed.

Lemma ms_ok i : Forall element_ok (drop i ms) /\ Forall (fun x => val x <> 0) (drop i ms).
Proof.
  split; apply Forall_drop, Forall_map; (eapply Forall_impl; [exact Hs0|]); intros x Hx; [by apply mask_ok|by apply mask_nonzero].
Qed.

(** The zeros among the elements from the [i]th on *)
Definition zeros z (i : nat) : Prop :=
  (length s0 <= 64 * length (words z))%nat /\
  forall j, BitSet.Contains z j = bool_decide (i <= j)%nat && match s0 !! j with Some x => e_IsZero x | None => false end.

Lemma record_zero_spec z i x :
  zeros z (S i) -> s0 !! i = Some x ->
  exists z', record_zero (take (S i) s0 ++ drop (S i) ms) z i = Ok (take i s0 ++ drop i ms, z') /\ zeros z' i.
Proof.
  intros [Hcap Hz] Hx. assert (Hi := lookup_lt_Some _ _ _ Hx).
  assert (Hlook : (take (S i) s0 ++ drop (S i) ms) !! i = Some x).
  { rewrite lookup_app_l by (rewrite length_take; lia). rewrite lookup_take_lt by lia. done. }
  unfold record_zero, slice_get. rewrite Hlook. cbn [mbind result_bind].
  destruct (BitSet.SetBit_spec z i (e_IsZero x)) as (z' & -> & Hlen & Hc); [lia|]. cbn [mbind result_bind].
  rewrite BitSet.Get_Contains by (rewrite Hlen; lia). cbn [mbind result_bind]. rewrite Hc, decide_True by done.
  exists z'. split.
  - rewrite (drop_ms i x Hx), (take_S_r _ _ _ Hx), <- app_assoc. unfold mask. destruct (e_IsZero x); [|done].
    unfold slice_set. rewrite decide_True; [|rewrite length_app, length_take; cbn; lia]. cbn [mbind result_bind].
    do 2 f_equal. rewrite insert_app_r_alt by (rewrite length_take; lia). rewrite length_take, Nat.min_l, Nat.sub_diag by lia. done.
  - split; [by rewrite Hlen|]. intros j. rewrite Hc, Hz. destruct (decide (j = i)) as [->|Hne].
    + rewrite Hx, bool_decide_true by lia. done.
    + f_equal. apply bool_decide_ext. lia.
Qed.

(** The products of the suffixes from the [i]th on *)
Definition suffixes m (i : nat) : Prop :=
  length m = length s0 /\ forall j, (i <= j < length s0)%nat -> m !! j = Some (sprod (drop j ms)).

Lemma products_spec n z m :
  (S n <= length s0)%nat -> zeros z n -> suffixes m n ->
  exists z' m', products n (take n s0 ++ drop n ms) z m = Ok (ms, z', m') /\ zeros z' 0 /\ suffixes m' 0.
Proof.
  revert z m. induction n as [|n IH]; intros z m Hn Hz Hm.
  { exists z, m. rewrite take_0, drop_0. by cbn. }
  destruct (lookup_lt_is_Some_2 s0 n) as [x Hx]; [lia|]. cbn [products].
  destruct (record_zero_spec z n x Hz Hx) as (z' & -> & Hz'). cbn [mbind result_bind].
  destruct Hm as [Hlen Hm]. unfold slice_get. rewrite (Hm (S n)) by lia. cbn [mbind result_bind].
  rewrite lookup_app_r by (rewrite length_take; lia). rewrite length_take, Nat.min_l, Nat.sub_diag by lia.
  replace (drop n ms !! 0%nat) with (Some (mask x)) by by rewrite (drop_ms n x Hx).
  cbn [mbind result_bind]. unfold slice_set. rewrite decide_True by lia.
  cbn [mbind result_bind]. apply IH; [lia|done|]. split; [by rewrite length_insert|]. intros j Hj.
  destruct (decide (j = n)) as [->|Hne].
  - rewrite list_lookup_insert_eq by lia. rewrite (drop_ms n x Hx), sprod_cons; [done|].
    intros H%(f_equal length). unfold ms in H. rewrite length_drop, length_map in H. cbn in H. lia.
  - rewrite list_lookup_insert_ne by done. apply Hm. lia.
Qed.

(** The inverse of a suffix gives the inverse of its first element and of the rest. *)
Lemma inverse_step i x inv :
  s0 !! i = Some x -> drop (S i) ms <> [] -> element_ok inv -> eqm p (val inv * val (sprod (drop i ms))) 1 ->
  e_Mul inv (sprod (drop (S i) ms)) = e_Inverse (mask x) /\
  element_ok (e_Mul inv (mask x)) /\ eqm p (val (e_Mul inv (mask x)) * val (sprod (drop (S i) ms))) 1.
Proof.
  intros Hx Hne Hi He. rewrite (drop_ms i x Hx), sprod_cons in He by done.
  assert (Hok : element_ok x) by by eapply Forall_lookup_1. apply mask_ok in Hok.
  assert (Hs := sprod_ok _ (proj1 (ms_ok (S i)))). rewrite mul_eqm in He by done.
  split; [|split; [by apply mul_law|]].
  - apply inverse_unique; [done|by apply mul_law|]. rewrite mul_eqm by done. rewrite <- He. unfold eqm. exists 0. ring.
  - rewrite mul_eqm by done. rewrite <- He. unfold eqm. exists 0. ring.
Qed.

Lemma inverses_spec n i z m inv :
  (i + n + 1 = length s0)%nat -> zeros z 0 -> suffixes m 0 -> element_ok inv -> eqm p (val inv * val (sprod (drop i ms))) 1 ->
  exists inv', inverses n i (map e_Inverse (take i s0) ++ drop i ms) z m inv =
    Ok (map e_Inverse (take (i + n) s0) ++ drop (i + n) ms, inv') /\
    element_ok inv' /\ eqm p (val inv' * val (sprod (drop (i + n) ms))) 1.
Proof.
  intros Hn [Hcap Hz] [Hlen Hm]. revert i inv Hn. induction n as [|n IH]; intros i inv Hn Hi He.
  { exists inv. by rewrite Nat.add_0_r. }
  destruct (lookup_lt_is_Some_2 s0 i) as [x Hx]; [lia|]. cbn [inverses].
  assert (Hpre : length (map e_Inverse (take i s0)) = i) by (rewrite length_map, length_take; lia).
  assert (Hne : drop (S i) ms <> []).
  { intros H%(f_equal length). unfold ms in H. rewrite length_drop, length_map in H. cbn in H. lia. }
  destruct (inverse_step i x inv Hx Hne Hi He) as (Hinv & Hok & He').
  rewrite (drop_ms i x Hx), (slice_get_split _ _ _ i Hpre). cbn [mbind result_bind].
  assert (Hnext : slice_get m (S i) = Ok (sprod (drop (S i) ms))) by (apply slice_get_ok, Hm; lia).
  rewrite Hnext. cbn [mbind result_bind]. rewrite (slice_set_split _ _ _ _ i Hpre). cbn [mbind result_bind].
  rewrite BitSet.Get_Contains by lia. cbn [mbind result_bind]. rewrite Hz, Hx, bool_decide_true, Hinv by lia. cbn [andb].
  replace (i + S n)%nat with (S i + n)%nat by lia.
  assert (Hstep : map e_Inverse (take (S i) s0) ++ drop (S i) ms = map e_Inverse (take i s0) ++ e_Inverse x :: drop (S i) ms).
  { by rewrite (take_S_r _ _ _ Hx), map_app, <- app_assoc. }
  assert (Hxo : element_ok x) by by eapply Forall_lookup_1.
  destruct (IH (S i) (e_Mul inv (mask x))) as (inv' & Hr & Hok' & Hinv'); [lia|done|done|].
  exists inv'. split; [|done]. rewrite <- Hr, Hstep. unfold mask in *. destruct (e_IsZero x) eqn:Hzero; [|done].
  rewrite (slice_set_split _ _ _ _ i Hpre). cbn [mbind result_bind].
  apply is_zero_eq in Hzero as ->; [|done]. by rewrite inverse_zero.
Qed.

Lemma BatchInvert_spec : BatchInvert s0 = Ok (map e_Inverse s0).
Proof.
  destruct (decide (s0 = [])) as [->|Hne]; [done|].
  assert (Hlen : (0 < length s0)%nat) by (destruct s0; [done|cbn; lia]).
  assert (Hb : forall r, match s0 with [] => Ok s0 | _ => r end = r) by by destruct s0.
  unfold BatchInvert. rewrite Hb. set (last := (length s0 - 1)%nat).
  destruct (lookup_lt_is_Some_2 s0 last) as [x Hx]; [unfold last; lia|].
  assert (Hxo : element_ok x) by by eapply Forall_lookup_1.
  assert (Hall : take (S last) s0 = s0) by (apply take_ge; unfold last; lia).
  assert (Hdrop : drop (S last) ms = []) by (apply drop_ge; unfold ms; rewrite length_map; unfold last; lia).
  destruct (record_zero_spec (BitSet.NewSet (length s0)) last x) as (z & Hr & Hz); [|done|].
  { split; [apply BitSet.NewSet_capacity|]. intros j. rewrite BitSet.NewSet_Contains. symmetry. apply andb_false_iff.
    destruct (s0 !! j) eqn:Hj; [|by right]. apply lookup_lt_Some in Hj. left. apply bool_decide_eq_false. unfold last. lia. }
  rewrite Hall, Hdrop, app_nil_r in Hr. rewrite Hr. cbn [mbind result_bind].
  rewrite (drop_ms last x Hx), Hdrop. assert (Hpre : length (take last s0) = last) by (rewrite length_take; unfold last; lia).
  rewrite (slice_get_split _ _ _ last Hpre). cbn [mbind result_bind].
  assert (Hset : slice_set (replicate (length s0) e_zero) last (mask x) = Ok (<[last := mask x]> (replicate (length s0) e_zero))).
  { apply slice_set_ok. rewrite length_replicate. split; [unfold last; lia|done]. }
  replace (length (take last s0 ++ [mask x])) with (length s0) by (rewrite length_app, Hpre; cbn; unfold last; lia).
  rewrite Hset. cbn [mbind result_bind].
  destruct (products_spec last z (<[last := mask x]> (replicate (length s0) e_zero))) as (z' & m' & Hp & Hz' & Hm'); [unfold last; lia|done| |].
  { split; [by rewrite length_insert, length_replicate|]. intros j Hj. replace j with last by (unfold last; lia).
    rewrite list_lookup_insert_eq by (rewrite length_replicate; unfold last; lia). by rewrite (drop_ms last x Hx), Hdrop. }
  rewrite (drop_ms last x Hx), Hdrop in Hp. rewrite Hp. cbn [mbind result_bind].
  assert (H0 : slice_get m' 0 = Ok (sprod ms)) by (apply slice_get_ok; destruct Hm' as [_ Hm']; by rewrite Hm' by lia).
  rewrite H0. cbn [mbind result_bind]. destruct (ms_ok 0) as [Hmo Hmn]. rewrite drop_0 in Hmo, Hmn.
  assert (Hso := sprod_ok ms Hmo). assert (Hsn := sprod_nonzero ms Hmo Hmn).
  destruct (inverses_spec last 0 z' m' (e_Inverse (sprod ms))) as (inv & Hi & Hio & Hie); [unfold last; lia|done|done|by apply inverse_ok| |].
  { rewrite drop_0, Z.mul_comm. by apply inverse_nonzero. }
  cbn [Nat.add] in Hi. rewrite take_0, drop_0, (drop_ms last x Hx), Hdrop in Hi. cbn [map app] in Hi. rewrite Hi. cbn [mbind result_bind].
  assert (Hpre' : length (map e_Inverse (take last s0)) = last) by by rewrite length_map.
  rewrite (slice_set_split _ _ _ _ last Hpre'). cbn [mbind result_bind].
  cbn [Nat.add] in Hie. rewrite (drop_ms last x Hx), Hdrop in Hie. cbn [sprod] in Hie.
  rewrite Z.mul_comm in Hie. apply inverse_unique in Hie as ->; [|by apply mask_ok|done].
  destruct Hz' as [Hcap Hz']. rewrite BitSet.Get_Contains by lia. cbn [mbind result_bind]. rewrite Hz', Hx, bool_decide_true by lia.
  cbn [andb]. assert (Hfin : map e_Inverse s0 = map e_Inverse (take last s0) ++ [e_Inverse x]).
  { rewrite <- Hall at 1. by rewrite (take_S_r _ _ _ Hx), map_app. }
  rewrite Hfin. unfold mask. destruct (e_IsZero x) eqn:Hzero; [|done].
  rewrite (slice_set_split _ _ _ _ last Hpre'). apply is_zero_eq in Hzero as ->; [|done]. by rewrite inverse_zero.
Qed.

End Facts.

Module InvertProperties.

(** C30: Inverting an array at the cost of one inversion gives the inverse of each
    element, and zero for the elements that are zero. *)
Theorem batch_invert {F} `{!Element F, !ElementLaws F, !Inversion F, !InversionLaws F} (s : list F) :
  Forall element_ok s ->
  BatchInvert s = Ok (map e_Inverse s) /\
  Forall2 (fun x y => element_ok y /\ if val x =? 0 then y = e_zero else eqm (modulus (F := F)) (val x * val y) 1) s (map e_Inverse s).
Proof.
  intros Hs. split; [by apply BatchInvert_spec|]. apply Forall2_fmap_r, Forall_Forall2_diag.
  eapply Forall_impl; [exact Hs|]. intros x. apply inverse_law.
Qed.

Definition sample_inverse : element gf251 -> element gf251 := e_Inverse.

Lemma batch_invert_witness :
  BatchInvert (F := element gf251) (map (SetUint64 gf251) [3; 0; 7; 0]) =
    Ok (map sample_inverse (map (SetUint64 gf251) [3; 0; 7; 0])) /\
  map (fun n => Mul gf251 (SetUint64 gf251 n) (sample_inverse (SetUint64 gf251 n))) [3; 0; 7] = map (SetUint64 gf251) [1; 0; 1].
Proof.
  split; [|vm_compute; reflexivity].
  apply (batch_invert (F := element gf251)). apply Forall_map, Forall_forall. intros n _. apply (SetUint64_valid (c := gf251)).
Defined.

End InvertProperties.
