(* ===== verification/Sexp.v ===== *)
(** * S-expressions

    Models the printing of [pkg/util/source/sexp] without quotes, which names the
    columns that the compiler generates, and shows that the text determines the
    expression when its atoms have no spaces or parentheses. *)

From Stdlib Require Import ZArith Lia Ascii.
From stdpp Require Import base numbers list option strings pretty.
From S2P Require Import Prelude.

Open Scope Z_scope.

Inductive SExp : Type :=
  | List_ (Elements : list SExp)
  | Number (Value : Z)
  | Symbol (Value : string).

(** The loop of [List.String]: a space before every element but the first *)
Definition join (texts : list string) : string :=
  match texts with [] => ""%string | t :: rest => foldl (fun s t => s +:+ " " +:+ t)%string t rest end.

(** [String(false)] *)
Fixpoint SExp_String (e : SExp) : string :=
  match e with
  | List_ es => "(" +:+ join (map SExp_String es) +:+ ")"
  | Number n => pretty n
  | Symbol s => s
  end.

(** ** The text determines the expression *)

#[local] Arguments String.append : simpl nomatch.

Definition special (c : ascii) : bool := (c =? " ")%char || (c =? "(")%char || (c =? ")")%char.

Fixpoint plain (s : string) : bool :=
  match s with EmptyString => true | String c s => negb (special c) && plain s end.

(** The text of an atom *)
Definition atom (s : string) : Prop := s <> ""%string /\ plain s = true.

(** What may follow an expression *)
Definition follows (s : string) : Prop :=
  match s with EmptyString => True | String c _ => c = " "%char \/ c = ")"%char end.

Lemma plain_prefix a b r s :
  plain a = true -> plain b = true -> follows r -> follows s -> (a +:+ r = b +:+ s)%string -> a = b /\ r = s.
Proof.
  revert b. induction a as [|c a IH]; intros [|d b] Ha Hb Hr Hs He; cbn in *.
  - by split.
  - subst r. cbn in Hr. exfalso. destruct Hr as [->| ->]; done.
  - subst s. cbn in Hs. exfalso. destruct Hs as [->| ->]; done.
  - injection He as -> He. apply andb_prop in Ha as [_ Ha], Hb as [_ Hb]. by destruct (IH b Ha Hb Hr Hs He) as [-> ->].
Qed.

Lemma plain_app a b : plain (a +:+ b) = plain a && plain b.
Proof. induction a as [|c a IH]; [done|]. cbn. by rewrite IH, andb_assoc. Qed.

(** Numbers are atoms. *)
Lemma pretty_N_plain x acc : plain acc = true -> plain (pretty_N_go x acc) = true.
Proof.
  revert acc. induction (N.lt_wf_0 x) as [x _ IH]; intros acc Hacc.
  destruct (decide (x = 0%N)) as [->|Hne]; [by rewrite pretty_N_go_0|].
  rewrite pretty_N_go_step by lia. apply IH; [apply N.div_lt; lia|]. cbn. rewrite Hacc, andb_true_r.
  unfold pretty_N_char. by repeat case_match.
Qed.

Lemma pretty_N_atom (x : N) : atom (pretty x).
Proof.
  unfold atom, pretty, pretty_N. case_decide as H0; [done|]. split; [|by apply pretty_N_plain].
  rewrite pretty_N_go_step by lia. intros He.
  assert (Hlen : forall y acc, (String.length acc <= String.length (pretty_N_go y acc))%nat).
  { intros y. induction (N.lt_wf_0 y) as [y _ IH]; intros acc. destruct (decide (y = 0%N)) as [->|Hy]; [by rewrite pretty_N_go_0|].
    rewrite pretty_N_go_step by lia. specialize (IH (y / 10)%N (N.div_lt y 10 ltac:(lia) ltac:(lia)) (String (pretty_N_char (y mod 10)) acc)).
    cbn [String.length] in IH. lia. }
  specialize (Hlen (x / 10)%N (String (pretty_N_char (x mod 10)) "")). rewrite He in Hlen. cbn [String.length] in Hlen. lia.
Qed.

Lemma pretty_Z_atom (x : Z) : atom (pretty x).
Proof.
  unfold pretty, pretty_Z. destruct x as [|x|x]; [by split|apply pretty_N_atom|].
  destruct (pretty_N_atom (N.pos x)) as [Hn Hp]. by split.
Qed.

(** The tree of the texts of the atoms *)
Inductive tree : Type := Leaf (s : string) | Node (ts : list tree).

Fixpoint tree_of (e : SExp) : tree :=
  match e with List_ es => Node (map tree_of es) | Number n => Leaf (pretty n) | Symbol s => Leaf s end.

Fixpoint tree_text (t : tree) : string :=
  match t with Leaf s => s | Node ts => "(" +:+ join (map tree_text ts) +:+ ")" end.

Fixpoint tree_wf (t : tree) : Prop :=
  match t with Leaf s => atom s | Node ts => foldr (fun t => and (tree_wf t)) True ts end.

Section TreeInduction.
Context (P : tree -> Prop) (HL : forall s, P (Leaf s)) (HN : forall ts, Forall P ts -> P (Node ts)).

Fixpoint tree_induction (t : tree) : P t :=
  match t with
  | Leaf s => HL s
  | Node ts => HN ts ((fix go ts : Forall P ts := match ts with [] => Forall_nil_2 P | t :: ts => Forall_cons_2 P t ts (tree_induction t) (go ts) end) ts)
  end.
End TreeInduction.

Section SExpInduction.
Context (P : SExp -> Prop) (HL : forall es, Forall P es -> P (List_ es)) (HN : forall n, P (Number n)) (HS : forall s, P (Symbol s)).

Fixpoint sexp_induction (e : SExp) : P e :=
  match e with
  | List_ es => HL es ((fix go es : Forall P es := match es with [] => Forall_nil_2 P | e :: es => Forall_cons_2 P e es (sexp_induction e) (go es) end) es)
  | Number n => HN n
  | Symbol s => HS s
  end.
End SExpInduction.

Lemma tree_of_text e : tree_text (tree_of e) = SExp_String e.
Proof.
  induction e as [es IH|n|s] using sexp_induction; [|done..]. cbn. do 3 f_equal. rewrite map_map. induction IH as [|e es He _ IH]; cbn; [done|]. by rewrite He, IH.
Qed.

(** The elements after the first one, each after a space *)
Fixpoint spaced (ts : list string) : string :=
  match ts with [] => ""%string | t :: rest => " " +:+ t +:+ spaced rest end.

Lemma string_app_assoc (a b c : string) : ((a +:+ b) +:+ c = a +:+ b +:+ c)%string.
Proof. induction a as [|x a IH]; [done|]. cbn. by rewrite IH. Qed.

Lemma string_app_nil (a : string) : (a +:+ "" = a)%string.
Proof. induction a as [|x a IH]; [done|]. cbn. by rewrite IH. Qed.

Lemma join_spaced t rest : join (t :: rest) = (t +:+ spaced rest)%string.
Proof.
  cbn. revert t. induction rest as [|u rest IH]; intros t; cbn; [by rewrite string_app_nil|].
  rewrite IH. by rewrite !string_app_assoc.
Qed.

Lemma spaced_follows ts r : follows (spaced ts +:+ ")" +:+ r).
Proof. destruct ts; cbn; [by right|by left]. Qed.

Lemma tree_text_start t r : tree_wf t -> exists c s, (tree_text t +:+ r)%string = String c s /\ c <> ")"%char /\ (c = "("%char <-> exists ts, t = Node ts).
Proof.
  destruct t as [s|ts]; cbn.
  - intros [Hne Hp]. destruct s as [|c s]; [done|]. exists c, (s +:+ r)%string. cbn in Hp. apply andb_prop in Hp as [Hc _].
    split; [done|]. split; [by intros ->|]. split; [by intros ->|by intros [? ?]].
  - intros _. eexists _, _. split; [done|]. split; [done|]. split; [by eexists|done].
Qed.

Lemma tree_text_inj t : forall u r s, tree_wf t -> tree_wf u -> follows r -> follows s ->
  (tree_text t +:+ r = tree_text u +:+ s)%string -> t = u /\ r = s.
Proof.
  induction t as [a|ts IH] using tree_induction; intros [b|us] r s Ht Hu Hr Hs He.
  - cbn in *. destruct (plain_prefix a b r s) as [-> ->]; [apply Ht|apply Hu|done..].
  - exfalso. destruct (tree_text_start (Leaf a) r Ht) as (c & x & Hx & _ & Hc). rewrite Hx in He.
    cbn in He. injection He as -> _. destruct (proj1 Hc eq_refl) as [? [=]].
  - exfalso. destruct (tree_text_start (Leaf b) s Hu) as (c & x & Hx & _ & Hc). rewrite Hx in He.
    cbn in He. injection He as <- _. destruct (proj1 Hc eq_refl) as [? [=]].
  - cbn in He. injection He as He. rewrite !string_app_assoc in He.
    assert (Hsp : forall ts', Forall (fun t => forall u r s, tree_wf t -> tree_wf u -> follows r -> follows s ->
        (tree_text t +:+ r = tree_text u +:+ s)%string -> t = u /\ r = s) ts' -> forall us' r s,
        foldr (fun t => and (tree_wf t)) True ts' -> foldr (fun t => and (tree_wf t)) True us' ->
        (spaced (map tree_text ts') +:+ ")" +:+ r = spaced (map tree_text us') +:+ ")" +:+ s)%string -> ts' = us' /\ r = s).
    { clear. induction 1 as [|t ts Ht _ IH]; intros [|u us] r s Hts Hus He; cbn in *; try done.
      - by injection He as ->.
      - destruct Hts as [Hwt Hts], Hus as [Hwu Hus]. injection He as He. rewrite !string_app_assoc in He.
        destruct (Ht u _ _ Hwt Hwu (spaced_follows _ _) (spaced_follows _ _) He) as [-> He'].
        by destruct (IH us r s Hts Hus He') as [-> ->]. }
    destruct ts as [|t ts], us as [|u us]; [cbn in He; injection He as ->; done| | |].
    + exfalso. destruct Hu as [Hu _]. cbn [map] in He. rewrite join_spaced, string_app_assoc in He.
      destruct (tree_text_start u (spaced (map tree_text us) +:+ ")" +:+ s) Hu) as (c & x & Hx & Hc & _). rewrite Hx in He.
      cbn in He. by injection He as <- _.
    + exfalso. destruct Ht as [Ht _]. cbn [map] in He. rewrite join_spaced, string_app_assoc in He.
      destruct (tree_text_start t (spaced (map tree_text ts) +:+ ")" +:+ r) Ht) as (c & x & Hx & Hc & _). rewrite Hx in He.
      cbn in He. by injection He as -> _.
    + cbn [map] in He. rewrite !join_spaced, !string_app_assoc in He. destruct Ht as [Hwt Hwts], Hu as [Hwu Hwus].
      apply Forall_cons in IH as [IHt IHts].
      destruct (IHt u _ _ Hwt Hwu (spaced_follows _ _) (spaced_follows _ _) He) as [-> He'].
      by destruct (Hsp ts IHts us r s Hwts Hwus He') as [-> ->].
Qed.

Lemma SExp_String_inj e f :
  tree_wf (tree_of e) -> tree_wf (tree_of f) -> SExp_String e = SExp_String f -> tree_of e = tree_of f.
Proof.
  intros He Hf H. rewrite <- !tree_of_text in H.
  destruct (tree_text_inj (tree_of e) (tree_of f) "" "" He Hf I I) as [Ht _]; [by rewrite !string_app_nil|done].
Qed.
