(* ===== verification/Air.v ===== *)
(** * The arithmetic level

    Models [pkg/ir/air], the builder of modules in [pkg/ir/module_builder.go], the
    padding of generated columns ([pkg/ir/padding.go]), the gadget that normalises a
    term ([pkg/ir/air/gadgets/normalisation.go]) and the assignment that fills its
    column ([pkg/ir/assignment/pseudo_inverse.go]).  At this level a constraint is a
    polynomial over columns that vanishes, besides lookups and the like. *)

From Stdlib Require Import ZArith Lia.
From stdpp Require Import base numbers list option strings gmap pretty.
From S2P Require Import Prelude BitSet FieldElement Interval Register SortedSet Hash Element Invert Sexp Trace Term TermRegisters Constraint Lookup.

Open Scope Z_scope.

(** ** Terms ([air/schema.go])

    Sums, products and differences of constants and column accesses *)

Fixpoint is_air {F} (e : Expr F) : bool :=
  match e with
  | Add args | Mul args | Sub args => forallb is_air args
  | Constant _ | RegisterAccess _ => true
  | _ => false
  end.

(** [ColumnAccess] *)
#[export] Instance Access_Evaluable {F} `{!Element F} : Evaluable F Access.t := {|
  eval_at k m a := EvalAt k m (RegisterAccess a);
  eval_bounds a := Bounds_of (F := F) (RegisterAccess a);
  eval_registers a := RequiredRegisters (F := F) (RegisterAccess a);
  eval_substitute _ a := a
|}.

Record LogicalTerm (F : Type) : Type := mkLogical { Term_ : Expr F }.
Arguments mkLogical {F}.
Arguments Term_ {F}.

Definition LogicalTerm_TestAt {F} `{!Element F} (k : Z) (tr : ArrayModule F) (p : LogicalTerm F) : result bool :=
  v ← EvalAt k tr (Term_ p); Ok (is_eq (e_Cmp v e_zero)).

#[export] Instance LogicalTerm_Testable {F} `{!Element F} : Testable F (LogicalTerm F) := {|
  test_at k m p := (LogicalTerm_TestAt k m p, 0%nat);
  test_bounds p := Bounds_of (Term_ p);
  test_registers p := RequiredRegisters (Term_ p);
  test_substitute mapping p := mkLogical (Term.Substitute mapping (Term_ p))
|}.

(** ** Constraints ([air/constraint.go]) *)

Inductive AirConstraint (F : Type) : Type :=
  | AirInterleaving (c : Interleaving.Constraint Access.t)
  | AirLookup (c : Lookup.Constraint Access.t)
  | AirPermutation (c : Permutation.Constraint)
  | AirRange (c : Ranged.Constraint Access.t)
  | AirVanishing (c : Vanishing.Constraint (LogicalTerm F)).
Arguments AirInterleaving {F} c.
Arguments AirLookup {F} c.
Arguments AirPermutation {F} c.
Arguments AirRange {F} c.
Arguments AirVanishing {F} c.

Definition NewVanishingConstraint {F} (handle : string) (ctx : nat) (domain : option Z) (term : Expr F) : AirConstraint F :=
  AirVanishing (Vanishing.NewConstraint handle ctx domain (mkLogical term)).

Definition NewInterleavingConstraint {F} (handle : string) (targetContext sourceContext : nat) (target : Access.t)
    (sources : list Access.t) : AirConstraint F :=
  AirInterleaving (Interleaving.NewConstraint handle targetContext sourceContext target sources).

Definition NewLookupConstraint {F} (handle : string) (targets sources : list (Lookup.Vector Access.t)) : result (AirConstraint F) :=
  c ← Lookup.NewConstraint handle targets sources; Ok (AirLookup c).

Definition NewPermutationConstraint {F} (handle : string) (context : nat) (targets sources : list ColumnId) : result (AirConstraint F) :=
  c ← Permutation.NewConstraint handle context targets sources; Ok (AirPermutation c).

Definition NewRangeConstraint {F} (handle : string) (ctx : nat) (exprs : list Access.t) (bitwidths : list Z) : AirConstraint F :=
  AirRange (Ranged.NewConstraint handle ctx exprs bitwidths).

(** [Air.Accepts] *)
Definition Accepts {F} `{!Element F, !Hasher F} (p : AirConstraint F) (tr : list (ArrayModule F)) (sc : list ModuleView) :
    result (Set_ * option (Failure Access.t (LogicalTerm F))) :=
  match p with
  | AirInterleaving c => Interleaving.Accepts c tr sc
  | AirLookup c => Lookup.Accepts c tr sc
  | AirPermutation c => Permutation.Accepts c tr sc
  | AirRange c => Ranged.Accepts c tr sc
  | AirVanishing c => Vanishing.Accepts c tr sc
  end.

(** ** The builder of a module *)

(** [PseudoInverse] of [assignment]: the target column and the term to invert *)
Record PseudoInverse (F : Type) : Type := NewPseudoInverse { Target : ColumnRef; Expr_ : Expr F }.
Arguments NewPseudoInverse {F}.
Arguments Target {F}.
Arguments Expr_ {F}.

Module Builder.

(** [padding], [public], [synthetic], [static], [native] and [keys] *)
Record Attributes : Type := mkAttributes {
  AllowPadding : bool;
  IsPublic : bool;
  IsSynthetic : bool;
  IsStatic : bool;
  IsNative : bool;
  Keys : nat
}.

(** [staticContents] is [None] when it is nil. *)
Record t (F : Type) : Type := mk {
  name : ModuleName;
  moduleId : nat;
  attributes : Attributes;
  staticContents : option (list (list F));
  regmap : gmap string nat;
  registers : list Register.t;
  constraints : list (AirConstraint F);
  assignments : list (PseudoInverse F)
}.
Arguments mk {F}. Arguments name {F}. Arguments moduleId {F}. Arguments attributes {F}. Arguments staticContents {F}. Arguments regmap {F}.
Arguments registers {F}. Arguments constraints {F}. Arguments assignments {F}.

Section Ops.
Context {F : Type}.
Implicit Types (p : t F).

Definition NewModuleBuilder (name : ModuleName) (mid : nat) (padding public synthetic static native : bool) (keys : nat) : t F :=
  mk name mid (mkAttributes padding public synthetic static native keys) None ∅ [] [] [].

Definition AddAssignment p (a : PseudoInverse F) : t F :=
  mk (name p) (moduleId p) (attributes p) (staticContents p) (regmap p) (registers p) (constraints p) (assignments p ++ [a]).

Definition AddConstraint p (c : AirConstraint F) : t F :=
  mk (name p) (moduleId p) (attributes p) (staticContents p) (regmap p) (registers p) (constraints p ++ [c]) (assignments p).

Definition SetStaticContents p (contents : option (list (list F))) : result (t F) :=
  if negb (IsStatic (attributes p)) then Fault (Panic "cannot set static contents for non-static module")
  else if match staticContents p with Some _ => true | None => false end then Fault (Panic "cannot reassign static-contents")
  else Ok (mk (name p) (moduleId p) (attributes p) contents (regmap p) (registers p) (constraints p) (assignments p)).

Definition StaticContents p : result (option (list (list F))) :=
  if negb (IsStatic (attributes p)) then Fault (Panic "cannot set static contents for non-static module")
  else Ok (staticContents p).

Definition Width p : nat := length (registers p).

Definition HasRegister p (n : string) : option nat := regmap p !! n.

Definition NewRegister p (reg : Register.t) : result (nat * t F) :=
  let id := length (registers p) in
  match regmap p !! Register.name reg with
  | Some _ => Fault (Panic "register already declared")
  | None =>
      Ok (id, mk (name p) (moduleId p) (attributes p) (staticContents p) (<[Register.name reg := id]> (regmap p))
                (registers p ++ [reg]) (constraints p) (assignments p))
  end.

Fixpoint NewRegisters p (regs : list Register.t) : result (list nat * t F) :=
  match regs with
  | [] => Ok ([], p)
  | r :: rest => '(id, p) ← NewRegister p r; '(ids, p) ← NewRegisters p rest; Ok (id :: ids, p)
  end.

Definition Register_ p (rid : ColumnId) : result Register.t := r ← Unwrap rid; slice_get (registers p) r.

(** [RegisterAccessOf]: an unknown name is the first register. *)
Definition RegisterAccessOf p (n : string) (shift : Z) : result Access.t :=
  let rid := default 0%nat (regmap p !! n) in
  reg ← slice_get (registers p) rid;
  Ok (Access.RawRegisterAccess (Some rid) (Register.width reg) shift).

Definition ConstRegister p (constant : Z) : result (nat * t F) :=
  match HasRegister p (pretty constant) with
  | Some rid => Ok (rid, p)
  | None => r ← Register.NewConst constant; NewRegister p r
  end.

End Ops.
End Builder.

(** ** Printing of terms *)

(** [Register.QualifiedName] *)
Definition QualifiedName (mod_name : ModuleName) (r : Register.t) : string :=
  let modName := ModuleName_String mod_name in
  if decide (modName = "") then Register.name r else (modName +:+ ":" +:+ Register.name r)%string.

Section Lisp.
Context {F : Type} `{!Element F}.
Context (mod_name : ModuleName) (regs : list Register.t).

Definition Lisp_access (a : Access.t) : result SExp :=
  i ← Unwrap (Access.register a);
  r ← slice_get regs i;
  let access := Symbol (QualifiedName mod_name r) in
  let access := if Access.shift a =? 0 then access else List_ [Symbol "shift"; access; Symbol (pretty (Access.shift a))] in
  Ok (if Access.maskwidth a =? Access.bitwidth a then access
      else List_ [Symbol ("u" +:+ pretty (Access.maskwidth a))%string; access]).

(** [Lisp(true, mapping)]; only the terms of this level have it here. *)
Fixpoint Lisp (e : Expr F) : result SExp :=
  match e with
  | Add args => es ← mapM Lisp args; Ok (List_ (Symbol "+" :: es))
  | Mul args => es ← mapM Lisp args; Ok (List_ (Symbol "*" :: es))
  | Sub args => es ← mapM Lisp args; Ok (List_ (Symbol "-" :: es))
  | Constant v => Ok (Number (Register.BigSetBytes (e_Bytes v)))
  | RegisterAccess a => Lisp_access a
  | _ => Fault (Panic "not a term of the arithmetic level")
  end.

(** [pseudoInverse.Lisp] *)
Definition Lisp_inverse (e : Expr F) : result SExp := x ← Lisp e; Ok (List_ [Symbol "inv"; x]).

End Lisp.

(** ** Padding of generated columns ([pkg/ir/padding.go]) *)

Section Padding.
Context {F : Type} `{!Element F, !Inversion F}.

(** [traceModule]: every row of every column is its padding. *)
Definition traceModule (nm : ModuleName) (regs : list Register.t) : ArrayModule F :=
  mkModule nm 0 0
    (map (fun r => NewArrayColumn (Register.name r) (Some []) (e_SetBytes (Register.BigBytes (Register.padding r)))) regs).

(** [pseudoInverse.EvalAt]; an evaluation error is looked at after the inversion. *)
Definition inverse_EvalAt (k : Z) (m : ArrayModule F) (e : Expr F) : result F := v ← EvalAt k m e; Ok (e_Inverse v).

(** [PaddingFor] for a pseudo inverse *)
Definition PaddingFor (e : Expr F) (nm : ModuleName) (regs : list Register.t) : result Z :=
  match inverse_EvalAt (-1) (traceModule nm regs) e with
  | Ok v => Ok (Register.BigSetBytes (e_Bytes v))
  | Fault (Error msg) => Fault (Panic ("internal failure:: " +:+ msg)%string)
  | Fault f => Fault f
  end.

End Padding.

(** ** Normalisation ([gadgets/normalisation.go]) *)

Section Normalise.
Context {F : Type} `{!Element F, !Inversion F}.

(** The constraint [e != 0 ==> 1 == e/e] *)
Definition inverse_constraint (nm : string) (mid : nat) (e : Expr F) (index : nat) : AirConstraint F :=
  let inv_e := RegisterAccess (Access.FieldAccess (Some index) 0) in
  let e_inv_e := Product [e; inv_e] in
  let one_e_e := Subtract [Const64 1; e_inv_e] in
  let e_implies_one_e_e := Product [e; one_e_e] in
  NewVanishingConstraint (nm +:+ " <=")%string mid None e_implies_one_e_e.

Definition applyPseudoInverseGadget (e : Expr F) (module : Builder.t F) : result (Expr F * Builder.t F) :=
  name ← SExp_String <$> Lisp_inverse (Builder.name module) (Builder.registers module) e;
  padding ← PaddingFor e (Builder.name module) (Builder.registers module);
  match Builder.HasRegister module name with
  | Some index => Ok (RegisterAccess (Access.FieldAccess (Some index) 0), module)
  | None =>
      '(index, module) ← Builder.NewRegister module (Register.NewComputed name MaxUint padding);
      let target := NewColumnRef (Builder.moduleId module) index in
      let module := Builder.AddAssignment module (NewPseudoInverse target e) in
      let module := Builder.AddConstraint module (inverse_constraint name (Builder.moduleId module) e index) in
      Ok (RegisterAccess (Access.FieldAccess (Some index) 0), module)
  end.

Definition Normalise (e : Expr F) (module : Builder.t F) : result (Expr F * Builder.t F) :=
  '(ie, module) ← applyPseudoInverseGadget e module;
  Ok (Product [e; ie], module).

(** *** The column of the inverses *)

(** The loop of [invert] *)
Fixpoint evaluate_rows (n : nat) (i : Z) (expr : Expr F) (trMod : ArrayModule F) : result (list F) :=
  match n with
  | O => Ok []
  | S n => v ← EvalAt i trMod expr; vs ← evaluate_rows n (i + 1) expr trMod; Ok (v :: vs)
  end.

(** [PseudoInverse.Compute] *)
Definition Compute_inverse (e : PseudoInverse F) (tr : list (ArrayModule F)) : result (list F) :=
  trModule ← Module_ tr (mid (Target e));
  data ← evaluate_rows (Z.to_nat (height trModule)) 0 (Expr_ e) trModule;
  BatchInvert data.

End Normalise.
