(* ===== verification/Lower.v ===== *)
(** * Lowering of constraints to the arithmetic level

    Models [pkg/ir/mir/lower.go]: logical terms become polynomials that vanish when
    the term holds.  A disjunction is a product, an inequality needs the inverse of
    a difference, which a generated column has, and conjuncts are added up as long
    as the sum cannot wrap around. *)

From Stdlib Require Import ZArith Lia.
From stdpp Require Import base numbers list option strings gmap pretty.
From S2P Require Import Prelude FieldElement Interval Register SortedSet Element Invert Sexp Trace Term TermRegisters Constraint Lookup Air Simplify.

Open Scope Z_scope.

(** ** Loops *)

(** A loop that threads the builder, over all items *)
Definition each {A B S} (f : A -> S -> result (B * S)) : list A -> S -> result (list B * S) :=
  fix go xs s :=
    match xs with
    | [] => Ok ([], s)
    | x :: xs => '(y, s) ← f x s; '(ys, s) ← go xs s; Ok (y :: ys, s)
    end.

(** The same over the items that do not satisfy [skip] *)
Definition each_but {A B S} (skip : A -> bool) (f : A -> S -> result (B * S)) : list A -> S -> result (list B * S) :=
  fix go xs s :=
    match xs with
    | [] => Ok ([], s)
    | x :: xs => if skip x then go xs s else '(y, s) ← f x s; '(ys, s) ← go xs s; Ok (y :: ys, s)
    end.

(** [for len(worklist) > 0]: each round takes as many items as [next] says. *)
Fixpoint packets {A} (fuel : nat) (next : list A -> result nat) (worklist : list A) : result (list (list A)) :=
  match worklist, fuel with
  | [], _ => Ok []
  | _, O => Fault OutOfFuel
  | _, S fuel =>
      n ← next worklist;
      rest ← packets fuel next (drop n worklist);
      Ok (take n worklist :: rest)
  end.

Section Lower.
Context {F : Type} `{!Element F, !Inversion F}.
Implicit Types (e : Expr F) (l : Logical F) (airModule : Builder.t F).

(** ** Configuration ([optimiser.go]) *)

Record OptimisationConfig : Type := mkConfig {
  InverseEliminiationLevel : nat;
  MaxRangeConstraint : Z;
  ShiftNormalisation : bool
}.

Definition OPTIMISATION_LEVELS : list OptimisationConfig := [mkConfig 0 16 false; mkConfig 1 16 true].
Definition DEFAULT_OPTIMISATION_LEVEL : OptimisationConfig := mkConfig 1 16 true.

(** ** Removal of negations and conditionals: [expandLogical] *)

Definition expandConjunction (sign : bool) (terms : list (Logical F)) : Logical F :=
  if sign then Conjunction terms else Disjunction terms.

Definition expandDisjunction (sign : bool) (terms : list (Logical F)) : Logical F :=
  if sign then Disjunction terms else Conjunction terms.

Definition expandEquality (sign : bool) (left right : Expr F) : Logical F :=
  if sign then Equal left right else NotEqual left right.

(** Given the expansions of the condition and the branches of either sign *)
Definition expandPositiveIteTo (condition : bool -> Logical F) (tb fb : option (bool -> Logical F)) : Logical F :=
  let terms := match tb with Some t => [Disjunction [condition false; t true]] | None => [] end in
  let terms := terms ++ match fb with Some f => [Disjunction [condition true; f true]] | None => [] end in
  Conjunction terms.

Definition expandNegativeIteTo (condition : bool -> Logical F) (tb fb : option (bool -> Logical F)) : Logical F :=
  let terms := match tb with Some t => [Conjunction [condition true; t false]] | None => [] end in
  let terms := terms ++ match fb with Some f => [Conjunction [condition false; f false]] | None => [] end in
  Disjunction terms.

Definition expandIteTo (sign : bool) (condition : bool -> Logical F) (tb fb : option (bool -> Logical F)) : Logical F :=
  if sign then expandPositiveIteTo condition tb fb else expandNegativeIteTo condition tb fb.

Fixpoint expandLogical l (sign : bool) {struct l} : Logical F :=
  match l with
  | Conjunct args => expandConjunction sign (map (fun a => expandLogical a sign) args)
  | Disjunct args => expandDisjunction sign (map (fun a => expandLogical a sign) args)
  | Equal lhs rhs => expandEquality sign lhs rhs
  | Ite cond tb fb => expandIteTo sign (expandLogical cond) (option_map expandLogical tb) (option_map expandLogical fb)
  | Negate arg => expandLogical arg (negb sign)
  | NotEqual lhs rhs => expandEquality (negb sign) lhs rhs
  end.

(** ** Terms *)

Definition shiftTerm e (width : Z) : Expr F := if width =? 0 then e else Product [Constant (TwoPowN width); e].

(** The access of a register with its mask *)
Definition lowerRegisterAccess (a : Access.t) : result Access.t :=
  Access.Mask (Access.RawRegisterAccess (Access.register a) (Access.bitwidth a) (Access.shift a)) (Access.maskwidth a).

Definition lowerRegisterAccesses (terms : list Access.t) : result (list Access.t) := mapM lowerRegisterAccess terms.

(** The loop of [lowerVectorAccess] *)
Fixpoint vector_terms (vars : list Access.t) (shift : Z) airModule : result (list (Expr F)) :=
  match vars with
  | [] => Ok []
  | v :: rest =>
      limb ← Builder.Register_ airModule (Access.register v);
      let width := Access.maskwidth v in
      ith ← Access.Mask (Access.RawRegisterAccess (Access.register v) (Register.width limb) (Access.shift v)) width;
      terms ← vector_terms rest (u64 (shift + width)) airModule;
      Ok (Product [shiftTerm (RegisterAccess ith) shift] :: terms)
  end.

Definition lowerVectorAccess (vars : list Access.t) airModule : result (Expr F) :=
  terms ← vector_terms vars 0 airModule; Ok (Sum terms).

Fixpoint lowerTermTo e airModule {struct e} : result (Expr F) :=
  match e with
  | Add args => args ← mapM (fun e => lowerTermTo e airModule) args; Ok (Sum args)
  | Constant v => Ok (Constant v)
  | RegisterAccess a => a ← lowerRegisterAccess a; Ok (RegisterAccess a)
  | Mul args => args ← mapM (fun e => lowerTermTo e airModule) args; Ok (Product args)
  | Sub args => args ← mapM (fun e => lowerTermTo e airModule) args; Ok (Subtract args)
  | VectorAccess vars => lowerVectorAccess vars airModule
  | _ => Fault (Panic "unknown MIR expression")
  end.

(** ** Normalisation *)

Context (config : OptimisationConfig).

(** The row that an inverse is taken on *)
Definition normal_shift e : result Z :=
  if ShiftNormalisation config then
    '(min, max) ← ShiftRange e;
    Ok (if max <? 0 then max else if 0 <? min then min else 0)
  else Ok 0.

Definition within (bounds : Interval.t) (lower upper : Z) : result bool :=
  if (0 <? InverseEliminiationLevel config)%nat then i ← Interval.NewInterval64 lower upper; Interval.Within bounds i
  else Ok false.

Definition normalise arg airModule : result (Expr F * Builder.t F) :=
  bounds ← ValueRange arg;
  binary ← within bounds 0 1;
  if binary : bool then Ok (arg, airModule)
  else
    ternary ← within bounds (-1) 1;
    if ternary : bool then Ok (Product [arg; arg], airModule)
    else
      shift ← normal_shift arg;
      arg ← Simplify false (ApplyShift arg (- shift));
      '(norm, airModule) ← Normalise arg airModule;
      Ok (ApplyShift norm shift, airModule).

Definition lowerEqualityTo (Lhs Rhs : Expr F) airModule : result (list (Expr F) * Builder.t F) :=
  lhs ← lowerTermTo Lhs airModule;
  rhs ← lowerTermTo Rhs airModule;
  Ok ([Subtract [lhs; rhs]], airModule).

Definition lowerNonEqualityTo (Lhs Rhs : Expr F) airModule : result (list (Expr F) * Builder.t F) :=
  lhs ← lowerTermTo Lhs airModule;
  rhs ← lowerTermTo Rhs airModule;
  let eq := Subtract [lhs; rhs] in
  '(norm_eq, airModule) ← normalise eq airModule;
  Ok ([Subtract [Const64 1; norm_eq]], airModule).

(** ** Ranges of values, by the range constraints of a module *)

Context (fieldBandwidth : Z) (bitwidths : list Z).

Definition valueRangeOf_access (a : Access.t) : result Interval.t :=
  rid ← Unwrap (Access.register a);
  match bitwidths !! rid with
  | Some bw => if bw =? MaxUint then Ok Interval.INFINITY else valueRangeOfBits bw
  | None => Ok Interval.INFINITY
  end.

Fixpoint valueRangeOf e : result Interval.t :=
  match e with
  | Add args => range_args Interval.Add (map valueRangeOf args)
  | RegisterAccess a => valueRangeOf_access a
  | Constant v => range_of_const v
  | Mul args => range_args Interval.Mul (map valueRangeOf args)
  | Sub args => range_args Interval.Sub (map valueRangeOf args)
  | _ => Fault (Panic "unknown AIR term encountered")
  end.

(** The loop of [nextSumConjunct], before the [i]th of [len] terms *)
Fixpoint sum_conjunct (i len : nat) (sum : Z) (terms : list (Expr F)) : result nat :=
  match terms with
  | [] => Ok len
  | ith :: rest =>
      values ← valueRangeOf ith;
      let minVal := Interval.min values in
      let maxVal := Interval.max values in
      signed ← (if negb (InfInt.IsNotAnInfinity minVal) then Ok true else s ← InfInt.Sign minVal; Ok (s <? 0));
      if signed || negb (InfInt.IsNotAnInfinity maxVal) then Ok (Nat.max 1 i)
      else
        tmp ← InfInt.IntVal maxVal;
        let sum := sum + tmp in
        if fieldBandwidth <? BitLen sum then Ok (Nat.max 1 i) else sum_conjunct (S i) len sum rest
  end.

Definition nextSumConjunct (terms : list (Expr F)) : result nat := sum_conjunct 0 (length terms) 0 terms.

(** The loop of [nextNonZeroCheck] *)
Fixpoint non_zero_check (i len : nat) (sum : Z) (checks : list Access.t) : result nat :=
  match checks with
  | [] => Ok len
  | ith :: rest =>
      rid ← Unwrap (Access.register ith);
      ith_bitwidth ← slice_get bitwidths rid;
      if ith_bitwidth =? MaxUint then Ok (Nat.max 1 i)
      else
        ithRange ← valueRangeOfBits ith_bitwidth;
        ithMax ← InfInt.IntVal (Interval.max ithRange);
        let sum := sum + ithMax in
        if fieldBandwidth <? BitLen sum then Ok (Nat.max 1 i) else non_zero_check (S i) len sum rest
  end.

Definition nextNonZeroCheck (checks : list Access.t) : result nat := non_zero_check 0 (length checks) 0 checks.

(** ** Logical terms *)

Definition isNonZeroCheck l : option Access.t :=
  match l with
  | NotEqual lhs rhs =>
      let candidate := if isZero lhs then Some rhs else if isZero rhs then Some lhs else None in
      match candidate with Some (RegisterAccess ra) => Some ra | _ => None end
  | _ => None
  end.

Definition is_check l : bool := match isNonZeroCheck l with Some _ => true | None => false end.

Fixpoint disjunction (terms : list (list (Expr F))) : list (Expr F) :=
  match terms with
  | [] => [Const64 1]
  | [t] => t
  | lhs :: rest => lhs ≫= fun x => map (fun y => Product [x; y]) (disjunction rest)
  end.

Definition lowerConjunct (lowered : list (list (Expr F))) : result (list (Expr F)) :=
  let worklist := mjoin lowered in
  ps ← packets (length worklist) nextSumConjunct worklist;
  Ok (map Sum ps).

(** The non-zero checks of a disjunction, combined; the others are lowered before them. *)
Definition lowerChecks (worklist : list Access.t) airModule : result (list (list (Expr F)) * Builder.t F) :=
  ps ← packets (length worklist) nextNonZeroCheck worklist;
  each (fun packet => lowerNonEqualityTo (Sum (map RegisterAccess packet)) (Const64 0)) ps airModule.

Definition lowerDisjunct (args : list (Logical F)) (others : Builder.t F -> result (list (list (Expr F)) * Builder.t F)) airModule :
    result (list (Expr F) * Builder.t F) :=
  '(nterms, airModule) ← others airModule;
  '(checks, airModule) ← lowerChecks (omap isNonZeroCheck args) airModule;
  Ok (disjunction (nterms ++ checks), airModule).

Fixpoint lowerLogical l airModule {struct l} : result (list (Expr F) * Builder.t F) :=
  match l with
  | Conjunct args =>
      '(lowered, airModule) ← each lowerLogical args airModule;
      sums ← lowerConjunct lowered;
      Ok (sums, airModule)
  | Disjunct args => lowerDisjunct args (each_but is_check lowerLogical args) airModule
  | Equal lhs rhs => lowerEqualityTo lhs rhs airModule
  | NotEqual lhs rhs => lowerNonEqualityTo lhs rhs airModule
  | _ => Fault (Panic "unknown MIR expression")
  end.

Definition simplify (terms : list (Expr F)) : result (list (Expr F)) := mapM (Simplify false) terms.

Definition lowerAndSimplifyLogicalTo l airModule : result (list (Expr F) * Builder.t F) :=
  let term := expandLogical l true in
  term ← Simplify_logical false term;
  '(terms, airModule) ← lowerLogical term airModule;
  terms ← simplify terms;
  Ok (terms, airModule).

(** ** Constraints *)

(** The target and the sources of an interleaving are vectors of columns. *)
#[export] Instance VectorAccess_Evaluable : Evaluable F (list Access.t) := {|
  eval_at k m vars := EvalAt k m (VectorAccess vars);
  eval_bounds vars := Bounds_of (F := F) (VectorAccess vars);
  eval_registers vars := RequiredRegisters (F := F) (VectorAccess vars);
  eval_substitute _ vars := vars
|}.

(** The constraints with terms that are lowered within their module; [MirRange] and
    sorted constraints need the gadgets for bit widths. *)
Inductive MirConstraint : Type :=
  | MirInterleaving (c : Interleaving.Constraint (list Access.t))
  | MirLookup (c : Lookup.Constraint Access.t)
  | MirPermutation (c : Permutation.Constraint)
  | MirVanishing (c : Vanishing.Constraint (Logical F)).

(** [for i, air_expr := range terms] *)
Fixpoint add_vanishing (v : Vanishing.Constraint (Logical F)) (i : nat) (terms : list (Expr F)) airModule : Builder.t F :=
  match terms with
  | [] => airModule
  | t :: rest =>
      let handle := (Vanishing.Handle v +:+ "#" +:+ pretty i)%string in
      add_vanishing v (S i) rest
        (Builder.AddConstraint airModule (NewVanishingConstraint handle (Vanishing.Context_ v) (Vanishing.Domain v) t))
  end.

Definition lowerVanishingConstraintToAir (v : Vanishing.Constraint (Logical F)) airModule : result (Builder.t F) :=
  '(terms, airModule) ← lowerAndSimplifyLogicalTo (Vanishing.Constraint_ v) airModule;
  Ok (add_vanishing v 0 terms airModule).

Definition lowerPermutationConstraintToAir (v : Permutation.Constraint) airModule : result (Builder.t F) :=
  c ← NewPermutationConstraint (Permutation.Handle v) (Permutation.Context_ v) (Permutation.Targets v) (Permutation.Sources v);
  Ok (Builder.AddConstraint airModule c).

Definition expandLookupVectorToAir (vector : Lookup.Vector Access.t) : result (Lookup.Vector Access.t) :=
  terms ← lowerRegisterAccesses (Lookup.Terms vector);
  match Lookup.Selector vector with
  | Some s => sel ← lowerRegisterAccess s; Ok (Lookup.NewVector (Lookup.Module_of vector) (Some sel) terms)
  | None => Ok (Lookup.NewVector (Lookup.Module_of vector) None terms)
  end.

Definition lowerLookupConstraintToAir (c : Lookup.Constraint Access.t) airModule : result (Builder.t F) :=
  sources ← mapM expandLookupVectorToAir (Lookup.Sources c);
  targets ← mapM expandLookupVectorToAir (Lookup.Targets c);
  c' ← NewLookupConstraint (Lookup.Handle c) targets sources;
  Ok (Builder.AddConstraint airModule c').

(** [for i := range n] over the registers of the vectors *)
Fixpoint lower_interleavings (n i : nat) (c : Interleaving.Constraint (list Access.t)) airModule : result (Builder.t F) :=
  match n with
  | O => Ok airModule
  | S n =>
      ith ← slice_get (Interleaving.Target c) i;
      sources ← mapM (fun src => jth ← slice_get src i; lowerRegisterAccess jth) (Interleaving.Sources c);
      target ← lowerRegisterAccess ith;
      lower_interleavings n (S i) c
        (Builder.AddConstraint airModule
          (NewInterleavingConstraint (Interleaving.Handle c) (Interleaving.TargetContext c) (Interleaving.SourceContext c) target sources))
  end.

Definition lowerInterleavingConstraintToAir (c : Interleaving.Constraint (list Access.t)) airModule : result (Builder.t F) :=
  lower_interleavings (length (Interleaving.Target c)) 0 c airModule.

Definition lowerConstraintToAir (c : MirConstraint) airModule : result (Builder.t F) :=
  match c with
  | MirInterleaving v => lowerInterleavingConstraintToAir v airModule
  | MirLookup v => lowerLookupConstraintToAir v airModule
  | MirPermutation v => lowerPermutationConstraintToAir v airModule
  | MirVanishing v => lowerVanishingConstraintToAir v airModule
  end.

Fixpoint lowerConstraints (cs : list MirConstraint) airModule : result (Builder.t F) :=
  match cs with
  | [] => Ok airModule
  | c :: rest => airModule ← lowerConstraintToAir c airModule; lowerConstraints rest airModule
  end.

End Lower.

(** [determineTrueBitwidths], given the sources and widths of the range constraints *)
Fixpoint true_bitwidths (ranges : list (Access.t * Z)) (bitwidths : list Z) : result (list Z) :=
  match ranges with
  | [] => Ok bitwidths
  | (e, bw) :: rest =>
      rid ← Unwrap (Access.register e);
      old ← slice_get bitwidths rid;
      if negb (old =? MaxUint) then Fault (Panic "duplicate range constraint detected")
      else bitwidths ← slice_set bitwidths rid (Z.min old bw); true_bitwidths rest bitwidths
  end.

Definition determineTrueBitwidths (width : nat) (ranges : list (Access.t * Z)) : result (list Z) :=
  true_bitwidths ranges (replicate width MaxUint).
