(* ===== verification/LowerTerms.v ===== *)
(** * Facts about terms of the arithmetic level

    The constructors of [pkg/ir/term] keep values and what simplification needs,
    shifts and simplification keep the columns of a term, the intervals of
    [Lower.v] contain its values, and lowering an expression keeps its value. *)

From Stdlib Require Import ZArith Lia.
From stdpp Require Import base numbers list option strings gmap.
From S2P Require Import Prelude FieldElement Interval Register SortedSet Element Invert Sexp Trace Term TermFacts TermReads TermRange Simplify Constraint Lookup Air Lower.

Open Scope Z_scope.

Section Constructors.
Context {F : Type} `{!Element F, !ElementLaws F}.
Implicit Types (e t : Expr F) (ts : list (Expr F)).

Abbreviation p := (modulus (F := F)).

(** ** Values *)

Lemma zsum_app xs ys : zsum (xs ++ ys) = zsum xs + zsum ys.
Proof. induction xs as [|x xs IH]; cbn; [done|]. lia. Qed.

Lemma zprod_app xs ys : zprod (xs ++ ys) = zprod xs * zprod ys.
Proof. induction xs as [|x xs IH]; cbn; [lia|]. rewrite IH. lia. Qed.

Lemma const64_wf (n : Z) : 0 <= n < 2 ^ 32 -> expr_wf (Const64 (F := F) n).
Proof. intros Hn. destruct (set_uint64_law (F := F) n Hn) as [Hok _]. by split. Qed.

Section Denote.
Context (env : Access.t -> Z).
Abbreviation D := (denote env).

Lemma const64_value (n : Z) : 0 <= n < 2 -> D (Const64 n) = n.
Proof.
  intros Hn. destruct (set_uint64_law (F := F) n) as [_ Hv]; [lia|]. cbn. unfold Element.Uint64. rewrite Hv.
  pose proof (modulus_big (F := F)). apply Z.mod_small. lia.
Qed.

Lemma isZero_value t : expr_wf t -> isZero t = true -> D t = 0.
Proof. destruct t; try done. intros [Hv _]. cbn. by rewrite is_zero_law, Z.eqb_eq. Qed.

Lemma isOne_value t : expr_wf t -> isOne t = true -> D t = 1.
Proof. destruct t; try done. intros [Hv _]. cbn. by rewrite is_one_law, Z.eqb_eq. Qed.

Lemma zsum_Flatten ts : zsum (map D (Flatten ts flatternAdd)) = zsum (map D ts).
Proof.
  unfold Flatten. induction ts as [|t ts IH]; [done|]. cbn [mbind list_bind]. rewrite map_app, zsum_app, IH.
  destruct t; cbn [flatternAdd map zsum]; try lia. cbn. lia.
Qed.

Lemma zprod_Flatten ts : zprod (map D (Flatten ts flatternMul)) = zprod (map D ts).
Proof.
  unfold Flatten. induction ts as [|t ts IH]; [done|]. cbn [mbind list_bind]. rewrite map_app, zprod_app, IH.
  destruct t; cbn [flatternMul map zprod]; try lia. cbn. lia.
Qed.

Lemma zsum_Remove ts : Forall expr_wf ts -> zsum (map D (RemoveMatching ts isZero)) = zsum (map D ts).
Proof.
  unfold RemoveMatching. induction 1 as [|t ts Ht _ IH]; [done|]. cbn. destruct (isZero t) eqn:Hz; cbn; rewrite IH; [|done].
  rewrite (isZero_value t) by done. lia.
Qed.

Lemma zprod_Remove ts : Forall expr_wf ts -> zprod (map D (RemoveMatching ts isOne)) = zprod (map D ts).
Proof.
  unfold RemoveMatching. induction 1 as [|t ts Ht _ IH]; [done|]. cbn -[Z.mul]. destruct (isOne t) eqn:Hz; cbn -[Z.mul]; rewrite IH; [|done].
  rewrite (isOne_value t) by done. lia.
Qed.

Lemma zprod_zero ts : Forall expr_wf ts -> existsb isZero ts = true -> zprod (map D ts) = 0.
Proof.
  induction 1 as [|t ts Ht _ IH]; [done|]. cbn -[Z.mul]. intros [Hz|Hz]%orb_true_iff; [rewrite (isZero_value t) by done; lia|].
  rewrite IH by done. lia.
Qed.

Lemma flat_wf (fn : Expr F -> option (list (Expr F))) ts :
  fn = flatternAdd \/ fn = flatternMul -> Forall expr_wf ts -> Forall expr_wf (Flatten ts fn).
Proof.
  intros Hfn. apply Forall_Flatten. intros t args Ht Hf. destruct Hfn as [-> | ->]; destruct t; try done; injection Hf as <-;
    apply wf_args; tauto.
Qed.

Lemma denote_Sum ts : Forall expr_wf ts -> D (Sum ts) = zsum (map D ts).
Proof.
  intros Hts. rewrite <-zsum_Flatten, <-zsum_Remove by (apply flat_wf; [by left|done]). unfold Sum.
  destruct (RemoveMatching _ _) as [|t [|t' us]]; [by apply const64_value| |done]. cbn. lia.
Qed.

Lemma denote_Product ts : Forall expr_wf ts -> D (Product ts) = zprod (map D ts).
Proof.
  intros Hts. assert (Hw : Forall expr_wf (Flatten ts flatternMul)) by (apply flat_wf; [by right|done]).
  rewrite <-zprod_Flatten, <-zprod_Remove by done. unfold Product.
  destruct (existsb isZero _) eqn:Hz.
  { rewrite zprod_zero; [by apply const64_value|by apply Forall_RemoveMatching|done]. }
  destruct (RemoveMatching _ _) as [|t [|t' us]]; [by apply const64_value| |done]. cbn -[Z.mul]. lia.
Qed.

Lemma denote_Subtract ts : Forall expr_wf ts -> D (Subtract ts) = difference (map D ts).
Proof.
  intros Hts. destruct Hts as [|t rest Ht Hrest]; [by apply const64_value|]. cbn [Subtract map difference].
  rewrite <-(zsum_Remove rest) by done. destruct (RemoveMatching rest isZero) as [|u us]; cbn; lia.
Qed.

End Denote.

(** ** Terms of the arithmetic level over given columns *)

(** What simplification needs, and nothing but constants, columns and arithmetic *)
Definition air_node (L : Access.t -> Prop) e : Prop :=
  node_ok e /\
  match e with
  | Add _ | Mul _ | Sub _ | Constant _ => True
  | RegisterAccess a => L a
  | _ => False
  end.

Abbreviation air L := (every (air_node L)).

Section Air.
Context (L : Access.t -> Prop).

Lemma air_args args : air L (Add args) \/ air L (Mul args) -> Forall (air L) args.
Proof. intros [[_ H]|[_ H]]; by apply all_Forall. Qed.

Lemma air_constant v : element_ok v -> air L (Constant v).
Proof. by split; [split|]. Qed.

Lemma air_const64 (n : Z) : 0 <= n < 2 ^ 32 -> air L (Const64 (F := F) n).
Proof. intros Hn. apply air_constant. by apply set_uint64_law. Qed.

Lemma air_access a : access_wf a -> L a -> air L (RegisterAccess (F := F) a).
Proof. by split; [split|]. Qed.

Lemma air_Add args : args <> [] -> Forall (air L) args -> air L (Add args).
Proof. intros Hne Ha. split; [done|]. by apply all_Forall. Qed.

Lemma air_Mul args : args <> [] -> Forall (air L) args -> air L (Mul args).
Proof. intros Hne Ha. split; [done|]. by apply all_Forall. Qed.

Lemma air_Sub t rest :
  Forall (air L) (t :: rest) -> varies t = true \/ (surfaced (Add rest) <= 1)%nat -> air L (Sub (t :: rest)).
Proof.
  intros Ha Hd. split; [|by apply all_Forall]. split; [|done]. split; [done|].
  unfold sub_node. rewrite orb_true_iff, Nat.leb_le. tauto.
Qed.

Lemma air_ok : (forall e, air L e -> every node_ok e) /\ (forall l, every_logical (air_node L) l -> every_logical node_ok l).
Proof. apply every_impl. by intros e [He _]. Qed.

Lemma air_wf e : air L e -> expr_wf e.
Proof. intros He. by apply (ok_wf (F := F)), air_ok. Qed.

Lemma air_wf_list ts : Forall (air L) ts -> Forall expr_wf ts.
Proof. intros H. eapply Forall_impl; [exact H|]. apply air_wf. Qed.

Lemma air_Sum ts : Forall (air L) ts -> air L (Sum ts).
Proof.
  intros H. unfold Sum.
  assert (Hr : Forall (air L) (RemoveMatching (Flatten ts flatternAdd) isZero)).
  { apply Forall_RemoveMatching, Forall_Flatten; [|done]. intros t args Ht Hf. destruct t; try done. injection Hf as <-.
    apply air_args. by left. }
  destruct (RemoveMatching _ _) as [|t [|t' us]]; [by apply air_const64|by apply Forall_inv in Hr|by apply air_Add].
Qed.

Lemma air_Product ts : Forall (air L) ts -> air L (Product ts).
Proof.
  intros H. unfold Product.
  assert (Hr : Forall (air L) (RemoveMatching (Flatten ts flatternMul) isOne)).
  { apply Forall_RemoveMatching, Forall_Flatten; [|done]. intros t args Ht Hf. destruct t; try done. injection Hf as <-.
    apply air_args. by right. }
  destruct (existsb isZero _); [by apply air_const64|].
  destruct (RemoveMatching _ _) as [|t [|t' us]]; [by apply air_const64|by apply Forall_inv in Hr|by apply air_Mul].
Qed.

Lemma air_Subtract t rest :
  Forall (air L) (t :: rest) -> varies t = true \/ (surfaced (Add rest) <= 1)%nat -> air L (Subtract (t :: rest)).
Proof.
  intros H Hd. unfold Subtract. apply Forall_cons in H as [Ht Hrest].
  pose proof (Forall_RemoveMatching _ isZero _ Hrest) as Hr. pose proof (proj2 (proj2 (lighter_Remove isZero rest))) as Hle.
  destruct (RemoveMatching rest isZero) as [|u us]; [done|]. apply air_Sub; [by constructor|]. destruct Hd; [by left|right; lia].
Qed.

End Air.

Lemma air_mono (L L' : Access.t -> Prop) e : (forall a, L a -> L' a) -> air L e -> air L' e.
Proof. intros Hl. apply every_impl. intros e' [Hn He']. split; [done|]. destruct e'; auto. Qed.

(** The columns of a term are those of its accesses. *)
Lemma air_accesses L L' e : air L e -> Forall L' (accesses e) -> air L' e.
Proof.
  intros He Ha. destruct (every_accesses L' (air_node L)) as [H _]. specialize (H e He Ha).
  revert e H He Ha. assert (Himp : forall e, air_node L e /\ on_accesses L' e -> air_node L' e).
  { intros e' [[Hn He'] Ho]. split; [done|]. destruct e'; auto. }
  intros e He _ _. by apply (every_impl _ _ Himp).
Qed.

Lemma air_induction L (P : Expr F -> Prop) :
  (forall args, Forall (air L) args -> Forall P args -> args <> [] -> P (Add args)) ->
  (forall args, Forall (air L) args -> Forall P args -> args <> [] -> P (Mul args)) ->
  (forall t rest, air L (Sub (t :: rest)) -> Forall (air L) (t :: rest) -> Forall P (t :: rest) -> P (Sub (t :: rest))) ->
  (forall v, element_ok v -> P (Constant v)) -> (forall a, access_wf a -> L a -> P (RegisterAccess a)) ->
  forall e, air L e -> P e.
Proof.
  intros HA HM HS HC HR.
  apply (expr_induction (fun e => air L e -> P e) (fun _ => True)). split; try (intros; exact I).
  - intros args IH [[[Hne _] _] Ha]. pose proof (proj1 (all_Forall _ _) Ha). apply HA; [done| |done]. by apply (Forall_mp _ _ _ IH).
  - by intros * _ [[_ []] _].
  - intros v [[[Hv _] _] _]. by apply HC.
  - by intros * _ [[_ []] _].
  - by intros * _ _ _ [[_ []] _].
  - by intros * [[_ []] _].
  - intros args IH [[[Hne _] _] Ha]. pose proof (proj1 (all_Forall _ _) Ha). apply HM; [done| |done]. by apply (Forall_mp _ _ _ IH).
  - by intros * _ [[_ []] _].
  - intros a [[[Hw _] Ha] _]. by apply HR.
  - intros args IH H. pose proof H as [[[Hne _] _] Ha]. pose proof (proj1 (all_Forall _ _) Ha). destruct args as [|t rest]; [done|].
    apply HS; [done|done|]. by apply (Forall_mp _ _ _ IH).
  - by intros * [[_ []] _].
Qed.

Lemma air_Forall L e : air L e -> Forall L (accesses e).
Proof.
  revert e. apply air_induction; cbn.
  - intros args _ IH _. by apply Forall_flat_map_.
  - intros args _ IH _. by apply Forall_flat_map_.
  - intros t rest _ _ IH. apply Forall_cons in IH as [Ht Hr]. apply Forall_app. split; [done|by apply Forall_flat_map_].
  - constructor.
  - intros a _ Ha. by constructor.
Qed.

End Constructors.

Abbreviation air L := (every (air_node L)).

(** ** What the constructors keep for simplification *)

Section Better.
Context {F : Type} `{!Element F, !ElementLaws F}.
Implicit Types (e t : Expr F) (ts : list (Expr F)).

Lemma surfaced_Sum ts : (surfaced (Sum ts) <= surfaced (Add ts))%nat.
Proof.
  assert (Hle : (surfaced (Add (RemoveMatching (Flatten ts flatternAdd) isZero)) <= surfaced (Add ts))%nat).
  { etransitivity; [apply lighter_Remove|apply lighter_Flatten]. }
  unfold Sum. destruct (RemoveMatching _ _) as [|t [|t' us]]; [cbn; lia| |done].
  etransitivity; [apply surfaced_one|exact Hle].
Qed.

Lemma varies_Sum ts : existsb varies ts = true -> varies (Sum ts) = true.
Proof.
  intros H. rewrite <-varies_Flatten, <-(varies_Remove isZero) in H by apply isZero_fixed. unfold Sum. revert H.
  destruct (RemoveMatching _ _) as [|t [|t' us]]; cbn; [done| |done]. by rewrite orb_false_r.
Qed.

Lemma surfaced_Product b ts : leafy surfaced b ts -> (surfaced (Product ts) <= b)%nat.
Proof.
  intros H. unfold Product. destruct (existsb isZero _); [cbn; lia|].
  apply (leafy_Flatten surfaced), leafy_Remove in H; [|done..]. revert H.
  destruct (RemoveMatching _ _) as [|t [|t' us]]; intros H; [cbn; lia| |].
  - destruct H as [H|H%Forall_inv]; [|done]. cbn in H. rewrite orb_false_r in H. destruct t; try done; cbn; lia.
  - cbn [surfaced]. destruct H as [->|H]; [lia|]. destruct (existsb _ _); [lia|]. by apply max_list_with_le.
Qed.

Lemma varies_Product ts : existsb varies ts = true -> forallb solid ts = true -> varies (Product ts) = true.
Proof.
  intros Hv Hs. destruct (solid_Flatten ts Hv Hs) as [Hfv Hfs]. unfold Product.
  rewrite <-(varies_Remove isOne) in Hfv by apply isOne_fixed. apply (solid_Remove isOne) in Hfs.
  rewrite solid_nonzero by done. revert Hfv Hfs.
  destruct (RemoveMatching _ _) as [|t [|t' us]]; intros Hfv Hfs; [done| |].
  - cbn in Hfv. by rewrite orb_false_r in Hfv.
  - rewrite varies_Mul. by rewrite Hfv, Hfs.
Qed.

Lemma better_Sum ts args : Forall2 better ts args -> better (Sum ts) (Add args).
Proof.
  intros H. split; [|by intros Hv; apply varies_Sum; eapply better_varies_args|done].
  etransitivity; [apply surfaced_Sum|]. by apply lighter_better.
Qed.

Lemma better_Product ts args :
  Forall2 better ts args -> (existsb leaf args = true -> existsb leaf ts = true) -> better (Product ts) (Mul args).
Proof.
  intros H Hl. split; [| |done].
  - apply surfaced_Product. cbn [surfaced]. destruct (existsb leaf args); [left; auto|right].
    assert (Hall : Forall (fun t => surfaced t <= max_list_with surfaced args)%nat args) by by apply max_list_with_le.
    revert Hall. generalize (max_list_with surfaced args). intros b. clear Hl.
    induction H as [|t' t ts args [Ht _ _] _ IH]; [constructor|]. intros [Hb Hall]%Forall_cons. constructor; [lia|auto].
  - rewrite varies_Mul. intros [Hv Hs]%andb_true_iff. apply varies_Product; [by eapply better_varies_args|by eapply better_solid_args].
Qed.

Lemma better_Subtract t rest a args :
  Forall2 better (t :: rest) (a :: args) -> better (Subtract (t :: rest)) (Sub (a :: args)).
Proof.
  intros H. inversion H as [|? ? ? ? [Hs Hv _] _]; subst. unfold Subtract.
  destruct (RemoveMatching rest isZero); by split.
Qed.

Lemma better_trans e1 e2 e3 : better e1 e2 -> better e2 e3 -> better e1 e3.
Proof. intros [Hs Hv Hn] [Hs' Hv' Hn']. split; auto. lia. Qed.

(** *** Shifts *)

Lemma shift_shape L s e : air L e ->
  air (fun a => exists b, L b /\ a = Access.ApplyShift b s) (ApplyShift e s) /\
  varies (ApplyShift e s) = varies e /\ surfaced (ApplyShift e s) = surfaced e /\
  leaf (ApplyShift e s) = leaf e /\ nonzero (ApplyShift e s) = nonzero e.
Proof.
  assert (Hlist : forall args, Forall (fun e => air (fun a => exists b, L b /\ a = Access.ApplyShift b s) (ApplyShift e s) /\
      varies (ApplyShift e s) = varies e /\ surfaced (ApplyShift e s) = surfaced e /\
      leaf (ApplyShift e s) = leaf e /\ nonzero (ApplyShift e s) = nonzero e) args ->
    let args' := map (fun e => ApplyShift e s) args in
    Forall (air (fun a => exists b, L b /\ a = Access.ApplyShift b s)) args' /\
    existsb varies args' = existsb varies args /\ forallb varies args' = forallb varies args /\
    forallb solid args' = forallb solid args /\ existsb leaf args' = existsb leaf args /\
    sum_list_with surfaced args' = sum_list_with surfaced args /\ max_list_with surfaced args' = max_list_with surfaced args).
  { intros args H args'. subst args'. induction H as [|e' args (Ha & Hv & Hs & Hl & Hn) _ (IHa & IHe & IHf & IHsol & IHl & IHs & IHm)]; [done|].
    cbn [map existsb forallb]. unfold solid in *. rewrite Hv, Hl, Hn, IHe, IHf, IHsol, IHl. split_and!; try done; [by constructor|cbn; lia..]. }
  revert e. apply air_induction.
  - intros args _ IH Hne. destruct (Hlist args IH) as (Ha & Hv & Hf & _ & Hl & Hs & _). cbn [ApplyShift]. split_and!; [|exact Hv| |done|done].
    + apply air_Add; [by destruct args|done].
    + cbn [surfaced]. by rewrite Hf, Hs.
  - intros args _ IH Hne. destruct (Hlist args IH) as (Ha & Hv & _ & Hsol & Hl & _ & Hs). cbn [ApplyShift]. split_and!; [| | |done|done].
    + apply air_Mul; [by destruct args|done].
    + rewrite !varies_Mul. by rewrite Hv, Hsol.
    + cbn [surfaced]. by rewrite Hl, Hs.
  - intros t rest He _ IH. destruct (Hlist _ IH) as (Ha & _). apply Forall_cons in IH as [(_ & Hv & Hs & _) IH].
    destruct (Hlist _ IH) as (_ & _ & Hf & _ & _ & Hsum & _). cbn [ApplyShift map] in *. split_and!; [|exact Hv|exact Hs|done|done].
    apply air_Sub; [done|]. rewrite Hv. change (surfaced (Add ?l)) with ((if forallb varies l then 0 else 1) + sum_list_with surfaced l)%nat.
    rewrite Hf, Hsum. destruct He as [[[_ Hnode] _] _]. unfold sub_node in Hnode. by rewrite orb_true_iff, Nat.leb_le in Hnode.
  - intros v Hv. split; [by apply air_constant|done].
  - intros a Hw Ha. split; [|done]. apply air_access; [done|by eexists].
Qed.

Lemma accesses_shift L s e : air L e -> accesses (ApplyShift e s) = map (fun a => Access.ApplyShift a s) (accesses e).
Proof.
  assert (Hmap : forall args, Forall (fun e => accesses (ApplyShift e s) = map (fun a => Access.ApplyShift a s) (accesses e)) args ->
    flat_map accesses (map (fun e => ApplyShift e s) args) = map (fun a => Access.ApplyShift a s) (flat_map accesses args)).
  { induction 1 as [|e' args He _ IH]; [done|]. cbn. by rewrite He, IH, map_app. }
  revert e. apply air_induction; cbn; try done; intros; by apply Hmap || (change (accesses ?x ++ flat_map accesses ?y) with (flat_map accesses (x :: y)); by apply (Hmap (_ :: _))).
Qed.

Lemma row_env_shift k (m : ArrayModule F) s a : row_env k m (Access.ApplyShift a s) = row_env (k + s) m a.
Proof. unfold row_env. by rewrite access_at_shift. Qed.

Lemma denote_shift L s k (m : ArrayModule F) e : air L e -> denote (row_env k m) (ApplyShift e s) = denote (row_env (k + s) m) e.
Proof.
  revert e. apply air_induction; cbn; try done.
  - intros args _ IH _. by rewrite (map_map_Forall _ _ _ _ IH).
  - intros args _ IH _. by rewrite (map_map_Forall _ _ _ _ IH).
  - intros t rest _ _ IH. apply Forall_cons in IH as [-> IH]. by rewrite (map_map_Forall _ _ _ _ IH).
  - intros a _ _. apply row_env_shift.
Qed.

End Better.

(** ** Simplification *)

Section Simplified.
Context {F : Type} `{!Element F, !ElementLaws F}.
Implicit Types (e t : Expr F) (ts : list (Expr F)) (m : ArrayModule F).

Abbreviation p := (modulus (F := F)).

Definition arithmetic e : bool := match e with Add _ | Mul _ | Sub _ | Constant _ => true | _ => false end.

(** The terms that are lowered *)
Definition polynomial e : bool := match e with RegisterAccess _ | VectorAccess _ => true | _ => arithmetic e end.

(** Simplification makes arithmetic of the parts of polynomials. *)
Section Shape.
Context (N : Expr F -> Prop) (Harith : forall e, arithmetic e = true -> N e) (Hpoly : forall e, N e -> polynomial e = true).

Lemma shape_list e args : e = Add args \/ e = Mul args \/ e = Sub args -> every N e <-> Forall (every N) args.
Proof. intros H. assert (HN : N e) by (apply Harith; by destruct H as [-> | [-> | ->]]). destruct H as [-> | [-> | ->]]; cbn; rewrite every_args; tauto. Qed.

Lemma shape_constant c : every N (Constant c).
Proof. split; [by apply Harith|done]. Qed.

Lemma shape_sum nterms : Forall (every N) nterms -> every N (simplifySum nterms).
Proof.
  intros H. apply sum_of_ind; try done; try (intros; by apply shape_constant || (subst; apply shape_constant)).
  - intros args. apply (shape_list (Add args)). by left.
  - intros args _. apply (shape_list (Add args)). by left.
Qed.

Lemma shape_product nterms : Forall (every N) nterms -> every N (Simplify_Mul nterms).
Proof.
  intros H. apply product_of_ind; try done; try (intros; by apply shape_constant || (subst; apply shape_constant)).
  - intros args. apply (shape_list (Mul args)). by right; left.
  - intros args _. apply (shape_list (Mul args)). by right; left.
Qed.

Lemma shape_difference lhs rhs : every N lhs -> every N rhs -> every N (Simplify_Sub lhs rhs).
Proof.
  intros Hl Hr. unfold Simplify_Sub. destruct (isZero rhs); [done|].
  assert (Hsub : forall ts, Forall (every N) ts -> every N (Sub ts)) by (intros ts; by apply (shape_list (Sub ts)); right; right).
  assert (Hpair : every N (Sub [lhs; rhs])) by (apply Hsub; by repeat constructor).
  assert (Hargs : forall args, rhs = Add args -> Forall (every N) args) by (intros args ->; by apply (shape_list (Add args)); [left|]).
  assert (Hlist : forall args, rhs = Add args -> every N (Sub (lhs :: args))).
  { intros args Heq. apply Hsub. constructor; [done|by apply Hargs]. }
  destruct lhs as [| |lc| | | | | | | |], rhs as [args| |rc| | | | | | | |]; try exact Hpair; try (by apply Hlist).
  - destruct (findConstant args) as [rc|]; [|by apply Hlist]. destruct (is_lt _); [by apply Hlist|].
    apply Hsub, Forall_merge; [intros; apply shape_constant|]. constructor; [done|by apply Hargs].
  - destruct (is_lt _); [done|apply shape_constant].
Qed.

Lemma simplify_shape n casts e e' : every N e -> SimplifyExpr n casts e = Ok e' -> every N e'.
Proof.
  revert e e'. induction n as [|n IH]; intros e e' He; [done|].
  assert (Hlist : forall args nterms, Forall (every N) args -> mapM (SimplifyExpr n casts) args = Ok nterms -> Forall (every N) nterms).
  { intros args nterms Ha H%mapM_Forall2. induction H as [|t t' args nterms Ht _ IHa]; [constructor|].
    apply Forall_cons in Ha as [Hta Ha]. constructor; eauto. }
  pose proof (Hpoly e (every_here _ _ He)) as Hp.
  destruct e; try done; cbn; try (by intros [= <-]).
  - intros (nterms & Hn & [= <-])%bind_ok. apply shape_sum. eapply Hlist; [|exact Hn]. by apply (shape_list (Add Args)); [left|].
  - intros (nterms & Hn & [= <-])%bind_ok. apply shape_product. eapply Hlist; [|exact Hn]. by apply (shape_list (Mul Args)); [right; left|].
  - destruct Args as [|a rest]; [done|]. intros (lhs & Ha & (nterms & Hn & [= <-])%bind_ok)%bind_ok.
    apply (shape_list _ (a :: rest)) in He; [|by right; right]. apply Forall_cons in He as [Hae Hrest].
    apply shape_difference; [by eapply IH|]. apply shape_sum. by eapply Hlist.
Qed.

End Shape.

Definition shape_node (L : Access.t -> Prop) e : Prop :=
  match e with Add _ | Mul _ | Sub _ | Constant _ => True | RegisterAccess a => L a | _ => False end.

Abbreviation shape L := (every (shape_node L)).

Lemma shape_air L n casts e e' : shape L e -> SimplifyExpr n casts e = Ok e' -> shape L e'.
Proof. by apply simplify_shape; intros [] ?. Qed.

Lemma air_split L e : air L e <-> every node_ok e /\ shape L e.
Proof.
  split.
  - intros He. split; [by eapply air_ok|]. revert He. apply every_impl. by intros e' [].
  - intros [Ho Hs]. by apply (every_and node_ok (shape_node L)).
Qed.

(** A simplified term has the same columns and values. *)
Lemma simplify_air L k m e e' :
  module_wf m -> air L e -> Simplify false e = Ok e' -> air L e' /\ better e' e /\
  (Forall (access_defined m) (accesses e) -> eqm p (denote (row_env k m) e') (denote (row_env k m) e)).
Proof.
  intros Hm He Hs. pose proof (proj1 (air_split L e) He) as [Hok Hsh].
  destruct (proj1 (simplify_keeps k m Hm (depth e) false) e e' Hok Hs) as [Hok' Hb _ Hev].
  split; [apply air_split; split; [done|by eapply shape_air]|]. split; [done|]. intros Hd.
  assert (Hsafe : every (fun e => node_wf e /\ not_cast e) e).
  { revert He. apply every_impl. intros e0 [[Hw _] Hn]. split; [done|]. by destruct e0. }
  destruct (TermProperties.defined_outcome (fun _ => False) (fun e => node_wf e /\ not_cast e) k m Hm) as [Hout _]; [tauto|intros; tauto|].
  specialize (Hout e Hsafe Hd). destruct (EvalAt k m e) as [v|] eqn:Hv; [|done].
  destruct (eval_denotes k m Hm) as [Hden _]. pose proof (Hden e v (air_wf L e He) Hv) as Hdv.
  destruct (Hev (denote (row_env k m) e)) as (v' & Hv' & Hd'); [by exists v|].
  pose proof (Hden e' v' (proj1 (ok_wf (F := F)) e' Hok') Hv') as [_ Hd'']. destruct Hd' as [_ Hd']. by rewrite <-Hd', <-Hd''.
Qed.

End Simplified.

(** ** Ranges *)

Section Ranges.
Import IntervalFacts.
Context {F : Type} `{!Element F, !ElementLaws F}.
Implicit Types (e t : Expr F) (m : ArrayModule F).

(** An interval, if there is one, contains the value. *)
Definition contains (r : result Interval.t) (z : Z) : Prop := forall i, r = Ok i -> wf i /\ member i z.

Lemma foldl_zsum z zs : foldl Z.add z zs = z + zsum zs.
Proof. revert z. induction zs as [|y zs IH]; intros z; cbn; [lia|]. rewrite IH. lia. Qed.

Lemma foldl_difference z zs : foldl Z.sub z zs = z - zsum zs.
Proof. revert z. induction zs as [|y zs IH]; intros z; cbn; [lia|]. rewrite IH. lia. Qed.

Lemma foldl_zprod z zs : foldl Z.mul z zs = z * zprod zs.
Proof. revert z. induction zs as [|y zs IH]; intros z; cbn [foldl zprod]; [lia|]. rewrite IH. lia. Qed.

Lemma range_args_contains (op : Interval.t -> Interval.t -> Interval.t) (opz : Z -> Z -> Z) r rs z zs :
  (forall i j, wf i -> wf j -> wf (op i j)) ->
  (forall i j x y, wf i -> wf j -> member i x -> member j y -> member (op i j) (opz x y)) ->
  contains r z -> Forall2 contains rs zs -> contains (range_args op (r :: rs)) (foldl opz z zs).
Proof.
  intros Hwf Hmem Hr Hrs. cbn [range_args].
  assert (Hloop : forall acc x, contains acc x ->
    contains (foldl (fun acc arg => res ← acc; ith ← arg; Ok (op res ith)) acc rs) (foldl opz x zs)).
  { clear Hr. induction Hrs as [|r' z' rs zs Hr' _ IH]; intros acc x Hacc; [done|]. cbn. apply IH.
    intros i (a & Ha & (b & Hb & [= <-])%bind_ok)%bind_ok. destruct (Hacc a Ha), (Hr' b Hb). split; auto. }
  intros i (a & Ha & Hi)%bind_ok. rewrite Set_id in Hi. apply (Hloop (Ok a) z); [|done].
  intros b [= <-]. by apply Hr.
Qed.

Section Range.
Context (rng : Expr F -> result Interval.t) (L : Access.t -> Prop) (env : Access.t -> Z).
Context (rng_Add : forall args, rng (Add args) = range_args Interval.Add (map rng args)).
Context (rng_Mul : forall args, rng (Mul args) = range_args Interval.Mul (map rng args)).
Context (rng_Sub : forall args, rng (Sub args) = range_args Interval.Sub (map rng args)).
Context (rng_Constant : forall v, rng (Constant v) = range_of_const v).
Context (rng_access : forall a, access_wf a -> L a -> contains (rng (RegisterAccess a)) (env a)).

Lemma air_range e : air L e -> contains (rng e) (denote env e).
Proof.
  assert (Hargs : forall args, Forall (fun e => contains (rng e) (denote env e)) args -> Forall2 contains (map rng args) (map (denote env) args)).
  { intros args H. by apply Forall2_map. }
  revert e. apply air_induction.
  - intros args _ IH Hne. rewrite rng_Add. destruct args as [|t args]; [done|]. apply Forall_cons in IH as [Ht IH]. cbn [map].
    change (denote env (Add (t :: args))) with (denote env t + zsum (map (denote env) args)). rewrite <-foldl_zsum.
    apply range_args_contains; auto using Add_wf, Add_member.
  - intros args _ IH Hne. rewrite rng_Mul. destruct args as [|t args]; [done|]. apply Forall_cons in IH as [Ht IH]. cbn [map].
    change (denote env (Mul (t :: args))) with (denote env t * zprod (map (denote env) args)). rewrite <-foldl_zprod.
    apply range_args_contains; auto using Mul_wf, Mul_member.
  - intros t args _ _ IH. rewrite rng_Sub. apply Forall_cons in IH as [Ht IH]. cbn [map].
    change (denote env (Sub (t :: args))) with (denote env t - zsum (map (denote env) args)). rewrite <-foldl_difference.
    apply range_args_contains; auto using Sub_wf, Sub_member.
  - intros v Hv. rewrite rng_Constant. unfold range_of_const. rewrite bytes_law by done. intros i Hi.
    destruct (NewInterval_ok (val v) (val v)) as (j & Hj & Hwf & Hm); [lia|]. rewrite Hi in Hj. injection Hj as <-.
    split; [done|]. apply Hm. cbn. lia.
  - auto.
Qed.

End Range.

Lemma contains_bits w z : 0 <= z < 2 ^ w -> 0 <= w -> contains (valueRangeOfBits w) z.
Proof.
  intros Hz Hw i Hi. destruct (bits_interval w Hw) as (j & Hj & Hwf & Hm). unfold valueRangeOfBits in Hi. rewrite Hj in Hi.
  injection Hi as <-. split; [done|]. by apply Hm.
Qed.

Lemma contains_infinity z : contains (Ok Interval.INFINITY) z.
Proof. by intros i [= <-]. Qed.

Lemma row_env_nonneg k m a : module_wf m -> 0 <= row_env k m a.
Proof.
  intros Hm. unfold row_env. destruct (access_at k m a) as [v|] eqn:Hv; [|done]. by apply val_range, (access_at_wf k m a).
Qed.

(** [ValueRange] where the cells are within the masks, and [valueRangeOf] where they
    are within the widths of the registers *)
Lemma ValueRange_contains k m e :
  module_wf m -> air (fun a => row_env k m a < 2 ^ Access.maskwidth a) e -> contains (ValueRange e) (denote (row_env k m) e).
Proof.
  intros Hm. apply air_range; try done. intros a Hw Ha.
  change (contains (if Access.bitwidth a =? MaxUint then Ok Interval.INFINITY else valueRangeOfBits (Access.maskwidth a)) (row_env k m a)).
  destruct (_ =? _); [apply contains_infinity|].
  apply contains_bits; [|done]. split; [by apply row_env_nonneg|done].
Qed.

Lemma valueRangeOf_contains bitwidths env e :
  air (fun a => contains (valueRangeOf_access bitwidths a) (env a)) e -> contains (valueRangeOf bitwidths e) (denote env e).
Proof. by apply air_range. Qed.

End Ranges.

(** ** Lowering of expressions *)

Section LowerTerm.
Context {F : Type} `{!Element F, !ElementLaws F, !Inversion F}.
Implicit Types (e t : Expr F) (m : ArrayModule F) (b : Builder.t F).

Abbreviation p := (modulus (F := F)).

(** A predicate on columns and rows that is not about declared widths *)
Definition positional (G : Access.t -> Prop) : Prop :=
  forall reg bw bw' mw s, G (Access.mk reg bw mw s) -> G (Access.mk reg bw' mw s).

Context (G : Access.t -> Prop) (HG : positional G) (Hodd : 2 < p).

Definition source_node e : Prop := node_ok e /\ on_accesses G e.

Record lowers e e' : Prop := {
  lowers_air : air G e';
  lowers_better : better e' e;
  lowers_value k m : eqm p (denote (row_env k m) e') (denote (row_env k m) e)
}.

Lemma two_pow_nonzero w : 0 <= w -> nonzero (Constant (TwoPowN (F := F) w)) = true.
Proof.
  intros Hw. destruct (TwoPowN_law (F := F) w Hw) as [Hok Hv]. cbn. rewrite is_zero_law, Hv by done. apply negb_true_iff, Z.eqb_neq.
  intros Hd%Z.mod_divide; [|lia]. assert (H2 : (p | 2)).
  { revert Hd. pattern w. apply natlike_ind; [| |done].
    - rewrite Z.pow_0_r. intros H1. apply Z.divide_1_r_nonneg in H1; lia.
    - intros x Hx IH. rewrite Z.pow_succ_r by done. intros [H|H]%Z.divide_prime_mul; [done|by apply IH|exact modulus_is_prime]. }
  apply Z.divide_pos_le in H2; lia.
Qed.

Lemma shift_term a w :
  0 <= w -> access_wf a -> G a ->
  let t := Product [shiftTerm (RegisterAccess (F := F) a) w] in
  air G t /\ varies t = true /\ surfaced t = 0%nat /\
  forall k m, eqm p (denote (row_env k m) t) (2 ^ w * row_env k m a).
Proof.
  intros Hw Ha HGa t. pose proof (air_access G a Ha HGa : air G (RegisterAccess (F := F) a)) as Hra.
  destruct (TwoPowN_law (F := F) w Hw) as [Hok Hv].
  assert (Hs : air G (shiftTerm (RegisterAccess a) w) /\ varies (shiftTerm (RegisterAccess (F := F) a) w) = true /\
    surfaced (shiftTerm (RegisterAccess (F := F) a) w) = 0%nat /\
    forall k m, eqm p (denote (row_env k m) (shiftTerm (RegisterAccess a) w)) (2 ^ w * row_env k m a)).
  { unfold shiftTerm. destruct (Z.eqb_spec w 0) as [->|Hne].
    - split; [done|]. split; [done|]. split; [done|]. intros k m. cbn -[Z.mul]. by rewrite Z.pow_0_r, Z.mul_1_l.
    - assert (Hall : Forall (air G) [Constant (TwoPowN w); RegisterAccess (F := F) a]) by (constructor; [by apply air_constant|by constructor]).
      split; [by apply air_Product|]. split; [apply varies_Product; [done|cbn [forallb]; unfold solid; by rewrite two_pow_nonzero]|].
      split; [apply Nat.le_0_r, surfaced_Product; by left|].
      intros k m. rewrite denote_Product by (by eapply air_wf_list). cbn -[Z.mul]. rewrite Hv, eqm_mod.
      by rewrite Z.mul_1_r. }
  destruct Hs as (Hsa & Hsv & Hss & Hsd). subst t. split; [apply air_Product; by constructor|].
  split; [apply varies_Product; [cbn; by rewrite Hsv|cbn; unfold solid; by rewrite Hsv]|].
  split; [apply Nat.le_0_r, surfaced_Product; right; constructor; [lia|done]|].
  intros k m. rewrite denote_Product by (constructor; [by eapply air_wf|done]). cbn -[Z.mul]. by rewrite Z.mul_1_r.
Qed.

Lemma mask_shape a reg bw s w : Access.Mask (Access.RawRegisterAccess reg bw s) w = Ok a -> a = Access.mk reg bw w s.
Proof. unfold Access.Mask. destruct (_ <? _); [done|]. destruct (Access.HasFieldType _); [done|]. by intros [= <-]. Qed.

Lemma vector_terms_spec vars sh b ts :
  Forall access_wf vars -> Forall G vars -> 0 <= sh -> sh + widths vars < 2 ^ 64 -> vector_terms vars sh b = Ok ts ->
  Forall (air G) ts /\ Forall (fun t => varies t = true /\ surfaced t = 0%nat) ts /\ length ts = length vars /\
  forall k m, eqm p (zsum (map (denote (row_env k m)) ts)) (2 ^ sh * vector_value (row_env k m) vars).
Proof.
  intros Hwf Hg. revert sh ts. induction Hwf as [|a vars Ha Hwf IH]; intros sh ts Hsh Hlt; cbn [vector_terms widths] in *.
  { intros [= <-]. split_and!; try constructor. intros k m. cbn -[Z.mul]. by rewrite Z.mul_0_r. }
  apply Forall_cons in Hg as [HGa Hg]. pose proof (widths_nonneg vars Hwf). unfold access_wf in Ha.
  intros (limb & _ & (ith & ->%mask_shape & (ts' & Hts & [= <-])%bind_ok)%bind_ok)%bind_ok.
  rewrite u64_small in Hts by lia. destruct (IH Hg (sh + Access.maskwidth a) ts') as (Hair & Hvs & Hlen & Hval); [lia|lia|done|].
  assert (Hga : G (Access.mk (Access.register a) (Register.width limb) (Access.maskwidth a) (Access.shift a))).
  { apply (HG _ (Access.bitwidth a)). by destruct a. }
  destruct (shift_term (Access.mk (Access.register a) (Register.width limb) (Access.maskwidth a) (Access.shift a)) sh Hsh Ha Hga)
    as (Hta & Htv & Hts' & Htd).
  split_and!; [by constructor|by constructor|cbn; lia|]. intros k m. cbn [map zsum vector_value]. rewrite Htd, Hval.
  rewrite Z.pow_add_r by lia. unfold row_env. cbn -[Z.mul access_at].
  change (access_at k m (Access.mk ?r _ _ ?s)) with (access_at k m (Access.mk r (Access.bitwidth a) (Access.maskwidth a) s)).
  replace (Access.mk (Access.register a) (Access.bitwidth a) (Access.maskwidth a) (Access.shift a)) with a by by destruct a.
  by rewrite Z.mul_add_distr_l, Z.mul_assoc.
Qed.

Lemma lowers_vector vars b e' :
  source_node (VectorAccess vars) -> lowerVectorAccess vars b = Ok e' -> lowers (VectorAccess vars) e'.
Proof.
  intros [[(Hne & Hwf & Hlt) _] Hg] (ts & Hts & [= <-])%bind_ok.
  destruct (vector_terms_spec vars 0 b ts) as (Hair & Hvs & Hlen & Hval); [done|done|lia|lia|done|].
  assert (Hall : forallb varies ts = true /\ sum_list_with surfaced ts = 0%nat).
  { clear -Hvs. induction Hvs as [|t ts [Hv Hs] _ [IHv IHs]]; [done|]. cbn. by rewrite Hv, IHv, Hs, IHs. }
  destruct Hall as [Hv Hs]. split; [by apply air_Sum| |].
  - split; [|intros _|done].
    + etransitivity; [apply surfaced_Sum|]. cbn [surfaced]. rewrite Hv, Hs. done.
    + apply varies_Sum. destruct ts; [by destruct vars|]. cbn in *. by apply andb_true_iff in Hv as [-> _].
  - intros k m. rewrite denote_Sum by (by eapply air_wf_list). rewrite Hval, Z.pow_0_r, Z.mul_1_l. done.
Qed.

Lemma lowers_list b args ts :
  Forall (fun e => every source_node e -> forall e', lowerTermTo e b = Ok e' -> lowers e e') args ->
  Forall (every source_node) args -> mapM (fun e => lowerTermTo e b) args = Ok ts ->
  Forall2 lowers args ts /\ (existsb leaf args = true -> existsb leaf ts = true).
Proof.
  intros IH Hs H%mapM_Forall2. induction H as [|e t args ts Ht _ IHl]; [by split|].
  apply Forall_cons in IH as [He IH], Hs as [Hse Hs]. destruct (IHl IH Hs) as [Hall Hleaf].
  split; [constructor; [by apply He|done]|]. cbn. rewrite !orb_true_iff. intros [Hl|Hl]; [left|right; auto].
  destruct e; try done. cbn in Ht. by apply bind_ok in Ht as (a' & _ & [= <-]).
Qed.

Lemma lowers_parts args ts :
  Forall2 lowers args ts ->
  Forall (air G) ts /\ Forall2 better ts args /\
  (forall k m, eqm p (zsum (map (denote (row_env k m)) ts)) (zsum (map (denote (row_env k m)) args))) /\
  (forall k m, eqm p (zprod (map (denote (row_env k m)) ts)) (zprod (map (denote (row_env k m)) args))).
Proof.
  induction 1 as [|e t args ts [Ha Hb Hv] _ (IHa & IHb & IHs & IHp)]; [done|].
  split; [by constructor|]. split; [by constructor|]. split; intros k m; cbn [map zsum zprod]; [by rewrite Hv, IHs|by rewrite Hv, IHp].
Qed.

Lemma lower_register a a' : lowerRegisterAccess a = Ok a' -> a' = a.
Proof. intros ->%mask_shape. by destruct a. Qed.

Lemma lowerTermTo_spec e b e' : every source_node e -> lowerTermTo e b = Ok e' -> lowers e e'.
Proof.
  revert e e'. apply (expr_induction (fun e => forall e', every source_node e -> lowerTermTo e b = Ok e' -> lowers e e') (fun _ => True)).
  split; try (intros; exact I); try done; cbn [lowerTermTo].
  - intros args IH e' [[[Hne _] _] Hargs%all_Forall] (ts & Hts & [= <-])%bind_ok.
    destruct (lowers_list b args ts) as [Hall _]; [eapply Forall_impl; [exact IH|]; naive_solver|done|done|].
    destruct (lowers_parts _ _ Hall) as (Hair & Hb & Hs & _). split; [by apply air_Sum|by apply better_Sum|].
    intros k m. rewrite denote_Sum by (by eapply air_wf_list). apply Hs.
  - intros v e' [[[Hv _] _] _] [= <-]. split; [by apply air_constant|apply better_refl|done].
  - intros args IH e' [[[Hne _] _] Hargs%all_Forall] (ts & Hts & [= <-])%bind_ok.
    destruct (lowers_list b args ts) as [Hall Hleaf]; [eapply Forall_impl; [exact IH|]; naive_solver|done|done|].
    destruct (lowers_parts _ _ Hall) as (Hair & Hb & _ & Hp). split; [by apply air_Product|by apply better_Product|].
    intros k m. rewrite denote_Product by (by eapply air_wf_list). apply Hp.
  - intros a e' [[[Hw _] Hg] _] (a' & ->%lower_register & [= <-])%bind_ok. split; [by apply air_access|apply better_refl|done].
  - intros args IH e' [[[Hne Hnode] _] Hargs%all_Forall] (ts & Hts & [= <-])%bind_ok.
    destruct (lowers_list b args ts) as [Hall _]; [eapply Forall_impl; [exact IH|]; naive_solver|done|done|].
    destruct Hall as [|a t args ts [Ht Htb Htv] Hall]; [done|]. destruct (lowers_parts _ _ Hall) as (Hair & Hb & Hs & _).
    split; [|apply better_Subtract; by constructor|].
    + apply air_Subtract; [by constructor|]. unfold sub_node in Hnode. rewrite orb_true_iff, Nat.leb_le in Hnode.
      destruct Hnode as [Hv|Hle]; [left; by apply Htb|right]. pose proof (proj2 (proj2 (lighter_better _ _ Hb))). lia.
    + intros k m. rewrite denote_Subtract by (constructor; [by eapply air_wf|by eapply air_wf_list]). cbn [map difference denote].
      by rewrite Htv, Hs.
  - intros vars e' [Hn _] Hl. by eapply lowers_vector.
Qed.

End LowerTerm.
