(* ===== verification/LowerNormal.v ===== *)
(** * Normal forms of logical terms

    Before it is lowered, a logical term is expanded to conjunctions and
    disjunctions of comparisons, and simplified.  Both keep where it holds, and what
    the lowering of its comparisons needs. *)

From Stdlib Require Import ZArith Lia.
From stdpp Require Import base numbers list option strings.
From S2P Require Import Prelude Element Invert Trace Term TermFacts TermReads Simplify Constraint Air Lower LowerTerms.

Open Scope Z_scope.

(** Induction on a logical term *)
Ltac logical_ind :=
  match goal with |- forall l, @?Q l => apply (@logical_induction _ (fun _ => True) Q) end; split; try done; cbn beta.

Section Normal.
Context {F : Type} `{!Element F, !ElementLaws F}.
Implicit Types (e x y : Expr F) (l : Logical F) (m : ArrayModule F) (P : Expr F -> Expr F -> Prop).

Abbreviation p := (modulus (F := F)).

(** [P] holds of the sides of every comparison. *)
Fixpoint comparisons P l {struct l} : Prop :=
  match l with
  | Conjunct args | Disjunct args => all_ (comparisons P) args
  | Equal x y | NotEqual x y => P x y
  | Ite c t f =>
      comparisons P c /\ match t with Some t => comparisons P t | None => True end
        /\ match f with Some f => comparisons P f | None => True end
  | Negate arg => comparisons P arg
  end.

(** The same for a conjunction or disjunction of comparisons *)
Fixpoint normal_form P l {struct l} : Prop :=
  match l with
  | Conjunct args | Disjunct args => all_ (normal_form P) args
  | Equal x y | NotEqual x y => P x y
  | _ => False
  end.

Lemma normal_args P args :
  (normal_form P (Conjunct args) <-> Forall (normal_form P) args) /\ (normal_form P (Disjunct args) <-> Forall (normal_form P) args).
Proof. split; apply all_Forall. Qed.

Lemma normal_Conjunction P args : Forall (normal_form P) args -> normal_form P (Conjunction args) /\ normal_form P (Disjunction args).
Proof.
  intros H. destruct args as [|t [|]]; [done|by apply Forall_inv in H|]. split; by apply (normal_args P).
Qed.

Lemma normal_comparisons P l : normal_form P l -> comparisons P l.
Proof.
  revert l. logical_ind; cbn.
  - intros args IH Ha. apply all_Forall. by apply (Forall_mp _ _ _ IH).
  - intros args IH Ha. apply all_Forall. by apply (Forall_mp _ _ _ IH).
Qed.

Lemma comparisons_every (N : Expr F -> Prop) P l :
  (forall x y, P x y -> every N x /\ every N y) -> comparisons P l -> every_logical N l.
Proof.
  intros HP. revert l. logical_ind; cbn; try (intros x y _ _; apply HP).
  - intros args IH Ha. apply all_Forall. by apply (Forall_mp _ _ _ IH).
  - intros args IH Ha. apply all_Forall. by apply (Forall_mp _ _ _ IH).
  - intros c t f Hc Ht Hf. destruct t, f; cbn in *; tauto.
Qed.

(** ** Expansion *)

Lemma holds_Conjunction env args : holds env (Conjunction args) = forallb (holds env) args.
Proof. destruct args as [|t [|]]; cbn; by rewrite ?andb_true_r. Qed.

Lemma holds_Disjunction env args : holds env (Disjunction args) = existsb (holds env) args.
Proof. destruct args as [|t [|]]; cbn; by rewrite ?orb_false_r. Qed.

Lemma holds_NotEqual env x y : holds env (NotEqual x y) = negb (holds env (Equal x y)).
Proof. done. Qed.

Lemma holds_Equal env x y : holds env (Equal x y) = zero_test (F := F) (denote env x - denote env y).
Proof. done. Qed.

Lemma expand_all env (b : bool) args :
  Forall (fun l => forall s, holds env (expandLogical l s) = Bool.eqb s (holds env l)) args ->
  forallb (holds env) (map (fun a => expandLogical a b) args) = (if b then forallb (holds env) args else negb (existsb (holds env) args)) /\
  existsb (holds env) (map (fun a => expandLogical a b) args) = (if b then existsb (holds env) args else negb (forallb (holds env) args)).
Proof.
  induction 1 as [|l args Hl _ [IHa IHe]]; [by destruct b|]. cbn. rewrite IHa, IHe, Hl.
  split; destruct b, (holds env l); cbn; by rewrite ?negb_involutive.
Qed.

Lemma expand_holds env l s : holds env (expandLogical l s) = Bool.eqb s (holds env l).
Proof.
  revert l s. logical_ind.
  - intros args IH s. cbn [expandLogical holds]. unfold expandConjunction. destruct (expand_all env s args IH) as [Ha He].
    destruct s; rewrite ?holds_Conjunction, ?holds_Disjunction, ?Ha, ?He; cbn; by destruct (forallb (holds env) args).
  - intros args IH s. cbn [expandLogical holds]. unfold expandDisjunction. destruct (expand_all env s args IH) as [Ha He].
    destruct s; rewrite ?holds_Conjunction, ?holds_Disjunction, ?Ha, ?He; cbn; by destruct (existsb (holds env) args).
  - intros lhs rhs _ _ [|]; cbn [expandLogical]; unfold expandEquality; cbn [negb]; rewrite ?holds_NotEqual; by destruct (holds env (Equal lhs rhs)).
  - intros c t f Hc Ht Hf s. cbn [expandLogical holds option_map]. unfold expandIteTo, expandPositiveIteTo, expandNegativeIteTo.
    destruct s, t as [t|], f as [f|]; cbn in Ht, Hf |- *; rewrite ?Hc, ?Ht, ?Hf; cbn;
      destruct (holds env c); try (destruct (holds env t)); try (destruct (holds env f)); done.
  - intros arg IH s. cbn [expandLogical holds]. rewrite IH. by destruct s, (holds env arg).
  - intros lhs rhs _ _ [|]; cbn [expandLogical]; unfold expandEquality; cbn [negb]; rewrite ?holds_NotEqual; by destruct (holds env (Equal lhs rhs)).
Qed.

Lemma expand_normal P l s : comparisons P l -> normal_form P (expandLogical l s).
Proof.
  revert l s. logical_ind; cbn.
  - intros args IH s Ha%(Forall_mp _ _ _ (Forall_impl _ _ _ IH (fun l H => H s))). unfold expandConjunction.
    destruct s; apply normal_Conjunction; by rewrite Forall_map.
  - intros args IH s Ha%(Forall_mp _ _ _ (Forall_impl _ _ _ IH (fun l H => H s))). unfold expandDisjunction.
    destruct s; apply normal_Conjunction; by rewrite Forall_map.
  - by intros x y _ _ [|] H.
  - intros c t f Hc Ht Hf s (HPc & HPt & HPf). unfold expandIteTo, expandPositiveIteTo, expandNegativeIteTo.
    destruct s, t as [t|], f as [f|]; cbn in Ht, Hf |- *; repeat split; auto.
  - auto.
  - by intros x y _ _ [|] H.
Qed.

(** ** Simplification *)

Lemma simplify_normal P P' n l l' :
  (forall n x y x' y', P x y -> SimplifyExpr n false x = Ok x' -> SimplifyExpr n false y = Ok y' ->
    IsConstant x' = None \/ IsConstant y' = None -> P' x' y') ->
  normal_form P l -> SimplifyLogical n false l = Ok l' -> normal_form P' l'.
Proof.
  intros HP. revert l l'. induction n as [|n IH]; intros l l' Hl; [done|].
  assert (Hlist : forall args nterms, all_ (normal_form P) args -> mapM (SimplifyLogical n false) args = Ok nterms -> Forall (normal_form P') nterms).
  { intros args nterms Ha%all_Forall H%mapM_Forall2. induction H as [|t t' args nterms Ht _ IHa]; [constructor|].
    apply Forall_cons in Ha as [Hta Ha]. constructor; eauto. }
  assert (Hcmp : forall equal x y x' y', P x y -> SimplifyExpr n false x = Ok x' -> SimplifyExpr n false y = Ok y' ->
    normal_form P' (Simplify_comparison equal x' y')).
  { intros equal x y x' y' Hxy Hx Hy. specialize (HP n x y x' y' Hxy Hx Hy). unfold Simplify_comparison.
    destruct (IsConstant x'), (IsConstant y'); [by destruct (Bool.eqb _ _)|destruct equal; apply HP; auto..]. }
  destruct l as [args|args|x y|c t f|arg|x y]; try done; cbn [SimplifyLogical].
  - intros (nterms & Hn & [= <-])%bind_ok. apply conjunction_of_ind; [apply (normal_args P')|done|by eapply Hlist].
  - intros (nterms & Hn & [= <-])%bind_ok. apply disjunction_of_ind; [intros; apply (normal_args P')|done|by eapply Hlist].
  - intros (x' & Hx & (y' & Hy & [= <-])%bind_ok)%bind_ok. by eapply (Hcmp true).
  - intros (x' & Hx & (y' & Hy & [= <-])%bind_ok)%bind_ok. by eapply (Hcmp false).
Qed.

(** ** Comparisons that are lowered *)

Lemma every_on_accesses (Q : Access.t -> Prop) :
  (forall e, every (on_accesses Q) e -> Forall Q (accesses e)) /\
  (forall l, every_logical (on_accesses Q) l -> Forall Q (accesses_logical l)).
Proof.
  apply every_induction. split; try done; intros; cbn; fold (@accesses_logical F) (@accesses F);
    try (by apply Forall_flat_map_); rewrite ?Forall_app; try done.
  - by repeat constructor.
  - split; [done|]. split; [by destruct t|by destruct f].
Qed.

Context (G : Access.t -> Prop).

Definition mir_node e : Prop := node_ok e /\ polynomial e = true /\ on_accesses G e.

Abbreviation mir := (every mir_node).

(** No constant is lost when the difference of both sides is taken from one.

    This and [comparable] are hypotheses of the theorems about the lowering, not
    conditions of the code: the simplification of a difference loses constants
    otherwise (see [lost_constant] in [Simplify]). *)
Definition subtractable x y : Prop := (surfaced (Add [x]) <= 1)%nat /\ (varies x = true \/ (surfaced (Add [y]) <= 1)%nat).

(** A comparison is one of constants, or has a side that is none. *)
Definition comparable x y : Prop :=
  mir x /\ mir y /\ subtractable x y /\ (varies x = true \/ varies y = true \/ is_const x = true /\ is_const y = true).

Definition variable_comparison x y : Prop := mir x /\ mir y /\ subtractable x y /\ (varies x = true \/ varies y = true).

Lemma mir_poly : (forall e, arithmetic e = true -> polynomial e = true /\ on_accesses G e).
Proof. by intros []. Qed.

Lemma better_added x' x : better x' x -> (surfaced (Add [x']) <= surfaced (Add [x]))%nat.
Proof. intros H. apply lighter_better. constructor; [done|constructor]. Qed.

Lemma better_subtractable x y x' y' : better x' x -> better y' y -> subtractable x y -> subtractable x' y'.
Proof.
  intros Hx Hy [Hs Hor]. pose proof (better_added _ _ Hx). pose proof (better_added _ _ Hy). destruct Hx as [_ Hv _].
  split; [lia|]. destruct Hor; [left; auto|right; lia].
Qed.

Lemma mir_split e : mir e <-> every node_ok e /\ every (fun e => polynomial e = true /\ on_accesses G e) e.
Proof.
  split.
  - intros He. by split; revert He; apply every_impl; intros e' (Hn & Hp & Ha).
  - intros [Ho Hs]. by apply (every_and node_ok (fun e => polynomial e = true /\ on_accesses G e)).
Qed.

Lemma mir_wf e : mir e -> every (fun e => node_wf e /\ not_cast e) e /\ every (source_node G) e.
Proof.
  intros He. split; revert He; apply every_impl.
  - intros e' ((Hw & _) & Hp & _). split; [done|]. by destruct e'.
  - by intros e' (Hn & _ & Ha).
Qed.

Lemma simplify_mir (k : Z) m n x x' : module_wf m -> mir x -> SimplifyExpr n false x = Ok x' -> mir x' /\ better x' x.
Proof.
  intros Hm [Ho Hs]%mir_split Hx. destruct (proj1 (simplify_keeps k m Hm n false) x x' Ho Hx) as [Ho' Hb _ _].
  split; [|done]. apply mir_split. split; [done|]. revert Hs Hx. apply simplify_shape; [apply mir_poly|]. by intros e' [].
Qed.

Lemma simplify_comparable (k : Z) m n x y x' y' :
  module_wf m -> comparable x y -> SimplifyExpr n false x = Ok x' -> SimplifyExpr n false y = Ok y' ->
  IsConstant x' = None \/ IsConstant y' = None -> variable_comparison x' y'.
Proof.
  intros Hm (Hx & Hy & Hs & Hor) Hx' Hy' Hc.
  destruct (simplify_mir k m n x x' Hm Hx Hx') as [Hxm Hxb]. destruct (simplify_mir k m n y y' Hm Hy Hy') as [Hym Hyb].
  split; [done|]. split; [done|]. split; [by eapply better_subtractable|].
  destruct Hor as [Hv|[Hv|[Hcx Hcy]]]; [left; by apply Hxb|right; by apply Hyb|].
  destruct x, y; try done. destruct n; [done|]. injection Hx' as <-. injection Hy' as <-. by destruct Hc.
Qed.

Lemma mir_logical_ok l : every_logical mir_node l -> every_logical node_ok l.
Proof. apply every_impl. by intros e []. Qed.

Lemma comparable_mir l : comparisons comparable l -> every_logical mir_node l.
Proof. apply comparisons_every. by intros x y (Hx & Hy & _). Qed.

(** Where the cells are there, a term has a truth value. *)
Lemma mir_test k m l :
  module_wf m -> (forall a, G a -> access_defined m a) -> every_logical mir_node l -> TestAt k m l = Ok (holds (row_env k m) l).
Proof.
  intros Hm HG Hmir.
  assert (Hsafe : every_logical (fun e => node_wf e /\ not_cast e) l).
  { revert Hmir. apply every_impl. intros e' ((Hw & _) & Hp & _). split; [done|]. by destruct e'. }
  assert (Hacc : Forall (access_defined m) (accesses_logical l)).
  { eapply Forall_impl; [|exact HG]. apply every_on_accesses. revert Hmir. apply every_impl. by intros e' (_ & _ & Ha). }
  destruct (TermProperties.defined_outcome (fun _ => False) (fun e => node_wf e /\ not_cast e) k m Hm) as [_ Hout]; [tauto|intros; tauto|].
  specialize (Hout l Hsafe Hacc). destruct (TestAt k m l) as [b|] eqn:Hb; [|done]. f_equal.
  destruct (eval_denotes k m Hm) as [_ Hden]. apply Hden; [|done]. by apply (ok_wf (F := F)), mir_logical_ok.
Qed.

(** The term that is lowered, and where it holds *)
Lemma prepare_ok (k : Z) m l l' :
  module_wf m -> (forall a, G a -> access_defined m a) -> comparisons comparable l ->
  Simplify_logical false (expandLogical l true) = Ok l' ->
  normal_form variable_comparison l' /\ holds (row_env k m) l' = holds (row_env k m) l.
Proof.
  intros Hm HG Hl Hs. pose proof (expand_normal comparable l true Hl) as Hn.
  set (el := expandLogical l true) in *.
  assert (Hmir : every_logical mir_node el) by by apply comparable_mir, normal_comparisons.
  pose proof (mir_logical_ok _ Hmir) as Hok. split.
  { eapply simplify_normal; [|exact Hn|exact Hs]. intros n x y x' y'. by apply (simplify_comparable k m). }
  destruct (proj2 (simplify_keeps k m Hm (depth_logical el) false) el l' Hok Hs) as [Hok' Hkeep].
  destruct (eval_denotes k m Hm) as [_ Hden].
  rewrite <-(Hden l' _ (proj2 ok_wf l' Hok') (Hkeep _ (mir_test k m el Hm HG Hmir))).
  unfold el. rewrite expand_holds. by destruct (holds _ l).
Qed.

End Normal.
