(* ===== verification/LowerGroups.v ===== *)
(** * Groups of terms

    A conjunction is lowered to sums, and the non-zero checks of a disjunction to
    checks of sums.  Each sum has terms that are not negative, and is too small to
    wrap around; so it vanishes exactly when all of its terms do. *)

From Stdlib Require Import ZArith Lia.
From stdpp Require Import base numbers list option gmap.
From S2P Require Import Prelude Interval Element Invert Register Trace Term TermFacts TermReads TermRange Simplify Air Lower LowerTerms.

Open Scope Z_scope.

(** ** Worklists *)

Section Packets.
Context {A : Type} (next : list A -> result nat).

(** Each packet starts what was left of the worklist. *)
Definition next_packet (wl pk : list A) : Prop :=
  exists left n, left <> [] /\ left ⊆ wl /\ next left = Ok n /\ pk = take n left.

Lemma packets_spec fuel wl ps : packets fuel next wl = Ok ps -> mjoin ps = wl /\ Forall (next_packet wl) ps.
Proof.
  revert wl ps. induction fuel as [|fuel IH]; intros [|x wl] ps; try done; try (intros [= <-]; by split).
  cbn [packets]. intros (n & Hn & (rest & Hr & [= <-])%bind_ok)%bind_ok. destruct (IH _ _ Hr) as [Hj Hps].
  change (mjoin (take n (x :: wl) :: rest)) with (take n (x :: wl) ++ mjoin rest). rewrite Hj, take_drop.
  split; [done|]. constructor; [by exists (x :: wl), n|]. eapply Forall_impl; [exact Hps|].
  intros pk (left & n' & Hne & Hin & Hn' & Hpk). exists left, n'. split; [done|]. split; [|done].
  rewrite <-(take_drop n (x :: wl)). set_solver.
Qed.

(** There is fuel for every item. *)
Lemma packets_fuel fuel wl :
  (length wl <= fuel)%nat -> (forall wl, next wl <> Fault OutOfFuel) -> (forall wl n, wl <> [] -> next wl = Ok n -> (1 <= n)%nat) ->
  packets fuel next wl <> Fault OutOfFuel.
Proof.
  intros Hf Hnf Hpos. revert wl Hf. induction fuel as [|fuel IH]; intros [|x wl] Hf; try done; [cbn in Hf; lia|].
  cbn [packets]. specialize (Hnf (x :: wl)). destruct (next (x :: wl)) as [n|] eqn:Hn; [|cbn; congruence]. cbn [mbind result_bind].
  specialize (Hpos (x :: wl) n ltac:(done) Hn). specialize (IH (drop n (x :: wl))). rewrite length_drop in IH. cbn [length] in *.
  destruct (packets fuel next (drop n (x :: wl))); [done|]. cbn. intros [= ->]. apply IH; [lia|done].
Qed.

End Packets.

(** ** Sums that do not wrap around *)

Section Groups.
Context {A : Type} (fieldBandwidth : Z) (Hbw : 0 <= fieldBandwidth) (upper : A -> result (option Z)).

(** Items are taken as long as they have an upper bound, and those add up to a number
    within the bandwidth. *)
Fixpoint grow (i len : nat) (sum : Z) (items : list A) : result nat :=
  match items with
  | [] => Ok len
  | x :: rest =>
      o ← upper x;
      match o with
      | None => Ok (Nat.max 1 i)
      | Some u => if fieldBandwidth <? BitLen (sum + u) then Ok (Nat.max 1 i) else grow (S i) len (sum + u) rest
      end
  end.

Definition group (items : list A) : result nat := grow 0 (length items) 0 items.

Context (value : A -> Z).

Definition bounded (x : A) : Prop := forall u, upper x = Ok (Some u) -> 0 <= value x <= u.

Definition small (xs : list A) : Prop := Forall (fun x => 0 <= value x) xs /\ zsum (map value xs) < 2 ^ fieldBandwidth.

Lemma sum_small xs sum : Forall (fun x => 0 <= value x) xs -> zsum (map value xs) <= sum -> BitLen sum <= fieldBandwidth -> small xs.
Proof. intros Hx Hs Hb. split; [done|]. apply IntervalFacts.BitLen_le in Hb; [lia|done]. Qed.

Lemma grow_spec i len sum pre items n :
  grow i len sum items = Ok n -> i = length pre -> len = length (pre ++ items) -> Forall bounded items ->
  Forall (fun x => 0 <= value x) pre -> zsum (map value pre) <= sum -> BitLen sum <= fieldBandwidth ->
  (pre ++ items <> [] -> (1 <= n)%nat) /\ (n = 1%nat \/ small (take n (pre ++ items))).
Proof.
  intros H -> Hlen Hb. revert sum pre Hlen H. induction Hb as [|x items Hx Hb IH]; intros sum pre -> H Hpre Hsum Hbit.
  { injection H as <-. rewrite app_nil_r, take_ge by done. split; [destruct pre; [done|cbn; lia]|right; by eapply sum_small]. }
  assert (Hstop : forall n, Ok (Nat.max 1 (length pre)) = Ok n -> (1 <= n)%nat /\ (n = 1%nat \/ small (take n (pre ++ x :: items)))).
  { intros n0 [= <-]. split; [lia|]. destruct pre as [|y pre]; [by left|right]. rewrite Nat.max_r by (cbn; lia).
    rewrite take_app_length. by eapply sum_small. }
  cbn [grow] in H. apply bind_ok in H as (o & Ho & H). destruct o as [u|]; [|destruct (Hstop n H); by split].
  destruct (Z.ltb_spec fieldBandwidth (BitLen (sum + u))) as [|Hle]; [destruct (Hstop n H); by split|].
  specialize (Hx u Ho). specialize (IH (sum + u) (pre ++ [x])). rewrite <-app_assoc in IH. cbn [app] in IH.
  replace (S (length pre)) with (length (pre ++ [x])) in H by (rewrite length_app; cbn; lia). apply IH; try done.
  - apply Forall_app. split; [done|]. constructor; [lia|done].
  - rewrite map_app, zsum_app. cbn. lia.
Qed.

Lemma group_pos items n : items <> [] -> group items = Ok n -> (1 <= n)%nat.
Proof.
  unfold group. intros Hne. assert (Hgen : forall i len sum, (1 <= len)%nat -> grow i len sum items = Ok n -> (1 <= n)%nat).
  { clear Hne. induction items as [|x items IH]; intros i len sum Hl; cbn [grow]; [by intros [= <-]|].
    intros (o & _ & H)%bind_ok. destruct o as [u|]; [|injection H as <-; lia].
    destruct (_ <? _); [injection H as <-; lia|by eapply IH]. }
  apply Hgen. destruct items; [done|cbn; lia].
Qed.

Lemma group_fuel items : Forall (fun x => upper x <> Fault OutOfFuel) items -> group items <> Fault OutOfFuel.
Proof.
  unfold group. generalize 0%nat (length items) 0. intros i len sum H. revert i sum. induction H as [|x items Hx _ IH]; intros i sum; [done|].
  cbn [grow]. destruct (upper x) as [[u|]|]; cbn; [|done|congruence]. destruct (_ <? _); [done|apply IH].
Qed.

Lemma group_nonempty fuel wl ps : packets fuel group wl = Ok ps -> mjoin ps = wl /\ Forall (fun pk => pk <> []) ps.
Proof.
  intros H. destruct (packets_spec _ _ _ _ H) as [Hj Hps]. split; [done|]. eapply Forall_impl; [exact Hps|].
  intros pk (left & n & Hne & _ & Hn%group_pos & ->); [|done]. by destruct left, n; [..|lia|].
Qed.

(** The packets of a worklist *)
Lemma group_packets fuel wl ps :
  packets fuel group wl = Ok ps -> Forall bounded wl ->
  mjoin ps = wl /\ Forall (fun pk => (exists x, pk = [x]) \/ small pk) ps.
Proof.
  intros H Hb. destruct (packets_spec _ _ _ _ H) as [Hj Hps]. split; [done|].
  eapply Forall_impl; [exact Hps|]. intros pk (left & n & Hne & Hin & Hn & ->).
  assert (Hbl : Forall bounded left) by (rewrite Forall_forall in Hb |- *; set_solver).
  destruct (grow_spec 0 (length left) 0 [] left n Hn eq_refl eq_refl Hbl) as [Hpos Hor]; [constructor|done|done|].
  cbn [app] in Hor. destruct left as [|x left]; [done|]. destruct Hor as [->|Hs]; [left; by exists x|by right].
Qed.

End Groups.

(** ** The groups of the lowering *)

Section Instances.
Context {F : Type} `{!Element F, !ElementLaws F, !Inversion F}.
Implicit Types (e t : Expr F) (ts : list (Expr F)).

Abbreviation p := (modulus (F := F)).

Lemma sum_zero zs :
  Forall (fun z => 0 <= z) zs -> zsum zs < p ->
  zero_test (F := F) (zsum zs) = true <-> Forall (fun z => zero_test (F := F) z = true) zs.
Proof.
  intros Hz Hlt.
  assert (Hsmall : forall z, 0 <= z < p -> zero_test (F := F) z = true <-> z = 0).
  { intros z Hr. unfold zero_test. rewrite Z.mod_small, Z.eqb_eq by done. done. }
  assert (Hpos : forall zs, Forall (fun z => 0 <= z) zs -> 0 <= zsum zs) by (induction 1; cbn; lia).
  rewrite Hsmall by auto. induction Hz as [|z zs Hz0 Hz IH]; [done|]. cbn [zsum] in *. specialize (Hpos zs Hz).
  rewrite Forall_cons, Hsmall by lia. rewrite <-IH by lia. lia.
Qed.

(** The sum of a packet vanishes when all its terms do. *)
Lemma packet_zero {A} fieldBandwidth (value : A -> Z) pk :
  2 ^ fieldBandwidth <= p -> (exists x, pk = [x]) \/ small fieldBandwidth value pk ->
  zero_test (F := F) (zsum (map value pk)) = true <-> Forall (fun x => zero_test (F := F) (value x) = true) pk.
Proof.
  intros Hf [[x ->]|[Hpos Hlt]].
  - cbn [map zsum]. rewrite Z.add_0_r, Forall_singleton. done.
  - rewrite sum_zero, Forall_map by (by rewrite Forall_map || lia). done.
Qed.

Context (fieldBandwidth : Z) (bitwidths : list Z).

Definition term_upper t : result (option Z) :=
  values ← valueRangeOf bitwidths t;
  signed ← (if negb (InfInt.IsNotAnInfinity (Interval.min values)) then Ok true else s ← InfInt.Sign (Interval.min values); Ok (s <? 0));
  if signed || negb (InfInt.IsNotAnInfinity (Interval.max values)) then Ok None
  else tmp ← InfInt.IntVal (Interval.max values); Ok (Some tmp).

Lemma sum_conjunct_grow i len sum ts :
  sum_conjunct fieldBandwidth bitwidths i len sum ts = grow fieldBandwidth term_upper i len sum ts.
Proof.
  revert i sum. induction ts as [|t ts IH]; intros i sum; [done|]. cbn [sum_conjunct grow]. unfold term_upper.
  destruct (valueRangeOf bitwidths t) as [values|]; [|done]. cbn [mbind result_bind].
  destruct (if negb _ then _ else _) as [signed|]; [|done]. cbn [mbind result_bind].
  destruct (signed || _); [done|]. destruct (InfInt.IntVal _) as [u|]; [|done]. cbn [mbind result_bind].
  destruct (_ <? _); [done|apply IH].
Qed.

Lemma term_upper_bounded env t :
  contains (valueRangeOf bitwidths t) (denote env t) -> bounded term_upper (denote env) t.
Proof.
  intros Hc u. unfold term_upper. intros (i & Hi & (signed & Hs & H)%bind_ok)%bind_ok.
  destruct (Hc i Hi) as [_ [Hlo Hhi]]. destruct (Interval.min i) as [lo sl], (Interval.max i) as [hi sh].
  destruct sl; try (injection Hs as <-; done). cbn in Hs. injection Hs as <-.
  destruct (Z.ltb_spec (Z.sgn lo) 0) as [|Hge]; [done|]. destruct sh; try done. injection H as <-. cbn in Hlo, Hhi. lia.
Qed.

Definition check_upper (a : Access.t) : result (option Z) :=
  rid ← Unwrap (Access.register a);
  w ← slice_get bitwidths rid;
  if w =? MaxUint then Ok None else r ← valueRangeOfBits w; u ← InfInt.IntVal (Interval.max r); Ok (Some u).

Lemma non_zero_check_grow i len sum checks :
  non_zero_check fieldBandwidth bitwidths i len sum checks = grow fieldBandwidth check_upper i len sum checks.
Proof.
  revert i sum. induction checks as [|a checks IH]; intros i sum; [done|]. cbn [non_zero_check grow]. unfold check_upper.
  destruct (Unwrap (Access.register a)) as [rid|]; [|done]. cbn [mbind result_bind].
  destruct (slice_get bitwidths rid) as [w|]; [|done]. cbn [mbind result_bind]. destruct (w =? MaxUint); [done|].
  destruct (valueRangeOfBits w) as [r|]; [|done]. cbn [mbind result_bind]. destruct (InfInt.IntVal _) as [u|]; [|done].
  cbn [mbind result_bind]. destruct (_ <? _); [done|apply IH].
Qed.

Lemma check_upper_bounded (env : Access.t -> Z) a :
  contains (valueRangeOf_access bitwidths a) (env a) -> bounded check_upper env a.
Proof.
  unfold valueRangeOf_access, check_upper. intros Hc u (rid & Hr & (w & Hw%slice_get_ok & H)%bind_ok)%bind_ok.
  rewrite Hr in Hc. cbn [mbind result_bind] in Hc. rewrite Hw in Hc. destruct (w =? MaxUint); [done|].
  apply bind_ok in H as (i & Hi & (x & Hx & [= <-])%bind_ok). destruct (Hc i Hi) as [_ [Hlo Hhi]].
  unfold valueRangeOfBits, Interval.NewInterval in Hi. destruct (_ >? _); [done|]. injection Hi as <-. injection Hx as <-.
  cbn in Hlo, Hhi. lia.
Qed.

End Instances.
