(* ===== verification/LowerNames.v ===== *)
(** * Names of generated columns

    The column of the inverses of a term is named by the text of the term, and a
    column of that name is taken to hold them.  When the registers of the source
    have distinct names that are atoms and no numbers, the text determines the
    values of the term, and the builder keeps that every generated column comes with
    the constraint on its values. *)

From Stdlib Require Import ZArith Lia.
From stdpp Require Import base numbers list option strings gmap pretty.
From S2P Require Import Prelude FieldElement Interval Register SortedSet Element Invert Sexp Trace Term TermFacts TermReads TermRange Simplify Constraint Lookup Air Lower LowerTerms.

Open Scope Z_scope.

#[local] Arguments String.append : simpl nomatch.

(** ** The tree of an access *)

Definition acc_tree (a : Access.t) (q : string) : tree :=
  let t := Leaf q in
  let t := if Access.shift a =? 0 then t else Node [Leaf "shift"; t; Leaf (pretty (Access.shift a))] in
  if Access.maskwidth a =? Access.bitwidth a then t else Node [Leaf ("u" +:+ pretty (Access.maskwidth a))%string; t].

Lemma acc_tree_inj a a' q q' : acc_tree a q = acc_tree a' q' -> q = q' /\ Access.shift a = Access.shift a'.
Proof.
  unfold acc_tree. destruct (Z.eqb_spec (Access.shift a) 0), (Z.eqb_spec (Access.shift a') 0),
    (_ =? _), (Access.maskwidth a' =? _); cbn; intros H; try discriminate H; injection H; intros; simplify_eq; split; congruence.
Qed.

Lemma acc_tree_number a q (z : Z) : (forall y : Z, q <> pretty y) -> acc_tree a q <> Leaf (pretty z).
Proof. intros Hq. unfold acc_tree. repeat case_match; try done. intros [= Hn]. by apply (Hq z). Qed.

Lemma acc_tree_head a q h ts : h = "+"%string \/ h = "*"%string \/ h = "-"%string -> acc_tree a q <> Node (Leaf h :: ts).
Proof. intros Hh. unfold acc_tree. repeat case_match; try done; intros [= <- _]; by destruct Hh as [|[|]]. Qed.

Lemma acc_tree_wf a q : atom q -> tree_wf (acc_tree a q).
Proof.
  intros Hq. assert (Hu : atom ("u" +:+ pretty (Access.maskwidth a))%string).
  { split; [done|]. rewrite plain_app. apply pretty_Z_atom. }
  unfold acc_tree. repeat case_match; cbn [tree_wf foldr]; split_and?; try done; by apply pretty_Z_atom.
Qed.

(** ** Terms over the registers of the source *)

Section Names.
Context {F : Type} `{!Element F, !ElementLaws F, !Inversion F}.
Implicit Types (e : Expr F) (b : Builder.t F).

(** The module and its registers before lowering *)
Context (nm : ModuleName) (mid : nat) (base : list Register.t).

Record base_ok : Prop := {
  base_atoms r : r ∈ base -> atom (Register.name r) /\ atom (QualifiedName nm r) /\ forall z : Z, QualifiedName nm r <> pretty z;
  base_distinct i j r r' : base !! i = Some r -> base !! j = Some r' -> Register.name r = Register.name r' -> i = j
}.

Context (Hbase : base_ok).

Definition user (a : Access.t) : Prop := exists i, Access.register a = Some i /\ (i < length base)%nat.

Lemma qualified_inj i j r r' :
  base !! i = Some r -> base !! j = Some r' -> QualifiedName nm r = QualifiedName nm r' -> i = j.
Proof.
  intros Hi Hj Hq. apply (base_distinct Hbase i j r r'); [done..|]. unfold QualifiedName in Hq.
  destruct (decide _); [done|]. by apply (inj (String.append (ModuleName_String nm))), (inj (String.append ":")) in Hq.
Qed.

Section Text.
Context (regs : list Register.t) (Hregs : base `prefix_of` regs).

Lemma user_register a s : user a -> Lisp_access nm regs a = Ok s ->
  exists i r, Access.register a = Some i /\ base !! i = Some r /\ tree_of s = acc_tree a (QualifiedName nm r).
Proof.
  intros (i & Hi & Hlt). unfold Lisp_access. rewrite Hi. cbn [Unwrap mbind result_bind].
  destruct (lookup_lt_is_Some_2 base i Hlt) as [r Hr]. intros (r' & Hr' & [= <-])%bind_ok. apply slice_get_ok in Hr'.
  rewrite (prefix_lookup_Some _ _ _ _ Hr Hregs) in Hr'. injection Hr' as <-. exists i, r. split; [done|]. split; [done|].
  unfold acc_tree. by repeat case_match.
Qed.

Lemma Lisp_wf e s : air user e -> Lisp nm regs e = Ok s -> tree_wf (tree_of s).
Proof.
  assert (Hlist : forall args es, Forall (fun e => forall s, Lisp nm regs e = Ok s -> tree_wf (tree_of s)) args ->
    mapM (Lisp nm regs) args = Ok es -> foldr (fun t => and (tree_wf t)) True (map tree_of es)).
  { intros args es IH H%mapM_Forall2. induction H as [|e' s' args es He _ IHl]; [done|]. apply Forall_cons in IH as [Hs IH]. cbn. auto. }
  intros He. revert s. revert e He.
  apply (air_induction user (fun e => forall s, Lisp nm regs e = Ok s -> tree_wf (tree_of s))); cbn [Lisp].
  - intros args _ IH _ s (es & Hes & [= <-])%bind_ok. cbn. split; [done|]. by eapply Hlist.
  - intros args _ IH _ s (es & Hes & [= <-])%bind_ok. cbn. split; [done|]. by eapply Hlist.
  - intros t rest _ _ IH s (es & Hes & [= <-])%bind_ok. cbn. split; [done|]. by eapply Hlist.
  - intros v _ s [= <-]. apply pretty_Z_atom.
  - intros a _ Ha s Hs. destruct (user_register a s Ha Hs) as (i & r & _ & Hr & ->). apply acc_tree_wf.
    apply (base_atoms Hbase). by eapply list_elem_of_lookup_2.
Qed.

End Text.

(** Terms with the same accesses, up to masks, and the same values *)
Definition place (a : Access.t) : ColumnId * Z := (Access.register a, Access.shift a).

Definition same e e' : Prop :=
  map place (accesses e) = map place (accesses e') /\ forall k (m : ArrayModule F), denote (row_env k m) e = denote (row_env k m) e'.

Lemma same_refl e : same e e.
Proof. by split. Qed.

Definition same_list es es' : Prop :=
  map place (flat_map accesses es) = map place (flat_map accesses es') /\
  forall k (m : ArrayModule F), map (denote (row_env k m)) es = map (denote (row_env k m)) es'.

Lemma Lisp_same_list regs regs' args args' es es' :
  Forall (fun e => forall e' s s', air user e' -> Lisp nm regs e = Ok s -> Lisp nm regs' e' = Ok s' ->
    tree_of s = tree_of s' -> same e e') args ->
  Forall (air user) args' -> mapM (Lisp nm regs) args = Ok es -> mapM (Lisp nm regs') args' = Ok es' ->
  map tree_of es = map tree_of es' -> same_list args args'.
Proof.
  intros IH Ha' H%mapM_Forall2 H'%mapM_Forall2. revert args' es' Ha' H'.
  induction H as [|e s args es He _ IHl]; intros args' es' Ha' H' Heq.
  - destruct H'; [done|]. done.
  - apply Forall_cons in IH as [Hs IH]. destruct H' as [|e' s' args' es' He' H']; [done|]. apply Forall_cons in Ha' as [Hae' Ha'].
    cbn in Heq. injection Heq as Ht Heq. destruct (Hs e' s s') as [Hp Hv]; [done..|].
    destruct (IHl IH args' es' Ha' H' Heq) as [Hpl Hvl]. split.
    + cbn. by rewrite !map_app, Hp, Hpl.
    + intros k m. cbn. by rewrite Hv, Hvl.
Qed.

(** The text of a term determines its values. *)
Lemma Lisp_same regs regs' e e' s s' :
  base `prefix_of` regs -> base `prefix_of` regs' -> air user e -> air user e' ->
  Lisp nm regs e = Ok s -> Lisp nm regs' e' = Ok s' -> tree_of s = tree_of s' -> same e e'.
Proof.
  intros Hp Hp' He. revert e' s s'. revert e He.
  assert (Hcase : forall e', air user e' -> forall s', Lisp nm regs' e' = Ok s' ->
    (exists args es h, (e' = Add args /\ h = "+"%string \/ e' = Mul args /\ h = "*"%string \/ e' = Sub args /\ h = "-"%string) /\
       Forall (air user) args /\ mapM (Lisp nm regs') args = Ok es /\ tree_of s' = Node (Leaf h :: map tree_of es)) \/
    (exists v, e' = Constant v /\ element_ok v /\ tree_of s' = Leaf (pretty (val v))) \/
    (exists a i r, e' = RegisterAccess a /\ Access.register a = Some i /\ base !! i = Some r /\ tree_of s' = acc_tree a (QualifiedName nm r))).
  { intros e' He' s' Hs'. destruct e'; pose proof He' as [[[Hw _] Hn] Hsub]; try done; cbn [Lisp] in Hs'.
    - apply bind_ok in Hs' as (es & Hes & [= <-]). left. exists Args, es, "+"%string. split; [by left|]. split; [by apply all_Forall|done].
    - injection Hs' as <-. right; left. exists Value. split; [done|]. split; [done|]. cbn. by rewrite bytes_law.
    - apply bind_ok in Hs' as (es & Hes & [= <-]). left. exists Args, es, "*"%string. split; [by right; left|]. split; [by apply all_Forall|done].
    - destruct (user_register regs' Hp' a s' Hn Hs') as (i & r & ? & ? & ?). right; right. by exists a, i, r.
    - apply bind_ok in Hs' as (es & Hes & [= <-]). left. exists Args, es, "-"%string. split; [by right; right|]. split; [by apply all_Forall|done]. }
  apply (air_induction user (fun e => forall e' s s', air user e' -> Lisp nm regs e = Ok s -> Lisp nm regs' e' = Ok s' ->
    tree_of s = tree_of s' -> same e e')); cbn [Lisp].
  - intros args _ IH _ e' s s' He' (es & Hes & [= <-])%bind_ok Hs' Heq. cbn in Heq.
    destruct (Hcase e' He' s' Hs') as [(args' & es' & h & Hh & Ha' & Hes' & Ht)|[(v & -> & _ & Ht)|(a & i & r & _ & _ & _ & Ht)]]; rewrite Ht in Heq; [|done|].
    + injection Heq as <- Heq. destruct Hh as [[-> _]|[[_ ?]|[_ ?]]]; [|done..].
      destruct (Lisp_same_list _ _ _ _ _ _ IH Ha' Hes Hes' Heq) as [Hpl Hvl]. split; [done|]. intros k m. cbn. by rewrite Hvl.
    + symmetry in Heq. apply acc_tree_head in Heq; [done|by left].
  - intros args _ IH _ e' s s' He' (es & Hes & [= <-])%bind_ok Hs' Heq. cbn in Heq.
    destruct (Hcase e' He' s' Hs') as [(args' & es' & h & Hh & Ha' & Hes' & Ht)|[(v & -> & _ & Ht)|(a & i & r & _ & _ & _ & Ht)]]; rewrite Ht in Heq; [|done|].
    + injection Heq as <- Heq. destruct Hh as [[_ ?]|[[-> _]|[_ ?]]]; [done| |done].
      destruct (Lisp_same_list _ _ _ _ _ _ IH Ha' Hes Hes' Heq) as [Hpl Hvl]. split; [done|]. intros k m. cbn. by rewrite Hvl.
    + symmetry in Heq. apply acc_tree_head in Heq; [done|by right; left].
  - intros t rest _ _ IH e' s s' He' (es & Hes & [= <-])%bind_ok Hs' Heq. cbn in Heq.
    destruct (Hcase e' He' s' Hs') as [(args' & es' & h & Hh & Ha' & Hes' & Ht)|[(v & -> & _ & Ht)|(a & i & r & _ & _ & _ & Ht)]]; rewrite Ht in Heq; [|done|].
    + injection Heq as <- Heq. destruct Hh as [[_ ?]|[[_ ?]|[-> _]]]; [done..|].
      destruct (Lisp_same_list regs regs' (t :: rest) _ _ _ IH Ha' Hes Hes' Heq) as [Hpl Hvl]. split; [done|]. intros k m.
      change (difference (map (denote (row_env k m)) (t :: rest)) = difference (map (denote (row_env k m)) args')). by rewrite Hvl.
    + symmetry in Heq. apply acc_tree_head in Heq; [done|by right; right].
  - intros v Hv e' s s' He' [= <-] Hs' Heq. cbn in Heq.
    destruct (Hcase e' He' s' Hs') as [(args' & es' & h & Hh & _ & _ & Ht)|[(w & -> & Hw & Ht)|(a & i & r & _ & _ & Hr & Ht)]]; rewrite Ht in Heq; [done| |].
    + injection Heq as Heq. apply (inj pretty) in Heq. rewrite bytes_law in Heq by done.
      by rewrite (val_inj v w Hv Hw Heq).
    + symmetry in Heq. apply acc_tree_number in Heq; [done|]. apply (base_atoms Hbase). by eapply list_elem_of_lookup_2.
  - intros a _ Ha e' s s' He' Hs Hs' Heq. destruct (user_register regs Hp a s Ha Hs) as (i & r & Hi & Hr & Hta). rewrite Hta in Heq.
    destruct (Hcase e' He' s' Hs') as [(args' & es' & h & Hh & _ & _ & Ht)|[(w & -> & Hw & Ht)|(a' & i' & r' & -> & Hi' & Hr' & Ht)]]; rewrite Ht in Heq.
    + apply acc_tree_head in Heq; [done|]. destruct Hh as [[_ ?]|[[_ ?]|[_ ?]]]; tauto.
    + apply acc_tree_number in Heq; [done|]. apply (base_atoms Hbase). by eapply list_elem_of_lookup_2.
    + apply acc_tree_inj in Heq as [Hq Hsh]. assert (i = i') as <- by by eapply qualified_inj.
      assert (Hpl : place a = place a') by (unfold place; congruence). split; [cbn; by rewrite Hpl|].
      intros k m. cbn. unfold row_env, access_at. unfold place in Hpl. injection Hpl as -> ->. done.
Qed.

(** ** The builder *)

(** Column [i] comes with the constraint that it has the inverses of a term. *)
Definition generated (cs : list (AirConstraint F)) (i : nat) (rg : Register.t) : Prop :=
  exists e s regs, base `prefix_of` regs /\ Lisp_inverse nm regs e = Ok s /\ Register.name rg = SExp_String s /\ air user e /\
    inverse_constraint (Register.name rg) mid e i ∈ cs.

Record builder_ok b : Prop := {
  bo_name : Builder.name b = nm;
  bo_mid : Builder.moduleId b = mid;
  bo_base : base `prefix_of` Builder.registers b;
  bo_map n i : Builder.regmap b !! n = Some i -> exists rg, Builder.registers b !! i = Some rg /\ Register.name rg = n /\
    ((i < length base)%nat \/ (length base <= i)%nat /\ generated (Builder.constraints b) i rg)
}.

(** A builder after some operations *)
Definition extends b b' : Prop :=
  Builder.registers b `prefix_of` Builder.registers b' /\ Builder.constraints b ⊆ Builder.constraints b'.

Lemma extends_refl b : extends b b.
Proof. by split. Qed.

Lemma extends_trans b1 b2 b3 : extends b1 b2 -> extends b2 b3 -> extends b1 b3.
Proof. intros [Hr Hc] [Hr' Hc']. split; [by etransitivity|set_solver]. Qed.

Lemma generated_mono cs cs' i rg : cs ⊆ cs' -> generated cs i rg -> generated cs' i rg.
Proof. intros Hcs (e & s & regs & Hp & Hs & Hn & He & Hin). exists e, s, regs. split_and!; [done..|set_solver]. Qed.

Lemma AddConstraint_ok b c : builder_ok b -> builder_ok (Builder.AddConstraint b c) /\ extends b (Builder.AddConstraint b c).
Proof.
  intros [Hn Hm Hb Hmap]. assert (Hsub : Builder.constraints b ⊆ Builder.constraints (Builder.AddConstraint b c)) by (cbn; set_solver).
  split; [|by split]. split; [done..|]. intros n i Hi. destruct (Hmap n i Hi) as (rg & Hr & Hname & Hor). exists rg.
  split; [done|]. split; [done|]. destruct Hor as [|[Hle Hg]]; [by left|right]. split; [done|]. by eapply generated_mono.
Qed.

Lemma inverse_text regs e s : Lisp_inverse nm regs e = Ok s -> exists x, Lisp nm regs e = Ok x /\ s = List_ [Symbol "inv"; x].
Proof. intros (x & Hx & [= <-])%bind_ok. by exists x. Qed.

Lemma text_not_atom x : ~ atom (SExp_String (List_ [Symbol "inv"; x])).
Proof. intros [_ H]. cbn in H. discriminate H. Qed.

Lemma inverse_names regs regs' e e' x x' :
  base `prefix_of` regs -> base `prefix_of` regs' -> air user e -> air user e' ->
  Lisp nm regs e = Ok x -> Lisp nm regs' e' = Ok x' ->
  SExp_String (List_ [Symbol "inv"; x]) = SExp_String (List_ [Symbol "inv"; x']) -> same e e'.
Proof.
  intros Hp Hp' He He' Hx Hx' Heq.
  assert (Hwf : forall y, tree_wf (tree_of y) -> tree_wf (tree_of (List_ [Symbol "inv"; y]))) by (intros y Hy; by cbn).
  pose proof (Lisp_wf regs Hp e x He Hx) as Hwx. pose proof (Lisp_wf regs' Hp' e' x' He' Hx') as Hwx'.
  apply SExp_String_inj in Heq; [|by apply Hwf..].
  cbn in Heq. injection Heq as Heq. exact (Lisp_same regs regs' e e' x x' Hp Hp' He He' Hx Hx' Heq).
Qed.

(** The gadget gives a column that has the inverses of a term of the same values. *)
Lemma gadget_ok e b t b' :
  builder_ok b -> air user e -> applyPseudoInverseGadget e b = Ok (t, b') ->
  builder_ok b' /\ extends b b' /\
  exists i e0 h, t = RegisterAccess (Access.FieldAccess (Some i) 0) /\ (length base <= i < length (Builder.registers b'))%nat /\
    air user e0 /\ same e0 e /\ inverse_constraint h mid e0 i ∈ Builder.constraints b'.
Proof.
  intros [Hn Hm Hb Hmap] He. unfold applyPseudoInverseGadget. rewrite Hn.
  intros (name & Hname & H)%bind_ok. apply bind_ok in H as (pad & _ & H).
  destruct (Lisp_inverse nm (Builder.registers b) e) as [s|] eqn:Hs; [|done]. injection Hname as <-. destruct (inverse_text _ _ _ Hs) as (x & Hx & ->).
  unfold Builder.HasRegister in H. destruct (Builder.regmap b !! SExp_String _) as [i|] eqn:Hi.
  - injection H as <- <-. split; [done|]. split; [apply extends_refl|]. destruct (Hmap _ _ Hi) as (rg & Hr & Hrn & Hor).
    exists i. destruct Hor as [Hlt|[Hle (e0 & s0 & regs & Hp & Hs0 & Hn0 & He0 & Hin)]].
    + exfalso. destruct (lookup_lt_is_Some_2 base i Hlt) as [r Hbr]. rewrite (prefix_lookup_Some _ _ _ _ Hbr Hb) in Hr. injection Hr as ->.
      eapply text_not_atom. rewrite <-Hrn. apply (base_atoms Hbase). by eapply list_elem_of_lookup_2.
    + destruct (inverse_text _ _ _ Hs0) as (x0 & Hx0 & ->). rewrite Hrn in Hn0. exists e0, (Register.name rg).
      split; [done|]. split; [split; [done|by eapply lookup_lt_Some]|]. split; [done|]. split; [by eapply (inverse_names regs (Builder.registers b))|done].
  - unfold Builder.NewRegister in H. cbn [Register.name Register.NewComputed] in H. rewrite Hi in H. cbn [mbind result_bind] in H.
    injection H as <- <-. cbn [Builder.registers Builder.constraints Builder.AddConstraint Builder.AddAssignment Builder.moduleId].
    set (i := length (Builder.registers b)). set (rg := Register.NewComputed _ _ _). rewrite Hm.
    set (c := inverse_constraint _ mid e i).
    assert (Hle : (length base <= i)%nat) by by apply prefix_length.
    assert (Hsub : Builder.constraints b ⊆ Builder.constraints b ++ [c]) by set_solver.
    split; [split|split].
    + done.
    + done.
    + cbn. etransitivity; [exact Hb|by apply prefix_app_r].
    + cbn. intros n j Hj. apply lookup_insert_Some in Hj as [[<- <-]|[Hne Hj]].
      * exists rg. split; [by rewrite lookup_app_r, Nat.sub_diag by done|]. split; [done|right]. split; [done|].
        exists e, (List_ [Symbol "inv"; x]), (Builder.registers b). split_and!; [done..|]. cbn. set_solver.
      * destruct (Hmap n j Hj) as (rg' & Hr' & Hn' & Hor). exists rg'. split; [by apply lookup_app_l_Some|]. split; [done|].
        destruct Hor as [|[Hlj Hg]]; [by left|right]. split; [done|]. by eapply generated_mono.
    + split; [by apply prefix_app_r|done].
    + exists i, e, (SExp_String (List_ [Symbol "inv"; x])). split; [done|]. rewrite length_app. cbn [length].
      split; [lia|]. split; [done|]. split; [apply same_refl|]. set_solver.
Qed.

End Names.
