(* ===== verification/LowerFacts.v ===== *)
(** * Correctness of lowering

    A logical term holds on a row exactly when all the polynomials that it is lowered
    to vanish there, when the generated columns satisfy their constraints.  So what
    the arithmetic constraints of a module accept, its vanishing constraints accept. *)

From Stdlib Require Import ZArith Lia Znumtheory.
From stdpp Require Import base numbers list option strings gmap.
From S2P Require Import Prelude BitSet FieldElement Interval Register SortedSet Iter Hash Element Invert Sexp Trace Term TermFacts TermReads TermRange Simplify Constraint ConstraintFacts Lookup LookupFacts Air Lower LowerTerms LowerNormal LowerGroups LowerNames.

Open Scope Z_scope.

Section Row.
Context {F : Type} `{!Element F, !ElementLaws F, !Inversion F, !Hasher F}.
Implicit Types (e t : Expr F) (l : Logical F) (b : Builder.t F) (c : AirConstraint F).

Abbreviation p := (modulus (F := F)).
Context (Hodd : 2 < p).

(** The module in the trace, and in the builder before lowering *)
Context (tr : list (ArrayModule F)) (sc : list ModuleView) (mid : nat) (m : ArrayModule F) (v : ModuleView).
Context (nm : ModuleName) (base : list Register.t) (Hbase : base_ok nm base).
Context (Hm : Module_ tr mid = Ok m) (Hv : slice_get sc mid = Ok v) (Hwf : module_wf m) (Hh : 0 <= height m < 2 ^ 62).

Abbreviation D r := (denote (row_env r m)).

Definition accepted c : Prop := exists cov, Accepts c tr sc = Ok (cov, None).

Definition column_filled (i : nat) : Prop := exists col, columns m !! i = Some col /\ data col <> None.

(** The constraints of the builder accept, and the trace has its columns. *)
Definition trusted b : Prop :=
  (forall c, c ∈ Builder.constraints b -> accepted c) /\ forall i, (i < length (Builder.registers b))%nat -> column_filled i.

Lemma trusted_extends b b' : extends b b' -> trusted b' -> trusted b.
Proof.
  intros [Hr Hc] [Ha Hf]. split; [set_solver|]. intros i Hi. apply Hf. apply prefix_length in Hr. lia.
Qed.

(** ** Terms that vanish *)

Definition vanish (r : Z) t : Prop := zero_test (F := F) (D r t) = true.

Lemma test_vanish L r t : air L t -> LogicalTerm_TestAt r m (mkLogical t) = Ok true -> vanish r t.
Proof.
  intros Ht. unfold LogicalTerm_TestAt, vanish. cbn [Term_]. intros (x & Hx & Hc)%bind_ok.
  destruct (eval_denotes r m Hwf) as [Hd _]. specialize (Hd t x (air_wf L t Ht) Hx).
  rewrite <-(denotes_zero _ _ Hd). destruct Hd as [Hok _]. rewrite is_zero_law by done.
  injection Hc as Hc. rewrite cmp_law, (proj2 zero_law) in Hc by (done || apply zero_law).
  destruct (Z.compare_spec (val x) 0); try done. by apply Z.eqb_eq.
Qed.

Lemma vanish_test L r t :
  air L t -> Forall (access_defined m) (accesses t) -> LogicalTerm_TestAt r m (mkLogical t) = Ok true <-> vanish r t.
Proof.
  intros Ht Hd. split; [by eapply test_vanish|]. unfold vanish, LogicalTerm_TestAt. cbn [Term_].
  assert (Hsafe : every (fun e => node_wf e /\ not_cast e) t).
  { revert Ht. apply every_impl. intros e0 [[Hw _] Hn]. split; [done|]. by destruct e0. }
  destruct (TermProperties.defined_outcome (fun _ => False) (fun e => node_wf e /\ not_cast e) r m Hwf) as [Hout _]; [tauto|intros; tauto|].
  specialize (Hout t Hsafe Hd). destruct (EvalAt r m t) as [x|] eqn:Hx; [|done]. cbn [mbind result_bind]. intros Hz. f_equal.
  destruct (eval_denotes r m Hwf) as [Hden _]. specialize (Hden t x (air_wf L t Ht) Hx).
  rewrite <-(denotes_zero _ _ Hden) in Hz. destruct Hden as [Hok _]. rewrite is_zero_law, Z.eqb_eq in Hz by done.
  rewrite cmp_law, (proj2 zero_law), Hz by (done || apply zero_law). done.
Qed.

Lemma vanish_eqm r t : vanish r t <-> eqm p (D r t) 0.
Proof. apply zero_test_spec. Qed.

(** ** The constraint on the inverses *)

(** The accesses of a term on a row stay in the module. *)
Definition inrow (r : Z) (a : Access.t) : Prop := 0 <= r + Access.shift a < height m.

Definition inverse_access (i : nat) : Access.t := Access.FieldAccess (Some i) 0.

Definition inverse_term e (i : nat) : Expr F :=
  Product [e; Subtract [Const64 1; Product [e; RegisterAccess (inverse_access i)]]].

Lemma surfaced_leaf t a : surfaced (Product [t; RegisterAccess (F := F) a]) = 0%nat.
Proof. apply Nat.le_0_r, surfaced_Product. left. cbn. by rewrite orb_true_r. Qed.

Lemma surfaced_single t : (surfaced t = 0)%nat -> (surfaced (Add [t]) <= 1)%nat.
Proof. rewrite surfaced_Add. cbn. pose proof (still_le1 [t]). lia. Qed.

Lemma air_inverse L e i : air L e -> L (inverse_access i) -> air L (inverse_term e i).
Proof.
  intros He Hi. assert (Hacc : air L (RegisterAccess (F := F) (inverse_access i))) by by apply air_access.
  apply air_Product. constructor; [done|]. constructor; [|done]. apply air_Subtract.
  - constructor; [by apply air_const64|]. constructor; [|done]. apply air_Product. by repeat constructor.
  - right. apply surfaced_single, surfaced_leaf.
Qed.

Lemma inverse_value L e i r :
  air L e -> L (inverse_access i) ->
  D r (inverse_term e i) = D r e * (1 - D r e * row_env r m (inverse_access i)).
Proof.
  intros He Hi. pose proof (air_wf _ _ He) as Hew.
  assert (Hacc : air L (RegisterAccess (F := F) (inverse_access i))) by by apply air_access.
  assert (Hp : air L (Product [e; RegisterAccess (inverse_access i)])) by (apply air_Product; by repeat constructor).
  unfold inverse_term. rewrite denote_Product.
  2: { constructor; [done|]. constructor; [|done]. eapply air_wf, air_Subtract.
       - constructor; [by apply air_const64|]. by constructor.
       - right. apply surfaced_single, surfaced_leaf. }
  cbn [map zprod]. rewrite Z.mul_1_r. f_equal.
  rewrite denote_Subtract by (constructor; [by apply const64_wf|]; constructor; [by eapply air_wf|done]).
  cbn [map difference zsum]. rewrite const64_value by lia.
  rewrite denote_Product by (constructor; [done|]; constructor; [by eapply air_wf|done]). cbn [map zprod denote]. lia.
Qed.

Lemma furthest_le zs x : 0 <= x -> Forall (fun z => z <= x) zs -> furthest zs <= x.
Proof. intros Hx. induction 1 as [|z zs Hz _ IH]; cbn; lia. Qed.

(** The rows that a domain is about *)
Definition on_row (domain : option Z) (r : Z) : Prop :=
  match domain with None => True | Some d => - 2 ^ 62 <= d < 2 ^ 62 /\ r = if d <? 0 then height m + d else d end.

(** What an accepted constraint says of a row in which its term stays *)
Lemma enforced L h domain t r :
  air L t -> accepted (NewVanishingConstraint h mid domain t) -> on_row domain r -> 0 <= r < height m ->
  Forall (inrow r) (accesses t) -> vanish r t.
Proof.
  intros Ht Hacc Hd Hr Hin. eapply test_vanish; [exact Ht|].
  assert (Hb : Bounds_of t = reach (accesses t)) by apply Bounds_reach.
  assert (Hst : Bounds.Start (Bounds_of t) <= r /\ Bounds.End (Bounds_of t) <= height m - 1 - r).
  { rewrite Hb. cbn. split; apply furthest_le; [lia| |lia|]; unfold shifts; rewrite Forall_map; (eapply Forall_impl; [exact Hin|]); unfold inrow; cbn; lia. }
  assert (Hpos : 0 <= Bounds.Start (Bounds_of t) /\ 0 <= Bounds.End (Bounds_of t)).
  { rewrite Hb. cbn. split; apply furthest_nonneg. }
  pose (q := Vanishing.NewConstraint h mid domain (mkLogical t)).
  assert (Hq : forall k, VanishingFacts.checked q m k -> fst (test_at k m (Vanishing.Constraint_ q)) = Ok true).
  { apply (VanishingFacts.Accepts_none (E := Access.t) q tr sc m v); [done|done| |done].
    unfold VanishingFacts.sane. cbn. destruct domain; cbn in Hd; lia. }
  apply (Hq r). unfold VanishingFacts.checked. cbn. destruct domain; cbn in Hd; lia.
Qed.

Lemma enforced_inverse e i h r :
  air (user base) e -> accepted (inverse_constraint h mid e i) -> 0 <= r < height m -> Forall (inrow r) (accesses e) ->
  eqm p (D r e * (1 - D r e * row_env r m (inverse_access i))) 0.
Proof.
  intros He Hacc Hr Hin.
  set (L := fun a => (a ∈ accesses e) \/ a = inverse_access i).
  assert (HeL : air L e).
  { eapply air_accesses; [exact He|]. apply Forall_forall. intros a Ha. by left. }
  rewrite <-(inverse_value L) by (done || by right). apply vanish_eqm.
  assert (Hair : air L (inverse_term e i)) by (apply air_inverse; [done|by right]).
  eapply (enforced L _ None); [exact Hair|exact Hacc|done|done|].
  eapply Forall_impl; [by apply (air_Forall L)|]. intros a [Ha| ->]; [|unfold inrow; cbn; lia].
  rewrite Forall_forall in Hin. by apply Hin.
Qed.

(** ** Columns on the row of interest *)

Context (config : OptimisationConfig) (fieldBandwidth : Z) (bitwidths : list Z).
Context (Hbits : length bitwidths = length base) (Hfield : 2 ^ fieldBandwidth <= p) (Hbw : 0 <= fieldBandwidth).
Context (k : Z).

(** The registers with a range constraint are within it. *)
Definition typed_cells : Prop := forall a i bw,
  Access.register a = Some i -> bitwidths !! i = Some bw -> bw <> MaxUint -> 0 <= bw /\ (inrow k a -> row_env k m a < 2 ^ bw).

(** An access of a source register that stays in the module, within its mask *)
Definition source_access (a : Access.t) : Prop :=
  user base a /\ access_defined m a /\ inrow k a /\ row_env k m a < 2 ^ Access.maskwidth a.

(** An access of any column in the module, with the range that the lowering takes it to have *)
Definition target_access (a : Access.t) : Prop :=
  access_defined m a /\ inrow k a /\ contains (valueRangeOf_access bitwidths a) (row_env k m a).

Lemma source_target a : typed_cells -> source_access a -> target_access a.
Proof.
  intros Htyped ((i & Hi & Hlt) & Hd & Hin & _). split; [done|]. split; [done|]. unfold valueRangeOf_access. rewrite Hi. cbn [Unwrap mbind result_bind].
  destruct (lookup_lt_is_Some_2 bitwidths i) as [bw Hb]; [lia|]. rewrite Hb.
  destruct (Z.eqb_spec bw MaxUint) as [|Hne]; [apply contains_infinity|].
  destruct (Htyped a i bw Hi Hb Hne) as [Hbp Hlim]. apply contains_bits; [|done]. split; [by apply row_env_nonneg|auto].
Qed.

Lemma generated_target a i : Access.register a = Some i -> (length base <= i)%nat -> column_filled i -> inrow k a -> target_access a.
Proof.
  intros Hi Hle (col & Hc & Hd) Hin. split; [by exists i, col|]. split; [done|]. unfold valueRangeOf_access. rewrite Hi. cbn [Unwrap mbind result_bind].
  rewrite lookup_ge_None_2 by lia. apply contains_infinity.
Qed.

(** The accesses of the terms that are lowered.  On some rows they are within the
    module and their masks. *)
Context (G : Access.t -> Prop) (HG : forall a, G a -> user base a /\ access_defined m a) (Hpos : positional G).

Definition row_ok : Prop := 0 <= k < height m /\ typed_cells /\ forall a, G a -> source_access a.

Lemma air_source e : row_ok -> air G e -> air source_access e.
Proof. intros (_ & _ & H). by apply air_mono. Qed.

Lemma air_target e : row_ok -> air G e -> air target_access e.
Proof. intros (_ & Ht & H). apply air_mono. auto using source_target. Qed.

Lemma air_user e : air G e -> air (user base) e.
Proof. apply air_mono. intros a Ha. by apply HG. Qed.

(** ** Normalisation *)

Lemma within_spec bounds lo hi z :
  lo <= hi -> contains bounds z -> forall i, bounds = Ok i -> within config i lo hi = Ok true -> lo <= z <= hi.
Proof.
  intros Hle Hc i Hi. destruct (Hc i Hi) as [Hiwf Hmem]. unfold within. destruct (_ <? _)%nat; [|done].
  unfold Interval.NewInterval64. destruct (NewInterval_ok lo hi Hle) as (j & -> & Hj & Hjm). cbn [mbind result_bind].
  destruct (IntervalFacts.Within_spec i j Hiwf Hj) as (b & -> & Hb). intros [= ->].
  apply Hjm. by apply Hb.
Qed.

Lemma air_branches L e : air L e -> has_branches e.
Proof.
  revert e. apply air_induction; cbn; try done.
  - intros args _ IH _. by apply all_Forall.
  - intros args _ IH _. by apply all_Forall.
  - intros t rest _ _ IH. by apply (all_Forall has_branches (t :: rest)).
Qed.

(** The row that the inverse is taken on is in the module. *)
Lemma normal_shift_spec L e s :
  air L e -> 0 <= k < height m -> Forall (inrow k) (accesses e) -> accesses e <> [] -> normal_shift config e = Ok s ->
  0 <= k + s < height m.
Proof.
  intros He Hk Hin Hne. unfold normal_shift. destruct (ShiftNormalisation config); [|intros [= <-]; lia].
  assert (Hir : Forall (fun a => int_range (Access.shift a)) (accesses e)).
  { eapply Forall_impl; [exact Hin|]. unfold inrow, int_range, MinInt, MaxInt. intros a. lia. }
  rewrite (proj1 ShiftRange_span e (air_branches L e He) Hir). unfold span. cbn [mbind result_bind].
  assert (Hir' : Forall int_range (shifts (accesses e))) by by apply Forall_map.
  assert (Hne' : shifts (accesses e) <> []) by by destruct (accesses e).
  destruct (TermProperties.lowest_spec _ Hir') as [_ Hlo]. destruct (TermProperties.highest_spec _ Hir') as [_ Hhi].
  assert (Hrow : forall z, z ∈ shifts (accesses e) -> 0 <= k + z < height m).
  { intros z (a & -> & Ha)%list_elem_of_fmap. rewrite Forall_forall in Hin. exact (Hin a Ha). }
  pose proof (Hrow _ (Hlo Hne')) as Hl. pose proof (Hrow _ (Hhi Hne')) as Hr. intros [= <-].
  destruct (Z.ltb_spec (highest (shifts (accesses e))) 0); [done|]. destruct (Z.ltb_spec 0 (lowest (shifts (accesses e)))); [done|lia].
Qed.

(** The value of a normalised term *)
Definition normal (z : Z) : Z := if zero_test (F := F) z then 0 else 1.

#[local] Instance normal_proper : Proper (eqm p ==> eq) normal.
Proof. intros x y Hxy. unfold normal, zero_test. apply eqm_iff_mod in Hxy; [by rewrite Hxy|lia]. Qed.

Lemma one_not_zero : zero_test (F := F) 1 = false.
Proof. unfold zero_test. rewrite Z.mod_1_l by lia. done. Qed.

Lemma normal_unit z : z = 0 \/ z = 1 -> normal z = z.
Proof. unfold normal. intros [-> | ->]; [|by rewrite one_not_zero]. unfold zero_test. by rewrite Z.mod_0_l by lia. Qed.

Lemma normal_sign z : -1 <= z <= 1 -> normal z = z * z.
Proof.
  intros Hz. unfold normal. assert (z = -1 \/ z = 0 \/ z = 1) as [-> | [-> | ->]] by lia; unfold zero_test.
  - rewrite <-(Z.mod_unique_pos (-1) p (-1) (p - 1)) by lia. destruct (Z.eqb_spec (p - 1) 0); [lia|done].
  - by rewrite Z.mod_0_l by lia.
  - by rewrite Z.mod_1_l by lia.
Qed.

(** A value times its inverse *)
Lemma normal_inverse z y : eqm p (z * (1 - z * y)) 0 -> eqm p (z * y) (normal z).
Proof.
  unfold normal. destruct (zero_test z) eqn:Hz; intros H.
  - apply zero_test_spec in Hz. by rewrite Hz, Z.mul_0_l.
  - apply mul_zero_eqm in H as [H|H].
    + apply zero_test_spec in H. by rewrite H in Hz.
    + destruct H as [q Hq]. exists (- q). lia.
Qed.

Record normalised (arg norm : Expr F) : Prop := {
  nd_air : air target_access norm;
  nd_surfaced : (surfaced (Add [norm]) <= 1)%nat;
  nd_value : eqm p (D k norm) (normal (D k arg))
}.

Lemma square_surfaced arg : (surfaced (Add [arg]) <= 1)%nat -> (surfaced (Add [Product [arg; arg]]) <= 1)%nat.
Proof.
  rewrite !surfaced_Add, !still_cons. cbn [still forallb sum_list_with]. intros Hsurf.
  assert (Hle : (surfaced (Product [arg; arg]) <= surfaced arg)%nat) by (apply surfaced_Product; right; by repeat constructor).
  destruct (varies arg) eqn:Hva; [|destruct (varies (Product [arg; arg])); lia].
  rewrite (varies_Product [arg; arg]); [lia|cbn; by rewrite Hva|cbn; unfold solid; by rewrite Hva].
Qed.

(** The accesses of a term that is shifted to the row of its inverse *)
Definition shifted (s : Z) (a : Access.t) : Prop := exists a0, G a0 /\ a = Access.ApplyShift a0 (- s).

Lemma shifted_air arg arg' s :
  air G arg -> Simplify false (ApplyShift arg (- s)) = Ok arg' ->
  air (shifted s) arg' /\ eqm p (D (k + s) arg') (D k arg).
Proof.
  intros Harg Harg'. destruct (shift_shape G (- s) arg Harg) as (Hsair & _).
  destruct (simplify_air (shifted s) (k + s) m _ arg' Hwf Hsair Harg') as (Hair' & _ & Hval'). split; [done|].
  rewrite Hval'.
  - rewrite (denote_shift G) by done. by replace (k + s + - s) with k by lia.
  - rewrite (accesses_shift G) by done. rewrite Forall_map. eapply Forall_impl; [apply (air_Forall _ _ Harg)|].
    intros a Ha. destruct (HG a Ha) as [_ Hd]. exact Hd.
Qed.

(** The term times its inverse is its normal form. *)
Lemma normalised_inverse arg arg' s b i e0 h :
  row_ok -> air G arg -> accesses arg <> [] -> normal_shift config arg = Ok s ->
  air (shifted s) arg' -> eqm p (D (k + s) arg') (D k arg) ->
  trusted b -> (length base <= i < length (Builder.registers b))%nat -> air (user base) e0 -> same e0 arg' ->
  inverse_constraint h mid e0 i ∈ Builder.constraints b ->
  normalised arg (ApplyShift (Product [arg'; RegisterAccess (inverse_access i)]) s).
Proof.
  intros Hrow Harg Hne Hs Hair' Hval' [Hacc Hfill] Hi He0 [Hpl Hsame] Hin.
  destruct Hrow as (Hk & Htyped & Hsrc).
  assert (Hr : 0 <= k + s < height m).
  { eapply normal_shift_spec; [exact Harg|done| |done|exact Hs]. eapply Forall_impl; [apply (air_Forall _ _ Harg)|].
    intros a Ha. apply (Hsrc a Ha). }
  assert (Hrow : Forall (inrow (k + s)) (accesses e0)).
  { assert (Hrow' : Forall (inrow (k + s)) (accesses arg')).
    { eapply Forall_impl; [apply (air_Forall _ _ Hair')|]. intros a (a0 & (_ & _ & Ha0 & _)%Hsrc & ->). unfold inrow in *. cbn. lia. }
    rewrite Forall_forall in Hrow' |- *. intros a Ha.
    assert (Hp : place a ∈ map place (accesses arg')) by (rewrite <-Hpl; apply list_elem_of_fmap; by exists a).
    apply list_elem_of_fmap in Hp as (a' & Heq & Ha'). injection Heq as _ Hsh. unfold inrow. rewrite Hsh. by apply Hrow'. }
  pose proof (enforced_inverse e0 i h (k + s) He0 (Hacc _ Hin) Hr Hrow) as Hinv.
  rewrite Hsame in Hinv. apply normal_inverse in Hinv.
  set (L' := fun a => shifted s a \/ a = inverse_access i).
  assert (Hnair : air L' (Product [arg'; RegisterAccess (inverse_access i)])).
  { apply air_Product. constructor; [eapply air_mono; [|exact Hair']; by left|]. constructor; [|done]. apply air_access; [done|by right]. }
  destruct (shift_shape L' s _ Hnair) as (Hshair & Hvar & Hsur & _). split.
  - eapply air_mono; [|exact Hshair]. intros a (a0 & [(a1 & Ha1%Hsrc & ->)| ->] & ->).
    + apply source_target; [done|]. unfold source_access in *. destruct Ha1 as (Hu & Hd & Hi1 & Hf). unfold inrow in *.
      rewrite !row_env_shift. cbn. replace (k + s + - s) with k by lia. replace (k + (Access.shift a1 + - s + s)) with (k + Access.shift a1) by lia. done.
    + apply (generated_target _ i); [done|lia|apply Hfill; lia|]. unfold inrow. cbn. lia.
  - apply surfaced_single. by rewrite Hsur, surfaced_leaf.
  - rewrite (denote_shift L') by done. rewrite denote_Product.
    2: { constructor; [by eapply air_wf|]. constructor; [|done]. by repeat split. }
    cbn [map zprod]. rewrite Z.mul_1_r. change (D (k + s) (RegisterAccess (inverse_access i))) with (row_env (k + s) m (inverse_access i)).
    by rewrite Hinv, Hval'.
Qed.

Lemma normalise_ok arg b norm b' :
  builder_ok nm mid base b -> air G arg -> (surfaced (Add [arg]) <= 1)%nat -> accesses arg <> [] ->
  normalise config arg b = Ok (norm, b') ->
  builder_ok nm mid base b' /\ extends b b' /\ (trusted b' -> row_ok -> normalised arg norm).
Proof.
  intros Hb Harg Hsurf Hne. unfold normalise. intros (bounds & Hbounds & H)%bind_ok.
  apply bind_ok in H as (binary & Hbin & H).
  assert (Hcont : row_ok -> contains (ValueRange arg) (D k arg)).
  { intros Hrow. apply ValueRange_contains; [done|]. eapply air_mono; [|apply (air_source _ Hrow Harg)]. intros a Ha. apply Ha. }
  pose proof (air_wf _ _ Harg) as Hwarg.
  destruct binary.
  { injection H as <- <-. split; [done|]. split; [apply extends_refl|]. intros _ Hrow.
    pose proof (within_spec _ 0 1 _ ltac:(lia) (Hcont Hrow) _ Hbounds Hbin). split; [by apply air_target|done|].
    rewrite normal_unit by lia. done. }
  apply bind_ok in H as (ternary & Hter & H). destruct ternary.
  { injection H as <- <-. split; [done|]. split; [apply extends_refl|]. intros _ Hrow.
    pose proof (within_spec _ (-1) 1 _ ltac:(lia) (Hcont Hrow) _ Hbounds Hter) as Hz. split.
    - apply air_Product. pose proof (air_target _ Hrow Harg). by repeat constructor.
    - by apply square_surfaced.
    - rewrite normal_sign by lia. rewrite denote_Product by by repeat constructor. cbn [map zprod]. by rewrite Z.mul_1_r. }
  apply bind_ok in H as (s & Hs & H). apply bind_ok in H as (arg' & Harg' & H). apply bind_ok in H as ([norm' b''] & Hn & [= <- <-]).
  unfold Normalise in Hn. apply bind_ok in Hn as ([ie b3] & Hg & [= <- <-]).
  destruct (shifted_air arg arg' s Harg Harg') as (Hair' & Hval').
  assert (Huser : air (user base) arg').
  { eapply air_mono; [|exact Hair']. intros a (a0 & Ha0%HG & ->). apply Ha0. }
  destruct (gadget_ok nm mid base Hbase arg' b ie b3 Hb Huser Hg) as (Hb3 & Hext & i & e0 & h & -> & Hi & He0 & Hsame & Hin).
  split; [done|]. split; [done|]. intros Htr Hrow. by eapply normalised_inverse.
Qed.

(** ** Comparisons *)

Lemma varies_accesses L e : air L e -> varies e = true -> accesses e <> [].
Proof.
  revert e. apply (air_induction L (fun e => varies e = true -> accesses e <> [])); try done.
  - intros args _ IH _. cbn. induction IH as [|e es He _ IHl]; [done|]. cbn. intros [Hval|Hval]%orb_true_iff Hnil.
    + apply app_nil in Hnil as [Hnil _]. by apply He.
    + apply app_nil in Hnil as [_ Hnil]. by apply IHl.
  - intros args _ IH _. rewrite varies_Mul. intros [Hval _]%andb_true_iff. revert Hval. cbn.
    induction IH as [|e es He _ IHl]; [done|]. cbn. intros [Hval|Hval]%orb_true_iff Hnil.
    + apply app_nil in Hnil as [Hnil _]. by apply He.
    + apply app_nil in Hnil as [_ Hnil]. by apply IHl.
  - intros t rest _ _ IH Hval. apply Forall_inv in IH. cbn. intros [Hnil _]%app_nil. by apply IH.
Qed.

Abbreviation mir := (every (mir_node G)).

(** The difference that a comparison is lowered to *)
Record difference_of (x y eq : Expr F) : Prop := {
  df_air : air G eq;
  df_surfaced : (surfaced (Add [eq]) <= 1)%nat;
  df_accesses : accesses eq <> [];
  df_value : eqm p (D k eq) (D k x - D k y)
}.

Lemma difference_ok x y b lhs rhs :
  variable_comparison G x y -> lowerTermTo x b = Ok lhs -> lowerTermTo y b = Ok rhs ->
  difference_of x y (Subtract [lhs; rhs]).
Proof.
  intros (Hx & Hy & Hs & Hval) Hlhs Hrhs.
  destruct (lowerTermTo_spec G Hpos Hodd x b lhs) as [Hla Hlb Hlv]; [by apply mir_wf|done|].
  destruct (lowerTermTo_spec G Hpos Hodd y b rhs) as [Hra Hrb Hrv]; [by apply mir_wf|done|].
  pose proof (better_subtractable _ _ _ _ Hlb Hrb Hs) as [_ Hsub].
  assert (Hpair : Forall (air G) [lhs; rhs]) by (constructor; [done|by constructor]).
  assert (Hb : better (Subtract [lhs; rhs]) (Sub [x; y])) by (apply better_Subtract; constructor; [done|by constructor]).
  assert (Hair : air G (Subtract [lhs; rhs])) by by apply air_Subtract.
  split; [done| | |].
  - etransitivity; [by apply better_added|]. exact (proj1 Hs).
  - destruct Hval as [Hval|Hval]; [eapply varies_accesses; [exact Hair|]; by apply Hb|].
    apply (better_varies _ _ Hrb) in Hval. unfold Subtract. cbn. destruct (isZero rhs) eqn:Hz.
    + by rewrite (isZero_fixed _ Hz) in Hval.
    + cbn. rewrite app_nil_r. intros [_ Hnil]%app_nil. by apply (varies_accesses _ rhs Hra Hval).
  - rewrite denote_Subtract by by eapply air_wf_list. cbn [map difference zsum]. rewrite Hlv, Hrv. by rewrite Z.add_0_r.
Qed.

(** Terms that vanish exactly when a property holds *)
Definition expresses (Q : Prop) (ts : list (Expr F)) : Prop :=
  Forall (air target_access) ts /\ (Forall (vanish k) ts <-> Q).

(** The same once the constraints of the builder are trusted *)
Definition lowered (Q : Prop) b ts b' : Prop :=
  builder_ok nm mid base b' /\ extends b b' /\ (trusted b' -> row_ok -> expresses Q ts).

Lemma lowerEqualityTo_ok x y b ts b' :
  builder_ok nm mid base b -> variable_comparison G x y -> lowerEqualityTo x y b = Ok (ts, b') ->
  lowered (holds (row_env k m) (Equal x y) = true) b ts b'.
Proof.
  intros Hb Hc (lhs & Hl & (rhs & Hr & [= <- <-])%bind_ok)%bind_ok.
  destruct (difference_ok x y b lhs rhs Hc Hl Hr) as [Ha _ _ Hval]. split; [done|]. split; [apply extends_refl|]. intros _ Hrow.
  split; [constructor; [|done]; by apply air_target|].
  rewrite Forall_singleton, vanish_eqm, Hval. cbn [holds]. symmetry. apply zero_test_spec.
Qed.

Lemma lowerNonEqualityTo_ok x y b ts b' :
  builder_ok nm mid base b -> variable_comparison G x y -> lowerNonEqualityTo config x y b = Ok (ts, b') ->
  lowered (holds (row_env k m) (NotEqual x y) = true) b ts b'.
Proof.
  intros Hb Hc (lhs & Hl & (rhs & Hr & ([norm b2] & Hn & [= <- <-])%bind_ok)%bind_ok)%bind_ok.
  destruct (difference_ok x y b lhs rhs Hc Hl Hr) as [Ha Hs Hacc Hval].
  destruct (normalise_ok _ _ _ _ Hb Ha Hs Hacc Hn) as (Hb' & Hext & Hnorm). split; [done|]. split; [done|]. intros Ht Hrow.
  change (expresses (holds (row_env k m) (NotEqual x y) = true) [Subtract [Const64 1; norm]]).
  destruct (Hnorm Ht Hrow) as [Hna Hns Hnv].
  assert (Hpair : Forall (air target_access) [Const64 1; norm]) by (constructor; [by apply air_const64|by constructor]).
  split; [constructor; [|done]; apply air_Subtract; [done|by right]|].
  rewrite Forall_singleton, vanish_eqm. rewrite denote_Subtract by by eapply air_wf_list. cbn [map difference zsum].
  rewrite const64_value, Z.add_0_r, Hnv, Hval by lia. rewrite holds_NotEqual, holds_Equal. unfold normal.
  destruct (zero_test _); cbn [negb]; [|by rewrite Z.sub_diag].
  split; [|done]. intros H%zero_test_spec. by rewrite Z.sub_0_r, one_not_zero in H.
Qed.

(** ** Lists of terms *)

Lemma each_lowered {A} (f : A -> Builder.t F -> result (list (Expr F) * Builder.t F)) (Q : A -> Prop) xs b tss b' :
  Forall (fun x => forall b ts b', builder_ok nm mid base b -> f x b = Ok (ts, b') -> lowered (Q x) b ts b') xs ->
  builder_ok nm mid base b -> each f xs b = Ok (tss, b') ->
  builder_ok nm mid base b' /\ extends b b' /\ (trusted b' -> row_ok -> Forall2 (fun x ts => expresses (Q x) ts) xs tss).
Proof.
  intros Hf. revert b tss b'. induction Hf as [|x xs Hx _ IH]; intros b tss b' Hb; cbn [each].
  { intros [= <- <-]. split; [done|]. split; [apply extends_refl|by constructor]. }
  intros ([ts b1] & H1 & ([tss' b2] & H2 & [= <- <-])%bind_ok)%bind_ok.
  destruct (Hx _ _ _ Hb H1) as (Hb1 & He1 & Ht1). destruct (IH _ _ _ Hb1 H2) as (Hb2 & He2 & Ht2).
  split; [done|]. split; [by eapply extends_trans|]. intros Ht Hrow. constructor; [|by apply Ht2]. apply Ht1; [|done]. by eapply trusted_extends.
Qed.

Lemma each_but_filter {A B S} (skip : A -> bool) (f : A -> S -> result (B * S)) xs s :
  each_but skip f xs s = each f (List.filter (fun x => negb (skip x)) xs) s.
Proof.
  revert s. induction xs as [|x xs IH]; intros s; [done|]. cbn. destruct (skip x); cbn; [apply IH|].
  destruct (f x s) as [[y s']|]; [|done]. cbn. by rewrite IH.
Qed.

Lemma expresses_all {A} (Q : A -> Prop) xs tss :
  Forall2 (fun x ts => expresses (Q x) ts) xs tss ->
  Forall (Forall (air target_access)) tss /\ (Forall (Forall (vanish k)) tss <-> Forall Q xs) /\
  (Exists (Forall (vanish k)) tss <-> Exists Q xs).
Proof.
  induction 1 as [|x ts xs tss [Ha Hx] _ (IHa & IHf & IHe)]; [split; [done|]; split; [done|]; by rewrite !Exists_nil|].
  rewrite !Forall_cons, !Exists_cons, Hx, IHf, IHe. done.
Qed.

(** ** Disjunctions *)

Lemma product_vanish x y : expr_wf x -> expr_wf y -> vanish k (Product [x; y]) <-> vanish k x \/ vanish k y.
Proof.
  intros Hx Hy. rewrite !vanish_eqm, denote_Product by by repeat constructor. cbn [map zprod]. rewrite Z.mul_1_r.
  split; [apply mul_zero_eqm|]. intros [H|H]; rewrite H; [by rewrite Z.mul_0_l|by rewrite Z.mul_0_r].
Qed.

Lemma Forall_or {A B} (P : A -> Prop) (Q : B -> Prop) xs ys :
  (forall x, Decision (P x)) -> Forall (fun x => Forall (fun y => P x \/ Q y) ys) xs <-> Forall P xs \/ Forall Q ys.
Proof.
  intros Hd. split.
  - intros H. destruct (decide (Forall P xs)) as [|Hn]; [by left|right]. apply not_Forall_Exists in Hn; [|done].
    apply Exists_exists in Hn as (x & Hx & Hnx). rewrite Forall_forall in H. eapply Forall_impl; [exact (H x Hx)|].
    intros y [HP|HQ]; [by destruct Hnx|done].
  - intros [H|H].
    + eapply Forall_impl; [exact H|]. cbn. intros x Hx. apply Forall_true. tauto.
    + apply Forall_true. intros x. eapply Forall_impl; [exact H|]. cbn. tauto.
Qed.

Lemma const_one_stays : ~ vanish k (Const64 1).
Proof. unfold vanish. rewrite const64_value by lia. by rewrite one_not_zero. Qed.

Lemma disjunction_ok tss :
  Forall (Forall (air target_access)) tss ->
  Forall (air target_access) (disjunction tss) /\ (Forall (vanish k) (disjunction tss) <-> Exists (Forall (vanish k)) tss).
Proof.
  induction 1 as [|ts tss Ha Hs [IHa IHv]].
  { split; [constructor; [by apply air_const64|done]|]. cbn [disjunction]. rewrite Forall_singleton, Exists_nil.
    split; [apply const_one_stays|done]. }
  destruct tss as [|ts' tss]; [split; [done|]; rewrite Exists_cons, Exists_nil; cbn; tauto|].
  change (disjunction (ts :: ts' :: tss)) with (ts ≫= fun x => map (fun y => Product [x; y]) (disjunction (ts' :: tss))).
  rewrite Exists_cons, <-IHv. rewrite !Forall_bind. set (rest := disjunction (ts' :: tss)) in *. split.
  - eapply Forall_impl; [exact Ha|]. intros x Hx. apply Forall_map. eapply Forall_impl; [exact IHa|]. intros y Hy.
    apply air_Product. by repeat constructor.
  - rewrite <-Forall_or by (intros x; unfold vanish; apply _).
    assert (Hkey : forall x, air target_access x ->
      Forall (vanish k) (map (fun y => Product [x; y]) rest) <-> Forall (fun y => vanish k x \/ vanish k y) rest).
    { intros x Hx. rewrite Forall_map, !Forall_forall. rewrite Forall_forall in IHa.
      split; intros H y Hy; apply product_vanish; try (by apply H); eapply air_wf; [exact Hx|by apply IHa|exact Hx|by apply IHa]. }
    rewrite !Forall_forall. rewrite Forall_forall in Ha. split; intros H x Hx; apply (Hkey x (Ha x Hx)), H, Hx.
Qed.

(** ** Conjunctions *)

Lemma packets_ext {A} (next next' : list A -> result nat) fuel wl :
  (forall wl, next wl = next' wl) -> packets fuel next wl = packets fuel next' wl.
Proof.
  intros Hn. revert wl. induction fuel as [|fuel IH]; intros [|x wl]; try done. cbn [packets]. rewrite Hn.
  destruct (next' (x :: wl)); [|done]. cbn. by rewrite IH.
Qed.

Lemma target_range t : air target_access t -> contains (valueRangeOf bitwidths t) (D k t).
Proof. intros Ht. apply valueRangeOf_contains. eapply air_mono; [|exact Ht]. by intros a (_ & _ & Ha). Qed.

Lemma sum_vanish pk : Forall (air target_access) pk -> vanish k (Sum pk) <-> zero_test (F := F) (zsum (map (D k) pk)) = true.
Proof. intros H. unfold vanish. by rewrite denote_Sum by by eapply air_wf_list. Qed.

Lemma mjoin_Forall {A} (P : A -> Prop) (xss : list (list A)) : Forall P (mjoin xss) <-> Forall (Forall P) xss.
Proof. induction xss as [|xs xss IH]; [done|]. change (mjoin (xs :: xss)) with (xs ++ mjoin xss). by rewrite Forall_app, Forall_cons, IH. Qed.

Lemma lowerConjunct_ok tss sums :
  Forall (Forall (air target_access)) tss -> lowerConjunct fieldBandwidth bitwidths tss = Ok sums ->
  Forall (air target_access) sums /\ (Forall (vanish k) sums <-> Forall (Forall (vanish k)) tss).
Proof.
  intros Ha (ps & Hps & [= <-])%bind_ok.
  rewrite (packets_ext _ (group fieldBandwidth (term_upper bitwidths))) in Hps by (intros wl; apply sum_conjunct_grow).
  rewrite <-(mjoin_Forall (air _)) in Ha.
  destruct (group_packets fieldBandwidth Hbw (term_upper bitwidths) (D k) _ _ _ Hps) as [Hj Hg].
  { eapply Forall_impl; [exact Ha|]. intros t Ht. by apply term_upper_bounded, target_range. }
  rewrite <-Hj, mjoin_Forall in Ha. rewrite <-(mjoin_Forall (vanish k)), <-Hj, mjoin_Forall.
  split; [apply Forall_map; eapply Forall_impl; [exact Ha|]; intros pk Hpk; by apply air_Sum|].
  rewrite Forall_map, !Forall_forall. rewrite Forall_forall in Ha, Hg.
  assert (Hkey : forall pk, pk ∈ ps -> vanish k (Sum pk) <-> Forall (vanish k) pk).
  { intros pk Hpk. rewrite sum_vanish by by apply Ha. by apply (packet_zero fieldBandwidth); [|apply (Hg pk)]. }
  split; intros H pk Hpk; apply (Hkey pk Hpk), H, Hpk.
Qed.

Lemma mjoin_Exists {A} (P : A -> Prop) (xss : list (list A)) : Exists P (mjoin xss) <-> Exists (Exists P) xss.
Proof. induction xss as [|xs xss IH]; [by rewrite !Exists_nil|]. change (mjoin (xs :: xss)) with (xs ++ mjoin xss). by rewrite Exists_app, Exists_cons, IH. Qed.

(** ** Non-zero checks *)

Lemma check_ok l a :
  normal_form (variable_comparison G) l -> isNonZeroCheck l = Some a ->
  access_wf a /\ G a /\ holds (row_env k m) l = negb (zero_test (F := F) (row_env k m a)).
Proof.
  destruct l as [| | | | |x y]; try done. cbn [normal_form isNonZeroCheck]. intros (Hx & Hy & _).
  assert (Hacc : forall a, mir (RegisterAccess (F := F) a) -> access_wf a /\ G a).
  { by intros a' [([Hw _] & _ & Ha) _]. }
  assert (Hexpr : forall e, mir e -> expr_wf e) by (intros e He; eapply every_impl; [|by apply mir_wf in He as [He _]; exact He]; by intros e' []).
  destruct (isZero x) eqn:Hzx.
  - destruct y as [| | | | | | | |a'| |]; try done. intros [= ->]. destruct (Hacc a Hy). split; [done|]. split; [done|].
    rewrite holds_NotEqual, holds_Equal. rewrite (isZero_value _ x) by auto.
    change (D k (RegisterAccess a)) with (row_env k m a). f_equal.
    apply eq_true_iff_eq. rewrite !zero_test_spec. split; intros [q Hq]; exists (- q); lia.
  - destruct (isZero y) eqn:Hzy; [|done]. destruct x as [| | | | | | | |a'| |]; try done. intros [= ->].
    destruct (Hacc a Hx). split; [done|]. split; [done|].
    rewrite holds_NotEqual, holds_Equal. rewrite (isZero_value _ y) by auto. by rewrite Z.sub_0_r.
Qed.

Definition checked (a : Access.t) : Prop := access_wf a /\ G a.

(** The sum of some columns, compared with zero *)
Lemma packet_comparison pk :
  pk <> [] -> Forall checked pk ->
  variable_comparison G (Sum (map RegisterAccess pk)) (Const64 (F := F) 0) /\
  D k (Sum (map RegisterAccess pk)) = zsum (map (row_env k m) pk).
Proof.
  intros Hne Hpk.
  assert (Hmir : Forall mir (map (RegisterAccess (F := F)) pk)).
  { apply Forall_map. eapply Forall_impl; [exact Hpk|]. intros a [Hw Ha]. split; [|done]. split; [|done]. by split. }
  assert (Hwfs : Forall expr_wf (map (RegisterAccess (F := F)) pk)).
  { apply Forall_map. eapply Forall_impl; [exact Hpk|]. intros a [Hw Ha]. by split. }
  assert (Hflat : RemoveMatching (Flatten (map (RegisterAccess (F := F)) pk) flatternAdd) isZero = map RegisterAccess pk).
  { clear. induction pk as [|a pk IH]; [done|]. cbn [map].
    change (RegisterAccess a :: RemoveMatching (Flatten (map (RegisterAccess (F := F)) pk) flatternAdd) isZero = RegisterAccess a :: map RegisterAccess pk).
    by rewrite IH. }
  assert (Hvar : existsb varies (map (RegisterAccess (F := F)) pk) = true) by by destruct pk.
  assert (Hstill : (surfaced (Add (map (RegisterAccess (F := F)) pk)) = 0)%nat).
  { clear. rewrite surfaced_Add. unfold still.
    assert (H : forallb varies (map (RegisterAccess (F := F)) pk) = true) by (induction pk as [|a pk IH]; [done|exact IH]).
    rewrite H. induction pk as [|a pk IH]; [done|]. apply IH. by induction pk. }
  pose proof (varies_Sum _ Hvar) as Hvs. pose proof (surfaced_Sum (map (RegisterAccess (F := F)) pk)) as Hs.
  split; [split; [|split; [|split]]|].
  - unfold Sum. rewrite Hflat. destruct pk as [|a [|a' pk]]; [done|by apply Forall_inv in Hmir|].
    split; [done|]. by apply all_Forall.
  - split; [|done]. split; [|done]. split; [|done]. apply set_uint64_law. lia.
  - split; [|by left]. rewrite surfaced_Add, still_cons. cbn [sum_list_with]. rewrite Hvs. cbn. lia.
  - by left.
  - rewrite denote_Sum by done. by rewrite map_map.
Qed.

Lemma lowerChecks_ok checks b tss b' :
  builder_ok nm mid base b -> Forall checked checks -> lowerChecks config fieldBandwidth bitwidths checks b = Ok (tss, b') ->
  builder_ok nm mid base b' /\ extends b b' /\
  (trusted b' -> row_ok -> Forall (Forall (air target_access)) tss /\
    (Exists (Forall (vanish k)) tss <-> Exists (fun a => zero_test (F := F) (row_env k m a) = false) checks)).
Proof.
  intros Hb Hchecks (ps & Hps & Hl)%bind_ok.
  rewrite (packets_ext _ (group fieldBandwidth (check_upper bitwidths))) in Hps by (intros wl; apply non_zero_check_grow).
  destruct (group_nonempty fieldBandwidth (check_upper bitwidths) _ _ _ Hps) as [Hj Hne]. pose proof Hchecks as Hbound.
  rewrite <-Hj, mjoin_Forall in Hchecks.
  assert (Hall : Forall (fun pk => pk <> [] /\ Forall checked pk) ps) by (by apply Forall_and).
  destruct (each_lowered (fun pk => lowerNonEqualityTo config (Sum (map RegisterAccess pk)) (Const64 0)) (fun pk => holds (row_env k m) (NotEqual (Sum (map RegisterAccess pk)) (Const64 0)) = true) ps b tss b') as (Hb' & He & Ht).
  { eapply Forall_impl; [exact Hall|]. intros pk [Hpn Hpk] b1 ts b2 Hb1. apply lowerNonEqualityTo_ok; [done|]. by apply packet_comparison. }
  { done. }
  { done. }
  split; [done|]. split; [done|]. intros Htr Hrow. destruct (expresses_all _ _ _ (Ht Htr Hrow)) as (Ha & _ & Hex).
  split; [done|]. rewrite Hex, <-Hj, mjoin_Exists, !Exists_exists.
  destruct (group_packets fieldBandwidth Hbw (check_upper bitwidths) (row_env k m) _ _ _ Hps) as [_ Hg].
  { destruct Hrow as (_ & Htyped & Hsrc). eapply Forall_impl; [exact Hbound|]. intros a [_ Ha']. apply check_upper_bounded.
    by apply source_target, Hsrc. }
  assert (Hkey : forall pk, pk ∈ ps -> holds (row_env k m) (NotEqual (Sum (map RegisterAccess pk)) (Const64 0)) = true <->
    Exists (fun a => zero_test (F := F) (row_env k m a) = false) pk).
  { intros pk Hpk. rewrite Forall_forall in Hall, Hg. destruct (Hall pk Hpk) as [Hpn Hck].
    destruct (packet_comparison pk Hpn Hck) as [_ Hd]. rewrite holds_NotEqual, holds_Equal, Hd, const64_value, Z.sub_0_r by lia.
    rewrite negb_true_iff, <-not_true_iff_false. pose proof (packet_zero fieldBandwidth _ _ Hfield (Hg pk Hpk)) as Hz. rewrite Hz. split.
    - intros Hn%not_Forall_Exists; [|intros; apply _]. eapply Exists_impl; [exact Hn|]. intros a. apply not_true_iff_false.
    - intros He2. apply Exists_not_Forall. eapply Exists_impl; [exact He2|]. intros a. apply not_true_iff_false. }
  split; intros (pk & Hpk & H); exists pk; (split; [done|]); by apply (Hkey pk Hpk).
Qed.

(** ** Logical terms *)

Lemma disjunct_holds args :
  Forall (normal_form (variable_comparison G)) args ->
  holds (row_env k m) (Disjunct args) = true <->
  Exists (fun l => holds (row_env k m) l = true) (List.filter (fun l => negb (is_check l)) args) \/
  Exists (fun a => zero_test (F := F) (row_env k m a) = false) (omap isNonZeroCheck args).
Proof.
  change (holds (row_env k m) (Disjunct args)) with (existsb (holds (row_env k m)) args).
  induction 1 as [|l args Hl _ IH]; [cbn; rewrite !Exists_nil; by split; [|intros []]|].
  cbn [existsb List.filter]. rewrite orb_true_iff, IH. unfold is_check. cbn. destruct (isNonZeroCheck l) as [a|] eqn:Hc; cbn [negb].
  - destruct (check_ok l a Hl Hc) as (_ & _ & ->). rewrite Exists_cons, negb_true_iff. tauto.
  - rewrite Exists_cons. tauto.
Qed.

Lemma checks_ok args :
  Forall (normal_form (variable_comparison G)) args -> Forall checked (omap isNonZeroCheck args).
Proof.
  induction 1 as [|l args Hl _ IH]; [constructor|]. cbn. destruct (isNonZeroCheck l) as [a|] eqn:Hc; [|done].
  destruct (check_ok l a Hl Hc) as (Hw & Ha & _). by constructor.
Qed.

Lemma lowerLogical_ok l b ts b' :
  normal_form (variable_comparison G) l -> builder_ok nm mid base b ->
  lowerLogical config fieldBandwidth bitwidths l b = Ok (ts, b') ->
  lowered (holds (row_env k m) l = true) b ts b'.
Proof.
  intros Hl Hb. revert l b ts b' Hl Hb. logical_ind.
  - intros args IH b ts b' Hl%normal_args Hb ([tss b1] & He & (sums & Hs & [= <- <-])%bind_ok)%bind_ok.
    destruct (each_lowered (lowerLogical config fieldBandwidth bitwidths) (fun l => holds (row_env k m) l = true) args b tss b1) as (Hb1 & Hext & Ht); [|done|exact He|].
    { rewrite Forall_forall in IH, Hl |- *. intros l Hin b2 ts b3 Hb2. apply IH; auto. }
    split; [done|]. split; [done|]. intros Htr Hrow. destruct (expresses_all _ _ _ (Ht Htr Hrow)) as (Ha & Hf & _).
    destruct (lowerConjunct_ok _ _ Ha Hs) as [Hsa Hsv]. split; [done|]. rewrite Hsv, Hf.
    change (holds (row_env k m) (Conjunct args)) with (forallb (holds (row_env k m)) args).
    rewrite forallb_forall, Forall_forall. by setoid_rewrite list_elem_of_In.
  - intros args IH b ts b' Hl%normal_args Hb ([tss b1] & He & ([cs b2] & Hc & [= <- <-])%bind_ok)%bind_ok.
    rewrite each_but_filter in He.
    destruct (each_lowered (lowerLogical config fieldBandwidth bitwidths) (fun l => holds (row_env k m) l = true)
      (List.filter (fun l => negb (is_check l)) args) b tss b1) as (Hb1 & Hext & Ht); [|done|exact He|].
    { rewrite Forall_forall in IH, Hl |- *. intros l [Hin _]%list_elem_of_In%filter_In b3 ts b4 Hb3. apply list_elem_of_In in Hin. apply IH; auto. }
    destruct (lowerChecks_ok _ _ _ _ Hb1 (checks_ok args Hl) Hc) as (Hb2 & Hext2 & Ht2).
    split; [done|]. split; [by eapply extends_trans|]. intros Htr Hrow.
    destruct (expresses_all _ _ _ (Ht (trusted_extends _ _ Hext2 Htr) Hrow)) as (Ha & _ & Hex). destruct (Ht2 Htr Hrow) as [Ha2 Hex2].
    destruct (disjunction_ok (tss ++ cs)) as [Hda Hdv]; [by apply Forall_app|]. split; [done|].
    by rewrite Hdv, Exists_app, Hex, Hex2, disjunct_holds.
  - intros x y _ _ b ts b' Hc Hb. by apply lowerEqualityTo_ok.
  - intros x y _ _ b ts b' Hc Hb. by apply lowerNonEqualityTo_ok.
Qed.

Lemma simplify_expresses (Q : Prop) ts ts' : expresses Q ts -> simplify ts = Ok ts' -> expresses Q ts'.
Proof.
  intros [Ha Hq] Hs%mapM_Forall2. unfold expresses. rewrite <-Hq. clear Hq.
  induction Hs as [|t t' ts ts' Ht _ IH]; [done|]. apply Forall_cons in Ha as [Hta Ha]. destruct (IH Ha) as [Ha' Hv'].
  destruct (simplify_air target_access k m t t' Hwf Hta Ht) as (Hta' & _ & Hd). split; [by constructor|].
  rewrite !Forall_cons, Hv', !vanish_eqm, Hd; [done|]. eapply Forall_impl; [by apply air_Forall|]. by intros a [Hda _].
Qed.

(** A logical term is lowered to terms that vanish when it holds. *)
Lemma lowerAndSimplify_ok l b ts b' :
  comparisons (comparable G) l -> builder_ok nm mid base b ->
  lowerAndSimplifyLogicalTo config fieldBandwidth bitwidths l b = Ok (ts, b') ->
  lowered (holds (row_env k m) l = true) b ts b'.
Proof.
  intros Hc Hb (l' & Hl & ([ts0 b1] & Hlow & (ts1 & Hs & [= <- <-])%bind_ok)%bind_ok)%bind_ok.
  destruct (prepare_ok G k m l l' Hwf) as [Hn <-]; [by intros a [_ Hd]%HG|done|done|].
  destruct (lowerLogical_ok _ _ _ _ Hn Hb Hlow) as (Hb1 & He & Ht). split; [done|]. split; [done|].
  intros Htr Hrow. by eapply simplify_expresses; [apply Ht|].
Qed.

(** On a row where the terms are all in the module *)
Lemma lowered_inrow Q ts : expresses Q ts -> Forall (fun t => Forall (inrow k) (accesses t)) ts.
Proof.
  intros [Ha _]. eapply Forall_impl; [exact Ha|]. intros t Ht. eapply Forall_impl; [by apply air_Forall|]. by intros a (_ & Hi & _).
Qed.

End Row.
