(* ===== verification/LowerSound.v ===== *)
(** * Soundness of the arithmetic level

    When the arithmetic constraints that a module is lowered to accept a trace, with
    its generated columns, the constraints of the module accept it. *)

From Stdlib Require Import ZArith Lia Znumtheory.
From stdpp Require Import base numbers list option strings gmap pretty.
From S2P Require Import Prelude BitSet FieldElement Interval Register SortedSet Iter Hash Element Invert Sexp Trace Term TermFacts TermReads TermRange Simplify Constraint ConstraintFacts Lookup LookupFacts Air Lower LowerTerms LowerNormal LowerGroups LowerNames LowerFacts.

Open Scope Z_scope.

Section Mono.
Context {F : Type} `{!Element F, !ElementLaws F}.
Implicit Types (l : Logical F) (x y e : Expr F).

(** The accesses of a term may be known to satisfy more. *)
Lemma comparisons_mono (P P' : Expr F -> Expr F -> Prop) (Q : Access.t -> Prop) l :
  (forall x y, P x y -> Forall Q (accesses x) -> Forall Q (accesses y) -> P' x y) ->
  comparisons P l -> Forall Q (accesses_logical l) -> comparisons P' l.
Proof.
  intros HP. revert l. logical_ind; cbn [comparisons]; cbn [accesses_logical]; fold (@accesses_logical F) (@accesses F).
  - intros args IH Ha%all_Forall Hf%Forall_flat_map_. apply all_Forall. rewrite Forall_forall in IH, Ha, Hf |- *. auto.
  - intros args IH Ha%all_Forall Hf%Forall_flat_map_. apply all_Forall. rewrite Forall_forall in IH, Ha, Hf |- *. auto.
  - intros x y _ _ Hxy [Hx Hy]%Forall_app. auto.
  - intros c t f Hc Ht Hf (HPc & HPt & HPf). rewrite !Forall_app. intros (Hac & Hat & Haf). destruct t, f; cbn in *; auto.
  - intros x y _ _ Hxy [Hx Hy]%Forall_app. auto.
Qed.

Lemma mir_mono (G Q : Access.t -> Prop) e :
  every (mir_node G) e -> Forall Q (accesses e) -> every (mir_node (fun a => G a /\ Q a)) e.
Proof.
  intros He Ha. destruct (every_accesses Q (mir_node G)) as [H _]. specialize (H e He Ha). revert H. apply every_impl.
  intros e' [(Hn & Hp & Hg) Hq]. split; [done|]. split; [done|]. destruct e'; try done; cbn in *.
  apply Forall_and; by split.
Qed.

End Mono.

Section Sound.
Context {F : Type} `{!Element F, !ElementLaws F, !Inversion F, !Hasher F}.
Implicit Types (l : Logical F) (b : Builder.t F) (q : Vanishing.Constraint (Logical F)).

Abbreviation p := (modulus (F := F)).
Context (Hodd : 2 < p).

(** The module in the trace and in the builder, and the configuration *)
Context (tr : list (ArrayModule F)) (sc : list ModuleView) (mid : nat) (m : ArrayModule F) (v : ModuleView).
Context (nm : ModuleName) (base : list Register.t) (Hbase : base_ok nm base).
Context (Hm : Module_ tr mid = Ok m) (Hv : slice_get sc mid = Ok v) (Hwf : module_wf m) (Hh : 0 <= height m < 2 ^ 62).
Context (config : OptimisationConfig) (fieldBandwidth : Z) (bitwidths : list Z).
Context (Hbits : length bitwidths = length base) (Hfield : 2 ^ fieldBandwidth <= p) (Hbw : 0 <= fieldBandwidth).
Context (Htyped : forall k, 0 <= k < height m -> typed_cells m bitwidths k).

(** An access of a source column, whose cells are within its mask *)
Definition column_access (a : Access.t) : Prop :=
  user base a /\ access_defined m a /\ forall k, 0 <= k < height m -> inrow m k a -> row_env k m a < 2 ^ Access.maskwidth a.

(** The rows of a constraint are in the module, with the cells it reads. *)
Definition rows_within q : Prop :=
  forall k, VanishingFacts.checked q m k -> 0 <= k < height m /\ Forall (inrow m k) (accesses_logical (Vanishing.Constraint_ q)).

Lemma global_rows q : Vanishing.Domain q = None -> rows_within q.
Proof using Hh.
  intros Hd k. clear - Hh Hd. unfold VanishingFacts.checked. rewrite Hd. cbn [test_bounds Logical_Testable].
  rewrite (proj2 Bounds_reach). unfold reach. cbn. intros [Hs He].
  destruct (TermProperties.furthest_spec (map Access.shift (accesses_logical (Vanishing.Constraint_ q)))) as [Hf _].
  destruct (TermProperties.furthest_spec (map (fun a => - Access.shift a) (accesses_logical (Vanishing.Constraint_ q)))) as [Hg _].
  pose proof (furthest_nonneg (map Access.shift (accesses_logical (Vanishing.Constraint_ q)))).
  pose proof (furthest_nonneg (map (fun a => - Access.shift a) (accesses_logical (Vanishing.Constraint_ q)))).
  split; [lia|]. rewrite Forall_map in Hf, Hg. rewrite Forall_forall in Hf, Hg |- *. intros a Ha.
  specialize (Hf a Ha). specialize (Hg a Ha). unfold inrow. cbn in *. lia.
Qed.

Lemma add_vanishing_ok q i ts b :
  builder_ok nm mid base b ->
  let b' := add_vanishing q i ts b in
  builder_ok nm mid base b' /\ extends b b' /\
  Forall (fun t => exists h, NewVanishingConstraint h (Vanishing.Context_ q) (Vanishing.Domain q) t ∈ Builder.constraints b') ts.
Proof.
  intros Hb. revert i b Hb. induction ts as [|t ts IH]; intros i b Hb; cbn [add_vanishing].
  { split; [done|]. split; [apply extends_refl|constructor]. }
  set (h := (Vanishing.Handle q +:+ "#" +:+ pretty i)%string). set (c := NewVanishingConstraint h _ _ t).
  destruct (AddConstraint_ok nm mid base Hbase b c Hb) as [Hb1 He1]. destruct (IH (S i) _ Hb1) as (Hb2 & He2 & Hts).
  split; [done|]. split; [by eapply extends_trans|]. constructor; [|done]. exists h. apply He2. cbn. set_solver.
Qed.

(** ** Vanishing constraints *)

Definition vanishing_ready q : Prop :=
  Vanishing.Context_ q = mid /\ VanishingFacts.sane q m /\ rows_within q /\ comparisons (comparable column_access) (Vanishing.Constraint_ q).

Definition vanishing_accepted q : Prop := exists cov, Vanishing.Accepts (E := Expr F) q tr sc = Ok (cov, None).

(** The accesses of a constraint on the rows that it is checked on *)
Definition checked_access q (a : Access.t) : Prop :=
  column_access a /\ forall k, VanishingFacts.checked q m k -> inrow m k a.

Lemma comparable_checked q :
  rows_within q -> comparisons (comparable column_access) (Vanishing.Constraint_ q) ->
  comparisons (comparable (checked_access q)) (Vanishing.Constraint_ q).
Proof.
  intros Hrows Hc. eapply (comparisons_mono _ _ (fun a => forall k, VanishingFacts.checked q m k -> inrow m k a)); [|exact Hc|].
  - intros x y (Hx & Hy & Hs & Hor) Hix Hiy. split; [by apply mir_mono|]. split; [by apply mir_mono|]. by split.
  - apply Forall_forall. intros a Ha k Hk. destruct (Hrows k Hk) as [_ Hin]. rewrite Forall_forall in Hin. by apply Hin.
Qed.

Lemma checked_access_ok q :
  (forall a, checked_access q a -> user base a /\ access_defined m a) /\ positional (checked_access q) /\
  (rows_within q -> forall k, VanishingFacts.checked q m k -> row_ok m base bitwidths k (checked_access q)).
Proof.
  split; [|split].
  - intros a ((Hu & Hd & _) & _). by split.
  - intros reg bw bw' mw s H. exact H.
  - intros Hrows k Hk. destruct (Hrows k Hk) as [Hr _]. split; [done|]. split; [by apply Htyped|].
    intros a ((Hu & Hd & Hm') & Hi). split; [done|]. split; [done|]. split; [by apply Hi|]. apply Hm'; [done|by apply Hi].
Qed.

Lemma vanishing_sound q b b' :
  vanishing_ready q -> builder_ok nm mid base b ->
  lowerVanishingConstraintToAir config fieldBandwidth bitwidths q b = Ok b' ->
  builder_ok nm mid base b' /\ extends b b' /\ (trusted tr sc m b' -> vanishing_accepted q).
Proof.
  intros (Hctx & Hsane & Hrows & Hc) Hb ([ts b1] & Hlow & [= <-])%bind_ok.
  destruct (checked_access_ok q) as (HG & Hpos & Hrow).
  assert (Hall : forall k, lowered tr sc mid m nm base bitwidths k (checked_access q) (holds (row_env k m) (Vanishing.Constraint_ q) = true) b ts b1).
  { intros k. eapply (lowerAndSimplify_ok Hodd tr sc mid m v); try done. by apply comparable_checked. }
  destruct (Hall 0) as (Hb1 & He1 & _). destruct (add_vanishing_ok q 0 ts b1 Hb1) as (Hb2 & He2 & Hts).
  split; [done|]. split; [by eapply extends_trans|]. intros Htr.
  apply (VanishingFacts.Accepts_none q tr sc m v); [by rewrite Hctx|by rewrite Hctx|done|]. intros k Hk.
  destruct (Hall k) as (_ & _ & Ht). destruct (Ht ltac:(by eapply trusted_extends) (Hrow Hrows k Hk)) as [Hair Hvan].
  destruct (Hrows k Hk) as [Hk' _].
  assert (Hholds : holds (row_env k m) (Vanishing.Constraint_ q) = true).
  { apply Hvan. rewrite Forall_forall in Hts, Hair |- *. intros t Hin. destruct (Hts t Hin) as [h Hh']. destruct Htr as [Hacc _].
    specialize (Hacc _ Hh'). rewrite Hctx in Hacc.
    eapply (enforced tr sc mid m v Hm Hv Hwf Hh); [by apply Hair|exact Hacc| |done|].
    - unfold on_row. destruct Hsane as (_ & _ & _ & Hdom). unfold VanishingFacts.checked in Hk. by destruct (Vanishing.Domain q).
    - eapply Forall_impl; [by eapply air_Forall, Hair|]. by intros a (_ & Hi & _). }
  cbn [test_at Logical_Testable fst]. rewrite (mir_test (checked_access q)); [by rewrite Hholds|done|by intros a [_ Hd]%HG|].
  by apply comparable_mir, comparable_checked.
Qed.

(** ** The other constraints *)

Lemma lowerRegisterAccesses_id (l l' : list Access.t) : lowerRegisterAccesses l = Ok l' -> l' = l.
Proof. intros H%mapM_Forall2. induction H as [|a a' l l' Ha _ ->]; [done|]. by rewrite (lower_register _ _ Ha). Qed.

Lemma expandLookupVector_id vec vec' : expandLookupVectorToAir vec = Ok vec' -> vec' = vec.
Proof.
  destruct vec as [mod_ [s|] ts]; intros (ts' & ->%lowerRegisterAccesses_id & H)%bind_ok; cbn in H; [|by injection H as <-].
  by apply bind_ok in H as (s' & ->%lower_register & [= <-]).
Qed.

Lemma expandLookupVectors_id vecs vecs' : mapM expandLookupVectorToAir vecs = Ok vecs' -> vecs' = vecs.
Proof. intros H%mapM_Forall2. induction H as [|x x' l l' Hx _ ->]; [done|]. by rewrite (expandLookupVector_id _ _ Hx). Qed.

(** Lookups and permutations are the same constraints at both levels. *)
Lemma lowerLookup_id c b b' : lowerLookupConstraintToAir c b = Ok b' -> b' = Builder.AddConstraint b (AirLookup c).
Proof.
  intros (ss & ->%expandLookupVectors_id & (ts & ->%expandLookupVectors_id & (c' & Hc & [= <-])%bind_ok)%bind_ok)%bind_ok.
  apply bind_ok in Hc as (c0 & (w & _ & (u & _ & [= <-])%bind_ok)%bind_ok & [= <-]). by destruct c.
Qed.

Lemma lowerPermutation_id c b b' : lowerPermutationConstraintToAir c b = Ok b' -> b' = Builder.AddConstraint b (AirPermutation c).
Proof.
  intros (c' & (c0 & Hc & [= <-])%bind_ok & [= <-])%bind_ok. unfold Permutation.NewConstraint in Hc.
  destruct (negb _); [done|]. injection Hc as <-. by destruct c.
Qed.

(** *** Interleavings *)

(** Two vectors of columns with the same values *)
Definition same_limb k (m1 : ArrayModule F) k' (m2 : ArrayModule F) (a a' : Access.t) : Prop :=
  exists x, access_at k m1 a = Ok x /\ access_at k' m2 a' = Ok x /\ element_ok x /\ Access.maskwidth a' = Access.maskwidth a /\ access_wf a.

Lemma same_limbs_args k m1 k' m2 vars vars' acc sh :
  Forall2 (same_limb k m1 k' m2) vars vars' -> element_ok acc -> 0 <= sh ->
  exists y, vector_args k m1 vars acc sh = Ok y /\ vector_args k' m2 vars' acc sh = Ok y /\ element_ok y.
Proof.
  intros H. revert acc sh. induction H as [|a a' vars vars' (x & Hx & Hx' & Hxo & Hw & Ha) _ IH]; intros acc sh Hacc Hsh; [by exists acc|].
  cbn [vector_args]. rewrite Hx, Hx', Hw. cbn [mbind result_bind]. apply IH; [|apply u64_bound].
  apply add_law; [done|]. apply mul_law; [done|]. by apply TwoPowN_law.
Qed.

Lemma same_limbs k m1 k' m2 vars vars' :
  vars <> [] -> Forall2 (same_limb k m1 k' m2) vars vars' ->
  exists y, vector_at k m1 vars = Ok y /\ vector_at k' m2 vars' = Ok y /\ element_ok y.
Proof.
  intros Hne H. destruct H as [|a a' vars vars' (x & Hx & Hx' & Hxo & Hw & Ha) H]; [done|].
  cbn [vector_at]. rewrite Hx, Hx', Hw. by apply same_limbs_args.
Qed.

Abbreviation Vectors := (Interleaving.Constraint (list Access.t)).
Implicit Types (c : Vectors).

(** The constraint on the [j]th limbs *)
Definition limb_constraint c (j : nat) (t : Access.t) (ss : list Access.t) : AirConstraint F :=
  NewInterleavingConstraint (Interleaving.Handle c) (Interleaving.TargetContext c) (Interleaving.SourceContext c) t ss.

Lemma lower_interleavings_ok n i c b b' :
  builder_ok nm mid base b -> lower_interleavings n i c b = Ok b' ->
  builder_ok nm mid base b' /\ extends b b' /\
  forall j, (i <= j < i + n)%nat -> exists t ss, Interleaving.Target c !! j = Some t /\
    Forall2 (fun src s => src !! j = Some s) (Interleaving.Sources c) ss /\ limb_constraint c j t ss ∈ Builder.constraints b'.
Proof.
  revert i b. induction n as [|n IH]; intros i b Hb; cbn [lower_interleavings].
  { intros [= <-]. split; [done|]. split; [apply extends_refl|]. lia. }
  intros (t & Ht%slice_get_ok & (ss & Hss%mapM_Forall2 & (t' & ->%lower_register & H)%bind_ok)%bind_ok)%bind_ok.
  destruct (AddConstraint_ok nm mid base Hbase b (limb_constraint c i t ss) Hb) as [Hb1 He1].
  destruct (IH (S i) _ Hb1 H) as (Hb2 & He2 & Hj). split; [done|]. split; [by eapply extends_trans|].
  intros j Hij. destruct (decide (j = i)) as [->|]; [|apply Hj; lia]. exists t, ss. split; [done|]. split.
  - eapply Forall2_impl; [exact Hss|]. by intros src s (a & Ha%slice_get_ok & ->%lower_register)%bind_ok.
  - apply He2. cbn. set_solver.
Qed.

Definition interleaving_ready c : Prop :=
  Interleaving.Target c <> [] /\ Forall access_wf (Interleaving.Target c) /\
  Forall (fun src => map Access.maskwidth src = map Access.maskwidth (Interleaving.Target c)) (Interleaving.Sources c) /\
  exists mt ms vt vs, Module_ tr (Interleaving.TargetContext c) = Ok mt /\ Module_ tr (Interleaving.SourceContext c) = Ok ms /\
    slice_get sc (Interleaving.TargetContext c) = Ok vt /\ slice_get sc (Interleaving.SourceContext c) = Ok vs /\
    module_wf mt /\ module_wf ms /\ 0 <= height mt < 2 ^ 63.

Definition interleaving_accepted c : Prop :=
  exists cov, Interleaving.Accepts (E := list Access.t) (T := Logical F) c tr sc = Ok (cov, None).

Lemma interleaving_sound c b b' :
  interleaving_ready c -> builder_ok nm mid base b -> lowerInterleavingConstraintToAir c b = Ok b' ->
  builder_ok nm mid base b' /\ extends b b' /\ (trusted tr sc m b' -> interleaving_accepted c).
Proof.
  intros (Hne & Hwfs & Hwidths & mt & ms & vt & vs & Hmt & Hms & Hvt & Hvs & Hwt & Hws & Hht) Hb H.
  destruct (lower_interleavings_ok _ _ _ _ _ Hb H) as (Hb' & He & Hlimbs). split; [done|]. split; [done|]. intros [Hacc _].
  apply (InterleavingFacts.interleaving_none c tr sc mt ms vt vs); [done..|]. intros r Hr.
  apply InterleavingFacts.interleaving_check_none. set (n := Z.of_nat (length (Interleaving.Sources c))).
  (* the limbs of the row *)
  assert (Hrow : forall j, (j < length (Interleaving.Target c))%nat -> exists src t s x,
    Interleaving.Sources c !! Z.to_nat (r mod n) = Some src /\ Interleaving.Target c !! j = Some t /\ src !! j = Some s /\
    access_at r mt t = Ok x /\ access_at (r / n) ms s = Ok x /\ element_ok x).
  { intros j Hj. destruct (Hlimbs j) as (t & ss & Ht & Hss & Hin); [lia|]. specialize (Hacc _ Hin).
    apply (InterleavingFacts.interleaving_none (E := Access.t) (Interleaving.NewConstraint _ _ _ t ss) tr sc mt ms vt vs) with (r := r) in Hacc; [|done..].
    apply InterleavingFacts.interleaving_check_none in Hacc as (s & x & y & Hs & Hx & Hy & Hc). cbn in Hs, Hx, Hy.
    rewrite <-(Forall2_length _ _ _ Hss) in Hs, Hy. fold n in Hs, Hy.
    destruct (Forall2_lookup_r _ _ _ _ _ Hss Hs) as (src & Hsrc & Hsj).
    pose proof (access_at_wf _ _ _ _ Hwt Hx) as Hxo. pose proof (access_at_wf _ _ _ _ Hws Hy) as Hyo.
    apply (cmp_eq _ _ Hxo Hyo) in Hc as <-. by exists src, t, s, x. }
  destruct (Hrow 0%nat) as (src & _ & _ & _ & Hsrc & _); [destruct (Interleaving.Target c); [done|cbn; lia]|].
  assert (Hmask : map Access.maskwidth src = map Access.maskwidth (Interleaving.Target c)) by (by rewrite Forall_forall in Hwidths; apply Hwidths; eapply list_elem_of_lookup_2).
  destruct (same_limbs r mt (r / n) ms (Interleaving.Target c) src Hne) as (y & Hy & Hy' & Hyo).
  - apply Forall2_same_length_lookup. split; [apply (f_equal length) in Hmask; by rewrite !length_map in Hmask|].
    intros j t s Ht Hs. destruct (Hrow j) as (src' & t' & s' & x & Hsrc' & Ht' & Hs' & Hx & Hx' & Hxo); [by eapply lookup_lt_Some|].
    simplify_eq. exists x. split; [done|]. split; [done|]. split; [done|].
    apply (f_equal (fun ws => ws !! j)) in Hmask. rewrite !list_lookup_fmap, Ht, Hs in Hmask. injection Hmask as Hmask.
    split; [done|]. by eapply Forall_lookup_1.
  - exists src, y, y. split; [done|]. split; [done|]. split; [done|]. by apply cmp_eq.
Qed.

(** ** Modules *)

Definition ready (c : MirConstraint (F := F)) : Prop :=
  match c with
  | MirInterleaving c => interleaving_ready c
  | MirVanishing q => vanishing_ready q
  | MirLookup _ | MirPermutation _ => True
  end.

(** A constraint accepts the trace.  The failures of lookups and permutations have no
    terms, so their types are of no matter. *)
Definition mir_accepted (c : MirConstraint (F := F)) : Prop :=
  match c with
  | MirInterleaving c => interleaving_accepted c
  | MirLookup c => exists cov, Lookup.Accepts (E := Access.t) (T := LogicalTerm F) c tr sc = Ok (cov, None)
  | MirPermutation c => exists cov, Permutation.Accepts (E := Access.t) (T := LogicalTerm F) c tr sc = Ok (cov, None)
  | MirVanishing q => vanishing_accepted q
  end.

Lemma constraint_sound mc b b' :
  ready mc -> builder_ok nm mid base b -> lowerConstraintToAir config fieldBandwidth bitwidths mc b = Ok b' ->
  builder_ok nm mid base b' /\ extends b b' /\ (trusted tr sc m b' -> mir_accepted mc).
Proof.
  assert (Hadd : forall a, builder_ok nm mid base b -> builder_ok nm mid base (Builder.AddConstraint b a) /\ extends b (Builder.AddConstraint b a) /\
    (trusted tr sc m (Builder.AddConstraint b a) -> accepted tr sc a)).
  { intros a Hb. destruct (AddConstraint_ok nm mid base Hbase b a Hb) as [Hb1 He]. split; [done|]. split; [done|].
    intros [Hacc _]. apply Hacc. cbn. set_solver. }
  destruct mc as [c|c|c|q]; cbn [ready lowerConstraintToAir mir_accepted]; intros Hr Hb H.
  - by apply interleaving_sound.
  - apply lowerLookup_id in H as ->. by apply (Hadd (AirLookup c)).
  - apply lowerPermutation_id in H as ->. by apply (Hadd (AirPermutation c)).
  - by apply vanishing_sound.
Qed.

Lemma constraints_sound cs b b' :
  Forall ready cs -> builder_ok nm mid base b -> lowerConstraints config fieldBandwidth bitwidths cs b = Ok b' ->
  builder_ok nm mid base b' /\ extends b b' /\ (trusted tr sc m b' -> Forall mir_accepted cs).
Proof.
  intros Hr. revert b. induction Hr as [|c cs Hc _ IH]; intros b Hb; cbn [lowerConstraints].
  { intros [= <-]. split; [done|]. split; [apply extends_refl|done]. }
  intros (b1 & H1 & H2)%bind_ok. destruct (constraint_sound c b b1 Hc Hb H1) as (Hb1 & He1 & Ht1).
  destruct (IH b1 Hb1 H2) as (Hb2 & He2 & Ht2). split; [done|]. split; [by eapply extends_trans|].
  intros Htr. constructor; [|by apply Ht2]. apply Ht1. by eapply trusted_extends.
Qed.

(** The builder of a module starts with its registers. *)
Lemma NewRegisters_ok regs b ids b' :
  Builder.NewRegisters b regs = Ok (ids, b') ->
  (forall n i, Builder.regmap b !! n = Some i -> exists rg, Builder.registers b !! i = Some rg /\ Register.name rg = n) ->
  Builder.name b' = Builder.name b /\ Builder.moduleId b' = Builder.moduleId b /\ Builder.registers b' = Builder.registers b ++ regs /\
  Builder.constraints b' = Builder.constraints b /\
  forall n i, Builder.regmap b' !! n = Some i -> exists rg, Builder.registers b' !! i = Some rg /\ Register.name rg = n.
Proof.
  revert b ids. induction regs as [|r regs IH]; intros b ids; cbn [Builder.NewRegisters].
  { intros [= <- <-] Hmap. by rewrite app_nil_r. }
  intros ([id b1] & H1 & ([ids' b2] & H2 & [= <- <-])%bind_ok)%bind_ok Hmap. unfold Builder.NewRegister in H1.
  destruct (Builder.regmap b !! Register.name r); [done|]. injection H1 as <- <-.
  destruct (IH _ _ H2) as (Hn & Hi & Hrs & Hcs & Hmap'); cbn [Builder.regmap Builder.registers Builder.name Builder.moduleId Builder.constraints] in *.
  - intros n i Hl. apply lookup_insert_Some in Hl as [[<- <-]|[_ Hl]].
    + exists r. by rewrite lookup_app_r, Nat.sub_diag by done.
    + destruct (Hmap n i Hl) as (rg & Hrg & Hname). exists rg. split; [|done]. by apply lookup_app_l_Some.
  - split; [done|]. split; [done|]. split; [by rewrite Hrs, <-app_assoc|]. by split.
Qed.

Lemma NewModule_ok pad pub syn sta nat_ keys ids b :
  Builder.NewRegisters (Builder.NewModuleBuilder nm mid pad pub syn sta nat_ keys) base = Ok (ids, b) -> builder_ok nm mid base b.
Proof.
  intros H. destruct (NewRegisters_ok _ _ _ _ H) as (Hn & Hi & Hrs & Hcs & Hmap); [done|]. cbn in *. split; [done|done|by rewrite Hrs|].
  intros n i (rg & Hrg & Hname)%Hmap. exists rg. split; [done|]. split; [done|]. left. rewrite Hrs in Hrg. by eapply lookup_lt_Some.
Qed.

End Sound.

(** ** Generated columns *)

Section Generated.
Context {F : Type} `{!Element F, !ElementLaws F, !Inversion F, !InversionLaws F, !Hasher F}.
Implicit Types (e : Expr F) (m : ArrayModule F).

Abbreviation p := (modulus (F := F)).

Lemma evaluate_rows_ok n i e m vs :
  evaluate_rows n i e m = Ok vs -> length vs = n /\ forall j x, vs !! j = Some x -> EvalAt (i + Z.of_nat j) m e = Ok x.
Proof.
  revert i vs. induction n as [|n IH]; intros i vs; cbn [evaluate_rows]; [by intros [= <-]|].
  intros (x & Hx & (xs & Hxs & [= <-])%bind_ok)%bind_ok. destruct (IH _ _ Hxs) as [Hl Hv]. split; [cbn; lia|].
  intros [|j] y; cbn; [intros [= <-]; by rewrite Z.add_0_r|]. intros Hy. rewrite <-(Hv j y Hy). f_equal. lia.
Qed.

(** A value and its inverse satisfy the constraint on the inverses. *)
Lemma inverse_satisfies (x : F) z : denotes x z -> eqm p (z * (1 - z * val (e_Inverse x))) 0.
Proof.
  intros [Hx Hz]. rewrite <-Hz. destruct (Z.eq_dec (val x) 0) as [->|Hne]; [by rewrite Z.mul_0_l|].
  rewrite (inverse_nonzero x Hx Hne). by rewrite Z.sub_diag, Z.mul_0_r.
Qed.

Lemma inverse_cell m i col d r x :
  columns m !! i = Some col -> data col = Some d -> d !! Z.to_nat r = Some x -> 0 <= r ->
  row_env r m (inverse_access i) = val x.
Proof.
  intros Hc Hd Hx Hr. unfold row_env, access_at, Column. cbn [inverse_access Access.register Access.shift Access.FieldAccess Unwrap mbind result_bind].
  rewrite (proj2 (slice_get_ok _ _ _) Hc). cbn [mbind result_bind]. rewrite Z.add_0_r. rewrite (Get_filled _ _ _ Hd). unfold at_row.
  rewrite Hx. destruct (Z.ltb_spec r 0); [lia|done].
Qed.

End Generated.

(** ** Properties *)

Module LowerProperties.

Section Properties.
Context {F : Type} `{!Element F, !ElementLaws F, !Inversion F, !Hasher F}.
Implicit Types (l : Logical F) (b : Builder.t F) (q : Vanishing.Constraint (Logical F)).

(** A module of a trace, with the registers that it was declared with and their
    widths by its range constraints *)
Record module_ready (tr : list (ArrayModule F)) (sc : list ModuleView) (mid : nat) (m : ArrayModule F) (nm : ModuleName)
    (base : list Register.t) (fieldBandwidth : Z) (bitwidths : list Z) : Prop := {
  mr_odd : 2 < modulus (F := F);
  mr_names : base_ok nm base;
  mr_module : Module_ tr mid = Ok m;
  mr_view : exists v, slice_get sc mid = Ok v;
  mr_wf : module_wf m;
  mr_height : 0 <= height m < 2 ^ 62;
  mr_bits : length bitwidths = length base;
  mr_field : 0 <= fieldBandwidth /\ 2 ^ fieldBandwidth <= modulus (F := F);
  mr_typed k : 0 <= k < height m -> typed_cells m bitwidths k
}.

(** C1: When the arithmetic constraints that the constraints of a module are lowered to
    accept a trace which has the generated columns, the constraints of the module
    accept it.  This is for odd primes of at least [2 ^ bandwidth] values, and for a
    module ([module_ready]) of fewer than [2 ^ 62] rows whose register names are
    different atoms and whose cells are within the widths of their range constraints;
    and for constraints ([ready]) as follows.  The sources and the target of an
    interleaving have limbs of the same widths.  The terms of a vanishing constraint
    are well formed and polynomial (sums, differences, products, constants,
    registers, vectors of registers), on the rows that are checked they access existing
    registers of the module, inside it, whose cells are within the declared masks, and
    simplification loses no constant of them: in each difference ([node_ok]) the
    minuend does not become a constant or at most one constant surfaces in the
    subtrahends; and in each comparison ([comparable]) one side does not become a
    constant or both are constants, at most one constant surfaces on the left, and
    the left does not become a constant or at most one surfaces on the right.  Without
    the last condition the claim is false: the lowering of [10 - 3 - (X + 4) = 0] is
    [7 - X = 0] ([lowering_loses_constant]). *)
Theorem lowering_sound tr sc mid m nm base config fieldBandwidth bitwidths pad pub syn sta nat_ keys ids b0 (cs : list MirConstraint) b :
  module_ready tr sc mid m nm base fieldBandwidth bitwidths ->
  Builder.NewRegisters (Builder.NewModuleBuilder nm mid pad pub syn sta nat_ keys) base = Ok (ids, b0) ->
  lowerConstraints config fieldBandwidth bitwidths cs b0 = Ok b ->
  Forall (ready tr sc mid m base) cs ->
  trusted tr sc m b -> Forall (mir_accepted tr sc) cs.
Proof.
  intros [Hodd Hbase Hm [v Hv] Hwf Hh Hbits [Hbw Hfield] Htyped] Hb0 Hlow Hready.
  apply NewModule_ok in Hb0.
  by destruct (constraints_sound Hodd tr sc mid m v nm base Hbase Hm Hv Hwf Hh config fieldBandwidth bitwidths Hbits Hfield Hbw Htyped
    cs b0 b Hready Hb0 Hlow) as (_ & _ & H).
Qed.

(** C2: On a row of a trace which has the generated columns, and which their
    constraints accept, the terms that a logical term is lowered to all vanish exactly
    when the logical term holds.  As above the prime is odd and has at least
    [2 ^ bandwidth] values, the module is ready, the accesses of the term are of existing registers of the module,
    inside it, whose cells on this row are within their masks and the widths of their
    range constraints ([row_ok]), and the comparisons of the term are of well
    formed polynomial terms and [comparable], so that simplification loses no
    constant; [10 - 3 - (X + 4) = 0] is not ([lowering_loses_constant]). *)
Theorem lowering_row tr sc mid m nm base config fieldBandwidth bitwidths (G : Access.t -> Prop) k l b ts b' :
  module_ready tr sc mid m nm base fieldBandwidth bitwidths ->
  (forall a, G a -> user base a /\ access_defined m a) -> positional G -> row_ok m base bitwidths k G ->
  comparisons (comparable G) l -> builder_ok nm mid base b ->
  lowerAndSimplifyLogicalTo config fieldBandwidth bitwidths l b = Ok (ts, b') -> trusted tr sc m b' ->
  Forall (fun t => LogicalTerm_TestAt k m (mkLogical t) = Ok true) ts <-> TestAt k m l = Ok true.
Proof.
  intros [Hodd Hbase Hm [v Hv] Hwf Hh Hbits [Hbw Hfield] Htyped] HG Hpos Hrow Hc Hb Hlow Htr.
  destruct (lowerAndSimplify_ok Hodd tr sc mid m v nm base Hbase Hm Hv Hwf Hh config fieldBandwidth bitwidths Hbits Hfield Hbw
    k G HG Hpos l b ts b' Hc Hb Hlow) as (_ & _ & Ht).
  destruct (Ht Htr Hrow) as [Hair Hvan].
  rewrite (mir_test G k m l Hwf) by (by apply comparable_mir || by intros a [_ Hd]%HG).
  transitivity (Forall (vanish m k) ts).
  - assert (Hkey : forall t, t ∈ ts -> LogicalTerm_TestAt k m (mkLogical t) = Ok true <-> vanish m k t).
    { intros t Hin. rewrite Forall_forall in Hair. eapply vanish_test; [exact Hwf|exact Hh|by apply Hair|].
      eapply Forall_impl; [by eapply air_Forall, Hair|]. by intros a [Hd _]. }
    rewrite !Forall_forall. split; intros H t Hin; apply (Hkey t Hin), H, Hin.
  - rewrite Hvan. split; [by intros ->|by intros [= ->]].
Qed.

(** C3: The column that the assignment of a module computes for a generated column
    satisfies the constraint that the column comes with. *)
Theorem inverse_column `{!InversionLaws F} tr sc mid m v h e i col d :
  2 < modulus (F := F) -> Module_ tr mid = Ok m -> slice_get sc mid = Ok v -> module_wf m -> 0 <= height m < 2 ^ 62 ->
  air (access_defined m) e -> columns m !! i = Some col -> data col = Some d ->
  Compute_inverse (NewPseudoInverse (NewColumnRef mid i) e) tr = Ok d ->
  accepted tr sc (inverse_constraint h mid e i).
Proof.
  intros Hodd Hm Hv Hwf Hh He Hcol Hd Hcomp. unfold Compute_inverse in Hcomp. cbn [Target Expr_ Term.mid] in Hcomp. rewrite Hm in Hcomp.
  cbn [mbind result_bind] in Hcomp. apply bind_ok in Hcomp as (vs & Hvs & Hinv).
  destruct (evaluate_rows_ok _ _ _ _ _ Hvs) as [Hlen Hval].
  assert (Hvok : Forall element_ok vs).
  { apply Forall_lookup. intros j x Hj. destruct (eval_denotes (0 + Z.of_nat j) m Hwf) as [Hden _].
    apply (Hden e x (air_wf _ _ He)). by apply Hval. }
  rewrite (BatchInvert_spec vs Hvok) in Hinv. injection Hinv as Hinv.
  assert (Hair : air (access_defined m) (inverse_term e i)) by (apply air_inverse; [done|by exists i, col; rewrite Hd]).
  set (q := Vanishing.NewConstraint (h +:+ " <=")%string mid None (mkLogical (inverse_term e i))).
  assert (Hpos : 0 <= Bounds.Start (Bounds_of (inverse_term e i)) /\ 0 <= Bounds.End (Bounds_of (inverse_term e i))).
  { rewrite (proj1 Bounds_reach). cbn. split; apply furthest_nonneg. }
  apply (VanishingFacts.Accepts_none (E := Access.t) q tr sc m v); [done|done|unfold VanishingFacts.sane; cbn; lia|].
  intros k Hk. assert (Hk' : 0 <= k < height m) by (unfold VanishingFacts.checked in Hk; cbn in Hk; lia).
  cbn [test_at LogicalTerm_Testable fst]. apply (vanish_test m Hwf Hh (access_defined m)); [done|by apply (air_Forall _ _ Hair)|].
  destruct (lookup_lt_is_Some_2 vs (Z.to_nat k)) as [x Hx]; [lia|].
  assert (Hxd : denotes x (denote (row_env k m) e)).
  { destruct (eval_denotes k m Hwf) as [Hden _]. apply Hden; [by eapply air_wf|]. rewrite <-(Hval _ _ Hx). f_equal. lia. }
  apply vanish_eqm. rewrite (inverse_value m (access_defined m)) by (done || by exists i, col; rewrite Hd).
  rewrite (inverse_cell m i col d k (e_Inverse x) Hcol Hd); [by apply inverse_satisfies| |lia].
  rewrite <-Hinv, list_lookup_fmap, Hx. done.
Qed.

End Properties.

(** *** A sample module

    On the columns of [sample_module]: [X != Y], and if [Y[+1] == 9] then [X != 0] else
    [X[+1] == 3].  Three columns of inverses are generated. *)

Import TermProperties ConstraintProperties.

Definition sample_registers : list Register.t := [Register.NewInput "X" 8 0; Register.NewInput "Y" 8 0].

Definition x_or_y : Vanishing.Constraint (Logical G) :=
  Vanishing.NewConstraint "d" 0 None
    (Ite (Equal (RegisterAccess (Y 1)) (Const64 9)) (Some (NotEqual (RegisterAccess (X 0)) (Const64 0)))
      (Some (Equal (RegisterAccess (X 1)) (Const64 3)))).

Definition sample_constraints : list (MirConstraint (F := G)) := [MirVanishing x_is_not_y; MirVanishing x_or_y].

Definition sample_start : result (list nat * Builder.t G) :=
  Builder.NewRegisters (Builder.NewModuleBuilder (mkName "m" 1) 0 true false false false false 0) sample_registers.

Definition empty_builder : Builder.t G := Builder.NewModuleBuilder (mkName "m" 1) 0 true false false false false 0.

Definition sample_initial : Builder.t G := match sample_start with Ok (_, b) => b | Fault _ => empty_builder end.

Definition sample_lowered : Builder.t G :=
  match lowerConstraints DEFAULT_OPTIMISATION_LEVEL 7 [5; MaxUint] sample_constraints sample_initial with
  | Ok b => b | Fault _ => empty_builder end.

(** The trace, with the columns that the assignments of the module fill *)
Definition inverse_columns : list (ArrayColumn G) :=
  map (fun a => NewArrayColumn "" (match Compute_inverse a sample_trace with Ok d => Some d | Fault _ => None end) (el 0))
    (Builder.assignments sample_lowered).

Definition filled_module : ArrayModule G := mkModule (mkName "m" 1) 3 0 (columns sample_module ++ inverse_columns).
Definition filled_trace : list (ArrayModule G) := [filled_module].

Definition accepting {A B} (r : result (A * option B)) : bool := match r with Ok (_, None) => true | _ => false end.

Lemma accepting_spec {A B} (r : result (A * option B)) : accepting r = true -> exists cov, r = Ok (cov, None).
Proof. destruct r as [[cov [f|]]|]; [discriminate|by exists cov|discriminate]. Qed.

Definition accepts (c : AirConstraint G) : bool := accepting (Air.Accepts c filled_trace sample_schema).

Definition is_filled (i : nat) : bool :=
  match columns filled_module !! i with Some c => match data c with Some _ => true | None => false end | None => false end.

Lemma is_filled_spec i : is_filled i = true -> column_filled filled_module i.
Proof.
  unfold is_filled, column_filled. generalize (columns filled_module !! i). intros [c|] H; [|discriminate]. exists c.
  split; [done|]. destruct (data c); [discriminate|exact (fun _ => diff_false_true H)].
Qed.

Lemma sample_accepted : forallb accepts (Builder.constraints sample_lowered) = true.
Proof. vm_compute. reflexivity. Qed.

Lemma sample_filled : forallb is_filled (seq 0 (length (Builder.registers sample_lowered))) = true.
Proof. vm_compute. reflexivity. Qed.

Lemma forallb_seq (f : nat -> bool) n : forallb f (seq 0 n) = true -> forall i, (i < n)%nat -> f i = true.
Proof. rewrite forallb_forall. intros H i Hi. apply H, in_seq. lia. Qed.

Lemma sample_trusted : trusted filled_trace sample_schema filled_module sample_lowered.
Proof.
  split.
  - intros c Hc. apply accepting_spec. exact (proj1 (forallb_forall accepts _) sample_accepted c (proj1 (list_elem_of_In _ _) Hc)).
  - intros i Hi. apply is_filled_spec. exact (forallb_seq _ _ sample_filled i Hi).
Qed.

(** Numbers are printed with digits. *)
Definition digit (c : Ascii.ascii) : bool :=
  (Ascii.nat_of_ascii c =? 45)%nat || ((48 <=? Ascii.nat_of_ascii c)%nat && (Ascii.nat_of_ascii c <=? 57)%nat).

Fixpoint numeric (s : string) : bool :=
  match s with EmptyString => true | String c s => digit c && numeric s end.

Lemma pretty_char_digit n : digit (pretty_N_char n) = true.
Proof. unfold pretty_N_char. repeat case_match; reflexivity. Qed.

Lemma pretty_N_numeric x acc : numeric acc = true -> numeric (pretty_N_go x acc) = true.
Proof.
  revert acc. induction (N.lt_wf_0 x) as [x _ IH]. intros acc Hacc.
  destruct (decide (x = 0%N)) as [->|Hne]; [by rewrite pretty_N_go_0|].
  rewrite pretty_N_go_step by lia. apply IH; [apply N.div_lt; lia|]. cbn [numeric]. by rewrite Hacc, pretty_char_digit.
Qed.

Lemma pretty_Z_numeric (x : Z) : numeric (pretty x) = true.
Proof.
  assert (HN : forall n : N, numeric (pretty n) = true).
  { intros n. unfold pretty, pretty_N. case_decide; [done|]. by apply pretty_N_numeric. }
  unfold pretty, pretty_Z. destruct x as [|x|x]; [done|apply HN|]. cbn. apply (HN (N.pos x)).
Qed.

Lemma sample_names : base_ok (mkName "m" 1) sample_registers.
Proof.
  split.
  - intros r Hr. assert (Hz : forall s, numeric s = false -> forall z : Z, s <> pretty z) by (intros s Hs z ->; by rewrite pretty_Z_numeric in Hs).
    apply elem_of_cons in Hr as [->|[->|Hr%elem_of_nil]%elem_of_cons]; [..|done]; (split; [done|]); (split; [done|]); by apply Hz.
  - intros [|[|i]] [|[|j]] r r'; cbn; intros; simplify_eq; done.
Qed.

Lemma inverse_columns_eq : inverse_columns =
  [NewArrayColumn "" (Some [el 67; el 207; el 137]) (el 0); NewArrayColumn "" (Some [el 188; el 80; el 0]) (el 0); NewArrayColumn "" (Some [el 113; el 84; el 113]) (el 0)].
Proof. vm_compute. reflexivity. Qed.

Lemma filled_wf : module_wf filled_module.
Proof.
  apply Forall_app. split; [apply sample_module_wf|]. rewrite inverse_columns_eq.
  repeat constructor; try (apply el_ok; lia); intros d [= <-]; repeat constructor; apply el_ok; lia.
Qed.

Lemma sample_access s : column_access filled_module sample_registers (X s) /\ column_access filled_module sample_registers (Y s).
Proof.
  assert (Hlt : forall k a, row_env k filled_module a < 256).
  { intros k a. unfold row_env. destruct (access_at k filled_module a) as [x|] eqn:Hx; [|lia].
    pose proof (val_range x (access_at_wf _ _ _ _ filled_wf Hx)) as Hr. change (modulus (F := G)) with 251 in Hr. lia. }
  split; (split; [eexists; split; [reflexivity|cbn; lia]|]); (split; [eexists _, _; done|]); intros k _ _; apply Hlt.
Qed.

Lemma sample_mir :
  (forall s, every (mir_node (column_access filled_module sample_registers)) (RegisterAccess (F := G) (X s))) /\
  (forall s, every (mir_node (column_access filled_module sample_registers)) (RegisterAccess (F := G) (Y s))) /\
  (forall z, 0 <= z < 2 ^ 32 -> every (mir_node (column_access filled_module sample_registers)) (Const64 (F := G) z)).
Proof.
  split; [|split].
  - intros s. split; [|done]. split; [split; [cbn; unfold access_wf; cbn; lia|done]|]. split; [done|apply sample_access].
  - intros s. split; [|done]. split; [split; [cbn; unfold access_wf; cbn; lia|done]|]. split; [done|apply sample_access].
  - intros z Hz. split; [|done]. split; [split; [by apply el_ok|done]|]. by split.
Qed.

Lemma sample_ready : Forall (ready filled_trace sample_schema 0 filled_module sample_registers) sample_constraints.
Proof.
  destruct sample_mir as (HX & HY & HC).
  assert (Hh : 0 <= height filled_module < 2 ^ 62) by (split; [discriminate|reflexivity]).
  constructor; [|constructor; [|done]]; (split; [done|]); (split; [cbv; repeat split; discriminate|]);
    (split; [by apply global_rows|]).
  - split; [apply HX|]. split; [apply HY|]. split; [split; [cbn; lia|by left]|by left].
  - split; [split; [apply HY|split; [apply HC; lia|split; [split; [cbn; lia|by left]|by left]]]|split].
    + split; [apply HX|]. split; [apply HC; lia|]. split; [split; [cbn; lia|by left]|by left].
    + split; [apply HX|]. split; [apply HC; lia|]. split; [split; [cbn; lia|by left]|by left].
Qed.

Lemma sample_module_ready : module_ready filled_trace sample_schema 0 filled_module (mkName "m" 1) sample_registers 7 [5; MaxUint].
Proof.
  split; try done; [apply sample_names|by eexists|apply filled_wf|].
  intros k Hk a i bw Ha Hi Hne. destruct i as [|[|i]]; [injection Hi as <-|injection Hi as <-; done|done].
  split; [lia|]. intros Hin. unfold row_env, access_at. rewrite Ha. cbn [Unwrap mbind result_bind].
  unfold inrow in Hin. revert Hin. generalize (k + Access.shift a). cbn [height filled_module]. apply sample_rows; vm_compute; reflexivity.
Qed.

Lemma lowering_sound_witness : Forall (mir_accepted filled_trace sample_schema) sample_constraints.
Proof.
  refine (lowering_sound filled_trace sample_schema 0 filled_module (mkName "m" 1) sample_registers DEFAULT_OPTIMISATION_LEVEL 7 [5; MaxUint]
    true false false false false 0 [0%nat; 1%nat] sample_initial sample_constraints sample_lowered sample_module_ready _ _ sample_ready sample_trusted);
    vm_compute; reflexivity.
Defined.

Lemma inverse_column_witness :
  accepted filled_trace sample_schema (inverse_constraint "h" 0 (RegisterAccess (X 0)) 4).
Proof.
  refine (inverse_column filled_trace sample_schema 0 filled_module (mkView (mkName "m" 1) 2) "h" (RegisterAccess (X 0)) 4
    (NewArrayColumn "" (Some [el 113; el 84; el 113]) (el 0)) [el 113; el 84; el 113] _ _ _ filled_wf _ _ _ _ _);
    try (vm_compute; reflexivity); [split; [discriminate|reflexivity]|].
  apply air_access; [apply X_wf|]. by eexists _, _.
Defined.

(** The second constraint on the first row, after the first one has been lowered *)
Definition sample_middle : Builder.t G :=
  match lowerConstraints DEFAULT_OPTIMISATION_LEVEL 7 [5; MaxUint] [MirVanishing x_is_not_y] sample_initial with
  | Ok b => b | Fault _ => empty_builder end.

Definition sample_terms : list (Expr G) * Builder.t G :=
  match lowerAndSimplifyLogicalTo DEFAULT_OPTIMISATION_LEVEL 7 [5; MaxUint] (Vanishing.Constraint_ x_or_y) sample_middle with
  | Ok r => r | Fault _ => ([], empty_builder) end.

Lemma sample_terms_trusted : trusted filled_trace sample_schema filled_module (snd sample_terms).
Proof.
  split.
  - assert (H : forallb accepts (Builder.constraints (snd sample_terms)) = true) by (vm_compute; reflexivity).
    intros c Hc. apply accepting_spec. exact (proj1 (forallb_forall accepts _) H c (proj1 (list_elem_of_In _ _) Hc)).
  - assert (H : forallb is_filled (seq 0 (length (Builder.registers (snd sample_terms)))) = true) by (vm_compute; reflexivity).
    intros i Hi. apply is_filled_spec. exact (forallb_seq _ _ H i Hi).
Qed.

Lemma sample_middle_ok : builder_ok (mkName "m" 1) 0 sample_registers sample_middle.
Proof.
  destruct sample_module_ready as [Hodd Hbase Hm [v Hv] Hwf Hh Hbits [Hbw Hfield] Htyped].
  assert (H0 : builder_ok (mkName "m" 1) 0 sample_registers sample_initial).
  { apply (NewModule_ok 0 (mkName "m" 1) sample_registers true false false false false 0 [0%nat; 1%nat]). vm_compute. reflexivity. }
  refine (proj1 (constraints_sound Hodd filled_trace sample_schema 0 filled_module v _ _ Hbase Hm Hv Hwf Hh DEFAULT_OPTIMISATION_LEVEL 7
    _ Hbits Hfield Hbw Htyped [MirVanishing x_is_not_y] sample_initial sample_middle _ H0 _)); [|vm_compute; reflexivity].
  pose proof sample_ready as H. apply Forall_cons in H as [H _]. by constructor.
Qed.

Lemma x_or_y_ready : vanishing_ready 0 filled_module sample_registers x_or_y.
Proof. pose proof sample_ready as H. apply Forall_cons in H as [_ H]. by apply Forall_inv in H. Qed.

Lemma lowering_row_witness :
  Forall (fun t => LogicalTerm_TestAt 0 filled_module (mkLogical t) = Ok true) (fst sample_terms) <->
  TestAt 0 filled_module (Vanishing.Constraint_ x_or_y) = Ok true.
Proof.
  destruct x_or_y_ready as (_ & _ & Hrows & Hc).
  destruct (checked_access_ok filled_module sample_registers [5; MaxUint] (mr_typed _ _ _ _ _ _ _ _ sample_module_ready) x_or_y)
    as (HG & Hpos & Hrow).
  refine (lowering_row filled_trace sample_schema 0 filled_module (mkName "m" 1) sample_registers DEFAULT_OPTIMISATION_LEVEL 7 [5; MaxUint]
    (checked_access filled_module sample_registers x_or_y) 0 (Vanishing.Constraint_ x_or_y) sample_middle (fst sample_terms) (snd sample_terms)
    sample_module_ready HG Hpos (Hrow Hrows 0 _) (comparable_checked _ _ _ Hrows Hc) sample_middle_ok _ sample_terms_trusted).
  - split; [discriminate|reflexivity].
  - vm_compute. reflexivity.
Defined.

(** *** A term that is not lowered faithfully

    [10 - 3 - (X + 4) = 0] is lowered to [7 - X].  On a row where [X] is three the term
    holds and what it is lowered to does not vanish, so that the conditions of the
    theorems on lost constants are needed. *)
Lemma lowering_loses_constant :
  fst <$> lowerAndSimplifyLogicalTo DEFAULT_OPTIMISATION_LEVEL 7 [5; MaxUint] (Equal SimplifyProperties.lost_constant (Const64 0)) sample_initial =
    Ok [Sub [Const64 7; RegisterAccess (X 0)]] /\
  TestAt 1 sample_module (Equal SimplifyProperties.lost_constant (Const64 0)) = Ok true /\
  LogicalTerm_TestAt 1 sample_module (mkLogical (Sub [Const64 7; RegisterAccess (X 0)])) = Ok false.
Proof. split_and!; vm_compute; reflexivity. Qed.

End LowerProperties.
