(* ===== verification/Poly.v ===== *)
(** * Polynomials

    Models [pkg/util/poly]: monomials with big integers as coefficients and sorted
    variables, and polynomials as sorted sets of monomials.  A polynomial is the value
    of its [terms]; its operations copy before they write, so the store behind the
    integers is never shared between two of them.  In the code a nil pointer counts as zero
    for [Len], [Set] and the second operand of a sum or difference, and the other
    methods panic on it; the model has no nil, its polynomials are those that [Set]
    or an operation has made. *)

From Stdlib Require Import ZArith Lia.
From stdpp Require Import base numbers list option sorting.
From S2P Require Import Prelude SortedSet.

Open Scope Z_scope.

Section Poly.
Context {S : Type} `{!Comparable S}.
Implicit Types (v : S) (vs : list S).

(** ** Arrays ([pkg/util/collection/array/util.go], [slices], [sort]) *)

(** [array.MergeSorted], on what is left of both arrays *)
Fixpoint MergeSorted (lhs : list S) : list S -> list S :=
  match lhs with
  | [] => fun rhs => rhs
  | lth :: lhs' =>
      fix go rhs :=
        match rhs with
        | [] => lhs
        | rth :: rhs' => if is_gt (Cmp lth rth) then rth :: go rhs' else lth :: MergeSorted lhs' rhs
        end
  end.

(** [sort.Find] over the variables of a monomial *)
Definition find_var vs v : nat * bool :=
  let i := Search vs v in (i, match vs !! i with Some x => is_eq (Cmp v x) | None => false end).

(** ** Monomials ([monomial.go]) *)

Record Monomial : Type := mkMonomial { coefficient : Z; vars : list S }.
Implicit Types (p q : Monomial).

Definition NewMonomial (coefficient : Z) vs : Monomial := mkMonomial coefficient (SortFunc vs).

Definition Contains p v : bool := snd (find_var (vars p) v).

#[export] Instance Monomial_Comparable : Comparable Monomial := fun p other =>
  match Compare (vars p) (vars other) with Eq => Z.compare (coefficient p) (coefficient other) | c => c end.

Definition FactorOut p v : Monomial :=
  let (index, res) := find_var (vars p) v in
  if res then NewMonomial (coefficient p) (RemoveAt (vars p) index) else p.

(** [for i := range p.vars], on arrays of one length *)
Fixpoint same_vars vs ws : bool :=
  match vs, ws with
  | v :: vs, w :: ws => is_eq (Cmp v w) && same_vars vs ws
  | _, _ => true
  end.

Definition Monomial_Equal p other : bool :=
  if negb (length (vars p) =? length (vars other))%nat then false
  else if negb (coefficient p =? coefficient other) then false
  else same_vars (vars p) (vars other).

Definition Monomial_IsZero p : bool := coefficient p =? 0.
Definition IsNegative p : bool := coefficient p <? 0.
Definition Monomial_Negate p : Monomial := mkMonomial (- coefficient p) (vars p).
Definition Neg p : Monomial := mkMonomial (- coefficient p) (vars p).
Definition Monomial_Len p : nat := length (vars p).
Definition Nth p (index : nat) : result S := slice_get (vars p) index.

Definition Monomial_Mul p other : Monomial :=
  mkMonomial (coefficient p * coefficient other) (MergeSorted (vars p) (vars other)).

Definition Monomial_MulScalar p (scalar : Z) : Monomial := mkMonomial (coefficient p * scalar) (vars p).

Definition Matches p other : bool :=
  if negb (Monomial_Len p =? Monomial_Len other)%nat then false else same_vars (vars p) (vars other).

Definition Monomial_Shr p (n : Z) : Monomial * Monomial :=
  let neg := coefficient p <? 0 in
  let coeff := if neg then Z.abs (coefficient p) else coefficient p in
  let quotient := Z.shiftr coeff n in
  let remainder := coeff - Z.shiftl quotient n in
  let (quotient, remainder) := if neg then (- quotient, - remainder) else (quotient, remainder) in
  (mkMonomial quotient (vars p), mkMonomial remainder (vars p)).

(** ** Polynomials ([array_poly.go]) *)

(** The [terms] *)
Definition ArrayPoly : Type := list Monomial.
Implicit Types (P Q : list Monomial).

Definition Len P : nat := length P.
Definition Term P (ith : nat) : result Monomial := slice_get P ith.

(** [slices.CompareFunc] *)
Fixpoint Cmp_poly P Q : comparison :=
  match P, Q with
  | [], [] => Eq
  | [], _ :: _ => Lt
  | _ :: _, [] => Gt
  | l :: P, r :: Q => match Cmp l r with Eq => Cmp_poly P Q | c => c end
  end.

(** The index that the loops of [AddTerm] and [SubTerm] stop at *)
Fixpoint first_match P (other : Monomial) : option nat :=
  match P with
  | [] => None
  | term :: P => if Matches term other then Some 0%nat else Datatypes.S <$> first_match P other
  end.

(** The coefficient of the [i]th term is replaced; the term goes when it is zero. *)
Definition update_term P (i : nat) (f : Z -> Z) : ArrayPoly :=
  match P !! i with
  | Some ith =>
      let ith := mkMonomial (f (coefficient ith)) (vars ith) in
      if Monomial_IsZero ith then RemoveAt P i else <[i := ith]> P
  | None => P
  end.

Definition AddTerm P (other : Monomial) : ArrayPoly :=
  if negb (Monomial_IsZero other) then
    match first_match P other with
    | Some i => update_term P i (fun c => c + coefficient other)
    | None => Insert P other
    end
  else P.

Definition SubTerm P (other : Monomial) : ArrayPoly :=
  if negb (Monomial_IsZero other) then
    match first_match P other with
    | Some i => update_term P i (fun c => c - coefficient other)
    | None => Insert P (Neg other)
    end
  else P.

(** [for _, t := range terms] *)
Definition add_terms P (terms : list Monomial) : ArrayPoly := foldl AddTerm P terms.

Definition Set_ (terms : list Monomial) : ArrayPoly := add_terms [] terms.

(** [int64(val)] of a [uint64] *)
Definition to_int64 (val : Z) : Z := if val <? 2 ^ 63 then val else val - 2 ^ 64.

Definition Const64 (val : Z) : ArrayPoly := if val =? 0 then [] else Set_ [NewMonomial (to_int64 val) []].

Fixpoint equal_terms P Q : bool :=
  match P, Q with p :: P, q :: Q => Monomial_Equal p q && equal_terms P Q | _, _ => true end.

Definition Equal P Q : bool := if negb (length P =? length Q)%nat then false else equal_terms P Q.

Definition Signed P : bool := existsb IsNegative P.

Definition Negate P : ArrayPoly := add_terms [] (map Monomial_Negate P).
Definition Add P Q : ArrayPoly := add_terms P Q.
Definition AddScalar P (scalar : Z) : ArrayPoly := AddTerm P (NewMonomial scalar []).
Definition Sub P Q : ArrayPoly := foldl SubTerm P Q.
Definition Mul P Q : ArrayPoly := foldl (fun res ith => foldl (fun res jth => AddTerm res (Monomial_Mul ith jth)) res Q) [] P.
Definition MulScalar P (scalar : Z) : ArrayPoly := add_terms [] (map (fun ith => Monomial_MulScalar ith scalar) P).

Fixpoint Shr P (n : Z) : ArrayPoly * ArrayPoly :=
  match P with
  | [] => ([], [])
  | ith :: P =>
      let (quot, rem) := Monomial_Shr ith n in
      let (quotients, remainders) := Shr P n in
      (if negb (Monomial_IsZero quot) then quot :: quotients else quotients,
       if negb (Monomial_IsZero rem) then rem :: remainders else remainders)
  end.

(** ** Evaluation ([poly.go]) *)

Definition evalTerm p (env : S -> Z) : Z := foldl (fun acc v => acc * env v) (coefficient p) (vars p).

Definition Eval P (env : S -> Z) : Z := foldl (fun val ith => val + evalTerm ith env) 0 P.

End Poly.
Arguments Monomial : clear implicits.
Arguments ArrayPoly : clear implicits.
