(* ===== verification/PolyFacts.v ===== *)
(** * Polynomials: their values and their normal form

    A polynomial stands for the map from lists of variables to coefficients.  Every
    linear function of this map, such as the value at a point or one coefficient, is
    [total phi] for some [phi]; the operations are linear for all of these at once. *)

From Stdlib Require Import ZArith Lia.
From stdpp Require Import base numbers list option sorting.
From S2P Require Import Prelude SortedSet Poly.

Open Scope Z_scope.

(** ** Sorted arrays with repetitions *)

Section Arrays.
Context {T : Type} `{!Comparable T, !CmpLaws T}.
Implicit Types (l k : list T).

Lemma sort_insert_Permutation x l : sort_insert x l ≡ₚ x :: l.
Proof. induction l as [|y l IH]; cbn; [done|]. destruct (is_gt _); [|done]. rewrite IH. constructor. Qed.

Lemma SortFunc_Permutation l : SortFunc l ≡ₚ l.
Proof. induction l as [|x l IH]; cbn; [done|]. unfold SortFunc in *. cbn. by rewrite sort_insert_Permutation, IH. Qed.

Lemma MergeSorted_cons x l y k :
  MergeSorted (x :: l) (y :: k) = if is_gt (Cmp x y) then y :: MergeSorted (x :: l) k else x :: MergeSorted l (y :: k).
Proof. done. Qed.

Lemma MergeSorted_nil_r l : MergeSorted l [] = l.
Proof. by destruct l. Qed.

Lemma MergeSorted_Permutation l k : MergeSorted l k ≡ₚ l ++ k.
Proof.
  revert k. induction l as [|x l IHl]; intros k; [done|]. induction k as [|y k IHk]; [by rewrite MergeSorted_nil_r, app_nil_r|].
  rewrite MergeSorted_cons. destruct (is_gt _); [rewrite IHk; by rewrite Permutation_middle|]. by rewrite IHl.
Qed.

Lemma le_not_gt (x y : T) : is_gt (Cmp x y) = false -> le_ x y.
Proof. unfold le_, lt_. destruct (Cmp x y) eqn:Hc; [intros _; left; by apply Cmp_eq|by right|done]. Qed.

Lemma le_gt (x y : T) : is_gt (Cmp x y) = true -> le_ y x.
Proof. destruct (Cmp x y) eqn:Hc; [done..|]. intros _. right. by apply Cmp_gt. Qed.

Lemma le_le_trans (x y z : T) : le_ x y -> le_ y z -> le_ x z.
Proof. intros [->|Hxy] [->|Hyz]; [by left|by right|by right|]. right. by apply (lt_trans _ y). Qed.

Lemma MergeSorted_sorted l k : StronglySorted le_ l -> StronglySorted le_ k -> StronglySorted le_ (MergeSorted l k).
Proof.
  intros Hl. revert k. induction Hl as [|x l Hl IHl Hx]; intros k Hk; [done|].
  induction Hk as [|y k Hk IHk Hy]; [rewrite MergeSorted_nil_r; by constructor|].
  rewrite MergeSorted_cons. destruct (is_gt (Cmp x y)) eqn:Hc.
  - apply le_gt in Hc. constructor; [done|]. rewrite MergeSorted_Permutation. apply Forall_app. split; [|done].
    constructor; [done|]. eapply Forall_impl; [exact Hx|]. intros z. by apply le_le_trans.
  - apply le_not_gt in Hc. constructor; [apply IHl; by constructor|]. rewrite MergeSorted_Permutation. apply Forall_app. split; [done|].
    constructor; [done|]. eapply Forall_impl; [exact Hy|]. intros z. by apply le_le_trans.
Qed.

Lemma le_sorted_lookup l i j x y : StronglySorted le_ l -> l !! i = Some x -> l !! j = Some y -> (i <= j)%nat -> le_ x y.
Proof.
  intros Hs. revert i j. induction Hs as [|a l Hs IH Hf]; intros i j Hi Hj Hle; [done|].
  destruct i as [|i], j as [|j]; cbn in Hi, Hj; [left; congruence| |lia|apply (IH i j); [done|done|lia]].
  injection Hi as <-. eapply Forall_forall; [exact Hf|]. by eapply list_elem_of_lookup_2.
Qed.

Lemma le_order (x y : T) : le_ x y -> le_ y x -> x = y.
Proof. intros [->|Hxy] [Heq|Hyx]; [done..|]. exfalso. apply (lt_irrefl x). by apply (lt_trans _ y). Qed.

Lemma le_Cmp (x y : T) : is_gt (Cmp x y) = false <-> le_ x y.
Proof.
  split; [apply le_not_gt|]. intros [->|Hlt]; [by rewrite Cmp_refl|]. unfold lt_ in Hlt. by rewrite Hlt.
Qed.

(** The binary search finds a variable that is there. *)
Lemma find_var_spec l x :
  StronglySorted le_ l ->
  if snd (find_var l x) then l !! fst (find_var l x) = Some x else x ∉ l.
Proof.
  intros Hs. unfold find_var. cbn [fst snd]. unfold Search.
  destruct (search_loop_spec (S (length l)) (at_most l x) 0 (length l)) as (k & Hk & Hb & Hlo & Hhi); [lia|lia| |].
  { unfold at_most. intros a b _ Hab Hlt Ha. destruct (l !! a) as [y|] eqn:Hy; [|done].
    destruct (lookup_lt_is_Some_2 l b Hlt) as [z Hz]. rewrite Hz. apply negb_true_iff, le_Cmp. apply negb_true_iff, le_Cmp in Ha.
    apply (le_le_trans _ y); [done|]. by eapply le_sorted_lookup. }
  rewrite Hk. change (default (length l) (Some k)) with k.
  destruct (l !! k) as [y|] eqn:Hy.
  - destruct (Cmp x y) eqn:Hc; cbn [is_eq]; [by apply Cmp_eq in Hc as ->| |].
    + intros [i Hi]%list_elem_of_lookup_1. destruct (decide (i < k)%nat) as [Hik|Hik].
      * specialize (Hlo i ltac:(lia)). unfold at_most in Hlo. rewrite Hi, Cmp_refl in Hlo. done.
      * pose proof (le_sorted_lookup l k i y x Hs Hy Hi ltac:(lia)) as [->|Hyx]; [by rewrite Cmp_refl in Hc|].
        apply (lt_irrefl x). by apply (lt_trans _ y).
    + assert (Ha : at_most l x k = true) by (apply Hhi; apply lookup_lt_Some in Hy; lia).
      unfold at_most in Ha. by rewrite Hy, Hc in Ha.
  - apply lookup_ge_None in Hy. intros [i Hi]%list_elem_of_lookup_1. pose proof (lookup_lt_Some _ _ _ Hi).
    specialize (Hlo i ltac:(lia)). unfold at_most in Hlo. by rewrite Hi, Cmp_refl in Hlo.
Qed.

Lemma same_vars_eq l k : length l = length k -> same_vars l k = true <-> l = k.
Proof.
  revert k. induction l as [|x l IH]; intros [|y k] Hl; cbn in *; try done.
  rewrite andb_true_iff, IH by lia. destruct (Cmp x y) eqn:Hc; cbn [is_eq].
  - apply Cmp_eq in Hc as ->. split; [by intros [_ ->]|by intros [= ->]].
  - split; [by intros []|]. intros [= -> ->]. by rewrite Cmp_refl in Hc.
  - split; [by intros []|]. intros [= -> ->]. by rewrite Cmp_refl in Hc.
Qed.

End Arrays.


(** ** Sums over the terms *)

Section Sums.
Context {S : Type} `{!Comparable S, !CmpLaws S}.
Implicit Types (p q : Monomial S) (P Q : list (Monomial S)) (vs ws : list S) (phi : list S -> Z).

(** The value of a polynomial where [phi] gives the value of a list of variables *)
Definition total phi P : Z := foldr (fun p acc => coefficient p * phi (vars p) + acc) 0 P.

Lemma total_cons phi p P : total phi (p :: P) = coefficient p * phi (vars p) + total phi P.
Proof. done. Qed.

Lemma total_app phi P Q : total phi (P ++ Q) = total phi P + total phi Q.
Proof. induction P as [|p P IH]; [done|]. cbn [app]. rewrite !total_cons, IH. lia. Qed.

Lemma total_middle phi P i p : P !! i = Some p -> total phi P = coefficient p * phi (vars p) + (total phi (take i P) + total phi (drop (Datatypes.S i) P)).
Proof. intros Hi. rewrite <- (take_drop_middle P i p Hi) at 1. rewrite total_app, total_cons. lia. Qed.

Lemma total_RemoveAt phi P i p : P !! i = Some p -> total phi P = coefficient p * phi (vars p) + total phi (RemoveAt P i).
Proof.
  intros Hi. unfold RemoveAt. pose proof (lookup_lt_Some _ _ _ Hi). destruct (Nat.leb_spec (length P) i); [lia|].
  by rewrite total_app, <- total_middle.
Qed.

Lemma total_update phi P i p q : P !! i = Some p -> total phi P + coefficient q * phi (vars q) = total phi (<[i := q]> P) + coefficient p * phi (vars p).
Proof.
  intros Hi. pose proof (lookup_lt_Some _ _ _ Hi). rewrite insert_take_drop by done. rewrite total_app, total_cons, (total_middle phi P i p Hi). lia.
Qed.

Lemma Matches_spec p q : Matches p q = true <-> vars p = vars q.
Proof.
  unfold Matches, Monomial_Len. destruct (Nat.eqb_spec (length (vars p)) (length (vars q))) as [Hl|Hl]; cbn [negb].
  - by apply same_vars_eq.
  - split; [done|]. intros Heq. by rewrite Heq in Hl.
Qed.

Lemma first_match_Some P q i : first_match P q = Some i -> exists p, P !! i = Some p /\ vars p = vars q.
Proof.
  revert i. induction P as [|p P IH]; intros i; cbn; [done|]. destruct (Matches p q) eqn:Hm.
  - intros [= <-]. exists p. split; [done|]. by apply Matches_spec.
  - destruct (first_match P q) as [j|]; [|done]. intros [= <-]. by apply IH.
Qed.

Lemma first_match_None P q : first_match P q = None <-> vars q ∉ (vars <$> P).
Proof.
  induction P as [|p P IH]; cbn [first_match]; [split; [intros _; apply not_elem_of_nil|done]|].
  rewrite fmap_cons, not_elem_of_cons. destruct (Matches p q) eqn:Hm.
  - apply Matches_spec in Hm. split; [done|]. by intros [Hne _].
  - rewrite <- IH. assert (vars q <> vars p) by (intros Heq; rewrite (proj2 (Matches_spec p q)) in Hm; by rewrite ?Heq).
    destruct (first_match P q); cbn; split; try done; by intros [].
Qed.

#[export] Instance Monomial_CmpLaws : CmpLaws (Monomial S).
Proof.
  split; unfold Cmp, Monomial_Comparable; change (@Compare S _) with (@Cmp (list S) _).
  - intros [c vs] [d ws]. cbn [vars coefficient]. destruct (Cmp vs ws) eqn:Hc.
    + apply Cmp_eq in Hc as ->. rewrite Z.compare_eq_iff. split; congruence.
    + split; [done|]. intros [= -> ->]. by rewrite Cmp_refl in Hc.
    + split; [done|]. intros [= -> ->]. by rewrite Cmp_refl in Hc.
  - intros p q. rewrite (Cmp_anti (vars p) (vars q)). destruct (Cmp (vars p) (vars q)); cbn; try done. apply Z.compare_antisym.
  - intros p q r. destruct (Cmp (vars p) (vars q)) eqn:Hpq; [apply Cmp_eq in Hpq as ->| |done];
      (destruct (Cmp _ (vars r)) eqn:Hqr; [try (apply Cmp_eq in Hqr as <-)| |done]); try done.
    + rewrite !Z.compare_lt_iff. lia.
    + by rewrite Hpq.
    + by rewrite (Cmp_trans _ _ _ Hpq Hqr).
Qed.

Lemma Insert_new P q : vars q ∉ (vars <$> P) -> exists i, Insert P q = take i P ++ q :: drop i P.
Proof.
  intros Hn. unfold Insert. destruct (found P _ q) eqn:Hf; [|by eexists]. exfalso. unfold found in Hf.
  destruct (P !! _) as [p|] eqn:Hi; [|done]. destruct (Cmp p q) eqn:Hc; try done. apply Cmp_eq in Hc as ->.
  apply Hn, list_elem_of_fmap. exists q. split; [done|]. by eapply list_elem_of_lookup_2.
Qed.

Lemma AddTerm_total phi P q : total phi (AddTerm P q) = total phi P + coefficient q * phi (vars q).
Proof.
  unfold AddTerm, Monomial_IsZero. destruct (Z.eqb_spec (coefficient q) 0) as [Hz|Hz]; cbn [negb]; [rewrite Hz; lia|].
  destruct (first_match P q) as [i|] eqn:Hm.
  - apply first_match_Some in Hm as (p & Hi & Hv). unfold update_term, Monomial_IsZero. rewrite Hi. cbn [coefficient].
    destruct (Z.eqb_spec (coefficient p + coefficient q) 0).
    + rewrite (total_RemoveAt phi P i p Hi), Hv. nia.
    + pose proof (total_update phi P i p (mkMonomial (coefficient p + coefficient q) (vars p)) Hi) as Ht. cbn [coefficient vars] in Ht.
      rewrite Hv in Ht at 1. rewrite Hv in *. lia.
  - apply first_match_None, Insert_new in Hm as [i ->]. rewrite total_app, total_cons. rewrite <- (take_drop i P) at 3. rewrite total_app. lia.
Qed.

Lemma first_match_Neg P q : first_match P (Neg q) = first_match P q.
Proof. induction P as [|p P IH]; cbn [first_match]; [done|]. change (Matches p (Neg q)) with (Matches p q). by rewrite IH. Qed.

Lemma SubTerm_Neg P q : SubTerm P q = AddTerm P (Neg q).
Proof.
  unfold SubTerm, AddTerm, Monomial_IsZero. replace (coefficient (Neg q) =? 0) with (coefficient q =? 0).
  { rewrite first_match_Neg. destruct (negb _); [|done]. by destruct (first_match P q). }
  cbn [Neg coefficient]. destruct (Z.eqb_spec (coefficient q) 0), (Z.eqb_spec (- coefficient q) 0); lia || done.
Qed.

Lemma foldl_SubTerm P Q : foldl SubTerm P Q = add_terms P (map Neg Q).
Proof. revert P. induction Q as [|q Q IH]; intros P; [done|]. cbn. by rewrite IH, SubTerm_Neg. Qed.

Lemma add_terms_total phi P Q : total phi (add_terms P Q) = total phi P + total phi Q.
Proof.
  unfold add_terms. revert P. induction Q as [|q Q IH]; intros P; cbn [foldl]; [cbn; lia|]. rewrite IH, AddTerm_total, total_cons. lia.
Qed.

Lemma total_map phi (f : Monomial S -> Monomial S) k P :
  (forall p, coefficient (f p) * phi (vars (f p)) = k * (coefficient p * phi (vars p))) -> total phi (map f P) = k * total phi P.
Proof. intros Hf. induction P as [|p P IH]; cbn [map]; [cbn; lia|]. rewrite !total_cons, Hf, IH. lia. Qed.

End Sums.

(** ** Values *)

Section Values.
Context {S : Type} `{!Comparable S, !CmpLaws S}.
Implicit Types (p q : Monomial S) (P Q : list (Monomial S)) (vs ws : list S) (phi : list S -> Z) (env : S -> Z).

Definition vars_value env vs : Z := foldr (fun v acc => env v * acc) 1 vs.

#[export] Instance vars_value_perm env : Proper ((≡ₚ) ==> eq) (vars_value env).
Proof. intros vs ws Hp. unfold vars_value. induction Hp; cbn [foldr]; lia. Qed.

Lemma vars_value_app env vs ws : vars_value env (vs ++ ws) = vars_value env vs * vars_value env ws.
Proof. unfold vars_value. induction vs as [|v vs IH]; cbn [app foldr]; [lia|]. rewrite IH. lia. Qed.

Lemma evalTerm_value p env : evalTerm p env = coefficient p * vars_value env (vars p).
Proof.
  unfold evalTerm. generalize (coefficient p) as c. induction (vars p) as [|v vs IH]; intros c; cbn [foldl]; [cbn; lia|].
  rewrite IH. cbn [vars_value foldr]. fold (vars_value env vs). lia.
Qed.

Lemma Eval_total P env : Eval P env = total (vars_value env) P.
Proof.
  unfold Eval. rewrite <- (Z.add_0_l (total _ P)). generalize 0 as c.
  induction P as [|p P IH]; intros c; cbn [foldl]; [cbn; lia|]. rewrite IH, total_cons, evalTerm_value. lia.
Qed.

Lemma Mul_total phi P Q :
  (forall vs ws, phi (MergeSorted vs ws) = phi vs * phi ws) -> total phi (Mul P Q) = total phi P * total phi Q.
Proof.
  intros Hphi. unfold Mul. enough (forall R, total phi (foldl (fun res ith => foldl (fun res jth => AddTerm res (Monomial_Mul ith jth)) res Q) R P) = total phi R + total phi P * total phi Q) as ->; [cbn; lia|].
  induction P as [|p P IH]; intros R; cbn [foldl]; [cbn; lia|]. rewrite IH, total_cons.
  enough (forall R, total phi (foldl (fun res jth => AddTerm res (Monomial_Mul p jth)) R Q) = total phi R + coefficient p * phi (vars p) * total phi Q) as ->; [lia|].
  clear - Hphi CmpLaws0. induction Q as [|q Q IH]; intros R; cbn [foldl]; [cbn; lia|].
  rewrite IH, AddTerm_total, total_cons. cbn [Monomial_Mul coefficient vars]. rewrite Hphi. lia.
Qed.

Lemma Mul_Eval P Q env : Eval (Mul P Q) env = Eval P env * Eval Q env.
Proof. rewrite !Eval_total. apply Mul_total. intros vs ws. by rewrite MergeSorted_Permutation, vars_value_app. Qed.

Lemma Const64_Eval val env : Eval (Const64 val : list (Monomial S)) env = to_int64 val.
Proof.
  unfold Const64. destruct (Z.eqb_spec val 0) as [->|Hv]; [done|].
  unfold Set_. rewrite Eval_total, add_terms_total. unfold total. cbn. lia.
Qed.

(** ** Shifts *)

Lemma Monomial_Shr_spec p n (r := Monomial_Shr p n) :
  0 <= n ->
  coefficient p = 2 ^ n * coefficient (fst r) + coefficient (snd r) /\ Z.abs (coefficient (snd r)) < 2 ^ n
  /\ 0 <= coefficient p * coefficient (snd r) /\ vars (fst r) = vars p /\ vars (snd r) = vars p.
Proof.
  intros Hn. subst r. unfold Monomial_Shr. pose proof (Z.pow_pos_nonneg 2 n ltac:(lia) Hn).
  pose proof (Z.div_mod (Z.abs (coefficient p)) (2 ^ n) ltac:(lia)) as Hdm.
  pose proof (Z.mod_pos_bound (Z.abs (coefficient p)) (2 ^ n) ltac:(lia)) as Hb.
  set (d := Z.abs (coefficient p) / 2 ^ n) in *. set (m := Z.abs (coefficient p) mod 2 ^ n) in *.
  destruct (Z.ltb_spec (coefficient p) 0) as [Hneg|Hneg]; cbn [fst snd coefficient vars].
  - rewrite Z.shiftl_mul_pow2, Z.shiftr_div_pow2 by lia. fold d. split_and!; try done; nia.
  - rewrite <- (Z.abs_eq (coefficient p)) by lia. rewrite Z.shiftl_mul_pow2, Z.shiftr_div_pow2 by lia. fold d.
    split_and!; try done; nia.
Qed.

Lemma nonzero_total phi p P : total phi (if negb (Monomial_IsZero p) then p :: P else P) = coefficient p * phi (vars p) + total phi P.
Proof. unfold Monomial_IsZero. destruct (Z.eqb_spec (coefficient p) 0) as [Hz|Hz]; cbn [negb]; [rewrite Hz; lia|done]. Qed.

Lemma Shr_cons p P n :
  Shr (p :: P) n =
  (let quot := fst (Monomial_Shr p n) in if negb (Monomial_IsZero quot) then quot :: fst (Shr P n) else fst (Shr P n),
   let rem := snd (Monomial_Shr p n) in if negb (Monomial_IsZero rem) then rem :: snd (Shr P n) else snd (Shr P n)).
Proof. cbn [Shr]. destruct (Monomial_Shr p n), (Shr P n). done. Qed.

Lemma Shr_total phi P n : 0 <= n -> total phi P = 2 ^ n * total phi (fst (Shr P n)) + total phi (snd (Shr P n)).
Proof.
  intros Hn. induction P as [|p P IH]; [cbn; lia|]. rewrite Shr_cons. cbn [fst snd]. rewrite !nonzero_total, total_cons.
  destruct (Monomial_Shr_spec p n Hn) as (Hc & _ & _ & -> & ->). rewrite Hc, IH. lia.
Qed.

Lemma Shr_bound P n : 0 <= n -> Forall (fun p => Z.abs (coefficient p) < 2 ^ n) (snd (Shr P n)).
Proof.
  intros Hn. induction P as [|p P IH]; [constructor|]. rewrite Shr_cons. cbn [snd].
  destruct (Monomial_Shr_spec p n Hn) as (_ & Hb & _). destruct (negb _); [by constructor|done].
Qed.

End Values.

(** ** The normal form *)

Section Normal.
Context {S : Type} `{!Comparable S, !CmpLaws S}.
Implicit Types (p q : Monomial S) (P Q : list (Monomial S)) (vs ws : list S).

Record monomial_ok p : Prop := { monomial_nonzero : coefficient p <> 0; monomial_vars : StronglySorted le_ (vars p) }.

Record poly_ok P : Prop := { poly_sorted : sorted (vars <$> P); poly_terms : Forall monomial_ok P }.

Lemma sorted_vars P : sorted (vars <$> P) -> sorted P.
Proof.
  induction P as [|p P IH]; [constructor|]. rewrite fmap_cons. intros Hs. apply StronglySorted_inv in Hs as [Hs Hf].
  constructor; [by apply IH|]. rewrite Forall_fmap in Hf. eapply Forall_impl; [exact Hf|]. intros q Hq. cbn in Hq.
  unfold lt_, Cmp, Monomial_Comparable in *. unfold list_Comparable in Hq. by rewrite Hq.
Qed.

Lemma vars_sorted P : sorted P -> NoDup (vars <$> P) -> sorted (vars <$> P).
Proof.
  induction 1 as [|p P Hs IH Hf]; [constructor|]. rewrite fmap_cons. intros [Hn Hd]%NoDup_cons.
  constructor; [by apply IH|]. rewrite Forall_fmap. rewrite Forall_forall in *. intros q Hq. cbn.
  specialize (Hf q Hq). unfold lt_, Cmp, Monomial_Comparable in *. unfold list_Comparable.
  destruct (Compare (vars p) (vars q)) eqn:Hc; [|done|done]. exfalso. apply Hn, list_elem_of_fmap.
  exists q. split; [|done]. by apply (Cmp_eq (T := list S)) in Hc.
Qed.

Lemma poly_nil : poly_ok [].
Proof. repeat constructor. Qed.

Lemma RemoveAt_fmap {A B} (f : A -> B) l i : f <$> RemoveAt l i = RemoveAt (f <$> l) i.
Proof. unfold RemoveAt. rewrite length_fmap. destruct (_ <=? _)%nat; [done|]. by rewrite fmap_app, fmap_take, fmap_drop. Qed.

Lemma RemoveAt_Forall {A} (Pr : A -> Prop) l i : Forall Pr l -> Forall Pr (RemoveAt l i).
Proof. intros Hf. unfold RemoveAt. destruct (_ <=? _)%nat; [done|]. apply Forall_app. split; [by apply Forall_take|by apply Forall_drop]. Qed.

Lemma AddTerm_ok P q : poly_ok P -> StronglySorted le_ (vars q) -> poly_ok (AddTerm P q).
Proof.
  intros [Hs Hf] Hq. unfold AddTerm, Monomial_IsZero. destruct (Z.eqb_spec (coefficient q) 0) as [Hz|Hz]; cbn [negb]; [done|].
  destruct (first_match P q) as [i|] eqn:Hm.
  - apply first_match_Some in Hm as (p & Hi & Hv). unfold update_term, Monomial_IsZero. rewrite Hi. cbn [coefficient].
    destruct (Z.eqb_spec (coefficient p + coefficient q) 0).
    + split; [rewrite RemoveAt_fmap; by apply RemoveAt_sorted|by apply RemoveAt_Forall].
    + split.
      * rewrite list_fmap_insert, list_insert_id; [done|]. cbn [vars]. by rewrite list_lookup_fmap, Hi.
      * apply Forall_insert; [done|]. split; cbn [coefficient vars]; [done|]. by rewrite Hv.
  - apply first_match_None in Hm. pose proof (Insert_sorted P q (sorted_vars P Hs)) as Hi.
    pose proof (Insert_new P q Hm) as [i Heq]. rewrite Heq in *.
    assert (Hp : take i P ++ q :: drop i P ≡ₚ q :: P) by (by rewrite <- Permutation_middle, take_drop).
    split; [apply vars_sorted; [done|]|]; rewrite Hp; [|by constructor].
    rewrite fmap_cons. apply NoDup_cons. split; [done|]. by apply sorted_NoDup.
Qed.

Lemma add_terms_ok P Q : poly_ok P -> Forall (fun q => StronglySorted le_ (vars q)) Q -> poly_ok (add_terms P Q).
Proof.
  unfold add_terms. intros HP HQ. revert P HP. induction HQ as [|q Q Hq HQ IH]; intros P HP; cbn [foldl]; [done|].
  apply IH. by apply AddTerm_ok.
Qed.

Lemma terms_vars P : poly_ok P -> Forall (fun q => StronglySorted le_ (vars q)) P.
Proof. intros [_ Hf]. eapply Forall_impl; [exact Hf|]. by intros p []. Qed.

Lemma map_vars (f : Monomial S -> Monomial S) P :
  (forall p, vars (f p) = vars p) -> poly_ok P -> Forall (fun q => StronglySorted le_ (vars q)) (map f P).
Proof. intros Hf HP%terms_vars. apply Forall_map. eapply Forall_impl; [exact HP|]. intros p Hp. by rewrite Hf. Qed.

Lemma Mul_ok P Q : poly_ok P -> poly_ok Q -> poly_ok (Mul P Q).
Proof.
  intros HP%terms_vars HQ%terms_vars. unfold Mul. pose proof poly_nil as HR. revert HR. generalize (@nil (Monomial S)) as R.
  induction HP as [|p P Hp HP IH]; intros R HR; cbn [foldl]; [done|]. apply IH. clear IH HP. revert R HR.
  induction HQ as [|q Q Hq HQ IH]; intros R HR; cbn [foldl]; [done|]. apply IH. apply AddTerm_ok; [done|]. by apply MergeSorted_sorted.
Qed.

(** *** One list of terms for one map of coefficients *)

Definition at_vars vs ws : Z := if is_eq (Cmp vs ws) then 1 else 0.

(** The coefficient of a list of variables *)
Definition coef P vs : Z := total (at_vars vs) P.

Lemma coef_cons p P vs : coef (p :: P) vs = coefficient p * at_vars vs (vars p) + coef P vs.
Proof. done. Qed.

Lemma at_vars_refl vs : at_vars vs vs = 1.
Proof. unfold at_vars. by rewrite Cmp_refl. Qed.

Lemma at_vars_ne vs ws : vs <> ws -> at_vars vs ws = 0.
Proof. intros Hne. unfold at_vars. destruct (Cmp vs ws) eqn:Hc; [by apply Cmp_eq in Hc|done..]. Qed.

Lemma coef_absent P vs : vs ∉ (vars <$> P) -> coef P vs = 0.
Proof.
  induction P as [|p P IH]; [done|]. rewrite fmap_cons, not_elem_of_cons. intros [Hne Hn]. rewrite coef_cons, IH, at_vars_ne by done. lia.
Qed.

Lemma coef_present P p : NoDup (vars <$> P) -> p ∈ P -> coef P (vars p) = coefficient p.
Proof.
  induction P as [|q P IH]; [by intros _ ?%not_elem_of_nil|]. rewrite fmap_cons. intros [Hn Hd]%NoDup_cons [->|Hp]%elem_of_cons; rewrite coef_cons.
  - rewrite at_vars_refl, coef_absent by done. lia.
  - rewrite IH, at_vars_ne; [lia| |done|done]. intros Heq. apply Hn. rewrite <- Heq. by apply list_elem_of_fmap_2.
Qed.

Lemma coef_elem P p : poly_ok P -> coefficient p <> 0 -> p ∈ P <-> coef P (vars p) = coefficient p.
Proof.
  intros [Hs Hf] Hz. pose proof (sorted_NoDup _ Hs) as Hd. split; [by apply coef_present|]. intros Hc.
  destruct (first_match P p) as [i|] eqn:Hm.
  - apply first_match_Some in Hm as (q & Hi & Hv). apply list_elem_of_lookup_2 in Hi. pose proof (coef_present P q Hd Hi) as Hq.
    rewrite Hv, Hc in Hq. destruct p, q. cbn in *. by subst.
  - apply first_match_None in Hm. by rewrite coef_absent in Hc.
Qed.

Lemma poly_unique P Q : poly_ok P -> poly_ok Q -> (forall vs, coef P vs = coef Q vs) -> P = Q.
Proof.
  intros HP HQ Heq. apply sorted_unique; [apply sorted_vars; apply HP|apply sorted_vars; apply HQ|]. intros p.
  assert (forall R, poly_ok R -> p ∈ R -> coefficient p <> 0) as Hz.
  { intros R [_ HR] Hp. rewrite Forall_forall in HR. by apply HR. }
  split; intros Hp.
  - pose proof (Hz P HP Hp). apply coef_elem; [done..|]. rewrite <- Heq. by apply coef_elem.
  - pose proof (Hz Q HQ Hp). apply coef_elem; [done..|]. rewrite Heq. by apply coef_elem.
Qed.

Lemma Monomial_Equal_spec p q : Monomial_Equal p q = true <-> p = q.
Proof.
  unfold Monomial_Equal. destruct (Nat.eqb_spec (length (vars p)) (length (vars q))) as [Hl|Hl]; cbn [negb].
  - destruct (Z.eqb_spec (coefficient p) (coefficient q)) as [Hc|Hc]; cbn [negb].
    + rewrite same_vars_eq by done. destruct p, q; cbn in *. split; [by intros ->; subst|by intros [= _ ->]].
    + split; [done|]. by intros ->.
  - split; [done|]. by intros ->.
Qed.

Lemma Equal_spec P Q : Equal P Q = true <-> P = Q.
Proof.
  unfold Equal. destruct (Nat.eqb_spec (length P) (length Q)) as [Hl|Hl]; cbn [negb]; [|split; [done|by intros ->]].
  revert Q Hl. induction P as [|p P IH]; intros [|q Q] Hl; cbn in *; try done.
  rewrite andb_true_iff, Monomial_Equal_spec, IH by lia. split; [by intros [-> ->]|by intros [= -> ->]].
Qed.

Lemma Cmp_poly_spec P Q : Cmp_poly P Q = Eq <-> P = Q.
Proof.
  revert Q. induction P as [|p P IH]; intros [|q Q]; cbn [Cmp_poly]; try done.
  destruct (Cmp p q) eqn:Hc; [apply Cmp_eq in Hc as ->; rewrite IH; split; congruence| |];
    (split; [done|]; intros [= -> ->]; by rewrite Cmp_refl in Hc).
Qed.

Lemma Shr_ok P n : 0 <= n -> poly_ok P -> poly_ok (fst (Shr P n)) /\ poly_ok (snd (Shr P n)).
Proof.
  intros Hn [Hs Hf].
  enough (forall Q, sorted (vars <$> P) -> Forall monomial_ok P -> Q = fst (Shr P n) \/ Q = snd (Shr P n) ->
          poly_ok Q /\ Forall (fun vs => vs ∈ (vars <$> P)) (vars <$> Q)) as He.
  { split; apply He; auto. }
  clear Hs Hf. induction P as [|p P IH]; intros Q Hs Hf HQ.
  { cbn in HQ. destruct HQ as [-> | ->]; (split; [apply poly_nil|constructor]). }
  rewrite fmap_cons in *. apply StronglySorted_inv in Hs as [Hs Hlt]. apply Forall_cons in Hf as [[_ Hp] Hf].
  rewrite Shr_cons in HQ. cbn [fst snd] in HQ. destruct (Monomial_Shr_spec p n Hn) as (_ & _ & _ & Hv1 & Hv2).
  assert (Hstep : forall q R, vars q = vars p -> R = fst (Shr P n) \/ R = snd (Shr P n) ->
            Q = (if negb (Monomial_IsZero q) then q :: R else R) ->
            poly_ok Q /\ Forall (fun vs => vs ∈ vars p :: (vars <$> P)) (vars <$> Q)).
  { intros q R Hq HR ->. destruct (IH R Hs Hf HR) as [[HRs HRf] HRi].
    assert (Hi : Forall (fun vs => vs ∈ vars p :: (vars <$> P)) (vars <$> R)).
    { eapply Forall_impl; [exact HRi|]. intros vs Hvs. by right. }
    unfold Monomial_IsZero. destruct (Z.eqb_spec (coefficient q) 0) as [Hz|Hz]; cbn [negb]; [done|]. split.
    - split; rewrite ?fmap_cons; constructor; try done; [|split; [done|by rewrite Hq]].
      rewrite Hq. eapply Forall_impl; [exact HRi|]. intros vs Hvs. rewrite Forall_forall in Hlt. by apply Hlt.
    - rewrite fmap_cons. constructor; [rewrite Hq; by left|done]. }
  destruct HQ as [HQ|HQ]; [apply (Hstep (fst (Monomial_Shr p n)) (fst (Shr P n)))|apply (Hstep (snd (Monomial_Shr p n)) (snd (Shr P n)))]; auto.
Qed.

(** ** Variables of a monomial *)

Lemma NewMonomial_vars c vs : StronglySorted le_ (vars (NewMonomial c vs)) /\ vars (NewMonomial c vs) ≡ₚ vs.
Proof. cbn [NewMonomial vars]. split; [apply SortFunc_spec|apply SortFunc_Permutation]. Qed.

Lemma Contains_spec p v : StronglySorted le_ (vars p) -> Contains p v = true <-> v ∈ vars p.
Proof.
  intros Hs. unfold Contains. pose proof (find_var_spec (vars p) v Hs) as Hf. destruct (snd _).
  - split; [|done]. intros _. by eapply list_elem_of_lookup_2.
  - by split.
Qed.

Lemma FactorOut_spec p v env :
  StronglySorted le_ (vars p) ->
  StronglySorted le_ (vars (FactorOut p v))
  /\ if Contains p v then evalTerm p env = env v * evalTerm (FactorOut p v) env else FactorOut p v = p.
Proof.
  intros Hs. unfold Contains, FactorOut. pose proof (find_var_spec (vars p) v Hs) as Hf.
  destruct (find_var (vars p) v) as [i []]; cbn [fst snd] in *; [|done]. split; [apply NewMonomial_vars|].
  rewrite !evalTerm_value, (proj2 (NewMonomial_vars _ _)). cbn [NewMonomial coefficient].
  unfold RemoveAt. pose proof (lookup_lt_Some _ _ _ Hf). destruct (Nat.leb_spec (length (vars p)) i); [lia|].
  rewrite <- (take_drop_middle (vars p) i v Hf) at 1. rewrite !vars_value_app. cbn [vars_value foldr].
  fold (vars_value env (drop (Datatypes.S i) (vars p))). lia.
Qed.

End Normal.

(** ** Properties *)

Module PolyProperties.
Section Properties.
Context {S : Type} `{!Comparable S, !CmpLaws S}.

(** C38: The value of a polynomial at a point is the sum of the values of its
    terms, and the operations on polynomials are those of the integers on values:
    whatever their terms, sums, differences, negations, products and products with
    scalars have the sum, the difference, the negation and the product of the values.
    A constant of 64 bits is read as a signed integer. *)
Theorem polynomial_values (P Q : ArrayPoly S) (terms : list (Monomial S)) (scalar val : Z) (env : S -> Z) :
  Eval (Set_ terms) env = foldr (fun p acc => evalTerm p env + acc) 0 terms
  /\ Eval (Add P Q) env = Eval P env + Eval Q env
  /\ Eval (Sub P Q) env = Eval P env - Eval Q env
  /\ Eval (Negate P) env = - Eval P env
  /\ Eval (Mul P Q) env = Eval P env * Eval Q env
  /\ Eval (MulScalar P scalar) env = Eval P env * scalar
  /\ Eval (AddScalar P scalar) env = Eval P env + scalar
  /\ Eval (Const64 val : ArrayPoly S) env = to_int64 val.
Proof.
  split_and!; [| | | |apply Mul_Eval| | |apply Const64_Eval]; rewrite ?Eval_total.
  - unfold Set_. rewrite add_terms_total. cbn [total foldr]. induction terms as [|p terms IH]; [done|].
    rewrite total_cons. cbn [foldr]. rewrite <- IH, evalTerm_value. cbn. lia.
  - apply add_terms_total.
  - unfold Sub. rewrite foldl_SubTerm, add_terms_total, (total_map _ Neg (-1)); [lia|]. intros p. cbn [Neg coefficient vars]. lia.
  - unfold Negate. rewrite add_terms_total, (total_map _ Monomial_Negate (-1)); [cbn [total foldr]; lia|]. intros p. cbn [Monomial_Negate coefficient vars]. lia.
  - unfold MulScalar. rewrite add_terms_total, (total_map _ _ scalar); [cbn [total foldr]; lia|]. intros p. cbn [Monomial_MulScalar coefficient vars]. lia.
  - unfold AddScalar. rewrite AddTerm_total. cbn. lia.
Qed.

(** C37: Every operation keeps polynomials in normal form: their terms are sorted
    by their variables, no two have the same, no coefficient is zero and the variables
    of each are sorted.  Whatever terms with sorted variables are given to [Set_], it
    builds such a polynomial, and [NewMonomial] sorts. *)
Theorem polynomial_invariant (P Q : ArrayPoly S) (terms : list (Monomial S)) (scalar val n : Z) (vs : list S) :
  poly_ok P -> poly_ok Q -> Forall (fun p => StronglySorted le_ (vars p)) terms -> 0 <= n ->
  poly_ok (Set_ terms) /\ poly_ok (Const64 val : ArrayPoly S) /\ StronglySorted le_ (vars (NewMonomial scalar vs))
  /\ poly_ok (Add P Q) /\ poly_ok (Sub P Q) /\ poly_ok (Negate P) /\ poly_ok (Mul P Q)
  /\ poly_ok (MulScalar P scalar) /\ poly_ok (AddScalar P scalar)
  /\ poly_ok (fst (Shr P n)) /\ poly_ok (snd (Shr P n)).
Proof.
  intros HP HQ Ht Hn. split_and!.
  - by apply add_terms_ok; [apply poly_nil|].
  - unfold Const64. destruct (val =? 0); [apply poly_nil|]. apply add_terms_ok; [apply poly_nil|]. repeat constructor.
  - apply NewMonomial_vars.
  - by apply add_terms_ok, terms_vars.
  - unfold Sub. rewrite foldl_SubTerm. by apply add_terms_ok, map_vars.
  - apply add_terms_ok; [apply poly_nil|by apply map_vars].
  - by apply Mul_ok.
  - apply add_terms_ok; [apply poly_nil|by apply map_vars].
  - apply AddTerm_ok; [done|constructor].
  - by apply Shr_ok.
  - by apply Shr_ok.
Qed.

(** Polynomials in normal form are determined by their coefficients: [Equal]
    and [Cmp] tell whether two of them have the same coefficient at every list of
    variables.  So the order of a sum does not matter, and a difference is empty
    exactly when both are equal. *)
Theorem polynomial_equal (P Q : ArrayPoly S) :
  poly_ok P -> poly_ok Q ->
  (Equal P Q = true <-> forall vs, coef P vs = coef Q vs)
  /\ (Cmp_poly P Q = Eq <-> forall vs, coef P vs = coef Q vs)
  /\ Add P Q = Add Q P /\ (Sub P Q = [] <-> P = Q).
Proof.
  intros HP HQ. rewrite Equal_spec, Cmp_poly_spec.
  assert (Hu : P = Q <-> forall vs, coef P vs = coef Q vs) by (split; [by intros ->|by apply poly_unique]).
  assert (Hsub : forall vs, coef (Sub P Q) vs = coef P vs - coef Q vs).
  { intros vs. unfold coef, Sub. rewrite foldl_SubTerm, add_terms_total, (total_map _ Neg (-1)); [lia|]. intros p. cbn [Neg coefficient vars]. lia. }
  split_and!; [done|done| |].
  - apply poly_unique; [by apply add_terms_ok, terms_vars..|]. intros vs. unfold coef, Add. rewrite !add_terms_total. lia.
  - rewrite Hu. split.
    + intros Hs vs. specialize (Hsub vs). rewrite Hs in Hsub. cbn in Hsub. lia.
    + intros Heq. apply poly_unique; [|apply poly_nil|].
      * unfold Sub. rewrite foldl_SubTerm. by apply add_terms_ok, map_vars.
      * intros vs. rewrite Hsub, Heq. cbn. lia.
Qed.

(** A polynomial shifted by [n] bits is [2 ^ n] times its quotient plus its
    remainder, whose coefficients are below [2 ^ n] in absolute value; a monomial is
    a variable that it contains times the monomial without one occurrence of it, and
    [Contains] finds the variables that are there. *)
Theorem polynomial_division (P : ArrayPoly S) (p : Monomial S) (v : S) (n : Z) (env : S -> Z) :
  0 <= n -> StronglySorted le_ (vars p) ->
  Eval P env = 2 ^ n * Eval (fst (Shr P n)) env + Eval (snd (Shr P n)) env
  /\ Forall (fun q => Z.abs (coefficient q) < 2 ^ n) (snd (Shr P n))
  /\ (Poly.Contains p v = true <-> v ∈ vars p)
  /\ evalTerm p env = (if Poly.Contains p v then env v else 1) * evalTerm (FactorOut p v) env.
Proof.
  intros Hn Hp. rewrite !Eval_total. split_and!.
  - by apply Shr_total.
  - by apply Shr_bound.
  - by apply Contains_spec.
  - destruct (FactorOut_spec p v env Hp) as [_ Hf]. destruct (Poly.Contains p v); [done|]. rewrite Hf. lia.
Qed.

End Properties.

Definition sample : ArrayPoly nat := Set_ [NewMonomial 6 [2; 1]%nat; NewMonomial (-3) []; NewMonomial 1 [1]%nat].

Lemma sample_ok : poly_ok sample.
Proof. apply add_terms_ok; [apply poly_nil|]. repeat constructor; apply NewMonomial_vars. Qed.

Lemma polynomial_values_witness : Eval (Mul sample sample) Z.of_nat = 10 * 10.
Proof. exact (proj1 (proj2 (proj2 (proj2 (proj2 (polynomial_values sample sample [] 0 0 Z.of_nat)))))). Defined.

Lemma polynomial_invariant_witness : poly_ok (Mul sample sample).
Proof.
  exact (proj1 (proj2 (proj2 (proj2 (proj2 (proj2 (proj2
    (polynomial_invariant sample sample [] 0 0 0 [] sample_ok sample_ok (Forall_nil_2 _) (Z.le_refl 0))))))))).
Defined.

Lemma polynomial_equal_witness : Add sample sample = Add sample sample /\ (Sub sample sample = [] <-> sample = sample).
Proof. exact (proj2 (proj2 (polynomial_equal sample sample sample_ok sample_ok))). Defined.

Lemma polynomial_division_witness : Eval sample Z.of_nat = 4 * Eval (fst (Shr sample 2)) Z.of_nat + Eval (snd (Shr sample 2)) Z.of_nat.
Proof.
  refine (proj1 (polynomial_division sample (NewMonomial 6 [2; 1]%nat) 1%nat 2 Z.of_nat _ _)); [lia|].
  apply NewMonomial_vars.
Defined.

(** A constant of [2 ^ 63] or more is read as a negative one. *)
Example Const64_wraps : (Const64 (2 ^ 63) : ArrayPoly nat) = [mkMonomial (- 2 ^ 63) []].
Proof. reflexivity. Qed.

End PolyProperties.
