(* ===== verification/Vectorize.v ===== *)
(** * Vectorisation

    Models [pkg/zkc/compiler/codegen/vectorize.go]: the pass that merges the
    micro-instructions of a function into as few vectors as it can, by pulling the
    targets of jumps into the vectors that jump to them.

    A vector is the list of its codes; merging makes new lists, and the vectors that
    pruning renames are no longer shared with anything.  An entry of [externs] is
    [None] for [math.MaxUint], the offset of what has not been absorbed.  The stack of
    the worklist has its top first.  Differences of offsets do not wrap around, since
    the offsets of an inlined vector grow with those it comes from. *)

From Stdlib Require Import ZArith Lia.
From stdpp Require Import base numbers list option strings.
From S2P Require Import Prelude Word Register Memory Instruction Executor Machine Dfa.

Open Scope nat_scope.

Section Vectorize.
Context {W : Type} `{!Word W}.
Implicit Types (codes vec target : Vector W) (code : list (Vector W)) (externs : list (option nat)).

(** ** Preparation *)

Definition endsInTerminator codes : bool :=
  match last codes with
  | None => false
  | Some c => match OpCode_of c with JUMP | RETURN | FAIL => true | _ => false end
  end.

Definition prepareCode code : list (Vector W) :=
  let n := length code in
  imap (fun pc codes =>
    if negb (endsInTerminator codes) && (pc + 1 <? n) then codes ++ [NewJump (pc + 1)] else codes) code.

(** ** Jumps *)

(** [lastJump]: the loop over [codes[:n]], from its end *)
Fixpoint lastJump codes (n : nat) : result (option nat) :=
  match n with
  | O => Ok None
  | S i => c ← slice_get codes i; if decide (OpCode_of c = JUMP) then Ok (Some i) else lastJump codes i
  end.

(** The target of [vec.Codes[index]] as an [instruction.Jump] *)
Definition jump_target vec (index : nat) : result nat :=
  c ← slice_get vec index;
  match c with OpImm _ target => Ok target | _ => Fault bad_type end.

Definition updateMicroMap externs (index target ncodes : nat) : result (list (option nat)) :=
  externs ← slice_set externs target (Some index);
  let shift (offset : nat) := if index <? offset then offset + ncodes - 1 else offset in
  Ok (map (option_map shift) externs).

Definition replaceJump vec (jmpIndex offset : nat) : result (Vector W) :=
  if offset <=? jmpIndex then Fault (Panic "cannot skip backwards")
  else slice_set vec jmpIndex (Skip (offset - jmpIndex - 1)).

(** The first loop of [inlineJump]: the mapping of the [n] codes from [cc] on *)
Fixpoint inline_mapping (jmpIndex ntarget cc npc n : nat) : list nat :=
  match n with
  | O => []
  | S n => npc :: inline_mapping jmpIndex ntarget (S cc) (if cc =? jmpIndex then npc + ntarget else S npc) n
  end.

(** Its second loop: the new codes, from [cc] and [npc] on *)
Fixpoint inline_codes (mapping : list nat) (jmpIndex : nat) target (cc npc : nat) codes : result (Vector W) :=
  match codes with
  | [] => Ok []
  | c :: codes =>
      let put c := rest ← inline_codes mapping jmpIndex target (S cc) (S npc) codes; Ok (c :: rest) in
      match c with
      | OpImm JUMP _ =>
          if cc =? jmpIndex then
            rest ← inline_codes mapping jmpIndex target (S cc) (npc + length target) codes; Ok (target ++ rest)
          else put c
      | Skip skip => t ← slice_get mapping (cc + 1 + skip); put (Skip (t - npc - 1))
      | SkipIf cond l r skip => t ← slice_get mapping (cc + 1 + skip); put (SkipIf cond l r (t - npc - 1))
      | _ => put c
      end
  end.

Definition inlineJump vec (jmpIndex : nat) target : result (Vector W) :=
  inline_codes (inline_mapping jmpIndex (length target) 0 0 (length vec)) jmpIndex target 0 0 vec.

(** ** Conflicts *)

(** The loops of [validateConflicts] over the registers of one code; [false] is an
    error, which names the register. *)
Fixpoint no_hazard (bad : nat -> bool) (regs : list Register.t) (rs : list nat) : result bool :=
  match rs with
  | [] => Ok true
  | r :: rs => if bad r then _ ← slice_get regs r; Ok false else no_hazard bad regs rs
  end.

Fixpoint no_hazards (regs : list Register.t) (writes : list (option Writes.t)) (i : nat) codes : result bool :=
  match codes with
  | [] => Ok true
  | ith :: codes =>
      st ← StateOf writes i;
      raw ← no_hazard (fun r => Writes.MaybeAssigned st r && negb (Writes.DefinitelyAssigned st r)) regs (Uses ith);
      if raw : bool then
        waw ← no_hazard (Writes.MaybeAssigned st) regs (Definitions ith);
        if waw : bool then no_hazards regs writes (S i) codes else Ok false
      else Ok false
  end.

Definition validateConflicts (regs : list Register.t) vec : result bool :=
  writes ← WriteMap vec; no_hazards regs writes 0 vec.

(** ** Merging *)

Section Merge.
Context (pc : nat) (code : list (Vector W)) (regs : list Register.t).

(** The attempt to merge the jump at [index]: the vector and the offsets when it is
    accepted *)
Definition merge_at vec externs (index : nat) : result (option (Vector W * list (option nat))) :=
  jmpTarget ← jump_target vec index;
  offset ← slice_get externs jmpTarget;
  if match offset with Some offset => index <? offset | None => true end && negb (jmpTarget =? pc) then
    target ← slice_get code jmpTarget;
    nvec ← (match offset with
            | Some offset => replaceJump vec index offset
            | None => inlineJump vec index target
            end);
    valid ← validateConflicts regs nvec;
    if valid : bool then
      externs ← (match offset with
                 | None => updateMicroMap externs index jmpTarget (length target)
                 | Some _ => Ok externs
                 end);
      Ok (Some (nvec, externs))
    else Ok None
  else Ok None.

(** [for ok]: the jumps before [n], from the right, until one is merged *)
Fixpoint merge_jumps (fuel : nat) vec externs (n : nat) : result (option (Vector W * list (option nat))) :=
  match fuel with
  | O => Fault OutOfFuel
  | S fuel =>
      o ← lastJump vec n;
      match o with
      | None => Ok None
      | Some index =>
          merged ← merge_at vec externs index;
          match merged with
          | Some r => Ok (Some r)
          | None => merge_jumps fuel vec externs index
          end
      end
  end.

(** [for changed] *)
Fixpoint merge_loop (fuel : nat) vec externs : result (Vector W) :=
  match fuel with
  | O => Fault OutOfFuel
  | S fuel =>
      merged ← merge_jumps (S (length vec)) vec externs (length vec);
      match merged with
      | Some (vec, externs) => merge_loop fuel vec externs
      | None => Ok vec
      end
  end.

Definition is_jump (c : Instruction W) : bool := bool_decide (OpCode_of c = JUMP).

Definition jumps codes : nat := length (List.filter is_jump codes).

(** Every merge removes one of the jumps of the vector or of what it can absorb. *)
Definition merge_fuel vec : nat := S (jumps vec + sum_list (jumps <$> code)).

Definition vectorizeInstruction : result (Vector W) :=
  vec ← slice_get code pc; merge_loop (merge_fuel vec) vec (replicate (length code) None).

End Merge.

(** ** The worklist *)

(** [markJumpTargets], on the jumps before [n] *)
Fixpoint mark_jumps (fuel : nat) vec (n : nat) (visited : list bool) (worklist : list nat) : result (list bool * list nat) :=
  match fuel with
  | O => Fault OutOfFuel
  | S fuel =>
      o ← lastJump vec n;
      match o with
      | None => Ok (visited, worklist)
      | Some index =>
          target ← jump_target vec index;
          seen ← slice_get visited target;
          if seen : bool then mark_jumps fuel vec index visited worklist
          else
            visited ← slice_set visited target true;
            mark_jumps fuel vec index visited (target :: worklist)
      end
  end.

Definition markJumpTargets vec (visited : list bool) (worklist : list nat) : result (list bool * list nat) :=
  mark_jumps (S (length vec)) vec (length vec) visited worklist.

Fixpoint worklist_loop (fuel : nat) (prepared : list (Vector W)) (regs : list Register.t) (insns : list (Vector W))
    (visited : list bool) (worklist : list nat) : result (list (Vector W)) :=
  match fuel with
  | O => Fault OutOfFuel
  | S fuel =>
      match worklist with
      | [] => Ok insns
      | pc :: worklist =>
          insn ← vectorizeInstruction pc prepared regs;
          insns ← slice_set insns pc insn;
          '(visited, worklist) ← markJumpTargets insn visited worklist;
          worklist_loop fuel prepared regs insns visited worklist
      end
  end.

(** ** Pruning *)

(** The mapping to compacted positions *)
Fixpoint compacted (kept : nat) (insns : list (Vector W)) : list nat :=
  match insns with
  | [] => []
  | [] :: insns => 0 :: compacted kept insns
  | _ :: insns => kept :: compacted (S kept) insns
  end.

Fixpoint rebind (mapping : list nat) codes : result (Vector W) :=
  match codes with
  | [] => Ok []
  | c :: codes =>
      c' ← (if decide (OpCode_of c = JUMP) then
              match c with
              | OpImm _ jmpTarget => t ← slice_get mapping jmpTarget; Ok (NewJump t)
              | _ => Fault bad_type
              end
            else Ok c);
      codes' ← rebind mapping codes;
      Ok (c' :: codes')
  end.

Fixpoint rebind_all (mapping : list nat) (kept : list (Vector W)) : result (list (Vector W)) :=
  match kept with
  | [] => Ok []
  | vec :: kept => vec' ← rebind mapping vec; kept' ← rebind_all mapping kept; Ok (vec' :: kept')
  end.

Definition non_empty vec : bool := negb (length vec =? 0).

Definition pruneUnreachableInstructions (insns : list (Vector W)) : result (list (Vector W)) :=
  rebind_all (compacted 0 insns) (List.filter non_empty insns).

(** ** Functions *)

Definition vectorizeCode code (regs : list Register.t) : result (list (Vector W)) :=
  let n := length code in
  visited ← slice_set (replicate n false) 0 true;
  insns ← worklist_loop (S n) (prepareCode code) regs (replicate n []) visited [0];
  pruneUnreachableInstructions insns.

Definition vectorizeFunction (fn : Function W) : result (Function W) :=
  if length (code fn) =? 0 then Ok fn
  else
    insns ← vectorizeCode (code fn) (registers fn);
    Instruction.New (name fn) (native fn) (registers fn) insns.

Fixpoint Vectorize (modules : list (Module_ W)) : result (list (Module_ W)) :=
  match modules with
  | [] => Ok []
  | m :: modules =>
      m' ← (match m with MFunction fn => MFunction <$> vectorizeFunction fn | MMemory _ => Ok m end);
      modules' ← Vectorize modules;
      Ok (m' :: modules')
  end.

End Vectorize.
