(* ===== verification/CodeSim.v ===== *)
(** * Machines that run related code

    When every function of one machine is a rearrangement of the corresponding
    function of another, both machines compute the same.  A rearrangement relates the
    program counters of both: related ones have the same micro-instruction, up to
    where it goes, and what follows is related after some jumps of the other function.
    One step of the first machine is then one step of the other after those jumps. *)

From Stdlib Require Import ZArith Lia.
From stdpp Require Import base numbers list option strings.
From S2P Require Import Prelude Word Register Memory Instruction Executor Machine Dfa.

Open Scope nat_scope.

(** ** Related code *)

Section Code.
Context {W : Type} `{!Word W}.
Implicit Types (C D : list (Vector W)) (c : Instruction W) (O : PC.t -> PC.t -> Prop).

Definition code_at C (p : PC.t) : option (Instruction W) := vec ← C !! PC.Macro p; vec !! PC.Micro p.

(** Where control is when it reaches the [j]th code of a vector with [width] codes *)
Definition settle (macro width j : nat) : PC.t := if width <=? j then PC.mk (S macro) 0 else PC.mk macro j.

(** The jumps of [C] lead from one program counter to another. *)
Inductive leads C : PC.t -> PC.t -> Prop :=
  | leads_refl p : leads C p p
  | leads_jump p t q : code_at C p = Some (NewJump t) -> leads C (PC.mk t 0) q -> leads C p q.

Lemma leads_trans C p q r : leads C p q -> leads C q r -> leads C p r.
Proof. induction 1 as [|p t q Hc Hl IH]; [done|]. intros Hr. econstructor; [exact Hc|by apply IH]. Qed.

Lemma leads_one C p t : code_at C p = Some (NewJump t) -> leads C p (PC.mk t 0).
Proof. intros Hc. econstructor; [exact Hc|constructor]. Qed.

Definition follows C O (p' p : PC.t) : Prop := exists q, leads C p q /\ O p' q.

(** The same micro-instruction, up to the width of a skip *)
Definition kin (c' c : Instruction W) : Prop :=
  match c with
  | Skip _ => exists n, c' = Skip n
  | SkipIf k l r _ => exists n, c' = SkipIf k l r n
  | OpImm JUMP _ => False
  | _ => c' = c
  end.

(** What [c'], in a vector of [w'] codes, and [c], in one of [w], do from related
    program counters *)
Inductive matched C O (p' p : PC.t) (w' w : nat) : Instruction W -> Instruction W -> Prop :=
  | matched_jump t' t : follows C O (PC.mk t' 0) (PC.mk t 0) -> matched C O p' p w' w (NewJump t') (NewJump t)
  | matched_skip n t :
      follows C O (settle (PC.Macro p') w' (PC.Micro p' + n + 1)) (PC.mk t 0) -> matched C O p' p w' w (Skip n) (NewJump t)
  | matched_kin c' c :
      kin c' c -> shaped c ->
      Forall2 (fun arc' arc => follows C O (settle (PC.Macro p') w' arc'.1) (settle (PC.Macro p) w arc.1))
        (arcs (PC.Micro p') c') (arcs (PC.Micro p) c) ->
      matched C O p' p w' w c' c.

Record simulates D C O : Prop := {
  sim_entry : follows C O (PC.mk 0 0) (PC.mk 0 0);
  sim_step p' p :
    O p' p ->
    exists vec' vec c' c, D !! PC.Macro p' = Some vec' /\ vec' !! PC.Micro p' = Some c'
      /\ C !! PC.Macro p = Some vec /\ vec !! PC.Micro p = Some c
      /\ matched C O p' p (length vec') (length vec) c' c
}.

Lemma Next_settle (p : PC.t) width : PC.Next p width = settle (PC.Macro p) width (PC.Micro p + 1).
Proof. unfold PC.Next, settle, PC.Goto. by rewrite Nat.add_1_r. Qed.

Lemma Next_skip (p : PC.t) n width : PC.Next (PC.Skip p n) width = settle (PC.Macro p) width (PC.Micro p + n + 1).
Proof. rewrite Next_settle. unfold PC.Skip. done. Qed.

End Code.

(** ** Related results *)

Definition related {A} (R : A -> A -> Prop) (r' r : result A) : Prop :=
  match r', r with
  | Ok a', Ok a => R a' a
  | Fault f', Fault f => f' = f
  | _, _ => False
  end.

Lemma related_refl {A} (R : A -> A -> Prop) r : (forall a, R a a) -> related R r r.
Proof. intros HR. destruct r; cbn; auto. Qed.

Lemma related_bind {A B} (R : A -> A -> Prop) (Q : B -> B -> Prop) (r' r : result A) (k' k : A -> result B) :
  related R r' r -> (forall a' a, R a' a -> related Q (k' a') (k a)) -> related Q (r' ≫= k') (r ≫= k).
Proof. destruct r' as [a'|f'], r as [a|f]; cbn; try done. intros HR Hk. by apply Hk. Qed.

Lemma related_same {A B} (Q : B -> B -> Prop) (r : result A) (k' k : A -> result B) :
  (forall a, related Q (k' a) (k a)) -> related Q (r ≫= k') (r ≫= k).
Proof. intros Hk. apply (related_bind eq); [by apply related_refl|]. by intros a ? ->. Qed.

(** ** Frames of calls *)

Section Frames.
Context {W : Type} `{!Word W}.
Implicit Types (fr boot caller callee : Frame.t W) (pre : list (Frame.t W)).

Lemma store_args_keeps i args (frame : list W) boot fr :
  store_args i args frame boot = Ok fr -> Frame.functionId fr = Frame.functionId boot /\ Frame.pc fr = Frame.pc boot.
Proof.
  revert i boot. induction args as [|a args IH]; intros i boot; cbn [store_args]; [by intros [= <-]|].
  intros H. inv_ok. apply Store_ok in Ha0 as [_ ->]. by apply IH in H.
Qed.

(** Returned values do not depend on program counters. *)
Lemma write_returns_goto i rets callee caller pc1 pc2 :
  write_returns i rets (Frame.Goto callee pc1) (Frame.Goto caller pc2)
  = (fr ← write_returns i rets callee caller; Ok (Frame.Goto fr pc2)).
Proof.
  revert i caller. induction rets as [|r rets IH]; intros i caller; cbn [write_returns]; [done|].
  change (Frame.Return (Frame.Goto callee pc1) i) with (Frame.Return callee i).
  destruct (Frame.Return callee i) as [v|]; [|done]. cbn [mbind result_bind]. unfold Frame.Store. cbn [Frame.Goto Frame.registers].
  destruct (slice_set (Frame.registers caller) r v) as [l|]; [|done]. cbn [fmap result_fmap mbind result_bind].
  apply (IH (S i) (Frame.with_registers caller l)).
Qed.

Lemma write_returns_keeps i rets callee caller fr :
  write_returns i rets callee caller = Ok fr ->
  Frame.functionId fr = Frame.functionId caller /\ Frame.pc fr = Frame.pc caller.
Proof.
  revert i caller. induction rets as [|r rets IH]; intros i caller; cbn [write_returns]; [by intros [= <-]|].
  intros H. inv_ok. apply Store_ok in Ha0 as [_ ->]. by apply IH in H.
Qed.

(** What the removal of the top of the stack does *)
Lemma Leave_top p pre caller callee :
  callstack p = pre ++ [caller; callee] ->
  Leave p = (fr ← write_returns 0 (Frame.returns callee) callee caller; Ok (false, with_callstack p (pre ++ [fr]))).
Proof.
  intros Hc. unfold Leave. assert (Hc' : callstack p = (pre ++ [caller]) ++ [callee]) by (rewrite Hc, <-app_assoc; done).
  rewrite Hc', top_lookup, top_index. cbn -[take write_returns].
  rewrite take_app_length, length_app. cbn [length].
  replace (length pre + 1) with (S (length pre)) by lia. cbn [Nat.leb Nat.sub]. rewrite Nat.sub_0_r, get_app.
  cbn -[take write_returns]. destruct (write_returns _ _ _ _); [|done]. cbn. by rewrite set_app.
Qed.

End Frames.

(** ** Related machines *)

Section Machines.
Context {W : Type} `{!Word W}.
Context (O : nat -> PC.t -> PC.t -> Prop).
Implicit Types (p q : Base W) (fr : Frame.t W) (pre : list (Frame.t W)) (ms : list (Module_ W)).

Definition module_related (id : nat) (m' m : Module_ W) : Prop :=
  match m', m with
  | MFunction f', MFunction f =>
      name f' = name f /\ registers f' = registers f /\ simulates (code f') (code f) (O id)
  | MMemory m', MMemory m => m' = m
  | _, _ => False
  end.

Definition modules_related ms' ms : Prop :=
  length ms' = length ms /\ forall id m' m, ms' !! id = Some m' -> ms !! id = Some m -> module_related id m' m.

(** Frames that wait for a call to return *)
Definition waiting ms fr' fr : Prop :=
  fr' = Frame.Goto fr (Frame.pc fr') /\ O (Frame.functionId fr) (Frame.pc fr') (Frame.pc fr)
  /\ exists id args rets width regs, fetch ms fr = Some (OpIo CALL id args rets, width, regs).

Definition code_of ms fr : option (list (Vector W)) :=
  m ← ms !! Frame.functionId fr; match m with MFunction f => Some (code f) | MMemory _ => None end.

(** Frames that run *)
Definition running ms fr' fr : Prop :=
  fr' = Frame.Goto fr (Frame.pc fr')
  /\ exists C, code_of ms fr = Some C /\ follows C (O (Frame.functionId fr)) (Frame.pc fr') (Frame.pc fr).

Inductive stacks_related ms : list (Frame.t W) -> list (Frame.t W) -> Prop :=
  | stacks_empty : stacks_related ms [] []
  | stacks_top pre' pre fr' fr :
      Forall2 (waiting ms) pre' pre -> running ms fr' fr -> stacks_related ms (pre' ++ [fr']) (pre ++ [fr]).

Record machines_related p' p : Prop := {
  rel_modules : modules_related (modules p') (modules p);
  rel_executor : executor p' = executor p;
  rel_stdout : stdout p' = stdout p;
  rel_stack : stacks_related (modules p) (callstack p') (callstack p)
}.

(** Machines whose top frames are at the same micro-instruction *)
Record aligned p' p pre' fr' pre fr : Prop := {
  al_modules : modules_related (modules p') (modules p);
  al_executor : executor p' = executor p;
  al_stdout : stdout p' = stdout p;
  al_stack' : callstack p' = pre' ++ [fr'];
  al_stack : callstack p = pre ++ [fr];
  al_pre : Forall2 (waiting (modules p)) pre' pre;
  al_frame : fr' = Frame.Goto fr (Frame.pc fr');
  al_code : is_Some (code_of (modules p) fr);
  al_at : O (Frame.functionId fr) (Frame.pc fr') (Frame.pc fr)
}.

Lemma fetch_memory ms id m m' fr : ms !! id = Some (MMemory m) -> fetch (<[id := MMemory m']> ms) fr = fetch ms fr.
Proof.
  intros Hm. unfold fetch. destruct (decide (Frame.functionId fr = id)) as [->|Hne].
  - rewrite Hm, list_lookup_insert_eq; [done|]. by eapply lookup_lt_Some.
  - by rewrite list_lookup_insert_ne.
Qed.

Lemma code_of_memory ms id m m' fr : ms !! id = Some (MMemory m) -> code_of (<[id := MMemory m']> ms) fr = code_of ms fr.
Proof.
  intros Hm. unfold code_of. destruct (decide (Frame.functionId fr = id)) as [->|Hne].
  - rewrite Hm, list_lookup_insert_eq; [done|]. by eapply lookup_lt_Some.
  - by rewrite list_lookup_insert_ne.
Qed.

Lemma waiting_memory ms id m m' pre' pre :
  ms !! id = Some (MMemory m) -> Forall2 (waiting ms) pre' pre -> Forall2 (waiting (<[id := MMemory m']> ms)) pre' pre.
Proof.
  intros Hm Hf2. eapply Forall2_impl; [exact Hf2|]. intros fr' fr (Hf & Ho & Hc). split_and!; [done|done|]. by rewrite (fetch_memory _ _ m).
Qed.

Lemma modules_memory ms' ms id m m' :
  modules_related ms' ms -> ms !! id = Some (MMemory m) ->
  modules_related (<[id := MMemory m']> ms') (<[id := MMemory m']> ms).
Proof.
  intros [Hl Hr] Hm. split; [by rewrite !length_insert|]. intros i a' a. pose proof (lookup_lt_Some _ _ _ Hm).
  destruct (decide (i = id)) as [->|Hne].
  - rewrite !list_lookup_insert_eq by lia. by intros [= <-] [= <-].
  - rewrite !list_lookup_insert_ne by done. apply Hr.
Qed.

Lemma modules_get ms' ms id : modules_related ms' ms -> related (module_related id) (slice_get ms' id) (slice_get ms id).
Proof.
  intros [Hl Hr]. unfold slice_get. destruct (ms !! id) as [m|] eqn:Hm.
  - destruct (lookup_lt_is_Some_2 ms' id) as [m' Hm']; [rewrite Hl; by eapply lookup_lt_Some|]. rewrite Hm'. cbn. by eapply Hr.
  - apply lookup_ge_None in Hm. by rewrite lookup_ge_None_2 by lia.
Qed.

(** ** Steps of aligned machines *)

Section Aligned.
Context p' p pre' fr' pre fr (Hal : aligned p' p pre' fr' pre fr).

Lemma aligned_code :
  exists f (vec' vec : Vector W) c' c,
    modules p !! Frame.functionId fr = Some (MFunction f)
    /\ fetch (modules p') fr' = Some (c', length vec', registers f)
    /\ fetch (modules p) fr = Some (c, length vec, registers f)
    /\ matched (code f) (O (Frame.functionId fr)) (Frame.pc fr') (Frame.pc fr) (length vec') (length vec) c' c.
Proof.
  destruct Hal as [[Hl Hr] _ _ _ _ _ Hf [C Hc] Ho]. unfold code_of in Hc.
  destruct (modules p !! Frame.functionId fr) as [[f|m]|] eqn:Hm; cbn in Hc; try done.
  destruct (lookup_lt_is_Some_2 (modules p') (Frame.functionId fr)) as [m' Hm']; [rewrite Hl; by eapply lookup_lt_Some|].
  pose proof (Hr _ _ _ Hm' Hm) as Hmr. destruct m' as [f'|m']; [|done]. destruct Hmr as (_ & Hregs & Hs).
  destruct (sim_step _ _ _ Hs _ _ Ho) as (vec' & vec & c' & c & Hv' & Hc' & Hv & Hcc & Hmat).
  exists f, vec', vec, c', c. split; [done|]. rewrite <- Hregs. split_and!; [| |done].
  - unfold fetch. assert (Frame.functionId fr' = Frame.functionId fr) as -> by (by rewrite Hf). rewrite Hm'. cbn. rewrite Hv'. cbn. by rewrite Hc'.
  - unfold fetch. rewrite Hm. cbn. rewrite Hv. cbn. rewrite Hcc. by rewrite Hregs.
Qed.

Lemma aligned_registers : Frame.registers fr' = Frame.registers fr.
Proof. by rewrite (al_frame _ _ _ _ _ _ Hal). Qed.

(** The machines after a step that changes the top frames, the output and the memories *)
Lemma aligned_next f frame pc' pc out ms' ms :
  modules p !! Frame.functionId fr = Some (MFunction f) -> follows (code f) (O (Frame.functionId fr)) pc' pc ->
  (ms' = modules p' /\ ms = modules p
   \/ exists id m m', modules p !! id = Some (MMemory m) /\ ms' = <[id := MMemory m']> (modules p')
        /\ ms = <[id := MMemory m']> (modules p)) ->
  machines_related
    (mkBase ms' (pre' ++ [Frame.Goto (Frame.with_registers fr' frame) pc']) (executor p') out)
    (mkBase ms (pre ++ [Frame.Goto (Frame.with_registers fr frame) pc]) (executor p) out).
Proof.
  intros Hm Hfo Hms. destruct Hal as [Hmod He Ho Hs' Hs Hpre Hf Hc Hat].
  assert (Hrun : running (modules p) (Frame.Goto (Frame.with_registers fr' frame) pc') (Frame.Goto (Frame.with_registers fr frame) pc)).
  { split; [by rewrite Hf|]. exists (code f). unfold code_of. cbn. by rewrite Hm. }
  destruct Hms as [[-> ->]|(id & m & m' & Hid & -> & ->)]; split; cbn; try done.
  - by constructor.
  - by apply (modules_memory _ _ _ m).
  - constructor; [by apply (waiting_memory _ _ m)|]. destruct Hrun as [Heq (C & HC & Hfl)]. split; [done|].
    exists C. by rewrite (code_of_memory _ _ m).
Qed.

Lemma with_registers_eta (x : Frame.t W) : Frame.with_registers x (Frame.registers x) = x.
Proof. by destruct x. Qed.

Lemma aligned_move f pc' pc out :
  modules p !! Frame.functionId fr = Some (MFunction f) -> follows (code f) (O (Frame.functionId fr)) pc' pc ->
  machines_related
    (mkBase (modules p') (pre' ++ [Frame.Goto fr' pc']) (executor p') out)
    (mkBase (modules p) (pre ++ [Frame.Goto fr pc]) (executor p) out).
Proof.
  intros Hm Hfo. pose proof (aligned_next f (Frame.registers fr) pc' pc out (modules p') (modules p) Hm Hfo (or_introl (conj eq_refl eq_refl))) as Hr.
  rewrite with_registers_eta, <- aligned_registers, with_registers_eta in Hr. done.
Qed.

#[local] Ltac at_top := rewrite ?(al_stack' _ _ _ _ _ _ Hal), ?(al_stack _ _ _ _ _ _ Hal), ?top_lookup, ?top_index; cbn [mbind result_bind OpCode_of].

#[local] Ltac at_goto :=
  rewrite ?(goto_at_top p' pre' fr') by apply Hal; rewrite ?(goto_at_top p pre fr) by apply Hal; cbn [related].

(** One lemma for each way a micro-instruction ends *)
Lemma aligned_skip f pc' pc :
  modules p !! Frame.functionId fr = Some (MFunction f) -> follows (code f) (O (Frame.functionId fr)) pc' pc ->
  related machines_related (goto_at p' (length pre') pc') (goto_at p (length pre) pc).
Proof. intros Hm Hfo. at_goto. unfold with_callstack. rewrite (al_stdout _ _ _ _ _ _ Hal). by apply (aligned_move f). Qed.

Lemma aligned_store f (r : result (list W)) pc' pc :
  modules p !! Frame.functionId fr = Some (MFunction f) -> follows (code f) (O (Frame.functionId fr)) pc' pc ->
  related machines_related
    (frame ← r; q ← store_at p' (length pre') frame; goto_at q (length pre') pc')
    (frame ← r; q ← store_at p (length pre) frame; goto_at q (length pre) pc).
Proof.
  intros Hm Hfo. apply related_same. intros frame.
  rewrite (store_at_top p' pre' fr'), (store_at_top p pre fr) by apply Hal. cbn [mbind result_bind].
  rewrite (goto_at_top _ pre' (Frame.with_registers fr' frame)), (goto_at_top _ pre (Frame.with_registers fr frame)) by done.
  cbn. unfold with_callstack. cbn. rewrite (al_stdout _ _ _ _ _ _ Hal). apply (aligned_next f); auto.
Qed.

Lemma aligned_print f msg pc' pc :
  modules p !! Frame.functionId fr = Some (MFunction f) -> follows (code f) (O (Frame.functionId fr)) pc' pc ->
  related machines_related (goto_at (print p' msg) (length pre') pc') (goto_at (print p msg) (length pre) pc).
Proof.
  intros Hm Hfo. rewrite (goto_at_top (print p' msg) pre' fr'), (goto_at_top (print p msg) pre fr) by apply Hal.
  cbn. unfold with_callstack. cbn. rewrite (al_stdout _ _ _ _ _ _ Hal). by apply (aligned_move f).
Qed.

Lemma aligned_memory {A} (Q : A -> A -> Prop) id (k' k : Memory W -> result A) :
  (forall m, modules p !! id = Some (MMemory m) -> related Q (k' m) (k m)) ->
  related Q (m ← slice_get (modules p') id; m ← as_memory m; k' m) (m ← slice_get (modules p) id; m ← as_memory m; k m).
Proof.
  intros Hk. pose proof (modules_get _ _ id (al_modules _ _ _ _ _ _ Hal)) as Hg.
  destruct (slice_get (modules p') id) as [m'|f'], (slice_get (modules p) id) as [m|f] eqn:Hm; try done.
  apply slice_get_ok in Hm. cbn [mbind result_bind]. destruct m' as [f'|m'], m as [f|m]; try done. cbn in Hg. subst m'.
  cbn [as_memory mbind result_bind]. by apply Hk.
Qed.

Lemma aligned_write f id m m' pc' pc :
  modules p !! Frame.functionId fr = Some (MFunction f) -> follows (code f) (O (Frame.functionId fr)) pc' pc ->
  modules p !! id = Some (MMemory m) ->
  related machines_related
    (goto_at (with_modules p' (<[id := MMemory m']> (modules p'))) (length pre') pc')
    (goto_at (with_modules p (<[id := MMemory m']> (modules p))) (length pre) pc).
Proof.
  intros Hm Hfo Hid. rewrite (goto_at_top _ pre' fr'), (goto_at_top _ pre fr) by apply Hal.
  cbn. unfold with_callstack. cbn. rewrite (al_stdout _ _ _ _ _ _ Hal).
  pose proof (aligned_next f (Frame.registers fr) pc' pc (stdout p) _ _ Hm Hfo
    (or_intror (ex_intro _ id (ex_intro _ m (ex_intro _ m' (conj Hid (conj eq_refl eq_refl))))))) as Hr.
  rewrite with_registers_eta, <- aligned_registers, with_registers_eta in Hr. done.
Qed.

(** A call: both frames wait, and the new ones run from the start. *)
Lemma aligned_call id args rets width regs :
  fetch (modules p) fr = Some (OpIo CALL id args rets, width, regs) ->
  related machines_related (Enter p' id (Frame.registers fr') args rets) (Enter p id (Frame.registers fr) args rets).
Proof.
  intros Hf. rewrite aligned_registers. unfold Enter. pose proof (modules_get _ _ id (al_modules _ _ _ _ _ _ Hal)) as Hg.
  destruct (slice_get (modules p') id) as [m'|f'], (slice_get (modules p) id) as [m|f] eqn:Hm; try done.
  apply slice_get_ok in Hm. cbn [mbind result_bind]. destruct m' as [f'|m'], m as [f|m]; try done.
  cbn [as_function mbind result_bind]. destruct Hg as (_ & Hregs & Hs).
  unfold Width. rewrite Hregs. destruct (store_args 0 args _ _) as [boot|] eqn:Hb; [|done]. apply store_args_keeps in Hb as [Hid Hpc].
  cbn [mbind result_bind related Frame.functionId Frame.pc Frame.NewFrame] in *. split; cbn; try apply Hal.
  rewrite (al_stack' _ _ _ _ _ _ Hal), (al_stack _ _ _ _ _ _ Hal). constructor.
  - apply Forall2_app; [apply Hal|]. constructor; [|constructor]. split_and!; [apply Hal|apply Hal|]. by eexists id, args, rets, width, regs.
  - split; [by destruct boot|]. exists (code f). unfold code_of. rewrite Hid, Hm, Hpc. split; [done|]. apply (sim_entry _ _ _ Hs).
Qed.

End Aligned.

(** A return: the caller goes on behind its call. *)
Lemma kin_call c id args rets : kin (W := W) c (OpIo CALL id args rets) -> c = OpIo CALL id args rets.
Proof. done. Qed.

Lemma resumed p' p pre' caller' pre caller id args rets w r :
  aligned p' p pre' caller' pre caller -> fetch (modules p) caller = Some (OpIo CALL id args rets, w, r) ->
  related machines_related
    ('(_, width, _) ← decode p'; c ← slice_get (callstack p') (length pre'); goto_at p' (length pre') (PC.Next (Frame.pc c) width))
    ('(_, width, _) ← decode p; c ← slice_get (callstack p) (length pre); goto_at p (length pre) (PC.Next (Frame.pc c) width)).
Proof.
  intros Hal Hcall. destruct (aligned_code _ _ _ _ _ _ Hal) as (f & vec' & vec & c' & c & Hm & Hf' & Hf & Hmat).
  rewrite (proj2 (decode_fetch p' pre' caller' (al_stack' _ _ _ _ _ _ Hal) _) Hf').
  rewrite (proj2 (decode_fetch p pre caller (al_stack _ _ _ _ _ _ Hal) _) Hf). cbn [mbind result_bind].
  rewrite (al_stack' _ _ _ _ _ _ Hal), (al_stack _ _ _ _ _ _ Hal), !get_app. cbn [mbind result_bind].
  rewrite Hcall in Hf. injection Hf as <- _ _. apply (aligned_skip _ _ _ _ _ _ Hal f); [done|].
  rewrite !Next_settle. inversion Hmat as [| |? ? Hk Hsh Harcs]; subst.
  apply kin_call in Hk as ->. cbn [arcs OpCode_of] in Harcs. by apply Forall2_cons in Harcs as [Hfo _].
Qed.

Lemma aligned_return p' p pre' fr' pre fr :
  aligned p' p pre' fr' pre fr ->
  related machines_related (executeInstruction p' NewReturn 0 []) (executeInstruction p NewReturn 0 []).
Proof.
  intros Hal. destruct Hal as [Hms He Ho Hs' Hs Hpre Hf Hc Hat]. unfold executeInstruction.
  rewrite Hs', Hs, !top_lookup, !top_index. cbn [mbind result_bind OpCode_of NewReturn].
  destruct pre as [|caller pre _] using rev_ind.
  - apply Forall2_nil_inv_r in Hpre as ->. rewrite (Leave_last p' fr' Hs'), (Leave_last p fr Hs). cbn. split; cbn; try done. constructor.
  - apply Forall2_app_inv_r in Hpre as (pre0 & callers & Hpre & Hcallers & ->).
    apply Forall2_cons_inv_r in Hcallers as (caller' & ? & (Hcf & Hco & id & args & rets & w & r & Hcall) & ->%Forall2_nil_inv_r & ->).
    rewrite <- app_assoc in Hs', Hs. rewrite (Leave_top p' pre0 caller' fr' Hs'), (Leave_top p pre caller fr Hs).
    rewrite Hcf, Hf, write_returns_goto. cbn [Frame.returns Frame.Goto].
    destruct (write_returns 0 (Frame.returns fr) fr caller) as [caller1|] eqn:Hw; [|done]. cbn [mbind result_bind].
    apply write_returns_keeps in Hw as [Hid Hpc]. rewrite !length_app. cbn [length].
    replace (length pre0 + 1 - 1) with (length pre0) by lia. replace (length pre + 1 - 1) with (length pre) by lia.
    eapply resumed.
    + split; cbn; try done.
      * unfold code_of. rewrite Hid. unfold fetch in Hcall. destruct (modules p !! _) as [[f|m]|]; by eauto.
      * by rewrite Hid, Hpc.
    + cbn. unfold fetch in *. rewrite Hid, Hpc. exact Hcall.
Qed.

(** ** One step *)

Lemma aligned_execute p' p pre' fr' pre fr :
  aligned p' p pre' fr' pre fr -> related machines_related (execute p') (execute p).
Proof.
  intros Hal. destruct (aligned_code _ _ _ _ _ _ Hal) as (f & vec' & vec & c' & c & Hm & Hf' & Hf & Hmat).
  rewrite (execute_at p' pre' fr' _ _ _ (al_stack' _ _ _ _ _ _ Hal) Hf'), (execute_at p pre fr _ _ _ (al_stack _ _ _ _ _ _ Hal) Hf).
  pose proof (aligned_registers _ _ _ _ _ _ Hal) as Hregs.
  destruct Hmat as [t' t Hfo|n t Hfo|c' c Hk Hsh Harcs].
  1,2: unfold executeInstruction; rewrite (al_stack' _ _ _ _ _ _ Hal), (al_stack _ _ _ _ _ _ Hal), !top_lookup, !top_index;
    cbn [mbind result_bind OpCode_of NewJump]; apply (aligned_skip _ _ _ _ _ _ Hal f); [done|].
  - exact Hfo.
  - by rewrite Next_skip.
  - assert (Hfall : forall regs' regs, arcs (PC.Micro (Frame.pc fr')) c' = [(PC.Micro (Frame.pc fr') + 1, regs')] ->
      arcs (PC.Micro (Frame.pc fr)) c = [(PC.Micro (Frame.pc fr) + 1, regs)] ->
      follows (code f) (O (Frame.functionId fr)) (PC.Next (Frame.pc fr') (length vec')) (PC.Next (Frame.pc fr) (length vec))).
    { intros regs' regs Ha' Ha. rewrite Ha', Ha in Harcs. rewrite !Next_settle. by apply Forall2_cons in Harcs as [? _]. }
    destruct (decide (OpCode_of c = RETURN)) as [Hret|Hret].
    { destruct c as [op ? ? ?|op ?|n|? ? ? n|?|?|op ? ? ?|? ? w|? ?]; cbn in Hret; try done.
      - subst op. by destruct Hsh as [|[]].
      - subst op. cbn in Hk. subst c'. rewrite !(return_any _ (OpImm RETURN _)) by done. by eapply aligned_return.
      - subst op. by destruct Hsh as (?&?&?&?).
      - by destruct (w =? MaxUint)%Z. }
    unfold executeInstruction. rewrite (al_stack' _ _ _ _ _ _ Hal), (al_stack _ _ _ _ _ _ Hal), !top_lookup, !top_index.
    cbn [mbind result_bind]. rewrite Hregs, (al_executor _ _ _ _ _ _ Hal).
    destruct c as [op id args rets|op n|n|k l r n|chunks|chunks|op t srcs k|t src w|ts src]; cbn [kin] in Hk.
    + subst c'. destruct Hsh as [-> | [-> | ->]]; cbn [OpCode_of].
      * rewrite <- Hregs at 1. by eapply aligned_call.
      * apply (aligned_memory _ _ _ _ _ _ Hal). intros m Hid. apply (aligned_store _ _ _ _ _ _ Hal f); [done|]. by eapply Hfall.
      * apply (aligned_memory _ _ _ _ _ _ Hal). intros m Hid. apply related_same. intros m'.
        apply (aligned_write _ _ _ _ _ _ Hal f _ m); [done| |done]. by eapply Hfall.
    + destruct Hsh as [-> | ->]; [done|]. done.
    + destruct Hk as [n' ->]. cbn [OpCode_of]. apply (aligned_skip _ _ _ _ _ _ Hal f); [done|]. rewrite !Next_skip.
      cbn [arcs] in Harcs. by apply Forall2_cons in Harcs as [? _].
    + destruct Hk as [n' ->]. cbn [OpCode_of]. apply related_same. intros taken. apply (aligned_skip _ _ _ _ _ _ Hal f); [done|].
      cbn [arcs] in Harcs. apply Forall2_cons in Harcs as [Hskip Harcs]. apply Forall2_cons in Harcs as [Hfo _].
      destruct taken; rewrite ?Next_skip, ?Next_settle; done.
    + subst c'. cbn [OpCode_of]. apply related_same. intros msg. done.
    + subst c'. cbn [OpCode_of]. apply related_same. intros msg. apply (aligned_print _ _ _ _ _ _ Hal f); [done|]. by eapply Hfall.
    + subst c'. cbn in Hsh. assert (Ha : forall i, arcs i (OpArith op t srcs k) = [(i + 1, [t])]).
      { intros i. destruct op; try done; by destruct Hsh as (?&?&?&?&?). }
      cbn [OpCode_of].
      destruct op; try (by destruct Hsh as (?&?&?&?&?)); apply (aligned_store _ _ _ _ _ _ Hal f); try done; by eapply Hfall.
    + subst c'. assert (Ha : forall i, arcs i (Cast (W := W) t src w) = [(i + 1, [t])]).
      { intros i. unfold arcs. cbn [OpCode_of]. by destruct (w =? MaxUint)%Z. }
      cbn [OpCode_of]. destruct (w =? MaxUint)%Z; apply (aligned_store _ _ _ _ _ _ Hal f); try done; by eapply Hfall.
    + subst c'. cbn [OpCode_of]. apply (aligned_store _ _ _ _ _ _ Hal f); [done|]. by eapply Hfall.
Qed.

(** ** Runs *)

(** What a machine shows besides its program counters: its memories, what it printed
    and its frames *)
Definition view (p : Base W) : list (option (Memory W)) * list string * list (Frame.t W) :=
  ((fun m => match m with MMemory m => Some m | MFunction _ => None end) <$> modules p, stdout p,
   (fun fr => Frame.Goto fr (PC.mk 0 0)) <$> callstack p).

(** The run from a machine ends, without a fault when its stack is empty. *)
Definition ends p (f : option fault) v : Prop :=
  exists k q, nsteps k p q /\ view q = v /\
    match f with None => callstack q = [] | Some f => callstack q <> [] /\ execute q = Fault f end.

Lemma waiting_view ms pre' pre :
  Forall2 (waiting ms) pre' pre ->
  (fun fr => Frame.Goto fr (PC.mk 0 0)) <$> pre' = (fun fr => Frame.Goto fr (PC.mk 0 0)) <$> pre.
Proof. induction 1 as [|fr' fr pre' pre (Hf & _) _ IH]; [done|]. rewrite !fmap_cons, IH. f_equal. by rewrite Hf. Qed.

Lemma related_view p' p : machines_related p' p -> view p' = view p.
Proof.
  intros [[Hl Hr] _ Ho Hs]. unfold view. rewrite Ho. f_equal; [f_equal|].
  - apply list_eq_same_length with (n := length (modules p)); rewrite ?length_fmap; [done..|]. intros i x y _.
    rewrite !list_lookup_fmap. destruct (modules p' !! i) as [m'|] eqn:Hm', (modules p !! i) as [m|] eqn:Hm; cbn; try done.
    specialize (Hr i m' m Hm' Hm). destruct m', m; cbn in *; try done; congruence.
  - destruct Hs as [|pre' pre fr' fr Hpre [Hf _]]; [done|]. rewrite !fmap_app. f_equal; [by eapply waiting_view|].
    cbn. f_equal. by rewrite Hf.
Qed.

Lemma nsteps_app i j p p1 p2 : nsteps i p p1 -> nsteps j p1 p2 -> nsteps (i + j) p p2.
Proof. induction 1 as [|n p q r Hs Hn IH]; [done|]. intros Hj. cbn. econstructor; [exact Hs|by apply IH]. Qed.

Lemma step_live p p1 : step p p1 -> callstack p <> [].
Proof. intros Hs%step_execute Hc. unfold execute, decode in Hs. by rewrite Hc in Hs. Qed.

Lemma step_unique p p1 p2 : step p p1 -> step p p2 -> p1 = p2.
Proof. intros H1%step_execute H2%step_execute. congruence. Qed.

(** The jumps of a frame that runs *)
Lemma lead_steps C p pre fr pc :
  leads C (Frame.pc fr) pc -> callstack p = pre ++ [fr] -> code_of (modules p) fr = Some C ->
  exists k, nsteps k p (with_top p pre (Frame.Goto fr pc)).
Proof.
  intros Hl. remember (Frame.pc fr) as pc0 eqn:Hpc. revert p fr Hpc. induction Hl as [pc|pc0 t pc Hc Hl IH]; intros p fr Hpc Hs Hco.
  - exists 0. replace (with_top p pre (Frame.Goto fr pc)) with p; [constructor|]. rewrite Hpc. destruct p, fr. cbn in *. by subst.
  - destruct (IH (with_top p pre (Frame.Goto fr (PC.mk t 0))) (Frame.Goto fr (PC.mk t 0))) as [k Hk]; [done..|].
    exists (S k). econstructor; [|exact Hk]. unfold code_at in Hc. unfold code_of in Hco.
    destruct (modules p !! Frame.functionId fr) as [[f|m]|] eqn:Hm; cbn in Hco; try done. injection Hco as <-.
    rewrite Hpc in Hc. destruct (code f !! PC.Macro (Frame.pc fr)) as [vec|] eqn:Hv; cbn in Hc; [|done].
    eapply (step_jump p pre fr (length vec) (registers f)); [done|]. unfold fetch. rewrite Hm. cbn. rewrite Hv. cbn. by rewrite Hc.
Qed.

Lemma related_align p' p :
  machines_related p' p -> callstack p' <> [] ->
  exists k p1 pre' fr' pre fr, nsteps k p p1 /\ view p1 = view p /\ callstack p1 <> [] /\ aligned p' p1 pre' fr' pre fr.
Proof.
  intros [Hm He Ho Hs] Hne. inversion Hs as [Heq|pre' pre fr' fr Hpre [Hf (C & Hc & q & Hl & Hq)] Heq Heq0]; [by rewrite <- Heq in Hne|].
  symmetry in Heq, Heq0. destruct (lead_steps C p pre fr q Hl Heq0 Hc) as [k Hk].
  exists k, (with_top p pre (Frame.Goto fr q)), pre', fr', pre, (Frame.Goto fr q). split; [done|]. split; [|split].
  - unfold view. cbn. rewrite Heq0, !fmap_app. done.
  - cbn. by destruct pre.
  - split; cbn; try done.
Qed.

Lemma ends_forward p' p f v : machines_related p' p -> ends p' f v -> ends p f v.
Proof.
  intros Hr (k & q' & Hn & Hv & Hf). revert p Hr. induction Hn as [p'|k p' p1' q' Hs Hn IH]; intros p Hr.
  - destruct f as [f|].
    + destruct Hf as [Hne Hx]. destruct (related_align p' p Hr Hne) as (k & p1 & pre' & fr' & pre & fr & Hk & Hv1 & Hne1 & Hal).
      pose proof (aligned_execute _ _ _ _ _ _ Hal) as Hex. rewrite Hx in Hex. destruct (execute p1) as [|g] eqn:Hg; [done|]. cbn in Hex. subst g.
      exists k, p1. split; [done|]. split; [|done]. by rewrite Hv1, <- (related_view p' p).
    + exists 0, p. split; [constructor|]. split; [by rewrite <- (related_view p' p)|].
      destruct Hr as [_ _ _ Hst]. rewrite Hf in Hst. inversion Hst as [|pre' ? ? ? ? ? He]; [done|]. by destruct pre'.
  - specialize (IH Hv Hf). destruct (related_align p' p Hr (step_live _ _ Hs)) as (j & p1 & pre' & fr' & pre & fr & Hj & Hv1 & Hne1 & Hal).
    pose proof (aligned_execute _ _ _ _ _ _ Hal) as Hex. rewrite (step_execute _ _ Hs) in Hex.
    destruct (execute p1) as [p2|] eqn:Hx; [|done]. cbn in Hex. destruct (IH p2 Hex) as (i & q & Hi & Hvq & Hq).
    exists (j + S i), q. split; [|done]. eapply nsteps_app; [exact Hj|]. econstructor; [by apply execute_step|done].
Qed.

(** A run that ends goes through every machine it can reach. *)
Lemma ended_through k j p q p1 :
  nsteps k p q -> (forall q1, ~ step q q1) -> nsteps j p p1 -> exists i, k = j + i /\ nsteps i p1 q.
Proof.
  intros Hk Hq Hj. revert k Hk. induction Hj as [p|j p p0 p1 Hs Hj IH]; intros k Hk; [by exists k|].
  inversion Hk as [? He|k0 ? p0' ? Hs' Hk']; subst; [by destruct (Hq p0)|]. rewrite (step_unique _ _ _ Hs Hs') in *.
  destruct (IH k0 Hk') as (i & -> & Hi). by exists i.
Qed.

Lemma ends_stuck q (f : option fault) :
  match f with None => callstack q = [] | Some f => callstack q <> [] /\ execute q = Fault f end -> forall q1, ~ step q q1.
Proof. intros Hf q1 Hs. destruct f as [f|]; [|by apply step_live in Hs]. destruct Hf as [_ Hf]. apply step_execute in Hs. congruence. Qed.

Lemma ends_backward p' p f v : machines_related p' p -> ends p f v -> ends p' f v.
Proof.
  intros Hr (k & q & Hn & Hv & Hf). pose proof (ends_stuck q f Hf) as Hq. revert p' p Hr Hn.
  induction (lt_wf k) as [k _ IH]. intros p' p Hr Hn. destruct (callstack p') as [|x l] eqn:Hc.
  - destruct Hr as [Hm He Ho Hst]. pose proof Hst as Hst0. rewrite Hc in Hst. inversion Hst as [Heq|pre' ? ? ? ? ? He']; [|by destruct pre'].
    inversion Hn as [|n ? p1 ? Hs]; subst; [|by apply step_live in Hs]. destruct f as [f|]; [by destruct Hf; congruence|].
    exists 0, p'. split; [constructor|]. split; [|done]. by apply related_view.
  - assert (Hne : callstack p' <> []) by (by rewrite Hc).
    destruct (related_align p' p Hr Hne) as (j & p1 & pre' & fr' & pre & fr & Hj & Hv1 & Hne1 & Hal).
    destruct (ended_through k j p q p1 Hn Hq Hj) as (i & -> & Hi). pose proof (aligned_execute _ _ _ _ _ _ Hal) as Hex.
    inversion Hi as [? He|i0 ? p2 ? Hs Hi0]; subst.
    + destruct f as [f|]; [|done]. destruct Hf as [_ Hf]. rewrite Hf in Hex. destruct (execute p') as [|g] eqn:Hg; [done|]. cbn in Hex. subst g.
      exists 0, p'. split; [constructor|]. split; [|done]. rewrite Hv1. by apply related_view.
    + rewrite (step_execute _ _ Hs) in Hex. destruct (execute p') as [p2'|] eqn:Hx; [|done]. cbn in Hex.
      destruct (IH i0 ltac:(lia) p2' p2 Hex Hi0) as (i & q' & Hi' & Hq'). exists (S i), q'. split; [|done].
      econstructor; [by apply execute_step|done].
Qed.

Lemma ends_related p' p f v : machines_related p' p -> ends p' f v <-> ends p f v.
Proof. intros Hr. split; [by apply ends_forward|by apply ends_backward]. Qed.

(** ** Booting *)

Definition modules_from (first : nat) ms' ms : Prop :=
  length ms' = length ms /\ forall i m' m, ms' !! i = Some m' -> ms !! i = Some m -> module_related (first + i) m' m.

Lemma modules_from_cons first m' m ms' ms :
  modules_from first (m' :: ms') (m :: ms) <-> module_related first m' m /\ modules_from (S first) ms' ms.
Proof.
  split.
  - intros [Hl Hr]. split; [|split].
    + rewrite <- (Nat.add_0_r first). by apply (Hr 0).
    + by injection Hl.
    + intros i a' a Ha' Ha. rewrite Nat.add_succ_comm. by apply (Hr (S i)).
  - intros [Hm [Hl Hr]]. split; [by cbn; rewrite Hl|]. intros [|i] a' a Ha' Ha; cbn in Ha', Ha.
    + injection Ha' as <-. injection Ha as <-. by rewrite Nat.add_0_r.
    + rewrite <- Nat.add_succ_comm. by apply Hr.
Qed.

Lemma find_function_related first ms' ms i fn : modules_from first ms' ms -> find_function i ms' fn = find_function i ms fn.
Proof.
  revert first ms' i. induction ms as [|m ms IH]; intros first [|m' ms'] i Hm; try (by destruct Hm).
  apply modules_from_cons in Hm as [Hm Hms]. specialize (IH _ _ (S i) Hms). destruct m' as [f'|m'], m as [f|m]; try done; cbn [find_function].
  destruct Hm as [-> _]. by rewrite IH.
Qed.

Lemma initialise_related first ms' ms input :
  modules_from first ms' ms -> related (modules_from first) (initialise_modules ms' input) (initialise_modules ms input).
Proof.
  revert first ms'. induction ms as [|m ms IH]; intros first [|m' ms'] Hm; try (by destruct Hm).
  apply modules_from_cons in Hm as [Hm Hms]. specialize (IH _ _ Hms). destruct m' as [f'|m'], m as [f|m]; try done; cbn [initialise_modules].
  - eapply related_bind; [exact IH|]. intros r' r Hr. by apply modules_from_cons.
  - cbn in Hm. subst m'. apply related_same. intros m1. eapply related_bind; [exact IH|]. intros r' r Hr. by apply modules_from_cons.
Qed.

Lemma Boot_related e ms' ms fn input :
  modules_related ms' ms -> related machines_related (Boot (NewBase e ms') fn input) (Boot (NewBase e ms) fn input).
Proof.
  intros Hm. unfold Boot. cbn [modules NewBase]. rewrite (find_function_related 0 ms' ms) by done.
  destruct (find_function 0 ms fn) as [id|]; [|done]. unfold initialise. cbn [modules NewBase].
  pose proof (initialise_related 0 ms' ms input Hm) as Hi.
  destruct (initialise_modules ms' input) as [ms1'|], (initialise_modules ms input) as [ms1|]; try done. cbn [fmap result_fmap mbind result_bind].
  unfold Enter. cbn [modules with_modules NewBase]. pose proof (modules_get ms1' ms1 id Hi) as Hg.
  destruct (slice_get ms1' id) as [m'|], (slice_get ms1 id) as [m|] eqn:Hid; try done. apply slice_get_ok in Hid.
  cbn [mbind result_bind]. destruct m' as [f'|m'], m as [f|m]; try done. cbn [as_function mbind result_bind store_args].
  destruct Hg as (_ & Hregs & Hs). unfold Width. rewrite Hregs. cbn. split; cbn; try done. apply (stacks_top _ [] []); [constructor|].
  split; [done|]. exists (code f). unfold code_of. cbn. rewrite Hid. split; [done|]. apply (sim_entry _ _ _ Hs).
Qed.

End Machines.
