(* ===== verification/VectorizeFacts.v ===== *)
(** * Vectorisation: what a merged vector is made of

    Every code of a vector that the pass makes comes from one code of the prepared
    function.  [tracks vec os] says so: the list [os] has the place that each code of
    [vec] comes from, and control goes from a code to those that come from where it
    goes in the prepared function, when the jumps there are followed. *)

From Stdlib Require Import ZArith Lia.
From stdpp Require Import base numbers list option strings.
From S2P Require Import Prelude Word Register Memory Instruction Executor Machine Dfa CodeSim Vectorize.

Open Scope nat_scope.

Section Tracks.
Context {W : Type} `{!Word W}.
Context (P : list (Vector W)).
Implicit Types (c : Instruction W) (vec target : Vector W) (os : list PC.t).

(** The code that the pass works on: control stays inside the vectors, jumps have
    targets, and the registers exist. *)
Record code_ok (nregs : nat) : Prop := {
  ok_nonempty vec : vec ∈ P -> vec <> [];
  ok_shaped vec c : vec ∈ P -> c ∈ vec -> shaped c;
  ok_arcs vec i c arc : vec ∈ P -> vec !! i = Some c -> arc ∈ arcs i c -> arc.1 < length vec;
  ok_jumps vec t : vec ∈ P -> NewJump t ∈ vec -> t < length P;
  ok_registers vec c r : vec ∈ P -> c ∈ vec -> r ∈ Uses c ++ Definitions c -> r < nregs
}.

Inductive traced os (p : PC.t) (i : nat) : Instruction W -> Instruction W -> Prop :=
  | traced_jump t : traced os p i (NewJump t) (NewJump t)
  | traced_skip n t q : os !! (i + n + 1) = Some q -> leads P (PC.mk t 0) q -> traced os p i (Skip n) (NewJump t)
  | traced_kin c' c :
      kin c' c ->
      Forall2 (fun arc' arc => exists q, os !! arc'.1 = Some q /\ leads P (PC.mk (PC.Macro p) arc.1) q)
        (arcs i c') (arcs (PC.Micro p) c) ->
      traced os p i c' c.

Definition tracks vec os : Prop :=
  length os = length vec
  /\ forall i c', vec !! i = Some c' ->
     exists p c, os !! i = Some p /\ code_at P p = Some c /\ traced os p i c' c.

(** ** Inlining *)

Section Inline.
Context (idx m : nat) (Hm : 0 < m).

(** Where a code goes, and what it becomes *)
Definition moved (j : nat) : nat := if j <=? idx then j else j + m - 1.

Definition adjusted (i : nat) c : Instruction W :=
  match c with
  | Skip n => Skip (moved (i + 1 + n) - moved i - 1)
  | SkipIf k l r n => SkipIf k l r (moved (i + 1 + n) - moved i - 1)
  | _ => c
  end.

Lemma moved_S j : moved (S j) = if j =? idx then moved j + m else S (moved j).
Proof. unfold moved. destruct (Nat.leb_spec j idx), (Nat.leb_spec (S j) idx), (Nat.eqb_spec j idx); lia. Qed.

Lemma moved_lt i j : i < j -> moved i < moved j.
Proof. unfold moved. destruct (Nat.leb_spec i idx), (Nat.leb_spec j idx); lia. Qed.

Lemma inline_mapping_moved cc n : inline_mapping idx m cc (moved cc) n = moved <$> seq cc n.
Proof.
  revert cc. induction n as [|n IH]; intros cc; [done|]. cbn [inline_mapping seq fmap list_fmap]. f_equal. by rewrite <- IH, moved_S.
Qed.

Lemma adjusted_arcs i c : i <> idx -> Forall2 (fun arc' arc => arc'.1 = moved arc.1) (arcs (moved i) (adjusted i c)) (arcs i c).
Proof.
  intros Hi. assert (Hs : moved i + 1 = moved (i + 1)).
  { rewrite !Nat.add_1_r, moved_S. by destruct (Nat.eqb_spec i idx). }
  assert (Hsk : forall n, moved i + (moved (i + 1 + n) - moved i - 1) + 1 = moved (i + n + 1)).
  { intros n. replace (i + n + 1) with (i + 1 + n) by lia. pose proof (moved_lt i (i + 1 + n)). lia. }
  assert (Hf : forall regs regs', Forall2 (fun arc' arc : nat * list nat => arc'.1 = moved arc.1) [(moved i + 1, regs')] [(i + 1, regs)]).
  { intros regs regs'. constructor; [done|constructor]. }
  destruct c as [op id a r|op n|n|k l r n|chs|chs|op t s c|t s w|ts s]; cbn [adjusted].
  3: { constructor; [apply Hsk|constructor]. }
  3: { constructor; [apply Hsk|]. apply Hf. }
  all: unfold arcs; cbn [OpCode_of]; try apply Hf; try constructor.
  all: try (destruct op; first [apply Hf|constructor]). destruct (w =? MaxUint)%Z; apply Hf.
Qed.

Lemma adjusted_kin i c' c : kin c' c -> kin (adjusted i c') c.
Proof.
  destruct c as [op id a r|op n|n|k l r n|chs|chs|op t s c|t s w|ts s]; cbn; try (by intros ->).
  - destruct op; (done || by intros ->).
  - intros [n' ->]. cbn. by eexists.
  - intros [n' ->]. cbn. by eexists.
Qed.

(** What is written at one place *)
Lemma inline_code n target cc c codes :
  cc <> idx -> (forall arc, arc ∈ arcs cc c -> arc.1 < n) ->
  inline_codes (moved <$> seq 0 n) idx target cc (moved cc) (c :: codes)
  = (rest ← inline_codes (moved <$> seq 0 n) idx target (S cc) (moved (S cc)) codes; Ok (adjusted cc c :: rest)).
Proof.
  intros Hcc Ha. rewrite moved_S. destruct (Nat.eqb_spec cc idx) as [|_]; [done|].
  assert (Hget : forall k, k < n -> slice_get (moved <$> seq 0 n) k = Ok (moved k)).
  { intros k Hk. apply slice_get_ok. by rewrite list_lookup_fmap, lookup_seq_lt. }
  destruct c as [op id a r|op t|k|k l r s|chs|chs|op t s c|t s w|ts s]; cbn [inline_codes adjusted]; try done.
  - destruct op; try done. by destruct (Nat.eqb_spec cc idx).
  - rewrite Hget; [done|]. specialize (Ha _ (list_elem_of_here _ _)). cbn in Ha. lia.
  - rewrite Hget; [done|]. specialize (Ha _ (list_elem_of_here _ _)). cbn in Ha. lia.
Qed.

Lemma inline_codes_adjusted n target cc codes :
  idx < cc -> (forall i c arc, codes !! i = Some c -> arc ∈ arcs (cc + i) c -> arc.1 < n) ->
  inline_codes (moved <$> seq 0 n) idx target cc (moved cc) codes = Ok (imap (fun i => adjusted (cc + i)) codes).
Proof.
  revert cc. induction codes as [|c codes IH]; intros cc Hcc Ha; [done|]. rewrite inline_code.
  - rewrite IH; [|lia|].
    + cbn [mbind result_bind imap]. rewrite Nat.add_0_r. do 2 f_equal. apply imap_ext. intros i x _. cbn. by rewrite Nat.add_succ_r.
    + intros i c' arc Hi. rewrite Nat.add_succ_comm. by apply (Ha (S i)).
  - lia.
  - intros arc. rewrite <- (Nat.add_0_r cc) at 1. by apply (Ha 0).
Qed.

Lemma inline_codes_spliced n target t cc pre post :
  cc + length pre = idx -> m = length target ->
  (forall i c arc, (pre ++ NewJump t :: post) !! i = Some c -> arc ∈ arcs (cc + i) c -> arc.1 < n) ->
  inline_codes (moved <$> seq 0 n) idx target cc (moved cc) (pre ++ NewJump t :: post)
  = Ok (imap (fun i => adjusted (cc + i)) pre ++ target ++ imap (fun i => adjusted (S idx + i)) post).
Proof.
  intros Hidx Hlen. revert cc Hidx. induction pre as [|c pre IH]; intros cc Hidx Ha.
  - cbn [length app imap] in *. cbn [inline_codes NewJump]. destruct (Nat.eqb_spec cc idx) as [->|]; [|lia].
    replace (moved idx + length target) with (moved (S idx)) by (rewrite moved_S, Nat.eqb_refl; lia).
    rewrite inline_codes_adjusted; [done|lia|]. intros i c arc Hi Harc. apply (Ha (S i) c arc Hi).
    by replace (idx + S i) with (S idx + i) by lia.
  - cbn [length app imap] in *. rewrite inline_code.
    + rewrite IH; [|lia|].
      * cbn [mbind result_bind]. rewrite Nat.add_0_r. do 2 f_equal. f_equal. apply imap_ext. intros i x _. cbn. by rewrite Nat.add_succ_r.
      * intros i c' arc Hi. rewrite Nat.add_succ_comm. by apply (Ha (S i)).
    + lia.
    + intros arc. rewrite <- (Nat.add_0_r cc) at 1. by apply (Ha 0).
Qed.

End Inline.

Lemma inlineJump_spliced t pre post target :
  target <> [] ->
  (forall i c arc, (pre ++ NewJump t :: post) !! i = Some c -> arc ∈ arcs i c -> arc.1 < length (pre ++ NewJump t :: post)) ->
  let idx := length pre in let m := length target in
  inlineJump (pre ++ NewJump t :: post) idx target
  = Ok (imap (adjusted idx m) pre ++ target ++ imap (fun i => adjusted idx m (S idx + i)) post).
Proof.
  intros Hne Ha idx m. assert (Hm : 0 < m) by (subst m; destruct target; [done|cbn; lia]).
  pose proof (inline_codes_spliced idx m Hm (length (pre ++ NewJump t :: post)) target t 0 pre post eq_refl eq_refl Ha) as Hs.
  rewrite <- (inline_mapping_moved idx m Hm 0) in Hs. exact Hs.
Qed.

(** ** Merging keeps track *)

Lemma leads_origin os os' (f : nat -> nat) :
  (forall j q, os !! j = Some q -> exists q', os' !! f j = Some q' /\ leads P q q') ->
  forall j q p, os !! j = Some q -> leads P p q -> exists q', os' !! f j = Some q' /\ leads P p q'.
Proof. intros Hf j q p Hj Hl. destruct (Hf j q Hj) as (q' & Hq' & Hl'). exists q'. split; [done|]. by eapply leads_trans. Qed.

Lemma traced_adjusted idx m os os' p i c' c :
  0 < m -> i <> idx ->
  (forall j q, os !! j = Some q -> exists q', os' !! moved idx m j = Some q' /\ leads P q q') ->
  traced os p i c' c -> traced os' p (moved idx m i) (adjusted idx m i c') c.
Proof.
  intros Hm Hi Hos Ht. pose proof (leads_origin os os' (moved idx m) Hos) as Hlo. destruct Ht as [t|n t q Hq Hl|c' c Hk Ha].
  - apply traced_jump.
  - destruct (Hlo _ _ _ Hq Hl) as (q' & Hq' & Hl'). cbn [adjusted]. apply (traced_skip _ _ _ _ _ q'); [|done].
    rewrite <- Hq'. f_equal. pose proof (moved_lt idx m Hm i (i + 1 + n)). replace (i + n + 1) with (i + 1 + n) by lia. lia.
  - apply traced_kin; [by apply adjusted_kin|]. pose proof (adjusted_arcs idx m Hm i c' Hi) as Had.
    revert Had Ha. generalize (arcs (PC.Micro p) c), (arcs (moved idx m i) (adjusted idx m i c')). generalize (arcs i c').
    induction l as [|a l IH]; intros l2 l1 H1 H2.
    + apply Forall2_nil_inv_r in H1 as ->. apply Forall2_nil_inv_l in H2 as ->. constructor.
    + apply Forall2_cons_inv_r in H1 as (a1 & l1' & Heq & H1 & ->). apply Forall2_cons_inv_l in H2 as (a2 & l2' & (q & Hq & Hl) & H2 & ->).
      constructor; [|by apply IH]. rewrite Heq. by eapply Hlo.
Qed.

Lemma kin_jump t c : ~ kin (NewJump t) c.
Proof. destruct c as [op ? ? ?|op ?|?|? ? ? ?|?|?|op ? ? ?|? ? ?|? ?]; cbn; try (by intros [=]); try (by intros [? [=]]). destruct op; first [by intros []|by intros [=]]. Qed.

Lemma is_NewJump c : (exists t, c = NewJump t) \/ forall t, c <> NewJump t.
Proof. destruct c as [| op n| | | | | | |]; try (right; by intros t [=]). destruct op; [try (right; by intros t [=])..]. left. by exists n. Qed.

Lemma kin_refl c : (forall t, c <> NewJump t) -> kin c c.
Proof. intros Hn. destruct c as [|op n| | | | | | |]; cbn; eauto. destruct op; try done. by destruct (Hn n). Qed.

Lemma arcs_shift (Q : nat -> Prop) d i c :
  (forall arc, arc ∈ arcs i c -> Q arc.1) -> Forall2 (fun a' a => a'.1 = d + a.1 /\ Q a.1) (arcs (d + i) c) (arcs i c).
Proof.
  intros HQ. assert (Hf : forall regs, arcs i c = [(i + 1, regs)] -> arcs (d + i) c = [(d + i + 1, regs)] ->
    Forall2 (fun a' a => a'.1 = d + a.1 /\ Q a.1) (arcs (d + i) c) (arcs i c)).
  { intros regs H1 H2. rewrite H2. rewrite H1 in *. constructor; [|constructor]. split; [cbn; lia|]. apply (HQ (i + 1, regs)). by left. }
  destruct c as [op ? ? ?|op ?|n|? ? ? n|?|?|op ? ? ?|? ? w|? ?]; try (by eapply Hf); try (destruct op; first [by eapply Hf|by constructor]).
  - constructor; [|constructor]. split; [cbn; lia|]. apply (HQ (i + n + 1, [])). by left.
  - constructor; [|constructor; [|constructor]].
    + split; [cbn; lia|]. apply (HQ (i + n + 1, [])). by left.
    + split; [cbn; lia|]. apply (HQ (i + 1, [])). right. by left.
  - constructor.
  - unfold arcs in *. cbn [OpCode_of] in *. destruct (w =? MaxUint)%Z; by eapply Hf.
Qed.

Lemma tracks_jump vec os i t :
  tracks vec os -> vec !! i = Some (NewJump t) -> exists p, os !! i = Some p /\ leads P p (PC.mk t 0).
Proof.
  intros [_ Ht] Hi. destruct (Ht i _ Hi) as (p & c & Hp & Hc & Htr). exists p. split; [done|]. apply leads_one.
  inversion Htr as [| |? ? Hk]; subst; [done|]. by apply kin_jump in Hk.
Qed.

(** Control stays inside a tracked vector. *)
Lemma tracks_arcs vec os i c arc : tracks vec os -> vec !! i = Some c -> arc ∈ arcs i c -> arc.1 < length vec.
Proof.
  intros [Hl Ht] Hi Ha. destruct (Ht i _ Hi) as (p & c0 & Hp & Hc & Htr). rewrite <- Hl.
  destruct Htr as [t|n t q Hq Hle|c' c Hk Hf].
  - by apply elem_of_nil in Ha.
  - apply list_elem_of_singleton in Ha as ->. by eapply lookup_lt_Some.
  - apply list_elem_of_lookup in Ha as [k Hk']. destruct (Forall2_lookup_l _ _ _ _ _ Hf Hk') as (arc0 & _ & q & Hq & _).
    by eapply lookup_lt_Some.
Qed.

Section Merge.
Context (nregs : nat) (Hok : code_ok nregs).

Lemma target_ok t target : P !! t = Some target -> target <> [] /\ 0 < length target.
Proof. intros Ht. pose proof (ok_nonempty _ Hok target (list_elem_of_lookup_2 _ _ _ Ht)). split; [done|]. destruct target; [done|cbn; lia]. Qed.

Definition spliced (idx t m : nat) os : list PC.t := take idx os ++ (PC.mk t <$> seq 0 m) ++ drop (S idx) os.

Lemma spliced_before idx t m os j : idx <= length os -> j < idx -> spliced idx t m os !! j = os !! j.
Proof. intros Hl Hj. unfold spliced. rewrite lookup_app_l by (rewrite length_take; lia). by apply lookup_take_lt. Qed.

Lemma spliced_inside idx t m os j : idx <= length os -> j < m -> spliced idx t m os !! (idx + j) = Some (PC.mk t j).
Proof.
  intros Hl Hj. unfold spliced. rewrite lookup_app_r, length_take_le by (rewrite ?length_take; lia).
  replace (idx + j - idx) with j by lia. rewrite lookup_app_l by (rewrite length_fmap, length_seq; lia).
  by rewrite list_lookup_fmap, lookup_seq_lt.
Qed.

Lemma spliced_after idx t m os j : idx < length os -> spliced idx t m os !! (idx + m + j) = os !! (S idx + j).
Proof.
  intros Hl. unfold spliced. rewrite lookup_app_r, length_take_le by (rewrite ?length_take; lia).
  replace (idx + m + j - idx) with (m + j) by lia. rewrite lookup_app_r by (rewrite length_fmap, length_seq; lia).
  rewrite length_fmap, length_seq. replace (m + j - m) with j by lia. apply lookup_drop.
Qed.

Lemma spliced_moved vec idx t m os :
  0 < m -> tracks vec os -> vec !! idx = Some (NewJump t) ->
  forall j q, os !! j = Some q -> exists q', spliced idx t m os !! moved idx m j = Some q' /\ leads P q q'.
Proof.
  intros Hm Ht Hj j q Hq. destruct (tracks_jump _ _ _ _ Ht Hj) as (p & Hp & Hl). pose proof (lookup_lt_Some _ _ _ Hp).
  assert (Hin : spliced idx t m os !! idx = Some (PC.mk t 0)).
  { rewrite <- (spliced_inside idx t m os 0) by lia. f_equal. lia. }
  unfold moved. destruct (Nat.leb_spec j idx); [destruct (decide (j = idx)) as [->|]|].
  - rewrite Hin. exists (PC.mk t 0). split; [done|]. congruence.
  - rewrite spliced_before by lia. exists q. split; [done|constructor].
  - replace (j + m - 1) with (idx + m + (j - S idx)) by lia. rewrite spliced_after by done.
    replace (S idx + (j - S idx)) with j by lia. exists q. split; [done|constructor].
Qed.

Lemma tracks_inline t pre post target os :
  let vec := pre ++ NewJump t :: post in let idx := length pre in let m := length target in
  P !! t = Some target -> tracks vec os ->
  exists vec', inlineJump vec idx target = Ok vec'
    /\ vec' = imap (adjusted idx m) pre ++ target ++ imap (fun i => adjusted idx m (S idx + i)) post
    /\ tracks vec' (spliced idx t m os).
Proof.
  intros vec idx m Ht Htr. destruct (target_ok t target Ht) as [Hne Hm]. fold m in Hm.
  assert (Hj : vec !! idx = Some (NewJump t)) by (by apply list_lookup_middle).
  pose proof (spliced_moved vec idx t m os Hm Htr Hj) as Hmoved. destruct (tracks_jump _ _ _ _ Htr Hj) as (p & Hp & Hl).
  eexists. split; [apply inlineJump_spliced; [done|intros i c arc; by apply (tracks_arcs vec os)]|]. split; [done|].
  pose proof (lookup_lt_Some _ _ _ Hp) as Hlt. destruct Htr as [Hlen Hall].
  assert (Hstep : forall i c', i <> idx -> vec !! i = Some c' ->
    exists p c, spliced idx t m os !! moved idx m i = Some p /\ code_at P p = Some c
      /\ traced (spliced idx t m os) p (moved idx m i) (adjusted idx m i c') c).
  { intros i c' Hi Hv. destruct (Hall i c' Hv) as (p0 & c & Hp0 & Hc & Htr0). exists p0, c. split; [|split; [done|by eapply traced_adjusted]].
    unfold moved. destruct (Nat.leb_spec i idx).
    - rewrite spliced_before by lia. done.
    - replace (i + m - 1) with (idx + m + (i - S idx)) by lia. rewrite spliced_after by done. rewrite <- Hp0. f_equal. lia. }
  split.
  - unfold spliced. rewrite !length_app, !length_imap, length_fmap, length_seq, length_take, length_drop, Hlen. subst vec idx m.
    rewrite length_app. cbn [length]. lia.
  - intros i c' Hi. apply lookup_app_Some in Hi as [Hi|[Hge Hi]].
    + rewrite list_lookup_imap in Hi. destruct (pre !! i) as [c0|] eqn:Hc0; [|done]. injection Hi as <-.
      pose proof (lookup_lt_Some _ _ _ Hc0). destruct (Hstep i c0) as (p0 & c & H1 & H2 & H3); [lia|subst vec; by rewrite lookup_app_l|].
      replace (moved idx m i) with i in H1, H3 by (unfold moved; destruct (Nat.leb_spec i idx); lia). by exists p0, c.
    + rewrite length_imap in *. fold idx in Hge, Hi. apply lookup_app_Some in Hi as [Hi|[Hge' Hi]].
      * pose proof (lookup_lt_Some _ _ _ Hi) as Hlt'. fold m in Hlt'. exists (PC.mk t (i - idx)), c'. split; [|split].
        -- replace i with (idx + (i - idx)) at 1 by lia. apply spliced_inside; lia.
        -- unfold code_at. cbn. by rewrite Ht.
        -- destruct (is_NewJump c') as [[t' ->]|Hnj]; [apply traced_jump|]. apply traced_kin; [by apply kin_refl|]. cbn [PC.Micro PC.Macro].
           replace i with (idx + (i - idx)) at 1 by lia. eapply Forall2_impl; [apply (arcs_shift (fun j => j < m))|].
           ++ intros arc. eapply (ok_arcs _ Hok); [by eapply list_elem_of_lookup_2|done].
           ++ intros a' a [-> Ha]. exists (PC.mk t a.1). split; [apply spliced_inside; lia|constructor].
      * rewrite list_lookup_imap in Hi. destruct (post !! _) as [c0|] eqn:Hc0; [|done]. injection Hi as <-. fold m in Hge', Hc0.
        destruct (Hstep (S idx + (i - idx - m)) c0) as (p0 & c & H1 & H2 & H3); [lia| |].
        { subst vec idx. rewrite lookup_app_r by lia. replace (S (length pre) + (i - length pre - m) - length pre) with (S (i - length pre - m)) by lia. done. }
        replace (moved idx m (S idx + (i - idx - m))) with i in H1, H3 by (unfold moved; destruct (Nat.leb_spec (S idx + (i - idx - m)) idx); lia).
        by exists p0, c.
Qed.

Lemma tracks_replace vec os idx offset t q :
  tracks vec os -> vec !! idx = Some (NewJump t) -> os !! offset = Some q -> leads P (PC.mk t 0) q -> idx < offset ->
  replaceJump vec idx offset = Ok (<[idx := Skip (offset - idx - 1)]> vec)
  /\ tracks (<[idx := Skip (offset - idx - 1)]> vec) os.
Proof.
  intros [Hlen Hall] Hj Hq Hl Hlt. pose proof (lookup_lt_Some _ _ _ Hj). split.
  - unfold replaceJump. destruct (Nat.leb_spec offset idx); [lia|]. unfold slice_set. by rewrite decide_True.
  - split; [by rewrite length_insert|]. intros i c' Hi. destruct (decide (i = idx)) as [->|Hne].
    + rewrite list_lookup_insert_eq in Hi by done. injection Hi as <-. destruct (Hall idx _ Hj) as (p & c & Hp & Hc & Htr).
      exists p, c. split; [done|]. split; [done|]. inversion Htr as [| |? ? Hk]; subst; [|by apply kin_jump in Hk].
      apply (traced_skip _ _ _ _ _ q); [|done]. rewrite <- Hq. f_equal. lia.
    + rewrite list_lookup_insert_ne in Hi by done. by apply Hall.
Qed.

(** ** Validity *)

Lemma kin_shaped c' c : kin c' c -> shaped c -> shaped c'.
Proof. destruct c as [|op n| | | | | | |]; cbn; try (by intros ->); try (by intros [? ->]). by destruct op; try (by intros ->). Qed.

Lemma kin_registers c' c : kin c' c -> Uses c' = Uses c /\ Definitions c' = Definitions c.
Proof. destruct c as [|op n| | | | | | |]; cbn; try (by intros ->); try (by intros [? ->]). destruct op; (done || by intros ->). Qed.

Lemma code_at_elem p c : code_at P p = Some c -> exists vec, vec ∈ P /\ c ∈ vec.
Proof.
  unfold code_at. destruct (P !! PC.Macro p) as [vec|] eqn:Hv; cbn; [|done]. intros Hc.
  exists vec. split; by eapply list_elem_of_lookup_2.
Qed.

(** The properties of the codes pass to the vectors that are made of them. *)
Lemma tracks_shaped vec os : tracks vec os -> Forall shaped vec.
Proof.
  intros [_ Hall]. apply Forall_lookup. intros i c' Hi. destruct (Hall i c' Hi) as (p & c & _ & (v & Hv & Hc)%code_at_elem & Htr).
  pose proof (ok_shaped _ Hok v c Hv Hc). destruct Htr as [t|n t q _ _|c' c Hk _]; [by left|done|by eapply kin_shaped].
Qed.

Lemma tracks_jumps vec os t : tracks vec os -> NewJump t ∈ vec -> t < length P.
Proof.
  intros [_ Hall] [i Hi]%list_elem_of_lookup. destruct (Hall i _ Hi) as (p & c & _ & (v & Hv & Hc)%code_at_elem & Htr).
  apply (ok_jumps _ Hok v); [done|]. inversion Htr as [| |? ? Hk]; subst; [done|]. by apply kin_jump in Hk.
Qed.

Lemma tracks_registers vec os c r : tracks vec os -> c ∈ vec -> r ∈ Uses c ++ Definitions c -> r < nregs.
Proof.
  intros [_ Hall] [i Hi]%list_elem_of_lookup Hr. destruct (Hall i _ Hi) as (p & c0 & _ & (v & Hv & Hc)%code_at_elem & Htr).
  destruct Htr as [t|n t q _ _|c' c Hk _].
  - by apply elem_of_nil in Hr.
  - by apply elem_of_nil in Hr.
  - apply (ok_registers _ Hok v c); [done|done|]. by destruct (kin_registers _ _ Hk) as [<- <-].
Qed.

Lemma no_hazard_total bad (regs : list Register.t) rs : (forall r, r ∈ rs -> r < length regs) -> exists b, no_hazard bad regs rs = Ok b.
Proof.
  intros Hr. induction rs as [|r rs IH]; cbn; [by eexists|]. destruct (bad r).
  - destruct (lookup_lt_is_Some_2 regs r) as [x Hx]; [apply Hr; by left|]. exists false. unfold slice_get. by rewrite Hx.
  - apply IH. intros x Hx. apply Hr. by right.
Qed.

Lemma no_hazards_total (regs : list Register.t) writes i vec :
  (forall k, k < length vec -> exists st, StateOf writes (i + k) = Ok st) ->
  (forall c r, c ∈ vec -> r ∈ Uses c ++ Definitions c -> r < length regs) ->
  exists b, no_hazards regs writes i vec = Ok b.
Proof.
  revert i. induction vec as [|c vec IH]; intros i Hst Hr; [by eexists|]. cbn [no_hazards].
  destruct (Hst 0) as [st Hs]; [cbn; lia|]. rewrite Nat.add_0_r in Hs. rewrite Hs. cbn [mbind result_bind].
  destruct (no_hazard_total (fun r => Writes.MaybeAssigned st r && negb (Writes.DefinitelyAssigned st r)) regs (Uses c)) as [b ->].
  { intros r Hu. apply (Hr c); [by left|]. apply elem_of_app. by left. }
  cbn [mbind result_bind]. destruct b; [|by eexists].
  destruct (no_hazard_total (Writes.MaybeAssigned st) regs (Definitions c)) as [b ->].
  { intros r Hd. apply (Hr c); [by left|]. apply elem_of_app. by right. }
  cbn [mbind result_bind]. destruct b; [|by eexists]. apply IH.
  - intros k Hk. rewrite Nat.add_succ_comm. apply Hst. cbn. lia.
  - intros c' r Hc. apply Hr. by right.
Qed.

Lemma tracks_validates (regs : list Register.t) vec os :
  nregs = length regs -> vec <> [] -> tracks vec os -> exists b, validateConflicts regs vec = Ok b.
Proof.
  intros Hn Hne Ht. pose proof (tracks_shaped vec os Ht) as Hsh. unfold validateConflicts.
  assert (Hw : is_ok (WriteMap vec) = true).
  { apply WriteMap_total; [done|]. split; [done|]. intros i c arc. by apply (tracks_arcs vec os). }
  destruct (WriteMap vec) as [writes|] eqn:Hwm; [|done]. cbn [mbind result_bind]. apply no_hazards_total.
  - intros k Hk. destruct (lookup_lt_is_Some_2 vec k Hk) as [c Hc]. destruct (WriteMap_visit _ _ _ _ Hwm Hc) as (st & _ & Hst & _).
    by exists st.
  - intros c r Hc Hr. rewrite <- Hn. by apply (tracks_registers vec os c).
Qed.

End Merge.
End Tracks.
