(* ===== verification/VectorizeSound.v ===== *)
(** * Vectorisation: the loops

    The loops of the pass end, and each vector of the new code starts where its
    instruction did.  The function with the new code simulates the function it was
    made of, so both machines end alike. *)

From Stdlib Require Import ZArith Lia.
From stdpp Require Import base numbers list option strings.
From S2P Require Import Prelude Word Register Memory Instruction Executor Machine Dfa CodeSim Vectorize VectorizeFacts.

Open Scope nat_scope.

Section Loops.
Context {W : Type} `{!Word W}.
Context (P : list (Vector W)) (regs : list Register.t) (Hok : code_ok P (length regs)).
Implicit Types (c : Instruction W) (vec target : Vector W) (os : list PC.t) (externs : list (option nat)).

(** ** Counting jumps *)

Lemma jumps_app vec target : jumps (vec ++ target) = jumps vec + jumps target.
Proof. unfold jumps. by rewrite List.filter_app, length_app. Qed.

Lemma jumps_cons c vec : jumps (c :: vec) = (if is_jump c then 1 else 0) + jumps vec.
Proof. unfold jumps. cbn. by destruct (is_jump c). Qed.

Lemma jumps_adjusted idx m (f : nat -> nat) vec : jumps (imap (fun i => adjusted idx m (f i)) vec) = jumps vec.
Proof.
  revert f. induction vec as [|c vec IH]; intros f; [done|]. cbn [imap]. rewrite !jumps_cons.
  specialize (IH (fun i => f (S i))). cbn in IH. rewrite <- IH. f_equal. by destruct c.
Qed.

Lemma is_jump_NewJump t : is_jump (W := W) (NewJump t) = true.
Proof. by apply bool_decide_eq_true. Qed.

Lemma jump_at vec idx t : vec !! idx = Some (NewJump t) -> jumps vec = S (jumps (take idx vec) + jumps (drop (S idx) vec)).
Proof. intros Hj. rewrite <- (take_drop_middle vec idx _ Hj) at 1. rewrite jumps_app, jumps_cons, is_jump_NewJump. lia. Qed.

Lemma jumps_replaced vec idx t c : vec !! idx = Some (NewJump t) -> is_jump c = false -> jumps vec = S (jumps (<[idx := c]> vec)).
Proof.
  intros Hj Hc. pose proof (lookup_lt_Some _ _ _ Hj). rewrite (jump_at vec idx t Hj), insert_take_drop by done.
  by rewrite jumps_app, jumps_cons, Hc.
Qed.

Definition pending externs : nat := sum_list (zip_with (fun o v => match o with Some _ => 0 | None => jumps v end) externs P).

Lemma pending_shift (f : nat -> nat) externs : pending (map (option_map f) externs) = pending externs.
Proof.
  unfold pending. generalize P as l. induction externs as [|o externs IH]; intros [|v l]; cbn; try done.
  rewrite IH. by destruct o.
Qed.

Lemma pending_absorb externs t target off :
  externs !! t = Some None -> P !! t = Some target -> pending externs = jumps target + pending (<[t := Some off]> externs).
Proof.
  unfold pending. generalize P as l. intros l. revert t l. induction externs as [|o externs IH]; intros [|t] [|v l] He Hp; try done.
  - injection He as ->. injection Hp as ->. done.
  - change (<[S t:=Some off]> (o :: externs)) with (o :: <[t:=Some off]> externs). cbn [zip_with sum_list sum_list_with].
    rewrite (IH t l He Hp). unfold id at 1 3. lia.
Qed.

Lemma pending_start : pending (replicate (length P) None) = sum_list (jumps <$> P).
Proof. unfold pending. generalize P as l. induction l as [|v l IH]; [done|]. cbn. by rewrite IH. Qed.

(** ** One merge *)

Record merging (pc : nat) vec externs os : Prop := {
  mg_tracks : tracks P vec os;
  mg_start : exists q, os !! 0 = Some q /\ leads P (PC.mk pc 0) q;
  mg_length : length externs = length P;
  mg_externs t off : externs !! t = Some (Some off) -> exists q, os !! off = Some q /\ leads P (PC.mk t 0) q
}.

Definition merged_ok (pc : nat) vec externs (r : Vector W * list (option nat)) : Prop :=
  exists os', merging pc r.1 r.2 os' /\ jumps r.1 + pending r.2 < jumps vec + pending externs
    /\ validateConflicts regs r.1 = Ok true.

Lemma jump_target_ok vec index t : vec !! index = Some (NewJump t) -> jump_target vec index = Ok t.
Proof. intros Hj. unfold jump_target, slice_get. by rewrite Hj. Qed.

Lemma moved_start idx m : 0 < m -> moved idx m 0 = 0.
Proof. unfold moved. intros Hm. destruct (Nat.leb_spec 0 idx); lia. Qed.

Lemma merge_inlined pc vec externs os index t target :
  merging pc vec externs os -> vec !! index = Some (NewJump t) -> P !! t = Some target -> externs !! t = Some None ->
  exists vec' externs' os', inlineJump vec index target = Ok vec' /\ vec' <> [] /\ tracks P vec' os'
    /\ updateMicroMap externs index t (length target) = Ok externs'
    /\ merging pc vec' externs' os' /\ jumps vec' + pending externs' < jumps vec + pending externs.
Proof.
  intros [Ht (q0 & Hq0 & Hl0) Hlen Hex] Hj Htgt Hnone. destruct (target_ok P _ Hok t target Htgt) as [Hne Hm].
  pose proof (lookup_lt_Some _ _ _ Hj) as Hlt. pose proof (take_drop_middle vec index _ Hj) as Hsplit.
  assert (Hidx : length (take index vec) = index) by (rewrite length_take; lia).
  destruct (tracks_inline P _ Hok t (take index vec) (drop (S index) vec) target os Htgt) as (vec' & Hin & Hvec' & Ht'); [by rewrite Hsplit|].
  rewrite Hsplit, Hidx in Hin. rewrite Hidx in Hvec', Ht'.
  pose proof (spliced_moved P vec index t (length target) os Hm Ht Hj) as Hmoved.
  exists vec', (map (option_map (moved index (length target))) (<[t:=Some index]> externs)), (spliced index t (length target) os).
  split; [done|]. split; [|split; [done|split; [|split]]].
  - rewrite Hvec'. intros [_ [? _]%app_eq_nil]%app_eq_nil. done.
  - unfold updateMicroMap, slice_set. rewrite decide_True by (by eapply lookup_lt_Some). cbn [mbind result_bind]. f_equal.
    apply map_ext. intros [j|]; [|done]. cbn [option_map]. f_equal. unfold moved. destruct (Nat.ltb_spec index j), (Nat.leb_spec j index); lia.
  - split; [done| | |].
    + rewrite <- (moved_start index (length target) Hm). by apply (leads_origin P os _ _ Hmoved 0 q0).
    + by rewrite length_map, length_insert.
    + intros t' off Ho. change (map (option_map ?f) ?l) with (fmap (option_map f) l) in Ho. rewrite list_lookup_fmap in Ho.
      destruct (decide (t' = t)) as [->|Hne'].
      * rewrite list_lookup_insert_eq in Ho by (by eapply lookup_lt_Some). cbn in Ho. injection Ho as <-.
        destruct (tracks_jump P vec os index t Ht Hj) as (p & Hp & _). exists (PC.mk t 0). split; [|constructor].
        unfold moved. rewrite Nat.leb_refl. rewrite <- (spliced_inside index t (length target) os 0); [f_equal; lia| |done].
        apply lookup_lt_Some in Hp. lia.
      * rewrite list_lookup_insert_ne in Ho by done. destruct (externs !! t') as [[off0|]|] eqn:He; try done. cbn in Ho.
        injection Ho as <-. destruct (Hex t' off0 He) as (q & Hq & Hl). by apply (leads_origin P os _ _ Hmoved off0 q).
  - rewrite pending_shift, (pending_absorb externs t target index Hnone Htgt), (jump_at vec index t Hj), Hvec', !jumps_app.
    rewrite (jumps_adjusted index (length target) (fun i => i)), (jumps_adjusted index (length target) (fun i => S index + i)). lia.
Qed.

Lemma merge_replaced pc vec externs os index t offset :
  merging pc vec externs os -> vec !! index = Some (NewJump t) -> externs !! t = Some (Some offset) -> index < offset ->
  exists vec', replaceJump vec index offset = Ok vec' /\ vec' <> [] /\ merging pc vec' externs os /\ jumps vec' < jumps vec.
Proof.
  intros [Ht Hs Hlen Hex] Hj He Hlt. destruct (Hex t offset He) as (q & Hq & Hl).
  destruct (tracks_replace P vec os index offset t q Ht Hj Hq Hl Hlt) as [Hr Ht']. eexists. split; [done|].
  pose proof (lookup_lt_Some _ _ _ Hj). split; [|split; [done|]].
  - intros Hnil. apply (f_equal length) in Hnil. rewrite length_insert in Hnil. cbn in Hnil. lia.
  - rewrite (jumps_replaced vec index t (Skip (offset - index - 1)) Hj); [lia|]. by apply bool_decide_eq_false.
Qed.

Lemma merge_at_ok pc vec externs os index t :
  merging pc vec externs os -> vec !! index = Some (NewJump t) ->
  exists r, merge_at pc P regs vec externs index = Ok r /\ match r with Some r => merged_ok pc vec externs r /\ r.1 <> [] | None => True end.
Proof.
  intros Hmg Hj. pose proof (tracks_jumps P _ Hok vec os t (mg_tracks _ _ _ _ Hmg) (list_elem_of_lookup_2 _ _ _ Hj)) as Ht.
  destruct (lookup_lt_is_Some_2 externs t) as [o Ho]; [by rewrite (mg_length _ _ _ _ Hmg)|].
  destruct (lookup_lt_is_Some_2 P t Ht) as [target Htgt]. unfold merge_at. rewrite (jump_target_ok vec index t Hj). cbn [mbind result_bind].
  unfold slice_get. rewrite Ho. cbn [mbind result_bind]. destruct (_ && _) eqn:Hc; [|by exists None].
  apply andb_true_iff in Hc as [Hc _]. rewrite Htgt. cbn [mbind result_bind]. destruct o as [offset|].
  - apply Nat.ltb_lt in Hc. destruct (merge_replaced pc vec externs os index t offset Hmg Hj Ho Hc) as (vec' & -> & Hne & Hmg' & Hlt).
    cbn [mbind result_bind]. destruct (tracks_validates P _ Hok regs vec' os eq_refl Hne (mg_tracks _ _ _ _ Hmg')) as [b Hb]. rewrite Hb.
    cbn [mbind result_bind]. destruct b; [|by exists None]. eexists. split; [done|]. split; [|done]. exists os. split_and!; [done|cbn [fst snd]; lia|done].
  - destruct (merge_inlined pc vec externs os index t target Hmg Hj Htgt Ho) as (vec' & ext' & os' & -> & Hne & Ht' & Hu & Hmg' & Hlt).
    cbn [mbind result_bind]. destruct (tracks_validates P _ Hok regs vec' os' eq_refl Hne Ht') as [b Hb]. rewrite Hb.
    cbn [mbind result_bind]. destruct b; [|by exists None]. rewrite Hu. cbn [mbind result_bind]. eexists. split; [done|]. split; [|done].
    by exists os'.
Qed.

(** ** The loops over jumps *)

(** [lastJump] finds the last of the jumps before [n]. *)
Lemma lastJump_spec vec n :
  Forall shaped vec -> n <= length vec ->
  exists o, lastJump vec n = Ok o /\
    match o with
    | Some i => i < n /\ (exists t, vec !! i = Some (NewJump t)) /\ forall j t, i < j < n -> vec !! j <> Some (NewJump t)
    | None => forall j t, j < n -> vec !! j <> Some (NewJump t)
    end.
Proof.
  intros Hsh. induction n as [|n IH]; intros Hn; [exists None; split; [done|lia]|]. cbn [lastJump].
  destruct (lookup_lt_is_Some_2 vec n) as [c Hc]; [lia|]. unfold slice_get. rewrite Hc. cbn [mbind result_bind]. case_decide as Hop.
  - exists (Some n). split; [done|]. split; [lia|]. split; [|lia].
    pose proof (proj1 (Forall_lookup _ _) Hsh _ _ Hc) as Hs. exists (match c with OpImm _ t => t | _ => 0 end). rewrite Hc. f_equal.
    destruct c as [op ? ? ?|op ?|?|? ? ? ?|?|?|op ? ? ?|? ? w|? ?]; cbn in Hop, Hs; try done; subst.
    + by destruct Hs as [|[]].
    + done.
    + by destruct Hs as (?&?&?).
    + by destruct (w =? MaxUint)%Z.
  - assert (Hnj : forall t, vec !! n <> Some (NewJump t)) by (intros t Hx; rewrite Hc in Hx; injection Hx as ->; done).
    destruct IH as (o & Ho & Hspec); [lia|]. exists o. split; [done|]. destruct o as [i|].
    + destruct Hspec as (Hi & He & Hall). split; [lia|]. split; [done|]. intros j t Hj. destruct (decide (j = n)) as [->|]; [done|]. apply Hall. lia.
    + intros j t Hj. destruct (decide (j = n)) as [->|]; [done|]. apply Hspec. lia.
Qed.

Lemma merge_jumps_ok pc vec externs os fuel n :
  merging pc vec externs os -> n <= length vec -> n < fuel ->
  exists r, merge_jumps pc P regs fuel vec externs n = Ok r /\ match r with Some r => merged_ok pc vec externs r /\ r.1 <> [] | None => True end.
Proof.
  intros Hmg. pose proof (tracks_shaped P _ Hok vec os (mg_tracks _ _ _ _ Hmg)) as Hsh.
  revert n. induction fuel as [|fuel IH]; intros n Hn Hf; [lia|]. cbn [merge_jumps].
  destruct (lastJump_spec vec n Hsh Hn) as (o & -> & Ho). cbn [mbind result_bind]. destruct o as [index|]; [|by exists None].
  destruct Ho as (Hi & [t Hj] & _). destruct (merge_at_ok pc vec externs os index t Hmg Hj) as (r & -> & Hr). cbn [mbind result_bind].
  destruct r as [r|]; [by exists (Some r)|]. apply IH; lia.
Qed.

(** What the pass makes of one instruction *)
Definition vector_ok (pc : nat) vec : Prop :=
  vec <> [] /\ exists os, tracks P vec os /\ exists q, os !! 0 = Some q /\ leads P (PC.mk pc 0) q.

Lemma merge_loop_ok pc vec externs os fuel :
  merging pc vec externs os -> vec <> [] -> jumps vec + pending externs < fuel ->
  exists vec', merge_loop pc P regs fuel vec externs = Ok vec' /\ vector_ok pc vec'
    /\ (vec' = vec \/ validateConflicts regs vec' = Ok true).
Proof.
  revert vec externs os. induction fuel as [|fuel IH]; intros vec externs os Hmg Hne Hf; [lia|]. cbn [merge_loop].
  destruct (merge_jumps_ok pc vec externs os (S (length vec)) (length vec) Hmg) as (r & -> & Hr); [lia..|]. cbn [mbind result_bind].
  destruct r as [[vec' ext']|].
  - destruct Hr as [(os' & Hmg' & Hlt & Hv) Hne']. cbn [fst snd] in *.
    destruct (IH vec' ext' os' Hmg' Hne') as (vec'' & Hl & Hok' & Hv'); [lia|]. exists vec''. split; [done|]. split; [done|].
    right. by destruct Hv' as [-> |].
  - exists vec. split; [done|]. split; [|by left]. split; [done|]. exists os. split; [apply Hmg|apply Hmg].
Qed.

Lemma tracks_start pc vec : P !! pc = Some vec -> tracks P vec (PC.mk pc <$> seq 0 (length vec)).
Proof.
  intros Hv. split; [by rewrite length_fmap, length_seq|]. intros i c Hi. pose proof (lookup_lt_Some _ _ _ Hi) as Hlt.
  exists (PC.mk pc i), c. split; [by rewrite list_lookup_fmap, lookup_seq_lt|]. split; [unfold code_at; cbn; by rewrite Hv|].
  destruct (is_NewJump c) as [[t ->]|Hnj]; [apply traced_jump|]. apply traced_kin; [by apply kin_refl|].
  eapply Forall2_impl; [apply (arcs_shift (fun j => j < length vec) 0)|].
  - intros arc. eapply (ok_arcs P _ Hok); [by eapply list_elem_of_lookup_2|done].
  - intros a' a [-> Ha]. exists (PC.mk pc a.1). split; [by rewrite list_lookup_fmap, lookup_seq_lt|constructor].
Qed.

Lemma vectorizeInstruction_ok pc vec0 :
  P !! pc = Some vec0 ->
  exists vec, vectorizeInstruction pc P regs = Ok vec /\ vector_ok pc vec /\ (vec = vec0 \/ validateConflicts regs vec = Ok true).
Proof.
  intros Hv. pose proof (ok_nonempty P _ Hok vec0 (list_elem_of_lookup_2 _ _ _ Hv)) as Hne. unfold vectorizeInstruction, slice_get.
  rewrite Hv. cbn [mbind result_bind]. apply (merge_loop_ok pc vec0 _ (PC.mk pc <$> seq 0 (length vec0))); [|done|].
  - split; [by apply tracks_start| |by rewrite length_replicate|].
    + exists (PC.mk pc 0). split; [|constructor]. destruct vec0; [done|]. done.
    + intros t off Ho. apply lookup_replicate in Ho as [[=] _].
  - unfold merge_fuel. rewrite pending_start. lia.
Qed.

(** ** The worklist *)

(** The instructions that are done, those that are marked, and those to do *)
Record marking (insns : list (Vector W)) (visited : list bool) (worklist : list nat) : Prop := {
  mk_length : length visited = length P;
  mk_done a vec : insns !! a = Some vec -> vec <> [] -> visited !! a = Some true;
  mk_visited a : visited !! a = Some true -> (exists vec, insns !! a = Some vec /\ vec <> []) \/ a ∈ worklist;
  mk_todo a : a ∈ worklist -> insns !! a = Some [] /\ visited !! a = Some true;
  mk_NoDup : NoDup worklist
}.

Definition grows (visited visited' : list bool) : Prop := forall a, visited !! a = Some true -> visited' !! a = Some true.

Lemma mark_jumps_ok insns vec fuel n visited worklist :
  Forall shaped vec -> (forall t, NewJump t ∈ vec -> t < length P) -> length insns = length P ->
  n <= length vec -> n < fuel -> marking insns visited worklist ->
  exists visited' worklist', mark_jumps fuel vec n visited worklist = Ok (visited', worklist')
    /\ marking insns visited' worklist' /\ grows visited visited'
    /\ forall j t, j < n -> vec !! j = Some (NewJump t) -> visited' !! t = Some true.
Proof.
  intros Hsh Hj Hli. revert n visited worklist. induction fuel as [|fuel IH]; intros n visited worklist Hn Hf Hmk; [lia|]. cbn [mark_jumps].
  destruct (lastJump_spec vec n Hsh Hn) as (o & -> & Ho). cbn [mbind result_bind]. destruct o as [index|].
  2: { exists visited, worklist. split; [done|]. split; [done|]. split; [by intros a|]. intros j t Hlt Hx. by destruct (Ho j t). }
  destruct Ho as (Hi & [t Ht] & Hlast). rewrite (jump_target_ok vec index t Ht). cbn [mbind result_bind].
  pose proof (Hj t (list_elem_of_lookup_2 _ _ _ Ht)) as Htl.
  assert (Hrest : forall visited' worklist', marking insns visited' worklist' -> grows visited visited' -> visited' !! t = Some true ->
    exists v w, mark_jumps fuel vec index visited' worklist' = Ok (v, w) /\ marking insns v w /\ grows visited v
      /\ forall j t, j < n -> vec !! j = Some (NewJump t) -> v !! t = Some true).
  { intros visited' worklist' Hmk' Hg Hvt. destruct (IH index visited' worklist') as (v & w & Hr & Hmk'' & Hg' & Hall); [lia|lia|done|].
    exists v, w. split; [done|]. split; [done|]. split; [intros a Ha; by apply Hg', Hg|]. intros j t' Hlt Hx.
    destruct (decide (j < index)) as [Hlt'|]; [by eapply Hall|]. destruct (decide (j = index)) as [->|].
    - rewrite Ht in Hx. injection Hx as <-. by apply Hg'.
    - by destruct (Hlast j t'); [lia|]. }
  destruct Hmk as [Hl Hd Hv Ht0 Hnd]. unfold slice_get. destruct (lookup_lt_is_Some_2 visited t) as [seen Hs]; [lia|].
  rewrite Hs. cbn [mbind result_bind]. destruct seen.
  - apply Hrest; [done|by intros a|done].
  - unfold slice_set. rewrite decide_True by lia. cbn [mbind result_bind]. apply Hrest.
    + split.
      * by rewrite length_insert.
      * intros a vec' Ha Hne. destruct (decide (a = t)) as [->|]; [rewrite list_lookup_insert_eq by lia; done|].
        rewrite list_lookup_insert_ne by done. by eapply Hd.
      * intros a Ha. destruct (decide (a = t)) as [->|]; [right; by left|]. rewrite list_lookup_insert_ne in Ha by done.
        destruct (Hv a Ha); [by left|right; by right].
      * intros a [->|Ha]%elem_of_cons.
        -- split; [|rewrite list_lookup_insert_eq by lia; done]. destruct (lookup_lt_is_Some_2 insns t) as [vec' Hv']; [lia|].
           rewrite Hv'. destruct vec' as [|c vec']; [done|]. pose proof (Hd t _ Hv' ltac:(done)). congruence.
        -- destruct (Ht0 a Ha) as [H1 H2]. split; [done|]. destruct (decide (a = t)) as [->|]; [congruence|].
           by rewrite list_lookup_insert_ne.
      * constructor; [|done]. intros Hin. destruct (Ht0 t Hin) as [_ ?]. congruence.
    + intros a Ha. destruct (decide (a = t)) as [->|]; [rewrite list_lookup_insert_eq by lia; done|]. by rewrite list_lookup_insert_ne.
    + by rewrite list_lookup_insert_eq by lia.
Qed.

(** The instructions that are done are what the pass makes of them, and the targets of
    their jumps are marked. *)
Definition done_ok (insns : list (Vector W)) (visited : list bool) : Prop :=
  forall a vec, insns !! a = Some vec -> vec <> [] ->
    vector_ok a vec /\ (P !! a = Some vec \/ validateConflicts regs vec = Ok true)
    /\ forall t, NewJump t ∈ vec -> visited !! t = Some true.

Definition todo (insns : list (Vector W)) : nat := length (List.filter (fun vec => length vec =? 0) insns).

Lemma todo_insert insns a vec : insns !! a = Some [] -> vec <> [] -> todo insns = S (todo (<[a := vec]> insns)).
Proof.
  intros Ha Hne. pose proof (lookup_lt_Some _ _ _ Ha). unfold todo. rewrite <- (take_drop_middle insns a _ Ha) at 1.
  rewrite insert_take_drop by done. rewrite !List.filter_app, !length_app. cbn. destruct vec; [done|]. cbn. lia.
Qed.

Lemma worklist_loop_ok fuel insns visited worklist :
  length insns = length P -> marking insns visited worklist -> done_ok insns visited -> todo insns < fuel ->
  exists insns' visited', worklist_loop fuel P regs insns visited worklist = Ok insns'
    /\ length insns' = length P /\ marking insns' visited' [] /\ done_ok insns' visited' /\ grows visited visited'.
Proof.
  revert insns visited worklist. induction fuel as [|fuel IH]; intros insns visited worklist Hli Hmk Hdn Hf; [lia|]. cbn [worklist_loop].
  destruct worklist as [|pc worklist]; [exists insns, visited; split_and!; [done..|by intros a]|].
  destruct (mk_todo _ _ _ Hmk pc) as [Hpc Hvis]; [by left|].
  destruct (lookup_lt_is_Some_2 P pc) as [vec0 Hv0]; [rewrite <- Hli; by eapply lookup_lt_Some|].
  destruct (vectorizeInstruction_ok pc vec0 Hv0) as (vec & -> & [Hne (os & Ht & Hs)] & Hval). cbn [mbind result_bind].
  pose proof (lookup_lt_Some _ _ _ Hpc). unfold slice_set. rewrite decide_True by done. cbn [mbind result_bind].
  assert (Hmk1 : marking (<[pc := vec]> insns) visited worklist).
  { destruct Hmk as [Hl Hd Hv Ht0 Hnd]. apply NoDup_cons in Hnd as [Hnin Hnd]. split; [done| | | |done].
    - intros a v Ha Hva. destruct (decide (a = pc)) as [->|]; [done|]. rewrite list_lookup_insert_ne in Ha by done. by eapply Hd.
    - intros a Ha. destruct (decide (a = pc)) as [->|]; [left; exists vec; split; [by rewrite list_lookup_insert_eq|done]|].
      rewrite list_lookup_insert_ne by done. destruct (Hv a Ha) as [|[->|]%elem_of_cons]; [by left|done|by right].
    - intros a Ha. destruct (decide (a = pc)) as [->|]; [done|]. rewrite list_lookup_insert_ne by done. apply Ht0. by right. }
  unfold markJumpTargets.
  destruct (mark_jumps_ok (<[pc := vec]> insns) vec (S (length vec)) (length vec) visited worklist) as (v1 & w1 & -> & Hmk2 & Hg & Hall).
  { by eapply tracks_shaped. } { intros t. by eapply tracks_jumps. } { by rewrite length_insert. } { lia. } { lia. } { done. }
  cbn [mbind result_bind]. destruct (IH (<[pc := vec]> insns) v1 w1) as (i2 & v2 & Hr & Hl2 & Hm2 & Hd2 & Hg2).
  - by rewrite length_insert.
  - done.
  - intros a v Ha Hva. destruct (decide (a = pc)) as [->|].
    + rewrite list_lookup_insert_eq in Ha by done. injection Ha as <-. split; [split; [done|by exists os]|].
      split; [destruct Hval as [-> |]; auto|]. intros t [j Hj]%list_elem_of_lookup. apply (Hall j); [by eapply lookup_lt_Some|done].
    + rewrite list_lookup_insert_ne in Ha by done. destruct (Hdn a v Ha Hva) as (H1 & H2 & H3). split; [done|]. split; [done|].
      intros t Hin. by apply Hg, H3.
  - rewrite (todo_insert insns pc vec Hpc Hne) in Hf. lia.
  - exists i2, v2. split; [done|]. split_and!; [done..|]. intros a Ha. by apply Hg2, Hg.
Qed.

End Loops.

(** ** Pruning *)

Section Prune.
Context {W : Type} `{!Word W}.
Context (P : list (Vector W)) (regs : list Register.t) (Hok : code_ok P (length regs)).
Implicit Types (c : Instruction W) (vec : Vector W) (insns kept : list (Vector W)).

Lemma compacted_lookup k insns a vec :
  insns !! a = Some vec -> vec <> [] ->
  exists j, compacted k insns !! a = Some (k + j) /\ List.filter non_empty insns !! j = Some vec.
Proof.
  revert k a. induction insns as [|v insns IH]; intros k [|a] Ha Hne; try done; cbn in Ha.
  - injection Ha as ->. destruct vec as [|c vec]; [done|]. exists 0. by rewrite Nat.add_0_r.
  - destruct v as [|c v].
    + destruct (IH k a Ha Hne) as (j & Hj & Hf). by exists j.
    + destruct (IH (S k) a Ha Hne) as (j & Hj & Hf). exists (S j). split; [|done]. change (compacted (S k) insns !! a = Some (k + S j)). rewrite Hj. f_equal. lia.
Qed.

(** A jump to the new place of its target *)
Definition rebound (mapping : list nat) c : Instruction W :=
  match c with OpImm JUMP t => NewJump (default 0 (mapping !! t)) | _ => c end.

Lemma rebind_spec mapping vec :
  Forall shaped vec -> (forall t, NewJump t ∈ vec -> t < length mapping) -> rebind mapping vec = Ok (rebound mapping <$> vec).
Proof.
  induction 1 as [|c vec Hc Hsh IH]; intros Ht; [done|]. cbn [rebind]. rewrite IH by (intros t Hin; apply Ht; by right).
  destruct (is_NewJump c) as [[t ->]|Hnj].
  - rewrite decide_True by done. cbn [NewJump]. destruct (lookup_lt_is_Some_2 mapping t) as [x Hx]; [apply Ht; by left|].
    unfold slice_get. rewrite Hx. cbn. by rewrite Hx.
  - assert (Hr : rebound mapping c = c) by (destruct c as [|[] n| | | | | | |]; try done; by destruct (Hnj n)).
    rewrite decide_False.
    + cbn. by rewrite Hr.
    + destruct c as [op ? ? ?|op t|?|? ? ? ?|?|?|op ? ? ?|? ? w|? ?]; cbn; try done.
      * intros ->. by destruct Hc as [|[]].
      * intros ->. by destruct (Hnj t).
      * intros ->. by destruct Hc as (?&?&?).
      * by destruct (w =? MaxUint)%Z.
Qed.

Lemma rebind_all_spec mapping kept :
  (forall vec, vec ∈ kept -> Forall shaped vec /\ forall t, NewJump t ∈ vec -> t < length mapping) ->
  rebind_all mapping kept = Ok ((fun vec => rebound mapping <$> vec) <$> kept).
Proof.
  induction kept as [|vec kept IH]; intros Hk; [done|]. cbn [rebind_all]. destruct (Hk vec) as [Hsh Ht]; [by left|].
  rewrite rebind_spec by done. rewrite IH; [done|]. intros v Hv. apply Hk. by right.
Qed.

Lemma length_compacted k insns : length (compacted k insns) = length insns.
Proof. revert k. induction insns as [|[|c v] insns IH]; intros k; cbn; [done|by rewrite IH..]. Qed.

Lemma rebound_arcs mapping i c : arcs i (rebound mapping c) = arcs i c.
Proof. by destruct c as [|[] ?| | | | | | |]. Qed.

Lemma rebound_kin mapping c' c : kin c' c -> kin (rebound mapping c') c.
Proof. destruct c as [|op n| | | | | | |]; cbn; try (by intros ->); try (by intros [? ->]; eexists). by destruct op; try (by intros ->). Qed.

Section Code.
Context (insns : list (Vector W)) (visited : list bool).
Context (Hlen : length insns = length P) (Hmk : marking P insns visited []) (Hdone : done_ok P regs insns visited).
Context (Hfirst : visited !! 0 = Some true).

#[local] Abbreviation mapping := (compacted 0 insns).

(** Where the codes of the new vectors come from *)
Definition origin (p' p : PC.t) : Prop :=
  exists a vec os, insns !! a = Some vec /\ vec <> [] /\ mapping !! a = Some (PC.Macro p')
    /\ tracks P vec os /\ os !! PC.Micro p' = Some p.

Lemma prune_spec : pruneUnreachableInstructions insns = Ok ((fun vec => rebound mapping <$> vec) <$> List.filter non_empty insns).
Proof.
  unfold pruneUnreachableInstructions. apply rebind_all_spec. intros vec Hv.
  apply list_elem_of_In, filter_In in Hv as [Hv Hne]. apply list_elem_of_In, list_elem_of_lookup in Hv as [a Ha].
  assert (Hne' : vec <> []) by (by intros ->). destruct (Hdone a vec Ha Hne') as ([_ (os & Ht & _)] & _ & Hj).
  split; [by eapply tracks_shaped|]. intros t Hin. rewrite length_compacted, Hlen. by eapply tracks_jumps.
Qed.

Lemma origin_start a : visited !! a = Some true -> exists k, mapping !! a = Some k /\ follows P origin (PC.mk k 0) (PC.mk a 0).
Proof.
  intros Ha. destruct (mk_visited _ _ _ _ Hmk a Ha) as [(vec & Hv & Hne)|Hin]; [|by apply elem_of_nil in Hin].
  destruct (Hdone a vec Hv Hne) as ([_ (os & Ht & q & Hq & Hl)] & _). destruct (compacted_lookup 0 insns a vec Hv Hne) as (k & Hk & _).
  exists k. split; [done|]. exists q. split; [done|]. by exists a, vec, os.
Qed.

Lemma prune_simulates : simulates ((fun vec => rebound mapping <$> vec) <$> List.filter non_empty insns) P origin.
Proof.
  split.
  - destruct (origin_start 0 Hfirst) as (k & Hk & Hf). assert (k = 0) as ->; [|done].
    destruct insns as [|[|c v] rest]; cbn in Hk; congruence.
  - intros p' p (a & vec & os & Hv & Hne & Hk & Ht & Hp). destruct (compacted_lookup 0 insns a vec Hv Hne) as (k & Hk' & Hf).
    rewrite Hk in Hk'. injection Hk' as Hk'. rewrite <- Hk' in Hf.
    destruct (Hdone a vec Hv Hne) as (_ & _ & Hjump). pose proof (lookup_lt_Some _ _ _ Hp) as Hlt. rewrite (proj1 Ht) in Hlt.
    destruct (lookup_lt_is_Some_2 vec _ Hlt) as [c' Hc']. pose proof Ht as [Hlo Hall]. destruct (Hall _ _ Hc') as (p0 & c & Hp0 & Hc & Htr).
    rewrite Hp in Hp0. injection Hp0 as <-. unfold code_at in Hc. destruct (P !! PC.Macro p) as [v|] eqn:Hpv; cbn in Hc; [|done].
    exists (rebound mapping <$> vec), v, (rebound mapping c'), c. rewrite !list_lookup_fmap, Hf, Hc'. split_and!; [done|done|done|done|].
    rewrite length_fmap. assert (Hset : forall j, j < length vec -> settle (PC.Macro p') (length vec) j = PC.mk (PC.Macro p') j).
    { intros j Hj. unfold settle. destruct (Nat.leb_spec (length vec) j); [lia|done]. }
    destruct Htr as [t|n t q Hq Hl|c' c Hkin Harcs].
    + destruct (origin_start t) as (j & Hj & Hfo); [apply Hjump; by eapply list_elem_of_lookup_2|].
      cbn [rebound NewJump]. rewrite Hj. by apply matched_jump.
    + apply matched_skip. rewrite Hset by (rewrite <- Hlo; by eapply lookup_lt_Some). exists q. split; [done|]. by exists a, vec, os.
    + apply matched_kin; [by apply rebound_kin|by eapply (ok_shaped P _ Hok v); eapply list_elem_of_lookup_2|].
      rewrite rebound_arcs. apply Forall2_same_length_lookup. split; [by eapply Forall2_length|]. intros i arc' arc Ha' Ha.
      destruct (Forall2_lookup_lr _ _ _ _ _ _ Harcs Ha' Ha) as (q & Hq & Hl).
      assert (Harc : arc.1 < length v).
      { eapply (ok_arcs P _ Hok); [by eapply list_elem_of_lookup_2|done|by eapply list_elem_of_lookup_2]. }
      rewrite Hset by (rewrite <- Hlo; by eapply lookup_lt_Some). unfold settle. destruct (Nat.leb_spec (length v) arc.1); [lia|].
      exists q. split; [done|]. by exists a, vec, os.
Qed.

End Code.
End Prune.

(** ** Conflicts of the new vectors *)

Section Conflicts.
Context {W : Type} `{!Word W}.
Implicit Types (c : Instruction W) (vec : Vector W) (f : Function W).

Lemma rebound_transfer mapping i c st : writeDfaTransfer i (rebound mapping c) st = writeDfaTransfer i c st.
Proof. by destruct c as [|[] ?| | | | | | |]. Qed.

Lemma rebound_loop mapping i vec p :
  construct_loop writeDfaTransfer i (rebound mapping <$> vec) p = construct_loop writeDfaTransfer i vec p.
Proof.
  revert i p. induction vec as [|c vec IH]; intros i p; [done|]. cbn [fmap list_fmap construct_loop].
  destruct (StateOf p i) as [st|]; [|done]. cbn [mbind result_bind]. rewrite rebound_transfer.
  destruct (writeDfaTransfer i c st) as [tfrs|]; [|done]. cbn [mbind result_bind]. destruct (join_all tfrs p); [|done]. apply IH.
Qed.

Lemma rebound_WriteMap mapping vec : WriteMap (rebound mapping <$> vec) = WriteMap vec.
Proof. unfold WriteMap, Construct. rewrite length_fmap. destruct vec as [|c vec]; [done|]. apply (rebound_loop mapping 0 (c :: vec)). Qed.

Lemma rebound_registers mapping c : Uses (rebound mapping c) = Uses c /\ Definitions (rebound mapping c) = Definitions c.
Proof. by destruct c as [|[] ?| | | | | | |]. Qed.

Lemma rebound_hazards mapping regs writes i vec : no_hazards regs writes i (rebound mapping <$> vec) = no_hazards regs writes i vec.
Proof.
  revert i. induction vec as [|c vec IH]; intros i; [done|]. cbn [fmap list_fmap no_hazards].
  destruct (rebound_registers mapping c) as [-> ->]. destruct (StateOf writes i); [|done]. cbn [mbind result_bind].
  destruct (no_hazard _ _ _) as [[]|]; try done. cbn [mbind result_bind]. destruct (no_hazard _ _ _) as [[]|]; try done. apply IH.
Qed.

Lemma rebound_valid mapping regs vec : validateConflicts regs (rebound mapping <$> vec) = validateConflicts regs vec.
Proof. unfold validateConflicts. rewrite rebound_WriteMap. destruct (WriteMap vec); [|done]. apply rebound_hazards. Qed.

End Conflicts.

(** ** Functions *)

Section Functions.
Context {W : Type} `{!Word W}.
Implicit Types (c : Instruction W) (vec : Vector W) (code : list (Vector W)) (f : Function W) (ms : list (Module_ W)).

(** What the pass asks of a function: it is what its constructor makes, it has code,
    and control stays inside the vectors of the prepared code. *)
Record function_ok f : Prop := {
  fn_code : code f <> [];
  fn_vectors : Forall (fun vec => vec <> []) (code f);
  fn_prepared : code_ok (prepareCode (code f)) (length (registers f));
  fn_new : Instruction.New (name f) (native f) (registers f) (code f) = Ok f
}.

Definition module_ok (m : Module_ W) : Prop := match m with MFunction f => function_ok f | MMemory _ => True end.

Lemma prepareCode_lookup code a :
  prepareCode code !! a =
  (fun vec => if negb (endsInTerminator vec) && (a + 1 <? length code) then vec ++ [NewJump (a + 1)] else vec) <$> code !! a.
Proof. unfold prepareCode. by rewrite list_lookup_imap. Qed.

Lemma length_prepareCode code : length (prepareCode code) = length code.
Proof. apply length_imap. Qed.

(** The original code simulates the prepared one: the jumps at the end of the vectors
    lead where control falls through to. *)
Definition in_code code (p' p : PC.t) : Prop := p' = p /\ is_Some (code_at code p).

Lemma in_code_start code t : Forall (fun vec => vec <> []) code -> t < length code -> in_code code (PC.mk t 0) (PC.mk t 0).
Proof.
  intros Hne Ht. split; [done|]. unfold code_at. cbn. destruct (lookup_lt_is_Some_2 code t Ht) as [vec Hv]. rewrite Hv. cbn.
  pose proof (proj1 (Forall_lookup _ _) Hne _ _ Hv) as Hn. cbn in Hn. destruct vec; [done|]. by eexists.
Qed.

Lemma prepared_simulates code nregs :
  code <> [] -> Forall (fun vec => vec <> []) code -> code_ok (prepareCode code) nregs ->
  simulates code (prepareCode code) (in_code code).
Proof.
  intros Hc Hne Hok. assert (Hs : forall t, t < length code -> follows (prepareCode code) (in_code code) (PC.mk t 0) (PC.mk t 0)).
  { intros t Ht. exists (PC.mk t 0). split; [constructor|]. by apply in_code_start. }
  split; [apply Hs; destruct code; [done|cbn; lia]|]. intros p' p [-> [c Hat]]. unfold code_at in Hat.
  destruct (code !! PC.Macro p) as [vec|] eqn:Hv; cbn in Hat; [|done]. pose proof (prepareCode_lookup code (PC.Macro p)) as Hp.
  rewrite Hv in Hp. cbn [fmap option_fmap option_map] in Hp. set (pvec := if _ && _ then _ else _) in Hp.
  assert (Hpc : pvec !! PC.Micro p = Some c) by (subst pvec; destruct (_ && _); [by apply lookup_app_l_Some|done]).
  pose proof (list_elem_of_lookup_2 _ _ _ Hp) as Hin. pose proof (list_elem_of_lookup_2 _ _ _ Hpc) as Hcin.
  exists vec, pvec, c, c. split_and!; [done|done|done|done|]. destruct (is_NewJump c) as [[t ->]|Hnj].
  - apply matched_jump, Hs. rewrite <- length_prepareCode. by apply (ok_jumps _ _ Hok pvec).
  - apply matched_kin; [by apply kin_refl|by apply (ok_shaped _ _ Hok pvec)|]. apply Forall2_same_length_lookup. split; [done|].
    intros i arc' arc Ha' Ha. rewrite Ha in Ha'. injection Ha' as <-. apply list_elem_of_lookup_2 in Ha.
    pose proof (ok_arcs _ _ Hok pvec _ _ _ Hin Hpc Ha) as Hlt. unfold settle. destruct (Nat.leb_spec (length pvec) arc.1); [lia|].
    destruct (Nat.leb_spec (length vec) arc.1) as [Hge|Hlt'].
    + subst pvec. destruct (_ && _) eqn:Happ; [|lia]. rewrite length_app in Hlt. cbn in Hlt.
      assert (arc.1 = length vec) as -> by lia. apply andb_true_iff in Happ as [_ Happ]. apply Nat.ltb_lt in Happ.
      exists (PC.mk (PC.Macro p + 1) 0). rewrite Nat.add_1_r in *. split; [|by apply in_code_start].
      apply leads_one. unfold code_at. cbn. rewrite Hp. cbn. by apply list_lookup_middle.
    + exists (PC.mk (PC.Macro p) arc.1). split; [constructor|]. split; [done|]. unfold code_at. cbn. rewrite Hv. cbn. by apply lookup_lt_is_Some.
Qed.

(** What the pass makes of the code of a function *)
Lemma vectorizeCode_ok code (regs : list Register.t) :
  code <> [] -> code_ok (prepareCode code) (length regs) ->
  exists insns O, vectorizeCode code regs = Ok insns /\ simulates insns (prepareCode code) O
    /\ (Forall (fun vec => validateConflicts regs vec = Ok true) (prepareCode code) ->
        Forall (fun vec => validateConflicts regs vec = Ok true) insns).
Proof.
  intros Hc Hok. unfold vectorizeCode, slice_set. rewrite length_replicate.
  assert (Hn : 0 < length code) by (destruct code; [done|cbn; lia]). rewrite decide_True by done. cbn [mbind result_bind].
  assert (Hv0 : <[0:=true]> (replicate (length code) false) !! 0 = Some true) by (apply list_lookup_insert_eq; by rewrite length_replicate).
  destruct (worklist_loop_ok (prepareCode code) regs Hok (S (length code)) (replicate (length code) [])
    (<[0:=true]> (replicate (length code) false)) [0]) as (insns & visited & -> & Hl & Hmk & Hdn & Hg).
  - by rewrite length_replicate, length_prepareCode.
  - split.
    + by rewrite length_insert, length_replicate, length_prepareCode.
    + by intros a vec [-> _]%lookup_replicate ?.
    + intros a Ha. right. destruct a as [|a]; [by left|]. rewrite list_lookup_insert_ne in Ha by done. by apply lookup_replicate in Ha as [? _].
    + intros a ->%list_elem_of_singleton. split; [by apply lookup_replicate|done].
    + apply NoDup_singleton.
  - by intros a vec [-> _]%lookup_replicate ?.
  - unfold todo. assert (forall k, length (List.filter (fun vec : Vector W => length vec =? 0) (replicate k [])) = k) as ->; [|lia].
    intros k. induction k as [|k IH]; [done|]. cbn in *. by rewrite IH.
  - cbn [mbind result_bind]. eexists _, _. split; [by apply (prune_spec _ _ Hok _ _ Hl Hdn)|]. split.
    + apply (prune_simulates _ _ Hok insns visited Hl Hmk Hdn). by apply Hg.
    + intros Hval. apply Forall_fmap, Forall_forall. intros vec Hv. cbn. rewrite rebound_valid.
      apply list_elem_of_In, filter_In in Hv as [Hv Hne]. apply list_elem_of_In, list_elem_of_lookup in Hv as [a Ha].
      destruct (Hdn a vec Ha) as (_ & [Hp|Hp] & _); [by intros ->| |done]. by apply (proj1 (Forall_lookup _ _) Hval a).
Qed.

(** Related code is related by the union of all relations that relate it. *)
Definition simulated (D C : list (Vector W)) (p' p : PC.t) : Prop := exists O, simulates D C O /\ O p' p.

Lemma follows_mono (C : list (Vector W)) (O O1 : PC.t -> PC.t -> Prop) p' p : (forall q' q, O q' q -> O1 q' q) -> follows C O p' p -> follows C O1 p' p.
Proof. intros Hm (q & Hl & Hq). exists q. split; [done|by apply Hm]. Qed.

Lemma simulates_union (D C : list (Vector W)) O : simulates D C O -> simulates D C (simulated D C).
Proof.
  intros Hs. split.
  - eapply follows_mono; [|apply (sim_entry _ _ _ Hs)]. intros q' q Hq. by exists O.
  - intros p' p (O1 & Hs1 & Hp). destruct (sim_step _ _ _ Hs1 p' p Hp) as (vec' & vec & c' & c & H1 & H2 & H3 & H4 & Hm).
    exists vec', vec, c', c. split_and!; [done..|].
    assert (Hin : forall q' q, O1 q' q -> simulated D C q' q) by (intros q' q Hq; by exists O1).
    destruct Hm as [t' t Hf|n t Hf|c' c Hk Hsh Ha].
    + apply matched_jump. by eapply follows_mono.
    + apply matched_skip. by eapply follows_mono.
    + apply matched_kin; [done..|]. eapply Forall2_impl; [exact Ha|]. intros a' a. by apply follows_mono.
Qed.

(** The relation between the program counters of two lists of modules *)
Definition code_relation (ms1 ms2 : list (Module_ W)) (id : nat) : PC.t -> PC.t -> Prop :=
  match ms1 !! id, ms2 !! id with
  | Some (MFunction f1), Some (MFunction f2) => simulated (code f1) (code f2)
  | _, _ => fun _ _ => False
  end.

(** Modules that differ in their code only, related by some simulation *)
Definition alike (m1 m2 : Module_ W) : Prop :=
  match m1, m2 with
  | MFunction f1, MFunction f2 => name f1 = name f2 /\ registers f1 = registers f2 /\ exists O, simulates (code f1) (code f2) O
  | MMemory m1, MMemory m2 => m1 = m2
  | _, _ => False
  end.

Lemma alike_related (ms1 ms2 : list (Module_ W)) : Forall2 alike ms1 ms2 -> modules_related (code_relation ms1 ms2) ms1 ms2.
Proof.
  intros Hf. split; [by eapply Forall2_length|]. intros id m1 m2 H1 H2. pose proof (Forall2_lookup_lr _ _ _ _ _ _ Hf H1 H2) as Ha.
  destruct m1 as [f1|m1], m2 as [f2|m2]; try done. destruct Ha as (Hn & Hr & O & Hs). split_and!; [done|done|].
  unfold code_relation. rewrite H1, H2. by eapply simulates_union.
Qed.

(** A function with prepared code *)
Definition with_code f code : Function W := mkFunction (name f) (native f) (registers f) (numInputs f) (numOutputs f) code.

Definition prepared (m : Module_ W) : Module_ W :=
  match m with MFunction f => MFunction (with_code f (prepareCode (code f))) | MMemory m => MMemory m end.

Lemma New_code f code' :
  Instruction.New (name f) (native f) (registers f) (code f) = Ok f ->
  Instruction.New (name f) (native f) (registers f) code' = Ok (with_code f code').
Proof.
  unfold Instruction.New. destruct (SortedSet.IsSorted _ _); [|done]. intros [= Hf]. f_equal. unfold with_code. by rewrite <- Hf.
Qed.

Lemma vectorizeFunction_ok f :
  function_ok f ->
  exists f', vectorizeFunction f = Ok f' /\ alike (MFunction f') (prepared (MFunction f)) /\ alike (MFunction f) (prepared (MFunction f)).
Proof.
  intros [Hc Hne Hok Hnew]. unfold vectorizeFunction. destruct (Nat.eqb_spec (length (code f)) 0) as [Hz|Hz]; [by destruct (code f)|].
  destruct (vectorizeCode_ok (code f) (registers f) Hc Hok) as (insns & O & -> & Hs & _). cbn [mbind result_bind].
  rewrite (New_code f insns Hnew). exists (with_code f insns). split; [done|]. split; (split_and!; [done|done|]).
  - by exists O.
  - exists (in_code (code f)). by eapply prepared_simulates.
Qed.

Lemma Vectorize_ok ms :
  Forall module_ok ms -> exists ms', Vectorize ms = Ok ms' /\ Forall2 alike ms' (prepared <$> ms) /\ Forall2 alike ms (prepared <$> ms).
Proof.
  induction 1 as [|m ms Hm _ (ms' & Hv & H1 & H2)]; [exists []; by repeat constructor|]. destruct m as [f|m]; cbn [Vectorize].
  - destruct (vectorizeFunction_ok f Hm) as (f' & Hf & Ha1 & Ha2). rewrite Hf, Hv. exists (MFunction f' :: ms').
    split; [done|]. by split; constructor.
  - rewrite Hv. exists (MMemory m :: ms'). split; [done|]. by split; constructor.
Qed.

End Functions.

(** ** A check for code *)

Section Check.
Context {W : Type} `{!Word W}.
Implicit Types (c : Instruction W) (vec : Vector W) (P : list (Vector W)).

Definition insn_inside (n nregs width i : nat) c : bool :=
  forallb (fun arc => arc.1 <? width) (arcs i c)
  && match c with OpImm JUMP t => t <? n | _ => true end
  && forallb (fun r => r <? nregs) (Uses c ++ Definitions c).

Definition code_inside (nregs : nat) P : bool :=
  forallb (fun vec => non_empty vec && forallb id (imap (insn_inside (length P) nregs (length vec)) vec)) P.

Lemma code_inside_ok nregs P : code_inside nregs P = true -> Forall (Forall shaped) P -> code_ok P nregs.
Proof.
  intros Hin Hsh. assert (Hc : forall vec i c, vec ∈ P -> vec !! i = Some c -> insn_inside (length P) nregs (length vec) i c = true).
  { intros vec i c Hv Hc. unfold code_inside in Hin. rewrite forallb_forall in Hin. apply list_elem_of_In in Hv.
    specialize (Hin vec Hv). apply andb_true_iff in Hin as [_ Hin]. rewrite forallb_forall in Hin. apply Hin, list_elem_of_In.
    apply list_elem_of_lookup. exists i. by rewrite list_lookup_imap, Hc. }
  assert (Hc' : forall vec c, vec ∈ P -> c ∈ vec -> exists i, vec !! i = Some c /\ insn_inside (length P) nregs (length vec) i c = true).
  { intros vec c Hv [i Hi]%list_elem_of_lookup. exists i. split; [done|by apply Hc]. }
  unfold insn_inside in *. split.
  - intros vec Hv ->. unfold code_inside in Hin. rewrite forallb_forall in Hin. apply list_elem_of_In in Hv. by specialize (Hin [] Hv).
  - intros vec c Hv Hx. rewrite Forall_forall in Hsh. specialize (Hsh vec Hv). rewrite Forall_forall in Hsh. by apply Hsh.
  - intros vec i c arc Hv Hi Ha. specialize (Hc vec i c Hv Hi). apply andb_true_iff in Hc as [[Hc _]%andb_true_iff _].
    rewrite forallb_forall in Hc. by apply Nat.ltb_lt, Hc, list_elem_of_In.
  - intros vec t Hv Hx. destruct (Hc' vec _ Hv Hx) as (i & _ & Hi). apply andb_true_iff in Hi as [[_ Hi]%andb_true_iff _]. by apply Nat.ltb_lt.
  - intros vec c r Hv Hx Hr. destruct (Hc' vec _ Hv Hx) as (i & _ & Hi). apply andb_true_iff in Hi as [_ Hi].
    rewrite forallb_forall in Hi. by apply Nat.ltb_lt, Hi, list_elem_of_In.
Qed.

End Check.

(** ** Properties *)

Module VectorizeProperties.
Section Properties.
Context {W : Type} `{!Word W}.

(** C10: Vectorisation succeeds on programs whose control stays inside their vectors, and the
    program that it makes does what the original does: booted with the same function
    and the same inputs, both fail alike or both start, and then the run of one ends
    exactly when the run of the other does, with the same fault or none, the same
    memories, the same output, and the same frames up to their program counters. *)
Theorem vectorize_preserves (ms : list (Module_ W)) :
  Forall module_ok ms ->
  exists ms', Vectorize ms = Ok ms' /\
    forall (ex : Machine.Executor W) fn input,
      related (fun p' p => forall f v, ends p' f v <-> ends p f v)
        (Boot (NewBase ex ms') fn input) (Boot (NewBase ex ms) fn input).
Proof.
  intros Hok. destruct (Vectorize_ok ms Hok) as (ms' & Hv & H1%alike_related & H2%alike_related). exists ms'. split; [done|].
  intros ex fn input. pose proof (Boot_related _ ex _ _ fn input H1) as Hb1. pose proof (Boot_related _ ex _ _ fn input H2) as Hb2.
  destruct (Boot (NewBase ex ms') fn input) as [p'|], (Boot (NewBase ex (prepared <$> ms)) fn input) as [q|],
    (Boot (NewBase ex ms) fn input) as [p|]; try done; cbn in *; [|congruence].
  intros f v. by rewrite (ends_related _ p' q f v Hb1), (ends_related _ p q f v Hb2).
Qed.

(** C11: Vectorisation keeps vectors free of conflicts: when the vectors of a function, with
    the jumps that the preparation adds, have no conditional write that is read and no
    register that is written twice, neither do the merged ones. *)
Theorem vectorize_valid (f f' : Function W) :
  function_ok f -> Forall (fun vec => validateConflicts (registers f) vec = Ok true) (prepareCode (code f)) ->
  vectorizeFunction f = Ok f' ->
  registers f' = registers f /\ Forall (fun vec => validateConflicts (registers f') vec = Ok true) (code f').
Proof.
  intros [Hc Hne Hok Hnew] Hval. unfold vectorizeFunction. destruct (Nat.eqb_spec (length (code f)) 0) as [Hz|Hz]; [by destruct (code f)|].
  destruct (vectorizeCode_ok (code f) (registers f) Hc Hok) as (insns & O & -> & _ & Hv). cbn [mbind result_bind].
  rewrite (New_code f insns Hnew). intros [= <-]. split; [done|]. by apply Hv.
Qed.

End Properties.

(** A loop that adds the first register to the second until both are equal *)
Definition u8 (n : string) : Register.t := Register.NewComputed n 8 0.

Definition loop : Function Uint.t := mkFunction "loop" false [u8 "x"; u8 "y"] 0 0
  [[NewIntAdd 0 [0] (1%Z : Uint.t)]; [NewSkipIf EQ 0 1 1; NewJump 0; NewJump 3]; [NewFail []]; [NewIntMul 1 [1; 0] (1%Z : Uint.t)]; [NewReturn]].

Definition merged : Function Uint.t := with_code loop
  [[NewIntAdd 0 [0] (1%Z : Uint.t); NewSkipIf EQ 0 1 1; NewJump 0; NewIntMul 1 [1; 0] (1%Z : Uint.t); NewReturn]].

Example loop_merged : Vectorize [MFunction loop] = Ok [MFunction merged].
Proof. vm_compute. reflexivity. Qed.

Lemma loop_ok : function_ok loop.
Proof.
  split; [done|by repeat constructor| |reflexivity]. apply code_inside_ok; [reflexivity|].
  repeat constructor; cbn; auto; repeat split; done.
Qed.

Lemma vectorize_preserves_witness :
  exists ms', Vectorize [MFunction loop] = Ok ms' /\
    forall (ex : Machine.Executor Uint.t) fn input,
      related (fun p' p => forall f v, ends p' f v <-> ends p f v)
        (Boot (NewBase ex ms') fn input) (Boot (NewBase ex [MFunction loop]) fn input).
Proof. apply (vectorize_preserves [MFunction loop]). constructor; [exact loop_ok|constructor]. Defined.

Lemma vectorize_valid_witness :
  registers merged = registers loop /\ Forall (fun vec => validateConflicts (registers merged) vec = Ok true) (code merged).
Proof. apply (vectorize_valid loop merged loop_ok); [repeat constructor|vm_compute; reflexivity]. Defined.

End VectorizeProperties.
