(* ===== verification/FieldLower.v ===== *)
(** * Lowering of word machines to field machines

    Models [pkg/zkc/vm/lower.go]: the translation of a machine over words into one
    over field elements, whose arithmetic instructions assign polynomials
    ([pkg/zkc/vm/instruction/field/assign.go]), and what these polynomials are worth.
    The instructions of a field function are the base instructions and assignments;
    the other word instructions have no counterpart and make the lowering panic. *)

From Stdlib Require Import ZArith Lia.
From stdpp Require Import base numbers list option strings.
From S2P Require Import Prelude Interval Word Register SortedSet Memory Instruction Executor Machine Element Poly PolyFacts.

Open Scope Z_scope.

Section Lowering.
Context {W : Type} `{!Word W}.
Context {F : Type} `{!Element F}.

(** [field.RegisterWidth], and the modulus of the field of [F] *)
Context (RegisterWidth Modulus : Z).

Implicit Types (regs : list Register.t) (terms : list (Monomial nat)).

(** ** Field instructions *)

Inductive FieldInstruction : Type :=
  | BaseInstruction (insn : Instruction W)
  | FieldAssign (Target : nat) (Source : ArrayPoly nat).

Record FieldFunction : Type := mkFieldFunction {
  ff_name : string;
  ff_native : bool;
  ff_registers : list Register.t;
  ff_code : list (list FieldInstruction)
}.

Inductive FieldModule : Type :=
  | FFunction (f : FieldFunction)
  | FMemory (m : Memory F).

(** ** Constructors of polynomials *)

Definition sum terms : result (ArrayPoly nat) := Ok (Set_ terms).

Definition subtract terms : result (ArrayPoly nat) := Fault (Panic "todo").

(** The zero value of a monomial has the coefficient zero and no variables. *)
Definition product terms : result (ArrayPoly nat) :=
  let m := match terms with [] => mkMonomial 0 [] | t :: terms => foldl Monomial_Mul t terms end in
  Ok (Set_ [m]).

Definition register_terms (rhs : list nat) : list (Monomial nat) := map (fun r => NewMonomial 1 [r]) rhs.

Definition with_constant terms (c : W) : list (Monomial nat) :=
  match w_Cmp c w_zero with Eq => terms | _ => terms ++ [NewMonomial (w_BigInt c) []] end.

(** ** Instructions *)

Definition lowerArithInstruction (lhs : nat) (rhs : list nat) (c : W) (f : list (Monomial nat) -> result (ArrayPoly nat))
  : result FieldInstruction :=
  let terms := register_terms rhs in
  if RegisterWidth <? BitLen (w_BigInt c) then Fault (Panic "constant exceeds max register width")
  else FieldAssign lhs <$> f (with_constant terms c).

Definition lowerFieldInstruction (lhs : nat) (rhs : list nat) (c : W) (f : list (Monomial nat) -> result (ArrayPoly nat))
  : result FieldInstruction :=
  let terms := register_terms rhs in
  if Modulus <=? w_BigInt c then Fault (Panic "constant exceeds field prime")
  else FieldAssign lhs <$> f (with_constant terms c).

(** The loop over the sources of a concatenation; [acc] is the weight of the next *)
Fixpoint concatenation_terms regs (acc : Z) (rhs : list nat) : result (list (Monomial nat)) :=
  match rhs with
  | [] => Ok []
  | ith :: rhs =>
      r ← slice_get regs ith;
      width ← Register.Width r;
      terms ← concatenation_terms regs (Z.shiftl acc width) rhs;
      Ok (NewMonomial acc [ith] :: terms)
  end.

Definition lowerBitwiseConcatenation regs (lhs : nat) (rhs : list nat) : result FieldInstruction :=
  terms ← concatenation_terms regs 1 rhs; FieldAssign lhs <$> sum terms.

Definition lowerCastInstruction (lhs rhs : nat) : FieldInstruction := FieldAssign lhs (Set_ [NewMonomial 1 [rhs]]).

Definition unknown_instruction : fault := Panic "unknown instruction encountered".

Definition lowerWordInstruction regs (wi : Instruction W) : result FieldInstruction :=
  match OpCode_of wi, wi with
  | (CALL | MEMORY_READ | MEMORY_WRITE), OpIo _ _ _ _ => Ok (BaseInstruction wi)
  | (JUMP | RETURN), OpImm _ _ => Ok (BaseInstruction wi)
  | DEBUG, Debug_ _ | FAIL, Fail_ _ | SKIP, Skip _ | SKIP_IF, SkipIf _ _ _ _ => Ok (BaseInstruction wi)
  | BIT_CONCAT, OpArith _ target sources _ => lowerBitwiseConcatenation regs target sources
  | INT_CAST, Cast target source _ => Ok (lowerCastInstruction target source)
  | INT_ADD, OpArith _ target sources c => lowerArithInstruction target sources c sum
  | INT_SUB, OpArith _ target sources c => lowerArithInstruction target sources c subtract
  | INT_MUL, OpArith _ target sources c => lowerArithInstruction target sources c product
  | INT_ADDMOD_P, OpArith _ target sources c => lowerFieldInstruction target sources c sum
  | INT_SUBMOD_P, OpArith _ target sources c => lowerFieldInstruction target sources c subtract
  | INT_MULMOD_P, OpArith _ target sources c => lowerFieldInstruction target sources c product
  | (CALL | DEBUG | FAIL | JUMP | MEMORY_READ | MEMORY_WRITE | RETURN | SKIP | SKIP_IF | BIT_CONCAT | INT_CAST | INT_ADD
     | INT_SUB | INT_MUL | INT_ADDMOD_P | INT_SUBMOD_P | INT_MULMOD_P), _ => Fault bad_type
  | _, _ => Fault unknown_instruction
  end.

Fixpoint lowerWordVector regs (codes : Vector W) : result (list FieldInstruction) :=
  match codes with
  | [] => Ok []
  | insn :: codes => insn' ← lowerWordInstruction regs insn; codes' ← lowerWordVector regs codes; Ok (insn' :: codes')
  end.

(** ** Modules *)

#[local] Instance Kind_order : Comparable Register.Kind := Register.Cmp.

Fixpoint checkRegisterWidths (registerWidth : Z) regs : result unit :=
  match regs with
  | [] => Ok tt
  | reg :: regs =>
      if negb (Register.IsNative reg) && (registerWidth <? Register.width reg) then Fault (Panic "exceeds max register width")
      else checkRegisterWidths registerWidth regs
  end.

Fixpoint lower_vectors regs (code : list (Vector W)) : result (list (list FieldInstruction)) :=
  match code with
  | [] => Ok []
  | insn :: code => insn' ← lowerWordVector regs insn; code' ← lower_vectors regs code; Ok (insn' :: code')
  end.

Definition lowerWordFunction (wf : Function W) : result FieldFunction :=
  let regs := registers wf in
  _ ← checkRegisterWidths RegisterWidth regs;
  insns ← lower_vectors regs (code wf);
  if IsSorted regs Register.kind then Ok (mkFieldFunction (Instruction.name wf) (native wf) regs insns)
  else Fault (Panic "function registers ordered incorrectly").

Definition lowerMemoryContents (contents : list W) : list F := map (fun w => e_SetBytes (Register.BigBytes (w_BigInt w))) contents.

Definition lowerWordMemory (wf : Memory W) : result (Memory F) :=
  let regs := Memory.registers (geometry_of wf) in
  let public := Kind.IsPublic (kind_of wf) in
  _ ← checkRegisterWidths RegisterWidth regs;
  match wf with
  | ReadOnly_ p => Ok (NewInputMemory (name_of wf) public regs (lowerMemoryContents (data p)))
  | StaticReadOnly_ p => Ok (NewStaticMemory (name_of wf) public regs (lowerMemoryContents (data p)))
  | WriteOnce_ _ => Ok (NewOutputMemory (name_of wf) public regs)
  | RandomAccess_ _ => Ok (NewReadWriteMemory (name_of wf) regs)
  | BiPartite_ _ => Ok (NewLargeReadWriteMemory (name_of wf) regs)
  | StaticArray_ _ => Fault (Panic "unknown word memory")
  end.

Definition lowerWordModule (wm : Module_ W) : result FieldModule :=
  match wm with
  | MFunction f => FFunction <$> lowerWordFunction f
  | MMemory m => FMemory <$> lowerWordMemory m
  end.

Fixpoint LowerWordMachine (wm : list (Module_ W)) : result (list FieldModule) :=
  match wm with
  | [] => Ok []
  | m :: wm => m' ← lowerWordModule m; wm' ← LowerWordMachine wm; Ok (m' :: wm')
  end.

End Lowering.

(** ** What the polynomials are worth *)

Section Values.
Context {W : Type} `{!Word W, !WordLaws W}.
Context (p : W) (regs : list Register.t) (frame : list W).
Context (Hp : word_ok p) (Hregs : regs_ok regs) (Hfits : frame_fits p regs frame).
Implicit Types (terms : list (Monomial nat)) (vs : list W).

(** The values of the registers *)
Definition register_values (r : nat) : Z := match frame !! r with Some v => w_BigInt v | None => 0 end.

#[local] Abbreviation env := register_values.

Lemma Set_value terms : Eval (Set_ terms) env = total (vars_value env) terms.
Proof. unfold Set_. rewrite Eval_total, add_terms_total. cbn. lia. Qed.

Lemma NewMonomial_value c (l : list nat) : total (vars_value env) [NewMonomial c l] = c * vars_value env l.
Proof. rewrite total_cons. cbn [NewMonomial coefficient vars]. rewrite SortFunc_Permutation. cbn [total foldr]. lia. Qed.

Lemma register_value r v : frame !! r = Some v -> vars_value env [r] = w_BigInt v.
Proof. intros Hr. cbn. unfold register_values. rewrite Hr. lia. Qed.

Lemma register_terms_sum rhs vs : values frame rhs = Some vs -> total (vars_value env) (register_terms rhs) = sum_of vs.
Proof.
  revert vs. induction rhs as [|r rhs IH]; intros vs; [by intros [= <-]|]. intros (x & rest & -> & Hx & Hr)%values_cons.
  change (register_terms (r :: rhs)) with ([NewMonomial 1 [r]] ++ register_terms rhs).
  rewrite total_app, NewMonomial_value, (register_value r x Hx), (IH rest Hr). change (sum_of (x :: rest)) with (w_BigInt x + sum_of rest). lia.
Qed.

Lemma with_constant_value terms c : word_ok c -> total (vars_value env) (with_constant terms c) = total (vars_value env) terms + w_BigInt c.
Proof.
  intros Hc. unfold with_constant. destruct Word.zero_law as [Hz Hz0]. rewrite Cmp_law, Hz0 by done.
  destruct (Z.compare_spec (w_BigInt c) 0) as [He|He|He]; rewrite ?total_app, ?NewMonomial_value; cbn; lia.
Qed.

(** The product of some terms *)
Definition terms_product terms : Z := foldr (fun m acc => evalTerm m env * acc) 1 terms.

Lemma Monomial_Mul_value (m n : Monomial nat) : evalTerm (Monomial_Mul m n) env = evalTerm m env * evalTerm n env.
Proof. rewrite !evalTerm_value. cbn [Monomial_Mul coefficient vars]. rewrite MergeSorted_Permutation, vars_value_app. lia. Qed.

Lemma foldl_Monomial_Mul (m : Monomial nat) terms : evalTerm (foldl Monomial_Mul m terms) env = evalTerm m env * terms_product terms.
Proof.
  revert m. induction terms as [|n terms IH]; intros m; cbn [foldl terms_product foldr]; [lia|].
  rewrite IH, Monomial_Mul_value. unfold terms_product. lia.
Qed.

Lemma product_value terms P : terms <> [] -> product terms = Ok P -> Eval P env = terms_product terms.
Proof.
  intros Hne. unfold product. destruct terms as [|m terms]; [done|]. intros [= <-]. rewrite Set_value, total_cons.
  cbn [total foldr]. rewrite <- evalTerm_value, foldl_Monomial_Mul. cbn [terms_product foldr]. unfold terms_product. lia.
Qed.

Lemma terms_product_app terms terms' : terms_product (terms ++ terms') = terms_product terms * terms_product terms'.
Proof. induction terms as [|m terms IH]; unfold terms_product in *; cbn [app foldr]; [lia|]. rewrite IH. lia. Qed.

Lemma evalTerm_New c (l : list nat) : evalTerm (NewMonomial c l) env = c * vars_value env l.
Proof. rewrite evalTerm_value. cbn [NewMonomial coefficient vars]. by rewrite SortFunc_Permutation. Qed.

Lemma register_terms_product rhs vs : values frame rhs = Some vs -> terms_product (register_terms rhs) = product_of vs.
Proof.
  revert vs. induction rhs as [|r rhs IH]; intros vs; [by intros [= <-]|]. intros (x & rest & -> & Hx & Hr)%values_cons.
  change (register_terms (r :: rhs)) with (NewMonomial 1 [r] :: register_terms rhs). unfold terms_product in *. cbn [foldr].
  rewrite (IH rest Hr), evalTerm_New, (register_value r x Hx). change (product_of (x :: rest)) with (w_BigInt x * product_of rest). lia.
Qed.

Lemma with_constant_product terms c :
  word_ok c -> w_BigInt c <> 0 ->
  with_constant terms c <> [] /\ terms_product (with_constant terms c) = terms_product terms * w_BigInt c.
Proof.
  intros Hc Hz. unfold with_constant. destruct Word.zero_law as [Hzo Hz0]. rewrite Cmp_law, Hz0 by done.
  destruct (Z.compare_spec (w_BigInt c) 0) as [He|He|He]; [done|..]; (split; [by destruct terms|]);
    rewrite terms_product_app; unfold terms_product at 2; cbn [foldr]; rewrite evalTerm_New; cbn; lia.
Qed.

Lemma concatenation_value acc rhs ws vs :
  widths regs rhs = Some ws -> values frame rhs = Some vs -> Forall (fun n => 0 <= n) ws ->
  exists terms, concatenation_terms regs acc rhs = Ok terms /\ total (vars_value env) terms = acc * packed ws (w_BigInt <$> vs).
Proof.
  revert acc ws vs. induction rhs as [|r rhs IH]; intros acc ws vs Hws Hvs Hpos.
  - injection Hws as <-. injection Hvs as <-. exists []. split; [done|]. cbn. lia.
  - apply widths_cons in Hws as (n & ws' & -> & Hn & Hws). apply values_cons in Hvs as (x & vs' & -> & Hx & Hvs).
    apply Forall_cons in Hpos as [Hn0 Hpos]. destruct (IH (Z.shiftl acc n) ws' vs' Hws Hvs Hpos) as (terms & Ht & Hv).
    unfold width_of in Hn. cbn [concatenation_terms]. destruct (slice_get regs r) as [reg|]; [|done]. cbn [mbind result_bind] in *.
    rewrite Hn. cbn [mbind result_bind]. rewrite Ht. cbn [mbind result_bind]. eexists. split; [done|].
    change (NewMonomial acc [r] :: terms) with ([NewMonomial acc [r]] ++ terms).
    rewrite total_app, NewMonomial_value, (register_value r x Hx), Hv, Z.shiftl_mul_pow2 by done. cbn [fmap list_fmap packed]. lia.
Qed.

(** Instructions whose polynomials are exact: a product has a constant that is not
    zero, and a concatenation fits its target. *)
Definition representable (insn : Instruction W) : Prop :=
  match insn with
  | OpArith (INT_MUL | INT_MULMOD_P) _ _ c => w_BigInt c <> 0
  | OpArith BIT_CONCAT target sources _ =>
      exists ws n, widths regs sources = Some ws /\ Forall width_ok ws /\ width_of regs target = Ok n /\ Executor.total ws <= n
  | _ => True
  end.

(** The instructions that reduce their results *)
Definition reduces (insn : Instruction W) : bool :=
  match OpCode_of insn with INT_ADDMOD_P | INT_MULMOD_P => true | _ => false end.

Definition agrees (insn : Instruction W) (frame' : list W) (target : nat) P : Prop :=
  exists v, frame' = <[target := v]> frame
    /\ if reduces insn then eqm (w_BigInt p) (w_BigInt v) (Eval P env) else w_BigInt v = Eval P env.

Lemma stored target (v : W) frame' : slice_set frame target v = Ok frame' -> frame' = <[target := v]> frame.
Proof. by intros [_ ->]%slice_set_ok. Qed.

Lemma fold_words sources step (c v : W) :
  fold_sources step c sources frame = Ok v ->
  exists vs, values frame sources = Some vs /\ Forall word_ok vs /\ fold_vals step c vs = Ok v.
Proof.
  intros Hf. destruct (fold_sources_ok _ _ _ _ _ Hf) as [vs Hvs]. exists vs. split; [done|]. split.
  - apply (values_ok frame sources); [by eapply frame_fits_ok|done].
  - by rewrite (fold_sources_vals _ _ _ _ _ Hvs) in Hf.
Qed.

Lemma add_agrees RW target sources c P frame' :
  typed p regs (OpArith INT_ADD target sources c) ->
  lowerArithInstruction (W := W) RW target sources c sum = Ok (FieldAssign target P) ->
  executeAdd target sources c frame regs = Ok frame' -> agrees (OpArith INT_ADD target sources c) frame' target P.
Proof.
  intros [Hc Ht] Hl Hx. unfold lowerArithInstruction in Hl. destruct (RW <? _); [done|]. injection Hl as <-.
  unfold executeAdd in Hx. destruct (width_of regs target) as [w|] eqn:Hw; [|done]. cbn [mbind result_bind] in Hx.
  destruct (fold_sources _ _ _ _) as [v|] eqn:Hf; [|done]. cbn [mbind result_bind] in Hx. apply fold_words in Hf as (vs & Hvs & Hok & Hf).
  destruct (width_of_inv regs target w p Hregs Hw) as [Hwok Hb]. exists v. split; [by apply stored|].
  cbn [reduces OpCode_of]. rewrite Set_value, with_constant_value, (register_terms_sum _ vs) by done.
  destruct (add_vals w "executeAdd arithmetic overflow" c vs Hwok Hc Hok) as [(_ & v' & He & _ & Hv)|(_ & He)].
  - destruct Ht as [Hne|Hlt]; [left|right; by rewrite <- Hb]. destruct sources; [done|]. by apply values_cons in Hvs as (? & ? & -> & _).
  - rewrite Hf in He. injection He as <-. lia.
  - by rewrite Hf in He.
Qed.

Lemma mul_agrees RW target sources c P frame' :
  typed p regs (OpArith INT_MUL target sources c) -> w_BigInt c <> 0 ->
  lowerArithInstruction (W := W) RW target sources c product = Ok (FieldAssign target P) ->
  executeMul target sources c frame regs = Ok frame' -> agrees (OpArith INT_MUL target sources c) frame' target P.
Proof.
  intros [Hc Ht] Hz Hl Hx. unfold lowerArithInstruction in Hl. destruct (RW <? _); [done|].
  destruct (product _) as [P'|] eqn:HP; [|done]. injection Hl as <-.
  unfold executeMul in Hx. destruct (width_of regs target) as [w|] eqn:Hw; [|done]. cbn [mbind result_bind] in Hx.
  destruct (fold_sources _ _ _ _) as [v|] eqn:Hf; [|done]. cbn [mbind result_bind] in Hx. apply fold_words in Hf as (vs & Hvs & Hok & Hf).
  destruct (width_of_inv regs target w p Hregs Hw) as [Hwok _]. exists v. split; [by apply stored|]. cbn [reduces OpCode_of].
  destruct (with_constant_product (register_terms sources) c Hc Hz) as [Hne Hpr]. rewrite (product_value _ P' Hne HP), Hpr, (register_terms_product _ vs) by done.
  destruct (mul_vals w _ c vs v Hwok Hc Hok Hf) as (_ & -> & _). lia.
Qed.

Lemma mod_agrees (op : W -> W -> W -> W) (f : Z -> Z -> Z) target sources c frame' P code :
  OpCode_of code = INT_ADDMOD_P \/ OpCode_of code = INT_MULMOD_P -> word_ok c ->
  (forall x y, word_ok x -> word_ok y -> word_ok (op x y p) /\ w_BigInt (op x y p) = f (w_BigInt x) (w_BigInt y) mod w_BigInt p) ->
  Proper (eqm (w_BigInt p) ==> eqm (w_BigInt p) ==> eqm (w_BigInt p)) f ->
  (forall vs, values frame sources = Some vs -> foldl f (w_BigInt c) (w_BigInt <$> vs) = Eval P env) ->
  (v ← fold_sources (unchecked (fun c x => op c x p)) c sources frame; slice_set frame target v) = Ok frame' ->
  agrees code frame' target P.
Proof.
  intros Hcode Hc Hop Hf HP Hx. destruct (fold_sources _ _ _ _) as [v|] eqn:Hv; [|done]. cbn [mbind result_bind] in Hx.
  apply fold_words in Hv as (vs & Hvs & Hok & Hv). rewrite fold_vals_unchecked in Hv. injection Hv as Hv.
  exists v. split; [by apply stored|]. unfold reduces.
  destruct (mod_vals op f p c vs Hop Hf Hc Hok) as [_ He]. rewrite HP, Hv in He by done. destruct Hcode as [-> | ->]; exact He.
Qed.

Lemma widths_values rids ws :
  widths regs rids = Some ws -> exists vs, values frame rids = Some vs /\ limbs_fit ws (w_BigInt <$> vs) /\ Forall word_ok vs.
Proof.
  revert ws. induction rids as [|r rids IH]; intros ws Hws; [injection Hws as <-; exists []; by repeat constructor|].
  apply widths_cons in Hws as (n & ws' & -> & Hn & Hws). destruct (IH ws' Hws) as (vs & Hvs & Hfit & Hok).
  destruct (width_of_inv regs r n p Hregs Hn) as [Hwok Hb]. unfold width_of in Hn. inv_ok. apply slice_get_ok in Ha.
  destruct (Forall2_lookup_l _ _ _ _ _ Hfits Ha) as (v & Hv & Hvok & Hvb). exists (v :: vs). split; [by apply values_cons; exists v, vs|].
  split; [|by constructor]. constructor; [|done]. split; [by apply nonneg_law|]. unfold bound_of in Hb. rewrite Ha in Hb. lia.
Qed.

Lemma concat_agrees target sources c P frame' :
  representable (OpArith BIT_CONCAT target sources c) ->
  lowerBitwiseConcatenation (W := W) regs target sources = Ok (FieldAssign target P) ->
  executeConcat target sources frame regs = Ok frame' -> agrees (OpArith BIT_CONCAT target sources c) frame' target P.
Proof.
  intros (ws & n & Hws & Hwok & Hn & Htot) Hl Hx. destruct (widths_values sources ws Hws) as (vs & Hvs & Hfit & Hok).
  assert (Hpos : Forall (fun n => 0 <= n) ws) by (eapply Forall_impl; [exact Hwok|]; unfold width_ok; cbn; lia).
  destruct (width_of_inv regs target n p Hregs Hn) as [Hnok _]. destruct Word.zero_law as [Hzo Hz].
  destruct (concatenation_value 1 sources ws vs Hws Hvs Hpos) as (terms & Ht & Hv).
  unfold lowerBitwiseConcatenation in Hl. rewrite Ht in Hl. injection Hl as <-.
  unfold executeConcat in Hx. rewrite Hn in Hx. cbn [mbind result_bind] in Hx.
  destruct (concat_loop_spec n w_zero 0 0 sources ws frame regs vs) as (v & Hc & Hvo & Hvv); try done; try lia.
  { unfold width_ok in Hnok. lia. }
  rewrite Hc in Hx. cbn [mbind result_bind] in Hx. exists v. split; [by apply stored|]. cbn [reduces OpCode_of].
  rewrite Set_value, Hv, Hvv. pose proof (packed_bounds ws (w_BigInt <$> vs) Hpos Hfit) as Hb.
  assert (2 ^ Executor.total ws <= 2 ^ n) by (apply Z.pow_le_mono_r; lia). rewrite Z.mod_small by lia. lia.
Qed.

Lemma cast_agrees target source width frame' :
  typed p regs (Cast target source width) -> width <> MaxUint ->
  executeCast target source width frame = Ok frame' -> agrees (Cast target source width) frame' target (Set_ [NewMonomial 1 [source]]).
Proof.
  intros Ht Hne Hx. cbn [typed] in Ht. destruct (Z.eqb_spec width MaxUint) as [|_]; [done|]. destruct Ht as [Hw _].
  unfold executeCast in Hx. destruct (slice_get frame source) as [x|] eqn:Hs; [|done]. apply slice_get_ok in Hs. cbn [mbind result_bind] in Hx.
  destruct (fits_lookup p regs frame source x Hfits Hs) as (r & _ & [Hxo _] & _). destruct (Slice_law width x Hw Hxo) as [Hso Hsv].
  rewrite Cmp_law in Hx by done. destruct (Z.compare_spec (w_BigInt x) (w_BigInt (w_Slice width x))) as [He| |]; try done.
  exists (w_Slice width x). split; [by apply stored|].
  assert (reduces (Cast target source width) = false) as ->.
  { unfold reduces. cbn [OpCode_of]. by destruct (Z.eqb_spec width MaxUint). }
  rewrite Set_value, NewMonomial_value, (register_value source x Hs). lia.
Qed.

(** Lowering keeps what an instruction computes. *)
Lemma lowered_agrees RW M insn target P frame' :
  typed p regs insn -> representable insn ->
  lowerWordInstruction RW M regs insn = Ok (FieldAssign target P) -> Executor.Execute p insn frame regs = Ok frame' ->
  agrees insn frame' target P.
Proof.
  intros Ht Hr Hl Hx. destruct insn as [op id a r|op n|n|k l r n|chs|chs|op t s c|t s w|ts s].
  all: try (unfold lowerWordInstruction in Hl; cbn [OpCode_of] in Hl; first [discriminate Hl|destruct op; discriminate Hl]).
  - assert (Htgt : t = target).
    { revert Hl. unfold lowerWordInstruction, lowerArithInstruction, lowerFieldInstruction, lowerBitwiseConcatenation, sum, subtract, product.
      cbn [OpCode_of]. destruct op; try done; repeat case_match; try done; try (by intros [= <-]).
      destruct (concatenation_terms _ _ _); [|done]. by intros [= <-]. }
    subst t. unfold lowerWordInstruction in Hl. cbn [OpCode_of] in Hl. cbn [Executor.Execute] in Hx.
    destruct op; try discriminate Hl.
    + by apply (add_agrees RW).
    + unfold lowerArithInstruction in Hl. by destruct (RW <? _).
    + by apply (mul_agrees RW).
    + unfold lowerFieldInstruction in Hl. destruct (M <=? _); [done|]. injection Hl as <-. destruct Ht as [Hc [Hpos _]].
      apply (mod_agrees w_AddMod Z.add target s c); [by left|done| |typeclasses eauto| |exact Hx].
      * intros x y Hxo Hyo. apply AddMod_law; done || lia.
      * intros vs Hvs. rewrite Set_value, with_constant_value, (register_terms_sum _ vs), foldl_shift by (done || lia). unfold sum_of. lia.
    + unfold lowerFieldInstruction in Hl. by destruct (M <=? _).
    + unfold lowerFieldInstruction in Hl. destruct (M <=? _); [done|]. destruct (product _) as [P'|] eqn:HP; [|done]. injection Hl as <-.
      destruct Ht as [Hc [Hpos _]]. cbn in Hr. destruct (with_constant_product (register_terms s) c Hc Hr) as [Hne Hpr].
      apply (mod_agrees w_MulMod Z.mul target s c); [by right|done| |typeclasses eauto| |exact Hx].
      * intros x y Hxo Hyo. apply MulMod_law; done || lia.
      * intros vs Hvs. rewrite (product_value _ P' Hne HP), Hpr, (register_terms_product _ vs), foldl_mul by done. unfold product_of. lia.
    + by apply concat_agrees.
  - unfold lowerWordInstruction in Hl. cbn [OpCode_of] in Hl. cbn [Executor.Execute] in Hx.
    destruct (Z.eqb_spec w MaxUint) as [|Hne]; [done|]. injection Hl as <- <-. by apply cast_agrees.
Qed.

End Values.

(** ** Properties *)

Module FieldLowerProperties.
Section Properties.
Context {W : Type} `{!Word W, !WordLaws W}.

(** C36: When an arithmetic instruction of a typed program that is not a product with the
    constant zero, nor a concatenation of more bits than its target has
    ([representable]), is lowered to the assignment of a polynomial and the word
    machine executes it, then the machine stores in the same register the value that
    the polynomial has at the registers; the instructions that reduce modulo the prime
    store a congruent value.  For a product with the constant zero this is false
    ([product_loses_zero]): the lowering drops the constant. *)
Theorem lowering_agrees (RegisterWidth Modulus : Z) (p : W) (regs : list Register.t) (frame frame' : list W) insn target P :
  word_ok p -> regs_ok regs -> frame_fits p regs frame -> typed p regs insn -> representable regs insn ->
  lowerWordInstruction RegisterWidth Modulus regs insn = Ok (FieldAssign target P) ->
  Executor.Execute p insn frame regs = Ok frame' ->
  exists v, frame' = <[target := v]> frame
    /\ if reduces insn then eqm (w_BigInt p) (w_BigInt v) (Eval P (register_values frame))
       else w_BigInt v = Eval P (register_values frame).
Proof. intros Hp Hregs Hfits Ht Hr Hl Hx. by apply (lowered_agrees p regs frame Hp Hregs Hfits RegisterWidth Modulus). Qed.

End Properties.

(** The constant zero of a product is dropped. *)
Definition times_zero : Instruction Uint.t := NewIntMul 1 [0%nat] (0 : Uint.t).

Theorem product_loses_zero (x y : Uint.t) :
  0 <= x ->
  Executor.Execute (251 : Uint.t) times_zero [x; y] [Register.NewInput "x" 8 0; Register.NewOutput "y" 8 0] = Ok [x; 0]
  /\ exists P, lowerWordInstruction 8 251 [Register.NewInput "x" 8 0; Register.NewOutput "y" 8 0] times_zero = Ok (FieldAssign 1 P)
     /\ Eval P (register_values [x; y]) = x.
Proof. intros Hx. split; [reflexivity|]. eexists. split; [reflexivity|]. cbn. unfold register_values. cbn. unfold Uint.BigInt. lia. Qed.

Definition sample_regs : list Register.t := [Register.NewInput "x" 8 0; Register.NewInput "y" 8 0; Register.NewOutput "r" 16 0].
Definition sample_frame : list Uint.t := [200; 100; 0].

Lemma lowering_agrees_witness :
  exists v, ([200; 100; 305] : list Uint.t) = <[2%nat := v]> sample_frame
    /\ w_BigInt v = Eval (Set_ [NewMonomial 1 [0%nat]; NewMonomial 1 [1%nat]; NewMonomial 5 []]) (register_values sample_frame).
Proof.
  refine (lowering_agrees 16 251 (251 : Uint.t) sample_regs sample_frame [200; 100; 305] (NewIntAdd 2 [0%nat; 1%nat] (5 : Uint.t)) 2%nat _ _ _ _ _ _ _ _).
  - cbn. lia.
  - repeat (constructor; [right; unfold width_ok; cbn; lia|]). constructor.
  - unfold frame_fits, sample_regs, sample_frame.
    repeat (apply Forall2_cons_2; [split; vm_compute; [discriminate|reflexivity]|]). apply Forall2_nil_2.
  - cbn. unfold Uint.BigInt. split; [lia|by left].
  - exact I.
  - reflexivity.
  - reflexivity.
Defined.

Lemma product_loses_zero_witness :
  Executor.Execute (251 : Uint.t) times_zero [7; 9] [Register.NewInput "x" 8 0; Register.NewOutput "y" 8 0] = Ok [7; 0].
Proof. exact (proj1 (product_loses_zero 7 9 ltac:(lia))). Defined.

End FieldLowerProperties.
