(* ===== verification/Limbs.v ===== *)
(** * Limbs

    Models [pkg/schema/register/limb.go], [constant.go], [limbs_map.go],
    [vector.go] and [allocator.go]: the widths of the limbs that a register is
    split into, the limbs of a constant, the map from the registers of a module to
    their limbs, and the allocator of fresh registers.  [AccessId] is
    [trace.ColumnAccessId] of [pkg/trace/ref.go]. *)

From Stdlib Require Import ZArith Lia String.
From stdpp Require Import base numbers list option strings pretty.
From S2P Require Import Prelude Register SortedSet.

Open Scope Z_scope.
Open Scope list_scope.

(** ** Accesses of registers

    The identifier of an access is that of an existing register, an index. *)

Module AccessId.

Record t : Type := mk { id : nat; bitwidth : Z; maskwidth : Z; shift : Z }.

#[export] Instance t_eq_dec : EqDecision t.
Proof. solve_decision. Defined.

#[export] Instance t_Comparable : Comparable t := fun p o =>
  match Cmp (id p) (id o) with
  | Eq =>
      match Z.compare (shift p) (shift o) with
      | Eq =>
          match Z.compare (bitwidth p) (bitwidth o) with
          | Eq => Z.compare (maskwidth p) (maskwidth o)
          | c => c
          end
      | c => c
      end
  | c => c
  end.

Definition AccessOf (p : nat) (bitwidth : Z) : t := mk p bitwidth bitwidth 0.
Definition Shift (p : t) (s : Z) : t := mk (id p) (bitwidth p) (maskwidth p) (shift p + s).

Definition Mask (p : t) (mask : Z) : result t :=
  if bitwidth p <? mask then Fault (Panic "invalid mask") else Ok (mk (id p) (bitwidth p) mask (shift p)).

#[export] Instance t_CmpLaws : CmpLaws t.
Proof.
  split; unfold Cmp, t_Comparable.
  - intros [a b c d] [e f g h]; cbn. split.
    + destruct (Cmp a e) eqn:Ha; [apply Cmp_eq in Ha as ->|done..].
      destruct (Z.compare_spec d h) as [->| |], (Z.compare_spec b f) as [->| |], (Z.compare_spec c g) as [->| |]; done.
    + intros [= -> -> -> ->]. by rewrite (proj2 (Cmp_eq e e) eq_refl), !Z.compare_refl.
  - intros [a b c d] [e f g h]; cbn. rewrite (Cmp_anti a e), (Z.compare_antisym d h), (Z.compare_antisym b f), (Z.compare_antisym c g).
    by destruct (Cmp a e), (d ?= h), (b ?= f), (c ?= g).
  - intros [a b c d] [e f g h] [i j k l]; cbn. destruct (Cmp a e) eqn:Hae; [apply Cmp_eq in Hae as ->| |done].
    + destruct (Cmp e i) eqn:Hei; [|done|done]. intros H1 H2.
      destruct (Z.compare_spec d h) as [->| |], (Z.compare_spec h l) as [->| |], (Z.compare_spec b f) as [->| |],
        (Z.compare_spec f j) as [->| |], (Z.compare_spec c g) as [->| |], (Z.compare_spec g k) as [->| |]; try done;
        rewrite ?Z.compare_refl; repeat (match goal with |- context [?x ?= ?y] => replace (x ?= y) with Lt by (symmetry; apply Z.compare_lt_iff; lia) end); done.
    + destruct (Cmp e i) eqn:Hei; [apply Cmp_eq in Hei as ->; by rewrite Hae| |done]. by rewrite (Cmp_trans a e i).
Qed.

End AccessId.

#[export] Existing Instances AccessId.t_eq_dec AccessId.t_Comparable AccessId.t_CmpLaws.

(** ** Widths of limbs ([limb.go]) *)

Definition minNumberOfLimbs (maxRegisterWidth registerWidth : Z) : result Z :=
  if maxRegisterWidth =? 0 then Fault (Panic "integer divide by zero")
  else
    let n := registerWidth / maxRegisterWidth in
    let m := registerWidth mod maxRegisterWidth in
    Ok (if negb (m =? 0) then n + 1 else n).

(** The loop of [commonLimbWidth]; the products are those of a [uint]. *)
Fixpoint double_width (fuel : nat) (n registerWidth maxRegisterWidth avgWidth : Z) : result Z :=
  match fuel with
  | O => Fault OutOfFuel
  | S fuel =>
      if (u64 (avgWidth * n) <? registerWidth) && (u64 (avgWidth * 2) <=? maxRegisterWidth)
      then double_width fuel n registerWidth maxRegisterWidth (u64 (avgWidth * 2)) else Ok avgWidth
  end.

Definition commonLimbWidth (maxRegisterWidth registerWidth : Z) : result Z :=
  n ← minNumberOfLimbs maxRegisterWidth registerWidth;
  double_width 65 n registerWidth maxRegisterWidth 1.

(** The loop over the limbs: the widths, and the bits left after the last *)
Fixpoint limb_widths (nlimbs : nat) (maxWidth commonWidth bitsLeft : Z) : result (list Z) :=
  match nlimbs with
  | O => Ok []
  | S i =>
      let width := match i with O => bitsLeft | _ => Z.min commonWidth bitsLeft end in
      if maxWidth <? width then Fault (Panic "internal failure (limb width exceeds maximum register width)")
      else widths ← limb_widths i maxWidth commonWidth (bitsLeft - width); Ok (width :: widths)
  end.

Definition LimbWidths (maxWidth regWidth : Z) : result (list Z) :=
  commonWidth ← commonLimbWidth maxWidth regWidth;
  nlimbs ← minNumberOfLimbs commonWidth regWidth;
  limbWidths ← limb_widths (Z.to_nat nlimbs) maxWidth commonWidth regWidth;
  if negb (u64 (foldr Z.add 0 limbWidths) =? regWidth)
  then Fault (Panic "internal failure (register width does not match combined limb widths)") else Ok limbWidths.

(** ** Limbs of a constant ([constant.go])

    The loop runs until nothing is left of the constant; a constant that is negative
    or too wide for the limbs runs past the last of them. *)

Fixpoint SplitConstant (constant : Z) (limbWidths : list Z) : result (list Z) :=
  if constant =? 0 then Ok (replicate (length limbWidths) 0)
  else match limbWidths with
  | [] => Fault index_panic
  | width :: limbWidths =>
      limbs ← SplitConstant (Z.shiftr constant width) limbWidths; Ok (constant mod 2 ^ width :: limbs)
  end.

(** [fmt.Sprintf] of a name, a mark and an index *)
Definition indexed (name mark : string) (i : nat) : string := (name +:+ mark +:+ pretty i)%string.

Fixpoint new_limbs (r : Register.t) (i : nat) (widths padding : list Z) : result (list Register.t) :=
  match widths, padding with
  | w :: widths, p :: padding =>
      limbs ← new_limbs r (S i) widths padding;
      Ok (Register.New (Register.kind r) (indexed (Register.name r) "'" i) w p :: limbs)
  | [], _ => Ok []
  | _ :: _, [] => Fault index_panic
  end.

Definition SplitIntoLimbs (maxWidth : Z) (r : Register.t) : result (list Register.t) :=
  width ← Register.Width r;
  limbWidths ← LimbWidths maxWidth width;
  padding ← SplitConstant (Register.padding r) limbWidths;
  if (length limbWidths <=? 1)%nat then Ok [r] else new_limbs r 0 limbWidths padding.

(** ** The map from registers to limbs ([limbs_map.go]) *)

(** [field.Config] *)
Record Config : Type := mkConfig { Name : string; BandWidth : Z; RegisterWidth : Z }.

Definition GF_251 : Config := mkConfig "GF_251" 7 4.
Definition GF_8209 : Config := mkConfig "GF_8209" 13 8.
Definition KOALABEAR_16 : Config := mkConfig "KOALABEAR_16" 30 16.
Definition BLS12_377 : Config := mkConfig "BLS12_377" 252 160.

#[export] Instance Config_eq_dec : EqDecision Config.
Proof. solve_decision. Defined.

(** [Config.Modulus]; the modulus of BLS12_377 is that of gnark, a parameter. *)
Definition Config_Modulus (bls12_377_Modulus : Z) (p : Config) : result Z :=
  if decide (p = GF_251) then Ok 251
  else if decide (p = GF_8209) then Ok 8209
  else if decide (p = KOALABEAR_16) then Ok 2130706433
  else if decide (p = BLS12_377) then Ok bls12_377_Modulus
  else Fault (Panic "unsupported field configuration").

Record limbsMap : Type := mkLimbsMap {
  map_field : Config;
  map_registers : list Register.t;
  map_limbs : list Register.t;
  map_mapping : list (list nat)
}.

(** The loop over the registers, from the identifier of the next limb *)
Fixpoint split_registers (field : Config) (limbId : nat) (regs : list Register.t) : result (list Register.t * list (list nat)) :=
  match regs with
  | [] => Ok ([], [])
  | r :: regs =>
      ls ← SplitIntoLimbs (RegisterWidth field) r;
      '(limbs, mapping) ← split_registers field (limbId + length ls)%nat regs;
      Ok (ls ++ limbs, seq limbId (length ls) :: mapping)
  end.

Definition NewLimbsMap (field : Config) (regs : list Register.t) : result limbsMap :=
  '(limbs, mapping) ← split_registers field 0 regs;
  Ok (mkLimbsMap field regs limbs mapping).

Definition LimbIds (p : limbsMap) (reg : nat) : result (list nat) := slice_get (map_mapping p) reg.
Definition Limb (p : limbsMap) (lid : nat) : result Register.t := slice_get (map_limbs p) lid.
Definition LimbsMap (p : limbsMap) : limbsMap := mkLimbsMap (map_field p) (map_limbs p) [] [].

(** The first register with the name *)
Fixpoint find_register (regs : list Register.t) (name : string) : option nat :=
  match regs with
  | [] => None
  | reg :: regs => if (Register.name reg =? name)%string then Some 0%nat else S <$> find_register regs name
  end.

Definition HasRegister (p : limbsMap) (name : string) : option nat := find_register (map_registers p) name.

Definition RegisterOf (p : limbsMap) (name : string) : result nat :=
  match find_register (map_registers p) name with Some i => Ok i | None => Fault (Panic "unknown register") end.

Definition map_Register (p : limbsMap) (rid : nat) : result Register.t := slice_get (map_registers p) rid.

Definition WidthsOfLimbs (p : limbsMap) (lids : list nat) : result (list Z) :=
  mapM (fun lid => limb ← Limb p lid; Register.Width limb) lids.
Definition LimbsOf (p : limbsMap) (lids : list nat) : result (list Register.t) := mapM (Limb p) lids.
Definition ApplyLimbsMap (p : limbsMap) (rids : list nat) : result (list nat) := mjoin <$> mapM (LimbIds p) rids.

(** [Vector.Split] and [Vector.BitWidth] *)
Definition Vector_Split (regs : list nat) (p : limbsMap) : result (list nat) := mjoin <$> mapM (LimbIds p) regs.
Definition Vector_BitWidth (fn : list Register.t) (regs : list nat) : result Z := Register.WidthOfRegisters fn regs.

(** ** The allocator of registers ([allocator.go])

    [Mapping] is the number of registers of the map that the allocator extends.  The
    assignment of a register is that of the registers from it on, as many as its
    width says; [None] is the assignment of width zero. *)

Module Allocator.
Section Allocator.
Context {T : Type}.

Record t : Type := mk { Mapping : nat; Registers : list Register.t; assignments : list (option (nat * T)) }.

Definition NewAllocator (registers : list Register.t) : t :=
  mk (length registers) registers (replicate (length registers) None).

Definition Register_ (p : t) (rid : nat) : result Register.t := slice_get (Registers p) rid.

Definition push (p : t) (prefix : string) (width : Z) (assignment : option (nat * T)) : nat * t :=
  let index := length (Registers p) in
  (index, mk (Mapping p) (Registers p ++ [Register.NewComputed (indexed prefix "$" index) width 0])
    (assignments p ++ [assignment])).

Definition Allocate (p : t) (prefix : string) (width : Z) : nat * t := push p prefix width None.

Fixpoint AllocateN (p : t) (prefix : string) (widths : list Z) : list nat * t :=
  match widths with
  | [] => ([], p)
  | w :: widths =>
      let (id, p) := Allocate p prefix w in
      let (ids, p) := AllocateN p prefix widths in (id :: ids, p)
  end.

Definition AllocateWith (p : t) (prefix : string) (width : Z) (assignment : T) : nat * t :=
  push p prefix width (Some (1%nat, assignment)).

Definition AllocateWithN (p : t) (prefix : string) (assignment : T) (widths : list Z) : result (list nat * t) :=
  let n := length (assignments p) in
  let (ids, p) := AllocateN p prefix widths in
  assignments' ← slice_set (assignments p) n (if (length widths =? 0)%nat then None else Some (length widths, assignment));
  Ok (ids, mk (Mapping p) (Registers p) assignments').

(** The targets and the value of every assignment, from the [i]th on *)
Fixpoint assignments_from (i : nat) (l : list (option (nat * T))) : list (list nat * T) :=
  match l with
  | [] => []
  | Some (width, value) :: l => (seq i width, value) :: assignments_from (S i) l
  | None :: l => assignments_from (S i) l
  end.

Definition Assignments (p : t) : list (list nat * T) := assignments_from 0 (assignments p).

Definition HasRegister (p : t) (name : string) : option nat := find_register (Registers p) name.

(** Resetting to more registers than there are is not done: the slices would grow. *)
Definition Reset (p : t) (n : nat) : result t :=
  if (n <? Mapping p)%nat then Fault (Panic "cannot reset pre-existing registers")
  else Ok (mk (Mapping p) (take n (Registers p)) (take n (assignments p))).

End Allocator.
Arguments t : clear implicits.
End Allocator.
