(* ===== verification/LimbsFacts.v ===== *)
(** * Limbs: digits of integers

    The widths of the limbs of a register are positive, within the maximum and add up
    to the width of the register, and the limbs of a constant are its digits in the
    mixed radix of the widths.  [digits] and [digits_value] are inverse on the
    integers that fit. *)

From Stdlib Require Import ZArith Lia String.
From stdpp Require Import base numbers list option strings.
From S2P Require Import Prelude Register Limbs.

Open Scope Z_scope.
Open Scope list_scope.

(** ** Digits *)

(** Widths of limbs, and what they add up to *)
Abbreviation widths_ok ws := (Forall (fun w => 0 <= w) ws).
Definition width_sum (ws : list Z) : Z := foldr Z.add 0 ws.

Fixpoint digits (ws : list Z) (v : Z) : list Z :=
  match ws with [] => [] | w :: ws => v mod 2 ^ w :: digits ws (Z.shiftr v w) end.

(** The value of the digits, least significant first *)
Fixpoint digits_value (ws vs : list Z) : Z :=
  match ws, vs with w :: ws, v :: vs => v + 2 ^ w * digits_value ws vs | _, _ => 0 end.

Lemma width_sum_nonneg ws : widths_ok ws -> 0 <= width_sum ws.
Proof. induction 1; cbn; [lia|]. unfold width_sum in *. lia. Qed.

Lemma two_power_pos w : 0 <= w -> 0 < 2 ^ w.
Proof. intros. by apply Z.pow_pos_nonneg. Qed.

Lemma pow2_sum w ws : 0 <= w -> widths_ok ws -> 2 ^ (w + width_sum ws) = 2 ^ w * 2 ^ width_sum ws.
Proof. intros Hw Hws. apply Z.pow_add_r; [done|by apply width_sum_nonneg]. Qed.

Lemma digits_length ws v : length (digits ws v) = length ws.
Proof. revert v. induction ws as [|w ws IH]; intros v; cbn; [done|]. by rewrite IH. Qed.

Lemma digits_bound ws v : widths_ok ws -> Forall2 (fun w d => 0 <= d < 2 ^ w) ws (digits ws v).
Proof.
  intros Hws. revert v. induction Hws as [|w ws Hw _ IH]; intros v; cbn; constructor; [|done].
  by apply Z.mod_pos_bound, two_power_pos.
Qed.

Lemma digits_roundtrip ws v : widths_ok ws -> 0 <= v < 2 ^ width_sum ws -> digits_value ws (digits ws v) = v.
Proof.
  intros Hws. revert v. induction Hws as [|w ws Hw Hws IH]; intros v Hv; cbn [digits digits_value]; [cbn in Hv; lia|].
  cbn [width_sum foldr] in Hv. fold (width_sum ws) in Hv. rewrite (pow2_sum w ws) in Hv by done. pose proof (two_power_pos w Hw).
  rewrite Z.shiftr_div_pow2 by done. rewrite IH.
  - pose proof (Z.div_mod v (2 ^ w)). lia.
  - split; [apply Z.div_pos; lia | apply Z.div_lt_upper_bound; lia].
Qed.

Lemma digits_value_bound ws vs : widths_ok ws -> Forall2 (fun w v => 0 <= v < 2 ^ w) ws vs -> 0 <= digits_value ws vs < 2 ^ width_sum ws.
Proof.
  intros Hws Hvs. revert Hws. induction Hvs as [|w v ws vs Hv _ IH]; intros Hws; [cbn; lia|].
  apply Forall_cons in Hws as [Hw Hws]. specialize (IH Hws). cbn [digits_value width_sum foldr]. fold (width_sum ws).
  rewrite (pow2_sum w ws) by done. pose proof (two_power_pos w Hw). nia.
Qed.

(** Digits within their widths, except for the most significant one, are unique. *)
Lemma digits_unique ws vs us :
  widths_ok ws -> length vs = length us -> (length vs <= length ws)%nat ->
  (forall i w v, (S i < length vs)%nat -> ws !! i = Some w -> vs !! i = Some v -> 0 <= v < 2 ^ w) ->
  (forall i w u, (S i < length us)%nat -> ws !! i = Some w -> us !! i = Some u -> 0 <= u < 2 ^ w) ->
  digits_value ws vs = digits_value ws us -> vs = us.
Proof.
  intros Hws. revert vs us. induction Hws as [|w ws Hw Hws IH]; intros [|v vs] [|u us] Hlen Hle Hv Hu Heq; try done; cbn in *; try lia.
  assert (Htail : vs = us -> v :: vs = u :: us) by (intros ->; f_equal; lia).
  destruct vs as [|v' vs], us as [|u' us]; [f_equal; destruct ws; cbn in Heq; lia | done | done |].
  pose proof (Hv 0%nat w v ltac:(cbn; lia) eq_refl eq_refl). pose proof (Hu 0%nat w u ltac:(cbn; lia) eq_refl eq_refl).
  assert (digits_value ws (v' :: vs) = digits_value ws (u' :: us)) as Hq.
  { pose proof (two_power_pos w Hw). nia. }
  apply Htail, IH; [lia|lia| | |done].
  - intros i x y Hi Hx Hy. apply (Hv (S i)); [cbn in *; lia|done|done].
  - intros i x y Hi Hx Hy. apply (Hu (S i)); [cbn in *; lia|done|done].
Qed.

(** ** Constants *)

Lemma digits_zero ws : digits ws 0 = replicate (length ws) 0.
Proof. induction ws as [|w ws IH]; cbn [digits length replicate]; [done|]. by rewrite Zmod_0_l, Z.shiftr_0_l, IH. Qed.

Lemma SplitConstant_digits c ws : widths_ok ws -> 0 <= c < 2 ^ width_sum ws -> SplitConstant c ws = Ok (digits ws c).
Proof.
  intros Hws. revert c. induction Hws as [|w ws Hw Hws IH]; intros c Hc; cbn [SplitConstant];
    (destruct (Z.eqb_spec c 0) as [->|Hne]; [by rewrite digits_zero|]); [cbn in Hc; lia|].
  cbn [width_sum foldr] in Hc. fold (width_sum ws) in Hc. rewrite (pow2_sum w ws) in Hc by done. pose proof (two_power_pos w Hw).
  rewrite IH; [done|]. rewrite Z.shiftr_div_pow2 by done.
  split; [apply Z.div_pos; lia | apply Z.div_lt_upper_bound; lia].
Qed.

(** A constant that the limbs cannot hold makes the loop run past the last of them. *)
Lemma SplitConstant_overflow c ws : widths_ok ws -> ~ (0 <= c < 2 ^ width_sum ws) -> SplitConstant c ws = Fault index_panic.
Proof.
  intros Hws. revert c. induction Hws as [|w ws Hw Hws IH]; intros c Hc; cbn [SplitConstant].
  - destruct (Z.eqb_spec c 0) as [->|Hne]; [cbn in Hc; lia|done].
  - cbn [width_sum foldr] in Hc. fold (width_sum ws) in Hc. rewrite (pow2_sum w ws) in Hc by done.
    pose proof (two_power_pos w Hw). pose proof (two_power_pos (width_sum ws) (width_sum_nonneg ws Hws)).
    destruct (Z.eqb_spec c 0) as [->|Hne]; [nia|]. rewrite IH; [done|]. rewrite Z.shiftr_div_pow2 by done.
    intros [H1 H2]. pose proof (Z.div_mod c (2 ^ w) ltac:(lia)) as Hd. pose proof (Z.mod_pos_bound c (2 ^ w) ltac:(lia)).
    apply Hc. rewrite Hd. nia.
Qed.

(** ** The widths of the limbs *)

Lemma minNumberOfLimbs_spec m r : 0 < m -> 0 <= r -> exists n, minNumberOfLimbs m r = Ok n /\ 0 < n /\ (n - 1) * m < r <= n * m \/ r = 0 /\ minNumberOfLimbs m r = Ok 0.
Proof.
  intros Hm Hr. unfold minNumberOfLimbs. destruct (Z.eqb_spec m 0); [lia|].
  destruct (decide (r = 0)) as [->|Hne]; [exists 0; right; by rewrite Z.div_0_l, Zmod_0_l by lia|].
  pose proof (Z.div_mod r m ltac:(lia)) as Hdm. pose proof (Z.mod_pos_bound r m Hm). pose proof (Z.div_pos r m Hr Hm).
  set (q := r / m) in *. set (x := r mod m) in *. clearbody q x.
  destruct (Z.eqb_spec x 0) as [Hz|Hz]; cbn [negb]; eexists; left; (split; [done|]); nia.
Qed.

Lemma double_width_spec fuel n r m avg :
  1 <= avg <= m -> m < 2 ^ 62 -> m < avg * 2 ^ Z.of_nat fuel ->
  exists w, double_width fuel n r m avg = Ok w /\ 1 <= w <= m.
Proof.
  revert avg. induction fuel as [|fuel IH]; intros avg Havg Hm Hf; [cbn in Hf; lia|]. cbn [double_width].
  destruct (_ && _) eqn:Hc; [|by exists avg]. apply andb_prop in Hc as [_ Hc]. apply Z.leb_le in Hc.
  rewrite u64_small in * by lia. apply IH; [lia|done|]. rewrite Nat2Z.inj_succ, Z.pow_succ_r in Hf by lia. lia.
Qed.

Lemma commonLimbWidth_spec m r : 1 <= m < 2 ^ 62 -> 0 <= r -> exists w, commonLimbWidth m r = Ok w /\ 1 <= w <= m.
Proof.
  intros Hm Hr. unfold commonLimbWidth. destruct (minNumberOfLimbs_spec m r ltac:(lia) Hr) as [n [(-> & _)|(_ & ->)]]; cbn [mbind result_bind];
    apply double_width_spec; lia.
Qed.

Lemma limb_widths_spec n m c b :
  1 <= c <= m -> (n = 0%nat /\ b = 0 \/ (0 < n)%nat /\ (Z.of_nat n - 1) * c < b <= Z.of_nat n * c) ->
  exists ws, limb_widths n m c b = Ok ws /\ length ws = n /\ Forall (fun w => 1 <= w <= m) ws /\ width_sum ws = b.
Proof.
  intros Hc. revert b. induction n as [|n IH]; intros b Hb; cbn [limb_widths].
  - exists []. split; [done|]. split; [done|]. split; [constructor|]. cbn. lia.
  - destruct Hb as [[? _]|[_ Hb]]; [done|]. rewrite Nat2Z.inj_succ in Hb.
    set (w := match n with O => b | _ => Z.min c b end).
    assert (1 <= w <= c /\ (n = 0%nat /\ b - w = 0 \/ (0 < n)%nat /\ (Z.of_nat n - 1) * c < b - w <= Z.of_nat n * c)) as (Hw & Hrest).
    { subst w. destruct n as [|n]; [lia|]. rewrite Nat2Z.inj_succ in *.
      pose proof (Nat2Z.is_nonneg n). set (k := Z.of_nat n) in *. clearbody k. assert (c <= b) by (assert (0 <= k * c) by (apply Z.mul_nonneg_nonneg; lia); lia). rewrite Z.min_l by done.
      split; [lia|]. right. split; [lia|]. split; nia. }
    destruct (Z.ltb_spec m w); [lia|]. destruct (IH _ Hrest) as (ws & -> & Hl & Hf & Hs). exists (w :: ws).
    split; [done|]. split; [cbn; lia|]. split; [constructor; [lia|done]|]. cbn [width_sum foldr] in *. unfold width_sum in Hs. lia.
Qed.

Lemma LimbWidths_spec m r : 1 <= m < 2 ^ 62 -> 0 <= r < 2 ^ 64 ->
  exists ws, LimbWidths m r = Ok ws /\ Forall (fun w => 1 <= w <= m) ws /\ width_sum ws = r.
Proof.
  intros Hm Hr. unfold LimbWidths. destruct (commonLimbWidth_spec m r Hm ltac:(lia)) as (c & -> & Hc). cbn [mbind result_bind].
  assert (exists n, minNumberOfLimbs c r = Ok n /\ (Z.to_nat n = 0%nat /\ r = 0 \/ (0 < Z.to_nat n)%nat /\ (Z.of_nat (Z.to_nat n) - 1) * c < r <= Z.of_nat (Z.to_nat n) * c)) as (n & -> & Hn).
  { destruct (minNumberOfLimbs_spec c r ltac:(lia) ltac:(lia)) as [n [(-> & Hn & Hb)|(-> & ->)]]; [|exists 0; by split; [|left]].
    exists n. split; [done|]. right. rewrite Z2Nat.id by lia. split; [lia|done]. }
  cbn [mbind result_bind]. destruct (limb_widths_spec _ m c r Hc Hn) as (ws & -> & _ & Hf & Hs). exists ws. cbn [mbind result_bind].
  unfold width_sum in Hs. rewrite Hs, u64_small, Z.eqb_refl by lia. done.
Qed.

Lemma positive_widths m ws : Forall (fun w => 1 <= w <= m) ws -> widths_ok ws.
Proof. intros H. eapply Forall_impl; [exact H|]. cbn. lia. Qed.

(** ** Limbs of registers *)

Record register_ok (r : Register.t) : Prop := {
  register_width : 0 <= Register.width r < 2 ^ 62;
  register_padding : 0 <= Register.padding r < 2 ^ Register.width r
}.

Lemma Width_ok r : Register.width r < 2 ^ 62 -> Register.Width r = Ok (Register.width r).
Proof. intros H. unfold Register.Width, Register.IsNative, MaxUint. destruct (Z.eqb_spec (Register.width r) (2 ^ 64 - 1)); [lia|done]. Qed.

(** The limbs [ls] of the register [r] *)
Record limbs_of (max : Z) (r : Register.t) (ls : list Register.t) : Prop := {
  limbs_nonempty : ls <> [];
  limbs_ok : Forall register_ok ls;
  limbs_max : Forall (fun l => Register.width l <= max) ls;
  limbs_width : width_sum (Register.width <$> ls) = Register.width r;
  limbs_padding : Register.padding <$> ls = digits (Register.width <$> ls) (Register.padding r);
  limbs_kind : Forall (fun l => Register.kind l = Register.kind r) ls
}.

Lemma new_limbs_spec r i ws ps :
  length ws = length ps ->
  exists ls, new_limbs r i ws ps = Ok ls /\ Register.width <$> ls = ws /\ Register.padding <$> ls = ps
    /\ Forall (fun l => Register.kind l = Register.kind r) ls.
Proof.
  revert i ps. induction ws as [|w ws IH]; intros i [|p ps] Hlen; try done; cbn [new_limbs]; [by exists []|].
  destruct (IH (S i) ps) as (ls & -> & Hw & Hp & Hk); [cbn in Hlen; lia|]. cbn [mbind result_bind]. eexists. split; [done|].
  cbn. rewrite Hw, Hp. split; [done|]. split; [done|]. by constructor.
Qed.

Lemma SplitIntoLimbs_spec max r :
  1 <= max < 2 ^ 62 -> register_ok r -> exists ls, SplitIntoLimbs max r = Ok ls /\ limbs_of max r ls.
Proof.
  intros Hm [Hw Hp]. unfold SplitIntoLimbs. rewrite Width_ok by lia. cbn [mbind result_bind].
  destruct (LimbWidths_spec max (Register.width r) Hm ltac:(lia)) as (ws & -> & Hf & Hs). cbn [mbind result_bind].
  pose proof (positive_widths _ _ Hf) as Hpos. rewrite SplitConstant_digits by (rewrite ?Hs; done). cbn [mbind result_bind].
  destruct (Nat.leb_spec (length ws) 1) as [Hl|Hl].
  - exists [r]. split; [done|]. assert (Register.width r <= max) as Hmax.
    { destruct ws as [|w [|? ?]]; cbn in Hl, Hs; [lia| |lia]. apply Forall_inv in Hf. lia. }
    constructor; rewrite ?Forall_singleton; cbn; try done; try lia. by rewrite Z.mod_small.
  - destruct (new_limbs_spec r 0 ws (digits ws (Register.padding r))) as (ls & -> & Hlw & Hlp & Hk); [by rewrite digits_length|].
    exists ls. split; [done|]. pose proof (digits_bound ws (Register.padding r) Hpos) as Hb. rewrite <- Hlp, <- Hlw in Hb.
    constructor; rewrite ?Hlw; try done.
    + intros ->. cbn in Hlw. subst ws. cbn in Hl. lia.
    + rewrite <- Hlw in Hf. apply Forall_fmap in Hf.
      clear -Hf Hb Hm. induction ls as [|l ls IH]; [constructor|]. apply Forall_cons in Hf as [Hl Hf]. cbn in *.
      inversion Hb; subst. constructor; [constructor; [lia|done]|]. by apply IH.
    + rewrite <- Hlw in Hf. apply Forall_fmap in Hf. eapply Forall_impl; [exact Hf|]. cbn. lia.
Qed.

(** ** The map of a module *)

(** The limbs of the [i]th register, consecutive from identifier [off] on *)
Definition mapped (max : Z) (limbs : list Register.t) (mapping : list (list nat)) (i : nat) (r : Register.t) : Prop :=
  exists ls off, SplitIntoLimbs max r = Ok ls /\ mapping !! i = Some (seq off (length ls))
    /\ forall j l, ls !! j = Some l -> limbs !! (off + j)%nat = Some l.

Lemma split_registers_spec field regs : forall k,
  1 <= RegisterWidth field < 2 ^ 62 -> Forall register_ok regs ->
  exists limbs mapping, split_registers field k regs = Ok (limbs, mapping) /\ length mapping = length regs
    /\ Forall register_ok limbs /\ Forall (fun l => Register.width l <= RegisterWidth field) limbs
    /\ forall pre i r, length pre = k -> regs !! i = Some r -> mapped (RegisterWidth field) (pre ++ limbs) mapping i r.
Proof.
  intros k Hf Hregs. revert k. induction Hregs as [|r regs Hr Hregs IH]; intros k; cbn [split_registers].
  - exists [], []. by repeat split.
  - destruct (SplitIntoLimbs_spec _ r Hf Hr) as (ls & Hls & Hof). rewrite Hls. cbn [mbind result_bind].
    destruct (IH (k + length ls)%nat) as (limbs & mapping & -> & Hlen & Hok & Hmax & Hmap). cbn [mbind result_bind].
    exists (ls ++ limbs), (seq k (length ls) :: mapping). destruct Hof. split; [done|]. split; [cbn; lia|].
    split; [by apply Forall_app|]. split; [by apply Forall_app|].
    intros pre [|i] x Hpre Hx; cbn in Hx.
    + injection Hx as <-. exists ls, k. split; [done|]. split; [done|]. intros j l Hj.
      rewrite lookup_app_r by lia. rewrite lookup_app_l by (apply lookup_lt_Some in Hj; lia). rewrite <- Hj. f_equal. lia.
    + destruct (Hmap (pre ++ ls) i x) as (us & off & Hu & Ho & Hl); [rewrite length_app; lia|done|].
      exists us, off. rewrite <- app_assoc in Hl. done.
Qed.

Lemma NewLimbsMap_spec field regs :
  1 <= RegisterWidth field < 2 ^ 62 -> Forall register_ok regs ->
  exists m, NewLimbsMap field regs = Ok m /\ map_field m = field /\ map_registers m = regs
    /\ Forall register_ok (map_limbs m) /\ Forall (fun l => Register.width l <= RegisterWidth field) (map_limbs m)
    /\ length (map_mapping m) = length regs
    /\ forall i r, regs !! i = Some r -> mapped (RegisterWidth field) (map_limbs m) (map_mapping m) i r.
Proof.
  intros Hf Hr. unfold NewLimbsMap. destruct (split_registers_spec field regs 0 Hf Hr) as (limbs & mapping & -> & Hl & Hok & Hmax & Hm).
  eexists. split; [done|]. cbn. do 5 (split; [done|]). intros i r. by apply (Hm []).
Qed.

Module LimbsProperties.

(** C9: Every register has limbs of one bit or more and at most the maximal width that add
    up to its width; the limbs of a constant that fits are its digits, which give the
    constant back, and a constant that does not fit is rejected. *)
Theorem limbs_roundtrip (maxWidth regWidth constant : Z) :
  1 <= maxWidth < 2 ^ 62 -> 0 <= regWidth < 2 ^ 64 ->
  exists widths, LimbWidths maxWidth regWidth = Ok widths /\ Forall (fun w => 1 <= w <= maxWidth) widths /\ width_sum widths = regWidth /\
    if bool_decide (0 <= constant < 2 ^ regWidth)
    then exists limbs, SplitConstant constant widths = Ok limbs /\ Forall2 (fun w l => 0 <= l < 2 ^ w) widths limbs
           /\ digits_value widths limbs = constant
    else SplitConstant constant widths = Fault index_panic.
Proof.
  intros Hm Hr. destruct (LimbWidths_spec maxWidth regWidth Hm Hr) as (ws & Hws & Hf & Hs). exists ws. do 3 (split; [done|]).
  pose proof (positive_widths _ _ Hf) as Hp. case_bool_decide as Hc.
  - exists (digits ws constant). rewrite SplitConstant_digits by (rewrite ?Hs; done). split; [done|]. split; [by apply digits_bound|].
    apply digits_roundtrip; [done|by rewrite Hs].
  - apply SplitConstant_overflow; [done|by rewrite Hs].
Qed.

Lemma limbs_roundtrip_witness : exists widths limbs, LimbWidths 160 256 = Ok widths /\ SplitConstant 12345 widths = Ok limbs /\ digits_value widths limbs = 12345.
Proof.
  destruct (limbs_roundtrip 160 256 12345) as (ws & Hw & _ & _ & H); [lia|lia|]. rewrite bool_decide_true in H by lia.
  destruct H as (ls & Hl & _ & Hv). exists ws, ls. split; [exact Hw|]. split; [exact Hl|exact Hv].
Defined.

(** The limbs of the registers of a module lie one after the other, those of each
    register with its kind, its width in all and the digits of its padding. *)
Theorem limbs_map (field : Config) (regs : list Register.t) :
  1 <= RegisterWidth field < 2 ^ 62 -> Forall register_ok regs ->
  exists m, NewLimbsMap field regs = Ok m /\
    forall i r, regs !! i = Some r -> exists ids ls, LimbIds m i = Ok ids /\ LimbsOf m ids = Ok ls /\ ids = seq (default 0%nat (head ids)) (length ids)
      /\ limbs_of (RegisterWidth field) r ls.
Proof.
  intros Hf Hr. destruct (NewLimbsMap_spec field regs Hf Hr) as (m & Hm & _ & _ & _ & _ & _ & Hmap). exists m. split; [done|].
  intros i r Hi. destruct (Hmap i r Hi) as (ls & off & Hls & Hids & Hl). exists (seq off (length ls)), ls.
  rewrite Forall_lookup in Hr. destruct (SplitIntoLimbs_spec (RegisterWidth field) r Hf (Hr i r Hi)) as (ls' & Hls' & Hof).
  rewrite Hls in Hls'. injection Hls' as <-. unfold LimbIds, slice_get. rewrite Hids. split; [done|]. split; [|split; [|done]].
  - unfold LimbsOf. clear -Hl. revert off Hl. induction ls as [|l ls IH]; intros off Hl; [done|]. cbn [length seq mapM].
    pose proof (Hl 0%nat l eq_refl) as H0. rewrite Nat.add_0_r in H0. assert (Limb m off = Ok l) as -> by (unfold Limb, slice_get; by rewrite H0). cbn [mbind result_bind].
    rewrite (IH (S off)); [done|]. intros j x Hj. rewrite <- (Hl (S j) x Hj). f_equal. lia.
  - rewrite length_seq. destruct ls; done.
Qed.

Lemma limbs_map_witness : exists m ids, NewLimbsMap GF_8209 [Register.NewInput "x" 20 70000] = Ok m /\ LimbIds m 0 = Ok ids.
Proof.
  destruct (limbs_map GF_8209 [Register.NewInput "x" 20 70000]) as (m & Hm & H); [cbn; lia|apply Forall_singleton; split; cbn; lia|].
  destruct (H 0%nat _ eq_refl) as (ids & ls & Hids & _). exists m, ids. split; [exact Hm|exact Hids].
Defined.

End LimbsProperties.
