(* ===== verification/Equation.v ===== *)
(** * Equations over limbs

    Models [pkg/schema/agnostic]: the widths of polynomials over accesses of
    registers, the splitting of wide variables into limbs, and the splitting of an
    equation into equations that each fit in the bandwidth of the field, with carry
    registers between them.  A polynomial is the list of its terms, and so is the nil
    pointer.  The allocator is threaded through every operation that may allocate. *)

From Stdlib Require Import ZArith Lia String.
From stdpp Require Import base numbers list option strings.
From S2P Require Import Prelude Interval Register SortedSet Poly Limbs.
From S2P Require BitSet.

Open Scope Z_scope.
Open Scope list_scope.

Abbreviation DynamicMonomial := (Monomial AccessId.t).
Abbreviation DynamicPolynomial := (list (Monomial AccessId.t)).

(** ** Widths of polynomials ([polynomial.go]) *)

(** [DynamicEnvironment]: the width of an access is that of its mask. *)
Definition DynamicEnvironment : AccessId.t -> Z := AccessId.maskwidth.

Section Widths.
Context {V : Type} (env : V -> Z).

(** The width is converted to an [int64]. *)
Definition IntegerRangeOfRegister (id : V) : result Interval.t := Interval.NewInterval 0 (Pow.Pow2 (env id) - 1).

Definition IntegerRangeOfMonomial (mono : Monomial V) : result Interval.t :=
  start ← Interval.NewInterval (coefficient mono) (coefficient mono);
  foldl (fun intRange v => r ← intRange; i ← IntegerRangeOfRegister v; Ok (Interval.Mul r i)) (Ok start) (vars mono).

(** The zero value of an interval is the range from zero to zero. *)
Definition IntegerRangeOfPolynomial (p : list (Monomial V)) : result Interval.t :=
  foldl (fun intRange mono => r ← intRange; i ← IntegerRangeOfMonomial mono; Ok (Interval.Add r i))
    (Ok (Interval.mk (InfInt.SetInt 0) (InfInt.SetInt 0))) p.

(** The width of a range, and whether it has negative values *)
Definition width_of_range (intRange : Interval.t) : result (Z * bool) :=
  lower ← Interval.MinIntValue intRange;
  upper ← Interval.MaxIntValue intRange;
  if lower <? 0 then Ok (Z.max (BitLen (lower + 1)) (BitLen upper), true) else Ok (BitLen upper, false).

Definition RawWidthOfPolynomial (source : list (Monomial V)) : result (Z * bool) :=
  r ← IntegerRangeOfPolynomial source; width_of_range r.

Definition WidthOfPolynomial (source : list (Monomial V)) : result (Z * bool) :=
  '(bitwidth, signed) ← RawWidthOfPolynomial source;
  Ok (if signed : bool then bitwidth + 1 else bitwidth, signed).

Definition WidthOfMonomial (source : Monomial V) : result (Z * bool) :=
  r ← IntegerRangeOfMonomial source; width_of_range r.

(** The widths of the positive and of the negative values *)
Definition SplitWidthOfPolynomial (source : list (Monomial V)) : result (Z * Z) :=
  intRange ← IntegerRangeOfPolynomial source;
  lower ← Interval.MinIntValue intRange;
  upper ← Interval.MaxIntValue intRange;
  if lower <? 0 then Ok (BitLen upper, BitLen (lower + 1)) else Ok (BitLen upper, 0).

End Widths.

(** Every register once, in the order of its first occurrence *)
Definition RegistersRead {V} (rid : V -> nat) (p : list (Monomial V)) : list nat :=
  snd (foldl (fun '(regs, read) ident =>
    if BitSet.Contains regs (rid ident) then (regs, read) else (BitSet.Insert regs (rid ident), read ++ [rid ident]))
    (BitSet.mkSet [], []) (p ≫= vars)).

Definition RegisterReadSet {V} (rid : V -> nat) (p : list (Monomial V)) : BitSet.Set_ :=
  BitSet.InsertAll (BitSet.mkSet []) (rid <$> (p ≫= vars)).

(** ** Substitution *)

(** The polynomial of one variable *)
Definition variable {V} `{!Comparable V} (v : V) : list (Monomial V) := Set_ [NewMonomial 1 [v]].

Section Substitution.
Context {V : Type} `{!Comparable V} (mapping : V -> option (list (Monomial V))).

Definition SubstituteMonomial (t : Monomial V) : list (Monomial V) :=
  foldl (fun r v => Mul r (default (variable v) (mapping v))) (Set_ [NewMonomial (coefficient t) []]) (vars t).

Definition SubstitutePolynomial (p : list (Monomial V)) : list (Monomial V) :=
  match map SubstituteMonomial p with [] => [] | r :: rs => foldl Add r rs end.

End Substitution.

(** The loop over the limbs, from the width of the limbs before.  Masking never
    panics: the mask is at most the width of the limb. *)
Fixpoint limb_terms (bitwidth shift width : Z) (limbs : list nat) (widths : list Z) : result (list DynamicMonomial) :=
  match limbs, widths with
  | [], _ => Ok []
  | _ :: _, [] => Fault index_panic
  | limb :: limbs, w :: widths =>
      let limbWidth := Z.min bitwidth w in
      if 0 <? limbWidth then
        v ← AccessId.Mask (AccessId.Shift (AccessId.AccessOf limb w) shift) limbWidth;
        terms ← limb_terms (bitwidth - limbWidth) shift (width + limbWidth) limbs widths;
        Ok (NewMonomial (Pow.Pow2 width) [v] :: terms)
      else limb_terms (bitwidth - limbWidth) shift width limbs widths
  end.

Definition LimbPolynomial (bitwidth shift : Z) (limbs : list nat) (widths : list Z) : result DynamicPolynomial :=
  Set_ <$> limb_terms bitwidth shift 0 limbs widths.

(** ** Fillers ([filler.go], [SplitVariable])

    The computations that fill allocated registers: the value of a polynomial
    shifted to the right, or that of a register of some width. *)

Inductive Filler : Type :=
  | PolyFil (rshift : Z) (poly : DynamicPolynomial)
  | RegisterFil (rid : nat) (bitwidth : Z).

(** The values of the registers on every row *)
Abbreviation valuation := (nat -> Z -> Z).

(** The value of an access from row [k] *)
Definition at_row (val : valuation) (k : Z) (v : AccessId.t) : Z := val (AccessId.id v) (k + AccessId.shift v).

(** The sign of the coefficient is lost: its bytes are those of its magnitude. *)
Definition EvalMonomial (val : valuation) (k : Z) (term : DynamicMonomial) : Z :=
  foldl (fun acc v => acc * at_row val k v) (Z.abs (coefficient term)) (vars term).

Definition EvalPolynomial (val : valuation) (k : Z) (p : DynamicPolynomial) : Z :=
  match map (EvalMonomial val k) p with [] => 0 | v :: vs => foldl Z.add v vs end.

Definition EvalAt (val : valuation) (k : Z) (f : Filler) : Z :=
  match f with
  | PolyFil rshift p => if negb (rshift =? 0) then Z.shiftr (EvalPolynomial val k p) rshift else EvalPolynomial val k p
  | RegisterFil rid _ => val rid k
  end.

(** [RequiredRegisters] *)
Definition RequiredRegisters (f : Filler) : list nat :=
  match f with
  | PolyFil _ p => SortedSet.NewAnySortedSet (AccessId.id <$> (p ≫= vars))
  | RegisterFil rid _ => [rid]
  end.

(** ** Splitting of variables ([util.go]) *)

Abbreviation RegisterAllocator := (Allocator.t Filler).

Module Equation.
Record t : Type := NewEquation { LeftHandSide : DynamicPolynomial; RightHandSide : DynamicPolynomial }.
End Equation.
Import Equation.

Module Splitter.

(** [None] is the nil slice of a variable that is not split. *)
Record t : Type := mk {
  mapping : RegisterAllocator;
  bitwidth : Z;
  limbs : list (option (list nat));
  limbWidths : list (list Z)
}.

Definition NewVariableSplitter (mapping : RegisterAllocator) (bitwidth : Z) : t := mk mapping bitwidth [] [].

(** Arrays that are too short for the register are copied into longer ones. *)
Definition grow {A} (d : A) (l : list A) (rid : nat) : list A :=
  if (length l <=? rid)%nat then l ++ replicate (2 * (rid + 1) - length l) d else l.

Definition allocate (p : t) (rid : nat) (widths : list Z) (filler : Filler) : result (list nat * t) :=
  reg ← Allocator.Register_ (mapping p) rid;
  '(ids, m) ← Allocator.AllocateWithN (mapping p) (Register.name reg) filler widths;
  Ok (ids, mk m (bitwidth p) (<[rid := Some ids]> (grow None (limbs p) rid))
        (<[rid := widths]> (grow [] (limbWidths p) rid))).

Definition SplitVariable (p : t) (rid : nat) : result (Equation.t * t) :=
  reg ← Allocator.Register_ (mapping p) rid;
  width ← Register.Width reg;
  widths ← LimbWidths (bitwidth p) width;
  '(ids, p) ← allocate p rid widths (RegisterFil rid width);
  rhs ← LimbPolynomial width 0 ids widths;
  Ok (NewEquation (variable (AccessId.AccessOf rid width)) rhs, p).

Fixpoint split_variables (p : t) (rids : list nat) : result (list Equation.t * t) :=
  match rids with
  | [] => Ok ([], p)
  | rid :: rids =>
      '(constraint, p) ← SplitVariable p rid;
      '(constraints, p) ← split_variables p rids;
      Ok (constraint :: constraints, p)
  end.

(** In the order of the iterator of the set *)
Definition SplitVariables (p : t) (vars : BitSet.Set_) : result (list Equation.t * t) :=
  match BitSet.Collect (BitSet.Iter vars) with Some rids => split_variables p rids | None => Fault OutOfFuel end.

(** The polynomial that replaces a variable; the cache only saves computing it. *)
Definition replacement (p : t) (reg : AccessId.t) : result (option DynamicPolynomial) :=
  match limbs p !! AccessId.id reg with
  | Some (Some ids) =>
      widths ← slice_get (limbWidths p) (AccessId.id reg);
      rp ← LimbPolynomial (AccessId.maskwidth reg) (AccessId.shift reg) ids widths;
      Ok (Some rp)
  | _ => Ok None
  end.

(** [SubstitutePolynomial] with a mapping that may panic *)
Definition Apply (p : t) (poly : DynamicPolynomial) : result DynamicPolynomial :=
  _ ← mapM (replacement p) (poly ≫= vars);
  Ok (SubstitutePolynomial (fun v => match replacement p v with Ok o => o | Fault _ => None end) poly).

End Splitter.

(** ** Equations ([equation.go]) *)

Section Split.
Context (field : Config).

(** The positive and the negative terms, the latter negated *)
Definition balancePolynomial (p : DynamicPolynomial) : DynamicPolynomial * DynamicPolynomial :=
  foldl (fun '(pos, neg) ith => if IsNegative ith then (pos, Sub neg (Set_ [ith])) else (Add pos (Set_ [ith]), neg))
    (Set_ [], Set_ []) p.

Definition Balance (p : Equation.t) : Equation.t :=
  if negb (Signed (LeftHandSide p)) && negb (Signed (RightHandSide p)) then p
  else
    let (lhsPos, lhsNeg) := balancePolynomial (LeftHandSide p) in
    let (rhsPos, rhsNeg) := balancePolynomial (RightHandSide p) in
    NewEquation (Add lhsPos rhsNeg) (Add rhsPos lhsNeg).

Definition Width (p : Equation.t) : result Z :=
  '(lhs, lSign) ← WidthOfPolynomial DynamicEnvironment (LeftHandSide p);
  '(rhs, rSign) ← WidthOfPolynomial DynamicEnvironment (RightHandSide p);
  if lSign || rSign then Fault (Panic "equation not balanced!") else Ok (Z.max lhs rhs).

(** The loop of [determineChunkBitwidths]: with a width of zero it never ends. *)
Fixpoint chunk_widths (fuel : nat) (maxWidth bitwidth : Z) : result (list Z) :=
  if 0 <? bitwidth then
    match fuel with
    | O => Fault OutOfFuel
    | S fuel => let width := Z.min maxWidth bitwidth in chunks ← chunk_widths fuel maxWidth (bitwidth - width); Ok (width :: chunks)
    end
  else Ok [].

Definition determineChunkBitwidths (p : Equation.t) (maxWidth : Z) : result (list Z) :=
  bitwidth ← Width p; chunk_widths (Z.to_nat bitwidth) maxWidth bitwidth.

(** The variables of the terms that are too wide, when they are wider than the limbs *)
Fixpoint mark_variables (regWidth : Z) (mapping : RegisterAllocator) (vs : list AccessId.t) (marked : BitSet.Set_) : result BitSet.Set_ :=
  match vs with
  | [] => Ok marked
  | v :: vs =>
      reg ← Allocator.Register_ mapping (AccessId.id v);
      width ← Register.Width reg;
      mark_variables regWidth mapping vs (if regWidth <? width then BitSet.Insert marked (AccessId.id v) else marked)
  end.

Fixpoint mark_terms (regWidth : Z) (mapping : RegisterAllocator) (p : DynamicPolynomial) (marked : BitSet.Set_) : result BitSet.Set_ :=
  match p with
  | [] => Ok marked
  | term :: p =>
      '(width, signed) ← WidthOfMonomial DynamicEnvironment term;
      if signed : bool then Fault (Panic "unbalance equation encountered")
      else
        marked ← (if BandWidth field <? width then mark_variables regWidth mapping (vars term) marked else Ok marked);
        mark_terms regWidth mapping p marked
  end.

Definition splitNonLinearTerms (regWidth : Z) (p : DynamicPolynomial) (mapping : RegisterAllocator)
    : result (DynamicPolynomial * list Equation.t * RegisterAllocator) :=
  marked ← mark_terms regWidth mapping p (BitSet.mkSet []);
  '(constraints, splitter) ← Splitter.SplitVariables (Splitter.NewVariableSplitter mapping regWidth) marked;
  q ← Splitter.Apply splitter p;
  Ok (q, constraints, Splitter.mapping splitter).

Fixpoint chunkEquation (lhs rhs : DynamicPolynomial) (chunkWidths : list Z) : list DynamicPolynomial * list DynamicPolynomial :=
  match chunkWidths with
  | [] => ([], [])
  | chunkWidth :: chunkWidths =>
      let (lhs, lhsRem) := Shr lhs chunkWidth in
      let (rhs, rhsRem) := Shr rhs chunkWidth in
      let (l, r) := chunkEquation lhs rhs chunkWidths in
      if negb (Len lhs =? 0)%nat || negb (Len rhs =? 0)%nat || negb (Len lhsRem =? 0)%nat || negb (Len rhsRem =? 0)%nat
      then (lhsRem :: l, rhsRem :: r) else (l, r)
  end.

(** The loop over the chunks, from [chunk] on.  When a chunk is too wide the loop ends
    early, and the allocations made so far remain. *)
Fixpoint carry_lines (chunk : DynamicPolynomial) (chunks : list DynamicPolynomial) (chunkWidths : list Z)
    (mapping : RegisterAllocator) : result (list DynamicPolynomial * bool * RegisterAllocator) :=
  '(ithWidth, _) ← WidthOfPolynomial DynamicEnvironment chunk;
  match chunkWidths with
  | [] => Fault index_panic
  | chunkWidth :: chunkWidths =>
      if BandWidth field <? ithWidth then Ok ([chunk], false, mapping)
      else match chunks with
      | [] => Ok ([chunk], true, mapping)
      | next :: chunks =>
          if chunkWidth <? ithWidth then
            let carryWidth := ithWidth - chunkWidth in
            let (carryReg, mapping) := Allocator.AllocateWith mapping "c" carryWidth (PolyFil chunkWidth chunk) in
            let carry := AccessId.AccessOf carryReg carryWidth in
            let chunk' := Sub chunk (Set_ [NewMonomial (Pow.Pow2 chunkWidth) [carry]]) in
            let next' := Add next (Set_ [NewMonomial 1 [carry]]) in
            '(rest, ok, mapping) ← carry_lines next' chunks chunkWidths mapping;
            Ok (if ok : bool then chunk' :: rest else rest, ok, mapping)
          else
            '(rest, ok, mapping) ← carry_lines next chunks chunkWidths mapping;
            Ok (if ok : bool then chunk :: rest else rest, ok, mapping)
      end
  end.

Definition addCarryLines (chunks : list DynamicPolynomial) (chunkWidths : list Z) (mapping : RegisterAllocator)
    : result (list DynamicPolynomial * bool * RegisterAllocator) :=
  match chunks with [] => Ok ([], true, mapping) | chunk :: chunks => carry_lines chunk chunks chunkWidths mapping end.

(** The target equations, without the empty ones *)
Fixpoint target_equations (lhs rhs : list DynamicPolynomial) : list Equation.t :=
  match lhs, rhs with
  | l :: lhs, r :: rhs =>
      if (0 <? Len l)%nat || (0 <? Len r)%nat then NewEquation l r :: target_equations lhs rhs else target_equations lhs rhs
  | _, _ => []
  end.

(** One round of [chunkUp]: the sides in chunks and the equations of the variables that
    were split, when the chunks fit *)
Definition chunk_round (p : Equation.t) (chunkWidth : Z) (mapping : RegisterAllocator)
    : result (option (list DynamicPolynomial * list DynamicPolynomial * list Equation.t) * RegisterAllocator) :=
  chunkWidths ← determineChunkBitwidths p chunkWidth;
  '(lhs, leftEqs, mapping) ← splitNonLinearTerms chunkWidth (LeftHandSide p) mapping;
  '(rhs, rightEqs, mapping) ← splitNonLinearTerms chunkWidth (RightHandSide p) mapping;
  let (lhsChunks, rhsChunks) := chunkEquation lhs rhs chunkWidths in
  '(lhs, lhsChunked, mapping) ← addCarryLines lhsChunks chunkWidths mapping;
  '(rhs, rhsChunked, mapping) ← addCarryLines rhsChunks chunkWidths mapping;
  Ok (if (lhsChunked : bool) && (rhsChunked : bool) then Some (lhs, rhs, leftEqs ++ rightEqs) else None, mapping).

(** The width of the chunks is halved until they fit; at a width of zero the chunks
    of an equation that does not fit are never determined. *)
Fixpoint chunk_loop (fuel n : nat) (p : Equation.t) (chunkWidth : Z) (mapping : RegisterAllocator)
    : result (list Equation.t * list Equation.t * RegisterAllocator) :=
  match fuel with
  | O => Fault OutOfFuel
  | S fuel =>
      '(chunks, mapping) ← chunk_round p chunkWidth mapping;
      match chunks with
      | Some (lhs, rhs, context) => Ok (target_equations lhs rhs, context, mapping)
      | None => mapping ← Allocator.Reset mapping n; chunk_loop fuel n p (chunkWidth / 2) mapping
      end
  end.

Definition chunkUp (p : Equation.t) (mapping : RegisterAllocator) : result (list Equation.t * list Equation.t * RegisterAllocator) :=
  chunk_loop 65 (length (Allocator.Registers mapping)) p (RegisterWidth field) mapping.

(** The target equations, the equations of the variables that were split, and the
    allocator *)
Definition Split (p : Equation.t) (env : RegisterAllocator) : result (list Equation.t * list Equation.t * RegisterAllocator) :=
  let bp := Balance p in
  width ← Width bp;
  if BandWidth field <? width then chunkUp bp env else Ok ([p], [], env).

End Split.
