(* ===== verification/EquationTerms.v ===== *)
(** * Polynomials over limbs: closure, ranges and substitution

    [over R P]: the coefficients of [P] are not negative and its variables satisfy
    [R]; every operation of the splitting keeps this.  The width of such a polynomial
    is that of its value where all variables are largest, which bounds its values. *)

From Stdlib Require Import ZArith Lia.
From stdpp Require Import base numbers list option strings sorting.
From S2P Require Import Prelude Interval Register SortedSet Poly PolyFacts Limbs LimbsFacts Equation.

Open Scope Z_scope.
Open Scope list_scope.

(** ** Closure *)

Section Over.
Context {V : Type} `{!Comparable V, !CmpLaws V} (R : V -> Prop).
Implicit Types (p q : Monomial V) (P Q : list (Monomial V)).

Definition vars_in P : Prop := Forall (fun p => Forall R (vars p)) P.
Definition positive P : Prop := Forall (fun p => 0 <= coefficient p) P.
Definition over P : Prop := positive P /\ vars_in P.


(** A property of monomials that the sum of two terms over the same variables keeps *)
Definition additive (Pr : Monomial V -> Prop) : Prop :=
  forall p q, vars p = vars q -> Pr p -> Pr q -> Pr (mkMonomial (coefficient p + coefficient q) (vars p)).

Lemma AddTerm_Forall (Pr : Monomial V -> Prop) P q : additive Pr -> Forall Pr P -> Pr q -> Forall Pr (AddTerm P q).
Proof.
  intros Ha HP Hq. unfold AddTerm. destruct (negb _); [|done]. destruct (first_match P q) as [i|] eqn:Hm.
  - apply first_match_Some in Hm as (p & Hi & Hv). unfold update_term. rewrite Hi. destruct (Monomial_IsZero _); [by apply RemoveAt_Forall|].
    apply Forall_insert; [done|]. apply Ha; [done| |done]. by eapply Forall_lookup_1.
  - apply first_match_None, Insert_new in Hm as [i ->]. apply Forall_app. split; [by apply Forall_take|].
    constructor; [done|by apply Forall_drop].
Qed.

Lemma add_terms_Forall (Pr : Monomial V -> Prop) P Q : additive Pr -> Forall Pr P -> Forall Pr Q -> Forall Pr (add_terms P Q).
Proof.
  intros Ha HP HQ. unfold add_terms. revert P HP. induction HQ as [|q Q Hq _ IH]; intros P HP; cbn [foldl]; [done|].
  by apply IH, AddTerm_Forall.
Qed.

Lemma additive_positive : additive (fun p => 0 <= coefficient p).
Proof. intros p q _. cbn. lia. Qed.

Lemma additive_vars : additive (fun p => Forall R (vars p)).
Proof. by intros p q. Qed.

Lemma over_nil : over [].
Proof. split; constructor. Qed.

Lemma over_cons p P : over (p :: P) <-> (0 <= coefficient p /\ Forall R (vars p)) /\ over P.
Proof. unfold over, positive, vars_in. rewrite !Forall_cons. tauto. Qed.

Lemma over_add_terms P Q : over P -> over Q -> over (add_terms P Q).
Proof. intros [H1 H2] [H3 H4]. split; apply add_terms_Forall; auto using additive_positive, additive_vars. Qed.

Lemma over_Set P : over P -> over (Set_ P).
Proof. apply over_add_terms, over_nil. Qed.

Lemma over_Add P Q : over P -> over Q -> over (Add P Q).
Proof. apply over_add_terms. Qed.

Lemma over_single c vs : 0 <= c -> Forall R vs -> over (Set_ [NewMonomial c vs]).
Proof.
  intros Hc Hvs. apply over_Set, over_cons. split; [|apply over_nil]. split; [done|].
  by rewrite (proj2 (NewMonomial_vars c vs)).
Qed.

Lemma vars_in_Sub P Q : vars_in P -> vars_in Q -> vars_in (Sub P Q).
Proof.
  intros HP HQ. unfold Sub. rewrite foldl_SubTerm. apply add_terms_Forall; [apply additive_vars|done|].
  apply Forall_map. eapply Forall_impl; [exact HQ|]. by intros p Hp.
Qed.

Lemma over_Mul P Q : over P -> over Q -> over (Mul P Q).
Proof.
  intros HP [HQ1 HQ2]. unfold Mul. enough (forall K, over K -> over (foldl (fun res ith => foldl (fun res jth => AddTerm res (Monomial_Mul ith jth)) res Q) K P)) as H by apply H, over_nil.
  destruct HP as [HP1 HP2]. induction P as [|p P IH]; intros K HK; cbn [foldl]; [done|]. apply Forall_cons in HP1 as [Hp1 HP1], HP2 as [Hp2 HP2].
  apply IH; [done..|]. clear IH. revert K HK. induction Q as [|q Q IHQ]; intros K HK; cbn [foldl]; [done|].
  apply Forall_cons in HQ1 as [Hq1 HQ1], HQ2 as [Hq2 HQ2]. apply IHQ; [done..|]. destruct HK as [HK1 HK2].
  split; apply AddTerm_Forall; auto using additive_positive, additive_vars; cbn [Monomial_Mul coefficient vars]; [nia|].
  rewrite MergeSorted_Permutation. by apply Forall_app.
Qed.

Lemma over_Shr P n : 0 <= n -> over P -> over (fst (Shr P n)) /\ over (snd (Shr P n)).
Proof.
  intros Hn. induction P as [|p P IH]; [intros _; split; apply over_nil|]. rewrite over_cons. intros [[Hc Hv] HP].
  destruct (IH HP) as [H1 H2]. rewrite Shr_cons. cbn [fst snd].
  destruct (Monomial_Shr_spec p n Hn) as (Heq & Hb & Hs & Hv1 & Hv2). pose proof (two_power_pos n Hn).
  assert (0 <= coefficient (snd (Monomial_Shr p n)) /\ 0 <= coefficient (fst (Monomial_Shr p n))) as [Hr Hq].
  { destruct (decide (coefficient p = 0)) as [Hz|Hz]; [rewrite Hz in Heq; assert (coefficient (fst (Monomial_Shr p n)) = 0) by nia; split; nia|].
    assert (0 <= coefficient (snd (Monomial_Shr p n))) by nia. split; [done|]. nia. }
  split; destruct (negb _); rewrite ?over_cons; rewrite ?Hv1, ?Hv2; auto.
Qed.

End Over.

Lemma over_impl {V} (R R' : V -> Prop) P : (forall v, R v -> R' v) -> over R P -> over R' P.
Proof. intros Hi [H1 H2]. split; [done|]. eapply Forall_impl; [exact H2|]. intros p Hp. eapply Forall_impl; [exact Hp|exact Hi]. Qed.

Lemma over_vars {V} (R : V -> Prop) P : over R P -> Forall R (P ≫= vars).
Proof.
  intros [_ Hv]. induction Hv as [|p P Hp _ IH]; cbn; [constructor|]. by apply Forall_app.
Qed.

(** Accesses of limbs, compared by all their fields *)
Abbreviation access_over R := (over (V := AccessId.t) R).

(** ** Ranges *)

Section Ranges.
Context {V : Type} `{!Comparable V, !CmpLaws V} (wd : V -> Z).
Implicit Types (p q : Monomial V) (P Q : list (Monomial V)) (env : V -> Z).

(** The largest value of a variable *)
Definition top (v : V) : Z := 2 ^ wd v - 1.

Definition sized (v : V) : Prop := 0 <= wd v < 2 ^ 62.

Definition fits env (v : V) : Prop := 0 <= env v < 2 ^ wd v.

Definition fin (lo hi : Z) : Interval.t := Interval.mk (InfInt.SetInt lo) (InfInt.SetInt hi).

Lemma Mul_fin a b d : 0 <= a <= b -> 0 <= d -> Interval.Mul (fin a b) (fin 0 d) = fin 0 (b * d).
Proof.
  intros Hab Hd. unfold Interval.Mul, fin, InfInt.Min, InfInt.Max, InfInt.Set_, InfInt.Mul, InfInt.SetInt. cbn -[Z.mul]. rewrite !Z.mul_0_r.
  assert (0 <= a * d <= b * d) as H by nia. IntervalFacts.bound_cases; cbn -[Z.mul] in *; f_equal; f_equal; lia.
Qed.

Lemma range_register v : sized v -> IntegerRangeOfRegister wd v = Ok (fin 0 (top v)).
Proof.
  intros [H1 H2]. unfold IntegerRangeOfRegister, Interval.NewInterval, Pow.Pow2, top.
  destruct (Z.ltb_spec (wd v) (2 ^ 63)); [|lia]. pose proof (two_power_pos (wd v) H1). destruct (Z.gtb_spec 0 (2 ^ wd v - 1)); [lia|done].
Qed.

Lemma top_nonneg v : sized v -> 0 <= top v.
Proof. intros [H1 _]. unfold top. pose proof (two_power_pos (wd v) H1). lia. Qed.


Lemma range_vars vs : Forall sized vs -> forall lo c, 0 <= lo <= c ->
  exists lo', foldl (fun intRange v => r ← intRange; i ← IntegerRangeOfRegister wd v; Ok (Interval.Mul r i)) (Ok (fin lo c)) vs
    = Ok (fin lo' (foldl (fun acc v => acc * top v) c vs)) /\ 0 <= lo' <= foldl (fun acc v => acc * top v) c vs.
Proof.
  induction 1 as [|v vs Hv _ IH]; intros lo c Hlo; cbn [foldl]; [by exists lo|]. cbn [mbind result_bind].
  pose proof (top_nonneg v Hv). rewrite range_register by done. cbn [mbind result_bind]. rewrite Mul_fin by done. apply IH. nia.
Qed.

Lemma range_monomial p : 0 <= coefficient p -> Forall sized (vars p) ->
  exists lo, IntegerRangeOfMonomial wd p = Ok (fin lo (evalTerm p top)) /\ 0 <= lo <= evalTerm p top.
Proof.
  intros Hc Hv. unfold IntegerRangeOfMonomial, Interval.NewInterval, evalTerm. destruct (Z.gtb_spec (coefficient p) (coefficient p)); [lia|].
  apply range_vars; [done|lia].
Qed.

Lemma range_polynomial P : over sized P -> exists lo, IntegerRangeOfPolynomial wd P = Ok (fin lo (Eval P top)) /\ 0 <= lo <= Eval P top.
Proof.
  intros HP. unfold IntegerRangeOfPolynomial, Eval.
  enough (forall lo c, 0 <= lo <= c -> exists lo', foldl (fun intRange mono => r ← intRange; i ← IntegerRangeOfMonomial wd mono; Ok (Interval.Add r i)) (Ok (fin lo c)) P
    = Ok (fin lo' (foldl (fun val ith => val + evalTerm ith top) c P)) /\ 0 <= lo' <= foldl (fun val ith => val + evalTerm ith top) c P) as H by (apply H; lia).
  induction P as [|p P IH]; intros lo c Hlo; cbn [foldl]; [by exists lo|]. apply over_cons in HP as [[Hc Hv] HP]. cbn [mbind result_bind].
  destruct (range_monomial p Hc Hv) as (l & -> & Hl). cbn [mbind result_bind].
  change (Interval.Add (fin lo c) (fin l (evalTerm p top))) with (fin (lo + l) (c + evalTerm p top)). apply IH; [done|lia].
Qed.

(** The width is the number of bits of the largest value. *)
Lemma width_of_range_fin lo hi : 0 <= lo -> width_of_range (fin lo hi) = Ok (BitLen hi, false).
Proof. intros Hlo. unfold width_of_range. cbn. by destruct (Z.ltb_spec lo 0); [lia|]. Qed.

Lemma WidthOfPolynomial_top P : over sized P -> WidthOfPolynomial wd P = Ok (BitLen (Eval P top), false).
Proof.
  intros HP. unfold WidthOfPolynomial, RawWidthOfPolynomial. destruct (range_polynomial P HP) as (lo & -> & Hlo). cbn [mbind result_bind].
  by rewrite width_of_range_fin by lia.
Qed.

Lemma WidthOfMonomial_top p : 0 <= coefficient p -> Forall sized (vars p) -> WidthOfMonomial wd p = Ok (BitLen (evalTerm p top), false).
Proof.
  intros Hc Hv. unfold WidthOfMonomial. destruct (range_monomial p Hc Hv) as (lo & -> & Hlo). cbn [mbind result_bind].
  by rewrite width_of_range_fin by lia.
Qed.

Lemma BitLen_nonneg z : 0 <= BitLen z.
Proof. unfold BitLen. destruct (_ =? _); [lia|]. pose proof (Z.log2_nonneg (Z.abs z)). lia. Qed.

Lemma BitLen_bound z : 0 <= z -> z < 2 ^ BitLen z.
Proof. intros Hz. pose proof (proj1 (IntervalFacts.BitLen_le z (BitLen z) (BitLen_nonneg z)) ltac:(lia)). lia. Qed.

(** ** Values *)

Lemma Eval_cons p P env : Eval (p :: P) env = evalTerm p env + Eval P env.
Proof. rewrite !Eval_total, total_cons, evalTerm_value. lia. Qed.

Lemma Eval_nil env : Eval ([] : list (Monomial V)) env = 0.
Proof. done. Qed.

Lemma vars_value_mono env env' vs : Forall (fun v => 0 <= env v <= env' v) vs -> 0 <= vars_value env vs <= vars_value env' vs.
Proof.
  induction 1 as [|v vs Hv _ IH]; cbn [vars_value foldr]; [lia|]. fold (vars_value env vs) (vars_value env' vs). nia.
Qed.

Lemma Eval_mono env env' P : over (fun v => 0 <= env v <= env' v) P -> 0 <= Eval P env <= Eval P env'.
Proof.
  induction P as [|p P IH]; intros HP; [cbn; lia|]. apply over_cons in HP as [[Hc Hv] HP]. rewrite !Eval_cons, !evalTerm_value.
  specialize (IH HP). pose proof (vars_value_mono env env' (vars p) Hv). nia.
Qed.

Lemma Eval_width env P : over sized P -> over (fits env) P -> 0 <= Eval P env < 2 ^ BitLen (Eval P top).
Proof.
  intros Hs Hf. assert (over (fun v => 0 <= env v <= top v) P) as H%Eval_mono.
  { eapply over_impl; [|exact Hf]. unfold fits, top. intros v. lia. }
  pose proof (BitLen_bound (Eval P top) ltac:(lia)). lia.
Qed.

End Ranges.

(** ** Values of the operations *)

Section Values.
Context {V : Type} `{!Comparable V, !CmpLaws V}.
Implicit Types (p q : Monomial V) (P Q : list (Monomial V)) (env : V -> Z).

Lemma Eval_add_terms P Q env : Eval (add_terms P Q) env = Eval P env + Eval Q env.
Proof. rewrite !Eval_total. apply add_terms_total. Qed.

Lemma Eval_Add P Q env : Eval (Add P Q) env = Eval P env + Eval Q env.
Proof. apply Eval_add_terms. Qed.

Lemma Eval_Set P env : Eval (Set_ P) env = Eval P env.
Proof. unfold Set_. rewrite Eval_add_terms. done. Qed.

Lemma Eval_Sub P Q env : Eval (Sub P Q) env = Eval P env - Eval Q env.
Proof.
  unfold Sub. rewrite foldl_SubTerm, Eval_add_terms, !(Eval_total Q), (Eval_total (map _ _)).
  rewrite (total_map _ Neg (-1)); [lia|]. intros p. cbn [Neg coefficient vars]. lia.
Qed.

Lemma Eval_single c vs env : Eval (Set_ [NewMonomial c vs]) env = c * vars_value env vs.
Proof.
  rewrite Eval_Set, Eval_cons, Eval_nil, evalTerm_value. rewrite (proj2 (NewMonomial_vars c vs)). cbn [coefficient NewMonomial]. lia.
Qed.

Lemma Eval_variable v env : Eval (variable v) env = env v.
Proof. unfold variable. rewrite Eval_single. cbn. lia. Qed.

Lemma Eval_Shr P n env : 0 <= n -> Eval P env = 2 ^ n * Eval (fst (Shr P n)) env + Eval (snd (Shr P n)) env.
Proof. intros Hn. rewrite !Eval_total. by apply Shr_total. Qed.

(** *** Substitution *)

Context (mapping : V -> option (list (Monomial V))).

Definition replaced env (v : V) : Z := (Eval (default (variable v) (mapping v)) env).

Lemma Eval_SubstituteMonomial p env : Eval (SubstituteMonomial mapping p) env = evalTerm p (replaced env).
Proof.
  unfold SubstituteMonomial, evalTerm. rewrite <- (Z.mul_1_r (coefficient p)) at 2. 
  assert (Heq : coefficient p * 1 = Eval (Set_ [NewMonomial (coefficient p) []]) env) by (by rewrite Eval_single). rewrite Heq. clear Heq.
  generalize (Set_ [NewMonomial (coefficient p) []] : list (Monomial V)) as P. induction (vars p) as [|v vs IH]; intros P; cbn [foldl]; [done|].
  rewrite IH. by rewrite Mul_Eval.
Qed.

Lemma Eval_foldl_Add P Ps env : Eval (foldl Add P Ps) env = Eval P env + foldr (fun Q acc => Eval Q env + acc) 0 Ps.
Proof. revert P. induction Ps as [|Q Ps IH]; intros P; cbn [foldl foldr]; [lia|]. rewrite IH, Eval_Add. lia. Qed.

Lemma Eval_SubstitutePolynomial P env : Eval (SubstitutePolynomial mapping P) env = Eval P (replaced env).
Proof.
  unfold SubstitutePolynomial. destruct P as [|p P]; [done|]. cbn [map]. rewrite Eval_foldl_Add, Eval_SubstituteMonomial, Eval_cons. f_equal.
  induction P as [|q P IH]; cbn [map foldr]; [done|]. by rewrite Eval_SubstituteMonomial, Eval_cons, IH.
Qed.

Context (R : V -> Prop).

Lemma over_Substitute P :
  positive P -> vars_in (fun v => over R (default (variable v) (mapping v))) P -> over R (SubstitutePolynomial mapping P).
Proof.
  intros Hp Hv. assert (Forall (over R) (map (SubstituteMonomial mapping) P)) as Hall.
  { apply Forall_map, Forall_forall. intros p Hin. pose proof (proj1 (Forall_forall _ _) Hp p Hin) as Hc.
    pose proof (proj1 (Forall_forall _ _) Hv p Hin) as Hvs. cbn in Hc, Hvs. unfold SubstituteMonomial.
    pose proof (over_single R (coefficient p) [] Hc (List.Forall_nil _)) as H0. revert H0. generalize (Set_ [NewMonomial (coefficient p) []] : list (Monomial V)) as P'.
    induction Hvs as [|v vs Hv' _ IH]; intros P' HP'; cbn [foldl]; [done|]. by apply IH, over_Mul. }
  unfold SubstitutePolynomial. destruct Hall as [|r rs Hr Hrs]; [apply over_nil|]. revert r Hr.
  induction Hrs as [|q rs Hq _ IH]; intros r Hr; cbn [foldl]; [done|]. by apply IH, over_Add.
Qed.

End Values.
