(* ===== verification/EquationAlloc.v ===== *)
(** * Allocated registers and their values

    What the allocator keeps true: the assignment of a register only reads registers
    allocated before.  A valuation of the registers extends to every register that is
    allocated, by the values its assignment computes, as long as these fit in the
    widths of the registers. *)

From Stdlib Require Import ZArith Lia String.
From stdpp Require Import base numbers list option strings sets.
From S2P Require Import Prelude Interval Register SortedSet Poly PolyFacts Limbs LimbsFacts Equation EquationTerms.

Open Scope Z_scope.
Open Scope list_scope.

(** ** Values of computed registers ([pkg/ir/assignment/computed_register.go]) *)

(** [fieldWordSplitter.write]: the limbs of a value, unless it is too wide *)
Definition write (widths : list Z) (val : Z) : option (list Z) :=
  if 2 ^ width_sum widths <=? val then None else Some (digits widths val).

Definition widths_at (regs : list Register.t) (i n : nat) : list Z := Register.width <$> take n (drop i regs).

(** The registers [i] to [i + n - 1] hold the limbs of the value of [f] on row [k]. *)
Definition computed (regs : list Register.t) (val : valuation) (i n : nat) (f : Filler) (k : Z) : Prop :=
  write (widths_at regs i n) (EvalAt val k f) = Some ((fun j => val j k) <$> seq i n) /\ 0 <= EvalAt val k f.

Definition filled (a : RegisterAllocator) (val : valuation) : Prop :=
  forall i n f, Allocator.assignments a !! i = Some (Some (n, f)) -> forall k, computed (Allocator.Registers a) val i n f k.

Definition in_range (regs : list Register.t) (val : valuation) : Prop :=
  forall i r, regs !! i = Some r -> forall k, 0 <= val i k < 2 ^ Register.width r.

(** Two valuations agree on the first [n] registers. *)
Definition agree (n : nat) (val val' : valuation) : Prop := forall i, (i < n)%nat -> forall k, val i k = val' i k.

Definition reads (f : Filler) : list nat :=
  match f with PolyFil _ p => AccessId.id <$> (p ≫= vars) | RegisterFil rid _ => [rid] end.

Lemma agree_trans n val val' val'' : agree n val val' -> agree n val' val'' -> agree n val val''.
Proof. intros H1 H2 i Hi k. by rewrite H1, H2. Qed.

Lemma agree_le n m val val' : (m <= n)%nat -> agree n val val' -> agree m val val'.
Proof. intros Hm H i Hi. apply H. lia. Qed.

Lemma foldl_ext_in {A B} (f g : A -> B -> A) l : (forall x, x ∈ l -> forall a, f a x = g a x) -> forall a, foldl f a l = foldl g a l.
Proof. intros H. induction l as [|x l IH]; intros a; cbn; [done|]. rewrite H by set_solver. apply IH. intros y Hy. apply H. set_solver. Qed.

Lemma EvalAt_agree n val val' k f : agree n val val' -> Forall (fun r => (r < n)%nat) (reads f) -> EvalAt val k f = EvalAt val' k f.
Proof.
  intros Ha Hr. destruct f as [rshift p|rid w]; cbn [EvalAt reads] in *; [|by apply Ha, (Forall_inv Hr)].
  assert (EvalPolynomial val k p = EvalPolynomial val' k p) as ->; [|done].
  unfold EvalPolynomial. enough (map (EvalMonomial val k) p = map (EvalMonomial val' k) p) as -> by done.
  apply map_ext_in. intros t Ht%list_elem_of_In. unfold EvalMonomial. apply foldl_ext_in. intros v Hv acc. f_equal. unfold at_row. apply Ha.
  rewrite Forall_fmap, Forall_forall in Hr. apply Hr, list_elem_of_bind. by exists t.
Qed.

(** ** The allocator *)

Record alloc_ok (a : RegisterAllocator) : Prop := {
  alloc_mapping : (Allocator.Mapping a <= length (Allocator.Registers a))%nat;
  alloc_length : length (Allocator.assignments a) = length (Allocator.Registers a);
  alloc_widths : Forall (fun r => 0 <= Register.width r < 2 ^ 62) (Allocator.Registers a);
  alloc_reads : forall i n f, Allocator.assignments a !! i = Some (Some (n, f)) ->
    (i + n <= length (Allocator.Registers a))%nat /\ Forall (fun r => (r < i)%nat) (reads f)
}.

(** The state after the allocation of registers of widths [ws] with one assignment *)
Record allocates (a : RegisterAllocator) (ws : list Z) (f : Filler) (a' : RegisterAllocator) : Prop := {
  allocates_mapping : Allocator.Mapping a' = Allocator.Mapping a;
  allocates_registers : exists l, Allocator.Registers a' = Allocator.Registers a ++ l /\ Register.width <$> l = ws;
  allocates_assignments : Allocator.assignments a' = Allocator.assignments a ++ Some (length ws, f) :: replicate (length ws - 1) None
}.

Lemma AllocateWith_allocates a prefix w f : alloc_ok a ->
  fst (Allocator.AllocateWith a prefix w f) = length (Allocator.Registers a) /\ allocates a [w] f (snd (Allocator.AllocateWith a prefix w f)).
Proof. intros Ha. split; [done|]. split; cbn; [done| |done]. by eexists. Qed.

Lemma AllocateN_spec (a : RegisterAllocator) prefix ws :
  let r := Allocator.AllocateN a prefix ws in
  fst r = seq (length (Allocator.Registers a)) (length ws) /\ Allocator.Mapping (snd r) = Allocator.Mapping a
  /\ (exists l, Allocator.Registers (snd r) = Allocator.Registers a ++ l /\ Register.width <$> l = ws)
  /\ Allocator.assignments (snd r) = Allocator.assignments a ++ replicate (length ws) None.
Proof.
  revert a. induction ws as [|w ws IH]; intros a; cbn; [by rewrite !app_nil_r; split_and!; try exists []; rewrite ?app_nil_r|].
  set (a1 := Allocator.mk _ _ _). specialize (IH a1). destruct (Allocator.AllocateN a1 prefix ws) as [ids a']. cbn in *.
  destruct IH as (-> & -> & (l & -> & Hl) & ->). rewrite length_app, Nat.add_1_r. split; [done|]. split; [done|]. split; [|by rewrite <- app_assoc].
  eexists. rewrite <- app_assoc. split; [reflexivity|]. by rewrite fmap_app, Hl.
Qed.

Lemma AllocateWithN_allocates a prefix f ws : alloc_ok a -> ws <> [] ->
  exists a', Allocator.AllocateWithN a prefix f ws = Ok (seq (length (Allocator.Registers a)) (length ws), a') /\ allocates a ws f a'.
Proof.
  intros Ha Hws. unfold Allocator.AllocateWithN. pose proof (AllocateN_spec a prefix ws) as H.
  destruct (Allocator.AllocateN a prefix ws) as [ids a1]. cbn in H. destruct H as (-> & Hm & Hr & Hs). rewrite Hs.
  destruct ws as [|w ws]; [done|]. cbn [length replicate Nat.eqb]. unfold slice_set. rewrite decide_True by (rewrite length_app; cbn; lia).
  cbn [mbind result_bind]. eexists. split; [done|]. split; cbn; [done|done|].
  rewrite insert_app_r_alt by done. rewrite Nat.sub_diag, Nat.sub_0_r. done.
Qed.

(** ** Extension of valuations *)

Record extends (a a' : RegisterAllocator) : Prop := {
  extends_mapping : Allocator.Mapping a' = Allocator.Mapping a;
  extends_registers : exists l, Allocator.Registers a' = Allocator.Registers a ++ l;
  extends_assignments : exists l, Allocator.assignments a' = Allocator.assignments a ++ l
}.

#[export] Instance extends_preorder : PreOrder extends.
Proof.
  split.
  - intros a. split; [done|exists []; by rewrite app_nil_r..].
  - intros a b c [H1 [l Hl] [m Hm]] [H2 [l' Hl'] [m' Hm']]. split; [congruence|exists (l ++ l')|exists (m ++ m')]; by rewrite app_assoc, <- ?Hl, <- ?Hm.
Qed.

Lemma extends_length a a' : extends a a' -> (length (Allocator.Registers a) <= length (Allocator.Registers a'))%nat.
Proof. intros [_ [l ->] _]. rewrite length_app. lia. Qed.

Lemma extends_lookup a a' i r : extends a a' -> Allocator.Registers a !! i = Some r -> Allocator.Registers a' !! i = Some r.
Proof. intros [_ [l ->] _] Hi. by apply lookup_app_l_Some. Qed.

Lemma extends_in_range a a' val : extends a a' -> in_range (Allocator.Registers a') val -> in_range (Allocator.Registers a) val.
Proof. intros He Hr i r Hi. apply Hr. by eapply extends_lookup. Qed.

Lemma widths_at_app regs l i n : (i + n <= length regs)%nat -> widths_at (regs ++ l) i n = widths_at regs i n.
Proof.
  intros H. unfold widths_at. rewrite drop_app_le by lia. rewrite take_app_le by (rewrite length_drop; lia). done.
Qed.

Lemma extends_filled a a' val : alloc_ok a -> extends a a' -> filled a' val -> filled a val.
Proof.
  intros Ha [_ [l Hl] [m Hm]] Hf i n f Hi k. specialize (Hf i n f). rewrite Hm in Hf. specialize (Hf (lookup_app_l_Some _ _ _ _ Hi) k).
  unfold computed in *. rewrite Hl in Hf. by rewrite widths_at_app in Hf by (by eapply alloc_reads).
Qed.

Lemma filled_agree a val val' : alloc_ok a -> agree (length (Allocator.Registers a)) val val' -> filled a val -> filled a val'.
Proof.
  intros Ha Hag Hf i n f Hi k. specialize (Hf i n f Hi k). destruct (alloc_reads a Ha i n f Hi) as [Hle Hr]. unfold computed in *.
  rewrite <- (EvalAt_agree (length (Allocator.Registers a)) val val') by (done || (eapply Forall_impl; [exact Hr|]; cbn; lia)).
  destruct Hf as [-> ?]. split; [|done]. f_equal. apply list_fmap_ext. intros j x Hx. apply lookup_seq in Hx as [-> ?]. apply Hag. lia.
Qed.

(** [good] is a property of the values of the first [n0] registers. *)
Section Fillable.
Context (good : valuation -> Prop) (n0 : nat) (good_agree : forall val val', agree n0 val val' -> good val -> good val').

(** Every good valuation extends to the new registers. *)
Definition fillable (a a' : RegisterAllocator) : Prop := forall val,
  good val -> in_range (Allocator.Registers a) val -> filled a val ->
  exists val', agree (length (Allocator.Registers a)) val val' /\ in_range (Allocator.Registers a') val' /\ filled a' val'.

Record steps (a a' : RegisterAllocator) : Prop := {
  steps_extends : extends a a';
  steps_ok : alloc_ok a';
  steps_fillable : fillable a a'
}.

Lemma steps_refl a : alloc_ok a -> steps a a.
Proof. intros Ha. split; [done|done|]. intros val Hg Hr Hf. by exists val. Qed.

Lemma steps_trans a b c : (n0 <= length (Allocator.Registers a))%nat -> steps a b -> steps b c -> steps a c.
Proof.
  intros Hn [H1 H2 H3] [H4 H5 H6]. split; [by etrans|done|]. intros val Hg Hr Hf.
  destruct (H3 val Hg Hr Hf) as (v1 & Hag & Hr1 & Hf1).
  destruct (H6 v1) as (v2 & Hag2 & Hr2 & Hf2); [|done|done|].
  { eapply good_agree; [|exact Hg]. by eapply agree_le. }
  exists v2. split; [|done]. eapply agree_trans; [exact Hag|]. eapply agree_le; [|exact Hag2]. by apply extends_length.
Qed.

(** The new registers hold the limbs of the value that is assigned. *)
Definition extend_val (m : nat) (ws : list Z) (f : Filler) (val : valuation) : valuation := fun i k =>
  if (i <? m)%nat then val i k else default 0 (digits ws (EvalAt val k f) !! (i - m)%nat).

Lemma extend_val_agree m ws f val : agree m val (extend_val m ws f val).
Proof. intros i Hi k. unfold extend_val. by rewrite (proj2 (Nat.ltb_lt i m) Hi). Qed.

Lemma extend_val_new m ws f val k : (fun j => extend_val m ws f val j k) <$> seq m (length ws) = digits ws (EvalAt val k f).
Proof.
  apply list_eq. intros j. rewrite list_lookup_fmap. destruct (decide (j < length ws)%nat) as [Hj|Hj].
  - rewrite lookup_seq_lt by done. cbn. unfold extend_val. destruct (Nat.ltb_spec (m + j) m); [lia|]. replace (m + j - m)%nat with j by lia.
    destruct (lookup_lt_is_Some_2 (digits ws (EvalAt val k f)) j) as [x ->]; [by rewrite digits_length|done].
  - rewrite lookup_seq_ge by lia. cbn. symmetry. apply lookup_ge_None. rewrite digits_length. lia.
Qed.

Lemma allocates_steps a ws f a' :
  alloc_ok a -> allocates a ws f a' -> ws <> [] -> Forall (fun w => 0 <= w < 2 ^ 62) ws ->
  Forall (fun r => (r < length (Allocator.Registers a))%nat) (reads f) ->
  (forall val, good val -> in_range (Allocator.Registers a) val -> filled a val -> forall k, 0 <= EvalAt val k f < 2 ^ width_sum ws) ->
  steps a a'.
Proof.
  intros Ha [Hm (l & Hl & Hw) Hs] Hne Hws Hreads Hbound. set (m := length (Allocator.Registers a)) in *.
  assert (Hlen : length l = length ws) by (by rewrite <- Hw, length_fmap).
  assert (Hnew : widths_at (Allocator.Registers a') m (length ws) = ws).
  { unfold widths_at, m. rewrite Hl, drop_app_length, <- Hlen, firstn_all. done. }
  assert (Hext : extends a a') by (split; [done|by exists l|by eexists]).
  assert (Hcase : forall i n g, Allocator.assignments a' !! i = Some (Some (n, g)) ->
    Allocator.assignments a !! i = Some (Some (n, g)) \/ i = m /\ n = length ws /\ g = f).
  { intros i n g. rewrite Hs, lookup_app_Some. intros [Hi|[Hge Hi]]; [by left|]. rewrite (alloc_length a Ha) in *. fold m in Hge, Hi.
    destruct (i - m)%nat as [|j] eqn:Hj; cbn in Hi.
    - injection Hi as <- <-. right. split; [lia|done].
    - apply lookup_replicate in Hi as [? _]. done. }
  assert (Hok : alloc_ok a').
  { split.
    - rewrite Hm, Hl, length_app. pose proof (alloc_mapping a Ha). lia.
    - rewrite Hs, Hl, !length_app. cbn. rewrite length_replicate, (alloc_length a Ha). destruct ws; cbn in *; [done|lia].
    - rewrite Hl. apply Forall_app. split; [apply alloc_widths; done|]. rewrite <- Hw in Hws. by apply Forall_fmap in Hws.
    - intros i n g Hi. destruct (Hcase i n g Hi) as [Hi'|(-> & -> & ->)].
      + destruct (alloc_reads a Ha i n g Hi') as [? ?]. split; [|done]. rewrite Hl, length_app. lia.
      + split; [|done]. rewrite Hl, length_app. fold m. lia. }
  split; [done|done|]. intros val Hg Hr Hf. exists (extend_val m ws f val). pose proof (extend_val_agree m ws f val) as Hag.
  pose proof (Hbound val Hg Hr Hf) as Hb. split; [done|]. split.
  - intros i r Hi k. rewrite Hl, lookup_app_Some in Hi. destruct Hi as [Hi|[Hge Hi]].
    + rewrite <- Hag by (by apply lookup_lt_Some in Hi). by apply Hr.
    + fold m in Hge, Hi. unfold extend_val. destruct (Nat.ltb_spec i m); [lia|].
      assert (ws !! (i - m)%nat = Some (Register.width r)) as Hwi by (by rewrite <- Hw, list_lookup_fmap, Hi).
      destruct (Forall2_lookup_l _ _ _ _ _ (digits_bound ws (EvalAt val k f) (Forall_impl _ _ _ Hws (fun w H => proj1 H))) Hwi) as (d & -> & Hd). done.
  - intros i n g Hi k. destruct (Hcase i n g Hi) as [Hi'|(-> & -> & ->)].
    + pose proof (filled_agree a val _ Ha Hag Hf i n g Hi' k) as Hc. unfold computed in *. rewrite Hl, widths_at_app; [done|]. by eapply alloc_reads.
    + unfold computed, write. rewrite Hnew, extend_val_new, <- (EvalAt_agree m val _ k f Hag Hreads).
      destruct (Z.leb_spec (2 ^ width_sum ws) (EvalAt val k f)); [specialize (Hb k); lia|]. split; [done|]. apply Hb.
Qed.

End Fillable.
