(* ===== verification/EquationVars.v ===== *)
(** * Splitting of variables into limbs

    Splitting a variable allocates its limbs and makes the equation between them;
    where the equations of the splitter hold, replacing the variables by their limbs
    keeps the value of a polynomial. *)

From Stdlib Require Import ZArith Lia String.
From stdpp Require Import base numbers list option strings sets.
From S2P Require Import Prelude Interval Register SortedSet Poly PolyFacts Limbs LimbsFacts Equation EquationTerms EquationAlloc.
From S2P Require BitSet.
Import Equation.

Open Scope Z_scope.
Open Scope list_scope.

(** ** Accesses of existing registers *)

Definition access_ok (regs : list Register.t) (v : AccessId.t) : Prop :=
  exists r, regs !! AccessId.id v = Some r /\ AccessId.bitwidth v = Register.width r
    /\ 0 <= AccessId.maskwidth v <= AccessId.bitwidth v /\ AccessId.bitwidth v < 2 ^ 62.

(** The value of an access on row [k] is within its mask. *)
Definition masked (val : valuation) (k : Z) : AccessId.t -> Prop := fits DynamicEnvironment (at_row val k).

Definition holds (val : valuation) (k : Z) (e : Equation.t) : Prop :=
  (Eval (LeftHandSide e) (at_row val k) = Eval (RightHandSide e) (at_row val k)).

Definition equation_in (R : AccessId.t -> Prop) (e : Equation.t) : Prop := vars_in R (LeftHandSide e) /\ vars_in R (RightHandSide e).

Lemma access_sized regs v : access_ok regs v -> sized DynamicEnvironment v.
Proof. intros (r & _ & _ & Hm). unfold sized, DynamicEnvironment. lia. Qed.

Lemma access_app regs l v : access_ok regs v -> access_ok (regs ++ l) v.
Proof. intros (r & Hr & H). exists r. split; [by apply lookup_app_l_Some|done]. Qed.

Lemma access_extends a a' v : extends a a' -> access_ok (Allocator.Registers a) v -> access_ok (Allocator.Registers a') v.
Proof. intros [_ [l ->] _]. apply access_app. Qed.

Lemma access_lt regs v : access_ok regs v -> (AccessId.id v < length regs)%nat.
Proof. intros (r & Hr & _). by apply lookup_lt_Some in Hr. Qed.

Lemma vars_in_impl {V} (R R' : V -> Prop) P : (forall v, R v -> R' v) -> vars_in R P -> vars_in R' P.
Proof. intros Hi H. eapply Forall_impl; [exact H|]. intros p Hp. eapply Forall_impl; [exact Hp|exact Hi]. Qed.

Lemma over_and {V} (R R' : V -> Prop) P : over R P -> over R' P -> over (fun v => R v /\ R' v) P.
Proof.
  intros [H1 H2] [_ H3]. split; [done|]. unfold vars_in in *. rewrite Forall_forall in *. intros p Hp. apply Forall_and. auto.
Qed.

Lemma whole_access_ok regs rid r : regs !! rid = Some r -> 0 <= Register.width r < 2 ^ 62 -> access_ok regs (AccessId.AccessOf rid (Register.width r)).
Proof. intros Hr Hw. exists r. cbn. split; [done|]. split; [done|lia]. Qed.

Lemma over_term {V} `{!Comparable V} (R : V -> Prop) c vs P : 0 <= c -> Forall R vs -> over R P -> over R (NewMonomial c vs :: P).
Proof. intros Hc Hvs HP. apply over_cons. split; [|done]. split; [done|]. cbn. by rewrite SortFunc_Permutation. Qed.

Lemma Eval_term {V} `{!Comparable V, !CmpLaws V} c vs P (env : V -> Z) : Eval (NewMonomial c vs :: P) env = c * vars_value env vs + Eval P env.
Proof. rewrite Eval_cons, evalTerm_value. cbn [NewMonomial coefficient vars]. by rewrite SortFunc_Permutation. Qed.

(** A value on positive terms does not lose the signs of the coefficients. *)
Lemma EvalPolynomial_Eval val k P : positive P -> EvalPolynomial val k P = Eval P (at_row val k).
Proof.
  intros HP. unfold EvalPolynomial. assert (map (EvalMonomial val k) P = map (fun p => evalTerm p (at_row val k)) P) as ->.
  { apply map_ext_in. intros p Hp%list_elem_of_In. unfold positive in HP. rewrite Forall_forall in HP. specialize (HP p Hp). cbn in HP.
    unfold EvalMonomial, evalTerm. by rewrite Z.abs_eq. }
  destruct P as [|p P]; [done|]. cbn [map]. rewrite Eval_cons. clear HP. revert p.
  enough (forall c, foldl Z.add c (map (fun p => evalTerm p (at_row val k)) P) = c + Eval P (at_row val k)) as H by (intros p; apply H).
  induction P as [|q P IH]; intros c; cbn [map foldl]; [cbn; lia|]. rewrite IH, Eval_cons. lia.
Qed.

(** ** The polynomial of the limbs *)

(** Registers [ids] of widths [ws] *)
Definition limb_registers (regs : list Register.t) (ids : list nat) (ws : list Z) : Prop :=
  Forall2 (fun i w => exists r, regs !! i = Some r /\ Register.width r = w /\ 0 <= w < 2 ^ 62) ids ws.

Lemma limb_widths_ok regs ids ws : limb_registers regs ids ws -> widths_ok ws.
Proof. intros H. induction H as [|i w ids ws (r & _ & _ & Hw) _ IH]; constructor; [lia|done]. Qed.

Lemma limb_values regs ids ws val k : limb_registers regs ids ws -> in_range regs val ->
  Forall2 (fun w v => 0 <= v < 2 ^ w) ws ((fun i => val i k) <$> ids).
Proof. intros H Hr. induction H as [|i w ids ws (r & Hi & <- & _) _ IH]; cbn; constructor; [by apply Hr|done]. Qed.

Lemma limb_app regs l ids ws : limb_registers regs ids ws -> limb_registers (regs ++ l) ids ws.
Proof. intros H. eapply Forall2_impl; [exact H|]. intros i w (r & Hi & Hw). exists r. split; [by apply lookup_app_l_Some|done]. Qed.

(** What the terms of the limbs are worth *)
Definition limbs_worth (regs : list Register.t) (m s scale : Z) (ids : list nat) (ws : list Z) (P : DynamicPolynomial) : Prop :=
  over (access_ok regs) P /\
  forall val k, in_range regs val -> let v := digits_value ws ((fun i => val i (k + s)) <$> ids) in v < 2 ^ m ->
    Eval P (at_row val k) = scale * v /\ over (masked val k) P.

Lemma masked_value m w d r : 0 <= m -> 0 <= w -> 0 <= d < 2 ^ w -> 0 <= r -> d + 2 ^ w * r < 2 ^ m ->
  d < 2 ^ Z.min m w /\ r < 2 ^ (m - Z.min m w) /\ (m < w -> r = 0).
Proof.
  intros Hm Hw Hd Hr Ht. pose proof (two_power_pos m Hm). pose proof (two_power_pos w Hw). destruct (Z.le_gt_cases w m) as [Hle|Hgt].
  - rewrite Z.min_r by done. assert (2 ^ m = 2 ^ w * 2 ^ (m - w)) as Heq by (rewrite <- Z.pow_add_r by lia; f_equal; lia).
    split; [lia|]. split; [|lia]. nia.
  - rewrite Z.min_l by lia. assert (2 ^ m < 2 ^ w) by (apply Z.pow_lt_mono_r; lia). assert (r = 0) as -> by nia.
    rewrite Z.sub_diag. split; [lia|]. split; [lia|done].
Qed.

Lemma limb_terms_spec regs s ids ws : limb_registers regs ids ws -> forall m width, 0 <= m -> 0 <= width -> m + width < 2 ^ 62 ->
  exists T, limb_terms m s width ids ws = Ok T /\ limbs_worth regs m s (2 ^ width) ids ws T.
Proof.
  induction 1 as [|i w ids ws (r & Hi & Hw & Hb) Hids IH]; intros m width Hm Hwd Hlt; cbn [limb_terms].
  { exists []. split; [done|]. split; [apply over_nil|]. intros val k _ v _. subst v. cbn. split; [lia|apply over_nil]. }
  pose proof (limb_widths_ok _ _ _ Hids) as Hpos. destruct (Z.ltb_spec 0 (Z.min m w)) as [Hmin|Hmin].
  - destruct (IH (m - Z.min m w) (width + Z.min m w)) as (T & HT & HTo & HTv); [lia..|].
    unfold AccessId.Mask. cbn [AccessId.Shift AccessId.AccessOf AccessId.bitwidth AccessId.id AccessId.shift].
    destruct (Z.ltb_spec w (Z.min m w)); [lia|]. cbn [mbind result_bind]. rewrite HT. cbn [mbind result_bind]. eexists. split; [done|].
    unfold Pow.Pow2. destruct (Z.ltb_spec width (2 ^ 63)); [|lia]. pose proof (two_power_pos width Hwd). split.
    + apply over_term; [lia| |done]. apply Forall_singleton. exists r. cbn. split; [done|]. split; [by rewrite Hw|lia].
    + intros val k Hr. cbn [fmap list_fmap digits_value] in *. cbn zeta. intros Ht.
      set (d := val i (k + s)) in *. fold ((fun i => val i (k + s)) <$> ids) in Ht |- *.
      assert (0 <= d < 2 ^ w) as Hd by (rewrite <- Hw; by apply Hr).
      pose proof (digits_value_bound ws _ Hpos (limb_values regs ids ws val (k + s) Hids Hr)) as Hrest.
      set (rest := digits_value ws _) in *. destruct (masked_value m w d rest Hm ltac:(lia) Hd ltac:(lia) Ht) as (Hm1 & Hm2 & Hm3).
      destruct (HTv val k Hr Hm2) as [Hev Hmk]. fold rest in Hev. rewrite Eval_term, Hev.
      cbn [vars_value foldr]. unfold at_row at 1. cbn [AccessId.id AccessId.shift]. rewrite (Z.add_0_l s). fold d. split.
      * rewrite Z.pow_add_r by lia. destruct (Z.le_gt_cases w m) as [Hle|Hgt]; [rewrite Z.min_r by done; ring|]. rewrite (Hm3 Hgt). ring.
      * apply over_term; [lia| |done]. apply Forall_singleton. unfold masked, fits, DynamicEnvironment, at_row. cbn. fold d. lia.
  - destruct (IH (m - Z.min m w) width) as (T & HT & HTo & HTv); [lia..|]. exists T. split; [done|]. split; [done|].
    intros val k Hr. cbn [fmap list_fmap digits_value]. cbn zeta in *. fold ((fun i => val i (k + s)) <$> ids). intros Ht.
    set (d := val i (k + s)) in *. assert (0 <= d < 2 ^ w) as Hd by (rewrite <- Hw; by apply Hr).
    pose proof (digits_value_bound ws _ Hpos (limb_values regs ids ws val (k + s) Hids Hr)) as Hrest.
    set (rest := digits_value ws _) in *. destruct (masked_value m w d rest Hm ltac:(lia) Hd ltac:(lia) Ht) as (Hm1 & Hm2 & Hm3).
    destruct (HTv val k Hr Hm2) as [Hev Hmk]. split; [|done]. rewrite Hev. fold rest. assert (Hmw : w = 0 \/ m < w) by lia. replace (Z.min m w) with 0 in * by lia. cbn in Hm1.
    assert (d = 0) as -> by lia.
    destruct Hmw as [->|Hmw]; [rewrite Z.pow_0_r; ring|]. rewrite (Hm3 Hmw). ring.
Qed.

Lemma LimbPolynomial_spec regs m s ids ws : limb_registers regs ids ws -> 0 <= m < 2 ^ 62 ->
  exists P, LimbPolynomial m s ids ws = Ok P /\ limbs_worth regs m s 1 ids ws P.
Proof.
  intros Hids Hm. destruct (limb_terms_spec regs s ids ws Hids m 0) as (T & HT & Ho & Hv); [lia..|].
  unfold LimbPolynomial. rewrite HT. eexists. split; [done|]. split; [by apply over_Set|]. intros val k Hr v Ht.
  destruct (Hv val k Hr Ht) as [Hev Hmk]. rewrite Eval_Set. split; [done|]. by apply over_Set.
Qed.

(** ** The splitter *)

(** The variable [rid] is split into the limbs [ids] of widths [ws]. *)
Definition split_of (s : Splitter.t) (rid : nat) (ids : list nat) (ws : list Z) : Prop :=
  Splitter.limbs s !! rid = Some (Some ids) /\ Splitter.limbWidths s !! rid = Some ws.

Record splitter_ok (s : Splitter.t) : Prop := {
  splitter_alloc : alloc_ok (Splitter.mapping s);
  splitter_width : 1 <= Splitter.bitwidth s < 2 ^ 62;
  splitter_length : length (Splitter.limbs s) = length (Splitter.limbWidths s);
  splitter_limbs : forall rid ids ws, split_of s rid ids ws -> limb_registers (Allocator.Registers (Splitter.mapping s)) ids ws
}.

(** Every split variable has the value of its limbs. *)
Definition splits (s : Splitter.t) (val : valuation) : Prop :=
  forall rid ids ws, split_of s rid ids ws -> forall k, val rid k = digits_value ws ((fun i => val i k) <$> ids).

Lemma grow_arrays_lookup {A} (d : A) l rid i x : Splitter.grow d l rid !! i = Some x -> l !! i = Some x \/ x = d /\ (length l <= i)%nat.
Proof.
  unfold Splitter.grow. destruct (Nat.leb_spec (length l) rid); [|by left]. rewrite lookup_app_Some. intros [?|[? Hx]]; [by left|].
  right. apply lookup_replicate in Hx as [-> ?]. done.
Qed.

Lemma grow_arrays_length {A} (d : A) l rid : (rid < length (Splitter.grow d l rid))%nat.
Proof. unfold Splitter.grow. destruct (Nat.leb_spec (length l) rid); [|lia]. rewrite length_app, length_replicate. lia. Qed.

Lemma grow_same_length {A B} (d : A) (e : B) l k rid : length l = length k -> length (Splitter.grow d l rid) = length (Splitter.grow e k rid).
Proof. unfold Splitter.grow. intros Hl. rewrite Hl. destruct (_ <=? _)%nat; [|done]. rewrite !length_app, !length_replicate. lia. Qed.

(** Whatever is split after one more variable was split before, or is that variable. *)
Lemma split_of_insert s m rid ids ws rid' ids' ws' :
  length (Splitter.limbs s) = length (Splitter.limbWidths s) ->
  split_of (Splitter.mk m (Splitter.bitwidth s) (<[rid := Some ids]> (Splitter.grow None (Splitter.limbs s) rid))
    (<[rid := ws]> (Splitter.grow [] (Splitter.limbWidths s) rid))) rid' ids' ws' ->
  rid' = rid /\ ids' = ids /\ ws' = ws \/ split_of s rid' ids' ws'.
Proof.
  intros Hlen [H1 H2]. cbn [Splitter.limbs Splitter.limbWidths] in H1, H2. destruct (decide (rid' = rid)) as [->|Hne].
  - rewrite list_lookup_insert_eq in H1 by apply grow_arrays_length. rewrite list_lookup_insert_eq in H2 by apply grow_arrays_length. left. by simplify_eq.
  - rewrite list_lookup_insert_ne in H1 by done. rewrite list_lookup_insert_ne in H2 by done. right. apply grow_arrays_lookup in H1 as [H1|[? _]]; [|done].
    apply grow_arrays_lookup in H2 as [H2|[_ ?]]; [done|]. apply lookup_lt_Some in H1. lia.
Qed.

Lemma allocates_limbs a ws f a' : allocates a ws f a' -> Forall (fun w => 0 <= w < 2 ^ 62) ws ->
  limb_registers (Allocator.Registers a') (seq (length (Allocator.Registers a)) (length ws)) ws.
Proof.
  intros [_ (l & Hl & Hw) _] Hws. rewrite Hl. unfold limb_registers. apply Forall2_same_length_lookup.
  split; [by rewrite length_seq|]. intros j i w Hj Hi. apply lookup_seq in Hj as [-> Hlt].
  rewrite <- Hw, list_lookup_fmap in Hi. destruct (l !! j) as [r|] eqn:Hr; [|done]. injection Hi as <-. exists r.
  rewrite lookup_app_r by lia. replace (_ + j - _)%nat with j by lia. split; [done|]. split; [done|].
  rewrite <- Hw in Hws. apply Forall_fmap in Hws. exact (Forall_lookup_1 _ _ _ _ Hws Hr).
Qed.

Lemma allocates_filled a ws f a' val : alloc_ok a -> allocates a ws f a' -> filled a' val -> forall k,
  write ws (EvalAt val k f) = Some ((fun j => val j k) <$> seq (length (Allocator.Registers a)) (length ws)) /\ 0 <= EvalAt val k f.
Proof.
  intros Ha [_ (l & Hl & Hw) Hs] Hf k. specialize (Hf (length (Allocator.Registers a)) (length ws) f).
  rewrite Hs, <- (alloc_length a Ha), list_lookup_middle in Hf by done. specialize (Hf eq_refl k). unfold computed in Hf.
  replace (widths_at _ _ _) with ws in Hf; [by rewrite (alloc_length a Ha) in Hf|].
  unfold widths_at. rewrite Hl, (alloc_length a Ha), drop_app_length, <- Hw, length_fmap, firstn_all. done.
Qed.

(** The sides of an equation that are closer than the width of some register of [src] *)
Definition context_bound (src : nat -> Prop) (regs : list Register.t) (e : Equation.t) : Prop :=
  exists rid reg, src rid /\ regs !! rid = Some reg /\ forall val k, in_range regs val ->
    Z.abs (Eval (LeftHandSide e) (at_row val k) - Eval (RightHandSide e) (at_row val k)) < 2 ^ Register.width reg.

Lemma context_bound_extends (src src' : nat -> Prop) a a' e : extends a a' -> (forall rid, src rid -> src' rid) ->
  context_bound src (Allocator.Registers a) e -> context_bound src' (Allocator.Registers a') e.
Proof.
  intros He Hsrc (rid & reg & Hs & Hr & Hb). exists rid, reg. split; [by apply Hsrc|]. split; [by eapply extends_lookup|].
  intros val k Hir. apply Hb. by eapply extends_in_range.
Qed.

Section Splitting.
Context (good : valuation -> Prop) (n0 : nat) (good_agree : forall val val', agree n0 val val' -> good val -> good val').
Context (src : nat -> Prop).

(** The result of splitting variables: the equations hold exactly where the variables
    have the values of their limbs, and the assigned values make them hold. *)
Record split_result (s : Splitter.t) (es : list Equation.t) (s' : Splitter.t) : Prop := {
  result_ok : splitter_ok s';
  result_width : Splitter.bitwidth s' = Splitter.bitwidth s;
  result_steps : steps good (Splitter.mapping s) (Splitter.mapping s');
  result_in : Forall (equation_in (access_ok (Allocator.Registers (Splitter.mapping s')))) es;
  result_bound : Forall (context_bound src (Allocator.Registers (Splitter.mapping s'))) es;
  result_splits : forall val, in_range (Allocator.Registers (Splitter.mapping s')) val -> splits s val ->
    (forall k, Forall (holds val k) es) -> splits s' val;
  result_holds : forall val, in_range (Allocator.Registers (Splitter.mapping s')) val -> filled (Splitter.mapping s') val ->
    forall k, Forall (holds val k) es
}.

Lemma SplitVariable_spec s rid reg :
  splitter_ok s -> src rid -> Allocator.Registers (Splitter.mapping s) !! rid = Some reg -> 0 < Register.width reg ->
  exists e s', Splitter.SplitVariable s rid = Ok (e, s') /\ split_result s [e] s'.
Proof.
  intros [Ha Hbw Hlen Hlimbs] Hsrc Hreg Hpos. set (a := Splitter.mapping s) in *.
  pose proof (Forall_lookup_1 _ _ _ _ (alloc_widths a Ha) Hreg) as Hw. cbn in Hw.
  destruct (LimbWidths_spec (Splitter.bitwidth s) (Register.width reg) Hbw ltac:(lia)) as (ws & Hws & Hf & Hsum).
  assert (Hok : Forall (fun w => 0 <= w < 2 ^ 62) ws) by (eapply Forall_impl; [exact Hf|]; cbn; lia).
  assert (Hne : ws <> []) by (intros ->; cbn in Hsum; lia).
  destruct (AllocateWithN_allocates a (Register.name reg) (RegisterFil rid (Register.width reg)) ws Ha Hne) as (a' & Hal & Hall).
  pose proof (positive_widths _ _ Hf) as Hwok. pose proof (allocates_limbs a ws _ a' Hall Hok) as Hids. set (ids := seq _ _) in *.
  assert (Hsteps : steps good a a').
  { eapply allocates_steps; [exact Ha|exact Hall|done|done| |].
    - cbn. apply Forall_singleton. by apply lookup_lt_Some in Hreg.
    - intros val _ Hr _ k. cbn. rewrite Hsum. by apply Hr. }
  pose proof (extends_lookup _ _ _ _ (steps_extends _ _ _ Hsteps) Hreg) as Hreg'.
  destruct (LimbPolynomial_spec (Allocator.Registers a') (Register.width reg) 0 ids ws Hids Hw) as (P & HP & Ho & Hv).
  unfold Splitter.SplitVariable, Splitter.allocate, Allocator.Register_, slice_get. fold a. rewrite Hreg. cbn [mbind result_bind].
  rewrite Width_ok by lia. cbn [mbind result_bind]. rewrite Hws. cbn [mbind result_bind]. rewrite Hal. cbn [mbind result_bind]. rewrite HP.
  cbn [mbind result_bind]. eexists _, _. split; [done|].
  assert (Hval : forall val k, in_range (Allocator.Registers a') val ->
    Eval (variable (AccessId.AccessOf rid (Register.width reg))) (at_row val k) = val rid k
    /\ Eval P (at_row val k) = digits_value ws ((fun i => val i k) <$> ids) /\ 0 <= digits_value ws ((fun i => val i k) <$> ids) < 2 ^ Register.width reg).
  { intros val k Hr. rewrite Eval_variable. unfold at_row at 1. cbn [AccessId.AccessOf AccessId.id AccessId.shift].
    pose proof (digits_value_bound ws _ Hwok (limb_values _ ids ws val k Hids Hr)) as Hb. rewrite Hsum in Hb.
    specialize (Hv val k Hr). cbn zeta in Hv. rewrite Z.add_0_r in Hv |- *. destruct (Hv ltac:(lia)) as [-> _]. by rewrite Z.mul_1_l. }
  assert (Hiff : forall val k, in_range (Allocator.Registers a') val ->
    holds val k (NewEquation (variable (AccessId.AccessOf rid (Register.width reg))) P) <-> val rid k = digits_value ws ((fun i => val i k) <$> ids)).
  { intros val k Hr. unfold holds. cbn [LeftHandSide RightHandSide]. by destruct (Hval val k Hr) as (-> & -> & _). }
  split.
  - split; [apply Hsteps|done| |].
    + cbn. rewrite !length_insert. by apply grow_same_length.
    + intros rid' ids' ws' Hsp%split_of_insert; [|done]. destruct Hsp as [(-> & -> & ->)|Hsp]; [done|]. cbn.
      destruct Hall as [_ (l & -> & _) _]. by apply limb_app, (Hlimbs rid').
  - done.
  - done.
  - apply Forall_singleton. split; cbn; [|apply Ho]. eapply (over_single _ 1 [_]); [lia|]. apply Forall_singleton. by apply whole_access_ok.
  - apply Forall_singleton. exists rid, reg. split; [done|]. split; [done|]. intros val k Hr. cbn [LeftHandSide RightHandSide].
    destruct (Hval val k Hr) as (-> & -> & Hb). pose proof (Hr _ _ Hreg' k). lia.
  - intros val Hr Hs Hh rid' ids' ws' Hsp%split_of_insert k; [|done]. destruct Hsp as [(-> & -> & ->)|Hsp]; [|by apply Hs].
    apply Hiff; [done|]. by apply (Forall_inv (Hh k)).
  - intros val Hr Hfl k. apply Forall_singleton, Hiff; [done|]. destruct (allocates_filled _ _ _ _ val Ha Hall Hfl k) as [Hwr Hge].
    unfold write in Hwr. destruct (Z.leb_spec (2 ^ width_sum ws) (EvalAt val k (RegisterFil rid (Register.width reg)))) as [|Hlt]; [done|].
    injection Hwr as Hwr. fold ids in Hwr. rewrite <- Hwr, digits_roundtrip by done. done.
Qed.

Lemma splits_extends val s s' : splits s' val -> Splitter.limbs s' = Splitter.limbs s -> Splitter.limbWidths s' = Splitter.limbWidths s -> splits s val.
Proof. intros Hs H1 H2 rid ids ws [Hi Hw]. apply Hs. split; congruence. Qed.

Lemma equation_in_extends a a' e : extends a a' ->
  equation_in (access_ok (Allocator.Registers a)) e -> equation_in (access_ok (Allocator.Registers a')) e.
Proof. intros He [H1 H2]. split; (eapply vars_in_impl; [|done]); intros v; by apply access_extends. Qed.

(** A register that can be split: it is there, and it has some bits. *)
Definition splittable (a : RegisterAllocator) (rid : nat) : Prop :=
  src rid /\ exists reg, Allocator.Registers a !! rid = Some reg /\ 0 < Register.width reg.

Lemma split_variables_spec s rids :
  (n0 <= length (Allocator.Registers (Splitter.mapping s)))%nat -> splitter_ok s -> Forall (splittable (Splitter.mapping s)) rids ->
  exists es s', Splitter.split_variables s rids = Ok (es, s') /\ split_result s es s'.
Proof.
  intros Hn Hs Hrids. revert s Hn Hs Hrids. induction rids as [|rid rids IH]; intros s Hn Hs Hrids; cbn [Splitter.split_variables].
  { exists [], s. split; [done|]. split; try done. apply steps_refl, Hs. }
  apply Forall_cons in Hrids as [(Hsrc & reg & Hreg & Hw) Hrids].
  destruct (SplitVariable_spec s rid reg Hs Hsrc Hreg Hw) as (e & s1 & -> & [Hok1 Hbw1 Hst1 Hin1 Hbd1 Hsp1 Hh1]). cbn [mbind result_bind].
  destruct (IH s1) as (es & s2 & -> & [Hok2 Hbw2 Hst2 Hin2 Hbd2 Hsp2 Hh2]); [|done| |].
  { etrans; [exact Hn|]. apply extends_length, Hst1. }
  { eapply Forall_impl; [exact Hrids|]. intros x (Hx0 & r & Hx & Hr). split; [done|]. exists r. split; [|done]. eapply extends_lookup; [apply Hst1|done]. }
  cbn [mbind result_bind]. exists (e :: es), s2. split; [done|]. split; [done|congruence| | | | |].
  - eapply steps_trans; eauto.
  - constructor; [|done]. eapply equation_in_extends; [apply Hst2|]. by apply Forall_inv in Hin1.
  - constructor; [|done]. eapply context_bound_extends; [apply Hst2|done|]. by apply Forall_inv in Hbd1.
  - intros val Hr Hs0 Hall. apply Hsp2; [done| |].
    + apply Hsp1; [eapply extends_in_range; [apply Hst2|done]|done|]. intros k. constructor; [|constructor]. by apply (Forall_inv (Hall k)).
    + intros k. by apply (Forall_inv_tail (Hall k)).
  - intros val Hr Hf k. constructor; [|by apply Hh2].
    eapply Forall_inv, (Hh1 val); [eapply extends_in_range; [apply Hst2|done]|]. eapply extends_filled; [|apply Hst2|done]. apply Hok1.
Qed.

(** *** Marking *)

Definition marked_ok (a : RegisterAllocator) (b : BitSet.Set_) : Prop :=
  BitSet.wf b /\ forall rid, BitSet.Contains b rid = true -> splittable a rid.

Lemma mark_variables_spec w a vs b : alloc_ok a -> 0 <= w -> Forall (access_ok (Allocator.Registers a)) vs ->
  Forall (fun v => src (AccessId.id v)) vs -> marked_ok a b ->
  exists b', mark_variables w a vs b = Ok b' /\ marked_ok a b'.
Proof.
  intros Ha Hw Hvs. revert b. induction Hvs as [|v vs (r & Hr & _ & _) _ IH]; intros b Hsrc Hb; cbn [mark_variables]; [by exists b|].
  apply Forall_cons in Hsrc as [Hsv Hsrc].
  unfold Allocator.Register_, slice_get. rewrite Hr. cbn [mbind result_bind].
  pose proof (Forall_lookup_1 _ _ _ _ (alloc_widths a Ha) Hr) as Hrw. cbn in Hrw. rewrite Width_ok by lia. cbn [mbind result_bind].
  apply IH; [done|]. destruct (Z.ltb_spec w (Register.width r)); [|done]. destruct Hb as [Hwf Hc]. split; [by apply BitSet.Insert_wf|].
  intros rid. rewrite BitSet.Insert_Contains, orb_true_iff, bool_decide_eq_true. intros [->|H']; [|by apply Hc]. split; [done|]. exists r. split; [done|lia].
Qed.

Lemma mark_terms_spec field w a P b : alloc_ok a -> 0 <= w -> over (access_ok (Allocator.Registers a)) P ->
  vars_in (fun v => src (AccessId.id v)) P -> marked_ok a b ->
  exists b', mark_terms field w a P b = Ok b' /\ marked_ok a b'.
Proof.
  intros Ha Hw. revert b. induction P as [|p P IH]; intros b HP Hsrc Hb; cbn [mark_terms]; [by exists b|]. apply over_cons in HP as [[Hc Hv] HP].
  apply Forall_cons in Hsrc as [Hsp Hsrc].
  rewrite WidthOfMonomial_top by (done || (eapply Forall_impl; [exact Hv|]; intros v; apply access_sized)). cbn [mbind result_bind].
  destruct (_ <? _); [|by apply IH]. destruct (mark_variables_spec w a (vars p) b Ha Hw Hv Hsp Hb) as (b' & -> & Hb'). by apply IH.
Qed.

Lemma marked_empty a : marked_ok a (BitSet.mkSet []).
Proof. split; [constructor|]. intros rid. unfold BitSet.Contains. cbn [BitSet.words]. by rewrite lookup_nil. Qed.

Lemma Collect_marked a b : marked_ok a b -> exists rids, BitSet.Collect (BitSet.Iter b) = Some rids /\ Forall (splittable a) rids.
Proof.
  intros [Hwf Hc]. exists (BitSet.elements_from (BitSet.words b) 0). split; [by apply BitSet.collect_spec; [destruct b|cbn; lia]|].
  apply Forall_forall. intros rid Hin. by apply Hc, BitSet.elements_from_Contains.
Qed.

End Splitting.

(** ** Substitution of the limbs *)

Lemma replacement_spec s v : splitter_ok s -> access_ok (Allocator.Registers (Splitter.mapping s)) v ->
  exists o, Splitter.replacement s v = Ok o
    /\ over (access_ok (Allocator.Registers (Splitter.mapping s))) (default (variable v) o)
    /\ forall val k, in_range (Allocator.Registers (Splitter.mapping s)) val -> splits s val -> masked val k v ->
         Eval (default (variable v) o) (at_row val k) = at_row val k v /\ over (masked val k) (default (variable v) o).
Proof.
  intros [Ha Hbw Hlen Hlimbs] Hv. unfold Splitter.replacement. assert (Hno : exists o : option DynamicPolynomial, Ok None = Ok o
    /\ over (access_ok (Allocator.Registers (Splitter.mapping s))) (default (variable v) o)
    /\ forall val k, in_range (Allocator.Registers (Splitter.mapping s)) val -> splits s val -> masked val k v ->
         Eval (default (variable v) o) (at_row val k) = at_row val k v /\ over (masked val k) (default (variable v) o)).
  { exists None. split; [done|]. cbn [default]. split; [by apply over_single, Forall_singleton|].
    intros val k _ _ Hm. split; [apply Eval_variable|by apply over_single, Forall_singleton]. }
  destruct (Splitter.limbs s !! AccessId.id v) as [[ids|]|] eqn:Hids; [|done|done]. clear Hno.
  destruct (lookup_lt_is_Some_2 (Splitter.limbWidths s) (AccessId.id v)) as [ws Hws]; [rewrite <- Hlen; by apply lookup_lt_Some in Hids|].
  unfold slice_get. rewrite Hws. cbn [mbind result_bind]. destruct Hv as (r & Hr & Hb & Hm1 & Hm2).
  destruct (LimbPolynomial_spec (Allocator.Registers (Splitter.mapping s)) (AccessId.maskwidth v) (AccessId.shift v) ids ws) as (P & -> & Ho & HP);
    [by eapply Hlimbs|lia|]. cbn [mbind result_bind]. exists (Some P). split; [done|]. split; [done|].
  intros val k Hir Hs Hmk. specialize (Hs _ _ _ (conj Hids Hws) (k + AccessId.shift v)). change (default (variable v) (Some P)) with P.
  unfold masked, fits, at_row, DynamicEnvironment in Hmk. destruct (HP val k Hir) as [Hev Hmask]; [cbn zeta; rewrite <- Hs; lia|].
  cbn zeta in Hev. rewrite Hev, <- Hs. split; [unfold at_row; lia|done].
Qed.

Lemma Apply_spec s P : splitter_ok s -> over (access_ok (Allocator.Registers (Splitter.mapping s))) P ->
  exists Q, Splitter.Apply s P = Ok Q /\ over (access_ok (Allocator.Registers (Splitter.mapping s))) Q
    /\ forall val k, in_range (Allocator.Registers (Splitter.mapping s)) val -> splits s val -> over (masked val k) P ->
         Eval Q (at_row val k) = Eval P (at_row val k) /\ over (masked val k) Q.
Proof.
  intros Hs HP. unfold Splitter.Apply.
  assert (exists os, mapM (Splitter.replacement s) (P ≫= vars) = Ok os) as [os ->].
  { pose proof (over_vars _ _ HP) as Hvs. induction Hvs as [|v vs Hv _ [os IH]]; [by exists []|]. destruct (replacement_spec s v Hs Hv) as (o & Ho & _).
    exists (o :: os). cbn. rewrite Ho. cbn [mbind result_bind]. rewrite IH. done. }
  cbn [mbind result_bind]. eexists. split; [done|]. set (m := fun v => match Splitter.replacement s v with Ok o => o | Fault _ => None end).
  assert (Hm : forall v, access_ok (Allocator.Registers (Splitter.mapping s)) v -> Splitter.replacement s v = Ok (m v)).
  { intros v Hv. subst m. cbn. destruct (replacement_spec s v Hs Hv) as (o & -> & _). done. }
  destruct HP as [HP1 HP2]. split.
  - apply over_Substitute; [done|]. eapply vars_in_impl; [|exact HP2]. intros v Hv. destruct (replacement_spec s v Hs Hv) as (o & Ho & Hov & _).
    rewrite (Hm v Hv) in Ho. injection Ho as ->. done.
  - intros val k Hr Hsp [_ HPm].
    assert (Hboth : vars_in (fun v => access_ok (Allocator.Registers (Splitter.mapping s)) v /\ masked val k v) P)
      by (apply (over_and _ _ P (conj HP1 HP2) (conj HP1 HPm))).
    assert (Hrep : forall v, access_ok (Allocator.Registers (Splitter.mapping s)) v /\ masked val k v ->
      replaced m (at_row val k) v = at_row val k v /\ over (masked val k) (default (variable v) (m v))).
    { intros v [Hv Hmk]. destruct (replacement_spec s v Hs Hv) as (o & Ho & _ & Hev). rewrite (Hm v Hv) in Ho. injection Ho as <-. by apply Hev. }
    split.
    + rewrite Eval_SubstitutePolynomial. clear HP1 HP2 HPm. induction P as [|p P IH]; [done|]. apply Forall_cons in Hboth as [Hp Hboth].
      rewrite !Eval_cons, !evalTerm_value, IH by done. f_equal. f_equal. clear IH.
      induction Hp as [|v vs Hv _ IH]; cbn [vars_value foldr]; [done|]. rewrite (proj1 (Hrep v Hv)). f_equal. exact IH.
    + apply over_Substitute; [done|]. eapply vars_in_impl; [|exact Hboth]. intros v Hv. by apply Hrep.
Qed.

(** ** The variables of the terms that are too wide *)

Section NonLinear.
Context (good : valuation -> Prop) (n0 : nat) (good_agree : forall val val', agree n0 val val' -> good val -> good val').
Context (field : Config).

Record nonlinear_result (a : RegisterAllocator) (P Q : DynamicPolynomial) (es : list Equation.t) (a' : RegisterAllocator) : Prop := {
  nonlinear_steps : steps good a a';
  nonlinear_over : over (access_ok (Allocator.Registers a')) Q;
  nonlinear_in : Forall (equation_in (access_ok (Allocator.Registers a'))) es;
  nonlinear_bound : Forall (context_bound (fun rid => rid ∈ AccessId.id <$> (P ≫= vars)) (Allocator.Registers a')) es;
  nonlinear_value : forall val k, in_range (Allocator.Registers a') val -> (forall k, Forall (holds val k) es) -> over (masked val k) P ->
    Eval Q (at_row val k) = Eval P (at_row val k) /\ over (masked val k) Q;
  nonlinear_holds : forall val, in_range (Allocator.Registers a') val -> filled a' val -> forall k, Forall (holds val k) es
}.

Lemma splitNonLinearTerms_spec w P a :
  (n0 <= length (Allocator.Registers a))%nat -> alloc_ok a -> 1 <= w < 2 ^ 62 -> over (access_ok (Allocator.Registers a)) P ->
  exists Q es a', splitNonLinearTerms field w P a = Ok (Q, es, a') /\ nonlinear_result a P Q es a'.
Proof.
  intros Hn Ha Hw HP. unfold splitNonLinearTerms.
  set (src := fun rid => rid ∈ AccessId.id <$> (P ≫= vars)).
  assert (Hsrc : vars_in (fun v => src (AccessId.id v)) P).
  { apply Forall_forall. intros p Hp. apply Forall_forall. intros v Hv. apply list_elem_of_fmap_2, list_elem_of_bind. by exists p. }
  destruct (mark_terms_spec src field w a P _ Ha ltac:(lia) HP Hsrc (marked_empty src a)) as (b & -> & Hb). cbn [mbind result_bind].
  destruct (Collect_marked src a b Hb) as (rids & Hrids & Hsp). unfold Splitter.SplitVariables. rewrite Hrids.
  assert (Hnone : forall rid ids ws, ~ split_of (Splitter.NewVariableSplitter a w) rid ids ws) by (by intros rid ids ws [H _]).
  destruct (split_variables_spec good n0 good_agree src (Splitter.NewVariableSplitter a w) rids) as (es & s & -> & [Hok Hbw Hst Hin Hbd Hspl Hh]); [done| |done|].
  { split; [done|done|done|]. intros rid ids ws H. by apply Hnone in H. }
  cbn [mbind result_bind Splitter.mapping Splitter.NewVariableSplitter] in *.
  destruct (Apply_spec s P Hok) as (Q & -> & HQ & Hv).
  { eapply over_impl; [|exact HP]. intros v. apply access_extends, Hst. }
  cbn [mbind result_bind]. eexists _, _, _. split; [done|]. split; [done|done|done|done| |done].
  intros val k Hr Hes. apply Hv; [done|]. apply Hspl; [done| |done]. intros rid ids ws H. by apply Hnone in H.
Qed.

End NonLinear.
