(* ===== verification/EquationSplit.v ===== *)
(** * Splitting of equations is exact

    An equation in chunks with carries between them holds where the equation holds:
    the carries cancel in the sum of the chunks, and where the carries have their
    assigned values every chunk but the last is a digit.  Whatever the values of the
    carries, equations that hold give the original equation. *)

From Stdlib Require Import ZArith Lia String.
From stdpp Require Import base numbers list option strings sets.
From S2P Require Import Prelude Interval Register SortedSet Poly PolyFacts Limbs LimbsFacts Equation EquationTerms EquationAlloc EquationVars.
Import Equation.

Open Scope Z_scope.
Open Scope list_scope.

(** The values of polynomials at a point *)
Definition values (env : AccessId.t -> Z) (Ps : list DynamicPolynomial) : list Z := map (fun P => Eval P env) Ps.

(** ** Chunks *)

Lemma chunkEquation_nil ws : chunkEquation [] [] ws = ([], []).
Proof. induction ws as [|w ws IH]; [done|]. cbn. by rewrite IH. Qed.

(** [L] are the chunks of [l] of widths [ws], and [rest] is left. *)
Record chunked (l : DynamicPolynomial) (ws : list Z) (L : list DynamicPolynomial) (rest : DynamicPolynomial) : Prop := {
  chunked_over : forall R, over R l -> Forall (over R) L /\ over R rest;
  chunked_value : forall env, Eval l env = digits_value ws (values env L) + 2 ^ width_sum ws * Eval rest env
}.

Lemma chunked_cons l w ws L rest : 0 <= w -> widths_ok ws ->
  chunked (fst (Shr l w)) ws L rest -> chunked l (w :: ws) (snd (Shr l w) :: L) rest.
Proof.
  intros Hw Hws [Ho Hv]. split.
  - intros R [H1 H2]%(over_Shr R l w Hw). destruct (Ho R H1). by split; [constructor|].
  - intros env. rewrite (Eval_Shr l w env Hw), (Hv env). cbn [values map digits_value width_sum foldr]. fold (width_sum ws) (values env L).
    rewrite pow2_sum by done. ring.
Qed.

Lemma Len_nil {V} (P : list (Monomial V)) : (Len P =? 0)%nat = true <-> P = [].
Proof. rewrite Nat.eqb_eq. unfold Len. apply length_zero_iff_nil. Qed.

Lemma chunkEquation_spec ws : widths_ok ws -> forall l r, exists lf rf,
  let LR := chunkEquation l r ws in
  chunked l ws (fst LR) lf /\ chunked r ws (snd LR) rf /\ length (fst LR) = length (snd LR) /\ (length (fst LR) <= length ws)%nat.
Proof.
  induction 1 as [|w ws Hw Hws IH]; intros l r.
  - exists l, r. cbn. assert (forall l, chunked l [] [] l) as Hc by (intros P; split; [by intros R HR|intros env; cbn; lia]). auto.
  - destruct (IH (fst (Shr l w)) (fst (Shr r w))) as (lf & rf & Hl & Hr & Hlen & Hle).
    apply chunked_cons in Hl, Hr; [|done..]. cbn [chunkEquation]. destruct (Shr l w) as [lq lr] eqn:El, (Shr r w) as [rq rr] eqn:Er. cbn [fst snd] in *.
    destruct (chunkEquation lq rq ws) as [L R] eqn:EL. cbn [fst snd] in *.
    destruct (_ || _) eqn:Hc; [exists lf, rf; cbn; split_and!; try done; lia|].
    rewrite !orb_false_iff, !negb_false_iff, !Len_nil in Hc. destruct Hc as [[[-> ->] ->] ->]. rewrite chunkEquation_nil in EL. simplify_eq.
    exists [], []. cbn. assert (forall P, Shr P w = ([], []) -> chunked P (w :: ws) [] []) as Hnil.
    { intros P HP. split; [split; [constructor|apply over_nil]|]. intros env. rewrite (Eval_Shr P w env Hw), HP. cbn. lia. }
    split_and!; [auto|auto|done|lia].
Qed.

Lemma digits_value_nonneg ws vs : widths_ok ws -> Forall (fun v => 0 <= v) vs -> 0 <= digits_value ws vs.
Proof.
  intros Hws. revert vs. induction Hws as [|w ws Hw _ IH]; intros [|v vs] Hv; cbn; try lia. apply Forall_cons in Hv as [Hv Hvs].
  pose proof (IH vs Hvs). pose proof (two_power_pos w Hw). nia.
Qed.

Lemma over_masked_nonneg val k P : over (masked val k) P -> 0 <= Eval P (at_row val k).
Proof. intros H. apply (Eval_mono (at_row val k) (at_row val k)). eapply over_impl; [|exact H]. unfold masked, fits. intros v. lia. Qed.

(** Nothing is left when the chunks are wide enough for the value. *)
Lemma chunked_exact l ws L rest val k : widths_ok ws -> chunked l ws L rest -> over (masked val k) l ->
  Eval l (at_row val k) < 2 ^ width_sum ws -> Eval l (at_row val k) = digits_value ws (values (at_row val k) L).
Proof.
  intros Hws [Ho Hv] Hm Hlt. destruct (Ho _ Hm) as [HL Hrest%over_masked_nonneg]. specialize (Hv (at_row val k)).
  assert (0 <= digits_value ws (values (at_row val k) L)).
  { apply digits_value_nonneg; [done|]. unfold values. apply Forall_map. eapply Forall_impl; [exact HL|]. intros P. apply over_masked_nonneg. }
  pose proof (two_power_pos (width_sum ws) (width_sum_nonneg ws Hws)).
  set (r := Eval rest _) in *. set (X := 2 ^ width_sum ws) in *. clearbody r X. assert (r = 0) as -> by nia. lia.
Qed.

Lemma chunk_widths_spec fuel m b : 1 <= m -> b <= Z.of_nat fuel -> 0 <= b ->
  exists ws, chunk_widths fuel m b = Ok ws /\ Forall (fun w => 1 <= w <= m) ws /\ width_sum ws = b.
Proof.
  intros Hm. revert b. induction fuel as [|fuel IH]; intros b Hf Hb; cbn [chunk_widths]; (destruct (Z.ltb_spec 0 b); [|exists []; cbn; split_and!; [done|constructor|lia]]); [lia|].
  destruct (IH (b - Z.min m b)) as (ws & -> & Hw & Hs); [lia..|]. cbn [mbind result_bind]. eexists. split; [done|]. split; [constructor; [lia|done]|].
  cbn [width_sum foldr]. fold (width_sum ws). lia.
Qed.

(** With a width of zero the loop goes on for ever. *)
Lemma chunk_widths_zero fuel b : 0 < b -> chunk_widths fuel 0 b = Fault OutOfFuel.
Proof.
  intros Hb. induction fuel as [|fuel IH]; cbn [chunk_widths]; (destruct (Z.ltb_spec 0 b); [|lia]); [done|].
  rewrite Z.min_l by lia. by rewrite Z.sub_0_r, IH.
Qed.

(** ** Carries *)

Section Carry.
Context (good : valuation -> Prop) (n0 : nat) (good_agree : forall val val', agree n0 val val' -> good val -> good val').
Context (field : Config) (Hfield : 0 <= BandWidth field < 2 ^ 62).

Abbreviation regs a := (Allocator.Registers (T := Filler) a).

(** Every good valuation masks the polynomials on every row. *)
Definition all_masked (a : RegisterAllocator) (Ps : list DynamicPolynomial) : Prop :=
  forall val, good val -> in_range (regs a) val -> filled a val -> forall k, Forall (over (masked val k)) Ps.

Record carried (a' : RegisterAllocator) (Ps : list DynamicPolynomial) (ws : list Z) (res : list DynamicPolynomial) : Prop := {
  carried_length : length res = length Ps;
  carried_vars : Forall (vars_in (access_ok (regs a'))) res;
  carried_value : forall env, digits_value ws (values env res) = digits_value ws (values env Ps);
  carried_digits : forall val k, good val -> in_range (regs a') val -> filled a' val ->
    forall i w v, (S i < length res)%nat -> ws !! i = Some w -> values (at_row val k) res !! i = Some v -> 0 <= v < 2 ^ w;
  carried_masked : forall val k, in_range (regs a') val -> Forall (over (masked val k)) Ps -> Forall (vars_in (masked val k)) res
}.

Lemma over_sized a P : over (access_ok (regs a)) P -> over (sized DynamicEnvironment) P.
Proof. apply over_impl, access_sized. Qed.

Lemma width_value a P val k w : over (access_ok (regs a)) P -> over (masked val k) P -> BitLen (Eval P (top DynamicEnvironment)) <= w ->
  0 <= Eval P (at_row val k) < 2 ^ w.
Proof.
  intros HP%over_sized Hm Hw. pose proof (Eval_width DynamicEnvironment (at_row val k) P HP Hm).
  pose proof (BitLen_nonneg (Eval P (top DynamicEnvironment))).
  assert (2 ^ BitLen (Eval P (top DynamicEnvironment)) <= 2 ^ w) by (apply Z.pow_le_mono_r; lia). lia.
Qed.

(** The value that a carry is assigned *)
Lemma filler_value val k w P : positive P -> EvalAt val k (PolyFil w P) = Z.shiftr (Eval P (at_row val k)) w.
Proof.
  intros HP. cbn [EvalAt]. rewrite EvalPolynomial_Eval by done. destruct (Z.eqb_spec w 0) as [->|]; cbn [negb]; [by rewrite Z.shiftr_0_r|done].
Qed.

Lemma shiftr_range v w n : 0 <= w <= n -> 0 <= v < 2 ^ n -> 0 <= Z.shiftr v w < 2 ^ (n - w).
Proof.
  intros Hw Hv. rewrite Z.shiftr_div_pow2 by lia. pose proof (two_power_pos w ltac:(lia)).
  split; [apply Z.div_pos; lia|]. apply Z.div_lt_upper_bound; [done|]. rewrite <- Z.pow_add_r by lia. replace (w + (n - w)) with n by lia. lia.
Qed.

(** One chunk with its carry: the state after the allocation, and what the new
    register is worth *)
Lemma carry_step a w n P (carry := AccessId.AccessOf (length (regs a)) (n - w)) (a1 := snd (Allocator.AllocateWith a "c" (n - w) (PolyFil w P))) :
  alloc_ok a -> 0 <= w < n -> n <= BandWidth field -> over (access_ok (regs a)) P -> BitLen (Eval P (top DynamicEnvironment)) = n -> all_masked a [P] ->
  steps good a a1 /\ access_ok (regs a1) carry /\
  (forall val k, in_range (regs a1) val -> masked val k carry) /\
  (forall val k, filled a1 val -> at_row val k carry = Z.shiftr (Eval P (at_row val k)) w).
Proof.
  intros Ha Hw Hn HP Hbit Hmask. destruct (AllocateWith_allocates a "c" (n - w) (PolyFil w P) Ha) as [_ Hal]. fold a1 in Hal.
  assert (Hreg : exists r, regs a1 !! length (regs a) = Some r /\ Register.width r = n - w).
  { eexists. split; [subst a1; cbn; by apply list_lookup_middle|done]. }
  destruct Hreg as (r & Hr & Hrw).
  assert (Hst : steps good a a1).
  { eapply allocates_steps; [exact Ha|exact Hal|done|apply Forall_singleton; lia| |].
    - cbn [reads]. apply Forall_fmap. eapply Forall_impl; [apply (over_vars _ _ HP)|]. intros v. apply access_lt.
    - intros val Hg Hir Hf k. rewrite filler_value by apply HP. cbn [width_sum foldr]. rewrite Z.add_0_r. apply shiftr_range; [lia|].
      apply (width_value a); [done| |lia]. by apply (Forall_inv (Hmask val Hg Hir Hf k)). }
  split; [done|]. split; [exists r; cbn; split; [done|]; split; [done|lia]|]. split.
  - intros val k Hir. unfold masked, fits, DynamicEnvironment, at_row. cbn. rewrite <- Hrw. by apply Hir.
  - intros val k Hf. destruct (allocates_filled _ _ _ _ val Ha Hal Hf k) as [Hwr Hge].
    change (at_row val k carry) with (val (length (regs a)) (k + 0)). rewrite Z.add_0_r.
    rewrite (filler_value val k w P (proj1 HP)) in Hwr, Hge. set (x := Z.shiftr _ _) in *. clearbody x.
    unfold write in Hwr. destruct (Z.leb_spec (2 ^ width_sum [n - w]) x) as [|Hlt]; [done|].
    injection Hwr as Hwr. cbn [width_sum foldr] in Hlt. rewrite Z.add_0_r in Hlt. rewrite Z.mod_small in Hwr by lia. done.
Qed.

Lemma all_masked_extends a a1 Ps : extends a a1 -> alloc_ok a -> all_masked a Ps -> all_masked a1 Ps.
Proof. intros He Ha Hm val Hg Hr Hf. apply Hm; [done|by eapply extends_in_range|by eapply extends_filled]. Qed.

(** The chunk whose carry goes to the next *)
Lemma carried_cons a1 a' w ws chunk next chunks carry res :
  0 <= w -> ws <> [] -> BitLen (Eval chunk (top DynamicEnvironment)) <= BandWidth field -> w < BitLen (Eval chunk (top DynamicEnvironment)) ->
  extends a1 a' -> alloc_ok a1 -> over (access_ok (regs a1)) chunk -> access_ok (regs a1) carry ->
  AccessId.maskwidth carry = BitLen (Eval chunk (top DynamicEnvironment)) - w ->
  (forall val k, in_range (regs a1) val -> masked val k carry) ->
  (forall val k, filled a1 val -> at_row val k carry = Z.shiftr (Eval chunk (at_row val k)) w) ->
  all_masked a1 [chunk] ->
  carried a' (Add next (Set_ [NewMonomial 1 [carry]]) :: chunks) ws res ->
  carried a' (chunk :: next :: chunks) (w :: ws) (Sub chunk (Set_ [NewMonomial (Pow.Pow2 w) [carry]]) :: res).
Proof.
  set (n := BitLen _). intros Hw Hws Hn Hwn Hext Ha Hc Hacc Hcw Hcm Hcv Hmask [Hlen Hvars Hval Hdig Hbnd].
  assert (Hsub : forall env, Eval (Sub chunk (Set_ [NewMonomial (Pow.Pow2 w) [carry]])) env = Eval chunk env - 2 ^ w * env carry).
  { intros env. rewrite Eval_Sub, Eval_single. cbn [vars_value foldr]. unfold Pow.Pow2. destruct (Z.ltb_spec w (2 ^ 63)); [ring|lia]. }
  pose proof (two_power_pos w Hw) as Hpw. split.
  - cbn in *. lia.
  - constructor; [|done]. apply vars_in_Sub.
    + eapply vars_in_impl; [|apply Hc]. intros v. by apply access_extends.
    + apply (over_single _ (Pow.Pow2 w) [carry]); [|apply Forall_singleton; by eapply access_extends].
      unfold Pow.Pow2. destruct (_ <? _); lia.
  - intros env. specialize (Hval env). cbn [values map digits_value] in *. fold (values env res) (values env chunks) in *.
    rewrite Hsub, Hval, Eval_Add, Eval_single. destruct ws as [|w' ws]; [done|]. cbn [digits_value vars_value foldr]. ring.
  - intros val k Hg Hr Hf [|i] u v Hi Hu Hv.
    + injection Hu as <-. injection Hv as <-. rewrite Hsub, Hcv by (by eapply extends_filled).
      rewrite Z.shiftr_div_pow2 by done. rewrite (Z.mul_comm (2 ^ w)), <- Zmod_eq_full by lia. by apply Z.mod_pos_bound.
    + eapply (Hdig val k Hg Hr Hf i); [cbn in Hi; lia|exact Hu|exact Hv].
  - intros val k Hr [Hm [Hmn Hms]%Forall_cons]%Forall_cons. specialize (Hcm val k (extends_in_range _ _ _ Hext Hr)). constructor.
    + apply vars_in_Sub; [apply Hm|]. apply (over_single _ (Pow.Pow2 w) [carry]); [|by apply Forall_singleton]. unfold Pow.Pow2. destruct (_ <? _); lia.
    + apply (Hbnd val k Hr). constructor; [|done]. apply over_Add; [done|]. by apply over_single, Forall_singleton.
Qed.

(** The chunk without a carry *)
Lemma carried_plain a a' w ws chunk next chunks res :
  0 <= w -> BitLen (Eval chunk (top DynamicEnvironment)) <= w ->
  extends a a' -> alloc_ok a -> over (access_ok (regs a)) chunk -> all_masked a [chunk] ->
  carried a' (next :: chunks) ws res -> carried a' (chunk :: next :: chunks) (w :: ws) (chunk :: res).
Proof.
  intros Hw Hwn Hext Ha Hc Hmask [Hlen Hvars Hval Hdig Hbnd]. split.
  - cbn in *. lia.
  - constructor; [|done]. eapply vars_in_impl; [|apply Hc]. intros v. by apply access_extends.
  - intros env. specialize (Hval env). cbn [values map digits_value] in *. fold (values env res) (values env chunks) in *. by rewrite Hval.
  - intros val k Hg Hr Hf [|i] u v Hi Hu Hv.
    + injection Hu as <-. injection Hv as <-. apply (width_value a); [done| |done].
      apply (Forall_inv (Hmask val Hg (extends_in_range _ _ _ Hext Hr) (extends_filled _ _ _ Ha Hext Hf) k)).
    + eapply (Hdig val k Hg Hr Hf i); [cbn in Hi; lia|exact Hu|exact Hv].
  - intros val k Hr [Hm Hms]%Forall_cons. constructor; [apply Hm|by apply (Hbnd val k Hr)].
Qed.

Lemma carry_lines_spec chunks : forall chunk ws a,
  (n0 <= length (regs a))%nat -> alloc_ok a -> widths_ok ws -> (S (length chunks) <= length ws)%nat ->
  Forall (over (access_ok (regs a))) (chunk :: chunks) -> all_masked a (chunk :: chunks) ->
  exists res ok a', carry_lines field chunk chunks ws a = Ok (res, ok, a') /\ steps good a a'
    /\ (ok = true -> carried a' (chunk :: chunks) ws res).
Proof.
  induction chunks as [|next chunks IH]; intros chunk [|w ws] a Hn Ha Hws Hlen Hover Hmask; try (cbn in Hlen; lia);
    cbn [carry_lines]; (apply Forall_cons in Hws as [Hw Hws]); apply Forall_cons in Hover as [Hc Hover];
    rewrite (WidthOfPolynomial_top _ _ (over_sized _ _ Hc)); cbn [mbind result_bind];
    (destruct (Z.ltb_spec (BandWidth field) (BitLen (Eval chunk (top DynamicEnvironment)))) as [|Hband]; [by exists [chunk], false, a; split; [done|]; split; [apply steps_refl|]|]).
  - exists [chunk], true, a. split; [done|]. split; [by apply steps_refl|]. intros _. split.
    + done.
    + apply Forall_singleton, Hc.
    + done.
    + cbn. lia.
    + intros val k Hr [Hm _]%Forall_cons. apply Forall_singleton, Hm.
  - apply Forall_cons in Hover as [Hnx Hover]. assert (Hmask1 : all_masked a [chunk]).
    { intros val Hg Hr Hf k. apply Forall_singleton. by apply (Forall_inv (Hmask val Hg Hr Hf k)). }
    assert (Hmask2 : all_masked a (next :: chunks)).
    { intros val Hg Hr Hf k. by apply (Forall_inv_tail (Hmask val Hg Hr Hf k)). }
    destruct (Z.ltb_spec w (BitLen (Eval chunk (top DynamicEnvironment)))) as [Hwn|Hwn].
    + destruct (carry_step a w _ chunk Ha ltac:(split; [exact Hw|exact Hwn]) Hband Hc eq_refl Hmask1) as (Hst & Hacc & Hcm & Hcv).
      rewrite (surjective_pairing (Allocator.AllocateWith _ _ _ _)). change (fst (Allocator.AllocateWith _ _ _ _)) with (length (regs a)).
      set (a1 := snd _) in *. set (carry := AccessId.AccessOf _ _) in *. pose proof (steps_extends _ _ _ Hst) as Hext.
      assert (Hup : forall P, over (access_ok (regs a)) P -> over (access_ok (regs a1)) P) by (intros P; apply over_impl; intros v; by apply access_extends).
      destruct (IH (Add next (Set_ [NewMonomial 1 [carry]])) ws a1) as (res & ok & a' & -> & Hst' & Hok).
      { etrans; [exact Hn|]. by apply extends_length. }
      { apply Hst. }
      { done. }
      { cbn in *. lia. }
      { constructor; [|eapply Forall_impl; [exact Hover|exact Hup]]. apply over_Add; [by apply Hup|]. by apply over_single, Forall_singleton. }
      { intros val Hg Hr Hf k. pose proof (all_masked_extends _ _ _ Hext Ha Hmask2 val Hg Hr Hf k) as [H1 H2]%Forall_cons.
        constructor; [|done]. apply over_Add; [done|]. apply over_single, Forall_singleton; [lia|by apply Hcm]. }
      cbn [mbind result_bind]. eexists _, ok, a'. split; [done|]. split; [by eapply steps_trans|]. intros ->.
      eapply (carried_cons a1); try done; [|apply Hst'|apply Hst|by apply Hup|by eapply all_masked_extends|by apply Hok].
      intros ->. cbn in Hlen. lia.
    + destruct (IH next ws a) as (res & ok & a' & -> & Hst' & Hok); [done..| |by constructor|done|]; [cbn in *; lia|].
      cbn [mbind result_bind]. eexists _, ok, a'. split; [done|]. split; [done|]. intros ->.
      eapply (carried_plain a); try done; [apply Hst'|by apply Hok].
Qed.

Lemma addCarryLines_spec chunks ws a :
  (n0 <= length (regs a))%nat -> alloc_ok a -> widths_ok ws -> (length chunks <= length ws)%nat ->
  Forall (over (access_ok (regs a))) chunks -> all_masked a chunks ->
  exists res ok a', addCarryLines field chunks ws a = Ok (res, ok, a') /\ steps good a a' /\ (ok = true -> carried a' chunks ws res).
Proof.
  intros Hn Ha Hws Hlen Ho Hm. destruct chunks as [|chunk chunks]; [|by apply carry_lines_spec].
  exists [], true, a. split; [done|]. split; [by apply steps_refl|]. intros _. by split.
Qed.

End Carry.
