(* ===== verification/EquationSound.v ===== *)
(** * Properties of the splitting of equations

    Balancing keeps an equation, a round of [chunkUp] either fails and is undone or
    gives equations that hold exactly where the equation holds, and [Split] returns
    those of the first round that fits. *)

From Stdlib Require Import ZArith Lia String.
From stdpp Require Import base numbers list option strings sets.
From S2P Require Import Prelude Interval Register SortedSet Poly PolyFacts Limbs LimbsFacts Equation EquationTerms EquationAlloc EquationVars EquationSplit.
Import Equation.

Open Scope Z_scope.
Open Scope list_scope.

Abbreviation regs a := (Allocator.Registers (T := Filler) a).

(** ** Balancing *)

Lemma Signed_positive (P : DynamicPolynomial) : Signed P = false -> positive P.
Proof.
  unfold Signed, positive. induction P as [|p P IH]; cbn; [constructor|]. intros [H1 H2]%orb_false_iff. constructor; [|by apply IH].
  unfold IsNegative in H1. apply Z.ltb_ge in H1. done.
Qed.

Lemma balancePolynomial_spec R P : vars_in R P -> let (pos, neg) := balancePolynomial P in
  over R pos /\ over R neg /\ forall env, Eval P env = Eval pos env - Eval neg env.
Proof.
  intros HP. unfold balancePolynomial.
  enough (forall pos neg, over R pos -> over R neg ->
    let (pos', neg') := foldl (fun '(pos, neg) ith => if IsNegative ith then (pos, Sub neg (Set_ [ith])) else (Add pos (Set_ [ith]), neg)) (pos, neg) P in
    over R pos' /\ over R neg' /\ forall env, Eval pos env - Eval neg env + Eval P env = Eval pos' env - Eval neg' env) as H.
  { specialize (H (Set_ []) (Set_ []) (over_nil R) (over_nil R)). destruct (foldl _ _ P) as [pos neg]. destruct H as (H1 & H2 & H3).
    split; [done|]. split; [done|]. intros env. rewrite <- H3. cbn. lia. }
  induction HP as [|p P Hp _ IH]; intros pos neg Hpos Hneg; cbn [foldl]; [split_and!; try done; intros env; cbn; lia|].
  destruct (IsNegative p) eqn:Hc; unfold IsNegative in Hc; [apply Z.ltb_lt in Hc|apply Z.ltb_ge in Hc].
  - assert (Hn : over R (Sub neg (Set_ [p]))).
    { unfold Sub. rewrite foldl_SubTerm. apply over_add_terms; [done|]. unfold Set_. cbn [add_terms foldl map].
      unfold AddTerm, Monomial_IsZero. destruct (negb _); [|apply over_nil]. cbn. apply over_cons. split; [|apply over_nil]. cbn. split; [lia|done]. }
    specialize (IH pos _ Hpos Hn). destruct (foldl _ _ P) as [pos' neg']. destruct IH as (H1 & H2 & H3). split; [done|]. split; [done|].
    intros env. rewrite <- H3, Eval_Sub, Eval_Set, !Eval_cons, Eval_nil. lia.
  - assert (Hn : over R (Add pos (Set_ [p]))) by (apply over_Add, over_Set, over_cons; [done|]; by split; [|apply over_nil]).
    specialize (IH _ neg Hn Hneg). destruct (foldl _ _ P) as [pos' neg']. destruct IH as (H1 & H2 & H3). split; [done|]. split; [done|].
    intros env. rewrite <- H3, Eval_Add, Eval_Set, !Eval_cons, Eval_nil. lia.
Qed.

(** What balancing gives: no negative coefficient, the same difference of the sides *)
Lemma Balance_spec p :
  (forall R, equation_in R p -> over R (LeftHandSide (Balance p)) /\ over R (RightHandSide (Balance p))) /\
  (forall env, Eval (LeftHandSide (Balance p)) env - Eval (RightHandSide (Balance p)) env = Eval (LeftHandSide p) env - Eval (RightHandSide p) env).
Proof.
  unfold Balance. destruct (_ && _) eqn:Hs.
  - apply andb_prop in Hs as [H1%negb_true_iff%Signed_positive H2%negb_true_iff%Signed_positive]. split; [|done]. intros R [H3 H4]. by split.
  - split.
    + intros R [H1%balancePolynomial_spec H2%balancePolynomial_spec]. destruct (balancePolynomial _), (balancePolynomial _). cbn.
      destruct H1 as (? & ? & _), H2 as (? & ? & _). by split; apply over_Add.
    + intros env. assert (Ht : forall P : DynamicPolynomial, vars_in (fun _ => True) P) by (intros P; apply Forall_true; intros; by apply Forall_true).
      pose proof (balancePolynomial_spec _ (LeftHandSide p) (Ht _)) as Hl. pose proof (balancePolynomial_spec _ (RightHandSide p) (Ht _)) as Hr.
      destruct (balancePolynomial _), (balancePolynomial _). destruct Hl as (_ & _ & Hl), Hr as (_ & _ & Hr).
      cbn [LeftHandSide RightHandSide]. rewrite !Eval_Add, Hl, Hr. lia.
Qed.

(** ** A round of splitting *)

(** The accesses of an equation are masked on every row. *)
Definition equation_masked (p : Equation.t) (val : valuation) : Prop := forall k, equation_in (masked val k) p.

Lemma vars_in_and {V} (R R' : V -> Prop) P : vars_in R P -> vars_in R' P -> vars_in (fun v => R v /\ R' v) P.
Proof. unfold vars_in. rewrite !Forall_forall. intros H1 H2 p Hp. apply Forall_and. auto. Qed.

Lemma equation_masked_agree a p val val' : equation_in (access_ok (regs a)) p ->
  agree (length (regs a)) val val' -> equation_masked p val -> equation_masked p val'.
Proof.
  intros [H1 H2] Ha Hm k. destruct (Hm k) as [H3 H4].
  split; [eapply vars_in_impl; [|exact (vars_in_and _ _ _ H1 H3)]|eapply vars_in_impl; [|exact (vars_in_and _ _ _ H2 H4)]]; intros v [Hv Hmv];
    unfold masked, fits, at_row in *; by rewrite <- Ha by (by eapply access_lt).
Qed.

(** The equations between the chunks hold on row [k]. *)
Definition chunks_hold (val : valuation) (k : Z) (lhs rhs : list DynamicPolynomial) : Prop := values (at_row val k) lhs = values (at_row val k) rhs.

Section Round.
Context (field : Config) (Hfield : 1 <= RegisterWidth field < 2 ^ 62 /\ 0 <= BandWidth field < 2 ^ 62).

(** What splitting the equation [p] in [a] into targets, with a context, must do *)
Record split_exact (p : Equation.t) (a : RegisterAllocator) (targets context : list Equation.t) (a' : RegisterAllocator) : Prop := {
  exact_steps : steps (equation_masked p) a a';
  exact_in : Forall (equation_in (access_ok (regs a'))) (targets ++ context);
  exact_sound : forall val k, equation_masked p val -> in_range (regs a') val -> (forall k, Forall (holds val k) context) ->
    Forall (holds val k) targets -> holds val k p;
  exact_complete : forall val k, equation_masked p val -> in_range (regs a') val -> filled a' val ->
    Forall (holds val k) context /\ (holds val k p -> Forall (holds val k) targets);
  exact_masked : forall val k, equation_masked p val -> in_range (regs a') val -> (forall k, Forall (holds val k) context) ->
    Forall (equation_in (masked val k)) targets;
  exact_context : Forall (context_bound (fun rid => (rid < length (regs a))%nat) (regs a')) context
}.

(** The same for a balanced equation in chunks *)
Record round_exact (p : Equation.t) (a : RegisterAllocator) (lhs rhs : list DynamicPolynomial) (context : list Equation.t) (a' : RegisterAllocator) : Prop := {
  round_length : length lhs = length rhs;
  round_in : Forall (vars_in (access_ok (regs a'))) (lhs ++ rhs);
  round_context : Forall (equation_in (access_ok (regs a'))) context;
  round_sound : forall val k, equation_masked p val -> in_range (regs a') val -> (forall k, Forall (holds val k) context) ->
    chunks_hold val k lhs rhs -> holds val k p;
  round_complete : forall val k, equation_masked p val -> in_range (regs a') val -> filled a' val ->
    Forall (holds val k) context /\ (holds val k p -> chunks_hold val k lhs rhs);
  round_masked : forall val k, equation_masked p val -> in_range (regs a') val -> (forall k, Forall (holds val k) context) ->
    Forall (vars_in (masked val k)) (lhs ++ rhs);
  round_cbound : Forall (context_bound (fun rid => (rid < length (regs a))%nat) (regs a')) context
}.

Lemma target_equations_hold val k lhs : forall rhs, length lhs = length rhs ->
  Forall (holds val k) (target_equations lhs rhs) <-> chunks_hold val k lhs rhs.
Proof.
  unfold chunks_hold. induction lhs as [|l lhs IH]; intros [|r rhs] Hlen; try done; cbn [target_equations values map]. fold (values (at_row val k) lhs) (values (at_row val k) rhs).
  specialize (IH rhs ltac:(cbn in Hlen; lia)). unfold holds at 1. 
  assert (Hcons : values (at_row val k) lhs = values (at_row val k) rhs -> Eval l (at_row val k) = Eval r (at_row val k) ->
    Eval l (at_row val k) :: values (at_row val k) lhs = Eval r (at_row val k) :: values (at_row val k) rhs) by congruence.
  destruct (_ || _) eqn:Hc.
  - rewrite Forall_cons, IH. unfold holds. cbn [LeftHandSide RightHandSide]. split; [tauto|]. intros [=]. tauto.
  - apply orb_false_iff in Hc as [H1 H2]. rewrite Nat.ltb_ge in H1, H2. unfold Len in H1, H2. destruct l; [|cbn in H1; lia]. destruct r; [|cbn in H2; lia].
    rewrite IH. split; [tauto|]. by intros [=].
Qed.

Lemma target_equations_Forall (Q : Equation.t -> Prop) (R : DynamicPolynomial -> Prop) lhs : forall rhs,
  (forall l r, R l -> R r -> Q (NewEquation l r)) -> Forall R lhs -> Forall R rhs -> Forall Q (target_equations lhs rhs).
Proof.
  induction lhs as [|l lhs IH]; intros [|r rhs] HQ Hl Hr; cbn; try constructor. apply Forall_cons in Hl as [? ?], Hr as [? ?].
  destruct (_ || _); [constructor|]; auto.
Qed.

Lemma Width_spec a p : over (access_ok (regs a)) (LeftHandSide p) -> over (access_ok (regs a)) (RightHandSide p) ->
  exists w, Width p = Ok w /\ 0 <= w /\ BitLen (Eval (LeftHandSide p) (top DynamicEnvironment)) <= w /\ BitLen (Eval (RightHandSide p) (top DynamicEnvironment)) <= w.
Proof.
  intros H1 H2. unfold Width. rewrite !WidthOfPolynomial_top by (by eapply over_sized). cbn [mbind result_bind orb]. eexists. split; [done|].
  pose proof (BitLen_nonneg (Eval (LeftHandSide p) (top DynamicEnvironment))). lia.
Qed.

(** What one side is worth: its chunks, then the chunks with carries *)
Lemma side_value good a1 a' P L ws lc rest res val k w :
  widths_ok ws -> over (access_ok (regs a')) P -> over (masked val k) P -> BitLen (Eval P (top DynamicEnvironment)) <= w -> width_sum ws = w ->
  Eval L (at_row val k) = Eval P (at_row val k) /\ over (masked val k) L -> chunked L ws lc rest -> carried good a1 lc ws res ->
  Eval P (at_row val k) = digits_value ws (values (at_row val k) res) /\ Forall (over (masked val k)) lc.
Proof.
  intros Hws HP Hm Hw Hsum [Hev HmL] Hch Hca. pose proof (width_value a' P val k w HP Hm Hw) as Hb.
  rewrite (carried_value _ _ _ _ _ Hca), <- Hev. split; [|by apply (chunked_over _ _ _ _ Hch)].
  apply (chunked_exact L ws lc rest); [done..|]. rewrite Hsum, Hev. lia.
Qed.

Lemma Forall_vars_extends a a' Ps : extends a a' -> Forall (vars_in (access_ok (regs a))) Ps -> Forall (vars_in (access_ok (regs a'))) Ps.
Proof. intros He H. eapply Forall_impl; [exact H|]. intros P. apply vars_in_impl. intros v. by apply access_extends. Qed.

Lemma Forall_over_extends a a' Ps : extends a a' -> Forall (over (access_ok (regs a))) Ps -> Forall (over (access_ok (regs a'))) Ps.
Proof. intros He H. eapply Forall_impl; [exact H|]. intros P. apply over_impl. intros v. by apply access_extends. Qed.

Lemma Forall_equation_extends a a' es : extends a a' -> Forall (equation_in (access_ok (regs a))) es -> Forall (equation_in (access_ok (regs a'))) es.
Proof. intros He H. eapply Forall_impl; [exact H|]. intros e. by apply equation_in_extends. Qed.

(** Both sides with their carries *)
Lemma round_exact_intro p a a1 a2 a3 a4 L R les res ws lc rc lf rf lhs rhs (good := equation_masked p) :
  over (access_ok (regs a)) (LeftHandSide p) -> over (access_ok (regs a)) (RightHandSide p) -> alloc_ok a1 -> alloc_ok a2 -> alloc_ok a3 ->
  BitLen (Eval (LeftHandSide p) (top DynamicEnvironment)) <= width_sum ws -> BitLen (Eval (RightHandSide p) (top DynamicEnvironment)) <= width_sum ws ->
  widths_ok ws -> length lc = length rc -> (length lc <= length ws)%nat ->
  extends a a1 -> extends a1 a2 -> extends a2 a3 -> extends a3 a4 ->
  nonlinear_result good a (LeftHandSide p) L les a1 -> nonlinear_result good a1 (RightHandSide p) R res a2 ->
  chunked L ws lc lf -> chunked R ws rc rf -> carried good a3 lc ws lhs -> carried good a4 rc ws rhs ->
  round_exact p a lhs rhs (les ++ res) a4.
Proof.
  intros Hl Hr A1 A2 A3 Hwl Hwr Hpos Hlen Hle E1 E2 E3 E4 HL HR HcL HcR Hcl Hcr.
  assert (E24 : extends a2 a4) by (by etrans). assert (E14 : extends a1 a4) by (by etrans). assert (E04 : extends a a4) by (by etrans).
  assert (Hl4 : over (access_ok (regs a4)) (LeftHandSide p)) by (eapply over_impl; [|exact Hl]; intros v; by apply access_extends).
  assert (Hr4 : over (access_ok (regs a4)) (RightHandSide p)) by (eapply over_impl; [|exact Hr]; intros v; by apply access_extends).
  assert (Hgood : forall val k, good val -> over (masked val k) (LeftHandSide p) /\ over (masked val k) (RightHandSide p)).
  { intros val k Hg. destruct (Hg k) as [H1 H2]. split; split; try done; [apply Hl|apply Hr]. }
  assert (Hsides : forall val k, good val -> in_range (regs a4) val -> (forall k, Forall (holds val k) (les ++ res)) ->
    (Eval (LeftHandSide p) (at_row val k) = digits_value ws (values (at_row val k) lhs) /\ Forall (over (masked val k)) lc) /\
    (Eval (RightHandSide p) (at_row val k) = digits_value ws (values (at_row val k) rhs) /\ Forall (over (masked val k)) rc)).
  { intros val k Hg Hir Hctx. destruct (Hgood val k Hg) as [Hml Hmr]. split.
    - eapply (side_value good a3 a4 _ L); try done. eapply (nonlinear_value _ _ _ _ _ _ HL); [by eapply extends_in_range| |done].
      intros k'. by destruct (proj1 (Forall_app _ _ _) (Hctx k')).
    - eapply (side_value good a4 a4 _ R); try done. eapply (nonlinear_value _ _ _ _ _ _ HR); [by eapply extends_in_range| |done].
      intros k'. by destruct (proj1 (Forall_app _ _ _) (Hctx k')). }
  assert (Hctx : forall val k, in_range (regs a4) val -> filled a4 val -> Forall (holds val k) (les ++ res)).
  { intros val k Hir Hf. apply Forall_app. split.
    - apply (nonlinear_holds _ _ _ _ _ _ HL); [by eapply extends_in_range|by eapply extends_filled].
    - apply (nonlinear_holds _ _ _ _ _ _ HR); [by eapply extends_in_range|by eapply extends_filled]. }
  split.
  - rewrite (carried_length _ _ _ _ _ Hcl), (carried_length _ _ _ _ _ Hcr). done.
  - apply Forall_app. split; [|by eapply carried_vars]. eapply Forall_vars_extends; [exact E4|by eapply carried_vars].
  - apply Forall_app. split; (eapply Forall_equation_extends; [|by eapply nonlinear_in]); done.
  - intros val k Hg Hir Hc Heq. destruct (Hsides val k Hg Hir Hc) as [[H1 _] [H2 _]]. unfold holds. rewrite H1, H2. by f_equal.
  - intros val k Hg Hir Hf. split; [by apply Hctx|]. intros Hh. destruct (Hsides val k Hg Hir (fun k => Hctx val k Hir Hf)) as [[H1 _] [H2 _]].
    unfold holds in Hh. rewrite H1, H2 in Hh. unfold chunks_hold. apply (digits_unique ws); try done.
    + unfold values. rewrite !length_map. by rewrite (carried_length _ _ _ _ _ Hcl), (carried_length _ _ _ _ _ Hcr).
    + unfold values. rewrite length_map, (carried_length _ _ _ _ _ Hcl). done.
    + intros i u v Hi Hu Hv. eapply (carried_digits _ _ _ _ _ Hcl val k Hg); [by eapply extends_in_range|by eapply extends_filled| |exact Hu|exact Hv].
      unfold values in Hi. by rewrite length_map in Hi.
    + intros i u v Hi Hu Hv. eapply (carried_digits _ _ _ _ _ Hcr val k Hg); [done|done| |exact Hu|exact Hv]. unfold values in Hi. by rewrite length_map in Hi.
  - intros val k Hg Hir Hc. destruct (Hsides val k Hg Hir Hc) as [[_ H1] [_ H2]]. apply Forall_app. split.
    + by apply (carried_masked _ _ _ _ _ Hcl); [eapply extends_in_range|].
    + by apply (carried_masked _ _ _ _ _ Hcr).
  - assert (Hsrc : forall P rid, over (access_ok (regs a)) P -> rid ∈ AccessId.id <$> (P ≫= vars) -> (rid < length (regs a))%nat).
    { intros P rid HP%over_vars Hin. apply list_elem_of_fmap in Hin as (v & -> & Hv). rewrite Forall_forall in HP. by apply access_lt, HP. }
    apply Forall_app. split; (eapply Forall_impl; [by eapply nonlinear_bound|]); intros e; (eapply context_bound_extends; [done|]); intros rid; by apply Hsrc.
Qed.

Lemma all_masked_side good a a1 a2 P L es ws lc rest :
  alloc_ok a1 -> extends a1 a2 -> nonlinear_result good a P L es a1 -> chunked L ws lc rest ->
  (forall val k, good val -> over (masked val k) P) -> all_masked good a2 lc.
Proof.
  intros Ha He HL Hch Hm val Hg Hir Hf k. apply (chunked_over _ _ _ _ Hch).
  eapply (nonlinear_value _ _ _ _ _ _ HL); [by eapply extends_in_range| |by apply Hm].
  intros k'. apply (nonlinear_holds _ _ _ _ _ _ HL); [by eapply extends_in_range|by eapply extends_filled].
Qed.

Lemma chunk_round_spec p cw a :
  alloc_ok a -> 1 <= cw < 2 ^ 62 -> over (access_ok (regs a)) (LeftHandSide p) -> over (access_ok (regs a)) (RightHandSide p) ->
  exists o a', chunk_round field p cw a = Ok (o, a') /\ steps (equation_masked p) a a' /\
    match o with Some (lhs, rhs, context) => round_exact p a lhs rhs context a' | None => True end.
Proof.
  intros Ha Hcw Hl Hr. unfold chunk_round, determineChunkBitwidths. destruct (Width_spec a p Hl Hr) as (w & -> & Hw & Hwl & Hwr).
  cbn [mbind result_bind]. destruct (chunk_widths_spec (Z.to_nat w) cw w) as (ws & -> & Hws & Hsum); [lia..|]. cbn [mbind result_bind].
  pose proof (positive_widths _ _ Hws) as Hpos. set (good := equation_masked p). set (n0 := length (regs a)).
  assert (Hagree : forall val val', agree n0 val val' -> good val -> good val').
  { intros val val'. apply equation_masked_agree. split; [apply Hl|apply Hr]. }
  assert (Hgood : forall val k, good val -> over (masked val k) (LeftHandSide p) /\ over (masked val k) (RightHandSide p)).
  { intros val k Hg. destruct (Hg k) as [H1 H2]. split; split; try done; [apply Hl|apply Hr]. }
  destruct (splitNonLinearTerms_spec good n0 Hagree field cw (LeftHandSide p) a) as (L & les & a1 & -> & HL); [done..|]. cbn [mbind result_bind].
  destruct (nonlinear_steps _ _ _ _ _ _ HL) as [E1 A1 F1].
  assert (N1 : (n0 <= length (regs a1))%nat) by (by apply extends_length).
  destruct (splitNonLinearTerms_spec good n0 Hagree field cw (RightHandSide p) a1) as (R & res & a2 & -> & HR); [done..| |].
  { eapply over_impl; [|exact Hr]. intros v. by apply access_extends. }
  cbn [mbind result_bind]. destruct (nonlinear_steps _ _ _ _ _ _ HR) as [E2 A2 F2].
  assert (N2 : (n0 <= length (regs a2))%nat) by (etrans; [exact N1|by apply extends_length]).
  destruct (chunkEquation_spec ws Hpos L R) as (lf & rf & HcL & HcR & Hlen & Hle). destruct (chunkEquation L R ws) as [lc rc]. cbn [fst snd] in *.
  destruct (addCarryLines_spec good n0 Hagree field ltac:(apply Hfield) lc ws a2) as (lhs & lok & a3 & -> & S3 & C3); [done..| | |].
  { eapply Forall_over_extends; [exact E2|]. apply (chunked_over _ _ _ _ HcL). apply HL. }
  { eapply all_masked_side; [exact A1|exact E2|exact HL|exact HcL|]. intros val k Hg. by apply Hgood. }
  cbn [mbind result_bind]. destruct S3 as [E3 A3 F3].
  assert (N3 : (n0 <= length (regs a3))%nat) by (etrans; [exact N2|by apply extends_length]).
  destruct (addCarryLines_spec good n0 Hagree field ltac:(apply Hfield) rc ws a3) as (rhs & rok & a4 & -> & S4 & C4); [done..|lia| | |].
  { eapply Forall_over_extends; [exact E3|]. apply (chunked_over _ _ _ _ HcR). apply HR. }
  { eapply all_masked_side; [exact A2|exact E3|exact HR|exact HcR|]. intros val k Hg. by apply Hgood. }
  cbn [mbind result_bind]. eexists _, a4. split; [done|]. split.
  { eapply steps_trans; [exact Hagree|done|by split|]. eapply steps_trans; [exact Hagree|done|by split|]. eapply steps_trans; [exact Hagree|done|by split|done]. }
  destruct lok, rok; cbn [andb]; try done.
  eapply (round_exact_intro p a a1 a2 a3 a4); try done; try lia; [apply S4|by apply C3|by apply C4].
Qed.

(** ** The rounds of [chunkUp] *)

Lemma Reset_extends a a' : alloc_ok a -> extends a a' -> Allocator.Reset a' (length (regs a)) = Ok a.
Proof.
  intros Ha [Hm [l Hl] [m Hs]]. unfold Allocator.Reset. rewrite Hm. destruct (Nat.ltb_spec (length (regs a)) (Allocator.Mapping a)) as [H|_].
  { pose proof (alloc_mapping a Ha). lia. }
  rewrite Hl, Hs, take_app_length, <- (alloc_length a Ha), take_app_length. by destruct a.
Qed.

Lemma chunk_round_zero p a : alloc_ok a -> over (access_ok (regs a)) (LeftHandSide p) -> over (access_ok (regs a)) (RightHandSide p) ->
  (exists w, Width p = Ok w /\ 0 < w) -> chunk_round field p 0 a = Fault OutOfFuel.
Proof. intros Ha Hl Hr (w & Hw & Hpos). unfold chunk_round, determineChunkBitwidths. rewrite Hw. cbn [mbind result_bind]. by rewrite chunk_widths_zero. Qed.

Lemma chunk_loop_spec fuel p cw a :
  alloc_ok a -> 0 <= cw < 2 ^ 62 -> over (access_ok (regs a)) (LeftHandSide p) -> over (access_ok (regs a)) (RightHandSide p) ->
  (exists w, Width p = Ok w /\ 0 < w) ->
  chunk_loop field fuel (length (regs a)) p cw a = Fault OutOfFuel \/
  exists lhs rhs context a', chunk_loop field fuel (length (regs a)) p cw a = Ok (target_equations lhs rhs, context, a')
    /\ steps (equation_masked p) a a' /\ round_exact p a lhs rhs context a'.
Proof.
  intros Ha Hcw Hl Hr Hw. revert cw Hcw. induction fuel as [|fuel IH]; intros cw Hcw; cbn [chunk_loop]; [by left|].
  destruct (decide (cw = 0)) as [->|Hne]; [left; by rewrite chunk_round_zero|].
  destruct (chunk_round_spec p cw a Ha ltac:(lia) Hl Hr) as (o & a' & -> & Hst & Ho). cbn [mbind result_bind].
  destruct o as [[[lhs rhs] context]|]; [right; by exists lhs, rhs, context, a'|].
  rewrite (Reset_extends a a' Ha (steps_extends _ _ _ Hst)). cbn [mbind result_bind]. apply IH.
  split; [apply Z.div_pos; lia|]. apply Z.div_lt_upper_bound; lia.
Qed.

(** Chunks of the balanced equation are exact for the equation itself. *)
Lemma chunks_exact p a lhs rhs context a' : equation_in (access_ok (regs a)) p ->
  steps (equation_masked (Balance p)) a a' -> round_exact (Balance p) a lhs rhs context a' ->
  split_exact p a (target_equations lhs rhs) context a'.
Proof.
  intros Hp Hst [Hlen Hin Hctx Hs Hc Hb Hcb]. destruct (Balance_spec p) as [Hbo Hbv].
  assert (Hm : forall val, equation_masked p val -> equation_masked (Balance p) val).
  { intros val H k. destruct (Hbo _ (H k)) as [[_ ?] [_ ?]]. by split. }
  assert (Hiff : forall val k, holds val k (Balance p) <-> holds val k p) by (intros val k; unfold holds; specialize (Hbv (at_row val k)); lia).
  apply Forall_app in Hin as [Hil Hir]. split.
  - destruct Hst as [E A F]. split; [done|done|]. intros val Hg. by apply F, Hm.
  - apply Forall_app. split; [|done]. eapply target_equations_Forall; [|exact Hil|exact Hir]. intros l r H1 H2. by split.
  - intros val k Hg Hr Hcx Ht. apply Hiff, Hs; auto. by apply target_equations_hold.
  - intros val k Hg Hr Hf. destruct (Hc val k (Hm _ Hg) Hr Hf) as [H1 H2]. split; [done|]. intros Hh. apply target_equations_hold; [done|]. by apply H2, Hiff.
  - intros val k Hg Hr Hcx. pose proof (Hb val k (Hm _ Hg) Hr Hcx) as [H1 H2]%Forall_app.
    eapply target_equations_Forall; [|exact H1|exact H2]. intros l r Hl Hrr. by split.
  - done.
Qed.

Lemma Split_spec p a : alloc_ok a -> equation_in (access_ok (regs a)) p ->
  Split field p a = Fault OutOfFuel \/
  exists targets context a', Split field p a = Ok (targets, context, a') /\ split_exact p a targets context a'.
Proof.
  intros Ha Hp. unfold Split. destruct (Balance_spec p) as [Hbo Hbv]. destruct (Hbo _ Hp) as [Hl Hr].
  destruct (Width_spec a (Balance p) Hl Hr) as (w & Hw & Hpos & Hwl & Hwr). rewrite Hw. cbn [mbind result_bind].
  destruct (Z.ltb_spec (BandWidth field) w) as [Hlt|Hle].
  - unfold chunkUp. destruct (chunk_loop_spec 65 (Balance p) (RegisterWidth field) a Ha ltac:(lia) Hl Hr) as [->|(lhs & rhs & ctx & a' & -> & Hst & Hex)]; [|by left|].
    { exists w. split; [done|lia]. }
    right. eexists _, _, _. split; [done|]. by apply chunks_exact.
  - right. exists [p], [], a. split; [done|]. split.
    + by apply steps_refl.
    + by apply Forall_singleton.
    + intros val k _ _ _ H. by apply Forall_inv in H.
    + intros val k _ _ _. split; [constructor|]. intros H. by apply Forall_singleton.
    + intros val k Hg _ _. by apply Forall_singleton.
    + constructor.
Qed.

End Round.

(** ** Properties *)

Definition config_ok (field : Config) : Prop := 1 <= RegisterWidth field < 2 ^ 62 /\ 0 <= BandWidth field < 2 ^ 62.

(** Both sides are congruent modulo the characteristic of the field. *)
Definition holds_mod (modulus : Z) (val : valuation) (k : Z) (e : Equation.t) : Prop :=
  eqm modulus (Eval (LeftHandSide e) (at_row val k)) (Eval (RightHandSide e) (at_row val k)).

Lemma NewAllocator_ok rs : Forall (fun r => 0 <= Register.width r < 2 ^ 62) rs -> alloc_ok (Allocator.NewAllocator rs).
Proof.
  intros Hw. split; cbn; [done|apply length_replicate|done|]. intros i n f Hi. by apply lookup_replicate in Hi as [? _].
Qed.

Lemma NewAllocator_filled rs val : filled (Allocator.NewAllocator rs) val.
Proof. intros i n f Hi. cbn in Hi. by apply lookup_replicate in Hi as [? _]. Qed.

Lemma vars_value_ext {V} (env env' : V -> Z) vs : Forall (fun v => env v = env' v) vs -> vars_value env vs = vars_value env' vs.
Proof. induction 1 as [|v vs Hv _ IH]; [done|]. unfold vars_value in *. cbn [foldr]. by rewrite Hv, IH. Qed.

Lemma Eval_ext (env env' : AccessId.t -> Z) (P : DynamicPolynomial) : vars_in (fun v => env v = env' v) P -> Eval P env = Eval P env'.
Proof. induction 1 as [|p P Hp _ IH]; [done|]. by rewrite !Eval_cons, !evalTerm_value, IH, (vars_value_ext env env'). Qed.

Lemma holds_agree rs p val val' k : equation_in (access_ok rs) p -> agree (length rs) val val' -> holds val k p <-> holds val' k p.
Proof.
  intros [H1 H2] Ha. unfold holds. rewrite !(Eval_ext (at_row val k) (at_row val' k)); [done| |];
    (eapply vars_in_impl; [|eassumption]); intros v Hv; unfold at_row; apply Ha; by eapply access_lt.
Qed.

Lemma eqm_close m x y : 0 < m -> Z.abs (x - y) < m -> eqm m x y -> x = y.
Proof. intros Hm Hb [q Hq]. assert (q = 0) by nia. nia. Qed.

(** The check of width that [Split] begins with: an equation that passes it is left whole. *)
Definition fits_band (field : Config) (e : Equation.t) : bool :=
  match Width (Balance e) with Ok width => negb (BandWidth field <? width) | Fault _ => false end.

(** Every configured field has more values than its bandwidth. *)
Lemma Modulus_band bls12_377_Modulus field modulus : 2 ^ 252 <= bls12_377_Modulus ->
  Config_Modulus bls12_377_Modulus field = Ok modulus -> config_ok field /\ 2 ^ BandWidth field <= modulus.
Proof.
  unfold Config_Modulus, config_ok. intros Hbls H.
  repeat (case_decide as Hd; [rewrite Hd; injection H as <-; cbn; lia|clear Hd]). discriminate H.
Qed.

(** In such an equation congruent sides are equal. *)
Lemma fits_band_close field modulus a val k e :
  2 ^ BandWidth field <= modulus -> equation_in (access_ok (regs a)) e -> equation_in (masked val k) e ->
  fits_band field e = true -> holds_mod modulus val k e -> holds val k e.
Proof.
  intros Hmod Hin Hmask Hfit Ht. destruct (Balance_spec e) as [Hbo Hbv]. destruct (Hbo _ Hin) as [Hl Hr], (Hbo _ Hmask) as [Hml Hmr].
  unfold fits_band in Hfit. destruct (Width_spec a (Balance e) Hl Hr) as (w & Hw & Hpos & Hwl & Hwr).
  rewrite Hw, negb_true_iff, Z.ltb_ge in Hfit. specialize (Hbv (at_row val k)).
  pose proof (width_value a _ val k (BandWidth field) Hl Hml ltac:(lia)). pose proof (width_value a _ val k (BandWidth field) Hr Hmr ltac:(lia)).
  apply (eqm_close modulus); [lia|lia|exact Ht].
Qed.

(** *** Deciding the hypotheses on concrete equations *)

Definition access_okb (rs : list Register.t) (v : AccessId.t) : bool :=
  match rs !! AccessId.id v with
  | Some r => (AccessId.bitwidth v =? Register.width r) && (0 <=? AccessId.maskwidth v) && (AccessId.maskwidth v <=? AccessId.bitwidth v) && (AccessId.bitwidth v <? 2 ^ 62)
  | None => false
  end.

Definition maskedb (val : valuation) (k : Z) (v : AccessId.t) : bool := (0 <=? at_row val k v) && (at_row val k v <? 2 ^ AccessId.maskwidth v).

Definition equation_inb (f : AccessId.t -> bool) (e : Equation.t) : bool :=
  forallb (fun p => forallb f (vars p)) (LeftHandSide e) && forallb (fun p => forallb f (vars p)) (RightHandSide e).

Lemma equation_inb_spec (R : AccessId.t -> Prop) f e : (forall v, f v = true -> R v) -> equation_inb f e = true -> equation_in R e.
Proof.
  intros Hf [H1 H2]%andb_prop. split; [revert H1; generalize (LeftHandSide e)|revert H2; generalize (RightHandSide e)]; intros P HP;
    apply Forall_forall; intros p Hp; rewrite forallb_forall in HP; specialize (HP p (proj1 (list_elem_of_In _ _) Hp));
    apply Forall_forall; intros v Hv; rewrite forallb_forall in HP; apply Hf, HP; by apply list_elem_of_In.
Qed.

Lemma access_okb_spec rs v : access_okb rs v = true -> access_ok rs v.
Proof.
  unfold access_okb, access_ok. destruct (rs !! AccessId.id v) as [r|]; [|done]. rewrite !andb_true_iff, Z.eqb_eq, !Z.leb_le, Z.ltb_lt.
  intros [[[H1 H2] H3] H4]. by exists r.
Qed.

Lemma maskedb_spec val k v : maskedb val k v = true -> masked val k v.
Proof. unfold maskedb, masked, fits, DynamicEnvironment. rewrite andb_true_iff, Z.leb_le, Z.ltb_lt. done. Qed.

Module EquationProperties.

(** C6: Splitting an equation into targets and a context never panics: it returns, or the
    width of the chunks is halved down to zero and the loop goes on for ever.  What it
    returns is exact: the registers that it allocates can be given their assigned
    values, within their widths, and then the context holds on every row and the
    targets hold exactly on the rows where the equation does; and targets that hold,
    whatever the values of the carries, imply the equation. *)
Theorem equation_split (field : Config) (p : Equation.t) (rs : list Register.t) :
  config_ok field -> Forall (fun r => 0 <= Register.width r < 2 ^ 62) rs -> equation_in (access_ok rs) p ->
  Split field p (Allocator.NewAllocator rs) = Fault OutOfFuel \/
  exists targets context a, Split field p (Allocator.NewAllocator rs) = Ok (targets, context, a) /\
    (forall val, in_range rs val -> equation_masked p val -> exists val',
       agree (length rs) val val' /\ in_range (regs a) val' /\ filled a val' /\
       forall k, Forall (holds val' k) context /\ (holds val k p <-> Forall (holds val' k) targets)) /\
    (forall val, in_range (regs a) val -> equation_masked p val -> (forall k, Forall (holds val k) context) ->
       forall k, Forall (holds val k) targets -> holds val k p).
Proof.
  intros Hf Hrs Hp. pose proof (NewAllocator_ok rs Hrs) as Ha.
  destruct (Split_spec field Hf p (Allocator.NewAllocator rs) Ha Hp) as [H|(ts & cs & a & H & [[He Hok Hfill] Hin Hsound Hcomp _ _])]; [by left|right].
  exists ts, cs, a. split; [done|]. split; [|intros val Hr Hm Hc k; by apply Hsound].
  intros val Hr Hm. destruct (Hfill val Hm Hr (NewAllocator_filled rs val)) as (val' & Hag & Hr' & Hf'). cbn in Hag.
  exists val'. split; [done|]. split; [done|]. split; [done|]. intros k.
  assert (Hm' : equation_masked p val') by (by apply (equation_masked_agree (Allocator.NewAllocator rs) p val val')).
  rewrite (holds_agree rs p val val' k Hp Hag). destruct (Hcomp val' k Hm' Hr' Hf') as [Hc Ht]. split; [done|]. split; [done|].
  apply Hsound; [done|done|]. intros k'. by apply Hcomp.
Qed.

(** C8: For each of the configured fields, an equation over registers no wider than the
    bandwidth that is split into targets which all pass, once balanced, the check of
    width that [Split] itself begins with ([fits_band]) can be checked in the field:
    targets and context that hold modulo the characteristic, for values within the
    widths of the registers, imply the equation over the integers.  [Split] makes this
    check on the chunks before their carries are subtracted only, and without it the
    claim fails ([split_wraps]).  The characteristic of BLS12_377, which the code
    takes from gnark, is only taken to have more than 252 bits. *)
Theorem equation_split_field (bls12_377_Modulus : Z) (field : Config) (p : Equation.t) (rs : list Register.t)
    (targets context : list Equation.t) (a : RegisterAllocator) (modulus : Z) (val : valuation) (k : Z) :
  2 ^ 252 <= bls12_377_Modulus -> Config_Modulus bls12_377_Modulus field = Ok modulus ->
  Forall (fun r => 0 <= Register.width r <= BandWidth field) rs -> equation_in (access_ok rs) p ->
  Split field p (Allocator.NewAllocator rs) = Ok (targets, context, a) -> forallb (fits_band field) targets = true ->
  in_range (regs a) val -> equation_masked p val -> (forall k, Forall (holds_mod modulus val k) context) ->
  Forall (holds_mod modulus val k) targets -> holds val k p.
Proof.
  intros Hbls Hmodulus Hrs Hp Hs Hfit Hr Hm Hc Ht. destruct (Modulus_band _ _ _ Hbls Hmodulus) as [Hf Hmod].
  assert (Ha : alloc_ok (Allocator.NewAllocator rs)).
  { apply NewAllocator_ok. eapply Forall_impl; [exact Hrs|]. cbn. destruct Hf as [_ ?]. lia. }
  destruct (Split_spec field Hf p (Allocator.NewAllocator rs) Ha Hp) as [H|(ts & cs & a' & H & [[He Hok Hfill] Hin Hsound _ Hmasked Hctx])]; [congruence|].
  rewrite H in Hs. injection Hs as -> -> ->. destruct Hf as [_ Hb]. pose proof (two_power_pos (BandWidth field) ltac:(lia)).
  assert (Hc' : forall k, Forall (holds val k) context).
  { intros k'. apply Forall_forall. intros e He'. rewrite Forall_forall in Hctx. destruct (Hctx e He') as (rid & reg & Hlt & Hreg & Hbd).
    specialize (Hc k'). rewrite Forall_forall in Hc. specialize (Hc e He'). apply (eqm_close modulus); [lia| |exact Hc].
    specialize (Hbd val k' Hr). destruct He as [_ [l Hl] _]. cbn in Hl. rewrite Hl, lookup_app_l in Hreg by done.
    pose proof (Forall_lookup_1 _ _ _ _ Hrs Hreg) as Hw. cbn in Hw.
    assert (2 ^ Register.width reg <= 2 ^ BandWidth field) by (apply Z.pow_le_mono_r; lia). lia. }
  apply Hsound; [done|done|done|]. specialize (Hmasked val k Hm Hr Hc'). apply Forall_app in Hin as [Hin _].
  rewrite forallb_forall in Hfit. rewrite Forall_forall in *. intros e He'.
  apply (fits_band_close field modulus a); try auto. by apply Hfit, list_elem_of_In.
Qed.

(** *** The equation [x = y + 1] of the documentation, over limbs of eight bits *)

Definition field10 : Config := mkConfig "test" 10 8.
Definition limb8 (name : string) : Register.t := Register.NewComputed name 8 0.
Definition sample_regs : list Register.t := [limb8 "x'0"; limb8 "x'1"; limb8 "y'0"; limb8 "y'1"].
Definition byte (i : nat) : AccessId.t := AccessId.AccessOf i 8.
Definition sample : Equation.t :=
  NewEquation (Set_ [NewMonomial 256 [byte 1]; NewMonomial 1 [byte 0]]) (Set_ [NewMonomial 256 [byte 3]; NewMonomial 1 [byte 2]; NewMonomial 1 []]).

(** The rows are all alike: [x] is 512 and [y] is 511. *)
Definition sample_val : valuation := fun i _ => match i with 0%nat => 0 | 1%nat => 2 | 2%nat => 255 | 3%nat => 1 | 4%nat => 1 | _ => 0 end.

Definition sample_split := Eval vm_compute in Split field10 sample (Allocator.NewAllocator sample_regs).
Definition sample_targets := Eval vm_compute in match sample_split with Ok (t, _, _) => t | Fault _ => [] end.
Definition sample_context := Eval vm_compute in match sample_split with Ok (_, c, _) => c | Fault _ => [] end.
Definition sample_alloc := Eval vm_compute in match sample_split with Ok (_, _, a) => a | Fault _ => Allocator.NewAllocator [] end.

Lemma sample_splits : Split field10 sample (Allocator.NewAllocator sample_regs) = Ok (sample_targets, sample_context, sample_alloc).
Proof. vm_compute. reflexivity. Qed.

Lemma sample_config : config_ok field10.
Proof. split; cbn; lia. Qed.

Lemma sample_widths : Forall (fun r => 0 <= Register.width r < 2 ^ 62) sample_regs.
Proof. repeat constructor; cbn; lia. Qed.

Lemma sample_in : equation_in (access_ok sample_regs) sample.
Proof. apply (equation_inb_spec _ _ _ (access_okb_spec sample_regs)). vm_compute. reflexivity. Qed.

Lemma sample_in_range : in_range (regs sample_alloc) sample_val.
Proof. intros i r Hi k. do 5 (destruct i as [|i]; [injection Hi as <-; cbn; lia|]). done. Qed.

Lemma sample_masked : equation_masked sample sample_val.
Proof. intros k. apply (equation_inb_spec _ _ _ (maskedb_spec sample_val k)). vm_compute. reflexivity. Qed.

Lemma sample_targets_hold k : Forall (holds sample_val k) sample_targets.
Proof. repeat constructor. Qed.

Lemma equation_split_witness : holds sample_val 7 sample.
Proof.
  destruct (equation_split field10 sample sample_regs sample_config sample_widths sample_in) as [H|(ts & cs & a & Hs & _ & H)];
    [rewrite sample_splits in H; discriminate H|].
  rewrite sample_splits in Hs. injection Hs as <- <- <-.
  apply (H sample_val sample_in_range sample_masked (fun k => List.Forall_nil _) 7 (sample_targets_hold 7)).
Defined.

(** *** The same equation over limbs of sixteen bits, for KoalaBear *)

Definition limb16 (name : string) : Register.t := Register.NewComputed name 16 0.
Definition koala_regs : list Register.t := [limb16 "x'0"; limb16 "x'1"; limb16 "y'0"; limb16 "y'1"].
Definition word (i : nat) : AccessId.t := AccessId.AccessOf i 16.
Definition koala : Equation.t :=
  NewEquation (Set_ [NewMonomial 65536 [word 1]; NewMonomial 1 [word 0]]) (Set_ [NewMonomial 65536 [word 3]; NewMonomial 1 [word 2]; NewMonomial 1 []]).

(** [x] is 131072 and [y] is 131071, with a carry of one. *)
Definition koala_val : valuation := fun i _ => match i with 0%nat => 0 | 1%nat => 2 | 2%nat => 65535 | 3%nat => 1 | 4%nat => 1 | _ => 0 end.

Definition koala_split := Eval vm_compute in Split KOALABEAR_16 koala (Allocator.NewAllocator koala_regs).
Definition koala_targets := Eval vm_compute in match koala_split with Ok (t, _, _) => t | Fault _ => [] end.
Definition koala_alloc := Eval vm_compute in match koala_split with Ok (_, _, a) => a | Fault _ => Allocator.NewAllocator [] end.

Lemma koala_in_range : in_range (regs koala_alloc) koala_val.
Proof. intros i r Hi k. do 5 (destruct i as [|i]; [injection Hi as <-; cbn; lia|]). done. Qed.

Lemma equation_split_field_witness : length koala_targets = 2%nat /\ holds koala_val 0 koala.
Proof.
  split; [reflexivity|].
  apply (equation_split_field (2 ^ 252) KOALABEAR_16 koala koala_regs koala_targets [] koala_alloc 2130706433 koala_val 0).
  - lia.
  - reflexivity.
  - repeat constructor; cbn; lia.
  - apply (equation_inb_spec _ _ _ (access_okb_spec koala_regs)). vm_compute. reflexivity.
  - vm_compute. reflexivity.
  - vm_compute. reflexivity.
  - exact koala_in_range.
  - intros k. apply (equation_inb_spec _ _ _ (maskedb_spec koala_val k)). vm_compute. reflexivity.
  - intros k. exact (List.Forall_nil _).
  - repeat constructor; by exists 0.
Defined.

(** *** A characteristic below two bandwidths

    With carries on both sides a chunk can wrap around.  For the configuration GF_8209
    (bandwidth 13, characteristic below [2 ^ 14]) the equation [x * y + 256 * u = z * t +
    256 * v] over registers of 8 and 5 bits has targets that hold modulo 8209 where
    the equation does not hold over the integers. *)

Definition wrap_regs : list Register.t :=
  [limb8 "x"; Register.NewComputed "y" 5 0; Register.NewComputed "u" 5 0; limb8 "z"; Register.NewComputed "t" 5 0; Register.NewComputed "v" 5 0].
Definition five (i : nat) : AccessId.t := AccessId.AccessOf i 5.
Definition wrap_equation : Equation.t :=
  NewEquation (Set_ [NewMonomial 1 [byte 0; five 1]; NewMonomial 256 [five 2]]) (Set_ [NewMonomial 1 [byte 3; five 4]; NewMonomial 256 [five 5]]).

Definition wrap_val : valuation := fun i _ =>
  match i with 0%nat => 39 | 1%nat => 7 | 2%nat => 31 | 7%nat => 31 | _ => 0 end.

Lemma split_wraps : exists targets context a, Split GF_8209 wrap_equation (Allocator.NewAllocator wrap_regs) = Ok (targets, context, a) /\
  in_range (regs a) wrap_val /\ equation_masked wrap_equation wrap_val /\ context = [] /\
  Forall (holds_mod 8209 wrap_val 0) targets /\ ~ holds wrap_val 0 wrap_equation /\ forallb (fits_band GF_8209) targets = false.
Proof.
  eexists _, _, _. split; [vm_compute; reflexivity|]. split_and!.
  - intros i r Hi k. do 8 (destruct i as [|i]; [injection Hi as <-; cbn; lia|]). done.
  - intros k. apply (equation_inb_spec _ _ _ (maskedb_spec wrap_val k)). vm_compute. reflexivity.
  - done.
  - repeat constructor; (exists 1; vm_compute; reflexivity) || (exists 0; vm_compute; reflexivity) || (exists (-1); vm_compute; reflexivity).
  - vm_compute. discriminate.
  - vm_compute. reflexivity.
Qed.

(** *** Equations that are never split

    Only the variables of terms that are too wide by themselves are split.  In a sum of
    products that just fit, such as [x * y + z * t = w] over registers of 15 bits for
    KoalaBear (bandwidth 30), no chunk ever fits and the loop does not end, whatever
    the fuel. *)

Definition reg15 (name : string) : Register.t := Register.NewComputed name 15 0.
Definition stuck_regs : list Register.t := [reg15 "x"; reg15 "y"; reg15 "z"; reg15 "t"; reg15 "w"].
Definition half (i : nat) : AccessId.t := AccessId.AccessOf i 15.
Definition stuck_equation : Equation.t :=
  NewEquation (Set_ [NewMonomial 1 [half 0; half 1]; NewMonomial 1 [half 2; half 3]]) (Set_ [NewMonomial 1 [half 4]]).

Lemma chunk_loop_zero field fuel n p a : (exists w, Width p = Ok w /\ 0 < w) -> chunk_loop field fuel n p 0 a = Fault OutOfFuel.
Proof.
  intros (w & Hw & Hpos). destruct fuel as [|fuel]; [done|]. cbn [chunk_loop]. unfold chunk_round, determineChunkBitwidths.
  rewrite Hw. cbn [mbind result_bind]. by rewrite chunk_widths_zero.
Qed.

Lemma split_diverges fuel : chunk_loop KOALABEAR_16 fuel 5 (Balance stuck_equation) 16 (Allocator.NewAllocator stuck_regs) = Fault OutOfFuel
  /\ Split KOALABEAR_16 stuck_equation (Allocator.NewAllocator stuck_regs) = chunkUp KOALABEAR_16 (Balance stuck_equation) (Allocator.NewAllocator stuck_regs).
Proof.
  split; [|vm_compute; reflexivity].
  assert (Hround : forall cw, In cw [16; 8; 4; 2; 1] -> exists a, chunk_round KOALABEAR_16 (Balance stuck_equation) cw (Allocator.NewAllocator stuck_regs) = Ok (None, a)
    /\ Allocator.Reset a 5 = Ok (Allocator.NewAllocator stuck_regs)).
  { intros cw Hin. repeat (destruct Hin as [<-|Hin]; [eexists; split; vm_compute; reflexivity|]). done. }
  assert (Hstep : forall cw fuel, In cw [16; 8; 4; 2; 1] -> chunk_loop KOALABEAR_16 (S fuel) 5 (Balance stuck_equation) cw (Allocator.NewAllocator stuck_regs)
    = chunk_loop KOALABEAR_16 fuel 5 (Balance stuck_equation) (cw / 2) (Allocator.NewAllocator stuck_regs)).
  { intros cw f Hin. destruct (Hround cw Hin) as (a & Ha & Hr). cbn [chunk_loop]. rewrite Ha. cbn [mbind result_bind]. by rewrite Hr. }
  do 5 (destruct fuel as [|fuel]; [done|rewrite Hstep by (cbn; tauto)]). apply chunk_loop_zero. exists 31. split; [vm_compute; reflexivity|done].
Qed.

End EquationProperties.
