(* ===== verification/Source.v ===== *)
(** * Source files, spans and source maps

    Models [pkg/util/source]: the lines of a file, the syntax errors over spans of its
    text, and the maps from nodes of a syntax tree to spans.  The text of a file is
    its runes.  Nodes are keyed by identity: pointers in the program, addresses here. *)

From Stdlib Require Import ZArith Lia.
From stdpp Require Import base numbers list option strings gmap.
From S2P Require Import Prelude.

Open Scope Z_scope.

Abbreviation rune := Z.
Definition newline : rune := 10.

Record Span : Type := mkSpan { start : nat; end_ : nat }.

Definition NewSpan (start end_ : nat) : result Span :=
  if (end_ <? start)%nat then Fault (Panic "invalid span") else Ok (mkSpan start end_).

Definition Length (p : Span) : nat := end_ p - start p.

Record File : Type := NewSourceFile { filename : string; contents : list rune }.

(** The part of a text that a span covers *)
Definition covered (text : list rune) (span : Span) : list rune := take (Length span) (drop (start span) text).

(** ** Lines *)

Record Line : Type := mkLine { text : list rune; span : Span; number : nat }.

Definition Line_String (p : Line) : list rune := covered (text p) (span p).

(** The loop of [Lines], over the runes from position [i] *)
Fixpoint lines_from (text rest : list rune) (i num start : nat) : list Line :=
  match rest with
  | [] => if (start <? length text)%nat then [mkLine text (mkSpan start (length text)) num] else []
  | c :: rest =>
      if c =? newline then mkLine text (mkSpan start i) num :: lines_from text rest (S i) (S num) (S i)
      else lines_from text rest (S i) num start
  end.

Definition Lines (s : File) : list Line := lines_from (contents s) (contents s) 0 1 0.

(** The loop of [findEndOfLine] *)
Fixpoint end_of_line (rest : list rune) (i : nat) : nat :=
  match rest with [] => i | c :: rest => if c =? newline then i else end_of_line rest (S i) end.

Definition findEndOfLine (index : nat) (text : list rune) : nat := end_of_line (drop index text) index.

(** The loop of [FindFirstEnclosingLine]; the rune at the index is not looked at. *)
Fixpoint enclosing_from (text rest : list rune) (index i num start : nat) : Line :=
  match rest with
  | [] => mkLine text (mkSpan start (length text)) num
  | c :: rest =>
      if (i =? index)%nat then mkLine text (mkSpan start (findEndOfLine index text)) num
      else if c =? newline then enclosing_from text rest index (S i) (S num) (S i)
      else enclosing_from text rest index (S i) num start
  end.

Definition FindFirstEnclosingLine (s : File) (sp : Span) : Line :=
  enclosing_from (contents s) (contents s) (start sp) 0 1 0.

(** ** Syntax errors *)

Record SyntaxError : Type := mkSyntaxError { srcfile : File; error_span : Span; msg : string }.

Definition File_SyntaxError (s : File) (span : Span) (msg : string) : SyntaxError := mkSyntaxError s span msg.

Definition FirstEnclosingLine (p : SyntaxError) : Line := FindFirstEnclosingLine (srcfile p) (error_span p).

(** ** Source maps *)

Module Map.

Record t : Type := mk { mapping : gmap nat Span; file : File }.

Definition NewSourceMap (srcfile : File) : t := mk ∅ srcfile.

Definition Has (p : t) (item : nat) : bool := bool_decide (is_Some (mapping p !! item)).

Definition Put (p : t) (item : nat) (span : Span) : result t :=
  if Has p item then Fault (Panic "source map key already exists") else Ok (mk (<[item := span]> (mapping p)) (file p)).

Definition Get (p : t) (item : nat) : result Span :=
  match mapping p !! item with Some s => Ok s | None => Fault (Panic "invalid source map key") end.

Definition SyntaxError_ (p : t) (item : nat) (msg : string) : result SyntaxError :=
  span ← Get p item; Ok (mkSyntaxError (file p) span msg).

End Map.

(** Maps of several files *)
Module Maps.

Definition NewSourceMaps : list Map.t := [].

Definition Has (p : list Map.t) (node : nat) : bool := existsb (fun m => Map.Has m node) p.

Fixpoint Lookup (p : list Map.t) (node : nat) : option (File * Span) :=
  match p with
  | [] => None
  | m :: p => match Map.mapping m !! node with Some span => Some (Map.file m, span) | None => Lookup p node end
  end.

Definition SyntaxError_ (p : list Map.t) (node : nat) (msg : string) : result SyntaxError :=
  match Lookup p node with
  | Some (f, span) => Ok (File_SyntaxError f span msg)
  | None => Fault (Panic "missing mapping for source node")
  end.

Definition Join (p : list Map.t) (srcmap : Map.t) : list Map.t := p ++ [srcmap].

(** The maps share the underlying Go maps, so the copy is put in the first map that
    has the node. *)
Fixpoint Copy (p : list Map.t) (from to : nat) : result (list Map.t) :=
  match p with
  | [] => Ok []
  | m :: p =>
      if Map.Has m from then span ← Map.Get m from; m ← Map.Put m to span; Ok (m :: p)
      else p ← Copy p from to; Ok (m :: p)
  end.

End Maps.

(** ** Lines partition the text *)

Module SourceProperties.

(** The number of newlines before a position *)
Definition newlines (l : list rune) : nat := length (List.filter (fun c => c =? newline) l).

(** A line of a text: it starts at the beginning or after a newline, ends at a newline
    or the end, has no newline, and its number counts the newlines before it. *)
Record is_line (txt : list rune) (l : Line) : Prop := {
  line_text : text l = txt;
  line_order : (start (span l) <= end_ (span l) <= length txt)%nat;
  line_start : start (span l) = 0%nat \/ exists i, start (span l) = S i /\ txt !! i = Some newline;
  line_end : end_ (span l) = length txt \/ txt !! end_ (span l) = Some newline;
  line_inside : newline ∉ Line_String l;
  line_number : number l = S (newlines (take (start (span l)) txt))
}.

Lemma newlines_app a b : newlines (a ++ b) = (newlines a + newlines b)%nat.
Proof. unfold newlines. by rewrite List.filter_app, length_app. Qed.

Lemma newlines_none a : newline ∉ a -> newlines a = 0%nat.
Proof.
  unfold newlines. induction a as [|c a IH]; [done|]. intros H. apply not_elem_of_cons in H as [Hc Ha]. cbn.
  destruct (Z.eqb_spec c newline) as [->|_]; [done|]. by apply IH.
Qed.

Lemma end_of_line_spec rest : forall i, exists k, end_of_line rest i = (i + k)%nat /\ (k <= length rest)%nat /\ (newline ∉ take k rest)
  /\ (k = length rest \/ rest !! k = Some newline).
Proof.
  induction rest as [|c rest IH]; intros i; cbn [end_of_line].
  - exists 0%nat. split_and!; [lia|done|apply not_elem_of_nil|by left].
  - destruct (Z.eqb_spec c newline) as [->|Hc].
    + exists 0%nat. split_and!; [lia|lia|apply not_elem_of_nil|by right].
    + destruct (IH (S i)) as (k & -> & Hk & Hn & He). exists (S k). cbn. split_and!; [lia|lia|by apply not_elem_of_cons|destruct He; [left; lia|by right]].
Qed.

(** The state of a scan of the text: the current line starts at [s] and goes on at [i]. *)
Record scanning (txt rest : list rune) (i num s : nat) : Prop := {
  scan_rest : rest = drop i txt;
  scan_order : (s <= i <= length txt)%nat;
  scan_start : s = 0%nat \/ exists j, s = S j /\ txt !! j = Some newline;
  scan_line : newline ∉ take (i - s) (drop s txt);
  scan_number : num = S (newlines (take s txt))
}.

Lemma scanning_zero txt : scanning txt txt 0 1 0.
Proof. split; [done|lia|by left|apply not_elem_of_nil|done]. Qed.

Lemma scanning_lookup txt c rest i num s : scanning txt (c :: rest) i num s -> txt !! i = Some c /\ rest = drop (S i) txt.
Proof.
  intros [Hr _ _ _ _]. assert (Hi : txt !! i = Some c).
  { replace i with (i + 0)%nat by lia. rewrite <- lookup_drop, <- Hr. done. }
  split; [done|]. rewrite (drop_S _ _ _ Hi) in Hr. by injection Hr.
Qed.

Lemma covered_snoc (txt : list rune) s i c : (s <= i)%nat -> txt !! i = Some c -> take (S i - s) (drop s txt) = take (i - s) (drop s txt) ++ [c].
Proof.
  intros Hs Hi. replace (S i - s)%nat with (S (i - s)) by lia. apply take_S_r. rewrite lookup_drop. by replace (s + (i - s))%nat with i by lia.
Qed.

Lemma take_covered (txt : list rune) s i : (s <= i)%nat -> take i txt = take s txt ++ take (i - s) (drop s txt).
Proof. intros H. rewrite <- (take_drop s txt) at 1. rewrite take_app, take_take, length_take. f_equal; [f_equal; lia|]. destruct (decide (s <= length txt)%nat); [f_equal; lia|]. by rewrite drop_ge, !take_nil by lia. Qed.

Lemma scanning_newline txt rest i num s : scanning txt (newline :: rest) i num s -> scanning txt rest (S i) (S num) (S i).
Proof.
  intros H. destruct (scanning_lookup _ _ _ _ _ _ H) as [Hi Hr]. destruct H as [_ Ho Hs Hl Hn]. pose proof (lookup_lt_Some _ _ _ Hi). split; [done|lia|right; by exists i| |].
  - rewrite Nat.sub_diag. apply not_elem_of_nil.
  - rewrite Hn, (take_S_r _ _ _ Hi), newlines_app, (take_covered txt s i), newlines_app, (newlines_none _ Hl) by lia. cbn. lia.
Qed.

Lemma scanning_other txt c rest i num s : c <> newline -> scanning txt (c :: rest) i num s -> scanning txt rest (S i) num s.
Proof.
  intros Hc H. destruct (scanning_lookup _ _ _ _ _ _ H) as [Hi Hr]. destruct H as [_ Ho Hs Hl Hn]. pose proof (lookup_lt_Some _ _ _ Hi). split; [done|lia|done| |done].
  rewrite (covered_snoc _ _ _ c) by (done || lia). rewrite elem_of_app, list_elem_of_singleton. naive_solver.
Qed.

Lemma scanning_is_line txt rest i num s e : scanning txt rest i num s -> (i <= e <= length txt)%nat ->
  newline ∉ take (e - i) rest -> e = length txt \/ txt !! e = Some newline -> is_line txt (mkLine txt (mkSpan s e) num).
Proof.
  intros [-> Ho Hs Hl Hn] He Hne Hend. split; cbn; try done; [lia|]. unfold Line_String, covered, Length. cbn.
  replace (e - s)%nat with ((i - s) + (e - i))%nat by lia. rewrite <- (take_drop (i - s) (drop s txt)), take_app, drop_drop.
  rewrite (take_ge (take _ _)) by (rewrite length_take; lia). rewrite elem_of_app. rewrite length_take, length_drop.
  replace ((i - s + (e - i)) - _)%nat with (e - i)%nat by lia. replace (s + (i - s))%nat with i by lia. tauto.
Qed.

Lemma enclosing_from_spec txt index rest : forall i num s, scanning txt rest i num s -> (i <= index)%nat ->
  let l := enclosing_from txt rest index i num s in is_line txt l /\ ((index < length txt)%nat -> (start (span l) <= index <= end_ (span l))%nat).
Proof.
  induction rest as [|c rest IH]; intros i num s H Hi; cbn [enclosing_from].
  - pose proof (scan_rest _ _ _ _ _ H) as Hr. pose proof (scan_order _ _ _ _ _ H). assert (i = length txt) as ->.
    { pose proof (length_drop txt i) as Hl. rewrite <- Hr in Hl. cbn in Hl. lia. }
    split; [|lia]. eapply scanning_is_line; [exact H|lia| |by left]. rewrite take_nil. apply not_elem_of_nil.
  - pose proof (scan_order _ _ _ _ _ H). destruct (Nat.eqb_spec i index) as [->|Hne].
    + destruct (scanning_lookup _ _ _ _ _ _ H) as [Hc _]. pose proof (scan_rest _ _ _ _ _ H) as Hr. unfold findEndOfLine. rewrite <- Hr.
      destruct (end_of_line_spec (c :: rest) index) as (k & -> & Hk & Hn & He). assert (length (c :: rest) = length txt - index)%nat as Hlen by (by rewrite Hr, length_drop).
      split; [|cbn; lia]. eapply scanning_is_line; [exact H|lia| |].
      * by replace (index + k - index)%nat with k by lia.
      * destruct He as [He|He]; [left; lia|right]. by rewrite Hr, lookup_drop in He.
    + destruct (Z.eqb_spec c newline) as [->|Hc]; (apply IH; [|lia]); [by eapply scanning_newline|by eapply scanning_other].
Qed.

(** The line that a syntax error is reported on is a line of the text with its number,
    and the span of the error starts in it when it is inside the text. *)
Theorem enclosing_line (s : File) (sp : Span) :
  let l := FindFirstEnclosingLine s sp in is_line (contents s) l /\
  ((start sp < length (contents s))%nat -> (start (span l) <= start sp <= end_ (span l))%nat).
Proof. apply enclosing_from_spec; [apply scanning_zero|lia]. Qed.

(** The lines of a text, each with a newline at its end *)
Definition joined (ls : list Line) : list rune := mjoin ((fun l => Line_String l ++ [newline]) <$> ls).

Lemma joined_cons l ls : joined (l :: ls) = Line_String l ++ newline :: joined ls.
Proof. unfold joined. rewrite fmap_cons. cbn [mjoin list_join]. by rewrite <- app_assoc. Qed.

(** The newline that a text from position [s] lacks *)
Definition closing (s : nat) (txt : list rune) : list rune :=
  if (s <? length txt)%nat && bool_decide (last txt <> Some newline) then [newline] else [].

Lemma lines_from_spec txt rest : forall i num s, scanning txt rest i num s ->
  Forall (is_line txt) (lines_from txt rest i num s) /\
  joined (lines_from txt rest i num s) = drop s txt ++ closing s txt.
Proof.
  induction rest as [|c rest IH]; intros i num s H; cbn [lines_from]; pose proof (scan_rest _ _ _ _ _ H) as Hr; pose proof (scan_order _ _ _ _ _ H) as Ho.
  - assert (i = length txt) as -> by (pose proof (length_drop txt i) as Hl; rewrite <- Hr in Hl; cbn in Hl; lia).
    destruct (Nat.ltb_spec s (length txt)) as [Hlt|Hge].
    + assert (Hl : is_line txt (mkLine txt (mkSpan s (length txt)) num)).
      { eapply scanning_is_line; [exact H|lia|rewrite take_nil; apply not_elem_of_nil|by left]. }
      split; [by apply Forall_singleton|]. rewrite joined_cons. unfold Line_String, covered, Length. cbn.
      rewrite take_ge by (rewrite length_drop; lia). f_equal. unfold closing. rewrite (proj2 (Nat.ltb_lt _ _) Hlt), bool_decide_true; [done|].
      intros He. apply (line_inside _ _ Hl). unfold Line_String, covered, Length. cbn. rewrite take_ge by (rewrite length_drop; lia).
      apply last_Some_elem_of. rewrite last_lookup, length_drop, lookup_drop. rewrite last_lookup in He. rewrite <- He. f_equal. lia.
    + split; [constructor|]. rewrite drop_ge by lia. cbn. unfold closing. by rewrite (proj2 (Nat.ltb_ge _ _)) by lia.
  - destruct (scanning_lookup _ _ _ _ _ _ H) as [Hi Hrest]. pose proof (lookup_lt_Some _ _ _ Hi). destruct (Z.eqb_spec c newline) as [->|Hc].
    + destruct (IH _ _ _ (scanning_newline _ _ _ _ _ H)) as [Hf Hj]. split.
      * constructor; [|done]. eapply scanning_is_line; [exact H|lia| |by right]. rewrite Nat.sub_diag. apply not_elem_of_nil.
      * rewrite joined_cons, Hj. unfold Line_String, covered, Length. cbn.
        assert (Hd : drop s txt = take (i - s) (drop s txt) ++ newline :: drop (S i) txt).
        { rewrite <- (take_drop (i - s) (drop s txt)) at 1. f_equal. rewrite drop_drop. replace (s + (i - s))%nat with i by lia. by apply drop_S. }
        rewrite Hd at 2. rewrite <- app_assoc. cbn. do 3 f_equal.
        unfold closing. rewrite (proj2 (Nat.ltb_lt s _)) by lia. destruct (Nat.ltb_spec (S i) (length txt)) as [H1|H1]; [done|].
        rewrite bool_decide_false; [done|]. intros Hl. apply Hl. rewrite last_lookup. by replace (pred (length txt)) with i by lia.
    + by apply IH, (scanning_other _ c).
Qed.

(** The lines of a file are lines of its text with their numbers, and together, each
    with a newline at its end, they are the text, with a newline added when the last
    line has none. *)
Theorem lines_of_file (s : File) :
  Forall (is_line (contents s)) (Lines s) /\
  joined (Lines s) =
    contents s ++ closing 0 (contents s).
Proof. apply (lines_from_spec (contents s) (contents s) 0 1 0), scanning_zero. Qed.

End SourceProperties.
