(* ===== verification/SexpParser.v ===== *)
(** * The parser of S-expressions

    Models [pkg/util/source/sexp/parser.go] and the printing without quotes of
    [sexp.go], over runes.  A parser works on the text of one file; its state is the
    position, the source map and the address of the next node. *)

From Stdlib Require Import ZArith Lia Ascii.
From stdpp Require Import base numbers list option strings pretty gmap.
From S2P Require Import Prelude Source.

Open Scope Z_scope.

(** ** Expressions *)

(** The three kinds of sequences: [List], [Set] and [Array] *)
Inductive bracket : Type := Paren | Brace | Square.

#[export] Instance bracket_eq_dec : EqDecision bracket.
Proof. solve_decision. Defined.

(** Nodes carry their address. *)
Inductive SExp : Type :=
  | Sequence (kind : bracket) (addr : nat) (Elements : list SExp)
  | Number (addr : nat) (Value : Z)
  | Symbol (addr : nat) (Value : list rune).

Abbreviation List_ := (Sequence Paren).
Abbreviation Set_ := (Sequence Brace).
Abbreviation Array := (Sequence Square).

Definition address (e : SExp) : nat :=
  match e with Sequence _ a _ => a | Number a _ => a | Symbol a _ => a end.

Definition AsSequence (kind : bracket) (e : SExp) : option (list SExp) :=
  match e with Sequence k _ es => if decide (k = kind) then Some es else None | _ => None end.

Definition AsList := AsSequence Paren.
Definition AsSet := AsSequence Brace.
Definition AsArray := AsSequence Square.
Definition AsSymbol (e : SExp) : option (list rune) := match e with Symbol _ s => Some s | _ => None end.

(** [MatchSymbols] *)
Fixpoint match_symbols (es : list SExp) (symbols : list (list rune)) : bool :=
  match symbols, es with
  | [], _ => true
  | s :: symbols, Symbol _ v :: es => bool_decide (v = s) && match_symbols es symbols
  | _ :: _, _ => false
  end.

Definition MatchSymbols (es : list SExp) (n : nat) (symbols : list (list rune)) : bool :=
  if (length es <? n)%nat || (n <? length symbols)%nat then false else match_symbols es symbols.

(** ** Runes *)

Definition space : rune := 32.
Definition tab : rune := 9.
Definition semicolon : rune := 59.

Definition opening (b : bracket) : rune := match b with Paren => 40 | Brace => 123 | Square => 91 end.
Definition closing (b : bracket) : rune := match b with Paren => 41 | Brace => 125 | Square => 93 end.

(** [unicode.IsSpace] *)
Definition IsSpace (r : rune) : bool :=
  if (0 <=? r) && (r <=? 255) then
    bool_decide (r ∈ [9; 10; 11; 12; 13; 32; 133; 160])
  else (r =? 5760) || ((8192 <=? r) && (r <=? 8202)) || (r =? 8232) || (r =? 8233) || (r =? 8239) || (r =? 8287) || (r =? 12288).

(** The brackets that a rune opens and closes *)
Definition opens (r : rune) : option bracket :=
  if r =? 40 then Some Paren else if r =? 123 then Some Brace else if r =? 91 then Some Square else None.
Definition closes (r : rune) : option bracket :=
  if r =? 41 then Some Paren else if r =? 125 then Some Brace else if r =? 93 then Some Square else None.

Definition is_bracket (r : rune) : bool :=
  match opens r, closes r with None, None => false | _, _ => true end.

(** The runes that end a symbol *)
Definition ends_symbol (c : rune) : bool := is_bracket c || (c =? space) || (c =? newline) || (c =? tab).

(** ** Printing *)

Definition runes_of (s : string) : list rune := (fun c => Z.of_nat (nat_of_ascii c)) <$> String.list_ascii_of_string s.

(** The loop of [List.String]: a space before every element but the first *)
Definition spaced (texts : list (list rune)) : list rune :=
  match texts with [] => [] | t :: rest => foldl (fun s t => s ++ [space] ++ t) t rest end.

(** [String(false)] *)
Fixpoint SExp_String (e : SExp) : list rune :=
  match e with
  | Sequence b _ es => [opening b] ++ spaced (map SExp_String es) ++ [closing b]
  | Number _ n => runes_of (pretty n)
  | Symbol _ s => s
  end.

(** ** The parser *)

Record Parser : Type := mkParser { index : nat; srcmap : Map.t; next : nat }.

Definition at_index (p : Parser) (i : nat) : Parser := mkParser i (srcmap p) (next p).

Section Parser.
Context (srcfile : File).

Abbreviation text := (contents srcfile).

Definition NewParser : Parser := mkParser 0 (Map.NewSourceMap srcfile) 0.

(** A syntax error at the current position *)
Definition error (p : Parser) (msg : string) : SyntaxError := File_SyntaxError srcfile (mkSpan (index p) (index p + 1)) msg.

(** The two loops of [SkipWhiteSpace], the inner one over a comment *)
Fixpoint skip_runes (comment : bool) (rest : list rune) (j : nat) : nat :=
  match rest with
  | [] => j
  | c :: rest =>
      if comment then skip_runes (negb (c =? newline)) rest (S j)
      else if c =? semicolon then skip_runes true rest (S j)
      else if IsSpace c then skip_runes false rest (S j)
      else j
  end.

Definition SkipWhiteSpace (p : Parser) : Parser := at_index p (skip_runes false (drop (index p) text) (index p)).

(** The position of the first rune that ends a symbol *)
Fixpoint symbol_end (rest : list rune) (j : nat) : nat :=
  match rest with [] => j | c :: rest => if ends_symbol c then j else symbol_end rest (S j) end.

Definition parseSymbol (p : Parser) : list rune * Parser :=
  let i := symbol_end (drop (index p) text) (index p) in
  (take (i - index p) (drop (index p) text), at_index p i).

Definition Next (p : Parser) : result (option (list rune) * Parser) :=
  let p := SkipWhiteSpace p in
  if (index p =? length text)%nat then Ok (None, p)
  else
    c ← slice_get text (index p);
    if is_bracket c then Ok (Some [c], at_index p (S (index p)))
    else let (token, p) := parseSymbol p in Ok (Some token, p).

(** [Lookahead], over the runes from its position *)
Fixpoint lookahead (rest : list rune) : option rune :=
  match rest with
  | [] => None
  | r :: rest => if is_bracket r || (r =? semicolon) then Some r else if IsSpace r then lookahead rest else None
  end.

Definition Lookahead (p : Parser) (i : nat) : option rune := lookahead (drop (i + index p) text).

(** What a token starts *)
Inductive form : Type := Opening (b : bracket) | Closing (b : bracket) | Atomic.

Definition form_of (token : list rune) : form :=
  match token with
  | [c] => match opens c, closes c with Some b, _ => Opening b | None, Some b => Closing b | None, None => Atomic end
  | _ => Atomic
  end.

Definition unexpected (b : bracket) : string :=
  match b with Paren => "unexpected end-of-list" | Brace => "unexpected end-of-set" | Square => "unexpected end-of-array" end.

(** The new node is put in the source map with the span from its first token. *)
Definition register (p : Parser) (start : nat) (node : nat -> SExp) : result (SExp * Parser) :=
  span ← NewSpan start (index p);
  m ← Map.Put (srcmap p) (next p) span;
  Ok (node (next p), mkParser (index p) m (S (next p))).

(** [Parse] of a parser and [parseSequence]: a syntax error, or an expression, which is
    nil at the end of the file, and the elements of a sequence.  Going back by one
    rune never starts before the text, for a token was read. *)
Fixpoint parse (fuel : nat) (p : Parser) : result ((SyntaxError + option SExp) * Parser) :=
  match fuel with
  | O => Fault OutOfFuel
  | S fuel =>
      let p := SkipWhiteSpace p in
      let start := index p in
      '(token, p) ← Next p;
      match token with
      | None => Ok (inr None, p)
      | Some token =>
          match form_of token with
          | Closing b => let p := at_index p (pred (index p)) in Ok (inl (error p (unexpected b)), p)
          | Opening b =>
              '(elements, p) ← parseSequence fuel b p;
              match elements with
              | inl err => Ok (inl err, p)
              | inr elements => '(term, p) ← register p start (fun a => Sequence b a elements); Ok (inr (Some term), p)
              end
          | Atomic => '(term, p) ← register p start (fun a => Symbol a token); Ok (inr (Some term), p)
          end
      end
  end
with parseSequence (fuel : nat) (b : bracket) (p : Parser) : result ((SyntaxError + list SExp) * Parser) :=
  match fuel with
  | O => Fault OutOfFuel
  | S fuel =>
      if bool_decide (Lookahead p 0 = Some (closing b)) then '(_, p) ← Next p; Ok (inr [], p)
      else
        '(element, p) ← parse fuel p;
        match element with
        | inl err => Ok (inl err, p)
        | inr None => let p := at_index p (pred (index p)) in Ok (inl (error p "unexpected end-of-file"), p)
        | inr (Some element) =>
            '(elements, p) ← parseSequence fuel b (SkipWhiteSpace p);
            Ok (match elements with inl err => inl err | inr elements => inr (element :: elements) end, p)
        end
  end.

(** Enough fuel for what is left of the text *)
Definition fuel_for (p : Parser) : nat := 2 * (length text - index p) + 1.

(** The method [Parse] *)
Definition Parser_Parse (p : Parser) : result ((SyntaxError + option SExp) * Parser) := parse (fuel_for p) p.

(** The expression, the source map and the error *)
Definition Parse : result (option SExp * option Map.t * option SyntaxError) :=
  '(res, p) ← Parser_Parse NewParser;
  match res with
  | inr sExp =>
      if (index p =? length text)%nat then Ok (sExp, Some (srcmap p), None)
      else Ok (None, None, Some (error p "unexpected remainder"))
  | inl err => Ok (None, Some (srcmap p), Some err)
  end.

(** The loop of [ParseAll], with the terms so far *)
Fixpoint parse_all (fuel : nat) (p : Parser) (terms : list SExp) : result (list SExp * Map.t * option SyntaxError) :=
  match fuel with
  | O => Fault OutOfFuel
  | S fuel =>
      '(res, p) ← Parser_Parse p;
      match res with
      | inl err => Ok (terms, srcmap p, Some err)
      | inr None => Ok (terms, srcmap p, None)
      | inr (Some term) => parse_all fuel p (terms ++ [term])
      end
  end.

Definition ParseAll : result (list SExp * Map.t * option SyntaxError) := parse_all (S (length text)) NewParser [].

End Parser.
