(* ===== verification/SexpLexer.v ===== *)
(** * Tokens of S-expressions

    A reference lexer, one state per rune, and the grammar of S-expressions over its
    tokens; the parser's scanning functions agree with the lexer.  Comments are tokens
    of the grammar, since a sequence may not consist of comments only. *)

From Stdlib Require Import ZArith Lia Ascii.
From stdpp Require Import base numbers list option strings.
From S2P Require Import Prelude Source SexpParser.

Open Scope Z_scope.

Inductive token : Type :=
  | Comment
  | Open (b : bracket)
  | Close (b : bracket)
  | Atom (s : list rune).

(** Between tokens, in a comment, or in a symbol *)
Inductive mode : Type := Blank | InComment | Word (s : list rune).

Definition bracket_token (c : rune) : option token :=
  match opens c, closes c with Some b, _ => Some (Open b) | None, Some b => Some (Close b) | None, None => None end.

(** One rune: the tokens that it completes and the next state *)
Definition blank_step (c : rune) : list token * mode :=
  match bracket_token c with
  | Some t => ([t], Blank)
  | None => if c =? semicolon then ([Comment], InComment) else if IsSpace c then ([], Blank) else ([], Word [c])
  end.

Definition lex_step (m : mode) (c : rune) : list token * mode :=
  match m with
  | Blank => blank_step c
  | InComment => ([], if c =? newline then Blank else InComment)
  | Word s => if ends_symbol c then let (ts, m) := blank_step c in (Atom s :: ts, m) else ([], Word (s ++ [c]))
  end.

Definition flush (m : mode) : list token := match m with Word s => [Atom s] | _ => [] end.

Fixpoint lex (m : mode) (l : list rune) : list token :=
  match l with [] => flush m | c :: l => let (ts, m) := lex_step m c in ts ++ lex m l end.

(** The state after a text *)
Fixpoint run (m : mode) (l : list rune) : mode :=
  match l with [] => m | c :: l => run (snd (lex_step m c)) l end.

(** The tokens of a text *)
Definition tokens (l : list rune) : list token := lex Blank l.

Fixpoint drop_comments (ts : list token) : list token :=
  match ts with Comment :: ts => drop_comments ts | _ => ts end.

(** ** The grammar *)

(** Expressions without addresses *)
Inductive tree : Type := Leaf (s : list rune) | Node (b : bracket) (ts : list tree).

(** [derives ts es ts']: the tokens [ts] start with the expressions [es], and [ts'] are
    left.  Comments may come before an expression, and before the closing bracket of
    a sequence that is not empty. *)
Inductive derives : list token -> list tree -> list token -> Prop :=
  | derives_nil ts : derives ts [] ts
  | derives_comment ts e es ts' : derives ts (e :: es) ts' -> derives (Comment :: ts) (e :: es) ts'
  | derives_atom s ts es ts' : derives ts es ts' -> derives (Atom s :: ts) (Leaf s :: es) ts'
  | derives_node b ts es ts1 ts2 es' ts' :
      derives ts es ts1 -> drop_comments ts1 = Close b :: ts2 -> (es = [] -> ts1 = Close b :: ts2) ->
      derives ts2 es' ts' -> derives (Open b :: ts) (Node b es :: es') ts'.

Lemma derives_app ts es ts1 es' ts2 : derives ts es ts1 -> derives ts1 es' ts2 -> derives ts (es ++ es') ts2.
Proof.
  intros H Hr. induction H as [ts|ts e es ts' _ IH|s ts es ts' _ IH|b ts es ta tb es'' ts' H1 _ Hd He _ IH]; cbn in *; [done|constructor; auto..|].
  eapply derives_node; eauto.
Qed.

Lemma derives_dropped ts e es ts' : derives (drop_comments ts) (e :: es) ts' -> derives ts (e :: es) ts'.
Proof. induction ts as [|[]]; cbn; auto using derives_comment. Qed.

Lemma drop_comments_app ts t us vs : drop_comments ts = t :: us -> drop_comments (ts ++ vs) = t :: us ++ vs.
Proof. induction ts as [|[]]; cbn; [done|auto|naive_solver..]. Qed.

Lemma drop_comments_suffix ts : exists n, ts = replicate n Comment ++ drop_comments ts.
Proof. induction ts as [|t ts [n Hn]]; [by exists 0%nat|]. destruct t; [exists (S n); cbn; congruence|by exists 0%nat..]. Qed.

Lemma drop_comments_replicate n ts : drop_comments (replicate n Comment ++ ts) = drop_comments ts.
Proof. by induction n. Qed.

Lemma drop_comments_idemp ts : drop_comments (drop_comments ts) = drop_comments ts.
Proof. induction ts as [|[]]; cbn; auto. Qed.

Lemma derives_length ts es ts' : derives ts es ts' -> (length ts' <= length ts)%nat.
Proof.
  induction 1 as [ts|ts e es ts' _ IH|s ts es ts' _ IH|b ts es ts1 ts2 es' ts' _ IH1 Hd _ _ IH2]; cbn; try lia.
  destruct (drop_comments_suffix ts1) as [n Hu]. rewrite Hd in Hu. rewrite Hu, length_app in IH1. cbn in IH1. lia.
Qed.

(** What is left plays no role. *)
Lemma derives_local ts es ts' : derives ts es ts' -> exists us, ts = us ++ ts' /\ forall vs, derives (us ++ vs) es vs.
Proof.
  induction 1 as [ts|ts e es ts' _ (us & -> & IH)|s ts es ts' _ (us & -> & IH)|b ts es ts1 ts2 es' ts' _ (us & -> & IH) Hd He _ (us' & -> & IH')].
  - exists []. split; [done|]. intros vs. constructor.
  - exists (Comment :: us). split; [done|]. intros vs. by constructor.
  - exists (Atom s :: us). split; [done|]. intros vs. by constructor.
  - destruct (drop_comments_suffix ts1) as [n Hn]. rewrite Hd in Hn. clear Hd. set (cs := replicate n Comment) in *.
    exists (Open b :: us ++ cs ++ Close b :: us'). split; [rewrite Hn; cbn; by rewrite <- !app_assoc|]. intros vs. cbn. rewrite <- !app_assoc. cbn.
    eapply derives_node; [apply IH|subst cs; by rewrite drop_comments_replicate| |apply IH'].
    intros Hes. specialize (He Hes). rewrite Hn in He. subst cs. apply (f_equal length) in He. rewrite length_app, length_replicate in He. cbn in He.
    by assert (n = 0%nat) as -> by lia.
Qed.

Lemma derives_exactly us es ts' : derives (us ++ ts') es ts' -> derives us es [].
Proof. intros (vs & H & Hv)%derives_local. apply app_inv_tail in H as ->. specialize (Hv []). by rewrite app_nil_r in Hv. Qed.

(** ** States of the lexer *)

Lemma lex_app m a b : exists ts, lex m (a ++ b) = ts ++ lex (run m a) b /\ lex m a = ts ++ flush (run m a).
Proof.
  revert m. induction a as [|c a IH]; intros m; [by exists []|]. cbn. destruct (lex_step m c) as [ts m']. destruct (IH m') as (us & -> & ->).
  exists (ts ++ us). by rewrite !app_assoc.
Qed.

Lemma run_app m a b : run m (a ++ b) = run (run m a) b.
Proof. revert m. induction a as [|c a IH]; intros m; [done|]. apply IH. Qed.

(** What is left starts a new token. *)
Definition settled (m : mode) (l : list rune) : Prop :=
  match m with Blank => True | InComment => l = [] | Word _ => match l with [] => True | c :: _ => ends_symbol c = true end end.

Lemma settled_lex m l : settled m l -> lex m l = flush m ++ lex Blank l.
Proof.
  destruct m as [| |s]; cbn; [done|by intros ->|]. destruct l as [|c l]; [done|]. cbn. intros ->. by destruct (blank_step c).
Qed.

(** [l'] is left of [l] after whole tokens. *)
Definition eats (l l' : list rune) : Prop :=
  exists a, l = a ++ l' /\ forall m, settled m l -> settled (run m a) l'.

#[export] Instance eats_preorder : PreOrder eats.
Proof.
  split.
  - intros l. exists []. by split.
  - intros l1 l2 l3 (a & -> & Ha) (b & -> & Hb). exists (a ++ b). split; [by rewrite app_assoc|]. intros m Hm. rewrite run_app. by apply Hb, Ha.
Qed.

(** The state before a new token plays no role. *)
Lemma settled_run m c a l : settled m (c :: a ++ l) -> run m (c :: a) = run Blank (c :: a).
Proof. destruct m as [| |s]; cbn; [done|done|]. intros ->. by destruct (blank_step c). Qed.

Lemma eats_intro a l : settled (run Blank a) l -> eats (a ++ l) l.
Proof.
  intros H. exists a. split; [done|]. intros m Hm. destruct a as [|c a]; [done|]. by rewrite (settled_run m c a l Hm).
Qed.

Lemma eats_tokens l l' : eats l l' -> exists a, l = a ++ l' /\ tokens l = tokens a ++ tokens l'.
Proof.
  intros (a & -> & Ha). exists a. split; [done|]. specialize (Ha Blank I). unfold tokens.
  destruct (lex_app Blank a l') as (ts & -> & ->). by rewrite (settled_lex _ _ Ha), app_assoc.
Qed.

Lemma eats_length l l' : eats l l' -> (length l' <= length l)%nat.
Proof. intros (a & -> & _). rewrite length_app. lia. Qed.

(** ** Facts on runes *)

Lemma is_bracket_token c : is_bracket c = true <-> is_Some (bracket_token c).
Proof. unfold is_bracket, bracket_token. destruct (opens c), (closes c); split; intros H; try done; by destruct H. Qed.

Lemma not_bracket_token c : is_bracket c = false <-> bracket_token c = None.
Proof. unfold is_bracket, bracket_token. destruct (opens c), (closes c); done. Qed.

Lemma not_bracket_semicolon : is_bracket semicolon = false.
Proof. done. Qed.

Ltac rune_cases := unfold opens, closes, is_bracket, semicolon, space, newline, tab in *;
  repeat match goal with |- context [?x =? ?y] => destruct (Z.eqb_spec x y) | H : context [?x =? ?y] |- _ => destruct (Z.eqb_spec x y) end;
  simplify_eq; try done.

Lemma opens_spec c b : opens c = Some b <-> c = opening b.
Proof. split; [intros H; rune_cases|intros ->; by destruct b]. Qed.

Lemma closes_closing c b : closes c = Some b <-> c = closing b.
Proof. split; [intros H; rune_cases|intros ->; by destruct b]. Qed.

Lemma is_bracket_spec c : is_bracket c = true <-> exists b, c = opening b \/ c = closing b.
Proof.
  unfold is_bracket. destruct (opens c) as [b|] eqn:Ho; [apply opens_spec in Ho; split; [by exists b; left|done]|].
  destruct (closes c) as [b|] eqn:Hc; [apply closes_closing in Hc; split; [by exists b; right|done]|].
  split; [done|]. intros [b [->| ->]]; by destruct b.
Qed.

Lemma space_not_bracket c : IsSpace c = true -> is_bracket c = false.
Proof. intros H. apply not_true_iff_false. intros [b [->| ->]]%is_bracket_spec; by destruct b. Qed.

Lemma space_not_semicolon c : IsSpace c = true -> (c =? semicolon) = false.
Proof. intros H. apply Z.eqb_neq. by intros ->. Qed.

(** A rune that a symbol does not end on and that is no space nor comment starts one. *)
Lemma blank_word c : is_bracket c = false -> (c =? semicolon) = false -> IsSpace c = false -> blank_step c = ([], Word [c]) /\ ends_symbol c = false.
Proof.
  intros Hb Hs Hi. unfold blank_step. rewrite (proj1 (not_bracket_token c) Hb), Hs, Hi. split; [done|]. unfold ends_symbol. rewrite Hb. cbn.
  destruct (Z.eqb_spec c space) as [->|_]; [done|]. destruct (Z.eqb_spec c newline) as [->|_]; [done|]. by destruct (Z.eqb_spec c tab) as [->|_].
Qed.

Lemma opening_token b : bracket_token (opening b) = Some (Open b).
Proof. by destruct b. Qed.

Lemma closing_token b : bracket_token (closing b) = Some (Close b).
Proof. by destruct b. Qed.

Lemma closing_inj b b' : closing b = closing b' -> b = b'.
Proof. by destruct b, b'. Qed.
