(* ===== verification/SexpFacts.v ===== *)
(** * The parser follows the grammar

    The scanning functions of the parser consume whole tokens of the reference lexer;
    what the parser returns is derived by the grammar, with spans that cover the text
    of every node, and what the grammar derives is what the parser returns. *)

From Stdlib Require Import ZArith Lia Ascii.
From stdpp Require Import base numbers list option strings gmap pretty.
From S2P Require Import Prelude Source SexpParser SexpLexer.

Open Scope Z_scope.

(** ** Scanning *)

(** The runes that a scan does not stop at *)
Definition token_start (l : list rune) : Prop :=
  match l with [] => True | c :: _ => IsSpace c = false /\ c <> semicolon end.

Lemma skip_spec l : forall comment j, exists a l', l = a ++ l' /\ skip_runes comment l j = (j + length a)%nat /\ token_start l'
  /\ drop_comments (lex (if comment then InComment else Blank) l) = lex Blank l' /\ settled (run (if comment then InComment else Blank) a) l'.
Proof.
  induction l as [|c l IH]; intros comment j; cbn [skip_runes].
  - exists [], []. cbn. split_and!; [done|lia|done|by destruct comment|by destruct comment].
  - destruct comment.
    + destruct (IH (negb (c =? newline)) (S j)) as (a & l' & -> & -> & Ht & Hl & Hs). exists (c :: a), l'. cbn.
      split_and!; [done|lia|done|by destruct (c =? newline)|by destruct (c =? newline)].
    + destruct (Z.eqb_spec c semicolon) as [->|Hc].
      * destruct (IH true (S j)) as (a & l' & -> & -> & Ht & Hl & Hs). exists (semicolon :: a), l'. cbn. split_and!; [done|lia|done|done|done].
      * destruct (IsSpace c) eqn:Hi.
        -- destruct (IH false (S j)) as (a & l' & -> & -> & Ht & Hl & Hs). exists (c :: a), l'. cbn. unfold blank_step.
           rewrite (proj1 (not_bracket_token c) (space_not_bracket c Hi)), (space_not_semicolon c Hi), Hi. cbn. split_and!; [done|lia|done|done|done].
        -- exists [], (c :: l). split_and!; [done|cbn; lia|done| |done].
           cbn [lex lex_step]. destruct (is_bracket c) eqn:Hb.
           ++ unfold blank_step. apply is_bracket_token in Hb as [t Ht]. rewrite Ht. cbn.
              unfold bracket_token in Ht. destruct (opens c); [by simplify_eq|]. destruct (closes c); [by simplify_eq|done].
           ++ destruct (blank_word c Hb (proj2 (Z.eqb_neq _ _) Hc) Hi) as [-> _]. cbn. generalize [c]. clear. induction l as [|d l IH]; intros s; [done|].
              cbn. destruct (ends_symbol d); [by destruct (blank_step d)|]. apply IH.
Qed.

Lemma lookahead_spec l b : lookahead l = Some (closing b) -> exists ts, lex Blank l = Close b :: ts.
Proof.
  induction l as [|c l IH]; cbn; [done|]. unfold blank_step. destruct (is_bracket c) eqn:Hb; cbn.
  - intros [= ->]. rewrite closing_token. by eexists.
  - rewrite (proj1 (not_bracket_token c) Hb). destruct (Z.eqb_spec c semicolon) as [->|Hc]; [by destruct b|]. destruct (IsSpace c); [apply IH|done].
Qed.

Lemma lookahead_complete l b ts : lex Blank l = Close b :: ts -> lookahead l = Some (closing b).
Proof.
  induction l as [|c l IH]; cbn; [done|]. unfold blank_step. destruct (bracket_token c) as [t|] eqn:Ht.
  - rewrite (proj2 (is_bracket_token c)) by (by eexists). cbn. intros [= -> _]. f_equal. unfold bracket_token in Ht.
    destruct (opens c); [done|]. destruct (closes c) as [b'|] eqn:Hc; [|done]. apply closes_closing in Hc. by simplify_eq.
  - rewrite (proj2 (not_bracket_token c) Ht). cbn. destruct (c =? semicolon) eqn:Hs; [done|]. cbn. destruct (IsSpace c) eqn:Hi; [apply IH|].
    cbn. generalize [c]. clear. induction l as [|d l IH]; intros s; [done|]. cbn. destruct (ends_symbol d); [by destruct (blank_step d)|]. apply IH.
Qed.

Lemma symbol_end_spec l : forall s j, exists a l', l = a ++ l' /\ symbol_end l j = (j + length a)%nat
  /\ run (Word s) a = Word (s ++ a) /\ lex (Word s) l = Atom (s ++ a) :: lex Blank l' /\ settled (Word (s ++ a)) l'.
Proof.
  induction l as [|c l IH]; intros s j; cbn.
  - exists [], []. rewrite !app_nil_r. split_and!; try done.
  - destruct (ends_symbol c) eqn:Hc.
    + exists [], (c :: l). cbn. rewrite !app_nil_r. split_and!; try done; by destruct (blank_step c).
    + destruct (IH (s ++ [c]) (S j)) as (a & l' & -> & -> & Hr & Hl & Hs). exists (c :: a), l'. cbn. rewrite Hc, <- app_assoc in *. cbn in *.
      split_and!; [done|lia|done|done|done].
Qed.

Section Facts.
Context (srcfile : File).

Abbreviation text := (contents srcfile).
Abbreviation rest i := (drop i text).

Lemma rest_app i a l : rest i = a ++ l -> l = rest (i + length a).
Proof. intros H. by rewrite <- drop_drop, H, drop_app_length. Qed.

Lemma rest_bound i a l : (i <= length text)%nat -> rest i = a ++ l -> (i + length a <= length text)%nat.
Proof. intros Hi H%(f_equal length). rewrite length_drop, length_app in H. lia. Qed.

Lemma SkipWhiteSpace_spec p : (index p <= length text)%nat -> exists i, SkipWhiteSpace srcfile p = at_index p i /\ (index p <= i <= length text)%nat
  /\ eats (rest (index p)) (rest i) /\ tokens (rest i) = drop_comments (tokens (rest (index p))) /\ token_start (rest i).
Proof.
  intros Hp. destruct (skip_spec (rest (index p)) false (index p)) as (a & l' & Hr & Hs & Ht & Hl & Hrun).
  pose proof (rest_bound _ _ _ Hp Hr). exists (index p + length a)%nat. rewrite <- (rest_app _ _ _ Hr). unfold SkipWhiteSpace. rewrite Hs.
  split_and!; [done|lia|done| |done|done]. rewrite Hr. by apply eats_intro.
Qed.

Lemma SkipWhiteSpace_id p : token_start (rest (index p)) -> SkipWhiteSpace srcfile p = p.
Proof.
  unfold SkipWhiteSpace. destruct p as [i m n]. unfold at_index. cbn. intros Hstart. f_equal. destruct (rest i) as [|c l]; [done|].
  cbn. destruct Hstart as [-> Hc%Z.eqb_neq]. by rewrite Hc.
Qed.

Lemma Next_SkipWhiteSpace p : (index p <= length text)%nat -> Next srcfile p = Next srcfile (SkipWhiteSpace srcfile p).
Proof.
  intros Hp. destruct (SkipWhiteSpace_spec p Hp) as (i & Hs & _ & _ & _ & Ht). unfold Next. rewrite Hs.
  by rewrite (SkipWhiteSpace_id (at_index p i) Ht).
Qed.

Lemma form_of_atom s : (forall c, s = [c] -> is_bracket c = false) -> form_of s = Atomic.
Proof.
  intros H. destruct s as [|c [|]]; [done| |done]. specialize (H c eq_refl). unfold is_bracket in H. cbn. by destruct (opens c), (closes c).
Qed.

Lemma form_of_bracket c t : bracket_token c = Some t -> match form_of [c] with Opening b => t = Open b | Closing b => t = Close b | Atomic => False end.
Proof. unfold bracket_token. cbn. destruct (opens c); [by intros [= <-]|]. destruct (closes c); [by intros [= <-]|done]. Qed.

(** The token that [Next] gives *)
Definition token_of (s : list rune) : token := match form_of s with Opening b => Open b | Closing b => Close b | Atomic => Atom s end.

Lemma Next_spec p : (index p <= length text)%nat -> token_start (rest (index p)) ->
  exists tok i, Next srcfile p = Ok (tok, at_index p i) /\ (index p <= i <= length text)%nat /\
    match tok with
    | None => i = length text /\ tokens (rest (index p)) = []
    | Some s => (index p < i)%nat /\ eats (rest (index p)) (rest i) /\ tokens (rest (index p)) = token_of s :: tokens (rest i)
    end.
Proof.
  intros Hp Hstart. pose proof (SkipWhiteSpace_id p Hstart) as Hskip.
  unfold Next. rewrite Hskip. cbv zeta. destruct (Nat.eqb_spec (index p) (length text)) as [He|Hne].
  - exists None, (index p). split; [by destruct p|]. split; [lia|]. by rewrite He, drop_ge.
  - destruct (lookup_lt_is_Some_2 text (index p)) as [c Hc]; [lia|]. unfold slice_get. rewrite Hc. cbn [mbind result_bind].
    pose proof (drop_S _ _ _ Hc) as Hd. rewrite Hd in Hstart. destruct Hstart as [Hi Hs].
    destruct (is_bracket c) eqn:Hb.
    + exists (Some [c]), (S (index p)). split; [done|]. split; [lia|]. split; [lia|]. rewrite Hd. apply is_bracket_token in Hb as [t Ht].
      split; [apply (eats_intro [c]); cbn; unfold blank_step; by rewrite Ht|]. unfold tokens. cbn [lex lex_step]. unfold blank_step. rewrite Ht. cbn.
      f_equal. unfold token_of. pose proof (form_of_bracket c t Ht). destruct (form_of [c]); naive_solver.
    + destruct (blank_word c Hb (proj2 (Z.eqb_neq _ _) Hs) Hi) as [Hstep He]. unfold parseSymbol. rewrite Hd. cbn [symbol_end]. rewrite He.
      destruct (symbol_end_spec (rest (S (index p))) [c] (S (index p))) as (a & l' & Hr & -> & Hrun & Hlex & Hset).
      assert (Hsym : rest (index p) = (c :: a) ++ l') by (by rewrite Hd, Hr). pose proof (rest_bound _ _ _ Hp Hsym) as Hbd. cbn in Hbd.
      replace (S (index p) + length a - index p)%nat with (length (c :: a)) by (cbn; lia). rewrite <- Hd, Hsym, take_app_length.
      exists (Some (c :: a)), (S (index p) + length a)%nat. split; [done|]. split; [lia|]. split; [lia|].
      rewrite <- (rest_app _ _ _ Hr). split.
      * apply eats_intro. cbn. rewrite Hstep. cbn. by rewrite Hrun.
      * unfold tokens. cbn [app lex lex_step]. rewrite Hstep. cbn. rewrite <- Hr, Hlex. cbn. f_equal. unfold token_of. rewrite form_of_atom; [done|]. intros d [= -> ->]. done.
Qed.

(** ** What the parser returns *)

Fixpoint shape (e : SExp) : tree :=
  match e with Sequence b _ es => Node b (map shape es) | Number _ n => Leaf (runes_of (pretty n)) | Symbol _ s => Leaf s end.

(** Every node has a span, whose text is the node. *)
Fixpoint located (m : gmap nat Span) (e : SExp) : Prop :=
  (exists sp, m !! address e = Some sp /\ (start sp < end_ sp <= length text)%nat /\ token_start (covered text sp) /\
     derives (tokens (covered text sp)) [shape e] []) /\
  match e with Sequence _ _ es => foldr (fun e => and (located m e)) True es | _ => True end.

Lemma located_mono m m' e : m ⊆ m' -> located m e -> located m' e.
Proof.
  intros Hm. revert e. fix IH 1. intros [b a es|a n|a s] [(sp & Hsp & H) Hes]; (split; [exists sp; split; [by eapply lookup_weaken|done]|]); [|done..].
  clear Hsp H. induction es as [|e es IHes]; [done|]. destruct Hes as [He Hes]. split; [by apply IH|by apply IHes].
Qed.

Lemma located_all_mono m m' es : m ⊆ m' -> Forall (located m) es -> Forall (located m') es.
Proof. intros Hm H. eapply Forall_impl; [exact H|]. intros e. by apply located_mono. Qed.

Record wf (p : Parser) : Prop := {
  wf_index : (index p <= length text)%nat;
  wf_next : forall a, is_Some (Map.mapping (srcmap p) !! a) -> (a < next p)%nat
}.

(** The state after the expressions *)
Record moved (p p' : Parser) (es : list SExp) : Prop := {
  moved_wf : wf p';
  moved_index : (index p < index p')%nat;
  moved_eats : eats (rest (index p)) (rest (index p'));
  moved_map : Map.mapping (srcmap p) ⊆ Map.mapping (srcmap p');
  moved_located : Forall (located (Map.mapping (srcmap p'))) es
}.

Lemma wf_at_index p i : wf p -> (i <= length text)%nat -> wf (at_index p i).
Proof. intros [Hi Hn] H. by split. Qed.

(** Registering a node *)
Lemma register_spec p s node : wf p -> (s < index p)%nat -> eats (rest s) (rest (index p)) -> token_start (rest s) ->
  derives (tokens (rest s)) [shape (node (next p))] (tokens (rest (index p))) ->
  (match node (next p) with Sequence _ _ es => Forall (located (Map.mapping (srcmap p))) es | _ => True end) -> address (node (next p)) = next p ->
  exists p', register p s node = Ok (node (next p), p') /\ wf p' /\ index p' = index p /\ Map.mapping (srcmap p) ⊆ Map.mapping (srcmap p')
    /\ located (Map.mapping (srcmap p')) (node (next p)).
Proof.
  intros [Hi Hn] Hs He Hst Hd Hes Ha. unfold register, NewSpan. destruct (Nat.ltb_spec (index p) s); [lia|]. cbn [mbind result_bind].
  assert (Hfresh : Map.mapping (srcmap p) !! next p = None).
  { destruct (_ !! next p) eqn:E; [|done]. specialize (Hn (next p) (ltac:(by eexists))). lia. }
  unfold Map.Put, Map.Has. rewrite bool_decide_false by (rewrite Hfresh; by intros [? ?]). cbn [mbind result_bind].
  eexists. split; [done|]. cbn. split_and!.
  - split; [done|]. cbn. intros a [? H']. apply lookup_insert_Some in H' as [[<- _]|[_ H']]; [lia|]. specialize (Hn a ltac:(by eexists)). lia.
  - done.
  - by apply insert_subseteq.
  - assert (Hsub : Map.mapping (srcmap p) ⊆ <[next p := mkSpan s (index p)]> (Map.mapping (srcmap p))) by (by apply insert_subseteq).
    destruct (eats_tokens _ _ He) as (a & Hr & Ht). assert (Hlen : length a = (index p - s)%nat).
    { apply (f_equal length) in Hr. rewrite length_app, !length_drop in Hr. lia. }
    assert (Hcov : covered text (mkSpan s (index p)) = a). { unfold covered, Length. cbn. by rewrite Hr, <- Hlen, take_app_length. }
    assert (Hnode : exists sp, <[next p:=mkSpan s (index p)]> (Map.mapping (srcmap p)) !! address (node (next p)) = Some sp /\ (start sp < end_ sp <= length text)%nat
      /\ token_start (covered text sp) /\ derives (tokens (covered text sp)) [shape (node (next p))] []).
    { rewrite Ha. eexists. split; [apply lookup_insert_eq|]. split; [cbn; lia|]. rewrite Hcov. split.
      - rewrite Hr in Hst. destruct a; [cbn in Hlen; lia|done].
      - rewrite Ht in Hd. by apply derives_exactly in Hd. }
    destruct (node (next p)) as [b ad es|ad n|ad sy]; (split; [exact Hnode|]); [|done..].
    clear -Hes Hsub. induction Hes as [|e es He _ IH]; [done|]. split; [by eapply located_mono|done].
Qed.

(** ** Soundness and termination *)

(** The elements of a sequence up to its closing bracket *)
Record closed (b : bracket) (p p' : Parser) (es : list SExp) : Prop := {
  closed_moved : moved p p' es;
  closed_empty : es = [] -> tokens (rest (index p)) = Close b :: tokens (rest (index p'));
  closed_derives : exists ts, derives (tokens (rest (index p))) (map shape es) ts /\ drop_comments ts = Close b :: tokens (rest (index p'))
}.

Definition parse_outcome (p p' : Parser) (o : SyntaxError + option SExp) : Prop :=
  match o with
  | inl _ => True
  | inr None => index p' = length text /\ drop_comments (tokens (rest (index p))) = []
  | inr (Some e) => moved p p' [e] /\ derives (tokens (rest (index p))) [shape e] (tokens (rest (index p')))
  end.

Definition parse_sound (fuel : nat) : Prop := forall p, wf p -> (2 * (length text - index p) + 1 <= fuel)%nat ->
  exists o p', parse srcfile fuel p = Ok (o, p') /\ Map.mapping (srcmap p) ⊆ Map.mapping (srcmap p') /\ parse_outcome p p' o.

Definition sequence_sound (fuel : nat) : Prop := forall b p, wf p -> (2 * (length text - index p) + 2 <= fuel)%nat ->
  exists o p', parseSequence srcfile fuel b p = Ok (o, p') /\ Map.mapping (srcmap p) ⊆ Map.mapping (srcmap p') /\
    match o with inl _ => True | inr es => closed b p p' es end.

(** The node of a token with what follows it *)
Lemma registered p i j p2 node : wf p -> (index p <= i < j)%nat -> eats (rest (index p)) (rest i) -> tokens (rest i) = drop_comments (tokens (rest (index p))) ->
  token_start (rest i) -> eats (rest i) (rest (index p2)) -> wf p2 -> (j <= index p2)%nat -> Map.mapping (srcmap p) ⊆ Map.mapping (srcmap p2) ->
  derives (tokens (rest i)) [shape (node (next p2))] (tokens (rest (index p2))) ->
  (match node (next p2) with Sequence _ _ es => Forall (located (Map.mapping (srcmap p2))) es | _ => True end) -> address (node (next p2)) = next p2 ->
  exists p3, register p2 i node = Ok (node (next p2), p3) /\ Map.mapping (srcmap p) ⊆ Map.mapping (srcmap p3) /\ parse_outcome p p3 (inr (Some (node (next p2)))).
Proof.
  intros Hp Hij He Htok Hst He2 Hp2 Hj Hm Hd Hes Ha.
  destruct (register_spec p2 i node Hp2 ltac:(lia) He2 Hst Hd Hes Ha) as (p3 & -> & Hw3 & Hi3 & Hm3 & Hl3). exists p3. split; [done|].
  assert (Map.mapping (srcmap p) ⊆ Map.mapping (srcmap p3)) by (by etrans). split; [done|]. unfold parse_outcome. rewrite Hi3. split.
  - split; [done|lia| |done|by apply Forall_singleton]. rewrite Hi3. by etrans.
  - apply derives_dropped. by rewrite <- Htok.
Qed.

Lemma parse_step fuel : sequence_sound fuel -> parse_sound (S fuel).
Proof.
  intros IH p Hp Hf. cbn [parse]. destruct (SkipWhiteSpace_spec p (wf_index p Hp)) as (i & -> & Hi & He & Htok & Hst). cbv zeta. cbn [index at_index].
  destruct (Next_spec (at_index p i) ltac:(cbn; lia) Hst) as (tok & j & -> & Hj & Hn). cbn [mbind result_bind]. cbn [index at_index] in Hj, Hn.
  destruct tok as [s|].
  - destruct Hn as (Hlt & He2 & Hs). unfold token_of in Hs. assert (Hq : wf (at_index (at_index p i) j)) by (apply (wf_at_index p); [done|lia]).
    destruct (form_of s) as [b|b|].
    + destruct (IH b (at_index (at_index p i) j)) as (o & p2 & -> & Hm & Ho); [done|cbn; lia|]. cbn [mbind result_bind]. cbn [srcmap at_index] in Hm.
      destruct o as [err|es]; [by eexists _, _|]. destruct Ho as [[Hw2 Hi2 He3 _ Hl2] Hempty (ts & Hd & Hdc)]. cbn [index at_index] in *.
      destruct (registered p i j p2 (fun a => Sequence b a es)) as (p3 & -> & Hm3 & Ho3); try done; [lia|by etrans|lia| |by exists (inr (Some (Sequence b (next p2) es))), p3].
      rewrite Hs. cbn [shape]. eapply derives_node; [exact Hd|exact Hdc| |constructor].
      intros Hnil%map_eq_nil. subst es. specialize (Hempty eq_refl). inversion Hd; subst. done.
    + cbn [mbind result_bind]. by eexists _, _.
    + destruct (registered p i j (at_index (at_index p i) j) (fun a => Symbol a s)) as (p3 & -> & Hm3 & Ho3); try done; [lia| |by eexists _, _].
      rewrite Hs. cbn. apply derives_atom. constructor.
  - eexists _, _. split; [done|]. split; [done|]. cbn. destruct Hn as [-> Hn]. by rewrite <- Htok.
Qed.

Lemma sequence_step fuel : parse_sound fuel -> sequence_sound fuel -> sequence_sound (S fuel).
Proof.
  intros IHp IH b p Hp Hf. cbn [parseSequence]. unfold Lookahead. cbn [Nat.add]. case_bool_decide as Hl.
  - apply lookahead_spec in Hl as [ts Hts]. fold (tokens (rest (index p))) in Hts. rewrite Next_SkipWhiteSpace by apply Hp.
    destruct (SkipWhiteSpace_spec p (wf_index p Hp)) as (i & -> & Hi & He & Htok & Hst). rewrite Hts in Htok. cbn in Htok.
    destruct (Next_spec (at_index p i) ltac:(cbn; lia) Hst) as (tok & j & -> & Hj & Hn). cbn [mbind result_bind]. cbn [index at_index] in Hj, Hn.
    destruct tok as [s|]; [|destruct Hn as [_ Hn]; by rewrite Htok in Hn]. destruct Hn as (Hlt & He2 & Hs). rewrite Htok in Hs. injection Hs as _ Hs.
    eexists _, _. split; [done|]. split; [done|]. cbn [index at_index]. split.
    + split; [by apply (wf_at_index p); [done|lia]|cbn; lia|cbn; by etrans|done|constructor].
    + intros _. cbn. by rewrite Hts, Hs.
    + eexists. split; [constructor|]. cbn. by rewrite Hts, Hs.
  - destruct (IHp p Hp ltac:(lia)) as (o & p1 & -> & Hm & Ho). cbn [mbind result_bind]. destruct o as [err|[e|]]; [by eexists _, _| |by eexists _, _].
    destruct Ho as [[Hw1 Hi1 He1 _ Hl1] Hd1]. destruct (SkipWhiteSpace_spec p1 (wf_index p1 Hw1)) as (i & -> & Hi & He & Htok & Hst).
    destruct (IH b (at_index p1 i)) as (o & p2 & -> & Hm2 & Ho2); [apply wf_at_index; [done|lia]|cbn; lia|]. cbn [mbind result_bind]. cbn [srcmap at_index] in Hm2.
    assert (Map.mapping (srcmap p) ⊆ Map.mapping (srcmap p2)) by (by etrans).
    destruct o as [err|es]; [by eexists _, _|]. eexists _, p2. split; [done|]. split; [done|].
    destruct Ho2 as [[Hw2 Hi2 He2 _ Hl2] Hempty (ts & Hd & Hdc)]. cbn [index at_index] in *. split.
    + split; [done|lia|by do 2 etrans|done|]. constructor; [|done]. eapply located_mono; [exact Hm2|by apply Forall_inv in Hl1].
    + done.
    + destruct es as [|e' es].
      * exists (tokens (rest (index p1))). split; [done|]. rewrite <- Htok. by apply Hempty.
      * exists ts. split; [|done]. cbn [map] in *. eapply (derives_app _ [_]); [exact Hd1|]. apply derives_dropped. by rewrite <- Htok.
Qed.

Lemma parser_sound fuel : parse_sound fuel /\ sequence_sound fuel.
Proof.
  induction fuel as [|fuel [IHp IHs]]; [split; intros ? **; lia|]. split; [by apply parse_step|by apply sequence_step].
Qed.

End Facts.
