(* ===== verification/SexpSound.v ===== *)
(** * Parsing and printing

    What the grammar derives is what the parser returns, so [ParseAll] decides the
    grammar; and the text that an expression prints to parses to the expression. *)

From Stdlib Require Import ZArith Lia Ascii.
From stdpp Require Import base numbers list option strings gmap pretty.
From S2P Require Import Prelude Source SexpParser SexpLexer SexpFacts.

Open Scope Z_scope.

(** ** Completeness *)

Section Complete.
Context (srcfile : File).

Abbreviation text := (contents srcfile).
Abbreviation rest i := (drop i text).
Abbreviation wf := (wf srcfile).
Abbreviation left_of p := (tokens (rest (index p))).

(** The first token after the comments *)
Lemma Next_token p t ts : wf p -> drop_comments (left_of p) = t :: ts -> exists s i j, SkipWhiteSpace srcfile p = at_index p i /\
  Next srcfile (at_index p i) = Ok (Some s, at_index p j) /\ token_of s = t /\ tokens (rest j) = ts /\ (index p <= i < j /\ j <= length text)%nat.
Proof.
  intros Hp Ht. destruct (SkipWhiteSpace_spec srcfile p (wf_index _ p Hp)) as (i & -> & Hi & He & Htok & Hst).
  destruct (Next_spec srcfile (at_index p i) ltac:(cbn; lia) Hst) as (tok & j & Hn & Hj & Hs). cbn [index at_index] in Hj, Hs. rewrite Htok, Ht in Hs.
  destruct tok as [s|]; [|by destruct Hs]. destruct Hs as (Hlt & _ & Hs). injection Hs as Hs1 Hs2. exists s, i, j. split; [done|]. split; [done|]. split; [done|]. split; [done|lia].
Qed.

(** The parser returns a term of a shape and leaves some tokens. *)
Definition parses_to (fuel : nat) (p : Parser) (t : tree) (ts : list token) : Prop :=
  exists e p', parse srcfile fuel p = Ok (inr (Some e), p') /\ shape e = t /\ left_of p' = ts.

Definition sequence_to (fuel : nat) (b : bracket) (p : Parser) (trees : list tree) (ts : list token) : Prop :=
  exists es p', parseSequence srcfile fuel b p = Ok (inr es, p') /\ map shape es = trees /\ left_of p' = ts.

Lemma register_total p s node : wf p -> (s <= index p)%nat -> exists p', register p s node = Ok (node (next p), p') /\ index p' = index p.
Proof.
  intros [Hi Hn] Hs. unfold register, NewSpan. destruct (Nat.ltb_spec (index p) s); [lia|]. cbn [mbind result_bind].
  unfold Map.Put, Map.Has. rewrite bool_decide_false; [by eexists|]. intros H'%Hn. lia.
Qed.

Lemma parse_atom fuel p s ts : wf p -> (0 < fuel)%nat -> drop_comments (left_of p) = Atom s :: ts -> parses_to fuel p (Leaf s) ts.
Proof.
  intros Hp Hf Ht. destruct fuel as [|fuel]; [lia|]. destruct (Next_token p _ _ Hp Ht) as (s' & i & j & Hs & Hn & Htok & Hr & Hj).
  unfold parses_to. cbn [parse]. rewrite Hs. cbv zeta. rewrite Hn. cbn [mbind result_bind]. unfold token_of in Htok. destruct (form_of s'); [done..|].
  injection Htok as ->. destruct (register_total (at_index p j) (index (at_index p i)) (fun a => Symbol a s)) as (p' & -> & Hi).
  - apply wf_at_index; [done|lia].
  - cbn. lia.
  - eexists _, p'. split; [done|]. split; [done|]. rewrite Hi. done.
Qed.

(** The bounds on fuel of [parser_sound] *)
Definition fuel_parse (fuel : nat) (p : Parser) : Prop := (2 * (length text - index p) + 1 <= fuel)%nat.
Definition fuel_sequence (fuel : nat) (p : Parser) : Prop := (2 * (length text - index p) + 2 <= fuel)%nat.

Lemma parse_node fuel p b trees ts ts2 : wf p -> fuel_parse (S fuel) p -> drop_comments (left_of p) = Open b :: ts ->
  (forall q, wf q -> left_of q = ts -> fuel_sequence fuel q -> sequence_to fuel b q trees ts2) -> parses_to (S fuel) p (Node b trees) ts2.
Proof.
  unfold fuel_parse, fuel_sequence. intros Hp Hf Ht Hseq. destruct (Next_token p _ _ Hp Ht) as (s' & i & j & Hs & Hn & Htok & Hr & Hj).
  unfold parses_to. cbn [parse]. rewrite Hs. cbv zeta. rewrite Hn. cbn [mbind result_bind]. unfold token_of in Htok. destruct (form_of s'); [|done..].
  injection Htok as ->. assert (Hq : wf (at_index p j)) by (apply wf_at_index; [done|lia]).
  destruct (Hseq (at_index p j) Hq Hr ltac:(cbn; lia)) as (es & p' & Hes & Hsh & Hl). rewrite Hes. cbn [mbind result_bind].
  destruct (parser_sound srcfile fuel) as [_ Hsound]. destruct (Hsound b (at_index p j) Hq ltac:(cbn; lia)) as (o & p'' & Hes' & _ & Ho).
  rewrite Hes in Hes'. injection Hes' as <- <-. destruct Ho as [[Hw Hi _ _ _] _ _]. cbn [index at_index] in *.
  destruct (register_total p' i (fun a => Sequence b a es)) as (p2 & -> & Hi2); [done|lia|].
  eexists _, p2. split; [done|]. cbn. rewrite Hsh, Hi2. done.
Qed.

Lemma sequence_end fuel b p ts : wf p -> left_of p = Close b :: ts -> sequence_to (S fuel) b p [] ts.
Proof.
  intros Hp Ht. unfold sequence_to. cbn [parseSequence]. unfold Lookahead. cbn [Nat.add]. rewrite (lookahead_complete _ _ _ Ht), bool_decide_true by done.
  rewrite Next_SkipWhiteSpace by apply Hp. destruct (Next_token p (Close b) ts Hp) as (s & i & j & -> & -> & _ & Hr & _); [by rewrite Ht|].
  cbn [mbind result_bind]. by exists [], (at_index p j).
Qed.

Lemma sequence_cons fuel b p t trees ts ts2 u us : wf p -> fuel_sequence (S fuel) p -> drop_comments (left_of p) = u :: us -> u <> Close b ->
  parses_to fuel p t ts ->
  (forall q, wf q -> left_of q = drop_comments ts -> fuel_sequence fuel q -> sequence_to fuel b q trees ts2) -> sequence_to (S fuel) b p (t :: trees) ts2.
Proof.
  unfold fuel_sequence. intros Hp Hf Hu Hne (e & p1 & Hparse & Hsh & Hl) Hseq. unfold sequence_to. cbn [parseSequence]. unfold Lookahead. cbn [Nat.add].
  rewrite bool_decide_false; [|intros [vs Hvs]%lookahead_spec; unfold tokens in Hu; rewrite Hvs in Hu; cbn in Hu; congruence].
  destruct (parser_sound srcfile fuel) as [Hsound _]. destruct (Hsound p Hp ltac:(lia)) as (o & p'' & Hp'' & _ & Ho).
  rewrite Hparse in *. injection Hp'' as <- <-. destruct Ho as [[Hw Hi _ _ _] _]. cbn [mbind result_bind].
  destruct (SkipWhiteSpace_spec srcfile p1 (wf_index _ _ Hw)) as (i & -> & Hi2 & _ & Htok & _).
  destruct (Hseq (at_index p1 i)) as (es & p2 & -> & Hes & Hl2); [apply wf_at_index; [done|lia]|by rewrite <- Hl|cbn; lia|].
  cbn [mbind result_bind]. eexists _, p2. split; [done|]. cbn. by rewrite Hsh, Hes.
Qed.

Lemma derives_none ts ts' : derives ts [] ts' -> ts' = ts.
Proof. by inversion 1. Qed.

(** A sequence whose tokens the grammar derives *)
Lemma sequence_complete ts trees ts1 : derives ts trees ts1 -> forall b ts2 p fuel, wf p -> fuel_sequence fuel p ->
  drop_comments (left_of p) = drop_comments ts -> drop_comments ts1 = Close b :: ts2 -> (trees = [] -> left_of p = Close b :: ts2) ->
  sequence_to fuel b p trees ts2.
Proof.
  induction 1 as [ts|ts t trees ts' _ IH|s ts trees ts' Hd IH|b' ts trees ts1 ts2' trees' ts' Hin IH1 Hdc Hemp Hd IH2]; intros b ts2 p fuel Hp Hf Hts Hcl Hnil.
  - destruct fuel as [|fuel]; [unfold fuel_sequence in Hf; lia|]. by apply sequence_end, Hnil.
  - by apply IH.
  - destruct fuel as [|fuel]; [unfold fuel_sequence in Hf; lia|]. cbn in Hts. assert (0 < fuel)%nat by (unfold fuel_sequence in Hf; lia).
    eapply sequence_cons; [done|done|done|done|by eapply parse_atom|]. intros q Hq Hl Hfq. apply IH; [done|done|by rewrite Hl, drop_comments_idemp|done|].
    intros ->. apply derives_none in Hd as ->. by rewrite Hl.
  - destruct fuel as [|[|fuel]]; [unfold fuel_sequence in Hf; lia..|]. cbn in Hts. eapply sequence_cons; [done|done|done|done| |].
    + eapply parse_node; [done|unfold fuel_sequence, fuel_parse in *; lia|done|]. intros q Hq Hl Hfq. apply IH1; [done|done|by rewrite Hl|done|].
      intros ->. rewrite Hl. apply derives_none in Hin as <-. by apply Hemp.
    + intros q Hq Hl Hfq. apply IH2; [done|done|by rewrite Hl, drop_comments_idemp|done|]. intros ->. apply derives_none in Hd as ->. by rewrite Hl.
Qed.

(** ** [ParseAll] *)

(** The grammar of files *)
Definition derives_file (ts : list token) (trees : list tree) : Prop := exists ts', derives ts trees ts' /\ drop_comments ts' = [].

Lemma parse_all_total fuel : forall p terms, wf p -> (length text - index p < fuel)%nat -> Forall (located srcfile (Map.mapping (srcmap p))) terms ->
  exists es m err, parse_all srcfile fuel p terms = Ok (terms ++ es, m, err) /\ Map.mapping (srcmap p) ⊆ Map.mapping m /\
    Forall (located srcfile (Map.mapping m)) (terms ++ es) /\ (err = None -> derives_file (left_of p) (map shape es)).
Proof.
  induction fuel as [|fuel IH]; intros p terms Hp Hf Hloc; [lia|]. cbn [parse_all]. unfold Parser_Parse.
  destruct (parser_sound srcfile (fuel_for srcfile p)) as [Hsound _]. destruct (Hsound p Hp ltac:(done)) as (o & p1 & -> & Hm & Ho). cbn [mbind result_bind].
  destruct o as [err|[e|]].
  - exists [], (srcmap p1), (Some err). rewrite app_nil_r. split; [done|]. split; [done|]. split; [by eapply located_all_mono|done].
  - destruct Ho as [[Hw Hi _ _ Hl] Hd]. pose proof (wf_index _ _ Hw). destruct (IH p1 (terms ++ [e]) Hw ltac:(lia)) as (es & m & err & -> & Hm2 & Hl2 & Hd2).
    { apply Forall_app. split; [by eapply located_all_mono|done]. }
    exists (e :: es), m, err. rewrite <- app_assoc in *. split; [done|]. split; [by etrans|]. split; [done|]. intros He. destruct (Hd2 He) as (ts & Hts & Hdc).
    exists ts. split; [|done]. by eapply (derives_app _ [_]).
  - exists [], (srcmap p1), None. rewrite app_nil_r. split; [done|]. split; [done|]. split; [by eapply located_all_mono|]. intros _.
    destruct Ho as [_ Ho]. eexists. by split; [constructor|].
Qed.

(** The first expression that the grammar derives *)
Lemma element_complete p ts t trees ts1 : derives ts (t :: trees) ts1 -> wf p -> drop_comments (left_of p) = drop_comments ts ->
  exists ts0, parses_to (fuel_for srcfile p) p t ts0 /\ derives ts0 trees ts1.
Proof.
  intros H Hp. remember (t :: trees) as l eqn:Hl. revert t trees Hl. unfold fuel_for. rewrite Nat.add_1_r.
  induction H as [ts|ts t' trees' ts' _ IH|s ts trees' ts' Hd _|b' ts trees' ts1 ts2' trees2 ts' Hin _ Hdc Hemp Hd _]; intros t trees Hl Hts; [done|by apply IH|injection Hl as <- <-..].
  - exists ts. split; [|done]. by apply parse_atom; [|lia|].
  - exists ts2'. split; [|done]. eapply parse_node; [done|unfold fuel_parse; lia|exact Hts|]. intros q Hq Hlq Hfq.
    eapply sequence_complete; [exact Hin|done|done|by rewrite Hlq|done|]. intros ->. rewrite Hlq. apply derives_none in Hin as <-. by apply Hemp.
Qed.

Lemma parse_all_complete trees : forall ts ts1 fuel p terms, derives ts trees ts1 -> drop_comments ts1 = [] -> wf p -> (length text - index p < fuel)%nat ->
  drop_comments (left_of p) = drop_comments ts -> exists es m, parse_all srcfile fuel p terms = Ok (terms ++ es, m, None) /\ map shape es = trees.
Proof.
  induction trees as [|t trees IH]; intros ts ts1 fuel p terms Hd Hend Hp Hf Hts; (destruct fuel as [|fuel]; [lia|]); cbn [parse_all]; unfold Parser_Parse.
  - apply derives_none in Hd as ->. rewrite Hend in Hts. unfold fuel_for. rewrite Nat.add_1_r. cbn [parse].
    destruct (SkipWhiteSpace_spec srcfile p (wf_index _ p Hp)) as (i & -> & Hi & He & Htok & Hst). cbv zeta.
    destruct (Next_spec srcfile (at_index p i) ltac:(cbn; lia) Hst) as (tok & j & -> & Hj & Hs). cbn [index at_index] in Hj, Hs. rewrite Htok, Hts in Hs.
    destruct tok as [s|]; [by destruct Hs as (_ & _ & Hs)|]. cbn [mbind result_bind]. eexists [], _. by rewrite app_nil_r.
  - destruct (element_complete p _ _ _ _ Hd Hp Hts) as (ts0 & (e & p1 & Hparse & Hsh & Hl) & Hd').
    destruct (parser_sound srcfile (fuel_for srcfile p)) as [Hsound _]. destruct (Hsound p Hp ltac:(done)) as (o & p'' & Hp'' & _ & Ho).
    rewrite Hparse in *. injection Hp'' as <- <-. destruct Ho as [[Hw Hi _ _ _] _]. cbn [mbind result_bind]. pose proof (wf_index _ _ Hw).
    destruct (IH ts0 ts1 fuel p1 (terms ++ [e]) Hd' Hend Hw ltac:(lia) ltac:(by rewrite Hl)) as (es & m & -> & Hes).
    exists (e :: es), m. rewrite <- app_assoc. split; [done|]. cbn. by rewrite Hsh, Hes.
Qed.

End Complete.

Lemma NewParser_wf srcfile : wf srcfile (NewParser srcfile).
Proof. split; cbn; [lia|]. intros a [? H]. by rewrite lookup_empty in H. Qed.

(** ** Printing *)





Section TreeInduction.
Context (P : tree -> Prop) (HL : forall s, P (Leaf s)) (HN : forall b ts, Forall P ts -> P (Node b ts)).

End TreeInduction.

Section SExpInduction.
Context (P : SExp -> Prop) (HS : forall b a es, Forall P es -> P (Sequence b a es)) (HN : forall a n, P (Number a n)) (HA : forall a s, P (Symbol a s)).

End SExpInduction.




















(** ** Properties *)

Module SexpProperties.

(** C24: [ParseAll] always returns, never panics, and decides the grammar: it reports no
    error exactly on the texts whose tokens are those of some expressions, which it
    returns.  Every node that it returns has a span in the source map, which is not
    empty, starts at a token, and whose text is that of the node. *)
Theorem parse_all_exact (srcfile : File) :
  exists es m err, ParseAll srcfile = Ok (es, m, err) /\ Forall (located srcfile (Map.mapping m)) es /\
    forall trees, derives_file (tokens (contents srcfile)) trees <-> err = None /\ map shape es = trees.
Proof.
  unfold ParseAll. pose proof (NewParser_wf srcfile) as Hw.
  destruct (parse_all_total srcfile (S (length (contents srcfile))) (NewParser srcfile) [] Hw) as (es & m & err & Hr & _ & Hl & Hd); [cbn; lia|constructor|].
  exists es, m, err. split; [done|]. split; [done|]. intros trees. split.
  - intros (ts & Hts & Hend). destruct (parse_all_complete srcfile trees _ _ (S (length (contents srcfile))) (NewParser srcfile) [] Hts Hend Hw) as (es' & m' & Hr' & Hsh); [cbn; lia|done|].
    rewrite Hr in Hr'. injection Hr' as -> -> ->. done.
  - intros [He <-]. by apply Hd.
Qed.



(** A sequence with only a comment inside is an error, although a comment is skipped
    everywhere else: the comment is what is seen ahead, and not the bracket after it. *)
Lemma comment_only_sequence : exists m err, ParseAll (NewSourceFile "" (runes_of "(;c" ++ [newline] ++ runes_of ")")) = Ok ([], m, Some err)
  /\ msg err = "unexpected end-of-list"%string.
Proof. eexists _, _. split; [vm_compute; reflexivity|reflexivity]. Qed.

(** A space after an expression is an unexpected remainder for [Parse]. *)
Lemma trailing_space : exists err, Parse (NewSourceFile "" (runes_of "() ")) = Ok (None, None, Some err) /\ msg err = "unexpected remainder"%string.
Proof. eexists. split; [vm_compute; reflexivity|reflexivity]. Qed.

End SexpProperties.
