(* ===== verification/Bits.v ===== *)
(** * Bits of byte arrays

    Models [pkg/util/collection/bit]: reading, writing and copying single bits, the
    reader of bit strings and the decoder of packed arrays.  The big and the little
    endian functions differ in the position of a bit in its byte only, so there is
    one definition of each over that position.  Slices have no spare capacity. *)

From Stdlib Require Import ZArith Lia.
From stdpp Require Import base numbers list option strings.
From S2P Require Import Prelude.

Open Scope Z_scope.

Abbreviation byte := Z.
Definition byte_ok (b : byte) : Prop := 0 <= b < 256.

Definition slice_panic : fault := Panic "slice bounds out of range".

(** The slice [l[a:a+n]] *)
Definition slice_sub {A} (l : list A) (a n : nat) : result (list A) :=
  if (length l <? a + n)%nat then Fault slice_panic else Ok (take n (drop a l)).

(** The elements [s] over those of [l] from position [i] *)
Definition overwrite {A} (l : list A) (i : nat) (s : list A) : list A := take i l ++ s ++ drop (i + length s) l.

(** Writes the slice [src[s:s+n]] over [dst[d:d+n]]. *)
Definition copy_bytes (dst : list byte) (d : nat) (src : list byte) (s n : nat) : result (list byte) :=
  _ ← slice_sub dst d n; bytes ← slice_sub src s n; Ok (overwrite dst d bytes).

Definition BytesRequiredFor (bitwidth : nat) : nat :=
  let nbytes := (bitwidth / 8)%nat in if (bitwidth mod 8 =? 0)%nat then nbytes else S nbytes.

Definition NewBuffer (bitwidth : nat) : list byte := replicate (BytesRequiredFor bitwidth) 0.

(** The loop of [Width]; the bound is at most [2^63], for the doubled bound must not
    wrap around. *)
Fixpoint width_loop (fuel : nat) (bound bitwidth acc : Z) : result Z :=
  match fuel with
  | O => Fault OutOfFuel
  | S fuel => if acc <? bound then width_loop fuel bound (bitwidth + 1) (u64 (acc * 2)) else Ok bitwidth
  end.

Definition Width (bound : Z) : result Z := width_loop 64 bound 1 2.

Record Reader : Type := mkReader { bitoffset : nat; bytes : list byte }.

Definition NewReader (bytes : list byte) : Reader := mkReader 0 bytes.

(** The offset never exceeds the number of bits. *)
Definition Remaining (p : Reader) : nat := length (bytes p) * 8 - bitoffset p.

Section Order.
Context (position : nat -> Z).

Definition mask (bitoffset : nat) : byte := Z.shiftl 1 (position (bitoffset mod 8)).

Definition Read (src : list byte) (bitoffset : nat) : result bool :=
  b ← slice_get src (bitoffset / 8); Ok (negb (Z.land b (mask bitoffset) =? 0)).

(** Clearing a bit is a conjunction with the complement of the mask in 8 bits. *)
Definition Write (val : bool) (src : list byte) (bitoffset : nat) : result (list byte) :=
  b ← slice_get src (bitoffset / 8);
  slice_set src (bitoffset / 8) (if val then Z.lor b (mask bitoffset) else Z.land b (Z.lxor (mask bitoffset) 255)).

Fixpoint copy_bits (nbits : nat) (src : list byte) (srcOffset : nat) (dst : list byte) (dstOffset : nat) : result (list byte) :=
  match nbits with
  | O => Ok dst
  | S nbits =>
      ith ← Read src srcOffset;
      dst ← Write ith dst dstOffset;
      copy_bits nbits src (S srcOffset) dst (S dstOffset)
  end.

(** [BigEndianCopy] and [LittleEndianCopy]: whole bytes first when both offsets are
    those of bytes *)
Definition Copy (src : list byte) (srcOffset : nat) (dst : list byte) (dstOffset nbits : nat) : result (list byte) :=
  if (srcOffset mod 8 =? 0)%nat && (dstOffset mod 8 =? 0)%nat then
    let nBytes := (nbits / 8)%nat in
    dst ← copy_bytes dst (dstOffset / 8) src (srcOffset / 8) nBytes;
    copy_bits (nbits mod 8) src (srcOffset + nBytes * 8) dst (dstOffset + nBytes * 8)
  else copy_bits nbits src srcOffset dst dstOffset.

(** The number of bytes read, the buffer and the reader *)
Definition ReadInto (p : Reader) (nbits : nat) (buf : list byte) : result (nat * list byte * Reader) :=
  let nread := (nbits / 8)%nat in
  '(buf, nread) ← (if (nbits mod 8 =? 0)%nat then Ok (buf, nread) else buf ← slice_set buf nread 0; Ok (buf, S nread));
  buf ← Copy (bytes p) (bitoffset p) buf 0 nbits;
  Ok (nread, buf, mkReader (bitoffset p + nbits) (bytes p)).

End Order.

Definition big_endian (bit : nat) : Z := 7 - Z.of_nat bit.
Definition little_endian (bit : nat) : Z := Z.of_nat bit.

Definition BigEndianRead := Read big_endian.
Definition BigEndianWrite := Write big_endian.
Definition BigEndianCopy := Copy big_endian.
Definition BigEndianReadInto := ReadInto big_endian.
Definition LittleEndianRead := Read little_endian.
Definition LittleEndianWrite := Write little_endian.
Definition LittleEndianCopy := Copy little_endian.
Definition LittleEndianReadInto := ReadInto little_endian.

(** The loop of [DecodeArray]; the decoder is a closure, with the variables that it
    captures as a state. *)
Section DecodeArray.
Context {T S : Type} (bitwidth : nat) (decoder : S -> list byte -> result (T * S)).

Fixpoint decode_loop (fuel nelems index : nat) (reader : Reader) (buffer : list byte) (st : S) : result (list T * nat * S) :=
  if (Remaining reader <? bitwidth)%nat then Ok ([], Remaining reader, st)
  else
    match fuel with
    | O => Fault OutOfFuel
    | Datatypes.S fuel =>
        '(_, buffer, reader) ← BigEndianReadInto reader bitwidth buffer;
        '(v, st) ← decoder st buffer;
        if (index <? nelems)%nat then
          '(values, n, st) ← decode_loop fuel nelems (Datatypes.S index) reader buffer st;
          Ok (v :: values, n, st)
        else Fault index_panic
    end.

(** The elements, the number of bits that are left, and the state *)
Definition DecodeArray (bytes : list byte) (st : S) : result (list T * nat * S) :=
  if (bitwidth =? 0)%nat then Fault (Panic "integer divide by zero")
  else decode_loop (Datatypes.S (length bytes * 8)) (length bytes * 8 / bitwidth) 0 (NewReader bytes) (NewBuffer bitwidth) st.

End DecodeArray.

(** ** The bits of an array *)

Section Bits.
Context (position : nat -> Z).
Context (position_range : forall i, (i < 8)%nat -> 0 <= position i < 8).
Context (position_inj : forall i j, (i < 8)%nat -> (j < 8)%nat -> position i = position j -> i = j).

Definition bit_at (l : list byte) (i : nat) : bool := Z.testbit (nth (i / 8) l 0) (position (i mod 8)).

(** The bits in the order of their offsets *)
Definition bits (l : list byte) : list bool := bit_at l <$> seq 0 (8 * length l).

Lemma bits_length l : length (bits l) = (8 * length l)%nat.
Proof. unfold bits. by rewrite length_fmap, length_seq. Qed.

Lemma bits_lookup l i : (i < 8 * length l)%nat -> bits l !! i = Some (bit_at l i).
Proof. intros H. unfold bits. rewrite list_lookup_fmap, lookup_seq_lt by done. done. Qed.

Lemma offset_bounds i n : (i < 8 * n)%nat -> (i / 8 < n)%nat /\ (i mod 8 < 8)%nat.
Proof. intros H. split; [apply Nat.Div0.div_lt_upper_bound; lia|by apply Nat.mod_upper_bound]. Qed.

Lemma bit_mask_testbit i n : Z.testbit (mask position i) n = (n =? position (i mod 8)).
Proof.
  assert (Hp : 0 <= position (i mod 8)) by (apply position_range, Nat.mod_upper_bound; lia). unfold mask.
  destruct (Z.ltb_spec n 0); [rewrite Z.testbit_neg_r by done; symmetry; apply Z.eqb_neq; lia|].
  rewrite Z.shiftl_1_l, Z.pow2_bits_eqb by done. apply Z.eqb_sym.
Qed.

Lemma land_bit_mask b i : negb (Z.land b (mask position i) =? 0) = Z.testbit b (position (i mod 8)).
Proof.
  destruct (Z.testbit b (position (i mod 8))) eqn:E.
  - apply negb_true_iff, Z.eqb_neq. intros H. apply (f_equal (fun x => Z.testbit x (position (i mod 8)))) in H.
    rewrite Z.land_spec, bit_mask_testbit, E, Z.eqb_refl, Z.testbit_0_l in H. done.
  - apply negb_false_iff, Z.eqb_eq. apply Z.bits_inj'. intros n Hn. rewrite Z.land_spec, bit_mask_testbit, Z.testbit_0_l.
    destruct (Z.eqb_spec n (position (i mod 8))) as [->|]; [by rewrite E|apply andb_false_r].
Qed.

Lemma Read_spec src i : (i < 8 * length src)%nat -> Read position src i = Ok (bit_at src i).
Proof.
  intros H. destruct (offset_bounds _ _ H) as [Hb _]. unfold Read, slice_get, bit_at. destruct (lookup_lt_is_Some_2 _ _ Hb) as [b Hl].
  rewrite Hl. cbn [mbind result_bind]. rewrite land_bit_mask. by rewrite (nth_lookup_Some _ _ _ _ Hl).
Qed.

Lemma byte_ok_land x : byte_ok (Z.land x 255).
Proof. unfold byte_ok. change 255 with (Z.ones 8). rewrite Z.land_ones by lia. change (2 ^ 8) with 256. by apply Z.mod_pos_bound. Qed.

Lemma byte_ok_bits b : byte_ok b <-> Z.land b 255 = b.
Proof.
  unfold byte_ok. change 255 with (Z.ones 8). rewrite Z.land_ones by lia. change (2 ^ 8) with 256. split; [by apply Z.mod_small|intros <-].
  by apply Z.mod_pos_bound.
Qed.

Lemma bit_mask_ok i : byte_ok (mask position i).
Proof.
  destruct (position_range (i mod 8) ltac:(apply Nat.mod_upper_bound; lia)). unfold byte_ok, mask. rewrite Z.shiftl_1_l.
  split; [apply Z.pow_nonneg; lia|]. change 256 with (2 ^ 8). by apply Z.pow_lt_mono_r.
Qed.

(** Writing a bit changes exactly that bit. *)
Definition written (b : byte) (val : bool) (i : nat) : byte := if val then Z.lor b (mask position i) else Z.land b (Z.lxor (mask position i) 255).

Lemma written_ok b val i : byte_ok b -> byte_ok (written b val i).
Proof.
  rewrite !byte_ok_bits. intros Hb. pose proof (proj1 (byte_ok_bits _) (bit_mask_ok i)) as Hm. unfold written. destruct val.
  - by rewrite Z.land_lor_distr_l, Hb, Hm.
  - by rewrite <- Z.land_assoc, (Z.land_comm (Z.lxor _ _)), Z.land_assoc, Hb.
Qed.

Lemma written_testbit b val i n : byte_ok b -> 0 <= n < 8 -> Z.testbit (written b val i) n = if n =? position (i mod 8) then val else Z.testbit b n.
Proof.
  intros Hb Hn. unfold written. assert (H255 : Z.testbit 255 n = true) by (change 255 with (Z.ones 8); by apply Z.ones_spec_low).
  destruct val; [rewrite Z.lor_spec|rewrite Z.land_spec, Z.lxor_spec, H255]; rewrite bit_mask_testbit; destruct (n =? _);
    by rewrite ?orb_true_r, ?orb_false_r, ?andb_true_r, ?andb_false_r.
Qed.

Lemma Write_spec val dst i : (i < 8 * length dst)%nat -> Forall byte_ok dst ->
  exists dst', Write position val dst i = Ok dst' /\ length dst' = length dst /\ Forall byte_ok dst' /\ bits dst' = <[i := val]> (bits dst).
Proof.
  intros H Hok. destruct (offset_bounds _ _ H) as [Hb Hm]. unfold Write, slice_get, slice_set. destruct (lookup_lt_is_Some_2 _ _ Hb) as [b Hl].
  rewrite Hl. cbn [mbind result_bind]. fold (written b val i). pose proof (Forall_lookup_1 _ _ _ _ Hok Hl) as Hbok.
  rewrite decide_True by done. eexists. split; [done|]. split; [by rewrite length_insert|]. split; [apply Forall_insert; [done|by apply written_ok]|].
  apply list_eq. intros j. destruct (decide (j < 8 * length dst)%nat) as [Hj|Hj].
  2: { rewrite !lookup_ge_None_2; [done|rewrite length_insert, bits_length; lia|rewrite bits_length, length_insert; lia]. }
  rewrite bits_lookup by (by rewrite length_insert). destruct (offset_bounds _ _ Hj) as [Hjb Hjm]. unfold bit_at.
  destruct (decide (i = j)) as [->|Hne].
  - rewrite list_lookup_insert_eq by (by rewrite bits_length). rewrite (nth_lookup_Some _ _ _ (written b val j)) by (by apply list_lookup_insert_eq).
    rewrite written_testbit by (done || by apply position_range). by rewrite Z.eqb_refl.
  - rewrite list_lookup_insert_ne, bits_lookup by done. f_equal. unfold bit_at. destruct (decide (i / 8 = j / 8)%nat) as [He|He].
    + rewrite <- He, (nth_lookup_Some _ _ _ (written b val i)), (nth_lookup_Some dst _ _ b) by (done || by apply list_lookup_insert_eq).
      rewrite written_testbit by (done || by apply position_range). destruct (Z.eqb_spec (position (j mod 8)) (position (i mod 8))) as [Hp|]; [|done].
      apply position_inj in Hp; [|done..]. exfalso. apply Hne. rewrite (Nat.div_mod_eq i 8), (Nat.div_mod_eq j 8). lia.
    + f_equal. rewrite !nth_lookup, list_lookup_insert_ne by done. done.
Qed.

Lemma bit_at_app a b i : bit_at (a ++ b) i = if (i <? 8 * length a)%nat then bit_at a i else bit_at b (i - 8 * length a).
Proof.
  unfold bit_at. destruct (Nat.ltb_spec i (8 * length a)) as [H|H].
  - destruct (offset_bounds _ _ H) as [Hb _]. by rewrite app_nth1.
  - assert (Hi : i = (length a * 8 + (i - 8 * length a))%nat) by lia. set (j := (i - 8 * length a)%nat) in *. clearbody j. subst i.
    rewrite (Nat.add_comm (length a * 8)), Nat.div_add, Nat.Div0.mod_add by lia. rewrite app_nth2 by lia. do 2 f_equal. lia.
Qed.

Lemma bits_app a b : bits (a ++ b) = bits a ++ bits b.
Proof.
  apply list_eq. intros i. destruct (decide (i < 8 * length (a ++ b))%nat) as [H|H].
  - rewrite bits_lookup, bit_at_app by done. rewrite length_app in H. destruct (Nat.ltb_spec i (8 * length a)) as [Ha|Ha].
    + rewrite lookup_app_l, bits_lookup; [done|done|by rewrite bits_length].
    + rewrite lookup_app_r, bits_length, bits_lookup; [done|lia|rewrite bits_length; lia].
  - rewrite length_app in H. rewrite !lookup_ge_None_2; [done|rewrite length_app, !bits_length; lia|rewrite bits_length, length_app; lia].
Qed.

Lemma bits_take n l : bits (take n l) = take (8 * n) (bits l).
Proof.
  destruct (decide (n <= length l)%nat) as [H|H].
  - rewrite <- (take_drop n l) at 2. rewrite bits_app, take_app_length'; [done|]. rewrite bits_length, length_take. lia.
  - rewrite !take_ge; [done|rewrite bits_length; lia|lia].
Qed.

Lemma bits_drop n l : bits (drop n l) = drop (8 * n) (bits l).
Proof.
  destruct (decide (n <= length l)%nat) as [H|H].
  - rewrite <- (take_drop n l) at 2. rewrite bits_app, drop_app_length'; [done|]. rewrite bits_length, length_take. lia.
  - rewrite !drop_ge; [done|rewrite bits_length; lia|lia].
Qed.

Lemma bits_overwrite l i s : bits (overwrite l i s) = overwrite (bits l) (8 * i) (bits s).
Proof. unfold overwrite. rewrite !bits_app, bits_take, bits_drop, bits_length. do 3 f_equal. lia. Qed.

Lemma bits_zero n : bits (replicate n 0) = replicate (8 * n) false.
Proof.
  apply list_eq. intros i. destruct (decide (i < 8 * n)%nat) as [H|H].
  - rewrite bits_lookup by (by rewrite length_replicate). rewrite lookup_replicate_2 by done. unfold bit_at.
    destruct (offset_bounds _ _ H) as [Hb _]. by rewrite nth_lookup, lookup_replicate_2, Z.testbit_0_l by done.
  - rewrite !lookup_ge_None_2; [done|rewrite length_replicate; lia|rewrite bits_length, length_replicate; lia].
Qed.

(** ** Copies *)

Lemma overwrite_length {A} (l : list A) i s : (i + length s <= length l)%nat -> length (overwrite l i s) = length l.
Proof. intros H. unfold overwrite. rewrite !length_app, length_take, length_drop. lia. Qed.

Lemma overwrite_insert {A} (l : list A) i x s : (i < length l)%nat -> overwrite (<[i := x]> l) (S i) s = overwrite l i (x :: s).
Proof.
  intros H. unfold overwrite. rewrite (take_S_r _ _ x) by (by apply list_lookup_insert_eq). rewrite take_insert_ge by done.
  rewrite drop_insert_lt by lia. rewrite <- app_assoc. cbn. do 4 f_equal. lia.
Qed.

Lemma overwrite_app {A} (l : list A) i s t : (i + length s <= length l)%nat -> overwrite (overwrite l i s) (i + length s) t = overwrite l i (s ++ t).
Proof.
  intros H. set (a := take i l ++ s). assert (Ha : length a = (i + length s)%nat) by (subst a; rewrite length_app, length_take; lia).
  assert (Ho : overwrite l i s = a ++ drop (i + length s) l) by (unfold overwrite; by rewrite app_assoc).
  rewrite Ho. unfold overwrite at 1. rewrite take_app_length' by done. rewrite drop_app, drop_ge, drop_drop, Ha by lia. cbn [app].
  unfold overwrite. subst a. rewrite <- !app_assoc, length_app. do 4 f_equal. lia.
Qed.

Lemma copy_bits_spec src n : forall s dst d, (s + n <= 8 * length src)%nat -> (d + n <= 8 * length dst)%nat -> Forall byte_ok dst ->
  exists dst', copy_bits position n src s dst d = Ok dst' /\ length dst' = length dst /\ Forall byte_ok dst' /\
    bits dst' = overwrite (bits dst) d (take n (drop s (bits src))).
Proof.
  induction n as [|n IH]; intros s dst d Hs Hd Hok; cbn [copy_bits].
  - exists dst. split_and!; try done. unfold overwrite. rewrite take_0. cbn [length app]. by rewrite Nat.add_0_r, take_drop.
  - rewrite Read_spec by lia. cbn [mbind result_bind]. destruct (Write_spec (bit_at src s) dst d) as (dst1 & -> & Hl1 & Hok1 & Hb1); [lia|done|].
    cbn [mbind result_bind]. destruct (IH (S s) dst1 (S d)) as (dst' & -> & Hl & Hok' & Hb); [lia|lia|done|].
    exists dst'. split; [done|]. split; [congruence|]. split; [done|]. rewrite Hb, Hb1, overwrite_insert by (rewrite bits_length; lia).
    rewrite (drop_S (bits src) (bit_at src s) s) by (apply bits_lookup; lia). done.
Qed.

Lemma slice_sub_ok {A} (l : list A) a n : (a + n <= length l)%nat -> slice_sub l a n = Ok (take n (drop a l)).
Proof. intros H. unfold slice_sub. destruct (Nat.ltb_spec (length l) (a + n)); [lia|done]. Qed.

Lemma Forall_overwrite {A} (P : A -> Prop) l i s : Forall P l -> Forall P s -> Forall P (overwrite l i s).
Proof. intros Hl Hs. unfold overwrite. apply Forall_app. split; [by apply Forall_take|]. apply Forall_app. split; [done|by apply Forall_drop]. Qed.

Lemma aligned i : (i mod 8 =? 0)%nat = true -> i = (8 * (i / 8))%nat.
Proof. rewrite Nat.eqb_eq. intros H. pose proof (Nat.div_mod_eq i 8). lia. Qed.

(** Copying copies the bits, on bytes or one by one. *)
Lemma Copy_spec src s dst d n : (s + n <= 8 * length src)%nat -> (d + n <= 8 * length dst)%nat -> Forall byte_ok src -> Forall byte_ok dst ->
  exists dst', Copy position src s dst d n = Ok dst' /\ length dst' = length dst /\ Forall byte_ok dst' /\
    bits dst' = overwrite (bits dst) d (take n (drop s (bits src))).
Proof.
  intros Hs Hd Hsok Hok. unfold Copy. destruct (andb _ _) eqn:E; [|by apply copy_bits_spec].
  apply andb_prop in E as [Es%aligned Ed%aligned]. pose proof (Nat.div_mod_eq n 8) as Hn. set (q := (n / 8)%nat) in *. set (r := (n mod 8)%nat) in *.
  unfold copy_bytes. rewrite !slice_sub_ok by lia. cbn [mbind result_bind]. set (bs := take q (drop (s / 8) src)).
  assert (Hbs : length bs = q) by (subst bs; rewrite length_take, length_drop; lia).
  set (dst1 := overwrite dst (d / 8) bs). assert (Hl1 : length dst1 = length dst) by (apply overwrite_length; lia).
  assert (Hb1 : bits dst1 = overwrite (bits dst) d (take (8 * q) (drop s (bits src)))).
  { subst dst1 bs. by rewrite bits_overwrite, bits_take, bits_drop, <- Es, <- Ed. }
  destruct (copy_bits_spec src r (s + q * 8) dst1 (d + q * 8)) as (dst' & -> & Hl & Hok' & Hb); [lia|lia| |].
  { apply Forall_overwrite; [done|]. by apply Forall_take, Forall_drop. }
  exists dst'. split; [done|]. split; [congruence|]. split; [done|]. rewrite Hb, Hb1. clear Hb Hb1.
  set (t := take (8 * q) (drop s (bits src))). assert (Ht : length t = (8 * q)%nat) by (subst t; rewrite length_take, length_drop, bits_length; lia).
  replace (d + q * 8)%nat with (d + length t)%nat by lia. rewrite overwrite_app by (rewrite bits_length; lia). f_equal. subst t.
  rewrite <- drop_drop. replace (q * 8)%nat with (8 * q)%nat by lia. rewrite take_take_drop. f_equal. lia.
Qed.

(** Copying bits out of range panics. *)
Lemma copy_bits_range src n : forall s dst d dst', copy_bits position n src s dst d = Ok dst' ->
  n = 0%nat \/ (s + n <= 8 * length src /\ d + n <= 8 * length dst)%nat.
Proof.
  induction n as [|n IH]; intros s dst d dst' H; [by left|right]. cbn [copy_bits] in H. inv_ok. unfold Read, Write in *. inv_ok.
  rewrite !slice_get_ok in *. repeat match goal with H : _ !! _ = Some _ |- _ => apply lookup_lt_Some in H end.
  match goal with H : slice_set _ _ _ = Ok _ |- _ => apply slice_set_length in H as Hlen end. apply IH in H. rewrite Hlen in H.
  assert (forall i m, (i / 8 < m)%nat -> (i < 8 * m)%nat) as Hdiv by (intros i m Hi; pose proof (Nat.div_mod_eq i 8); pose proof (Nat.mod_upper_bound i 8 ltac:(lia)); lia).
  repeat match goal with H : (_ / 8 < _)%nat |- _ => apply Hdiv in H end. lia.
Qed.

Lemma slice_sub_inv {A} (l : list A) a n s : slice_sub l a n = Ok s -> s = take n (drop a l) /\ (a + n <= length l)%nat.
Proof. unfold slice_sub. destruct (Nat.ltb_spec (length l) (a + n)); [done|]. by intros [= <-]. Qed.

Lemma copy_bytes_inv dst d src s n dst' : copy_bytes dst d src s n = Ok dst' -> length dst' = length dst /\ (d + n <= length dst)%nat /\ (s + n <= length src)%nat.
Proof.
  unfold copy_bytes. intros H. inv_ok. apply slice_sub_inv in Ha as [_ Hd]. apply slice_sub_inv in Ha0 as [-> Hs]. subst dst'.
  rewrite overwrite_length; [done|rewrite length_take, length_drop; lia].
Qed.

Lemma Copy_range src s dst d n dst' : Copy position src s dst d n = Ok dst' -> n = 0%nat \/ (s + n <= 8 * length src /\ d + n <= 8 * length dst)%nat.
Proof.
  unfold Copy. destruct (andb _ _) eqn:E; [|apply copy_bits_range]. apply andb_prop in E as [Es%aligned Ed%aligned]. intros H. inv_ok.
  pose proof (Nat.div_mod_eq n 8) as Hn. apply copy_bits_range in H. apply copy_bytes_inv in Ha as (Hl & Hd & Hs). rewrite Hl in H. lia.
Qed.

(** ** Readers *)

Definition padded (nbits : nat) (s : list bool) : list bool := s ++ replicate (8 * BytesRequiredFor nbits - length s) false.

Lemma BytesRequiredFor_bounds n : (n <= 8 * BytesRequiredFor n < n + 8)%nat.
Proof.
  unfold BytesRequiredFor. pose proof (Nat.div_mod_eq n 8). pose proof (Nat.mod_upper_bound n 8 ltac:(lia)).
  destruct (Nat.eqb_spec (n mod 8) 0); lia.
Qed.

(** Reading gives the next bits, with zeros up to a whole number of bytes. *)
Lemma ReadInto_spec p n buf : (bitoffset p + n <= 8 * length (bytes p))%nat -> (BytesRequiredFor n <= length buf)%nat ->
  Forall byte_ok (bytes p) -> Forall byte_ok buf ->
  exists buf', ReadInto position p n buf = Ok (BytesRequiredFor n, buf', mkReader (bitoffset p + n) (bytes p)) /\ length buf' = length buf /\
    Forall byte_ok buf' /\ bits (take (BytesRequiredFor n) buf') = padded n (take n (drop (bitoffset p) (bits (bytes p)))).
Proof.
  intros Hn Hbuf Hok Hbok. unfold ReadInto. set (s := take n (drop (bitoffset p) (bits (bytes p)))).
  assert (Hs : length s = n) by (subst s; rewrite length_take, length_drop, bits_length; lia). unfold padded. rewrite Hs.
  pose proof (BytesRequiredFor_bounds n) as Hb. unfold BytesRequiredFor in *. pose proof (Nat.div_mod_eq n 8) as Hdm.
  destruct (Nat.eqb_spec (n mod 8) 0) as [He|He]; cbn [mbind result_bind].
  - destruct (Copy_spec (bytes p) (bitoffset p) buf 0 n) as (buf' & -> & Hl & Hok' & Hbits); [lia|lia|done|done|]. cbn [mbind result_bind].
    exists buf'. split; [done|]. split; [done|]. split; [done|]. rewrite bits_take, Hbits. unfold overwrite. fold s. rewrite Hs.
    replace (8 * (n / 8))%nat with n by lia. rewrite Nat.sub_diag. cbn [replicate]. rewrite take_0, app_nil_r. cbn [app]. by apply take_app_length'.
  - unfold slice_set. rewrite decide_True by lia. cbn [mbind result_bind]. set (b0 := <[(n / 8)%nat := 0]> buf).
    assert (Hl0 : length b0 = length buf) by (subst b0; apply length_insert).
    assert (Hb0 : bits b0 = overwrite (bits buf) (8 * (n / 8)) (replicate 8 false)).
    { assert (b0 = overwrite buf (n / 8) [0]) as ->.
      { subst b0. apply list_eq. intros i. rewrite insert_take_drop by lia. unfold overwrite. cbn. do 4 f_equal. by rewrite Nat.add_1_r. }
      rewrite bits_overwrite. f_equal. apply (bits_zero 1). }
    destruct (Copy_spec (bytes p) (bitoffset p) b0 0 n) as (buf' & -> & Hl & Hok' & Hbits); [lia|lia|done| |].
    { subst b0. apply Forall_insert; [done|]. unfold byte_ok. lia. }
    cbn [mbind result_bind]. exists buf'. split; [done|]. split; [congruence|]. split; [done|]. rewrite bits_take, Hbits, Hb0. unfold overwrite. fold s.
    rewrite take_0. cbn [app]. rewrite take_app, take_ge by lia. f_equal. rewrite Hs, length_replicate, Nat.add_0_l.
    rewrite drop_app, length_take, bits_length. rewrite Nat.min_l by lia.
    rewrite drop_ge by (rewrite length_take, bits_length; lia). cbn [app].
    rewrite drop_app, length_replicate. rewrite take_app, length_drop, length_replicate.
    replace (8 * S (n / 8) - n - (8 - (n - 8 * (n / 8))))%nat with 0%nat by lia. rewrite take_0, app_nil_r.
    rewrite take_ge by (rewrite length_drop, length_replicate; lia). rewrite drop_replicate. f_equal. lia.
Qed.

End Bits.

(** ** The width of a bound *)

Lemma width_loop_spec bound fuel : bound <= 2 ^ 63 -> forall w, 1 <= w <= 63 -> 63 - w < Z.of_nat fuel -> (w = 1 \/ 2 ^ (w - 1) < bound) ->
  exists r, width_loop fuel bound w (2 ^ w) = Ok r /\ 1 <= r /\ bound <= 2 ^ r /\ (r = 1 \/ 2 ^ (r - 1) < bound).
Proof.
  intros Hb. induction fuel as [|fuel IH]; intros w Hw Hf Hlow; [lia|]. cbn [width_loop]. destruct (Z.ltb_spec (2 ^ w) bound) as [Hlt|Hge].
  - assert (w < 63) by (apply (Z.pow_lt_mono_r_iff 2); lia). replace (u64 (2 ^ w * 2)) with (2 ^ (w + 1)).
    + apply IH; [lia|lia|]. right. by replace (w + 1 - 1) with w by lia.
    + rewrite Z.pow_add_r, Z.pow_1_r by lia. symmetry. apply u64_small. split; [lia|]. assert (2 ^ w < 2 ^ 63) by lia. lia.
  - exists w. split_and!; [done|lia|done|done].
Qed.

(** [Width] gives the fewest bits, and at least one, that hold all values below a bound. *)
Lemma bound_width bound : bound <= 2 ^ 63 ->
  exists r, Width bound = Ok r /\ 1 <= r /\ bound <= 2 ^ r /\ (r = 1 \/ 2 ^ (r - 1) < bound).
Proof. intros H. apply (width_loop_spec bound 64 H 1); lia. Qed.

(** For a larger bound the loop never ends: the accumulator wraps around to zero. *)
Lemma Width_diverges bound fuel : 2 ^ 63 < bound -> width_loop fuel bound 1 2 = Fault OutOfFuel.
Proof.
  intros Hb. assert (H : forall fuel w b, 0 <= b -> width_loop fuel bound w (if b =? 0 then 0 else u64 (2 ^ b)) = Fault OutOfFuel); [|exact (H fuel 1 1 ltac:(lia))].
  clear fuel. induction fuel as [|fuel IH]; intros w b Hpos; [done|]. cbn [width_loop].
  assert (Hacc : (if b =? 0 then 0 else u64 (2 ^ b)) <= 2 ^ 63 /\ u64 ((if b =? 0 then 0 else u64 (2 ^ b)) * 2) = (if (if b =? 0 then 0 else b + 1) =? 0 then 0 else u64 (2 ^ (if b =? 0 then 0 else b + 1)))).
  { destruct (Z.eqb_spec b 0) as [->|Hne]; [split; done|]. destruct (Z.eqb_spec (b + 1) 0); [lia|]. unfold u64, wrap. split.
    - destruct (decide (b < 64)) as [Hlt|Hge].
      + rewrite Z.mod_small; [apply Z.pow_le_mono_r; lia|]. split; [lia|]. by apply Z.pow_lt_mono_r; lia.
      + replace b with (b - 64 + 64) by lia. rewrite Z.pow_add_r by lia. rewrite Z.mod_mul by lia. done.
    - rewrite Z.mul_mod_idemp_l by lia. by rewrite Z.pow_add_r by lia. }
  destruct Hacc as [Hle Heq]. destruct (Z.ltb_spec (if b =? 0 then 0 else u64 (2 ^ b)) bound); [|lia]. rewrite Heq. apply IH. destruct (b =? 0); lia.
Qed.
