(* ===== verification/Codec.v ===== *)
(** * Packed encoding of machine words

    Models [pkg/zkc/vm/word.go] and the functions of [pkg/zkc/vm/machine.go] that
    decode the inputs of a machine from bytes and encode its outputs: words are packed
    tightly, most significant bit first, by the widths of the data lines. *)

From Stdlib Require Import ZArith Lia.
From stdpp Require Import base numbers list option strings gmap.
From S2P Require Import Prelude Interval Word Register Memory Instruction Machine Bits.

Open Scope Z_scope.

(** ** Big integers as bytes *)

Abbreviation SetBytes := Register.BigSetBytes.
Abbreviation Bytes := Register.BigBytes.

(** ** [word.go] *)

Definition expandBufferAsNeeded (bitwidth : nat) (buffer : list byte) : list byte :=
  let n := BytesRequiredFor bitwidth in if (n <=? length buffer)%nat then buffer else replicate n 0.

(** The value, the buffer, which may be a new one, and the reader *)
Definition DecodeUnsignedInt (bitwidth : nat) (reader : Reader) (buffer : list byte) : result (list Z * list byte * Reader) :=
  let n := BytesRequiredFor bitwidth in
  let m := (n * 8 - bitwidth)%nat in
  let buffer := expandBufferAsNeeded bitwidth buffer in
  '(_, buffer, reader) ← BigEndianReadInto reader bitwidth buffer;
  bytes ← slice_sub buffer 0 n;
  Ok ([Z.shiftr (SetBytes bytes) (Z.of_nat m)], buffer, reader).

(** [copy(buf[i:], bytes)], as many bytes as fit *)
Definition copy_from (buf : list byte) (i : nat) (bytes : list byte) : result (list byte) :=
  if (length buf <? i)%nat then Fault slice_panic else Ok (overwrite buf i (take (length buf - i) bytes)).

(** A value that needs more than [n] bytes makes the start of the slice wrap around. *)
Definition EncodeUnsignedInt (bitwidth : nat) (v : Z) (buf : list byte) : result (list byte) :=
  let n := BytesRequiredFor bitwidth in
  let m := (n * 8 - bitwidth)%nat in
  let buf := replicate (length buf) 0 in
  let valBytes := Bytes (Z.shiftl v (Z.of_nat m)) in
  if (0 <? length valBytes)%nat then
    if (n <? length valBytes)%nat then Fault slice_panic else copy_from buf (n - length valBytes) valBytes
  else Ok buf.

(** The sum is a [uint]. *)
Fixpoint bitwidth_from (registers : list Register.t) (width : Z) : result Z :=
  match registers with
  | [] => Ok width
  | r :: registers =>
      if Register.IsNative r then Fault (Panic "cannot determine bitwidth of native register")
      else w ← Register.Width r; bitwidth_from registers (u64 (width + w))
  end.

Definition bitwidthOf (registers : list Register.t) : result Z := bitwidth_from registers 0.

Section Words.
Context {W : Type} `{!Word W}.

(** The loop over the registers of one element *)
Fixpoint decode_registers (registers : list Register.t) (reader : Reader) (buffer : list byte) : result (list Z * list byte) :=
  match registers with
  | [] => Ok ([], buffer)
  | t :: registers =>
      width ← Register.Width t;
      '(vs, buffer, reader) ← DecodeUnsignedInt (Z.to_nat width) reader buffer;
      '(ints, buffer) ← decode_registers registers reader buffer;
      Ok (vs ++ ints, buffer)
  end.

(** The decoder of one element, with the buffer that it captures *)
Definition decode_element (registers : list Register.t) (buffer bytes : list byte) : result (list Z * list byte) :=
  decode_registers registers (NewReader bytes) buffer.

Definition DecodeBytes (bytes : list byte) (registers : list Register.t) : result (list W) :=
  bitwidth ← bitwidthOf registers;
  '(values, _, _) ← DecodeArray (Z.to_nat bitwidth) (decode_element registers) bytes [];
  mapM w_SetBigInt (mjoin values).

(** The number of bits of the values after the full rounds; the registers are indexed
    by the position of the value, and not by its position in the round. *)
Fixpoint partial_bits (registers : list Register.t) (i n : nat) (totalBits : Z) : result Z :=
  match n with
  | O => Ok totalBits
  | S n => reg ← slice_get registers i; width ← Register.Width reg; partial_bits registers (S i) n (u64 (totalBits + width))
  end.

(** The two loops of [EncodeBytes]; [rest] are the registers left in the round. *)
Fixpoint encode_loop (registers : list Register.t) (values : list W) (rest : list Register.t) (buf out : list byte) (bitOffset : nat)
    : result (list byte) :=
  match values with
  | [] => Ok out
  | val :: values =>
      match (match rest with [] => registers | _ => rest end) with
      | [] => Fault OutOfFuel
      | reg :: rest =>
          width ← Register.Width reg;
          buf ← EncodeUnsignedInt (Z.to_nat width) (w_BigInt val) buf;
          out ← BigEndianCopy buf 0 out bitOffset (Z.to_nat width);
          encode_loop registers values rest buf out (bitOffset + Z.to_nat width)
      end
  end.

Definition EncodeBytes (values : list W) (registers : list Register.t) : result (list byte) :=
  let nRegs := length registers in
  let nElems := length values in
  bitwidth ← bitwidthOf registers;
  let buf := replicate (BytesRequiredFor (Z.to_nat bitwidth)) 0 in
  if (nRegs =? 0)%nat then Fault (Panic "integer divide by zero")
  else
    let nRounds := (nElems / nRegs)%nat in
    totalBits ← partial_bits registers (nRounds * nRegs) (nElems - nRounds * nRegs) (u64 (Z.of_nat nRounds * bitwidth));
    let totalBytes := u64 (totalBits + 7) / 8 in
    encode_loop registers values registers buf (replicate (Z.to_nat totalBytes) 0) 0.

(** ** Inputs and outputs of a machine ([machine.go]) *)

(** The registers of the data lines *)
Definition dataLines (m : Memory W) : result (list Register.t) :=
  let n := Z.to_nat (Memory.AddressLines (Memory.geometry_of m)) in
  slice_sub (Memory.registers (Memory.geometry_of m)) n (Z.to_nat (Memory.DataLines (Memory.geometry_of m))).

(** The type assertion of a module as an [InputOutput] *)
Definition as_input_output (m : Module_ W) : option (Memory W) :=
  match m with MMemory m => match Memory.Contents m with Some _ => Some m | None => None end | MFunction _ => None end.

Definition missing_input (n : string) : fault := Error ("missing input " +:+ n).
Definition unknown_input (n : string) : fault := Error ("unknown input " +:+ n).

(** The loop over the modules: the decoded inputs, the names of the input memories and
    the names that are missing *)
Fixpoint decode_modules (ms : list (Module_ W)) (input : gmap string (list byte))
    (visited : list string) (inputs : gmap string (list W)) (missing : list string)
    : result (list string * gmap string (list W) * list string) :=
  match ms with
  | [] => Ok (visited, inputs, missing)
  | c :: ms =>
      match as_input_output c with
      | Some mem =>
          if Kind.IsReadOnly (Memory.kind_of mem) && negb (Kind.IsStatic (Memory.kind_of mem)) then
            lines ← dataLines mem;
            match input !! Name c with
            | Some bytes => ws ← DecodeBytes bytes lines; decode_modules ms input (Name c :: visited) (<[Name c := ws]> inputs) missing
            | None => decode_modules ms input (Name c :: visited) inputs (missing ++ [Name c])
            end
          else decode_modules ms input visited inputs missing
      | None => decode_modules ms input visited inputs missing
      end
  end.

(** The inputs and the errors; the unknown inputs come in the order of the map. *)
Definition DecodeInputs (ms : list (Module_ W)) (input : gmap string (list byte)) : result (gmap string (list W) * list fault) :=
  '(visited, inputs, missing) ← decode_modules ms input [] ∅ [];
  let unknown := List.filter (fun k => negb (bool_decide (k ∈ visited))) (map_to_list input).*1 in
  Ok (inputs, map missing_input missing ++ map unknown_input unknown).

(** The loop of [DecodeInputsOutputs], over every memory of the machine's interface *)
Fixpoint decode_io_modules (ms : list (Module_ W)) (data : gmap string (list byte)) (visited : list string)
    (inputs outputs : gmap string (list W)) (missing : list string)
    : result (list string * gmap string (list W) * gmap string (list W) * list string) :=
  match ms with
  | [] => Ok (visited, inputs, outputs, missing)
  | c :: ms =>
      match as_input_output c with
      | Some mem =>
          if negb (Kind.IsStatic (Memory.kind_of mem)) then
            lines ← dataLines mem;
            match data !! Name c with
            | Some bytes =>
                ws ← DecodeBytes bytes lines;
                if Kind.IsReadOnly (Memory.kind_of mem) then decode_io_modules ms data (Name c :: visited) (<[Name c := ws]> inputs) outputs missing
                else decode_io_modules ms data (Name c :: visited) inputs (<[Name c := ws]> outputs) missing
            | None => decode_io_modules ms data (Name c :: visited) inputs outputs (missing ++ [Name c])
            end
          else decode_io_modules ms data visited inputs outputs missing
      | None => decode_io_modules ms data visited inputs outputs missing
      end
  end.

Definition missing_input_output (n : string) : fault := Error ("missing input/output " +:+ n).

Definition DecodeInputsOutputs (ms : list (Module_ W)) (data : gmap string (list byte))
    : result (gmap string (list W) * gmap string (list W) * list fault) :=
  '(visited, inputs, outputs, missing) ← decode_io_modules ms data [] ∅ ∅ [];
  let unknown := List.filter (fun k => negb (bool_decide (k ∈ visited))) (map_to_list data).*1 in
  Ok (inputs, outputs, map missing_input_output missing ++ map unknown_input unknown).

Fixpoint encode_modules (ms : list (Module_ W)) (output : gmap string (list byte)) : result (gmap string (list byte)) :=
  match ms with
  | [] => Ok output
  | c :: ms =>
      match as_input_output c with
      | Some mem =>
          if Kind.IsWriteOnly (Memory.kind_of mem) then
            lines ← dataLines mem;
            bytes ← EncodeBytes (default [] (Memory.Contents mem)) lines;
            encode_modules ms (<[Name c := bytes]> output)
          else encode_modules ms output
      | None => encode_modules ms output
      end
  end.

Definition EncodeOutputs (ms : list (Module_ W)) : result (gmap string (list byte)) := encode_modules ms ∅.

End Words.
