(* ===== verification/CodecFacts.v ===== *)
(** * Packed words round-trip

    The bytes that values are packed into have exactly their bits, one value after the
    other; decoding cuts the bits into the widths of the registers again. *)

From Stdlib Require Import ZArith Lia.
From stdpp Require Import base numbers list option strings gmap.
From S2P Require Import Prelude Interval Word Register Memory Instruction Machine Bits Codec.

Open Scope Z_scope.

(** ** Numbers as bits, most significant first *)

Definition be_value (l : list bool) : Z := foldl (fun acc b => 2 * acc + Z.b2z b) 0 l.

Fixpoint to_bits (n : nat) (v : Z) : list bool :=
  match n with O => [] | S n => to_bits n (v / 2) ++ [Z.odd v] end.

Lemma to_bits_length n v : length (to_bits n v) = n.
Proof. revert v. induction n as [|n IH]; intros v; [done|]. cbn. rewrite length_app, IH. cbn. lia. Qed.

Lemma be_value_snoc l b : be_value (l ++ [b]) = 2 * be_value l + Z.b2z b.
Proof. unfold be_value. by rewrite foldl_app. Qed.

Lemma be_value_bound l : 0 <= be_value l < 2 ^ Z.of_nat (length l).
Proof.
  induction l as [|b l IH] using rev_ind; [done|]. rewrite be_value_snoc, length_app. cbn [length].
  rewrite Nat.add_1_r, Nat2Z.inj_succ, Z.pow_succ_r by lia. destruct b; cbn; lia.
Qed.

Lemma be_value_app a b : be_value (a ++ b) = be_value a * 2 ^ Z.of_nat (length b) + be_value b.
Proof.
  induction b as [|x b IH] using rev_ind; [rewrite app_nil_r; cbn; lia|].
  rewrite app_assoc, !be_value_snoc, IH, length_app. cbn [length]. rewrite Nat.add_1_r, Nat2Z.inj_succ, Z.pow_succ_r by lia. ring.
Qed.

Lemma odd_b2z q b : Z.odd (2 * q + Z.b2z b) = b.
Proof. rewrite Z.add_comm, Z.odd_add_mul_2. by destruct b. Qed.

Lemma half_b2z q b : (2 * q + Z.b2z b) / 2 = q.
Proof. symmetry. apply (Z.div_unique _ _ _ (Z.b2z b)); [destruct b; cbn; lia|done]. Qed.

Lemma to_bits_value l : to_bits (length l) (be_value l) = l.
Proof.
  induction l as [|b l IH] using rev_ind; [done|]. rewrite length_app, Nat.add_1_r. cbn [to_bits].
  by rewrite be_value_snoc, odd_b2z, half_b2z, IH.
Qed.

Lemma be_value_to_bits n v : be_value (to_bits n v) = v mod 2 ^ Z.of_nat n.
Proof.
  revert v. induction n as [|n IH]; intros v; [cbn; by rewrite Z.mod_1_r|]. cbn [to_bits]. rewrite be_value_snoc, IH.
  rewrite Nat2Z.inj_succ, Z.pow_succ_r by lia. rewrite Z.rem_mul_r by (try lia; apply Z.pow_nonzero; lia).
  rewrite (Zmod_odd v). destruct (Z.odd v); cbn; ring.
Qed.

Lemma to_bits_zero n : to_bits n 0 = replicate n false.
Proof. induction n as [|n IH]; [done|]. cbn [to_bits]. rewrite Z.div_0_l, IH by lia. by rewrite <- replicate_S_end. Qed.

(** Shifting to the left adds zeros. *)
Lemma to_bits_shift n m v : to_bits (n + m) (v * 2 ^ Z.of_nat m) = to_bits n v ++ replicate m false.
Proof.
  induction m as [|m IH]; [rewrite Nat.add_0_r, app_nil_r; f_equal; cbn; lia|].
  rewrite Nat.add_succ_r. cbn [to_bits]. rewrite Nat2Z.inj_succ, Z.pow_succ_r by lia.
  replace (v * (2 * 2 ^ Z.of_nat m)) with (2 * (v * 2 ^ Z.of_nat m) + Z.b2z false) by (cbn; ring).
  rewrite odd_b2z, half_b2z, IH, <- app_assoc. by rewrite <- replicate_S_end.
Qed.

(** ** Bytes as bits *)

Abbreviation be_bits := (bits big_endian).

Lemma big_range i : (i < 8)%nat -> 0 <= big_endian i < 8.
Proof. unfold big_endian. lia. Qed.

Lemma big_inj i j : (i < 8)%nat -> (j < 8)%nat -> big_endian i = big_endian j -> i = j.
Proof. unfold big_endian. lia. Qed.

Lemma byte_bits b : be_bits [b] = to_bits 8 b.
Proof.
  cbn [to_bits app]. rewrite !Z.div_div by lia. cbn [Z.mul Pos.mul].
  unfold bits, bit_at, big_endian. cbn. rewrite !Z.testbit_odd, !Z.shiftr_div_pow2 by lia. by rewrite Z.div_1_r.
Qed.

Lemma SetBytes_snoc l b : SetBytes (l ++ [b]) = 256 * SetBytes l + b.
Proof. rewrite RegisterFacts.foldl_snoc_bytes. lia. Qed.

Lemma be_bits_value l : Forall byte_ok l -> be_value (be_bits l) = SetBytes l.
Proof.
  induction l as [|b l IH] using rev_ind; [done|]. intros [Hl Hb%Forall_inv]%Forall_app.
  rewrite bits_app, be_value_app, IH, SetBytes_snoc, byte_bits, to_bits_length, be_value_to_bits by done.
  change (2 ^ Z.of_nat 8) with 256. rewrite Z.mod_small by apply Hb. ring.
Qed.

Lemma be_bits_SetBytes l : Forall byte_ok l -> be_bits l = to_bits (8 * length l) (SetBytes l).
Proof. intros H. rewrite <- be_bits_value by done. rewrite <- (bits_length big_endian). by rewrite to_bits_value. Qed.

Lemma le_bytes_ok fuel x : 0 <= x -> Forall byte_ok (Register.le_bytes fuel x) /\ forall n, x < 256 ^ Z.of_nat n -> (length (Register.le_bytes fuel x) <= n)%nat.
Proof.
  revert x. induction fuel as [|fuel IH]; intros x Hx; cbn [Register.le_bytes]; [split; [done|cbn; lia]|].
  destruct (Z.eqb_spec x 0) as [->|Hne]; [split; [done|cbn; lia]|]. destruct (IH (x / 256)) as [Hok Hlen]; [by apply Z.div_pos|].
  split; [constructor; [by apply Z.mod_pos_bound|done]|]. intros [|n] Hlt; [cbn in Hlt; lia|]. cbn [length]. apply le_n_S, Hlen.
  rewrite Nat2Z.inj_succ, Z.pow_succ_r in Hlt by lia. by apply Z.div_lt_upper_bound.
Qed.

(** The bytes of a number are as few as its bits allow. *)
Lemma Bytes_spec x n : 0 <= x < 2 ^ Z.of_nat (8 * n) -> Forall byte_ok (Bytes x) /\ (length (Bytes x) <= n)%nat /\ SetBytes (Bytes x) = x.
Proof.
  intros Hx. rewrite RegisterFacts.BigBytes_value, Z.abs_eq by lia. unfold Register.BigBytes.
  rewrite (Z.abs_eq x) by lia. set (fuel := S _). destruct (le_bytes_ok fuel x) as [Hok Hlen]; [lia|].
  split; [by apply Forall_reverse|]. split; [|done]. rewrite length_reverse. apply Hlen. change 256 with (2 ^ 8). rewrite <- Z.pow_mul_r by lia.
  replace (8 * Z.of_nat n) with (Z.of_nat (8 * n)) by lia. apply Hx.
Qed.

(** ** One value *)

Lemma slice_sub_zero {A} (l : list A) n : (n <= length l)%nat -> slice_sub l 0 n = Ok (take n l).
Proof. intros H. rewrite slice_sub_ok by lia. by rewrite drop_0. Qed.

Lemma DecodeUnsignedInt_spec w reader buffer (s := take w (drop (bitoffset reader) (be_bits (bytes reader)))) :
  (bitoffset reader + w <= 8 * length (bytes reader))%nat -> Forall byte_ok (bytes reader) -> Forall byte_ok buffer ->
  exists buffer', DecodeUnsignedInt w reader buffer = Ok ([be_value s], buffer', mkReader (bitoffset reader + w) (bytes reader)) /\ Forall byte_ok buffer'.
Proof.
  intros Hw Hok Hb. unfold DecodeUnsignedInt, BigEndianReadInto, expandBufferAsNeeded. cbv zeta. set (buf := if (BytesRequiredFor w <=? length buffer)%nat then buffer else replicate (BytesRequiredFor w) 0).
  assert (Hbuf : (BytesRequiredFor w <= length buf)%nat /\ Forall byte_ok buf).
  { subst buf. destruct (Nat.leb_spec (BytesRequiredFor w) (length buffer)); [done|]. split; [by rewrite length_replicate|]. apply Forall_replicate. by split. }
  destruct Hbuf as [Hlen Hbok]. destruct (ReadInto_spec _ big_range big_inj reader w buf Hw Hlen Hok Hbok) as (buf' & -> & Hl & Hok' & Hbits).
  cbn [mbind result_bind]. rewrite slice_sub_zero by lia. cbn [mbind result_bind]. exists buf'. split; [|done]. do 4 f_equal.
  rewrite <- be_bits_value by (by apply Forall_take). rewrite Hbits. fold s. unfold padded. rewrite be_value_app, length_replicate.
  assert (Hs : length s = w) by (subst s; rewrite length_take, length_drop, bits_length; lia). rewrite Hs. rewrite Z.shiftr_div_pow2 by lia.
  assert (Hz : be_value (replicate (8 * BytesRequiredFor w - w) false) = 0).
  { rewrite <- to_bits_zero, be_value_to_bits. apply Z.mod_0_l. apply Z.pow_nonzero; lia. }
  rewrite Hz, Z.add_0_r. replace (BytesRequiredFor w * 8 - w)%nat with (8 * BytesRequiredFor w - w)%nat by lia.
  apply Z.div_mul. apply Z.pow_nonzero; lia.
Qed.

Lemma Forall_byte_zero n : Forall byte_ok (replicate n 0).
Proof. apply Forall_replicate. by split. Qed.

(** The first bits of the buffer are those of the value. *)
Lemma EncodeUnsignedInt_spec w v buf : 0 <= v < 2 ^ Z.of_nat w -> (BytesRequiredFor w <= length buf)%nat ->
  exists buf', EncodeUnsignedInt w v buf = Ok buf' /\ length buf' = length buf /\ Forall byte_ok buf' /\ take w (be_bits buf') = to_bits w v.
Proof.
  intros Hv Hbuf. unfold EncodeUnsignedInt. pose proof (BytesRequiredFor_bounds w) as Hw. set (n := BytesRequiredFor w) in *. set (m := (n * 8 - w)%nat).
  assert (Hx : 0 <= Z.shiftl v (Z.of_nat m) < 2 ^ Z.of_nat (8 * n)).
  { rewrite Z.shiftl_mul_pow2 by lia. replace (8 * n)%nat with (w + m)%nat by lia. rewrite Nat2Z.inj_add, Z.pow_add_r by lia.
    assert (0 < 2 ^ Z.of_nat m) by (apply Z.pow_pos_nonneg; lia). nia. }
  destruct (Bytes_spec _ n Hx) as (Hok & Hlen & Hval). set (bs := Bytes _) in *. set (z := replicate (length buf) 0).
  assert (Hz : length z = length buf) by (subst z; apply length_replicate).
  assert (Hres : exists buf', (if (0 <? length bs)%nat then if (n <? length bs)%nat then Fault slice_panic else copy_from z (n - length bs) bs else Ok z) = Ok buf'
    /\ buf' = overwrite z (n - length bs) bs).
  { destruct (Nat.ltb_spec 0 (length bs)) as [Hp|Hp].
    - destruct (Nat.ltb_spec n (length bs)); [lia|]. unfold copy_from. destruct (Nat.ltb_spec (length z) (n - length bs)); [lia|]. eexists. split; [done|].
      by rewrite take_ge by lia.
    - exists z. split; [done|]. assert (bs = []) as -> by (by apply length_zero_iff_nil; lia). unfold overwrite. cbn. by rewrite Nat.add_0_r, take_drop. }
  destruct Hres as (buf' & -> & ->). eexists. split; [done|]. split; [rewrite overwrite_length; lia|].
  assert (Hbok : Forall byte_ok (overwrite z (n - length bs) bs)) by (apply Forall_overwrite; [apply Forall_byte_zero|done]). split; [done|].
  assert (Htake : take n (overwrite z (n - length bs) bs) = replicate (n - length bs) 0 ++ bs).
  { unfold overwrite. rewrite app_assoc. rewrite take_app_length' by (rewrite length_app, length_take; lia). f_equal. subst z. rewrite take_replicate. f_equal. lia. }
  assert (HS : SetBytes (replicate (n - length bs) 0 ++ bs) = Z.shiftl v (Z.of_nat m)).
  { rewrite <- Hval. unfold SetBytes. rewrite foldl_app. f_equal. generalize (n - length bs)%nat. intros k. by induction k. }
  assert (Hn : take (8 * n) (be_bits (overwrite z (n - length bs) bs)) = to_bits (w + m) (v * 2 ^ Z.of_nat m)).
  { rewrite <- bits_take, Htake, be_bits_SetBytes, HS, Z.shiftl_mul_pow2 by (try lia; by apply Forall_app; split; [apply Forall_byte_zero|]).
    f_equal. rewrite length_app, length_replicate. lia. }
  rewrite to_bits_shift in Hn. apply (f_equal (take w)) in Hn. rewrite take_take in Hn. rewrite Nat.min_l in Hn by lia. rewrite Hn.
  apply take_app_length'. by rewrite to_bits_length.
Qed.

(** ** Arrays *)

(** The values of the widths [ws], one after the other *)
Fixpoint fields (ws : list nat) (s : list bool) : list Z :=
  match ws with [] => [] | w :: ws => be_value (take w s) :: fields ws (drop w s) end.

(** The first [k] pieces of [w] bits *)
Fixpoint chunks (k w : nat) (s : list bool) : list (list bool) :=
  match k with O => [] | S k => take w s :: chunks k w (drop w s) end.

Fixpoint nat_sum (ws : list nat) : nat := match ws with [] => 0%nat | w :: ws => (w + nat_sum ws)%nat end.

Lemma fields_app ws a b : (nat_sum ws <= length a)%nat -> fields ws (a ++ b) = fields ws a.
Proof.
  revert a. induction ws as [|w ws IH]; intros a H; [done|]. cbn in *. rewrite take_app_le, drop_app_le by lia. rewrite IH by (rewrite length_drop; lia). done.
Qed.

Lemma fields_take ws s n : (nat_sum ws <= n)%nat -> (nat_sum ws <= length s)%nat -> fields ws (take n s) = fields ws s.
Proof. intros Hn Hs. rewrite <- (take_drop n s) at 2. symmetry. apply fields_app. rewrite length_take. lia. Qed.

Lemma fields_nonneg ws s : Forall (fun v => 0 <= v) (fields ws s).
Proof. revert s. induction ws as [|w ws IH]; intros s; cbn; constructor; [apply be_value_bound|apply IH]. Qed.

Lemma fields_length ws s : length (fields ws s) = length ws.
Proof. revert s. induction ws as [|w ws IH]; intros s; cbn; [done|by rewrite IH]. Qed.

Lemma fields_zero ws n : (nat_sum ws <= n)%nat -> fields ws (replicate n false) = replicate (length ws) 0.
Proof.
  revert n. induction ws as [|w ws IH]; intros n H; [done|]. cbn in *. rewrite take_replicate, drop_replicate, IH by lia. f_equal.
  rewrite <- to_bits_zero, be_value_to_bits. apply Z.mod_0_l, Z.pow_nonzero; lia.
Qed.

(** Registers of known widths *)
Definition widths_ok (registers : list Register.t) (ws : list nat) : Prop :=
  Forall2 (fun r w => Register.IsNative r = false /\ Register.width r = Z.of_nat w) registers ws.

Lemma width_ok_Width r w : Register.IsNative r = false -> Register.width r = Z.of_nat w -> Register.Width r = Ok (Z.of_nat w).
Proof. intros Hn Hw. unfold Register.Width. by rewrite Hn, Hw. Qed.

Lemma bitwidthOf_spec registers ws : widths_ok registers ws -> Z.of_nat (nat_sum ws) < 2 ^ 64 -> bitwidthOf registers = Ok (Z.of_nat (nat_sum ws)).
Proof.
  unfold bitwidthOf. intros H. assert (Hg : forall acc, 0 <= acc -> acc + Z.of_nat (nat_sum ws) < 2 ^ 64 -> bitwidth_from registers acc = Ok (acc + Z.of_nat (nat_sum ws))).
  { induction H as [|r w registers ws [Hn Hw] _ IH]; intros acc Ha Hs; cbn [bitwidth_from nat_sum] in *; [f_equal; cbn; lia|].
    rewrite Hn, (width_ok_Width r w Hn Hw). cbn [mbind result_bind]. rewrite u64_small, IH by lia. f_equal. lia. }
  intros Hs. by rewrite Hg by lia.
Qed.

Lemma decode_registers_spec registers ws : widths_ok registers ws -> forall reader buffer,
  (bitoffset reader + nat_sum ws <= 8 * length (bytes reader))%nat -> Forall byte_ok (bytes reader) -> Forall byte_ok buffer ->
  exists buffer', decode_registers registers reader buffer = Ok (fields ws (drop (bitoffset reader) (be_bits (bytes reader))), buffer') /\ Forall byte_ok buffer'.
Proof.
  induction 1 as [|r w registers ws [Hn Hw] _ IH]; intros reader buffer Hr Hok Hb; cbn [decode_registers fields nat_sum] in *; [by exists buffer|].
  rewrite (width_ok_Width r w Hn Hw). cbn [mbind result_bind]. rewrite Nat2Z.id.
  destruct (DecodeUnsignedInt_spec w reader buffer) as (b1 & -> & Hb1); [lia|done|done|]. cbn [mbind result_bind].
  destruct (IH (mkReader (bitoffset reader + w) (bytes reader)) b1) as (b2 & -> & Hb2); [cbn; lia|done|done|].
  cbn [mbind result_bind bitoffset bytes]. exists b2. split; [|done]. by rewrite drop_drop.
Qed.

Lemma decode_rounds_spec registers ws (Hws : widths_ok registers ws) (w := nat_sum ws) (Hpos : (0 < w)%nat) k : forall fuel nelems index reader buffer st,
  (bitoffset reader <= 8 * length (bytes reader))%nat -> k = ((8 * length (bytes reader) - bitoffset reader) / w)%nat -> (k < fuel)%nat -> (index + k <= nelems)%nat ->
  length buffer = BytesRequiredFor w -> Forall byte_ok buffer -> Forall byte_ok (bytes reader) -> Forall byte_ok st ->
  exists st', decode_loop w (decode_element registers) fuel nelems index reader buffer st
    = Ok (fields ws <$> chunks k w (drop (bitoffset reader) (be_bits (bytes reader))), ((8 * length (bytes reader) - bitoffset reader) mod w)%nat, st').
Proof.
  induction k as [|k IH]; intros fuel nelems index reader buffer st Hr Hk Hf Hi Hl Hb Hok Hst; (destruct fuel as [|fuel]; [lia|]); cbn [decode_loop];
    unfold Remaining; rewrite (Nat.mul_comm _ 8).
  - symmetry in Hk. apply Nat.div_small_iff in Hk; [|lia]. destruct (Nat.ltb_spec (8 * length (bytes reader) - bitoffset reader) w); [|lia].
    exists st. cbn [chunks fmap list_fmap]. do 3 f_equal. by rewrite Nat.mod_small.
  - set (l := (8 * length (bytes reader) - bitoffset reader)%nat) in *. assert (Hl2 : l = (w + (l - w))%nat).
    { pose proof (Nat.Div0.mul_div_le l w). rewrite <- Hk in *. nia. }
    destruct (Nat.ltb_spec l w); [lia|]. unfold BigEndianReadInto.
    destruct (ReadInto_spec _ big_range big_inj reader w buffer) as (buf' & -> & Hl' & Hok' & Hbits); [lia|lia|done|done|]. cbn [mbind result_bind].
    set (s := take w (drop (bitoffset reader) (be_bits (bytes reader)))) in *.
    assert (Hs : length s = w) by (subst s; rewrite length_take, length_drop, bits_length; lia).
    rewrite take_ge in Hbits by lia. change (decode_element registers st buf') with (decode_registers registers (NewReader buf') st).
    destruct (decode_registers_spec registers ws Hws (NewReader buf') st) as (st' & -> & Hst'); [cbn; pose proof (BytesRequiredFor_bounds w); fold w; lia|done|done|].
    cbn [mbind result_bind bitoffset bytes NewReader]. rewrite drop_0, Hbits. unfold padded. rewrite fields_app by (rewrite Hs; done).
    destruct (Nat.ltb_spec index nelems); [|lia].
    destruct (IH fuel nelems (S index) (mkReader (bitoffset reader + w) (bytes reader)) buf' st') as (st'' & ->); try done; cbn [bitoffset bytes]; try lia.
    { replace (8 * length (bytes reader) - (bitoffset reader + w))%nat with (l - w)%nat by lia. rewrite Hl2 in Hk.
      rewrite (Nat.add_comm w), <- (Nat.mul_1_l w) in Hk at 1. rewrite Nat.mul_1_l in Hk at 1. replace (l - w + w)%nat with (l - w + 1 * w)%nat in Hk by lia.
      rewrite Nat.div_add in Hk by lia. lia. }
    cbn [mbind result_bind]. exists st''. cbn [chunks fmap list_fmap]. fold s. rewrite drop_drop. do 3 f_equal.
    replace (8 * length (bytes reader) - (bitoffset reader + w))%nat with (l - w)%nat by lia. rewrite Hl2 at 2.
    replace (w + (l - w))%nat with (l - w + 1 * w)%nat by lia. by rewrite Nat.Div0.mod_add.
Qed.

(** ** Encoding *)

(** The array holds the bits [done], and zeros after them. *)
Record filled_to (out : list byte) (n : nat) (written : list bool) : Prop := {
  filled_ok : Forall byte_ok out;
  filled_length : length out = n;
  filled_bits : be_bits out = written ++ replicate (8 * n - length written) false
}.

Lemma encode_value w v buf out n written : 0 <= v < 2 ^ Z.of_nat w -> (BytesRequiredFor w <= length buf)%nat -> filled_to out n written ->
  (length written + w <= 8 * n)%nat ->
  exists buf' out', EncodeUnsignedInt w v buf = Ok buf' /\ length buf' = length buf /\
    BigEndianCopy buf' 0 out (length written) w = Ok out' /\ filled_to out' n (written ++ to_bits w v).
Proof.
  intros Hv Hbuf [Hok Hlen Hbits] Hn. destruct (EncodeUnsignedInt_spec w v buf Hv Hbuf) as (buf' & -> & Hl & Hbok & Htake).
  pose proof (BytesRequiredFor_bounds w).
  destruct (Copy_spec _ big_range big_inj buf' 0 out (length written) w) as (out' & Hcopy & Hl' & Hok' & Hb'); [lia|lia|done|done|].
  exists buf', out'. split; [done|]. split; [done|]. split; [exact Hcopy|]. split; [done|congruence|]. rewrite Hb', drop_0, Htake, Hbits. unfold overwrite.
  rewrite take_app_length, <- app_assoc. do 2 f_equal. rewrite drop_app, drop_ge by lia. cbn [app]. rewrite drop_replicate. f_equal.
  rewrite to_bits_length, length_app, to_bits_length. lia.
Qed.

Section Words.
Context {W : Type} `{!Word W, !WordLaws W}.

(** The bits of one round *)
Fixpoint round_bits (ws : list nat) (vs : list Z) : list bool :=
  match ws, vs with w :: ws, v :: vs => to_bits w v ++ round_bits ws vs | _, _ => [] end.

Definition round_fits (ws : list nat) (vs : list W) : Prop := Forall2 (fun w v => 0 <= w_BigInt v < 2 ^ Z.of_nat w) ws vs.

Lemma round_bits_length ws vs : length ws = length vs -> length (round_bits ws vs) = nat_sum ws.
Proof. revert vs. induction ws as [|w ws IH]; intros [|v vs] H; try done. cbn. rewrite length_app, to_bits_length, IH by (cbn in H; lia). done. Qed.

Lemma fields_round ws vs : round_fits ws vs -> fields ws (round_bits ws (w_BigInt <$> vs)) = w_BigInt <$> vs.
Proof.
  induction 1 as [|w v ws vs Hv _ IH]; [done|]. cbn. rewrite take_app_length', drop_app_length' by (by rewrite to_bits_length). rewrite IH. f_equal.
  rewrite be_value_to_bits. by apply Z.mod_small.
Qed.

Lemma round_fields ws s : length s = nat_sum ws -> round_bits ws (fields ws s) = s.
Proof.
  revert s. induction ws as [|w ws IH]; intros s H; cbn in *; [by apply length_zero_iff_nil in H|]. rewrite IH by (rewrite length_drop; lia).
  assert (Ht : to_bits w (be_value (take w s)) = take w s).
  { assert (length (take w s) = w) as Hl by (rewrite length_take; lia). rewrite <- Hl at 1. apply to_bits_value. }
  by rewrite Ht, take_drop.
Qed.

Lemma fields_fit ws s (vs : list W) : length s = nat_sum ws -> w_BigInt <$> vs = fields ws s -> round_fits ws vs.
Proof.
  revert s vs. induction ws as [|w ws IH]; intros s vs Hs Hv; cbn in *; [apply fmap_nil_inv in Hv as ->; constructor|].
  destruct vs as [|v vs]; [done|]. injection Hv as Hv Hvs. constructor; [|by eapply IH; [|exact Hvs]; rewrite length_drop; lia].
  rewrite Hv. pose proof (be_value_bound (take w s)) as Hb. rewrite length_take, Nat.min_l in Hb by lia. done.
Qed.

Lemma encode_round registers ws vs more : Forall2 (fun r w => Register.IsNative r = false /\ Register.width r = Z.of_nat w) registers ws -> round_fits ws vs ->
  forall all buf out n written, Forall (fun w => BytesRequiredFor w <= length buf)%nat ws -> filled_to out n written -> (length written + nat_sum ws <= 8 * n)%nat ->
  exists buf' out', length buf' = length buf /\ filled_to out' n (written ++ round_bits ws (w_BigInt <$> vs)) /\
    encode_loop all (vs ++ more) registers buf out (length written)
    = match registers with [] => encode_loop all more [] buf' out' (length written)
      | _ => encode_loop all more [] buf' out' (length written + nat_sum ws) end.
Proof.
  intros Hr. revert vs. induction Hr as [|r w registers ws [Hn Hw] Hr IH]; intros vs Hf all buf out n written Hb Ho Hlen.
  - inversion Hf; subst. exists buf, out. cbn. by rewrite app_nil_r.
  - inversion Hf as [|? v ? vs' Hv Hvs]; subst. apply Forall_cons in Hb as [Hb1 Hb2]. cbn [nat_sum] in Hlen.
    destruct (encode_value w (w_BigInt v) buf out n written Hv Hb1 Ho ltac:(lia)) as (b1 & o1 & He & Hl1 & Hc & Hf1).
    cbn [app encode_loop fmap list_fmap round_bits nat_sum]. rewrite (width_ok_Width r w Hn Hw). cbn [mbind result_bind]. rewrite Nat2Z.id, He. cbn [mbind result_bind].
    rewrite Hc. cbn [mbind result_bind].
    destruct (IH vs' Hvs all b1 o1 n (written ++ to_bits w (w_BigInt v))) as (b2 & o2 & Hl2 & Hf2 & Heq).
    { eapply Forall_impl; [exact Hb2|]. cbn. intros. lia. }
    { done. }
    { rewrite length_app, to_bits_length. lia. }
    exists b2, o2. split; [lia|]. rewrite <- app_assoc in Hf2. split; [done|]. rewrite length_app, to_bits_length in Heq. rewrite Heq.
    destruct registers; [|f_equal; lia]. inversion Hr; subst. cbn. f_equal. lia.
Qed.

Lemma encode_rounds registers ws rounds : registers <> [] -> widths_ok registers ws -> Forall (round_fits ws) rounds ->
  forall buf out n written, Forall (fun w => BytesRequiredFor w <= length buf)%nat ws -> filled_to out n written ->
  (length written + length rounds * nat_sum ws <= 8 * n)%nat ->
  exists out', filled_to out' n (written ++ mjoin ((fun vs => round_bits ws (w_BigInt <$> vs)) <$> rounds)) /\
    encode_loop registers (mjoin rounds) [] buf out (length written) = Ok out'.
Proof.
  intros Hne Hr Hf. induction Hf as [|vs rounds Hvs Hf IH]; intros buf out n written Hb Ho Hlen; cbn [mjoin list_join fmap list_fmap].
  - exists out. by rewrite app_nil_r.
  - cbn [length] in Hlen. assert (Hlv : length ws = length vs) by (by eapply Forall2_length).
    destruct (encode_round registers ws vs (mjoin rounds) Hr Hvs registers buf out n written Hb Ho ltac:(lia)) as (b1 & o1 & Hl1 & Hf1 & Heq).
    destruct (IH b1 o1 n (written ++ round_bits ws (w_BigInt <$> vs))) as (o2 & Hf2 & Heq2).
    { by rewrite Hl1. }
    { done. }
    { rewrite length_app, round_bits_length by (by rewrite length_fmap). lia. }
    exists o2. rewrite <- app_assoc in Hf2. split; [exact Hf2|]. rewrite length_app, round_bits_length in Heq2 by (by rewrite length_fmap).
    rewrite <- Heq2. destruct registers as [|r registers]; [done|].
    assert (Hstart : forall vs', encode_loop (r :: registers) vs' [] buf out (length written) = encode_loop (r :: registers) vs' (r :: registers) buf out (length written)) by (by intros [|]).
    rewrite Hstart. exact Heq.
Qed.

(** Encoding full rounds of values that fit *)
Lemma EncodeBytes_spec registers ws rounds : registers <> [] -> widths_ok registers ws -> Forall (round_fits ws) rounds ->
  Z.of_nat (length rounds * nat_sum ws) + 7 < 2 ^ 64 -> Z.of_nat (nat_sum ws) < 2 ^ 64 ->
  exists out, EncodeBytes (mjoin rounds) registers = Ok out /\
    filled_to out (BytesRequiredFor (length rounds * nat_sum ws)) (mjoin ((fun vs => round_bits ws (w_BigInt <$> vs)) <$> rounds)).
Proof.
  intros Hne Hr Hf Hsize Hs. unfold EncodeBytes. cbv zeta. rewrite (bitwidthOf_spec _ _ Hr Hs). cbn [mbind result_bind].
  assert (Hlr : length registers = length ws) by (by eapply Forall2_length). assert (Hpos : (0 < length registers)%nat) by (destruct registers; [done|cbn; lia]).
  assert (Hlen : length (mjoin rounds) = (length rounds * length registers)%nat).
  { rewrite Hlr. clear -Hf. induction Hf as [|vs rounds Hvs _ IH]; [done|]. change (mjoin (vs :: rounds)) with (vs ++ mjoin rounds). rewrite length_app, IH. apply Forall2_length in Hvs. cbn [length]. lia. }
  destruct (Nat.eqb_spec (length registers) 0); [lia|]. rewrite Hlen, Nat.div_mul, Nat.sub_diag by lia. cbn [partial_bits mbind result_bind].
  rewrite Nat2Z.id. set (total := (length rounds * nat_sum ws)%nat) in *. replace (Z.of_nat (length rounds) * Z.of_nat (nat_sum ws)) with (Z.of_nat total) by lia.
  rewrite !u64_small by (rewrite ?u64_small; lia).
  assert (Hbytes : Z.to_nat ((Z.of_nat total + 7) / 8) = BytesRequiredFor total).
  { unfold BytesRequiredFor. pose proof (Nat.div_mod_eq total 8). pose proof (Nat.mod_upper_bound total 8 ltac:(lia)).
    set (q := (total / 8)%nat) in *. set (t := (total mod 8)%nat) in *. clearbody q t. destruct (Nat.eqb_spec t 0).
    - assert ((Z.of_nat total + 7) / 8 = Z.of_nat q) as ->; [|lia]. symmetry. apply (Z.div_unique _ _ _ 7); lia.
    - assert ((Z.of_nat total + 7) / 8 = Z.of_nat q + 1) as ->; [|lia]. symmetry. apply (Z.div_unique _ _ _ (Z.of_nat t - 1)); lia. }
  rewrite Hbytes. set (buf := replicate (BytesRequiredFor (nat_sum ws)) 0).
  destruct (encode_rounds registers ws rounds Hne Hr Hf buf (replicate (BytesRequiredFor total) 0) (BytesRequiredFor total) []) as (out & Ho & He).
  - subst buf. rewrite length_replicate. clear. assert (Hg : forall w, (w <= nat_sum ws)%nat -> (BytesRequiredFor w <= BytesRequiredFor (nat_sum ws))%nat).
    { intros w Hw. pose proof (BytesRequiredFor_bounds w). pose proof (BytesRequiredFor_bounds (nat_sum ws)). lia. }
    apply Forall_forall. intros w Hw. apply Hg. clear Hg. induction Hw; cbn; lia.
  - split; [apply Forall_byte_zero|apply length_replicate|]. cbn. rewrite Nat.sub_0_r. apply bits_zero.
  - cbn [length]. pose proof (BytesRequiredFor_bounds total). subst total. lia.
  - exists out. split; [|exact Ho]. cbn [length] in He. rewrite <- He. destruct registers as [|r registers]; [done|]. by destruct (mjoin rounds).
Qed.

End Words.

(** What decoding relies on: the conversion from natural numbers *)
Class SetBigIntLaw (W : Type) `{!Word W, !WordLaws W} : Prop :=
  SetBigInt_law : forall v, 0 <= v -> exists w, w_SetBigInt v = Ok w /\ word_ok w /\ w_BigInt w = v.

#[export] Instance Uint_SetBigInt : SetBigIntLaw Uint.t.
Proof.
  intros v Hv. exists (w_SetUint64 v). split; [|by apply SetUint64_law]. change (Uint.SetBigInt v = Ok v). unfold Uint.SetBigInt.
  destruct (Z.ltb_spec (Z.sgn v) 0); [lia|done].
Qed.

Section Decoding.
Context {W : Type} `{!Word W, !WordLaws W, !SetBigIntLaw W}.

Lemma mapM_SetBigInt l : Forall (fun v => 0 <= v) l -> exists ws : list W, mapM w_SetBigInt l = Ok ws /\ Forall word_ok ws /\ w_BigInt <$> ws = l.
Proof.
  induction 1 as [|v l Hv _ (ws & IH & Hok & Hl)]; [by exists []|]. destruct (SetBigInt_law (W := W) v Hv) as (w & Hw & Hwok & Hval).
  exists (w :: ws). cbn [mapM]. rewrite Hw. cbn [mbind result_bind]. rewrite IH. cbn [mbind result_bind]. split; [done|]. split; [by constructor|].
  cbn. by rewrite Hval, Hl.
Qed.

Lemma Forall_mjoin {A} (P : A -> Prop) ls : Forall (Forall P) ls -> Forall P (mjoin ls).
Proof. induction 1; [constructor|]. apply Forall_app. by split. Qed.

Lemma DecodeBytes_spec registers ws bytes : widths_ok registers ws -> (0 < nat_sum ws)%nat -> Z.of_nat (nat_sum ws) < 2 ^ 64 -> Forall byte_ok bytes ->
  exists vs : list W, DecodeBytes bytes registers = Ok vs /\ Forall word_ok vs /\
    w_BigInt <$> vs = mjoin (fields ws <$> chunks (8 * length bytes / nat_sum ws) (nat_sum ws) (be_bits bytes)).
Proof.
  intros Hr Hpos Hs Hok. unfold DecodeBytes. rewrite (bitwidthOf_spec _ _ Hr Hs). cbn [mbind result_bind]. rewrite Nat2Z.id. unfold DecodeArray.
  destruct (Nat.eqb_spec (nat_sum ws) 0); [lia|]. rewrite (Nat.mul_comm (length bytes)).
  destruct (decode_rounds_spec registers ws Hr Hpos (8 * length bytes / nat_sum ws) (S (8 * length bytes)) (8 * length bytes / nat_sum ws) 0 (NewReader bytes)
    (NewBuffer (nat_sum ws)) []) as (st & ->); cbn [bitoffset Bits.bytes NewReader]; try done; try lia.
  - by rewrite Nat.sub_0_r.
  - pose proof (Nat.Div0.div_le_mono (8 * length bytes) (8 * length bytes * nat_sum ws) (nat_sum ws) ltac:(nia)) as Hd. rewrite Nat.div_mul in Hd by lia. lia.
  - unfold NewBuffer. by rewrite length_replicate.
  - apply Forall_byte_zero.
  - cbn [mbind result_bind]. rewrite drop_0. apply mapM_SetBigInt, Forall_mjoin, Forall_fmap, Forall_true. intros s. apply fields_nonneg.
Qed.

Lemma chunks_rounds k w s pad : Forall (fun l => length l = w) s -> (0 < w)%nat -> k = (pad / w)%nat ->
  chunks (length s + k) w (mjoin s ++ replicate pad false) = s ++ replicate k (replicate w false).
Proof.
  intros Hs Hw ->. induction Hs as [|l s Hl _ IH]; cbn [length Nat.add chunks].
  - change (mjoin [] ++ replicate pad false) with (replicate pad false). remember (pad / w)%nat as k eqn:Hk. revert pad Hk.
    induction k as [|k IH]; intros pad Hk; [done|]. cbn [chunks replicate app]. assert (Hp : (w <= pad)%nat).
    { destruct (decide (w <= pad)%nat); [done|]. rewrite Nat.div_small in Hk by lia. done. }
    rewrite take_replicate, drop_replicate, Nat.min_l by done. f_equal. apply (IH (pad - w)%nat).
    replace pad with (pad - w + 1 * w)%nat in Hk by lia. rewrite Nat.div_add in Hk by lia. lia.
  - change (mjoin (l :: s)) with (l ++ mjoin s). rewrite <- app_assoc, take_app_length', drop_app_length' by done. rewrite IH. done.
Qed.

Lemma chunks_join k w s : length s = (k * w)%nat -> mjoin (chunks k w s) = s /\ Forall (fun l => length l = w) (chunks k w s).
Proof.
  revert s. induction k as [|k IH]; intros s Hs; [by apply length_zero_iff_nil in Hs as ->; split|]. cbn [chunks].
  destruct (IH (drop w s)) as [H1 H2]; [rewrite length_drop; lia|]. split; [change (mjoin (?a :: ?b)) with (a ++ mjoin b); by rewrite H1, take_drop|].
  constructor; [rewrite length_take; lia|done].
Qed.

Lemma chunks_length k w s : length (chunks k w s) = k.
Proof. revert s. induction k as [|k IH]; intros s; [done|]. cbn. by rewrite IH. Qed.

Lemma bits_inj a b : Forall byte_ok a -> Forall byte_ok b -> be_bits a = be_bits b -> a = b.
Proof.
  intros Ha. revert b. induction Ha as [|x a Hx Ha IH]; intros b Hb H.
  - apply (f_equal length) in H. rewrite !bits_length in H. cbn in H. symmetry. apply length_zero_iff_nil. lia.
  - destruct Hb as [|y b Hy Hb]; [apply (f_equal length) in H; rewrite !bits_length in H; cbn in H; lia|].
    change (x :: a) with ([x] ++ a) in H. change (y :: b) with ([y] ++ b) in H. rewrite !bits_app, !byte_bits in H.
    apply app_inj_1 in H as [H1 H2]; [|by rewrite !to_bits_length]. f_equal; [|by apply IH].
    apply (f_equal be_value) in H1. rewrite !be_value_to_bits in H1. change (2 ^ Z.of_nat 8) with 256 in H1. by rewrite !Z.mod_small in H1 by done.
Qed.

End Decoding.

Lemma fmap_mjoin_inv {A B} (f : A -> B) ls : forall l, f <$> l = mjoin ls -> exists ms, l = mjoin ms /\ Forall2 (fun m l => f <$> m = l) ms ls.
Proof.
  induction ls as [|l0 ls IH]; intros l H; [apply fmap_nil_inv in H as ->; by exists []|]. change (mjoin (l0 :: ls)) with (l0 ++ mjoin ls) in H.
  apply fmap_app_inv in H as (l1 & l2 & H1 & H2 & ->). destruct (IH l2 (eq_sym H2)) as (ms & -> & Hms). exists (l1 :: ms). split; [done|]. by constructor.
Qed.

Module CodecProperties.

Section Properties.
Context {W : Type} `{!Word W, !WordLaws W, !SetBigIntLaw W}.

(** C21: Decoding the bytes that full rounds of values are encoded to gives back the
    values, followed by rounds of zeros when a round fits in the bits that pad the
    last byte. *)
Theorem decode_encode (registers : list Register.t) (ws : list nat) (rounds : list (list W)) (w := nat_sum ws) (total := (length rounds * w)%nat) :
  widths_ok registers ws -> (0 < w)%nat -> Z.of_nat w < 2 ^ 64 -> Z.of_nat total + 7 < 2 ^ 64 ->
  Forall (round_fits ws) rounds -> Forall (Forall word_ok) rounds ->
  exists out, EncodeBytes (mjoin rounds) registers = Ok out /\ length out = BytesRequiredFor total /\
    DecodeBytes out registers = Ok (mjoin rounds ++ replicate ((8 * BytesRequiredFor total - total) / w * length registers) w_zero).
Proof.
  intros Hr Hpos Hw Hsize Hf Hok. assert (Hne : registers <> []) by (intros ->; inversion Hr; subst; cbn in *; lia).
  destruct (EncodeBytes_spec registers ws rounds Hne Hr Hf ltac:(done) ltac:(done)) as (out & He & [Hbok Hlen Hbits]). fold w in Hlen, Hbits. fold total in Hlen, Hbits.
  exists out. split; [done|]. split; [done|]. destruct (DecodeBytes_spec (W := W) registers ws out Hr Hpos Hw Hbok) as (vs & -> & Hvok & Hvs). fold w in Hvs.
  set (s := (fun r => round_bits ws (w_BigInt <$> r)) <$> rounds) in *. set (pad := (8 * BytesRequiredFor total - total)%nat).
  assert (Hs : Forall (fun l => length l = w) s).
  { subst s. apply Forall_fmap. eapply Forall_impl; [exact Hf|]. intros r Hrf. cbn. apply round_bits_length. rewrite length_fmap. by eapply Forall2_length. }
  assert (Hls : length (mjoin s) = total).
  { subst total. replace (length rounds) with (length s) by (subst s; apply length_fmap). clear -Hs. induction Hs as [|l s Hl _ IH]; [done|].
    change (mjoin (l :: s)) with (l ++ mjoin s). rewrite length_app, IH, Hl. done. }
  rewrite Hls in Hbits. fold pad in Hbits. rewrite Hlen in Hvs.
  assert (Hk : (8 * BytesRequiredFor total / w = length s + pad / w)%nat).
  { pose proof (BytesRequiredFor_bounds total). replace (8 * BytesRequiredFor total)%nat with (length s * w + pad)%nat.
    - rewrite Nat.add_comm, Nat.div_add by lia. lia.
    - subst s pad total. rewrite length_fmap. lia. }
  rewrite Hk, Hbits, (chunks_rounds (pad / w) w s pad Hs Hpos eq_refl) in Hvs. rewrite fmap_app, fmap_replicate in Hvs.
  rewrite fields_zero in Hvs by (subst w; lia). f_equal.
  assert (Hlr : length registers = length ws) by (by eapply Forall2_length).
  assert (Htarget : w_BigInt <$> (mjoin rounds ++ replicate (pad / w * length registers) w_zero) = w_BigInt <$> vs).
  { rewrite Hvs, fmap_app, fmap_replicate, (proj2 zero_law). rewrite Hlr. change (mjoin (?a ++ ?b)) with (mjoin (a ++ b)). rewrite join_app. f_equal.
    - subst s. clear -Hf WordLaws0. induction Hf as [|r rounds Hr _ IH]; [done|]. change (mjoin (r :: rounds)) with (r ++ mjoin rounds). rewrite fmap_app, IH.
      rewrite !fmap_cons. change (mjoin (?a :: ?b)) with (a ++ mjoin b). by rewrite (fields_round ws r Hr).
    - generalize (pad / w)%nat. intros k. induction k as [|k IH]; [done|]. cbn [replicate]. change (mjoin (?a :: ?b)) with (a ++ mjoin b). rewrite <- IH.
      rewrite Nat.mul_succ_l, Nat.add_comm. apply replicate_add. }
  symmetry. revert Htarget. assert (Hwok : Forall word_ok (mjoin rounds ++ replicate (pad / w * length registers) w_zero)).
  { apply Forall_app. split; [by apply Forall_mjoin|]. apply Forall_replicate, (proj1 zero_law). }
  generalize dependent (mjoin rounds ++ replicate (pad / w * length registers) w_zero). clear -Hvok. revert vs Hvok.
  induction vs as [|v vs IH]; intros Hv l Hl He; destruct l as [|x l]; try done. injection He as He1 He2.
  apply Forall_cons in Hv as [Hv1 Hv2]. apply Forall_cons in Hl as [Hl1 Hl2]. f_equal; [by apply inj_law|by apply IH].
Qed.

(** Encoding what bytes decode to gives back the bytes, when they are full rounds. *)
Theorem encode_decode (registers : list Register.t) (ws : list nat) (bytes : list byte) (k : nat) (w := nat_sum ws) :
  widths_ok registers ws -> (0 < w)%nat -> Z.of_nat w < 2 ^ 64 -> Z.of_nat (8 * length bytes) + 7 < 2 ^ 64 -> Forall byte_ok bytes ->
  (8 * length bytes = k * w)%nat -> exists vs : list W, DecodeBytes bytes registers = Ok vs /\ EncodeBytes vs registers = Ok bytes.
Proof.
  intros Hr Hpos Hw Hsize Hok Hk. assert (Hne : registers <> []) by (intros ->; inversion Hr; subst; cbn in *; lia).
  destruct (DecodeBytes_spec (W := W) registers ws bytes Hr Hpos Hw Hok) as (vs & Hd & _ & Hvs). fold w in Hvs. exists vs. split; [done|].
  rewrite Hk, Nat.div_mul in Hvs by lia. destruct (chunks_join k w (be_bits bytes)) as [Hj Hcl]; [by rewrite bits_length|].
  destruct (fmap_mjoin_inv _ _ _ Hvs) as (rounds & -> & Hrs). apply Forall2_fmap_r in Hrs.
  assert (Hlen : length rounds = k) by (apply Forall2_length in Hrs; by rewrite chunks_length in Hrs).
  assert (Hfit : Forall (round_fits ws) rounds).
  { apply Forall_forall. intros r Hin. apply list_elem_of_lookup in Hin as [i Hi]. destruct (Forall2_lookup_l _ _ _ _ _ Hrs Hi) as (c & Hc & Hf).
    eapply fields_fit; [|exact Hf]. eapply Forall_lookup_1 in Hcl; [|exact Hc]. exact Hcl. }
  destruct (EncodeBytes_spec registers ws rounds Hne Hr Hfit ltac:(rewrite Hlen; fold w; rewrite <- Hk; done) ltac:(done)) as (out & He & [Hbok Hol Hbits]).
  rewrite He. f_equal. apply bits_inj; [done|done|]. rewrite Hbits, Hlen. fold w.
  assert (Hs : mjoin ((fun vs => round_bits ws (w_BigInt <$> vs)) <$> rounds) = be_bits bytes).
  { rewrite <- Hj. f_equal. clear -Hrs Hcl. induction Hrs as [|r c rounds cs Hrc _ IH]; [done|]. apply Forall_cons in Hcl as [Hc Hcl]. cbn. rewrite Hrc, round_fields, IH; done. }
  rewrite Hs, bits_length. rewrite <- Hk.
  assert (Hz : (8 * BytesRequiredFor (8 * length bytes) - 8 * length bytes = 0)%nat).
  { pose proof (BytesRequiredFor_bounds (8 * length bytes)). lia. }
  rewrite Hz. apply app_nil_r.
Qed.

End Properties.

(** *** Inputs of a machine *)

(** The names of the memories that take inputs *)
Definition input_name {W} (c : Module_ W) : option string :=
  match as_input_output c with
  | Some mem => if Kind.IsReadOnly (Memory.kind_of mem) && negb (Kind.IsStatic (Memory.kind_of mem)) then Some (Name c) else None
  | None => None
  end.

Definition input_names {W} (ms : list (Module_ W)) : list string := omap input_name ms.

Lemma decode_modules_spec {W} `{!Word W} (ms : list (Module_ W)) input : forall visited inputs missing visited' inputs' missing',
  decode_modules ms input visited inputs missing = Ok (visited', inputs', missing') ->
  (forall n, n ∈ visited' <-> n ∈ visited \/ n ∈ input_names ms) /\
  missing' = missing ++ List.filter (fun n => negb (bool_decide (is_Some (input !! n)))) (input_names ms) /\
  (forall n, is_Some (inputs' !! n) <-> is_Some (inputs !! n) \/ (n ∈ input_names ms /\ is_Some (input !! n))).
Proof.
  induction ms as [|c ms IH]; intros visited inputs missing visited' inputs' missing' H; cbn [decode_modules] in H.
  - simplify_eq. cbn. split; [intros n; rewrite elem_of_nil; tauto|]. split; [by rewrite app_nil_r|]. intros n. rewrite elem_of_nil. tauto.
  - assert (Hc : input_names (c :: ms) = match input_name c with Some n => n :: input_names ms | None => input_names ms end) by done.
    unfold input_name in Hc. destruct (as_input_output c) as [mem|]; [|rewrite Hc; by apply IH]. destruct (_ && _); [|rewrite Hc; by apply IH]. rewrite !Hc.
    apply bind_ok in H as (ls & _ & H). destruct (input !! Name c) as [bs|] eqn:Hin.
    + apply bind_ok in H as (ws & _ & H). apply IH in H as (Hv & -> & Hi). cbn [List.filter]. rewrite bool_decide_true by (rewrite Hin; by eexists). cbn [negb].
      split; [intros n; rewrite Hv, !elem_of_cons; tauto|]. split; [done|]. intros n. rewrite Hi, elem_of_cons, lookup_insert_is_Some'.
      split; [|intros [?|[[->|?] ?]]; auto]. intros [[<-|?]|?]; [right; split; [by left|by rewrite Hin]|by left|right; tauto].
    + apply IH in H as (Hv & -> & Hi). cbn [List.filter]. rewrite bool_decide_false by (rewrite Hin; by intros [? ?]). cbn [negb].
      split; [intros n; rewrite Hv, !elem_of_cons; tauto|]. split; [by rewrite <- app_assoc|]. intros n. rewrite Hi, elem_of_cons.
      split; [tauto|]. intros [?|[[->|?] Hn]]; [by left| |tauto]. rewrite Hin in Hn. by destruct Hn.
Qed.

Lemma map_nil_iff {A B} (f : A -> B) l : map f l = [] <-> l = [].
Proof. by destruct l. Qed.

Lemma filter_negb_nil {A} (f : A -> bool) l : List.filter (fun x => negb (f x)) l = [] <-> forall x, x ∈ l -> f x = true.
Proof.
  induction l as [|a l IH]; cbn; [split; [intros _ x Hx; by apply elem_of_nil in Hx|done]|].
  destruct (f a) eqn:Ha; cbn; [|split; [done|intros H; specialize (H a (list_elem_of_here _ _)); congruence]].
  rewrite IH. split; [intros H x [->|Hx]%elem_of_cons; auto|intros H x Hx; apply H; by apply list_elem_of_further].
Qed.

(** The data lines of input memories have widths, and not all zero. *)
Definition packed {W} (c : Module_ W) : Prop :=
  forall mem, as_input_output c = Some mem -> is_Some (input_name c) ->
  exists ls ws, dataLines mem = Ok ls /\ widths_ok ls ws /\ (0 < nat_sum ws)%nat /\ Z.of_nat (nat_sum ws) < 2 ^ 64.

(** What one memory decodes from its input *)
Definition decodes {W} `{!Word W} (c : Module_ W) (input : gmap string (list byte)) (n : string) (vs : list W) : Prop :=
  exists mem ls bytes, input_name c = Some n /\ as_input_output c = Some mem /\ dataLines mem = Ok ls /\ input !! n = Some bytes /\ DecodeBytes bytes ls = Ok vs.

Lemma decode_modules_total {W} `{!Word W, !WordLaws W, !SetBigIntLaw W} (ms : list (Module_ W)) input :
  Forall packed ms -> (forall n bytes, input !! n = Some bytes -> Forall byte_ok bytes) -> forall visited inputs missing,
  exists visited' inputs' missing', decode_modules ms input visited inputs missing = Ok (visited', inputs', missing') /\
    forall n vs, inputs' !! n = Some vs -> inputs !! n = Some vs \/ exists c, c ∈ ms /\ decodes c input n vs.
Proof.
  intros Hp Hb. induction Hp as [|c ms Hc _ IH]; intros visited inputs missing; cbn [decode_modules]; [by do 3 eexists; split; [done|]; auto|].
  assert (Hskip : forall visited inputs missing, exists visited' inputs' missing', decode_modules ms input visited inputs missing = Ok (visited', inputs', missing') /\
    forall n vs, inputs' !! n = Some vs -> inputs !! n = Some vs \/ exists c', c' ∈ c :: ms /\ decodes c' input n vs).
  { intros v i m. destruct (IH v i m) as (v' & i' & m' & H & Hi). exists v', i', m'. split; [done|]. intros n vs Hn.
    destruct (Hi n vs Hn) as [?|(c' & Hin & Hd)]; [by left|]. right. exists c'. split; [by apply list_elem_of_further|done]. }
  unfold packed in Hc. destruct (as_input_output c) as [mem|] eqn:Hmem; [|apply Hskip]. destruct (_ && _) eqn:Hkind; [|apply Hskip].
  assert (Hname : input_name c = Some (Name c)) by (unfold input_name; by rewrite Hmem, Hkind).
  destruct (Hc mem eq_refl) as (ls & ws & Hls & Hws & Hpos & Hsize); [by rewrite Hname|]. rewrite Hls. cbn [mbind result_bind].
  destruct (input !! Name c) as [bytes|] eqn:Hin; [|apply Hskip].
  destruct (DecodeBytes_spec (W := W) ls ws bytes Hws Hpos Hsize (Hb _ _ Hin)) as (vs & Hd & _). rewrite Hd. cbn [mbind result_bind].
  destruct (Hskip (Name c :: visited) (<[Name c := vs]> inputs) missing) as (v' & i' & m' & H & Hi). exists v', i', m'. split; [done|].
  intros n us Hn. destruct (Hi n us Hn) as [Hl|?]; [|by right]. apply lookup_insert_Some in Hl as [[<- <-]|[_ ?]]; [|by left].
  right. exists c. split; [by left|]. by exists mem, ls, bytes.
Qed.

(** C22: Decoding the inputs of a machine returns, and reports an error exactly when some
    input memory has no input or some input has no memory; the memories that have an
    input get the words that their data lines decode from it. *)
Theorem decode_inputs {W} `{!Word W, !WordLaws W, !SetBigIntLaw W} (ms : list (Module_ W)) (input : gmap string (list byte)) :
  Forall packed ms -> (forall n bytes, input !! n = Some bytes -> Forall byte_ok bytes) ->
  exists inputs errs, DecodeInputs ms input = Ok (inputs, errs) /\
  (errs = [] <-> forall n, is_Some (input !! n) <-> n ∈ input_names ms) /\
  (forall n, is_Some (inputs !! n) <-> n ∈ input_names ms /\ is_Some (input !! n)) /\
  (forall n vs, inputs !! n = Some vs -> exists c, c ∈ ms /\ decodes c input n vs).
Proof.
  intros Hp Hb. destruct (decode_modules_total ms input Hp Hb [] ∅ []) as (visited & inputs & missing & Hd & Hcontents).
  unfold DecodeInputs. rewrite Hd. cbn [mbind result_bind]. eexists _, _. split; [reflexivity|].
  apply decode_modules_spec in Hd as (Hv & -> & Hi). split_and!.
  - cbn [app]. rewrite app_nil, !map_nil_iff, !filter_negb_nil. setoid_rewrite bool_decide_eq_true. setoid_rewrite Hv. setoid_rewrite elem_of_nil.
    assert (Hkeys : forall n, n ∈ (map_to_list input).*1 <-> is_Some (input !! n)).
    { intros n. rewrite list_elem_of_fmap. split; [intros ([k v] & -> & Hin%elem_of_map_to_list); by eexists|].
      intros [v Hv']. exists (n, v). split; [done|]. by apply elem_of_map_to_list. }
    setoid_rewrite Hkeys. split; [intros [H1 H2] n; split; [intros Hn; by destruct (H2 n Hn)|apply H1]|intros Hn; split; intros n; [apply Hn|right; by apply Hn]].
  - intros n. rewrite Hi, lookup_empty. split; [intros [[? ?]|?]; done|tauto].
  - intros n vs Hn. destruct (Hcontents n vs Hn) as [He|?]; [by rewrite lookup_empty in He|done].
Qed.

Definition lines : list Register.t := [Register.NewOutput "a" 4 0; Register.NewOutput "b" 12 0].

Lemma lines_ok : widths_ok lines [4%nat; 12%nat].
Proof. repeat constructor. Qed.

Lemma lines_fit : Forall (round_fits (W := Uint.t) [4%nat; 12%nat]) [[3; 500]; [1; 4095]].
Proof. unfold round_fits. repeat first [apply Forall_nil_2 | apply Forall_cons_2 | apply Forall2_nil_2 | apply Forall2_cons_2]; vm_compute; split; (discriminate || reflexivity). Qed.

Lemma lines_words : Forall (Forall (word_ok (W := Uint.t))) [[3; 500]; [1; 4095]].
Proof.
  repeat first [apply Forall_nil_2 | apply Forall_cons_2]; refine (proj1 (SetUint64_law (W := Uint.t) _ _)); lia.
Qed.

Lemma decode_encode_witness : exists out, EncodeBytes (W := Uint.t) [3; 500; 1; 4095] lines = Ok out /\ DecodeBytes (W := Uint.t) out lines = Ok [3; 500; 1; 4095].
Proof.
  destruct (decode_encode (W := Uint.t) lines [4%nat; 12%nat] [[3; 500]; [1; 4095]] lines_ok) as (out & He & _ & Hd);
    [cbn; lia|cbn; lia|cbn; lia|exact lines_fit|exact lines_words|exists out; split; [exact He|exact Hd]].
Defined.

Lemma encode_decode_witness : exists vs : list Uint.t, DecodeBytes [49; 240; 14; 29] lines = Ok vs /\ EncodeBytes vs lines = Ok [49; 240; 14; 29].
Proof.
  apply (encode_decode (W := Uint.t) lines [4%nat; 12%nat] [49; 240; 14; 29] 2 lines_ok); [cbn; lia|cbn; lia|cbn; lia|repeat constructor; unfold byte_ok; lia|reflexivity].
Defined.

Definition memories : list (Module_ Uint.t) :=
  [MMemory (Memory.NewInputMemory "data" true (Register.NewInput "i" 8 0 :: lines) []); MMemory (Memory.NewOutputMemory "out" true (Register.NewInput "i" 8 0 :: lines))].

Definition bytes_given : gmap string (list byte) := {["data" := [49; 240]]}.

Lemma memories_packed : Forall packed memories.
Proof.
  repeat apply Forall_cons_2; [|intros mem _ [n Hn]; discriminate|by apply Forall_nil_2].
  intros mem [= <-] _. exists lines, [4%nat; 12%nat]. split_and!; [reflexivity|exact lines_ok|cbn; lia|cbn; lia].
Qed.

Lemma decode_inputs_witness : exists inputs, DecodeInputs memories bytes_given = Ok (inputs, []) /\ inputs !! "data"%string = Some [3; 496].
Proof.
  destruct (decode_inputs memories bytes_given memories_packed) as (inputs & errs & Hd & _).
  - intros n bytes H. unfold bytes_given in H. apply lookup_singleton_Some in H as [_ <-]. repeat constructor; lia.
  - assert (He : DecodeInputs memories bytes_given = Ok ({["data" := [3; 496]]}, [])) by (vm_compute; reflexivity).
    rewrite He in Hd. injection Hd as <- <-. exists {["data" := [3; 496]]}. split; [exact He|reflexivity].
Defined.

(** The example of the documentation *)
Lemma decode_example : DecodeBytes (W := Uint.t) [49; 240; 14; 29] [Register.NewOutput "x" 4 0] = Ok [3; 1; 15; 0; 0; 14; 1; 13].
Proof. vm_compute. reflexivity. Qed.

(** A round that is not full after others makes encoding panic: the registers are
    indexed by the position of the value. *)
Lemma encode_partial_round : EncodeBytes (W := Uint.t) [3; 500; 1] lines = Fault index_panic.
Proof. vm_compute. reflexivity. Qed.

End CodecProperties.
