(* ===== verification/SplitWord.v ===== *)
(** * Splitting words into limbs

    Models [SplitWord] of [pkg/util/field/util.go] and the splitter of
    [pkg/ir/assignment/computed_register.go], which cut a big-endian word into limbs
    by reading its bits, and shows that the limbs are the digits of its value: this is
    how the registers that [Equation] allocates are filled. *)

From Stdlib Require Import ZArith Lia String.
From stdpp Require Import base numbers list option strings.
From S2P Require Import Prelude Limbs LimbsFacts Equation EquationTerms EquationAlloc Bits Codec CodecFacts.

Open Scope Z_scope.
Open Scope list_scope.

(** ** [util.go] *)

(** The bytes are cloned when there are enough of them. *)
Definition padAndReverse (bytes : list byte) (n : nat) : list byte :=
  reverse (if (length bytes <? n)%nat then replicate (n - length bytes) 0 ++ bytes else bytes).

(** A limb is read into the buffer and reversed in place. *)
Definition read_limb (reader : Reader) (w : nat) (buf : list byte) : result (list byte * list byte * Reader) :=
  '(m, buf, reader) ← LittleEndianReadInto reader w buf;
  limb ← slice_sub buf 0 m;
  Ok (reverse limb, overwrite buf 0 (reverse limb), reader).

Section Field.
Context {F : Type} (from_bytes : list byte -> F).

Fixpoint split_bits (reader : Reader) (widths : list nat) (buf : list byte) : result (list F * list byte) :=
  match widths with
  | [] => Ok ([], buf)
  | w :: widths =>
      '(limb, buf, reader) ← read_limb reader w buf;
      '(elements, buf) ← split_bits reader widths buf;
      Ok (from_bytes limb :: elements, buf)
  end.

(** The word is the integer that it represents. *)
Definition SplitWord (val : Z) (widths : list nat) : result (option (list F)) :=
  let bitwidth := sum_list widths in
  let bytes := padAndReverse (Bytes val) (BytesRequiredFor bitwidth) in
  if 2 ^ Z.of_nat bitwidth <=? val then Ok None
  else '(elements, _) ← split_bits (NewReader bytes) widths (replicate 32 0); Ok (Some elements).

(** ** [computed_register.go] *)

(** [fieldWordSplitter], whose buffers are used again on every row *)
Record Splitter : Type := mkSplitter { widths : list nat; limit : Z; workingSet : list byte; limbBuf : list byte }.

Definition newFieldWordSplitter (widths : list nat) : Splitter :=
  let totalBits := sum_list widths in
  mkSplitter widths (2 ^ Z.of_nat totalBits) (replicate (BytesRequiredFor totalBits) 0) (replicate 32 0).

(** [PutBytes]: the bytes of the word at the end of the buffer, zeros before; a longer
    word goes to a new slice, and the buffer stays as it is. *)
Definition PutBytes (val : Z) (bytes : list byte) : list byte :=
  if (length bytes <? length (Bytes val))%nat then bytes else replicate (length bytes - length (Bytes val)) 0 ++ Bytes val.

(** The limbs of a row, unless the word is too large *)
Definition splitter_write (s : Splitter) (val : Z) : result (option (list F) * Splitter) :=
  if limit s <=? val then Ok (None, s)
  else
    let workingSet := reverse (PutBytes val (workingSet s)) in
    '(elements, buf) ← split_bits (NewReader workingSet) (widths s) (limbBuf s);
    Ok (Some elements, mkSplitter (widths s) (limit s) workingSet buf).

End Field.

(** ** Bits, least significant first *)

Abbreviation le_bits := (bits little_endian).

Lemma little_range i : (i < 8)%nat -> 0 <= little_endian i < 8.
Proof. unfold little_endian. lia. Qed.

Lemma little_inj i j : (i < 8)%nat -> (j < 8)%nat -> little_endian i = little_endian j -> i = j.
Proof. unfold little_endian. lia. Qed.

Fixpoint le_value (l : list bool) : Z := match l with [] => 0 | b :: l => Z.b2z b + 2 * le_value l end.

Fixpoint le_digits (n : nat) (v : Z) : list bool := match n with O => [] | S n => Z.odd v :: le_digits n (v / 2) end.

Lemma le_value_digits n v : le_value (le_digits n v) = v mod 2 ^ Z.of_nat n.
Proof.
  revert v. induction n as [|n IH]; intros v; [cbn; by rewrite Z.mod_1_r|]. cbn [le_digits le_value]. rewrite IH.
  rewrite Nat2Z.inj_succ, Z.pow_succ_r by lia. rewrite Z.rem_mul_r by (try lia; apply Z.pow_nonzero; lia).
  rewrite (Zmod_odd v). destruct (Z.odd v); cbn; ring.
Qed.

Lemma le_value_app a b : le_value (a ++ b) = le_value a + 2 ^ Z.of_nat (length a) * le_value b.
Proof.
  induction a as [|x a IH]; [cbn [app length le_value]; change (2 ^ Z.of_nat 0) with 1; lia|]. cbn [app le_value length]. rewrite IH.
  rewrite Nat2Z.inj_succ, Z.pow_succ_r by lia. ring.
Qed.

Lemma le_value_bound l : 0 <= le_value l < 2 ^ Z.of_nat (length l).
Proof.
  induction l as [|b l IH]; [done|]. cbn [le_value length]. rewrite Nat2Z.inj_succ, Z.pow_succ_r by lia. destruct b; cbn; lia.
Qed.

Lemma le_value_zero n : le_value (replicate n false) = 0.
Proof. induction n as [|n IH]; [done|]. cbn [replicate le_value]. by rewrite IH. Qed.

(** The value of the bits after the first ones, and of the first ones *)
Lemma le_value_drop l i : (i <= length l)%nat -> le_value (drop i l) = Z.shiftr (le_value l) (Z.of_nat i).
Proof.
  intros H. rewrite Z.shiftr_div_pow2 by lia. rewrite <- (take_drop i l) at 2. rewrite le_value_app, length_take, Nat.min_l by done.
  pose proof (le_value_bound (take i l)) as Hb. rewrite length_take, Nat.min_l in Hb by done.
  rewrite Z.mul_comm, Z.div_add, Z.div_small by lia. done.
Qed.

Lemma le_value_take l i : (i <= length l)%nat -> le_value (take i l) = le_value l mod 2 ^ Z.of_nat i.
Proof.
  intros H. rewrite <- (take_drop i l) at 2. rewrite le_value_app, length_take, Nat.min_l by done.
  pose proof (le_value_bound (take i l)) as Hb. rewrite length_take, Nat.min_l in Hb by done.
  rewrite Z.mul_comm, Z.mod_add, Z.mod_small by lia. done.
Qed.

Lemma byte_le_bits b : le_bits [b] = le_digits 8 b.
Proof.
  cbn [le_digits]. rewrite !Z.div_div by lia. cbn [Z.mul Pos.mul].
  unfold bits, bit_at, little_endian. cbn. rewrite !Z.testbit_odd, !Z.shiftr_div_pow2 by lia. by rewrite Z.div_1_r.
Qed.

(** Reversing the bytes of a big-endian word makes its value the value of its bits. *)
Lemma reverse_value l : Forall byte_ok l -> le_value (le_bits (reverse l)) = SetBytes l.
Proof.
  induction l as [|b l IH] using rev_ind; [done|]. intros [Hl Hb%Forall_inv]%Forall_app.
  rewrite reverse_app, reverse_singleton, bits_app, le_value_app, IH, SetBytes_snoc, byte_le_bits, le_value_digits by done.
  change (2 ^ Z.of_nat 8) with 256. rewrite Z.mod_small by apply Hb. change (length (le_digits 8 b)) with 8%nat. change (2 ^ Z.of_nat 8) with 256. ring.
Qed.

Lemma Forall_reverse_bytes l : Forall byte_ok l -> Forall byte_ok (reverse l).
Proof. intros H. by rewrite reverse_Permutation. Qed.

Lemma SetBytes_pad n l : SetBytes (replicate n 0 ++ l) = SetBytes l.
Proof. induction n as [|n IH]; [done|exact IH]. Qed.

(** ** Reading the limbs *)

Lemma read_limb_spec reader w buf : (bitoffset reader + w <= 8 * length (bytes reader))%nat -> (BytesRequiredFor w <= length buf)%nat ->
  Forall byte_ok (bytes reader) -> Forall byte_ok buf ->
  exists limb buf', read_limb reader w buf = Ok (limb, buf', mkReader (bitoffset reader + w) (bytes reader)) /\ length buf' = length buf /\
    Forall byte_ok buf' /\ Forall byte_ok limb /\
    SetBytes limb = Z.shiftr (le_value (le_bits (bytes reader))) (Z.of_nat (bitoffset reader)) mod 2 ^ Z.of_nat w.
Proof.
  intros Hw Hbuf Hok Hbok. unfold read_limb.
  destruct (ReadInto_spec little_endian little_range little_inj reader w buf Hw Hbuf Hok Hbok) as (b & Hread & Hl & Hbok' & Hbits).
  unfold LittleEndianReadInto. rewrite Hread. cbn [mbind result_bind]. rewrite slice_sub_zero by lia. cbn [mbind result_bind].
  assert (Ht : Forall byte_ok (reverse (take (BytesRequiredFor w) b))) by (apply Forall_reverse_bytes, Forall_take, Hbok').
  eexists _, _. split; [reflexivity|]. split; [|split; [by apply Forall_overwrite|split; [exact Ht|]]].
  { rewrite overwrite_length; [done|]. rewrite length_reverse, length_take. lia. }
  rewrite <- reverse_value, reverse_involutive, Hbits by exact Ht. unfold padded. rewrite le_value_app, le_value_zero, Z.mul_0_r, Z.add_0_r.
  rewrite le_value_take, le_value_drop; [done|rewrite bits_length; lia|rewrite length_drop, bits_length; lia].
Qed.

Section Limbs.
Context {F : Type} (from_bytes : list byte -> F) (of_Z : Z -> F).
Hypothesis from_bytes_value : forall bytes, Forall byte_ok bytes -> from_bytes bytes = of_Z (SetBytes bytes).

Lemma split_bits_spec ws : Forall (fun w => (w <= 256)%nat) ws -> forall reader buf, (bitoffset reader + sum_list ws <= 8 * length (bytes reader))%nat ->
  length buf = 32%nat -> Forall byte_ok (bytes reader) -> Forall byte_ok buf ->
  exists buf', split_bits from_bytes reader ws buf =
    Ok (map of_Z (digits (map Z.of_nat ws) (Z.shiftr (le_value (le_bits (bytes reader))) (Z.of_nat (bitoffset reader)))), buf') /\
    length buf' = 32%nat /\ Forall byte_ok buf'.
Proof.
  induction 1 as [|w ws Hw _ IH]; intros reader buf Hfit Hl Hok Hbok; [by eexists|]. cbn [split_bits sum_list_with] in *.
  pose proof (BytesRequiredFor_bounds w). change (id w) with w in Hfit.
  destruct (read_limb_spec reader w buf) as (limb & b & -> & Hb & Hb' & Hlimb & Hv); [lia|lia|done|done|]. cbn [mbind result_bind].
  destruct (IH (mkReader (bitoffset reader + w) (bytes reader)) b) as (b' & -> & Hl' & Hok'); [cbn [bitoffset Bits.bytes]; lia|lia|done|done|]. cbn [mbind result_bind].
  exists b'. split; [|done]. rewrite from_bytes_value, Hv by done. cbn [map digits bitoffset Bits.bytes].
  rewrite Z.shiftr_shiftr by lia. by rewrite Nat2Z.inj_add.
Qed.

Lemma width_sum_nat ws : width_sum (map Z.of_nat ws) = Z.of_nat (sum_list ws).
Proof. induction ws as [|w ws IH]; [done|]. unfold width_sum in *. cbn [map foldr sum_list_with] in *. rewrite IH. cbn. lia. Qed.

(** The limbs read from the reversed bytes of a word *)
Lemma split_word_bytes ws l buf : Forall (fun w => (w <= 256)%nat) ws -> (sum_list ws <= 8 * length l)%nat -> length buf = 32%nat ->
  Forall byte_ok l -> Forall byte_ok buf ->
  exists buf', split_bits from_bytes (NewReader (reverse l)) ws buf = Ok (map of_Z (digits (map Z.of_nat ws) (SetBytes l)), buf') /\
    length buf' = 32%nat /\ Forall byte_ok buf'.
Proof.
  intros Hws Hl Hbuf Hok Hbok. destruct (split_bits_spec ws Hws (NewReader (reverse l)) buf) as (b & -> & Hb).
  - cbn [bitoffset NewReader Bits.bytes]. rewrite length_reverse. lia.
  - done.
  - by apply Forall_reverse_bytes.
  - done.
  - exists b. cbn [bitoffset NewReader Bits.bytes]. by rewrite Z.shiftr_0_r, reverse_value.
Qed.

(** The state of a splitter that has written rows *)
Definition splitter_ok (ws : list nat) (s : Splitter) : Prop :=
  widths s = ws /\ limit s = 2 ^ Z.of_nat (sum_list ws) /\ length (workingSet s) = BytesRequiredFor (sum_list ws) /\
  length (limbBuf s) = 32%nat /\ Forall byte_ok (limbBuf s).

Lemma new_splitter ws : splitter_ok ws (newFieldWordSplitter ws).
Proof. unfold splitter_ok, newFieldWordSplitter. cbn. rewrite length_replicate. split_and!; try done. repeat constructor; done. Qed.

Lemma splitter_write_spec ws s val : splitter_ok ws s -> Forall (fun w => (w <= 256)%nat) ws -> 0 <= val ->
  exists s', splitter_write from_bytes s val = Ok (option_map (map of_Z) (EquationAlloc.write (map Z.of_nat ws) val), s') /\ splitter_ok ws s'.
Proof.
  intros (Hwid & Hlim & Hlen & Hbl & Hbok) Hws Hval. unfold splitter_write, EquationAlloc.write. rewrite Hlim, width_sum_nat.
  destruct (Z.leb_spec (2 ^ Z.of_nat (sum_list ws)) val) as [Hge|Hlt]; [by exists s|].
  pose proof (BytesRequiredFor_bounds (sum_list ws)). destruct (Bytes_spec val (BytesRequiredFor (sum_list ws))) as (Hok & Hl & Hv).
  { split; [done|]. eapply Z.lt_le_trans; [exact Hlt|]. apply Z.pow_le_mono_r; lia. }
  unfold PutBytes. rewrite Hlen. destruct (Nat.ltb_spec (BytesRequiredFor (sum_list ws)) (length (Bytes val))); [lia|].
  set (l := replicate _ 0 ++ Bytes val). assert (Hll : length l = BytesRequiredFor (sum_list ws)) by (subst l; rewrite length_app, length_replicate; lia).
  destruct (split_word_bytes ws l (limbBuf s)) as (b & Hs & Hb & Hb'); [done|lia|done| |done|].
  { apply Forall_app. split; [apply Forall_byte_zero|done]. }
  rewrite Hwid, Hs. cbn [mbind result_bind]. unfold l at 1. rewrite SetBytes_pad, Hv. eexists. split; [reflexivity|].
  split_and!; cbn; try done. by rewrite length_reverse.
Qed.

Lemma SplitWord_spec ws v : Forall (fun w => (w <= 256)%nat) ws -> 0 <= v ->
  SplitWord from_bytes v ws = Ok (option_map (map of_Z) (EquationAlloc.write (map Z.of_nat ws) v)).
Proof.
  intros Hws Hv. unfold SplitWord, EquationAlloc.write. rewrite width_sum_nat.
  destruct (Z.leb_spec (2 ^ Z.of_nat (sum_list ws)) v) as [Hge|Hlt]; [done|].
  pose proof (BytesRequiredFor_bounds (sum_list ws)). destruct (Bytes_spec v (BytesRequiredFor (sum_list ws))) as (Hok & Hl & Hval).
  { split; [done|]. eapply Z.lt_le_trans; [exact Hlt|]. apply Z.pow_le_mono_r; lia. }
  unfold padAndReverse. set (n := BytesRequiredFor (sum_list ws)) in *.
  assert (Hp : (if (length (Bytes v) <? n)%nat then replicate (n - length (Bytes v)) 0 ++ Bytes v else Bytes v) = replicate (n - length (Bytes v)) 0 ++ Bytes v).
  { destruct (Nat.ltb_spec (length (Bytes v)) n); [done|]. by replace (n - length (Bytes v))%nat with 0%nat by lia. }
  rewrite Hp. set (l := replicate _ 0 ++ Bytes v).
  destruct (split_word_bytes ws l (replicate 32 0)) as (b & Hs & _);
    [done|unfold l; rewrite length_app, length_replicate; lia|done|apply Forall_app; split; [apply Forall_byte_zero|done]|apply Forall_byte_zero|].
  rewrite Hs. cbn [mbind result_bind option_map]. unfold l. by rewrite SetBytes_pad, Hval.
Qed.

(** Any number of rows *)
Fixpoint splitter_rows (s : Splitter) (rows : list Z) : result (list (option (list F))) :=
  match rows with
  | [] => Ok []
  | val :: rows =>
      '(row, s) ← splitter_write from_bytes s val;
      data ← splitter_rows s rows;
      Ok (row :: data)
  end.

End Limbs.

Module SplitWordProperties.

(** C23: the limbs that the splitters of words read off the bits of a big-endian word
    are the digits of its value in the widths given, least significant first, and a
    word is refused exactly when it does not fit: [SplitWord] and the splitter of a
    computed register, whose two buffers are used again on every row, agree with the
    splitter that the splitting of equations assumes, on any sequence of rows. Limbs
    have at most 256 bits, the size of the buffer. *)
Theorem split_word {F : Type} (from_bytes : list byte -> F) (of_Z : Z -> F) (ws : list nat) (rows : list Z) :
  (forall bytes, Forall byte_ok bytes -> from_bytes bytes = of_Z (SetBytes bytes)) ->
  Forall (fun w => (w <= 256)%nat) ws -> Forall (fun v => 0 <= v) rows ->
  let expected v := option_map (map of_Z) (EquationAlloc.write (map Z.of_nat ws) v) in
  mapM (fun v => SplitWord from_bytes v ws) rows = Ok (map expected rows) /\
  splitter_rows from_bytes (newFieldWordSplitter ws) rows = Ok (map expected rows).
Proof.
  intros Hof Hws Hrows expected. split.
  - induction Hrows as [|v rows Hv _ IH]; [done|]. cbn [mapM map]. rewrite (SplitWord_spec from_bytes of_Z Hof) by done.
    cbn [mbind result_bind]. by rewrite IH.
  - pose proof (new_splitter ws) as Hs. revert Hs. generalize (newFieldWordSplitter ws). induction Hrows as [|v rows Hv _ IH]; intros s Hs; [done|].
    cbn [splitter_rows]. destruct (splitter_write_spec from_bytes of_Z Hof ws s v Hs Hws Hv) as (s' & -> & Hs'). cbn [mbind result_bind].
    rewrite (IH s' Hs'). done.
Qed.

Lemma split_word_witness :
  mapM (fun v => SplitWord SetBytes v [8%nat; 4%nat; 8%nat]) [300; 0; 2 ^ 20; 2 ^ 20 - 1] =
    Ok [Some [44; 1; 0]; Some [0; 0; 0]; None; Some [255; 15; 255]] /\
  splitter_rows SetBytes (newFieldWordSplitter [8%nat; 4%nat; 8%nat]) [300; 0; 2 ^ 20; 2 ^ 20 - 1] =
    Ok [Some [44; 1; 0]; Some [0; 0; 0]; None; Some [255; 15; 255]].
Proof.
  apply (split_word SetBytes id [8%nat; 4%nat; 8%nat] [300; 0; 2 ^ 20; 2 ^ 20 - 1]); [done| |];
    repeat first [apply Forall_nil_2 | apply Forall_cons_2]; lia.
Defined.

End SplitWordProperties.
