(* ===== verification/EquationEnds.v ===== *)
(** * Termination of the splitting of equations

    [chunkUp] halves the width of the chunks until they fit, which they need not ever
    do.  Chunks of one bit have coefficients of one, so what a chunk is worth at most
    does not depend on the coefficients of the equation: [spread].  When the spread of
    each side is at most half of what the bandwidth holds, the carries leave enough
    room, and the loop ends. *)

From Stdlib Require Import ZArith Lia String.
From stdpp Require Import base numbers list option strings sets.
From S2P Require Import Prelude Interval Register SortedSet Poly PolyFacts Limbs LimbsFacts Equation EquationTerms EquationAlloc EquationVars EquationSplit EquationSound.
From S2P Require BitSet.
Import Equation.

Open Scope Z_scope.
Open Scope list_scope.

(** ** Polynomials without their coefficients *)

Section Spread.
Context {V : Type} `{!Comparable V, !CmpLaws V} (wt : V -> Z) (wt_nonneg : forall v, 0 <= wt v).
Implicit Types (p q : Monomial V) (P Q : list (Monomial V)).

(** The sum of the products of the weights *)
Definition spread P : Z := foldr (fun p acc => vars_value wt (vars p) + acc) 0 P.

Lemma spread_cons p P : spread (p :: P) = vars_value wt (vars p) + spread P.
Proof. done. Qed.

Lemma weight_nonneg vs : 0 <= vars_value wt vs.
Proof. unfold vars_value. induction vs as [|v vs IH]; cbn [foldr]; [lia|]. specialize (wt_nonneg v). nia. Qed.

Lemma spread_nonneg P : 0 <= spread P.
Proof. induction P as [|p P IH]; [done|]. rewrite spread_cons. pose proof (weight_nonneg (vars p)). lia. Qed.

Lemma spread_app P Q : spread (P ++ Q) = spread P + spread Q.
Proof. induction P as [|p P IH]; [done|]. cbn [app]. rewrite !spread_cons, IH. lia. Qed.

Lemma spread_RemoveAt P i : spread (RemoveAt P i) <= spread P.
Proof.
  unfold RemoveAt. destruct (_ <=? _)%nat; [lia|]. rewrite spread_app. rewrite <- (take_drop i P) at 3. rewrite spread_app.
  destruct (drop i P) as [|q R] eqn:Hd; [rewrite drop_ge; [cbn; lia|]; apply (f_equal length) in Hd; rewrite length_drop in Hd; cbn in Hd; lia|].
  rewrite spread_cons. pose proof (weight_nonneg (vars q)).
  replace (drop (S i) P) with R; [lia|]. rewrite <- Nat.add_1_r, <- drop_drop, Hd. done.
Qed.

Lemma spread_insert P i q : vars <$> P !! i = Some (vars q) -> spread (<[i := q]> P) = spread P.
Proof.
  revert i. induction P as [|p P IH]; intros [|i] H; [done|done|cbn in H; injection H as H; cbn; by rewrite H|].
  cbn [insert list_insert]. fold (<[i := q]> P). rewrite !spread_cons, IH; done.
Qed.

Lemma spread_AddTerm P q : spread (AddTerm P q) <= spread P + vars_value wt (vars q).
Proof.
  pose proof (weight_nonneg (vars q)). unfold AddTerm. destruct (negb _); [|lia]. destruct (first_match P q) as [i|] eqn:Hm.
  - apply first_match_Some in Hm as (p & Hi & Hv). unfold update_term. rewrite Hi. destruct (Monomial_IsZero _).
    + pose proof (spread_RemoveAt P i). lia.
    + rewrite spread_insert by (by rewrite Hi). lia.
  - apply first_match_None, Insert_new in Hm as [i ->]. rewrite spread_app, spread_cons. rewrite <- (take_drop i P) at 3. rewrite spread_app. lia.
Qed.

Lemma spread_add_terms P Q : spread (add_terms P Q) <= spread P + spread Q.
Proof.
  unfold add_terms. revert P. induction Q as [|q Q IH]; intros P; cbn [foldl]; [cbn; lia|]. rewrite spread_cons.
  pose proof (IH (AddTerm P q)). pose proof (spread_AddTerm P q). lia.
Qed.

Lemma spread_Set P : spread (Set_ P) <= spread P.
Proof. apply (spread_add_terms []). Qed.

Lemma spread_Mul P Q : spread (Mul P Q) <= spread P * spread Q.
Proof.
  unfold Mul. enough (forall K, spread (foldl (fun res ith => foldl (fun res jth => AddTerm res (Monomial_Mul ith jth)) res Q) K P) <= spread K + spread P * spread Q) as H by apply (H []).
  induction P as [|p P IH]; intros K; cbn [foldl]; [cbn; lia|]. etrans; [apply IH|]. rewrite spread_cons.
  enough (spread (foldl (fun res jth => AddTerm res (Monomial_Mul p jth)) K Q) <= spread K + vars_value wt (vars p) * spread Q) by lia.
  clear IH. revert K. induction Q as [|q Q IH]; intros K; cbn [foldl]; [cbn; lia|]. etrans; [apply IH|]. rewrite spread_cons.
  pose proof (spread_AddTerm K (Monomial_Mul p q)) as Ha. cbn [Monomial_Mul vars] in Ha. rewrite MergeSorted_Permutation, vars_value_app in Ha. lia.
Qed.

Lemma spread_Shr P n : 0 <= n -> spread (fst (Shr P n)) <= spread P /\ spread (snd (Shr P n)) <= spread P.
Proof.
  intros Hn. induction P as [|p P IH]; [done|]. rewrite Shr_cons. cbn [fst snd]. destruct (Monomial_Shr_spec p n Hn) as (_ & _ & _ & H1 & H2).
  pose proof (weight_nonneg (vars p)). rewrite spread_cons. destruct (negb _), (negb _); rewrite ?spread_cons, ?H1, ?H2; lia.
Qed.

(** A remainder of one bit has only coefficients of one. *)
Lemma Eval_bit P : positive P -> Eval (snd (Shr P 1)) wt = spread (snd (Shr P 1)).
Proof.
  induction P as [|p P IH]; intros HP; [done|]. apply Forall_cons in HP as [Hp HP]. rewrite Shr_cons. cbn [snd].
  destruct (Monomial_Shr_spec p 1 ltac:(lia)) as (Hq & Hb & Hs & _). unfold Monomial_IsZero. destruct (Z.eqb_spec (coefficient (snd (Monomial_Shr p 1))) 0); cbn [negb]; [by apply IH|].
  rewrite Eval_cons, spread_cons, IH, evalTerm_value by done. change (2 ^ 1) with 2 in *. replace (coefficient (snd (Monomial_Shr p 1))) with 1 by nia. lia.
Qed.

Lemma spread_variable v : spread (variable v) <= wt v.
Proof.
  unfold variable. etrans; [apply spread_Set|]. rewrite spread_cons. cbn [NewMonomial vars spread foldr].
  rewrite SortFunc_Permutation. cbn. lia.
Qed.

(** Substitution multiplies and adds what the polynomials of the variables weigh. *)
Section Substitute.
Context (mapping : V -> option (list (Monomial V))) (wt' : V -> Z).
Abbreviation image v := (default (variable v) (mapping v)).

Lemma spread_SubstituteMonomial p : Forall (fun v => spread (image v) <= wt' v) (vars p) ->
  spread (SubstituteMonomial mapping p) <= vars_value wt' (vars p).
Proof.
  intros Hv. unfold SubstituteMonomial. assert (H1 : spread (Set_ [NewMonomial (coefficient p) []] : list (Monomial V)) <= 1) by (etrans; [apply spread_Set|done]).
  enough (forall P, spread (foldl (fun r v => Mul r (image v)) P (vars p)) <= spread P * vars_value wt' (vars p) /\ 0 <= vars_value wt' (vars p)) as H.
  { destruct (H (Set_ [NewMonomial (coefficient p) []])) as [H2 H3]. pose proof (spread_nonneg (Set_ [NewMonomial (coefficient p) []])). nia. }
  clear H1. induction Hv as [|v vs Hv _ IH]; intros P; cbn [foldl vars_value foldr]; [lia|]. fold (vars_value wt' vs).
  destruct (IH (Mul P (image v))) as [H1 H2]. pose proof (spread_Mul P (image v)) as Hm. pose proof (spread_nonneg P). pose proof (spread_nonneg (image v)). split; [|nia].
  etrans; [exact H1|]. rewrite Z.mul_assoc. apply Z.mul_le_mono_nonneg_r; [done|]. etrans; [exact Hm|]. by apply Z.mul_le_mono_nonneg_l.
Qed.

End Substitute.

Lemma spread_SubstitutePolynomial mapping wt' P : vars_in (fun v => spread (default (variable v) (mapping v)) <= wt' v) P ->
  spread (SubstitutePolynomial mapping P) <= foldr (fun p acc => vars_value wt' (vars p) + acc) 0 P.
Proof.
  intros HP. unfold SubstitutePolynomial. destruct HP as [|p P Hp HP]; [done|]. cbn [map foldr].
  enough (forall Q, spread (foldl Add Q (map (SubstituteMonomial mapping) P)) <= spread Q + foldr (fun p acc => vars_value wt' (vars p) + acc) 0 P) as H.
  { etrans; [apply H|]. pose proof (spread_SubstituteMonomial mapping wt' p Hp). lia. }
  induction HP as [|q P Hq _ IH]; intros Q; cbn [map foldl foldr]; [lia|]. etrans; [apply IH|].
  pose proof (spread_add_terms Q (SubstituteMonomial mapping q)) as Ha. pose proof (spread_SubstituteMonomial mapping wt' q Hq). unfold Add. lia.
Qed.

End Spread.

(** ** Chunks of one bit *)

(** The largest value of an access *)
Definition weight (v : AccessId.t) : Z := Z.max 0 (top DynamicEnvironment v).

Lemma weight_ge v : 0 <= weight v.
Proof. unfold weight. lia. Qed.

Lemma weight_top v : sized DynamicEnvironment v -> weight v = top DynamicEnvironment v.
Proof. intros H%top_nonneg. unfold weight. lia. Qed.

Lemma Eval_weight P : over (sized DynamicEnvironment) P -> Eval P (top DynamicEnvironment) = Eval P weight.
Proof. intros [_ HP]. apply Eval_ext. eapply vars_in_impl; [|exact HP]. intros v Hv. by rewrite weight_top. Qed.

Lemma chunkEquation_bits ws : Forall (fun w => w = 1) ws -> forall l r, over (sized DynamicEnvironment) l -> over (sized DynamicEnvironment) r ->
  Forall (fun P => over (sized DynamicEnvironment) P /\ Eval P (top DynamicEnvironment) <= spread weight l) (fst (chunkEquation l r ws)) /\
  Forall (fun P => over (sized DynamicEnvironment) P /\ Eval P (top DynamicEnvironment) <= spread weight r) (snd (chunkEquation l r ws)).
Proof.
  induction 1 as [|w ws -> _ IH]; intros l r Hl Hr; [split; constructor|]. cbn [chunkEquation].
  destruct (over_Shr _ l 1 ltac:(lia) Hl) as [Hl1 Hl2], (over_Shr _ r 1 ltac:(lia) Hr) as [Hr1 Hr2].
  destruct (spread_Shr weight weight_ge l 1 ltac:(lia)) as [Sl1 Sl2], (spread_Shr weight weight_ge r 1 ltac:(lia)) as [Sr1 Sr2].
  pose proof (Eval_bit weight l (proj1 Hl)) as El. pose proof (Eval_bit weight r (proj1 Hr)) as Er. rewrite <- Eval_weight in El by done. rewrite <- Eval_weight in Er by done.
  destruct (Shr l 1) as [lq lr], (Shr r 1) as [rq rr]. cbn [fst snd] in *. destruct (IH lq rq Hl1 Hr1) as [H1 H2]. destruct (chunkEquation lq rq ws) as [L R]. cbn [fst snd] in *.
  assert (HL : Forall (fun P => over (sized DynamicEnvironment) P /\ Eval P (top DynamicEnvironment) <= spread weight l) L).
  { eapply Forall_impl; [exact H1|]. cbn. intros P [? ?]. split; [done|lia]. }
  assert (HR : Forall (fun P => over (sized DynamicEnvironment) P /\ Eval P (top DynamicEnvironment) <= spread weight r) R).
  { eapply Forall_impl; [exact H2|]. cbn. intros P [? ?]. split; [done|lia]. }
  destruct (_ || _); [|by split]. cbn [fst snd]. split; (constructor; [split; [done|lia]|done]).
Qed.

(** ** Carries out of one bit *)

Section Ends.
Context (field : Config) (Hfield : 1 <= BandWidth field < 2 ^ 62).

Lemma carry_lines_fit chunks : forall chunk ws S a res ok a', S <= 2 ^ (BandWidth field - 1) -> Forall (fun w => w = 1) ws ->
  over (sized DynamicEnvironment) chunk -> Eval chunk (top DynamicEnvironment) <= S + 2 ^ (BandWidth field - 1) - 1 ->
  Forall (fun P => over (sized DynamicEnvironment) P /\ Eval P (top DynamicEnvironment) <= S) chunks ->
  carry_lines field chunk chunks ws a = Ok (res, ok, a') -> ok = true.
Proof.
  assert (Hpow : 2 ^ BandWidth field = 2 * 2 ^ (BandWidth field - 1)) by (rewrite <- Z.pow_succ_r by lia; f_equal; lia).
  pose proof (Z.pow_pos_nonneg 2 (BandWidth field - 1) ltac:(lia) ltac:(lia)) as Hhalf.
  induction chunks as [|next chunks IH]; intros chunk ws S a res ok a' HS Hws Ho He Hn H; cbn [carry_lines] in H;
    rewrite (WidthOfPolynomial_top _ _ Ho) in H; cbn [mbind result_bind] in H;
    (destruct Hws as [|w ws -> Hws]; [done|]); set (n := BitLen (Eval chunk (top DynamicEnvironment))) in *;
    (assert (Hnn : 0 <= Eval chunk (top DynamicEnvironment)) by (destruct (range_polynomial _ _ Ho) as (lo & _ & ?); lia));
    (assert (Hle : n <= BandWidth field) by (apply IntervalFacts.BitLen_le; lia));
    (destruct (Z.ltb_spec (BandWidth field) n); [lia|]).
  - by injection H as <- <- <-.
  - apply Forall_cons in Hn as [[Hno Hnv] Hn]. destruct (Z.ltb_spec 1 n) as [Hlt|Hge].
    + rewrite (surjective_pairing (Allocator.AllocateWith _ _ _ _)) in H. apply bind_ok in H as ([[rest ok'] m] & H & [= <- <- <-]).
      assert (Hc : sized DynamicEnvironment (AccessId.AccessOf (fst (Allocator.AllocateWith a "c" (n - 1) (PolyFil 1 chunk))) (n - 1)))
        by (unfold sized, DynamicEnvironment, AccessId.AccessOf; cbn; lia).
      eapply (IH _ ws S _ _ _ _ HS Hws); [| |exact Hn|exact H].
      * apply over_Add; [done|]. by apply over_single, Forall_singleton.
      * rewrite Eval_Add, Eval_single. cbn [vars_value foldr].
        change (top DynamicEnvironment (AccessId.AccessOf _ (n - 1))) with (2 ^ (n - 1) - 1).
        assert (2 ^ (n - 1) <= 2 ^ (BandWidth field - 1)) by (apply Z.pow_le_mono_r; lia). lia.
    + apply bind_ok in H as ([[rest ok'] m] & H & [= <- <- <-]). eapply (IH _ ws S _ _ _ _ HS Hws); [exact Hno|lia|exact Hn|exact H].
Qed.

Lemma addCarryLines_fit chunks ws S a res ok a' : S <= 2 ^ (BandWidth field - 1) -> Forall (fun w => w = 1) ws ->
  Forall (fun P => over (sized DynamicEnvironment) P /\ Eval P (top DynamicEnvironment) <= S) chunks ->
  addCarryLines field chunks ws a = Ok (res, ok, a') -> ok = true.
Proof.
  intros HS Hws Hc H. unfold addCarryLines in H. destruct chunks as [|chunk chunks]; [by injection H|]. apply Forall_cons in Hc as [[Ho He] Hc].
  pose proof (Z.pow_pos_nonneg 2 (BandWidth field - 1) ltac:(lia) ltac:(lia)). eapply (carry_lines_fit chunks); [exact HS|exact Hws|exact Ho|lia|exact Hc|exact H].
Qed.

End Ends.

(** ** Which variables are split *)

Section Marks.
Context (field : Config).

Definition too_wide (p : DynamicMonomial) : bool := BandWidth field <? BitLen (evalTerm p (top DynamicEnvironment)).

(** The variables of the terms that are too wide, unless they are bits *)
Definition is_split (P : DynamicPolynomial) (v : AccessId.t) : bool :=
  (1 <? AccessId.bitwidth v) && existsb (fun p => too_wide p && existsb (fun u => (AccessId.id u =? AccessId.id v)%nat) (vars p)) P.

(** A variable in bits counts as many times as it has bits, another one as its largest
    value. *)
Definition split_weight (P : DynamicPolynomial) (v : AccessId.t) : Z :=
  if is_split P v then AccessId.maskwidth v else top DynamicEnvironment v.

Definition spread_in_bits (P : DynamicPolynomial) : Z := spread (split_weight P) P.

Lemma mark_variables_marks w a vs : forall b b', mark_variables w a vs b = Ok b' ->
  (forall rid, BitSet.Contains b rid = true -> BitSet.Contains b' rid = true) /\
  (forall v r, v ∈ vs -> Allocator.Registers a !! AccessId.id v = Some r -> 0 <= Register.width r < 2 ^ 62 -> w < Register.width r -> BitSet.Contains b' (AccessId.id v) = true).
Proof.
  induction vs as [|v vs IH]; intros b b' H; cbn [mark_variables] in H; [injection H as <-; split; [done|intros v r Hv; by apply elem_of_nil in Hv]|].
  apply bind_ok in H as (reg & Hreg & H). apply bind_ok in H as (width & Hwidth & H). apply IH in H as [H1 H2]. split.
  - intros rid Hc. apply H1. destruct (_ <? _); [|done]. by rewrite BitSet.Insert_Contains, Hc, orb_true_r.
  - intros u r [->|Hu]%elem_of_cons Hr Hb Hw; [|by eapply H2]. apply H1. unfold Allocator.Register_, slice_get in Hreg. rewrite Hr in Hreg. injection Hreg as <-.
    rewrite Width_ok in Hwidth by lia. injection Hwidth as <-. destruct (Z.ltb_spec w (Register.width r)); [|lia].
    rewrite BitSet.Insert_Contains, bool_decide_true by done. done.
Qed.

Lemma mark_terms_marks w a P : over (access_ok (Allocator.Registers a)) P -> forall b b', mark_terms field w a P b = Ok b' ->
  (forall rid, BitSet.Contains b rid = true -> BitSet.Contains b' rid = true) /\
  (forall p v r, p ∈ P -> too_wide p = true -> v ∈ vars p -> Allocator.Registers a !! AccessId.id v = Some r -> 0 <= Register.width r < 2 ^ 62 -> w < Register.width r ->
     BitSet.Contains b' (AccessId.id v) = true).
Proof.
  induction P as [|p P IH]; intros HP b b' H; cbn [mark_terms] in H; [injection H as <-; split; [done|intros p v r Hp; by apply elem_of_nil in Hp]|].
  apply over_cons in HP as [[Hc Hv] HP].
  rewrite WidthOfMonomial_top in H by (done || (eapply Forall_impl; [exact Hv|]; intros v; apply access_sized)). cbn [mbind result_bind] in H.
  apply bind_ok in H as (b1 & Hb1 & H). destruct (IH HP _ _ H) as [H1 H2]. fold (too_wide p) in Hb1. split.
  - intros rid Hr. apply H1. destruct (too_wide p); [by eapply mark_variables_marks|by injection Hb1 as <-].
  - intros q v r [->|Hq]%elem_of_cons Hw Hvq Hr Hrw Hlt; [|by eapply H2]. apply H1. rewrite Hw in Hb1. by eapply mark_variables_marks.
Qed.

(** ** The limbs of a splitter *)

(** The limbs that a splitter makes are not wider than its chunks. *)
Record narrow (s : Splitter.t) : Prop := {
  narrow_length : length (Splitter.limbs s) = length (Splitter.limbWidths s);
  narrow_widths : forall rid ids ws, split_of s rid ids ws -> Forall (fun w => w <= Splitter.bitwidth s) ws
}.

Definition has_limbs (s : Splitter.t) (rid : nat) : Prop := exists ids, Splitter.limbs s !! rid = Some (Some ids).

Lemma limb_widths_narrow n m c b ws : limb_widths n m c b = Ok ws -> Forall (fun w => w <= m) ws.
Proof.
  revert b ws. induction n as [|n IH]; intros b ws H; cbn [limb_widths] in H; [by injection H as <-|].
  destruct (Z.ltb_spec m (match n with O => b | S _ => Z.min c b end)); [done|]. apply bind_ok in H as (ws' & H & [= <-]). constructor; [done|by eapply IH].
Qed.

Lemma LimbWidths_narrow m r ws : LimbWidths m r = Ok ws -> Forall (fun w => w <= m) ws.
Proof.
  unfold LimbWidths. intros H. apply bind_ok in H as (c & _ & H). apply bind_ok in H as (n & _ & H). apply bind_ok in H as (l & Hl & H).
  destruct (negb _); [done|]. injection H as <-. by eapply limb_widths_narrow.
Qed.

Lemma grow_keeps {A} (d : A) l rid i x : l !! i = Some x -> Splitter.grow d l rid !! i = Some x.
Proof. intros H. unfold Splitter.grow. destruct (_ <=? _)%nat; [by apply lookup_app_l_Some|done]. Qed.

Lemma SplitVariable_limbs s rid e s' : narrow s -> Splitter.SplitVariable s rid = Ok (e, s') ->
  narrow s' /\ Splitter.bitwidth s' = Splitter.bitwidth s /\ has_limbs s' rid /\ forall r, has_limbs s r -> has_limbs s' r.
Proof.
  intros [Hlen Hws] H. unfold Splitter.SplitVariable in H. apply bind_ok in H as (reg & _ & H). apply bind_ok in H as (width & _ & H).
  apply bind_ok in H as (ws & Hl & H). apply bind_ok in H as ([ids s1] & Ha & H). apply bind_ok in H as (rhs & _ & [= _ <-]).
  unfold Splitter.allocate in Ha. apply bind_ok in Ha as (reg' & _ & Ha). apply bind_ok in Ha as ([ids' m] & _ & [= -> <-]).
  split; [split|split; [done|split]].
  - cbn. rewrite !length_insert. by apply grow_same_length.
  - intros rid' ids' ws' Hsp%split_of_insert; [|done]. cbn [Splitter.bitwidth]. destruct Hsp as [(_ & _ & ->)|Hsp]; [by eapply LimbWidths_narrow|by eapply Hws].
  - exists ids. cbn [Splitter.limbs]. apply list_lookup_insert_eq, grow_arrays_length.
  - intros r [ids' Hr]. destruct (decide (r = rid)) as [->|Hne]; [exists ids|exists ids']; cbn [Splitter.limbs].
    + apply list_lookup_insert_eq, grow_arrays_length.
    + rewrite list_lookup_insert_ne by done. by apply grow_keeps.
Qed.

Lemma split_variables_limbs rids : forall s es s', narrow s -> Splitter.split_variables s rids = Ok (es, s') ->
  narrow s' /\ Splitter.bitwidth s' = Splitter.bitwidth s /\ (forall r, r ∈ rids -> has_limbs s' r) /\ forall r, has_limbs s r -> has_limbs s' r.
Proof.
  induction rids as [|rid rids IH]; intros s es s' Hs H; cbn [Splitter.split_variables] in H.
  { injection H as _ <-. split_and!; try done. intros r Hr. by apply elem_of_nil in Hr. }
  apply bind_ok in H as ([e s1] & H1 & H). apply bind_ok in H as ([es' s2] & H2 & [= _ <-]).
  destruct (SplitVariable_limbs _ _ _ _ Hs H1) as (Hn1 & Hb1 & Hl1 & Hk1). destruct (IH _ _ _ Hn1 H2) as (Hn2 & Hb2 & Hl2 & Hk2).
  split_and!; [done|congruence| |auto]. intros r [->|Hr]%elem_of_cons; auto.
Qed.

(** Limbs of one bit weigh as much as the bits that are read. *)
Lemma limb_terms_weight sh ids : forall m width ws T, limb_terms m sh width ids ws = Ok T -> 0 <= m -> Forall (fun w => 0 <= w <= 1) ws -> spread weight T <= m.
Proof.
  induction ids as [|i ids IH]; intros m width ws T H Hm Hws; cbn [limb_terms] in H; [by injection H as <-|].
  destruct Hws as [|w ws Hw Hws]; [done|]. destruct (Z.ltb_spec 0 (Z.min m w)) as [Hlt|Hge].
  - apply bind_ok in H as (v & Hv & H). apply bind_ok in H as (T' & HT & [= <-]). apply IH in HT; [|lia|done].
    rewrite spread_cons. assert (Hvw : weight v = 1).
    { unfold AccessId.Mask in Hv. destruct (_ <? _); [done|]. injection Hv as <-. unfold weight, top, DynamicEnvironment. cbn [AccessId.maskwidth].
      replace (Z.min m w) with 1 by lia. done. }
    replace (vars_value weight (vars (NewMonomial (Pow.Pow2 width) [v]))) with 1; [lia|]. cbn. lia.
  - apply IH in H; [lia|lia|done].
Qed.

(** What replaces a variable *)
Lemma replacement_weight s v o : splitter_ok s -> narrow s -> Splitter.bitwidth s = 1 -> sized DynamicEnvironment v -> Splitter.replacement s v = Ok o ->
  spread weight (default (variable v) o) <= weight v /\
  (has_limbs s (AccessId.id v) -> spread weight (default (variable v) o) <= AccessId.maskwidth v).
Proof.
  intros Hok [_ Hn] Hbw Hv H. unfold Splitter.replacement in H. pose proof (spread_variable weight weight_ge v) as Hvar.
  assert (Hnone : o = None -> ~ has_limbs s (AccessId.id v) -> spread weight (default (variable v) o) <= weight v /\
    (has_limbs s (AccessId.id v) -> spread weight (default (variable v) o) <= AccessId.maskwidth v)) by (intros -> ?; split; [exact Hvar|done]).
  unfold has_limbs in *. destruct (Splitter.limbs s !! AccessId.id v) as [[ids|]|] eqn:Hids.
  2,3: (injection H as <-; apply Hnone; [done|by intros [? ?]]).
  apply bind_ok in H as (ws & Hws & H). apply bind_ok in H as (rp & Hrp & [= <-]). unfold slice_get in Hws. destruct (Splitter.limbWidths s !! _) as [ws'|] eqn:Hw; [|done]. injection Hws as ->.
  pose proof (Hn _ _ _ (conj Hids Hw)) as Hone. rewrite Hbw in Hone.
  pose proof (limb_widths_ok _ _ _ (splitter_limbs _ Hok _ _ _ (conj Hids Hw))) as Hpos. unfold LimbPolynomial in Hrp. destruct (limb_terms _ _ _ _ _) as [T|] eqn:HT; [|done]. injection Hrp as <-.
  cbn [default]. assert (Hle : spread weight (Set_ T) <= AccessId.maskwidth v).
  { etrans; [apply spread_Set, weight_ge|]. eapply limb_terms_weight; [exact HT|apply Hv|]. apply Forall_and. by split. }
  split; [|done]. etrans; [exact Hle|]. rewrite weight_top by done. unfold top, sized, DynamicEnvironment in *. destruct Hv as [Hv _]. clear -Hv.
  assert (H := Z.pow_gt_lin_r 2 (AccessId.maskwidth v) ltac:(lia) Hv). lia.
Qed.

Lemma mapM_each {A B} (f : A -> result B) l os : mapM f l = Ok os -> forall x, x ∈ l -> exists o, f x = Ok o.
Proof.
  revert os. induction l as [|y l IH]; intros os H x Hx; [by apply elem_of_nil in Hx|]. cbn [mapM] in H.
  apply bind_ok in H as (o & Ho & H). apply bind_ok in H as (os' & Hos & _). apply elem_of_cons in Hx as [->|Hx]; [by exists o|by eapply IH].
Qed.

Lemma Apply_spread s P Q : splitter_ok s -> narrow s -> Splitter.bitwidth s = 1 -> vars_in (sized DynamicEnvironment) P ->
  (forall v, v ∈ P ≫= vars -> is_split P v = true -> has_limbs s (AccessId.id v)) ->
  Splitter.Apply s P = Ok Q -> spread weight Q <= spread_in_bits P.
Proof.
  intros Hok Hn Hbw Hs Hl H. unfold Splitter.Apply in H. apply bind_ok in H as (os & Hos & [= <-]). unfold spread_in_bits, spread.
  apply spread_SubstitutePolynomial; [apply weight_ge|]. apply Forall_forall. intros p Hp. apply Forall_forall. intros v Hv.
  assert (Hin : v ∈ P ≫= vars) by (apply list_elem_of_bind; by exists p). destruct (mapM_each _ _ _ Hos v Hin) as [o Ho]. rewrite Ho.
  unfold vars_in in Hs. rewrite Forall_forall in Hs. specialize (Hs p Hp). rewrite Forall_forall in Hs. specialize (Hs v Hv).
  destruct (replacement_weight s v o Hok Hn Hbw Hs Ho) as [H1 H2]. unfold split_weight. destruct (is_split P v) eqn:Hsp; [by apply H2, Hl|].
  by rewrite <- weight_top.
Qed.

Lemma splitNonLinearTerms_spread P a Q es a' : alloc_ok a -> over (access_ok (Allocator.Registers a)) P ->
  splitNonLinearTerms field 1 P a = Ok (Q, es, a') -> spread weight Q <= spread_in_bits P.
Proof.
  intros Ha HP H. unfold splitNonLinearTerms in H. apply bind_ok in H as (b & Hb & H). apply bind_ok in H as ([es' s] & Hs & H). apply bind_ok in H as (q & Hq & [= -> _ _]).
  set (src := fun rid => rid ∈ AccessId.id <$> (P ≫= vars)).
  assert (Hsrc : vars_in (fun v => src (AccessId.id v)) P).
  { apply Forall_forall. intros p Hp. apply Forall_forall. intros v Hv. apply list_elem_of_fmap_2, list_elem_of_bind. by exists p. }
  destruct (mark_terms_spec src field 1 a P _ Ha ltac:(lia) HP Hsrc (marked_empty src a)) as (b' & Hb' & Hmk). rewrite Hb in Hb'. injection Hb' as <-.
  destruct (mark_terms_marks 1 a P HP _ _ Hb) as [_ Hmarks].
  unfold Splitter.SplitVariables in Hs. destruct (Collect_marked src a b Hmk) as (rids & Hrids & Hsp). rewrite Hrids in Hs.
  assert (Hall : forall rid, BitSet.Contains b rid = true -> rid ∈ rids).
  { intros rid Hc. destruct Hmk as [Hwf _].
    assert (Hc' : BitSet.Collect (BitSet.Iter b) = Some (BitSet.elements_from (BitSet.words b) 0)) by (apply BitSet.collect_spec; [by destruct b|cbn; lia]).
    rewrite Hrids in Hc'. injection Hc' as ->. by apply BitSet.elements_from_Contains. }
  assert (Hnone : forall rid ids ws, ~ split_of (Splitter.NewVariableSplitter a 1) rid ids ws) by (by intros rid ids ws [H' _]).
  destruct (split_variables_spec (fun _ => True) 0 ltac:(done) src (Splitter.NewVariableSplitter a 1) rids) as (es2 & s2 & Hs2 & [Hok _ _ _ _ _ _]); [cbn; lia| |exact Hsp|].
  { split; [done|cbn; lia|done|]. intros rid ids ws H'. by apply Hnone in H'. }
  rewrite Hs in Hs2. injection Hs2 as <- <-.
  assert (Hn0 : narrow (Splitter.NewVariableSplitter a 1)) by (split; [done|]; intros rid ids ws H'; by apply Hnone in H').
  destruct (split_variables_limbs rids _ _ _ Hn0 Hs) as (Hn & Hbw & Hlimbs & _).
  eapply (Apply_spread s); [exact Hok|exact Hn|exact Hbw| | |exact Hq].
  - eapply vars_in_impl; [|apply HP]. intros v. apply access_sized.
  - intros v Hv Hsplit. apply Hlimbs, Hall. unfold is_split in Hsplit. apply andb_prop in Hsplit as [Hw%Z.ltb_lt Hex].
    apply existsb_exists in Hex as (p & Hp%list_elem_of_In & [Hwide Hu]%andb_prop). apply existsb_exists in Hu as (u & Hu%list_elem_of_In & Hid%Nat.eqb_eq).
    rewrite <- Hid. pose proof (over_vars _ _ HP) as Hvs. rewrite Forall_forall in Hvs. destruct (Hvs v Hv) as (r & Hr & Hbr & Hm & Hlt).
    eapply Hmarks; [exact Hp|exact Hwide|exact Hu|rewrite Hid; exact Hr|lia|lia].
Qed.

(** ** The round of one bit *)

Context (Hconfig : 1 <= RegisterWidth field < 2 ^ 62 /\ 1 <= BandWidth field < 2 ^ 62).

Definition fits_in_bits (p : Equation.t) : Prop :=
  spread_in_bits (LeftHandSide p) <= 2 ^ (BandWidth field - 1) /\ spread_in_bits (RightHandSide p) <= 2 ^ (BandWidth field - 1).

Lemma chunk_round_bits p a o a' : alloc_ok a -> over (access_ok (regs a)) (LeftHandSide p) -> over (access_ok (regs a)) (RightHandSide p) ->
  fits_in_bits p -> chunk_round field p 1 a = Ok (o, a') -> is_Some o.
Proof.
  intros Ha Hl Hr [Hfl Hfr] H. unfold chunk_round, determineChunkBitwidths in H. destruct (Width_spec a p Hl Hr) as (w & Hw & Hpos & _ & _). rewrite Hw in H.
  cbn [mbind result_bind] in H. destruct (chunk_widths_spec (Z.to_nat w) 1 w) as (ws & Hws & Hone & _); [lia..|]. rewrite Hws in H. cbn [mbind result_bind] in H.
  assert (Hws1 : Forall (fun w => w = 1) ws) by (eapply Forall_impl; [exact Hone|]; cbn; lia). clear Hone.
  destruct (splitNonLinearTerms_spec (fun _ => True) 0 ltac:(done) field 1 (LeftHandSide p) a) as (L & les & a1 & HL & [[E1 A1 _] HoL _ _ _ _]); [lia|done|lia|done|].
  rewrite HL in H. cbn [mbind result_bind] in H. assert (Hr1 : over (access_ok (regs a1)) (RightHandSide p)) by (eapply over_impl; [|exact Hr]; intros v; by apply access_extends).
  destruct (splitNonLinearTerms_spec (fun _ => True) 0 ltac:(done) field 1 (RightHandSide p) a1) as (R & res & a2 & HR & [_ HoR _ _ _ _]); [lia|done|lia|done|].
  rewrite HR in H. cbn [mbind result_bind] in H. apply splitNonLinearTerms_spread in HL; [|done|done]. apply splitNonLinearTerms_spread in HR; [|done|done].
  destruct (chunkEquation_bits ws Hws1 L R) as [HcL HcR]; [by eapply over_sized|by eapply over_sized|]. destruct (chunkEquation L R ws) as [lc rc]. cbn [fst snd] in *.
  apply bind_ok in H as ([[lhs lok] a3] & H1 & H). apply bind_ok in H as ([[rhs rok] a4] & H2 & H).
  rewrite (addCarryLines_fit field ltac:(lia) lc ws (spread weight L) a2 lhs lok a3 ltac:(lia) Hws1 HcL H1) in H.
  rewrite (addCarryLines_fit field ltac:(lia) rc ws (spread weight R) a3 rhs rok a4 ltac:(lia) Hws1 HcR H2) in H. injection H as <- _. by eexists.
Qed.

Lemma chunk_loop_ends fuel p cw a : alloc_ok a -> over (access_ok (regs a)) (LeftHandSide p) -> over (access_ok (regs a)) (RightHandSide p) ->
  fits_in_bits p -> 1 <= cw < 2 ^ 62 -> cw < 2 ^ Z.of_nat fuel -> is_ok (chunk_loop field fuel (length (regs a)) p cw a) = true.
Proof.
  intros Ha Hl Hr Hf. revert cw. induction fuel as [|fuel IH]; intros cw Hcw Hlt; [cbn in Hlt; lia|]. cbn [chunk_loop].
  assert (Hcfg : 1 <= RegisterWidth field < 2 ^ 62 /\ 0 <= BandWidth field < 2 ^ 62) by lia.
  destruct (chunk_round_spec field Hcfg p cw a Ha Hcw Hl Hr) as (o & a' & Hround & Hst & _). rewrite Hround. cbn [mbind result_bind].
  destruct o as [[[lhs rhs] context]|]; [done|]. rewrite (Reset_extends a a' Ha (steps_extends _ _ _ Hst)). cbn [mbind result_bind].
  destruct (decide (cw = 1)) as [->|Hne]; [by destruct (chunk_round_bits p a _ _ Ha Hl Hr Hf Hround)|].
  rewrite Nat2Z.inj_succ, Z.pow_succ_r in Hlt by lia. pose proof (Z.div_mod cw 2 ltac:(lia)). pose proof (Z.mod_pos_bound cw 2 ltac:(lia)). apply IH; lia.
Qed.

End Marks.

Module EndsProperties.

(** C7: Splitting returns for every equation of which each side, balanced, adds up to
    at most half of the bandwidth when coefficients are left out and variables of
    terms too wide count as many times as they have bits; what it returns is what
    the theorem on splitting says.  The coefficients do not matter, and the sizes of
    the variables that are split hardly do. *)
Theorem equation_split_returns (field : Config) (p : Equation.t) (rs : list Register.t) :
  config_ok field -> 1 <= BandWidth field -> Forall (fun r => 0 <= Register.width r < 2 ^ 62) rs -> equation_in (access_ok rs) p ->
  fits_in_bits field (Balance p) ->
  exists targets context a, Split field p (Allocator.NewAllocator rs) = Ok (targets, context, a) /\
    split_exact p (Allocator.NewAllocator rs) targets context a.
Proof.
  intros Hc Hb Hrs Hp Hf. pose proof (NewAllocator_ok rs Hrs) as Ha.
  destruct (Split_spec field Hc p (Allocator.NewAllocator rs) Ha Hp) as [H|H]; [exfalso|exact H].
  unfold Split in H. destruct (Balance_spec p) as [Hbo _]. destruct (Hbo _ Hp) as [Hl Hr]. unfold config_ok in Hc.
  destruct (Width_spec (Allocator.NewAllocator rs) (Balance p) Hl Hr) as (w & Hw & _). rewrite Hw in H. cbn [mbind result_bind] in H.
  destruct (BandWidth field <? w); [|done]. unfold chunkUp in H.
  pose proof (chunk_loop_ends field ltac:(lia) 65 (Balance p) (RegisterWidth field) (Allocator.NewAllocator rs) Ha Hl Hr Hf ltac:(lia)) as He.
  rewrite H in He. discriminate He. cbn. lia.
Qed.

(** A product of words of 256 bits, over a field with a bandwidth of 30 bits *)
Definition word256 (name : string) : Register.t := Register.NewComputed name 256 0.
Definition words : list Register.t := [word256 "x"; word256 "y"; word256 "z"].
Definition product : Equation.t :=
  NewEquation (Set_ [NewMonomial 1 [AccessId.AccessOf 0 256; AccessId.AccessOf 1 256]; NewMonomial (- (2 ^ 128)) []]) (Set_ [NewMonomial 1 [AccessId.AccessOf 2 256]]).

Lemma product_in : equation_in (access_ok words) product.
Proof. apply (equation_inb_spec _ _ _ (access_okb_spec words)). vm_compute. reflexivity. Qed.

Lemma equation_split_returns_witness : exists targets context a, Split KOALABEAR_16 product (Allocator.NewAllocator words) = Ok (targets, context, a).
Proof.
  destruct (equation_split_returns KOALABEAR_16 product words) as (targets & context & a & H & _).
  - split; cbn; lia.
  - cbn. lia.
  - repeat constructor; cbn; lia.
  - exact product_in.
  - split; vm_compute; discriminate.
  - by exists targets, context, a.
Defined.

End EndsProperties.
