(* ===== verification/Bitwidth.v ===== *)
(** * The gadget for bit widths

    Models [pkg/ir/schema_builder.go] (without external modules, of which the lowering
    has none), the gadget of [pkg/ir/air/gadgets/bitwidth.go] with the assignment of its
    proof modules, and the lowering of range constraints in [pkg/ir/mir/lower.go].  A
    register of a few bits gets a constraint of its own; a wider one is looked up in
    a module for its width, which splits its values in two limbs and constrains the
    limbs in turn. *)

From Stdlib Require Import ZArith Lia.
From stdpp Require Import base numbers list option strings gmap pretty.
From S2P Require Import Prelude Interval Register Hash Element Trace Term Constraint Lookup Air.

Open Scope Z_scope.

#[export] Instance ModuleName_countable : Countable ModuleName.
Proof.
  apply (inj_countable' (fun n => (Name n, Multiplier n)) (fun '(n, m) => mkName n m)). by intros [].
Defined.

(** [register.Ref] *)
Record Ref : Type := NewRef { ref_module : nat; ref_register : ColumnId }.

(** The assignment of a proof module: the widths of the limbs, the registers whose
    values it proves, and its own three registers *)
Record typeDecomposition : Type := mkDecomposition {
  loWidth : Z;
  hiWidth : Z;
  sources : list Ref;
  targets : list Ref
}.

Definition AddSource (d : typeDecomposition) (source : Ref) : typeDecomposition :=
  mkDecomposition (loWidth d) (hiWidth d) (sources d ++ [source]) (targets d).

(** ** The builder of a schema ([schema_builder.go])

    The modules of the schema are pointers, with the index as the name.  The
    decomposition of a proof module, its first assignment, is kept beside it. *)

Module Schema.

Record t (F : Type) : Type := mk {
  modmap : gmap ModuleName nat;
  modules : list (Builder.t F);
  decompositions : gmap nat typeDecomposition
}.
Arguments mk {F}.
Arguments modmap {F}.
Arguments modules {F}.
Arguments decompositions {F}.

Section Ops.
Context {F : Type}.
Implicit Types (p : t F).

Definition NewSchemaBuilder : t F := mk ∅ [] ∅.

Definition NewModule p (name : ModuleName) (padding public synthetic static native : bool) (keys : nat) : result (nat * t F) :=
  let mid := length (modules p) in
  match modmap p !! name with
  | Some _ => Fault (Panic "module already declared")
  | None =>
      Ok (mid, mk (<[name := mid]> (modmap p))
                 (modules p ++ [Builder.NewModuleBuilder name mid padding public synthetic static native keys]) (decompositions p))
  end.

Definition HasModule p (name : ModuleName) : option nat := modmap p !! name.

Definition Module_of p (mid : nat) : result (Builder.t F) := slice_get (modules p) mid.

(** A call of a method that changes a module *)
Definition update_module p (mid : nat) (b : Builder.t F) : t F :=
  mk (modmap p) (<[mid := b]> (modules p)) (decompositions p).

Definition AddConstraint p (mid : nat) (c : AirConstraint F) : result (t F) :=
  module ← Module_of p mid; Ok (update_module p mid (Builder.AddConstraint module c)).

Definition NewRegister p (mid : nat) (reg : Register.t) : result (nat * t F) :=
  module ← Module_of p mid; '(id, module) ← Builder.NewRegister module reg; Ok (id, update_module p mid module).

Definition Register_of p (ref : Ref) : result Register.t := module ← Module_of p (ref_module ref); Builder.Register_ module (ref_register ref).

(** The first assignment as a decomposition; another kind of assignment has the wrong
    type. *)
Definition first_decomposition p (mid : nat) : result typeDecomposition :=
  module ← Module_of p mid;
  match decompositions p !! mid, Builder.assignments module with
  | Some d, _ => Ok d
  | None, [] => Fault index_panic
  | None, _ :: _ => Fault (Panic "interface conversion")
  end.

(** The decomposition of a proof module is added, and replaced when it changes. *)
Definition AddAssignment p (mid : nat) (d : typeDecomposition) : t F :=
  mk (modmap p) (modules p) (<[mid := d]> (decompositions p)).

End Ops.
End Schema.

(** ** Limbs *)

(** The loop of [determineLimbSplit]: the power of two from the pivot on, and the one
    before it; the doubling does not wrap around below [2^63]. *)
Fixpoint nearest_powers (fuel : nat) (pivot loMaxWidth loMinWidth : Z) : result (Z * Z) :=
  match fuel with
  | O => Fault OutOfFuel
  | S fuel => if loMaxWidth <? pivot then nearest_powers fuel pivot (u64 (loMaxWidth * 2)) loMaxWidth else Ok (loMaxWidth, loMinWidth)
  end.

Definition determineLimbSplit (bitwidth : Z) : result (Z * Z) :=
  let pivot := bitwidth / 2 in
  '(loMaxWidth, loMinWidth) ← nearest_powers 65 pivot 1 1;
  let lowerDelta := u64 (pivot - loMinWidth) in
  let upperDelta := u64 (loMaxWidth - pivot) in
  if lowerDelta <? upperDelta then Ok (loMinWidth, u64 (bitwidth - loMinWidth)) else Ok (loMaxWidth, u64 (bitwidth - loMaxWidth)).

(** ** The gadget *)

Section Gadget.
Context {F : Type} `{!Element F} (maxRangeConstraint : Z).
Implicit Types (p : Schema.t F).

Definition applyZeroGadget p (ref : Ref) : result (Schema.t F) :=
  module ← Schema.Module_of p (ref_module ref);
  reg ← Builder.Register_ module (ref_register ref);
  width ← Register.Width reg;
  let X := RegisterAccess (Access.RawRegisterAccess (ref_register ref) width 0) in
  let X_eq0 := Subtract [X; Const64 0] in
  Schema.AddConstraint p (ref_module ref) (NewVanishingConstraint (Register.name reg +:+ ":u0") (Builder.moduleId module) None X_eq0).

Definition applyBinaryGadget p (ref : Ref) : result (Schema.t F) :=
  module ← Schema.Module_of p (ref_module ref);
  reg ← Builder.Register_ module (ref_register ref);
  width ← Register.Width reg;
  let X := RegisterAccess (Access.RawRegisterAccess (ref_register ref) width 0) in
  let X_eq0 := Subtract [X; Const64 0] in
  let X_eq1 := Subtract [X; Const64 1] in
  let X_X_m1 := Product [X_eq0; X_eq1] in
  Schema.AddConstraint p (ref_module ref) (NewVanishingConstraint (Register.name reg +:+ ":u1") (Builder.moduleId module) None X_X_m1).

Definition width_name (bitwidth : Z) : string := "u" +:+ pretty bitwidth.

(** The third case of [Constrain] *)
Definition applyRangeConstraint p (ref : Ref) (bitwidth : Z) : result (Schema.t F) :=
  module ← Schema.Module_of p (ref_module ref);
  reg ← Builder.Register_ module (ref_register ref);
  width ← Register.Width reg;
  let access := Access.RawRegisterAccess (ref_register ref) width 0 in
  Schema.AddConstraint p (ref_module ref)
    (NewRangeConstraint (Register.name reg +:+ ":" +:+ width_name bitwidth) (Builder.moduleId module) [access] [bitwidth]).

(** The constraint that the limbs make up the value *)
Definition decomposition_constraint (mid vid vidLo vidHi : nat) (bitwidth loWidth hiWidth : Z) : AirConstraint F :=
  let V := RegisterAccess (Access.RawRegisterAccess (Some vid) bitwidth 0) in
  let Lo := RegisterAccess (Access.RawRegisterAccess (Some vidLo) loWidth 0) in
  let Hi := RegisterAccess (Access.RawRegisterAccess (Some vidHi) hiWidth 0) in
  NewVanishingConstraint "decomposition" mid None (Subtract [V; Sum [Lo; Product [Constant (TwoPowN loWidth); Hi]]]).

(** The calls of [Constrain] are recursive. *)
Definition constructTypeProof (constrain : Schema.t F -> Ref -> Z -> result (Schema.t F)) p (handle : ModuleName) (bitwidth : Z)
    : result (nat * Schema.t F) :=
  '(mid, p) ← Schema.NewModule p handle false false true false false 0;
  '(loWidth, hiWidth) ← determineLimbSplit bitwidth;
  '(vid, p) ← Schema.NewRegister p mid (Register.NewComputed "V" bitwidth 0);
  '(vidLo, p) ← Schema.NewRegister p mid (Register.NewComputed "V'0" loWidth 0);
  '(vidHi, p) ← Schema.NewRegister p mid (Register.NewComputed "V'1" hiWidth 0);
  p ← Schema.AddConstraint p mid (decomposition_constraint mid vid vidLo vidHi bitwidth loWidth hiWidth);
  p ← constrain p (NewRef mid (Some vidLo)) loWidth;
  p ← constrain p (NewRef mid (Some vidHi)) hiWidth;
  Ok (mid, Schema.AddAssignment p mid
             (mkDecomposition loWidth hiWidth [] [NewRef mid (Some vid); NewRef mid (Some vidLo); NewRef mid (Some vidHi)])).

Definition applyRecursiveBitwidthGadget (constrain : Schema.t F -> Ref -> Z -> result (Schema.t F)) p (ref : Ref) (bitwidth : Z)
    : result (Schema.t F) :=
  let proofHandle := mkName (width_name bitwidth) 1 in
  mod_ ← Schema.Module_of p (ref_module ref);
  reg ← Builder.Register_ mod_ (ref_register ref);
  '(mid, p) ← (match Schema.HasModule p proofHandle with Some mid => Ok (mid, p) | None => constructTypeProof constrain p proofHandle bitwidth end);
  width ← Register.Width reg;
  let source := Access.RawRegisterAccess (ref_register ref) width 0 in
  let target := Access.RawRegisterAccess (Some 0%nat) bitwidth 0 in
  c ← NewLookupConstraint (Register.name reg +:+ ":" +:+ width_name bitwidth) [UnfilteredVector mid [target]]
        [UnfilteredVector (Builder.moduleId mod_) [source]];
  p ← Schema.AddConstraint p (ref_module ref) c;
  decomposition ← Schema.first_decomposition p mid;
  Ok (Schema.AddAssignment p mid (AddSource decomposition ref)).

(** The widths of the limbs decrease. *)
Fixpoint Constrain (fuel : nat) p (ref : Ref) (bitwidth : Z) : result (Schema.t F) :=
  match fuel with
  | O => Fault OutOfFuel
  | S fuel =>
      _ ← Schema.Register_of p ref;
      if bitwidth =? 0 then applyZeroGadget p ref
      else if bitwidth <=? 1 then applyBinaryGadget p ref
      else if bitwidth <=? maxRangeConstraint then applyRangeConstraint p ref bitwidth
      else applyRecursiveBitwidthGadget (Constrain fuel) p ref bitwidth
  end.

Definition constrain_fuel (bitwidth : Z) : nat := S (Z.to_nat bitwidth).

(** [lowerRangeConstraintToAir]: only the registers of the accesses matter. *)
Fixpoint lower_ranges p (mid : nat) (terms : list Access.t) (bitwidths : list Z) : result (Schema.t F) :=
  match terms, bitwidths with
  | [], _ => Ok p
  | _ :: _, [] => Fault index_panic
  | e :: terms, bitwidth :: bitwidths =>
      p ← Constrain (constrain_fuel bitwidth) p (NewRef mid (Access.register e)) bitwidth;
      lower_ranges p mid terms bitwidths
  end.

Definition lowerRangeConstraintToAir p (mid : nat) (v : Ranged.Constraint Access.t) : result (Schema.t F) :=
  lower_ranges p mid (Ranged.Sources v) (Ranged.Bitwidths v).

End Gadget.

(** ** The columns of a proof module *)

Section Compute.
Context {F : Type} `{!Element F, !Hasher F}.

(** A value is added unless it was seen. *)
Definition add_unseen (st : list F * HashSet.t F) (ith : F) : list F * HashSet.t F :=
  let (arr, seen) := st in
  if HashSet.Contains seen ith then (arr, seen) else (arr ++ [ith], snd (HashSet.Insert seen ith)).

Definition combineSources (sources : list (list F)) (padding : list F) : result (list F) :=
  first ← slice_get sources 0;
  let start := ([], HashSet.NewSet (length first)) in
  Ok (fst (foldl add_unseen (foldl (foldl add_unseen) start sources) padding)).

(** The last bytes are those of the low limb. *)
Definition decompose (loWidth : Z) (ith : F) : result (F * F) :=
  let bytes := e_Bytes ith in
  let loByteWidth := Z.to_nat (loWidth / 8) in
  let n := length bytes in
  if negb (loWidth mod 8 =? 0) then Fault (Panic "unreachable")
  else if (n <=? loByteWidth)%nat then Ok (e_SetBytes bytes, e_zero)
  else
    let n := (n - loByteWidth)%nat in
    Ok (e_SetBytes (drop n bytes), e_SetBytes (take n bytes)).

Definition computeDecomposition (loWidth : Z) (vArr : list F) : result (list F * list F * list F) :=
  limbs ← mapM (decompose loWidth) vArr;
  Ok (vArr, limbs.*1, limbs.*2).

(** The data and the padding of the registers ([assignment/util.go]) *)
Definition ReadRegistersRef (tr : list (ArrayModule F)) (regs : list Ref) : result (list (list F)) :=
  mapM (fun ref => m ← Module_ tr (ref_module ref); r ← Unwrap (ref_register ref); c ← Column m r; contents c) regs.

Definition ReadPadding (tr : list (ArrayModule F)) (regs : list Ref) : result (list F) :=
  mapM (fun ref => m ← Module_ tr (ref_module ref); r ← Unwrap (ref_register ref); c ← Column m r; Ok (padding c)) regs.

(** [typeDecomposition.Compute] *)
Definition Compute_decomposition (p : typeDecomposition) (tr : list (ArrayModule F)) : result (list F * list F * list F) :=
  data ← ReadRegistersRef tr (sources p);
  padding ← ReadPadding tr (sources p);
  combined ← combineSources data padding;
  computeDecomposition (loWidth p) combined.

End Compute.
