(* ===== verification/BitwidthFacts.v ===== *)
(** * What the gadget for bit widths enforces

    A trace that satisfies the constraints which the gadget adds has no value of more
    bits in the register.  This holds for any values of the columns of the proof
    modules, also when the sum of the limbs wraps around the prime.  The invariant of
    the schema is that each proof module that is finished enforces its width. *)

From Stdlib Require Import ZArith Lia Znumtheory.
From stdpp Require Import base numbers list option strings gmap pretty.
From S2P Require Import Prelude BitSet FieldElement Interval Register Iter Hash Element Trace Term TermFacts TermReads Simplify Constraint ConstraintFacts Lookup LookupFacts Air Lower LowerTerms LowerNames LowerFacts Bitwidth.

Open Scope Z_scope.

(** ** Limbs *)

(** The power of two before a power, or one *)
Definition power_before (j : Z) : Z := if j =? 0 then 1 else 2 ^ (j - 1).

Lemma nearest_powers_spec fuel pivot j :
  0 <= j <= 62 -> 62 - j < Z.of_nat fuel -> pivot <= 2 ^ 62 -> j = 0 \/ power_before j < pivot ->
  exists j', 0 <= j' <= 62 /\ nearest_powers fuel pivot (2 ^ j) (power_before j) = Ok (2 ^ j', power_before j') /\
    pivot <= 2 ^ j' /\ (j' = 0 \/ power_before j' < pivot).
Proof.
  revert j. induction fuel as [|fuel IH]; intros j Hj Hfuel Hpivot Hlow; [lia|]. cbn [nearest_powers].
  destruct (Z.ltb_spec (2 ^ j) pivot) as [Hlt|Hge]; [|by exists j].
  assert (Hj62 : j < 62) by (apply (Z.pow_lt_mono_r_iff 2); lia).
  assert (Hdouble : 2 ^ j * 2 = 2 ^ (j + 1)) by (rewrite Z.pow_add_r; lia).
  pose proof (Z.pow_le_mono_r 2 (j + 1) 62 ltac:(lia) ltac:(lia)). pose proof (Z.pow_nonneg 2 (j + 1)).
  rewrite Hdouble, u64_small by lia.
  assert (Hbefore : power_before (j + 1) = 2 ^ j).
  { unfold power_before. destruct (Z.eqb_spec (j + 1) 0); [lia|]. f_equal. lia. }
  rewrite <-Hbefore. apply IH; [lia|lia|done|]. right. by rewrite Hbefore.
Qed.

(** A power of two and what is left; the low limb is made up of bytes unless the
    width is below two bytes. *)
Lemma determineLimbSplit_spec bw : 2 <= bw < 2 ^ 62 ->
  exists lo, determineLimbSplit bw = Ok (lo, bw - lo) /\ 1 <= lo < bw /\ (exists j, 0 <= j /\ lo = 2 ^ j) /\ (16 <= bw -> lo mod 8 = 0).
Proof.
  intros Hbw. unfold determineLimbSplit. set (pivot := bw / 2).
  assert (Hpivot : 1 <= pivot /\ 2 * pivot <= bw /\ bw < 2 * pivot + 2).
  { unfold pivot. pose proof (Z.div_mod bw 2). pose proof (Z.mod_pos_bound bw 2). lia. }
  destruct (nearest_powers_spec 65 pivot 0) as (j & Hj & Hrun & Hup & Hlow); [lia|lia|lia|by left|].
  change (2 ^ 0) with 1 in Hrun. change (power_before 0) with 1 in Hrun. rewrite Hrun. cbn [mbind result_bind].
  pose proof (Z.pow_pos_nonneg 2 j ltac:(lia) ltac:(lia)).
  pose proof (Z.pow_le_mono_r 2 j 62 ltac:(lia) ltac:(lia)).
  assert (Hm : 1 <= power_before j <= pivot /\ (j <> 0 -> 2 * power_before j = 2 ^ j)).
  { unfold power_before in *. destruct (Z.eqb_spec j 0) as [->|Hne]; [lia|].
    assert (2 ^ j = 2 * 2 ^ (j - 1)) by (rewrite <-Z.pow_succ_r by lia; f_equal; lia). lia. }
  assert (Hpow : exists i, 0 <= i /\ power_before j = 2 ^ i).
  { unfold power_before. destruct (Z.eqb_spec j 0); [by exists 0|]. exists (j - 1). lia. }
  assert (Hbytes : forall i, 3 <= i -> 2 ^ i mod 8 = 0).
  { intros i Hi. replace i with (i - 3 + 3) by lia. rewrite Z.pow_add_r by lia. apply Z.mod_mul. lia. }
  assert (Hbig : 16 <= bw -> 3 <= j).
  { intros Hb. destruct (Z.le_gt_cases 3 j); [done|]. assert (2 ^ j <= 2 ^ 2) by (apply Z.pow_le_mono_r; lia). lia. }
  destruct (Z.eqb_spec j 0) as [->|Hne].
  { change (power_before 0) with 1. change (2 ^ 0) with 1 in *. exists 1.
    assert (Hp1 : pivot = 1) by lia. rewrite Hp1, !u64_small by lia. split; [done|]. split; [lia|]. split; [by exists 0|lia]. }
  rewrite !(u64_small) by lia. destruct (Z.ltb_spec (pivot - power_before j) (2 ^ j - pivot)).
  - exists (power_before j). split; [done|]. split; [lia|]. split; [done|]. intros Hb. specialize (Hbig Hb).
    assert (j <> 3) by (intros ->; change (power_before 3) with 4 in *; change (2 ^ 3) with 8 in *; lia).
    unfold power_before. destruct (Z.eqb_spec j 0); [lia|]. apply Hbytes. lia.
  - exists (2 ^ j). split; [done|]. split; [lia|]. split; [exists j; lia|]. intros Hb. by apply Hbytes, Hbig.
Qed.

(** ** The schema grows *)

Section Growth.
Context {F : Type}.
Implicit Types (S : Schema.t F) (b : Builder.t F).

Lemma extends_chain b1 b2 b3 : extends b1 b2 -> extends b2 b3 -> extends b1 b3.
Proof. intros [Hr Hc] [Hr' Hc']. split; [by etransitivity|set_solver]. Qed.

Record grows S S' : Prop := {
  gr_names : Schema.modmap S ⊆ Schema.modmap S';
  gr_modules i b : Schema.modules S !! i = Some b -> exists b', Schema.modules S' !! i = Some b' /\ extends b b' /\ Builder.moduleId b' = Builder.moduleId b
}.

#[global] Instance grows_preorder : PreOrder grows.
Proof.
  split.
  - intros S. split; [done|]. intros i b Hb. exists b. split; [done|]. split; [apply extends_refl|done].
  - intros S1 S2 S3 [Hn Hm] [Hn' Hm']. split; [by etransitivity|]. intros i b Hb.
    destruct (Hm i b Hb) as (b2 & Hb2 & He & Hid). destruct (Hm' i b2 Hb2) as (b3 & Hb3 & He' & Hid').
    exists b3. split; [done|]. split; [by eapply extends_chain|congruence].
Qed.

Lemma grows_length S S' : grows S S' -> (length (Schema.modules S) <= length (Schema.modules S'))%nat.
Proof.
  intros [_ Hm]. destruct (length (Schema.modules S)) as [|n] eqn:Hl; [lia|].
  destruct (lookup_lt_is_Some_2 (Schema.modules S) n) as [b Hb]; [lia|]. destruct (Hm n b Hb) as (b' & Hb' & _).
  apply lookup_lt_Some in Hb'. lia.
Qed.

(** The register exists and has a width. *)
Definition register_ok S (ref : Ref) : Prop :=
  exists b reg, Schema.modules S !! ref_module ref = Some b /\ Builder.Register_ b (ref_register ref) = Ok reg /\
    Register.IsNative reg = false /\ 0 <= Register.width reg.

Lemma register_grows S S' ref : grows S S' -> register_ok S ref -> register_ok S' ref.
Proof.
  intros Hg (b & reg & Hb & Hr & Hw). destruct (gr_modules _ _ Hg _ _ Hb) as (b' & Hb' & [Hp _] & _). exists b', reg.
  split; [done|]. split; [|done]. unfold Builder.Register_ in *. apply bind_ok in Hr as (r & -> & Hr). cbn [mbind result_bind].
  apply slice_get_ok. apply slice_get_ok in Hr. by eapply prefix_lookup_Some.
Qed.

Definition proof_name (bw : Z) : ModuleName := mkName (width_name bw) 1.

Lemma proof_name_inj bw bw' : proof_name bw = proof_name bw' -> bw = bw'.
Proof. intros H. injection H as H. exact (pretty_Z_inj _ _ H). Qed.

End Growth.

(** ** What a satisfied schema says of its columns *)

Section Facts.
Context {F : Type} `{!Element F, !ElementLaws F, !Hasher F, !ExactHasher F}.
Implicit Types (S : Schema.t F) (m : ArrayModule F) (c : AirConstraint F) (b : Builder.t F).

Abbreviation p := (modulus (F := F)).

Context (tr : list (ArrayModule F)) (sc : list ModuleView).

Record trace_ok : Prop := {
  to_modules : Forall (fun m => module_wf m /\ 0 <= height m < 2 ^ 62) tr;
  to_views : length sc = length tr
}.

Context (Htr : trace_ok).

(** The trace has the modules of the schema, and all constraints accept it. *)
Definition satisfied S : Prop :=
  (length (Schema.modules S) <= length tr)%nat /\
  forall i b c, Schema.modules S !! i = Some b -> c ∈ Builder.constraints b -> accepted tr sc c.

Definition column (reg : ColumnId) : Access.t := Access.RawRegisterAccess reg 0 0.

(** Every value of a register is below a power of two. *)
Definition fits (mid : nat) (reg : ColumnId) (bw : Z) : Prop :=
  forall m k x, Module_ tr mid = Ok m -> 0 <= k < height m -> access_at k m (column reg) = Ok x -> val x < 2 ^ bw.

Lemma trace_module mid m : Module_ tr mid = Ok m -> module_wf m /\ 0 <= height m < 2 ^ 62.
Proof. intros Hm%slice_get_ok. eapply Forall_lookup_1 in Hm; [|apply to_modules; exact Htr]. done. Qed.

Lemma trace_view mid m : Module_ tr mid = Ok m -> exists v, slice_get sc mid = Ok v.
Proof.
  intros Hm%slice_get_ok%lookup_lt_Some. rewrite <-(to_views Htr) in Hm. apply lookup_lt_is_Some_2 in Hm as [v Hv].
  exists v. by apply slice_get_ok.
Qed.

Lemma trace_heights : heights_ok tr.
Proof. eapply Forall_impl; [apply to_modules; exact Htr|]. cbn. intros m [_ H]. lia. Qed.

(** An accepted polynomial over columns on the same row vanishes on every row. *)
Lemma zero_on_rows h mid m t k :
  accepted tr sc (NewVanishingConstraint h mid None t) -> Module_ tr mid = Ok m -> air (fun a => Access.shift a = 0) t ->
  0 <= k < height m -> eqm p (denote (row_env k m) t) 0.
Proof.
  intros Hacc Hm Ht Hk. destruct (trace_module mid m Hm) as [Hwf Hh]. destruct (trace_view mid m Hm) as [v Hv].
  apply vanish_eqm. eapply (enforced tr sc mid m v Hm Hv Hwf Hh _ h None); [exact Ht|done|done|done|].
  eapply Forall_impl; [by apply (air_Forall _ _ Ht)|]. unfold inrow. cbn. lia.
Qed.

Lemma cell_value k m reg w x : access_at k m (column reg) = Ok x -> row_env k m (Access.RawRegisterAccess reg w 0) = val x.
Proof. intros Hx. unfold row_env. change (access_at k m (Access.RawRegisterAccess reg w 0)) with (access_at k m (column reg)). by rewrite Hx. Qed.

Lemma register_air reg w : 0 <= w -> air (fun a => Access.shift a = 0) (RegisterAccess (F := F) (Access.RawRegisterAccess reg w 0)).
Proof. intros Hw. by apply air_access. Qed.

(** *** The zero gadget *)

Lemma zero_fits h mid reg w : 0 <= w ->
  accepted tr sc (NewVanishingConstraint h mid None (Subtract [RegisterAccess (Access.RawRegisterAccess reg w 0); Const64 0])) -> fits mid reg 0.
Proof.
  intros Hw Hacc m k x Hm Hk Hx. pose proof (register_air reg w Hw) as Ha.
  assert (Hair : air (fun a => Access.shift a = 0) (Subtract [RegisterAccess (F := F) (Access.RawRegisterAccess reg w 0); Const64 0])).
  { apply air_Subtract; [|by left]. constructor; [done|]. constructor; [by apply air_const64|done]. }
  pose proof (zero_on_rows _ _ _ _ _ Hacc Hm Hair Hk) as Hz. destruct (trace_module mid m Hm) as [Hwf _].
  pose proof (access_at_wf _ _ _ _ Hwf Hx) as Hok. pose proof (val_range x Hok).
  rewrite denote_Subtract in Hz by (constructor; [by eapply air_wf|]; constructor; [by apply const64_wf|done]).
  cbn [map difference zsum] in Hz. rewrite const64_value in Hz by lia. cbn [denote] in Hz.
  rewrite (cell_value _ _ _ _ _ Hx) in Hz. replace (val x - (0 + 0)) with (val x) in Hz by lia.
  assert (val x = 0) by (apply (eqm_small p); [done|lia|done]). rewrite Z.pow_0_r. lia.
Qed.

(** *** The binary gadget *)

Lemma binary_fits h mid reg w : 0 <= w ->
  accepted tr sc (NewVanishingConstraint h mid None
    (Product [Subtract [RegisterAccess (Access.RawRegisterAccess reg w 0); Const64 0];
              Subtract [RegisterAccess (Access.RawRegisterAccess reg w 0); Const64 1]])) -> fits mid reg 1.
Proof.
  intros Hw Hacc m k x Hm Hk Hx. pose proof (register_air reg w Hw) as Ha.
  assert (Hconst : forall n, 0 <= n < 2 -> air (fun a => Access.shift a = 0)
    (Subtract [RegisterAccess (F := F) (Access.RawRegisterAccess reg w 0); Const64 n])).
  { intros n Hn. apply air_Subtract; [|by left]. constructor; [done|]. constructor; [apply air_const64; lia|done]. }
  assert (Hval : forall n, 0 <= n < 2 -> denote (row_env k m) (Subtract [RegisterAccess (F := F) (Access.RawRegisterAccess reg w 0); Const64 n]) = val x - n).
  { intros n Hn. rewrite denote_Subtract by (constructor; [by eapply air_wf|]; constructor; [apply const64_wf; lia|done]).
    cbn [map difference zsum]. rewrite const64_value by lia. cbn [denote]. rewrite (cell_value _ _ _ _ _ Hx). lia. }
  assert (Hpair : Forall (air (fun a => Access.shift a = 0))
    [Subtract [RegisterAccess (F := F) (Access.RawRegisterAccess reg w 0); Const64 0];
     Subtract [RegisterAccess (F := F) (Access.RawRegisterAccess reg w 0); Const64 1]]).
  { constructor; [apply Hconst; lia|]. constructor; [apply Hconst; lia|done]. }
  pose proof (zero_on_rows _ _ _ _ _ Hacc Hm (air_Product _ _ Hpair) Hk) as Hz.
  rewrite denote_Product in Hz by by eapply air_wf_list. cbn [map zprod] in Hz. rewrite !Hval in Hz by lia.
  destruct (trace_module mid m Hm) as [Hwf _].
  pose proof (val_range x (access_at_wf _ _ _ _ Hwf Hx)). pose proof (modulus_big (F := F)).
  rewrite Z.mul_1_r, Z.sub_0_r in Hz. change (2 ^ 1) with 2. apply mul_zero_eqm in Hz as [Hz|Hz].
  - assert (val x = 0) by (apply (eqm_small p); [done|lia|done]). lia.
  - assert (val x = 1); [|lia]. apply (eqm_small p); [done|lia|]. destruct Hz as [q Hq]. exists q. lia.
Qed.

(** *** Range constraints *)

Lemma range_fits h mid reg w bw : 0 <= bw ->
  accepted tr sc (NewRangeConstraint h mid [Access.RawRegisterAccess reg w 0] [bw]) -> fits mid reg bw.
Proof.
  intros Hbw [cov Hacc] m k x Hm Hk Hx. destruct (trace_module mid m Hm) as [Hwf Hh]. destruct (trace_view mid m Hm) as [v Hv].
  cbn [Accepts NewRangeConstraint] in Hacc. apply bind_ok in Hacc as (err & Hs & [= _ ->]).
  cbn [Ranged.Sources length] in Hs. rewrite RangedFacts.accepts_sources_none in Hs. specialize (Hs 0%nat ltac:(lia)).
  erewrite RangedFacts.accepts_scan in Hs; [|exact Hm|exact Hv|done|done|lia].
  rewrite scan_none in Hs. specialize (Hs k ltac:(lia)). apply RangedFacts.ranged_check_none in Hs as (y & Hy & Hlt).
  assert (y = x) as -> by (change (access_at k m (column reg) = Ok y) in Hy; congruence).
  destruct (TwoPowN_law (F := F) bw Hbw) as [Hok Hval]. pose proof (access_at_wf _ _ _ _ Hwf Hx).
  rewrite cmp_law, Hval, Z.compare_lt_iff in Hlt by done. pose proof (Z.mod_le (2 ^ bw) p). pose proof (modulus_big (F := F)).
  pose proof (Z.pow_nonneg 2 bw). lia.
Qed.

(** *** Limbs of a value *)

Lemma fits_row mid m reg w bw k : Module_ tr mid = Ok m -> 0 <= k < height m -> 0 <= bw -> fits mid reg bw ->
  0 <= row_env k m (Access.RawRegisterAccess reg w 0) < 2 ^ bw.
Proof.
  intros Hm Hk Hbw Hf. destruct (trace_module mid m Hm) as [Hwf _]. split; [by apply row_env_nonneg|].
  unfold row_env. destruct (access_at k m _) as [x|] eqn:Hx; [by eapply Hf|]. by apply Z.pow_pos_nonneg.
Qed.

(** The polynomial of the decomposition *)
Definition cell_of (i : nat) (w : Z) : Access.t := Access.RawRegisterAccess (Some i) w 0.

Definition decomposition_term (lo hi : Z) : Expr F :=
  Subtract [RegisterAccess (cell_of 0 (lo + hi)); Sum [RegisterAccess (cell_of 1 lo); Product [Constant (TwoPowN lo); RegisterAccess (cell_of 2 hi)]]].

Lemma decomposition_parts L lo hi : 0 <= lo -> 0 <= hi -> L (cell_of 0 (lo + hi)) -> L (cell_of 1 lo) -> L (cell_of 2 hi) ->
  Forall (air L) [Constant (TwoPowN lo); RegisterAccess (F := F) (cell_of 2 hi)] /\
  Forall (air L) [RegisterAccess (F := F) (cell_of 1 lo); Product [Constant (TwoPowN lo); RegisterAccess (cell_of 2 hi)]] /\
  Forall (air L) [RegisterAccess (F := F) (cell_of 0 (lo + hi)); Sum [RegisterAccess (cell_of 1 lo); Product [Constant (TwoPowN lo); RegisterAccess (cell_of 2 hi)]]].
Proof.
  intros Hlo Hhi HV HL HH. destruct (TwoPowN_law (F := F) lo Hlo) as [Hok _].
  assert (Hp : Forall (air L) [Constant (TwoPowN lo); RegisterAccess (F := F) (cell_of 2 hi)]).
  { constructor; [by apply air_constant|]. constructor; [by apply air_access|done]. }
  assert (Hs : Forall (air L) [RegisterAccess (F := F) (cell_of 1 lo); Product [Constant (TwoPowN lo); RegisterAccess (cell_of 2 hi)]]).
  { constructor; [by apply air_access|]. constructor; [by apply air_Product|done]. }
  split; [done|]. split; [done|]. constructor; [apply air_access; [unfold access_wf; cbn; lia|done]|]. constructor; [by apply air_Sum|done].
Qed.

Lemma decomposition_air L lo hi : 0 <= lo -> 0 <= hi -> L (cell_of 0 (lo + hi)) -> L (cell_of 1 lo) -> L (cell_of 2 hi) ->
  air L (decomposition_term lo hi).
Proof. intros Hlo Hhi HV HL HH. apply air_Subtract; [by apply decomposition_parts|by left]. Qed.

Lemma decomposition_value lo hi k m : 0 <= lo -> 0 <= hi ->
  eqm p (denote (row_env k m) (decomposition_term lo hi))
    (row_env k m (cell_of 0 (lo + hi)) - (row_env k m (cell_of 1 lo) + 2 ^ lo * row_env k m (cell_of 2 hi))).
Proof.
  intros Hlo Hhi. destruct (decomposition_parts (fun _ => True) lo hi Hlo Hhi I I I) as (Hp & Hs & Hd).
  destruct (TwoPowN_law (F := F) lo Hlo) as [_ Hval]. unfold decomposition_term.
  rewrite denote_Subtract by by eapply air_wf_list. cbn [map difference zsum].
  rewrite denote_Sum by by eapply air_wf_list. cbn [map zsum].
  rewrite denote_Product by by eapply air_wf_list. cbn [map zprod denote].
  rewrite Hval, eqm_mod, Z.mul_1_r, !Z.add_0_r. reflexivity.
Qed.

(** The sum of the limbs is below the bound before it is reduced, so the value is too. *)
Lemma limbs_fit mid lo hi : 0 <= lo -> 0 <= hi ->
  accepted tr sc (decomposition_constraint mid 0 1 2 (lo + hi) lo hi) ->
  fits mid (Some 1%nat) lo -> fits mid (Some 2%nat) hi -> fits mid (Some 0%nat) (lo + hi).
Proof.
  intros Hlo Hhi Hacc Hflo Hfhi m k x Hm Hk Hx.
  assert (Hair : air (fun a => Access.shift a = 0) (decomposition_term lo hi)) by by apply decomposition_air.
  change (decomposition_constraint mid 0 1 2 (lo + hi) lo hi) with (NewVanishingConstraint "decomposition" mid None (decomposition_term lo hi)) in Hacc.
  pose proof (zero_on_rows _ _ _ _ _ Hacc Hm Hair Hk) as Hz. rewrite decomposition_value in Hz by done.
  pose proof (fits_row _ _ _ lo _ _ Hm Hk Hlo Hflo) as Hl. pose proof (fits_row _ _ _ hi _ _ Hm Hk Hhi Hfhi) as Hh.
  unfold cell_of in Hz. rewrite (cell_value _ _ _ _ _ Hx) in Hz. set (l := row_env k m _) in Hz, Hl. set (h := row_env k m _) in Hz, Hh.
  assert (Heq : eqm p (val x) (l + 2 ^ lo * h)) by (destruct Hz as [q Hq]; exists q; lia).
  destruct (trace_module mid m Hm) as [Hwf _]. pose proof (val_range x (access_at_wf _ _ _ _ Hwf Hx)) as Hv.
  apply (eqm_mod_unique p) in Heq; [|done]. rewrite Heq. rewrite Z.pow_add_r by lia.
  assert (l + 2 ^ lo * h < 2 ^ lo * 2 ^ hi) by nia. pose proof (Z.mod_le (l + 2 ^ lo * h) p). nia.
Qed.

(** *** Lookups *)

Lemma column_rows n k0 mid m a rs :
  vector_rows n k0 m (UnfilteredVector mid [a]) = Ok rs ->
  forall r, r ∈ rs <-> exists k x, k0 <= k < k0 + Z.of_nat n /\ access_at k m a = Ok x /\ r = [x].
Proof.
  revert k0 rs. induction n as [|n IH]; intros k0 rs; cbn [vector_rows].
  { intros [= <-] r. split; [by intros ?%elem_of_nil|]. intros (k & x & Hk & _). lia. }
  unfold vector_row. cbn [Selector UnfilteredVector Terms evaluated]. change (eval_at k0 m a) with (access_at k0 m a).
  destruct (access_at k0 m a) as [y|] eqn:Hy; cbn [mbind result_bind]; [|done].
  intros (rest & Hrest & [= <-])%bind_ok r. cbn [option_list app]. rewrite elem_of_cons, (IH _ _ Hrest). split.
  - intros [->|(k & x & Hk & Hx & ->)]; [exists k0, y|exists k, x]; (split; [lia|done]).
  - intros (k & x & Hk & Hx & ->). destruct (decide (k = k0)) as [->|]; [left; congruence|]. right. exists k, x. split; [lia|done].
Qed.

(** A value that is looked up in a column is one of its values. *)
Lemma lookup_row h c mid tmid sreg sw treg tw m k x :
  NewLookupConstraint h [UnfilteredVector tmid [Access.RawRegisterAccess treg tw 0]] [UnfilteredVector mid [Access.RawRegisterAccess sreg sw 0]] = Ok c ->
  accepted tr sc c -> (tmid < length tr)%nat -> Module_ tr mid = Ok m -> 0 <= k < height m -> access_at k m (column sreg) = Ok x ->
  exists tm k', Module_ tr tmid = Ok tm /\ 0 <= k' < height tm /\ access_at k' tm (column treg) = Ok x.
Proof.
  intros (lc & Hc & [= <-])%bind_ok [cov Hacc] Ht Hm Hk Hx. cbn [Accepts] in Hacc.
  pose proof (proj1 (slice_get_ok _ _ _) Hm) as Hlt%lookup_lt_Some. pose proof (to_views Htr) as Hsc.
  destruct (LookupProperties.Accepts_rows (T := LogicalTerm F) _ _ _ _ tr sc Hc) as [[Hrows _] _]; [done|done| |apply trace_heights|].
  { cbn [app]. rewrite Hsc. repeat constructor; cbn [Lookup.Module_of UnfilteredVector]; lia. }
  destruct Hrows as (ts & ss & Hts & Hss & Hsub); [by exists cov|].
  cbn [rows_of Lookup.Module_of UnfilteredVector] in Hts, Hss. apply bind_ok in Hts as (tm & Htm & Hts). rewrite Hm in Hss. cbn [mbind result_bind] in Hss.
  apply bind_ok in Hts as (ts' & Hts & [= <-]). apply bind_ok in Hss as (ss' & Hss & [= <-]). rewrite !app_nil_r in Hsub.
  destruct (trace_module _ _ Htm) as [_ Hth].
  assert (Hin : [x] ∈ ss') by (apply (column_rows _ _ _ _ _ _ Hss); exists k, x; split; [lia|done]).
  apply Hsub, (column_rows _ _ _ _ _ _ Hts) in Hin as (k' & y & Hk' & Hy & [= <-]). exists tm, k'. split; [done|]. split; [lia|done].
Qed.

Lemma lookup_fits h c mid tmid sreg sw treg tw bw :
  NewLookupConstraint h [UnfilteredVector tmid [Access.RawRegisterAccess treg tw 0]] [UnfilteredVector mid [Access.RawRegisterAccess sreg sw 0]] = Ok c ->
  accepted tr sc c -> (tmid < length tr)%nat -> fits tmid treg bw -> fits mid sreg bw.
Proof.
  intros Hc Hacc Ht Hf m k x Hm Hk Hx. destruct (lookup_row _ _ _ _ _ _ _ _ _ _ _ Hc Hacc Ht Hm Hk Hx) as (tm & k' & Htm & Hk' & Hx').
  by eapply Hf.
Qed.

(** ** The invariant of the schema *)

Lemma satisfied_grows S S' : grows S S' -> satisfied S' -> satisfied S.
Proof.
  intros Hg [Hl Hc]. split; [pose proof (grows_length _ _ Hg); lia|]. intros i b c Hb Hin.
  destruct (gr_modules _ _ Hg i b Hb) as (b' & Hb' & [_ Hcs] & _). eapply Hc; [exact Hb'|]. by apply Hcs.
Qed.

(** The identifiers are the indices, and a proof module has a decomposition and
    enforces its width, but for the widths in [X], whose modules are not finished. *)
Record schema_ok (X : list Z) S : Prop := {
  so_ids i b : Schema.modules S !! i = Some b -> Builder.moduleId b = i;
  so_names nm i : Schema.modmap S !! nm = Some i -> (i < length (Schema.modules S))%nat;
  so_proofs bw mid : 0 <= bw -> bw ∉ X -> Schema.modmap S !! proof_name bw = Some mid ->
    is_Some (Schema.decompositions S !! mid) /\ (satisfied S -> fits mid (Some 0%nat) bw)
}.

(** A change of the modules keeps the invariant when the schema only grows. *)
Lemma schema_ok_grows X S S' :
  schema_ok X S -> grows S S' -> Schema.modmap S' = Schema.modmap S -> length (Schema.modules S') = length (Schema.modules S) ->
  (forall i, is_Some (Schema.decompositions S !! i) -> is_Some (Schema.decompositions S' !! i)) -> schema_ok X S'.
Proof.
  intros [Hi Hn Hp] Hg Hmm Hl Hd. split.
  - intros i b Hb. pose proof (lookup_lt_Some _ _ _ Hb) as Hlt. rewrite Hl in Hlt. apply lookup_lt_is_Some_2 in Hlt as [b0 Hb0].
    destruct (gr_modules _ _ Hg _ _ Hb0) as (b' & Hb' & _ & Hid). rewrite Hb in Hb'. injection Hb' as <-. rewrite Hid. by apply Hi.
  - intros nm i. rewrite Hmm, Hl. apply Hn.
  - intros bw mid Hbw HX. rewrite Hmm. intros Hm. destruct (Hp bw mid Hbw HX Hm) as [Hdec Hf]. split; [by apply Hd|].
    intros Hs. apply Hf. by eapply satisfied_grows.
Qed.

Lemma update_ok X S mid b b' :
  schema_ok X S -> Schema.modules S !! mid = Some b -> extends b b' -> Builder.moduleId b' = Builder.moduleId b ->
  schema_ok X (Schema.update_module S mid b') /\ grows S (Schema.update_module S mid b').
Proof.
  intros Hok Hb He Hid. assert (Hg : grows S (Schema.update_module S mid b')).
  { split; [done|]. intros i b0 Hb0. cbn. destruct (decide (i = mid)) as [->|Hne].
    - rewrite Hb in Hb0. injection Hb0 as <-. exists b'. split; [apply list_lookup_insert_eq; by eapply lookup_lt_Some|done].
    - exists b0. rewrite list_lookup_insert_ne by done. split; [done|]. split; [apply extends_refl|done]. }
  split; [|done]. eapply schema_ok_grows; [exact Hok|done|done|cbn; by rewrite length_insert|done].
Qed.

Lemma add_constraint_ok X S mid b c :
  schema_ok X S -> Schema.modules S !! mid = Some b ->
  exists S', Schema.AddConstraint S mid c = Ok S' /\ schema_ok X S' /\ grows S S' /\ Schema.modmap S' = Schema.modmap S /\
    (satisfied S' -> accepted tr sc c).
Proof.
  intros Hok Hb. unfold Schema.AddConstraint, Schema.Module_of. rewrite (proj2 (slice_get_ok _ _ _) Hb). cbn [mbind result_bind].
  eexists. split; [reflexivity|]. destruct (update_ok X S mid b (Builder.AddConstraint b c) Hok Hb) as [Hok' Hg]; [split; cbn; set_solver|done|].
  split; [done|]. split; [done|]. split; [done|]. intros [_ Hc]. eapply (Hc mid); [apply list_lookup_insert_eq; by eapply lookup_lt_Some|]. cbn. set_solver.
Qed.

Lemma add_assignment_ok X S mid d : schema_ok X S -> schema_ok X (Schema.AddAssignment S mid d) /\ grows S (Schema.AddAssignment S mid d).
Proof.
  intros Hok. assert (Hg : grows S (Schema.AddAssignment S mid d)) by (split; [done|]; intros i b Hb; exists b; split; [done|]; split; [apply extends_refl|done]).
  split; [|done]. eapply schema_ok_grows; [exact Hok|done..|]. intros i Hi. cbn. by apply lookup_insert_is_Some'; right.
Qed.

(** ** Proof modules *)

(** The schema with a new module *)
Definition with_module S (nm : ModuleName) b : Schema.t F :=
  Schema.mk (<[nm := length (Schema.modules S)]> (Schema.modmap S)) (Schema.modules S ++ [b]) (Schema.decompositions S).

Lemma with_module_last S nm b : Schema.modules (with_module S nm b) !! length (Schema.modules S) = Some b.
Proof. cbn. by apply list_lookup_middle. Qed.

Lemma with_module_update S nm b b' :
  Schema.update_module (with_module S nm b) (length (Schema.modules S)) b' = with_module S nm b'.
Proof.
  unfold with_module, Schema.update_module. cbn. f_equal. rewrite insert_app_r_alt by done. by rewrite Nat.sub_diag.
Qed.

Lemma with_module_register S nm b reg id b' :
  Builder.NewRegister b reg = Ok (id, b') ->
  Schema.NewRegister (with_module S nm b) (length (Schema.modules S)) reg = Ok (id, with_module S nm b').
Proof.
  intros Hr. unfold Schema.NewRegister, Schema.Module_of. rewrite (proj2 (slice_get_ok _ _ _) (with_module_last S nm b)).
  cbn [mbind result_bind]. rewrite Hr. cbn [mbind result_bind]. by rewrite with_module_update.
Qed.

Lemma with_module_constraint S nm b c :
  Schema.AddConstraint (with_module S nm b) (length (Schema.modules S)) c = Ok (with_module S nm (Builder.AddConstraint b c)).
Proof.
  unfold Schema.AddConstraint, Schema.Module_of. rewrite (proj2 (slice_get_ok _ _ _) (with_module_last S nm b)).
  cbn [mbind result_bind]. by rewrite with_module_update.
Qed.

Lemma with_module_ok X S bw b :
  schema_ok X S -> Schema.modmap S !! proof_name bw = None -> Builder.moduleId b = length (Schema.modules S) ->
  schema_ok (bw :: X) (with_module S (proof_name bw) b) /\ grows S (with_module S (proof_name bw) b).
Proof.
  intros [Hi Hn Hp] Hnone Hid. assert (Hg : grows S (with_module S (proof_name bw) b)).
  { split; [by apply insert_subseteq|]. intros i b0 Hb0. exists b0. split; [by apply lookup_app_l_Some|]. split; [apply extends_refl|done]. }
  split; [|done]. split.
  - intros i b0 Hb0. apply lookup_app_Some in Hb0 as [Hb0|[Hle Hb0]]; [by apply Hi|].
    apply list_lookup_singleton_Some in Hb0 as [Hz <-]. lia.
  - intros nm i Hi'. cbn. rewrite length_app. cbn. cbn in Hi'. apply lookup_insert_Some in Hi' as [[_ <-]|[_ Hi']]; [lia|]. apply Hn in Hi'. lia.
  - intros bw' mid Hbw' [Hne HX]%not_elem_of_cons Hm. cbn in Hm. rewrite lookup_insert_ne in Hm by (intros He%proof_name_inj; congruence).
    destruct (Hp bw' mid Hbw' HX Hm) as [Hd Hf]. split; [done|]. intros Hs. apply Hf. by eapply satisfied_grows.
Qed.

(** What a call of [Constrain] gives *)
Definition constrained (X : list Z) S (ref : Ref) (bw : Z) S' : Prop :=
  schema_ok X S' /\ grows S S' /\ (satisfied S' -> fits (ref_module ref) (ref_register ref) bw).

(** A function that constrains registers to widths below a bound; the proof modules
    that are not finished have larger widths. *)
Definition constrains (constrain : Schema.t F -> Ref -> Z -> result (Schema.t F)) (bound : Z) : Prop :=
  forall X S ref bw, 0 <= bw < bound -> Forall (fun n => bw < n) X -> schema_ok X S -> register_ok S ref ->
  exists S', constrain S ref bw = Ok S' /\ constrained X S ref bw S'.

(** The registers and the constraint of a proof module *)
Definition proof_module (mid : nat) (bw lo hi : Z) : Builder.t F :=
  let regs := [Register.NewComputed "V" bw 0; Register.NewComputed "V'0" lo 0; Register.NewComputed "V'1" hi 0] in
  Builder.mk (proof_name bw) mid (Builder.mkAttributes false false true false false 0) None
    (<["V'1" := 2%nat]> (<["V'0" := 1%nat]> (<["V" := 0%nat]> ∅))) regs [decomposition_constraint mid 0 1 2 bw lo hi] [].

(** The steps of [constructTypeProof] before the recursive calls *)
Lemma construct_start constrain S bw lo hi :
  Schema.modmap S !! proof_name bw = None -> determineLimbSplit bw = Ok (lo, hi) ->
  let mid := length (Schema.modules S) in
  constructTypeProof constrain S (proof_name bw) bw =
    (S1 ← constrain (with_module S (proof_name bw) (proof_module mid bw lo hi)) (NewRef mid (Some 1%nat)) lo;
     S2 ← constrain S1 (NewRef mid (Some 2%nat)) hi;
     Ok (mid, Schema.AddAssignment S2 mid
                (mkDecomposition lo hi [] [NewRef mid (Some 0%nat); NewRef mid (Some 1%nat); NewRef mid (Some 2%nat)]))).
Proof.
  intros Hnone Hsplit mid. unfold constructTypeProof, Schema.NewModule. rewrite Hnone. cbn [mbind result_bind]. rewrite Hsplit. cbn [mbind result_bind].
  fold mid. change (Schema.mk _ _ _) with (with_module S (proof_name bw) (Builder.NewModuleBuilder (F := F) (proof_name bw) mid false false true false false 0)).
  do 3 (erewrite with_module_register by reflexivity; cbn [mbind result_bind]).
  rewrite with_module_constraint. cbn [mbind result_bind]. reflexivity.
Qed.

Lemma constructTypeProof_ok constrain X S bw :
  2 <= bw < 2 ^ 62 -> constrains constrain bw -> Forall (fun n => bw < n) X -> schema_ok X S -> Schema.modmap S !! proof_name bw = None ->
  exists mid S', constructTypeProof constrain S (proof_name bw) bw = Ok (mid, S') /\ schema_ok X S' /\ grows S S' /\
    Schema.modmap S' !! proof_name bw = Some mid.
Proof.
  intros Hbw Hc HX Hok Hnone. destruct (determineLimbSplit_spec bw Hbw) as (lo & Hsplit & Hlo & _). set (mid := length (Schema.modules S)).
  rewrite (construct_start _ _ _ _ _ Hnone Hsplit). fold mid. set (S0 := with_module S (proof_name bw) (proof_module mid bw lo (bw - lo))).
  destruct (with_module_ok X S bw (proof_module mid bw lo (bw - lo)) Hok Hnone eq_refl) as [Hok0 Hg0]. fold S0 in Hok0, Hg0.
  assert (HX' : forall n, n < bw -> Forall (fun k => n < k) (bw :: X)).
  { intros n Hn. constructor; [done|]. eapply Forall_impl; [exact HX|]. cbn. lia. }
  assert (Hreg : forall i reg, Builder.registers (proof_module mid bw lo (bw - lo)) !! i = Some reg -> 0 <= Register.width reg < 2 ^ 62 -> register_ok S0 (NewRef mid (Some i))).
  { intros i reg Hr Hw. exists (proof_module mid bw lo (bw - lo)), reg. split; [apply with_module_last|]. split; [by apply slice_get_ok|].
    split; [|lia]. unfold Register.IsNative, Register.MaxUint. apply Z.eqb_neq. lia. }
  destruct (Hc (bw :: X) S0 (NewRef mid (Some 1%nat)) lo) as (S1 & -> & Hok1 & Hg1 & Hf1); [lia|apply HX'; lia|done|by eapply (Hreg 1%nat); [reflexivity|cbn; lia]|].
  cbn [mbind result_bind].
  destruct (Hc (bw :: X) S1 (NewRef mid (Some 2%nat)) (bw - lo)) as (S2 & -> & Hok2 & Hg2 & Hf2);
    [lia|apply HX'; lia|done|eapply register_grows; [exact Hg1|]; by eapply (Hreg 2%nat); [reflexivity|cbn; lia]|].
  cbn [mbind result_bind]. eexists _, _. split; [reflexivity|].
  destruct (add_assignment_ok (bw :: X) S2 mid (mkDecomposition lo (bw - lo) [] [NewRef mid (Some 0%nat); NewRef mid (Some 1%nat); NewRef mid (Some 2%nat)]) Hok2) as [Hok3 Hg3].
  set (S3 := Schema.AddAssignment S2 mid _) in *.
  assert (Hname : Schema.modmap S3 !! proof_name bw = Some mid).
  { eapply lookup_weaken; [|apply (gr_names _ _ (transitivity Hg1 (transitivity Hg2 Hg3)))]. apply lookup_insert_eq. }
  split; [|split; [by repeat (etransitivity; [eassumption|])|done]].
  split; [apply Hok3|apply Hok3|]. intros bw' mid' Hbw' HX'' Hm'. destruct (decide (bw' = bw)) as [->|Hne].
  2: { apply (so_proofs _ _ Hok3); [done| |done]. by apply not_elem_of_cons. }
  rewrite Hname in Hm'. injection Hm' as <-. split; [cbn; rewrite lookup_insert_eq; by eexists|]. intros Hs.
  assert (Hs0 : satisfied S0) by (eapply satisfied_grows; [|exact Hs]; by repeat (etransitivity; [eassumption|])).
  destruct Hs0 as [_ Hs0]. replace bw with (lo + (bw - lo)) by lia. apply limbs_fit; [lia|lia| |apply Hf1|apply Hf2].
  - replace (lo + (bw - lo)) with bw by lia. eapply Hs0; [apply with_module_last|]. by left.
  - eapply satisfied_grows; [|exact Hs]. by etransitivity.
  - by eapply satisfied_grows.
Qed.

(** ** Constraining a register *)

Context (maxRangeConstraint : Z).

(** A constraint on the module of the register, which makes the register fit *)
Lemma AddConstraint_fits X S ref bw c b :
  schema_ok X S -> Schema.modules S !! ref_module ref = Some b ->
  (satisfied S -> accepted tr sc c -> fits (ref_module ref) (ref_register ref) bw) ->
  exists S', Schema.AddConstraint S (ref_module ref) c = Ok S' /\ constrained X S ref bw S'.
Proof.
  intros Hok Hb Hf. destruct (add_constraint_ok X S (ref_module ref) b c Hok Hb) as (S' & Heq & Hok' & Hg & _ & Hacc). exists S'. split; [done|].
  split; [done|]. split; [done|]. intros Hs. apply Hf; [by eapply satisfied_grows|by apply Hacc].
Qed.

(** A finished proof module has a decomposition to add sources to. *)
Lemma finished_decomposition X S bw mid :
  schema_ok X S -> 0 <= bw -> bw ∉ X -> Schema.modmap S !! proof_name bw = Some mid -> exists d, Schema.first_decomposition S mid = Ok d.
Proof.
  intros Hok Hbw HX Hm. destruct (so_proofs _ _ Hok bw mid Hbw HX Hm) as [[d Hd] _]. exists d.
  destruct (lookup_lt_is_Some_2 (Schema.modules S) mid) as [b Hb]; [by eapply so_names|].
  unfold Schema.first_decomposition, Schema.Module_of. rewrite (proj2 (slice_get_ok _ _ _) Hb). cbn [mbind result_bind]. by rewrite Hd.
Qed.

Lemma applyRecursive_ok constrain X S ref bw :
  2 <= bw < 2 ^ 62 -> constrains constrain bw -> Forall (fun n => bw < n) X -> schema_ok X S -> register_ok S ref ->
  exists S', applyRecursiveBitwidthGadget constrain S ref bw = Ok S' /\ constrained X S ref bw S'.
Proof.
  intros Hbw Hc HX Hok Hreg. pose proof Hreg as (b & reg & Hb & Hr & Hw).
  unfold applyRecursiveBitwidthGadget, Schema.Module_of at 1. rewrite (proj2 (slice_get_ok _ _ _) Hb). cbn [mbind result_bind]. rewrite Hr. cbn [mbind result_bind].
  assert (Hproof : exists mid S1, (match Schema.HasModule S (mkName (width_name bw) 1) with
      Some mid => Ok (mid, S) | None => constructTypeProof constrain S (mkName (width_name bw) 1) bw end) = Ok (mid, S1) /\
    schema_ok X S1 /\ grows S S1 /\ Schema.modmap S1 !! proof_name bw = Some mid).
  { unfold Schema.HasModule. fold (proof_name bw). destruct (Schema.modmap S !! proof_name bw) as [mid|] eqn:Hm; [by exists mid, S|].
    destruct (constructTypeProof_ok constrain X S bw Hbw Hc HX Hok Hm) as (mid & S1 & Heq & H1). by exists mid, S1. }
  destruct Hproof as (mid & S1 & -> & Hok1 & Hg1 & Hname). cbn [mbind result_bind].
  assert (HXbw : bw ∉ X) by (intros Hin; rewrite Forall_forall in HX; specialize (HX bw Hin); lia).
  unfold Register.Width. destruct Hw as [-> Hw]. cbn [mbind result_bind].
  set (src := Access.RawRegisterAccess _ _ _). set (tgt := Access.RawRegisterAccess (Some 0%nat) bw 0).
  destruct (gr_modules _ _ Hg1 _ _ Hb) as (b1 & Hb1 & _). rewrite (so_ids _ _ Hok _ _ Hb).
  change (NewLookupConstraint (F := F) ?h ?ts ?ss) with (Ok (AirLookup (F := F) (mkConstraint h ts ss))). cbn [mbind result_bind].
  set (c := AirLookup _).
  destruct (AddConstraint_fits X S1 ref bw c b1 Hok1 Hb1) as (S2 & -> & Hok2 & Hg2 & Hf2).
  { intros Hs Hacc. destruct (so_proofs _ _ Hok1 bw mid ltac:(lia) HXbw Hname) as [_ Hfit].
    eapply (lookup_fits _ c (ref_module ref) mid _ _ (Some 0%nat) bw); [reflexivity|done| |by apply Hfit].
    pose proof (so_names _ _ Hok1 _ _ Hname). destruct Hs as [Hl _]. lia. }
  cbn [mbind result_bind]. pose proof (lookup_weaken _ _ _ _ Hname (gr_names _ _ Hg2)) as Hname2.
  destruct (finished_decomposition X S2 bw mid Hok2 ltac:(lia) HXbw Hname2) as (d & ->). cbn [mbind result_bind].
  eexists. split; [reflexivity|]. destruct (add_assignment_ok X S2 mid (AddSource d ref) Hok2) as [Hok3 Hg3].
  split; [done|]. split; [by repeat (etransitivity; [eassumption|])|]. intros Hs. apply Hf2. by eapply satisfied_grows.
Qed.

Lemma Constrain_constrains fuel bound :
  bound <= 2 ^ 62 -> bound <= Z.of_nat fuel -> constrains (Constrain maxRangeConstraint fuel) bound.
Proof.
  revert bound. induction fuel as [|fuel IH]; intros bound Hmax Hfuel X S ref bw Hbw HX Hok Hreg; [lia|].
  pose proof Hreg as (b & reg & Hb & Hr & Hnat & Hw). cbn [Constrain].
  assert (Hmod : Schema.Module_of S (ref_module ref) = Ok b) by by apply slice_get_ok.
  unfold Schema.Register_of. rewrite Hmod. cbn [mbind result_bind]. rewrite Hr. cbn [mbind result_bind].
  assert (Hwidth : Register.Width reg = Ok (Register.width reg)) by (unfold Register.Width; by rewrite Hnat).
  destruct (Z.eqb_spec bw 0) as [->|H0].
  { unfold applyZeroGadget. rewrite Hmod. cbn [mbind result_bind]. rewrite Hr. cbn [mbind result_bind]. rewrite Hwidth. cbn [mbind result_bind].
    rewrite (so_ids _ _ Hok _ _ Hb). eapply AddConstraint_fits; [done|exact Hb|]. intros _. by apply zero_fits. }
  destruct (Z.leb_spec bw 1).
  { unfold applyBinaryGadget. rewrite Hmod. cbn [mbind result_bind]. rewrite Hr. cbn [mbind result_bind]. rewrite Hwidth. cbn [mbind result_bind].
    rewrite (so_ids _ _ Hok _ _ Hb). replace bw with 1 by lia. eapply AddConstraint_fits; [done|exact Hb|]. intros _. by apply binary_fits. }
  destruct (Z.leb_spec bw maxRangeConstraint).
  { unfold applyRangeConstraint. rewrite Hmod. cbn [mbind result_bind]. rewrite Hr. cbn [mbind result_bind]. rewrite Hwidth. cbn [mbind result_bind].
    rewrite (so_ids _ _ Hok _ _ Hb). eapply AddConstraint_fits; [done|exact Hb|]. intros _. apply range_fits. lia. }
  apply applyRecursive_ok; [lia|apply IH; lia|done..].
Qed.

End Facts.

(** ** Lowering of range constraints *)

Section Lowering.
Context {F : Type} `{!Element F, !ElementLaws F, !Hasher F, !ExactHasher F} (maxRangeConstraint : Z).
Implicit Types (S : Schema.t F).

Abbreviation p := (modulus (F := F)).

(** An access of a register of the module on the same row, and its width *)
Definition range_ok S (mid : nat) (e : Access.t) (bw : Z) : Prop :=
  Access.shift e = 0 /\ register_ok S (NewRef mid (Access.register e)) /\ 0 <= bw < 2 ^ 62.

Lemma lower_ranges_ok tr sc S mid terms bws :
  trace_ok tr sc -> schema_ok tr sc [] S -> Forall2 (range_ok S mid) terms bws ->
  exists S', lower_ranges maxRangeConstraint S mid terms bws = Ok S' /\ schema_ok tr sc [] S' /\ grows S S' /\
    (satisfied tr sc S' -> Forall2 (fun e bw => fits tr mid (Access.register e) bw) terms bws).
Proof.
  intros Htr. revert S bws. induction terms as [|e terms IH]; intros S bws Hok H.
  { apply Forall2_nil_inv_l in H as ->. exists S. split; [done|]. split; [done|]. split; [done|constructor]. }
  apply Forall2_cons_inv_l in H as (bw & bws' & (_ & Hreg & Hbw) & Hrest & ->). cbn [lower_ranges].
  destruct (Constrain_constrains tr sc Htr maxRangeConstraint (constrain_fuel bw) (bw + 1)) with (X := @nil Z) (S := S) (ref := NewRef mid (Access.register e)) (bw := bw)
    as (S1 & -> & Hok1 & Hg1 & Hf1); [lia|unfold constrain_fuel; lia|lia|done|done|done|]. cbn [mbind result_bind].
  destruct (IH S1 bws' Hok1) as (S2 & -> & Hok2 & Hg2 & Hf2).
  { eapply Forall2_impl; [exact Hrest|]. intros e' bw' (Hs & Hr & Hb). split; [done|]. split; [|done]. by eapply register_grows. }
  exists S2. split; [done|]. split; [done|]. split; [by etransitivity|]. intros Hs. constructor; [|by apply Hf2].
  apply Hf1. by eapply satisfied_grows.
Qed.

(** The schema is as the builder and the gadget make it, whatever the trace.

    This is a hypothesis of the theorem below, not a condition of the code: it excludes
    schemas with a module of the source that is named like a proof module, in which
    the gadget panics or takes that module for the proof module.  Schemas without proof
    modules satisfy it ([fresh_well_formed]), and the gadget keeps it. *)
Definition well_formed S : Prop := forall tr sc, trace_ok tr sc -> schema_ok tr sc [] S.

(** A schema that has no proof modules yet *)
Record fresh S : Prop := {
  fr_ids i b : Schema.modules S !! i = Some b -> Builder.moduleId b = i;
  fr_names nm i : Schema.modmap S !! nm = Some i -> (i < length (Schema.modules S))%nat;
  fr_proofs bw : Schema.modmap S !! proof_name bw = None
}.

Lemma fresh_well_formed S : fresh S -> well_formed S.
Proof. intros [Hi Hn Hp] tr sc _. split; [done..|]. intros bw mid _ _. by rewrite Hp. Qed.

Lemma no_trace_ok : trace_ok (F := F) [] [].
Proof. by split. Qed.

(** A range constraint accepts when the values are in range. *)
Lemma range_accepts tr sc (v : Ranged.Constraint Access.t) m :
  trace_ok tr sc -> Module_ tr (Ranged.Context_ v) = Ok m -> Forall (access_defined m) (Ranged.Sources v) ->
  Forall2 (fun e bw => 0 <= bw /\ 2 ^ bw < p /\ forall k x, 0 <= k < height m -> access_at k m e = Ok x -> val x < 2 ^ bw) (Ranged.Sources v) (Ranged.Bitwidths v) ->
  exists cov, Ranged.Accepts (T := LogicalTerm F) v tr sc = Ok (cov, None).
Proof.
  intros Htr Hm Hdef Hvals. destruct (trace_module tr sc Htr _ _ Hm) as [Hwf Hh]. destruct (trace_view tr sc Htr _ _ Hm) as [vw Hv].
  unfold Ranged.Accepts. replace (Ranged.accepts_sources _ _ _ _ _) with (Ok (A := option (Failure Access.t (LogicalTerm F))) None); [by eexists|].
  symmetry. apply RangedFacts.accepts_sources_none. intros j Hj. cbn in Hj.
  destruct (lookup_lt_is_Some_2 (Ranged.Sources v) j) as [e He]; [lia|].
  destruct (Forall2_lookup_l _ _ _ _ _ Hvals He) as (bw & Hb & Hbw & Hp & Hx).
  erewrite RangedFacts.accepts_scan; [|exact Hm|exact Hv|exact He|exact Hb|lia]. rewrite scan_none. intros k Hk. apply RangedFacts.ranged_check_none.
  destruct (access_defined_ok k m e) as [x Hax]; [by eapply Forall_lookup_1|]. exists x. split; [done|].
  destruct (TwoPowN_law (F := F) bw Hbw) as [Hok Hval]. pose proof (Z.pow_nonneg 2 bw).
  pose proof (access_at_wf _ _ _ _ Hwf Hax) as Hxok. rewrite cmp_law by done. rewrite Hval, Z.mod_small by lia. apply Z.compare_lt_iff, (Hx k); [lia|done].
Qed.

End Lowering.

Module BitwidthProperties.

Section Properties.
Context {F : Type} `{!Element F, !ElementLaws F, !Hasher F, !ExactHasher F}.

(** C4: Lowering a range constraint never fails in a schema as the builder and the gadget
    make it ([well_formed]: in particular no module of the source has the name of a
    proof module), when its terms access existing registers that have a width, on the
    same row, and the widths of the constraint are below [2 ^ 62] ([range_ok]).  Every
    trace that satisfies the schema after it then satisfies the schema before it and
    has only values below the powers of two in the registers, whatever it has in the
    columns of the proof modules.  The range constraint itself then accepts the trace
    if the registers have filled columns and the powers of two of its widths are below
    the modulus; for wider ones it compares with a bound that has wrapped around. *)
Theorem range_lowering (maxRangeConstraint : Z) (S : Schema.t F) (v : Ranged.Constraint Access.t) :
  well_formed S -> Forall2 (range_ok S (Ranged.Context_ v)) (Ranged.Sources v) (Ranged.Bitwidths v) ->
  exists S', lowerRangeConstraintToAir maxRangeConstraint S (Ranged.Context_ v) v = Ok S' /\ well_formed S' /\
    forall tr sc, trace_ok tr sc -> satisfied tr sc S' ->
      satisfied tr sc S /\
      forall m, Module_ tr (Ranged.Context_ v) = Ok m ->
        (forall i e bw k x, Ranged.Sources v !! i = Some e -> Ranged.Bitwidths v !! i = Some bw ->
           0 <= k < height m -> access_at k m e = Ok x -> val x < 2 ^ bw) /\
        (Forall (access_defined m) (Ranged.Sources v) -> Forall (fun bw => 2 ^ bw < modulus (F := F)) (Ranged.Bitwidths v) ->
           exists cov, Ranged.Accepts (T := LogicalTerm F) v tr sc = Ok (cov, None)).
Proof.
  intros Hwf Hr. unfold lowerRangeConstraintToAir.
  destruct (lower_ranges_ok maxRangeConstraint [] [] S _ _ _ no_trace_ok (Hwf _ _ no_trace_ok) Hr) as (S' & Heq & _). exists S'. split; [done|].
  assert (Hall : forall tr sc, trace_ok tr sc -> schema_ok tr sc [] S' /\ grows S S' /\
    (satisfied tr sc S' -> Forall2 (fun e bw => fits tr (Ranged.Context_ v) (Access.register e) bw) (Ranged.Sources v) (Ranged.Bitwidths v))).
  { intros tr sc Htr. destruct (lower_ranges_ok maxRangeConstraint tr sc S _ _ _ Htr (Hwf _ _ Htr) Hr) as (S2 & Heq2 & H2).
    rewrite Heq in Heq2. by injection Heq2 as <-. }
  split; [intros tr sc Htr; by apply Hall|]. intros tr sc Htr Hs. destruct (Hall tr sc Htr) as (_ & Hg & Hf). specialize (Hf Hs).
  split; [by eapply satisfied_grows|]. intros m Hm.
  assert (Hvals : forall i e bw k x, Ranged.Sources v !! i = Some e -> Ranged.Bitwidths v !! i = Some bw ->
    0 <= k < height m -> access_at k m e = Ok x -> val x < 2 ^ bw).
  { intros i e bw k x He Hb Hk Hx. destruct (Forall2_lookup_lr _ _ _ _ _ _ Hr He Hb) as (Hsh & _).
    apply (Forall2_lookup_lr _ _ _ _ _ _ Hf He Hb m k x Hm Hk). unfold access_at in *. by rewrite Hsh in Hx. }
  split; [done|]. intros Hdef Hlt. apply (range_accepts tr sc v m Htr Hm Hdef), Forall2_same_length_lookup.
  split; [by eapply Forall2_length|]. intros i e bw He Hb. destruct (Forall2_lookup_lr _ _ _ _ _ _ Hr He Hb) as (_ & _ & Hbw).
  split; [lia|]. split; [by eapply (Forall_lookup_1 _ _ _ _ Hlt)|]. intros k x Hk Hx. by eapply Hvals.
Qed.

End Properties.
Import TermProperties.

(** A module with a register of five bits, and ranges up to two bits *)
Definition sample_builder : Builder.t G :=
  Builder.mk (mkName "m" 1) 0 (Builder.mkAttributes true true false false false 0) None {["X" := 0%nat]} [Register.NewInput "X" 5 0] [] [].
Definition sample_start : Schema.t G := with_module Schema.NewSchemaBuilder (mkName "m" 1) sample_builder.
Definition sample_range : Ranged.Constraint Access.t := Ranged.NewConstraint "x" 0 [Access.RawRegisterAccess (Some 0%nat) 5 0] [5].

Lemma sample_fresh : fresh sample_start.
Proof.
  split.
  - intros i b Hb. by apply list_lookup_singleton_Some in Hb as [-> <-].
  - intros nm i Hi. change (<[mkName "m" 1 := 0%nat]> (∅ : gmap ModuleName nat) !! nm = Some i) in Hi. cbn [Schema.modules sample_start with_module length app].
    apply lookup_insert_Some in Hi as [[_ <-]|[_ Hi]]; [change (0 < 1)%nat; lia|]. by rewrite lookup_empty in Hi.
  - intros bw. change (<[mkName "m" 1 := 0%nat]> (∅ : gmap ModuleName nat) !! proof_name bw = None). rewrite lookup_insert_ne by (intros He; discriminate He). apply lookup_empty.
Qed.

(** The modules for five and three bits are added, and the values are below 32. *)
Lemma range_lowering_witness :
  exists S', lowerRangeConstraintToAir 2 sample_start 0 sample_range = Ok S' /\
    Builder.name <$> Schema.modules S' = [mkName "m" 1; proof_name 5; proof_name 3] /\
    forall tr sc m k x, trace_ok tr sc -> satisfied tr sc S' -> Module_ tr 0 = Ok m -> 0 <= k < height m ->
      access_at k m (Access.RawRegisterAccess (Some 0%nat) 5 0) = Ok x -> val x < 32.
Proof.
  destruct (range_lowering 2 sample_start sample_range) as (S' & Hl & _ & Hs).
  - apply fresh_well_formed, sample_fresh.
  - constructor; [|constructor]. split; [reflexivity|]. split; [|lia].
    exists sample_builder, (Register.NewInput "X" 5 0). split; [reflexivity|]. split; [reflexivity|]. split; [reflexivity|]. cbn. lia.
  - exists S'. split; [exact Hl|]. split; [vm_compute in Hl; injection Hl as <-; reflexivity|].
    intros tr sc m k x Htr Hsat Hm Hk Hx. destruct (Hs tr sc Htr Hsat) as [_ H]. destruct (H m Hm) as [Hv _].
    exact (Hv 0%nat _ 5 k x eq_refl eq_refl Hk Hx).
Defined.

End BitwidthProperties.
