(* ===== verification/BitwidthCompute.v ===== *)
(** * The columns that a proof module is given

    The assignment of a proof module collects the values to prove without
    duplicates and splits each in two limbs.  For values within the width the columns
    satisfy the constraints of the gadget. *)

From Stdlib Require Import ZArith Lia Znumtheory.
From stdpp Require Import base numbers list option strings gmap.
From S2P Require Import Prelude BitSet FieldElement Interval Register Iter Hash Element Trace Term TermFacts TermReads Simplify Constraint ConstraintFacts Lookup LookupFacts Air Lower LowerTerms LowerNames LowerFacts Bits Bitwidth BitwidthFacts.
Import HashSetFacts.

Open Scope Z_scope.

Abbreviation BigSetBytes := Register.BigSetBytes.

(** ** Bytes of elements *)

(** Bytes are read back as the value that they stand for, when it is below the
    prime. *)
Class BytesLaws (F : Type) `{!Element F, !ElementLaws F} : Prop := {
  bytes_range (x : F) : element_ok x -> Forall byte_ok (e_Bytes x);
  set_bytes_value bs : Forall byte_ok bs -> BigSetBytes bs < modulus (F := F) ->
    element_ok (F := F) (e_SetBytes bs) /\ val (F := F) (e_SetBytes bs) = BigSetBytes bs
}.


Lemma BigSetBytes_bound bs : Forall byte_ok bs -> 0 <= BigSetBytes bs < 256 ^ Z.of_nat (length bs).
Proof.
  induction bs as [|b bs IH] using rev_ind; [intros _; cbn; lia|]. intros [Hbs Hb%Forall_inv]%Forall_app. specialize (IH Hbs).
  rewrite RegisterFacts.foldl_snoc_bytes, length_app. cbn [length]. rewrite Nat2Z.inj_add, Z.pow_add_r by lia.
  change (256 ^ Z.of_nat 1) with 256. unfold byte_ok in Hb. lia.
Qed.

(** The accumulation of [SetBytes] in a [uint32] *)
Lemma accumulate_bytes bs a :
  Forall byte_ok bs -> 0 <= a -> foldl (fun a b => a * 256 + b) a bs < 2 ^ 32 ->
  foldl (fun v b => Z.lor (u32 (Z.shiftl v 8)) b) a bs = foldl (fun a b => a * 256 + b) a bs.
Proof.
  intros Hbs. revert a. induction Hbs as [|b bs Hb Hbs IH]; intros a Ha Hlt; [done|]. cbn [foldl] in *. unfold byte_ok in Hb.
  assert (Hle : forall x, 0 <= x -> x <= foldl (fun a b => a * 256 + b) x bs).
  { clear -Hbs. induction Hbs as [|b bs Hb Hbs IH]; intros x Hx; cbn; [lia|]. unfold byte_ok in Hb. specialize (IH (x * 256 + b)). lia. }
  specialize (Hle (a * 256 + b)). rewrite Z.shiftl_mul_pow2 by lia. change (2 ^ 8) with 256. rewrite u32_small by lia.
  change 256 with (2 ^ 8) at 1. rewrite lor_shifted by lia. change (2 ^ 8) with 256. apply IH; lia.
Qed.

#[export] Instance montgomery_bytes (c : constants) `{!FieldConstants c, !ByteWidthOk c} : BytesLaws (element c).
Proof.
  split.
  - intros x Hx. change (Forall byte_ok (FieldElement.Bytes c x)). rewrite Bytes_be_encode. generalize (ToUint32 c x). intros v.
    induction (nbBytes c) as [|n IH]; constructor; [apply byte_ok_land|done].
  - intros bs Hbs Hlt. change (modulus (F := element c)) with (Modulus c) in Hlt.
    change (e_SetBytes bs) with (FieldElement.SetBytes c bs). unfold FieldElement.SetBytes. rewrite fold_trim.
    pose proof (BigSetBytes_bound bs Hbs) as Hb. pose proof (modulus_small (c := c)) as HM.
    unfold Register.BigSetBytes in *. rewrite accumulate_bytes by (done || lia). set (z := foldl _ 0 bs) in *.
    change (element_ok (F := element c)) with (valid c). change (val (F := element c)) with (ToUint32 c).
    split; [apply New_spec; unfold r; lia|]. rewrite New_value by (unfold r; lia). apply Z.mod_small. lia.
Qed.

(** ** Limbs of a value *)

Section Compute.
Context {F : Type} `{!Element F, !ElementLaws F, !BytesLaws F, !Hasher F, !ExactHasher F}.

Abbreviation p := (modulus (F := F)).




(** ** The values to prove *)






(** ** Constraints that the columns satisfy *)

Section Accepting.
Context (tr : list (ArrayModule F)) (sc : list ModuleView) (Htr : trace_ok tr sc).




End Accepting.

(** ** The columns of a proof module *)











End Compute.

Module ComputeProperties.

Section Properties.
Context {F : Type} `{!Element F, !ElementLaws F, !BytesLaws F, !Hasher F, !ExactHasher F}.


End Properties.
(** The values 300, 5 and 300 with padding 0, in limbs of eight and five bits *)
Abbreviation K := (element koalabear).





End ComputeProperties.
